(* ===== verification/_CoqProject ===== *)
-Q . S2P
Prelude.v
Token.v
Lexer.v
LexerProps.v
TokenStream.v
Ast.v
AstText.v
AstTypes.v
Scope.v
IntTypes.v
TypeRel.v
Ownership.v
ThreadBoundary.v
Aspects.v
ParserMonad.v
ParserLogic.v
TypeParser.v
TypeText.v
ExprParser.v
ExprProps.v
StmtParser.v
StmtProps.v
DeclParser.v
DeclProps.v
ModuleParser.v
ModuleProps.v
AstWf.v
ExprWf.v
StmtWf.v
DeclWf.v
FrontEnd.v
Precedence.v
Format.v
FormatProps.v
Lint.v
AstCopy.v
Splice.v
ModuleSource.v
Closure.v
Registry.v
RegistryProps.v
Json.v
Lsp.v
LspProps.v
Repl.v
ReplProps.v
Docgen.v
Words.v
Utf8.v
Codec.v
Convert.v
StrRegistry.v
StrThreads.v
Channel.v
Threads.v
Agents.v
Async.v
Manifest.v
ErrorRt.v
