(* ===== verification/Prelude.v ===== *)
(** * A verification library for the Vyb compiler and runtime

    Vyb is a compiler written in C++ (src/src, src/include/vyb) with a runtime
    in C (src/runtime) that every compiled program links. A source file goes
    through the module registry, which calls the lexer and the recursive-descent
    parsers for it and for every module it imports, then through the semantic
    analyzer and LLVM code generation; the generated code calls the runtime for
    strings, channels, threads, agents and fibers. This library models the
    parts that decide what a program means before code is generated, the
    formatter, linter, documentation generator and language server that work on
    the same trees, the interactive session, and the concurrent core of the
    runtime, and proves what they promise to the next part.

    ** How the parts fit together

    The lexer turns bytes into tokens and layout tokens. The parsers share one
    cursor over the token vector ([BaseParser]) and build the syntax tree. The
    module registry takes the directives out of a source, parses it, resolves
    the modules it imports first and splices copies of their declarations into
    its body. The analyzer walks the tree with a stack of symbol tables and a stack of
    ownership scopes, compares types through [areTypesCompatible] (which falls
    back on the printed text of types), registers aspects, and checks what a
    closure carries to another thread. Files, in dependency order:

    - [Prelude]: byte strings, exceptions as values ([outcome]), casts,
      [std::to_string], list lemmas, and the tactics used everywhere.
    - [Token]: token.hpp, source_location.hpp, token.cpp.
    - [Lexer], [LexerProps]: lexer.cpp. One definition per branch of
      [Lexer::tokenize]; the state record has the members of the class.
    - [TokenStream]: base_parser.cpp. Refinement of the cursor to the list of
      significant tokens ahead.
    - [Ast], [AstText], [AstTypes]: ast.hpp and ast.cpp. Every node class as a
      constructor, every [toString] method, [clone], and what the text of a
      type says about the type.
    - [Scope]: [SymbolTable] and the module gate of semantic.hpp,
      semantic_scope.cpp.
    - [IntTypes]: integer literals (expression_parser.cpp), the integer tables
      (semantic_internal.hpp) and [checkIntegerAssignment] (semantic.cpp).
    - [TypeRel]: semantic_type_relations.cpp and the text helpers of
      semantic_internal.hpp.
    - [Ownership]: semantic_ownership.cpp, with [enterScope], [exitScope] and
      the visitor of identifiers of semantic.cpp.
    - [ThreadBoundary]: semantic_thread_boundary.cpp, thread_boundary.hpp,
      closure_captures.hpp, analysis_facts.hpp.
    - [Aspects]: the declaration, search and inheritance parts of
      semantic_aspects.cpp with the records of semantic.hpp.
    - [ParserMonad]: the effects of the parsers (shared cursor, node ids,
      exceptions that carry the state) and rules to reason about them;
      [ParserLogic]: the rules the larger parsers need.
    - [TypeParser]: type_parser.cpp over that monad.
    - [TypeText]: printed types through the lexer and the type parser.
    - [ExprParser], [StmtParser], [DeclParser], [ModuleParser]:
      expression_parser.cpp, statement_parser.cpp, declaration_parser.cpp,
      module_parser.cpp and parser.cpp, one definition per method. Each parser
      has the others as arguments; [parsers] in [ModuleParser] ties them.
      [ExprProps], [StmtProps], [DeclProps], [ModuleProps]: termination, lemma
      by lemma in the order of the definitions. [AstWf], [ExprWf], [StmtWf],
      [DeclWf]: the trees are well-formed. [FrontEnd]: from text to module.
      [Precedence]: operators.
    - [Format], [FormatProps]: format.cpp and the formatted text through the
      front end. [Lint]: lint.cpp.
    - [AstCopy], [Splice], [ModuleSource], [Closure], [Registry]:
      module_registry.cpp: the copier of trees; the names a tree mentions and
      the two rewritings of names; the directives of a source; what an import
      carries along; files, imports, splicing and resolution. [RegistryProps]:
      resolution ends, dependencies first.
    - [Json], [Lsp], [LspProps]: lsp.cpp. JSON values, their parser and writer;
      the server's document, handlers, frames and loop, with the parser as an
      argument; what a session promises, and where it departs from the protocol.
    - [Repl], [ReplProps]: repl.cpp. The line editor, the reading of entries, and
      the session, with the file system and the compiler it starts as a record
      of operations ([System]); what a session keeps.
    - [Docgen]: docgen.cpp. Doc comments, signatures and the pages, and a reader
      of pages to state what they say.

    The runtime is one C file, vyb_runtime.c. Generated code retains and
    releases strings in a registry, which all threads share; channels own
    references to the strings they buffer; tasks deliver through channels and
    agents receive through them; fibers are scheduled by a pool of their own.

    - [Words]: bytes, wrap-around, masks and shifts.
    - [Utf8]: the UTF-8 functions. [Codec]: hexadecimal, base64, SHA-256,
      SHA-1 and the WebSocket accept key. [Convert]: numbers and Booleans to
      and from text, the random numbers.
    - [StrRegistry]: the string registry, an open-addressing table with
      tombstones that grows. [StrThreads]: threads interleaving on it, and the
      guard that keeps lock-free readers off a table that is replaced.
    - [Channel]: Int and String channels, their condition variable, one-shot
      tasks and select.
    - [Threads]: the thread table with spawn, join and detach.
    - [Agents]: the agent table, handles with generations, the worker loop.
    - [Async]: the fiber scheduler with its queues, timers and waiters.
    - [ErrorRt]: error_handling.cpp, the error runtime in C++: call stack,
      error values on a heap, exit code of an untrapped error, and the type
      registry of vyb_type_metadata.c it asks.

    Beside both stands the project file:

    - [Manifest]: manifest.cpp and manifest.hpp, the reader of vyb.toml and the
      two writers.

    ** What the theorems show

    - Lexer: it ends on every source; layout tokens are balanced and there is
      one end of file; lexemes are the source text; locations and counters
      stay in range on sources below 2^28 bytes; words and escaped strings
      read back; brackets suspend layout.
    - Token stream: the cursor implements a list of tokens; [put_back_token]
      undoes [consume]; on the lexer's output the end of file is always found.
    - Types as text: equal texts are equal types on the types the text
      describes completely; a clone has fresh ids and the same text; a printed
      type lexes and parses back to a type of the same shape.
    - Type parser: it ends on every token stream, given an expression parser
      that ends and does not move backwards (class [ExpressionParser]), which
      the expression parser is.
    - Front end: lexing and parsing end on every text, through the recovery of
      the module parser too; the trees are well-formed and the one undefined
      behaviour is named; the expression parser finds the reading of a sentence
      of operators that respects their levels, and only it.
    - Formatter and linter: a formatted expression of operators and literals
      reads back as the same tree; the linter reports exactly the names that
      are introduced and not used in their function.
    - Module registry: taking out the directives moves no line; a copy is the
      tree it was made from but for the ownership flag of variables and the type
      argument of [typeof], which it drops; an import carries exactly what is
      reachable from the names asked for, in whatever order hash tables are walked; resolution
      ends on every import graph and leaves a topological order.
    - Language server: values read back as they were written; messages are read
      as they were sent and, unless the server crashes, each request is
      answered once under its id as the server prints it; the symbols are those
      of the text at hand.
    - Interactive session: the editor by index is a zipper in a zipper; a session
      ends and keeps exactly what the compiler accepted, where statements are one
      line. Documentation: a page reads back as its template and fields, and a
      declaration's doc comment is found above it.
    - Integers: literals read back; the assignment policy admits only values
      the target type can hold.
    - Type relations: compatibility ends while aliases do not loop and admits
      every copy of a type; what the substitution of [Self] gives.
    - Ownership: no variable is borrowed mutably while it is borrowed
      otherwise; [recordBorrow] on every branch; a block leaves the scopes as
      it found them. Two theorems state where move and borrow records differ
      from the scoping of names.
    - Thread boundary: the capability walk agrees with an inductive
      specification, and a spawn site reports exactly the captures that may
      not cross; when the walk ends and when it does not.
    - Aspects: the two searches decide reachability of super-aspects; the
      final check is silent exactly on well-formed hierarchies, whenever it
      returns; when it returns and when it does not.
    - Runtime text: the UTF-8 decoder accepts exactly the encodings of code
      points; the codecs and conversions read back and refuse the rest.
    - String registry: it refines a map from pointers to counts, with bounded
      load up to the capacity it may be given; over every interleaving held
      buffers stay, freed ones are freed once and none leaks. The wait of the
      reader guard ends; the guard keeps readers out where the store that
      announces a rehash is not late, and the memory order the code uses lets it
      be late.
    - Channels: a FIFO queue within its memory; no lost wakeup; close drains;
      tasks deliver; String channels own exactly their buffered references.
    - Threads and agents: a join returns the result of the thread it saw;
      environments are released; dead agent handles stay dead; a worker
      consumes its mailbox in order and reports its failure.
    - Fibers: every unfinished task is in exactly one place, freed tasks in
      none; awaits get the result.
    - Errors: the bounded call stack stands for the unbounded one; an error is
      created and released whole, and shares no block with its clone but what
      its payload owns.
    - Manifest: the reader accepts exactly the texts of its format and names
      the first line that is not of it; what is read back of a written
      manifest, and what is lost.

    ** Conventions, fuel and bounds

    A [std::string] is [list ascii]; a nullable pointer is an [option]; [int]
    and wider integers are [Z] with a theorem that bounds them or the cast
    written out; the back of a C++ vector used as a stack is the head of a
    list; [throw] is a value of [outcome] (or [Raise] in the parsers, with the
    state it left).

    Loops that are not structural take fuel, and [None] only ever means "has
    not returned yet". The lexer's loop gets the length of the source: each
    iteration consumes a byte. The parsers need one more unit than there are
    tokens ahead: each level of nesting and each round of a loop consumes a
    token. The closure of an import gets the sizes of the module's tables,
    since each pass but the last adds a name or a bind; resolution needs two
    more than there are files, and one level where imports are skipped, as the
    language server does. The JSON parser needs two levels per byte, the
    server's loop one per message; the session's loops one level more than there
    are bytes to read. The searches with a visited
    set get the size of the registry. Compatibility, the capability walk and
    the cycle search follow user data without a record of what was visited;
    their termination theorems state the condition the data must meet, and the
    divergence theorems show data on which the code does not return. In the
    runtime the UTF-8 loops get one more unit than there are bytes, the SHA-1
    padding loop 64, the doubling and rounding loops of the registry 64 (one
    per bit of a size), the worker loop of an agent one more than there are
    messages, select a number of passes, whose theorem says which one is
    enough, and the release and clone of an error the length of its cause
    chain.

    Concurrent code is a step relation whose steps are the atomic operations
    and the bodies under a lock; a call that blocks, or that works outside the
    lock, is split there. Calls that may fail (malloc, calloc, pthread_create)
    are flags. [Undefined] marks what C leaves undefined.

    What the platform decides is a parameter: the order in which a compiler
    evaluates the arguments of a call ([args_ltr]), whether strtoll reads the
    prefix 0b ([c23_strtoll]), the order in which a hash table is walked
    ([order], a permutation of the elements), whether code is generated for a
    device ([device]), the file system with its environment
    ([FileSystem]), and the programs a session starts ([System]).

    ** What is not modelled

    LLVM code generation builds IR through a library outside the sources. The
    driver, the attributes of the terminal, the binding generator, and the
    runtime's files, sockets, TLS, processes and Qt bridges are input and
    output. Verbose printing is left out. The visitors of
    semantic.cpp beyond identifiers and integer assignments, bind declarations
    and qualified calls in semantic_aspects.cpp, the typing of vectors and
    intrinsics, the JSON text of values, the printed layout of error reports
    and socket waits of fibers are not modelled yet, in that order.

    ** This file

    Byte strings, the exception monad the C++ code's [throw] is translated to,
    decimal rendering, the machine-width casts, character classes of the C
    locale, and the list lemmas the component files share. *)

From stdpp Require Export base list strings gmap pretty.
From Stdlib Require Export ZArith Lia Ascii.
From Stdlib Require String.
#[global] Open Scope char_scope.
#[global] Open Scope nat_scope.

(** ** Strings

    A [std::string] is a sequence of bytes: [list ascii]. A literal is written
    [$"text"]; the double quote and the control characters have names. *)

Abbreviation str := (list ascii).

Declare Scope vyb_scope.
Delimit Scope vyb_scope with vyb.
#[global] Open Scope vyb_scope.

Notation "$ s" := (String.list_ascii_of_string s%string) (at level 1, s at level 1, format "$ s") : vyb_scope.

Definition ch_quote : ascii := "034"%char.
Definition ch_nl : ascii := "010"%char.
Definition ch_cr : ascii := "013"%char.
Definition ch_tab : ascii := "009"%char.
Definition ch_nul : ascii := "000"%char.
Definition ch_bslash : ascii := "092"%char.

(** Boolean equality of bytes and byte strings, the [==] of the source. *)
Definition ceq (a b : ascii) : bool := bool_decide (a = b).
Definition streq (a b : str) : bool := bool_decide (a = b).
Infix "=c" := ceq (at level 70) : vyb_scope.
Infix "=s" := streq (at level 70) : vyb_scope.

Lemma ceq_true a b : ceq a b = true <-> a = b.
Proof. apply bool_decide_eq_true. Qed.
Lemma ceq_false a b : ceq a b = false <-> a <> b.
Proof. apply bool_decide_eq_false. Qed.
Lemma ceq_refl a : ceq a a = true.
Proof. by apply ceq_true. Qed.
Lemma streq_true a b : streq a b = true <-> a = b.
Proof. apply bool_decide_eq_true. Qed.
Lemma streq_false a b : streq a b = false <-> a <> b.
Proof. apply bool_decide_eq_false. Qed.
Lemma streq_refl a : streq a a = true.
Proof. by apply streq_true. Qed.

(** ** Exceptions

    [throw std::runtime_error(m)] is [Throw (runtime_error m)]; the numeric
    conversions of the standard library throw the next two. The last is not an
    exception: it marks a point where the behaviour of the C++ is undefined, and
    no handler catches it. A computation that can throw returns an [outcome]. *)

Inductive exn : Type :=
| runtime_error (what : str)
| out_of_range (what : str)
| invalid_argument (what : str)
| undefined_behaviour (what : str).

Inductive outcome (A : Type) : Type :=
| Ok (a : A)
| Throw (e : exn).
Arguments Ok {A} _.
Arguments Throw {A} _.

#[global] Instance outcome_ret : MRet outcome := fun A a => Ok a.
#[global] Instance outcome_bind : MBind outcome := fun A B k m =>
  match m with Ok a => k a | Throw e => Throw e end.

Definition throw_runtime {A} (m : str) : outcome A := Throw (runtime_error m).

Definition is_ok {A} (m : outcome A) : bool :=
  match m with Ok _ => true | Throw _ => false end.

Lemma bind_Ok {A B} (m : outcome A) (k : A -> outcome B) b :
  m ≫= k = Ok b <-> exists a, m = Ok a /\ k a = Ok b.
Proof.
  destruct m as [a|e]; cbn; split; intros H.
  - eauto.
  - destruct H as (? & [= ->] & ?); done.
  - done.
  - by destruct H as (? & ? & ?).
Qed.

(** ** Numbers as text and at machine width *)

(** [std::to_string] on an integer. *)
Definition to_string (z : Z) : str := $(pretty z).

Definition to_uint32 (z : Z) : Z := (z mod 2 ^ 32)%Z.
Definition to_uint64 (z : Z) : Z := (z mod 2 ^ 64)%Z.
Definition to_int64 (z : Z) : Z :=
  let u := (z mod 2 ^ 64)%Z in if (u <? 2 ^ 63)%Z then u else (u - 2 ^ 64)%Z.
Definition to_int32 (z : Z) : Z :=
  let u := (z mod 2 ^ 32)%Z in if (u <? 2 ^ 31)%Z then u else (u - 2 ^ 32)%Z.

Lemma to_uint32_small z : (0 <= z < 2 ^ 32)%Z -> to_uint32 z = z.
Proof. intros. unfold to_uint32. by apply Z.mod_small. Qed.

(** The code of a byte. *)
Definition code (c : ascii) : N := N_of_ascii c.

(** [c >= lo && c <= hi] *)
Definition in_range (c lo hi : ascii) : bool :=
  ((code lo <=? code c) && (code c <=? code hi))%N.

(** [std::isspace] in the C locale. *)
Definition isspace (c : ascii) : bool :=
  (c =c " ") || (c =c "009") || (c =c "010") || (c =c "011") || (c =c "012") || (c =c "013").

(** ** Lists *)

Lemma forallb_rev {A} (p : A -> bool) l : forallb p (rev l) = forallb p l.
Proof. induction l as [|a l IH]; [done|]. cbn. rewrite forallb_app, IH. cbn. by rewrite andb_true_r, andb_comm. Qed.

(** The longest prefix whose elements satisfy [p], and what follows it. *)
Fixpoint take_while {A} (p : A -> bool) (l : list A) : list A :=
  match l with
  | [] => []
  | x :: l' => if p x then x :: take_while p l' else []
  end.

Fixpoint drop_while {A} (p : A -> bool) (l : list A) : list A :=
  match l with
  | [] => []
  | x :: l' => if p x then drop_while p l' else l
  end.

Section take_while.
Context {A : Type} (p : A -> bool).

Lemma take_drop_while l : take_while p l ++ drop_while p l = l.
  Proof. induction l as [|x l IH]; cbn; [done|]. destruct (p x); cbn; congruence. Qed.

Lemma length_take_while l : length (take_while p l) <= length l.
  Proof. induction l as [|x l IH]; cbn; [lia|]. destruct (p x); cbn; lia. Qed.

Lemma take_while_app l1 l2 :
    Forall (fun x => p x = true) l1 ->
    take_while p (l1 ++ l2) = l1 ++ take_while p l2.
  Proof. induction 1 as [|x l Hx _ IH]; cbn; [done|]. by rewrite Hx, IH. Qed.

Lemma drop_while_app l1 l2 :
    Forall (fun x => p x = true) l1 ->
    drop_while p (l1 ++ l2) = drop_while p l2.
  Proof. induction 1 as [|x l Hx _ IH]; cbn; [done|]. by rewrite Hx, IH. Qed.

Lemma take_while_Forall l : Forall (fun x => p x = true) (take_while p l).
  Proof.
    induction l as [|x l IH]; cbn; [constructor|].
    destruct (p x) eqn:E; constructor; auto.
  Qed.

Lemma take_while_prefix l : take_while p l = take (length (take_while p l)) l.
  Proof. induction l as [|x l IH]; cbn; [done|]. destruct (p x); cbn; congruence. Qed.

Lemma drop_take_while l : drop (length (take_while p l)) l = drop_while p l.
  Proof. induction l as [|x l IH]; cbn; [done|]. destruct (p x); cbn; congruence. Qed.

Lemma drop_while_head x l l' : drop_while p l = x :: l' -> p x = false.
  Proof.
    induction l as [|y l IH]; cbn; [done|].
    destruct (p y) eqn:E; [auto|]. intros [= -> ->]; done.
  Qed.

Lemma length_drop_while l : length (drop_while p l) <= length l.
  Proof. induction l as [|x l IH]; cbn; [lia|]. destruct (p x); cbn; lia. Qed.
End take_while.

(** Association lists: the [std::unordered_map] literals of the source, and
    vectors of pairs searched front to back. *)
Fixpoint assoc_find {K V} `{EqDecision K} (k : K) (l : list (K * V)) : option V :=
  match l with
  | [] => None
  | (k', v) :: l' => if decide (k = k') then Some v else assoc_find k l'
  end.

Lemma assoc_elem_of {K V} `{EqDecision K} (k : K) (v : V) l :
  assoc_find k l = Some v -> (k, v) ∈ l.
Proof.
  induction l as [|[k' v'] l IH]; cbn; [done|].
  case_decide; [intros [= ->]; subst|]; set_solver.
Qed.

Lemma assoc_None {K V} `{EqDecision K} (k : K) (l : list (K * V)) :
  assoc_find k l = None <-> k ∉ l.*1.
Proof.
  induction l as [|[k' v'] l IH]; cbn; [split; [intros _; apply not_elem_of_nil | done]|].
  rewrite not_elem_of_cons. case_decide; subst; [split; [done | intros [? _]; done]|].
  rewrite IH. tauto.
Qed.

(** ** Automation *)

(** Split every hypothesis of the shape [x ← m; k = Ok _]. *)
Ltac outcome_inv :=
  repeat match goal with
  | H : (_ ≫= _) = Ok _ |- _ =>
      apply bind_Ok in H; destruct H as (? & ? & H)
  | H : Ok _ = Ok _ |- _ => injection H; clear H; intros; subst
  | H : throw_runtime _ = Ok _ |- _ => discriminate H
  | H : Throw _ = Ok _ |- _ => discriminate H
  | H : Ok _ = Throw _ |- _ => discriminate H
  end.

(** Case on the test of an [if] in a hypothesis or the goal. *)
Ltac case_if :=
  match goal with
  | |- context [if ?b then _ else _] => destruct b eqn:?
  | H : context [if ?b then _ else _] |- _ => destruct b eqn:?
  end.

Create HintDb vyb discriminated.
Create Rewrite HintDb vyb.
#[export] Hint Constants Opaque : vyb.
#[export] Hint Resolve ceq_refl streq_refl length_take_while length_drop_while : vyb.
#[export] Hint Rewrite @length_app @app_nil_r : vyb.

(** Closes a closed decidable goal by evaluating its decision procedure. *)
Ltac by_decision := apply (bool_decide_unpack _); vm_compute; exact I.
