(* ===== verification/Token.v ===== *)
(** * Tokens

    [include/vyb/parser/token.hpp], [source_location.hpp] and
    [src/parser/token.cpp]: the token kinds, source locations, tokens and their
    textual rendering. *)

From S2P Require Import Prelude.

(** The enumeration [vyb::TokenType], in the order of its declaration. *)
Inductive TokenType : Type :=
  | IDENTIFIER | INT_LITERAL | FLOAT_LITERAL | STRING_LITERAL | CHAR_LITERAL
  | KEYWORD_LET | KEYWORD_VAR | KEYWORD_CONST | KEYWORD_IF | KEYWORD_ELSE
  | KEYWORD_WHILE | KEYWORD_FOR | KEYWORD_RETURN | KEYWORD_BREAK | KEYWORD_CONTINUE
  | KEYWORD_NULL | KEYWORD_TRUE | KEYWORD_FALSE | KEYWORD_FN | KEYWORD_STRUCT
  | KEYWORD_ENUM | KEYWORD_ASPECT | KEYWORD_BIND | KEYWORD_TYPE | KEYWORD_MODULE
  | KEYWORD_USE | KEYWORD_PUB | KEYWORD_MUT | KEYWORD_TRY | KEYWORD_CATCH
  | KEYWORD_FINALLY | KEYWORD_DEFER | KEYWORD_MATCH | KEYWORD_SELECT | KEYWORD_PASS
  | KEYWORD_SCOPED | KEYWORD_REF | KEYWORD_EXTERN | KEYWORD_AS | KEYWORD_IN
  | KEYWORD_CLASS | KEYWORD_TEMPLATE | KEYWORD_IMPORT | KEYWORD_SMUGGLE | KEYWORD_FROM
  | KEYWORD_AWAIT | KEYWORD_ASYNC | KEYWORD_OPERATOR | KEYWORD_MY | KEYWORD_OUR
  | KEYWORD_THEIR | KEYWORD_MILD | KEYWORD_PTR | KEYWORD_BORROW | KEYWORD_VIEW
  | KEYWORD_NIL | KEYWORD_FREEDOM | KEYWORD_AUTO | KEYWORD_FAIL | KEYWORD_TRAP
  | KEYWORD_REFAIL | KEYWORD_ENSURE | KEYWORD_PANIC | KEYWORD_EXIT | KEYWORD_ASSERT
  | KEYWORD_TYPEOF | KEYWORD_TYPENAME | PLUS | MINUS | MULTIPLY
  | DIVIDE | MODULO | EQ | EQEQ | NOTEQ
  | LT | GT | LTEQ | GTEQ | AND
  | OR | BANG | AMPERSAND | PIPE | CARET
  | TILDE | LSHIFT | RSHIFT | DOTDOT | ELLIPSIS
  | PLUSEQ | MINUSEQ | MULTIPLYEQ | DIVEQ | MODEQ
  | LSHIFTEQ | RSHIFTEQ | BITWISEANDEQ | BITWISEOREQ | BITWISEXOREQ
  | COLONEQ | LPAREN | RPAREN | LBRACE | RBRACE
  | LBRACKET | RBRACKET | COMMA | DOT | COLON
  | SEMICOLON | ARROW | FAT_ARROW | COLONCOLON | AT
  | HASH | UNDERSCORE | QUESTION_MARK | UNKNOWN | END_OF_FILE
  | COMMENT | NEWLINE | INDENT | DEDENT | ILLEGAL.

(** The enumerators in declaration order; an enumerator's value is its index. *)
Definition TokenType_values : list TokenType :=
  [ IDENTIFIER; INT_LITERAL; FLOAT_LITERAL; STRING_LITERAL; CHAR_LITERAL;
    KEYWORD_LET; KEYWORD_VAR; KEYWORD_CONST; KEYWORD_IF; KEYWORD_ELSE;
    KEYWORD_WHILE; KEYWORD_FOR; KEYWORD_RETURN; KEYWORD_BREAK; KEYWORD_CONTINUE;
    KEYWORD_NULL; KEYWORD_TRUE; KEYWORD_FALSE; KEYWORD_FN; KEYWORD_STRUCT;
    KEYWORD_ENUM; KEYWORD_ASPECT; KEYWORD_BIND; KEYWORD_TYPE; KEYWORD_MODULE;
    KEYWORD_USE; KEYWORD_PUB; KEYWORD_MUT; KEYWORD_TRY; KEYWORD_CATCH;
    KEYWORD_FINALLY; KEYWORD_DEFER; KEYWORD_MATCH; KEYWORD_SELECT; KEYWORD_PASS;
    KEYWORD_SCOPED; KEYWORD_REF; KEYWORD_EXTERN; KEYWORD_AS; KEYWORD_IN;
    KEYWORD_CLASS; KEYWORD_TEMPLATE; KEYWORD_IMPORT; KEYWORD_SMUGGLE; KEYWORD_FROM;
    KEYWORD_AWAIT; KEYWORD_ASYNC; KEYWORD_OPERATOR; KEYWORD_MY; KEYWORD_OUR;
    KEYWORD_THEIR; KEYWORD_MILD; KEYWORD_PTR; KEYWORD_BORROW; KEYWORD_VIEW;
    KEYWORD_NIL; KEYWORD_FREEDOM; KEYWORD_AUTO; KEYWORD_FAIL; KEYWORD_TRAP;
    KEYWORD_REFAIL; KEYWORD_ENSURE; KEYWORD_PANIC; KEYWORD_EXIT; KEYWORD_ASSERT;
    KEYWORD_TYPEOF; KEYWORD_TYPENAME; PLUS; MINUS; MULTIPLY;
    DIVIDE; MODULO; EQ; EQEQ; NOTEQ;
    LT; GT; LTEQ; GTEQ; AND;
    OR; BANG; AMPERSAND; PIPE; CARET;
    TILDE; LSHIFT; RSHIFT; DOTDOT; ELLIPSIS;
    PLUSEQ; MINUSEQ; MULTIPLYEQ; DIVEQ; MODEQ;
    LSHIFTEQ; RSHIFTEQ; BITWISEANDEQ; BITWISEOREQ; BITWISEXOREQ;
    COLONEQ; LPAREN; RPAREN; LBRACE; RBRACE;
    LBRACKET; RBRACKET; COMMA; DOT; COLON;
    SEMICOLON; ARROW; FAT_ARROW; COLONCOLON; AT;
    HASH; UNDERSCORE; QUESTION_MARK; UNKNOWN; END_OF_FILE;
    COMMENT; NEWLINE; INDENT; DEDENT; ILLEGAL ].

Definition TokenType_value (t : TokenType) : N :=
  match t with
  | IDENTIFIER => 0 | INT_LITERAL => 1 | FLOAT_LITERAL => 2 | STRING_LITERAL => 3
  | CHAR_LITERAL => 4 | KEYWORD_LET => 5 | KEYWORD_VAR => 6 | KEYWORD_CONST => 7
  | KEYWORD_IF => 8 | KEYWORD_ELSE => 9 | KEYWORD_WHILE => 10 | KEYWORD_FOR => 11
  | KEYWORD_RETURN => 12 | KEYWORD_BREAK => 13 | KEYWORD_CONTINUE => 14 | KEYWORD_NULL => 15
  | KEYWORD_TRUE => 16 | KEYWORD_FALSE => 17 | KEYWORD_FN => 18 | KEYWORD_STRUCT => 19
  | KEYWORD_ENUM => 20 | KEYWORD_ASPECT => 21 | KEYWORD_BIND => 22 | KEYWORD_TYPE => 23
  | KEYWORD_MODULE => 24 | KEYWORD_USE => 25 | KEYWORD_PUB => 26 | KEYWORD_MUT => 27
  | KEYWORD_TRY => 28 | KEYWORD_CATCH => 29 | KEYWORD_FINALLY => 30 | KEYWORD_DEFER => 31
  | KEYWORD_MATCH => 32 | KEYWORD_SELECT => 33 | KEYWORD_PASS => 34 | KEYWORD_SCOPED => 35
  | KEYWORD_REF => 36 | KEYWORD_EXTERN => 37 | KEYWORD_AS => 38 | KEYWORD_IN => 39
  | KEYWORD_CLASS => 40 | KEYWORD_TEMPLATE => 41 | KEYWORD_IMPORT => 42 | KEYWORD_SMUGGLE => 43
  | KEYWORD_FROM => 44 | KEYWORD_AWAIT => 45 | KEYWORD_ASYNC => 46 | KEYWORD_OPERATOR => 47
  | KEYWORD_MY => 48 | KEYWORD_OUR => 49 | KEYWORD_THEIR => 50 | KEYWORD_MILD => 51
  | KEYWORD_PTR => 52 | KEYWORD_BORROW => 53 | KEYWORD_VIEW => 54 | KEYWORD_NIL => 55
  | KEYWORD_FREEDOM => 56 | KEYWORD_AUTO => 57 | KEYWORD_FAIL => 58 | KEYWORD_TRAP => 59
  | KEYWORD_REFAIL => 60 | KEYWORD_ENSURE => 61 | KEYWORD_PANIC => 62 | KEYWORD_EXIT => 63
  | KEYWORD_ASSERT => 64 | KEYWORD_TYPEOF => 65 | KEYWORD_TYPENAME => 66 | PLUS => 67
  | MINUS => 68 | MULTIPLY => 69 | DIVIDE => 70 | MODULO => 71
  | EQ => 72 | EQEQ => 73 | NOTEQ => 74 | LT => 75
  | GT => 76 | LTEQ => 77 | GTEQ => 78 | AND => 79
  | OR => 80 | BANG => 81 | AMPERSAND => 82 | PIPE => 83
  | CARET => 84 | TILDE => 85 | LSHIFT => 86 | RSHIFT => 87
  | DOTDOT => 88 | ELLIPSIS => 89 | PLUSEQ => 90 | MINUSEQ => 91
  | MULTIPLYEQ => 92 | DIVEQ => 93 | MODEQ => 94 | LSHIFTEQ => 95
  | RSHIFTEQ => 96 | BITWISEANDEQ => 97 | BITWISEOREQ => 98 | BITWISEXOREQ => 99
  | COLONEQ => 100 | LPAREN => 101 | RPAREN => 102 | LBRACE => 103
  | RBRACE => 104 | LBRACKET => 105 | RBRACKET => 106 | COMMA => 107
  | DOT => 108 | COLON => 109 | SEMICOLON => 110 | ARROW => 111
  | FAT_ARROW => 112 | COLONCOLON => 113 | AT => 114 | HASH => 115
  | UNDERSCORE => 116 | QUESTION_MARK => 117 | UNKNOWN => 118 | END_OF_FILE => 119
  | COMMENT => 120 | NEWLINE => 121 | INDENT => 122 | DEDENT => 123
  | ILLEGAL => 124
  end.


Lemma TokenType_values_spec t : TokenType_values !! N.to_nat (TokenType_value t) = Some t.
Proof. by destruct t. Qed.

#[export] Instance TokenType_value_inj : Inj (=) (=) TokenType_value.
Proof.
  intros a b H. apply (inj Some). by rewrite <- (TokenType_values_spec a), H, TokenType_values_spec.
Qed.

#[export] Instance TokenType_eq_dec : EqDecision TokenType :=
  fun a b => match decide (TokenType_value a = TokenType_value b) with
             | left H => left (TokenType_value_inj a b H)
             | right H => right (fun E => H (f_equal TokenType_value E))
             end.

Definition tteq (a b : TokenType) : bool := bool_decide (a = b).
Infix "=t" := tteq (at level 70) : vyb_scope.

Lemma tteq_true a b : tteq a b = true <-> a = b.
Proof. apply bool_decide_eq_true. Qed.
Lemma tteq_false a b : tteq a b = false <-> a <> b.
Proof. apply bool_decide_eq_false. Qed.
Lemma tteq_refl a : tteq a a = true.
Proof. by apply tteq_true. Qed.

(** A boolean test that holds of every enumerator holds of every token kind. *)
Lemma TokenType_forallb (P : TokenType -> bool) :
  forallb P TokenType_values = true -> forall t, P t = true.
Proof.
  intros H t. rewrite forallb_forall in H. apply H.
  apply list_elem_of_In, list_elem_of_lookup.
  exists (N.to_nat (TokenType_value t)). apply TokenType_values_spec.
Qed.

(** ** [token_type_to_string]

    The static table of [token.cpp]; a kind the table lacks is rendered
    [UNKNOWN]. *)
Definition token_map : list (TokenType * str) :=
  [ (IDENTIFIER, $"IDENTIFIER"); (INT_LITERAL, $"INT_LITERAL"); (FLOAT_LITERAL, $"FLOAT_LITERAL");
    (STRING_LITERAL, $"STRING_LITERAL"); (CHAR_LITERAL, $"CHAR_LITERAL"); (KEYWORD_LET, $"KEYWORD_LET");
    (KEYWORD_VAR, $"KEYWORD_VAR"); (KEYWORD_CONST, $"KEYWORD_CONST"); (KEYWORD_IF, $"KEYWORD_IF");
    (KEYWORD_ELSE, $"KEYWORD_ELSE"); (KEYWORD_WHILE, $"KEYWORD_WHILE"); (KEYWORD_FOR, $"KEYWORD_FOR");
    (KEYWORD_RETURN, $"KEYWORD_RETURN"); (KEYWORD_BREAK, $"KEYWORD_BREAK"); (KEYWORD_CONTINUE, $"KEYWORD_CONTINUE");
    (KEYWORD_NULL, $"KEYWORD_NULL"); (KEYWORD_TRUE, $"KEYWORD_TRUE"); (KEYWORD_FALSE, $"KEYWORD_FALSE");
    (KEYWORD_FN, $"KEYWORD_FN"); (KEYWORD_STRUCT, $"KEYWORD_STRUCT"); (KEYWORD_ENUM, $"KEYWORD_ENUM");
    (KEYWORD_ASPECT, $"KEYWORD_ASPECT"); (KEYWORD_BIND, $"KEYWORD_BIND"); (KEYWORD_TYPE, $"KEYWORD_TYPE");
    (KEYWORD_MODULE, $"KEYWORD_MODULE"); (KEYWORD_USE, $"KEYWORD_USE"); (KEYWORD_PUB, $"KEYWORD_PUB");
    (KEYWORD_MUT, $"KEYWORD_MUT"); (KEYWORD_TRY, $"KEYWORD_TRY"); (KEYWORD_CATCH, $"KEYWORD_CATCH");
    (KEYWORD_FINALLY, $"KEYWORD_FINALLY"); (KEYWORD_DEFER, $"KEYWORD_DEFER"); (KEYWORD_MATCH, $"KEYWORD_MATCH");
    (KEYWORD_SELECT, $"KEYWORD_SELECT"); (KEYWORD_PASS, $"KEYWORD_PASS"); (KEYWORD_SCOPED, $"KEYWORD_SCOPED");
    (KEYWORD_REF, $"KEYWORD_REF"); (KEYWORD_EXTERN, $"KEYWORD_EXTERN"); (KEYWORD_AS, $"KEYWORD_AS");
    (KEYWORD_IN, $"KEYWORD_IN"); (KEYWORD_CLASS, $"KEYWORD_CLASS"); (KEYWORD_TEMPLATE, $"KEYWORD_TEMPLATE");
    (KEYWORD_IMPORT, $"KEYWORD_IMPORT"); (KEYWORD_SMUGGLE, $"KEYWORD_SMUGGLE"); (KEYWORD_FROM, $"KEYWORD_FROM");
    (KEYWORD_AWAIT, $"KEYWORD_AWAIT"); (KEYWORD_ASYNC, $"KEYWORD_ASYNC"); (KEYWORD_OPERATOR, $"KEYWORD_OPERATOR");
    (KEYWORD_MY, $"KEYWORD_MY"); (KEYWORD_OUR, $"KEYWORD_OUR"); (KEYWORD_THEIR, $"KEYWORD_THEIR");
    (KEYWORD_MILD, $"KEYWORD_MILD"); (KEYWORD_PTR, $"KEYWORD_PTR"); (KEYWORD_BORROW, $"KEYWORD_BORROW");
    (KEYWORD_VIEW, $"KEYWORD_VIEW"); (KEYWORD_NIL, $"KEYWORD_NIL"); (KEYWORD_FREEDOM, $"KEYWORD_FREEDOM");
    (KEYWORD_AUTO, $"KEYWORD_AUTO"); (KEYWORD_FAIL, $"KEYWORD_FAIL"); (KEYWORD_TRAP, $"KEYWORD_TRAP");
    (KEYWORD_REFAIL, $"KEYWORD_REFAIL"); (KEYWORD_ENSURE, $"KEYWORD_ENSURE"); (KEYWORD_PANIC, $"KEYWORD_PANIC");
    (KEYWORD_ASSERT, $"KEYWORD_ASSERT"); (KEYWORD_TYPEOF, $"KEYWORD_TYPEOF"); (KEYWORD_TYPENAME, $"KEYWORD_TYPENAME");
    (PLUS, $"PLUS"); (MINUS, $"MINUS"); (MULTIPLY, $"MULTIPLY");
    (DIVIDE, $"DIVIDE"); (MODULO, $"MODULO"); (EQ, $"EQ");
    (EQEQ, $"EQEQ"); (NOTEQ, $"NOTEQ"); (LT, $"LT");
    (GT, $"GT"); (LTEQ, $"LTEQ"); (GTEQ, $"GTEQ");
    (AND, $"AND"); (OR, $"OR"); (BANG, $"BANG");
    (AMPERSAND, $"AMPERSAND"); (PIPE, $"PIPE"); (CARET, $"CARET");
    (TILDE, $"TILDE"); (LSHIFT, $"LSHIFT"); (RSHIFT, $"RSHIFT");
    (DOTDOT, $"DOTDOT"); (ELLIPSIS, $"ELLIPSIS"); (PLUSEQ, $"PLUSEQ");
    (MINUSEQ, $"MINUSEQ"); (MULTIPLYEQ, $"MULTIPLYEQ"); (DIVEQ, $"DIVEQ");
    (MODEQ, $"MODEQ"); (LSHIFTEQ, $"LSHIFTEQ"); (RSHIFTEQ, $"RSHIFTEQ");
    (BITWISEANDEQ, $"BITWISEANDEQ"); (BITWISEOREQ, $"BITWISEOREQ"); (BITWISEXOREQ, $"BITWISEXOREQ");
    (COLONEQ, $"COLONEQ"); (LPAREN, $"LPAREN"); (RPAREN, $"RPAREN");
    (LBRACE, $"LBRACE"); (RBRACE, $"RBRACE"); (LBRACKET, $"LBRACKET");
    (RBRACKET, $"RBRACKET"); (COMMA, $"COMMA"); (DOT, $"DOT");
    (COLON, $"COLON"); (SEMICOLON, $"SEMICOLON"); (ARROW, $"ARROW");
    (FAT_ARROW, $"FAT_ARROW"); (COLONCOLON, $"COLONCOLON"); (AT, $"AT");
    (HASH, $"HASH"); (UNDERSCORE, $"UNDERSCORE"); (QUESTION_MARK, $"QUESTION_MARK");
    (UNKNOWN, $"UNKNOWN"); (END_OF_FILE, $"END_OF_FILE"); (COMMENT, $"COMMENT");
    (NEWLINE, $"NEWLINE"); (INDENT, $"INDENT"); (DEDENT, $"DEDENT");
    (ILLEGAL, $"ILLEGAL") ].


Definition token_type_to_string (t : TokenType) : str :=
  match assoc_find t token_map with Some s => s | None => $"UNKNOWN" end.

(** ** Source locations and tokens *)

Record SourceLocation : Type := mkLoc {
  filePath : str;
  line : Z;     (* unsigned int *)
  column : Z    (* unsigned int *)
}.

#[export] Instance SourceLocation_eq_dec : EqDecision SourceLocation.
Proof. solve_decision. Defined.

Definition SourceLocation_toString (l : SourceLocation) : str :=
  filePath l ++ $":" ++ to_string (line l) ++ $":" ++ to_string (column l).

Record Token : Type := mkToken {
  type : TokenType;
  lexeme : str;
  location : SourceLocation
}.

#[export] Instance Token_eq_dec : EqDecision Token.
Proof. solve_decision. Defined.

(** The rendering writes a backslash before each quote, as the escaped
    literal of the source does. *)
Definition Token_toString (t : Token) : str :=
  $"Token(" ++ token_type_to_string (type t) ++ $", " ++ [ch_bslash; ch_quote]
  ++ lexeme t ++ [ch_bslash; ch_quote] ++ $", "
  ++ to_string (line (location t)) ++ $":" ++ to_string (column (location t)) ++ $")".
