(* ===== verification/Lexer.v ===== *)
(** * The lexer

    [include/vyb/parser/lexer.hpp] and [src/parser/lexer.cpp]: the class
    [Lexer], one definition per branch of [Lexer::tokenize].

    The state record has the members of the class. [pos_] is an index into
    [source_]; [indent_levels_] is the vector with its back at the head of the
    list; the [int] members are integers, and [lexer_bounds] below shows that
    none leaves the [int] range on a source of less than 2^28 bytes.
    [verbose_], which only prints, is left out. A branch takes the lexer and
    the token vector and returns both, or throws. *)

From S2P Require Import Prelude.
From S2P Require Import Token.

Record Lexer : Type := mkLexer {
  source_ : str;
  current_file_path_ : str;
  pos_ : nat;
  line_ : Z;
  column_ : Z;
  indent_levels_ : list Z;   (* back first *)
  nesting_level_ : Z
}.

Definition Lexer_new (source file_path : str) : Lexer :=
  mkLexer source file_path 0 1 1 [0%Z] 0.

(** What is left of the source. *)
Definition rest (L : Lexer) : str := drop (pos_ L) (source_ L).

(** [pos_ + k < source_.size() && source_[pos_ + k] == c] *)
Definition next_is (L : Lexer) (k : nat) (c : ascii) : bool :=
  match source_ L !! (pos_ L + k) with Some d => d =c c | None => false end.

(** [pos_ += p; column_ += c] *)
Definition advance (L : Lexer) (p : nat) (c : Z) : Lexer :=
  mkLexer (source_ L) (current_file_path_ L) (pos_ L + p) (line_ L) (column_ L + c)
          (indent_levels_ L) (nesting_level_ L).

Definition set_levels (L : Lexer) (levels : list Z) : Lexer :=
  mkLexer (source_ L) (current_file_path_ L) (pos_ L) (line_ L) (column_ L)
          levels (nesting_level_ L).

Definition nest (L : Lexer) (d : Z) : Lexer :=
  mkLexer (source_ L) (current_file_path_ L) (pos_ L) (line_ L) (column_ L)
          (indent_levels_ L) (nesting_level_ L + d).

(** The location of a token that starts at the current position. *)
Definition here (L : Lexer) : SourceLocation :=
  mkLoc (current_file_path_ L) (to_uint32 (line_ L)) (to_uint32 (column_ L)).

(** The location of a layout token: column 1 of the current line. *)
Definition line_start (L : Lexer) : SourceLocation :=
  mkLoc (current_file_path_ L) (to_uint32 (line_ L)) 1.

Definition at_line_column (line column : Z) : str :=
  $" at line " ++ to_string line ++ $", column " ++ to_string column.

Definition LexResult : Type := outcome (Lexer * list Token).

(** ** Character classes and scanning *)

Definition is_letter (c : ascii) : bool := in_range c "a" "z" || in_range c "A" "Z".
Definition is_digit (c : ascii) : bool := in_range c "0" "9".
Definition is_hex_digit (c : ascii) : bool :=
  in_range c "0" "9" || in_range c "a" "f" || in_range c "A" "F".
Definition is_bin_digit (c : ascii) : bool := (c =c "0") || (c =c "1").
Definition is_word_char (c : ascii) : bool := is_letter c || is_digit c || (c =c "_").
Definition not_newline (c : ascii) : bool := negb (c =c ch_nl).

(** [consume_while] moves [pos_] only; the column is the caller's business. *)
Definition consume_while (p : ascii -> bool) (L : Lexer) : str * Lexer :=
  let s := take_while p (rest L) in (s, advance L (length s) 0).

(** The optional sign after the exponent marker. *)
Definition exponent_sign (L : Lexer) : str :=
  match source_ L !! (pos_ L + 1) with
  | Some s => if (s =c "+") || (s =c "-") then [s] else []
  | None => []
  end.

(** The exponent suffix of a float literal, or the empty string. *)
Definition consume_exponent (L : Lexer) : outcome (str * Lexer) :=
  match source_ L !! pos_ L with
  | None => Ok ([], L)
  | Some e =>
      if negb ((e =c "e") || (e =c "E")) then Ok ([], L)
      else
        let sign := exponent_sign L in
        let probe := pos_ L + 1 + length sign in
        match source_ L !! probe with
        | Some d =>
            if is_digit d then
              let digits := take_while is_digit (drop probe (source_ L)) in
              Ok (e :: sign ++ digits, advance L (1 + length sign + length digits) 0)
            else throw_runtime
              ($"Invalid number format (scientific-notation exponent has no digits): " ++ [e]
               ++ at_line_column (line_ L) (column_ L + 1))
        | None => throw_runtime
              ($"Invalid number format (scientific-notation exponent has no digits): " ++ [e]
               ++ at_line_column (line_ L) (column_ L + 1))
        end
  end.

(** ** Keywords *)

Definition keywords : list (str * TokenType) :=
  [ ($"let", KEYWORD_LET); ($"var", KEYWORD_VAR); ($"const", KEYWORD_CONST);
    ($"if", KEYWORD_IF); ($"else", KEYWORD_ELSE); ($"while", KEYWORD_WHILE);
    ($"for", KEYWORD_FOR); ($"return", KEYWORD_RETURN); ($"break", KEYWORD_BREAK);
    ($"continue", KEYWORD_CONTINUE); ($"null", KEYWORD_NULL); ($"true", KEYWORD_TRUE);
    ($"false", KEYWORD_FALSE); ($"fn", KEYWORD_FN); ($"struct", KEYWORD_STRUCT);
    ($"enum", KEYWORD_ENUM); ($"aspect", KEYWORD_ASPECT); ($"bind", KEYWORD_BIND);
    ($"type", KEYWORD_TYPE); ($"module", KEYWORD_MODULE); ($"use", KEYWORD_USE);
    ($"pub", KEYWORD_PUB); ($"mut", KEYWORD_MUT); ($"try", KEYWORD_TRY);
    ($"catch", KEYWORD_CATCH); ($"finally", KEYWORD_FINALLY); ($"defer", KEYWORD_DEFER);
    ($"match", KEYWORD_MATCH); ($"select", KEYWORD_SELECT); ($"pass", KEYWORD_PASS);
    ($"scoped", KEYWORD_SCOPED); ($"ref", KEYWORD_REF); ($"extern", KEYWORD_EXTERN);
    ($"as", KEYWORD_AS); ($"in", KEYWORD_IN); ($"class", KEYWORD_CLASS);
    ($"template", KEYWORD_TEMPLATE); ($"import", KEYWORD_IMPORT); ($"smuggle", KEYWORD_SMUGGLE);
    ($"from", KEYWORD_FROM); ($"await", KEYWORD_AWAIT); ($"async", KEYWORD_ASYNC);
    ($"operator", KEYWORD_OPERATOR); ($"my", KEYWORD_MY); ($"our", KEYWORD_OUR);
    ($"their", KEYWORD_THEIR); ($"mild", KEYWORD_MILD); ($"freedom", KEYWORD_FREEDOM);
    ($"ptr", KEYWORD_PTR); ($"borrow", KEYWORD_BORROW); ($"view", KEYWORD_VIEW);
    ($"nil", KEYWORD_NIL); ($"auto", KEYWORD_AUTO); ($"fail", KEYWORD_FAIL);
    ($"trap", KEYWORD_TRAP); ($"refail", KEYWORD_REFAIL); ($"ensure", KEYWORD_ENSURE);
    ($"panic", KEYWORD_PANIC); ($"exit", KEYWORD_EXIT); ($"assert", KEYWORD_ASSERT);
    ($"typeof", KEYWORD_TYPEOF); ($"typename", KEYWORD_TYPENAME) ].

Definition get_keyword_type (word : str) : TokenType :=
  match assoc_find word keywords with Some t => t | None => IDENTIFIER end.

(** ** Line breaks and layout *)

(** Whether a line whose text after the leading spaces is [s] is blank, at the
    end of the file, or a comment. *)
Definition line_is_blank_or_comment (s : str) : bool :=
  match s with
  | [] => true
  | c :: s' =>
      (c =c ch_nl) || (c =c ch_cr)
      || ((c =c "#") && negb (match s' with d :: _ => d =c "[" | [] => false end))
      || ((c =c "/") && match s' with d :: _ => d =c "/" | [] => false end)
  end.

Definition is_space_char (c : ascii) : bool := c =c " ".

(** The loop that closes indentation levels deeper than [indent_count]; the
    result has the remaining levels and the number of [DEDENT]s. The levels
    are never empty (the outermost is 0), so the first case is not reached. *)
Fixpoint dedent_loop (line indent_count : Z) (levels : list Z) : outcome (list Z * nat) :=
  match levels with
  | [] => Ok ([], 0)
  | top :: outer =>
      if (indent_count <? top)%Z then
        if bool_decide (indent_count ∈ levels) then
          '(levels', n) ← dedent_loop line indent_count outer; Ok (levels', S n)
        else throw_runtime
          ($"Indentation error: inconsistent dedent to level " ++ to_string indent_count
           ++ $" at line " ++ to_string line ++ $". Valid previous indent levels: "
           ++ foldr (fun l acc => to_string l ++ (if acc is [] then [] else $" " ++ acc)) []
                    (rev levels))
      else Ok (levels, 0)
  end.

(** A line break inside brackets: no layout tokens, and a [NEWLINE] when the
    new line has code. [L] is already past the line break. *)
Definition handle_newline_nested (L : Lexer) (tokens : list Token) : LexResult :=
  let spaces := length (take_while is_space_char (rest L)) in
  let after := drop spaces (rest L) in
  if match after with c :: _ => c =c ch_tab | [] => false end then
    throw_runtime ($"Tabs not allowed" ++ at_line_column (line_ L) (1 + Z.of_nat spaces))
  else
    let tokens' := if line_is_blank_or_comment after then tokens
                   else tokens ++ [mkToken NEWLINE [] (line_start L)] in
    Ok (advance L spaces (Z.of_nat spaces), tokens').

(** A line break at bracket depth zero: [NEWLINE], then [INDENT] or [DEDENT]s. *)
Definition handle_newline_layout (L : Lexer) (tokens : list Token) : LexResult :=
  let indent_count := length (take_while is_space_char (rest L)) in
  let after := drop indent_count (rest L) in
  if match after with c :: _ => c =c ch_tab | [] => false end then
    throw_runtime ($"Tabs not allowed" ++ at_line_column (line_ L) (1 + Z.of_nat indent_count))
  else
    let L' := advance L indent_count (Z.of_nat indent_count) in
    if line_is_blank_or_comment after then Ok (L', tokens)
    else
      let tokens1 := tokens ++ [mkToken NEWLINE [] (line_start L)] in
      let levels := indent_levels_ L in
      let n := Z.of_nat indent_count in
      let back := hd 0%Z levels in
      if (back <? n)%Z then
        Ok (set_levels L' (n :: levels), tokens1 ++ [mkToken INDENT [] (line_start L)])
      else if (n <? back)%Z then
        '(levels', k) ← dedent_loop (line_ L) n levels;
        if bool_decide (n = hd 0%Z levels') then
          Ok (set_levels L' levels', tokens1 ++ replicate k (mkToken DEDENT [] (line_start L)))
        else throw_runtime
          ($"Indentation error: dedent to unaligned level " ++ to_string n
           ++ $" at line " ++ to_string (line_ L))
      else Ok (L', tokens1).

Definition handle_newline (L : Lexer) (tokens : list Token) : LexResult :=
  let L1 := mkLexer (source_ L) (current_file_path_ L) (pos_ L + 1) (line_ L + 1) 1
                    (indent_levels_ L) (nesting_level_ L) in
  if (0 <? nesting_level_ L1)%Z then handle_newline_nested L1 tokens
  else handle_newline_layout L1 tokens.

(** ** Comments, words and numbers *)

(** [#] comment: skipped without a token. *)
Definition lex_hash_comment (L : Lexer) (tokens : list Token) : LexResult :=
  Ok (snd (consume_while not_newline L), tokens).

(** [//] comment. The consumed text already starts with the two slashes the
    lexeme is prefixed with. *)
Definition lex_slash_comment (L : Lexer) (tokens : list Token) : LexResult :=
  let '(comment_text, L1) := consume_while not_newline L in
  Ok (advance L1 0 (2 + Z.of_nat (length comment_text)),
      tokens ++ [mkToken COMMENT ($"//" ++ comment_text) (here L)]).

Definition lex_word (L : Lexer) (tokens : list Token) : LexResult :=
  let '(word, L1) := consume_while is_word_char L in
  Ok (advance L1 0 (Z.of_nat (length word)),
      tokens ++ [mkToken (get_keyword_type word) word (here L)]).

(** The optional [u] suffix at the current position. *)
Definition unsigned_suffix (L : Lexer) : str :=
  match source_ L !! pos_ L with
  | Some c => if (c =c "u") || (c =c "U") then [c] else []
  | None => []
  end.

(** The hexadecimal and the binary branch: prefix [0x] or [0b] at the current
    position, then at least one digit, then an optional suffix. *)
Definition lex_radix (kind prefix : str) (p : ascii -> bool) (L : Lexer)
    (tokens : list Token) : LexResult :=
  let int_part := take 2 (rest L) in
  let L1 := advance L 2 2 in
  let digits := take_while p (rest L1) in
  let L2 := advance L1 (length digits) (Z.of_nat (length digits)) in
  if bool_decide (digits = []) then
    throw_runtime ($"Invalid " ++ kind ++ $" literal: missing digits after " ++ prefix
                   ++ at_line_column (line_ L2) (column_ L2))
  else
    let suffix := unsigned_suffix L2 in
    Ok (advance L2 (length suffix) (Z.of_nat (length suffix)),
        tokens ++ [mkToken INT_LITERAL (int_part ++ digits ++ suffix) (here L)]).

Definition lex_hex : Lexer -> list Token -> LexResult :=
  lex_radix ($"hexadecimal") ($"0x") is_hex_digit.
Definition lex_bin : Lexer -> list Token -> LexResult :=
  lex_radix ($"binary") ($"0b") is_bin_digit.

(** The fraction of a float: [L2] is at the dot after [int_part]. *)
Definition lex_fraction (L L2 : Lexer) (int_part : str) (tokens : list Token) : LexResult :=
  let L3 := advance L2 1 0 in
  let '(decimal_part, L4) := consume_while is_digit L3 in
  '(exponent, L5) ← consume_exponent L4;
  let float_str := int_part ++ $"." ++ decimal_part ++ exponent in
  let len := Z.of_nat (length float_str) in
  if next_is L5 0 "." then
    throw_runtime ($"Invalid number format (multiple dots in float): " ++ float_str ++ $"."
                   ++ at_line_column (line_ L5) (column_ L5 + len))
  else Ok (advance L5 0 len, tokens ++ [mkToken FLOAT_LITERAL float_str (here L)]).

(** A decimal literal: integer, float or scientific float. The suffix has
    already moved the column when the column is moved by the length of the
    whole lexeme. *)
Definition lex_decimal (L : Lexer) (tokens : list Token) : LexResult :=
  let '(digits, L1) := consume_while is_digit L in
  let suffix := unsigned_suffix L1 in
  let L2 := advance L1 (length suffix) (Z.of_nat (length suffix)) in
  let int_part := digits ++ suffix in
  let len := Z.of_nat (length int_part) in
  if next_is L2 0 "." && next_is L2 1 "." then
    Ok (advance L2 0 len, tokens ++ [mkToken INT_LITERAL int_part (here L)])
  else if next_is L2 0 "." &&
          match source_ L2 !! (pos_ L2 + 1) with Some d => is_digit d | None => false end then
    lex_fraction L L2 int_part tokens
  else if next_is L2 0 "." then
    throw_runtime ($"Invalid number format (trailing dot): " ++ int_part ++ $"."
                   ++ at_line_column (line_ L2) (column_ L2 + len))
  else
    '(exp_str, L3) ← consume_exponent L2;
    if bool_decide (exp_str = []) then
      Ok (advance L3 0 len, tokens ++ [mkToken INT_LITERAL int_part (here L)])
    else
      let sci_str := int_part ++ exp_str in
      Ok (advance L3 0 (Z.of_nat (length sci_str)),
          tokens ++ [mkToken FLOAT_LITERAL sci_str (here L)]).

Definition lex_number (L : Lexer) (c : ascii) (tokens : list Token) : LexResult :=
  if (c =c "0") && (next_is L 1 "x" || next_is L 1 "X") then lex_hex L tokens
  else if (c =c "0") && (next_is L 1 "b" || next_is L 1 "B") then lex_bin L tokens
  else lex_decimal L tokens.

(** ** String literals *)

Definition hex_val (h : ascii) : option N :=
  if in_range h "0" "9" then Some (code h - code "0")%N
  else if in_range h "a" "f" then Some (code h - code "a" + 10)%N
  else if in_range h "A" "F" then Some (code h - code "A" + 10)%N
  else None.

(** The value of a one-character escape. *)
Definition simple_escape (esc : ascii) : option ascii :=
  if esc =c "n" then Some ch_nl
  else if esc =c "r" then Some ch_cr
  else if esc =c "t" then Some ch_tab
  else if esc =c ch_bslash then Some ch_bslash
  else if esc =c ch_quote then Some ch_quote
  else if esc =c "'" then Some "'"%char
  else if esc =c "0" then Some ch_nul
  else None.

(** The literal body from just after the opening quote: its value and the
    number of source bytes up to the closing quote; [None] when the source ends
    first. *)
Fixpoint scan_string (s : str) (str_value : str) (src_chars : nat) : option (str * nat) :=
  match s with
  | [] => None
  | ch :: s1 =>
      if ch =c ch_quote then Some (str_value, src_chars)
      else if negb (ch =c ch_bslash) then scan_string s1 (str_value ++ [ch]) (S src_chars)
      else match s1 with
      | [] => None
      | esc :: s2 =>
          match simple_escape esc with
          | Some v => scan_string s2 (str_value ++ [v]) (2 + src_chars)
          | None =>
              if esc =c "x" then
                match s2 with
                | h :: l :: s4 =>
                    match hex_val h, hex_val l with
                    | Some hi, Some lo =>
                        scan_string s4 (str_value ++ [ascii_of_N (N.lor (N.shiftl hi 4) lo)])
                                    (4 + src_chars)
                    | _, _ => scan_string s2 (str_value ++ [ch_bslash; "x"%char]) (2 + src_chars)
                    end
                | _ => scan_string s2 (str_value ++ [ch_bslash; "x"%char]) (2 + src_chars)
                end
              else scan_string s2 (str_value ++ [ch_bslash; esc]) (2 + src_chars)
          end
      end
  end.

Definition lex_string (L : Lexer) (tokens : list Token) : LexResult :=
  match scan_string (drop 1 (rest L)) [] 0 with
  | None => throw_runtime ($"Unterminated string literal"
              ++ at_line_column (line (here L)) (column (here L)))
  | Some (str_value, src_chars) =>
      Ok (advance L (src_chars + 2) (Z.of_nat src_chars + 2),
          tokens ++ [mkToken STRING_LITERAL str_value (here L)])
  end.

(** ** Operators and punctuation *)

(** The tokens the switch emits at [c], and the change of the bracket depth;
    [None] is the [default] case. *)
Definition operator_tokens (L : Lexer) (c : ascii) : option (list (TokenType * str) * Z) :=
  let followed_by d := next_is L 1 d in
  let one t s := Some ([(t, s)], 0%Z) in
  if c =c "(" then Some ([(LPAREN, $"(")], 1%Z)
  else if c =c ")" then Some ([(RPAREN, $")")], (-1)%Z)
  else if c =c "[" then Some ([(LBRACKET, $"[")], 1%Z)
  else if c =c "]" then Some ([(RBRACKET, $"]")], (-1)%Z)
  else if c =c "{" then Some ([(LBRACE, $"{")], 1%Z)
  else if c =c "}" then Some ([(RBRACE, $"}")], (-1)%Z)
  else if c =c "," then one COMMA ($",")
  else if c =c "." then
    if followed_by "." then
      if next_is L 2 "." then one ELLIPSIS ($"...") else one DOTDOT ($"..")
    else one DOT ($".")
  else if c =c ":" then
    if followed_by ":" then one COLONCOLON ($"::") else one COLON ($":")
  else if c =c "=" then
    if followed_by "=" then one EQEQ ($"==")
    else if followed_by ">" then one FAT_ARROW ($"=>")
    else one EQ ($"=")
  else if c =c "!" then
    if followed_by "=" then one NOTEQ ($"!=") else one BANG ($"!")
  else if c =c "<" then
    if followed_by "<" then
      if next_is L 2 "=" then one LSHIFTEQ ($"<<=") else Some ([(LT, $"<"); (LT, $"<")], 0%Z)
    else if followed_by "=" then one LTEQ ($"<=")
    else one LT ($"<")
  else if c =c ">" then
    if followed_by ">" then
      if next_is L 2 "=" then one RSHIFTEQ ($">>=") else Some ([(GT, $">"); (GT, $">")], 0%Z)
    else if followed_by "=" then one GTEQ ($">=")
    else one GT ($">")
  else if c =c "+" then if followed_by "=" then one PLUSEQ ($"+=") else one PLUS ($"+")
  else if c =c "*" then if followed_by "=" then one MULTIPLYEQ ($"*=") else one MULTIPLY ($"*")
  else if c =c "/" then if followed_by "=" then one DIVEQ ($"/=") else one DIVIDE ($"/")
  else if c =c "%" then if followed_by "=" then one MODEQ ($"%=") else one MODULO ($"%")
  else if c =c "&" then
    if followed_by "&" then one AND ($"&&")
    else if followed_by "=" then one BITWISEANDEQ ($"&=")
    else one AMPERSAND ($"&")
  else if c =c "|" then
    if followed_by "|" then one OR ($"||")
    else if followed_by "=" then one BITWISEOREQ ($"|=")
    else one PIPE ($"|")
  else if c =c "^" then if followed_by "=" then one BITWISEXOREQ ($"^=") else one CARET ($"^")
  else if c =c "~" then one TILDE ($"~")
  else if c =c "-" then if followed_by ">" then one ARROW ($"->") else one MINUS ($"-")
  else if c =c ";" then one SEMICOLON ($";")
  else if c =c "@" then one AT ($"@")
  else if c =c "#" then one HASH ($"#")
  else if c =c "_" then one UNDERSCORE ($"_")
  else if c =c "?" then one QUESTION_MARK ($"?")
  else None.

(** [emit_token]: the location is that of the start of the switch, so the two
    halves of a shift operator share it. *)
Definition emit_token (loc : SourceLocation) (st : Lexer * list Token) (t : TokenType * str)
    : Lexer * list Token :=
  let '(L, tokens) := st in
  let '(ty, lx) := t in
  (advance L (length lx) (Z.of_nat (length lx)), tokens ++ [mkToken ty lx loc]).

Definition lex_operator (L : Lexer) (c : ascii) (tokens : list Token) : LexResult :=
  match operator_tokens L c with
  | Some (ts, d) =>
      let '(L', tokens') := foldl (emit_token (here L)) (L, tokens) ts in
      Ok (nest L' d, tokens')
  | None => throw_runtime ($"Unexpected character: " ++ [c]
                           ++ at_line_column (line_ L) (column_ L))
  end.

(** ** The main loop *)

(** One iteration of the loop of [tokenize], at character [c = source_[pos_]]. *)
Definition tokenize_step (L : Lexer) (c : ascii) (tokens : list Token) : LexResult :=
  if c =c ch_cr then Ok (advance L 1 0, tokens)
  else if c =c ch_nl then handle_newline L tokens
  else if (c =c "#") && negb (next_is L 1 "[") then lex_hash_comment L tokens
  else if (c =c " ") || (c =c ch_tab) then
    if c =c ch_tab then
      throw_runtime ($"Tabs not allowed" ++ at_line_column (line_ L) (column_ L))
    else Ok (advance L 1 1, tokens)
  else if (c =c "/") && next_is L 1 "/" then lex_slash_comment L tokens
  else if is_letter c then lex_word L tokens
  else if is_digit c then lex_number L c tokens
  else if c =c ch_quote then lex_string L tokens
  else lex_operator L c tokens.

(** The loop; [None] is running out of fuel. *)
Fixpoint tokenize_loop (fuel : nat) (L : Lexer) (tokens : list Token)
    : option LexResult :=
  match source_ L !! pos_ L with
  | None => Some (Ok (L, tokens))
  | Some c =>
      match fuel with
      | 0 => None
      | S fuel' =>
          match tokenize_step L c tokens with
          | Ok (L', tokens') => tokenize_loop fuel' L' tokens'
          | Throw e => Some (Throw e)
          end
      end
  end.

Definition is_layout (t : TokenType) : bool := (t =t NEWLINE) || (t =t INDENT) || (t =t DEDENT).

(** The end of [tokenize]: close the open indentation levels, then
    [END_OF_FILE]. *)
Definition tokenize_finish (L : Lexer) (tokens : list Token) : list Token :=
  let last_line := match last tokens with
                   | Some t => if is_layout (type t) then to_uint32 (line_ L)
                               else line (location t)
                   | None => to_uint32 (line_ L)
                   end in
  tokens
  ++ replicate (length (indent_levels_ L) - 1)
       (mkToken DEDENT [] (mkLoc (current_file_path_ L) last_line 1))
  ++ [mkToken END_OF_FILE [] (here L)].

(** [Lexer(source, file_path).tokenize()]. Every iteration consumes at least
    one byte, so the length of the source is enough fuel
    ([tokenize_terminates]). *)
Definition tokenize (source file_path : str) : option (outcome (list Token)) :=
  match tokenize_loop (length source) (Lexer_new source file_path) [] with
  | None => None
  | Some (Throw e) => Some (Throw e)
  | Some (Ok (L, tokens)) => Some (Ok (tokenize_finish L tokens))
  end.
