(* ===== verification/LexerProps.v ===== *)
(** * Properties of the lexer

    Progress and termination of the main loop, the layout discipline
    ([INDENT]/[DEDENT] balance and the indentation stack), the integer bounds of
    the state, agreement of lexemes with the source text, the keyword table, and
    the round trip of string literals. *)

From S2P Require Import Prelude.
From S2P Require Import Token.
From S2P Require Import Lexer.
From stdpp Require Import sorting.

(** ** Positions *)

Lemma advance_advance L a b c d : advance (advance L a b) c d = advance L (a + c) (b + d).
Proof. unfold advance; cbn. f_equal; lia. Qed.

Lemma advance_0 L : advance L 0 0 = L.
Proof. destruct L; unfold advance; cbn. f_equal; lia. Qed.

Lemma nest_0 L : nest L 0 = L.
Proof. destruct L; unfold nest; cbn. f_equal; lia. Qed.

Lemma rest_advance L p c : rest (advance L p c) = drop p (rest L).
Proof. unfold rest; cbn. by rewrite drop_drop. Qed.

Lemma rest_lookup L k : rest L !! k = source_ L !! (pos_ L + k).
Proof. apply lookup_drop. Qed.

Lemma rest_cons L c : source_ L !! pos_ L = Some c -> rest L = c :: drop 1 (rest L).
Proof.
  intros H. unfold rest. rewrite drop_drop. rewrite (drop_S _ c _ H).
  by rewrite Nat.add_1_r.
Qed.

Lemma rest_bound L n : n <= length (rest L) -> 0 < n -> pos_ L + n <= length (source_ L).
Proof. unfold rest. rewrite length_drop. lia. Qed.

Lemma next_is_rest L d : next_is L 1 d = true -> exists r, drop 1 (rest L) = d :: r.
Proof.
  unfold next_is. rewrite <- rest_lookup.
  destruct (rest L) as [|x [|y r]]; cbn; try done. intros ->%ceq_true. eauto.
Qed.

Lemma consume_while_eq p L :
  consume_while p L = (take_while p (rest L), advance L (length (take_while p (rest L))) 0).
Proof. done. Qed.

(** [L'] is [L] after [n] bytes that are there, with the column moved by [c]. *)
Definition moved (L : Lexer) (n : nat) (c : Z) (L' : Lexer) : Prop :=
  L' = advance L n c /\ n <= length (rest L).

Lemma moved_intro L n c : n <= length (rest L) -> moved L n c (advance L n c).
Proof. done. Qed.

Lemma moved_trans L1 n c L2 m d L3 :
  moved L1 n c L2 -> moved L2 m d L3 -> moved L1 (n + m) (c + d) L3.
Proof.
  intros [-> Hn] [-> Hm]. rewrite rest_advance, length_drop in Hm.
  split; [apply advance_advance | lia].
Qed.

(** Chain [moved] facts, first to last. *)
Tactic Notation "moved_chain" constr(H1) constr(H2) := exact (moved_trans _ _ _ _ _ _ _ H1 H2).
Tactic Notation "moved_chain" constr(H1) constr(H2) constr(H3) :=
  exact (moved_trans _ _ _ _ _ _ _ H1 (moved_trans _ _ _ _ _ _ _ H2 H3)).
Tactic Notation "moved_chain" constr(H1) constr(H2) constr(H3) constr(H4) :=
  let H := constr:(moved_trans _ _ _ _ _ _ _ H3 H4) in moved_chain H1 H2 H.
Tactic Notation "moved_chain" constr(H1) constr(H2) constr(H3) constr(H4) constr(H5) :=
  let H := constr:(moved_trans _ _ _ _ _ _ _ H4 H5) in moved_chain H1 H2 H3 H.

Lemma moved_take_while p L c :
  moved L (length (take_while p (rest L))) c (advance L (length (take_while p (rest L))) c).
Proof. apply moved_intro, length_take_while. Qed.

Lemma moved_suffix L c :
  moved L (length (unsigned_suffix L)) c (advance L (length (unsigned_suffix L)) c).
Proof.
  apply moved_intro. unfold unsigned_suffix.
  destruct (source_ L !! pos_ L) as [d|] eqn:E; cbn; [|lia].
  rewrite (rest_cons _ _ E). case_if; cbn; lia.
Qed.

Lemma unsigned_suffix_length L : length (unsigned_suffix L) <= 1.
Proof. unfold unsigned_suffix. destruct (source_ L !! _); cbn; [case_if|]; cbn; lia. Qed.

Lemma consume_exponent_moved L s L' : consume_exponent L = Ok (s, L') -> moved L (length s) 0 L'.
Proof.
  unfold consume_exponent. destruct (source_ L !! pos_ L) as [e|] eqn:E.
  2: intros [= <- <-]; rewrite <- (advance_0 L) at 2; apply moved_intro; cbn; lia.
  case_if. { intros [= <- <-]. rewrite <- (advance_0 L) at 2. apply moved_intro; cbn; lia. }
  set (sign := exponent_sign L).
  destruct (source_ L !! (pos_ L + 1 + length sign)) as [d|] eqn:Ed; [|done].
  destruct (is_digit d); [|done]. intros [= <- <-].
  pose proof (length_take_while is_digit (drop (pos_ L + 1 + length sign) (source_ L))) as H.
  rewrite length_drop in H. apply lookup_lt_Some in Ed. cbn [length]. rewrite length_app.
  apply moved_intro. unfold rest. rewrite length_drop. lia.
Qed.

(** A branch other than a line break consumes [n > 0] bytes of the source,
    moves the column by at most [2 * n], the bracket depth by at most [n], and
    appends tokens that are neither layout tokens nor [END_OF_FILE], all located
    at the start of the branch. *)
Definition plain_token (L : Lexer) (t : Token) : Prop :=
  is_layout (type t) = false /\ type t <> END_OF_FILE /\ location t = here L.

Definition plain_step (L : Lexer) (tokens : list Token) (L' : Lexer) (tokens' : list Token)
    : Prop :=
  exists n c d new,
    L' = nest (advance L n c) d /\ 0 < n /\ pos_ L + n <= length (source_ L)
    /\ (0 <= c <= 2 * Z.of_nat n)%Z /\ (Z.abs d <= Z.of_nat n)%Z
    /\ tokens' = tokens ++ new /\ Forall (plain_token L) new.

Lemma plain_step_intro L tokens n c new L' :
  moved L n c L' -> 0 < n -> (0 <= c <= 2 * Z.of_nat n)%Z -> Forall (plain_token L) new ->
  plain_step L tokens L' (tokens ++ new).
Proof.
  intros [-> Hl] Hn Hc Hnew. exists n, c, 0%Z, new. rewrite nest_0.
  repeat split; try done; try lia. by apply rest_bound.
Qed.

Lemma plain_one L ty lx :
  is_layout ty = false -> ty <> END_OF_FILE ->
  Forall (plain_token L) [mkToken ty lx (here L)].
Proof. intros. by repeat constructor. Qed.

(** ** String bodies *)

Lemma scan_string_bound s acc n v m :
  scan_string s acc n = Some (v, m) -> n <= m /\ m - n < length s.
Proof.
  revert acc n. induction s as [s IH] using (induction_ltof1 _ (@length ascii)). unfold ltof in IH.
  intros acc n. destruct s as [|ch s1]; [done|]. cbn [scan_string].
  assert (forall s' acc' n', length s' < length (ch :: s1) -> n <= n' -> n' - n <= length (ch :: s1) - length s' ->
    scan_string s' acc' n' = Some (v, m) -> n <= m /\ m - n < length (ch :: s1)) as step.
  { intros s' acc' n' Hs ? Hn H. destruct (IH _ Hs _ _ H). lia. }
  clear IH.
  destruct (ch =c ch_quote). { intros [= <- <-]. cbn. lia. }
  destruct (negb _). { apply step; cbn; lia. }
  destruct s1 as [|esc s2]; [done|].
  destruct (simple_escape esc). { apply step; cbn; lia. }
  destruct (esc =c "x"); [|apply step; cbn; lia].
  destruct s2 as [|h [|l s4]]; [apply step; cbn; lia..|].
  destruct (hex_val h), (hex_val l); apply step; cbn; lia.
Qed.

(** ** Keywords *)

Lemma keyword_not_layout w : is_layout (get_keyword_type w) = false /\ get_keyword_type w <> END_OF_FILE.
Proof.
  unfold get_keyword_type. destruct (assoc_find w keywords) as [t|] eqn:E; [|done].
  apply assoc_elem_of in E.
  assert (H : forallb (fun '(_, t) => negb (is_layout t) && negb (t =t END_OF_FILE)) keywords = true)
    by reflexivity.
  rewrite forallb_forall in H. apply list_elem_of_In in E. specialize (H _ E). cbn in H.
  apply andb_true_iff in H as [H1 H2]. apply negb_true_iff in H1, H2.
  by apply tteq_false in H2.
Qed.

(** ** Operators *)

Lemma emit_tokens_eq loc L tokens ts :
  foldl (emit_token loc) (L, tokens) ts
  = (advance L (length (concat ts.*2)) (Z.of_nat (length (concat ts.*2))),
     tokens ++ ((fun '(ty, lx) => mkToken ty lx loc) <$> ts)).
Proof.
  revert L tokens. induction ts as [|[ty lx] ts IH]; intros L tokens; cbn.
  - by rewrite advance_0, app_nil_r.
  - rewrite IH, advance_advance, length_app, <- app_assoc. cbn. do 2 f_equal; lia.
Qed.

Definition operator_kind (t : TokenType) : bool := negb (is_layout t) && negb (t =t END_OF_FILE).

(** The text of the emitted tokens is a non-empty prefix of the source. *)
Lemma operator_tokens_spec L c ts d :
  source_ L !! pos_ L = Some c -> operator_tokens L c = Some (ts, d) ->
  concat ts.*2 = take (length (concat ts.*2)) (rest L) /\ 0 < length (concat ts.*2)
  /\ (Z.abs d <= 1)%Z
  /\ Forall (fun '(ty, _) => is_layout ty = false /\ ty <> END_OF_FILE) ts.
Proof.
  intros Hc. unfold operator_tokens, next_is. rewrite <- !rest_lookup. rewrite (rest_cons _ _ Hc).
  destruct (drop 1 (rest L)) as [|c1 [|c2 r]]; cbn [lookup list_lookup].
  all: repeat (case_if; [|]); intros [= <- <-];
    repeat match goal with H : (_ =c _) = true |- _ => apply ceq_true in H as -> end;
    split_and!; try done; repeat constructor; done.
Qed.

(** ** The branches *)

Section branches.
Context (L : Lexer) (c : ascii) (Hc : source_ L !! pos_ L = Some c).

Lemma rest_nonempty : 0 < length (rest L).
  Proof. rewrite (rest_cons _ _ Hc). cbn. lia. Qed.

  (** A class that contains [c] is consumed by at least one byte. *)
Lemma take_while_pos p : p c = true -> 0 < length (take_while p (rest L)).
  Proof. intros Hp. rewrite (rest_cons _ _ Hc). cbn. rewrite Hp. cbn. lia. Qed.

Lemma lex_hash_comment_plain tokens L' tokens' :
    not_newline c = true ->
    lex_hash_comment L tokens = Ok (L', tokens') -> plain_step L tokens L' tokens'.
  Proof.
    intros Hp [= <- <-]. rewrite <- (app_nil_r tokens) at 2.
    pose proof (take_while_pos _ Hp).
    eapply plain_step_intro; [apply moved_take_while | lia | lia | done].
  Qed.

Lemma lex_slash_comment_plain tokens L' tokens' :
    c = "/"%char -> next_is L 1 "/" = true ->
    lex_slash_comment L tokens = Ok (L', tokens') -> plain_step L tokens L' tokens'.
  Proof.
    intros -> H2. unfold lex_slash_comment. rewrite consume_while_eq. intros [= <- <-].
    assert (2 <= length (take_while not_newline (rest L))) as Hlen.
    { apply next_is_rest in H2 as (r & Hr). rewrite (rest_cons _ _ Hc), Hr.
      cbn [take_while]. change (not_newline "/") with true. cbn. lia. }
    rewrite advance_advance, Nat.add_0_r.
    eapply plain_step_intro; [apply moved_take_while | lia | lia | by apply plain_one].
  Qed.

Lemma lex_word_plain tokens L' tokens' :
    is_letter c = true ->
    lex_word L tokens = Ok (L', tokens') -> plain_step L tokens L' tokens'.
  Proof.
    intros Hp. unfold lex_word. rewrite consume_while_eq. intros [= <- <-].
    assert (is_word_char c = true) as Hw by (unfold is_word_char; by rewrite Hp).
    pose proof (take_while_pos _ Hw).
    destruct (keyword_not_layout (take_while is_word_char (rest L))).
    rewrite advance_advance, Nat.add_0_r.
    eapply plain_step_intro; [apply moved_take_while | lia | lia | by apply plain_one].
  Qed.

Lemma lex_radix_plain kind prefix p tokens L' tokens' :
    2 <= length (rest L) ->
    lex_radix kind prefix p L tokens = Ok (L', tokens') -> plain_step L tokens L' tokens'.
  Proof.
    intros Hr. unfold lex_radix. case_bool_decide; [done|].
    pose proof (moved_intro L 2 2 Hr) as M1. set (L1 := advance L 2 2) in *.
    pose proof (moved_take_while p L1 (Z.of_nat (length (take_while p (rest L1))))) as M2.
    set (L2 := advance L1 _ _) in *.
    pose proof (moved_suffix L2 (Z.of_nat (length (unsigned_suffix L2)))) as M3.
    intros [= <- <-].
    eapply plain_step_intro; [moved_chain M1 M2 M3 | lia | lia | by apply plain_one].
  Qed.

Lemma lex_fraction_plain L2 int_part n m tokens L' tokens' :
    moved L n m L2 -> length int_part <= n -> 0 < n -> (0 <= m <= 1)%Z -> next_is L2 0 "." = true ->
    lex_fraction L L2 int_part tokens = Ok (L', tokens') -> plain_step L tokens L' tokens'.
  Proof.
    intros M1 Hlen Hn Hm Hdot. unfold lex_fraction. rewrite consume_while_eq.
    assert (1 <= length (rest L2)) as Hd.
    { unfold next_is in Hdot. destruct (source_ L2 !! _) eqn:E; [|done].
      rewrite <- rest_lookup in E. apply lookup_lt_Some in E. lia. }
    pose proof (moved_intro L2 1 0 Hd) as M2. set (L3 := advance L2 1 0) in *.
    pose proof (moved_take_while is_digit L3 0) as M3. set (L4 := advance L3 _ _) in *.
    intros H. outcome_inv. destruct x as [e L5].
    destruct (next_is L5 0 "."); [done|]. outcome_inv.
    apply consume_exponent_moved in H0 as M4.
    pose proof (moved_intro L5 0 (Z.of_nat (length (int_part ++ $"." ++
      take_while is_digit (rest L3) ++ e))) (Nat.le_0_l _)) as M5.
    eapply plain_step_intro; [moved_chain M1 M2 M3 M4 M5 | lia | | by apply plain_one].
    rewrite !length_app. change (length $".") with 1. lia.
  Qed.

Lemma lex_decimal_plain tokens L' tokens' :
    is_digit c = true ->
    lex_decimal L tokens = Ok (L', tokens') -> plain_step L tokens L' tokens'.
  Proof.
    intros Hp. unfold lex_decimal. rewrite consume_while_eq.
    pose proof (take_while_pos _ Hp) as Hd0.
    pose proof (moved_take_while is_digit L 0) as M1.
    set (ds := take_while is_digit (rest L)) in *. set (L1 := advance L (length ds) 0) in *.
    pose proof (moved_suffix L1 (Z.of_nat (length (unsigned_suffix L1)))) as M2.
    pose proof (unsigned_suffix_length L1) as Hsuf.
    set (L2 := advance L1 _ _) in *. clearbody L2.
    pose proof (moved_trans _ _ _ _ _ _ _ M1 M2) as M12.
    repeat case_if; intros H; outcome_inv.
    - pose proof (moved_intro L2 0 (Z.of_nat (length (ds ++ unsigned_suffix L1))) (Nat.le_0_l _)) as M3.
      eapply plain_step_intro; [moved_chain M1 M2 M3 | lia | rewrite length_app; lia | by apply plain_one].
    - apply andb_true_iff in Heqb0 as [? _].
      eapply lex_fraction_plain; [exact M12 | | lia | lia | done | exact H].
      rewrite length_app; lia.
    - destruct x as [e L3]. apply consume_exponent_moved in H0 as M3.
      case_bool_decide; outcome_inv.
      + pose proof (moved_intro L3 0 (Z.of_nat (length (ds ++ unsigned_suffix L1))) (Nat.le_0_l _)) as M4.
        eapply plain_step_intro; [moved_chain M1 M2 M3 M4 | lia | rewrite length_app; lia | by apply plain_one].
      + pose proof (moved_intro L3 0 (Z.of_nat (length ((ds ++ unsigned_suffix L1) ++ e))) (Nat.le_0_l _)) as M4.
        eapply plain_step_intro; [moved_chain M1 M2 M3 M4 | lia | rewrite !length_app; lia | by apply plain_one].
  Qed.

Lemma lex_number_plain tokens L' tokens' :
    is_digit c = true ->
    lex_number L c tokens = Ok (L', tokens') -> plain_step L tokens L' tokens'.
  Proof.
    intros Hp. unfold lex_number.
    assert (forall d, next_is L 1 d = true -> 2 <= length (rest L)) as H2.
    { intros d (r & Hr)%next_is_rest. rewrite (rest_cons _ _ Hc), Hr. cbn. lia. }
    repeat case_if; [| |by apply lex_decimal_plain].
    - apply andb_true_iff in Heqb as [_ [Hx|Hx]%orb_true_iff]; by eapply lex_radix_plain, H2.
    - apply andb_true_iff in Heqb0 as [_ [Hx|Hx]%orb_true_iff]; by eapply lex_radix_plain, H2.
  Qed.

Lemma lex_string_plain tokens L' tokens' :
    lex_string L tokens = Ok (L', tokens') -> plain_step L tokens L' tokens'.
  Proof.
    unfold lex_string. destruct (scan_string _ _ _) as [[v n]|] eqn:E; [|done]. intros [= <- <-].
    apply scan_string_bound in E. rewrite length_drop in E. pose proof rest_nonempty.
    eapply plain_step_intro; [apply moved_intro; lia | lia | lia | by apply plain_one].
  Qed.

Lemma lex_operator_plain tokens L' tokens' :
    lex_operator L c tokens = Ok (L', tokens') -> plain_step L tokens L' tokens'.
  Proof.
    unfold lex_operator. destruct (operator_tokens L c) as [[ts d]|] eqn:E; [|done].
    apply operator_tokens_spec in E as (Hl & Hn & Hd & Hts); [|done].
    apply (f_equal length) in Hl. rewrite length_take in Hl.
    rewrite emit_tokens_eq. intros [= <- <-].
    exists (length (concat ts.*2)), (Z.of_nat (length (concat ts.*2))), d,
      ((fun '(ty, lx) => mkToken ty lx (here L)) <$> ts).
    assert (pos_ L + length (concat ts.*2) <= length (source_ L)) by (apply rest_bound; lia).
    split_and!; try done; try lia.
    apply Forall_fmap. eapply Forall_impl; [exact Hts|]. by intros [ty lx] [? ?].
  Qed.
End branches.

(** ** Line breaks *)

(** The layout tokens as a run over the number of open levels: [INDENT] opens
    one, [DEDENT] closes one and must find one open. *)
Definition layout_token (d : nat) (t : Token) : option nat :=
  if type t =t INDENT then Some (S d)
  else if type t =t DEDENT then match d with 0 => None | S d' => Some d' end
  else Some d.

Fixpoint layout_run (d : nat) (ts : list Token) : option nat :=
  match ts with
  | [] => Some d
  | t :: ts' => match layout_token d t with Some d' => layout_run d' ts' | None => None end
  end.

Lemma layout_run_app d ts1 ts2 :
  layout_run d (ts1 ++ ts2)
  = match layout_run d ts1 with Some d' => layout_run d' ts2 | None => None end.
Proof.
  revert d. induction ts1 as [|t ts1 IH]; intros d; cbn; [done|].
  destruct (layout_token d t); [apply IH | done].
Qed.

Lemma layout_run_plain L d ts : Forall (plain_token L) ts -> layout_run d ts = Some d.
Proof.
  induction 1 as [|t ts (Ht & _ & _) _ IH]; cbn; [done|].
  unfold is_layout in Ht. apply orb_false_iff in Ht as [[_ H1]%orb_false_iff H2].
  unfold layout_token. by rewrite H1, H2.
Qed.

Lemma layout_run_dedents d k lx loc :
  k <= d -> layout_run d (replicate k (mkToken DEDENT lx loc)) = Some (d - k).
Proof.
  revert d. induction k as [|k IH]; intros d Hk; cbn; [f_equal; lia|].
  destruct d as [|d]; [lia|]. change (layout_run d (replicate k (mkToken DEDENT lx loc)) = Some (d - k)).
  apply IH. lia.
Qed.

(** The indentation stack: innermost level first, strictly decreasing to the
    outermost level 0. *)
Inductive levels_ok : list Z -> Prop :=
| levels_base : levels_ok [0%Z]
| levels_push n top levels :
    (top < n)%Z -> levels_ok (top :: levels) -> levels_ok (n :: top :: levels).

Lemma levels_ok_hd levels : levels_ok levels -> exists top outer, levels = top :: outer.
Proof. destruct 1; eauto. Qed.

Lemma levels_ok_nonneg levels : levels_ok levels -> Forall (fun l => 0 <= l)%Z levels.
Proof.
  induction 1 as [|n top levels Hlt _ IH]; [by repeat constructor|].
  constructor; [|done]. inversion IH; lia.
Qed.

Lemma levels_ok_top top levels :
  levels_ok (top :: levels) -> Forall (fun l => l <= top)%Z (top :: levels).
Proof.
  remember (top :: levels) as lv eqn:E. intros H. revert top levels E.
  induction H as [|n t lv Hlt H IH]; intros top levels [= <- <-]; [by repeat constructor|].
  constructor; [lia|]. eapply Forall_impl; [by eapply IH|]. cbn. lia.
Qed.

(** The loop over the levels stops at the level it was asked for and counts the
    levels it closed. *)
Lemma dedent_loop_spec line n levels levels' k :
  levels_ok levels -> (0 <= n)%Z -> dedent_loop line n levels = Ok (levels', k) ->
  levels_ok levels' /\ length levels = length levels' + k /\ (hd 0 levels' <= n)%Z
  /\ exists closed, levels = closed ++ levels' /\ Forall (fun l => n < l)%Z closed.
Proof.
  intros Hok Hn. revert levels' k. induction Hok as [|m top levels Hlt Hok IH]; intros levels' k.
  - cbn. destruct (Z.ltb_spec n 0); [lia|]. intros [= <- <-].
    split_and!; [constructor | done | cbn; lia | exists []; done].
  - cbn [dedent_loop]. destruct (Z.ltb_spec n m).
    + case_bool_decide; [|done]. intros H1. outcome_inv. destruct x as [l1 k1]. outcome_inv.
      edestruct IH as (? & ? & ? & closed & Heq & Hc); [done|].
      split_and!; try done; [cbn in *; lia|]. exists (m :: closed). rewrite Heq.
      split; [done|]. by constructor.
    + intros [= <- <-]. split_and!; [by constructor | lia | cbn; lia | by exists []].
Qed.

(** The loop never fails when the level asked for is on the stack. *)
Lemma dedent_loop_total line n levels :
  levels_ok levels -> n ∈ levels -> exists levels' k, dedent_loop line n levels = Ok (levels', k).
Proof.
  induction 1 as [|m top levels Hlt Hok IH]; intros Hin.
  - apply list_elem_of_singleton in Hin as ->. cbn. eauto.
  - apply elem_of_cons in Hin as Hin'. destruct Hin' as [->|Hin'].
    + cbn [dedent_loop]. rewrite Z.ltb_irrefl. eauto.
    + destruct (IH Hin') as (l' & k & Hd). cbn [dedent_loop] in Hd |- *.
      destruct (n <? m)%Z; [|eauto]. rewrite bool_decide_true, Hd by done. cbn. eauto.
Qed.

(** A line break consumes the break and the leading spaces; the column restarts.
    The indentation stack changes only at bracket depth zero. *)
Definition newline_step (L : Lexer) (tokens : list Token) (L' : Lexer) (tokens' : list Token)
    : Prop :=
  exists n levels' new,
    L' = mkLexer (source_ L) (current_file_path_ L) (pos_ L + 1 + n) (line_ L + 1)
           (1 + Z.of_nat n) levels' (nesting_level_ L)
    /\ pos_ L + 1 + n <= length (source_ L)
    /\ tokens' = tokens ++ new
    /\ Forall (fun t => is_layout (type t) = true /\ location t = line_start L') new
    /\ levels_ok levels'
    /\ layout_run (length (indent_levels_ L) - 1) new = Some (length levels' - 1)
    /\ (levels' = Z.of_nat n :: indent_levels_ L \/ exists closed, indent_levels_ L = closed ++ levels')
    /\ ((0 < nesting_level_ L)%Z -> levels' = indent_levels_ L).

(** The leading spaces of the line that starts at [pos_ + 1]. *)
Lemma leading_spaces_bound L c (M := mkLexer (source_ L) (current_file_path_ L) (pos_ L + 1)
    (line_ L + 1) 1 (indent_levels_ L) (nesting_level_ L)) :
  source_ L !! pos_ L = Some c ->
  pos_ L + 1 + length (take_while is_space_char (rest M)) <= length (source_ L).
Proof.
  intros Hc%lookup_lt_Some. pose proof (length_take_while is_space_char (rest M)) as H.
  assert (length (rest M) = length (source_ L) - (pos_ L + 1)) by apply length_drop. lia.
Qed.

Lemma layout_run_newline d lx loc : layout_run d [mkToken NEWLINE lx loc] = Some d.
Proof. done. Qed.

Lemma handle_newline_step L c tokens L' tokens' :
  source_ L !! pos_ L = Some c -> levels_ok (indent_levels_ L) ->
  handle_newline L tokens = Ok (L', tokens') -> newline_step L tokens L' tokens'.
Proof.
  intros Hc Hok. pose proof (leading_spaces_bound L c Hc) as Hb.
  unfold handle_newline. set (M := mkLexer _ _ _ _ _ _ _) in *. cbn [nesting_level_ M].
  destruct (0 <? nesting_level_ L)%Z eqn:Hn; unfold handle_newline_nested, handle_newline_layout;
    set (n := length (take_while is_space_char (rest M))) in *;
    set (after := drop n (rest M)); destruct (match after with [] => _ | _ => _ end); try done;
    destruct (line_is_blank_or_comment after).
  - intros [= <- <-]. exists n, (indent_levels_ L), []. rewrite app_nil_r.
    split_and!; try done. right. by exists [].
  - intros [= <- <-]. exists n, (indent_levels_ L), [mkToken NEWLINE [] (line_start M)].
    split_and!; try done; [by repeat constructor|]. right. by exists [].
  - intros [= <- <-]. exists n, (indent_levels_ L), []. rewrite app_nil_r.
    split_and!; try done. right. by exists [].
  - destruct (levels_ok_hd _ Hok) as (top & outer & Hlv).
    cbn [indent_levels_ M]. rewrite Hlv in *. cbn [hd].
    destruct (Z.ltb_spec top (Z.of_nat n)) as [Hlt|Hge].
    { intros [= <- <-]. rewrite <- app_assoc.
      exists n, (Z.of_nat n :: top :: outer), [mkToken NEWLINE [] (line_start M); mkToken INDENT [] (line_start M)].
      rewrite Hlv. split_and!; try done;
        [do 2 (apply Forall_cons_2; [done|]); apply Forall_nil_2 | by constructor
        | cbn; f_equal; lia | by left|].
      apply Z.ltb_ge in Hn. lia. }
    destruct (Z.ltb_spec (Z.of_nat n) top) as [Hlt|Hge'].
    { intros H. outcome_inv. destruct x as [levels' k].
      case_bool_decide; outcome_inv. rewrite <- app_assoc.
      apply dedent_loop_spec in H0 as (Hok' & Hlen & _ & closed & Hcl & _); [|done|lia].
      destruct (levels_ok_hd _ Hok') as (top' & outer' & ->).
      eexists n, _, _. rewrite Hlv. split_and!; try done; [| | eauto |].
      - apply Forall_cons_2; [done|]. by apply Forall_replicate.
      - rewrite layout_run_app, layout_run_newline, layout_run_dedents; [f_equal|]; cbn in *; lia.
      - apply Z.ltb_ge in Hn. lia. }
    intros [= <- <-]. exists n, (indent_levels_ L), [mkToken NEWLINE [] (line_start M)].
    rewrite Hlv. split_and!; try done; [|by repeat constructor | right; by exists []].
    by rewrite <- Hlv.
Qed.

(** ** One iteration *)

Lemma tokenize_step_cases L c tokens L' tokens' :
  source_ L !! pos_ L = Some c -> levels_ok (indent_levels_ L) ->
  tokenize_step L c tokens = Ok (L', tokens') ->
  plain_step L tokens L' tokens' \/ newline_step L tokens L' tokens'.
Proof.
  intros Hc Hok. pose proof (rest_nonempty _ _ Hc) as Hr. unfold tokenize_step.
  assert (forall col, (0 <= col <= 2)%Z -> plain_step L tokens (advance L 1 col) tokens) as one.
  { intros col ?. rewrite <- (app_nil_r tokens) at 2.
    eapply plain_step_intro; [by apply moved_intro | lia | lia | done]. }
  destruct (c =c ch_cr). { intros [= <- <-]. left. apply one. lia. }
  destruct (c =c ch_nl) eqn:Hnl. { right. by eapply handle_newline_step. }
  intros Hst. left. revert Hst. assert (not_newline c = true) by (unfold not_newline; by rewrite Hnl).
  destruct ((c =c "#") && _). { by eapply lex_hash_comment_plain. }
  destruct ((c =c " ") || _).
  { destruct (c =c ch_tab); [done|]. intros [= <- <-]. apply one. lia. }
  destruct ((c =c "/") && _) eqn:Hs.
  { apply andb_true_iff in Hs as [->%ceq_true ?]. by eapply lex_slash_comment_plain. }
  destruct (is_letter c) eqn:?; [by eapply lex_word_plain|].
  destruct (is_digit c) eqn:?; [by eapply lex_number_plain|].
  destruct (c =c ch_quote); [by eapply lex_string_plain | by eapply lex_operator_plain].
Qed.

(** ** The invariant of the loop *)

(** The iterations as a step relation, and what is reachable from the initial
    state. *)
Inductive lex_step : Lexer * list Token -> Lexer * list Token -> Prop :=
| lex_step_intro L c tokens L' tokens' :
    source_ L !! pos_ L = Some c -> tokenize_step L c tokens = Ok (L', tokens') ->
    lex_step (L, tokens) (L', tokens').

Definition lex_reachable (src path : str) (st : Lexer * list Token) : Prop :=
  rtc lex_step (Lexer_new src path, []) st.

Record lex_inv (src path : str) (L : Lexer) (tokens : list Token) : Prop := {
  inv_source : source_ L = src;
  inv_path : current_file_path_ L = path;
  inv_pos : pos_ L <= length src;
  inv_line : (1 <= line_ L <= 1 + Z.of_nat (pos_ L))%Z;
  inv_column : (1 <= column_ L <= 1 + 2 * Z.of_nat (pos_ L))%Z;
  inv_nesting : (Z.abs (nesting_level_ L) <= Z.of_nat (pos_ L))%Z;
  inv_levels : levels_ok (indent_levels_ L);
  inv_levels_bound : Forall (fun l => l <= Z.of_nat (pos_ L))%Z (indent_levels_ L);
  inv_layout : layout_run 0 tokens = Some (length (indent_levels_ L) - 1);
  inv_no_eof : Forall (fun t => type t <> END_OF_FILE) tokens
}.

Lemma lex_inv_init src path : lex_inv src path (Lexer_new src path) [].
Proof. split; cbn; try done; try lia; repeat constructor; lia. Qed.

Lemma lex_inv_plain src path L tokens L' tokens' :
  lex_inv src path L tokens -> plain_step L tokens L' tokens' -> lex_inv src path L' tokens'.
Proof.
  intros [<- <- Hpos Hl Hcol Hn Hlv Hlb Hrun Heof]
    (n & c & d & new & -> & Hn0 & Hle & Hc & Hd & -> & Hnew).
  split; cbn; try done; try lia.
  - eapply Forall_impl; [exact Hlb|]. cbn. lia.
  - rewrite layout_run_app, Hrun. by eapply layout_run_plain.
  - apply Forall_app. split; [done|]. eapply Forall_impl; [exact Hnew|]. by intros t (_ & ? & _).
Qed.

Lemma layout_not_eof t : is_layout (type t) = true -> type t <> END_OF_FILE.
Proof. by intros H E; rewrite E in H. Qed.

Lemma lex_inv_newline src path L tokens L' tokens' :
  lex_inv src path L tokens -> newline_step L tokens L' tokens' -> lex_inv src path L' tokens'.
Proof.
  intros [<- <- Hpos Hl Hcol Hn Hlv Hlb Hrun Heof]
    (n & lv & new & -> & Hle & -> & Hnew & Hlv' & Hrun' & Hch & _).
  split; cbn; try done; try lia.
  - assert (Forall (fun l => l <= Z.of_nat (pos_ L + 1 + n))%Z (indent_levels_ L)) as Hlb'.
    { eapply Forall_impl; [exact Hlb|]. cbn. lia. }
    destruct Hch as [->|[closed Hch]]; [constructor; [lia|done]|].
    rewrite Hch in Hlb'. by apply Forall_app in Hlb' as [_ ?].
  - by rewrite layout_run_app, Hrun.
  - apply Forall_app. split; [done|]. eapply Forall_impl; [exact Hnew|].
    intros t [? _]. by apply layout_not_eof.
Qed.

Lemma lex_step_inv src path L tokens L' tokens' :
  lex_inv src path L tokens -> lex_step (L, tokens) (L', tokens') -> lex_inv src path L' tokens'.
Proof.
  intros Hinv H. inversion H; subst.
  edestruct tokenize_step_cases as [?|?]; [done | apply Hinv | done | |].
  - by eapply lex_inv_plain.
  - by eapply lex_inv_newline.
Qed.

Lemma lex_reachable_inv src path L tokens :
  lex_reachable src path (L, tokens) -> lex_inv src path L tokens.
Proof.
  assert (forall st st', rtc lex_step st st' -> lex_inv src path st.1 st.2 ->
    lex_inv src path st'.1 st'.2) as Hrtc.
  { induction 1 as [|[L1 t1] [L2 t2] st' Hst _ IH]; [done|].
    intros ?. apply IH. by eapply lex_step_inv. }
  intros H. apply (Hrtc _ _ H), lex_inv_init.
Qed.

(** Every iteration moves forward. *)
Lemma lex_step_progress L tokens L' tokens' :
  levels_ok (indent_levels_ L) -> lex_step (L, tokens) (L', tokens') ->
  source_ L' = source_ L /\ pos_ L < pos_ L' <= length (source_ L).
Proof.
  intros Hok H. inversion H; subst.
  edestruct tokenize_step_cases as [(n & c' & d & new & -> & ?)|(n & lv & new & -> & ?)];
    [done | done | done | |]; cbn; (split; [done | lia]).
Qed.

(** ** The loop *)

Lemma tokenize_loop_total src path fuel L tokens :
  lex_inv src path L tokens -> length src - pos_ L <= fuel ->
  exists r, tokenize_loop fuel L tokens = Some r.
Proof.
  revert L tokens. induction fuel as [|fuel IH]; intros L tokens Hinv Hf; cbn;
    destruct (source_ L !! pos_ L) as [c|] eqn:Hc; eauto.
  - apply lookup_lt_Some in Hc. rewrite (inv_source _ _ _ _ Hinv) in Hc. lia.
  - destruct (tokenize_step L c tokens) as [[L' tokens']|e] eqn:Hs; [|eauto].
    assert (lex_step (L, tokens) (L', tokens')) as Hst by (by econstructor).
    apply IH; [by eapply lex_step_inv|].
    apply lex_step_progress in Hst as [? ?]; [lia | apply Hinv].
Qed.

Lemma tokenize_loop_reachable src path fuel L tokens L' tokens' :
  lex_reachable src path (L, tokens) -> tokenize_loop fuel L tokens = Some (Ok (L', tokens')) ->
  lex_reachable src path (L', tokens') /\ source_ L' !! pos_ L' = None.
Proof.
  revert L tokens. induction fuel as [|fuel IH]; intros L tokens Hr; cbn;
    destruct (source_ L !! pos_ L) as [c|] eqn:Hc; try done; try (by intros [= <- <-]).
  destruct (tokenize_step L c tokens) as [[L1 tokens1]|e] eqn:Hs; [|done].
  apply IH. eapply rtc_r; [exact Hr|]. by econstructor.
Qed.

Lemma tokenize_inv src path ts :
  tokenize src path = Some (Ok ts) ->
  exists L tokens, lex_reachable src path (L, tokens) /\ pos_ L = length src
                   /\ ts = tokenize_finish L tokens.
Proof.
  unfold tokenize.
  destruct (tokenize_loop _ _ _) as [[[L tokens]|e]|] eqn:E; [|done..]. intros [= <-].
  apply (tokenize_loop_reachable src path) in E as [Hr He]; [|apply rtc_refl].
  exists L, tokens. split_and!; try done.
  apply lex_reachable_inv in Hr. apply lookup_ge_None in He.
  destruct Hr. subst. lia.
Qed.

(** ** Layout of the token vector *)

Lemma tokenize_finish_layout src path L tokens :
  lex_inv src path L tokens -> layout_run 0 (tokenize_finish L tokens) = Some 0.
Proof.
  intros H. unfold tokenize_finish. rewrite layout_run_app, (inv_layout _ _ _ _ H).
  rewrite layout_run_app, layout_run_dedents by lia. cbn. f_equal. lia.
Qed.

(** ** Locations *)

Section locations.
Context (src path : str) (Hsmall : (Z.of_nat (length src) < 2 ^ 28)%Z).

Definition located (hi : Z) (t : Token) : Prop :=
    filePath (location t) = path /\ (1 <= line (location t) <= hi)%Z
    /\ (1 <= column (location t) <= 1 + 2 * Z.of_nat (length src))%Z.

Definition token_lines (ts : list Token) : list Z := (fun t => line (location t)) <$> ts.

Record loc_inv (L : Lexer) (tokens : list Token) : Prop := {
    loc_located : Forall (located (line_ L)) tokens;
    loc_sorted : StronglySorted Z.le (token_lines tokens)
  }.

Lemma here_located L tokens :
    lex_inv src path L tokens -> forall ty lx, located (line_ L) (mkToken ty lx (here L)).
  Proof.
    intros [] ty lx. unfold located, here; cbn. rewrite !to_uint32_small by lia.
    split_and!; try done; lia.
  Qed.

Lemma line_start_located L tokens :
    lex_inv src path L tokens -> forall ty lx, located (line_ L) (mkToken ty lx (line_start L)).
  Proof.
    intros [] ty lx. unfold located, line_start; cbn. rewrite to_uint32_small by lia.
    split_and!; try done; lia.
  Qed.

Lemma located_mono a b t : (a <= b)%Z -> located a t -> located b t.
  Proof. unfold located. intros ? (? & ? & ?). split_and!; try done; lia. Qed.

  (** Appending tokens that share one location not before the others. *)
Lemma loc_inv_append L tokens L' new loc :
    loc_inv L tokens -> (line_ L <= line_ L')%Z -> (line_ L <= line loc)%Z ->
    Forall (fun t => location t = loc) new -> Forall (located (line_ L')) new ->
    loc_inv L' (tokens ++ new).
  Proof.
    intros [Hl Hs] Hle Hloc Heq Hnew. split.
    - apply Forall_app. split; [|done]. eapply Forall_impl; [exact Hl|].
      intros t. by apply located_mono.
    - unfold token_lines. rewrite fmap_app. apply StronglySorted_app_2.
      + intros x y (t & -> & Ht)%list_elem_of_fmap (u & -> & Hu)%list_elem_of_fmap.
        rewrite Forall_forall in Hl, Heq. destruct (Hl _ Ht) as (_ & ? & _).
        rewrite (Heq _ Hu). lia.
      + done.
      + clear Hnew. induction Heq as [|t new Ht Hnew IH]; cbn; constructor; [done|].
        apply Forall_fmap. eapply Forall_impl; [exact Hnew|]. intros u Hu. cbn. rewrite Ht, Hu. lia.
  Qed.

Lemma loc_inv_step L tokens L' tokens' :
    lex_inv src path L tokens -> lex_inv src path L' tokens' -> loc_inv L tokens ->
    lex_step (L, tokens) (L', tokens') -> loc_inv L' tokens'.
  Proof.
    intros Hi Hi' Hloc H. inversion H as [? ? ? ? ? Hc Hstep]; subst.
    destruct (tokenize_step_cases _ _ _ _ _ Hc (inv_levels _ _ _ _ Hi) Hstep)
      as [(n & c' & d & new & -> & _ & _ & _ & _ & -> & Hnew)|(n & lv & new & -> & _ & -> & Hnew & _)];
      clear H Hc Hstep.
    - pose proof (here_located _ _ Hi) as Hh. destruct (Hh IDENTIFIER []) as (_ & Hhl & _).
      pose proof (inv_line _ _ _ _ Hi). pose proof (inv_pos _ _ _ _ Hi).
      eapply (loc_inv_append L tokens _ new (here L)); [done | cbn; lia | | |].
      + cbn. rewrite to_uint32_small; lia.
      + eapply Forall_impl; [exact Hnew|]. by intros t (_ & _ & ?).
      + eapply Forall_impl; [exact Hnew|]. intros [ty lx loc] (_ & _ & E). cbn in E. subst. apply Hh.
    - pose proof (line_start_located _ _ Hi') as Hh. set (L1 := mkLexer _ _ _ _ _ _ _) in *.
      pose proof (inv_line _ _ _ _ Hi). pose proof (inv_line _ _ _ _ Hi') as Hl'.
      pose proof (inv_pos _ _ _ _ Hi'). cbn in Hl'.
      eapply (loc_inv_append L tokens _ new (line_start L1)); [done | cbn; lia | | |].
      + cbn. rewrite to_uint32_small; cbn in *; lia.
      + eapply Forall_impl; [exact Hnew|]. by intros t (_ & ?).
      + eapply Forall_impl; [exact Hnew|]. intros [ty lx loc] (_ & E). cbn in E. subst. apply Hh.
  Qed.

Lemma lex_reachable_loc L tokens : lex_reachable src path (L, tokens) -> loc_inv L tokens.
  Proof.
    assert (forall st st', rtc lex_step st st' -> lex_inv src path st.1 st.2 -> loc_inv st.1 st.2 ->
      loc_inv st'.1 st'.2) as Hrtc.
    { induction 1 as [|[L1 t1] [L2 t2] st' Hst _ IH]; [done|].
      intros H1 H2. pose proof (lex_step_inv _ _ _ _ _ _ H1 Hst) as H3.
      apply IH; [done|]. exact (loc_inv_step _ _ _ _ H1 H3 H2 Hst). }
    intros H. apply (Hrtc _ _ H); [apply lex_inv_init|]. split; constructor.
  Qed.

Lemma tokenize_finish_loc L tokens :
    lex_inv src path L tokens -> loc_inv L tokens -> loc_inv L (tokenize_finish L tokens).
  Proof.
    intros Hi Hloc. pose proof (inv_line _ _ _ _ Hi). pose proof (inv_pos _ _ _ _ Hi).
    pose proof (here_located _ _ Hi) as Hh.
    unfold tokenize_finish. set (ll := match last tokens with Some _ => _ | None => _ end).
    assert (1 <= ll <= line_ L /\ Forall (fun t => line (location t) <= ll)%Z tokens)%Z as [Hll Hle].
    { unfold ll. destruct (last tokens) as [t|] eqn:E.
      - apply last_Some in E as [l' ->]. destruct Hloc as [Hl Hs].
        assert (Forall (fun t => line (location t) <= line_ L)%Z (l' ++ [t])) as Hall.
        { eapply Forall_impl; [exact Hl|]. by intros u (_ & [_ ?] & _). }
        destruct (is_layout (type t)).
        + rewrite to_uint32_small by lia. split; [lia | done].
        + apply Forall_app in Hl as [_ Ht]. inversion Ht as [|? ? (_ & ? & _)]; subst. split; [lia|].
          unfold token_lines in Hs. rewrite fmap_app in Hs.
          apply Forall_app. split; [|by constructor; [lia|]].
          apply Forall_forall. intros u Hu.
          eapply (StronglySorted_app_1_elem_of Z.le); [exact Hs | |apply list_elem_of_singleton; done].
          by apply (list_elem_of_fmap_2 (fun t => line (location t))).
      - apply last_None in E as ->. rewrite to_uint32_small by lia. split; [lia|done]. }
    rewrite app_assoc. eapply (loc_inv_append L _ L _ (here L)); [|lia|cbn; rewrite to_uint32_small; lia|by constructor|by constructor].
    clearbody ll. destruct Hloc as [Hl Hs]. split.
    - apply Forall_app. split; [done|]. apply Forall_replicate. unfold located; cbn.
      split_and!; try lia. apply (inv_path _ _ _ _ Hi).
    - unfold token_lines. rewrite fmap_app. apply StronglySorted_app_2; [|done|].
      + intros x y (t & -> & Ht)%list_elem_of_fmap (u & -> & Hu)%list_elem_of_fmap.
        apply elem_of_replicate in Hu as [-> _]. rewrite Forall_forall in Hle. by apply Hle.
      + induction (length (indent_levels_ L) - 1) as [|k IHk]; cbn; constructor; [done|].
        rewrite fmap_replicate. apply Forall_replicate. cbn. lia.
  Qed.
End locations.

(** ** Lexemes and the source text *)

(** The part of the source between two positions. *)
Definition slice (s : str) (i j : nat) : str := take (j - i) (drop i s).

Definition lexemes (ts : list Token) : str := concat (lexeme <$> ts).

(** [new] is exactly the text between the two states. *)
Definition exact_step (L : Lexer) (tokens : list Token) (L' : Lexer) (tokens' : list Token) : Prop :=
  exists new, tokens' = tokens ++ new /\ lexemes new = slice (source_ L) (pos_ L) (pos_ L').

(** [s] is the next text at [L], and [L'] is just after it. *)
Definition reads (L : Lexer) (s : str) (L' : Lexer) : Prop :=
  exists c, L' = advance L (length s) c /\ s = take (length s) (rest L).

Lemma reads_trans L1 s L2 t L3 : reads L1 s L2 -> reads L2 t L3 -> reads L1 (s ++ t) L3.
Proof.
  intros (c & -> & Hs) (d & -> & Ht). exists (c + d)%Z. rewrite length_app, advance_advance.
  split; [done|]. rewrite rest_advance in Ht.
  rewrite Hs at 1. rewrite Ht at 1. by rewrite take_take_drop.
Qed.

Lemma reads_nil L c : reads L [] (advance L 0 c).
Proof. by exists c. Qed.

Lemma reads_take_while p L c :
  reads L (take_while p (rest L)) (advance L (length (take_while p (rest L))) c).
Proof. exists c. split; [done | apply take_while_prefix]. Qed.

Lemma reads_take n L c : n <= length (rest L) -> reads L (take n (rest L)) (advance L n c).
Proof.
  intros H. exists c. assert (length (take n (rest L)) = n) as -> by (rewrite length_take; lia). done.
Qed.

Lemma reads_suffix L c :
  reads L (unsigned_suffix L) (advance L (length (unsigned_suffix L)) c).
Proof.
  exists c. split; [done|]. unfold unsigned_suffix.
  destruct (source_ L !! pos_ L) as [d|] eqn:E; [|done].
  rewrite (rest_cons _ _ E). by case_if.
Qed.

Lemma reads_char L d c : next_is L 0 d = true -> reads L [d] (advance L 1 c).
Proof.
  unfold next_is. rewrite Nat.add_0_r. intros H. exists c. split; [done|].
  destruct (source_ L !! pos_ L) as [e|] eqn:E; [|done]. apply ceq_true in H as ->.
  by rewrite (rest_cons _ _ E).
Qed.

Lemma reads_exponent L s L' : consume_exponent L = Ok (s, L') -> reads L s L'.
Proof.
  unfold consume_exponent. destruct (source_ L !! pos_ L) as [e|] eqn:E.
  2: intros [= <- <-]; rewrite <- (advance_0 L) at 2; apply reads_nil.
  case_if. { intros [= <- <-]. rewrite <- (advance_0 L) at 2. apply reads_nil. }
  destruct (source_ L !! (pos_ L + 1 + length (exponent_sign L))) as [d|] eqn:Ed; [|done].
  destruct (is_digit d); [|done]. intros [= <- <-].
  assert (reads L [e] (advance L 1 0)) as R1.
  { exists 0%Z. split; [done|]. by rewrite (rest_cons _ _ E). }
  assert (reads (advance L 1 0) (exponent_sign L)
            (advance (advance L 1 0) (length (exponent_sign L)) 0)) as R2.
  { exists 0%Z. split; [done|]. rewrite rest_advance. unfold exponent_sign.
    rewrite <- rest_lookup. destruct (rest L) as [|x [|y r]]; cbn; try done. by case_if. }
  set (L2 := advance (advance L 1 0) _ 0) in *.
  pose proof (reads_take_while is_digit L2 0) as R3.
  replace (rest L2) with (drop (pos_ L + 1 + length (exponent_sign L)) (source_ L)) in R3 by done.
  pose proof (reads_trans _ _ _ _ _ R1 (reads_trans _ _ _ _ _ R2 R3)) as R.
  unfold L2 in R. rewrite !advance_advance in R. exact R.
Qed.

Lemma exact_step_intro L tokens s c L' t :
  reads L s L' -> lexeme t = s -> exact_step L tokens (advance L' 0 c) (tokens ++ [t]).
Proof.
  intros (d & -> & Hs) Ht. exists [t]. split; [done|].
  unfold lexemes, slice. cbn. rewrite app_nil_r, Ht, Hs at 1.
  unfold rest. f_equal. lia.
Qed.

(** When the column has already been moved. *)
Lemma exact_step_intro' L tokens s L' t :
  reads L s L' -> lexeme t = s -> exact_step L tokens L' (tokens ++ [t]).
Proof. intros H Ht. rewrite <- (advance_0 L'). by eapply exact_step_intro. Qed.

Lemma lex_word_exact L tokens L' tokens' :
  lex_word L tokens = Ok (L', tokens') -> exact_step L tokens L' tokens'.
Proof.
  unfold lex_word. rewrite consume_while_eq. intros [= <- <-].
  eapply exact_step_intro; [apply reads_take_while | done].
Qed.

Lemma lex_radix_exact kind prefix p L tokens L' tokens' :
  2 <= length (rest L) ->
  lex_radix kind prefix p L tokens = Ok (L', tokens') -> exact_step L tokens L' tokens'.
Proof.
  intros Hr. unfold lex_radix. case_bool_decide; [done|]. intros [= <- <-].
  pose proof (reads_take 2 L 2 Hr) as R1. set (L1 := advance L 2 2) in *.
  pose proof (reads_take_while p L1 (Z.of_nat (length (take_while p (rest L1))))) as R2.
  set (L2 := advance L1 _ _) in *.
  pose proof (reads_suffix L2 (Z.of_nat (length (unsigned_suffix L2)))) as R3.
  eapply exact_step_intro'; [|done].
  exact (reads_trans _ _ _ _ _ R1 (reads_trans _ _ _ _ _ R2 R3)).
Qed.

Lemma lex_fraction_exact L L2 int_part tokens L' tokens' :
  reads L int_part L2 -> next_is L2 0 "." = true ->
  lex_fraction L L2 int_part tokens = Ok (L', tokens') -> exact_step L tokens L' tokens'.
Proof.
  intros R1 Hdot. unfold lex_fraction. rewrite consume_while_eq.
  pose proof (reads_char _ _ 0 Hdot) as R2. set (L3 := advance L2 1 0) in *.
  pose proof (reads_take_while is_digit L3 0) as R3. set (L4 := advance L3 _ _) in *.
  intros H. outcome_inv. destruct x as [e L5]. destruct (next_is L5 0 "."); [done|]. outcome_inv.
  apply reads_exponent in H0 as R4.
  eapply exact_step_intro; [|done].
  exact (reads_trans _ _ _ _ _ R1 (reads_trans _ _ _ _ _ R2 (reads_trans _ _ _ _ _ R3 R4))).
Qed.

Lemma lex_decimal_exact L tokens L' tokens' :
  lex_decimal L tokens = Ok (L', tokens') -> exact_step L tokens L' tokens'.
Proof.
  unfold lex_decimal. rewrite consume_while_eq.
  pose proof (reads_take_while is_digit L 0) as R1. set (ds := take_while _ _) in *.
  set (L1 := advance L (length ds) 0) in *.
  pose proof (reads_suffix L1 (Z.of_nat (length (unsigned_suffix L1)))) as R2.
  set (L2 := advance L1 _ _) in *. clearbody L2.
  pose proof (reads_trans _ _ _ _ _ R1 R2) as R12.
  repeat case_if; intros H; outcome_inv.
  - by eapply exact_step_intro.
  - apply andb_true_iff in Heqb0 as [? _]. by eapply lex_fraction_exact.
  - destruct x as [e L3]. apply reads_exponent in H0 as R3.
    case_bool_decide; outcome_inv.
    + pose proof (reads_trans _ _ _ _ _ R12 R3) as R. rewrite app_nil_r in R.
      by eapply exact_step_intro.
    + pose proof (reads_trans _ _ _ _ _ R12 R3) as R. by eapply exact_step_intro.
Qed.

Lemma lex_operator_exact L c tokens L' tokens' :
  source_ L !! pos_ L = Some c ->
  lex_operator L c tokens = Ok (L', tokens') -> exact_step L tokens L' tokens'.
Proof.
  intros Hc. unfold lex_operator. destruct (operator_tokens L c) as [[ts d]|] eqn:E; [|done].
  apply operator_tokens_spec in E as (Hl & _); [|done].
  rewrite emit_tokens_eq. intros [= <- <-]. eexists. split; [done|].
  unfold lexemes, slice. cbn. replace (pos_ L + _ - pos_ L) with (length (concat ts.*2)) by lia.
  change (drop (pos_ L) (source_ L)) with (rest L). rewrite <- Hl.
  f_equal. rewrite <- list_fmap_compose. apply list_fmap_ext. by intros ? [? ?] _.
Qed.

(** ** Literals of the main loop on closed inputs *)

(** The loop at the end of the source, and one step of it. *)
Lemma tokenize_loop_end fuel L tokens :
  source_ L !! pos_ L = None -> tokenize_loop fuel L tokens = Some (Ok (L, tokens)).
Proof. intros H. destruct fuel; cbn; by rewrite H. Qed.

Lemma tokenize_loop_step fuel L c tokens L' tokens' :
  source_ L !! pos_ L = Some c -> tokenize_step L c tokens = Ok (L', tokens') ->
  tokenize_loop (S fuel) L tokens = tokenize_loop fuel L' tokens'.
Proof. intros H1 H2. cbn. by rewrite H1, H2. Qed.

(** A source that one iteration consumes whole. *)
Lemma tokenize_single src path c t col :
  src !! 0 = Some c ->
  tokenize_step (Lexer_new src path) c [] = Ok (advance (Lexer_new src path) (length src) col, [t]) ->
  is_layout (type t) = false ->
  tokenize src path
  = Some (Ok [t; mkToken END_OF_FILE [] (mkLoc path 1 (to_uint32 (1 + col)))]).
Proof.
  intros Hc Hstep Ht. unfold tokenize.
  destruct (length src) as [|n] eqn:Hn; [apply nil_length_inv in Hn; by subst|]. rewrite <- Hn in Hstep.
  erewrite tokenize_loop_step; [|exact Hc | exact Hstep].
  rewrite tokenize_loop_end; [done|]. cbn. apply lookup_ge_None. lia.
Qed.

(** The exclusive character classes of the first character of a word. *)
Lemma is_letter_step L c tokens :
  is_letter c = true -> tokenize_step L c tokens = lex_word L tokens.
Proof.
  intros H. unfold tokenize_step.
  assert (forall d, is_letter d = false -> (c =c d) = false) as Hne.
  { intros d Hd. apply ceq_false. intros ->. congruence. }
  rewrite !Hne by reflexivity. cbn. by rewrite H.
Qed.

Lemma quote_step L tokens : tokenize_step L ch_quote tokens = lex_string L tokens.
Proof. reflexivity. Qed.

(** The source text of a byte in a string literal: quotes and backslashes are
    escaped, every other byte stands for itself. *)
Definition escape_char (c : ascii) : str :=
  if (c =c ch_quote) || (c =c ch_bslash) then [ch_bslash; c] else [c].
Definition escape_body (v : str) : str := mjoin (escape_char <$> v).

Lemma scan_string_plain c s acc n :
  (c =c ch_quote) = false -> (c =c ch_bslash) = false ->
  scan_string (c :: s) acc n = scan_string s (acc ++ [c]) (S n).
Proof. intros H1 H2. cbn [scan_string]. by rewrite H1, H2. Qed.

Lemma scan_string_simple e v s acc n :
  simple_escape e = Some v ->
  scan_string (ch_bslash :: e :: s) acc n = scan_string s (acc ++ [v]) (2 + n).
Proof. intros H. cbn [scan_string]. rewrite H. reflexivity. Qed.

Lemma escape_body_cons c v : escape_body (c :: v) = escape_char c ++ escape_body v.
Proof. done. Qed.

Lemma scan_string_escape v : forall s acc n,
  scan_string (escape_body v ++ ch_quote :: s) acc n = Some (acc ++ v, n + length (escape_body v)).
Proof.
  assert (forall (acc v : str) c (n m : nat), n = m -> Some ((acc ++ [c]) ++ v, n) = Some (acc ++ c :: v, m))
    as scanned by (intros acc v' c n m ->; by rewrite <- app_assoc).
  induction v as [|c v IH]; intros s acc n; [by rewrite app_nil_r, Nat.add_0_r|].
  rewrite escape_body_cons, length_app, <- app_assoc. unfold escape_char.
  destruct (c =c ch_quote) eqn:Hq; [|destruct (c =c ch_bslash) eqn:Hb]; cbn [orb app length].
  - apply ceq_true in Hq as ->. rewrite (scan_string_simple _ ch_quote), IH by done. apply scanned; lia.
  - apply ceq_true in Hb as ->. rewrite (scan_string_simple _ ch_bslash), IH by done. apply scanned; lia.
  - rewrite scan_string_plain, IH by done. apply scanned; lia.
Qed.

(** ** Theorems *)

(** Tokenizing always finishes: on every source, [Lexer::tokenize] returns a
    token vector or throws; the loop never runs forever. *)
Theorem tokenize_terminates (src path : str) : exists r, tokenize src path = Some r.
Proof.
  unfold tokenize.
  destruct (tokenize_loop_total src path (length src) (Lexer_new src path) []) as [r ->];
    [apply lex_inv_init | cbn; lia |].
  destruct r as [[L tokens]|e]; eauto.
Qed.

(** C12: the token vector of a source that lexes has the shape the parser relies
    on: exactly one [END_OF_FILE], at the end, and the [INDENT]/[DEDENT] tokens
    are balanced, no [DEDENT] coming before the [INDENT] it closes. *)
Theorem tokenize_layout_balanced (src path : str) ts :
  tokenize src path = Some (Ok ts) ->
  layout_run 0 ts = Some 0
  /\ exists body eof, ts = body ++ [eof] /\ type eof = END_OF_FILE
       /\ Forall (fun t => type t <> END_OF_FILE) body.
Proof.
  intros (L & tokens & Hr%lex_reachable_inv & _ & ->)%tokenize_inv.
  split; [by eapply tokenize_finish_layout|].
  unfold tokenize_finish. rewrite app_assoc. do 2 eexists. split_and!; [done..|].
  apply Forall_app. split; [apply Hr | by apply Forall_replicate].
Qed.

Definition sample_source : str := $"f(a, b)" ++ [ch_nl] ++ $"  x" ++ [ch_nl] ++ $"    y" ++ [ch_nl] ++ $"z".

Lemma tokenize_layout_balanced_witness :
  exists ts, tokenize sample_source ($"a.vyb") = Some (Ok ts) /\ layout_run 0 ts = Some 0.
Proof.
  destruct (tokenize sample_source ($"a.vyb")) as [[ts|e]|] eqn:E; [|vm_compute in E; discriminate E..].
  exists ts. split; [reflexivity | exact (proj1 (tokenize_layout_balanced _ _ _ E))].
Defined.

(** The state of the lexer stays within its machine types on a source of
    less than 2^28 bytes: [line_], [column_], [nesting_level_] and the
    indentation levels fit [int], at every point of the loop. *)
Theorem lexer_bounds (src path : str) L tokens :
  (Z.of_nat (length src) < 2 ^ 28)%Z -> lex_reachable src path (L, tokens) ->
  (1 <= line_ L < 2 ^ 31 /\ 1 <= column_ L < 2 ^ 31 /\ - 2 ^ 31 < nesting_level_ L < 2 ^ 31)%Z
  /\ Forall (fun l => 0 <= l < 2 ^ 31)%Z (indent_levels_ L) /\ pos_ L <= length src.
Proof.
  intros Hs Hr%lex_reachable_inv. destruct Hr. split_and!; try lia.
  pose proof (levels_ok_nonneg _ inv_levels0) as Hn.
  apply Forall_forall. intros l Hl. rewrite Forall_forall in Hn, inv_levels_bound0.
  specialize (Hn _ Hl). specialize (inv_levels_bound0 _ Hl). cbn in *. lia.
Qed.

Lemma lexer_bounds_witness : (1 <= line_ (Lexer_new sample_source []) < 2 ^ 31)%Z.
Proof.
  apply (lexer_bounds sample_source [] (Lexer_new sample_source []) []); [reflexivity | constructor].
Defined.

(** Every token of a source of less than 2^28 bytes is located in that file,
    at a line and column of at least 1 and within the source's size, and the
    lines never decrease along the vector. *)
Theorem tokenize_locations (src path : str) ts :
  (Z.of_nat (length src) < 2 ^ 28)%Z -> tokenize src path = Some (Ok ts) ->
  StronglySorted Z.le (token_lines ts)
  /\ Forall (fun t => filePath (location t) = path
       /\ (1 <= line (location t) <= 1 + Z.of_nat (length src))%Z
       /\ (1 <= column (location t) <= 1 + 2 * Z.of_nat (length src))%Z) ts.
Proof.
  intros Hs (L & tokens & Hr & _ & ->)%tokenize_inv.
  pose proof (lex_reachable_inv _ _ _ _ Hr) as Hi.
  destruct (tokenize_finish_loc _ _ Hs _ _ Hi (lex_reachable_loc _ _ Hs _ _ Hr)) as [Hl Ho].
  split; [done|]. eapply Forall_impl; [exact Hl|]. intros t (? & ? & ?).
  destruct Hi. split_and!; try done; lia.
Qed.

Lemma tokenize_locations_witness :
  exists ts, tokenize sample_source ($"a.vyb") = Some (Ok ts) /\ StronglySorted Z.le (token_lines ts).
Proof.
  destruct (tokenize sample_source ($"a.vyb")) as [[ts|e]|] eqn:E; [|vm_compute in E; discriminate E..].
  exists ts. split; [reflexivity|]. apply (tokenize_locations sample_source ($"a.vyb") ts); [reflexivity | exact E].
Defined.

(** C29: outside blanks, comments, line breaks and string literals the lexer
    loses nothing: the lexemes an iteration appends, put together, are exactly
    the source text it consumed. *)
Theorem lexeme_exact (L : Lexer) c tokens L' tokens' :
  source_ L !! pos_ L = Some c -> isspace c = false -> c <> ch_quote ->
  (c = "#"%char -> next_is L 1 "[" = true) -> (c = "/"%char -> next_is L 1 "/" = false) ->
  tokenize_step L c tokens = Ok (L', tokens') ->
  exists new, tokens' = tokens ++ new /\ lexemes new = slice (source_ L) (pos_ L) (pos_ L').
Proof.
  intros Hc Hsp Hq Hhash Hslash. unfold isspace in Hsp. rewrite !orb_false_iff in Hsp.
  destruct Hsp as [[[[[H1 H2] H3] _] _] H6]. apply ceq_false in Hq.
  unfold tokenize_step. unfold ch_cr, ch_nl, ch_tab. rewrite H1, H2, H3, H6. cbn [orb].
  assert ((c =c "#") && negb (next_is L 1 "[") = false) as ->.
  { destruct (c =c "#") eqn:E; [|done]. apply ceq_true in E. by rewrite Hhash. }
  assert ((c =c "/") && next_is L 1 "/" = false) as ->.
  { destruct (c =c "/") eqn:E; [|done]. apply ceq_true in E. by rewrite Hslash. }
  destruct (is_letter c); [apply lex_word_exact|].
  destruct (is_digit c).
  - assert (forall d, next_is L 1 d = true -> 2 <= length (rest L)) as Hl2.
    { intros d (r & Hr)%next_is_rest. rewrite (rest_cons _ _ Hc), Hr. cbn. lia. }
    unfold lex_number. repeat case_if; [| |apply lex_decimal_exact].
    + apply andb_true_iff in Heqb as [_ [Hx|Hx]%orb_true_iff]; by eapply lex_radix_exact, Hl2.
    + apply andb_true_iff in Heqb0 as [_ [Hx|Hx]%orb_true_iff]; by eapply lex_radix_exact, Hl2.
  - rewrite Hq. by apply lex_operator_exact.
Qed.

Lemma lexeme_exact_witness :
  exists new, [mkToken FLOAT_LITERAL ($"1.5e-3") (mkLoc [] 1 1)] = [] ++ new /\ lexemes new = $"1.5e-3".
Proof.
  exact (lexeme_exact (Lexer_new ($"1.5e-3;") []) "1"%char []
           (advance (Lexer_new ($"1.5e-3;") []) 6 6) [mkToken FLOAT_LITERAL ($"1.5e-3") (mkLoc [] 1 1)]
           eq_refl eq_refl ltac:(discriminate) ltac:(discriminate) ltac:(discriminate) eq_refl).
Defined.

(** A word is one token: a letter followed by letters, digits and
    underscores lexes to a single token whose lexeme is the whole word and whose
    kind is the keyword's, or [IDENTIFIER]. *)
Theorem word_roundtrip (c : ascii) (w path : str) :
  is_letter c = true -> Forall (fun d => is_word_char d = true) w ->
  tokenize (c :: w) path
  = Some (Ok [mkToken (get_keyword_type (c :: w)) (c :: w) (mkLoc path 1 1);
              mkToken END_OF_FILE [] (mkLoc path 1 (to_uint32 (1 + Z.of_nat (length (c :: w)))))]).
Proof.
  intros Hc Hw.
  assert (take_while is_word_char (c :: w) = c :: w) as Htw.
  { rewrite <- (app_nil_r (c :: w)) at 1. rewrite take_while_app; [by rewrite app_nil_r|].
    constructor; [|done]. unfold is_word_char. by rewrite Hc. }
  apply (tokenize_single _ _ c _ (Z.of_nat (length (c :: w)))); [done | | apply keyword_not_layout].
  rewrite is_letter_step by done. unfold lex_word. rewrite consume_while_eq.
  change (rest (Lexer_new (c :: w) path)) with (c :: w). rewrite Htw, advance_advance.
  by rewrite Nat.add_0_r.
Qed.

Lemma word_roundtrip_witness :
  tokenize ($"freedom") ($"a.vyb")
  = Some (Ok [mkToken KEYWORD_FREEDOM ($"freedom") (mkLoc ($"a.vyb") 1 1);
              mkToken END_OF_FILE [] (mkLoc ($"a.vyb") 1 8)]).
Proof. exact (word_roundtrip "f" ($"reedom") ($"a.vyb") eq_refl ltac:(repeat constructor)). Defined.

(** Every byte string can be written as a string literal: escaping quotes
    and backslashes and surrounding the text with quotes gives a source that
    lexes to the one [STRING_LITERAL] token whose lexeme is the byte string. *)
Theorem string_literal_roundtrip (v path : str) :
  tokenize (ch_quote :: escape_body v ++ [ch_quote]) path
  = Some (Ok [mkToken STRING_LITERAL v (mkLoc path 1 1);
              mkToken END_OF_FILE []
                (mkLoc path 1 (to_uint32 (3 + Z.of_nat (length (escape_body v)))))]).
Proof.
  set (src := ch_quote :: _).
  replace (3 + Z.of_nat (length (escape_body v)))%Z
    with (1 + (Z.of_nat (length (escape_body v)) + 2))%Z by lia.
  apply (tokenize_single _ _ ch_quote); [done | | done].
  rewrite quote_step. unfold lex_string.
  change (drop 1 (rest (Lexer_new src path))) with (escape_body v ++ [ch_quote]).
  rewrite scan_string_escape. cbn [app]. do 3 f_equal.
  unfold src. cbn [length]. rewrite length_app. cbn. lia.
Qed.

(** Inside brackets layout is suspended: a line break at a positive bracket
    depth leaves the indentation stack alone and appends neither [INDENT] nor
    [DEDENT], whatever the indentation of the next line. *)
Theorem brackets_suspend_layout (L : Lexer) tokens L' tokens' :
  (0 < nesting_level_ L)%Z -> handle_newline L tokens = Ok (L', tokens') ->
  indent_levels_ L' = indent_levels_ L /\ nesting_level_ L' = nesting_level_ L
  /\ exists new, tokens' = tokens ++ new /\ Forall (fun t => type t = NEWLINE) new.
Proof.
  intros Hn. unfold handle_newline. cbn [nesting_level_]. apply Z.ltb_lt in Hn. rewrite Hn.
  unfold handle_newline_nested. destruct (match drop _ _ with [] => _ | _ => _ end); [done|].
  destruct (line_is_blank_or_comment _); intros [= <- <-]; (split_and!; [done..|]).
  - exists []. by rewrite app_nil_r.
  - eexists. split; [done|]. by constructor.
Qed.

Lemma brackets_suspend_layout_witness :
  let L := nest (Lexer_new (ch_nl :: $"      x") []) 1 in
  indent_levels_ (advance (mkLexer (source_ L) [] 1 2 1 [0%Z] 1) 6 6) = [0%Z].
Proof.
  exact (proj1 (brackets_suspend_layout (nest (Lexer_new (ch_nl :: $"      x") []) 1) []
    (advance (mkLexer (ch_nl :: $"      x") [] 1 2 1 [0%Z] 1) 6 6) [mkToken NEWLINE [] (mkLoc [] 2 1)]
    eq_refl eq_refl)).
Defined.

(** the second indentation check is unreachable, as its comment says: at
    every point of the loop a line break that throws does so because of a tab
    or an indentation that matches no open level, never for a dedent to an
    unaligned level. *)
Theorem unaligned_dedent_unreachable (src path : str) L tokens e :
  lex_reachable src path (L, tokens) -> handle_newline L tokens = Throw e ->
  exists col, e = runtime_error ($"Tabs not allowed" ++ at_line_column (line_ L + 1) col)
  \/ exists n, (n ∉ indent_levels_ L) /\ e = runtime_error
      ($"Indentation error: inconsistent dedent to level " ++ to_string n
       ++ $" at line " ++ to_string (line_ L + 1) ++ $". Valid previous indent levels: "
       ++ foldr (fun l acc => to_string l ++ (if acc is [] then [] else $" " ++ acc)) []
                (rev (indent_levels_ L))).
Proof.
  intros Hr%lex_reachable_inv. pose proof (inv_levels _ _ _ _ Hr) as Hok.
  unfold handle_newline. set (M := mkLexer _ _ _ _ _ _ _). cbn [nesting_level_ M].
  destruct (0 <? nesting_level_ L)%Z; unfold handle_newline_nested, handle_newline_layout;
    destruct (match drop _ _ with [] => _ | _ => _ end).
  1,3: intros [= <-]; eexists; by left.
  { done. }
  destruct (line_is_blank_or_comment _); [done|]. cbn [indent_levels_ M].
  set (n := Z.of_nat _).
  destruct (_ <? n)%Z; [done|]. destruct (Z.ltb_spec n (hd 0%Z (indent_levels_ L))) as [Hlt|]; [|done].
  destruct (decide (n ∈ indent_levels_ L)) as [Hin|Hin].
  - destruct (dedent_loop_total (line_ M) n _ Hok Hin) as (lv & k & Hd). rewrite Hd. cbn.
    apply dedent_loop_spec in Hd as (Hok' & _ & Hle & closed & Hcl & Hgt); [|done|unfold n; lia].
    case_bool_decide as Heq; [done|]. exfalso. apply Heq.
    rewrite Hcl in Hin. apply elem_of_app in Hin as [Hin|Hin].
    + rewrite Forall_forall in Hgt. specialize (Hgt _ Hin). lia.
    + destruct Hok' as [|m top lv' ? ?]; [by apply list_elem_of_singleton in Hin|].
      apply elem_of_cons in Hin as [->|Hin]; [done|].
      exfalso. cbn in Hle.
      assert (Forall (fun l => l <= top)%Z (top :: lv')) as Hall by (by apply levels_ok_top).
      rewrite Forall_forall in Hall. specialize (Hall _ Hin). cbn in Hall. lia.
  - intros H. exists 0%Z. right. exists n. split; [done|].
    destruct (levels_ok_hd _ Hok) as (top & outer & E). rewrite E in *. cbn [hd] in Hlt.
    cbn [dedent_loop] in H. apply Z.ltb_lt in Hlt. rewrite Hlt, bool_decide_false in H by done.
    cbn in H. by injection H as <-.
Qed.

Lemma unaligned_dedent_unreachable_witness :
  let L := mkLexer (ch_nl :: [ch_tab]) [] 0 1 1 [0%Z] 0 in
  exists col, runtime_error ($"Tabs not allowed at line 2, column 1")
    = runtime_error ($"Tabs not allowed" ++ at_line_column (line_ L + 1) col)
  \/ exists n, (n ∉ indent_levels_ L) /\ runtime_error ($"Tabs not allowed at line 2, column 1") = runtime_error
      ($"Indentation error: inconsistent dedent to level " ++ to_string n
       ++ $" at line " ++ to_string (line_ L + 1) ++ $". Valid previous indent levels: "
       ++ foldr (fun l acc => to_string l ++ (if acc is [] then [] else $" " ++ acc)) []
                (rev (indent_levels_ L))).
Proof.
  apply (unaligned_dedent_unreachable (ch_nl :: [ch_tab]) [] (Lexer_new (ch_nl :: [ch_tab]) []) []);
    [constructor | reflexivity].
Defined.

(** a [//] comment is recorded with its slashes doubled: the lexeme of the
    [COMMENT] token is two slashes followed by the comment as written, which
    itself starts with two slashes. *)
Theorem comment_lexeme_doubled (L : Lexer) tokens :
  source_ L !! pos_ L = Some "/"%char -> next_is L 1 "/" = true ->
  exists L' text, tokenize_step L "/" tokens
    = Ok (L', tokens ++ [mkToken COMMENT ($"//" ++ $"//" ++ text) (here L)])
    /\ slice (source_ L) (pos_ L) (pos_ L') = $"//" ++ text.
Proof.
  intros Hc Hn. destruct (next_is_rest _ _ Hn) as (r & Hr).
  assert (rest L = $"//" ++ r) as Hrest by (rewrite (rest_cons _ _ Hc), Hr; done).
  assert (tokenize_step L "/" tokens = lex_slash_comment L tokens) as ->
    by (unfold tokenize_step; by rewrite Hn).
  unfold lex_slash_comment. rewrite consume_while_eq.
  assert (take_while not_newline (rest L) = $"//" ++ take_while not_newline r) as E.
  { rewrite Hrest. by rewrite take_while_app by (repeat constructor). }
  do 2 eexists. split; [rewrite E; done|].
  unfold slice. change (drop (pos_ L) (source_ L)) with (rest L). cbn [pos_ advance].
  rewrite Nat.add_0_r, Nat.add_comm, Nat.add_sub, <- E. symmetry. apply take_while_prefix.
Qed.

Lemma comment_lexeme_doubled_witness :
  exists L' text, tokenize_step (Lexer_new ($"//x") []) "/" []
    = Ok (L', [] ++ [mkToken COMMENT ($"//" ++ $"//" ++ text) (mkLoc [] 1 1)])
    /\ slice ($"//x") 0 (pos_ L') = $"//" ++ text.
Proof. exact (comment_lexeme_doubled (Lexer_new ($"//x") []) [] eq_refl eq_refl). Defined.

(** The column drifts by one after an unsigned decimal literal: the plus sign of
    [7u+8] is the third character of its line and is reported at column 4. *)
Example unsigned_suffix_column_drift :
  (fun r => match r with
            | Some (Ok ts) => (fun t => (lexeme t, column (location t))) <$> ts
            | _ => []
            end) (tokenize ($"7u+8") [])
  = [($"7u", 1%Z); ($"+", 4%Z); ($"8", 5%Z); ([], 6%Z)].
Proof. reflexivity. Qed.
