(* ===== verification/TokenStream.v ===== *)
(** * The token stream of the parsers

    [src/parser/base_parser.cpp]: class [BaseParser], the cursor over the token
    vector every parser derives from. [tokens_] does not change; [pos_] is
    shared by reference between the parsers and is threaded here as part of the
    state. An index expression [tokens_[i]] with [i] out of range is undefined
    behaviour in the source; the two places that have one return the
    [out_of_range] marker, and [put_back_consumed] covers their use right after a [consume]. *)

From S2P Require Import Prelude.
From S2P Require Import Token.
From S2P Require Import Lexer.
From S2P Require Import LexerProps.

Record BaseParser : Type := mkParser {
  tokens_ : list Token;
  cursor : nat;              (* pos_ *)
  parser_file_path : str     (* current_file_path_ *)
}.

Definition set_pos (P : BaseParser) (p : nat) : BaseParser :=
  mkParser (tokens_ P) p (parser_file_path P).

(** ** Looking ahead *)

Definition is_trivia (t : Token) : bool := (type t =t COMMENT) || (type t =t NEWLINE).

(** The first index from [p] on that holds no comment and no line break, or the
    end of the vector. *)
Definition skip_from (ts : list Token) (p : nat) : nat :=
  p + length (take_while is_trivia (drop p ts)).

Definition current_location (P : BaseParser) : SourceLocation :=
  match tokens_ P !! cursor P with
  | Some t => mkLoc (parser_file_path P) (line (location t)) (column (location t))
  | None =>
      match last (tokens_ P) with
      | Some t => mkLoc (parser_file_path P) (line (location t)) (column (location t))
      | None => mkLoc (parser_file_path P) 0 0
      end
  end.

Definition skip_comments_and_newlines (P : BaseParser) : BaseParser :=
  set_pos P (skip_from (tokens_ P) (cursor P)).

(** [tokens_.back()], or the exception each accessor throws on no tokens. *)
Definition back_or_throw (P : BaseParser) (who : str) : outcome Token :=
  match last (tokens_ P) with
  | None => throw_runtime (who ++ $" called on empty token stream from file: " ++ parser_file_path P)
  | Some t => Ok t
  end.

Definition peek (P : BaseParser) : outcome Token :=
  match tokens_ P !! skip_from (tokens_ P) (cursor P) with
  | Some t => Ok t
  | None => back_or_throw P ($"Peek")
  end.

Definition peekNext (P : BaseParser) : outcome Token :=
  let first := skip_from (tokens_ P) (cursor P) in
  match tokens_ P !! skip_from (tokens_ P) (S first) with
  | Some t => Ok t
  | None => back_or_throw P ($"PeekNext")
  end.

(** The loop of [peekAhead]: the [k]-th token of [ts] that is not trivia. *)
Fixpoint nth_significant (ts : list Token) (k : nat) : option Token :=
  match ts with
  | [] => None
  | t :: ts' =>
      if is_trivia t then nth_significant ts' k
      else match k with 0 => Some t | S k' => nth_significant ts' k' end
  end.

Definition peekAhead (P : BaseParser) (k : nat) : outcome Token :=
  match nth_significant (drop (cursor P) (tokens_ P)) k with
  | Some t => Ok t
  | None => back_or_throw P ($"PeekAhead")
  end.

(** [t >= KEYWORD_LET && t <= KEYWORD_TYPENAME], on the enumerators' values. *)
Definition isReservedWordToken (t : TokenType) : bool :=
  ((TokenType_value KEYWORD_LET <=? TokenType_value t)
   && (TokenType_value t <=? TokenType_value KEYWORD_TYPENAME))%N.

(** The scan over [< ... >]: [None] is the early [return false]; otherwise the
    final depth and lookahead. The [k < 96] of the loop is the fuel. *)
Fixpoint angle_scan (P : BaseParser) (n : nat) (depth : Z) (k : nat) : outcome (option (Z * nat)) :=
  match n with
  | 0 => Ok (Some (depth, k))
  | S n' =>
      if (0 <? depth)%Z then
        tk ← peekAhead P k;
        let t := type tk in
        if (t =t END_OF_FILE) || (t =t LBRACE) || (t =t RBRACE) || (t =t SEMICOLON) then Ok None
        else
          let depth' := if t =t LT then (depth + 1)%Z
                        else if t =t GT then (depth - 1)%Z
                        else if t =t RSHIFT then (depth - 2)%Z
                        else depth in
          angle_scan P n' depth' (S k)
      else Ok (Some (depth, k))
  end.

Definition reservedWordAsTypedName (P : BaseParser) (follow : list TokenType) : outcome bool :=
  if bool_decide (tokens_ P = []) then Ok false
  else
    t0 ← peek P;
    if negb (isReservedWordToken (type t0)) then Ok false
    else
      t1 ← peekAhead P 1;
      if negb (type t1 =t LT) then Ok false
      else
        r ← angle_scan P (96 - 2) 1 2;
        match r with
        | None => Ok false
        | Some (depth, k) =>
            if negb (bool_decide (depth = 0%Z)) then Ok false
            else nt ← peekAhead P k; Ok (existsb (tteq (type nt)) follow)
        end.

(** ** Consuming *)

Definition consume (P : BaseParser) : outcome (Token * BaseParser) :=
  let P1 := skip_comments_and_newlines P in
  match tokens_ P1 !! cursor P1 with
  | Some t => Ok (t, set_pos P1 (S (cursor P1)))
  | None => t ← back_or_throw P1 ($"Consume"); Ok (t, P1)
  end.

Definition found_at (P : BaseParser) (t : Token) : str :=
  $" at file " ++ parser_file_path P ++ $", line " ++ to_string (line (location t))
  ++ $", column " ++ to_string (column (location t)).

Definition quoted (s : str) : str := $" (" ++ [ch_quote] ++ s ++ [ch_quote] ++ $")".

Definition expect (P : BaseParser) (ty : TokenType) : outcome (Token * BaseParser) :=
  t ← peek P;
  if negb (type t =t ty) then
    throw_runtime ($"Expected " ++ token_type_to_string ty ++ $" but found "
                   ++ token_type_to_string (type t) ++ found_at P t)
  else consume P.

Definition expect_lexeme (P : BaseParser) (ty : TokenType) (lx : str) : outcome (Token * BaseParser) :=
  t ← peek P;
  if negb (type t =t ty) || negb (lexeme t =s lx) then
    throw_runtime ($"Expected " ++ token_type_to_string ty ++ quoted lx ++ $" but found "
                   ++ token_type_to_string (type t) ++ quoted (lexeme t) ++ found_at P t)
  else consume P.

Definition expect_msg (P : BaseParser) (ty : TokenType) (msg : str) : outcome (Token * BaseParser) :=
  t ← peek P;
  if negb (type t =t ty) then
    throw_runtime (msg ++ $" but found " ++ token_type_to_string (type t) ++ quoted (lexeme t)
                   ++ found_at P t)
  else consume P.

Definition check (P : BaseParser) (ty : TokenType) : bool :=
  match tokens_ P !! skip_from (tokens_ P) (cursor P) with
  | Some t => type t =t ty
  | None => false
  end.

Definition check_any (P : BaseParser) (types : list TokenType) : bool := existsb (check P) types.

(** [match]: the consumed token, or [std::nullopt] and an unchanged cursor. *)
Definition match_token (P : BaseParser) (ty : TokenType) : outcome (option Token * BaseParser) :=
  if check P ty then '(t, P') ← consume P; Ok (Some t, P') else Ok (None, P).

Definition match_lexeme (P : BaseParser) (ty : TokenType) (lx : str)
    : outcome (option Token * BaseParser) :=
  if check P ty then
    t ← peek P;
    if lexeme t =s lx then '(t, P') ← consume P; Ok (Some t, P') else Ok (None, P)
  else Ok (None, P).

Fixpoint match_any (P : BaseParser) (types : list TokenType) : outcome (option Token * BaseParser) :=
  match types with
  | [] => Ok (None, P)
  | ty :: types' =>
      if check P ty then '(t, P') ← consume P; Ok (Some t, P') else match_any P types'
  end.

(** The loop over layout tokens; each iteration moves the cursor, so the number
    of tokens is enough fuel. *)
Fixpoint skip_indents_loop (fuel : nat) (P : BaseParser) : BaseParser :=
  match fuel with
  | 0 => P
  | S fuel' =>
      match tokens_ P !! cursor P with
      | Some t =>
          if (type t =t INDENT) || (type t =t DEDENT)
          then skip_indents_loop fuel' (skip_comments_and_newlines (set_pos P (S (cursor P))))
          else P
      | None => P
      end
  end.

Definition skip_indents_dedents (P : BaseParser) : BaseParser :=
  skip_indents_loop (length (tokens_ P)) P.

(** ** Classification and bookkeeping *)

Definition get_current_pos (P : BaseParser) : nat := cursor P.

Definition IsAtEnd (P : BaseParser) : bool :=
  match tokens_ P !! cursor P with
  | Some t => type t =t END_OF_FILE
  | None => true
  end.

Definition IsDataType (t : Token) : bool := type t =t IDENTIFIER.

Definition IsLiteral (t : Token) : bool :=
  (type t =t INT_LITERAL) || (type t =t FLOAT_LITERAL) || (type t =t STRING_LITERAL).

Definition IsOperator (t : Token) : bool :=
  (type t =t PLUS) || (type t =t MINUS) || (type t =t MULTIPLY) || (type t =t DIVIDE)
  || (type t =t EQEQ) || (type t =t NOTEQ) || (type t =t LT) || (type t =t LTEQ)
  || (type t =t GT) || (type t =t GTEQ).

Definition IsUnaryOperator (t : Token) : bool := (type t =t MINUS) || (type t =t BANG).

(** [error] throws; it never returns the exception object its type promises. *)
Definition error {A} (t : Token) (message : str) : outcome A :=
  throw_runtime ($"Error at " ++ SourceLocation_toString (location t) ++ $": " ++ message
                 ++ $" (found '" ++ lexeme t ++ $"')").

(** The walk back over trivia from index [p], stopping at 0. *)
Fixpoint back_over_trivia (ts : list Token) (p : nat) : nat :=
  match p with
  | 0 => 0
  | S p' => match ts !! p with
            | Some t => if is_trivia t then back_over_trivia ts p' else p
            | None => p
            end
  end.

Definition previous_token (P : BaseParser) : outcome Token :=
  match cursor P with
  | 0 => throw_runtime ($"previous_token() called at the beginning of the token stream.")
  | S p => match tokens_ P !! back_over_trivia (tokens_ P) p with
           | Some t => Ok t
           | None => Throw (out_of_range ($"tokens_[prev_pos]"))
           end
  end.

Definition put_back_token (P : BaseParser) : outcome BaseParser :=
  match cursor P with
  | 0 => throw_runtime ($"put_back_token() called at the beginning of the token stream.")
  | 1 => Ok (set_pos P 0)
  | S p => match tokens_ P !! p with
           | Some _ => Ok (set_pos P (back_over_trivia (tokens_ P) p))
           | None => Throw (out_of_range ($"tokens_[target_pos]"))
           end
  end.

(** ** The stream as a list of significant tokens *)

(** What is still to be read, without comments and line breaks. *)
Definition upcoming (P : BaseParser) : list Token :=
  filter (fun t => is_trivia t = false) (drop (cursor P) (tokens_ P)).

Lemma nth_significant_filter ts k :
  nth_significant ts k = filter (fun t => is_trivia t = false) ts !! k.
Proof.
  revert k. induction ts as [|t ts IH]; intros k; cbn [nth_significant]; [done|].
  rewrite filter_cons. case_decide as E; [|apply not_false_is_true in E; rewrite E; apply IH].
  rewrite E. destruct k; [done|]. apply IH.
Qed.

Lemma filter_drop_while ts :
  filter (fun t => is_trivia t = false) (drop_while is_trivia ts)
  = filter (fun t => is_trivia t = false) ts.
Proof.
  induction ts as [|t ts IH]; [done|]. cbn [drop_while]. destruct (is_trivia t) eqn:E; [|done].
  rewrite IH, filter_cons_False; [done|]. congruence.
Qed.

(** The text after [skip_from] starts with a significant token, or is empty. *)
Lemma skip_from_spec ts p :
  drop (skip_from ts p) ts = drop_while is_trivia (drop p ts).
Proof. unfold skip_from. by rewrite <- drop_drop, drop_take_while. Qed.

Lemma skip_from_lookup ts p : ts !! skip_from ts p = filter (fun t => is_trivia t = false) (drop p ts) !! 0.
Proof.
  rewrite <- (Nat.add_0_r (skip_from ts p)), <- lookup_drop, skip_from_spec, <- filter_drop_while.
  destruct (drop_while is_trivia (drop p ts)) as [|t r] eqn:E; [done|].
  apply drop_while_head in E. by rewrite filter_cons_True.
Qed.

(** From one significant token to the next. *)
Lemma upcoming_next P t :
  tokens_ P !! skip_from (tokens_ P) (cursor P) = Some t ->
  upcoming P = t :: upcoming (set_pos P (S (skip_from (tokens_ P) (cursor P)))).
Proof.
  intros H. unfold upcoming at 1. rewrite <- filter_drop_while, <- skip_from_spec.
  rewrite (drop_S _ _ _ H). apply filter_cons_True.
  rewrite skip_from_lookup in H. apply list_elem_of_lookup_2 in H.
  by apply list_elem_of_filter in H as [? _].
Qed.

Lemma upcoming_end P :
  tokens_ P !! skip_from (tokens_ P) (cursor P) = None -> upcoming P = [].
Proof.
  rewrite skip_from_lookup. unfold upcoming. by destruct (filter _ _).
Qed.

(** The token the accessors fall back to past the end. *)
Definition last_token (P : BaseParser) : Token :=
  match last (tokens_ P) with Some t => t | None => mkToken END_OF_FILE [] (mkLoc [] 0 0) end.

Lemma back_or_throw_nonempty P who : tokens_ P <> [] -> back_or_throw P who = Ok (last_token P).
Proof.
  unfold back_or_throw, last_token. destruct (last (tokens_ P)) eqn:E; [done|].
  by apply last_None in E.
Qed.

Lemma peekAhead_upcoming P k :
  tokens_ P <> [] ->
  peekAhead P k = Ok (match upcoming P !! k with Some t => t | None => last_token P end).
Proof.
  intros H. unfold peekAhead. rewrite nth_significant_filter. fold (upcoming P).
  destruct (upcoming P !! k); [done|]. by apply back_or_throw_nonempty.
Qed.

Lemma peek_upcoming P :
  tokens_ P <> [] ->
  peek P = Ok (match upcoming P with t :: _ => t | [] => last_token P end).
Proof.
  intros H. unfold peek. destruct (tokens_ P !! _) as [t|] eqn:E.
  - by rewrite (upcoming_next _ _ E).
  - rewrite (upcoming_end _ E). by apply back_or_throw_nonempty.
Qed.

Lemma check_upcoming P ty :
  check P ty = match upcoming P with t :: _ => type t =t ty | [] => false end.
Proof.
  unfold check. destruct (tokens_ P !! _) as [t|] eqn:E.
  - by rewrite (upcoming_next _ _ E).
  - by rewrite (upcoming_end _ E).
Qed.

Lemma consume_upcoming P :
  tokens_ P <> [] ->
  exists P', consume P = Ok (match upcoming P with t :: _ => t | [] => last_token P end, P')
    /\ upcoming P' = tail (upcoming P) /\ tokens_ P' = tokens_ P /\ cursor P <= cursor P'.
Proof.
  intros H. unfold consume. cbn [tokens_ cursor skip_comments_and_newlines set_pos].
  assert (cursor P <= skip_from (tokens_ P) (cursor P)) by (unfold skip_from; lia).
  destruct (tokens_ P !! _) as [t|] eqn:E.
  - exists (set_pos P (S (skip_from (tokens_ P) (cursor P)))).
    rewrite (upcoming_next _ _ E). split_and!; try done. cbn. lia.
  - exists (skip_comments_and_newlines P).
    rewrite (upcoming_end _ E), back_or_throw_nonempty by done. split_and!; try done.
    unfold upcoming. cbn. rewrite drop_ge; [done|]. by apply lookup_ge_None.
Qed.

Lemma upcoming_significant P t : t ∈ upcoming P -> is_trivia t = false.
Proof. unfold upcoming. by intros [? _]%list_elem_of_filter. Qed.

Lemma back_over_trivia_significant ts p t :
  ts !! p = Some t -> is_trivia t = false -> back_over_trivia ts p = p.
Proof. intros H1 H2. destruct p; [done|]. cbn [back_over_trivia]. by rewrite H1, H2. Qed.

Lemma filter_skip P : upcoming (set_pos P (skip_from (tokens_ P) (cursor P))) = upcoming P.
Proof. unfold upcoming. cbn. by rewrite <- (filter_drop_while (drop (cursor P) _)), <- skip_from_spec. Qed.

Lemma peekNext_upcoming P : tokens_ P <> [] ->
  peekNext P = Ok (match upcoming P !! 1 with Some t => t | None => last_token P end).
Proof.
  intros H. unfold peekNext. set (Q := set_pos P (S (skip_from (tokens_ P) (cursor P)))).
  assert (match upcoming P !! 1 with Some t => t | None => last_token P end
          = match upcoming Q with t :: _ => t | [] => last_token Q end) as ->.
  { destruct (tokens_ P !! skip_from (tokens_ P) (cursor P)) as [t|] eqn:E.
    - rewrite (upcoming_next _ _ E). fold Q. by destruct (upcoming Q).
    - rewrite (upcoming_end _ E). apply lookup_ge_None in E.
      unfold upcoming. cbn. by rewrite drop_ge by lia. }
  rewrite <- peek_upcoming by done. unfold peek. cbn. destruct (tokens_ P !! _); [done|].
  by rewrite !back_or_throw_nonempty.
Qed.

(** ** Theorems *)

(** C32: on a non-empty token vector the cursor is a list of the significant
    tokens still to come: [peekAhead k] is its [k]-th element (the last token of
    the vector past its end), [peek] and [peekNext] are [peekAhead 0] and
    [peekAhead 1], [check] looks at its head, and [consume] returns the head and
    leaves the tail. *)
Theorem base_parser_refines_list (P : BaseParser) :
  tokens_ P <> [] ->
  (forall k, peekAhead P k
     = Ok (match upcoming P !! k with Some t => t | None => last_token P end))
  /\ peek P = peekAhead P 0 /\ peekNext P = peekAhead P 1
  /\ (forall ty, check P ty = match upcoming P with t :: _ => type t =t ty | [] => false end)
  /\ exists t P', consume P = Ok (t, P') /\ peek P = Ok t /\ upcoming P' = tail (upcoming P)
       /\ tokens_ P' = tokens_ P.
Proof.
  intros H. split_and!; auto using peekAhead_upcoming, check_upcoming.
  - rewrite peek_upcoming, peekAhead_upcoming by done. by destruct (upcoming P).
  - by rewrite peekNext_upcoming, peekAhead_upcoming.
  - destruct (consume_upcoming P H) as (P' & -> & ? & ? & _).
    rewrite peek_upcoming by done. eauto 10.
Qed.

Definition sample_stream : BaseParser :=
  mkParser [mkToken COMMENT ($"//") (mkLoc [] 1 1); mkToken IDENTIFIER ($"a") (mkLoc [] 2 1);
            mkToken NEWLINE [] (mkLoc [] 3 1); mkToken LT ($"<") (mkLoc [] 3 1);
            mkToken END_OF_FILE [] (mkLoc [] 3 2)] 0 [].

Lemma base_parser_refines_list_witness :
  peek sample_stream = peekAhead sample_stream 0 /\ peekNext sample_stream = peekAhead sample_stream 1.
Proof.
  destruct (base_parser_refines_list sample_stream ltac:(discriminate)) as (_ & H1 & H2 & _).
  exact (conj H1 H2).
Defined.

(** trivia is invisible to the parsers: no comment or line break ever
    satisfies [check] or is returned by [match], whatever the stream, so a loop
    that matches [NEWLINE] tokens does nothing. *)
Theorem trivia_never_matched (P : BaseParser) (ty : TokenType) :
  ty = COMMENT \/ ty = NEWLINE -> check P ty = false /\ match_token P ty = Ok (None, P).
Proof.
  intros Hty. assert (check P ty = false) as E.
  { rewrite check_upcoming. destruct (upcoming P) as [|t u] eqn:E; [done|].
    assert (is_trivia t = false) as Ht by (apply (upcoming_significant P); rewrite E; apply elem_of_cons; by left).
    unfold is_trivia in Ht. apply orb_false_iff in Ht as [? ?]. by destruct Hty as [->| ->]. }
  unfold match_token. by rewrite E.
Qed.

Lemma trivia_never_matched_witness : match_token (set_pos sample_stream 2) NEWLINE = Ok (None, set_pos sample_stream 2).
Proof. exact (proj2 (trivia_never_matched (set_pos sample_stream 2) NEWLINE (or_intror eq_refl))). Defined.

(** Consuming the next token and what can be done right after it. *)
Lemma put_back_stream P t u :
  upcoming P = t :: u ->
  exists P', consume P = Ok (t, P') /\ upcoming P' = u /\ previous_token P' = Ok t
    /\ exists P'', put_back_token P' = Ok P'' /\ upcoming P'' = upcoming P
      /\ tokens_ P' = tokens_ P /\ tokens_ P'' = tokens_ P.
Proof.
  intros Hup. unfold consume. cbn [tokens_ cursor skip_comments_and_newlines set_pos].
  destruct (tokens_ P !! _) as [v|] eqn:E; [|by rewrite (upcoming_end _ E) in Hup].
  pose proof (upcoming_next _ _ E) as Hn. rewrite Hup in Hn. injection Hn as <- Hu.
  set (i := skip_from _ _) in *.
  assert (is_trivia t = false) as Ht.
  { apply (upcoming_significant P). rewrite Hup. apply elem_of_cons. by left. }
  pose proof (back_over_trivia_significant _ _ _ E Ht) as Hb.
  exists (set_pos (set_pos P i) (S i)). split_and!; [done|done|unfold previous_token; cbn; by rewrite Hb, E|].
  exists (set_pos P i). split_and!; [|by rewrite <- (filter_skip P)|done|done].
  unfold put_back_token. cbn. destruct i as [|i]; [done|]. by rewrite E, Hb.
Qed.

(** [put_back_token] undoes [consume], and [previous_token] is the consumed
    token, comments and line breaks around it notwithstanding: after consuming
    a significant token and putting it back, [peek] shows it again and the
    stream is the one before. *)
Theorem put_back_consumed (P : BaseParser) t P' :
  upcoming P <> [] -> consume P = Ok (t, P') ->
  previous_token P' = Ok t
  /\ exists P'', put_back_token P' = Ok P'' /\ peek P'' = Ok t /\ upcoming P'' = upcoming P.
Proof.
  intros Hne Hc. destruct (upcoming P) as [|v u] eqn:E; [done|].
  destruct (put_back_stream P v u E) as (P1 & Hc1 & _ & Hp & P'' & Hb & Hu & _ & T).
  rewrite Hc1 in Hc. injection Hc as <- <-. split; [done|]. exists P''. split_and!; [done| |congruence].
  rewrite peek_upcoming, Hu, E; [done|]. rewrite T. intros F. unfold upcoming in E. by rewrite F, drop_nil in E.
Qed.

Lemma put_back_consumed_witness :
  previous_token (set_pos sample_stream 4) = Ok (mkToken LT ($"<") (mkLoc [] 3 1)).
Proof.
  exact (proj1 (put_back_consumed (set_pos sample_stream 2) (mkToken LT ($"<") (mkLoc [] 3 1))
    (set_pos sample_stream 4) ltac:(discriminate) eq_refl)).
Defined.

(** while a significant token is left, [match] and [expect] agree: [match]
    returns a token exactly when [expect] does not throw, and then both consume
    the same token; when [match] declines, the stream is untouched. *)
Theorem match_expect_agree (P : BaseParser) (ty : TokenType) :
  upcoming P <> [] ->
  (exists t P', match_token P ty = Ok (Some t, P') /\ expect P ty = Ok (t, P') /\ type t = ty)
  \/ (match_token P ty = Ok (None, P) /\ is_ok (expect P ty) = false).
Proof.
  intros Hne. unfold match_token, expect. rewrite check_upcoming.
  assert (tokens_ P <> []) as Ht.
  { intros E. apply Hne. unfold upcoming. by rewrite E, drop_nil. }
  rewrite peek_upcoming by done. destruct (consume_upcoming P Ht) as (P' & -> & _).
  destruct (upcoming P) as [|t u]; [done|]. cbn.
  destruct (type t =t ty) eqn:E; cbn; [|by right].
  left. apply tteq_true in E. eauto.
Qed.

Lemma match_expect_agree_witness :
  (exists t P', match_token sample_stream IDENTIFIER = Ok (Some t, P')
     /\ expect sample_stream IDENTIFIER = Ok (t, P') /\ type t = IDENTIFIER)
  \/ (match_token sample_stream IDENTIFIER = Ok (None, sample_stream)
      /\ is_ok (expect sample_stream IDENTIFIER) = false).
Proof. exact (match_expect_agree sample_stream IDENTIFIER ltac:(discriminate)). Defined.

(** A parser started on the lexer's output always finds [END_OF_FILE]: the
    significant tokens are followed by the one [END_OF_FILE] token, and looking
    ahead past the end keeps returning it. *)
Theorem lexer_stream_ends (src path : str) ts :
  tokenize src path = Some (Ok ts) ->
  exists sig eof, upcoming (mkParser ts 0 path) = sig ++ [eof] /\ type eof = END_OF_FILE
    /\ Forall (fun t => type t <> END_OF_FILE) sig
    /\ forall k, length sig <= k -> peekAhead (mkParser ts 0 path) k = Ok eof.
Proof.
  intros (L & tokens & Hr%lex_reachable_inv & _ & ->)%tokenize_inv.
  unfold tokenize_finish. rewrite app_assoc. set (body := tokens ++ replicate _ _).
  set (eof := mkToken END_OF_FILE _ _).
  set (P := mkParser (body ++ [eof]) 0 path).
  exists (filter (fun t => is_trivia t = false) body), eof.
  assert (upcoming P = filter (fun t => is_trivia t = false) body ++ [eof]) as Hup
    by (unfold upcoming, P; cbn [cursor tokens_]; by rewrite drop_0, list.filter_app).
  split_and!; try done.
  - apply Forall_forall. intros t [_ Ht]%list_elem_of_filter. apply elem_of_app in Ht as [Ht|Ht].
    + pose proof (inv_no_eof _ _ _ _ Hr) as Hn. rewrite Forall_forall in Hn. by apply Hn.
    + by apply elem_of_replicate in Ht as [-> _].
  - intros k Hk. assert (tokens_ P <> []) by (unfold P; cbn; by destruct body).
    rewrite peekAhead_upcoming, Hup, lookup_app_r by done.
    unfold last_token, P. cbn [tokens_]. rewrite last_snoc. by destruct (k - _) as [|[|k']].
Qed.

Lemma lexer_stream_ends_witness :
  exists ts eof, tokenize sample_source [] = Some (Ok ts) /\ type eof = END_OF_FILE
    /\ peekAhead (mkParser ts 0 []) 1000 = Ok eof.
Proof.
  destruct (tokenize sample_source []) as [[ts|e]|] eqn:E; [|vm_compute in E; discriminate E..].
  destruct (lexer_stream_ends _ _ _ E) as (sg & eof & Hup & Heof & _ & Hk).
  exists ts, eof. split_and!; [reflexivity | exact Heof |]. apply Hk.
  vm_compute in E. injection E as <-. vm_compute in Hup.
  apply (f_equal length) in Hup. rewrite length_app in Hup. cbn in Hup. lia.
Defined.

(** the reserved words are exactly the keyword table: a token kind is a
    reserved word if and only if some spelling lexes to it, and that spelling is
    unique. *)
Theorem reserved_words_keywords (t : TokenType) :
  isReservedWordToken t = true <->
  exists w, get_keyword_type w = t /\ t <> IDENTIFIER
            /\ forall w', get_keyword_type w' = t -> w' = w.
Proof.
  assert (forall w v, assoc_find w keywords = Some v -> isReservedWordToken v = true) as Hres.
  { intros w v Hw%assoc_elem_of%list_elem_of_In.
    assert (forallb (fun p => isReservedWordToken p.2) keywords = true) as Hall by reflexivity.
    rewrite forallb_forall in Hall. apply (Hall _ Hw). }
  split.
  - intros H.
    assert (implb (isReservedWordToken t)
      (match filter (fun p => p.2 = t) keywords with
       | [p] => bool_decide (assoc_find p.1 keywords = Some t) | _ => false end) = true) as Hall.
    { clear H. revert t. apply TokenType_forallb. vm_compute. reflexivity. }
    rewrite H in Hall. cbn [implb] in Hall.
    destruct (filter (fun p => p.2 = t) keywords) as [|[w v] [|]] eqn:Ef; try done.
    apply bool_decide_eq_true in Hall. cbn [fst] in Hall. exists w.
    split_and!; [unfold get_keyword_type; by rewrite Hall | by intros -> |].
    intros w' Hw'. unfold get_keyword_type in Hw'.
    destruct (assoc_find w' keywords) as [v'|] eqn:E; [subst v'|by subst t].
    apply assoc_elem_of in E.
    assert ((w', t) ∈ filter (fun p => p.2 = t) keywords) as Hin by (by apply list_elem_of_filter).
    rewrite Ef in Hin. apply list_elem_of_singleton in Hin. congruence.
  - intros (w & Hw & Hne & _). unfold get_keyword_type in Hw.
    destruct (assoc_find w keywords) eqn:E; [|congruence]. subst. by eapply Hres.
Qed.
