(* ===== verification/Ast.v ===== *)
(** * The syntax tree of include/vyb/parser/ast.hpp

    One constructor per node class, with the members of the class as named
    arguments. A [std::unique_ptr] the code tests for null is an [option]; a
    pointer every reader dereferences without a test (the key of an object
    property, the name of a function parameter, a trap clause in a block
    expression) is not. The mutually recursive types follow the pointer
    types of the header: [Expression] is [ExprPtr], [Statement] is [StmtPtr]
    (declarations are statements, as in the class hierarchy), [TypeNode] is
    [TypeNodePtr], and the classes that are pointed to by their own type
    ([BlockStatement], [MatchStatement], [FunctionDeclaration],
    [FieldDeclaration], [TrapClause], ...) have a type of their own.

    [StructType] has no constructor: the class leaves [getType] and [clone]
    pure, so it has no instances. *)

From S2P Require Import Prelude.
From S2P Require Import Token.
From Stdlib Require Import SpecFloat.

(** ** Base class and enumerations *)

(** What every node carries: its location and the process-unique id the
    constructor draws from [idCounter] (the key of the semantic tables). *)
Record Node : Type := mkNode { loc : SourceLocation; id_ : Z }.

Inductive BorrowKind : Type := MUTABLE_BORROW | IMMUTABLE_VIEW.
Inductive OwnershipKind : Type := MY | OUR | THEIR | MILD | PTR.
Inductive ImportKind : Type := TrustedImport | Smuggle.

#[export] Instance BorrowKind_eq_dec : EqDecision BorrowKind.
Proof. solve_decision. Defined.

Record Identifier : Type := mkIdentifier { id_node : Node; name : str }.

Record StringLit : Type := mkStringLit { str_node : Node; str_value : str }.

Record ImportSpecifier : Type := mkImportSpecifier {
  importedName : option Identifier;
  localName : option Identifier
}.

(** A [double]: the IEEE-754 value without a payload for NaN. *)
Abbreviation double := spec_float.

(** ** Nodes *)

Inductive Expression : Type :=
| IdentifierExpr (i : Identifier)
| IntegerLiteral (n : Node) (value : Z) (isUnsigned : bool) (uvalue : Z)
| FloatLiteral (n : Node) (value : double)
| StringLiteral (s : StringLit)
| BooleanLiteral (n : Node) (value : bool)
| ArrayLiteral (n : Node) (elements : list (option Expression))
| ObjectLiteral (n : Node) (typePath : option TypeNode) (properties : list ObjectProperty)
| NilLiteral (n : Node)
| BorrowExpression (n : Node) (expression : option Expression) (kind : BorrowKind)
| PointerDerefExpression (n : Node) (pointer : option Expression)
| AddrOfExpression (n : Node) (location : option Expression)
| FromIntToLocExpression (n : Node) (address_expr : option Expression) (target_type : option TypeNode)
| ArrayElementExpression (n : Node) (array index : option Expression)
| LocationExpression (n : Node) (expression : option Expression)
| ListComprehension (n : Node) (elementExpr : option Expression) (loopVariable : option Identifier)
    (iterableExpr conditionExpr : option Expression)
| UnaryExpression (n : Node) (op : Token) (operand : option Expression)
| BinaryExpression (n : Node) (left : option Expression) (op : Token) (right : option Expression)
| CallExpression (n : Node) (callee : option Expression) (arguments : list (option Expression))
    (explicitTypeArgs : list (option TypeNode))
| ConstructionExpression (n : Node) (constructedType : option TypeNode) (arguments : list (option Expression))
| ArrayInitializationExpression (n : Node) (elementType : option TypeNode) (sizeExpression : option Expression)
| GenericInstantiationExpression (n : Node) (baseExpression : option Expression)
    (genericArguments : list (option TypeNode)) (lt_loc gt_loc : SourceLocation)
| MemberExpression (n : Node) (object property : option Expression) (computed : bool)
| AssignmentExpression (n : Node) (left : option Expression) (op : Token) (right : option Expression)
| IfExpression (n : Node) (condition thenBranch elseBranch : option Expression)
| LogicalExpression (n : Node) (left : option Expression) (op : Token) (right : option Expression)
| ConditionalExpression (n : Node) (condition thenExpr elseExpr : option Expression)
| SequenceExpression (n : Node) (expressions : list (option Expression))
| FunctionExpression (n : Node) (params : list FunctionParameter) (body : option Expression) (isAsync : bool)
| ThisExpression (n : Node)
| SuperExpression (n : Node)
| AwaitExpression (n : Node) (expr : option Expression)
| RangeExpression (n : Node) (start end_ step : option Expression)
| BlockExpression (n : Node) (block : option Block) (trapClauses : list TrapClause)
    (ensureClause : option EnsureClause)
| SelectExpression (n : Node) (expr : option Expression) (cases : list (option Expression * option Expression))
| ComparisonPattern (n : Node) (op : Token) (value : option Expression)
| StructPattern (n : Node) (typeName : option TypeNode) (bindings : list (option Identifier))
| SetPattern (n : Node) (elements : list (option Expression))
| TypeofExpression (n : Node) (operand : option Expression) (typeArg : option TypeNode)
| TypenameExpression (n : Node) (operand : option Expression)
| AsExpression (n : Node) (operand : option Expression) (targetType : option TypeNode)
| MatchExpression (n : Node) (match_ : option Match)

with Statement : Type :=
| BlockStatement (b : Block)
| EmptyStatement (n : Node)
| TryStatement (n : Node) (tryBlock : option Block) (catchIdent : option str)
    (catchBlock finallyBlock : option Block)
| ExpressionStatement (n : Node) (expression : option Expression)
| IfStatement (n : Node) (test : option Expression) (consequent alternate : option Statement)
| ForStatement (n : Node) (init : option Statement) (test update : option Expression)
    (body : option Statement) (label : str)
| WhileStatement (n : Node) (test : option Expression) (body : option Statement) (label : str)
| ReturnStatement (n : Node) (argument : option Expression)
| PassStatement (n : Node) (argument : option Expression)
| BreakStatement (n : Node) (label : str)
| ContinueStatement (n : Node) (label : str)
| FreedomStatement (n : Node) (block : option Block)
| ExternStatement (n : Node) (name : option Identifier) (returnType : option TypeNode)
    (parameters : list FunctionParameter)
| ThrowStatement (n : Node) (expr : option Expression)
| MatchStatement (m : Match)
| YieldStatement (n : Node) (expression : option Expression)
| YieldReturnStatement (n : Node) (expression : option Expression)
| AssertStatement (n : Node) (condition message : option Expression)
| FailStatement (n : Node) (error : option Expression) (errorType : option TypeNode)
| RefailStatement (n : Node) (wrappedError : option Expression)
| PanicStatement (n : Node) (message : option Expression)
| ExitStatement (n : Node) (exit_code : option Expression)
| DeferStatement (n : Node) (statement : option Statement)
| TupleDestructureAssignment (n : Node) (identifiers : list Identifier) (expression : option Expression)
| VariableDeclaration (n : Node) (id : option Identifier) (isConst : bool) (typeNode : option TypeNode)
    (init : option Expression) (ownsBoundValue : bool)
| FunctionDeclaration (f : Function_)
| TypeAliasDeclaration (n : Node) (name : option Identifier) (typeNode : option TypeNode)
| ImportDeclaration (n : Node) (kind : ImportKind) (source locator : option StringLit)
    (specifiers : list ImportSpecifier) (defaultImport namespaceImport : option Identifier)
| StructDeclaration (n : Node) (name : option Identifier) (genericParams : list (option GenericParameter))
    (fields : list (option Field)) (constructors : list (option Function_)) (reprC : bool)
| ClassDeclaration (n : Node) (name : option Identifier) (genericParams : list (option GenericParameter))
    (members : list (option Statement))
| FieldDeclaration (f : Field)
| BindDeclaration (n : Node) (name : option Identifier) (genericParams : list (option GenericParameter))
    (traitType selfType : option TypeNode)
    (associatedTypeBindings : list (option Identifier * option TypeNode)) (methods : list (option Function_))
| EnumDeclaration (n : Node) (name : option Identifier) (genericParams : list (option GenericParameter))
    (variants : list (option EnumVariant))
| TemplateDeclaration (n : Node) (name : option Identifier) (genericParams : list (option GenericParameter))
    (body : option Statement)
| AspectDeclaration (n : Node) (name : option Identifier) (genericParams : list (option GenericParameter))
    (superTypes associatedTypes : list (option Identifier)) (associatedTypeDefaults : list (option TypeNode))
    (associatedTypeConstraints : list (list (option TypeNode))) (methods : list (option Function_))
| NamespaceDeclaration (n : Node) (name : option Identifier) (members : list (option Statement))

with TypeNode : Type :=
| TypeName (n : Node) (identifier : option Identifier) (genericArgs : list (option TypeNode))
| PointerType (n : Node) (pointeeType : option TypeNode)
| ArrayType (n : Node) (elementType : option TypeNode) (sizeExpression : option Expression)
| VecType (n : Node) (elementType : option TypeNode)
| FutureType (n : Node) (resultType : option TypeNode)
| FunctionType (n : Node) (parameterTypes : list (option TypeNode)) (returnType : option TypeNode)
| OptionalType (n : Node) (containedType : option TypeNode)
| TupleTypeNode (n : Node) (memberTypes : list (option TypeNode))

with ObjectProperty : Type :=
| mkObjectProperty (property_loc : SourceLocation) (key : Identifier) (value : option Expression)

with FunctionParameter : Type :=
| mkFunctionParameter (name : Identifier) (typeNode : option TypeNode) (isMutable : bool)

with GenericParameter : Type :=
| mkGenericParameter (n : Node) (name : option Identifier) (bounds : list (option TypeNode))

with Block : Type :=
| mkBlock (n : Node) (body : list (option Statement))

with Match : Type :=
| mkMatch (n : Node) (expr : option Expression) (cases : list (option Expression * option Expression))
    (guards : list (option Expression))

with TrapClause : Type :=
| mkTrapClause (n : Node) (errorName : option Identifier) (errorType : option TypeNode)
    (errorTypes : list TypeNode) (handler : option Statement) (isWildcard isMultiType : bool)

with EnsureClause : Type :=
| mkEnsureClause (n : Node) (cleanupBlock : option Statement)

with Field : Type :=
| mkField (n : Node) (name : option Identifier) (typeNode : option TypeNode)
    (initializer : option Expression) (isMutable : bool)

with Function_ : Type :=
| mkFunction (n : Node) (id : option Identifier) (genericParams : list (option GenericParameter))
    (params : list FunctionParameter) (body : option Block) (isAsync hasDefaultImpl variadic : bool)
    (returnTypeNode : option TypeNode) (inlineHint : Z)

with EnumVariant : Type :=
| mkEnumVariant (n : Node) (name : option Identifier) (associatedTypes : list (option TypeNode))
    (value : Z) (hasValue : bool).

Record Module_ : Type := mkModule { module_node : Node; module_body : list (option Statement) }.
