(* ===== verification/AstText.v ===== *)
(** * Rendering of the syntax tree: the [toString] methods of src/parser/ast.cpp

    One definition per class, from the texts of its children to the text of
    the node; [Expression_toString], [Statement_toString] and
    [TypeNode_toString] apply them through the tree. The semantic analyzer
    compares types by these texts; the file on type nodes says when equal
    texts mean equal types. *)

From S2P Require Import Prelude.
From S2P Require Import Token.
From S2P Require Import Ast.
From Stdlib Require Import SpecFloat.

(** ** Helpers of the rendering *)

(** [p ? p->toString() : d] on a rendered child. *)
Abbreviation or_else d o := (match o with Some s => s | None => d end).

(** [if (x[i]) out << x[i]->toString(); if (i < n - 1) out << sep;] *)
Fixpoint joined (sep : str) (l : list (option str)) : str :=
  match l with
  | [] => []
  | [o] => or_else [] o
  | o :: l' => or_else [] o ++ sep ++ joined sep l'
  end.

(** The lines [std::getline] reads from a string stream. *)
Fixpoint getlines_from (acc : str) (s : str) : list str :=
  match s with
  | [] => if acc =s [] then [] else [rev acc]
  | c :: s' => if c =c ch_nl then rev acc :: getlines_from [] s' else getlines_from (c :: acc) s'
  end.
Definition getlines (s : str) : list str := getlines_from [] s.

(** The indentation loop: each line of the text behind two blanks. *)
Definition indented (s : str) : str :=
  concat (map (fun l => $"  " ++ l ++ [ch_nl]) (getlines s)).

Definition indented_members (l : list (option str)) : str :=
  concat (map (fun o => or_else [] (option_map indented o)) l).

Definition quoted (s : str) : str := [ch_quote] ++ s ++ [ch_quote].

Definition generic_list (gs : list (option str)) : str :=
  match gs with [] => [] | _ => $"<" ++ joined $", " gs ++ $">" end.

(** [std::to_string(double)], the format percent-f: the exact binary value
    rounded to six decimals, ties to even. *)
Definition round_half_even (num den : Z) : Z :=
  (let q := num / den in let r := num mod den in
   if 2 * r <? den then q else if 2 * r >? den then q + 1 else if Z.even q then q else q + 1)%Z.

Definition micros (m : positive) (e : Z) : Z :=
  (if 0 <=? e then Zpos m * 2 ^ e * 1000000 else round_half_even (Zpos m * 1000000) (2 ^ (- e)))%Z.

Definition pad6 (s : str) : str := replicate (6 - length s) "0"%char ++ s.

Definition fixed6 (z : Z) : str :=
  to_string (z / 1000000) ++ $"." ++ pad6 (to_string (z mod 1000000)).

Definition sign_text (s : bool) : str := if s then $"-" else [].

Definition double_to_string (x : double) : str :=
  match x with
  | S754_zero s => sign_text s ++ $"0.000000"
  | S754_infinity s => sign_text s ++ $"inf"
  | S754_nan => $"nan"
  | S754_finite s m e => sign_text s ++ fixed6 (micros m e)
  end.

(** ** Literals and expressions *)

Definition Identifier_toString (i : Identifier) : str := name i.

Definition IntegerLiteral_toString (value : Z) (isUnsigned : bool) (uvalue : Z) : str :=
  if isUnsigned then to_string uvalue else to_string value.
Definition FloatLiteral_toString (value : double) : str := double_to_string value.
Definition StringLiteral_toString (s : StringLit) : str := quoted (str_value s).
Definition BooleanLiteral_toString (value : bool) : str := if value then $"true" else $"false".
Definition NilLiteral_toString : str := $"nil".
Definition ArrayLiteral_toString (elements : list (option str)) : str :=
  $"[" ++ joined $", " elements ++ $"]".
Definition ObjectLiteral_toString (typePath : option str) (properties : list (str * str)) : str :=
  or_else [] typePath ++ $"{"
  ++ joined $", " (map (fun '(k, v) => Some (k ++ $": " ++ v)) properties) ++ $"}".
Definition ArrayElementExpression_toString (array index : option str) : str :=
  or_else $"nullptr" array ++ $"[" ++ or_else $"nullptr" index ++ $"]".
Definition LocationExpression_toString (e : option str) : str :=
  $"loc(" ++ or_else $"nullptr" e ++ $")".
Definition ListComprehension_toString (elementExpr loopVariable iterableExpr conditionExpr : option str) : str :=
  $"[" ++ or_else $"nullptr" elementExpr ++ $" for " ++ or_else $"nullptr" loopVariable
  ++ $" in " ++ or_else $"nullptr" iterableExpr
  ++ or_else [] (option_map (fun c => $" if " ++ c) conditionExpr) ++ $"]".
Definition BorrowExpression_toString (e : option str) (kind : BorrowKind) : str :=
  (match kind with MUTABLE_BORROW => $"borrow_mut" | IMMUTABLE_VIEW => $"view" end)
  ++ $"(" ++ or_else $"nullptr" e ++ $")".
Definition PointerDerefExpression_toString (p : option str) : str :=
  $"at(" ++ or_else $"nullptr" p ++ $")".
Definition AddrOfExpression_toString (l : option str) : str :=
  $"addr(" ++ or_else $"nullptr" l ++ $")".
Definition FromIntToLocExpression_toString (address_expr target_type : option str) : str :=
  $"from<" ++ or_else $"UnknownType" target_type ++ $">(" ++ or_else $"nullptr" address_expr ++ $")".
Definition UnaryExpression_toString (op : Token) (operand : option str) : str :=
  lexeme op ++ or_else $"nullptr" operand.
Definition BinaryExpression_toString (left : option str) (op : Token) (right : option str) : str :=
  $"(" ++ or_else $"nullptr" left ++ $" " ++ lexeme op ++ $" " ++ or_else $"nullptr" right ++ $")".
Definition CallExpression_toString (callee : option str) (arguments : list (option str)) : str :=
  or_else $"nullptr" callee ++ $"(" ++ joined $", " arguments ++ $")".
Definition ConstructionExpression_toString (constructedType : option str) (arguments : list (option str)) : str :=
  or_else $"UnknownType" constructedType ++ $"(" ++ joined $", " arguments ++ $")".
Definition ArrayInitializationExpression_toString (elementType sizeExpression : option str) : str :=
  $"[" ++ or_else $"UnknownType" elementType ++ $"; " ++ or_else $"UnknownSize" sizeExpression ++ $"]()".
Definition GenericInstantiationExpression_toString (base : option str) (args : list (option str)) : str :=
  or_else $"nullptr" base ++ $"<" ++ joined $", " args ++ $">".
Definition MemberExpression_toString (object property : option str) (computed : bool) : str :=
  if computed then or_else $"nullptr" object ++ $"[" ++ or_else $"nullptr" property ++ $"]"
  else or_else $"nullptr" object ++ $"." ++ or_else $"nullptr" property.
Definition AssignmentExpression_toString (left : option str) (op : Token) (right : option str) : str :=
  $"(" ++ or_else $"nullptr" left ++ $" " ++ lexeme op ++ $" " ++ or_else $"nullptr" right ++ $")".
Definition IfExpression_toString (condition thenBranch elseBranch : option str) : str :=
  $"if (" ++ or_else $"nullptr" condition ++ $") { " ++ or_else $"nullptr" thenBranch
  ++ $" } else { " ++ or_else $"nullptr" elseBranch ++ $" }".
Definition LogicalExpression_toString (left : option str) (op : Token) (right : option str) : str :=
  $"(" ++ or_else $"nullptr" left ++ $" " ++ lexeme op ++ $" " ++ or_else $"nullptr" right ++ $")".
Definition ConditionalExpression_toString (condition thenExpr elseExpr : option str) : str :=
  $"(" ++ or_else $"nullptr" condition ++ $" ? " ++ or_else $"nullptr" thenExpr
  ++ $" : " ++ or_else $"nullptr" elseExpr ++ $")".
Definition SequenceExpression_toString (expressions : list (option str)) : str :=
  $"(" ++ joined $", " (map (fun o => Some (or_else $"nullptr" o)) expressions) ++ $")".
(** A parameter: its name, then the type after a colon when it has one. *)
Definition parameter_text (p : str * option str) : str :=
  fst p ++ or_else [] (option_map (fun t => $": " ++ t) (snd p)).
Definition FunctionExpression_toString (params : list (str * option str)) (body : option str) (isAsync : bool) : str :=
  (if isAsync then $"async " else []) ++ $"fn("
  ++ joined $", " (map (fun p => Some (parameter_text p)) params) ++ $") => " ++ or_else $"nullptr" body.
Definition ThisExpression_toString : str := $"this".
Definition SuperExpression_toString : str := $"super".
Definition AwaitExpression_toString (e : option str) : str := $"await " ++ or_else $"nullptr" e.
Definition RangeExpression_toString (start end_ step : option str) : str :=
  or_else $"nullptr" start ++ $".." ++ or_else $"nullptr" end_
  ++ or_else [] (option_map (fun s => $", " ++ s) step).
Definition BlockExpression_toString (block : option str) (traps : list str) (ensure : option str) : str :=
  $"{ " ++ or_else $"nullptr" block ++ $" }" ++ concat (map (fun t => $" " ++ t) traps)
  ++ or_else [] (option_map (fun e => $" " ++ e) ensure).
Definition SelectExpression_toString (e : option str) (cases : list (option str * option str)) : str :=
  $"select(" ++ or_else $"nullptr" e ++ $") { "
  ++ concat (map (fun c => or_else $"?" (fst c) ++ $" -> " ++ or_else $"nullptr" (snd c) ++ $", ") cases) ++ $"}".
Definition ComparisonPattern_toString (op : Token) (value : option str) : str :=
  lexeme op ++ $" " ++ or_else $"nullptr" value.
Definition StructPattern_toString (typeName : option str) (bindings : list (option str)) : str :=
  or_else $"?" typeName ++ $" { "
  ++ joined $", " (map (fun o => Some (or_else $"?" o)) bindings) ++ $" }".
Definition SetPattern_toString (elements : list (option str)) : str :=
  $"{ " ++ joined $", " (map (fun o => Some (or_else $"?" o)) elements) ++ $" }".
Definition TypeofExpression_toString (operand typeArg : option str) : str :=
  match typeArg with
  | Some t => $"typeof<" ++ t ++ $">()"
  | None => $"typeof(" ++ or_else $"nullptr" operand ++ $")"
  end.
Definition TypenameExpression_toString (operand : option str) : str :=
  $"typename(" ++ or_else $"nullptr" operand ++ $")".
Definition AsExpression_toString (operand targetType : option str) : str :=
  or_else $"nullptr" operand ++ $" as " ++ or_else $"nullptr" targetType.
Definition MatchExpression_toString (m : option str) : str := or_else $"match <missing>" m.

(** ** Statements, clauses and declarations *)

Definition BlockStatement_toString (body : list (option str)) : str :=
  $"{" ++ [ch_nl] ++ indented_members body ++ $"}".
Definition EmptyStatement_toString : str := $";".
Definition TryStatement_toString (tryBlock : option str) (catchIdent : option str)
    (catchBlock finallyBlock : option str) : str :=
  $"try " ++ or_else $"{}" tryBlock
  ++ match catchBlock with
     | Some c => $" catch" ++ or_else [] (option_map (fun i => $" (" ++ i ++ $")") catchIdent) ++ $" " ++ c
     | None => []
     end
  ++ or_else [] (option_map (fun f => $" finally " ++ f) finallyBlock).
Definition ExpressionStatement_toString (e : option str) : str := or_else $"nullptr" e ++ $";".
Definition IfStatement_toString (test consequent alternate : option str) : str :=
  $"if (" ++ or_else $"nullptr" test ++ $") " ++ or_else $"{}" consequent
  ++ or_else [] (option_map (fun a => $" else " ++ a) alternate).

Inductive ForInit : Type := ForVariable | ForExpression | ForOther.

(** [initStr.back() == ';'] and [pop_back]. *)
Definition drop_semicolon (s : str) : str :=
  match last s with
  | Some c => if c =c ";" then removelast s else s
  | None => s
  end.
Definition ForStatement_toString (init : option (ForInit * str)) (test update body : option str) (label : str) : str :=
  let initStr :=
    match init with
    | None => []
    | Some (ForExpression, s) => drop_semicolon s
    | Some (_, s) => s
    end in
  (if label =s [] then [] else label ++ $": ") ++ $"for (" ++ initStr ++ $"; "
  ++ or_else [] test ++ $"; " ++ or_else [] update ++ $") " ++ or_else $"{}" body.
Definition WhileStatement_toString (test body : option str) (label : str) : str :=
  (if label =s [] then [] else label ++ $": ") ++ $"while (" ++ or_else $"nullptr" test ++ $") "
  ++ or_else $"{}" body.
Definition ReturnStatement_toString (argument : option str) : str :=
  $"return" ++ or_else [] (option_map (fun a => $" " ++ a) argument) ++ $";".
Definition PassStatement_toString (argument : option str) : str :=
  $"pass " ++ or_else [] argument ++ $";".
Definition BreakStatement_toString (label : str) : str :=
  if label =s [] then $"break;" else $"break " ++ label ++ $";".
Definition ContinueStatement_toString (label : str) : str :=
  if label =s [] then $"continue;" else $"continue " ++ label ++ $";".
Definition FreedomStatement_toString (block : option str) : str := $"freedom " ++ or_else $"{}" block.
Definition ThrowStatement_toString (e : option str) : str := $"throw " ++ or_else $"nullptr" e.

(** The cases beside their guards; a missing guard is no guard. *)
Fixpoint match_cases (cases : list (option str * option str)) (guards : list (option str)) : str :=
  match cases with
  | [] => []
  | c :: cs =>
      or_else $"_" (fst c)
      ++ match guards with Some g :: _ => $" if " ++ g | _ => [] end
      ++ $" => " ++ or_else $"nullptr" (snd c) ++ $"; " ++ match_cases cs (tail guards)
  end.
Definition MatchStatement_toString (e : option str) (cases : list (option str * option str))
    (guards : list (option str)) : str :=
  $"match " ++ or_else $"nullptr" e ++ $" { " ++ match_cases cases guards ++ $"}".
Definition AssertStatement_toString (condition message : option str) : str :=
  $"assert(" ++ or_else [] condition ++ $")" ++ or_else [] (option_map (fun m => $", " ++ m) message) ++ $";".
Definition ExternStatement_toString (n : option str) (returnType : option str)
    (parameters : list (str * option str)) : str :=
  $"extern " ++ or_else [] n
  ++ match parameters with
     | [] => []
     | _ => $"(" ++ joined $", " (map (fun p => Some (parameter_text p)) parameters) ++ $")"
     end
  ++ or_else [] (option_map (fun r => $" -> " ++ r) returnType) ++ $";".
Definition YieldStatement_toString (e : option str) : str :=
  $"yield" ++ or_else [] (option_map (fun x => $" " ++ x) e) ++ $";".
Definition YieldReturnStatement_toString (e : option str) : str :=
  $"yield return" ++ or_else [] (option_map (fun x => $" " ++ x) e) ++ $";".
Definition FailStatement_toString (error errorType : option str) : str :=
  $"fail" ++ or_else [] (option_map (fun t => $"<" ++ t ++ $">") errorType) ++ $" " ++ or_else [] error.
Definition TrapClause_toString (errorName errorType : option str) (errorTypes : list str)
    (handler : option str) (isWildcard isMultiType : bool) : str :=
  $"trap (" ++ or_else [] errorName
  ++ (if isWildcard then $"<?>"
      else if isMultiType && negb (bool_decide (errorTypes = []))
      then $"<" ++ joined $" | " (map Some errorTypes) ++ $">"
      else or_else [] (option_map (fun t => $"<" ++ t ++ $">") errorType))
  ++ $") -> " ++ or_else [] handler.
Definition EnsureClause_toString (cleanupBlock : option str) : str :=
  $"ensure -> " ++ or_else [] cleanupBlock.
Definition RefailStatement_toString (wrappedError : option str) : str :=
  match wrappedError with Some w => $"refail " ++ w | None => $"refail" end.
Definition PanicStatement_toString (message : option str) : str :=
  $"panic(" ++ or_else [] message ++ $")".
Definition ExitStatement_toString (exit_code : option str) : str :=
  $"exit(" ++ or_else [] exit_code ++ $")".
Definition DeferStatement_toString (statement : option str) : str :=
  $"defer " ++ or_else $"<empty>" statement.
Definition TupleDestructureAssignment_toString (identifiers : list str) (e : option str) : str :=
  joined $", " (map Some identifiers) ++ $" = " ++ or_else [] e.

Definition GenericParameter_toString (n : option str) (bounds : list (option str)) : str :=
  or_else [] n ++ match bounds with [] => [] | _ => $": " ++ joined $" + " bounds end.
Definition TemplateDeclaration_toString (genericParams : list (option str)) (body : option str) : str :=
  $"template<" ++ joined $", " genericParams ++ $"> " ++ or_else [] body.
Definition ImportDeclaration_toString (kind : ImportKind) (source locator : option StringLit)
    (specifiers : list ImportSpecifier) : str :=
  (match kind with Smuggle => $"smuggle " | TrustedImport => $"import " end)
  ++ or_else [] (option_map str_value source)
  ++ match specifiers with
     | sp :: _ => or_else [] (option_map (fun l => $" as " ++ name l) (localName sp))
     | [] => []
     end
  ++ or_else [] (option_map (fun l => $" from " ++ quoted (str_value l)) locator) ++ $";".
Definition VariableDeclaration_toString (id : option str) (isConst : bool) (typeNode init : option str) : str :=
  (if isConst then $"let " else $"var ") ++ or_else [] id
  ++ or_else [] (option_map (fun t => $": " ++ t) typeNode)
  ++ or_else [] (option_map (fun e => $" = " ++ e) init) ++ $";".
Definition FunctionDeclaration_toString (id : option str) (params : list (str * option str))
    (body : option str) (isAsync : bool) (returnTypeNode : option str) : str :=
  (if isAsync then $"async " else []) ++ $"fn"
  ++ or_else [] (option_map (fun t => $"<" ++ t ++ $">") returnTypeNode)
  ++ $" " ++ or_else [] id ++ $"(" ++ joined $", " (map (fun p => Some (parameter_text p)) params)
  ++ $") -> " ++ or_else $"{}" body.
Definition TypeAliasDeclaration_toString (n typeNode : option str) : str :=
  $"type " ++ or_else [] n ++ $" = " ++ or_else $"UnknownType" typeNode ++ $";".
Definition FieldDeclaration_toString (n typeNode initializer : option str) (isMutable : bool) : str :=
  (if isMutable then $"mut " else []) ++ or_else [] n
  ++ or_else [] (option_map (fun t => $": " ++ t) typeNode)
  ++ or_else [] (option_map (fun e => $" = " ++ e) initializer) ++ $";".
Definition StructDeclaration_toString (n : option str) (genericParams fields : list (option str)) (reprC : bool) : str :=
  (if reprC then $"#[repr(C)]" ++ [ch_nl] else []) ++ $"struct " ++ or_else [] n
  ++ generic_list genericParams ++ $" {" ++ [ch_nl] ++ indented_members fields ++ $"}".
Definition ClassDeclaration_toString (n : option str) (genericParams members : list (option str)) : str :=
  $"class " ++ or_else [] n ++ generic_list genericParams ++ $" {" ++ [ch_nl]
  ++ indented_members members ++ $"}".
Definition BindDeclaration_toString (n : option str) (genericParams : list (option str))
    (traitType selfType : option str) (bindings : list (option str * option str)) (methods : list (option str)) : str :=
  $"bind" ++ generic_list genericParams
  ++ or_else [] (option_map (fun t => $" " ++ t) traitType)
  ++ $" -> " ++ or_else $"UnknownType" selfType
  ++ or_else [] (option_map (fun x => $" as " ++ x) n) ++ $" {" ++ [ch_nl]
  ++ concat (map (fun b => match b with
                           | (Some a, Some v) => $"  type " ++ a ++ $" = " ++ v ++ [ch_nl]
                           | _ => []
                           end) bindings)
  ++ indented_members methods ++ $"}".
Definition EnumVariant_toString (n : option str) (associatedTypes : list (option str)) (value : Z) (hasValue : bool) : str :=
  or_else [] n
  ++ match associatedTypes with [] => [] | _ => $"(" ++ joined $", " associatedTypes ++ $")" end
  ++ (if hasValue then $" = " ++ to_string value else []).

(** The variants of an enum: each line behind two blanks without a line
    break, a comma after every variant but the last, then the line break. *)
Fixpoint enum_lines (variants : list (option str)) : str :=
  match variants with
  | [] => []
  | v :: vs =>
      or_else [] (option_map (fun s => concat (map (fun l => $"  " ++ l) (getlines s))) v)
      ++ (match vs with [] => [] | _ => $"," end) ++ [ch_nl] ++ enum_lines vs
  end.
Definition EnumDeclaration_toString (n : option str) (genericParams variants : list (option str)) : str :=
  $"enum " ++ or_else [] n ++ generic_list genericParams ++ $" {" ++ [ch_nl] ++ enum_lines variants ++ $"}".

Fixpoint associated_lines (types : list (option str)) (constraints : list (list (option str)))
    (defaults : list (option str)) : str :=
  match types with
  | [] => []
  | t :: ts =>
      match t with
      | Some a =>
          $"  type " ++ a
          ++ match constraints with c :: _ => generic_list c | [] => [] end
          ++ match defaults with Some d :: _ => $" = " ++ d | _ => [] end ++ [ch_nl]
      | None => []
      end ++ associated_lines ts (tail constraints) (tail defaults)
  end.
Definition AspectDeclaration_toString (n : option str) (superTypes associatedTypes : list (option str))
    (constraints : list (list (option str))) (defaults methods : list (option str)) : str :=
  $"aspect " ++ or_else [] n
  ++ match superTypes with [] => [] | _ => $" : " ++ joined $", " superTypes end
  ++ $" {" ++ [ch_nl] ++ associated_lines associatedTypes constraints defaults
  ++ indented_members methods ++ $"}".
Definition NamespaceDeclaration_toString (n : option str) (members : list (option str)) : str :=
  $"namespace " ++ or_else [] n ++ $" {" ++ [ch_nl] ++ indented_members members ++ $"}".

(** ** Types *)

Definition TypeName_toString (identifier : option str) (genericArgs : list (option str)) : str :=
  or_else $"UnknownIdentifier" identifier ++ generic_list genericArgs.
Definition PointerType_toString (pointeeType : option str) : str :=
  $"ptr<" ++ or_else $"UnknownType" pointeeType ++ $">".
Definition ArrayType_toString (elementType sizeExpression : option str) : str :=
  $"[" ++ or_else $"UnknownType" elementType
  ++ or_else [] (option_map (fun s => $"; " ++ s) sizeExpression) ++ $"]".
Definition VecType_toString (elementType : option str) : str :=
  $"Vec<" ++ or_else $"UnknownType" elementType ++ $">".
Definition FutureType_toString (resultType : option str) : str :=
  $"Future<" ++ or_else $"UnknownType" resultType ++ $">".
Definition FunctionType_toString (parameterTypes : list (option str)) (returnType : option str) : str :=
  $"fn(" ++ joined $", " parameterTypes ++ $") -> " ++ or_else $"void" returnType.
Definition OptionalType_toString (containedType : option str) : str :=
  or_else $"UnknownType" containedType ++ $"?".
Definition TupleTypeNode_toString (memberTypes : list (option str)) : str :=
  $"(" ++ joined $", " memberTypes ++ $")".

(** ** The virtual [toString] *)

Abbreviation ident_text := (option_map Identifier_toString).

(** Which of the cases of [ForStatement::toString] the initializer selects. *)
Definition for_init_kind (s : Statement) : ForInit :=
  match s with
  | VariableDeclaration _ _ _ _ _ _ => ForVariable
  | ExpressionStatement _ _ => ForExpression
  | _ => ForOther
  end.

(** [properties[i].value->toString()]: a shorthand property has no value, and
    the text of a null pointer is undefined; it is empty here. *)
Definition property_value (E : Expression -> str) (v : option Expression) : str :=
  match v with Some x => E x | None => [] end.

Fixpoint Expression_toString (e : Expression) : str :=
  let E := Expression_toString in
  let T := TypeNode_toString in
  match e with
  | IdentifierExpr i => Identifier_toString i
  | IntegerLiteral _ v u uv => IntegerLiteral_toString v u uv
  | FloatLiteral _ v => FloatLiteral_toString v
  | StringLiteral s => StringLiteral_toString s
  | BooleanLiteral _ v => BooleanLiteral_toString v
  | ArrayLiteral _ es => ArrayLiteral_toString (map (option_map E) es)
  | ObjectLiteral _ t ps =>
      ObjectLiteral_toString (option_map T t)
        (map (fun p => match p with mkObjectProperty _ k v => (Identifier_toString k, property_value E v) end) ps)
  | NilLiteral _ => NilLiteral_toString
  | BorrowExpression _ x k => BorrowExpression_toString (option_map E x) k
  | PointerDerefExpression _ x => PointerDerefExpression_toString (option_map E x)
  | AddrOfExpression _ x => AddrOfExpression_toString (option_map E x)
  | FromIntToLocExpression _ x t => FromIntToLocExpression_toString (option_map E x) (option_map T t)
  | ArrayElementExpression _ a i => ArrayElementExpression_toString (option_map E a) (option_map E i)
  | LocationExpression _ x => LocationExpression_toString (option_map E x)
  | ListComprehension _ x v i c =>
      ListComprehension_toString (option_map E x) (ident_text v) (option_map E i) (option_map E c)
  | UnaryExpression _ op x => UnaryExpression_toString op (option_map E x)
  | BinaryExpression _ l op r => BinaryExpression_toString (option_map E l) op (option_map E r)
  | CallExpression _ c args _ => CallExpression_toString (option_map E c) (map (option_map E) args)
  | ConstructionExpression _ t args => ConstructionExpression_toString (option_map T t) (map (option_map E) args)
  | ArrayInitializationExpression _ t s => ArrayInitializationExpression_toString (option_map T t) (option_map E s)
  | GenericInstantiationExpression _ b args _ _ =>
      GenericInstantiationExpression_toString (option_map E b) (map (option_map T) args)
  | MemberExpression _ o p c => MemberExpression_toString (option_map E o) (option_map E p) c
  | AssignmentExpression _ l op r => AssignmentExpression_toString (option_map E l) op (option_map E r)
  | IfExpression _ c t f => IfExpression_toString (option_map E c) (option_map E t) (option_map E f)
  | LogicalExpression _ l op r => LogicalExpression_toString (option_map E l) op (option_map E r)
  | ConditionalExpression _ c t f =>
      ConditionalExpression_toString (option_map E c) (option_map E t) (option_map E f)
  | SequenceExpression _ es => SequenceExpression_toString (map (option_map E) es)
  | FunctionExpression _ ps b a =>
      FunctionExpression_toString (map FunctionParameter_text ps) (option_map E b) a
  | ThisExpression _ => ThisExpression_toString
  | SuperExpression _ => SuperExpression_toString
  | AwaitExpression _ x => AwaitExpression_toString (option_map E x)
  | RangeExpression _ a b s => RangeExpression_toString (option_map E a) (option_map E b) (option_map E s)
  | BlockExpression _ b ts en =>
      BlockExpression_toString (option_map Block_toString b) (map TrapClause_text ts)
        (option_map EnsureClause_text en)
  | SelectExpression _ x cs =>
      SelectExpression_toString (option_map E x)
        (map (fun c => match c with (a, b) => (option_map E a, option_map E b) end) cs)
  | ComparisonPattern _ op v => ComparisonPattern_toString op (option_map E v)
  | StructPattern _ t bs => StructPattern_toString (option_map T t) (map ident_text bs)
  | SetPattern _ es => SetPattern_toString (map (option_map E) es)
  | TypeofExpression _ x t => TypeofExpression_toString (option_map E x) (option_map T t)
  | TypenameExpression _ x => TypenameExpression_toString (option_map E x)
  | AsExpression _ x t => AsExpression_toString (option_map E x) (option_map T t)
  | MatchExpression _ m => MatchExpression_toString (option_map Match_toString m)
  end

with Statement_toString (s : Statement) : str :=
  let E := Expression_toString in
  let S := Statement_toString in
  let T := TypeNode_toString in
  let F := Function_toString in
  match s with
  | BlockStatement b => Block_toString b
  | EmptyStatement _ => EmptyStatement_toString
  | TryStatement _ t i c f =>
      TryStatement_toString (option_map Block_toString t) i (option_map Block_toString c) (option_map Block_toString f)
  | ExpressionStatement _ e => ExpressionStatement_toString (option_map E e)
  | IfStatement _ t c a => IfStatement_toString (option_map E t) (option_map S c) (option_map S a)
  | ForStatement _ i t u b l =>
      ForStatement_toString (option_map (fun x => (for_init_kind x, S x)) i)
        (option_map E t) (option_map E u) (option_map S b) l
  | WhileStatement _ t b l => WhileStatement_toString (option_map E t) (option_map S b) l
  | ReturnStatement _ a => ReturnStatement_toString (option_map E a)
  | PassStatement _ a => PassStatement_toString (option_map E a)
  | BreakStatement _ l => BreakStatement_toString l
  | ContinueStatement _ l => ContinueStatement_toString l
  | FreedomStatement _ b => FreedomStatement_toString (option_map Block_toString b)
  | ExternStatement _ n r ps =>
      ExternStatement_toString (ident_text n) (option_map T r) (map FunctionParameter_text ps)
  | ThrowStatement _ e => ThrowStatement_toString (option_map E e)
  | MatchStatement m => Match_toString m
  | YieldStatement _ e => YieldStatement_toString (option_map E e)
  | YieldReturnStatement _ e => YieldReturnStatement_toString (option_map E e)
  | AssertStatement _ c m => AssertStatement_toString (option_map E c) (option_map E m)
  | FailStatement _ e t => FailStatement_toString (option_map E e) (option_map T t)
  | RefailStatement _ e => RefailStatement_toString (option_map E e)
  | PanicStatement _ e => PanicStatement_toString (option_map E e)
  | ExitStatement _ e => ExitStatement_toString (option_map E e)
  | DeferStatement _ x => DeferStatement_toString (option_map S x)
  | TupleDestructureAssignment _ ids e =>
      TupleDestructureAssignment_toString (map name ids) (option_map E e)
  | VariableDeclaration _ i c t e _ =>
      VariableDeclaration_toString (ident_text i) c (option_map T t) (option_map E e)
  | FunctionDeclaration f => F f
  | TypeAliasDeclaration _ n t => TypeAliasDeclaration_toString (ident_text n) (option_map T t)
  | ImportDeclaration _ k s l sp _ _ => ImportDeclaration_toString k s l sp
  | StructDeclaration _ n gs fs _ r =>
      StructDeclaration_toString (ident_text n) (map (option_map GenericParameter_text) gs)
        (map (option_map Field_toString) fs) r
  | ClassDeclaration _ n gs ms =>
      ClassDeclaration_toString (ident_text n) (map (option_map GenericParameter_text) gs) (map (option_map S) ms)
  | FieldDeclaration f => Field_toString f
  | BindDeclaration _ n gs t s bs ms =>
      BindDeclaration_toString (ident_text n) (map (option_map GenericParameter_text) gs)
        (option_map T t) (option_map T s)
        (map (fun b => match b with (a, v) => (ident_text a, option_map T v) end) bs) (map (option_map F) ms)
  | EnumDeclaration _ n gs vs =>
      EnumDeclaration_toString (ident_text n) (map (option_map GenericParameter_text) gs)
        (map (option_map EnumVariant_text) vs)
  | TemplateDeclaration _ _ gs b =>
      TemplateDeclaration_toString (map (option_map GenericParameter_text) gs) (option_map S b)
  | AspectDeclaration _ n _ sup ats defs cstrs ms =>
      AspectDeclaration_toString (ident_text n) (map ident_text sup) (map ident_text ats)
        (map (map (option_map T)) cstrs) (map (option_map T) defs) (map (option_map F) ms)
  | NamespaceDeclaration _ n ms => NamespaceDeclaration_toString (ident_text n) (map (option_map S) ms)
  end

with TypeNode_toString (t : TypeNode) : str :=
  let T := TypeNode_toString in
  match t with
  | TypeName _ i args => TypeName_toString (ident_text i) (map (option_map T) args)
  | PointerType _ p => PointerType_toString (option_map T p)
  | ArrayType _ el s => ArrayType_toString (option_map T el) (option_map Expression_toString s)
  | VecType _ el => VecType_toString (option_map T el)
  | FutureType _ r => FutureType_toString (option_map T r)
  | FunctionType _ ps r => FunctionType_toString (map (option_map T) ps) (option_map T r)
  | OptionalType _ c => OptionalType_toString (option_map T c)
  | TupleTypeNode _ ms => TupleTypeNode_toString (map (option_map T) ms)
  end

with FunctionParameter_text (p : FunctionParameter) : str * option str :=
  match p with
  | mkFunctionParameter n t _ => (Identifier_toString n, option_map TypeNode_toString t)
  end

with GenericParameter_text (g : GenericParameter) : str :=
  match g with
  | mkGenericParameter _ n bs =>
      GenericParameter_toString (ident_text n) (map (option_map TypeNode_toString) bs)
  end

with Block_toString (b : Block) : str :=
  match b with mkBlock _ body => BlockStatement_toString (map (option_map Statement_toString) body) end

with Match_toString (m : Match) : str :=
  match m with
  | mkMatch _ e cs gs =>
      MatchStatement_toString (option_map Expression_toString e)
        (map (fun c => match c with (a, b) => (option_map Expression_toString a, option_map Expression_toString b) end) cs)
        (map (option_map Expression_toString) gs)
  end

with TrapClause_text (c : TrapClause) : str :=
  match c with
  | mkTrapClause _ n t ts h w mt =>
      TrapClause_toString (ident_text n) (option_map TypeNode_toString t) (map TypeNode_toString ts)
        (option_map Statement_toString h) w mt
  end

with EnsureClause_text (c : EnsureClause) : str :=
  match c with mkEnsureClause _ b => EnsureClause_toString (option_map Statement_toString b) end

with Field_toString (f : Field) : str :=
  match f with
  | mkField _ n t i mt =>
      FieldDeclaration_toString (ident_text n) (option_map TypeNode_toString t) (option_map Expression_toString i) mt
  end

with Function_toString (f : Function_) : str :=
  match f with
  | mkFunction _ i _ ps b a _ _ r _ =>
      FunctionDeclaration_toString (ident_text i) (map FunctionParameter_text ps) (option_map Block_toString b) a
        (option_map TypeNode_toString r)
  end

with EnumVariant_text (v : EnumVariant) : str :=
  match v with
  | mkEnumVariant _ n ts val hv =>
      EnumVariant_toString (ident_text n) (map (option_map TypeNode_toString) ts) val hv
  end.

Definition Module_toString (m : Module_) : str :=
  concat (map (fun o => or_else [] (option_map (fun s => Statement_toString s ++ [ch_nl]) o)) (module_body m)).

(** ** Layout of the text *)

Lemma getlines_from_line acc a b :
  ch_nl ∉ a -> getlines_from acc (a ++ ch_nl :: b) = (rev acc ++ a) :: getlines b.
Proof.
  revert acc. induction a as [|c a IH]; intros acc H; cbn.
  - by rewrite ceq_refl, app_nil_r.
  - apply not_elem_of_cons in H as [Hc Ha]. destruct (c =c ch_nl) eqn:E; [apply ceq_true in E; congruence|].
    rewrite IH by done. cbn. by rewrite <- app_assoc.
Qed.

Lemma getlines_lines acc s l : ch_nl ∉ acc -> l ∈ getlines_from acc s -> ch_nl ∉ l.
Proof.
  revert acc. induction s as [|c s IH]; intros acc Ha Hl; cbn in Hl.
  - destruct (acc =s []); [by apply elem_of_nil in Hl|]. apply list_elem_of_singleton in Hl as ->.
    by rewrite list_elem_of_In, <- in_rev, <- list_elem_of_In.
  - destruct (c =c ch_nl) eqn:E.
    + apply elem_of_cons in Hl as [->|Hl]; [|by apply (IH []); [apply not_elem_of_nil|]].
      by rewrite list_elem_of_In, <- in_rev, <- list_elem_of_In.
    + apply (IH (c :: acc)); [|done]. apply not_elem_of_cons. split; [|done]. intros <-. by rewrite ceq_refl in E.
Qed.

Lemma getlines_indented s rest : getlines (indented s ++ rest) = map (app $"  ") (getlines s) ++ getlines rest.
Proof.
  unfold indented. assert (H : forall l, l ∈ getlines s -> ch_nl ∉ l)
    by (intros l; apply getlines_lines, not_elem_of_nil).
  induction (getlines s) as [|l ls IH]; [done|]. cbn [map concat].
  replace ((($"  " ++ l ++ [ch_nl]) ++ concat (map (fun l => $"  " ++ l ++ [ch_nl]) ls)) ++ rest)
    with (($"  " ++ l) ++ ch_nl :: (concat (map (fun l => $"  " ++ l ++ [ch_nl]) ls) ++ rest))
    by (by rewrite <- !app_assoc).
  unfold getlines at 1. rewrite getlines_from_line.
  - cbn [rev app]. f_equal. apply IH. intros x Hx. apply H. by right.
  - apply not_elem_of_app. split; [by_decision|]. apply H. by left.
Qed.

Lemma getlines_members l rest :
  getlines (indented_members l ++ rest) = map (app $"  ") (concat (map getlines (omap id l))) ++ getlines rest.
Proof.
  unfold indented_members. induction l as [|o l IH]; [done|]. cbn [map concat].
  rewrite <- app_assoc. destruct o as [s|]; cbn [option_map]; [|exact IH].
  rewrite getlines_indented, IH. cbn. by rewrite map_app, <- app_assoc.
Qed.

(** A block is printed as an opening brace, the lines of its statements
    in order with two more blanks each, and a closing brace: no two
    statements share a line, every level of nesting adds two blanks, and a
    statement that is not there leaves no line. *)
Theorem block_text_lines n body :
  getlines (Block_toString (mkBlock n body))
  = [$"{"] ++ map (app $"  ") (concat (map (fun s => getlines (Statement_toString s)) (omap id body))) ++ [$"}"].
Proof.
  cbn [Block_toString]. unfold BlockStatement_toString.
  change ($"{" ++ [ch_nl] ++ ?r) with ($"{" ++ ch_nl :: r).
  unfold getlines at 1. rewrite getlines_from_line by by_decision.
  cbn [rev app]. f_equal. rewrite getlines_members. f_equal. do 2 f_equal.
  induction body as [|[s|] body IH]; cbn; [done|f_equal; exact IH|exact IH].
Qed.

Lemma drop_semicolon_end s : drop_semicolon (s ++ $";") = s.
Proof.
  change (drop_semicolon (s ++ [";"%char]) = s). unfold drop_semicolon.
  rewrite last_snoc, ceq_refl. apply removelast_last.
Qed.

(** The initializer of a for statement is printed with its own semicolon
    when it is a variable declaration, before the separator the statement
    adds: the text has two semicolons where an expression initializer has
    one. *)
Theorem for_text_semicolons n v id k t i o test update body label :
  let decl := Some (VariableDeclaration v id k t i o) in
  exists declared rest,
    Statement_toString (ForStatement n decl test update body label)
      = (if label =s [] then [] else label ++ $": ") ++ $"for (" ++ declared ++ $";; " ++ rest
    /\ Statement_toString (VariableDeclaration v id k t i o) = declared ++ $";"
    /\ forall e v', Statement_toString (ForStatement n (Some (ExpressionStatement v' e)) test update body label)
      = (if label =s [] then [] else label ++ $": ") ++ $"for ("
        ++ or_else $"nullptr" (option_map Expression_toString e) ++ $"; " ++ rest.
Proof.
  cbv zeta.
  exists ((if k then $"let " else $"var ") ++ or_else [] (ident_text id)
    ++ or_else [] (option_map (fun t => $": " ++ t) (option_map TypeNode_toString t))
    ++ or_else [] (option_map (fun e => $" = " ++ e) (option_map Expression_toString i))),
    (or_else [] (option_map Expression_toString test) ++ $"; " ++ or_else [] (option_map Expression_toString update)
     ++ $") " ++ or_else $"{}" (option_map Statement_toString body)).
  split; [|split].
  - cbn [Statement_toString option_map for_init_kind]. unfold ForStatement_toString, VariableDeclaration_toString.
    change $";; " with ($";" ++ $"; "). by rewrite <- !app_assoc.
  - cbn [Statement_toString]. unfold VariableDeclaration_toString. by rewrite <- !app_assoc.
  - intros e v'. cbn [Statement_toString option_map for_init_kind].
    unfold ForStatement_toString, ExpressionStatement_toString. by rewrite drop_semicolon_end.
Qed.
