(* ===== verification/AstTypes.v ===== *)
(** * Type nodes: cloning, and what the text of a type determines

    [TypeNode_clone] is the [clone] method of the type classes of
    src/parser/ast.cpp, with the id counter every constructor draws from.
    [Shape] is what a type text denotes; [type_text_faithful] says that on the
    types the text describes completely, equal texts are equal shapes. *)

From S2P Require Import Prelude.
From S2P Require Import Token.
From S2P Require Import Ast.
From S2P Require Import AstText.

(** ** Categories *)

Inductive Category : Type :=
| IDENTIFIER | POINTER | ARRAY | VEC | FUTURE | FUNCTION | TUPLE | OPTIONAL | REFERENCE | SLICE | STRUCT | UNKNOWN_.

#[export] Instance Category_eq_dec : EqDecision Category.
Proof. solve_decision. Defined.

Definition getCategory (t : TypeNode) : Category :=
  match t with
  | TypeName _ _ _ => IDENTIFIER
  | PointerType _ _ => POINTER
  | ArrayType _ _ _ => ARRAY
  | VecType _ _ => VEC
  | FutureType _ _ => FUTURE
  | FunctionType _ _ _ => FUNCTION
  | OptionalType _ _ => OPTIONAL
  | TupleTypeNode _ _ => TUPLE
  end.

Definition isIntegerTy (t : TypeNode) : bool :=
  match t with
  | TypeName _ (Some i) _ =>
      bool_decide (name i ∈ [$"Int"; $"Int8"; $"Int16"; $"Int32"; $"Int64";
                             $"UInt"; $"UInt8"; $"UInt16"; $"UInt32"; $"UInt64"])
  | _ => false
  end.

Definition isLocationTy (t : TypeNode) : bool :=
  match t with PointerType _ _ => true | _ => false end.

(** ** Cloning *)

(** A constructor call: the next id of the process-wide counter. *)
Definition new_node (l : SourceLocation) (c : Z) : Node * Z :=
  let c' := to_uint32 (c + 1) in (mkNode l c', c').

(** The loops over a vector of pointers, the counter threaded through. *)
Definition clone_vector {A B} (f : A -> Z -> B * Z) : list (option A) -> Z -> list (option B) * Z :=
  fix go l c :=
    match l with
    | [] => ([], c)
    | None :: l' => let '(l2, c2) := go l' c in (None :: l2, c2)
    | Some a :: l' =>
        let '(b, c1) := f a c in
        let '(l2, c2) := go l' c1 in
        (Some b :: l2, c2)
    end.

Definition clone_pointer {A B} (f : A -> Z -> B * Z) (o : option A) (c : Z) : option B * Z :=
  match o with
  | None => (None, c)
  | Some a => let '(b, c1) := f a c in (Some b, c1)
  end.

Definition clone_identifier (i : Identifier) (c : Z) : Identifier * Z :=
  let '(n, c1) := new_node (loc (id_node i)) c in (mkIdentifier n (name i), c1).

(** Only an integer literal survives as an array size, as a signed one. *)
Definition clone_size (o : option Expression) (c : Z) : option Expression * Z :=
  match o with
  | Some (IntegerLiteral n v _ _) =>
      let '(n', c1) := new_node (loc n) c in (Some (IntegerLiteral n' v false 0), c1)
  | _ => (None, c)
  end.

Fixpoint TypeNode_clone (t : TypeNode) (c : Z) : TypeNode * Z :=
  match t with
  | TypeName n i args =>
      let '(args', c1) := clone_vector TypeNode_clone args c in
      let '(i', c2) := clone_pointer clone_identifier i c1 in
      let '(n', c3) := new_node (loc n) c2 in
      (TypeName n' i' args', c3)
  | PointerType n p =>
      let '(p', c1) := clone_pointer TypeNode_clone p c in
      let '(n', c2) := new_node (loc n) c1 in (PointerType n' p', c2)
  | ArrayType n el s =>
      let '(s', c1) := clone_size s c in
      let '(el', c2) := clone_pointer TypeNode_clone el c1 in
      let '(n', c3) := new_node (loc n) c2 in (ArrayType n' el' s', c3)
  | VecType n el =>
      let '(el', c1) := clone_pointer TypeNode_clone el c in
      let '(n', c2) := new_node (loc n) c1 in (VecType n' el', c2)
  | FutureType n r =>
      let '(r', c1) := clone_pointer TypeNode_clone r c in
      let '(n', c2) := new_node (loc n) c1 in (FutureType n' r', c2)
  | FunctionType n ps r =>
      let '(ps', c1) := clone_vector TypeNode_clone ps c in
      let '(r', c2) := clone_pointer TypeNode_clone r c1 in
      let '(n', c3) := new_node (loc n) c2 in (FunctionType n' ps' r', c3)
  | OptionalType n x =>
      let '(x', c1) := clone_pointer TypeNode_clone x c in
      let '(n', c2) := new_node (loc n) c1 in (OptionalType n' x', c2)
  | TupleTypeNode n ms =>
      let '(ms', c1) := clone_vector TypeNode_clone ms c in
      let '(n', c2) := new_node (loc n) c1 in (TupleTypeNode n' ms', c2)
  end.

(** The ids of the nodes of a type, outermost last, in the order [clone]
    constructs them (the size literal of an array included). *)
Definition pointer_ids {A} (f : A -> list Z) (o : option A) : list Z :=
  match o with Some a => f a | None => [] end.
Definition vector_ids {A} (f : A -> list Z) : list (option A) -> list Z :=
  fix go l := match l with [] => [] | o :: l' => pointer_ids f o ++ go l' end.
Definition size_ids (o : option Expression) : list Z :=
  match o with Some (IntegerLiteral n _ _ _) => [id_ n] | _ => [] end.

Fixpoint type_ids (t : TypeNode) : list Z :=
  match t with
  | TypeName n i args => vector_ids type_ids args ++ pointer_ids (fun i => [id_ (id_node i)]) i ++ [id_ n]
  | PointerType n p => pointer_ids type_ids p ++ [id_ n]
  | ArrayType n el s => size_ids s ++ pointer_ids type_ids el ++ [id_ n]
  | VecType n el => pointer_ids type_ids el ++ [id_ n]
  | FutureType n r => pointer_ids type_ids r ++ [id_ n]
  | FunctionType n ps r => vector_ids type_ids ps ++ pointer_ids type_ids r ++ [id_ n]
  | OptionalType n x => pointer_ids type_ids x ++ [id_ n]
  | TupleTypeNode n ms => vector_ids type_ids ms ++ [id_ n]
  end.

(** Types whose array sizes [clone] keeps: absent or a signed literal. *)
Definition size_kept (o : option Expression) : bool :=
  match o with
  | None => true
  | Some (IntegerLiteral _ _ u _) => negb u
  | Some _ => false
  end.
Definition pointer_all {A} (f : A -> bool) (o : option A) : bool :=
  match o with Some a => f a | None => true end.
Definition vector_all {A} (f : A -> bool) : list (option A) -> bool :=
  fix go l := match l with [] => true | o :: l' => pointer_all f o && go l' end.
Fixpoint sizes_kept (t : TypeNode) : bool :=
  match t with
  | TypeName _ _ args => vector_all sizes_kept args
  | PointerType _ p => pointer_all sizes_kept p
  | ArrayType _ el s => size_kept s && pointer_all sizes_kept el
  | VecType _ el => pointer_all sizes_kept el
  | FutureType _ r => pointer_all sizes_kept r
  | FunctionType _ ps r => vector_all sizes_kept ps && pointer_all sizes_kept r
  | OptionalType _ x => pointer_all sizes_kept x
  | TupleTypeNode _ ms => vector_all sizes_kept ms
  end.

(** ** Induction on types *)

Definition on_pointer {A} (P : A -> Prop) (o : option A) : Prop :=
  match o with Some a => P a | None => True end.

Section TypeInduction.
Variable P : TypeNode -> Prop.
Hypothesis HName : forall n i args, Forall (on_pointer P) args -> P (TypeName n i args).
Hypothesis HPointer : forall n p, on_pointer P p -> P (PointerType n p).
Hypothesis HArray : forall n el s, on_pointer P el -> P (ArrayType n el s).
Hypothesis HVec : forall n el, on_pointer P el -> P (VecType n el).
Hypothesis HFuture : forall n r, on_pointer P r -> P (FutureType n r).
Hypothesis HFunction : forall n ps r, Forall (on_pointer P) ps -> on_pointer P r -> P (FunctionType n ps r).
Hypothesis HOptional : forall n x, on_pointer P x -> P (OptionalType n x).
Hypothesis HTuple : forall n ms, Forall (on_pointer P) ms -> P (TupleTypeNode n ms).

Fixpoint TypeNode_nested_ind (t : TypeNode) : P t :=
  let ptr (o : option TypeNode) : on_pointer P o :=
    match o with Some a => TypeNode_nested_ind a | None => I end in
  let vec := fix vec (l : list (option TypeNode)) : Forall (on_pointer P) l :=
    match l with
    | [] => Forall_nil_2 _
    | o :: l' => Forall_cons_2 _ o l' (match o return on_pointer P o with Some a => TypeNode_nested_ind a | None => I end) (vec l')
    end in
  match t with
  | TypeName n i args => HName n i args (vec args)
  | PointerType n p => HPointer n p (ptr p)
  | ArrayType n el s => HArray n el s (ptr el)
  | VecType n el => HVec n el (ptr el)
  | FutureType n r => HFuture n r (ptr r)
  | FunctionType n ps r => HFunction n ps r (vec ps) (ptr r)
  | OptionalType n x => HOptional n x (ptr x)
  | TupleTypeNode n ms => HTuple n ms (vec ms)
  end.
End TypeInduction.

(** ** Lemmas on cloning *)

Lemma new_node_eq l c : (0 <= c < 2 ^ 32 - 1)%Z -> new_node l c = (mkNode l (c + 1), c + 1)%Z.
Proof. intros H. unfold new_node. by rewrite to_uint32_small by lia. Qed.

(** What a cloning step does to the counter: the new nodes have exactly the
    next ids, in order. *)
Definition draws {A B} (ids : A -> list Z) (ids' : B -> list Z) (f : A -> Z -> B * Z) (a : A) : Prop :=
  forall c, (0 <= c)%Z -> (c + Z.of_nat (length (ids a)) < 2 ^ 32)%Z ->
  let '(b, c') := f a c in
  c' = (c + Z.of_nat (length (ids a)))%Z /\ ids' b = seqZ (c + 1) (Z.of_nat (length (ids a))).

Lemma draws_node l : draws (fun _ : SourceLocation => [0%Z]) (fun n => [id_ n]) new_node l.
Proof. intros c H1 H2. cbn in H2. rewrite new_node_eq by lia. done. Qed.

Lemma seqZ_split c n m :
  seqZ (c + 1) (Z.of_nat n) ++ seqZ (c + Z.of_nat n + 1) (Z.of_nat m) = seqZ (c + 1) (Z.of_nat (n + m)).
Proof.
  rewrite Nat2Z.inj_add, seqZ_app by lia. f_equal. f_equal; lia.
Qed.

Lemma draws_pointer {A B} (ids : A -> list Z) (ids' : B -> list Z) f o :
  on_pointer (draws ids ids' f) o -> draws (pointer_ids ids) (pointer_ids ids') (clone_pointer f) o.
Proof.
  destruct o as [a|]; cbn; intros H c H1 H2; cbn in *.
  - specialize (H c H1 H2). destruct (f a c). done.
  - split; [lia|done].
Qed.

Lemma draws_vector {A B} (ids : A -> list Z) (ids' : B -> list Z) f l :
  Forall (on_pointer (draws ids ids' f)) l -> draws (vector_ids ids) (vector_ids ids') (clone_vector f) l.
Proof.
  induction 1 as [|o l Ho _ IH]; intros c H1 H2; cbn in *; [split; [lia|done]|].
  rewrite length_app in *. destruct o as [a|]; cbn in *.
  - specialize (Ho c H1 ltac:(lia)). destruct (f a c) as [b c1] eqn:?. destruct Ho as [-> Hb].
    specialize (IH (c + Z.of_nat (length (ids a)))%Z ltac:(lia) ltac:(lia)).
    destruct (clone_vector f l _) as [l2 c2]. destruct IH as [-> Hl]. split; [lia|].
    cbn. by rewrite Hb, Hl, seqZ_split.
  - specialize (IH c H1 H2). destruct (clone_vector f l c) as [l2 c2]. cbn. done.
Qed.

Lemma draws_identifier i :
  draws (fun i => [id_ (id_node i)]) (fun i => [id_ (id_node i)]) clone_identifier i.
Proof. intros c H1 H2. cbn in H2. unfold clone_identifier. rewrite new_node_eq by lia. done. Qed.

Lemma draws_size o : draws size_ids size_ids clone_size o.
Proof.
  intros c H1 H2. destruct o as [[]|]; cbn in *; try (split; [lia|done]).
  rewrite to_uint32_small by lia. done.
Qed.

#[global] Arguments new_node : simpl never.
#[global] Arguments clone_pointer : simpl never.
#[global] Arguments clone_vector : simpl never.
#[global] Arguments clone_size : simpl never.
#[global] Arguments seqZ : simpl never.

(** The ids of the parts, then the id of the node itself. *)
Lemma seqZ_node c n : seqZ (c + 1) (Z.of_nat n) ++ [(c + Z.of_nat n + 1)%Z] = seqZ (c + 1) (Z.of_nat (n + 1)).
Proof. by rewrite <- seqZ_split. Qed.
Lemma seqZ_node2 c n m :
  seqZ (c + 1) (Z.of_nat n) ++ seqZ (c + Z.of_nat n + 1) (Z.of_nat m) ++ [(c + Z.of_nat n + Z.of_nat m + 1)%Z]
  = seqZ (c + 1) (Z.of_nat (n + (m + 1))).
Proof. by rewrite <- seqZ_split, seqZ_node. Qed.

(** One cloning step of a sequence, by its [draws] fact. *)
Ltac draw_step H :=
  match goal with
  | |- context [match ?f ?a ?c with pair _ _ => _ end] =>
      let Hx := fresh "Hx" in
      pose proof (H c ltac:(lia) ltac:(lia)) as Hx;
      destruct (f a c) as [? ?]; destruct Hx as [-> ?]
  end.
Ltac draw_last :=
  rewrite new_node_eq by lia; cbn; split; [lia|]; simplify_eq;
  repeat match goal with H : _ = seqZ _ _ |- _ => rewrite H; clear H end;
  first [apply seqZ_node2 | apply seqZ_node].

Lemma TypeNode_clone_draws t : draws type_ids type_ids TypeNode_clone t.
Proof.
  induction t as [n i args IH|n p IH|n el s IH|n el IH|n r IH|n ps r IH IHr|n x IH|n ms IH]
    using TypeNode_nested_ind; intros c H1 H2; cbn in H2 |- *;
    repeat (rewrite length_app in *; cbn in *);
    (apply draws_pointer in IH || apply draws_vector in IH).
  - assert (Hi : draws (pointer_ids (fun i => [id_ (id_node i)])) (pointer_ids (fun i => [id_ (id_node i)]))
      (clone_pointer clone_identifier) i) by (apply draws_pointer; destruct i; [apply draws_identifier|done]).
    draw_step IH. draw_step Hi. draw_last.
  - draw_step IH. draw_last.
  - draw_step (draws_size s). draw_step IH. draw_last.
  - draw_step IH. draw_last.
  - draw_step IH. draw_last.
  - apply draws_pointer in IHr. draw_step IH. draw_step IHr. draw_last.
  - draw_step IH. draw_last.
  - draw_step IH. draw_last.
Qed.

(** A cloning step that keeps the text of what it clones. *)
Definition keeps {A B T} (text : A -> T) (text' : B -> T) (f : A -> Z -> B * Z) (a : A) : Prop :=
  forall c, text' (f a c).1 = text a.

Lemma keeps_pointer {A B T} (text : A -> T) (text' : B -> T) f o :
  on_pointer (keeps text text' f) o -> keeps (option_map text) (option_map text') (clone_pointer f) o.
Proof.
  destruct o as [a|]; intros H c; [|done]. unfold clone_pointer. cbn in H. specialize (H c).
  destruct (f a c). cbn in *. by rewrite H.
Qed.

Lemma keeps_vector {A B T} (text : A -> T) (text' : B -> T) f l :
  Forall (on_pointer (keeps text text' f)) l ->
  keeps (map (option_map text)) (map (option_map text')) (clone_vector f) l.
Proof.
  induction 1 as [|[a|] l Ho _ IH]; intros c; unfold clone_vector; fold (clone_vector f); [done| |].
  - cbn in Ho. specialize (Ho c). destruct (f a c) as [b c1]. cbn in Ho.
    specialize (IH c1). destruct (clone_vector f l c1). cbn in *. by rewrite Ho, IH.
  - specialize (IH c). destruct (clone_vector f l c). cbn in *. by rewrite IH.
Qed.

Lemma keeps_identifier i : keeps Identifier_toString Identifier_toString clone_identifier i.
Proof. intros c. done. Qed.

Lemma keeps_size o :
  size_kept o = true -> keeps (option_map Expression_toString) (option_map Expression_toString) clone_size o.
Proof. intros H c. destruct o as [[]|]; cbn in H |- *; try done. by destruct isUnsigned. Qed.

Lemma vector_all_Forall {A} (f : A -> bool) (Q : A -> Prop) l :
  vector_all f l = true -> Forall (on_pointer (fun a => f a = true -> Q a)) l -> Forall (on_pointer Q) l.
Proof.
  induction l as [|[a|] l IH]; cbn; intros H HF; inversion_clear HF; constructor; cbn in *; try done.
  - apply andb_prop in H as [? ?]. auto.
  - apply andb_prop in H as [? ?]. auto.
  - auto.
Qed.
Lemma pointer_all_on {A} (f : A -> bool) (Q : A -> Prop) o :
  pointer_all f o = true -> on_pointer (fun a => f a = true -> Q a) o -> on_pointer Q o.
Proof. destruct o; cbn; auto. Qed.

Ltac keep_step H :=
  match goal with
  | |- context [match ?f ?a ?c with pair _ _ => _ end] =>
      let Hx := fresh "Hx" in
      pose proof (H c) as Hx; destruct (f a c) as [? ?]; cbn [fst] in Hx
  end.
Ltac keep_last := match goal with |- context [new_node ?l ?c] => destruct (new_node l c) end; cbn [fst]; cbn; simplify_eq; repeat match goal with H : _ = _ |- _ => try rewrite H; clear H end; reflexivity.

Lemma TypeNode_clone_keeps t :
  sizes_kept t = true -> keeps TypeNode_toString TypeNode_toString TypeNode_clone t.
Proof.
  induction t as [n i args IH|n p IH|n el s IH|n el IH|n r IH|n ps r IH IHr|n x IH|n ms IH]
    using TypeNode_nested_ind; intros Hs c; cbn in Hs |- *;
    try (apply andb_true_iff in Hs; destruct Hs as [Hs1 Hs2]);
    (apply vector_all_Forall in IH; [|done]) || (apply pointer_all_on in IH; [|done]);
    (apply keeps_vector in IH || apply keeps_pointer in IH).
  - assert (Hi : keeps ident_text ident_text (clone_pointer clone_identifier) i)
      by (apply keeps_pointer; destruct i; [apply keeps_identifier|done]).
    keep_step IH. keep_step Hi. keep_last.
  - keep_step IH. keep_last.
  - keep_step (keeps_size s Hs1). keep_step IH. keep_last.
  - keep_step IH. keep_last.
  - keep_step IH. keep_last.
  - apply pointer_all_on in IHr; [|done]. apply keeps_pointer in IHr.
    keep_step IH. keep_step IHr. keep_last.
  - keep_step IH. keep_last.
  - keep_step IH. keep_last.
Qed.

Lemma TypeNode_clone_kind t c :
  getCategory (TypeNode_clone t c).1 = getCategory t /\ isIntegerTy (TypeNode_clone t c).1 = isIntegerTy t.
Proof.
  destruct t; cbn;
    repeat match goal with |- context [match ?x with pair _ _ => _ end] =>
      lazymatch x with
      | clone_pointer clone_identifier ?i ?c =>
          pose proof (keeps_pointer Identifier_toString Identifier_toString clone_identifier i
            ltac:(destruct i; [apply keeps_identifier|done]) c); destruct x
      | _ => destruct x
      end end; cbn in *; try done.
  split; [done|]. destruct identifier as [i|], o as [i'|]; cbn in *; simplify_eq; [|done].
  unfold Identifier_toString in *. by match goal with H : name _ = name _ |- _ => rewrite H end.
Qed.

(** ** What a type text denotes

    A core (a name with arguments, an array, a tuple or a function) and how
    often it is made optional. [Vec], [Future] and [ptr] are names like any
    other: the analyzer treats both spellings as the same type. *)

Inductive Shape : Type :=
| Shp (core : Core) (optionals : nat)
with Core : Type :=
| CName (n : str) (args : list Shape)
| CArray (el : Shape) (size : option str)
| CTuple (members : list Shape)
| CFunction (ps : list Shape) (r : Shape).

(** A name that contains none of the punctuation of type texts, nor a tab. *)
Definition name_char (c : ascii) : bool :=
  negb (bool_decide (c ∈ ["<"; ">"; ","; " "; "?"; "("; ")"; "["; "]"; ";"; ch_tab])).
Definition name_ok (s : str) : bool := negb (s =s []) && forallb name_char s.

Definition literal_size (o : option Expression) : option (option str) :=
  match o with
  | None => Some None
  | Some e => let s := Expression_toString e in if name_ok s then Some (Some s) else None
  end.

(** All elements present and denoting. *)
Definition shapes_with {A B} (f : A -> option B) : list (option A) -> option (list B) :=
  fix go l :=
    match l with
    | [] => Some []
    | o :: l' => x ← (o ≫= f); xs ← go l'; Some (x :: xs)
    end.

(** The shape of a type whose text describes it completely: no missing part,
    names without punctuation, and no optional function type. *)
Fixpoint shape_of (t : TypeNode) : option Shape :=
  match t with
  | TypeName _ i args =>
      i ← i; xs ← shapes_with shape_of args;
      if name_ok (name i) then Some (Shp (CName (name i) xs) 0) else None
  | PointerType _ p => x ← (p ≫= shape_of); Some (Shp (CName $"ptr" [x]) 0)
  | VecType _ el => x ← (el ≫= shape_of); Some (Shp (CName $"Vec" [x]) 0)
  | FutureType _ r => x ← (r ≫= shape_of); Some (Shp (CName $"Future" [x]) 0)
  | ArrayType _ el s => x ← (el ≫= shape_of); n ← literal_size s; Some (Shp (CArray x n) 0)
  | FunctionType _ ps r =>
      xs ← shapes_with shape_of ps;
      match r with
      | None => Some (Shp (CFunction xs (Shp (CName $"void" []) 0)) 0)
      | Some r => y ← shape_of r; Some (Shp (CFunction xs y) 0)
      end
  | OptionalType _ x =>
      y ← (x ≫= shape_of);
      match y with
      | Shp (CFunction _ _) _ => None
      | Shp c k => Some (Shp c (S k))
      end
  | TupleTypeNode _ ms => xs ← shapes_with shape_of ms; Some (Shp (CTuple xs) 0)
  end.

(** Rendering of a shape, and the shapes [shape_of] produces. *)
Fixpoint shape_text (s : Shape) : str :=
  match s with Shp c k => core_text c ++ replicate k "?"%char end
with core_text (c : Core) : str :=
  match c with
  | CName n args =>
      n ++ match args with [] => [] | _ => $"<" ++ joined $", " (map (fun a => Some (shape_text a)) args) ++ $">" end
  | CArray el s => $"[" ++ shape_text el ++ match s with Some n => $"; " ++ n | None => [] end ++ $"]"
  | CTuple ms => $"(" ++ joined $", " (map (fun a => Some (shape_text a)) ms) ++ $")"
  | CFunction ps r => $"fn(" ++ joined $", " (map (fun a => Some (shape_text a)) ps) ++ $") -> " ++ shape_text r
  end.

Definition is_function (c : Core) : bool := match c with CFunction _ _ => true | _ => false end.

Fixpoint shape_ok (s : Shape) : bool :=
  match s with Shp c k => core_ok c && (negb (is_function c) || (k =? 0)) end
with core_ok (c : Core) : bool :=
  match c with
  | CName n args => name_ok n && forallb shape_ok args
  | CArray el s => shape_ok el && match s with Some n => name_ok n | None => true end
  | CTuple ms => forallb shape_ok ms
  | CFunction ps r => forallb shape_ok ps && shape_ok r
  end.

Section ShapeInduction.
Variables (P : Shape -> Prop) (Q : Core -> Prop).
Hypothesis HShp : forall c k, Q c -> P (Shp c k).
Hypothesis HName : forall n args, Forall P args -> Q (CName n args).
Hypothesis HArray : forall el s, P el -> Q (CArray el s).
Hypothesis HTuple : forall ms, Forall P ms -> Q (CTuple ms).
Hypothesis HFunction : forall ps r, Forall P ps -> P r -> Q (CFunction ps r).
Fixpoint Shape_nested_ind (s : Shape) : P s :=
  match s with Shp c k => HShp c k (Core_nested_ind c) end
with Core_nested_ind (c : Core) : Q c :=
  let go := fix go (l : list Shape) : Forall P l :=
    match l with [] => Forall_nil_2 _ | x :: l' => Forall_cons_2 _ x l' (Shape_nested_ind x) (go l') end in
  match c with
  | CName n args => HName n args (go args)
  | CArray el s => HArray el s (Shape_nested_ind el)
  | CTuple ms => HTuple ms (go ms)
  | CFunction ps r => HFunction ps r (go ps) (Shape_nested_ind r)
  end.
End ShapeInduction.

(** ** The text of a shape determines it *)

(** What may follow a type inside a larger text. *)
Definition stops (r : str) : Prop :=
  match r with [] => True | c :: _ => c ∈ [">"; ","; ")"; "]"; ";"] end.
Definition stops_or_optional (r : str) : Prop :=
  match r with [] => True | c :: _ => c ∈ [">"; ","; ")"; "]"; ";"; "?"] end.

Definition no_name_head (r : str) : Prop := match r with [] => True | c :: _ => name_char c = false end.

Lemma name_run n1 n2 r1 r2 :
  forallb name_char n1 = true -> forallb name_char n2 = true -> no_name_head r1 -> no_name_head r2 ->
  n1 ++ r1 = n2 ++ r2 -> n1 = n2 /\ r1 = r2.
Proof.
  revert n2; induction n1 as [|a n1 IH]; intros [|b n2] H1 H2 Hr1 Hr2 E; cbn in *; subst.
  - done.
  - apply andb_true_iff in H2 as [H2 _]. cbn in Hr1. congruence.
  - apply andb_true_iff in H1 as [H1 _]. cbn in Hr2. congruence.
  - apply andb_true_iff in H1 as [? ?], H2 as [? ?]. simplify_eq.
    destruct (IH n2) as [-> ->]; done.
Qed.

Lemma stops_weaken r : stops r -> stops_or_optional r.
Proof. destruct r; cbn; [done|]. set_solver. Qed.

Lemma stops_no_name r : stops_or_optional r -> no_name_head r.
Proof.
  destruct r as [|c r]; cbn; [done|]. intros H. rewrite !elem_of_cons, elem_of_nil in H.
  destruct H as [->|[->|[->|[->|[->|[->|[]]]]]]]; reflexivity.
Qed.

Lemma stops_not r c : stops_or_optional (c :: r) -> c ∉ ["<"; "("; "["; " "].
Proof.
  cbn. intros H. rewrite !elem_of_cons, elem_of_nil in H.
  destruct H as [->|[->|[->|[->|[->|[->|[]]]]]]]; rewrite !elem_of_cons, elem_of_nil; naive_solver.
Qed.

Lemma replicate_optional k1 k2 r1 r2 :
  stops r1 -> stops r2 -> replicate k1 "?"%char ++ r1 = replicate k2 "?"%char ++ r2 -> k1 = k2 /\ r1 = r2.
Proof.
  revert k2; induction k1 as [|k1 IH]; intros [|k2] H1 H2 E; cbn in *; simplify_eq; try done.
  - exfalso. cbn in H1. rewrite !elem_of_cons, elem_of_nil in H1. naive_solver.
  - exfalso. cbn in H2. rewrite !elem_of_cons, elem_of_nil in H2. naive_solver.
  - destruct (IH k2) as [-> ->]; done.
Qed.

Lemma joined_cons sep o l :
  joined sep (o :: l) = or_else [] o ++ match l with [] => [] | _ => sep ++ joined sep l end.
Proof. destruct l; cbn; [by rewrite app_nil_r|done]. Qed.

Abbreviation shape_list l := (joined $", " (map (fun a => Some (shape_text a)) l)).

Lemma name_ok_cons n : name_ok n = true -> exists c n', n = c :: n' /\ name_char c = true /\ forallb name_char n' = true.
Proof.
  unfold name_ok. destruct n as [|c n]; [done|].
  intros [_ [? ?]%andb_true_iff]%andb_true_iff. eauto.
Qed.

(** The first character of a type text. *)
Lemma core_text_head c : core_ok c = true ->
  exists a s, core_text c = a :: s /\ (name_char a = true \/ a = "["%char \/ a = "("%char).
Proof.
  destruct c as [n args|el s|ms|ps r]; cbn; intros H.
  - apply andb_true_iff in H as [(a & n' & -> & Ha & _)%name_ok_cons _].
    eexists _, _. split; [reflexivity|]. auto.
  - eexists _, _. split; [reflexivity|]. auto.
  - eexists _, _. split; [reflexivity|]. auto.
  - eexists _, _. split; [reflexivity|]. by left.
Qed.

Lemma shape_text_head s : shape_ok s = true ->
  exists a t, shape_text s = a :: t /\ a <> ">"%char /\ a <> ")"%char.
Proof.
  destruct s as [c k]. cbn. rewrite andb_true_iff. intros [(a & t & -> & Ha)%core_text_head _].
  exists a, (t ++ replicate k "?"%char). split; [done|].
  destruct Ha as [Ha|[-> | ->]]; [|done..].
  split; intros ->; vm_compute in Ha; done.
Qed.

Definition shape_determined (s1 : Shape) : Prop :=
  forall s2 r1 r2, shape_ok s1 = true -> shape_ok s2 = true -> stops r1 -> stops r2 ->
  shape_text s1 ++ r1 = shape_text s2 ++ r2 -> s1 = s2 /\ r1 = r2.

Definition core_determined (c1 : Core) : Prop :=
  forall c2 r1 r2, core_ok c1 = true -> core_ok c2 = true -> stops_or_optional r1 -> stops_or_optional r2 ->
  (is_function c1 = true -> stops r1) -> (is_function c2 = true -> stops r2) ->
  core_text c1 ++ r1 = core_text c2 ++ r2 -> c1 = c2 /\ r1 = r2.

Lemma shape_from_core c k : core_determined c -> shape_determined (Shp c k).
Proof.
  intros Hc [c2 k2] r1 r2 H1 H2 Hr1 Hr2 E. cbn in *. rewrite <- !app_assoc in E.
  apply andb_true_iff in H1 as [H1 Hk1], H2 as [H2 Hk2].
  assert (Hopt : forall k r, stops r -> stops_or_optional (replicate k "?"%char ++ r)).
  { intros [|?] r Hr; [by apply stops_weaken|]. cbn. set_solver. }
  destruct (Hc c2 (replicate k "?"%char ++ r1) (replicate k2 "?"%char ++ r2)) as [-> E']; auto.
  - intros F. rewrite F in Hk1. cbn in Hk1. apply Nat.eqb_eq in Hk1 as ->. done.
  - intros F. rewrite F in Hk2. cbn in Hk2. apply Nat.eqb_eq in Hk2 as ->. done.
  - apply replicate_optional in E' as [-> ->]; done.
Qed.

(** A comma-separated list between brackets. *)
Lemma shape_list_determined close l1 l2 r1 r2 :
  (close = ">"%char \/ close = ")"%char) -> Forall shape_determined l1 ->
  forallb shape_ok l1 = true -> forallb shape_ok l2 = true ->
  shape_list l1 ++ close :: r1 = shape_list l2 ++ close :: r2 -> l1 = l2 /\ r1 = r2.
Proof.
  intros Hcl HF. revert l2. induction HF as [|s1 l1 Hs1 HF IH]; intros [|s2 l2] H1 H2 E.
  - cbn in E. by simplify_eq.
  - exfalso. cbn [forallb] in H2. apply andb_true_iff in H2 as [(a & t & Ha & ?)%shape_text_head _].
    cbn [map] in E. rewrite joined_cons, Ha in E. cbn in E. simplify_eq. naive_solver.
  - exfalso. cbn [forallb] in H1. apply andb_true_iff in H1 as [(a & t & Ha & ?)%shape_text_head _].
    cbn [map] in E. rewrite joined_cons, Ha in E. cbn in E. simplify_eq. naive_solver.
  - cbn [forallb] in H1, H2. apply andb_true_iff in H1 as [H1 H1'], H2 as [H2 H2'].
    cbn [map] in E. rewrite !joined_cons, <- !app_assoc in E.
    apply Hs1 in E as [-> E]; [|done|done|destruct l1, Hcl as [-> | ->]; cbn; set_solver
      |destruct l2, Hcl as [-> | ->]; cbn; set_solver].
    assert (Hc : close <> ","%char) by (destruct Hcl; congruence).
    destruct l1 as [|x1 l1], l2 as [|x2 l2]; try (cbn in E; simplify_eq; done).
    cbn [map] in E. rewrite <- !app_assoc in E.
    apply app_inv_head in E. destruct (IH (x2 :: l2)) as [-> ->]; done.
Qed.

Lemma cons_same {A} (a : A) l1 l2 : a :: l1 = a :: l2 -> l1 = l2.
Proof. congruence. Qed.

(** The rest of a name: its arguments or what follows the type. *)
Definition name_tail (args : list Shape) (r : str) : str :=
  match args with [] => r | _ => "<"%char :: shape_list args ++ ">"%char :: r end.

Lemma core_text_name n args r : core_text (CName n args) ++ r = n ++ name_tail args r.
Proof.
  cbn [core_text]. destruct args as [|a args]; [by rewrite app_nil_r|].
  unfold name_tail. rewrite <- !app_assoc. done.
Qed.

Lemma name_tail_no_name args r : stops_or_optional r -> no_name_head (name_tail args r).
Proof. destruct args; [apply stops_no_name|done]. Qed.

Lemma name_tail_not_paren args r s : stops_or_optional r -> name_tail args r = "("%char :: s -> False.
Proof.
  destruct args as [|a args]; cbn; [|done]. intros H ->. apply stops_not in H. set_solver.
Qed.

Lemma name_ok_run n : name_ok n = true -> forallb name_char n = true.
Proof. unfold name_ok. by rewrite andb_true_iff; intros [_ ?]. Qed.

Lemma core_text_array el s r :
  core_text (CArray el s) ++ r
  = "["%char :: shape_text el ++ match s with Some n => $"; " ++ n | None => [] end ++ "]"%char :: r.
Proof. cbn [core_text]. rewrite <- !app_assoc. done. Qed.
Lemma core_text_tuple ms r : core_text (CTuple ms) ++ r = "("%char :: shape_list ms ++ ")"%char :: r.
Proof. cbn [core_text]. rewrite <- !app_assoc. done. Qed.
Lemma core_text_function ps r' r :
  core_text (CFunction ps r') ++ r = $"fn" ++ "("%char :: shape_list ps ++ ")"%char :: $" -> " ++ shape_text r' ++ r.
Proof. cbn [core_text]. rewrite <- !app_assoc. done. Qed.

Lemma name_head_char n c r s : name_ok n = true -> n ++ r = c :: s -> name_char c = true.
Proof. intros (a & n' & -> & Ha & _)%name_ok_cons E. by simplify_list_eq. Qed.

Lemma name_determined n args : Forall shape_determined args -> core_determined (CName n args).
Proof.
  intros HF c2 r1 r2 H1 H2 Hr1 Hr2 _ Hf2 E. rewrite core_text_name in E.
  cbn in H1. apply andb_true_iff in H1 as [Hn1 Ha1].
  destruct c2 as [n2 args2|el s|ms|ps r].
  - rewrite core_text_name in E. cbn in H2. apply andb_true_iff in H2 as [Hn2 Ha2].
    apply name_run in E as [-> E]; auto using name_ok_run, name_tail_no_name.
    destruct args as [|a args], args2 as [|a2 args2]; cbn [name_tail] in E.
    + by subst.
    + exfalso. subst. apply stops_not in Hr1. set_solver.
    + exfalso. subst. apply stops_not in Hr2. set_solver.
    + apply cons_same in E. apply shape_list_determined in E as [? ->]; auto. split; congruence.
  - exfalso. rewrite core_text_array in E. by apply (name_head_char n) in E.
  - exfalso. rewrite core_text_tuple in E. by apply (name_head_char n) in E.
  - exfalso. rewrite core_text_function in E.
    apply name_run in E as [_ E]; auto using name_ok_run, name_tail_no_name; [|done].
    by apply name_tail_not_paren in E.
Qed.

Lemma array_determined el s : shape_determined el -> core_determined (CArray el s).
Proof.
  intros Hel c2 r1 r2 H1 H2 _ _ _ _ E. rewrite core_text_array in E.
  cbn in H1. apply andb_true_iff in H1 as [Hl1 Hs1].
  destruct c2 as [n2 args2|el2 s2|ms|ps r].
  - exfalso. rewrite core_text_name in E. cbn in H2. apply andb_true_iff in H2 as [Hn2 _].
    symmetry in E. by apply (name_head_char n2) in E.
  - rewrite core_text_array in E. cbn in H2. apply andb_true_iff in H2 as [Hl2 Hs2].
    apply cons_same in E. apply Hel in E as [-> E]; auto; [|destruct s; cbn; set_solver|destruct s2; cbn; set_solver].
    destruct s as [n|], s2 as [n2|]; cbn in E; simplify_eq; [|done].
    apply name_run in E as [-> ?]; auto using name_ok_run; [|done..]. by simplify_eq.
  - exfalso. by rewrite core_text_tuple in E.
  - exfalso. by rewrite core_text_function in E.
Qed.

Lemma tuple_determined ms : Forall shape_determined ms -> core_determined (CTuple ms).
Proof.
  intros HF c2 r1 r2 H1 H2 _ _ _ _ E. rewrite core_text_tuple in E. cbn in H1.
  destruct c2 as [n2 args2|el2 s2|ms2|ps r].
  - exfalso. rewrite core_text_name in E. cbn in H2. apply andb_true_iff in H2 as [Hn2 _].
    symmetry in E. by apply (name_head_char n2) in E.
  - exfalso. by rewrite core_text_array in E.
  - rewrite core_text_tuple in E. cbn in H2. apply cons_same in E.
    apply shape_list_determined in E as [-> ->]; auto.
  - exfalso. by rewrite core_text_function in E.
Qed.

Lemma function_determined ps r : Forall shape_determined ps -> shape_determined r -> core_determined (CFunction ps r).
Proof.
  intros HF Hr c2 r1 r2 H1 H2 Hr1 Hr2 Hf1 Hf2 E. rewrite core_text_function in E.
  cbn in H1. apply andb_true_iff in H1 as [Hp1 Hq1].
  destruct c2 as [n2 args2|el2 s2|ms2|ps2 r'2].
  - exfalso. rewrite core_text_name in E. cbn in H2. apply andb_true_iff in H2 as [Hn2 _].
    symmetry in E. apply name_run in E as [_ E]; auto using name_ok_run, name_tail_no_name; [|done].
    by apply name_tail_not_paren in E.
  - exfalso. by rewrite core_text_array in E.
  - exfalso. by rewrite core_text_tuple in E.
  - rewrite core_text_function in E. cbn in H2. apply andb_true_iff in H2 as [Hp2 Hq2].
    apply app_inv_head in E. apply cons_same in E.
    apply shape_list_determined in E as [-> E]; auto.
    apply app_inv_head in E. apply Hr in E as [-> ->]; auto.
Qed.

Lemma shape_text_determined s : shape_determined s.
Proof.
  induction s using Shape_nested_ind with (Q := core_determined).
  - by apply shape_from_core.
  - by apply name_determined.
  - by apply array_determined.
  - by apply tuple_determined.
  - by apply function_determined.
Qed.

(** ** Types and their shapes *)

Definition shape_sound (t : TypeNode) : Prop :=
  forall s, shape_of t = Some s -> shape_ok s = true /\ TypeNode_toString t = shape_text s.

Lemma shapes_with_sound l : Forall (on_pointer shape_sound) l ->
  forall xs, shapes_with shape_of l = Some xs ->
  forallb shape_ok xs = true /\ map (option_map TypeNode_toString) l = map (fun a => Some (shape_text a)) xs.
Proof.
  induction 1 as [|[t|] l Ht _ IH]; intros xs H; cbn in H; simplify_eq; [done|].
  apply bind_Some in H as (x & Hx & (ys & Hys & [= <-])%bind_Some).
  destruct (Ht _ Hx) as [? E]. destruct (IH _ Hys) as [H1 H2].
  cbn. rewrite E, H2. split; [by apply andb_true_iff|done].
Qed.

Lemma pointer_sound o x : on_pointer shape_sound o -> o ≫= shape_of = Some x ->
  shape_ok x = true /\ option_map TypeNode_toString o = Some (shape_text x).
Proof.
  intros H (t & -> & Hx)%bind_Some. destruct (H _ Hx) as [? E]. cbn. by rewrite E.
Qed.

Lemma literal_size_sound s n : literal_size s = Some n ->
  option_map Expression_toString s = n /\ match n with Some m => name_ok m | None => true end = true.
Proof.
  destruct s as [e|]; cbn; [|by intros [= <-]].
  destruct (name_ok (Expression_toString e)) eqn:E; [|done]. by intros [= <-].
Qed.

(** The one-argument names [ptr], [Vec] and [Future]. *)
Lemma wrapper_sound w o x : name_ok w = true -> on_pointer shape_sound o -> o ≫= shape_of = Some x ->
  shape_ok (Shp (CName w [x]) 0) = true /\
  w ++ $"<" ++ or_else $"UnknownType" (option_map TypeNode_toString o) ++ $">" = shape_text (Shp (CName w [x]) 0).
Proof.
  intros Hw H Hx. destruct (pointer_sound _ _ H Hx) as [Hok ->].
  cbn. rewrite Hw, Hok, app_nil_r. done.
Qed.

Lemma shape_of_sound t : shape_sound t.
Proof.
  induction t as [n i args IH|n p IH|n el s IH|n el IH|n r IH|n ps r IH IHr|n x IH|n ms IH]
    using TypeNode_nested_ind; intros sh H; cbn [shape_of] in H.
  - apply bind_Some in H as (j & -> & (xs & Hxs & H)%bind_Some).
    destruct (name_ok (name j)) eqn:Hn; [|done]. simplify_eq.
    destruct (shapes_with_sound _ IH _ Hxs) as [Hok E].
    cbn [shape_ok core_ok TypeNode_toString shape_text core_text]. rewrite Hn, Hok, E.
    split; [done|]. unfold TypeName_toString, generic_list. cbn [option_map replicate].
    rewrite app_nil_r. by destruct xs.
  - apply bind_Some in H as (x & Hx & [= <-]). exact (wrapper_sound $"ptr" _ _ eq_refl IH Hx).
  - apply bind_Some in H as (x & Hx & (m & Hm & [= <-])%bind_Some).
    destruct (pointer_sound _ _ IH Hx) as [Hok E]. apply literal_size_sound in Hm as [Hm Hn].
    cbn. rewrite E, Hm, Hok, Hn. split; [done|]. unfold ArrayType_toString.
    rewrite app_nil_r. by destruct m.
  - apply bind_Some in H as (x & Hx & [= <-]). exact (wrapper_sound $"Vec" _ _ eq_refl IH Hx).
  - apply bind_Some in H as (x & Hx & [= <-]). exact (wrapper_sound $"Future" _ _ eq_refl IH Hx).
  - apply bind_Some in H as (xs & Hxs & H). destruct (shapes_with_sound _ IH _ Hxs) as [Hok E].
    destruct r as [r|]; [apply bind_Some in H as (y & Hy & [= <-])|injection H as <-].
    + destruct (IHr _ Hy) as [Hy1 Hy2]. cbn. rewrite Hok, E, Hy1, Hy2, app_nil_r. done.
    + cbn. rewrite Hok, E, app_nil_r. done.
  - apply bind_Some in H as (y & Hy & H). destruct (pointer_sound _ _ IH Hy) as [Hok E].
    destruct y as [c k]. cbn in Hok. apply andb_true_iff in Hok as [Hok _].
    assert (sh = Shp c (S k) /\ is_function c = false) as [-> Hf] by (by destruct c; simplify_eq).
    cbn [TypeNode_toString]. rewrite E. unfold OptionalType_toString. cbn [shape_ok shape_text].
    rewrite Hok, Hf. split; [done|]. rewrite replicate_S_end. by rewrite <- app_assoc.
  - apply bind_Some in H as (xs & Hxs & [= <-]). destruct (shapes_with_sound _ IH _ Hxs) as [Hok E].
    cbn. rewrite Hok, E, app_nil_r. done.
Qed.

(** On the types a text describes completely (every part present, names
    without punctuation, no optional function type) the text determines the
    type up to node identities and the two spellings of [Vec], [Future] and
    [ptr]: two types render alike exactly when they have the same shape. This
    is what makes the analyzer's comparison of types by their text exact. *)
Theorem type_text_faithful t1 t2 s1 s2 :
  shape_of t1 = Some s1 -> shape_of t2 = Some s2 ->
  (TypeNode_toString t1 = TypeNode_toString t2 <-> s1 = s2).
Proof.
  intros H1 H2. apply shape_of_sound in H1 as [O1 ->], H2 as [O2 ->]. split; [|by intros ->].
  intros E. apply (shape_text_determined s1 s2 [] []); [done..|]. by rewrite E.
Qed.

(** An [Identifier] and a one-name type at a fixed location, for examples. *)
Definition test_node : Node := mkNode (mkLoc $"a.vyb" 1 1) 7.
Definition named (s : str) (args : list TypeNode) : TypeNode :=
  TypeName test_node (Some (mkIdentifier test_node s)) (map Some args).

Lemma type_text_faithful_witness :
  shape_of (VecType test_node (Some (OptionalType test_node (Some (named $"Int" [])))))
    = Some (Shp (CName $"Vec" [Shp (CName $"Int" []) 1]) 0)
  /\ TypeNode_toString (VecType test_node (Some (OptionalType test_node (Some (named $"Int" [])))))
     = TypeNode_toString (named $"Vec" [OptionalType test_node (Some (named $"Int" []))]).
Proof.
  split; [reflexivity|].
  apply (type_text_faithful _ _ (Shp (CName $"Vec" [Shp (CName $"Int" []) 1]) 0)
    (Shp (CName $"Vec" [Shp (CName $"Int" []) 1]) 0)); reflexivity.
Defined.

(** A clone is a copy of its own: its nodes carry exactly the next ids of
    the counter, so none of them is a node of a type built before, and while
    every array size is absent or a signed literal it has the text, the
    category and the integer classification of the original. *)
Theorem clone_fresh_copy t c t' c' :
  (0 <= c)%Z -> (c + Z.of_nat (length (type_ids t)) < 2 ^ 32)%Z -> TypeNode_clone t c = (t', c') ->
  type_ids t' = seqZ (c + 1) (c' - c)
  /\ (forall i, i ∈ type_ids t -> (i <= c)%Z -> i ∉ type_ids t')
  /\ getCategory t' = getCategory t /\ isIntegerTy t' = isIntegerTy t
  /\ (sizes_kept t = true -> TypeNode_toString t' = TypeNode_toString t).
Proof.
  intros Hc Hb E. pose proof (TypeNode_clone_draws t c Hc Hb) as D. rewrite E in D.
  destruct D as [-> D]. pose proof (TypeNode_clone_kind t c) as K. rewrite E in K. cbn in K.
  assert (Hids : type_ids t' = seqZ (c + 1) (c + Z.of_nat (length (type_ids t)) - c))
    by (rewrite D; f_equal; lia).
  split; [done|]. split.
  - intros i _ Hi. rewrite Hids, elem_of_seqZ. lia.
  - destruct K as [? ?]. split_and!; [done..|]. intros Hs.
    pose proof (TypeNode_clone_keeps t Hs c) as T. by rewrite E in T.
Qed.

Lemma clone_fresh_copy_witness :
  type_ids (TypeNode_clone (named $"Map" [named $"Int" []]) 40).1 = [41; 42; 43; 44]%Z.
Proof.
  refine (proj1 (clone_fresh_copy (named $"Map" [named $"Int" []]) 40
    (TypeNode_clone (named $"Map" [named $"Int" []]) 40).1 44 _ _ _)); [lia|cbn; lia|reflexivity].
Defined.

(** The texts of an optional function type and of a function type with an
    optional result coincide. *)
Lemma optional_function_text n m ps r :
  TypeNode_toString (OptionalType n (Some (FunctionType m ps (Some r))))
  = TypeNode_toString (FunctionType m ps (Some (OptionalType n (Some r)))).
Proof.
  cbn. unfold OptionalType_toString, FunctionType_toString. by rewrite <- !app_assoc.
Qed.
