(* ===== verification/Scope.v ===== *)
(** * Symbol tables and the module-scope gate

    [SymbolTable], [SymbolInfo] and [ModuleScopeGate] of
    include/vyb/semantic.hpp and the scope queries of
    src/vre/semantic_scope.cpp. A chain of tables linked by [parent] is the
    list of its tables, innermost first; every table of the analyzer carries
    the same gate (the tables are created by [enterScope] only). *)

From S2P Require Import Prelude.
From S2P Require Import Token.
From S2P Require Import Ast.

(** ** Symbols *)

Inductive SymbolKind : Type := Variable_ | Function__ | Type_ | TYPE_PARAMETER.

#[export] Instance SymbolKind_eq_dec : EqDecision SymbolKind.
Proof. solve_decision. Defined.

Record SymbolInfo : Type := mkSymbol {
  kind : SymbolKind;
  sym_name : str;
  isConst : bool;
  ownershipKind : OwnershipKind;
  sym_type : option TypeNode;
  bounds : list str
}.

(** ** The module-scope gate *)

Record ModuleScopeGate : Type := mkGate {
  ownerByName : gmap str str;
  effectiveScope : gmap str (gset str);
  currentOwner : str
}.

Definition hides (g : ModuleScopeGate) (n : str) : bool :=
  match ownerByName g !! n with
  | None => false
  | Some _ =>
      if currentOwner g =s [] then false
      else match effectiveScope g !! currentOwner g with
           | None => true
           | Some names => negb (bool_decide (n ∈ names))
           end
  end.

(** ** Symbol tables *)

Record SymbolTable : Type := mkTable {
  table : gmap str SymbolInfo;
  isFreedomBlock : bool;
  isLoop : bool
}.

Definition new_table : SymbolTable := mkTable ∅ false false.

Definition add (sym : SymbolInfo) (t : SymbolTable) : SymbolTable :=
  mkTable (<[sym_name sym := sym]> (table t)) (isFreedomBlock t) (isLoop t).

Definition lookupDirect (t : SymbolTable) (n : str) : option SymbolInfo := table t !! n.

(** The last table of the chain has no parent: it is the global scope. *)
Fixpoint lookup_symbol (g : ModuleScopeGate) (scope : list SymbolTable) (n : str) : option SymbolInfo :=
  match scope with
  | [] => None
  | t :: parents =>
      match table t !! n with
      | Some found => if bool_decide (parents = []) && hides g n then None else Some found
      | None => lookup_symbol g parents n
      end
  end.

Fixpoint isInLoop (scope : list SymbolTable) : bool :=
  match scope with
  | [] => false
  | t :: parents => if isLoop t then true else isInLoop parents
  end.

Fixpoint isInFreedomBlock (scope : list SymbolTable) : bool :=
  match scope with
  | [] => false
  | t :: parents => if isFreedomBlock t then true else isInFreedomBlock parents
  end.

(** ** Lemmas *)

Lemma lookup_symbol_app g locals scope n :
  scope <> [] -> Forall (fun t => table t !! n = None) locals ->
  lookup_symbol g (locals ++ scope) n = lookup_symbol g scope n.
Proof.
  intros Hs. induction 1 as [|t l Ht _ IH]; [done|]. cbn. by rewrite Ht, IH.
Qed.

Lemma lookup_symbol_found g locals t parents n s :
  Forall (fun t => table t !! n = None) locals -> table t !! n = Some s ->
  lookup_symbol g (locals ++ t :: parents) n
  = if bool_decide (parents = []) && hides g n then None else Some s.
Proof.
  intros Hl Hs. rewrite lookup_symbol_app by done. cbn. by rewrite Hs.
Qed.

Lemma lookup_symbol_nowhere g scope n :
  Forall (fun t => table t !! n = None) scope -> lookup_symbol g scope n = None.
Proof. induction 1 as [|t l Ht _ IH]; [done|]. cbn. by rewrite Ht. Qed.

(** A chain either binds the name nowhere or has an innermost binding. *)
Lemma innermost_binding (scope : list SymbolTable) n :
  Forall (fun t => table t !! n = None) scope \/
  exists locals t parents s, scope = locals ++ t :: parents /\
    Forall (fun t => table t !! n = None) locals /\ table t !! n = Some s.
Proof.
  induction scope as [|t scope [IH|(l & t' & p & s & -> & Hl & Hs)]]; [by left| |].
  - destruct (table t !! n) as [s|] eqn:E; [right; by exists [], t, scope, s|left; by constructor].
  - destruct (table t !! n) as [s'|] eqn:E; right.
    + by exists [], t, (l ++ t' :: p), s'.
    + exists (t :: l), t', p, s. split; [done|]. split; [by constructor|done].
Qed.

(** What a name resolves to. The innermost table that binds it decides,
    and a binding of an inner table is never gated, so a local may shadow a
    module name; a binding of the global table is visible exactly when the
    gate does not hide it, that is when no module owns the name, when the
    current code belongs to no module, or when the current module scopes it. *)
Theorem lookup_resolution g locals t parents n s :
  Forall (fun t => table t !! n = None) locals -> table t !! n = Some s ->
  (parents <> [] -> lookup_symbol g (locals ++ t :: parents) n = Some s)
  /\ (lookup_symbol g (locals ++ [t]) n = Some s <->
      ownerByName g !! n = None \/ currentOwner g = [] \/
      exists names, effectiveScope g !! currentOwner g = Some names /\ n ∈ names)
  /\ (lookup_symbol g (locals ++ [t]) n = None \/ lookup_symbol g (locals ++ [t]) n = Some s).
Proof.
  intros Hl Hs. rewrite !(lookup_symbol_found _ _ _ _ _ _ Hl Hs). split_and!.
  - intros Hp. by rewrite bool_decide_eq_false_2.
  - rewrite bool_decide_eq_true_2 by done. cbn. unfold hides.
    destruct (ownerByName g !! n) as [o|] eqn:Ho; [|naive_solver].
    destruct (currentOwner g =s []) eqn:Hc; [apply streq_true in Hc; naive_solver|].
    apply streq_false in Hc. destruct (effectiveScope g !! currentOwner g) as [names|] eqn:He; [|naive_solver].
    destruct (bool_decide (n ∈ names)) eqn:Hn; cbn.
    + apply bool_decide_eq_true in Hn. naive_solver.
    + apply bool_decide_eq_false in Hn. naive_solver.
  - destruct (_ && _); auto.
Qed.

Definition sample_symbol (n : str) : SymbolInfo := mkSymbol Variable_ n false MY None [].
Definition sample_gate : ModuleScopeGate :=
  mkGate {[ $"helper" := $"lib" ]} {[ $"app" := {[ $"main" ]} ]} $"app".

Lemma lookup_resolution_witness :
  lookup_symbol sample_gate [new_table; add (sample_symbol $"helper") new_table; new_table] $"helper"
  = Some (sample_symbol $"helper")
  /\ lookup_symbol sample_gate [add (sample_symbol $"helper") new_table] $"helper" = None.
Proof.
  split; [|reflexivity].
  apply (proj1 (lookup_resolution sample_gate [new_table] (add (sample_symbol $"helper") new_table) [new_table]
    $"helper" (sample_symbol $"helper") ltac:(constructor; [reflexivity|constructor]) ltac:(reflexivity))).
  discriminate.
Defined.
