(* ===== verification/IntTypes.v ===== *)
(** * Integer literals and the integer-assignment policy

    The value of an integer literal token ([parseIntegerLiteralValue] of
    src/parser/expression_parser.cpp), the tables of integer type names and
    the constant evaluation of include/vyb/vre/semantic_internal.hpp, and
    [checkIntegerAssignment] of src/vre/semantic.cpp, which decides when a
    value of one integer type may be assigned to another. A [__int128] is a
    [Z]: the values below stay far inside its range. *)

From S2P Require Import Prelude.
From S2P Require Import Token.
From S2P Require Import Ast.
From S2P Require Import AstText.
From S2P Require Import AstTypes.

(** ** The conversions of the C library *)

(** The value of a digit in bases up to 36. *)
Definition digit_value (c : ascii) : option Z :=
  let z := Z.of_N (code c) in
  if in_range c "0" "9" then Some (z - 48)%Z
  else if in_range c "a" "z" then Some (z - 87)%Z
  else if in_range c "A" "Z" then Some (z - 55)%Z
  else None.

Definition digit_in (base : Z) (c : ascii) : option Z :=
  d ← digit_value c; if (d <? base)%Z then Some d else None.

(** The digits at the front of a text, as a number, and whether there is one. *)
Fixpoint digits_value (base acc : Z) (s : str) : Z :=
  match s with
  | [] => acc
  | c :: s' => match digit_in base c with Some d => digits_value base (acc * base + d) s' | None => acc end
  end.
Definition has_digit (base : Z) (s : str) : bool :=
  match s with c :: _ => bool_decide (is_Some (digit_in base c)) | [] => false end.

Definition skip_prefix (base : Z) (s : str) : str :=
  match s with
  | z :: x :: s' =>
      if (base =? 16)%Z && (z =c "0") && ((x =c "x") || (x =c "X")) && has_digit 16 s' then s' else s
  | _ => s
  end.

(** Sign, and the digits behind blanks, sign and base prefix. *)
Definition number_parts (base : Z) (s : str) : bool * str :=
  match drop_while isspace s with
  | c :: s' =>
      if c =c "-" then (true, skip_prefix base s')
      else if c =c "+" then (false, skip_prefix base s')
      else (false, skip_prefix base (c :: s'))
  | [] => (false, [])
  end.

Definition stoll (s : str) (base : Z) : outcome Z :=
  let '(neg, ds) := number_parts base s in
  if has_digit base ds then
    let v := digits_value base 0 ds in
    let r := (if neg then - v else v)%Z in
    if ((- 2 ^ 63 <=? r) && (r <? 2 ^ 63))%Z then Ok r else Throw (out_of_range $"stoll")
  else Throw (invalid_argument $"stoll").

Definition stoull (s : str) (base : Z) : outcome Z :=
  let '(neg, ds) := number_parts base s in
  if has_digit base ds then
    let v := digits_value base 0 ds in
    if (v <? 2 ^ 64)%Z then Ok (if neg then to_uint64 (- v) else v) else Throw (out_of_range $"stoull")
  else Throw (invalid_argument $"stoull").

(** ** Integer literals *)

Record ParsedIntegerLiteral : Type := mkParsed { sval : Z; uval : Z; isUnsigned : bool }.

(** [s.back() == 'u' || s.back() == 'U'] and [pop_back]. *)
Definition unsigned_literal (lit : str) : bool :=
  match last lit with Some c => (c =c "u") || (c =c "U") | None => false end.

Definition literal_base (s : str) : Z * str :=
  match s with
  | z :: x :: d :: s' =>
      if (z =c "0") && ((x =c "x") || (x =c "X")) then (16%Z, d :: s')
      else if (z =c "0") && ((x =c "b") || (x =c "B")) then (2%Z, d :: s')
      else (10%Z, s)
  | _ => (10%Z, s)
  end.

Definition parseIntegerLiteralValue (lit : str) : outcome ParsedIntegerLiteral :=
  let u := unsigned_literal lit in
  let s := if u then removelast lit else lit in
  let '(base, s) := literal_base s in
  if u then v ← stoull s base; Ok (mkParsed (to_int64 v) v true)
  else v ← stoll s base; Ok (mkParsed v 0 false).

(** ** Integer type names *)

Definition one_of (n : str) (l : list str) : bool := existsb (streq n) l.

Definition intCanonicalNameForName (n : str) : str :=
  if one_of n [$"Int"; $"Int64"; $"i64"; $"CLong"; $"CSSize"] then $"s64"
  else if one_of n [$"UInt64"; $"u64"; $"CULong"; $"CSize"] then $"u64"
  else if one_of n [$"Int32"; $"i32"; $"CInt"; $"Rune"] then $"s32"
  else if one_of n [$"UInt32"; $"u32"; $"CUInt"] then $"u32"
  else if one_of n [$"Int16"; $"i16"; $"CShort"] then $"s16"
  else if one_of n [$"UInt16"; $"u16"; $"CUShort"] then $"u16"
  else if one_of n [$"Int8"; $"i8"; $"Char"; $"CChar"] then $"s8"
  else if one_of n [$"UInt8"; $"u8"; $"CUChar"; $"Byte"] then $"u8"
  else [].

Definition integerTypeWidthForName (n : str) : Z :=
  if one_of n [$"Int"; $"Int64"; $"i64"; $"UInt64"; $"u64"; $"ULong"] then 64
  else if one_of n [$"Int32"; $"i32"; $"UInt32"; $"u32"] then 32
  else if one_of n [$"Int16"; $"i16"; $"UInt16"; $"u16"] then 16
  else if one_of n [$"Int8"; $"i8"; $"UInt8"; $"u8"; $"Char"; $"Byte"] then 8
  else 0.

(** The name of a type that is a plain [TypeName] with an identifier. *)
Definition type_name (t : option TypeNode) : option str :=
  match t with Some (TypeName _ (Some i) _) => Some (name i) | _ => None end.

Definition integerTypeWidth (t : option TypeNode) : Z :=
  match type_name t with Some n => integerTypeWidthForName n | None => 0 end.
Definition intCanonicalName (t : option TypeNode) : str :=
  match type_name t with Some n => intCanonicalNameForName n | None => [] end.

Definition intCanonicalRange (c : str) : option (Z * Z) :=
  let range (bits : Z) (s : bool) : Z * Z :=
    (if s && (bits =? 64) then (- 2 ^ 63, 2 ^ 63 - 1)
     else if s then (- Z.shiftl 1 (bits - 1), Z.shiftl 1 (bits - 1) - 1)
     else if bits =? 64 then (0, 2 ^ 64 - 1)
     else (0, Z.shiftl 1 bits - 1))%Z in
  if one_of c [$"s64"; $"u64"] then Some (range 64%Z (c =s $"s64"))
  else if one_of c [$"s32"; $"u32"] then Some (range 32%Z (c =s $"s32"))
  else if one_of c [$"s16"; $"u16"] then Some (range 16%Z (c =s $"s16"))
  else if one_of c [$"s8"; $"u8"] then Some (range 8%Z (c =s $"s8"))
  else None.

(** ** Constants *)

(** The value and whether it is unsigned; only literals and their negations
    are constants. *)
Fixpoint constant_value (e : Expression) : option (Z * bool) :=
  match e with
  | IntegerLiteral _ v u uv => Some (if u then (uv, true) else (v, false))
  | UnaryExpression _ op (Some x) =>
      if type op =t MINUS then '(v, u) ← constant_value x; Some ((- v)%Z, u) else None
  | _ => None
  end.
Definition intConstantValueFull (e : option Expression) : option (Z * bool) := e ≫= constant_value.

(** The digit loop, from the last digit; 39 steps write any 128-bit value. *)
Fixpoint digit_loop (fuel : nat) (u : N) : str :=
  match fuel with
  | O => []
  | S f => if (u =? 0)%N then [] else ascii_of_N (48 + u mod 10) :: digit_loop f (u / 10)
  end.

Definition i128ToString (v : Z) : str :=
  if (v =? 0)%Z then $"0"
  else
    let neg := (v <? 0)%Z in
    let u := (if neg then - (v + 1) + 1 else v)%Z in
    rev (digit_loop 39 (Z.to_N u) ++ (if neg then $"-" else [])).

(** ** The assignment policy *)

Inductive IntAssignCode : Type := NotInteger | IntOk | NeedExplicitCast | ConstantOutOfRange.

#[export] Instance IntAssignCode_eq_dec : EqDecision IntAssignCode.
Proof. solve_decision. Defined.

Record IntAssignCheck : Type := mkCheck { check_code : IntAssignCode; message : str }.

Definition ownershipWrapperTypes : list str :=
  [$"my"; $"our"; $"their"; $"mild"; $"view"; $"borrow"].

Definition primitiveValueTypes : list str :=
  [$"Int"; $"Int8"; $"Int16"; $"Int32"; $"Int64"; $"UInt8"; $"UInt16"; $"UInt32"; $"UInt64";
   $"Float"; $"Float32"; $"Float64"; $"Bool"; $"Char"; $"Rune";
   $"i8"; $"i16"; $"i32"; $"i64"; $"u8"; $"u16"; $"u32"; $"u64"; $"f32"; $"f64";
   $"CChar"; $"CUChar"; $"CShort"; $"CUShort"; $"CInt"; $"CUInt"; $"CLong"; $"CULong";
   $"CSize"; $"CSSize"; $"CFloat"; $"CDouble"; $"CVoid"; $"CString"].

Definition unwrapPrimitiveOwnershipType (t : option TypeNode) : option TypeNode :=
  match t with
  | Some (TypeName _ (Some i) [inner]) =>
      if one_of (name i) ownershipWrapperTypes then
        match type_name inner with
        | Some n => if one_of n primitiveValueTypes then inner else t
        | None => t
        end
      else t
  | _ => t
  end.

Definition type_text_or (d : str) (t : option TypeNode) : str :=
  match t with Some x => TypeNode_toString x | None => d end.

Definition checkIntegerAssignment (targetRaw sourceRaw : option TypeNode) (initExpr : option Expression)
    : IntAssignCheck :=
  let tc := intCanonicalName (unwrapPrimitiveOwnershipType targetRaw) in
  let sc := intCanonicalName (unwrapPrimitiveOwnershipType sourceRaw) in
  let cast_needed :=
    mkCheck NeedExplicitCast
      ($"Cannot implicitly convert '" ++ type_text_or sc sourceRaw ++ $"' to '" ++ type_text_or tc targetRaw
       ++ $"' in assignment; cast explicitly (e.g. `(v as " ++ type_text_or tc targetRaw ++ $")`).") in
  if (tc =s []) || (sc =s []) then mkCheck NotInteger []
  else if tc =s sc then mkCheck IntOk []
  else
    match intConstantValueFull initExpr with
    | Some (cval, _) =>
        match intCanonicalRange tc with
        | Some (lo, hi) =>
            if ((lo <=? cval) && (cval <=? hi))%Z then mkCheck IntOk []
            else mkCheck ConstantOutOfRange
                   ($"Integer constant " ++ i128ToString cval ++ $" is out of range for type '"
                    ++ type_text_or tc targetRaw ++ $"' in assignment.")
        | None => cast_needed
        end
    | None => cast_needed
    end.

(** ** Decimal text *)

Definition is_dec (c : ascii) : bool := in_range c "0" "9".

Lemma digit_char (d : N) : (d < 10)%N ->
  pretty_N_char d = ascii_of_N (48 + d) /\ digit_in 10 (ascii_of_N (48 + d)) = Some (Z.of_N d)
  /\ is_dec (ascii_of_N (48 + d)) = true.
Proof.
  intros H. assert (E : d ∈ [0; 1; 2; 3; 4; 5; 6; 7; 8; 9]%N) by (rewrite !elem_of_cons; lia).
  rewrite !elem_of_cons, elem_of_nil in E.
  repeat (destruct E as [->|E]; [vm_compute; done|]). done.
Qed.

Lemma pretty_digit_loop fuel u s : (u < 10 ^ N.of_nat fuel)%N ->
  String.list_ascii_of_string (pretty_N_go u s) = rev (digit_loop fuel u) ++ String.list_ascii_of_string s.
Proof.
  revert u s. induction fuel as [|f IH]; intros u s H.
  - replace u with 0%N by (change (10 ^ N.of_nat 0)%N with 1%N in H; lia). by rewrite pretty_N_go_0.
  - cbn [digit_loop]. destruct (N.eqb_spec u 0) as [->|Hu]; [by rewrite pretty_N_go_0|].
    rewrite pretty_N_go_step by lia. rewrite IH.
    + cbn [rev String.list_ascii_of_string]. rewrite <- app_assoc. cbn [app]. do 2 f_equal.
      apply digit_char, N.mod_lt. lia.
    + rewrite Nat2N.inj_succ, N.pow_succ_r' in H. apply N.Div0.div_lt_upper_bound. lia.
Qed.

Lemma to_string_pos p fuel : (N.pos p < 10 ^ N.of_nat fuel)%N ->
  to_string (Zpos p) = rev (digit_loop fuel (N.pos p)).
Proof.
  intros H. unfold to_string. change (pretty (Zpos p)) with (pretty_N_go (N.pos p) String.EmptyString). by rewrite (pretty_digit_loop fuel _ _ H), app_nil_r.
Qed.

Lemma digit_loop_dec fuel u : forallb is_dec (digit_loop fuel u) = true.
Proof.
  revert u; induction fuel as [|f IH]; intros u; [done|]. cbn [digit_loop].
  destruct (u =? 0)%N; [done|]. cbn [forallb]. rewrite IH, andb_true_r.
  apply digit_char, N.mod_lt. lia.
Qed.

Lemma digits_value_app base acc l c : Forall (fun c => is_Some (digit_in base c)) l ->
  digits_value base acc (l ++ [c]) = digits_value base (digits_value base acc l) [c].
Proof.
  intros H. revert acc. induction H as [|a l [d Ha] _ IH]; intros acc; [done|].
  cbn. rewrite Ha. apply IH.
Qed.

Lemma is_dec_digit c : is_dec c = true -> exists d, digit_in 10 c = Some d.
Proof.
  unfold is_dec, digit_in, digit_value, in_range. intros H. rewrite H. cbn.
  apply andb_true_iff in H as [H1 H2]. apply N.leb_le in H1, H2.
  change (code "0") with 48%N in H1. change (code "9") with 57%N in H2.
  eexists. rewrite (proj2 (Z.ltb_lt _ _)); [done|lia].
Qed.

Lemma digit_loop_value fuel u : (u < 10 ^ N.of_nat fuel)%N ->
  digits_value 10 0 (rev (digit_loop fuel u)) = Z.of_N u.
Proof.
  revert u; induction fuel as [|f IH]; intros u H.
  - replace u with 0%N by (change (10 ^ N.of_nat 0)%N with 1%N in H; lia). done.
  - cbn [digit_loop]. destruct (N.eqb_spec u 0) as [->|Hu]; [done|].
    cbn [rev]. rewrite digits_value_app.
    + rewrite IH; [|rewrite Nat2N.inj_succ, N.pow_succ_r' in H; apply N.Div0.div_lt_upper_bound; lia].
      cbn [digits_value]. destruct (digit_char (u mod 10)) as (_ & -> & _); [apply N.mod_lt; lia|].
      pose proof (N.div_mod u 10 ltac:(lia)). lia.
    + apply List.Forall_forall. intros c Hc. apply is_dec_digit.
      rewrite <- in_rev in Hc. exact (proj1 (forallb_forall _ _) (digit_loop_dec f _) _ Hc).
Qed.

(** A non-negative number is written with decimal digits and reads back. *)
Lemma to_string_digits z : (0 <= z < 10 ^ 39)%Z ->
  forallb is_dec (to_string z) = true /\ to_string z <> [] /\ digits_value 10 0 (to_string z) = z.
Proof.
  intros [H0 H1]. destruct z as [|p|p]; [done| |lia].
  assert (Hb : (N.pos p < 10 ^ N.of_nat 39)%N) by (change (N.of_nat 39) with 39%N; lia).
  rewrite (to_string_pos p 39 Hb). rewrite forallb_rev. split_and!.
  - apply digit_loop_dec.
  - intros E. apply (f_equal (digits_value 10 0)) in E. rewrite digit_loop_value in E by done. done.
  - by rewrite digit_loop_value.
Qed.

Lemma i128ToString_decimal v : (Z.abs v < 2 ^ 127)%Z -> i128ToString v = to_string v.
Proof.
  intros H. unfold i128ToString. destruct v as [|p|p]; [done| |].
  - cbn -[digit_loop rev]. rewrite app_nil_r. symmetry. apply to_string_pos. cbn in H |- *. lia.
  - destruct (Z.eqb_spec (Zneg p) 0) as [|_]; [done|]. cbn [Z.ltb Z.compare].
    replace (Z.to_N (- (Zneg p + 1) + 1)) with (N.pos p) by lia.
    rewrite rev_app_distr. change (to_string (Zneg p)) with ($"-" ++ to_string (Zpos p)).
    rewrite (to_string_pos p 39); [done|]. cbn in H |- *. lia.
Qed.

(** ** Reading decimal literals *)

Lemma dec_not_space c : is_dec c = true -> isspace c = false /\ (c =c "-") = false /\ (c =c "+") = false
  /\ ((c =c "x") || (c =c "X")) = false /\ ((c =c "b") || (c =c "B")) = false /\ ((c =c "u") || (c =c "U")) = false.
Proof. destruct c as [[] [] [] [] [] [] [] []]; vm_compute; try done; split_and!; done. Qed.

Lemma skip_prefix_dec s : skip_prefix 10 s = s.
Proof. destruct s as [|? [|? ?]]; done. Qed.

Lemma number_parts_dec s : forallb is_dec s = true -> s <> [] ->
  number_parts 10 s = (false, s) /\ has_digit 10 s = true.
Proof.
  destruct s as [|c s]; [done|]. cbn [forallb]. intros [Hc _]%andb_true_iff _.
  destruct (dec_not_space c Hc) as (H1 & H2 & H3 & _). unfold number_parts. cbn [drop_while].
  rewrite H1, H2, H3, skip_prefix_dec. split; [done|]. cbn.
  destruct (is_dec_digit c Hc) as [d ->]. by apply bool_decide_eq_true.
Qed.

Lemma literal_base_dec s : forallb is_dec s = true -> literal_base s = (10%Z, s).
Proof.
  destruct s as [|z [|x [|d s]]]; try done. cbn [forallb].
  intros [_ [Hx _]%andb_true_iff]%andb_true_iff.
  destruct (dec_not_space x Hx) as (_ & _ & _ & H1 & H2 & _). cbn. rewrite H1, H2, !andb_false_r. done.
Qed.

Lemma unsigned_literal_dec s : forallb is_dec s = true -> unsigned_literal s = false.
Proof.
  intros H. unfold unsigned_literal. destruct (last s) as [c|] eqn:E; [|done].
  apply last_Some_elem_of, list_elem_of_In in E.
  by destruct (dec_not_space c (proj1 (forallb_forall _ _) H c E)) as (_ & _ & _ & _ & _ & ?).
Qed.

(** ** Canonical integer types *)

(** What a variable of a canonical type holds after storing [v]: the value
    modulo the width, in two's complement for a signed type. *)
Definition wrap (bits : Z) (s : bool) (v : Z) : Z :=
  (if s then (v + 2 ^ (bits - 1)) mod 2 ^ bits - 2 ^ (bits - 1) else v mod 2 ^ bits)%Z.
Definition store (c : str) (v : Z) : Z :=
  if c =s $"s64" then wrap 64 true v else if c =s $"u64" then wrap 64 false v
  else if c =s $"s32" then wrap 32 true v else if c =s $"u32" then wrap 32 false v
  else if c =s $"s16" then wrap 16 true v else if c =s $"u16" then wrap 16 false v
  else if c =s $"s8" then wrap 8 true v else wrap 8 false v.

Definition canonical_names : list str :=
  [$"s64"; $"u64"; $"s32"; $"u32"; $"s16"; $"u16"; $"s8"; $"u8"].

Lemma intCanonicalName_cases t : intCanonicalName t = [] \/ intCanonicalName t ∈ canonical_names.
Proof.
  unfold intCanonicalName. destruct (type_name t) as [n|]; [|by left].
  unfold intCanonicalNameForName, canonical_names.
  repeat match goal with |- context [if ?b then _ else _] => destruct b end;
    try (by left); right; rewrite !elem_of_cons; tauto.
Qed.

Lemma wrap_signed_fits bits v : (0 < bits)%Z ->
  (- 2 ^ (bits - 1) <= v <= 2 ^ (bits - 1) - 1 <-> wrap bits true v = v)%Z.
Proof.
  intros Hb. unfold wrap. assert (E : (2 ^ bits = 2 * 2 ^ (bits - 1))%Z).
  { rewrite <- Z.pow_succ_r by lia. f_equal. lia. }
  pose proof (Z.pow_pos_nonneg 2 (bits - 1) ltac:(lia) ltac:(lia)). split; intros H0.
  - rewrite Z.mod_small by lia. lia.
  - pose proof (Z.mod_pos_bound (v + 2 ^ (bits - 1)) (2 ^ bits) ltac:(lia)). lia.
Qed.

Lemma wrap_unsigned_fits bits v : (0 < bits)%Z -> (0 <= v <= 2 ^ bits - 1 <-> wrap bits false v = v)%Z.
Proof.
  intros Hb. unfold wrap. pose proof (Z.pow_pos_nonneg 2 bits ltac:(lia) ltac:(lia)). split; intros H0.
  - apply Z.mod_small. lia.
  - pose proof (Z.mod_pos_bound v (2 ^ bits) ltac:(lia)). lia.
Qed.

(** The range of a canonical type is what its variables hold unchanged. *)
Lemma canonical_range c : c ∈ canonical_names ->
  exists lo hi, intCanonicalRange c = Some (lo, hi) /\ forall v, (lo <= v <= hi <-> store c v = v)%Z.
Proof.
  unfold canonical_names. rewrite !elem_of_cons, elem_of_nil. intros H.
  repeat (destruct H as [->|H]; [do 2 eexists; split; [vm_compute; reflexivity|]; intros v|]); [..|done].
  all: first [exact (wrap_signed_fits 64 v eq_refl) | exact (wrap_unsigned_fits 64 v eq_refl)
    | exact (wrap_signed_fits 32 v eq_refl) | exact (wrap_unsigned_fits 32 v eq_refl)
    | exact (wrap_signed_fits 16 v eq_refl) | exact (wrap_unsigned_fits 16 v eq_refl)
    | exact (wrap_signed_fits 8 v eq_refl) | exact (wrap_unsigned_fits 8 v eq_refl)].
Qed.

(** The values an initializer of canonical type [c] can have: those of its
    type, and the constant itself when it is one. *)
Definition source_value (c : str) (e : option Expression) (v : Z) : Prop :=
  (exists lo hi, intCanonicalRange c = Some (lo, hi) /\ (lo <= v <= hi)%Z)
  /\ forall k u, intConstantValueFull e = Some (k, u) -> v = k.

Abbreviation canon t := (intCanonicalName (unwrapPrimitiveOwnershipType t)).

(** The integer-assignment policy loses no value. When
    [checkIntegerAssignment] accepts, every value the initializer can have is
    the value the target holds after the store; when it reports a constant
    out of range, storing that constant would change it; and when it asks for
    an explicit cast, both sides are integers of different types and the
    initializer is not a constant. *)
Theorem integer_assignment_lossless target source e :
  let code := check_code (checkIntegerAssignment target source e) in
  (code = IntOk -> forall v, source_value (canon source) e v -> store (canon target) v = v)
  /\ (code = ConstantOutOfRange -> exists k u, intConstantValueFull e = Some (k, u) /\ store (canon target) k <> k)
  /\ (code = NeedExplicitCast -> canon target <> canon source /\ canon target <> [] /\ canon source <> []
      /\ intConstantValueFull e = None)
  /\ (code = NotInteger -> canon target = [] \/ canon source = []).
Proof.
  unfold checkIntegerAssignment.
  destruct (canon target =s []) eqn:Ht; [apply streq_true in Ht; cbn; naive_solver|].
  destruct (canon source =s []) eqn:Hs; [apply streq_true in Hs; cbn; naive_solver|].
  apply streq_false in Ht, Hs. cbn [orb].
  destruct (intCanonicalName_cases (unwrapPrimitiveOwnershipType target)) as [|Hc]; [done|].
  destruct (canonical_range _ Hc) as (lo & hi & Hr & Hst).
  destruct (canon target =s canon source) eqn:Hts; cbn.
  - apply streq_true in Hts. split_and!; try done.
    intros _ v [(lo' & hi' & Hr' & Hv) _]. apply Hst. rewrite <- Hts, Hr in Hr'. by simplify_eq.
  - apply streq_false in Hts. destruct (intConstantValueFull e) as [[k u]|] eqn:Hk; [|by split_and!].
    rewrite Hr. destruct ((lo <=? k) && (k <=? hi))%Z eqn:Hin; cbn; split_and!; try done.
    + intros _ v [_ Hv]. apply Hst. rewrite (Hv _ _ Hk). lia.
    + intros _. exists k, u. split; [done|]. rewrite <- Hst. lia.
Qed.

Lemma integer_assignment_lossless_witness :
  check_code (checkIntegerAssignment (Some (named $"Int8" [])) (Some (named $"Int" []))
    (Some (IntegerLiteral test_node 100 false 0))) = IntOk
  /\ store $"s8" 100 = 100%Z.
Proof.
  split; [reflexivity|].
  apply (proj1 (integer_assignment_lossless (Some (named $"Int8" [])) (Some (named $"Int" []))
    (Some (IntegerLiteral test_node 100 false 0)))); [reflexivity|].
  split; [|cbn; naive_solver]. exists (- 2 ^ 63)%Z, (2 ^ 63 - 1)%Z. split; [reflexivity|lia].
Defined.

(** A decimal literal token denotes its number. Without suffix it is
    accepted exactly up to the largest [int64_t], and the conversion throws
    out_of_range above; with the [u] suffix the whole [uint64_t] range is
    accepted. In both cases the literal node prints back as the digits that
    were read. *)
Theorem integer_literal_roundtrip z :
  (0 <= z < 2 ^ 64)%Z ->
  parseIntegerLiteralValue (to_string z)
    = (if (z <? 2 ^ 63)%Z then Ok (mkParsed z 0 false) else Throw (out_of_range $"stoll"))
  /\ parseIntegerLiteralValue (to_string z ++ $"u") = Ok (mkParsed (to_int64 z) z true)
  /\ forall p, parseIntegerLiteralValue (to_string z) = Ok p \/ parseIntegerLiteralValue (to_string z ++ $"u") = Ok p ->
     IntegerLiteral_toString (sval p) (isUnsigned p) (uval p) = to_string z.
Proof.
  intros Hz. destruct (to_string_digits z) as (Hd & Hne & Hv); [lia|].
  destruct (number_parts_dec _ Hd Hne) as [Hp Hh].
  assert (H1 : parseIntegerLiteralValue (to_string z)
    = if (z <? 2 ^ 63)%Z then Ok (mkParsed z 0 false) else Throw (out_of_range $"stoll")).
  { unfold parseIntegerLiteralValue. rewrite unsigned_literal_dec, literal_base_dec by done.
    unfold stoll. rewrite Hp, Hh, Hv. rewrite (proj2 (Z.leb_le _ _)) by lia. cbn [andb].
    by destruct (z <? 2 ^ 63)%Z. }
  assert (H2 : parseIntegerLiteralValue (to_string z ++ $"u") = Ok (mkParsed (to_int64 z) z true)).
  { unfold parseIntegerLiteralValue, unsigned_literal. cbn [String.list_ascii_of_string].
    rewrite last_snoc, removelast_last. change ((_ =c _) || _) with true. cbn iota.
    rewrite literal_base_dec by done. unfold stoull. rewrite Hp, Hh, Hv.
    by rewrite (proj2 (Z.ltb_lt _ _)) by lia. }
  split; [done|]. split; [done|]. intros p. rewrite H1, H2. intros [H|H].
  - destruct (z <? 2 ^ 63)%Z; by simplify_eq.
  - by simplify_eq.
Qed.

Lemma integer_literal_roundtrip_witness :
  parseIntegerLiteralValue $"18446744073709551615u" = Ok (mkParsed (-1) (2 ^ 64 - 1) true).
Proof.
  exact (proj1 (proj2 (integer_literal_roundtrip (2 ^ 64 - 1) ltac:(lia)))).
Defined.

(** The hand-written 128-bit decimal conversion of the diagnostics is the
    decimal text of the number, for every value a [__int128] can have below
    the extreme. *)
Theorem i128_text v : (Z.abs v < 2 ^ 127)%Z -> i128ToString v = to_string v.
Proof. apply i128ToString_decimal. Qed.

Lemma i128_text_witness : i128ToString (-170141183460469231731687303715884105727) = $"-170141183460469231731687303715884105727".
Proof. exact (i128_text (-170141183460469231731687303715884105727) ltac:(vm_compute; reflexivity)). Defined.

Definition foreign_integers : list str :=
  [$"CChar"; $"CUChar"; $"CShort"; $"CUShort"; $"CInt"; $"CUInt"; $"CLong"; $"CULong"; $"CSize"; $"CSSize"; $"Rune"].

(** The two tables of integer types agree where both know the name: the
    width the bitwise checks use is the width of the range the assignment
    policy uses. They do not know the same names: the C-ABI integers and
    [Rune] have a canonical type and width 0, so the mismatched-width check
    of the bitwise operators, which asks for two positive widths, never
    applies to them. *)
Theorem integer_width_tables n :
  (integerTypeWidthForName n <> 0%Z -> n <> $"ULong" ->
   exists lo hi, intCanonicalRange (intCanonicalNameForName n) = Some (lo, hi)
     /\ (hi - lo + 1 = 2 ^ integerTypeWidthForName n)%Z)
  /\ (n ∈ foreign_integers -> integerTypeWidthForName n = 0%Z /\ intCanonicalNameForName n <> []).
Proof.
  split.
  - unfold integerTypeWidthForName, one_of. cbn [existsb].
    intros Hw Hu.
    repeat match type of Hw with
    | context [streq n ?s] =>
        let E := fresh "E" in destruct (streq n s) eqn:E;
        [apply streq_true in E; subst; (done || (do 2 eexists; split; vm_compute; reflexivity))|]
    end; cbn in Hw; done.
  - unfold foreign_integers. rewrite !elem_of_cons, elem_of_nil. intros H.
    repeat (destruct H as [->|H]; [split; [reflexivity|discriminate]|]). done.
Qed.

Lemma integer_width_tables_witness :
  integerTypeWidthForName $"CInt" = 0%Z /\ intCanonicalNameForName $"CInt" = $"s32".
Proof.
  split; [|reflexivity].
  apply (proj2 (integer_width_tables $"CInt")). apply (bool_decide_unpack _). vm_compute. exact I.
Defined.
