(* ===== verification/TypeRel.v ===== *)
(** * Type relations of the semantic analyzer

    src/vre/semantic_type_relations.cpp: the integer and float predicates,
    the substitution of [Self], the normalization of type names and the
    compatibility relation [areTypesCompatible] every assignment, argument
    and return is checked with; the pattern match behind aspect bindings; and
    the string helpers of include/vyb/vre/semantic_internal.hpp.

    [areTypesCompatible] follows type aliases, so it is not structural: the
    model takes fuel and answers [None] while it has not returned. Two
    pointers are the same exactly when their nodes have the same id. *)

From S2P Require Import Prelude.
From S2P Require Import Token.
From S2P Require Import Ast.
From S2P Require Import AstText.
From S2P Require Import AstTypes.
From S2P Require Import Scope.
From S2P Require Import IntTypes.

(** ** Pointers *)

Definition type_node (t : TypeNode) : Node :=
  match t with
  | TypeName n _ _ | PointerType n _ | ArrayType n _ _ | VecType n _ | FutureType n _
  | FunctionType n _ _ | OptionalType n _ | TupleTypeNode n _ => n
  end.
Definition same_node (a b : TypeNode) : bool := (id_ (type_node a) =? id_ (type_node b))%Z.

(** ** Predicates on names *)

Definition integer_type_names : list str :=
  [$"Int"; $"i8"; $"i16"; $"i32"; $"i64"; $"u8"; $"u16"; $"u32"; $"u64"; $"size_t"; $"isize"; $"usize";
   $"Int8"; $"Int16"; $"Int32"; $"Int64"; $"UInt8"; $"UInt16"; $"UInt32"; $"UInt64";
   $"Byte"; $"Char"; $"Rune"; $"CChar"; $"CUChar"; $"CShort"; $"CUShort"; $"CInt"; $"CUInt";
   $"CLong"; $"CULong"; $"CSize"; $"CSSize"].

(** The key of a node in the type table; a null node has key 0. *)
Definition expr_node (e : Expression) : Node :=
  match e with
  | IdentifierExpr i => id_node i
  | StringLiteral s => str_node s
  | IntegerLiteral n _ _ _ | FloatLiteral n _ | BooleanLiteral n _ | ArrayLiteral n _ | ObjectLiteral n _ _
  | NilLiteral n | BorrowExpression n _ _ | PointerDerefExpression n _ | AddrOfExpression n _
  | FromIntToLocExpression n _ _ | ArrayElementExpression n _ _ | LocationExpression n _
  | ListComprehension n _ _ _ _ | UnaryExpression n _ _ | BinaryExpression n _ _ _ | CallExpression n _ _ _
  | ConstructionExpression n _ _ | ArrayInitializationExpression n _ _
  | GenericInstantiationExpression n _ _ _ _ | MemberExpression n _ _ _ | AssignmentExpression n _ _ _
  | IfExpression n _ _ _ | LogicalExpression n _ _ _ | ConditionalExpression n _ _ _ | SequenceExpression n _
  | FunctionExpression n _ _ _ | ThisExpression n | SuperExpression n | AwaitExpression n _
  | RangeExpression n _ _ _ | BlockExpression n _ _ _ | SelectExpression n _ _ | ComparisonPattern n _ _
  | StructPattern n _ _ | SetPattern n _ | TypeofExpression n _ _ | TypenameExpression n _
  | AsExpression n _ _ | MatchExpression n _ => n
  end.
Definition exprKey (e : option Expression) : Z :=
  match e with Some x => id_ (expr_node x) | None => 0%Z end.

(** An array type is an integer type when the type table has an integer type
    for its size; the table is followed as often as there is fuel. *)
Fixpoint isIntegerType (fuel : nat) (expressionTypes : gmap Z (option TypeNode)) (t : option TypeNode)
    : option bool :=
  match fuel with
  | O => None
  | S f =>
      match t with
      | Some (TypeName _ (Some i) _) => Some (one_of (name i) integer_type_names)
      | Some (ArrayType _ _ (Some s)) =>
          match expressionTypes !! exprKey (Some s) with
          | Some (Some ty) => isIntegerType f expressionTypes (Some ty)
          | _ => Some false
          end
      | _ => Some false
      end
  end.

Definition isFloatType (t : option TypeNode) : bool :=
  match type_name t with
  | Some n => one_of n [$"Float"; $"Float64"; $"Float32"; $"f32"; $"f64"; $"float32"; $"float64"]
  | None => false
  end.

Definition isMyOwnershipType (t : option TypeNode) : bool :=
  match t with Some x => bool_decide ($"my<" `prefix_of` TypeNode_toString x) | None => false end.
Definition isTheirType (t : option TypeNode) : bool :=
  match t with Some x => bool_decide ($"their<" `prefix_of` TypeNode_toString x) | None => false end.

Definition isVecTypeNodeAst (t : option TypeNode) : bool :=
  match t with
  | Some (VecType _ _) => true
  | Some (TypeName _ (Some i) _) => name i =s $"Vec"
  | _ => false
  end.

Definition normalize_table : list (str * str) :=
  [ ($"i64", $"Int"); ($"int", $"Int"); ($"long", $"Int"); ($"i32", $"Int32"); ($"int32", $"Int32");
    ($"i16", $"Int16"); ($"int16", $"Int16"); ($"short", $"Int16"); ($"i8", $"Int8"); ($"int8", $"Int8");
    ($"char", $"Int8"); ($"CChar", $"Int8"); ($"CUChar", $"UInt8"); ($"CShort", $"Int16");
    ($"CUShort", $"UInt16"); ($"CInt", $"Int32"); ($"CUInt", $"UInt32"); ($"CLong", $"Int"); ($"CSSize", $"Int");
    ($"CULong", $"UInt64"); ($"CSize", $"UInt64"); ($"CFloat", $"Float32"); ($"CDouble", $"Float");
    ($"CVoid", $"Void"); ($"u64", $"UInt64"); ($"uint64", $"UInt64"); ($"u32", $"UInt32"); ($"uint32", $"UInt32");
    ($"u16", $"UInt16"); ($"uint16", $"UInt16"); ($"u8", $"UInt8"); ($"uint8", $"UInt8"); ($"byte", $"UInt8");
    ($"f64", $"Float"); ($"double", $"Float"); ($"f32", $"Float32"); ($"float", $"Float32");
    ($"bool", $"Bool"); ($"void", $"Void") ].

Definition normalizeTypeName (n : str) : str :=
  match assoc_find n normalize_table with Some c => c | None => n end.

(** ** Text of types *)

Fixpoint find_char (c : ascii) (s : str) : option nat :=
  match s with
  | [] => None
  | a :: s' => if a =c c then Some 0 else option_map S (find_char c s')
  end.

Definition is_blank (c : ascii) : bool := (c =c " ") || (c =c ch_tab).
Definition trim_blanks (s : str) : str := rev (drop_while is_blank (rev (drop_while is_blank s))).

(** The pieces between commas, an empty last piece dropped. *)
Fixpoint split_commas (acc s : str) : list str :=
  match s with
  | [] => if acc =s [] then [] else [rev acc]
  | c :: s' => if c =c "," then rev acc :: split_commas [] s' else split_commas (c :: acc) s'
  end.

(** [std::make_unique<TypeName>(loc, std::make_unique<Identifier>(loc, n), args)] *)
Definition make_type_name (l : SourceLocation) (n : str) (args : list TypeNode) (c : Z) : TypeNode * Z :=
  let '(ni, c1) := new_node l c in
  let '(nt, c2) := new_node l c1 in
  (TypeName nt (Some (mkIdentifier ni n)) (map Some args), c2).

Fixpoint make_type_names (l : SourceLocation) (ns : list str) (c : Z) : list TypeNode * Z :=
  match ns with
  | [] => ([], c)
  | n :: ns' =>
      let '(t, c1) := make_type_name l n [] c in
      let '(ts, c2) := make_type_names l ns' c1 in
      (t :: ts, c2)
  end.

Definition self_arguments (argsStr : str) : list str :=
  filter (fun a => a <> []) (map trim_blanks (split_commas [] argsStr)).

Definition drop_close (s : str) : str :=
  match last s with Some c => if c =c ">" then removelast s else s | None => s end.

Definition substituteSelfType (returnType : option TypeNode) (concreteType : str) (c : Z) : option TypeNode * Z :=
  match returnType with
  | None => (None, c)
  | Some t =>
      if bool_decide (type_name returnType = Some $"Self") then
        let l := loc (type_node t) in
        match find_char "<" concreteType with
        | Some p =>
            let '(args, c1) := make_type_names l (self_arguments (drop_close (drop (S p) concreteType))) c in
            let '(r, c2) := make_type_name l (take p concreteType) args c1 in (Some r, c2)
        | None => let '(r, c1) := make_type_name l concreteType [] c in (Some r, c1)
        end
      else let '(r, c1) := TypeNode_clone t c in (Some r, c1)
  end.

(** Everything before the first angle bracket, or the whole text. *)
Definition base_of (s : str) : str := match find_char "<" s with Some p => take p s | None => s end.

Definition matchesPattern (concreteType pattern : str) : bool :=
  match find_char "<" pattern with
  | None => concreteType =s pattern
  | Some pp =>
      match find_char "<" concreteType with
      | None => false
      | Some cp => take cp concreteType =s take pp pattern
      end
  end.

(** The offset of the bracket closing the one at the front of the text. *)
Fixpoint matching_close (depth i : Z) (s : str) : option Z :=
  match s with
  | [] => None
  | c :: s' =>
      if c =c "<" then matching_close (depth + 1) (i + 1) s'
      else if c =c ">" then
        (if depth - 1 =? 0 then Some i else matching_close (depth - 1) (i + 1) s')%Z
      else matching_close depth (i + 1) s'
  end.

(** One round of the loop of [unwrapOwnershipTypeString]. *)
Definition unwrap_ownership_once (s : str) : option str :=
  match find_char "<" s with
  | None => None
  | Some p =>
      if one_of (take p s) ownershipWrapperTypes then
        match matching_close 0 (Z.of_nat p) (drop p s) with
        | Some q =>
            if (q <=? Z.of_nat p + 1)%Z then None
            else Some (take (Z.to_nat q - p - 1) (drop (S p) s))
        | None => None
        end
      else None
  end.
Fixpoint unwrap_ownership_loop (fuel : nat) (s : str) : str :=
  match fuel with
  | O => s
  | S f => match unwrap_ownership_once s with Some s' => unwrap_ownership_loop f s' | None => s end
  end.
(** Every round shortens the text, so its length is enough fuel. *)
Definition unwrapOwnershipTypeString (s : str) : str := unwrap_ownership_loop (length s) s.

(** ** Compatibility *)

Section Compatible.
Variables (gate : ModuleScopeGate) (scope : list SymbolTable).

(** A plain name bound to a type in the current scope stands for that type. *)
Definition resolveAlias (t : TypeNode) : TypeNode :=
  match t with
  | TypeName _ (Some i) [] =>
      match lookup_symbol gate scope (name i) with
      | Some sym =>
          match kind sym, sym_type sym with
          | Type_, Some ty => ty
          | _, _ => t
          end
      | None => t
      end
  | _ => t
  end.

Section Body.
(** The recursive calls of the source. *)
Variable rec : option TypeNode -> option TypeNode -> option bool.

(** The loops over two vectors of the same length, left at the first
    incompatible pair. *)
Fixpoint all_compatible (ts vs : list (option TypeNode)) : option bool :=
  match ts, vs with
  | t :: ts', v :: vs' => r ← rec t v; if r : bool then all_compatible ts' vs' else Some false
  | _, _ => Some true
  end.

Definition vectors_compatible (ts vs : list (option TypeNode)) : option bool :=
  if length ts =? length vs then all_compatible ts vs else Some false.

Definition is_named (n : str) (t : option TypeNode) : bool := bool_decide (type_name t = Some n).

(** The parameters of two function types; a placeholder matches anything. *)
Fixpoint params_compatible (ts vs : list (option TypeNode)) : option bool :=
  match ts, vs with
  | t :: ts', v :: vs' =>
      if is_named $"?" t || is_named $"?" v then params_compatible ts' vs'
      else r ← rec t v; if r : bool then params_compatible ts' vs' else Some false
  | _, _ => Some true
  end.

Definition return_compatible (t v : option TypeNode) : option bool :=
  match t, v with
  | Some _, Some _ => rec t v
  | Some _, None => Some (is_named $"void" t)
  | None, Some _ => Some (is_named $"void" v)
  | None, None => Some true
  end.

(** Special case 2: two plain names with identifiers. [None] in the inner
    option is falling through to the rest of the function. *)
Definition named_rule (t v : TypeNode) : option (option bool) :=
  match t, v with
  | TypeName _ (Some it) targs, TypeName _ (Some iv) _ =>
      let nt := name it in
      let nv := name iv in
      if one_of nt integer_type_names && one_of nv [$"Int"; $"int"] then Some (Some true)
      else if one_of nt integer_type_names && one_of nv integer_type_names then
        Some (Some (normalizeTypeName nt =s normalizeTypeName nv))
      else if one_of nt [$"Float"; $"Float32"; $"Float64"; $"f32"; $"f64"]
              && one_of nv [$"Float"; $"Float64"; $"f64"] then Some (Some true)
      else
        match targs with
        | [inner] =>
            if one_of nt [$"my"; $"their"; $"our"; $"mild"; $"view"] then
              r ← rec inner (Some v); if r : bool then Some (Some true) else Some None
            else Some None
        | _ => Some None
        end
  | _, _ => Some None
  end.

(** Different categories: equal texts, or a [Tuple] name against a tuple. *)
Definition tuple_rule (t v : TypeNode) : option bool :=
  match t, v with
  | TypeName _ (Some i) targs, TupleTypeNode _ ms =>
      if name i =s $"Tuple" then vectors_compatible targs ms else Some false
  | TupleTypeNode _ ms, TypeName _ (Some i) vargs =>
      if name i =s $"Tuple" then vectors_compatible ms vargs else Some false
  | _, _ => Some false
  end.

Definition cross_category_rule (t v : TypeNode) : option bool :=
  if TypeNode_toString t =s TypeNode_toString v then Some true else tuple_rule t v.

(** The same category; a category without a case compares the texts. *)
Definition category_rule (t v : TypeNode) : option bool :=
  match t, v with
  | TypeName _ it targs, TypeName _ iv vargs =>
      match it, iv with
      | Some it, Some iv =>
          if normalizeTypeName (name it) =s normalizeTypeName (name iv)
          then vectors_compatible targs vargs else Some false
      | _, _ => Some false
      end
  | PointerType _ a, PointerType _ b => rec a b
  | ArrayType _ a _, ArrayType _ b _ => rec a b
  | VecType _ a, VecType _ b => rec a b
  | FunctionType _ ps r, FunctionType _ qs s =>
      ok ← return_compatible r s;
      if ok : bool then
        if length ps =? length qs then params_compatible ps qs else Some false
      else Some false
  | OptionalType _ a, OptionalType _ b => rec a b
  | TupleTypeNode _ ms, TupleTypeNode _ ns => vectors_compatible ms ns
  | _, _ => Some (TypeNode_toString t =s TypeNode_toString v)
  end.

Definition nil_rule (t v : TypeNode) : bool :=
  is_named $"nil" (Some v) && bool_decide (getCategory t = OPTIONAL).

(** After aliases and ownership wrappers: the rules in the order of the
    source. *)
Definition structural_rule (t v : TypeNode) : option bool :=
  if nil_rule t v then Some true
  else
    named ← named_rule t v;
    match named with
    | Some r => Some r
    | None =>
        if decide (getCategory t = getCategory v) then category_rule t v else cross_category_rule t v
    end.

Definition compatible_body (target value : option TypeNode) : option bool :=
  match target, value with
  | Some t, Some v =>
      let rt := resolveAlias t in
      let rv := resolveAlias v in
      if negb (same_node rt t) || negb (same_node rv v) then rec (Some rt) (Some rv)
      else if same_node t v then Some true
      else
        match unwrapPrimitiveOwnershipType target, unwrapPrimitiveOwnershipType value with
        | Some ut, Some uv =>
            if negb (same_node ut t) || negb (same_node uv v) then rec (Some ut) (Some uv)
            else structural_rule t v
        | _, _ => structural_rule t v
        end
  | None, None => Some true
  | _, _ => Some false
  end.
End Body.

Fixpoint areTypesCompatible (fuel : nat) (target value : option TypeNode) : option bool :=
  match fuel with
  | O => None
  | S f => compatible_body (areTypesCompatible f) target value
  end.
End Compatible.

(** ** Termination

    A rank on names under which every alias stands for something lighter
    bounds the recursion. A struct or enum name is bound to a node that
    names itself; that node resolves to itself, which is the second case. *)

Section Ranked.
Variables (gate : ModuleScopeGate) (scope : list SymbolTable) (rank : str -> nat).

Definition vector_weight (f : TypeNode -> nat) : list (option TypeNode) -> nat :=
  fix go l := match l with [] => 0 | o :: l' => match o with Some t => f t | None => 0 end + go l' end.
Definition pointer_weight (f : TypeNode -> nat) (o : option TypeNode) : nat :=
  match o with Some t => f t | None => 0 end.

Fixpoint weight (t : TypeNode) : nat :=
  match t with
  | TypeName _ (Some i) [] => S (rank (name i))
  | TypeName _ _ args => S (vector_weight weight args)
  | PointerType _ p => S (pointer_weight weight p)
  | ArrayType _ el _ => S (pointer_weight weight el)
  | VecType _ el => S (pointer_weight weight el)
  | FutureType _ r => S (pointer_weight weight r)
  | FunctionType _ ps r => S (vector_weight weight ps + pointer_weight weight r)
  | OptionalType _ x => S (pointer_weight weight x)
  | TupleTypeNode _ ms => S (vector_weight weight ms)
  end.

Abbreviation resolve := (resolveAlias gate scope).
Abbreviation compat := (areTypesCompatible gate scope).

Definition aliases_ranked : Prop :=
  forall n sym ty, lookup_symbol gate scope n = Some sym -> kind sym = Type_ -> sym_type sym = Some ty ->
  weight ty < S (rank n) \/ (weight ty = S (rank n) /\ same_node (resolve ty) ty = true).

Definition measure (o : option TypeNode) : nat :=
  match o with
  | Some t => 2 * weight t + (if same_node (resolve t) t then 0 else 1)
  | None => 0
  end.

Lemma measure_weight o : measure o <= 2 * pointer_weight weight o + 1.
Proof. destruct o as [t|]; cbn; [destruct (same_node _ _); lia|lia]. Qed.
Lemma weight_measure t : 2 * weight t <= measure (Some t).
Proof. cbn. lia. Qed.

Lemma weight_lt_measure o t : pointer_weight weight o < weight t -> measure o < measure (Some t).
Proof. intros H. pose proof (measure_weight o). pose proof (weight_measure t). lia. Qed.

Lemma vector_weight_in o l : o ∈ l -> pointer_weight weight o <= vector_weight weight l.
Proof.
  induction l as [|x l IH]; [by intros ?%elem_of_nil|]. intros [->|H]%elem_of_cons; cbn.
  - destruct x; cbn; lia.
  - specialize (IH H). lia.
Qed.

Lemma weight_name n i args o : o ∈ args -> pointer_weight weight o < weight (TypeName n i args).
Proof.
  intros H. pose proof (vector_weight_in _ _ H).
  destruct args as [|a args]; [by apply elem_of_nil in H|]. destruct i; cbn in *; lia.
Qed.

Lemma same_node_refl t : same_node t t = true.
Proof. apply Z.eqb_refl. Qed.

Lemma resolve_cases t :
  resolve t = t \/
  exists n i sym ty, t = TypeName n (Some i) [] /\ lookup_symbol gate scope (name i) = Some sym
    /\ kind sym = Type_ /\ sym_type sym = Some ty /\ resolve t = ty.
Proof.
  destruct t as [n [i|] [|a args]| | | | | | |]; try (by left). cbn.
  destruct (lookup_symbol gate scope (name i)) as [sym|] eqn:E; [|by left].
  destruct (kind sym) eqn:K; try (by left). destruct (sym_type sym) as [ty|] eqn:T; [|by left].
  right. eexists _, _, _, _. split_and!; [reflexivity|done..].
Qed.

Hypothesis ranked : aliases_ranked.

Lemma measure_resolve t :
  measure (Some (resolve t)) <= measure (Some t) /\
  (same_node (resolve t) t = false -> measure (Some (resolve t)) < measure (Some t)).
Proof.
  destruct (resolve_cases t) as [E|(n & i & sym & ty & -> & L & K & T & E)].
  - rewrite E. split; [lia|]. by rewrite same_node_refl.
  - rewrite E. destruct (ranked _ _ _ L K T) as [Hw|[Hw Hr]].
    + assert (H : measure (Some ty) < measure (Some (TypeName n (Some i) []))) by (by apply weight_lt_measure).
      split; lia.
    + pose proof (weight_measure (TypeName n (Some i) [])) as W. unfold measure at 1 3. rewrite Hr.
      split; [cbn in *; lia|]. intros F. unfold measure. rewrite E, F. cbn in *. lia.
Qed.

Lemma unwrap_cases t :
  unwrapPrimitiveOwnershipType (Some t) = Some t \/
  exists n i inner, t = TypeName n (Some i) [Some inner] /\ unwrapPrimitiveOwnershipType (Some t) = Some inner.
Proof.
  unfold unwrapPrimitiveOwnershipType.
  destruct t as [n [i|] [|inner [|b args]]| | | | | | |]; try (by left).
  destruct (one_of (name i) ownershipWrapperTypes); [|by left].
  destruct inner as [inner|]; [|by left].
  destruct (type_name (Some inner)) as [m|]; [|by left].
  destruct (one_of m primitiveValueTypes); [|by left]. right. eauto.
Qed.

Lemma measure_unwrap t :
  exists u, unwrapPrimitiveOwnershipType (Some t) = Some u /\ measure (Some u) <= measure (Some t) /\
  (same_node u t = false -> measure (Some u) < measure (Some t)).
Proof.
  destruct (unwrap_cases t) as [E|(n & i & inner & -> & E)]; rewrite E.
  - exists t. split; [done|]. rewrite same_node_refl. split; [lia|done].
  - exists inner. split; [done|].
    assert (measure (Some inner) < measure (Some (TypeName n (Some i) [Some inner]))).
    { apply weight_lt_measure, weight_name. by left. }
    split; lia.
Qed.

Lemma all_compatible_total rec ts vs :
  (forall t v, t ∈ ts -> v ∈ vs -> is_Some (rec t v)) -> is_Some (all_compatible rec ts vs).
Proof.
  revert vs. induction ts as [|t ts IH]; intros [|v vs] H; cbn; eauto.
  destruct (H t v) as [r ->]; [set_solver..|]. cbn. destruct r; eauto. apply IH. set_solver.
Qed.
Lemma vectors_compatible_total rec ts vs :
  (forall t v, t ∈ ts -> v ∈ vs -> is_Some (rec t v)) -> is_Some (vectors_compatible rec ts vs).
Proof. intros. unfold vectors_compatible. case_match; [by apply all_compatible_total|eauto]. Qed.
Lemma params_compatible_total rec ts vs :
  (forall t v, t ∈ ts -> v ∈ vs -> is_Some (rec t v)) -> is_Some (params_compatible rec ts vs).
Proof.
  revert vs. induction ts as [|t ts IH]; intros [|v vs] H; cbn; eauto.
  case_match; [apply IH; set_solver|].
  destruct (H t v) as [r ->]; [set_solver..|]. cbn. destruct r; eauto. apply IH. set_solver.
Qed.

(** What the rules may call: strictly smaller problems. *)
Definition total_below (rec : option TypeNode -> option TypeNode -> option bool) (bound : nat) : Prop :=
  forall t v, measure t + measure v < bound -> is_Some (rec t v).

Lemma named_rule_total rec t v :
  total_below rec (measure (Some t) + measure (Some v)) -> is_Some (named_rule rec t v).
Proof.
  intros H. unfold named_rule. destruct t as [n [it|] targs| | | | | | |], v as [n' [iv|] vargs| | | | | | |]; eauto.
  do 3 (case_match; eauto). destruct targs as [|inner [|]]; eauto. case_match; eauto.
  destruct (H inner (Some (TypeName n' (Some iv) vargs))) as [r ->]; [|cbn; destruct r; eauto].
  apply Nat.add_lt_le_mono; [|done]. apply weight_lt_measure, weight_name. by left.
Qed.

Lemma category_rule_total rec t v :
  total_below rec (measure (Some t) + measure (Some v)) -> is_Some (category_rule rec t v).
Proof.
  intros H.
  assert (H' : forall a b, pointer_weight weight a < weight t -> pointer_weight weight b < weight v -> is_Some (rec a b)).
  { intros a b Ha Hb. apply H. apply Nat.add_lt_mono; by apply weight_lt_measure. }
  destruct t as [n it targs| | | | |n ps r| |n ms], v as [n' iv vargs| | | | |n' qs s| |n' ms']; cbn; eauto;
    try (apply H'; cbn; lia).
  - destruct it as [it|], iv as [iv|]; eauto. case_match; eauto. apply vectors_compatible_total.
    intros a b Ha Hb. apply H'; by apply weight_name.
  - assert (Hr : is_Some (return_compatible rec r s)).
    { destruct r, s; cbn; eauto. apply H'; cbn; lia. }
    destruct Hr as [ok ->]. cbn. destruct ok; eauto. case_match; eauto. apply params_compatible_total.
    intros a b Ha%vector_weight_in Hb%vector_weight_in. apply H'; cbn; lia.
  - apply vectors_compatible_total. intros a b Ha%vector_weight_in Hb%vector_weight_in. apply H'; cbn; lia.
Qed.

Lemma cross_category_rule_total rec t v :
  total_below rec (measure (Some t) + measure (Some v)) -> is_Some (cross_category_rule rec t v).
Proof.
  intros H. unfold cross_category_rule, tuple_rule. case_match; eauto.
  destruct t as [n [it|] targs| | | | | | |n ms], v as [n' [iv|] vargs| | | | | | |n' ms']; eauto;
    case_match; eauto; apply vectors_compatible_total; intros a b Ha Hb; apply H;
    apply Nat.add_lt_mono; apply weight_lt_measure; try (by apply weight_name);
    [apply vector_weight_in in Hb|apply vector_weight_in in Ha]; cbn; lia.
Qed.

Lemma structural_rule_total rec t v :
  total_below rec (measure (Some t) + measure (Some v)) -> is_Some (structural_rule rec t v).
Proof.
  intros H. unfold structural_rule. case_match; eauto.
  destruct (named_rule_total rec t v H) as [r ->]. cbn. destruct r; eauto.
  case_match; [by apply category_rule_total|by apply cross_category_rule_total].
Qed.

Lemma compatible_body_total rec t v :
  total_below rec (measure t + measure v) -> is_Some (compatible_body gate scope rec t v).
Proof.
  intros H. destruct t as [t|], v as [v|]; cbn; eauto.
  destruct (measure_resolve t) as [T1 T2], (measure_resolve v) as [V1 V2].
  destruct (same_node (resolve t) t) eqn:Et; cbn.
  2:{ apply H. specialize (T2 eq_refl). lia. }
  destruct (same_node (resolve v) v) eqn:Ev; cbn.
  2:{ apply H. specialize (V2 eq_refl). lia. }
  destruct (same_node t v); eauto.
  destruct (measure_unwrap t) as (u & Eu & U1 & U2), (measure_unwrap v) as (w & Ew & W1 & W2).
  cbn in Eu, Ew. rewrite Eu, Ew.
  destruct (same_node u t) eqn:Su; cbn.
  2:{ apply H. specialize (U2 eq_refl). lia. }
  destruct (same_node w v) eqn:Sw; cbn.
  2:{ apply H. specialize (W2 eq_refl). lia. }
  by apply structural_rule_total.
Qed.

Lemma areTypesCompatible_total fuel t v : measure t + measure v < fuel -> is_Some (compat fuel t v).
Proof.
  revert t v. induction fuel as [|f IH]; intros t v H; [lia|].
  apply compatible_body_total. intros a b Hab. apply IH. lia.
Qed.

(** *** Types equal up to node identities *)

Definition no_node : Node := mkNode (mkLoc [] 0 0) 0.
Definition erase_identifier (i : Identifier) : Identifier := mkIdentifier no_node (name i).
Definition erase_size (e : Expression) : Expression :=
  IdentifierExpr (mkIdentifier no_node (Expression_toString e)).

(** The type without node identities and locations, an array size by its
    text only. *)
Fixpoint erase (t : TypeNode) : TypeNode :=
  match t with
  | TypeName _ i args => TypeName no_node (option_map erase_identifier i) (map (option_map erase) args)
  | PointerType _ p => PointerType no_node (option_map erase p)
  | ArrayType _ el s => ArrayType no_node (option_map erase el) (option_map erase_size s)
  | VecType _ el => VecType no_node (option_map erase el)
  | FutureType _ r => FutureType no_node (option_map erase r)
  | FunctionType _ ps r => FunctionType no_node (map (option_map erase) ps) (option_map erase r)
  | OptionalType _ x => OptionalType no_node (option_map erase x)
  | TupleTypeNode _ ms => TupleTypeNode no_node (map (option_map erase) ms)
  end.

Fixpoint names_present (t : TypeNode) : bool :=
  match t with
  | TypeName _ i args => bool_decide (is_Some i) && vector_all names_present args
  | PointerType _ p => pointer_all names_present p
  | ArrayType _ el _ => pointer_all names_present el
  | VecType _ el => pointer_all names_present el
  | FutureType _ r => pointer_all names_present r
  | FunctionType _ ps r => vector_all names_present ps && pointer_all names_present r
  | OptionalType _ x => pointer_all names_present x
  | TupleTypeNode _ ms => vector_all names_present ms
  end.

Lemma map_erase_text l :
  Forall (on_pointer (fun t => TypeNode_toString (erase t) = TypeNode_toString t)) l ->
  map (option_map TypeNode_toString) (map (option_map erase) l) = map (option_map TypeNode_toString) l.
Proof. induction 1 as [|[t|] l Ht _ IH]; cbn in *; [done|by rewrite Ht, IH|by rewrite IH]. Qed.

Lemma erase_text t : TypeNode_toString (erase t) = TypeNode_toString t.
Proof.
  induction t as [n i args IH|n p IH|n el s IH|n el IH|n r IH|n ps r IH IHr|n x IH|n ms IH] using TypeNode_nested_ind;
    cbn [erase TypeNode_toString]; rewrite ?map_erase_text by done; try (by destruct i);
    repeat match goal with H : on_pointer _ ?o |- _ => destruct o as [?|]; cbn in H |- *; rewrite ?H; clear H end;
    try done; by destruct s.
Qed.

Lemma erase_eq_text t v : erase t = erase v -> TypeNode_toString t = TypeNode_toString v.
Proof. intros H. by rewrite <- (erase_text t), H, erase_text. Qed.

Lemma erase_category t : getCategory (erase t) = getCategory t.
Proof. by destruct t. Qed.
Lemma erase_type_name t : type_name (Some (erase t)) = type_name (Some t).
Proof. by destruct t as [n [i|] args| | | | | | |]. Qed.

Lemma vector_weight_map l :
  Forall (on_pointer (fun t => weight (erase t) = weight t)) l ->
  vector_weight weight (map (option_map erase) l) = vector_weight weight l.
Proof. induction 1 as [|[t|] l Ht _ IH]; cbn in *; lia. Qed.

Lemma weight_erase t : weight (erase t) = weight t.
Proof.
  induction t as [n i args IH|n p IH|n el s IH|n el IH|n r IH|n ps r IH IHr|n x IH|n ms IH] using TypeNode_nested_ind;
    cbn [erase]; try (destruct i as [i|], args as [|a args]; cbn [option_map map]; try done;
      apply vector_weight_map in IH; cbn in IH |- *; congruence);
    cbn; rewrite ?vector_weight_map by done;
    repeat match goal with H : on_pointer _ ?o |- _ => destruct o as [?|]; cbn in H |- *; rewrite ?H; clear H end; done.
Qed.

Abbreviation alike t v := (erase t = erase v).
Abbreviation alike_pointers o p := (option_map erase o = option_map erase p).
Abbreviation alike_vectors l m := (map (option_map erase) l = map (option_map erase) m).

Lemma compat_self fuel t : 2 * measure (Some t) < fuel -> compat fuel (Some t) (Some t) = Some true.
Proof.
  revert t. induction fuel as [|f IH]; intros t H; [lia|]. cbn [areTypesCompatible compatible_body].
  destruct (measure_resolve t) as [T1 T2]. destruct (same_node (resolve t) t) eqn:E; cbn.
  - by rewrite same_node_refl.
  - apply IH. specialize (T2 eq_refl). lia.
Qed.

(** Alike types resolve alike: to the same alias target or not at all. *)
Lemma resolve_alike t v : alike t v ->
  (resolve t = t /\ resolve v = v) \/ resolve t = resolve v.
Proof.
  intros E. destruct (resolve_cases t) as [Et|(n & i & sym & ty & -> & L & K & T & Et)].
  - destruct (resolve_cases v) as [Ev|(n & i & sym & ty & -> & L & K & T & Ev)]; [by left|].
    right. rewrite Ev. destruct t as [m [j|] [|b args]| | | | | | |]; try done.
    cbn in E. injection E as E. cbn. by rewrite E, L, K, T.
  - right. rewrite Et. destruct v as [m [j|] [|b args]| | | | | | |]; try done.
    cbn in E. injection E as E. cbn. by rewrite <- E, L, K, T.
Qed.

Lemma unwrap_alike t v : alike t v ->
  (unwrapPrimitiveOwnershipType (Some t) = Some t /\ unwrapPrimitiveOwnershipType (Some v) = Some v) \/
  exists n i a m j b, t = TypeName n i [Some a] /\ v = TypeName m j [Some b] /\ alike a b /\
    unwrapPrimitiveOwnershipType (Some t) = Some a /\ unwrapPrimitiveOwnershipType (Some v) = Some b.
Proof.
  intros E. unfold unwrapPrimitiveOwnershipType.
  destruct t as [n [i|] [|a [|a' args]]| | | | | | |], v as [m [j|] [|b [|b' brgs]]| | | | | | |];
    try discriminate E; try (by left).
  cbn in E. injection E as E1 E2. rewrite E1.
  destruct a as [a|], b as [b|]; try discriminate E2; [|by left; case_match].
  injection E2 as E2. rewrite <- (erase_type_name a), E2, erase_type_name.
  destruct (one_of (name j) ownershipWrapperTypes); [|by left].
  destruct (type_name (Some b)) as [k|]; [|by left].
  destruct (one_of k primitiveValueTypes); [|by left].
  right. eexists _, _, _, _, _, _. split_and!; [reflexivity..|done|done|done].
Qed.

(** The recursive calls on alike parts answer yes. *)
Definition accepts_alike (rec : option TypeNode -> option TypeNode -> option bool) (bound : nat) : Prop :=
  forall a b, alike_pointers a b -> pointer_all names_present a = true ->
  pointer_weight weight a < bound -> rec a b = Some true.

Lemma vector_all_in {A} (f : A -> bool) l o : vector_all f l = true -> o ∈ l -> pointer_all f o = true.
Proof.
  induction l as [|x l IH]; [by intros _ ?%elem_of_nil|]. cbn. intros [? ?]%andb_true_iff [->|Hin]%elem_of_cons; auto.
Qed.

Lemma all_compatible_alike rec bound l m :
  accepts_alike rec bound -> alike_vectors l m -> vector_all names_present l = true ->
  (forall o, o ∈ l -> pointer_weight weight o < bound) -> all_compatible rec l m = Some true.
Proof.
  intros H. revert m. induction l as [|a l IH]; intros [|b m] E Hn Hw; try done.
  cbn in E. injection E as E1 E2. cbn in Hn. apply andb_true_iff in Hn as [Hn1 Hn2]. cbn.
  rewrite (H a b); [|done|done|apply Hw; by left]. cbn. apply IH; [done|done|]. intros o Ho. apply Hw. by right.
Qed.

Lemma vectors_compatible_alike rec bound l m :
  accepts_alike rec bound -> alike_vectors l m -> vector_all names_present l = true ->
  (forall o, o ∈ l -> pointer_weight weight o < bound) -> vectors_compatible rec l m = Some true.
Proof.
  intros H E Hn Hw. unfold vectors_compatible. assert (length l = length m) as ->.
  { apply (f_equal length) in E. by rewrite !length_map in E. }
  rewrite Nat.eqb_refl. by apply (all_compatible_alike rec bound).
Qed.

Lemma params_compatible_alike rec bound l m :
  accepts_alike rec bound -> alike_vectors l m -> vector_all names_present l = true ->
  (forall o, o ∈ l -> pointer_weight weight o < bound) -> params_compatible rec l m = Some true.
Proof.
  intros H. revert m. induction l as [|a l IH]; intros [|b m] E Hn Hw; try done.
  cbn in E. injection E as E1 E2. cbn in Hn. apply andb_true_iff in Hn as [Hn1 Hn2]. cbn.
  case_match; [|rewrite (H a b); [|done|done|apply Hw; by left]; cbn];
    (apply IH; [done|done|]; intros o Ho; apply Hw; by right).
Qed.

Lemma category_rule_alike rec t v :
  accepts_alike rec (weight t) -> alike t v -> names_present t = true -> category_rule rec t v = Some true.
Proof.
  intros H E Hn.
  destruct t as [n it targs|n p|n el s|n el|n r|n ps r|n x|n ms], v as [m iv vargs|m q|m el' s'|m el'|m r'|m qs r'|m y|m ms'];
    try discriminate E; cbn in Hn; cbn [category_rule].
  - apply andb_true_iff in Hn as [Hi Hn]. destruct it as [it|], iv as [iv|]; try done.
    cbn in E. injection E as E1 E2. rewrite E1, streq_refl.
    apply (vectors_compatible_alike rec (weight (TypeName n (Some it) targs))); try done.
    intros o Ho. by apply weight_name.
  - cbn in E. injection E as E. apply H; [done|done|cbn; lia].
  - cbn in E. injection E as E _. apply H; [done|done|cbn; lia].
  - cbn in E. injection E as E. apply H; [done|done|cbn; lia].
  - apply erase_eq_text in E. rewrite E. by rewrite streq_refl.
  - apply andb_true_iff in Hn as [Hp Hr]. cbn in E. injection E as E1 E2.
    assert (return_compatible rec r r' = Some true) as ->.
    { destruct r as [r|], r' as [r'|]; try done. cbn. apply H; [done|done|cbn; lia]. }
    cbn. assert (length ps = length qs) as ->.
    { apply (f_equal length) in E1. by rewrite !length_map in E1. }
    rewrite Nat.eqb_refl. apply (params_compatible_alike rec (weight (FunctionType n ps r))); try done.
    intros o Ho%vector_weight_in. cbn. lia.
  - cbn in E. injection E as E. apply H; [done|done|cbn; lia].
  - cbn in E. injection E as E. apply (vectors_compatible_alike rec (weight (TupleTypeNode n ms))); try done.
    intros o Ho%vector_weight_in. cbn. lia.
Qed.

(** On alike names the first rule accepts or falls through. *)
Lemma named_rule_alike rec t v r : alike t v -> named_rule rec t v = Some (Some r) -> r = true.
Proof.
  intros E. unfold named_rule. destruct t as [n [it|] targs| | | | | | |], v as [m [iv|] vargs| | | | | | |];
    try done. cbn in E. injection E as E _. rewrite E.
  destruct (_ && one_of (name iv) [$"Int"; $"int"]); [congruence|].
  destruct (_ && _); [rewrite streq_refl; congruence|].
  destruct (_ && _); [congruence|].
  destruct targs as [|inner [|]]; try done. case_match; [|done].
  destruct (rec inner _) as [[]|]; cbn; congruence.
Qed.

Lemma structural_rule_alike rec t v :
  total_below rec (measure (Some t) + measure (Some v)) -> accepts_alike rec (weight t) ->
  alike t v -> names_present t = true -> structural_rule rec t v = Some true.
Proof.
  intros HT HA E Hn. unfold structural_rule. case_match; [done|].
  destruct (named_rule_total rec t v HT) as [r Hr]. rewrite Hr. cbn. destruct r as [r|].
  - by rewrite (named_rule_alike rec t v r).
  - assert (getCategory t = getCategory v) as Hc by (by rewrite <- (erase_category t), E, erase_category).
    rewrite decide_True by done. by apply category_rule_alike.
Qed.

Lemma compat_alike fuel t v :
  alike t v -> names_present t = true -> 4 * weight t + 2 < fuel -> compat fuel (Some t) (Some v) = Some true.
Proof.
  revert t v. induction fuel as [|f IH]; intros t v E Hn Hw; [lia|].
  assert (Hwv : weight v = weight t) by (by rewrite <- (weight_erase v), <- E, weight_erase).
  pose proof (measure_weight (Some t)) as Mt. pose proof (measure_weight (Some v)) as Mv. cbn [pointer_weight] in Mt, Mv.
  cbn [areTypesCompatible compatible_body].
  destruct (measure_resolve t) as [T1 T2], (measure_resolve v) as [V1 V2].
  destruct (resolve_alike t v E) as [[Rt Rv]|R].
  2:{ rewrite <- R. destruct (same_node (resolve t) t) eqn:S1; cbn.
      2:{ apply compat_self. specialize (T2 eq_refl). lia. }
      destruct (same_node (resolve t) v) eqn:S2; cbn.
      2:{ apply compat_self. rewrite R in S2 |- *. specialize (V2 S2). lia. }
      unfold same_node in *. apply Z.eqb_eq in S1, S2. by rewrite <- S1, S2, Z.eqb_refl. }
  rewrite Rt, Rv, !same_node_refl. cbn [negb orb]. destruct (same_node t v); [done|].
  assert (Hs : structural_rule (compat f) t v = Some true).
  { apply structural_rule_alike; [|clear -IH Hw|done|done].
    - intros a b Hab. apply areTypesCompatible_total. lia.
    - intros a b Eab Ha Hab. destruct a as [a|], b as [b|]; try done.
      + injection Eab as Eab. apply IH; [done|done|cbn in Hab; lia].
      + destruct f; [lia|done]. }
  destruct (unwrap_alike t v E) as [[Ut Uv]|(n & i & a & m & j & b & -> & -> & Eab & Ut & Uv)]; rewrite Ut, Uv.
  - by rewrite !same_node_refl.
  - case_match; [|done]. apply IH; [done| |].
    + cbn in Hn. apply andb_true_iff in Hn as [_ Hn]. by apply andb_true_iff in Hn as [? _].
    + pose proof (weight_name n i [Some a] (Some a) ltac:(by left)) as Wa. cbn [pointer_weight] in Wa. lia.
Qed.
End Ranked.

(** ** More fuel gives the same answer *)

Definition rec_le (rec rec' : option TypeNode -> option TypeNode -> option bool) : Prop :=
  forall t v b, rec t v = Some b -> rec' t v = Some b.

Section FuelMonotone.
Variables (gate : ModuleScopeGate) (scope : list SymbolTable).
Variables rec rec' : option TypeNode -> option TypeNode -> option bool.
Hypothesis le : rec_le rec rec'.

Lemma all_compatible_le ts vs b : all_compatible rec ts vs = Some b -> all_compatible rec' ts vs = Some b.
Proof.
  revert vs. induction ts as [|t ts IH]; intros [|v vs]; cbn; try done.
  intros (r & Hr & Hrest)%bind_Some. rewrite (le _ _ _ Hr). cbn. destruct r; auto.
Qed.
Lemma vectors_compatible_le ts vs b : vectors_compatible rec ts vs = Some b -> vectors_compatible rec' ts vs = Some b.
Proof. unfold vectors_compatible. case_match; [apply all_compatible_le|done]. Qed.
Lemma params_compatible_le ts vs b : params_compatible rec ts vs = Some b -> params_compatible rec' ts vs = Some b.
Proof.
  revert vs. induction ts as [|t ts IH]; intros [|v vs]; cbn; try done. case_match; [apply IH|].
  intros (r & Hr & Hrest)%bind_Some. rewrite (le _ _ _ Hr). cbn. destruct r; auto.
Qed.
Lemma named_rule_le t v b : named_rule rec t v = Some b -> named_rule rec' t v = Some b.
Proof.
  unfold named_rule. destruct t as [n [it|] targs| | | | | | |], v as [m [iv|] vargs| | | | | | |]; try done.
  do 3 (case_match; [done|]). destruct targs as [|inner [|]]; try done. case_match; [|done].
  intros (r & Hr & Hrest)%bind_Some. by rewrite (le _ _ _ Hr).
Qed.
Lemma category_rule_le t v b : category_rule rec t v = Some b -> category_rule rec' t v = Some b.
Proof.
  destruct t as [n it targs| | | | |n ps r| |n ms], v as [n' iv vargs| | | | |n' qs s| |n' ms']; cbn; try done;
    try (apply le); try (apply vectors_compatible_le).
  - destruct it, iv; try done. case_match; [apply vectors_compatible_le|done].
  - intros (ok & Hok & Hrest)%bind_Some.
    assert (return_compatible rec' r s = Some ok) as -> by (destruct r, s; cbn in *; auto).
    cbn. destruct ok; [|done]. case_match; [by apply params_compatible_le|done].
Qed.
Lemma cross_category_rule_le t v b : cross_category_rule rec t v = Some b -> cross_category_rule rec' t v = Some b.
Proof.
  unfold cross_category_rule, tuple_rule. case_match; [done|].
  destruct t as [n [it|] targs| | | | | | |n ms], v as [n' [iv|] vargs| | | | | | |n' ms']; try done;
    (case_match; [apply vectors_compatible_le|done]).
Qed.
Lemma structural_rule_le t v b : structural_rule rec t v = Some b -> structural_rule rec' t v = Some b.
Proof.
  unfold structural_rule. case_match; [done|]. intros (r & Hr & Hrest)%bind_Some.
  rewrite (named_rule_le _ _ _ Hr). cbn. destruct r; [done|].
  case_match; [by apply category_rule_le|by apply cross_category_rule_le].
Qed.
Lemma compatible_body_le t v b :
  compatible_body gate scope rec t v = Some b -> compatible_body gate scope rec' t v = Some b.
Proof.
  destruct t as [t|], v as [v|]; try done. unfold compatible_body. cbv zeta. case_match; [apply le|].
  case_match; [done|]. repeat case_match; auto using structural_rule_le.
Qed.
End FuelMonotone.

Lemma areTypesCompatible_mono gate scope f f' t v b :
  f <= f' -> areTypesCompatible gate scope f t v = Some b -> areTypesCompatible gate scope f' t v = Some b.
Proof.
  intros Hf. revert f' Hf t v b. induction f as [|f IH]; intros f' Hf t v b H; [done|].
  destruct f' as [|f']; [lia|]. cbn in *. eapply compatible_body_le; [|exact H].
  intros x y c. apply IH. lia.
Qed.

(** The answer of the compatibility check: what every large enough fuel
    gives. *)
Definition compatible_is gate scope (t v : option TypeNode) (b : bool) : Prop :=
  exists n, forall fuel, n <= fuel -> areTypesCompatible gate scope fuel t v = Some b.

(** C13: While no alias can be followed forever (some rank on names decreases
    along every alias, or the bound node names itself as struct and enum
    symbols do), [areTypesCompatible] returns on every pair of types. *)
Theorem compatibility_terminates gate scope rank t v :
  aliases_ranked gate scope rank -> exists b, compatible_is gate scope t v b.
Proof.
  intros H. destruct (areTypesCompatible_total gate scope rank H _ t v (Nat.lt_succ_diag_r _)) as [b Hb].
  exists b, (S (measure gate scope rank t + measure gate scope rank v)). intros fuel Hf.
  by apply (areTypesCompatible_mono _ _ _ _ _ _ _ Hf Hb).
Qed.

(** A struct symbol bound to a node naming itself, and an alias of it. *)
Definition point_node : TypeNode :=
  TypeName (mkNode (mkLoc [] 1 1) 50) (Some (mkIdentifier (mkNode (mkLoc [] 1 1) 51) $"Point")) [].
Definition alias_scope : list SymbolTable :=
  [ add (mkSymbol Type_ $"Where" false MY (Some (named $"Point" [])) [])
      (add (mkSymbol Type_ $"Point" false MY (Some point_node) []) new_table) ].
Definition open_gate : ModuleScopeGate := mkGate ∅ ∅ [].
Definition alias_rank (n : str) : nat := if n =s $"Where" then 1 else 0.

Lemma alias_scope_ranked : aliases_ranked open_gate alias_scope alias_rank.
Proof.
  intros n sym ty L K T. unfold alias_scope in L. cbn in L.
  destruct (decide (n = $"Where")) as [->|H1].
  - vm_compute in L. injection L as <-. cbn in T. injection T as <-. left. vm_compute. lia.
  - rewrite lookup_insert_ne in L by (by intros E; apply H1). cbn in L.
    destruct (decide (n = $"Point")) as [->|H2].
    + vm_compute in L. injection L as <-. cbn in T. injection T as <-. right. split; vm_compute; reflexivity.
    + by rewrite lookup_insert_ne in L by (by intros E; apply H2).
Qed.

Lemma compatibility_terminates_witness :
  exists b, compatible_is open_gate alias_scope (Some (named $"Where" [])) (Some (named $"Point" [])) b.
Proof. exact (compatibility_terminates open_gate alias_scope alias_rank _ _ alias_scope_ranked). Defined.

(** ** Copies *)

Lemma keeps_erase_size o : size_kept o = true -> keeps (option_map erase_size) (option_map erase_size) clone_size o.
Proof. intros H c. destruct o as [[]|]; cbn in H |- *; try done. by destruct isUnsigned. Qed.

Lemma clone_keeps_erase t : sizes_kept t = true -> keeps erase erase TypeNode_clone t.
Proof.
  induction t as [n i args IH|n p IH|n el s IH|n el IH|n r IH|n ps r IH IHr|n x IH|n ms IH]
    using TypeNode_nested_ind; intros Hs c; cbn in Hs |- *;
    try (apply andb_true_iff in Hs; destruct Hs as [Hs1 Hs2]);
    (apply vector_all_Forall in IH; [|done]) || (apply pointer_all_on in IH; [|done]);
    (apply keeps_vector in IH || apply keeps_pointer in IH).
  - assert (Hi : keeps (option_map erase_identifier) (option_map erase_identifier) (clone_pointer clone_identifier) i)
      by (apply keeps_pointer; destruct i; [by intros ?|done]).
    keep_step IH. keep_step Hi. keep_last.
  - keep_step IH. keep_last.
  - keep_step (keeps_erase_size s Hs1). keep_step IH. keep_last.
  - keep_step IH. keep_last.
  - keep_step IH. keep_last.
  - apply pointer_all_on in IHr; [|done]. apply keeps_pointer in IHr.
    keep_step IH. keep_step IHr. keep_last.
  - keep_step IH. keep_last.
  - keep_step IH. keep_last.
Qed.

(** Types that differ only in node identities are compatible, in any
    scope with well-founded aliases; in particular a type is compatible with
    every clone of it, which is what the analyzer compares throughout. *)
Theorem copies_compatible gate scope rank t :
  aliases_ranked gate scope rank -> names_present t = true ->
  (forall v, erase t = erase v -> compatible_is gate scope (Some t) (Some v) true)
  /\ (sizes_kept t = true -> forall c, compatible_is gate scope (Some t) (Some (TypeNode_clone t c).1) true).
Proof.
  intros H Hn. assert (A : forall v, erase t = erase v -> compatible_is gate scope (Some t) (Some v) true).
  { intros v E. exists (S (4 * weight rank t + 2)). intros fuel Hf. apply (compat_alike gate scope rank H); [done|done|lia]. }
  split; [done|]. intros Hs c. apply A. symmetry. exact (clone_keeps_erase t Hs c).
Qed.

Lemma copies_compatible_witness :
  compatible_is open_gate alias_scope (Some (named $"Vec" [named $"Where" []]))
    (Some (TypeNode_clone (named $"Vec" [named $"Where" []]) 900).1) true.
Proof.
  apply (proj2 (copies_compatible open_gate alias_scope alias_rank (named $"Vec" [named $"Where" []])
    alias_scope_ranked eq_refl)). reflexivity.
Defined.

(** The fallback on texts conflates two types: an optional function type
    [(fn(..) -> R)?] and a function type returning an optional
    [fn(..) -> R?] print alike, so whatever the aliases the compatibility
    check accepts the one for the other, at the first level of the
    recursion. *)
Theorem optional_function_conflated gate scope n m ps r fuel :
  areTypesCompatible gate scope (S fuel)
    (Some (OptionalType n (Some (FunctionType m ps (Some r)))))
    (Some (FunctionType m ps (Some (OptionalType n (Some r))))) = Some true.
Proof.
  cbn [areTypesCompatible compatible_body resolveAlias]. rewrite !same_node_refl. cbn [negb orb].
  case_match; [done|]. cbn [unwrapPrimitiveOwnershipType]. rewrite !same_node_refl. cbn [negb orb].
  unfold structural_rule. cbn [nil_rule is_named]. change (nil_rule _ _) with false. cbn iota.
  cbn [named_rule mbind option_bind]. rewrite decide_False by done.
  unfold cross_category_rule. by rewrite optional_function_text, streq_refl.
Qed.

(** ** Substitution of Self *)

Lemma find_char_app c s r : c ∉ s -> find_char c (s ++ c :: r) = Some (length s).
Proof.
  induction s as [|a s IH]; cbn; intros H; [by rewrite ceq_refl|].
  rewrite (proj2 (ceq_false a c)) by set_solver. rewrite IH by set_solver. done.
Qed.
Lemma find_char_none c s : c ∉ s -> find_char c s = None.
Proof.
  induction s as [|a s IH]; cbn; intros H; [done|].
  rewrite (proj2 (ceq_false a c)) by set_solver. rewrite IH by set_solver. done.
Qed.

Lemma name_ok_not_in s c : name_ok s = true -> name_char c = false -> c ∉ s.
Proof.
  intros H Hc Hin. apply name_ok_run in H. apply list_elem_of_In in Hin.
  pose proof (proj1 (forallb_forall _ _) H c Hin). congruence.
Qed.

Lemma split_commas_last acc s : "," ∉ s -> rev acc ++ s <> [] -> split_commas acc s = [rev acc ++ s].
Proof.
  revert acc. induction s as [|c s IH]; intros acc H Hne; cbn.
  - rewrite app_nil_r in *. rewrite (proj2 (streq_false acc [])); [done|]. by intros ->.
  - rewrite (proj2 (ceq_false c ",")) by set_solver. rewrite IH; [|set_solver|].
    + cbn. by rewrite <- app_assoc.
    + cbn. rewrite <- app_assoc. done.
Qed.
Lemma split_commas_step acc s r : "," ∉ s -> split_commas acc (s ++ "," :: r) = (rev acc ++ s) :: split_commas [] r.
Proof.
  revert acc. induction s as [|c s IH]; intros acc H; cbn; [by rewrite ceq_refl, app_nil_r|].
  rewrite (proj2 (ceq_false c ",")) by set_solver. rewrite IH by set_solver. cbn. by rewrite <- app_assoc.
Qed.

Lemma trim_name s : name_ok s = true -> trim_blanks s = s /\ trim_blanks (" "%char :: s) = s.
Proof.
  intros H. assert (B : forall l, forallb name_char l = true -> drop_while is_blank l = l).
  { intros [|c l]; [done|]. cbn. intros [Hc _]%andb_true_iff.
    destruct (is_blank c) eqn:E; [|done]. exfalso. unfold is_blank in E.
    apply orb_true_iff in E as [->%ceq_true| ->%ceq_true]; vm_compute in Hc; done. }
  pose proof (name_ok_run s H) as R. unfold trim_blanks. cbn [drop_while].
  change (is_blank " ") with true. cbn iota. rewrite (B s R), (B (rev s)) by (by rewrite forallb_rev).
  by rewrite rev_involutive.
Qed.

Lemma split_joined p a l : "," ∉ p -> name_ok a = true -> forallb name_ok l = true ->
  split_commas [] (p ++ joined $", " (map Some (a :: l))) = (p ++ a) :: map (fun x => " "%char :: x) l.
Proof.
  revert p a. induction l as [|b l IH]; intros p a Hp Ha Hl;
    assert (Hpa : "," ∉ p ++ a) by (rewrite elem_of_app; intros [?|Hin]; [done|]; by apply (name_ok_not_in a ",") in Hin).
  - cbn [map]. rewrite joined_cons, app_nil_r. rewrite split_commas_last; [done|done|].
    apply name_ok_cons in Ha as (? & ? & -> & _). by destruct p.
  - cbn [forallb] in Hl. apply andb_true_iff in Hl as [Hb Hl].
    change (map Some (a :: b :: l)) with (Some a :: map Some (b :: l)). rewrite joined_cons, app_assoc.
    change (match map Some (b :: l) with [] => [] | _ => $", " ++ joined $", " (map Some (b :: l)) end)
      with (","%char :: [" "%char] ++ joined $", " (map Some (b :: l))).
    rewrite split_commas_step by done. rewrite (IH [" "%char] b); [done|by intros [?|?%elem_of_nil]%elem_of_cons|done|done].
Qed.

Lemma self_arguments_flat a l : name_ok a = true -> forallb name_ok l = true ->
  self_arguments (joined $", " (map Some (a :: l))) = a :: l.
Proof.
  intros Ha Hl. unfold self_arguments. pose proof (split_joined [] a l ltac:(set_solver) Ha Hl) as S. cbn [app] in S. rewrite S. cbn [map].
  destruct (trim_name a Ha) as [-> _]. rewrite map_map.
  assert (E : map (fun x => trim_blanks (" "%char :: x)) l = l).
  { clear Ha S. induction l as [|b l IH]; [done|]. cbn [forallb] in Hl. apply andb_true_iff in Hl as [Hb Hl].
    cbn [map]. destruct (trim_name b Hb) as [_ ->]. by rewrite IH. }
  rewrite E. assert (F : Forall (fun x => x <> []) (a :: l)).
  { apply Forall_cons; split; [by apply name_ok_cons in Ha as (? & ? & -> & _)|].
    apply List.Forall_forall. intros x Hx. apply (proj1 (forallb_forall _ _) Hl) in Hx.
    by apply name_ok_cons in Hx as (? & ? & -> & _). }
  clear -F. induction F as [|x m Hx _ IH]; [done|]. rewrite filter_cons_True by done. by rewrite IH.
Qed.

(** A plain generic name over plain names, as the analyzer renders it. *)
Definition flat_type (base : str) (args : list str) : TypeNode := named base (map (fun a => named a []) args).

Lemma make_type_names_erase l ns c :
  map erase (make_type_names l ns c).1 = map (fun a => erase (named a [])) ns.
Proof.
  revert c. induction ns as [|n ns IH]; intros c; [done|]. cbn [make_type_names].
  unfold make_type_name. destruct (new_node l c) as [ni c1]. destruct (new_node l c1) as [nt c2].
  specialize (IH c2). destruct (make_type_names l ns c2) as [ts c3]. cbn in *. by rewrite IH.
Qed.

Lemma flat_type_text base args :
  TypeNode_toString (flat_type base args) = base ++ generic_list (map Some args).
Proof.
  unfold flat_type, named. cbn. unfold TypeName_toString. cbn. do 2 f_equal. rewrite !map_map.
  apply map_ext. intros a. cbn. unfold TypeName_toString, Identifier_toString. cbn. by rewrite app_nil_r.
Qed.

Lemma make_type_name_erase l n args c :
  erase (make_type_name l n args c).1 = TypeName no_node (Some (mkIdentifier no_node n)) (map Some (map erase args)).
Proof.
  unfold make_type_name. destruct (new_node l c) as [ni c1]. destruct (new_node l c1) as [nt c2].
  cbn. f_equal. by rewrite !map_map.
Qed.

Lemma map_erase_flat args : map Some (map (fun a => erase (named a [])) args)
  = map (option_map erase) (map Some (map (fun a => named a []) args)).
Proof. rewrite !map_map. done. Qed.

(** Where the bind target is a name with plain arguments, [Self] in a
    signature becomes that type: the substituted type is the bind target up
    to node identities, so it is compatible with it. *)
Theorem self_substitution_flat t base args c :
  type_name (Some t) = Some $"Self" -> name_ok base = true -> forallb name_ok args = true ->
  exists r, (substituteSelfType (Some t) (TypeNode_toString (flat_type base args)) c).1 = Some r
    /\ erase r = erase (flat_type base args).
Proof.
  intros Hs Hb Ha. unfold substituteSelfType. rewrite bool_decide_eq_true_2 by done.
  rewrite flat_type_text. destruct args as [|a args].
  - cbn [map generic_list]. rewrite app_nil_r, find_char_none by (by apply (name_ok_not_in base)).
    pose proof (make_type_name_erase (loc (type_node t)) base [] c) as E.
    destruct (make_type_name _ base [] c) as [r c1]. eexists. split; [reflexivity|]. exact E.
  - cbn [forallb] in Ha. apply andb_true_iff in Ha as [Ha Hl].
    change (generic_list (map Some (a :: args))) with ("<"%char :: joined $", " (map Some (a :: args)) ++ [">"%char]).
    rewrite find_char_app by (by apply (name_ok_not_in base)).
    rewrite take_app_length. replace (drop (S (length base)) _) with (joined $", " (map Some (a :: args)) ++ [">"%char])
      by (rewrite <- Nat.add_1_r, <- drop_drop, drop_app_length; done).
    unfold drop_close. rewrite last_snoc, ceq_refl, removelast_last, self_arguments_flat by done.
    pose proof (make_type_names_erase (loc (type_node t)) (a :: args) c) as E.
    destruct (make_type_names _ (a :: args) c) as [ts c1]. cbn [fst] in E.
    pose proof (make_type_name_erase (loc (type_node t)) base ts c1) as E2.
    destruct (make_type_name _ base ts c1) as [r c2]. cbn [fst] in *. eexists. split; [reflexivity|].
    rewrite E2, E, map_erase_flat. done.
Qed.

Lemma self_substitution_flat_witness :
  exists r, (substituteSelfType (Some (named $"Self" [])) $"Pair<Int, String>" 10).1 = Some r
    /\ erase r = erase (flat_type $"Pair" [$"Int"; $"String"]).
Proof.
  apply (self_substitution_flat (named $"Self" []) $"Pair" [$"Int"; $"String"] 10); reflexivity.
Defined.

(** With a nested generic argument the substitution is not the bind
    target: the argument text of [Box<Pair<Int, String>>] is split at its
    inner comma, the result has two arguments instead of one, and the
    compatibility check rejects it against the type that was written. *)
Theorem self_substitution_nested t c r :
  let written := named $"Box" [flat_type $"Pair" [$"Int"; $"String"]] in
  type_name (Some t) = Some $"Self" ->
  (substituteSelfType (Some t) (TypeNode_toString written) c).1 = Some r ->
  (exists n i a b, r = TypeName n i [a; b])
  /\ (same_node r written = false -> compatible_is open_gate [] (Some written) (Some r) false).
Proof.
  intros written Hs. unfold substituteSelfType. rewrite bool_decide_eq_true_2 by done.
  change (find_char "<" (TypeNode_toString written)) with (Some 3). cbv iota.
  replace (self_arguments (drop_close (drop 4 (TypeNode_toString written)))) with [$"Pair<Int"; $"String>"] by (vm_compute; reflexivity).
  replace (take 3 (TypeNode_toString written)) with $"Box" by (vm_compute; reflexivity).
  cbn [make_type_names]. unfold make_type_name.
  repeat match goal with |- context [new_node ?l ?c] => destruct (new_node l c) end. cbn [fst].
  intros [= <-]. split; [by repeat eexists|]. intros Hn. exists 1. intros [|fuel] Hf; [lia|].
  cbn [areTypesCompatible]. unfold compatible_body. cbn [resolveAlias]. rewrite !same_node_refl. cbn [negb orb].
  assert (Hn' : forall x, same_node x written = false -> same_node written x = false)
    by (intros x; unfold same_node; by rewrite Z.eqb_sym).
  rewrite (Hn' _ Hn).
  repeat match goal with |- context [unwrapPrimitiveOwnershipType (Some ?x)] =>
    change (unwrapPrimitiveOwnershipType (Some x)) with (Some x) end.
  cbv iota beta. rewrite !same_node_refl. reflexivity.
Qed.

Lemma self_substitution_nested_witness :
  exists r, (substituteSelfType (Some (named $"Self" [])) $"Box<Pair<Int, String>>" 10).1 = Some r
    /\ compatible_is open_gate [] (Some (named $"Box" [flat_type $"Pair" [$"Int"; $"String"]])) (Some r) false.
Proof.
  eexists. split; [reflexivity|].
  refine (proj2 (self_substitution_nested (named $"Self" []) 10 _ eq_refl eq_refl) _). reflexivity.
Defined.
