(* ===== verification/Ownership.v ===== *)
(** * Ownership, borrow and move state of the semantic analyzer

    The scope stacks of [SemanticAnalyzer] (include/vyb/semantic.hpp), their
    handlers in src/vre/semantic_ownership.cpp and semantic_scope.cpp,
    [enterScope] / [exitScope] and [visit(ast::Identifier)] of
    src/vre/semantic.cpp. The back of a C++ vector of scopes is the head of
    the list. *)

From S2P Require Import Prelude.
From S2P Require Import Token.
From S2P Require Import Ast.
From S2P Require Import AstText.
From S2P Require Import AstTypes.
From S2P Require Import Scope.
From S2P Require Import IntTypes.
From S2P Require Import TypeRel.

(** ** State *)

Record BorrowState : Type := mkBorrow { mutableBorrows : Z; immutableBorrows : Z }.
Definition no_borrow : BorrowState := mkBorrow 0 0.

Record LambdaCaptureCtx : Type := mkLambda {
  enclosingScope : option (list SymbolTable);
  referenced : gset str;
  locals : gset str;
  written : gset str
}.

Record SemanticAnalyzer : Type := mkAnalyzer {
  currentScope : list SymbolTable;
  scopeGate_ : ModuleScopeGate;
  borrowScopes : list (gmap str BorrowState);
  moveScopes : list (gmap str bool);
  declScopes : list (gmap str Z);
  theirVarDepth_ : gmap str Z;
  theirVarRoot_ : gmap str str;
  expressionTypes : gmap Z (option TypeNode);
  lambdaCaptureStack : list LambdaCaptureCtx;
  enumGenericParamOrder : gmap str (list str);
  enumTypeNames : gset str;
  inAssignmentLHS : bool;
  idCounter : Z;
  errors : list str
}.

(** Assignments to one member. *)
Definition set_scopes cs bs ms ds (a : SemanticAnalyzer) : SemanticAnalyzer :=
  mkAnalyzer cs (scopeGate_ a) bs ms ds (theirVarDepth_ a) (theirVarRoot_ a) (expressionTypes a)
    (lambdaCaptureStack a) (enumGenericParamOrder a) (enumTypeNames a) (inAssignmentLHS a) (idCounter a) (errors a).
Definition set_borrows bs ms (a : SemanticAnalyzer) : SemanticAnalyzer :=
  set_scopes (currentScope a) bs ms (declScopes a) a.
Definition set_their d r (a : SemanticAnalyzer) : SemanticAnalyzer :=
  mkAnalyzer (currentScope a) (scopeGate_ a) (borrowScopes a) (moveScopes a) (declScopes a) d r (expressionTypes a)
    (lambdaCaptureStack a) (enumGenericParamOrder a) (enumTypeNames a) (inAssignmentLHS a) (idCounter a) (errors a).
Definition set_types et l c (a : SemanticAnalyzer) : SemanticAnalyzer :=
  mkAnalyzer (currentScope a) (scopeGate_ a) (borrowScopes a) (moveScopes a) (declScopes a) (theirVarDepth_ a)
    (theirVarRoot_ a) et l (enumGenericParamOrder a) (enumTypeNames a) (inAssignmentLHS a) c (errors a).
Definition set_errors es (a : SemanticAnalyzer) : SemanticAnalyzer :=
  mkAnalyzer (currentScope a) (scopeGate_ a) (borrowScopes a) (moveScopes a) (declScopes a) (theirVarDepth_ a)
    (theirVarRoot_ a) (expressionTypes a) (lambdaCaptureStack a) (enumGenericParamOrder a) (enumTypeNames a)
    (inAssignmentLHS a) (idCounter a) es.

(** ** Errors and scopes *)

Definition addError (m : str) (node : option Node) (a : SemanticAnalyzer) : SemanticAnalyzer :=
  let prefix :=
    match node with
    | Some n => if (line (loc n) >? 0)%Z then SourceLocation_toString (loc n) ++ $": " else []
    | None => []
    end in
  set_errors (errors a ++ [prefix ++ m]) a.

Definition enterScope (a : SemanticAnalyzer) : SemanticAnalyzer :=
  set_scopes (new_table :: currentScope a) (∅ :: borrowScopes a) (∅ :: moveScopes a) (∅ :: declScopes a) a.

(** [moveScopes.pop_back()] is guarded by [borrowScopes] not being empty;
    popping an empty vector would be undefined, so the model answers [None]
    there. *)
Definition exitScope (a : SemanticAnalyzer) : option SemanticAnalyzer :=
  match borrowScopes a with
  | [] => Some (set_scopes (tail (currentScope a)) [] (moveScopes a) (tail (declScopes a)) a)
  | _ :: bs =>
      match moveScopes a with
      | [] => None
      | _ :: ms => Some (set_scopes (tail (currentScope a)) bs ms (tail (declScopes a)) a)
      end
  end.

(** ** Borrows *)

Definition isLValue (e : option Expression) : bool :=
  match e with
  | Some (IdentifierExpr _) | Some (MemberExpression _ _ _ _) | Some (ArrayElementExpression _ _ _)
  | Some (PointerDerefExpression _ _) => true
  | _ => false
  end.

Fixpoint borrowed_root (e : Expression) : str :=
  match e with
  | IdentifierExpr i => name i
  | MemberExpression _ (Some o) _ _ => borrowed_root o
  | ArrayElementExpression _ (Some o) _ => borrowed_root o
  | _ => []
  end.
Definition borrowedRootName (e : option Expression) : str :=
  match e with Some x => borrowed_root x | None => [] end.

Definition add_state (x y : BorrowState) : BorrowState :=
  mkBorrow (mutableBorrows x + mutableBorrows y) (immutableBorrows x + immutableBorrows y).

Fixpoint aggregate_over (scopes : list (gmap str BorrowState)) (root : str) : BorrowState :=
  match scopes with
  | [] => no_borrow
  | m :: ms => add_state (default no_borrow (m !! root)) (aggregate_over ms root)
  end.
Definition aggregateBorrowState (a : SemanticAnalyzer) (root : str) : BorrowState :=
  aggregate_over (borrowScopes a) root.

Definition hasActiveBorrow (a : SemanticAnalyzer) (root : str) : bool :=
  let s := aggregateBorrowState a root in ((mutableBorrows s >? 0) || (immutableBorrows s >? 0))%Z.

(** [borrowScopes.back()[root]] with one more borrow. *)
Definition bump (f : BorrowState -> BorrowState) (root : str) (a : SemanticAnalyzer) : SemanticAnalyzer :=
  match borrowScopes a with
  | m :: ms => set_borrows (<[root := f (default no_borrow (m !! root))]> m :: ms) (moveScopes a) a
  | [] => a
  end.
Definition one_mutable (s : BorrowState) : BorrowState := mkBorrow (mutableBorrows s + 1) (immutableBorrows s).
Definition one_view (s : BorrowState) : BorrowState := mkBorrow (mutableBorrows s) (immutableBorrows s + 1).

Definition recordBorrow (root : str) (k : BorrowKind) (node : option Node) (a : SemanticAnalyzer) : SemanticAnalyzer :=
  if root =s [] then a
  else
    let a := match borrowScopes a with [] => set_borrows [∅] (∅ :: moveScopes a) a | _ => a end in
    let active := aggregateBorrowState a root in
    match k with
    | MUTABLE_BORROW =>
        if ((mutableBorrows active >? 0) || (immutableBorrows active >? 0))%Z
        then addError ($"Cannot take mutable borrow of '" ++ root ++ $"' while it is already borrowed.") node a
        else bump one_mutable root a
    | IMMUTABLE_VIEW =>
        if (mutableBorrows active >? 0)%Z
        then addError ($"Cannot take view of '" ++ root ++ $"' while it has an active mutable borrow.") node a
        else bump one_view root a
    end.

Definition recordTheirBorrowInto (var root : str) (a : SemanticAnalyzer) : SemanticAnalyzer :=
  if (var =s []) || (root =s []) then a
  else set_their (<[var := Z.of_nat (length (borrowScopes a))]> (theirVarDepth_ a))
         (<[var := root]> (theirVarRoot_ a)) a.

(** ** Moves *)

Definition hasOwnershipKindMY (sym : option SymbolInfo) : bool :=
  match sym with Some s => isMyOwnershipType (sym_type s) | None => false end.

Definition getOwnershipKind (sym : option SymbolInfo) : OwnershipKind :=
  match sym with Some s => ownershipKind s | None => MY end.

Definition set_moved (b : bool) (var : str) (a : SemanticAnalyzer) : SemanticAnalyzer :=
  match moveScopes a with
  | m :: ms => set_borrows (borrowScopes a) (<[var := b]> m :: ms) a
  | [] => a
  end.
Definition recordMove (var : str) (a : SemanticAnalyzer) : SemanticAnalyzer := set_moved true var a.
Definition clearMove (var : str) (a : SemanticAnalyzer) : SemanticAnalyzer := set_moved false var a.

Fixpoint moved_in (scopes : list (gmap str bool)) (var : str) : bool :=
  match scopes with
  | [] => false
  | m :: ms => match m !! var with Some b => b | None => moved_in ms var end
  end.
Definition isMoved (a : SemanticAnalyzer) (var : str) : bool := moved_in (moveScopes a) var.

(** ** Reading an identifier *)

Definition setType (n : Node) (t : option TypeNode) (a : SemanticAnalyzer) : SemanticAnalyzer :=
  set_types (<[id_ n := t]> (expressionTypes a)) (lambdaCaptureStack a) (idCounter a) a.

(** [setType(node, t ? t->clone() : nullptr)] *)
Definition setType_clone (n : Node) (t : option TypeNode) (a : SemanticAnalyzer) : SemanticAnalyzer :=
  match t with
  | None => setType n None a
  | Some t =>
      let '(t', c) := TypeNode_clone t (idCounter a) in
      set_types (<[id_ n := Some t']> (expressionTypes a)) (lambdaCaptureStack a) c a
  end.

Definition typeOf (a : SemanticAnalyzer) (n : Node) : option TypeNode :=
  match expressionTypes a !! id_ n with Some t => t | None => None end.

Definition add_reference (n : str) (a : SemanticAnalyzer) : SemanticAnalyzer :=
  match lambdaCaptureStack a with
  | [] => a
  | c :: cs =>
      set_types (expressionTypes a)
        (mkLambda (enclosingScope c) ({[ n ]} ∪ referenced c) (locals c) (written c) :: cs) (idCounter a) a
  end.

(** A borrow variable used where its recorded scope has been left. *)
Definition borrow_escapes (a : SemanticAnalyzer) (n : str) : bool :=
  match theirVarDepth_ a !! n with
  | Some d => (Z.of_nat (length (borrowScopes a)) <? d)%Z
  | None => false
  end.

Definition visit_Identifier (i : Identifier) (a : SemanticAnalyzer) : SemanticAnalyzer :=
  let n := name i in
  if one_of n [$"Vec"; $"Int"; $"Float"; $"Bool"; $"String"; $"Type"]
     || bool_decide (is_Some (enumGenericParamOrder a !! n)) then a
  else if bool_decide (n ∈ enumTypeNames a) then a
  else
    let a := add_reference n a in
    match lookup_symbol (scopeGate_ a) (currentScope a) n with
    | None => setType (id_node i) None (addError ($"Undefined identifier: " ++ n) (Some (id_node i)) a)
    | Some sym =>
        let readType := unwrapPrimitiveOwnershipType (sym_type sym) in
        let a := setType_clone (id_node i) readType a in
        if hasOwnershipKindMY (Some sym) && isMoved a n && negb (inAssignmentLHS a) then
          setType (id_node i) None
            (addError ($"Use after move: '" ++ n ++ $"' has been moved and is no longer valid.") (Some (id_node i)) a)
        else if borrow_escapes a n then
          let root := default [] (theirVarRoot_ a !! n) in
          setType (id_node i) None
            (addError ($"Borrow of '" ++ (if root =s [] then n else root)
                       ++ $"' escapes its scope; the referred-to value may be dead.") (Some (id_node i)) a)
        else match readType with Some _ => setType_clone (id_node i) readType a | None => a end
    end.

(** ** Steps

    What the visitor does to this state between entering and leaving scopes:
    a declaration in the current scope, a borrow, the record of a borrow
    variable, a move, a revival, the reading of an identifier. *)

Definition declare (sym : SymbolInfo) (n : Node) (a : SemanticAnalyzer) : SemanticAnalyzer :=
  match currentScope a, declScopes a with
  | t :: ts, d :: ds =>
      set_scopes (add sym t :: ts) (borrowScopes a) (moveScopes a) (<[sym_name sym := id_ n]> d :: ds) a
  | _, _ => a
  end.

Inductive leaf_step (a : SemanticAnalyzer) : SemanticAnalyzer -> Prop :=
| leaf_declare sym n : leaf_step a (declare sym n a)
| leaf_borrow root k node : leaf_step a (recordBorrow root k node a)
| leaf_their var root : leaf_step a (recordTheirBorrowInto var root a)
| leaf_move var : leaf_step a (recordMove var a)
| leaf_revive var : leaf_step a (clearMove var a)
| leaf_read i : leaf_step a (visit_Identifier i a).

Inductive own_step (a : SemanticAnalyzer) : SemanticAnalyzer -> Prop :=
| own_leaf a' : leaf_step a a' -> own_step a a'
| own_enter : own_step a (enterScope a)
| own_exit a' : exitScope a = Some a' -> own_step a a'.

(** The analyzer as its constructor leaves it, for a given gate and enums. *)
Definition analyzer_start (g : ModuleScopeGate) (enums : gmap str (list str)) (names : gset str) : SemanticAnalyzer :=
  enterScope (mkAnalyzer [] g [] [] [] ∅ ∅ ∅ [] enums names false 0 []).

Inductive own_reachable (start : SemanticAnalyzer) : SemanticAnalyzer -> Prop :=
| own_start : own_reachable start start
| own_next a a' : own_reachable start a -> own_step a a' -> own_reachable start a'.

(** ** The borrow invariant *)

Definition counts_ok (m : gmap str BorrowState) : Prop :=
  forall r s, m !! r = Some s -> (0 <= mutableBorrows s /\ 0 <= immutableBorrows s)%Z.

Definition exclusive (s : BorrowState) : Prop :=
  (0 <= mutableBorrows s <= 1 /\ 0 <= immutableBorrows s /\ (mutableBorrows s = 1 -> immutableBorrows s = 0))%Z.

Definition own_inv (a : SemanticAnalyzer) : Prop :=
  Forall counts_ok (borrowScopes a) /\ length (borrowScopes a) = length (moveScopes a)
  /\ forall r, exclusive (aggregateBorrowState a r).

Lemma counts_default m r : counts_ok m ->
  (0 <= mutableBorrows (default no_borrow (m !! r)) /\ 0 <= immutableBorrows (default no_borrow (m !! r)))%Z.
Proof. intros H. destruct (m !! r) as [s|] eqn:E; [by apply (H r)|cbn; lia]. Qed.

Lemma aggregate_bump f m ms r r' :
  aggregate_over (<[r := f (default no_borrow (m !! r))]> m :: ms) r'
  = if decide (r = r') then add_state (f (default no_borrow (m !! r))) (aggregate_over ms r)
    else aggregate_over (m :: ms) r'.
Proof.
  cbn. destruct (decide (r = r')) as [<-|H].
  - by rewrite lookup_insert_eq.
  - by rewrite lookup_insert_ne.
Qed.

Lemma bump_inv f a r :
  own_inv a ->
  (forall s, (0 <= mutableBorrows s /\ 0 <= immutableBorrows s)%Z ->
     (mutableBorrows s <= mutableBorrows (f s) /\ immutableBorrows s <= immutableBorrows (f s))%Z) ->
  (forall m ms, borrowScopes a = m :: ms ->
     exclusive (add_state (f (default no_borrow (m !! r))) (aggregate_over ms r))) ->
  own_inv (bump f r a).
Proof.
  intros (Hc & Hl & He) Hf Hx. unfold bump. destruct (borrowScopes a) as [|m ms] eqn:E.
  { unfold own_inv, aggregateBorrowState. rewrite E. unfold aggregateBorrowState in He. rewrite E in He. done. }
  inversion_clear Hc as [|? ? Hm Hms]. unfold own_inv, aggregateBorrowState. cbn [borrowScopes moveScopes set_borrows set_scopes].
  split_and!.
  - constructor; [|done]. intros r' s. destruct (decide (r = r')) as [<-|Hr].
    + rewrite lookup_insert_eq. intros [= <-]. pose proof (counts_default m r Hm) as D. specialize (Hf _ D). lia.
    + rewrite lookup_insert_ne by done. apply Hm.
  - done.
  - intros r'. rewrite aggregate_bump. destruct (decide (r = r')) as [<-|Hr]; [by apply Hx|].
    specialize (He r'). unfold aggregateBorrowState in He. by rewrite E in He.
Qed.

(** The record of a borrow after the scopes have been made non-empty. *)
Definition ensure_scope (a : SemanticAnalyzer) : SemanticAnalyzer :=
  match borrowScopes a with [] => set_borrows [∅] (∅ :: moveScopes a) a | _ => a end.

Lemma ensure_scope_inv a : own_inv a -> own_inv (ensure_scope a).
Proof.
  intros (Hc & Hl & He). unfold ensure_scope. destruct (borrowScopes a) as [|m ms] eqn:E.
  - unfold own_inv, aggregateBorrowState. cbn. split_and!.
    + constructor; [|done]. intros r s. by rewrite lookup_empty.
    + cbn in Hl. by rewrite <- Hl.
    + intros r. rewrite lookup_empty. cbn. done.
  - unfold own_inv. rewrite E. done.
Qed.

Lemma addError_inv m n a : own_inv a -> own_inv (addError m n a).
Proof. done. Qed.

Lemma recordBorrow_inv root k node a : own_inv a -> own_inv (recordBorrow root k node a).
Proof.
  intros Ha. unfold recordBorrow. destruct (root =s []); [done|]. fold (ensure_scope a).
  apply ensure_scope_inv in Ha. set (b := ensure_scope a) in *. clearbody b.
  pose proof (proj2 (proj2 Ha) root) as Hx. destruct k; case_match eqn:Hk; try (by apply addError_inv);
    (apply bump_inv; [done|cbn; lia|]); intros m ms E; unfold aggregateBorrowState in Hx, Hk;
    rewrite E in Hx, Hk; cbn in Hx, Hk |- *; unfold exclusive in *; cbn in *; lia.
Qed.

Lemma setType_clone_scopes n t a :
  borrowScopes (setType_clone n t a) = borrowScopes a /\ moveScopes (setType_clone n t a) = moveScopes a
  /\ currentScope (setType_clone n t a) = currentScope a /\ declScopes (setType_clone n t a) = declScopes a
  /\ errors (setType_clone n t a) = errors a /\ theirVarDepth_ (setType_clone n t a) = theirVarDepth_ a
  /\ theirVarRoot_ (setType_clone n t a) = theirVarRoot_ a /\ scopeGate_ (setType_clone n t a) = scopeGate_ a
  /\ inAssignmentLHS (setType_clone n t a) = inAssignmentLHS a.
Proof. unfold setType_clone. destruct t as [t|]; [destruct (TypeNode_clone t (idCounter a))|]; done. Qed.

Lemma add_reference_scopes n a :
  borrowScopes (add_reference n a) = borrowScopes a /\ moveScopes (add_reference n a) = moveScopes a
  /\ currentScope (add_reference n a) = currentScope a /\ declScopes (add_reference n a) = declScopes a
  /\ errors (add_reference n a) = errors a /\ theirVarDepth_ (add_reference n a) = theirVarDepth_ a
  /\ theirVarRoot_ (add_reference n a) = theirVarRoot_ a /\ scopeGate_ (add_reference n a) = scopeGate_ a
  /\ inAssignmentLHS (add_reference n a) = inAssignmentLHS a.
Proof. unfold add_reference. by destruct (lambdaCaptureStack a). Qed.

(** Reading an identifier touches no scope. *)
Lemma visit_Identifier_scopes i a :
  borrowScopes (visit_Identifier i a) = borrowScopes a /\ moveScopes (visit_Identifier i a) = moveScopes a
  /\ currentScope (visit_Identifier i a) = currentScope a /\ declScopes (visit_Identifier i a) = declScopes a.
Proof.
  unfold visit_Identifier. repeat (case_match; [done|]). cbv zeta.
  destruct (add_reference_scopes (name i) a) as (B & M & C & D & _).
  destruct (lookup_symbol _ _ _) as [sym|]; [|by rewrite <- B, <- M, <- C, <- D].
  destruct (setType_clone_scopes (id_node i) (unwrapPrimitiveOwnershipType (sym_type sym))
    (add_reference (name i) a)) as (B' & M' & C' & D' & _).
  case_match; [by rewrite <- B, <- M, <- C, <- D, <- B', <- M', <- C', <- D'|].
  case_match; [by rewrite <- B, <- M, <- C, <- D, <- B', <- M', <- C', <- D'|].
  destruct (unwrapPrimitiveOwnershipType (sym_type sym)) as [t|]; [|by rewrite B', M', C', D'].
  destruct (setType_clone_scopes (id_node i) (Some t) (setType_clone (id_node i) (Some t) (add_reference (name i) a)))
    as (-> & -> & -> & -> & _). by rewrite B', M', C', D'.
Qed.

Lemma own_inv_same a b : borrowScopes b = borrowScopes a -> moveScopes b = moveScopes a -> own_inv a -> own_inv b.
Proof. unfold own_inv, aggregateBorrowState. by intros -> ->. Qed.

Lemma set_moved_inv b v a : own_inv a -> own_inv (set_moved b v a).
Proof.
  intros (Hc & Hl & He). unfold set_moved. destruct (moveScopes a) as [|m ms] eqn:E; unfold own_inv; cbn; rewrite ?E; done.
Qed.

Lemma leaf_step_inv a a' : leaf_step a a' -> own_inv a -> own_inv a'.
Proof.
  intros [sym n|root k node|var root|var|var|i] Ha.
  - unfold declare. repeat case_match; done.
  - by apply recordBorrow_inv.
  - unfold recordTheirBorrowInto. by case_match.
  - by apply set_moved_inv.
  - by apply set_moved_inv.
  - destruct (visit_Identifier_scopes i a) as (B & M & _). by apply (own_inv_same a).
Qed.

Lemma exitScope_inv a a' : exitScope a = Some a' -> own_inv a -> own_inv a'.
Proof.
  unfold exitScope. intros E (Hc & Hl & He). destruct (borrowScopes a) as [|m ms] eqn:Eb.
  - injection E as <-. unfold own_inv, aggregateBorrowState. cbn. split_and!; [done|done|].
    intros r. cbn. done.
  - destruct (moveScopes a) as [|x xs] eqn:Em; [done|]. injection E as <-.
    inversion_clear Hc as [|? ? Hm Hms]. unfold own_inv, aggregateBorrowState. cbn. split_and!; [done|cbn in Hl; lia|].
    intros r. specialize (He r). unfold aggregateBorrowState in He. rewrite Eb in He. cbn in He.
    pose proof (counts_default m r Hm). unfold exclusive in *. cbn in *.
    assert (0 <= mutableBorrows (aggregate_over ms r) /\ 0 <= immutableBorrows (aggregate_over ms r))%Z.
    { clear -Hms. induction Hms as [|m' ms' Hm' _ IH]; cbn; [lia|]. pose proof (counts_default m' r Hm'). lia. }
    lia.
Qed.

Lemma enterScope_inv a : own_inv a -> own_inv (enterScope a).
Proof.
  intros (Hc & Hl & He). unfold own_inv, aggregateBorrowState. cbn. split_and!.
  - constructor; [|done]. intros r s. by rewrite lookup_empty.
  - by rewrite Hl.
  - intros r. rewrite lookup_empty. specialize (He r). unfold aggregateBorrowState in He.
    unfold exclusive in *. cbn. lia.
Qed.

Lemma own_reachable_inv g en ns a : own_reachable (analyzer_start g en ns) a -> own_inv a.
Proof.
  induction 1 as [|a a' _ IH S].
  - apply enterScope_inv. unfold own_inv, aggregateBorrowState. cbn. split_and!; [done|done|]. intros r. cbn. done.
  - destruct S as [a' L| |a' E]; [by apply (leaf_step_inv a)|by apply enterScope_inv|by apply (exitScope_inv a)].
Qed.

(** ** What the handlers promise *)

Definition conflicts (a : SemanticAnalyzer) (root : str) (k : BorrowKind) : Prop :=
  match k with
  | MUTABLE_BORROW => hasActiveBorrow a root = true
  | IMMUTABLE_VIEW => (mutableBorrows (aggregateBorrowState a root) > 0)%Z
  end.

(** C16: In every state the analyzer can reach, each root has at most one
    mutable borrow and never a mutable borrow beside a view, counted over all
    open scopes; and the two scope stacks have the same height, so leaving a
    scope never pops an empty vector. *)
Theorem borrow_exclusive g enums names a root :
  own_reachable (analyzer_start g enums names) a ->
  exclusive (aggregateBorrowState a root) /\ is_Some (exitScope a).
Proof.
  intros (Hc & Hl & He)%own_reachable_inv. split; [apply He|]. unfold exitScope.
  destruct (borrowScopes a) as [|m ms]; [eauto|]. destruct (moveScopes a); [done|eauto].
Qed.

Definition ident (n : str) : Identifier := mkIdentifier test_node n.
Definition sample_analyzer : SemanticAnalyzer := analyzer_start open_gate ∅ ∅.

Lemma borrow_exclusive_witness :
  let a := recordBorrow $"x" IMMUTABLE_VIEW None (recordBorrow $"x" MUTABLE_BORROW None (enterScope sample_analyzer)) in
  exclusive (aggregateBorrowState a $"x") /\ is_Some (exitScope a).
Proof.
  apply (borrow_exclusive open_gate ∅ ∅).
  eapply own_next; [eapply own_next; [eapply own_next; [apply own_start|apply own_enter]|]|]; apply own_leaf, leaf_borrow.
Defined.

Lemma ensure_scope_aggregate a r : aggregateBorrowState (ensure_scope a) r = aggregateBorrowState a r.
Proof.
  unfold ensure_scope, aggregateBorrowState. destruct (borrowScopes a) as [|m ms] eqn:E; cbn; rewrite ?E; [|done].
  by rewrite lookup_empty.
Qed.

Lemma ensure_scope_some a : exists m ms, borrowScopes (ensure_scope a) = m :: ms.
Proof. unfold ensure_scope. destruct (borrowScopes a) as [|m ms] eqn:E; cbn; rewrite ?E; eauto. Qed.

Lemma bump_aggregate f a r r' m ms : borrowScopes a = m :: ms ->
  aggregateBorrowState (bump f r a) r'
  = if decide (r = r') then add_state (f (default no_borrow (m !! r))) (aggregate_over ms r)
    else aggregateBorrowState a r'.
Proof.
  intros E. unfold bump, aggregateBorrowState. rewrite E. cbn [borrowScopes set_borrows set_scopes].
  apply aggregate_bump.
Qed.

(** [recordBorrow] on a named root reports exactly the conflicts: a
    mutable borrow of a root that is borrowed at all, a view of a root that is
    mutably borrowed. A conflicting borrow adds one error and changes no
    borrow count; any other adds no error and exactly one borrow of its kind
    to its root. *)
Theorem recordBorrow_exact root k node a :
  root <> [] ->
  let a' := recordBorrow root k node a in
  (conflicts a root k -> (exists e, errors a' = errors a ++ [e])
     /\ forall r, aggregateBorrowState a' r = aggregateBorrowState a r)
  /\ (~ conflicts a root k -> errors a' = errors a
     /\ forall r, aggregateBorrowState a' r
        = if decide (root = r)
          then match k with
               | MUTABLE_BORROW => one_mutable (aggregateBorrowState a root)
               | IMMUTABLE_VIEW => one_view (aggregateBorrowState a root)
               end
          else aggregateBorrowState a r).
Proof.
  intros Hr. unfold recordBorrow. rewrite (proj2 (streq_false root []) Hr). cbv zeta. fold (ensure_scope a).
  destruct (ensure_scope_some a) as (m & ms & Eb).
  assert (Hag : add_state (default no_borrow (m !! root)) (aggregate_over ms root) = aggregateBorrowState a root).
  { rewrite <- ensure_scope_aggregate. unfold aggregateBorrowState. by rewrite Eb. }
  assert (Her : errors (ensure_scope a) = errors a) by (unfold ensure_scope; by destruct (borrowScopes a)).
  rewrite ensure_scope_aggregate.
  assert (Hsame : forall e r, aggregateBorrowState (addError e node (ensure_scope a)) r = aggregateBorrowState a r)
    by (intros e r; apply ensure_scope_aggregate).
  assert (Hbump : forall f, errors (bump f root (ensure_scope a)) = errors a)
    by (intros f; unfold bump; by rewrite Eb).
  destruct k; cbn [conflicts]; unfold hasActiveBorrow.
  - destruct (_ || _)%Z eqn:Hc; split; try (by intros []); try done; intros _.
    + split; [|apply Hsame]. cbn. rewrite Her. eauto.
    + split; [apply Hbump|]. intros r. rewrite (bump_aggregate _ _ _ _ _ _ Eb), ensure_scope_aggregate.
      destruct (decide (root = r)) as [<-|]; [|done]. rewrite <- Hag. unfold add_state, one_mutable. cbn. f_equal; lia.
  - destruct (mutableBorrows (aggregateBorrowState a root) >? 0)%Z eqn:Hc; split; intros Hcon; try lia.
    + split; [|apply Hsame]. cbn. rewrite Her. eauto.
    + split; [apply Hbump|]. intros r. rewrite (bump_aggregate _ _ _ _ _ _ Eb), ensure_scope_aggregate.
      destruct (decide (root = r)) as [<-|]; [|done]. rewrite <- Hag. unfold add_state, one_view. cbn. f_equal; lia.
Qed.

Lemma recordBorrow_exact_witness :
  let a := recordBorrow $"x" IMMUTABLE_VIEW None sample_analyzer in
  exists e, errors (recordBorrow $"x" MUTABLE_BORROW None a) = errors a ++ [e].
Proof.
  cbv zeta. set (a := recordBorrow $"x" IMMUTABLE_VIEW None sample_analyzer).
  refine (proj1 (proj1 (recordBorrow_exact $"x" MUTABLE_BORROW None a _) _)); [discriminate|reflexivity].
Defined.

(** A run of a block body: steps in its scope and nested blocks. *)
Inductive block_run (a : SemanticAnalyzer) : SemanticAnalyzer -> Prop :=
| block_done : block_run a a
| block_leaf b c : leaf_step a b -> block_run b c -> block_run a c
| block_nested b c d : block_run (enterScope a) b -> exitScope b = Some c -> block_run c d -> block_run a d.

(** What a block leaves alone: everything below its own scope. *)
Definition below (a : SemanticAnalyzer) :=
  (tail (borrowScopes a), tail (moveScopes a), tail (currentScope a), tail (declScopes a)).
Definition open_scopes (a : SemanticAnalyzer) : Prop :=
  borrowScopes a <> [] /\ moveScopes a <> [] /\ currentScope a <> [] /\ declScopes a <> [].

Lemma leaf_step_below a b : open_scopes a -> leaf_step a b -> below b = below a /\ open_scopes b.
Proof.
  intros (Hb & Hm & Hc & Hd) [sym n|root k node|var root|var|var|i]; unfold below, open_scopes.
  - unfold declare. destruct (currentScope a) eqn:E1, (declScopes a) eqn:E2; cbn; rewrite ?E1, ?E2; done.
  - unfold recordBorrow. case_match; [done|]. cbv zeta. destruct (borrowScopes a) as [|m ms] eqn:E1; [done|].
    destruct k; case_match; unfold bump, addError; rewrite ?E1; cbn; rewrite ?E1; done.
  - unfold recordTheirBorrowInto. by case_match.
  - unfold recordMove, set_moved. destruct (moveScopes a) eqn:E1; cbn; rewrite ?E1; done.
  - unfold clearMove, set_moved. destruct (moveScopes a) eqn:E1; cbn; rewrite ?E1; done.
  - destruct (visit_Identifier_scopes i a) as (-> & -> & -> & ->). done.
Qed.

Lemma exitScope_below a b : open_scopes a -> exitScope a = Some b ->
  (borrowScopes b, moveScopes b, currentScope b, declScopes b) = below a.
Proof.
  unfold exitScope, below. intros (Hb & Hm & Hc & Hd).
  destruct (borrowScopes a) eqn:E1, (moveScopes a) eqn:E2; try done. intros [= <-]. done.
Qed.

Lemma block_run_below a b : block_run a b -> open_scopes a -> below b = below a /\ open_scopes b.
Proof.
  induction 1 as [a|a b c L _ IH|a b c d _ IH1 X _ IH2]; intros Ho; [done| |].
  - destruct (leaf_step_below a b Ho L) as [<- Ho']. by apply IH.
  - destruct IH1 as [E Ho1]; [by split_and!|].
    pose proof (exitScope_below b c Ho1 X) as Ec. rewrite E in Ec. cbn in Ec.
    injection Ec as Ec1 Ec2 Ec3 Ec4.
    assert (below c = below a /\ open_scopes c) as [<- Ho2]; [|by apply IH2].
    unfold below, open_scopes in *. by rewrite Ec1, Ec2, Ec3, Ec4.
Qed.

(** Leaving a block restores the scopes of the state before it, whatever
    the block did: every borrow it recorded is released, its declarations are
    gone, and the move state of every variable is what it was before the
    block. In particular a variable of an outer scope that the block moved is
    not moved any more after it. *)
Theorem block_restores_scopes a b c :
  block_run (enterScope a) b -> exitScope b = Some c ->
  borrowScopes c = borrowScopes a /\ moveScopes c = moveScopes a
  /\ currentScope c = currentScope a /\ declScopes c = declScopes a
  /\ forall v, isMoved c v = isMoved a v /\ hasActiveBorrow c v = hasActiveBorrow a v.
Proof.
  intros R X. destruct (block_run_below _ _ R) as [E Ho]; [by split_and!|].
  pose proof (exitScope_below b c Ho X) as Ec. rewrite E in Ec. cbn in Ec. injection Ec as E1 E2 E3 E4.
  split_and!; [done..|]. intros v. unfold isMoved, hasActiveBorrow, aggregateBorrowState. by rewrite E1, E2.
Qed.

Lemma block_restores_scopes_witness :
  exists c, exitScope (recordMove $"x" (enterScope sample_analyzer)) = Some c /\ isMoved c $"x" = isMoved sample_analyzer $"x".
Proof.
  eexists. split; [reflexivity|].
  refine (proj1 (proj2 (proj2 (proj2 (proj2 (block_restores_scopes sample_analyzer
    (recordMove $"x" (enterScope sample_analyzer)) _ _ eq_refl)))) $"x")).
  eapply block_leaf; [apply leaf_move|apply block_done].
Defined.

(** ** Reading after a block *)

(** A name the visitor looks up: neither a built-in type nor an enum. *)
Definition plain_identifier (a : SemanticAnalyzer) (n : str) : bool :=
  negb (one_of n [$"Vec"; $"Int"; $"Float"; $"Bool"; $"String"; $"Type"]
        || bool_decide (is_Some (enumGenericParamOrder a !! n)))
  && negb (bool_decide (n ∈ enumTypeNames a)).

(** The errors a reading of a resolved name adds. *)
Lemma visit_errors i a sym :
  plain_identifier a (name i) = true -> lookup_symbol (scopeGate_ a) (currentScope a) (name i) = Some sym ->
  let moved := hasOwnershipKindMY (Some sym) && isMoved a (name i) && negb (inAssignmentLHS a) in
  if moved || borrow_escapes a (name i)
  then exists e, errors (visit_Identifier i a) = errors a ++ [e]
  else errors (visit_Identifier i a) = errors a.
Proof.
  intros [P1%negb_true_iff P2%negb_true_iff]%andb_true_iff L. cbv zeta. unfold visit_Identifier. rewrite P1, P2.
  destruct (add_reference_scopes (name i) a) as (B & M & C & D & E & T & R & G & I).
  rewrite C, G, L.
  destruct (setType_clone_scopes (id_node i) (unwrapPrimitiveOwnershipType (sym_type sym))
    (add_reference (name i) a)) as (B' & M' & C' & D' & E' & T' & R' & G' & I').
  set (b := setType_clone (id_node i) (unwrapPrimitiveOwnershipType (sym_type sym)) (add_reference (name i) a)) in *.
  assert (isMoved b (name i) = isMoved a (name i)) as -> by (unfold isMoved; by rewrite M', M).
  assert (borrow_escapes b (name i) = borrow_escapes a (name i)) as ->
    by (unfold borrow_escapes; by rewrite T', T, B', B).
  rewrite I', I. assert (Eb : errors b = errors a) by (by rewrite E', E).
  destruct (hasOwnershipKindMY (Some sym) && isMoved a (name i) && negb (inAssignmentLHS a)); cbn [orb].
  { eexists. cbn. by rewrite Eb. }
  destruct (borrow_escapes a (name i)).
  { eexists. cbn. by rewrite Eb. }
  destruct (unwrapPrimitiveOwnershipType (sym_type sym)) as [t|]; [|done].
  destruct (setType_clone_scopes (id_node i) (Some t) b) as (_ & _ & _ & _ & -> & _). done.
Qed.

Lemma lookup_new_table g scope n : lookup_symbol g (new_table :: scope) n = lookup_symbol g scope n.
Proof. cbn. by rewrite lookup_empty. Qed.

(** A move inside a nested block is forgotten. A [my] variable of an
    enclosing scope that is readable before the block and is moved in it is
    reported as moved while the block is open, and is readable again, without
    any report, once the block is left. *)
Theorem inner_move_forgotten i sym a :
  plain_identifier a (name i) = true -> lookup_symbol (scopeGate_ a) (currentScope a) (name i) = Some sym ->
  hasOwnershipKindMY (Some sym) = true -> inAssignmentLHS a = false ->
  isMoved a (name i) = false -> borrow_escapes a (name i) = false ->
  let inside := recordMove (name i) (enterScope a) in
  (exists e, errors (visit_Identifier i inside) = errors a ++ [e])
  /\ exists after, exitScope inside = Some after /\ errors (visit_Identifier i after) = errors a.
Proof.
  intros P L O H M B inside. split.
  - pose proof (visit_errors i inside sym P) as V. cbn [currentScope scopeGate_ inside recordMove set_moved enterScope] in V.
    specialize (V ltac:(cbn; rewrite lookup_empty; exact L)). rewrite O in V.
    assert (isMoved inside (name i) = true) as Hm by (cbn; by rewrite lookup_insert_eq).
    rewrite Hm in V. cbn in V. rewrite H in V. exact V.
  - eexists. split; [reflexivity|].
    match goal with |- errors (visit_Identifier i ?c) = _ => pose proof (visit_errors i c sym P L) as V end.
    rewrite O in V. change (isMoved (set_scopes _ _ _ _ _) (name i)) with (isMoved a (name i)) in V.
    rewrite M in V. change (borrow_escapes (set_scopes _ _ _ _ _) (name i)) with (borrow_escapes a (name i)) in V.
    rewrite B in V. exact V.
Qed.

Definition my_symbol : SymbolInfo := mkSymbol Variable_ $"x" false MY (Some (named $"my" [named $"Node" []])) [].
Definition my_state : SemanticAnalyzer := declare my_symbol test_node (enterScope sample_analyzer).

Lemma inner_move_forgotten_witness :
  exists after, exitScope (recordMove $"x" (enterScope my_state)) = Some after
    /\ errors (visit_Identifier (ident $"x") after) = [].
Proof.
  exact (proj2 (inner_move_forgotten (ident $"x") my_symbol my_state eq_refl eq_refl eq_refl eq_refl eq_refl eq_refl)).
Defined.

(** The record of a borrow variable outlives the variable. When a block
    binds a name to a borrow and ends, a new variable of the same name in the
    enclosing scope, whatever its type, is reported as an escaping borrow the
    first time it is read. *)
Theorem stale_borrow_record i sym n root a t ts d ds m ms :
  name i <> [] -> root <> [] -> sym_name sym = name i -> hasOwnershipKindMY (Some sym) = false ->
  plain_identifier a (name i) = true -> currentScope a = t :: ts -> ts <> [] -> declScopes a = d :: ds ->
  moveScopes a = m :: ms ->
  exists after, exitScope (recordTheirBorrowInto (name i) root (enterScope a)) = Some after
    /\ exists e, errors (visit_Identifier i (declare sym n after)) = errors a ++ [e].
Proof.
  intros Hi Hr Hs HM P Hc Hts Hd Hm. unfold recordTheirBorrowInto.
  rewrite (proj2 (streq_false _ _) Hi), (proj2 (streq_false _ _) Hr). cbn [orb].
  eexists. split; [reflexivity|]. unfold declare. cbn [currentScope declScopes set_scopes set_their enterScope tail].
  rewrite Hc, Hd.
  match goal with |- exists e, errors (visit_Identifier i ?c) = _ =>
    pose proof (visit_errors i c sym P) as V; cbn [currentScope scopeGate_ set_scopes set_their enterScope] in V end.
  specialize (V ltac:(cbn; rewrite <- Hs, lookup_insert_eq, bool_decide_eq_false_2 by done; done)).
  rewrite HM in V. cbn [andb orb] in V.
  match type of V with if ?b then _ else _ => assert (b = true) as Hb end.
  { unfold borrow_escapes. cbn. rewrite lookup_insert_eq. apply Z.ltb_lt. lia. }
  rewrite Hb in V. exact V.
Qed.

Lemma stale_borrow_record_witness :
  exists after, exitScope (recordTheirBorrowInto $"r" $"x" (enterScope (enterScope sample_analyzer))) = Some after
    /\ exists e, errors (visit_Identifier (ident $"r")
         (declare (mkSymbol Variable_ $"r" false MY (Some (named $"Int" [])) []) test_node after)) = [] ++ [e].
Proof.
  refine (stale_borrow_record (ident $"r") (mkSymbol Variable_ $"r" false MY (Some (named $"Int" [])) []) test_node $"x" (enterScope sample_analyzer) _ _ _ _ _ _
    _ _ eq_refl eq_refl eq_refl eq_refl _ eq_refl eq_refl); discriminate.
Defined.
