(* ===== verification/ThreadBoundary.v ===== *)
(** * The thread-boundary capability

    src/vre/semantic_thread_boundary.cpp and
    include/vyb/vre/thread_boundary.hpp: which values may be handed to another
    thread. [capability] walks a type through the struct and enum registries;
    it keeps no record of what it has visited, so the model takes fuel and
    answers [None] while it has not returned. On top of it, the analyzer's
    check of the captures of a closure handed to a spawn site. *)

From S2P Require Import Prelude.
From S2P Require Import Token.
From S2P Require Import Ast.
From S2P Require Import AstText.
From S2P Require Import AstTypes.
From S2P Require Import Scope.
From S2P Require Import IntTypes.
From S2P Require Import TypeRel.
From S2P Require Import Ownership.

(** ** Registries and claims *)

Inductive Capability : Type := Capable | NotCapable | Undecidable.

#[export] Instance Capability_eq_dec : EqDecision Capability.
Proof. solve_decision. Defined.

(** Field name to declared type; the order of the entries does not matter to
    the walk. *)
Abbreviation StructFieldRegistry := (gmap str (list (str * option TypeNode))).
(** Variant name to payload types. *)
Abbreviation EnumPayloadRegistry := (gmap str (list (str * list (option TypeNode)))).

Record CuratedClaimLookup : Type := mkClaims {
  handoff : option (str -> bool);
  viewable_claim : option (str -> bool)
}.

Definition asks (f : option (str -> bool)) (ts : str) : bool := match f with Some g => g ts | None => false end.

(** ** Helpers of the walk *)

Definition baseNameOf (ts : str) : str := base_of ts.

Definition plain_value_types : list str :=
  [$"Int"; $"Int8"; $"Int16"; $"Int32"; $"Int64"; $"Int128"; $"UInt"; $"UInt8"; $"UInt16"; $"UInt32"; $"UInt64";
   $"Float"; $"Float32"; $"Float64"; $"Bool"; $"Char"; $"Rune"; $"String"; $"Type"; $"Byte"; $"Bytes"; $"Unit";
   $"Void"; $"Nothing"].
Definition isPlainValueType (base : str) : bool := one_of base plain_value_types.

Definition namedTypeArgs (t : TypeNode) : list (option TypeNode) :=
  match t with TypeName _ _ args => args | _ => [] end.

(** [find(ts)], then [find(base)]. *)
Definition find_either {A} (m : gmap str A) (ts base : str) : option A :=
  match m !! ts with Some x => Some x | None => m !! base end.

Definition refusal_wrappers : list str := [$"my"; $"their"; $"loc"; $"ptr"].

Section Walk.
Variables (structs : option StructFieldRegistry) (enums : option EnumPayloadRegistry)
  (claims : option CuratedClaimLookup).

Section Body.
Variable rec : option TypeNode -> option Capability.

(** Every payload in turn, left at the first refusal. *)
Fixpoint aggregate_from (undecidable : bool) (payloads : list (option TypeNode)) : option Capability :=
  match payloads with
  | [] => Some (if undecidable then Undecidable else Capable)
  | p :: ps =>
      c ← rec p;
      match c with
      | NotCapable => Some NotCapable
      | Undecidable => aggregate_from true ps
      | Capable => aggregate_from undecidable ps
      end
  end.
Definition aggregate (payloads : list (option TypeNode)) : option Capability := aggregate_from false payloads.

Definition variant_payloads (variants : list (str * list (option TypeNode))) : list (option TypeNode) :=
  concat (map snd variants).

(** A named type without arguments: enum, struct, plain value, unknown. *)
Definition registry_capability (ts base : str) : option Capability :=
  match enums ≫= fun m => find_either m ts base with
  | Some variants => aggregate (variant_payloads variants)
  | None =>
      match structs ≫= fun m => find_either m ts base with
      | Some fields => aggregate (map snd fields)
      | None => Some (if isPlainValueType base then Capable else Undecidable)
      end
  end.

Definition named_capability (t : TypeNode) (ts base : str) : option Capability :=
  match namedTypeArgs t with
  | [] => registry_capability ts base
  | args => aggregate args
  end.

Definition shape_capability (t : TypeNode) (ts base : str) : option Capability :=
  match t with
  | VecType _ el => rec el
  | ArrayType _ el _ => rec el
  | FutureType _ r => rec r
  | TupleTypeNode _ ms => aggregate ms
  | OptionalType _ c => rec c
  | _ => named_capability t ts base
  end.

Definition capability_body (type : option TypeNode) : option Capability :=
  match type with
  | None => Some NotCapable
  | Some (PointerType _ _) => Some NotCapable
  | Some t =>
      let ts := TypeNode_toString t in
      let base := baseNameOf ts in
      if one_of base refusal_wrappers then Some NotCapable
      else if match claims with Some c => asks (handoff c) ts | None => false end then Some Capable
      else if one_of base [$"our"; $"mild"] then
        match namedTypeArgs t with
        | [] => Some Undecidable
        | args => aggregate args
        end
      else shape_capability t ts base
  end.
End Body.

Fixpoint capability (fuel : nat) (type : option TypeNode) : option Capability :=
  match fuel with
  | O => None
  | S f => capability_body (capability f) type
  end.

Definition handoffCapable (fuel : nat) (type : option TypeNode) : option bool :=
  c ← capability fuel type; Some (bool_decide (c = Capable)).
End Walk.

(** ** Reading from another thread *)

Definition reading_claims (claims : option CuratedClaimLookup) : option CuratedClaimLookup :=
  match claims with
  | None => None
  | Some c => Some (mkClaims (Some (fun t => asks (handoff c) t || asks (viewable_claim c) t)) None)
  end.

Definition viewable structs enums (claims : option CuratedClaimLookup) (fuel : nat) (type : option TypeNode)
    : option bool :=
  match type with
  | None => Some false
  | Some t =>
      let ts := TypeNode_toString t in
      if match claims with Some c => asks (viewable_claim c) ts || asks (handoff c) ts | None => false end
      then Some true
      else
        let readClaims := reading_claims claims in
        if one_of (baseNameOf ts) [$"their"; $"loc"] then
          match namedTypeArgs t with
          | [] => Some false
          | a :: _ => handoffCapable structs enums readClaims fuel a
          end
        else handoffCapable structs enums readClaims fuel type
  end.

(** ** The analyzer's view *)

Record ClosureCaptures : Type := mkCaptures {
  captured : list str;
  mutableCaptured : list str;
  ourCaptured : list str
}.

Definition ClosureMutablesBoxed : Z := Z.shiftl 1 5.

Record BoundaryState : Type := mkBoundary {
  analyzer : SemanticAnalyzer;
  structFieldTypes : StructFieldRegistry;
  enumVariantPayloadTypes : EnumPayloadRegistry;
  traitImpls : gmap str (gset str);
  genericTraitImpls : gmap str (gset str);
  closureCaptures_ : gmap Z ClosureCaptures;
  nodeFacts_ : gmap Z Z;
  deferredBoundaryCaptures_ : gmap Z (list str)
}.

Definition hasAspectBinding (st : BoundaryState) (typeStr aspect : str) : bool :=
  match traitImpls st !! typeStr with Some s => bool_decide (aspect ∈ s) | None => false end
  || existsb (fun e : str * gset str => matchesPattern typeStr (fst e) && bool_decide (aspect ∈ snd e))
       (map_to_list (genericTraitImpls st)).

Definition analyzer_claims (st : BoundaryState) : CuratedClaimLookup :=
  mkClaims (Some (fun ts => hasAspectBinding st ts $"Handoff"))
    (Some (fun ts => hasAspectBinding st ts $"Viewable" || hasAspectBinding st ts $"Handoff")).

Definition handoffCapability (st : BoundaryState) (fuel : nat) (type : option TypeNode) : option Capability :=
  match type with
  | None => Some NotCapable
  | Some t =>
      if hasAspectBinding st (TypeNode_toString t) $"Handoff" then Some Capable
      else capability (Some (structFieldTypes st)) (Some (enumVariantPayloadTypes st))
             (Some (analyzer_claims st)) fuel type
  end.

Definition analyzer_viewable (st : BoundaryState) (fuel : nat) (type : option TypeNode) : option bool :=
  match type with
  | None => Some false
  | Some t =>
      let ts := TypeNode_toString t in
      if hasAspectBinding st ts $"Viewable" || hasAspectBinding st ts $"Handoff" then Some true
      else viewable (Some (structFieldTypes st)) (Some (enumVariantPayloadTypes st))
             (Some (analyzer_claims st)) fuel type
  end.

Definition no_captures : ClosureCaptures := mkCaptures [] [] [].
Definition capturesOf (st : BoundaryState) (fe : Node) : ClosureCaptures :=
  default no_captures (closureCaptures_ st !! id_ fe).

Definition hasFact (st : BoundaryState) (n : Node) (bit : Z) : bool :=
  match nodeFacts_ st !! id_ n with Some f => negb (Z.land f bit =? 0)%Z | None => false end.

Definition set_facts m (st : BoundaryState) : BoundaryState :=
  mkBoundary (analyzer st) (structFieldTypes st) (enumVariantPayloadTypes st) (traitImpls st) (genericTraitImpls st)
    (closureCaptures_ st) m (deferredBoundaryCaptures_ st).
Definition set_captures m (st : BoundaryState) : BoundaryState :=
  mkBoundary (analyzer st) (structFieldTypes st) (enumVariantPayloadTypes st) (traitImpls st) (genericTraitImpls st)
    m (nodeFacts_ st) (deferredBoundaryCaptures_ st).

(** [unsigned] facts: 32 bits. *)
Definition markFact (n : option Node) (bit : Z) (on : bool) (st : BoundaryState) : BoundaryState :=
  match n with
  | None => st
  | Some n =>
      let f := default 0%Z (nodeFacts_ st !! id_ n) in
      set_facts (<[id_ n := if on then Z.lor f bit else Z.land f (Z.lxor (Z.ones 32) bit)]> (nodeFacts_ st)) st
  end.

Definition resetCaptures (n : option Node) (st : BoundaryState) : BoundaryState :=
  match n with Some n => set_captures (<[id_ n := no_captures]> (closureCaptures_ st)) st | None => st end.

Definition addCapture (n : option Node) (name : str) (written shared : bool) (st : BoundaryState) : BoundaryState :=
  match n with
  | None => st
  | Some n =>
      let c := default no_captures (closureCaptures_ st !! id_ n) in
      set_captures (<[id_ n := mkCaptures (captured c ++ [name])
                                 (if written then mutableCaptured c ++ [name] else mutableCaptured c)
                                 (if shared then ourCaptured c ++ [name] else ourCaptured c)]> (closureCaptures_ st)) st
  end.

Definition lookup_in (st : BoundaryState) (n : str) : option SymbolInfo :=
  lookup_symbol (scopeGate_ (analyzer st)) (currentScope (analyzer st)) n.

(** Rule (b): a borrow whose strong owner the closure captures as well. *)
Definition mayCrossBoundaryWithRetainedOwner (st : BoundaryState) (fuel : nat) (captureName : str)
    (captureType : option TypeNode) (fe : option Node) : option Capability :=
  match captureType, fe with
  | Some ct, Some fe =>
      if negb (one_of (baseNameOf (TypeNode_toString ct)) [$"their"; $"view"; $"borrow"]) then Some NotCapable
      else
        let caps := capturesOf st fe in
        if one_of captureName (mutableCaptured caps) then Some NotCapable
        else
          match theirVarRoot_ (analyzer st) !! captureName with
          | None => Some NotCapable
          | Some ownerName =>
              if ownerName =s [] then Some NotCapable
              else if negb (one_of ownerName (captured caps) || one_of ownerName (mutableCaptured caps))
              then Some NotCapable
              else
                match lookup_in st ownerName ≫= sym_type with
                | None => Some NotCapable
                | Some ot =>
                    if negb (one_of (baseNameOf (TypeNode_toString ot)) [$"our"; $"my"]) then Some NotCapable
                    else
                      oc ← handoffCapability st fuel (Some ot);
                      match oc with
                      | NotCapable => Some NotCapable
                      | Undecidable => Some Undecidable
                      | Capable =>
                          match namedTypeArgs ct with
                          | [] => Some NotCapable
                          | args => aggregate (handoffCapability st fuel) args
                          end
                      end
                end
          end
  | _, _ => Some NotCapable
  end.

(** ** The check of a spawn site *)

Definition set_analyzer a (st : BoundaryState) : BoundaryState :=
  mkBoundary a (structFieldTypes st) (enumVariantPayloadTypes st) (traitImpls st) (genericTraitImpls st)
    (closureCaptures_ st) (nodeFacts_ st) (deferredBoundaryCaptures_ st).
Definition defer_capture (fe : Node) (cap : str) (st : BoundaryState) : BoundaryState :=
  mkBoundary (analyzer st) (structFieldTypes st) (enumVariantPayloadTypes st) (traitImpls st) (genericTraitImpls st)
    (closureCaptures_ st) (nodeFacts_ st)
    (<[id_ fe := default [] (deferredBoundaryCaptures_ st !! id_ fe) ++ [cap]]> (deferredBoundaryCaptures_ st)).
Definition report (m : str) (site : option Node) (st : BoundaryState) : BoundaryState :=
  set_analyzer (addError m site (analyzer st)) st.

Definition mutable_message (siteName cap : str) : str :=
  siteName ++ $": closure captures '" ++ cap
  ++ $"' mutably -- a mutable capture holds the defining frame's address and cannot cross a thread boundary (not handoff-capable). Capture it by value, or share it as our("
  ++ cap ++ $").".
Definition handoff_message (siteName cap ts : str) : str :=
  siteName ++ $": '" ++ cap ++ $"' is " ++ ts
  ++ $" -- it cannot cross a thread boundary (not handoff-capable). Hand it off as shared ownership (our("
  ++ cap ++ $")) or pass a copy.".

Fixpoint report_mutable (siteName : str) (site : option Node) (caps : list str) (reported : gset str)
    (st : BoundaryState) : gset str * BoundaryState :=
  match caps with
  | [] => (reported, st)
  | cap :: caps' =>
      if bool_decide (cap ∈ reported) then report_mutable siteName site caps' reported st
      else report_mutable siteName site caps' ({[ cap ]} ∪ reported) (report (mutable_message siteName cap) site st)
  end.

(** What becomes of one capture whose type is known. *)
Inductive verdict : Type := Crosses | Defers | Refuses.

Definition capture_verdict (st : BoundaryState) (fuel : nat) (fe : Node) (cap : str) (ty : TypeNode) : option verdict :=
  capC ← handoffCapability st fuel (Some ty);
  if decide (capC = Capable) then Some Crosses
  else
    retained ← mayCrossBoundaryWithRetainedOwner st fuel cap (Some ty) (Some fe);
    if decide (retained = Capable) then Some Crosses
    else if decide (capC = Undecidable \/ retained = Undecidable) then Some Defers
    else Some Refuses.

Definition check_capture (siteName : str) (site : option Node) (fe : Node) (fuel : nat) (cap : str)
    (st : BoundaryState) : option BoundaryState :=
  match lookup_in st cap ≫= sym_type with
  | None => Some st
  | Some ty =>
      v ← capture_verdict st fuel fe cap ty;
      match v with
      | Crosses => Some st
      | Defers => Some (defer_capture fe cap st)
      | Refuses => Some (report (handoff_message siteName cap (TypeNode_toString ty)) site st)
      end
  end.

Fixpoint check_captured (siteName : str) (site : option Node) (fe : Node) (fuel : nat) (caps : list str)
    (reported : gset str) (st : BoundaryState) : option BoundaryState :=
  match caps with
  | [] => Some st
  | cap :: caps' =>
      if bool_decide (cap ∈ reported) then check_captured siteName site fe fuel caps' reported st
      else
        st' ← check_capture siteName site fe fuel cap st;
        check_captured siteName site fe fuel caps' ({[ cap ]} ∪ reported) st'
  end.

Definition checkThreadBoundaryCaptures (st : BoundaryState) (fuel : nat) (fe : option Node) (site : option Node)
    (siteName : str) : option BoundaryState :=
  match fe with
  | None => Some st
  | Some fe =>
      let caps := capturesOf st fe in
      let '(reported, st1) :=
        if hasFact st fe ClosureMutablesBoxed then (∅, st)
        else report_mutable siteName site (mutableCaptured caps) ∅ st in
      check_captured siteName site fe fuel (captured caps) reported st1
  end.

Definition deferredBoundaryCapturesFor (st : BoundaryState) (fe : option Node) : option (list str) :=
  match fe with Some n => deferredBoundaryCaptures_ st !! id_ n | None => None end.

(** ** Loops over payloads *)

Section Aggregate.
Variable rec : option TypeNode -> option Capability.

Lemma aggregate_from_cases u l c : aggregate_from rec u l = Some c ->
  match c with
  | NotCapable => exists p, p ∈ l /\ rec p = Some NotCapable
  | Undecidable => (forall p, p ∈ l -> rec p = Some Capable \/ rec p = Some Undecidable)
      /\ (u = true \/ exists p, p ∈ l /\ rec p = Some Undecidable)
  | Capable => u = false /\ forall p, p ∈ l -> rec p = Some Capable
  end.
Proof.
  revert u. induction l as [|p l IH]; intros u H; cbn in H.
  - injection H as <-. destruct u; split; try done; [set_solver|by left|set_solver].
  - apply bind_Some in H as (d & Hd & H). destruct d.
    + specialize (IH _ H). destruct c; cbn in *.
      * destruct IH as [-> IH]. split; [done|]. intros q [->|Hq]%elem_of_cons; auto.
      * destruct IH as (q & Hq & Eq). exists q. split; [by right|done].
      * destruct IH as [IH1 IH2]. split.
        -- intros q [->|Hq]%elem_of_cons; auto.
        -- destruct IH2 as [->|(q & Hq & Eq)]; [by left|]. right. exists q. split; [by right|done].
    + injection H as <-. exists p. split; [by left|done].
    + specialize (IH _ H). destruct c; cbn in *.
      * by destruct IH.
      * destruct IH as (q & Hq & Eq). exists q. split; [by right|done].
      * destruct IH as [IH1 _]. split.
        -- intros q [->|Hq]%elem_of_cons; auto.
        -- right. exists p. split; [by left|done].
Qed.

Lemma aggregate_total u l : (forall p, p ∈ l -> is_Some (rec p)) -> is_Some (aggregate_from rec u l).
Proof.
  revert u. induction l as [|p l IH]; intros u H; cbn; [eauto|].
  destruct (H p ltac:(by left)) as [c ->]. cbn. destruct c; eauto; apply IH; intros q Hq; apply H; by right.
Qed.
End Aggregate.

(** The order of the payloads does not matter. *)
Lemma aggregate_Permutation rec l l' c c' :
  l ≡ₚ l' -> aggregate rec l = Some c -> aggregate rec l' = Some c' -> c = c'.
Proof.
  intros P H H'. apply aggregate_from_cases in H, H'.
  assert (Hin : forall p, p ∈ l <-> p ∈ l') by (intros p; by rewrite P).
  destruct c, c'; try done; cbn in *;
    repeat match goal with H : _ /\ _ |- _ => destruct H | H : exists _, _ |- _ => destruct H end;
    repeat match goal with H : forall p, p ∈ ?l -> _, H' : ?q ∈ _ |- _ =>
      first [specialize (H q H') | specialize (H q (proj1 (Hin q) H')) | specialize (H q (proj2 (Hin q) H'))] end;
    naive_solver.
Qed.

Lemma aggregate_le rec rec' u l c :
  (forall p d, rec p = Some d -> rec' p = Some d) -> aggregate_from rec u l = Some c -> aggregate_from rec' u l = Some c.
Proof.
  intros H. revert u. induction l as [|p l IH]; intros u E; cbn in *; [done|].
  apply bind_Some in E as (d & Hd & E). rewrite (H _ _ Hd). cbn. destruct d; auto.
Qed.

Lemma aggregate_ext rec rec' l : (forall p, rec' p = rec p) -> aggregate rec' l = aggregate rec l.
Proof.
  intros H. unfold aggregate. generalize false. induction l as [|p l IH]; intros u; cbn; [done|].
  rewrite H. destruct (rec p) as [[]|]; cbn; auto.
Qed.

(** ** The walk as a relation *)

Section Reach.
Variables (structs : option StructFieldRegistry) (enums : option EnumPayloadRegistry)
  (claims : option CuratedClaimLookup).

Abbreviation text t := (TypeNode_toString t).
Abbreviation base t := (baseNameOf (TypeNode_toString t)).

(** Never handed over: nothing, a raw pointer, a unique owner or a borrow. *)
Definition refused (o : option TypeNode) : Prop :=
  match o with
  | None => True
  | Some t => getCategory t = POINTER \/ one_of (base t) refusal_wrappers = true
  end.

(** Accepted by a curated claim. *)
Definition claimed (t : TypeNode) : bool :=
  match claims with Some c => asks (handoff c) (text t) | None => false end.

Definition shared (t : TypeNode) : bool := one_of (base t) [$"our"; $"mild"].

(** What a type consists of, as far as the registries tell. *)
Definition registry_payloads (ts b : str) : option (list (option TypeNode)) :=
  match enums ≫= fun m => find_either m ts b with
  | Some variants => Some (variant_payloads variants)
  | None => match structs ≫= fun m => find_either m ts b with
            | Some fields => Some (map snd fields)
            | None => None
            end
  end.

Definition payloads (t : TypeNode) : option (list (option TypeNode)) :=
  if shared t then match namedTypeArgs t with [] => None | args => Some args end
  else
    match t with
    | VecType _ x | ArrayType _ x _ | FutureType _ x | OptionalType _ x => Some [x]
    | TupleTypeNode _ ms => Some ms
    | _ => match namedTypeArgs t with
           | [] => registry_payloads (text t) (base t)
           | args => Some args
           end
    end.

(** A type that is not taken apart and is not a plain value. *)
Definition unknown (o : option TypeNode) : Prop :=
  match o with
  | None => False
  | Some t => ~ refused (Some t) /\ claimed t = false /\ payloads t = None
              /\ (shared t = true \/ isPlainValueType (base t) = false)
  end.

(** The payloads the walk comes to: through every type that is neither
    refused nor claimed. *)
Inductive reaches : option TypeNode -> option TypeNode -> Prop :=
| reaches_self o : reaches o o
| reaches_payload t ps p u :
    ~ refused (Some t) -> claimed t = false -> payloads t = Some ps -> p ∈ ps ->
    reaches p u -> reaches (Some t) u.

(** One round of the walk, by what it does with the type. *)
Lemma capability_body_eq rec t :
  capability_body structs enums claims rec (Some t) =
    if decide (getCategory t = POINTER) then Some NotCapable
    else if one_of (base t) refusal_wrappers then Some NotCapable
    else if claimed t then Some Capable
    else match payloads t with
         | Some ps => aggregate rec ps
         | None => Some (if shared t then Undecidable else if isPlainValueType (base t) then Capable else Undecidable)
         end.
Proof.
  unfold capability_body, claimed, payloads, shared, shape_capability, named_capability, registry_capability,
    registry_payloads.
  destruct t; cbn [getCategory namedTypeArgs]; rewrite ?decide_True, ?decide_False by done; try done;
    (case_match; [done|]); (case_match; [done|]);
    repeat match goal with |- context [one_of (base _) [$"our"; $"mild"]] => destruct (one_of _ [$"our"; $"mild"]) end;
    try done;
    repeat match goal with
    | |- context [match enums ≫= ?f with _ => _ end] => destruct (enums ≫= f)
    | |- context [match structs ≫= ?f with _ => _ end] => destruct (structs ≫= f)
    | |- context [match ?l with [] => _ | _ :: _ => _ end] => destruct l
    end; try done; unfold aggregate; cbn;
    match goal with |- ?x = _ => destruct x as [[]|]; done end.
Qed.

Lemma capability_body_cases rec t c : capability_body structs enums claims rec (Some t) = Some c ->
  (refused (Some t) /\ c = NotCapable) \/
  (~ refused (Some t) /\ claimed t = true /\ c = Capable) \/
  (~ refused (Some t) /\ claimed t = false /\
   match payloads t with
   | Some ps => aggregate rec ps = Some c
   | None => c = if shared t then Undecidable else if isPlainValueType (base t) then Capable else Undecidable
   end).
Proof.
  intros H. rewrite capability_body_eq in H. unfold refused.
  destruct (decide (getCategory t = POINTER)) as [Hp|Hp]; [left; split; [by left|congruence]|].
  destruct (one_of (base t) refusal_wrappers) eqn:Hw; [left; split; [by right|congruence]|].
  right. assert (~ (getCategory t = POINTER \/ false = true)) by naive_solver.
  destruct (claimed t); [left; split_and!; [done|done|congruence]|right].
  split; [done|]. split; [done|]. destruct (payloads t); [done|congruence].
Qed.
End Reach.

(** ** What a verdict means *)

Definition clear_below structs enums claims (o : option TypeNode) : Prop :=
  forall u, reaches structs enums claims o u -> ~ refused u.

Lemma reaches_inv structs enums claims t u :
  reaches structs enums claims (Some t) u ->
  u = Some t \/ exists ps p, ~ refused (Some t) /\ claimed claims t = false /\ payloads structs enums t = Some ps
    /\ p ∈ ps /\ reaches structs enums claims p u.
Proof. inversion 1; subst; [by left|right; eauto 10]. Qed.

Lemma reaches_parts structs enums claims t ps u :
  payloads structs enums t = Some ps -> reaches structs enums claims (Some t) u ->
  u = Some t \/ exists p, p ∈ ps /\ reaches structs enums claims p u.
Proof. intros Hp [->|(qs & p & _ & _ & E & Hin & R)]%reaches_inv; [by left|]. right. exists p. naive_solver. Qed.

(** The verdict of the walk is exact for the payloads it can see. Only
    when some payload it comes to is missing, a raw pointer or wrapped in
    [my], [their], [loc] or [ptr] does it answer NotCapable; it answers
    Undecidable exactly when no payload is refused but one is an unknown
    name; and it answers Capable only when every payload it comes to is
    neither refused nor unknown. A payload behind a curated claim is not
    looked into. *)
Theorem capability_exact structs enums claims fuel o c :
  capability structs enums claims fuel o = Some c ->
  match c with
  | NotCapable => exists u, reaches structs enums claims o u /\ refused u
  | Undecidable => clear_below structs enums claims o
      /\ exists u, reaches structs enums claims o u /\ unknown structs enums claims u
  | Capable => clear_below structs enums claims o
      /\ forall u, reaches structs enums claims o u -> ~ unknown structs enums claims u
  end.
Proof.
  revert o c. induction fuel as [|f IH]; intros o c H; [done|]. cbn [capability] in H.
  destruct o as [t|]; [|injection H as <-; exists None; split; [constructor|exact I]].
  apply capability_body_cases in H as [[Hr ->]|[(Hr & Hc & ->)|(Hr & Hc & H)]].
  - exists (Some t). split; [constructor|done].
  - split; intros u [->|(? & ? & _ & F & _)]%reaches_inv; try congruence.
    intros (_ & F & _). congruence.
  - destruct (payloads structs enums t) as [ps|] eqn:Hp.
    + apply aggregate_from_cases in H. destruct c.
      * destruct H as [_ H]. split; intros u [->|(p & Hin & R)]%(reaches_parts _ _ _ _ _ _ Hp); auto.
        -- by apply (proj1 (IH _ _ (H p Hin))).
        -- intros (_ & _ & F & _). congruence.
        -- by apply (proj2 (IH _ _ (H p Hin))).
      * destruct H as (p & Hin & (u & Ru & Hu)%IH). exists u. split; [|done].
        by apply (reaches_payload structs enums claims t ps p).
      * destruct H as [H1 [?|(p & Hin & (_ & u & Ru & Hu)%IH)]]; [done|]. split.
        -- intros v [->|(q & Hq & R)]%(reaches_parts _ _ _ _ _ _ Hp); [done|].
           destruct (H1 q Hq) as [E|E]; apply IH in E as [E _]; by apply E.
        -- exists u. split; [|done]. by apply (reaches_payload structs enums claims t ps p).
    + assert (Honly : forall u, reaches structs enums claims (Some t) u -> u = Some t).
      { intros u [->|(? & ? & _ & _ & F & _)]%reaches_inv; [done|congruence]. }
      destruct (shared t) eqn:Hs; [subst c|].
      * split; [by intros u ->%Honly|]. exists (Some t). split; [constructor|]. split_and!; auto.
      * destruct (isPlainValueType _) eqn:Hv; subst c.
        -- split; intros u ->%Honly; [done|]. intros (_ & _ & _ & [F|F]); congruence.
        -- split; [by intros u ->%Honly|]. exists (Some t). split; [constructor|]. split_and!; auto.
Qed.

(** A struct with a shared reference and a raw pointer, for the examples. *)
Definition sample_structs : StructFieldRegistry :=
  {[ $"Handle" := [($"id", Some (named $"Int" [])); ($"raw", Some (PointerType test_node (Some (named $"Int" []))))];
     $"Pixel" := [($"x", Some (named $"Int" [])); ($"y", Some (named $"Int" []))] ]}.

Lemma capability_exact_witness :
  exists u, reaches (Some sample_structs) None None (Some (named $"our" [named $"Handle" []])) u /\ refused u.
Proof.
  exact (capability_exact (Some sample_structs) None None 5 (Some (named $"our" [named $"Handle" []])) NotCapable
    ltac:(vm_compute; reflexivity)).
Defined.

Definition level (c : Capability) : nat := match c with NotCapable => 0 | Undecidable => 1 | Capable => 2 end.

(** [c'] claims at least what [c] claims. *)
Definition claims_le (c c' : option CuratedClaimLookup) : Prop :=
  forall t, claimed c t = true -> claimed c' t = true.

Lemma reaches_claims_le structs enums claims claims' o u :
  claims_le claims claims' -> reaches structs enums claims' o u -> reaches structs enums claims o u.
Proof.
  intros L. induction 1 as [o|t ps p u Hr Hc Hp Hin _ IH]; [constructor|].
  apply (reaches_payload structs enums claims t ps p); auto.
  destruct (claimed claims t) eqn:E; [|done]. apply L in E. congruence.
Qed.

(** A curated claim never makes a type less capable: with more claims the
    verdict moves only upwards. *)
Lemma capability_claims_le structs enums claims claims' f f' o c c' :
  claims_le claims claims' -> capability structs enums claims f o = Some c ->
  capability structs enums claims' f' o = Some c' -> level c <= level c'.
Proof.
  intros L H%capability_exact H'%capability_exact.
  assert (R : forall u, reaches structs enums claims' o u -> reaches structs enums claims o u)
    by (intros u; by apply reaches_claims_le).
  assert (U : forall u, unknown structs enums claims' u -> unknown structs enums claims u).
  { intros [t|]; [|done]. intros (? & Hc & ? & ?). split_and!; auto.
    destruct (claimed claims t) eqn:E; [|done]. apply L in E. congruence. }
  destruct c, c'; cbn; try lia; exfalso.
  - destruct H as [H _], H' as (u & Ru & Fu). by apply (H u); [apply R|].
  - destruct H as [_ H], H' as [_ (u & Ru & Fu)]. apply (H u); [by apply R|by apply U].
  - destruct H as [H _], H' as (u & Ru & Fu). by apply (H u); [apply R|].
Qed.

Lemma reading_claims_le claims : claims_le claims (reading_claims claims).
Proof. intros t. destruct claims as [[h v]|]; [|done]. cbn. by intros ->. Qed.

(** What may be handed over may be read: a handoff-capable type is
    viewable under the same registries and claims. *)
Theorem handoff_implies_viewable structs enums claims f f' o b :
  handoffCapable structs enums claims f o = Some true -> viewable structs enums claims f' o = Some b -> b = true.
Proof.
  unfold handoffCapable. intros (c & Hc & H)%bind_Some. injection H as H%bool_decide_eq_true. subst c.
  destruct o as [t|]; [|destruct f; [done|]; cbn in Hc; congruence].
  unfold viewable. case_match; [congruence|]. pose proof Hc as Hx. apply capability_exact in Hx as [Hx _].
  assert (Hnr : ~ refused (Some t)) by (apply Hx; constructor).
  destruct (one_of (baseNameOf (TypeNode_toString t)) [$"their"; $"loc"]) eqn:Hb.
  { exfalso. apply Hnr. right. unfold one_of in *. cbn [existsb refusal_wrappers] in *.
    apply orb_true_iff in Hb as [->|[->|?]%orb_true_iff]; [by rewrite !orb_true_r..|done]. }
  unfold handoffCapable. intros (c' & Hc' & [= <-])%bind_Some. apply bool_decide_eq_true.
  pose proof (capability_claims_le _ _ _ _ _ _ _ _ _ (reading_claims_le claims) Hc Hc') as L.
  destruct c'; cbn in L; [done|lia|lia].
Qed.

Lemma handoff_implies_viewable_witness :
  viewable (Some sample_structs) None None 5 (Some (named $"Vec" [named $"Pixel" []])) = Some true.
Proof.
  assert (exists b, viewable (Some sample_structs) None None 5 (Some (named $"Vec" [named $"Pixel" []])) = Some b) as [b E]
    by (eexists; vm_compute; reflexivity).
  rewrite E. f_equal. refine (handoff_implies_viewable (Some sample_structs) None None 5 5 _ b _ E).
  vm_compute. reflexivity.
Defined.

(** ** Termination *)

Section RankedRegistries.
Variables (structs : option StructFieldRegistry) (enums : option EnumPayloadRegistry)
  (claims : option CuratedClaimLookup) (rank : str -> nat).

Definition name_weight (t : TypeNode) : nat :=
  let ts := TypeNode_toString t in S (rank ts + rank (baseNameOf ts)).

(** A type without parts weighs what its name stands for. *)
Fixpoint walk_weight (t : TypeNode) : nat :=
  match t with
  | TypeName _ _ [] => name_weight t
  | TypeName _ _ args => S (vector_weight walk_weight args)
  | ArrayType _ x _ | VecType _ x | FutureType _ x | OptionalType _ x => S (pointer_weight walk_weight x)
  | PointerType _ _ | FunctionType _ _ _ => name_weight t
  | TupleTypeNode _ ms => S (vector_weight walk_weight ms)
  end.

(** Every field and payload is lighter than the name it is registered for. *)
Definition registries_ranked : Prop :=
  (forall m key fields f, structs = Some m -> m !! key = Some fields -> f ∈ fields ->
     pointer_weight walk_weight (snd f) <= rank key) /\
  (forall m key variants p, enums = Some m -> m !! key = Some variants -> p ∈ variant_payloads variants ->
     pointer_weight walk_weight p <= rank key).

Hypothesis ranked : registries_ranked.

Lemma vector_walk_weight o l : o ∈ l -> pointer_weight walk_weight o <= vector_weight walk_weight l.
Proof.
  induction l as [|x l IH]; [by intros ?%elem_of_nil|]. intros [->|H]%elem_of_cons; cbn.
  - destruct x; cbn; lia.
  - specialize (IH H). lia.
Qed.

Lemma registry_payload_weight t ps p :
  registry_payloads structs enums (TypeNode_toString t) (baseNameOf (TypeNode_toString t)) = Some ps -> p ∈ ps ->
  pointer_weight walk_weight p < name_weight t.
Proof.
  destruct ranked as [Rs Re]. unfold registry_payloads, name_weight, find_either. intros H Hin.
  destruct enums as [me|]; cbn in H.
  - destruct (me !! TypeNode_toString t) as [vs|] eqn:E1.
    { injection H as <-. pose proof (Re _ _ _ _ eq_refl E1 Hin). lia. }
    destruct (me !! baseNameOf _) as [vs|] eqn:E2.
    { injection H as <-. pose proof (Re _ _ _ _ eq_refl E2 Hin). lia. }
    destruct structs as [ms|]; cbn in H; [|done].
    destruct (ms !! TypeNode_toString t) as [fs|] eqn:E3; [|destruct (ms !! baseNameOf _) as [fs|] eqn:E4; [|done]];
      injection H as <-; apply list_elem_of_fmap in Hin as (f & -> & Hf);
      [pose proof (Rs _ _ _ _ eq_refl E3 Hf)|pose proof (Rs _ _ _ _ eq_refl E4 Hf)]; lia.
  - destruct structs as [ms|]; cbn in H; [|done].
    destruct (ms !! TypeNode_toString t) as [fs|] eqn:E3; [|destruct (ms !! baseNameOf _) as [fs|] eqn:E4; [|done]];
      injection H as <-; apply list_elem_of_fmap in Hin as (f & -> & Hf);
      [pose proof (Rs _ _ _ _ eq_refl E3 Hf)|pose proof (Rs _ _ _ _ eq_refl E4 Hf)]; lia.
Qed.

Lemma payload_weight t ps p : payloads structs enums t = Some ps -> p ∈ ps ->
  pointer_weight walk_weight p < walk_weight t.
Proof.
  intros H Hin. unfold payloads in H.
  destruct t as [n i args| | | | | | |]; cbn [namedTypeArgs] in H; try (by destruct (shared _));
    try (destruct (shared _); [done|]); try (injection H as <-; cbn [walk_weight]).
  - destruct args as [|a args].
    + destruct (shared _); [done|]. by apply (registry_payload_weight _ _ _ H).
    + assert (ps = a :: args) as -> by (destruct (shared _); congruence).
      apply vector_walk_weight in Hin. cbn [walk_weight]. lia.
  - by apply (registry_payload_weight _ _ _ H).
  - apply list_elem_of_singleton in Hin as ->. lia.
  - apply list_elem_of_singleton in Hin as ->. lia.
  - apply list_elem_of_singleton in Hin as ->. lia.
  - by apply (registry_payload_weight _ _ _ H).
  - apply list_elem_of_singleton in Hin as ->. lia.
  - apply vector_walk_weight in Hin. lia.
Qed.
Lemma capability_total fuel o :
  pointer_weight walk_weight o < fuel -> is_Some (capability structs enums claims fuel o).
Proof.
  revert o. induction fuel as [|f IH]; intros o H; [lia|]. cbn [capability].
  destruct o as [t|]; [|cbn; eauto]. rewrite capability_body_eq. do 3 (case_match; [eauto|]).
  destruct (payloads structs enums t) as [ps|] eqn:Hp; [|eauto].
  apply aggregate_total. intros p Hin. apply IH. pose proof (payload_weight _ _ _ Hp Hin). cbn in H. lia.
Qed.
End RankedRegistries.

Lemma capability_mono structs enums claims f f' o c :
  f <= f' -> capability structs enums claims f o = Some c -> capability structs enums claims f' o = Some c.
Proof.
  intros Hf. revert f' Hf o c. induction f as [|f IH]; intros f' Hf o c H; [done|].
  destruct f' as [|f']; [lia|]. cbn [capability] in *. destruct o as [t|]; [|done].
  rewrite capability_body_eq in H |- *. do 3 (case_match; [done|]). case_match; [|done].
  eapply aggregate_le; [|exact H]. intros p d. apply IH. lia.
Qed.

(** While no struct or enum contains itself through its fields or
    payloads (some rank decreases from every registered name to its parts),
    the walk ends on every type, with one verdict for every large enough
    fuel. *)
Theorem capability_terminates structs enums claims rank o :
  registries_ranked structs enums rank ->
  exists c n, forall fuel, n <= fuel -> capability structs enums claims fuel o = Some c.
Proof.
  intros R. destruct (capability_total structs enums claims rank R _ o (Nat.lt_succ_diag_r _)) as [c Hc].
  exists c, (S (pointer_weight (walk_weight rank) o)). intros fuel Hf. by apply (capability_mono _ _ _ _ _ _ _ Hf Hc).
Qed.

Definition sample_rank (s : str) : nat := if one_of s [$"Handle"; $"Pixel"] then 1 else 0.

Lemma sample_structs_ranked : registries_ranked (Some sample_structs) None sample_rank.
Proof.
  split; [|done]. intros m key fields f [= <-] L Hf. unfold sample_structs in L.
  apply lookup_insert_Some in L as [[<- <-]|[_ [<- <-]%lookup_singleton_Some]];
    rewrite !elem_of_cons, elem_of_nil in Hf; destruct Hf as [->|[->|[]]]; vm_compute; lia.
Qed.

Lemma capability_terminates_witness :
  exists c n, forall fuel, n <= fuel ->
    capability (Some sample_structs) None None fuel (Some (named $"Vec" [named $"Handle" []])) = Some c.
Proof. exact (capability_terminates (Some sample_structs) None None sample_rank _ sample_structs_ranked). Defined.

(** A type with one part ends no sooner than its part. *)
Lemma capability_single structs enums fuel t p :
  getCategory t <> POINTER -> one_of (baseNameOf (TypeNode_toString t)) refusal_wrappers = false ->
  payloads structs enums t = Some [p] -> capability structs enums None fuel p = None ->
  capability structs enums None (S fuel) (Some t) = None.
Proof.
  intros Hc Hw Hp H. cbn [capability]. rewrite capability_body_eq, decide_False, Hw, Hp by done.
  unfold aggregate. cbn [claimed aggregate_from]. by rewrite H.
Qed.

(** The walk has no record of visited types: a struct that refers to
    itself through a shared owner, such as a list node with a field
    [next: our<Node>], is walked forever; no amount of fuel gives a verdict,
    for the struct, for [our<Node>] and for any vector of them. *)
Theorem recursive_struct_diverges structs fuel :
  structs !! $"Node" = Some [($"next", Some (named $"our" [named $"Node" []]))] ->
  capability (Some structs) None None fuel (Some (named $"Node" [])) = None
  /\ capability (Some structs) None None fuel (Some (named $"our" [named $"Node" []])) = None
  /\ capability (Some structs) None None fuel (Some (VecType test_node (Some (named $"Node" [])))) = None.
Proof.
  intros H. assert (P : payloads (Some structs) None (named $"Node" []) = Some [Some (named $"our" [named $"Node" []])]).
  { transitivity (registry_payloads (Some structs) None $"Node" $"Node"); [reflexivity|].
    cbv [registry_payloads find_either]. cbn [mbind option_bind]. by rewrite H. }
  assert (D : forall fuel, capability (Some structs) None None fuel (Some (named $"Node" [])) = None
    /\ capability (Some structs) None None fuel (Some (named $"our" [named $"Node" []])) = None).
  { induction fuel0 as [|f [IH1 IH2]]; [done|].
    split; [by apply (capability_single _ _ _ _ (Some (named $"our" [named $"Node" []])))|].
    by apply (capability_single _ _ _ _ (Some (named $"Node" []))). }
  destruct (D fuel) as [D1 D2]. split_and!; [done..|]. destruct fuel as [|f]; [done|].
  by apply (capability_single _ _ _ _ (Some (named $"Node" []))), D.
Qed.

Lemma recursive_struct_diverges_witness :
  capability (Some {[ $"Node" := [($"next", Some (named $"our" [named $"Node" []]))] ]}) None None 1000
    (Some (named $"Node" [])) = None.
Proof.
  exact (proj1 (recursive_struct_diverges {[ $"Node" := [($"next", Some (named $"our" [named $"Node" []]))] ]} 1000
    (lookup_singleton_eq _ _))).
Defined.

(** ** Generic types *)

Lemma capability_generic structs enums claims f n i args :
  args <> [] -> one_of (baseNameOf (TypeNode_toString (TypeName n i args))) refusal_wrappers = false ->
  claimed claims (TypeName n i args) = false ->
  capability structs enums claims (S f) (Some (TypeName n i args)) = aggregate (capability structs enums claims f) args.
Proof.
  intros Ha Hw Hc. cbn [capability]. rewrite capability_body_eq, decide_False, Hw, Hc by done.
  unfold payloads. cbn [namedTypeArgs]. destruct args; [done|]. by destruct (shared _).
Qed.

(** A type written with generic arguments is judged by the arguments
    alone. The registered fields of a generic struct and the payloads of a
    generic enum are never consulted, so a [Cell<Int>] whose only field is a
    raw pointer crosses, and so does a type node named [view<Int>] or
    [borrow<Int>], although the same borrow as [their<Int>] is refused. *)
Theorem generic_judged_by_arguments structs enums f w :
  structs !! $"Int" = None -> enums !! $"Int" = None -> w ∈ [$"Cell"; $"view"; $"borrow"] ->
  capability (Some structs) (Some enums) None (S (S f)) (Some (named w [named $"Int" []])) = Some Capable
  /\ capability (Some structs) (Some enums) None (S (S f)) (Some (named $"their" [named $"Int" []])) = Some NotCapable.
Proof.
  intros Hs He Hw. split; [|done].
  assert (I : capability (Some structs) (Some enums) None (S f) (Some (named $"Int" [])) = Some Capable).
  { cbn [capability]. rewrite capability_body_eq.
    change (payloads _ _ _) with (registry_payloads (Some structs) (Some enums) $"Int" $"Int").
    cbv [registry_payloads find_either]. cbn [mbind option_bind]. by rewrite Hs, He. }
  rewrite !elem_of_cons, elem_of_nil in Hw. destruct Hw as [->|[->|[->|[]]]];
    unfold named at 1; (rewrite capability_generic; [|done|reflexivity|reflexivity]);
    unfold aggregate; cbn [map aggregate_from]; by rewrite I.
Qed.

Definition cell_structs : StructFieldRegistry :=
  {[ $"Cell" := [($"raw", Some (PointerType test_node (Some (named $"Int" []))))] ]}.

Lemma generic_judged_by_arguments_witness :
  capability (Some cell_structs) (Some ∅) None 5 (Some (named $"Cell" [named $"Int" []])) = Some Capable
  /\ capability (Some cell_structs) (Some ∅) None 5 (Some (named $"their" [named $"Int" []])) = Some NotCapable.
Proof.
  refine (generic_judged_by_arguments cell_structs ∅ 3 $"Cell" _ _ _); [by apply lookup_singleton_ne|done|by left].
Defined.

(** ** Borrows with a retained owner *)

Definition verdict_on (st : BoundaryState) (fuel : nat) (fe : Node) (cap : str) : option verdict :=
  match lookup_in st cap ≫= sym_type with Some ty => capture_verdict st fuel fe cap ty | None => Some Crosses end.

Lemma one_of_elem n l : one_of n l = true <-> n ∈ l.
Proof.
  unfold one_of. rewrite existsb_exists. split.
  - intros (x & Hx & ->%streq_true). by apply list_elem_of_In.
  - intros H. exists n. split; [by apply list_elem_of_In|]. by apply streq_true.
Qed.

Lemma my_owner_refused structs enums claims f t :
  baseNameOf (TypeNode_toString t) = $"my" -> capability structs enums claims (S f) (Some t) = Some NotCapable.
Proof. intros H. cbn [capability]. rewrite capability_body_eq, H. by destruct (decide _). Qed.

(** When a borrow is let across because its owner travels with the
    closure, the closure captures that owner, does not write the borrow, and
    every argument of the borrow's type is handoff-capable; the owner is an
    [our<X>] or a type with a Handoff binding of its own. An owner [my<X>]
    without such a binding never keeps a borrow alive across the boundary. *)
Theorem retained_owner_shared st fuel cap ct fe :
  mayCrossBoundaryWithRetainedOwner st fuel cap (Some ct) (Some fe) = Some Capable ->
  exists owner ot,
    theirVarRoot_ (analyzer st) !! cap = Some owner
    /\ (owner ∈ captured (capturesOf st fe) \/ owner ∈ mutableCaptured (capturesOf st fe))
    /\ cap ∉ mutableCaptured (capturesOf st fe)
    /\ lookup_in st owner ≫= sym_type = Some ot
    /\ handoffCapability st fuel (Some ot) = Some Capable
    /\ (baseNameOf (TypeNode_toString ot) = $"our" \/ hasAspectBinding st (TypeNode_toString ot) $"Handoff" = true)
    /\ forall a, a ∈ namedTypeArgs ct -> handoffCapability st fuel a = Some Capable.
Proof.
  unfold mayCrossBoundaryWithRetainedOwner. case_match; [done|].
  destruct (one_of cap _) eqn:Hm; [done|]. destruct (theirVarRoot_ _ !! cap) as [owner|]; [|done].
  destruct (owner =s []); [done|]. destruct (one_of owner _ || _) eqn:Hcap; [|done]. cbn [negb].
  destruct (lookup_in st owner ≫= sym_type) as [ot|] eqn:Hl; [|done].
  destruct (one_of (baseNameOf _) [$"our"; $"my"]) eqn:Hb; [|done]. cbn [negb].
  intros (c & Hc & Hr)%bind_Some. destruct c; [|done..]. exists owner, ot. split_and!; try done.
  - by apply orb_true_iff in Hcap as [?%one_of_elem|?%one_of_elem]; [left|right].
  - by intros ?%one_of_elem; congruence.
  - apply one_of_elem in Hb. rewrite !elem_of_cons, elem_of_nil in Hb. destruct Hb as [?|[Hy|[]]]; [by left|right].
    unfold handoffCapability in Hc. destruct (hasAspectBinding _ _ _); [done|].
    destruct fuel; [done|]. by rewrite my_owner_refused in Hc.
  - destruct (namedTypeArgs ct); [done|]. by apply aggregate_from_cases in Hr as [_ Hr].
Qed.

(** ** A spawn site *)

(** The parts of the state the verdicts read. *)
Definition same_view (st st' : BoundaryState) : Prop :=
  currentScope (analyzer st') = currentScope (analyzer st)
  /\ scopeGate_ (analyzer st') = scopeGate_ (analyzer st)
  /\ theirVarRoot_ (analyzer st') = theirVarRoot_ (analyzer st)
  /\ structFieldTypes st' = structFieldTypes st
  /\ enumVariantPayloadTypes st' = enumVariantPayloadTypes st
  /\ traitImpls st' = traitImpls st
  /\ genericTraitImpls st' = genericTraitImpls st
  /\ closureCaptures_ st' = closureCaptures_ st.

Lemma same_view_handoff st st' fuel o : same_view st st' -> handoffCapability st' fuel o = handoffCapability st fuel o.
Proof.
  intros (_ & _ & _ & Hs & He & Ht & Hg & _). unfold handoffCapability, analyzer_claims, hasAspectBinding.
  by rewrite Hs, He, Ht, Hg.
Qed.

Lemma same_view_lookup st st' n : same_view st st' -> lookup_in st' n = lookup_in st n.
Proof. intros (Hc & Hg & _). unfold lookup_in. by rewrite Hc, Hg. Qed.

Lemma same_view_retained st st' fuel cap ct fe : same_view st st' ->
  mayCrossBoundaryWithRetainedOwner st' fuel cap ct fe = mayCrossBoundaryWithRetainedOwner st fuel cap ct fe.
Proof.
  intros V. pose proof V as (_ & _ & Hr & _ & _ & _ & _ & Hc).
  unfold mayCrossBoundaryWithRetainedOwner, capturesOf. rewrite Hr, Hc.
  destruct ct as [ct|], fe as [fe|]; [|done..].
  repeat (case_match; [done|]). case_match; [|done]. repeat (case_match; [done|]).
  rewrite (same_view_lookup _ _ _ V). case_match; [|done]. case_match; [done|].
  rewrite (same_view_handoff _ _ _ _ V). destruct (handoffCapability st fuel _) as [[]|]; cbn [mbind option_bind]; try done.
  case_match; [done|]. apply aggregate_ext. intros p. by rewrite (same_view_handoff _ _ _ _ V).
Qed.

Lemma same_view_verdict st st' fuel fe cap : same_view st st' -> verdict_on st' fuel fe cap = verdict_on st fuel fe cap.
Proof.
  intros V. unfold verdict_on, capture_verdict. rewrite (same_view_lookup _ _ _ V). case_match; [|done].
  rewrite (same_view_handoff _ _ _ _ V), (same_view_retained _ _ _ _ _ _ V). done.
Qed.

Definition deferred_of (st : BoundaryState) (fe : Node) : list str := default [] (deferredBoundaryCapturesFor st (Some fe)).

Abbreviation reports st := (errors (analyzer st)).

Lemma report_view m site st : same_view st (report m site st).
Proof. done. Qed.
Lemma defer_view fe cap st : same_view st (defer_capture fe cap st).
Proof. done. Qed.
Lemma same_view_trans st1 st2 st3 : same_view st1 st2 -> same_view st2 st3 -> same_view st1 st3.
Proof. unfold same_view. naive_solver congruence. Qed.

(** One capture: reported, deferred or let through, by its verdict. *)
Lemma check_capture_cases siteName site fe fuel cap st st' :
  check_capture siteName site fe fuel cap st = Some st' ->
  exists v, verdict_on st fuel fe cap = Some v /\
    match v with
    | Crosses => st' = st
    | Defers => st' = defer_capture fe cap st
    | Refuses => exists m, st' = report m site st
    end.
Proof.
  unfold check_capture, verdict_on. case_match; [|intros [= <-]; by exists Crosses].
  intros (v & Hv & E)%bind_Some. exists v. split; [done|]. destruct v; injection E as <-; eauto.
Qed.

Lemma deferred_report m site st fe : deferred_of (report m site st) fe = deferred_of st fe.
Proof. done. Qed.
Lemma deferred_defer fe cap st : deferred_of (defer_capture fe cap st) fe = deferred_of st fe ++ [cap].
Proof. unfold deferred_of, deferredBoundaryCapturesFor. cbn. by rewrite lookup_insert_eq. Qed.
Lemma reports_report m site st : exists e, reports (report m site st) = reports st ++ [e].
Proof. cbn. eauto. Qed.

(** The loop over the captures: what it reports and what it leaves to code
    generation. *)
Record loop_outcome (fe : Node) (fuel : nat) (caps : list str) (st st' : BoundaryState) : Prop := {
  outcome_view : same_view st st';
  outcome_total : forall cap, cap ∈ caps -> is_Some (verdict_on st fuel fe cap);
  outcome_errors : exists es, reports st' = reports st ++ es
    /\ (es = [] <-> forall cap, cap ∈ caps -> verdict_on st fuel fe cap <> Some Refuses);
  outcome_deferred : forall cap, cap ∈ deferred_of st' fe <->
    cap ∈ deferred_of st fe \/ (cap ∈ caps /\ verdict_on st fuel fe cap = Some Defers)
}.

Lemma loop_outcome_nil fe fuel st : loop_outcome fe fuel [] st st.
Proof. constructor; [done|set_solver| |set_solver]. exists []. rewrite app_nil_r. set_solver. Qed.

Lemma loop_outcome_ext fe fuel caps caps' st st' :
  (forall c, c ∈ caps <-> c ∈ caps') -> loop_outcome fe fuel caps st st' -> loop_outcome fe fuel caps' st st'.
Proof.
  intros Hin [V T (es & E & He) D]. constructor; [done|set_solver| |set_solver].
  exists es. split; [done|]. rewrite He. set_solver.
Qed.

Lemma loop_outcome_cons siteName site fe fuel cap caps st st1 st' :
  check_capture siteName site fe fuel cap st = Some st1 -> loop_outcome fe fuel caps st1 st' ->
  loop_outcome fe fuel (cap :: caps) st st'.
Proof.
  intros (v & Hv & C)%check_capture_cases [V T (es & E & He) D].
  assert (V1 : same_view st st1) by (destruct v; [by subst|by subst|by destruct C as [? ->]]).
  assert (Vd : forall c, verdict_on st1 fuel fe c = verdict_on st fuel fe c) by (intros; by apply same_view_verdict).
  setoid_rewrite Vd in T. setoid_rewrite Vd in He. setoid_rewrite Vd in D. constructor.
  - by eapply same_view_trans.
  - intros c [->|Hc]%elem_of_cons; eauto.
  - destruct v.
    + subst st1. exists es. split; [done|]. rewrite He. setoid_rewrite elem_of_cons. naive_solver congruence.
    + subst st1. exists es. split; [done|]. rewrite He. setoid_rewrite elem_of_cons. naive_solver congruence.
    + destruct C as [m ->]. destruct (reports_report m site st) as [e Ee]. rewrite Ee, <- app_assoc in E.
      exists ([e] ++ es). split; [done|]. split; [done|]. intros F. exfalso. by apply (F cap); [left|].
  - intros c. rewrite D, elem_of_cons. destruct v; [subst st1|subst st1; rewrite deferred_defer, elem_of_app, list_elem_of_singleton|
      destruct C as [m ->]; rewrite deferred_report]; naive_solver congruence.
Qed.

Lemma check_captured_outcome siteName site fe fuel caps reported st st' :
  check_captured siteName site fe fuel caps reported st = Some st' ->
  loop_outcome fe fuel (filter (fun c => c ∉ reported) caps) st st'.
Proof.
  revert reported st. induction caps as [|cap caps IH]; intros reported st H; cbn in H.
  { injection H as <-. apply loop_outcome_nil. }
  rewrite filter_cons. case_bool_decide as Hin.
  - rewrite decide_False by tauto. by apply IH.
  - rewrite decide_True by done. apply bind_Some in H as (st1 & H1 & H). apply IH in H.
    eapply (loop_outcome_ext _ _ (cap :: filter (fun c => c ∉ {[cap]} ∪ reported) caps)); [|by eapply loop_outcome_cons].
    intros c. rewrite !elem_of_cons, !list_elem_of_filter. destruct (decide (c = cap)); set_solver.
Qed.

Lemma report_mutable_outcome siteName site caps reported st r st1 :
  report_mutable siteName site caps reported st = (r, st1) ->
  same_view st st1 /\ (forall fe, deferred_of st1 fe = deferred_of st fe)
  /\ (forall c, c ∈ r <-> c ∈ reported \/ c ∈ caps)
  /\ exists es, reports st1 = reports st ++ es /\ (es = [] <-> forall c, c ∈ caps -> c ∈ reported).
Proof.
  revert reported st. induction caps as [|cap caps IH]; intros reported st H; cbn in H.
  - injection H as <- <-. split_and!; [done|done|set_solver|]. exists []. rewrite app_nil_r. set_solver.
  - case_bool_decide as Hin; apply IH in H as (V & D & R & es & E & He).
    + split_and!; [done..| |exists es; split; [done|]; rewrite He].
      * intros c. rewrite R, elem_of_cons. split; [tauto|]. intros [?|[->|?]]; auto.
      * setoid_rewrite elem_of_cons. split; [intros F c [->|?]; auto|auto].
    + split_and!; [by eapply same_view_trans; [apply (report_view (mutable_message siteName cap) site)|]|done| |].
      * intros c. rewrite R, elem_of_union, elem_of_singleton, elem_of_cons. tauto.
      * destruct (reports_report (mutable_message siteName cap) site st) as [e Ee]. rewrite Ee, <- app_assoc in E.
        exists ([e] ++ es). split; [done|]. split; [done|]. intros F. exfalso. apply Hin, F. by left.
Qed.

(** ** What may cross, stated by what a type reaches

    The verdict on a type, by the payloads it comes to and the curated claims of
    the analyzer; then the five conditions of doc/THREAD_BOUNDARY_SCOPE.md. *)

Section Contract.
Variables (st : BoundaryState) (fe : Node).

Abbreviation structs := (Some (structFieldTypes st)).
Abbreviation enums := (Some (enumVariantPayloadTypes st)).
Abbreviation claims := (Some (analyzer_claims st)).
Abbreviation type_of cap := (lookup_in st cap ≫= sym_type).

(** A type with a Handoff binding; or no payload is refused or unknown. *)
Definition may_hand_over (o : option TypeNode) : Prop :=
  match o with
  | None => False
  | Some t => hasAspectBinding st (TypeNode_toString t) $"Handoff" = true
      \/ (clear_below structs enums claims o /\ forall u, reaches structs enums claims o u -> ~ unknown structs enums claims u)
  end.

(** No payload is refused, but one is a name no registry knows. *)
Definition undetermined (o : option TypeNode) : Prop :=
  match o with
  | None => False
  | Some t => hasAspectBinding st (TypeNode_toString t) $"Handoff" = false
      /\ clear_below structs enums claims o /\ exists u, reaches structs enums claims o u /\ unknown structs enums claims u
  end.

(** A borrow the closure does not write, with a strong owner it captures too. *)
Definition borrowed_from (cap : str) (ct ot : TypeNode) : Prop :=
  baseNameOf (TypeNode_toString ct) ∈ [$"their"; $"view"; $"borrow"]
  /\ cap ∉ mutableCaptured (capturesOf st fe)
  /\ exists owner, theirVarRoot_ (analyzer st) !! cap = Some owner /\ owner <> []
       /\ (owner ∈ captured (capturesOf st fe) \/ owner ∈ mutableCaptured (capturesOf st fe))
       /\ type_of owner = Some ot /\ baseNameOf (TypeNode_toString ot) ∈ [$"our"; $"my"].

(** Owner and borrowed payload may be handed over; or nothing speaks against it
    but something is unknown. *)
Definition kept_by_owner (cap : str) (ct : TypeNode) : Prop :=
  exists ot, borrowed_from cap ct ot /\ may_hand_over (Some ot)
    /\ namedTypeArgs ct <> [] /\ forall a, a ∈ namedTypeArgs ct -> may_hand_over a.
Definition perhaps_kept (cap : str) (ct : TypeNode) : Prop :=
  exists ot, borrowed_from cap ct ot
    /\ (undetermined (Some ot)
        \/ may_hand_over (Some ot) /\ (forall a, a ∈ namedTypeArgs ct -> may_hand_over a \/ undetermined a)
           /\ exists a, a ∈ namedTypeArgs ct /\ undetermined a).

(** A capture whose type is not known here is let through. *)
Definition may_cross (cap : str) : Prop :=
  forall ty, type_of cap = Some ty -> may_hand_over (Some ty) \/ kept_by_owner cap ty.
Definition left_to_codegen (cap : str) : Prop :=
  exists ty, type_of cap = Some ty /\ ~ may_hand_over (Some ty) /\ ~ kept_by_owner cap ty
    /\ (undetermined (Some ty) \/ perhaps_kept cap ty).

(** The three answers are these, and exclude each other. *)
Definition described (o : option TypeNode) (c : Capability) : Prop :=
  match c with
  | Capable => may_hand_over o
  | Undecidable => ~ may_hand_over o /\ undetermined o
  | NotCapable => ~ may_hand_over o /\ ~ undetermined o
  end.

Lemma hand_over_exclusive o : may_hand_over o -> ~ undetermined o.
Proof. destruct o as [t|]; [|done]. intros [?|[_ N]] (? & _ & u & R & U); [congruence|by apply (N u)]. Qed.

Lemma handoff_described fuel o c : handoffCapability st fuel o = Some c -> described o c.
Proof.
  unfold handoffCapability, described, may_hand_over, undetermined. destruct o as [t|]; [|intros [= <-]; tauto].
  destruct (hasAspectBinding st _ _) eqn:H; [intros [= <-]; by left|].
  intros E%capability_exact. destruct c.
  - by right.
  - destruct E as (u & R & F). split; [intros [?|[C _]]|intros (_ & C & _)]; [done|by apply (C u)..].
  - destruct E as [C (u & R & U)]. split; [intros [?|[_ N]]|by eauto]; [done|by apply (N u)].
Qed.

Lemma payloads_described fuel args r : aggregate (handoffCapability st fuel) args = Some r ->
  match r with
  | Capable => forall a, a ∈ args -> may_hand_over a
  | Undecidable => (forall a, a ∈ args -> may_hand_over a \/ undetermined a) /\ exists a, a ∈ args /\ undetermined a
  | NotCapable => exists a, a ∈ args /\ ~ may_hand_over a /\ ~ undetermined a
  end.
Proof.
  intros H%aggregate_from_cases. destruct r.
  - destruct H as [_ H]. intros a I. apply (handoff_described fuel a Capable). auto.
  - destruct H as (a & I & E%handoff_described). by exists a.
  - destruct H as [H [?|(a & I & E%handoff_described)]]; [done|]. split; [|exists a; by split; [|apply E]].
    intros q I'. destruct (H q I') as [E'|E']; apply handoff_described in E'; [by left|right; apply E'].
Qed.

Lemma one_of_false n l : one_of n l = false <-> n ∉ l.
Proof. rewrite <- one_of_elem. by destruct (one_of n l). Qed.

(** The tests of the code find the owner of [borrowed_from], if there is one. *)
Lemma retained_owner fuel cap ct r : mayCrossBoundaryWithRetainedOwner st fuel cap (Some ct) (Some fe) = Some r ->
  (r = NotCapable /\ forall ot, ~ borrowed_from cap ct ot)
  \/ exists ot, borrowed_from cap ct ot /\ (forall ot', borrowed_from cap ct ot' -> ot' = ot)
     /\ exists oc, handoffCapability st fuel (Some ot) = Some oc
       /\ match oc with
          | Capable => match namedTypeArgs ct with [] => Some NotCapable | args => aggregate (handoffCapability st fuel) args end
          | _ => Some oc
          end = Some r.
Proof.
  unfold mayCrossBoundaryWithRetainedOwner, borrowed_from. intros H.
  destruct (one_of (baseNameOf (TypeNode_toString ct)) _) eqn:Hb; [apply one_of_elem in Hb|apply one_of_false in Hb; left; naive_solver]; cbn [negb] in H.
  destruct (one_of cap _) eqn:Hm; [apply one_of_elem in Hm; left; naive_solver|apply one_of_false in Hm].
  destruct (theirVarRoot_ _ !! cap) as [owner|]; [|left; naive_solver].
  destruct (owner =s []) eqn:He; [apply streq_true in He; left; naive_solver|apply streq_false in He].
  destruct (one_of owner (captured _) || _) eqn:Hc; cbn [negb] in H.
  2: { apply orb_false_iff in Hc as [C1%one_of_false C2%one_of_false]. left. naive_solver. }
  destruct (type_of owner) as [ot|] eqn:Ht; [|left; naive_solver congruence].
  destruct (one_of (baseNameOf (TypeNode_toString ot)) _) eqn:Hs; [apply one_of_elem in Hs|apply one_of_false in Hs; left; naive_solver congruence]; cbn [negb] in H.
  right. exists ot. apply orb_true_iff in Hc. rewrite !one_of_elem in Hc.
  split; [by eauto 10|]. split; [naive_solver congruence|].
  apply bind_Some in H as (oc & Ho & H). exists oc. split; [done|]. by destruct oc.
Qed.

Lemma retained_described fuel cap ct r : mayCrossBoundaryWithRetainedOwner st fuel cap (Some ct) (Some fe) = Some r ->
  match r with
  | Capable => kept_by_owner cap ct
  | Undecidable => ~ kept_by_owner cap ct /\ perhaps_kept cap ct
  | NotCapable => ~ kept_by_owner cap ct /\ ~ perhaps_kept cap ct
  end.
Proof.
  unfold kept_by_owner, perhaps_kept.
  intros [[-> N]|(ot & B & U & oc & Ho%handoff_described & H)]%retained_owner; [by split; intros (ot & B & _); apply (N ot)|].
  destruct oc; [|injection H as <-; split; intros (ot' & B' & R); rewrite (U _ B') in R; destruct Ho; tauto
    |injection H as <-; destruct Ho; split; [intros (ot' & B' & R); rewrite (U _ B') in R; tauto|by exists ot; split; [|left]]].
  change (may_hand_over (Some ot)) in Ho; pose proof (hand_over_exclusive _ Ho) as Nu. destruct (namedTypeArgs ct) as [|a args] eqn:A.
  - injection H as <-. split; [naive_solver|]. intros (ot' & B' & R). rewrite (U _ B') in R. set_solver.
  - apply payloads_described in H. destruct r.
    + exists ot. by split_and!.
    + destruct H as (p & I & N1 & N2). split; [naive_solver|]. intros (ot' & B' & [R|(_ & R & _)]); [rewrite (U _ B') in R; tauto|destruct (R p I); tauto].
    + destruct H as (H1 & p & I & Up). split; [|exists ot; naive_solver].
      intros (ot' & B' & _ & _ & R). by apply (hand_over_exclusive p); [apply R|].
Qed.

(** What the code decides about a capture is what the contract says. *)
Lemma verdict_described fuel cap v : verdict_on st fuel fe cap = Some v ->
  match v with
  | Crosses => may_cross cap
  | Defers => left_to_codegen cap
  | Refuses => ~ may_cross cap /\ ~ left_to_codegen cap
  end.
Proof.
  unfold verdict_on, may_cross, left_to_codegen. destruct (type_of cap) as [ty|]; [|by intros [= <-]].
  unfold capture_verdict. intros (c & Hc%handoff_described & H)%bind_Some.
  case_decide as C; [subst c; injection H as <-; intros ? [= <-]; by left|].
  apply bind_Some in H as (r & Hr%retained_described & H). case_decide as R; [subst r; injection H as <-; intros ? [= <-]; by right|].
  assert (NM : ~ may_hand_over (Some ty)) by (destruct c; [by destruct C|apply Hc..]).
  assert (NK : ~ kept_by_owner cap ty) by (destruct r; [by destruct R|apply Hr..]).
  assert (U : undetermined (Some ty) <-> c = Undecidable) by (destruct c; [by destruct C|destruct Hc; by split..]).
  assert (P : perhaps_kept cap ty <-> r = Undecidable) by (destruct r; [by destruct R|destruct Hr; by split..]).
  case_decide as D; injection H as <-.
  - exists ty. by rewrite U, P.
  - split; [intros M; by destruct (M ty eq_refl)|]. intros (ty' & [= <-] & _ & _ & X). by rewrite U, P in X.
Qed.

Lemma cross_or_left cap : may_cross cap -> ~ left_to_codegen cap.
Proof. intros M (ty & E & N1 & N2 & _). destruct (M ty E); tauto. Qed.
End Contract.

(** ** The walks of a spawn site end *)

Section SiteEnds.
Variables (st : BoundaryState) (rank : str -> nat).
Hypothesis ranked : registries_ranked (Some (structFieldTypes st)) (Some (enumVariantPayloadTypes st)) rank.

Definition eventually {A} (m : nat -> option A) : Prop := exists n, forall fuel, n <= fuel -> is_Some (m fuel).

Lemma eventually_handoff o : eventually (fun fuel => handoffCapability st fuel o).
Proof.
  unfold handoffCapability. destruct o as [t|]; [|exists 0; eauto]. destruct (hasAspectBinding _ _ _); [exists 0; eauto|].
  destruct (capability_terminates _ _ (Some (analyzer_claims st)) rank (Some t) ranked) as (c & n & H). exists n. intros f Hf. rewrite H by done. eauto.
Qed.

Lemma eventually_bind {A B} (m : nat -> option A) (k : A -> nat -> option B) :
  eventually m -> (forall a, eventually (k a)) -> (exists l : list A, forall a, a ∈ l) -> eventually (fun fuel => a ← m fuel; k a fuel).
Proof.
  intros [n1 H1] H2 [l L]. assert (Hl : exists n2, forall a, a ∈ l -> forall fuel, n2 <= fuel -> is_Some (k a fuel)).
  { clear L. induction l as [|a l [n2 IH]]; [exists 0; set_solver|]. destruct (H2 a) as [n3 H3]. exists (n2 + n3). intros b [->|I]%elem_of_cons fuel F.
    - apply H3. lia.
    - apply (IH b I). lia. }
  destruct Hl as [n2 Hl]. exists (n1 + n2). intros fuel F. destruct (H1 fuel ltac:(lia)) as [a ->]. cbn. apply (Hl a (L a)). lia.
Qed.

Lemma capabilities : exists l : list Capability, forall a, a ∈ l.
Proof. exists [Capable; NotCapable; Undecidable]. intros []; set_solver. Qed.

Lemma eventually_const {A} (x : A) : eventually (fun _ => Some x).
Proof. exists 0. eauto. Qed.

Lemma eventually_aggregate args : eventually (fun fuel => aggregate (handoffCapability st fuel) args).
Proof.
  assert (H : exists n, forall fuel, n <= fuel -> forall p, p ∈ args -> is_Some (handoffCapability st fuel p)).
  { induction args as [|a args [n IH]]; [exists 0; set_solver|]. destruct (eventually_handoff a) as [m H]. exists (n + m).
    intros fuel F p [->|I]%elem_of_cons; [apply H; lia|apply IH; [lia|done]]. }
  destruct H as [n H]. exists n. intros fuel F. apply aggregate_total. auto.
Qed.

Lemma eventually_retained fe cap ct : eventually (fun fuel => mayCrossBoundaryWithRetainedOwner st fuel cap ct fe).
Proof.
  unfold mayCrossBoundaryWithRetainedOwner. destruct ct as [ct|], fe as [fe|]; try apply eventually_const.
  repeat (case_match; [apply eventually_const|]). case_match; [|apply eventually_const]. repeat (case_match; [apply eventually_const|]).
  case_match; [|apply eventually_const]. case_match; [apply eventually_const|].
  apply eventually_bind; [apply eventually_handoff| |apply capabilities]. intros []; try apply eventually_const.
  case_match; [apply eventually_const|apply eventually_aggregate].
Qed.

Lemma eventually_verdict fe cap : eventually (fun fuel => verdict_on st fuel fe cap).
Proof.
  unfold verdict_on. case_match; [|apply eventually_const]. unfold capture_verdict.
  apply eventually_bind; [apply eventually_handoff| |apply capabilities]. intros c. case_decide; [apply eventually_const|].
  apply eventually_bind; [apply eventually_retained| |apply capabilities]. intros r. repeat case_decide; apply eventually_const.
Qed.
End SiteEnds.

Lemma check_capture_some siteName site fe fuel cap st : is_Some (verdict_on st fuel fe cap) ->
  exists st', check_capture siteName site fe fuel cap st = Some st' /\ same_view st st'.
Proof.
  unfold verdict_on, check_capture. case_match; [|intros _; by exists st]. intros [v ->]. destruct v; cbn; eexists; (split; [done|]); done.
Qed.

Lemma check_captured_some siteName site fe fuel caps : forall reported st, (forall cap, cap ∈ caps -> is_Some (verdict_on st fuel fe cap)) ->
  is_Some (check_captured siteName site fe fuel caps reported st).
Proof.
  induction caps as [|cap caps IH]; intros reported st H; [by eexists|]. cbn [check_captured]. case_bool_decide; [apply IH; set_solver|].
  destruct (check_capture_some siteName site fe fuel cap st) as (st' & -> & V); [apply H; by left|]. cbn. apply IH.
  intros c I. rewrite (same_view_verdict _ _ _ _ _ V). apply H. by right.
Qed.

(** The loops, in terms of what the code decides about each capture. *)
Lemma site_verdicts st fuel fe site siteName st' :
  checkThreadBoundaryCaptures st fuel (Some fe) site siteName = Some st' ->
  (exists es, reports st' = reports st ++ es)
  /\ (reports st' = reports st <->
      (hasFact st fe ClosureMutablesBoxed = true \/ mutableCaptured (capturesOf st fe) = [])
      /\ forall cap, cap ∈ captured (capturesOf st fe) ->
           verdict_on st fuel fe cap = Some Crosses \/ verdict_on st fuel fe cap = Some Defers)
  /\ (reports st' = reports st -> forall cap, cap ∈ deferred_of st' fe <->
        cap ∈ deferred_of st fe
        \/ (cap ∈ captured (capturesOf st fe) /\ verdict_on st fuel fe cap = Some Defers)).
Proof.
  cbn [checkThreadBoundaryCaptures]. intros H.
  destruct (if hasFact st fe ClosureMutablesBoxed then _ else _) as [r st1] eqn:Hm.
  assert (M : same_view st st1 /\ deferred_of st1 fe = deferred_of st fe /\ exists es, reports st1 = reports st ++ es
    /\ (es = [] <-> hasFact st fe ClosureMutablesBoxed = true \/ mutableCaptured (capturesOf st fe) = [])
    /\ (es = [] -> r = ∅)).
  { destruct (hasFact st fe _).
    - injection Hm as <- <-. split_and!; [done..|]. exists []. rewrite app_nil_r. split_and!; [done| |done]. split; [by left|done].
    - apply report_mutable_outcome in Hm as (V & D & R & es & E & He). split_and!; [done..|]. exists es.
      assert (Hn : es = [] <-> mutableCaptured (capturesOf st fe) = []).
      { rewrite He. split; [|intros -> c Hc; by apply elem_of_nil in Hc]. intros F. destruct (mutableCaptured _) as [|c l]; [done|].
        assert (G : c ∈ (∅ : gset str)) by (apply F; left). set_solver. }
      split_and!; [done|rewrite Hn; split; [by right|by intros [?|?]]|]. intros Z%Hn. apply set_eq. intros c. rewrite R, Z, elem_of_nil. tauto. }
  destruct M as (V & D & es & E & He & Hr). apply check_captured_outcome in H as [_ T (es' & E' & He') D'].
  assert (Vd : forall c, verdict_on st1 fuel fe c = verdict_on st fuel fe c) by (intros; by apply same_view_verdict).
  setoid_rewrite Vd in T. setoid_rewrite Vd in He'. setoid_rewrite Vd in D'. rewrite E, <- app_assoc in E'.
  assert (Hnil : reports st' = reports st <-> es = [] /\ es' = []).
  { rewrite E'. split; [|intros [-> ->]; by rewrite app_nil_r].
    intros F. apply (f_equal length) in F. rewrite !length_app in F. destruct es, es'; cbn in F; [done|lia..]. }
  split; [by exists (es ++ es')|]. rewrite Hnil. split.
  - rewrite <- He. split.
    + intros [Z Z']. split; [done|]. intros cap Hc.
      assert (Hf : cap ∈ filter (fun c => c ∉ r) (captured (capturesOf st fe)))
        by (apply list_elem_of_filter; rewrite (Hr Z); split; [apply not_elem_of_empty|done]).
      destruct (T cap Hf) as [v Hv]. pose proof (proj1 He' Z' cap Hf) as F. rewrite Hv in *.
      destruct v; [by left|by right|done].
    + intros [Z F]. split; [done|]. apply He'. intros cap [_ Hc]%list_elem_of_filter. destruct (F cap Hc); congruence.
  - intros [Z Z'] cap. rewrite D', D, list_elem_of_filter, (Hr Z).
    pose proof (not_elem_of_empty (C := gset str) cap). tauto.
Qed.

(** Every capture was decided, where the mutable ones are no obstacle. *)
Lemma site_total st fuel fe site siteName st' :
  checkThreadBoundaryCaptures st fuel (Some fe) site siteName = Some st' ->
  hasFact st fe ClosureMutablesBoxed = true \/ mutableCaptured (capturesOf st fe) = [] ->
  forall cap, cap ∈ captured (capturesOf st fe) -> is_Some (verdict_on st fuel fe cap).
Proof.
  cbn [checkThreadBoundaryCaptures]. intros H M cap I.
  assert (E : (if hasFact st fe ClosureMutablesBoxed then (∅, st) else report_mutable siteName site (mutableCaptured (capturesOf st fe)) ∅ st) = (∅, st)).
  { destruct M as [-> | ->]; [done|]. by destruct (hasFact _ _ _). }
  rewrite E in H. apply check_captured_outcome in H as [_ T _ _]. apply T. apply list_elem_of_filter. split; [apply not_elem_of_empty|done].
Qed.

Lemma site_ends st fe site siteName rank : registries_ranked (Some (structFieldTypes st)) (Some (enumVariantPayloadTypes st)) rank ->
  exists n, forall fuel, n <= fuel -> is_Some (checkThreadBoundaryCaptures st fuel (Some fe) site siteName).
Proof.
  intros R. assert (H : exists n, forall fuel, n <= fuel -> forall cap, cap ∈ captured (capturesOf st fe) -> is_Some (verdict_on st fuel fe cap)).
  { induction (captured (capturesOf st fe)) as [|c l [n IH]]; [exists 0; set_solver|]. destruct (eventually_verdict st rank R fe c) as [m H].
    exists (n + m). intros fuel F cap [->|I]%elem_of_cons; [apply H; lia|apply IH; [lia|done]]. }
  destruct H as [n H]. exists n. intros fuel F. cbn [checkThreadBoundaryCaptures].
  assert (V : exists r st1, (if hasFact st fe ClosureMutablesBoxed then (∅, st) else report_mutable siteName site (mutableCaptured (capturesOf st fe)) ∅ st) = (r, st1)
    /\ same_view st st1).
  { destruct (hasFact _ _ _); [by eexists _, _|]. destruct (report_mutable siteName site (mutableCaptured (capturesOf st fe)) ∅ st) as [r st1] eqn:E.
    exists r, st1. split; [done|]. by apply report_mutable_outcome in E as [? _]. }
  destruct V as (r & st1 & -> & V). apply check_captured_some. intros cap I. rewrite (same_view_verdict _ _ _ _ _ V). by apply H.
Qed.


(** ** A concrete site: a borrow, its owner, an unknown type and a pointer *)

Definition variable (n : str) (t : TypeNode) : SymbolInfo := mkSymbol Variable_ n false MY (Some t) [].

Definition spawn_analyzer : SemanticAnalyzer :=
  recordTheirBorrowInto $"v" $"o"
    (declare (variable $"p" (PointerType test_node (Some (named $"Int" [])))) test_node
    (declare (variable $"g" (named $"T" [])) test_node
    (declare (variable $"v" (named $"their" [named $"Pixel" []])) test_node
    (declare (variable $"o" (named $"our" [named $"Pixel" []])) test_node (enterScope sample_analyzer))))).

Definition spawn_state (caps : list str) : BoundaryState :=
  mkBoundary spawn_analyzer sample_structs ∅ ∅ ∅ {[ id_ test_node := mkCaptures caps [] [] ]} ∅ ∅.

Example spawn_state_refuses_pointer :
  option_map (fun st => length (reports st))
    (checkThreadBoundaryCaptures (spawn_state [$"o"; $"v"; $"g"; $"p"; $"p"]) 5 (Some test_node) None $"spawn") = Some 1.
Proof. vm_compute. reflexivity. Qed.

Lemma retained_owner_shared_witness :
  exists owner ot, theirVarRoot_ spawn_analyzer !! $"v" = Some owner
    /\ lookup_in (spawn_state [$"o"; $"v"]) owner ≫= sym_type = Some ot.
Proof.
  destruct (retained_owner_shared (spawn_state [$"o"; $"v"]) 5 $"v" (named $"their" [named $"Pixel" []]) test_node
    ltac:(vm_compute; reflexivity)) as (owner & ot & H1 & _ & _ & H2 & _).
  by exists owner, ot.
Defined.

