(* ===== verification/Aspects.v ===== *)
(** * Aspects: the registry, inheritance and dispatch

    src/vre/semantic_aspects.cpp with the records of include/vyb/semantic.hpp:
    declaring an aspect, finding a method through the super-aspects, whether a
    bound provides an aspect, and the final check of the inheritance graph.
    The two searches that keep a visited set are shown to decide
    reachability; the cycle search keeps none, so the model gives it fuel and
    answers [None] while it has not returned. *)

From S2P Require Import Prelude.
From S2P Require Import Token.
From S2P Require Import Ast.
From S2P Require Import AstText.
From S2P Require Import AstTypes.
From S2P Require Import Scope.
From S2P Require Import IntTypes.
From S2P Require Import TypeRel.
From S2P Require Import Ownership.
From S2P Require Import ThreadBoundary.

(** ** Aspect records *)

Record TraitMethod : Type := mkTraitMethod {
  tm_name : str;
  parameterNames : list str;
  tm_parameterTypes : list (option TypeNode);
  tm_returnType : option TypeNode;
  tm_declaration : Node;
  tm_hasDefaultImpl : bool
}.

Record TraitInfo : Type := mkTraitInfo {
  ti_name : str;
  ti_genericParams : list str;
  superTraits : list str;
  ti_associatedTypes : list str;
  ti_associatedTypeDefaults : list (option TypeNode);
  ti_associatedTypeConstraints : list (list (option TypeNode));
  ti_methods : list TraitMethod;
  ti_declaration : Node
}.

(** The fields of an [AspectDeclaration]. *)
Record AspectDecl : Type := mkAspectDecl {
  ad_node : Node;
  ad_name : option Identifier;
  ad_genericParams : list (option GenericParameter);
  superTypes : list (option Identifier);
  ad_associatedTypes : list (option Identifier);
  ad_associatedTypeDefaults : list (option TypeNode);
  ad_associatedTypeConstraints : list (list (option TypeNode));
  ad_methods : list (option Function_)
}.

Definition aspect_of (s : Statement) : option AspectDecl :=
  match s with
  | AspectDeclaration n nm gp st ats ds cs ms => Some (mkAspectDecl n nm gp st ats ds cs ms)
  | _ => None
  end.

Definition generic_name (p : GenericParameter) : option Identifier := match p with mkGenericParameter _ n _ => n end.
Definition fn_node (f : Function_) : Node := match f with mkFunction n _ _ _ _ _ _ _ _ _ => n end.
Definition fn_id (f : Function_) : option Identifier := match f with mkFunction _ i _ _ _ _ _ _ _ _ => i end.
Definition fn_params (f : Function_) : list FunctionParameter := match f with mkFunction _ _ _ ps _ _ _ _ _ _ => ps end.
Definition fn_body (f : Function_) : option Block := match f with mkFunction _ _ _ _ b _ _ _ _ _ => b end.
Definition fn_return (f : Function_) : option TypeNode := match f with mkFunction _ _ _ _ _ _ _ _ r _ => r end.
Definition param_name (p : FunctionParameter) : str := match p with mkFunctionParameter i _ _ => name i end.
Definition param_type (p : FunctionParameter) : option TypeNode := match p with mkFunctionParameter _ t _ => t end.

Definition trait_method (m : Function_) : TraitMethod :=
  mkTraitMethod (match fn_id m with Some i => name i | None => [] end) (map param_name (fn_params m))
    (map param_type (fn_params m)) (fn_return m) (fn_node m) (match fn_body m with Some _ => true | None => false end).

(** The associated types that are there, each with the default and the
    bounds at its index. *)
Fixpoint associated_entries (i : nat) (decl : AspectDecl) (l : list (option Identifier))
    : list (str * option TypeNode * list (option TypeNode)) :=
  match l with
  | [] => []
  | None :: l' => associated_entries (S i) decl l'
  | Some a :: l' =>
      (name a, default None (ad_associatedTypeDefaults decl !! i), default [] (ad_associatedTypeConstraints decl !! i))
      :: associated_entries (S i) decl l'
  end.

Definition new_TraitInfo (decl : AspectDecl) : TraitInfo :=
  let entries := associated_entries 0 decl (ad_associatedTypes decl) in
  mkTraitInfo
    (match ad_name decl with Some i => name i | None => [] end)
    (omap (fun p => p ≫= fun g => name <$> generic_name g) (ad_genericParams decl))
    (omap (fun s => name <$> s) (superTypes decl))
    (map (fun e => e.1.1) entries) (map (fun e => e.1.2) entries) (map snd entries)
    (omap (fun m => trait_method <$> m) (ad_methods decl))
    (ad_node decl).

(** [i < associatedTypes.size() && i < values.size()], the first match. *)
Fixpoint aligned_find {A} (names : list str) (values : list A) (n : str) : option A :=
  match names, values with
  | x :: names', v :: values' => if x =s n then Some v else aligned_find names' values' n
  | _, _ => None
  end.
Definition getAssociatedTypeDefault (info : TraitInfo) (n : str) : option TypeNode :=
  default None (aligned_find (ti_associatedTypes info) (ti_associatedTypeDefaults info) n).
Definition getAssociatedTypeConstraints (info : TraitInfo) (n : str) : option (list (option TypeNode)) :=
  aligned_find (ti_associatedTypes info) (ti_associatedTypeConstraints info) n.

(** ** State *)

Record AspectState : Type := mkAspectState {
  boundary : BoundaryState;
  traitRegistry : gmap str TraitInfo
}.

Definition asp_error (m : str) (n : option Node) (st : AspectState) : AspectState :=
  mkAspectState (report m n (boundary st)) (traitRegistry st).

Definition findTrait (st : AspectState) (n : str) : option TraitInfo := traitRegistry st !! n.

Definition registerTrait (decl : AspectDecl) (st : AspectState) : AspectState :=
  match ad_name decl with
  | None => st
  | Some _ =>
      let info := new_TraitInfo decl in
      mkAspectState (boundary st) (<[ti_name info := info]> (traitRegistry st))
  end.

(** [currentScope->add(sym)] *)
Definition add_symbol (sym : SymbolInfo) (st : AspectState) : AspectState :=
  let a := analyzer (boundary st) in
  match currentScope a with
  | t :: ts =>
      mkAspectState
        (set_analyzer (set_scopes (add sym t :: ts) (borrowScopes a) (moveScopes a) (declScopes a) a) (boundary st))
        (traitRegistry st)
  | [] => st
  end.

(** ** Declaring an aspect *)

(** The associated types in order: a missing or a repeated one ends the
    visit. *)
Fixpoint associated_error (traitName : str) (n : Node) (seen : gset str) (l : list (option Identifier))
    : option (str * Node) :=
  match l with
  | [] => None
  | None :: _ => Some ($"Invalid associated type in aspect '" ++ traitName ++ $"'.", n)
  | Some a :: l' =>
      if bool_decide (name a ∈ seen)
      then Some ($"Duplicate associated type '" ++ name a ++ $"' in aspect '" ++ traitName ++ $"'.", id_node a)
      else associated_error traitName n ({[ name a ]} ∪ seen) l'
  end.

Definition has_self (m : Function_) : bool :=
  match fn_params m with p :: _ => param_name p =s $"self" | [] => false end.

Definition method_errors (m : Function_) (mname : str) (st : AspectState) : AspectState :=
  let st1 :=
    if has_self m then st
    else asp_error ($"Aspect method '" ++ mname ++ $"' must have 'self' as first parameter.") (Some (fn_node m)) st in
  match fn_return m with
  | Some _ => st1
  | None => asp_error ($"Aspect method '" ++ mname ++ $"' must declare a return type.") (Some (fn_node m)) st1
  end.

(** The methods in order; [false] when the visit ends here. *)
Fixpoint check_methods (traitName : str) (n : Node) (l : list (option Function_)) (st : AspectState)
    : bool * AspectState :=
  match l with
  | [] => (true, st)
  | om :: l' =>
      match om ≫= fun m => (fun i => (m, name i)) <$> fn_id m with
      | None => (false, asp_error ($"Invalid method in aspect '" ++ traitName ++ $"'.") (Some n) st)
      | Some (m, mname) => check_methods traitName n l' (method_errors m mname st)
      end
  end.

Definition generic_ok (p : option GenericParameter) : bool :=
  match p ≫= generic_name with Some _ => true | None => false end.

Definition visit_AspectDeclaration (node : option AspectDecl) (st : AspectState) : AspectState :=
  match node with
  | None => asp_error $"Malformed aspect declaration." None st
  | Some decl =>
      let n := ad_node decl in
      match ad_name decl with
      | None => asp_error $"Malformed aspect declaration." (Some n) st
      | Some i =>
          let traitName := name i in
          match traitRegistry st !! traitName with
          | Some _ => asp_error ($"Aspect '" ++ traitName ++ $"' is already defined.") (Some n) st
          | None =>
              if negb (forallb generic_ok (ad_genericParams decl))
              then asp_error ($"Invalid generic parameter in aspect '" ++ traitName ++ $"'.") (Some n) st
              else
                match associated_error traitName n ∅ (ad_associatedTypes decl) with
                | Some (m, at_) => asp_error m (Some at_) st
                | None =>
                    match check_methods traitName n (ad_methods decl) st with
                    | (false, st') => st'
                    | (true, st') =>
                        add_symbol (mkSymbol Type_ traitName false MY None []) (registerTrait decl st')
                    end
                end
          end
      end
  end.

(** ** Searches through the super-aspects *)

Section Searches.
Variable reg : gmap str TraitInfo.

Definition find_method (info : TraitInfo) (methodName : str) : option TraitMethod :=
  find (fun tm => tm_name tm =s methodName) (ti_methods info).

(** The nested [search]: the declaring aspect and its method, and the aspects
    visited so far. A registered aspect is identified by its key. *)
Section SearchLoop.
Variable rec : str -> gset str -> option (option (TraitInfo * TraitMethod) * gset str).

Fixpoint search_supers (supers : list str) (visited : gset str)
    : option (option (TraitInfo * TraitMethod) * gset str) :=
  match supers with
  | [] => Some (None, visited)
  | s :: supers' =>
      match reg !! s with
      | None => search_supers supers' visited
      | Some _ =>
          r ← rec s visited;
          match r with
          | (Some found, v) => Some (Some found, v)
          | (None, v) => search_supers supers' v
          end
      end
  end.
End SearchLoop.

Fixpoint search (fuel : nat) (methodName : str) (n : str) (visited : gset str)
    : option (option (TraitInfo * TraitMethod) * gset str) :=
  match fuel with
  | O => None
  | S f =>
      match reg !! n with
      | None => Some (None, visited)
      | Some info =>
          if bool_decide (n ∈ visited) then Some (None, visited)
          else
            let visited' := {[ n ]} ∪ visited in
            match find_method info methodName with
            | Some tm => Some (Some (info, tm), visited')
            | None => search_supers (search f methodName) (superTraits info) visited'
            end
      end
  end.

Definition findAspectMethod (fuel : nat) (aspectName methodName : str) : option (option (TraitInfo * TraitMethod)) :=
  fst <$> search fuel methodName aspectName ∅.

(** The work list of [boundAspectProvides]; the back of the vector is the
    head of the list. *)
Fixpoint provides_loop (fuel : nat) (requestedAspect : str) (visited : gset str) (stack : list str) : option bool :=
  match fuel with
  | O => None
  | S f =>
      match stack with
      | [] => Some false
      | cur :: stack' =>
          if bool_decide (cur ∈ visited) then provides_loop f requestedAspect visited stack'
          else
            let visited' := {[ cur ]} ∪ visited in
            if cur =s requestedAspect then Some true
            else
              match reg !! cur with
              | None => provides_loop f requestedAspect visited' stack'
              | Some info =>
                  provides_loop f requestedAspect visited'
                    (rev (filter (fun s => s ∉ visited') (superTraits info)) ++ stack')
              end
      end
  end.

Definition boundAspectProvides (fuel : nat) (boundAspect requestedAspect : str) : option bool :=
  if boundAspect =s requestedAspect then Some true
  else provides_loop fuel requestedAspect ∅ [boundAspect].

(** [findCycle]: no visited set. *)
Section CycleLoop.
Variable rec : str -> option bool.
Fixpoint any_cycle (supers : list str) : option bool :=
  match supers with
  | [] => Some false
  | next :: supers' =>
      c ← rec next;
      if c : bool then Some true else any_cycle supers'
  end.
End CycleLoop.

Fixpoint findCycle (fuel : nat) (start current : str) (depth : Z) : option bool :=
  match fuel with
  | O => None
  | S f =>
      if (depth >? 0)%Z && (current =s start) then Some true
      else
        match reg !! current with
        | None => Some false
        | Some info => any_cycle (fun next => findCycle f start next (depth + 1)%Z) (superTraits info)
        end
  end.
End Searches.

(** ** The check of the inheritance graph *)

Definition unknown_super_message (superName aspect : str) : str :=
  $"Super-aspect '" ++ superName ++ $"' of aspect '" ++ aspect ++ $"' is not a defined aspect.".
Definition cycle_message (aspect : str) : str :=
  $"Aspect '" ++ aspect ++ $"' has a cyclic super-aspect dependency.".
Definition binding_message (kind ty aspect superName : str) : str :=
  kind ++ $" '" ++ ty ++ $"' binds aspect '" ++ aspect ++ $"' which requires also binding super-aspect '"
  ++ superName ++ $"'.".

Fixpoint check_supers (fuel : nat) (info : TraitInfo) (supers : list str) (st : AspectState) : option AspectState :=
  match supers with
  | [] => Some st
  | s :: supers' =>
      match traitRegistry st !! s with
      | None =>
          check_supers fuel info supers'
            (asp_error (unknown_super_message s (ti_name info)) (Some (ti_declaration info)) st)
      | Some _ =>
          c ← findCycle (traitRegistry st) fuel (ti_name info) s 1;
          check_supers fuel info supers'
            (if c : bool then asp_error (cycle_message (ti_name info)) (Some (ti_declaration info)) st else st)
      end
  end.

(** Types that bind the aspect and not its super-aspect. *)
Fixpoint check_binders (kind : str) (info : TraitInfo) (superName : str) (types : list (str * gset str))
    (st : AspectState) : AspectState :=
  match types with
  | [] => st
  | (ty, bound) :: types' =>
      check_binders kind info superName types'
        (if bool_decide (ti_name info ∈ bound) && negb (hasAspectBinding (boundary st) ty superName)
         then asp_error (binding_message kind ty (ti_name info) superName) (Some (ti_declaration info)) st
         else st)
  end.

Fixpoint check_bindings (info : TraitInfo) (supers : list str) (st : AspectState) : AspectState :=
  match supers with
  | [] => st
  | s :: supers' =>
      check_bindings info supers'
        (check_binders $"Generic type" info s (map_to_list (genericTraitImpls (boundary st)))
          (check_binders $"Type" info s (map_to_list (traitImpls (boundary st))) st))
  end.

Fixpoint validate_entries (fuel : nat) (entries : list (str * TraitInfo)) (st : AspectState) : option AspectState :=
  match entries with
  | [] => Some st
  | (_, info) :: entries' =>
      match superTraits info with
      | [] => validate_entries fuel entries' st
      | supers =>
          st1 ← check_supers fuel info supers st;
          validate_entries fuel entries' (check_bindings info supers st1)
      end
  end.

Definition validateAspectInheritance (fuel : nat) (st : AspectState) : option AspectState :=
  validate_entries fuel (map_to_list (traitRegistry st)) st.

(** ** Reachability *)

Definition super_of (reg : gmap str TraitInfo) (x y : str) : Prop :=
  exists info, reg !! x = Some info /\ y ∈ superTraits info.

(** *** The cycle search *)

Lemma any_cycle_cases rec l b : any_cycle rec l = Some b ->
  if b then exists x, x ∈ l /\ rec x = Some true else forall x, x ∈ l -> rec x = Some false.
Proof.
  induction l as [|y l IH]; cbn; [intros [= <-]; set_solver|]. intros (c & Hc & H)%bind_Some. destruct c.
  - injection H as <-. exists y. split; [by left|done].
  - specialize (IH H). destruct b.
    + destruct IH as (x & Hx & E). exists x. split; [by right|done].
    + intros x [->|Hx]%elem_of_cons; auto.
Qed.

Lemma any_cycle_total rec l : (forall x, x ∈ l -> is_Some (rec x)) -> is_Some (any_cycle rec l).
Proof.
  induction l as [|y l IH]; intros H; cbn; [eauto|]. destruct (H y ltac:(by left)) as [[] ->]; cbn; [eauto|].
  apply IH. intros x Hx. apply H. by right.
Qed.

Section Cycles.
Variables (reg : gmap str TraitInfo) (start : str).

Lemma findCycle_true fuel cur d : findCycle reg fuel start cur d = Some true -> rtc (super_of reg) cur start.
Proof.
  revert cur d. induction fuel as [|f IH]; intros cur d H; [done|]. cbn in H.
  destruct ((d >? 0)%Z && (cur =s start)) eqn:E; [apply andb_true_iff in E as [_ ->%streq_true]; constructor|].
  destruct (reg !! cur) as [info|] eqn:L; [|done]. apply any_cycle_cases in H as (x & Hx & H).
  eapply rtc_l; [exists info; split; [done|exact Hx]|]. by eapply IH.
Qed.

Lemma findCycle_false fuel cur d : (0 < d)%Z -> findCycle reg fuel start cur d = Some false ->
  cur <> start /\ forall y, super_of reg cur y -> exists f, f < fuel /\ findCycle reg f start y (d + 1) = Some false.
Proof.
  intros Hd H. destruct fuel as [|f]; [done|]. cbn in H.
  destruct (cur =s start) eqn:E; [rewrite (proj2 (Z.gtb_lt d 0) Hd) in H; done|].
  rewrite andb_false_r in H. apply streq_false in E. split; [done|]. intros y (info & L & Hy). rewrite L in H.
  pose proof (any_cycle_cases _ _ _ H y Hy) as F. exists f. split; [lia|done].
Qed.

(** An answer [false] means that there is neither a way back to the start nor
    an endless chain of super-aspects. *)
Lemma findCycle_false_acc fuel cur d : (0 < d)%Z -> findCycle reg fuel start cur d = Some false ->
  Acc (fun y x => super_of reg x y) cur /\ ~ rtc (super_of reg) cur start.
Proof.
  revert cur d. induction (lt_wf fuel) as [fuel _ IH]. intros cur d Hd H.
  apply findCycle_false in H as [Hne H]; [|done]. split.
  - constructor. intros y Hy. destruct (H y Hy) as (f & Hf & E). by apply (IH f Hf y (d + 1)%Z ltac:(lia)).
  - intros R. inversion R as [|? y ? Hy R']; subst; [done|]. destruct (H y Hy) as (f & Hf & E).
    by apply (IH f Hf y (d + 1)%Z ltac:(lia)).
Qed.

Lemma Acc_no_cycle cur x : Acc (fun y x => super_of reg x y) cur ->
  rtc (super_of reg) cur x -> tc (super_of reg) x x -> False.
Proof.
  intros A R C. assert (Ax : Acc (fun y x => super_of reg x y) x).
  { clear C. induction R as [|a b c Hab _ IH]; [done|]. apply IH. by apply A. }
  clear A R. induction Ax as [x _ IH]. inversion C as [? ? Hx|? y ? Hy C']; subst.
  - by apply (IH x Hx), tc_once.
  - apply (IH y Hy). by eapply tc_r.
Qed.

Lemma findCycle_mono f f' cur d b : f <= f' -> findCycle reg f start cur d = Some b ->
  findCycle reg f' start cur d = Some b.
Proof.
  intros Hf. revert f' Hf cur d b. induction f as [|f IH]; intros f' Hf cur d b H; [done|].
  destruct f' as [|f']; [lia|]. cbn in *. case_match; [done|]. case_match; [|done].
  revert H. induction (superTraits _) as [|y l IHl]; cbn; [done|]. intros (c & Hc & H)%bind_Some.
  rewrite (IH f' ltac:(lia) _ _ _ Hc). cbn. destruct c; auto.
Qed.

Lemma findCycle_total cur d : Acc (fun y x => super_of reg x y) cur -> exists fuel, is_Some (findCycle reg fuel start cur d).
Proof.
  intros A. revert d. induction A as [cur _ IH]. intros d.
  destruct (reg !! cur) as [info|] eqn:L.
  2: { exists 1. cbn. rewrite L. case_match; eauto. }
  assert (F : exists f, forall x, x ∈ superTraits info -> is_Some (findCycle reg f start x (d + 1))).
  { assert (Hs : forall x, x ∈ superTraits info -> super_of reg cur x) by (intros x Hx; by exists info).
    clear L. induction (superTraits info) as [|y l IHl]; [exists 0; intros x Hx; by apply elem_of_nil in Hx|].
    destruct IHl as [f Hf]; [intros x Hx; apply Hs; by right|].
    destruct (IH y (Hs y ltac:(by left)) (d + 1)%Z) as [f' [b Hb]].
    exists (f `max` f'). intros x [->|Hx]%elem_of_cons.
    - exists b. by eapply findCycle_mono; [|exact Hb]; lia.
    - destruct (Hf x Hx) as [c Hc]. exists c. by eapply findCycle_mono; [|exact Hc]; lia. }
  destruct F as [f Hf]. exists (S f). cbn. rewrite L. case_match; [eauto|]. by apply any_cycle_total.
Qed.
End Cycles.

(** *** The work list *)

Lemma rtc_stays (reg : gmap str TraitInfo) (P : str -> Prop) x y :
  (forall a b, P a -> super_of reg a b -> P b) -> rtc (super_of reg) x y -> P x -> P y.
Proof. intros H. induction 1 as [|a b c Hab _ IH]; eauto. Qed.

Section Provides.
Variables (reg : gmap str TraitInfo) (req : str).

Lemma provides_mono f f' v stack b : f <= f' -> provides_loop reg f req v stack = Some b ->
  provides_loop reg f' req v stack = Some b.
Proof.
  intros Hf. revert f' Hf v stack. induction f as [|f IH]; intros f' Hf v stack H; [done|].
  destruct f' as [|f']; [lia|]. cbn in *. repeat (case_match; try done); apply IH; (done || lia).
Qed.

(** Every name the work list can hold. *)
Definition universe (bound : str) : gset str :=
  {[ bound ]} ∪ list_to_set (concat (map (fun e : str * TraitInfo => superTraits e.2) (map_to_list reg))).

Lemma universe_super bound x y : super_of reg x y -> y ∈ universe bound.
Proof.
  intros (info & L & Hy). apply elem_of_union_r, elem_of_list_to_set, list_elem_of_In, in_concat.
  exists (superTraits info). split; [|by apply list_elem_of_In].
  apply in_map_iff. exists (x, info). split; [done|]. by apply list_elem_of_In, elem_of_map_to_list.
Qed.

Lemma provides_total bound v stack : (forall s, s ∈ stack -> s ∈ universe bound) ->
  exists n b, provides_loop reg n req v stack = Some b.
Proof.
  remember (size (universe bound ∖ v)) as k eqn:Hk. revert v Hk stack.
  induction (lt_wf k) as [k _ IH]. intros v Hk stack. induction stack as [|cur stack IHs]; intros Hs; [by exists 1, false|].
  assert (Hs' : forall s, s ∈ stack -> s ∈ universe bound) by (intros s ?; apply Hs; by right).
  destruct (decide (cur ∈ v)) as [Hin|Hin].
  { destruct (IHs Hs') as (n & b & H). exists (S n), b. cbn. by rewrite bool_decide_eq_true_2. }
  destruct (cur =s req) eqn:E; [exists 1, true; cbn; by rewrite bool_decide_eq_false_2, E by done|].
  assert (Hlt : size (universe bound ∖ ({[ cur ]} ∪ v)) < k).
  { subst k. apply subset_size. pose proof (Hs cur ltac:(by left)). set_solver. }
  destruct (reg !! cur) as [info|] eqn:L.
  - destruct (IH _ Hlt ({[ cur ]} ∪ v) eq_refl (rev (filter (fun s => s ∉ {[ cur ]} ∪ v) (superTraits info)) ++ stack))
      as (n & b & H).
    { intros s [Hr|?]%elem_of_app; [|auto]. rewrite list_elem_of_In, <- in_rev, <- list_elem_of_In in Hr.
      apply list_elem_of_filter in Hr as [_ Hr]. apply (universe_super bound cur). by exists info. }
    exists (S n), b. cbn. by rewrite bool_decide_eq_false_2, E, L by done.
  - destruct (IH _ Hlt ({[ cur ]} ∪ v) eq_refl stack Hs') as (n & b & H).
    exists (S n), b. cbn. by rewrite bool_decide_eq_false_2, E, L by done.
Qed.

Lemma provides_true n v stack : provides_loop reg n req v stack = Some true ->
  exists s, s ∈ stack /\ rtc (super_of reg) s req.
Proof.
  revert v stack. induction n as [|n IH]; intros v stack H; [done|]. cbn in H.
  destruct stack as [|cur stack]; [done|]. case_bool_decide.
  { apply IH in H as (s & Hs & R). exists s. split; [by right|done]. }
  destruct (cur =s req) eqn:E; [apply streq_true in E; subst; exists req; split; [by left|constructor]|].
  destruct (reg !! cur) as [info|] eqn:L; apply IH in H as (s & Hs & R).
  - apply elem_of_app in Hs as [Hs|Hs]; [|exists s; split; [by right|done]].
    rewrite list_elem_of_In, <- in_rev, <- list_elem_of_In in Hs. apply list_elem_of_filter in Hs as [_ Hs].
    exists cur. split; [by left|]. eapply rtc_l; [|done]. by exists info.
  - exists s. split; [by right|done].
Qed.

Definition explored (v : gset str) (stack : list str) : Prop :=
  forall x, x ∈ v -> x <> req /\ forall y, super_of reg x y -> y ∈ v \/ y ∈ stack.

Lemma explored_step v stack cur (new : list str) :
  explored v (cur :: stack) -> cur <> req ->
  (forall y, super_of reg cur y -> y ∈ {[ cur ]} ∪ v \/ y ∈ new) -> (forall y, y ∈ stack -> y ∈ new) ->
  explored ({[ cur ]} ∪ v) new.
Proof.
  intros C Hc Hn Hs x [->%elem_of_singleton|Hx]%elem_of_union; [by split|].
  destruct (C x Hx) as [Hne Hy]. split; [done|]. intros y [?|Hy']%Hy; [set_solver|].
  apply elem_of_cons in Hy' as [->|?]; [set_solver|auto].
Qed.

Lemma provides_false n v stack : explored v stack -> provides_loop reg n req v stack = Some false ->
  forall x, x ∈ v \/ x ∈ stack -> ~ rtc (super_of reg) x req.
Proof.
  revert v stack. induction n as [|n IH]; intros v stack C H; [done|]. cbn in H.
  destruct stack as [|cur stack].
  { intros x [Hx|Hx] R; [|by apply elem_of_nil in Hx].
    apply (C req); [|done]. refine (rtc_stays reg (fun k => k ∈ v) x req _ R Hx). intros a b Ha Hab.
    destruct (C a Ha) as [_ F]. by destruct (F b Hab) as [?|?%elem_of_nil]. }
  case_bool_decide as Hin.
  { assert (C' : explored v stack).
    { intros x Hx. destruct (C x Hx) as [Hne F]. split; [done|]. intros y [?|[->|?]%elem_of_cons]%F; auto. }
    intros x [?|[->|?]%elem_of_cons]; apply (IH _ _ C' H); auto. }
  destruct (cur =s req) eqn:E; [done|]. apply streq_false in E. destruct (reg !! cur) as [info|] eqn:L.
  - intros x Hx. refine (IH _ _ _ H x _).
    + apply (explored_step _ _ _ _ C E); [|intros; by apply elem_of_app; right].
      intros y (info' & L' & Hy). assert (info' = info) as -> by congruence.
      destruct (decide (y ∈ {[ cur ]} ∪ v)); [by left|right]. apply elem_of_app. left.
      rewrite list_elem_of_In, <- in_rev, <- list_elem_of_In. by apply list_elem_of_filter.
    + destruct Hx as [?|[->|?]%elem_of_cons]; [left; set_solver|left; set_solver|right; apply elem_of_app; by right].
  - intros x Hx. refine (IH _ _ _ H x _).
    + apply (explored_step _ _ _ _ C E); [|auto]. intros y (? & ? & _). congruence.
    + destruct Hx as [?|[->|?]%elem_of_cons]; [left; set_solver|left; set_solver|by right].
Qed.
End Provides.

(** Whether a bound provides an aspect is decided on every registry,
    cyclic ones included: the work list of [boundAspectProvides] runs empty or
    finds the aspect, and the answer is yes exactly when the requested aspect
    is the bound itself or one of its super-aspects, at any distance. *)
Theorem boundAspectProvides_exact reg boundAspect requestedAspect :
  exists b n, (forall fuel, n <= fuel -> boundAspectProvides reg fuel boundAspect requestedAspect = Some b)
    /\ (b = true <-> rtc (super_of reg) boundAspect requestedAspect).
Proof.
  unfold boundAspectProvides. destruct (boundAspect =s requestedAspect) eqn:E.
  { apply streq_true in E as ->. exists true, 0. split; [done|]. split; [constructor|done]. }
  destruct (provides_total reg requestedAspect boundAspect ∅ [boundAspect]) as (n & b & H).
  { intros s ->%list_elem_of_singleton. unfold universe. set_solver. }
  exists b, n. split; [intros fuel Hf; by apply (provides_mono _ _ n)|]. destruct b.
  - split; [|done]. intros _. by apply provides_true in H as (s & ->%list_elem_of_singleton & R).
  - split; [done|]. intros R. exfalso.
    apply (provides_false _ _ _ _ _ (fun x Hx => False_ind _ (not_elem_of_empty (C := gset str) x Hx)) H boundAspect); [right; by left|done].
Qed.

(** *** The method search *)

Section MethodSearch.
Variables (reg : gmap str TraitInfo) (methodName : str).

(** The aspects a search has added lack the method, and their registered
    super-aspects have been visited. *)
Definition searched (v v' : gset str) : Prop :=
  v ⊆ v' /\ forall k, k ∈ v' -> k ∉ v -> exists info, reg !! k = Some info /\ find_method info methodName = None
    /\ forall y, y ∈ superTraits info -> y ∈ v' \/ reg !! y = None.

Lemma searched_refl v : searched v v.
Proof. split; [done|]. intros k H F. done. Qed.

Lemma searched_trans v1 v2 v3 : searched v1 v2 -> searched v2 v3 -> searched v1 v3.
Proof.
  intros [S12 P12] [S23 P23]. split; [set_solver|]. intros k Hk Hn.
  destruct (decide (k ∈ v2)) as [H2|H2]; [|by apply P23].
  destruct (P12 k H2 Hn) as (info & L & F & Hs). exists info. split_and!; [done|done|]. set_solver.
Qed.

Definition search_ok (rec : str -> gset str -> option (option (TraitInfo * TraitMethod) * gset str)) : Prop :=
  forall n v r v', rec n v = Some (r, v') ->
    match r with
    | Some (info, tm) => exists k, rtc (super_of reg) n k /\ reg !! k = Some info /\ find_method info methodName = Some tm
    | None => searched v v' /\ (n ∈ v' \/ reg !! n = None)
    end.

Lemma search_supers_ok rec l v r v' : search_ok rec -> search_supers reg rec l v = Some (r, v') ->
  match r with
  | Some (info, tm) => exists n k, n ∈ l /\ rtc (super_of reg) n k /\ reg !! k = Some info
      /\ find_method info methodName = Some tm
  | None => searched v v' /\ forall n, n ∈ l -> n ∈ v' \/ reg !! n = None
  end.
Proof.
  intros Hrec. revert v. induction l as [|s l IH]; intros v H; cbn in H.
  { injection H as <- <-. split; [apply searched_refl|]. intros n Hn. by apply elem_of_nil in Hn. }
  destruct (reg !! s) eqn:L.
  2: { specialize (IH _ H). destruct r as [[info tm]|].
    - destruct IH as (n & k & Hn & IH). exists n, k. split; [by right|done].
    - destruct IH as [S IH]. split; [done|]. intros n [->|Hn]%elem_of_cons; auto. }
  apply bind_Some in H as ([r1 v1] & H1 & H). apply Hrec in H1. destruct r1 as [[info tm]|].
  - injection H as <- <-. destruct H1 as (k & H1). exists s, k. split; [by left|done].
  - destruct H1 as [S1 [Hs|?]]; [|congruence]. specialize (IH _ H). destruct r as [[info tm]|].
    + destruct IH as (n & k & Hn & IH). exists n, k. split; [by right|done].
    + destruct IH as [S2 IH]. split; [by eapply searched_trans|].
      intros n [->|Hn]%elem_of_cons; [|auto]. left. by apply S2.
Qed.

Lemma search_search_ok fuel : search_ok (search reg fuel methodName).
Proof.
  induction fuel as [|f IH]; intros n v r v' H; [done|]. cbn in H.
  destruct (reg !! n) as [info|] eqn:L.
  2: { injection H as <- <-. split; [apply searched_refl|by right]. }
  case_bool_decide as Hin.
  { injection H as <- <-. split; [apply searched_refl|by left]. }
  destruct (find_method info methodName) as [tm|] eqn:M.
  { injection H as <- <-. exists n. split; [constructor|done]. }
  apply (search_supers_ok _ _ _ _ _ IH) in H. destruct r as [[info' tm]|].
  - destruct H as (n' & k & Hn & R & H). exists k. split; [|done]. eapply rtc_l; [|exact R]. by exists info.
  - destruct H as [[S P] Hs]. split; [|left; set_solver]. split; [set_solver|]. intros k Hk Hv.
    destruct (decide (k = n)) as [->|Hne]; [by exists info|]. apply P; [done|set_solver].
Qed.

Lemma search_supers_total f l v : (forall n w, v ⊆ w -> is_Some (search reg f methodName n w)) ->
  is_Some (search_supers reg (search reg f methodName) l v).
Proof.
  revert v. induction l as [|s l IH]; intros v H; cbn; [eauto|]. case_match; [|auto].
  destruct (H s v ltac:(done)) as [[[found|] v1] E]; rewrite E; cbn; [eauto|].
  apply search_search_ok in E as [[S _] _]. apply IH. intros n w Hw. apply H. set_solver.
Qed.

Lemma search_total fuel n v : size (dom reg ∖ v) < fuel -> is_Some (search reg fuel methodName n v).
Proof.
  revert n v. induction fuel as [|f IH]; intros n v H; [lia|]. cbn.
  destruct (reg !! n) as [info|] eqn:L; [|eauto]. case_bool_decide as Hin; [eauto|]. case_match; [eauto|].
  apply search_supers_total. intros n' w Hw. apply IH. eapply Nat.lt_le_trans; [|apply Nat.lt_succ_r, H].
  apply subset_size. apply elem_of_dom_2 in L. set_solver.
Qed.
End MethodSearch.

(** The search for a method through the super-aspects ends on every
    registry, cyclic ones included, after at most one visit per registered
    aspect. It finds a method exactly when the aspect or one of its
    super-aspects, at any distance, declares it, and what it returns is the
    first declaration of that name in the aspect that declares it. *)
Theorem findAspectMethod_exact reg fuel aspectName methodName :
  size (dom reg) < fuel ->
  exists r, findAspectMethod reg fuel aspectName methodName = Some r /\
    match r with
    | Some (info, tm) => exists k, rtc (super_of reg) aspectName k /\ reg !! k = Some info
        /\ find_method info methodName = Some tm
    | None => forall k info, rtc (super_of reg) aspectName k -> reg !! k = Some info ->
        find_method info methodName = None
    end.
Proof.
  intros H. unfold findAspectMethod.
  destruct (search_total reg methodName fuel aspectName ∅) as [[r v] E].
  { by rewrite difference_empty_L. }
  rewrite E. exists r. split; [done|]. apply search_search_ok in E. destruct r as [[info tm]|]; [done|].
  destruct E as [[_ P] Hn]. assert (Q : forall k, k ∈ v -> _) by (intros k Hk; exact (P k Hk (not_elem_of_empty k))).
  intros k info R L. assert (K : k ∈ v \/ reg !! k = None).
  { refine (rtc_stays reg (fun k => k ∈ v \/ reg !! k = None) aspectName k _ R Hn).
    intros a b Ha (ia & La & Hb). destruct Ha as [Ha|?]; [|congruence].
    destruct (Q a Ha) as (ia' & La' & _ & Hs). apply Hs. congruence. }
  destruct K as [K|?]; [|congruence]. destruct (Q k K) as (i' & L' & F & _). congruence.
Qed.

(** *** The check of the whole graph *)

(** [st'] is [st] with errors added, none exactly when [P] holds. *)
Definition same_bindings (st st' : AspectState) : Prop :=
  traitRegistry st' = traitRegistry st /\ traitImpls (boundary st') = traitImpls (boundary st)
  /\ genericTraitImpls (boundary st') = genericTraitImpls (boundary st).

Definition reports_unless (P : Prop) (st st' : AspectState) : Prop :=
  same_bindings st st' /\ exists es, reports (boundary st') = reports (boundary st) ++ es /\ (es = [] <-> P).

Lemma reports_none (P : Prop) st : P -> reports_unless P st st.
Proof. intros H. split; [done|]. exists []. by rewrite app_nil_r. Qed.

Lemma reports_error (P : Prop) m n st : ~ P -> reports_unless P st (asp_error m n st).
Proof.
  intros H. split; [done|]. destruct (reports_report m n (boundary st)) as [e E]. exists [e]. by split.
Qed.

Lemma reports_trans P Q st1 st2 st3 :
  reports_unless P st1 st2 -> reports_unless Q st2 st3 -> reports_unless (P /\ Q) st1 st3.
Proof.
  intros [(A1 & A2 & A3) (es & E & H)] [(B1 & B2 & B3) (es' & E' & H')].
  split; [unfold same_bindings; split_and!; congruence|].
  exists (es ++ es'). split; [by rewrite E', E, app_assoc|]. rewrite <- H, <- H'. apply app_nil.
Qed.

Lemma reports_iff P Q st st' : (P <-> Q) -> reports_unless P st st' -> reports_unless Q st st'.
Proof. intros H [S (es & E & He)]. split; [done|]. exists es. by rewrite <- H. Qed.

Lemma same_bindings_hasAspectBinding st st' ty a :
  same_bindings st st' -> hasAspectBinding (boundary st') ty a = hasAspectBinding (boundary st) ty a.
Proof. intros (_ & H1 & H2). unfold hasAspectBinding. by rewrite H1, H2. Qed.

Lemma check_supers_reports fuel info l st st' : check_supers fuel info l st = Some st' ->
  reports_unless (forall s, s ∈ l -> is_Some (traitRegistry st !! s)
    /\ findCycle (traitRegistry st) fuel (ti_name info) s 1 = Some false) st st'
  /\ forall s, s ∈ l -> is_Some (traitRegistry st !! s) ->
       is_Some (findCycle (traitRegistry st) fuel (ti_name info) s 1).
Proof.
  revert st. induction l as [|s l IH]; intros st H; cbn [check_supers] in H.
  { injection H as <-. split; [apply reports_none|]; intros s Hs; by apply elem_of_nil in Hs. }
  destruct (traitRegistry st !! s) as [i|] eqn:L.
  - apply bind_Some in H as (c & Hc & H). destruct c; apply IH in H as [H T]; cbn [traitRegistry asp_error] in H, T; split.
    + eapply reports_iff; [|eapply reports_trans; [apply (reports_error False); tauto|exact H]].
      split; [tauto|]. intros F. destruct (F s ltac:(by left)). congruence.
    + intros s' [->|Hs']%elem_of_cons; [by rewrite Hc|auto].
    + eapply reports_iff; [|exact H]. setoid_rewrite elem_of_cons. split; [|naive_solver].
      intros F s' [->|Hs']; [rewrite L; eauto|auto].
    + intros s' [->|Hs']%elem_of_cons; [by rewrite Hc|auto].
  - apply IH in H as [H T]; cbn [traitRegistry asp_error] in H, T. split.
    + eapply reports_iff; [|eapply reports_trans; [apply (reports_error False); tauto|exact H]].
      split; [tauto|]. intros F. destruct (F s ltac:(by left)) as [[? ?] _]. congruence.
    + intros s' [->|Hs']%elem_of_cons; [intros [? ?]; congruence|auto].
Qed.

Definition binders_ok (st : AspectState) (aspect superName : str) (types : list (str * gset str)) : Prop :=
  forall ty bound, (ty, bound) ∈ types -> aspect ∈ bound -> hasAspectBinding (boundary st) ty superName = true.

Lemma check_binders_reports kind info s types st :
  reports_unless (binders_ok st (ti_name info) s types) st (check_binders kind info s types st).
Proof.
  revert st. induction types as [|[ty bound] types IH]; intros st; cbn [check_binders].
  { apply reports_none. intros ? ? H. by apply elem_of_nil in H. }
  set (bad := bool_decide (ti_name info ∈ bound) && negb (hasAspectBinding (boundary st) ty s)).
  assert (A : reports_unless (bad = false) st
    (if bad then asp_error (binding_message kind ty (ti_name info) s) (Some (ti_declaration info)) st else st)).
  { destruct bad; [by apply reports_error|by apply reports_none]. }
  assert (Hb : bad = false <-> ti_name info ∉ bound \/ hasAspectBinding (boundary st) ty s = true)
    by (unfold bad; by rewrite andb_false_iff, bool_decide_eq_false, negb_false_iff).
  eapply reports_iff; [|eapply reports_trans; [exact A|apply IH]]. rewrite Hb. unfold binders_ok.
  setoid_rewrite (same_bindings_hasAspectBinding _ _ _ _ (proj1 A)). setoid_rewrite elem_of_cons. split.
  - intros [H1 H2] ty' bound' [[= -> ->]|Hin] Ha; [by destruct H1|by eapply H2].
  - intros F. split; [|naive_solver]. destruct (decide (ti_name info ∈ bound)); [right; naive_solver|by left].
Qed.

Definition super_bound (st : AspectState) (aspect s : str) : Prop :=
  binders_ok st aspect s (map_to_list (traitImpls (boundary st)))
  /\ binders_ok st aspect s (map_to_list (genericTraitImpls (boundary st))).

Lemma super_bound_same st st' aspect s : same_bindings st st' -> super_bound st' aspect s <-> super_bound st aspect s.
Proof.
  intros S. pose proof S as (_ & H1 & H2). unfold super_bound, binders_ok. rewrite H1, H2.
  by setoid_rewrite (same_bindings_hasAspectBinding _ _ _ _ S).
Qed.

Lemma check_bindings_reports info l st :
  reports_unless (forall s, s ∈ l -> super_bound st (ti_name info) s) st (check_bindings info l st).
Proof.
  revert st. induction l as [|s l IH]; intros st; cbn [check_bindings].
  { apply reports_none. intros s H. by apply elem_of_nil in H. }
  pose proof (check_binders_reports $"Type" info s (map_to_list (traitImpls (boundary st))) st) as A.
  set (st1 := check_binders $"Type" _ _ _ _) in *.
  pose proof (check_binders_reports $"Generic type" info s (map_to_list (genericTraitImpls (boundary st))) st1) as B.
  set (st2 := check_binders $"Generic type" _ _ _ _) in *.
  pose proof (reports_trans _ _ _ _ _ A B) as AB.
  eapply reports_iff; [|eapply reports_trans; [exact AB|apply IH]].
  setoid_rewrite (super_bound_same _ _ _ _ (proj1 AB)). setoid_rewrite elem_of_cons.
  assert (HB : forall types, binders_ok st1 (ti_name info) s types <-> binders_ok st (ti_name info) s types).
  { intros types. unfold binders_ok. by setoid_rewrite (same_bindings_hasAspectBinding _ _ _ _ (proj1 A)). }
  rewrite HB. split.
  - intros [H1 H2] s' [->|Hs']; [exact H1|by apply H2].
  - intros H. split; [apply H; by left|intros s' Hs'; apply H; by right].
Qed.

(** One fuel for every pair of an entry and one of its names. *)
Lemma fuel_for_all {A} (P : A -> str -> nat -> Prop) (names : A -> list str) (l : list A) :
  (forall e s f f', f <= f' -> P e s f -> P e s f') -> (forall e s, exists f, P e s f) ->
  exists n, forall e s, e ∈ l -> s ∈ names e -> forall f, n <= f -> P e s f.
Proof.
  intros M T. assert (One : forall (e : A) (ns : list str), exists n, forall s, s ∈ ns -> forall f, n <= f -> P e s f).
  { intros e. induction ns as [|s ns [n IH]]; [exists 0; intros s Hs; by apply elem_of_nil in Hs|].
    destruct (T e s) as [f Hf]. exists (f `max` n). intros s' [->|Hs]%elem_of_cons f' Hf'.
    - by apply (M e s f); [lia|].
    - apply IH; [done|lia]. }
  induction l as [|e l [n IH]]; [exists 0; intros e s He; by apply elem_of_nil in He|].
  destruct (One e (names e)) as [m Hm]. exists (n `max` m).
  intros e' s [->|He]%elem_of_cons Hs f Hf; [apply Hm|apply IH]; (done || lia).
Qed.

(** What the check asks of one aspect. *)
Definition supers_fine (fuel : nat) (st : AspectState) (info : TraitInfo) : Prop :=
  forall s, s ∈ superTraits info -> is_Some (traitRegistry st !! s)
    /\ findCycle (traitRegistry st) fuel (ti_name info) s 1 = Some false /\ super_bound st (ti_name info) s.

Lemma supers_fine_same fuel st st' info : same_bindings st st' -> supers_fine fuel st' info <-> supers_fine fuel st info.
Proof.
  intros S. pose proof S as (Hr & _). unfold supers_fine. rewrite Hr. by setoid_rewrite (super_bound_same _ _ _ _ S).
Qed.

Lemma validate_entries_reports fuel entries st st' : validate_entries fuel entries st = Some st' ->
  reports_unless (forall k info, (k, info) ∈ entries -> supers_fine fuel st info) st st'
  /\ forall k info s, (k, info) ∈ entries -> s ∈ superTraits info -> is_Some (traitRegistry st !! s) ->
       is_Some (findCycle (traitRegistry st) fuel (ti_name info) s 1).
Proof.
  revert st. induction entries as [|[k info] entries IH]; intros st H; cbn [validate_entries] in H.
  { injection H as <-. split; [apply reports_none; intros ? ? H|intros ? ? ? H]; by apply elem_of_nil in H. }
  assert (exists st1, check_supers fuel info (superTraits info) st = Some st1
    /\ validate_entries fuel entries (check_bindings info (superTraits info) st1) = Some st') as (st1 & H1 & H2).
  { destruct (superTraits info); [by exists st|]. by apply bind_Some in H. }
  apply check_supers_reports in H1 as [R1 T1]. pose proof (check_bindings_reports info (superTraits info) st1) as R2.
  pose proof (reports_trans _ _ _ _ _ R1 R2) as R12. apply IH in H2 as [R3 T3]. split.
  - eapply reports_iff; [|eapply reports_trans; [exact R12|exact R3]].
    setoid_rewrite (supers_fine_same _ _ _ _ (proj1 R12)). setoid_rewrite (super_bound_same _ _ _ _ (proj1 R1)).
    setoid_rewrite elem_of_cons. unfold supers_fine. split.
    + intros [[F G] E] k' info' [[= -> ->]|Hin]; [|by eapply E]. intros s Hs. destruct (F s Hs). split_and!; auto.
    + intros E. split; [|intros k' info' Hin; eapply E; by right].
      split; intros s Hs; destruct (E k info ltac:(by left) s Hs) as (? & ? & ?); auto.
  - rewrite (proj1 (proj1 R12)) in T3. intros k' info' s [[= -> ->]|Hin]%elem_of_cons Hs Hr; [by apply T1|by eapply T3].
Qed.

(** Every aspect is registered under its own name. *)
Definition registry_ok (reg : gmap str TraitInfo) : Prop := forall k info, reg !! k = Some info -> ti_name info = k.

(** The contract of the check. *)
Definition inheritance_fine (st : AspectState) : Prop :=
  forall k info s, traitRegistry st !! k = Some info -> s ∈ superTraits info ->
    is_Some (traitRegistry st !! s) /\ ~ rtc (super_of (traitRegistry st)) s k /\ super_bound st k s.


Lemma check_supers_total fuel info l st :
  (forall s, s ∈ l -> is_Some (findCycle (traitRegistry st) fuel (ti_name info) s 1)) ->
  is_Some (check_supers fuel info l st).
Proof.
  revert st. induction l as [|s l IH]; intros st H; cbn [check_supers]; [eauto|]. case_match.
  - destruct (H s ltac:(by left)) as [c ->]. cbn. apply IH. intros s' Hs'. destruct c; apply H; by right.
  - apply IH. intros s' Hs'. apply H. by right.
Qed.

Lemma validate_entries_total fuel entries st :
  (forall k info s, (k, info) ∈ entries -> s ∈ superTraits info ->
     is_Some (findCycle (traitRegistry st) fuel (ti_name info) s 1)) ->
  is_Some (validate_entries fuel entries st).
Proof.
  revert st. induction entries as [|[k info] entries IH]; intros st H; cbn [validate_entries]; [eauto|].
  destruct (superTraits info) as [|s0 l] eqn:Es.
  { apply IH. intros k' info' s Hin. apply (H k' info' s). by right. }
  rewrite <- Es. destruct (check_supers_total fuel info (superTraits info) st) as [st1 E1].
  { intros s Hs. apply (H k info s); [by left|done]. }
  rewrite E1. cbn. apply IH. intros k' info' s Hin Hs.
  apply check_supers_reports in E1 as [R1 _].
  rewrite (proj1 (proj1 (reports_trans _ _ _ _ _ R1 (check_bindings_reports info (superTraits info) st1)))).
  apply (H k' info' s); [by right|done].
Qed.

(** On a registry without an endless chain of super-aspects the check
    returns: there is a depth of recursion that is enough for every aspect. *)
Theorem inheritance_check_terminates st :
  (forall k, Acc (fun y x => super_of (traitRegistry st) x y) k) ->
  exists n, forall fuel, n <= fuel -> is_Some (validateAspectInheritance fuel st).
Proof.
  intros A. assert (N : exists n, forall k info s, (k, info) ∈ map_to_list (traitRegistry st) -> s ∈ superTraits info ->
    forall fuel, n <= fuel -> is_Some (findCycle (traitRegistry st) fuel (ti_name info) s 1)).
  { enough (exists n, forall e s, e ∈ map_to_list (traitRegistry st) -> s ∈ superTraits e.2 ->
      forall fuel, n <= fuel -> is_Some (findCycle (traitRegistry st) fuel (ti_name e.2) s 1)) as [n Hn]
      by (exists n; intros k info s Hin; exact (Hn (k, info) s Hin)).
    apply (fuel_for_all (fun e s fuel => is_Some (findCycle (traitRegistry st) fuel (ti_name e.2) s 1))
      (fun e => superTraits e.2) (map_to_list (traitRegistry st))).
    - intros e s f f' Hf [b Hb]. exists b. by eapply findCycle_mono.
    - intros e s. apply findCycle_total, A. }
  destruct N as [n Hn]. exists n. intros fuel Hf. apply validate_entries_total. eauto.
Qed.

(** The search for cycles keeps no record of the aspects it has visited.
    When an aspect has a super-aspect from which a cycle can be reached that
    does not lead back to the aspect, such as an aspect below two aspects that
    extend each other, the check never returns. *)
Theorem cycle_elsewhere_diverges fuel st k info s x :
  registry_ok (traitRegistry st) -> traitRegistry st !! k = Some info -> s ∈ superTraits info ->
  rtc (super_of (traitRegistry st)) s x -> tc (super_of (traitRegistry st)) x x ->
  ~ rtc (super_of (traitRegistry st)) s k ->
  validateAspectInheritance fuel st = None.
Proof.
  intros Hok L Hs R C N. destruct (validateAspectInheritance fuel st) as [st'|] eqn:E; [exfalso|done].
  assert (Hr : is_Some (traitRegistry st !! s)).
  { assert (D : forall a b, super_of (traitRegistry st) a b -> is_Some (traitRegistry st !! a)) by (intros a b (i & -> & _); eauto).
    inversion R; subst; [inversion C|]; subst; eauto. }
  apply validate_entries_reports in E as [_ T].
  destruct (T k info s) as [c Ec]; [by apply elem_of_map_to_list|done|done|]. rewrite (Hok _ _ L) in Ec.
  destruct c; [by apply findCycle_true in Ec|].
  apply findCycle_false_acc in Ec as [A _]; [|done]. by eapply Acc_no_cycle.
Qed.

(** *** Declarations *)

(** The declarations the visitor registers: named parameters and methods, and
    associated types that are there and differ. *)
Definition decl_ok (decl : AspectDecl) : Prop :=
  forallb generic_ok (ad_genericParams decl) = true
  /\ (forall o, o ∈ ad_associatedTypes decl -> is_Some o)
  /\ NoDup (omap (fun o => name <$> o) (ad_associatedTypes decl))
  /\ forall o, o ∈ ad_methods decl -> exists m i, o = Some m /\ fn_id m = Some i.

Lemma associated_error_none t n seen l :
  associated_error t n seen l = None <->
  (forall o, o ∈ l -> is_Some o) /\ NoDup (omap (fun o => name <$> o) l)
  /\ forall x, x ∈ omap (fun o => name <$> o) l -> x ∉ seen.
Proof.
  revert seen. induction l as [|[a|] l IH]; intros seen; cbn [associated_error omap list_omap].
  - split; [|done]. intros _. split_and!; [intros o Ho; by apply elem_of_nil in Ho|constructor|set_solver].
  - change (name <$> Some a) with (Some (name a)). cbn [omap list_omap]. case_bool_decide as Hin.
    + split; [done|]. intros (_ & _ & F). exfalso. by apply (F (name a)); [left|].
    + rewrite IH, NoDup_cons. split.
      * intros (H1 & H2 & H3). split_and!; [|set_solver|done|set_solver].
        intros o [->|?]%elem_of_cons; [eauto|auto].
      * intros (H1 & [H2 H3] & H4). split_and!; [intros o Ho; apply H1; by right|done|set_solver].
  - split; [done|]. intros (H & _). by destruct (H None ltac:(by left)).
Qed.

Lemma check_methods_fst t n l st :
  (check_methods t n l st).1 = true <-> forall o, o ∈ l -> exists m i, o = Some m /\ fn_id m = Some i.
Proof.
  revert st. induction l as [|o l IH]; intros st; cbn [check_methods].
  { split; [|done]. intros _ o Ho. by apply elem_of_nil in Ho. }
  setoid_rewrite elem_of_cons. destruct o as [m|]; cbn.
  - destruct (fn_id m) as [i|] eqn:E; cbn; [rewrite IH; naive_solver|]. split; [done|].
    intros H. destruct (H (Some m) ltac:(by left)) as (? & ? & [= <-] & ?). congruence.
  - split; [done|]. intros H. by destruct (H None ltac:(by left)) as (? & ? & ? & _).
Qed.

Lemma check_methods_registry t n l st : traitRegistry (check_methods t n l st).2 = traitRegistry st.
Proof.
  revert st. induction l as [|o l IH]; intros st; cbn [check_methods]; [done|]. case_match; [|done].
  case_match. rewrite IH. unfold method_errors. repeat case_match; done.
Qed.

Lemma visit_aspect_cases decl i st :
  ad_name decl = Some i ->
  (traitRegistry (visit_AspectDeclaration (Some decl) st) = <[name i := new_TraitInfo decl]> (traitRegistry st)
     /\ traitRegistry st !! name i = None /\ decl_ok decl)
  \/ (traitRegistry (visit_AspectDeclaration (Some decl) st) = traitRegistry st
     /\ (is_Some (traitRegistry st !! name i) \/ ~ decl_ok decl)).
Proof.
  intros N. unfold visit_AspectDeclaration. rewrite N.
  destruct (traitRegistry st !! name i) as [x|] eqn:L; [right; split; [done|left; eauto]|].
  destruct (forallb generic_ok _) eqn:G; cbn [negb]; [|right; split; [done|]; right; intros (F & _); congruence].
  destruct (associated_error _ _ _ _) as [[m at_]|] eqn:A.
  { right. split; [done|]. right. intros (_ & H1 & H2 & _).
    rewrite (proj2 (associated_error_none _ _ _ _)) in A; [done|]. split_and!; [done..|set_solver]. }
  apply associated_error_none in A as (A1 & A2 & _).
  pose proof (check_methods_fst (name i) (ad_node decl) (ad_methods decl) st) as F.
  pose proof (check_methods_registry (name i) (ad_node decl) (ad_methods decl) st) as R.
  destruct (check_methods _ _ _ st) as [[] st1]; cbn in F, R; [left|right; split; [done|]; right; intros (_ & _ & _ & M); by apply F in M].
  split_and!; [|done|split_and!; [done..|by apply F]].
  unfold add_symbol. assert (Hr : traitRegistry (registerTrait decl st1) = <[name i := new_TraitInfo decl]> (traitRegistry st)).
  { unfold registerTrait. rewrite N. cbn. by rewrite R, N. }
  case_match; done.
Qed.

(** Declaring an aspect registers it exactly when its name is new and the
    declaration is well formed: type parameters and methods have names, and
    the associated types are present and differ. A registered aspect is never
    replaced, and every aspect stays registered under its own name. *)
Theorem visit_aspect_registers decl i st :
  ad_name decl = Some i ->
  let reg := traitRegistry st in
  let reg' := traitRegistry (visit_AspectDeclaration (Some decl) st) in
  (forall k info, reg !! k = Some info -> reg' !! k = Some info)
  /\ (registry_ok reg -> registry_ok reg')
  /\ (reg !! name i = None -> (reg' !! name i = Some (new_TraitInfo decl) <-> decl_ok decl)
       /\ (is_Some (reg' !! name i) <-> decl_ok decl)).
Proof.
  intros N. cbv zeta. assert (Hname : ti_name (new_TraitInfo decl) = name i) by (cbn; by rewrite N).
  destruct (visit_aspect_cases decl i st N) as [(-> & L & D)|[-> D]].
  - split_and!.
    + intros k info H. rewrite lookup_insert_ne by congruence. done.
    + intros H k info [[<- <-]|[_ ?]]%lookup_insert_Some; auto.
    + intros _. rewrite lookup_insert_eq. split; [done|]. split; [done|eauto].
  - split_and!; [done..|]. intros L. rewrite L. destruct D as [[? ?]|D]; [congruence|].
    split; [done|]. split; [by intros [? ?]|done].
Qed.

(** ** Concrete registries *)

Definition ident_named (s : str) : Identifier := mkIdentifier test_node s.
Definition simple_method (m : str) : Function_ :=
  mkFunction test_node (Some (ident_named m)) [] [mkFunctionParameter (ident_named $"self") None false] None false false
    false (Some (named $"Int" [])) 0.
Definition simple_aspect (a : str) (supers : list str) (methods : list str) : AspectDecl :=
  mkAspectDecl test_node (Some (ident_named a)) [] (map (fun s => Some (ident_named s)) supers) [] [] []
    (map (fun m => Some (simple_method m)) methods).

Definition empty_aspects : AspectState :=
  mkAspectState (mkBoundary sample_analyzer ∅ ∅ ∅ ∅ ∅ ∅ ∅) ∅.

Definition declare_all (ds : list AspectDecl) : AspectState :=
  fold_left (fun st d => visit_AspectDeclaration (Some d) st) ds empty_aspects.

(** A line of aspects, and an aspect below a cycle. *)
Definition chain_aspects : AspectState :=
  declare_all [simple_aspect $"Base" [] [$"show"]; simple_aspect $"Mid" [$"Base"] []; simple_aspect $"Top" [$"Mid"] []].
Definition below_cycle : AspectState :=
  declare_all [simple_aspect $"A" [$"B"] []; simple_aspect $"B" [$"C"] []; simple_aspect $"C" [$"B"] []].
Definition two_cycle : AspectState :=
  declare_all [simple_aspect $"A" [$"B"] []; simple_aspect $"B" [$"A"] []].

Lemma visit_registry_ok decl st :
  registry_ok (traitRegistry st) -> registry_ok (traitRegistry (visit_AspectDeclaration (Some decl) st)).
Proof.
  intros H. destruct (ad_name decl) as [i|] eqn:N; [|by unfold visit_AspectDeclaration; rewrite N].
  destruct (visit_aspect_cases decl i st N) as [(-> & _ & _)|[-> _]]; [|done].
  intros k info [[<- <-]|[_ ?]]%lookup_insert_Some; [cbn; by rewrite N|auto].
Qed.

Lemma declare_all_ok ds : registry_ok (traitRegistry (declare_all ds)).
Proof.
  unfold declare_all. assert (H : registry_ok (traitRegistry empty_aspects)) by done. revert H.
  generalize empty_aspects. induction ds as [|d ds IH]; intros st H; cbn; [done|]. by apply IH, visit_registry_ok.
Qed.

(** A registry whose chains end, by evaluation. *)
Lemma acc_by_search reg fuel start :
  forallb (fun e : str * TraitInfo => bool_decide (findCycle reg fuel start e.1 1 = Some false)) (map_to_list reg) = true ->
  forall k, Acc (fun y x => super_of reg x y) k.
Proof.
  intros H k. destruct (reg !! k) as [info|] eqn:L.
  - rewrite forallb_forall in H. specialize (H (k, info)). rewrite bool_decide_eq_true in H.
    eapply findCycle_false_acc, H; [done|]. by apply list_elem_of_In, elem_of_map_to_list.
  - constructor. intros y (? & ? & _). congruence.
Qed.

Example two_cycle_reported :
  (fun st => length (reports (boundary st))) <$> validateAspectInheritance 10 two_cycle = Some 2.
Proof. vm_compute. reflexivity. Qed.

Lemma visit_aspect_registers_witness :
  traitRegistry (visit_AspectDeclaration (Some (simple_aspect $"Show" [] [$"show"])) empty_aspects) !! $"Show"
  = Some (new_TraitInfo (simple_aspect $"Show" [] [$"show"])).
Proof.
  pose proof (visit_aspect_registers (simple_aspect $"Show" [] [$"show"]) (ident_named $"Show") empty_aspects eq_refl)
    as (_ & _ & H).
  apply (H eq_refl). split_and!; [reflexivity|intros o Ho; by apply elem_of_nil in Ho|constructor|].
  intros o ->%list_elem_of_singleton. by eexists _, _.
Defined.

Lemma findAspectMethod_exact_witness :
  exists r, findAspectMethod (traitRegistry chain_aspects) 4 $"Top" $"show" = Some r /\ is_Some r.
Proof.
  destruct (findAspectMethod_exact (traitRegistry chain_aspects) 4 $"Top" $"show") as (r & E & _); [vm_compute; lia|].
  exists r. split; [done|]. revert E. vm_compute. intros [= <-]. eauto.
Defined.


Lemma inheritance_check_terminates_witness :
  exists n, forall fuel, n <= fuel -> is_Some (validateAspectInheritance fuel chain_aspects).
Proof.
  apply inheritance_check_terminates. apply (acc_by_search _ 10 $"?"). vm_compute. reflexivity.
Defined.

Lemma cycle_elsewhere_diverges_witness : validateAspectInheritance 1000 below_cycle = None.
Proof.
  assert (S : forall a b, super_of (traitRegistry below_cycle) a b ->
    (a = $"A" /\ b = $"B") \/ (a = $"B" /\ b = $"C") \/ (a = $"C" /\ b = $"B")).
  { intros a b (info & L & Hb).
    assert (traitRegistry below_cycle =
      <[$"C" := new_TraitInfo (simple_aspect $"C" [$"B"] [])]> (<[$"B" := new_TraitInfo (simple_aspect $"B" [$"C"] [])]>
        {[ $"A" := new_TraitInfo (simple_aspect $"A" [$"B"] []) ]})) as R by (vm_compute; reflexivity).
    rewrite R in L.
    apply lookup_insert_Some in L as [[<- <-]|[_ L]]; [|apply lookup_insert_Some in L as [[<- <-]|[_ [<- <-]%lookup_singleton_Some]]];
      apply list_elem_of_singleton in Hb as ->; auto. }
  assert (E1 : super_of (traitRegistry below_cycle) $"B" $"C") by (eexists; split; [vm_compute; reflexivity|left]).
  assert (E2 : super_of (traitRegistry below_cycle) $"C" $"B") by (eexists; split; [vm_compute; reflexivity|left]).
  refine (cycle_elsewhere_diverges 1000 below_cycle $"A" (new_TraitInfo (simple_aspect $"A" [$"B"] [])) $"B" $"B"
    (declare_all_ok _) _ _ _ _ _).
  - vm_compute. reflexivity.
  - left.
  - constructor.
  - eapply tc_l; [exact E1|]. by apply tc_once.
  - intros R. assert ($"A" = $"B" \/ $"A" = $"C") as [?|?]; [|done..].
    refine (rtc_stays _ (fun k => k = $"B" \/ k = $"C") $"B" $"A" _ R (or_introl eq_refl)).
    intros a b Ha Hab. destruct (S a b Hab) as [[-> ->]|[[-> ->]|[-> ->]]]; auto.
Defined.
