(* ===== verification/ParserMonad.v ===== *)
(** * The effects of the parsers

    The parsers share the cursor [pos_] by reference and draw node ids from
    the counter of [ast::Node]; they throw, and some catch what they called
    and put the cursor back. A parser is therefore a function from the state
    to a result that carries the state also when it throws, and to [None]
    while it has not returned. *)

From S2P Require Import Prelude.
From S2P Require Import Token.
From S2P Require Import Ast.
From S2P Require Import AstTypes.
From S2P Require Import TokenStream.

(** What the parsers share besides the cursor. The expression parser holds a
    pointer to a statement parser, which may be null and, after a statement
    parser on the stack has gone, dangling; [std::set<std::string>] is the list
    of its elements. *)
Inductive StatementParserPtr : Type := null_parser | valid_parser | dangling_parser.

Record ParserEnv : Type := mkEnv {
  knownTypeNames_ : list str;
  elseInfixEnabled_ : bool;
  stmt_parser_ : StatementParserPtr;
  decl_parser_ : bool;                  (* the pointer is not null *)
  functionVarNames_ : list str;
  moduleVarNames_ : list str
}.

Record ParseState : Type := mkPState {
  stream : BaseParser;
  node_counter : Z;
  env : ParserEnv
}.

(** What the constructor of [Parser] sets up: no names yet, the infix [else]
    on, and the sub-parsers pointing to each other. *)
Definition initial_env : ParserEnv := mkEnv [] true valid_parser true [] [].

Inductive presult (A : Type) : Type :=
| Return (a : A) (st : ParseState)
| Raise (e : exn) (st : ParseState).
Arguments Return {A} _ _.
Arguments Raise {A} _ _.

Definition parser (A : Type) : Type := ParseState -> option (presult A).

#[global] Instance parser_ret : MRet parser := fun A a st => Some (Return a st).
#[global] Instance parser_bind : MBind parser := fun A B k m st =>
  match m st with
  | Some (Return a st') => k a st'
  | Some (Raise e st') => Some (Raise e st')
  | None => None
  end.

Definition no_fuel {A} : parser A := fun _ => None.

(** ** The operations of [BaseParser] *)

Definition on_stream {A} (f : BaseParser -> outcome (A * BaseParser)) : parser A := fun st =>
  match f (stream st) with
  | Ok (a, P) => Some (Return a (mkPState P (node_counter st) (env st)))
  | Throw e => Some (Raise e st)
  end.

Definition reading {A} (f : BaseParser -> outcome A) : parser A :=
  on_stream (fun P => a ← f P; Ok (a, P)).

Definition peek_p : parser Token := reading peek.
Definition previous_p : parser Token := reading previous_token.
Definition location_p : parser SourceLocation := reading (fun P => Ok (current_location P)).
Definition at_end_p : parser bool := reading (fun P => Ok (IsAtEnd P)).
Definition skip_p : parser () := on_stream (fun P => Ok (tt, skip_comments_and_newlines P)).
Definition expect_p (ty : TokenType) : parser Token := on_stream (fun P => expect P ty).
Definition match_p (ty : TokenType) : parser bool :=
  on_stream (fun P => '(o, P') ← match_token P ty; Ok (match o with Some _ => true | None => false end, P')).
Definition put_back_p : parser () := on_stream (fun P => P' ← put_back_token P; Ok (tt, P')).
Definition get_pos_p : parser nat := reading (fun P => Ok (cursor P)).
Definition set_pos_p (p : nat) : parser () := on_stream (fun P => Ok (tt, set_pos P p)).

Definition consume_p : parser Token := on_stream consume.
Definition check_p (ty : TokenType) : parser bool := reading (fun P => Ok (check P ty)).
Definition peek_next_p : parser Token := reading peekNext.
Definition peek_ahead_p (k : nat) : parser Token := reading (fun P => peekAhead P k).
Definition expect_msg_p (ty : TokenType) (m : str) : parser Token := on_stream (fun P => expect_msg P ty m).
Definition match_tok_p (ty : TokenType) : parser (option Token) := on_stream (fun P => match_token P ty).
Definition skip_indents_p : parser () := on_stream (fun P => Ok (tt, skip_indents_dedents P)).
Definition reserved_name_p (follow : list TokenType) : parser bool := reading (fun P => reservedWordAsTypedName P follow).
Definition tokens_p : parser (list Token) := reading (fun P => Ok (tokens_ P)).
(** [pos_ < tokens_.size()] *)
Definition inside_p : parser bool := reading (fun P => Ok (cursor P <? length (tokens_ P))).

(** [check(a) || check(b) || ...] *)
Definition check_first (types : list TokenType) : parser bool := reading (fun P => Ok (existsb (check P) types)).
Definition lift_p {A} (o : outcome A) : parser A := reading (fun _ => o).
Definition throw_p {A} (m : str) : parser A := lift_p (throw_runtime m).

(** [location_to_string] of parser.hpp. *)
Definition location_to_string (l : SourceLocation) : str :=
  filePath l ++ $":" ++ to_string (line l) ++ $":" ++ to_string (column l).

Definition type_in (t : Token) (types : list TokenType) : bool := existsb (tteq (type t)) types.

(** [a || b || ...] over [match], left to right. *)
Fixpoint match_first (types : list TokenType) : parser bool :=
  match types with
  | [] => mret false
  | ty :: types' => b ← match_p ty; if b : bool then mret true else match_first types'
  end.

Fixpoint match_first_tok (types : list TokenType) : parser (option Token) :=
  match types with
  | [] => mret None
  | ty :: types' => o ← match_tok_p ty; match o with Some t => mret (Some t) | None => match_first_tok types' end
  end.

(** [throw this->error(this->peek(), m)]; the error method itself throws. *)
Definition error_at {A} (t : Token) (m : str) : parser A := reading (fun _ => error t m).
Definition error_here {A} (m : str) : parser A := t ← peek_p; error_at t m.

(** [Node(loc)]: the counter is incremented for every node. *)
Definition node_p (l : SourceLocation) : parser Node := fun st =>
  let '(n, c) := new_node l (node_counter st) in Some (Return n (mkPState (stream st) c (env st))).

(** [try { m } catch (const std::runtime_error&) { h }]: the handler runs in
    the state the exception left; other exceptions pass. *)
Definition try_runtime {A} (m : parser A) (h : exn -> parser A) : parser A := fun st =>
  match m st with
  | Some (Raise (runtime_error w) st') => h (runtime_error w) st'
  | r => r
  end.
Definition rethrow {A} (e : exn) : parser A := fun st => Some (Raise e st).

(** [try { m } catch (...) { h }]; undefined behaviour is not caught. *)
Definition try_any {A} (m : parser A) (h : parser A) : parser A := fun st =>
  match m st with
  | Some (Raise (undefined_behaviour w) st') => Some (Raise (undefined_behaviour w) st')
  | Some (Raise _ st') => h st'
  | r => r
  end.

(** ** The shared environment *)

Definition get_env {A} (f : ParserEnv -> A) : parser A := fun st => Some (Return (f (env st)) st).
Definition set_env (f : ParserEnv -> ParserEnv) : parser () := fun st =>
  Some (Return tt (mkPState (stream st) (node_counter st) (f (env st)))).

Definition in_names (n : str) (l : list str) : bool := existsb (streq n) l.
Definition is_known_type_name (n : str) (E : ParserEnv) : bool := in_names n (knownTypeNames_ E).
Definition isVariableDeclared (n : str) (E : ParserEnv) : bool :=
  in_names n (moduleVarNames_ E) || in_names n (functionVarNames_ E).

(** [if (!name.empty()) set.insert(name)] *)
Definition insert_name (n : str) (l : list str) : list str := if in_names n l || (n =s []) then l else n :: l.

Definition register_type_name (n : str) (E : ParserEnv) : ParserEnv :=
  mkEnv (insert_name n (knownTypeNames_ E)) (elseInfixEnabled_ E) (stmt_parser_ E) (decl_parser_ E)
    (functionVarNames_ E) (moduleVarNames_ E).
Definition set_else_infix_enabled (b : bool) (E : ParserEnv) : ParserEnv :=
  mkEnv (knownTypeNames_ E) b (stmt_parser_ E) (decl_parser_ E) (functionVarNames_ E) (moduleVarNames_ E).
Definition set_statement_parser (p : StatementParserPtr) (E : ParserEnv) : ParserEnv :=
  mkEnv (knownTypeNames_ E) (elseInfixEnabled_ E) p (decl_parser_ E) (functionVarNames_ E) (moduleVarNames_ E).
Definition resetFunctionScope (E : ParserEnv) : ParserEnv :=
  mkEnv (knownTypeNames_ E) (elseInfixEnabled_ E) (stmt_parser_ E) (decl_parser_ E) [] (moduleVarNames_ E).
Definition declareVariable (n : str) (E : ParserEnv) : ParserEnv :=
  mkEnv (knownTypeNames_ E) (elseInfixEnabled_ E) (stmt_parser_ E) (decl_parser_ E)
    (insert_name n (functionVarNames_ E)) (moduleVarNames_ E).
Definition declareGlobalVariable (n : str) (E : ParserEnv) : ParserEnv :=
  mkEnv (knownTypeNames_ E) (elseInfixEnabled_ E) (stmt_parser_ E) (decl_parser_ E)
    (functionVarNames_ E) (insert_name n (moduleVarNames_ E)).

(** ** The significant tokens ahead *)

Definition ahead (st : ParseState) : list Token := upcoming (stream st).
Definition live (st : ParseState) : Prop := tokens_ (stream st) <> [].
Definition same_tokens (st st' : ParseState) : Prop := tokens_ (stream st') = tokens_ (stream st).

Lemma peek_p_live st : live st ->
  peek_p st = Some (Return (match ahead st with t :: _ => t | [] => last_token (stream st) end) st).
Proof.
  intros H. unfold peek_p, reading, on_stream. rewrite (peek_upcoming _ H). by destruct st.
Qed.

Lemma skip_upcoming P : upcoming (skip_comments_and_newlines P) = upcoming P.
Proof. apply filter_skip. Qed.

(** Matching a kind: consumed when it comes next, nothing otherwise. *)
Lemma match_p_cases ty st : live st ->
  (exists t u st', ahead st = t :: u /\ type t = ty /\ match_p ty st = Some (Return true st') /\ ahead st' = u
     /\ previous_p st' = Some (Return t st') /\ same_tokens st st' /\ node_counter st' = node_counter st
     /\ exists st'', put_back_p st' = Some (Return tt st'') /\ ahead st'' = ahead st /\ same_tokens st st''
          /\ node_counter st'' = node_counter st)
  \/ (match_p ty st = Some (Return false st) /\ forall t u, ahead st = t :: u -> type t <> ty).
Proof.
  intros H. unfold match_p, on_stream, match_token. rewrite check_upcoming.
  destruct (upcoming (stream st)) as [|t u] eqn:E.
  { right. split; [by destruct st|]. intros t u F. unfold ahead in F. congruence. }
  destruct (type t =t ty) eqn:Et.
  2: { right. split; [by destruct st|]. intros t' u' F Ft. unfold ahead in F. rewrite E in F. injection F as <- <-.
    rewrite (proj2 (tteq_true _ _) Ft) in Et. done. }
  left. apply tteq_true in Et. destruct (put_back_stream (stream st) t u E) as (P' & Hc & Hu & Hp & P'' & Hb & Hu'' & T' & T'').
  exists t, u, (mkPState P' (node_counter st) (env st)). rewrite Hc. cbn. split_and!; try done.
  - unfold previous_p, reading, on_stream. cbn. rewrite Hp. done.
  - exists (mkPState P'' (node_counter st) (env st)). unfold put_back_p, on_stream. cbn. rewrite Hb. cbn. by split_and!.
Qed.

(** ** Reasoning about parsers *)

#[global] Instance same_tokens_preorder : PreOrder same_tokens.
Proof. split; [done|]. intros a b c H1 H2. unfold same_tokens in *. congruence. Qed.

Lemma same_tokens_live st st' : same_tokens st st' -> live st -> live st'.
Proof. unfold live, same_tokens. congruence. Qed.

(** What holds right after the token [t] has been consumed. *)
Record consumed (t : Token) (st st' : ParseState) : Prop := {
  consumed_ahead : ahead st = t :: ahead st';
  consumed_tokens : same_tokens st st';
  consumed_previous : previous_p st' = Some (Return t st');
  consumed_back : exists st'', put_back_p st' = Some (Return tt st'') /\ ahead st'' = ahead st /\ same_tokens st st''
}.

Lemma consumed_length t st st' : consumed t st st' -> length (ahead st) = S (length (ahead st')).
Proof. intros [-> _ _ _]. done. Qed.

Lemma match_p_consumed ty st : live st ->
  (exists t st', type t = ty /\ consumed t st st' /\ match_p ty st = Some (Return true st'))
  \/ (match_p ty st = Some (Return false st) /\ forall t u, ahead st = t :: u -> type t <> ty).
Proof.
  intros H. destruct (match_p_cases ty st H) as [(t & u & st' & E & Et & M & <- & Hp & T & _ & st'' & Hb & Hu & T2 & _)|?];
    [left|by right].
  exists t, st'. split_and!; [done| |done]. constructor; [done..|]. by exists st''.
Qed.

(** [m] returns, keeps the tokens, and what it returns satisfies [Q]. *)
Definition yields {A} (m : parser A) (st : ParseState) (Q : A -> ParseState -> Prop) : Prop :=
  exists a st', m st = Some (Return a st') /\ same_tokens st st' /\ Q a st'.

Lemma yields_ret {A} (a : A) st (Q : A -> ParseState -> Prop) : Q a st -> yields (mret a) st Q.
Proof. intros H. exists a, st. by split_and!. Qed.

Lemma yields_bind {A B} (m : parser A) (k : A -> parser B) st Q :
  yields m st (fun a st' => same_tokens st st' -> yields (k a) st' Q) -> yields (m ≫= k) st Q.
Proof.
  intros (a & st' & E & T & H). destruct (H T) as (b & st2 & E2 & T2 & H2). exists b, st2.
  unfold mbind, parser_bind. rewrite E. split_and!; [done|by etrans|done].
Qed.

Lemma yields_mono {A} (m : parser A) st (Q Q' : A -> ParseState -> Prop) :
  yields m st Q -> (forall a st', same_tokens st st' -> Q a st' -> Q' a st') -> yields m st Q'.
Proof. intros (a & st' & E & T & H) F. exists a, st'. split_and!; auto. Qed.

Lemma yields_try {A} (m : parser A) h st Q : yields m st Q -> yields (try_runtime m h) st Q.
Proof. intros (a & st' & E & T & H). exists a, st'. unfold try_runtime. rewrite E. by split_and!. Qed.

Lemma yields_peek st (Q : Token -> ParseState -> Prop) : live st ->
  (forall t, (forall u v, ahead st = u :: v -> t = u) -> Q t st) -> yields peek_p st Q.
Proof.
  intros L H. eexists _, st. rewrite (peek_p_live _ L). split_and!; [done..|]. apply H. by intros u v ->.
Qed.

Lemma yields_previous t st st' (Q : Token -> ParseState -> Prop) :
  consumed t st st' -> Q t st' -> yields previous_p st' Q.
Proof. intros C H. exists t, st'. split_and!; [by apply C|done|done]. Qed.

Lemma yields_get_pos st (Q : nat -> ParseState -> Prop) : Q (cursor (stream st)) st -> yields get_pos_p st Q.
Proof. intros H. eexists _, _. split_and!; [reflexivity|done|]. by destruct st. Qed.

Lemma yields_node l st (Q : Node -> ParseState -> Prop) :
  (forall n st', stream st' = stream st -> Q n st') -> yields (node_p l) st Q.
Proof.
  intros H. unfold yields, node_p. destruct (new_node _ _) as [n c]. eexists n, _. split_and!; [reflexivity|done|]. by apply H.
Qed.

Lemma yields_skip st (Q : () -> ParseState -> Prop) :
  (forall st', ahead st' = ahead st -> Q tt st') -> yields skip_p st Q.
Proof. intros H. eexists tt, _. split_and!; [reflexivity|done|]. apply H, skip_upcoming. Qed.

Lemma yields_hit t u ty st (Q : bool -> ParseState -> Prop) : live st -> ahead st = t :: u -> type t = ty ->
  (forall st', consumed t st st' -> ahead st' = u -> Q true st') -> yields (match_p ty) st Q.
Proof.
  intros L E Et H. destruct (match_p_consumed ty st L) as [(t' & st' & _ & C & M)|[_ F]]; [|by destruct (F t u E)].
  pose proof (consumed_ahead _ _ _ C) as E'. rewrite E in E'. injection E' as <- ->.
  exists true, st'. split_and!; [done|by apply C|by apply H].
Qed.

Lemma yields_miss ty st (Q : bool -> ParseState -> Prop) : live st ->
  (forall t u, ahead st = t :: u -> type t <> ty) -> Q false st -> yields (match_p ty) st Q.
Proof.
  intros L F H. destruct (match_p_consumed ty st L) as [(t & st' & Et & C & _)|[M _]].
  - by destruct (F t (ahead st') (consumed_ahead _ _ _ C)).
  - by exists false, st.
Qed.

Lemma yields_first_hit t u types st (Q : bool -> ParseState -> Prop) : live st -> ahead st = t :: u -> type t ∈ types ->
  (forall st', consumed t st st' -> ahead st' = u -> Q true st') -> yields (match_first types) st Q.
Proof.
  intros L E Et H. induction types as [|ty types IH]; [by apply elem_of_nil in Et|]. cbn [match_first]. apply yields_bind.
  destruct (decide (type t = ty)) as [Hty|Hty].
  - apply (yields_hit t u); [done..|]. intros st' C Eu _. by apply yields_ret, H.
  - apply yields_miss; [done| |].
    + intros t' u' E'. rewrite E in E'. by injection E' as <- _.
    + intros _. apply IH. apply elem_of_cons in Et as [?|?]; done.
Qed.

Lemma yields_first_miss types st (Q : bool -> ParseState -> Prop) : live st ->
  (forall t u, ahead st = t :: u -> type t ∉ types) -> Q false st -> yields (match_first types) st Q.
Proof.
  intros L F H. induction types as [|ty types IH]; cbn [match_first]; [by apply yields_ret|]. apply yields_bind, yields_miss; [done| |].
  - intros t u E Ht. apply (F t u E). rewrite Ht. by left.
  - intros _. apply IH. intros t u E Ht. apply (F t u E). by right.
Qed.

Lemma yields_expect t u ty st (Q : Token -> ParseState -> Prop) : live st -> ahead st = t :: u -> type t = ty ->
  (forall st', ahead st' = u -> Q t st') -> yields (expect_p ty) st Q.
Proof.
  intros L E Et H. unfold yields, expect_p, on_stream, expect. rewrite (peek_upcoming _ L).
  destruct (consume_upcoming _ L) as (P' & Hc & Hu & Ht & _). unfold ahead in E. rewrite E in Hc, Hu |- *. cbn.
  rewrite (proj2 (tteq_true _ _) Et). cbn. rewrite Hc. cbn. eexists _, _. split_and!; [reflexivity|done|]. by apply H.
Qed.

(** ** Throwing *)

(** [m] throws [e] and keeps the tokens. *)
Definition raises {A} (m : parser A) (st : ParseState) (e : exn) : Prop :=
  exists st', m st = Some (Raise e st') /\ same_tokens st st'.

Lemma raises_bind {A B} (m : parser A) (k : A -> parser B) st e :
  yields m st (fun a st' => same_tokens st st' -> raises (k a) st' e) -> raises (m ≫= k) st e.
Proof.
  intros (a & st' & E & T & H). destruct (H T) as (st2 & E2 & T2). exists st2. unfold mbind, parser_bind. rewrite E.
  split; [done|by etrans].
Qed.

Lemma raises_here {A B} (m : parser A) (k : A -> parser B) st e : raises m st e -> raises (m ≫= k) st e.
Proof. intros (st' & E & T). exists st'. unfold mbind, parser_bind. by rewrite E. Qed.

(** A [std::runtime_error] is caught, and the handler starts with the same tokens. *)
Lemma yields_catch {A} (m : parser A) h st w Q : raises m st (runtime_error w) ->
  (forall st', same_tokens st st' -> yields (h (runtime_error w)) st' Q) -> yields (try_runtime m h) st Q.
Proof.
  intros (st1 & E & T) H. destruct (H _ T) as (a & st2 & E2 & T2 & HQ). exists a, st2. unfold try_runtime. rewrite E.
  split_and!; [done|by etrans|done].
Qed.
