(* ===== verification/ParserLogic.v ===== *)
(** * Reasoning about the parsers

    [runs I m Q st]: from [st], a position in the token vector of [I], [m]
    returns or throws, stays in that vector at or after the floor of [I], and
    what it returns satisfies [Q]. The only fact about a state the rules keep is
    [remaining], the number of significant tokens ahead; a saved position keeps
    its number. The vector ends with [END_OF_FILE], as the lexer's output does,
    so a token of any other kind that is seen can be consumed.

    A parser that throws leaves the cursor where it was; that it is not before
    the floor is what the recovery of the module parser relies on. *)

From S2P Require Import Prelude.
From S2P Require Import Token.
From S2P Require Import Lexer.
From S2P Require Import Ast.
From S2P Require Import AstTypes.
From S2P Require Import TokenStream.
From S2P Require Import ParserMonad.

Definition remaining (st : ParseState) : nat := length (ahead st).

(** A token vector, and the most tokens that may be ahead. *)
Record Input : Type := mkInput { input_tokens : list Token; floor : nat }.

(** The token vectors of the lexer: the last token is [END_OF_FILE]. *)
Definition closed_tokens (I : Input) : Prop :=
  exists body e, input_tokens I = body ++ [e] /\ type e = END_OF_FILE.

Definition within (I : Input) (st : ParseState) : Prop :=
  tokens_ (stream st) = input_tokens I /\ remaining st <= floor I.

Definition runs (I : Input) {A} (m : parser A) (Q : A -> ParseState -> Prop) (st : ParseState) : Prop :=
  within I st ->
  match m st with
  | Some (Return a st') => within I st' /\ Q a st'
  | Some (Raise _ st') => within I st'
  | None => False
  end.

(** The position [p] has [n] tokens ahead. *)
Definition saved (I : Input) (p n : nat) : Prop :=
  n <= floor I /\ forall st, tokens_ (stream st) = input_tokens I -> cursor (stream st) = p -> remaining st = n.

(** Consumes at least one token (no token) when fewer than [b] are ahead. *)
Definition progress (I : Input) {A} (b : nat) (m : parser A) : Prop :=
  forall st, remaining st < b -> runs I m (fun _ st' => remaining st' < remaining st) st.
Definition advance_only (I : Input) {A} (b : nat) (m : parser A) : Prop :=
  forall st, remaining st < b -> runs I m (fun _ st' => remaining st' <= remaining st) st.

Definition at_end (st : ParseState) : Prop := IsAtEnd (stream st) = true.

(** Consumes a token, or leaves the parser at the end. *)
Definition consumes_or_ends (I : Input) {A} (b : nat) (m : parser A) : Prop :=
  forall st, remaining st < b ->
    runs I m (fun _ st' => remaining st' <= remaining st /\ (remaining st' < remaining st \/ at_end st')) st.

Lemma ahead_stream st st' : stream st' = stream st -> ahead st' = ahead st.
Proof. unfold ahead. by intros ->. Qed.

Section Runs.
Context (ts : Input) (closed : closed_tokens ts).
Local Notation runs := (runs ts).

Lemma within_live st : within ts st -> live st.
Proof. unfold within, live. destruct closed as (b & e & -> & _). intros [-> _]. by destruct b. Qed.

Lemma within_last st : within ts st -> type (last_token (stream st)) = END_OF_FILE.
Proof. unfold within, last_token. destruct closed as (b & e & -> & He). intros [-> _]. by rewrite last_snoc. Qed.

Lemma within_same st st' : within ts st -> same_tokens st st' -> remaining st' <= remaining st -> within ts st'.
Proof. unfold within, same_tokens. intros [<- ?] ? ?. split; [done|lia]. Qed.

Lemma runs_assume {A} (m : parser A) Q st : (within ts st -> runs m Q st) -> runs m Q st.
Proof. intros H W. by apply H. Qed.

Lemma runs_ret {A} (a : A) (Q : A -> ParseState -> Prop) st : Q a st -> runs (mret a) Q st.
Proof. by intros H W. Qed.

Lemma runs_mono {A} (m : parser A) (Q Q' : A -> ParseState -> Prop) st :
  runs m Q st -> (forall a st', Q a st' -> Q' a st') -> runs m Q' st.
Proof. intros H F W. specialize (H W). destruct (m st) as [[a st'|e st']|]; [|done|done]. destruct H. auto. Qed.

Lemma runs_bind {A B} (m : parser A) (k : A -> parser B) Q st :
  runs m (fun a st' => runs (k a) Q st') st -> runs (m ≫= k) Q st.
Proof.
  intros H W. specialize (H W). unfold mbind, parser_bind. destruct (m st) as [[a st'|e st']|]; [|done|done].
  destruct H as [W' H]. by apply H.
Qed.

Lemma runs_on_stream {A} (f : BaseParser -> outcome (A * BaseParser)) (Q : A -> ParseState -> Prop) st :
  (within ts st -> forall a P, f (stream st) = Ok (a, P) ->
     let st' := mkPState P (node_counter st) (env st) in same_tokens st st' /\ remaining st' <= remaining st /\ Q a st') ->
  runs (on_stream f) Q st.
Proof.
  intros H W. unfold on_stream. destruct (f (stream st)) as [[a P]|e] eqn:E; [|done].
  destruct (H W a P eq_refl) as (T & R & HQ). split; [by eapply within_same|done].
Qed.

Lemma runs_reading {A} (f : BaseParser -> outcome A) (Q : A -> ParseState -> Prop) st :
  (forall a, Q a st) -> runs (reading f) Q st.
Proof.
  intros H. apply runs_on_stream. intros W a P. destruct (f (stream st)); [|done]. intros [= <- <-]. by destruct st.
Qed.

Lemma runs_peek (Q : Token -> ParseState -> Prop) st :
  (forall t, (type t <> END_OF_FILE -> 0 < remaining st) -> Q t st) -> runs peek_p Q st.
Proof.
  intros H W. rewrite (peek_p_live _ (within_live _ W)). split; [done|]. apply H.
  unfold remaining. destruct (ahead st); [|cbn; lia]. intros N. by destruct N; apply within_last.
Qed.

(** A position before the end has a token ahead. *)
Lemma inside_remaining st : within ts st -> cursor (stream st) < length (tokens_ (stream st)) -> 0 < remaining st.
Proof.
  intros [W _] L. unfold remaining, ahead, upcoming. rewrite W in *.
  destruct closed as (body & e & E & He). rewrite E in *. rewrite length_app in L. cbn [length] in L.
  rewrite drop_app_le, list.filter_app, length_app by lia. rewrite filter_cons_True; [cbn [length]; lia|].
  unfold is_trivia. by rewrite He.
Qed.

Lemma runs_query (f : BaseParser -> bool) (Q : bool -> ParseState -> Prop) st :
  (within ts st -> f (stream st) = true -> Q true st) -> (within ts st -> f (stream st) = false -> Q false st) ->
  runs (reading (fun P => Ok (f P))) Q st.
Proof. intros H1 H2 W. destruct st. split; [done|]. cbn. destruct (f _) eqn:E; auto. Qed.

Lemma runs_at_end (Q : bool -> ParseState -> Prop) st :
  (at_end st -> Q true st) -> (~ at_end st -> 0 < remaining st -> Q false st) -> runs at_end_p Q st.
Proof.
  intros H1 H2. apply runs_query; [by intros _|]. intros W E. apply H2; [unfold at_end; congruence|].
  apply (inside_remaining st W). unfold IsAtEnd in E. destruct (_ !! _) eqn:F; [|done]. by apply lookup_lt_Some in F.
Qed.

Lemma check_remaining ty st : check (stream st) ty = true -> 0 < remaining st.
Proof. rewrite check_upcoming. unfold remaining, ahead. destruct (upcoming _); [done|cbn; lia]. Qed.

Lemma runs_check ty (Q : bool -> ParseState -> Prop) st :
  (0 < remaining st -> Q true st) -> Q false st -> runs (check_p ty) Q st.
Proof. intros H1 H2. apply runs_query; [|done]. intros _ E. by apply H1, (check_remaining ty). Qed.

Lemma runs_check_first types (Q : bool -> ParseState -> Prop) st :
  (0 < remaining st -> Q true st) -> Q false st -> runs (check_first types) Q st.
Proof.
  intros H1 H2. apply runs_query; [|done]. intros _ (ty & _ & E)%existsb_exists. by apply H1, (check_remaining ty).
Qed.

Lemma runs_inside (Q : bool -> ParseState -> Prop) st :
  (0 < remaining st -> Q true st) -> Q false st -> runs inside_p Q st.
Proof. intros H1 H2. apply runs_query; [|done]. intros W ?%Nat.ltb_lt. by apply H1, inside_remaining. Qed.

Lemma runs_match_consumed ty (Q : bool -> ParseState -> Prop) st :
  (forall t st', consumed t st st' -> Q true st') -> Q false st -> runs (match_p ty) Q st.
Proof.
  intros H1 H2 W. destruct (match_p_consumed ty st (within_live _ W)) as [(t & st' & _ & C & ->)|[-> F]]; [|done].
  split; [|by eapply H1]. pose proof (consumed_length _ _ _ C). pose proof (consumed_tokens _ _ _ C).
  eapply within_same; [done|done|]. unfold remaining. lia.
Qed.

Lemma runs_match ty (Q : bool -> ParseState -> Prop) st :
  (forall st', remaining st = S (remaining st') -> Q true st') -> Q false st -> runs (match_p ty) Q st.
Proof. intros H1 H2. apply runs_match_consumed; [|done]. intros t st' C. by apply H1, (consumed_length t). Qed.

(** Giving back the token that was consumed from [st0]. *)
Lemma runs_put_back t st0 (Q : () -> ParseState -> Prop) st :
  consumed t st0 st -> within ts st0 -> (forall st', remaining st' = remaining st0 -> Q tt st') -> runs put_back_p Q st.
Proof.
  intros [_ _ _ (st' & E & Ha & T)] W0 H W. rewrite E.
  assert (R : remaining st' = remaining st0) by (unfold remaining; by rewrite Ha).
  split; [eapply within_same; [exact W0|done|lia]|by apply H].
Qed.

Lemma consume_p_live st : live st ->
  exists t st', consume_p st = Some (Return t st') /\ ahead st' = tail (ahead st) /\ same_tokens st st'
    /\ (forall u v, ahead st = u :: v -> t = u).
Proof.
  intros L. unfold consume_p, on_stream. destruct (consume_upcoming _ L) as (P' & -> & Hu & Ht & _).
  eexists _, _. split_and!; [done|exact Hu|exact Ht|]. unfold ahead. by intros u v ->.
Qed.

Lemma runs_consume (Q : Token -> ParseState -> Prop) st :
  (forall t st', remaining st' = pred (remaining st) -> Q t st') -> runs consume_p Q st.
Proof.
  intros H W. destruct (consume_p_live st (within_live _ W)) as (t & st' & -> & Ha & T & _).
  assert (R : remaining st' = pred (remaining st)) by (unfold remaining; rewrite Ha; by destruct (ahead st)).
  split; [eapply within_same; [done|done|lia]|by apply H].
Qed.

Lemma match_tok_match ty st :
  match_p ty st = match match_tok_p ty st with
                  | Some (Return o st') => Some (Return (match o with Some _ => true | None => false end) st')
                  | Some (Raise e st') => Some (Raise e st')
                  | None => None
                  end.
Proof.
  unfold match_p, match_tok_p, on_stream. destruct (match_token (stream st) ty) as [[o P]|e]; [|done]. by destruct o.
Qed.

Lemma runs_match_tok ty (Q : option Token -> ParseState -> Prop) st :
  (forall t st', remaining st = S (remaining st') -> Q (Some t) st') -> Q None st -> runs (match_tok_p ty) Q st.
Proof.
  intros H1 H2 W.
  pose proof (runs_match ty (fun (b : bool) st' => if b then remaining st = S (remaining st') else st' = st) st
    (fun st' E => E) eq_refl W) as R. rewrite match_tok_match in R.
  destruct (match_tok_p ty st) as [[[u|] st2|e st2]|]; [| |done|done]; destruct R as [W' R]; split; auto. by rewrite R.
Qed.

Lemma runs_match_first types (Q : bool -> ParseState -> Prop) st :
  (forall st', remaining st = S (remaining st') -> Q true st') -> Q false st -> runs (match_first types) Q st.
Proof.
  intros H1 H2. induction types as [|ty types IH]; cbn [match_first]; [by apply runs_ret|].
  apply runs_bind, runs_match; [|done]. intros st' H. apply runs_ret. auto.
Qed.

Lemma runs_match_first_tok types (Q : option Token -> ParseState -> Prop) st :
  (forall t st', remaining st = S (remaining st') -> Q (Some t) st') -> Q None st -> runs (match_first_tok types) Q st.
Proof.
  intros H1 H2. induction types as [|ty types IH]; cbn [match_first_tok]; [by apply runs_ret|].
  apply runs_bind, runs_match_tok; [|done]. intros t st' H. apply runs_ret. auto.
Qed.

(** A check of the next token, then [consume]. *)
Lemma runs_expecting ty (other : BaseParser -> Token -> str) (Q : Token -> ParseState -> Prop) st :
  ty <> END_OF_FILE ->
  (forall t st', remaining st = S (remaining st') -> Q t st') ->
  runs (on_stream (fun P => t ← peek P; if negb (type t =t ty) then throw_runtime (other P t) else consume P)) Q st.
Proof.
  intros N H. apply runs_on_stream. intros W t P. rewrite (peek_upcoming _ (within_live _ W)). cbn.
  destruct (consume_upcoming _ (within_live _ W)) as (P' & Hc & Hu & Ht & _).
  pose proof (within_last _ W) as Hl. revert Hc Hu. unfold remaining, ahead, same_tokens in *. cbn [stream].
  destruct (upcoming (stream st)) as [|u v] eqn:Eu; intros Hc Hu.
  - destruct (type _ =t ty) eqn:E; [apply tteq_true in E; congruence|done].
  - destruct (type u =t ty) eqn:E; [|done]. cbn [negb]. rewrite Hc. intros [= <- <-]. rewrite Hu. cbn [tail length].
    split_and!; [done|lia|]. apply H. cbn. by rewrite Hu.
Qed.

Lemma runs_expect ty (Q : Token -> ParseState -> Prop) st : ty <> END_OF_FILE ->
  (forall t st', remaining st = S (remaining st') -> Q t st') -> runs (expect_p ty) Q st.
Proof. apply (runs_expecting ty). Qed.

Lemma runs_expect_msg ty msg (Q : Token -> ParseState -> Prop) st : ty <> END_OF_FILE ->
  (forall t st', remaining st = S (remaining st') -> Q t st') -> runs (expect_msg_p ty msg) Q st.
Proof. apply (runs_expecting ty). Qed.

Lemma runs_get_pos (Q : nat -> ParseState -> Prop) st :
  (forall p, saved ts p (remaining st) -> Q p st) -> runs get_pos_p Q st.
Proof.
  intros H W. destruct st as [P c e]. split; [done|]. apply H. destruct W as [W L]. split; [done|]. intros st' W' E.
  unfold remaining, ahead, upcoming in *. cbn in *. by rewrite E, W, W'.
Qed.

Lemma runs_set_pos p n (Q : () -> ParseState -> Prop) st :
  saved ts p n -> (forall st', remaining st' = n -> Q tt st') -> runs (set_pos_p p) Q st.
Proof.
  intros [L S] H [W _]. assert (R : remaining (mkPState (set_pos (stream st) p) (node_counter st) (env st)) = n) by (by apply S).
  split; [split; [done|by rewrite R]|by apply H].
Qed.

Lemma runs_skip (Q : () -> ParseState -> Prop) st :
  (forall st', remaining st' = remaining st -> Q tt st') -> runs skip_p Q st.
Proof.
  intros H. apply runs_on_stream. intros W [] P [= <-].
  assert (R : forall c e, remaining (mkPState (skip_comments_and_newlines (stream st)) c e) = remaining st).
  { intros c e. unfold remaining, ahead. cbn [stream]. by rewrite skip_upcoming. }
  split; [done|]. split; [by rewrite R|by apply H].
Qed.

Lemma within_stream st st' : within ts st -> stream st' = stream st -> within ts st'.
Proof. unfold within, remaining, ahead. by intros ? ->. Qed.

Lemma runs_node l (Q : Node -> ParseState -> Prop) st :
  (forall n st', remaining st' = remaining st -> Q n st') -> runs (node_p l) Q st.
Proof.
  intros H W. unfold node_p. destruct (new_node _ _). split; [by eapply within_stream|]. by apply H.
Qed.

Lemma runs_get_env {A} (f : ParserEnv -> A) (Q : A -> ParseState -> Prop) st :
  (forall a, Q a st) -> runs (get_env f) Q st.
Proof. intros H W. by split. Qed.

Lemma runs_set_env f (Q : () -> ParseState -> Prop) st :
  (forall st', remaining st' = remaining st -> Q tt st') -> runs (set_env f) Q st.
Proof. intros H W. split; [by eapply within_stream|]. by apply H. Qed.

Lemma runs_error_at {A} t m (Q : A -> ParseState -> Prop) st : runs (error_at t m) Q st.
Proof. by intros W. Qed.

Lemma runs_error_here {A} m (Q : A -> ParseState -> Prop) st : runs (error_here m) Q st.
Proof. apply runs_bind, runs_reading. intros t. apply runs_error_at. Qed.

Lemma runs_rethrow {A} e (Q : A -> ParseState -> Prop) st : runs (rethrow e) Q st.
Proof. by intros W. Qed.

Lemma runs_throw {A} m (Q : A -> ParseState -> Prop) st : runs (throw_p m) Q st.
Proof. by intros W. Qed.

Lemma runs_lift_throw {A} e (Q : A -> ParseState -> Prop) st : runs (lift_p (Throw e)) Q st.
Proof. by intros W. Qed.

Lemma runs_try {A} (m : parser A) h (Q : A -> ParseState -> Prop) st :
  runs m Q st -> (forall e st', runs (h e) Q st') -> runs (try_runtime m h) Q st.
Proof.
  intros H F W. specialize (H W). unfold try_runtime. destruct (m st) as [[a st'|[w|w|w|w] st']|]; try done. by apply F.
Qed.

Lemma runs_try_any {A} (m h : parser A) (Q : A -> ParseState -> Prop) st :
  runs m Q st -> (forall st', runs h Q st') -> runs (try_any m h) Q st.
Proof.
  intros H F W. specialize (H W). unfold try_any. destruct (m st) as [[a st'|[w|w|w|w] st']|]; try done; by apply F.
Qed.

Lemma progress_runs {A} b (m : parser A) (Q : A -> ParseState -> Prop) st :
  progress ts b m -> remaining st < b -> (forall a st', remaining st' < remaining st -> Q a st') -> runs m Q st.
Proof. intros P L H. eapply runs_mono; [by apply P|]. cbv beta. eauto. Qed.

Lemma advance_runs {A} b (m : parser A) (Q : A -> ParseState -> Prop) st :
  advance_only ts b m -> remaining st < b -> (forall a st', remaining st' <= remaining st -> Q a st') -> runs m Q st.
Proof. intros P L H. eapply runs_mono; [by apply P|]. cbv beta. eauto. Qed.

Lemma ends_runs {A} b (m : parser A) (Q : A -> ParseState -> Prop) st :
  consumes_or_ends ts b m -> remaining st < b ->
  (forall a st', remaining st' <= remaining st -> remaining st' < remaining st \/ at_end st' -> Q a st') -> runs m Q st.
Proof. intros P L H. eapply runs_mono; [by apply P|]. cbv beta. intros a st' [? ?]. eauto. Qed.

Lemma progress_weaken {A} b b' (m : parser A) : progress ts b m -> b' <= b -> progress ts b' m.
Proof. intros P L st H. apply P. lia. Qed.

Lemma advance_weaken {A} b b' (m : parser A) : advance_only ts b m -> b' <= b -> advance_only ts b' m.
Proof. intros P L st H. apply P. lia. Qed.

Lemma progress_advance {A} b (m : parser A) : progress ts b m -> advance_only ts b m.
Proof. intros P st H. eapply runs_mono; [by apply P|]. cbv beta. intros. lia. Qed.

(** The layout tokens a statement skips. *)
Lemma skip_indents_remaining fuel P :
  tokens_ (skip_indents_loop fuel P) = tokens_ P /\ length (upcoming (skip_indents_loop fuel P)) <= length (upcoming P).
Proof.
  revert P. induction fuel as [|f IH]; intros P; [done|]. cbn [skip_indents_loop].
  destruct (tokens_ P !! cursor P) as [t|] eqn:E; [|done]. destruct (_ || _); [|done].
  destruct (IH (skip_comments_and_newlines (set_pos P (S (cursor P))))) as [-> H]. split; [done|]. etrans; [exact H|].
  rewrite skip_upcoming. unfold upcoming. cbn [cursor tokens_ set_pos]. rewrite (drop_S _ _ _ E), filter_cons.
  case_decide; cbn [length]; lia.
Qed.

Lemma runs_skip_indents (Q : () -> ParseState -> Prop) st :
  (forall st', remaining st' <= remaining st -> Q tt st') -> runs skip_indents_p Q st.
Proof.
  intros H. apply runs_on_stream. intros W [] P [= <-]. unfold skip_indents_dedents.
  destruct (skip_indents_remaining (length (tokens_ (stream st))) (stream st)) as [T L].
  split_and!; [exact T|exact L|]. by apply H.
Qed.
End Runs.

(** ** The tactics

    [pstep] takes the first operation of a parser and applies its rule;
    [prun] does so to the end of every branch and leaves arithmetic on
    [remaining] to [lia]. The facts about the parsers that are called come
    from the hint database [parser_specs]. *)

Create HintDb parser_specs.

(** What a token's kind says about the tokens ahead. *)
Ltac seen_tokens :=
  repeat match goal with
  | H : type ?t <> END_OF_FILE -> ?P, E : ?b = true |- _ =>
      lazymatch b with context [type t] => idtac | context [type_in t _] => idtac end;
      let N := fresh "N" in
      assert (N : P) by (apply H; let F := fresh in intros F; unfold type_in in E; rewrite F in E; vm_compute in E; discriminate E);
      clear H
  | H : ?ty <> END_OF_FILE -> ?P |- _ =>
      let N := fresh "N" in assert (N : P) by (apply H; discriminate); clear H
  end.

(** A specification for every bound takes the smallest one. *)
Ltac bound_met :=
  lazymatch goal with
  | |- _ < ?b => first [is_evar b; apply Nat.lt_succ_diag_r | try lia]
  end.

Ltac parser_call :=
  first
    [ eapply progress_runs; [solve [eauto 3 with parser_specs] | bound_met | intros ? ? ?; cbv beta]
    | eapply advance_runs; [solve [eauto 3 with parser_specs] | bound_met | intros ? ? ?; cbv beta]
    | eapply ends_runs; [solve [eauto 3 with parser_specs] | bound_met | intros ? ? ? ?; cbv beta] ].

Ltac pstep :=
  lazymatch goal with
  | |- runs _ (_ ≫= _) _ _ => apply runs_bind
  | |- runs _ (mret _) _ _ => apply runs_ret; cbv beta
  | |- runs _ no_fuel _ _ => exfalso; lia
  | |- runs _ peek_p _ _ => apply runs_peek; [assumption|]; intros ? ?; cbv beta
  | |- runs _ at_end_p _ _ => apply runs_at_end; [assumption|intros ?|intros ? ?]; cbv beta
  | |- runs _ (check_p _) _ _ => apply runs_check; [intros ?|]; cbv beta
  | |- runs _ (check_first _) _ _ => apply runs_check_first; [intros ?|]; cbv beta
  | |- runs _ inside_p _ _ => apply runs_inside; [assumption|intros ?|]; cbv beta
  | |- runs _ (match_p _) _ _ => apply runs_match; [assumption|intros ? ?; cbv beta|cbv beta]
  | |- runs _ (match_tok_p _) _ _ => apply runs_match_tok; [assumption|intros ? ? ?; cbv beta|cbv beta]
  | |- runs _ (match_first _) _ _ => apply runs_match_first; [assumption|intros ? ?; cbv beta|cbv beta]
  | |- runs _ (match_first_tok _) _ _ => apply runs_match_first_tok; [assumption|intros ? ? ?; cbv beta|cbv beta]
  | |- runs _ (expect_p _) _ _ => apply runs_expect; [assumption|discriminate|]; intros ? ? ?; cbv beta
  | |- runs _ (expect_msg_p _ _) _ _ => apply runs_expect_msg; [assumption|discriminate|]; intros ? ? ?; cbv beta
  | |- runs _ consume_p _ _ => apply runs_consume; [assumption|]; intros ? ? ?; cbv beta
  | |- runs _ get_pos_p _ _ => apply runs_get_pos; intros ? ?; cbv beta
  | |- runs _ (set_pos_p _) _ _ => eapply runs_set_pos; [eassumption|]; intros ? ?; cbv beta
  | |- runs _ skip_p _ _ => apply runs_skip; intros ? ?; cbv beta
  | |- runs _ skip_indents_p _ _ => apply runs_skip_indents; intros ? ?; cbv beta
  | |- runs _ (node_p _) _ _ => apply runs_node; intros ? ? ?; cbv beta
  | |- runs _ (get_env _) _ _ => apply runs_get_env; intros ?; cbv beta
  | |- runs _ (set_env _) _ _ => apply runs_set_env; intros ? ?; cbv beta
  | |- runs _ (error_at _ _) _ _ => apply runs_error_at
  | |- runs _ (error_here _) _ _ => apply runs_error_here
  | |- runs _ (rethrow _) _ _ => apply runs_rethrow
  | |- runs _ (throw_p _) _ _ => apply runs_throw
  | |- runs _ previous_p _ _ => apply runs_reading; intros ?; cbv beta
  | |- runs _ location_p _ _ => apply runs_reading; intros ?; cbv beta
  | |- runs _ peek_next_p _ _ => apply runs_reading; intros ?; cbv beta
  | |- runs _ (peek_ahead_p _) _ _ => apply runs_reading; intros ?; cbv beta
  | |- runs _ tokens_p _ _ => apply runs_reading; intros ?; cbv beta
  | |- runs _ (reserved_name_p _) _ _ => apply runs_reading; intros ?; cbv beta
  | |- runs _ (lift_p (Throw _)) _ _ => apply runs_lift_throw
  | |- runs _ (lift_p _) _ _ => apply runs_reading; intros ?; cbv beta
  | |- runs _ (reading _) _ _ => apply runs_reading; intros ?; cbv beta
  | |- runs _ (try_runtime _ _) _ _ => apply runs_try; [|intros ? ?]
  | |- runs _ (try_any _ _) _ _ => apply runs_try_any; [|intros ?]
  | |- runs _ (if ?b then _ else _) _ _ => destruct b eqn:?; seen_tokens
  | |- runs _ (match ?x with _ => _ end) _ _ => destruct x eqn:?; seen_tokens
  | |- runs _ (let _ := _ in _) _ _ => cbv zeta
  | |- runs _ _ _ _ => parser_call
  end.

Ltac prun := repeat pstep; cbv beta in *; try lia.
