(* ===== verification/TypeParser.v ===== *)
(** * The type parser

    src/parser/type_parser.cpp, over the token stream of the base parser. The
    parser of array sizes belongs to the expression parser: it is an argument
    here, with its contract as a class. A call of [parse] gets fuel for the
    nested calls and for its loops. *)

From S2P Require Import Prelude.
From S2P Require Import Token.
From S2P Require Import Lexer.
From S2P Require Import Ast.
From S2P Require Import AstText.
From S2P Require Import AstTypes.
From S2P Require Import TokenStream.
From S2P Require Import ParserMonad.
From S2P Require Import ParserLogic.

(** ** The parser *)

Section TypeParser.
Variable parse_expression : parser (option Expression).

Section Body.
Variable parse : parser TypeNode.

Definition name_tokens : list TokenType :=
  [Token.IDENTIFIER; KEYWORD_MY; KEYWORD_OUR; KEYWORD_THEIR; KEYWORD_MILD; KEYWORD_CONST].

(** [do { list.push_back(parse()); } while (match(COMMA));] *)
Fixpoint parse_types (fuel : nat) : parser (list (option TypeNode)) :=
  match fuel with
  | O => no_fuel
  | S f =>
      t ← parse;
      c ← match_p COMMA;
      if c : bool then ts ← parse_types f; mret (Some t :: ts) else mret [Some t]
  end.

(** The list up to a closing token, possibly empty. *)
Definition parse_type_list (fuel : nat) (close : TokenType) : parser (list (option TypeNode)) :=
  t ← peek_p;
  ts ← (if type t =t close then mret [] else parse_types fuel);
  _ ← expect_p close;
  mret ts.

(** [if (!match(IDENTIFIER)) throw ...; qualified_name += sep + lexeme] *)
Definition qualifier (sep message q : str) : parser str :=
  m ← match_p Token.IDENTIFIER;
  if m : bool then t ← previous_p; mret (q ++ sep ++ lexeme t)
  else error_here message.

Fixpoint qualifiers (fuel : nat) (q : str) : parser str :=
  match fuel with
  | O => no_fuel
  | S f =>
      c ← match_p COLONCOLON;
      if c : bool then
        q' ← qualifier $"::" $"Expected identifier after \'::\' in qualified type name" q; qualifiers f q'
      else
        d ← match_p DOT;
        if d : bool then
          q' ← qualifier $"." $"Expected identifier after \'.\' in qualified type name" q; qualifiers f q'
        else mret q
  end.

Definition parse_name (fuel : nat) (start_loc : SourceLocation) : parser TypeNode :=
  p ← previous_p;
  let path_loc := location p in
  q ← (if lexeme p =s $"my" then
         d ← match_p DOT;
         if d : bool then qualifier $"." $"Expected identifier after \'my.\' in type name" (lexeme p)
         else mret (lexeme p)
       else mret (lexeme p));
  q' ← qualifiers fuel q;
  i ← node_p path_loc;
  n ← node_p start_loc;
  mret (TypeName n (Some (mkIdentifier i q')) []).

Definition parse_tuple (fuel : nat) (start_loc : SourceLocation) : parser TypeNode :=
  ms ← parse_type_list fuel RPAREN;
  n ← node_p start_loc;
  mret (TupleTypeNode n ms).

Definition array_size : parser (option Expression) :=
  e ← at_end_p;
  stop ← (if e : bool then mret true else t ← peek_p; mret (type t =t RBRACKET));
  if stop : bool then error_here $"Expected size expression after ';' in array type."
  else
    before_size_expr_pos ← get_pos_p;
    size ← try_runtime parse_expression (fun x => _ ← set_pos_p before_size_expr_pos; rethrow x);
    match size with
    | Some e => mret (Some e)
    | None => _ ← set_pos_p before_size_expr_pos; error_here $"Failed to parse array size expression."
    end.

Definition parse_array : parser TypeNode :=
  p ← previous_p;
  let array_loc := location p in
  before_element_type_pos ← get_pos_p;
  element_type ← try_runtime parse
    (fun _ => _ ← set_pos_p before_element_type_pos; error_here $"Expected element type for array.");
  s ← match_p SEMICOLON;
  size ← (if s : bool then array_size else mret None);
  _ ← try_runtime (expect_p RBRACKET) (fun x => _ ← set_pos_p before_element_type_pos; rethrow x);
  n ← node_p array_loc;
  mret (ArrayType n (Some element_type) size).

Definition parse_function (fuel : nat) (start_loc : SourceLocation) : parser TypeNode :=
  _ ← expect_p LPAREN;
  ps ← parse_type_list fuel RPAREN;
  a ← match_p ARROW;
  r ← (if a : bool then t ← parse; mret (Some t) else mret None);
  n ← node_p start_loc;
  mret (FunctionType n ps r).

Definition start_message (t : Token) (start_loc : SourceLocation) : str :=
  $"Expected a type identifier, \\\'(\\\\' or \\\'fn\\\\' to start a base type, found " ++ lexeme t ++ $" ("
  ++ token_type_to_string (type t) ++ $") at " ++ SourceLocation_toString start_loc.

Definition parse_atomic_or_group_type (fuel : nat) : parser TypeNode :=
  t0 ← peek_p;
  let start_loc := location t0 in
  nm ← match_first name_tokens;
  if nm : bool then parse_name fuel start_loc
  else
    lp ← match_p LPAREN;
    if lp : bool then parse_tuple fuel start_loc
    else
      lb ← match_p LBRACKET;
      if lb : bool then parse_array
      else
        fn ← match_p KEYWORD_FN;
        if fn : bool then parse_function fuel start_loc
        else t ← peek_p; error_at t (start_message t start_loc).

(** [type_name_node->genericArgs = std::move(generic_args)]: arguments given
    before are replaced. *)
Definition set_arguments (t : TypeNode) (args : list (option TypeNode)) : parser TypeNode :=
  match t with
  | TypeName n i _ => mret (TypeName n i args)
  | _ => p ← previous_p; error_at p $"Generic parameters can only be applied to identifier types"
  end.

Definition make_pointer (op_loc : SourceLocation) (t : TypeNode) : parser TypeNode :=
  match t with
  | PointerType _ _ => p ← previous_p; error_at p $"Type is already a pointer."
  | _ => n ← node_p op_loc; mret (PointerType n (Some t))
  end.

(** A one-element group is the grouped type; a null member stays one. *)
Definition ungroup (t : TypeNode) : option TypeNode :=
  match t with
  | TupleTypeNode _ [m] => m
  | _ => Some t
  end.

Definition make_optional (op_loc : SourceLocation) (t : TypeNode) : parser TypeNode :=
  match ungroup t with
  | Some (OptionalType n _) =>
      p ← previous_p; error_at p ($"Type is already optional: " ++ SourceLocation_toString (loc n))
  | o => n ← node_p op_loc; mret (OptionalType n o)
  end.

Fixpoint parse_postfix_type (fuel : nat) (t : TypeNode) : parser TypeNode :=
  match fuel with
  | O => no_fuel
  | S f =>
      t0 ← peek_p;
      let op_loc := location t0 in
      lt ← match_p LT;
      if lt : bool then
        args ← parse_type_list f GT; t' ← set_arguments t args; parse_postfix_type f t'
      else
        lb ← match_p LBRACKET;
        if lb : bool then
          p ← previous_p;
          rb ← match_p RBRACKET;
          if rb : bool then n ← node_p (location p); parse_postfix_type f (ArrayType n (Some t) None)
          else _ ← put_back_p; mret t
        else
          st ← match_p MULTIPLY;
          if st : bool then t' ← make_pointer op_loc t; parse_postfix_type f t'
          else
            qm ← match_p QUESTION_MARK;
            if qm : bool then t' ← make_optional op_loc t; parse_postfix_type f t'
            else
              k ← match_p KEYWORD_CONST;
              if k : bool then parse_postfix_type f t else mret t
  end.

Definition parse_body (fuel : nat) : parser TypeNode :=
  _ ← skip_p;
  t ← parse_atomic_or_group_type fuel;
  parse_postfix_type fuel t.
End Body.

Fixpoint parse_type (fuel : nat) : parser TypeNode :=
  match fuel with
  | O => no_fuel
  | S f => parse_body (parse_type f) f
  end.
End TypeParser.

(** ** Termination *)

(** What the type parser relies on: with fewer than [bound] tokens ahead the
    expression parser returns or throws, and does not move backwards. *)
Class ExpressionParser (ts : Input) (bound : nat) (parse_expression : parser (option Expression)) : Prop :=
  expression_advances : advance_only ts bound parse_expression.

#[export] Instance null_expression ts bound : ExpressionParser ts bound (mret None).
Proof. intros st _. prun. Qed.

Create HintDb parsing.
#[export] Hint Resolve same_tokens_live : parsing.

Section Termination.
Context (ts : Input) (closed : closed_tokens ts) (bound : nat).
Context (parse_expression : parser (option Expression)) `{!ExpressionParser ts bound parse_expression}.
Variable parse : parser TypeNode.
Local Notation progress := (progress ts).
Local Notation advance_only := (advance_only ts).
Hypothesis parse_progress : progress bound parse.
Local Hint Resolve expression_advances parse_progress : parser_specs.

Lemma parse_types_progress fuel : progress (bound `min` fuel) (parse_types parse fuel).
Proof. induction fuel as [|f IH]; intros st H; [lia|]. cbn [parse_types]. prun. Qed.
Local Hint Resolve parse_types_progress : parser_specs.
Lemma parse_type_list_advances fuel close : close <> END_OF_FILE ->
  advance_only (bound `min` fuel) (parse_type_list parse fuel close).
Proof. intros N st H. unfold parse_type_list. repeat first [apply runs_expect; [done|done|]; intros ? ? ? | pstep]; lia. Qed.
Lemma qualifier_advances sep m q b : advance_only b (qualifier sep m q).
Proof. intros st H. unfold qualifier. prun. Qed.
Local Hint Resolve parse_type_list_advances qualifier_advances : parser_specs.
Lemma qualifiers_advances fuel q : advance_only fuel (qualifiers fuel q).
Proof. revert q. induction fuel as [|f IH]; intros q st H; [lia|]. cbn [qualifiers]. prun. Qed.
Local Hint Resolve qualifiers_advances : parser_specs.
Lemma parse_name_advances fuel l : advance_only fuel (parse_name fuel l).
Proof. intros st H. unfold parse_name. prun. Qed.
Lemma parse_tuple_advances fuel l : advance_only (bound `min` fuel) (parse_tuple parse fuel l).
Proof. intros st H. unfold parse_tuple. prun. Qed.
Lemma array_size_advances : advance_only bound (array_size parse_expression).
Proof. intros st H. unfold array_size. prun. Qed.
Local Hint Resolve parse_name_advances parse_tuple_advances array_size_advances : parser_specs.
Lemma parse_array_advances : advance_only bound (parse_array parse_expression parse).
Proof. intros st H. unfold parse_array. prun. Qed.
Lemma parse_function_advances fuel l : advance_only (bound `min` fuel) (parse_function parse fuel l).
Proof. intros st H. unfold parse_function. prun. Qed.
Local Hint Resolve parse_array_advances parse_function_advances : parser_specs.
Lemma parse_atomic_progress fuel :
  progress (S (bound `min` fuel)) (parse_atomic_or_group_type parse_expression parse fuel).
Proof. intros st H. unfold parse_atomic_or_group_type. prun. Qed.
Lemma set_arguments_advances b t args : advance_only b (set_arguments t args).
Proof. intros st H. unfold set_arguments. prun. Qed.
Lemma make_pointer_advances b l t : advance_only b (make_pointer l t).
Proof. intros st H. unfold make_pointer. prun. Qed.
Lemma make_optional_advances b l t : advance_only b (make_optional l t).
Proof. intros st H. unfold make_optional. prun. Qed.
Local Hint Resolve parse_atomic_progress set_arguments_advances make_pointer_advances make_optional_advances : parser_specs.

(** The bracket of an array size that is not there is given back. *)
Lemma parse_postfix_advances fuel t : advance_only (bound `min` fuel) (parse_postfix_type parse fuel t).
Proof.
  revert t. induction fuel as [|f IH]; intros t st H; [lia|]. cbn [parse_postfix_type]. apply runs_assume. intros W.
  do 2 pstep. cbv zeta. do 2 pstep; [prun|]. cbv iota. pstep.
  apply runs_match_consumed; [done| |prun]. intros u st' C.
  pose proof (consumed_length _ _ _ C) as R. fold (remaining st) (remaining st') in R. cbv iota.
  do 2 pstep. do 2 pstep; [prun|]. cbv iota. pstep.
  eapply runs_put_back; [done|done|]. intros st2 R2. prun.
Qed.
Local Hint Resolve parse_postfix_advances : parser_specs.
Lemma parse_body_progress fuel : progress (S (bound `min` fuel)) (parse_body parse_expression parse fuel).
Proof. intros st H. unfold parse_body. prun. Qed.
End Termination.

Lemma parse_type_progress ts (closed : closed_tokens ts) parse_expression bound
    `{!ExpressionParser ts bound parse_expression} fuel :
  progress ts (fuel `min` S bound) (parse_type parse_expression fuel).
Proof.
  induction fuel as [|f IH]; intros st H; [lia|]. cbn [parse_type].
  assert (ExpressionParser ts (f `min` bound) parse_expression).
  { intros st' H'. apply (expression_advances (bound := bound)). lia. }
  apply (parse_body_progress ts closed (f `min` bound) parse_expression); [|lia]. intros st' H'. apply IH. lia.
Qed.

(** The type parser ends on every token vector of the lexer: with as much
    fuel as there are tokens ahead, a call returns a type or throws, whatever the
    tokens. When it returns it has consumed at least one token, when it throws it
    has not moved back, and the token vector is left alone. *)
Theorem parse_type_terminates ts parse_expression fuel `{!ExpressionParser ts fuel parse_expression} st :
  closed_tokens ts -> within ts st -> remaining st < fuel ->
  match parse_type parse_expression fuel st with
  | Some (Return _ st') => within ts st' /\ remaining st' < remaining st
  | Some (Raise _ st') => within ts st'
  | None => False
  end.
Proof. intros C W H. apply (parse_type_progress ts C parse_expression fuel fuel st); [lia|done]. Qed.

Definition unclosed_generic : ParseState :=
  let at_column c ty lx := mkToken ty lx (mkLoc $"a.vyb" 1 c) in
  mkPState (mkParser [at_column 1%Z Token.IDENTIFIER $"Vec"; at_column 4%Z LT $"<"; at_column 5%Z Token.IDENTIFIER $"Int";
                      at_column 8%Z END_OF_FILE []] 0 $"a.vyb") 0 initial_env.

Definition unclosed_input : Input := mkInput (tokens_ (stream unclosed_generic)) 4.

Lemma parse_type_terminates_witness :
  closed_tokens unclosed_input /\ within unclosed_input unclosed_generic /\ remaining unclosed_generic < 5 /\
  match parse_type (mret None) 5 unclosed_generic with
  | Some (Return _ st') => within unclosed_input st' /\ remaining st' < remaining unclosed_generic
  | Some (Raise _ st') => within unclosed_input st'
  | None => False
  end.
Proof.
  assert (C : closed_tokens unclosed_input) by (eexists (take 3 (input_tokens unclosed_input)), _; by split).
  assert (W : within unclosed_input unclosed_generic) by (split; [done|vm_compute; lia]).
  assert (R : remaining unclosed_generic < 5) by (vm_compute; lia).
  split; [exact C|]. split; [exact W|]. split; [exact R|].
  pose proof (null_expression unclosed_input 5) as N.
  apply (@parse_type_terminates unclosed_input (mret None) 5 N unclosed_generic C W R).
Defined.

(** ** Printing and parsing

    The tokens of a type's text, and that the parser reads them back. *)

Definition kind_of (t : Token) : TokenType * str := (type t, lexeme t).

Fixpoint separated (l : list (list (TokenType * str))) : list (TokenType * str) :=
  match l with
  | [] => []
  | [x] => x
  | x :: l' => x ++ (COMMA, $",") :: separated l'
  end.

Fixpoint shape_tokens (s : Shape) : list (TokenType * str) :=
  match s with Shp c k => core_tokens c ++ replicate k (QUESTION_MARK, $"?") end
with core_tokens (c : Core) : list (TokenType * str) :=
  match c with
  | CName n args =>
      (get_keyword_type n, n)
      :: match args with [] => [] | _ => (LT, $"<") :: separated (map shape_tokens args) ++ [(GT, $">")] end
  | CArray el s =>
      (LBRACKET, $"[") :: shape_tokens el
      ++ match s with Some n => [(SEMICOLON, $";"); (INT_LITERAL, n)] | None => [] end ++ [(RBRACKET, $"]")]
  | CTuple ms => (LPAREN, $"(") :: separated (map shape_tokens ms) ++ [(RPAREN, $")")]
  | CFunction ps r =>
      (KEYWORD_FN, $"fn") :: (LPAREN, $"(") :: separated (map shape_tokens ps)
      ++ [(RPAREN, $")"); (ARROW, $"->")] ++ shape_tokens r
  end.

(** The types the grammar can write: at most one question mark, and none
    behind a one-element group, which is the grouped type; names of one word
    that may start a type; arrays without a size. *)
Definition word_ok (n : str) : bool :=
  match n with [] => false | c :: w => is_letter c && forallb is_word_char w end.

Lemma word_char_name c : is_word_char c = true -> name_char c = true.
Proof. destruct c as [[] [] [] [] [] [] [] []]; by vm_compute. Qed.

Lemma word_name_ok n : word_ok n = true -> name_ok n = true.
Proof.
  destruct n as [|c w]; [done|]. cbn. intros [Hc Hw]%andb_true_iff. apply andb_true_iff. split; [done|].
  apply forallb_forall. rewrite forallb_forall in Hw. intros x [<-|Hx]; apply word_char_name; [|by apply Hw].
  unfold is_word_char. by rewrite Hc.
Qed.

Definition single (c : Core) : bool := match c with CTuple [_] => true | _ => false end.

Fixpoint writable (s : Shape) : bool :=
  match s with
  | Shp c k => core_writable c && ((k =? 0) || ((k =? 1) && negb (single c) && negb (is_function c)))
  end
with core_writable (c : Core) : bool :=
  match c with
  | CName n args => word_ok n && existsb (tteq (get_keyword_type n)) name_tokens && forallb writable args
  | CArray el s => writable el && match s with None => true | Some _ => false end
  | CTuple ms => forallb writable ms
  | CFunction ps r => forallb writable ps && writable r
  end.

(** Tokens that would continue a type. *)
Definition continuing : list TokenType := [LT; LBRACKET; MULTIPLY; QUESTION_MARK; KEYWORD_CONST; COLONCOLON; DOT].
Definition ends_type (rest : list Token) : Prop := forall t u, rest = t :: u -> type t ∉ continuing.

Section RoundTrip.
Variable parse_expression : parser (option Expression).

Abbreviation parse_at f := (parse_type parse_expression f).

(** [parse], with this fuel, reads the tokens of [s] as a type of that
    shape. *)
Definition reads_shape (f : nat) (s : Shape) : Prop := forall st toks rest,
  live st -> ahead st = toks ++ rest -> map kind_of toks = shape_tokens s -> length toks < f -> ends_type rest ->
  yields (parse_at f) st (fun t st' => shape_of t = Some s /\ ahead st' = rest).

Lemma postfix_done f g t st : live st -> ends_type (ahead st) ->
  yields (parse_postfix_type (parse_at f) (S g) t) st (fun t' st' => t' = t /\ ahead st' = ahead st).
Proof.
  intros L E. assert (M : forall ty, ty ∈ continuing -> forall t u, ahead st = t :: u -> type t <> ty).
  { intros ty Hty t0 u E0 <-. by apply (E t0 u). }
  cbn [parse_postfix_type]. apply yields_bind, yields_peek; [done|]. intros t0 _ _.
  do 5 (apply yields_bind, yields_miss; [done|apply M; by_decision|]; intros _).
  by apply yields_ret.
Qed.

(** Reading past kinds that do not come next. *)
Lemma miss_next t0 u0 ty st (Q : bool -> ParseState -> Prop) :
  live st -> ahead st = t0 :: u0 -> type t0 <> ty -> (same_tokens st st -> Q false st) -> yields (match_p ty) st Q.
Proof.
  intros L E Hne H. apply yields_miss; [done| |by apply H]. intros t u E'. rewrite E in E'. by injection E' as <- _.
Qed.

Lemma ungroup_not_single t c : shape_of t = Some (Shp c 0) -> single c = false -> ungroup t = Some t.
Proof.
  destruct t as [| | | | | | |n [|m [|? ?]]]; try done. cbn. intros (xs & Hxs & [= <-])%bind_Some.
  apply bind_Some in Hxs as (x & _ & Hxs). cbn in Hxs. by injection Hxs as <-.
Qed.

Lemma shape_not_optional t c n x : shape_of t = Some (Shp c 0) -> t <> OptionalType n x.
Proof. intros H ->. cbn in H. apply bind_Some in H as ([[] k] & _ & H); done. Qed.

Lemma make_optional_shape l t c st : shape_of t = Some (Shp c 0) -> single c = false -> is_function c = false ->
  yields (make_optional l t) st (fun t' st' => shape_of t' = Some (Shp c 1) /\ ahead st' = ahead st).
Proof.
  intros Ht Hs Hf. unfold make_optional. rewrite (ungroup_not_single _ _ Ht Hs).
  assert (yields (n ← node_p l; mret (OptionalType n (Some t))) st
    (fun t' st' => shape_of t' = Some (Shp c 1) /\ ahead st' = ahead st)) as Y.
  { apply yields_bind, yields_node. intros n st' E _. apply yields_ret. split; [|by apply ahead_stream].
    cbn [shape_of]. change (Some t ≫= shape_of) with (shape_of t). rewrite Ht. cbn. by destruct c. }
  destruct t; try exact Y. by destruct (shape_not_optional _ _ n containedType Ht).
Qed.

Definition marks (c : Core) (k : nat) : bool := (k =? 0) || ((k =? 1) && negb (single c) && negb (is_function c)).

Lemma postfix_optional f g t c k st toks rest :
  live st -> ahead st = toks ++ rest -> map kind_of toks = replicate k (QUESTION_MARK, $"?") -> marks c k = true ->
  shape_of t = Some (Shp c 0) -> length toks < g -> ends_type rest ->
  yields (parse_postfix_type (parse_at f) g t) st (fun t' st' => shape_of t' = Some (Shp c k) /\ ahead st' = rest).
Proof.
  intros L E K M Ht Hg R. destruct g as [|g]; [lia|]. unfold marks in M. apply orb_true_iff in M as [->%Nat.eqb_eq|M].
  - apply map_eq_nil in K as ->. cbn in E. eapply yields_mono; [apply postfix_done; [done|by rewrite E]|].
    by intros t' st' _ [-> ->].
  - apply andb_true_iff in M as [[->%Nat.eqb_eq M1%negb_true_iff]%andb_true_iff M2%negb_true_iff].
    destruct toks as [|q [|? ?]]; [done| |done]. injection K as Hq _.
    destruct g as [|g]; [cbn in Hg; lia|]. cbn [parse_postfix_type].
    apply yields_bind, yields_peek; [done|]. intros t0 _ _.
    do 3 (apply yields_bind, (miss_next q rest); [done|done|rewrite Hq; discriminate|]; intros _ _).
    apply yields_bind, (yields_hit q rest); [done..|]. intros st1 C E1 T1. apply yields_bind.
    eapply yields_mono; [by apply make_optional_shape|]. cbv beta. intros t' st2 T2 [Ht' E2] _.
    eapply yields_mono; [apply postfix_done; [eauto with parsing|by rewrite E2, E1]|].
    intros t'' st3 _ [-> ->]. by rewrite E2.
Qed.

Definition starters : list TokenType := name_tokens ++ [LPAREN; LBRACKET; KEYWORD_FN].

Lemma shape_first s : writable s = true -> exists ty lx u, shape_tokens s = (ty, lx) :: u /\ ty ∈ starters.
Proof.
  destruct s as [c k]. cbn [writable shape_tokens]. intros [H _]%andb_true_iff.
  destruct c as [n args|el s|ms|ps r]; cbn [core_writable core_tokens] in *.
  - apply andb_true_iff in H as [[_ H]%andb_true_iff _]. eexists _, _, _. split; [reflexivity|].
    apply existsb_exists in H as (ty & Hin & ->%tteq_true). unfold starters. apply elem_of_app. left. by apply list_elem_of_In.
  - eexists _, _, _. split; [reflexivity|]. by_decision.
  - eexists _, _, _. split; [reflexivity|]. by_decision.
  - eexists _, _, _. split; [reflexivity|]. by_decision.
Qed.

Lemma separated_first l : l <> [] -> forallb writable l = true ->
  exists ty lx u, separated (map shape_tokens l) = (ty, lx) :: u /\ ty ∈ starters.
Proof.
  destruct l as [|s l]; [done|]. cbn [forallb map]. intros _ [Hs _]%andb_true_iff.
  destruct (shape_first s Hs) as (ty & lx & u & E & H). destruct (map shape_tokens l) eqn:El.
  - exists ty, lx, u. by rewrite <- E.
  - exists ty, lx. eexists. split; [|done]. cbn [separated]. rewrite E. reflexivity.
Qed.

Definition closers : list TokenType := [GT; RPAREN; RBRACKET; COMMA].
Lemma closers_end t u : type t ∈ closers -> ends_type (t :: u).
Proof.
  intros H t' u' [= <- <-]. revert H. generalize (type t). intros ty H.
  assert (F : Forall (fun ty => ty ∉ continuing) closers) by by_decision.
  rewrite Forall_forall in F. by apply F.
Qed.

Lemma parse_types_reads f g l st toks close rest :
  l <> [] -> Forall (reads_shape f) l -> live st -> ahead st = toks ++ close :: rest ->
  map kind_of toks = separated (map shape_tokens l) -> length toks < f -> length toks < g ->
  type close ∈ closers -> type close <> COMMA ->
  yields (parse_types (parse_at f) g) st (fun ts st' => shapes_with shape_of ts = Some l /\ ahead st' = close :: rest).
Proof.
  intros Hne HF. revert g st toks Hne. induction HF as [|s l Hs HF IH]; intros g st toks Hne L E K Hf Hg Hc Hcc; [done|].
  destruct g as [|g]; [lia|]. cbn [parse_types]. apply yields_bind. destruct l as [|s2 l].
  - eapply yields_mono; [by apply (Hs st toks (close :: rest)); [..|apply closers_end]|].
    cbv beta. intros t st1 T1 [Ht E1] _. apply yields_bind, (miss_next close rest); [eauto with parsing|done|done|].
    intros _ _. apply yields_ret. split; [|done]. cbn [shapes_with]. change (Some t ≫= shape_of) with (shape_of t).
    by rewrite Ht.
  - cbn [map separated] in K. apply map_eq_app in K as (tx & tr & -> & Kx & K).
    destruct tr as [|tc tr]; [done|]. injection K as Hty Hlx K. rewrite length_app in Hf, Hg. cbn [length] in Hf, Hg.
    eapply yields_mono; [apply (Hs st tx (tc :: tr ++ close :: rest)); [done|by rewrite E, <- app_assoc|done|lia|]|].
    { apply closers_end. rewrite Hty. by_decision. }
    cbv beta. intros t st1 T1 [Ht E1] _. apply yields_bind, (yields_hit tc (tr ++ close :: rest)); [eauto with parsing|done|done|].
    intros st2 C E2 T2. apply yields_bind. eapply yields_mono.
    { apply (IH g st2 tr); [done|eauto with parsing|done|done|lia|lia|done|done]. }
    cbv beta. intros ts st3 T3 [Hts E3] _. apply yields_ret. split; [|done].
    cbn [shapes_with]. change (Some t ≫= shape_of) with (shape_of t). rewrite Ht. cbn [mbind option_bind]. fold (shapes_with shape_of).
    by rewrite Hts.
Qed.

Lemma parse_type_list_reads f g l st toks close rest ty :
  Forall (reads_shape f) l -> forallb writable l = true -> live st -> ahead st = toks ++ close :: rest ->
  map kind_of toks = separated (map shape_tokens l) -> length toks < f -> length toks < g ->
  type close = ty -> ty ∈ closers -> ty <> COMMA ->
  yields (parse_type_list (parse_at f) g ty) st (fun ts st' => shapes_with shape_of ts = Some l /\ ahead st' = rest).
Proof.
  intros HF Hw L E K Hf Hg Hc Hin Hcc. unfold parse_type_list. apply yields_bind, yields_peek; [done|].
  intros t0 Ht0 _. apply yields_bind.
  assert (Y : yields (if type t0 =t ty then mret [] else parse_types (parse_at f) g) st
    (fun ts st' => shapes_with shape_of ts = Some l /\ ahead st' = close :: rest)).
  { destruct l as [|s l].
    - apply map_eq_nil in K as ->. cbn in E. rewrite (Ht0 _ _ E), (proj2 (tteq_true _ _) Hc). by apply yields_ret.
    - destruct (separated_first (s :: l) ltac:(done) Hw) as (ty0 & lx0 & u0 & E0 & Hst).
      destruct toks as [|tk toks]; [by rewrite E0 in K|]. rewrite E0 in K. injection K as Hty0 Hlx0 K.
      rewrite (Ht0 _ _ E).
      assert ((type tk =t ty) = false) as ->.
      { rewrite Hty0. apply tteq_false. intros ->.
        assert (F : Forall (fun ty => ty ∉ starters) closers) by by_decision.
        rewrite Forall_forall in F. by apply (F ty). }
      apply (parse_types_reads f g _ _ (tk :: toks)); try done; [|by rewrite Hc..].
      rewrite E0. cbn [map]. unfold kind_of at 1. by rewrite Hty0, Hlx0, K. }
  eapply yields_mono; [exact Y|]. cbv beta. intros ts st1 T1 [Hts E1] _.
  apply yields_bind, (yields_expect close rest); [eauto with parsing|done|done|].
  intros st2 E2 T2. by apply yields_ret.
Qed.

(** No qualifier follows. *)
Definition no_qualifier (u : list Token) : Prop := forall t v, u = t :: v -> type t <> COLONCOLON /\ type t <> DOT.

Lemma qualifiers_stop f q st : live st -> no_qualifier (ahead st) ->
  yields (qualifiers (S f) q) st (fun q' st' => q' = q /\ ahead st' = ahead st).
Proof.
  intros L E. cbn [qualifiers]. apply yields_bind, yields_miss; [done|intros t u H; by apply (E t u)|]. intros _.
  apply yields_bind, yields_miss; [done|intros t u H; by apply (E t u)|]. intros _. by apply yields_ret.
Qed.

Lemma parse_name_reads f l t st st0 : consumed t st0 st -> live st -> no_qualifier (ahead st) ->
  yields (parse_name (S f) l) st (fun ty st' =>
    (exists n i, ty = TypeName n (Some i) [] /\ name i = lexeme t) /\ ahead st' = ahead st).
Proof.
  intros C L E. unfold parse_name. apply yields_bind, (yields_previous t st0); [done|]. intros _. apply yields_bind.
  apply (yields_mono _ _ (fun q st' => q = lexeme t /\ st' = st)).
  { destruct (lexeme t =s $"my"); [|by apply yields_ret].
    apply yields_bind, yields_miss; [done|intros t' u H; by apply (E t' u)|]. intros _. by apply yields_ret. }
  intros q st1 _ [-> ->] _. apply yields_bind. eapply yields_mono; [by apply qualifiers_stop|].
  cbv beta. intros q st2 T2 [-> E2] _. apply yields_bind, yields_node. intros i st3 E3 _.
  apply yields_bind, yields_node. intros n st4 E4 _. apply yields_ret. split; [by eexists _, _|].
  rewrite <- E2. apply ahead_stream. congruence.
Qed.

Lemma ends_no_qualifier u : ends_type u -> no_qualifier u.
Proof. intros H t v E. pose proof (H t v E) as N. split; intros F; apply N; rewrite F; by_decision. Qed.

(** A name with its arguments, up to the question marks. *)
Lemma name_reads f n args k st toks rest :
  Forall (reads_shape f) args -> writable (Shp (CName n args) k) = true -> live st -> ahead st = toks ++ rest ->
  map kind_of toks = shape_tokens (Shp (CName n args) k) -> length toks <= f -> ends_type rest ->
  yields (parse_body parse_expression (parse_at f) f) st (fun t st' => shape_of t = Some (Shp (CName n args) k) /\ ahead st' = rest).
Proof.
  intros HF Hw L E K Hf R. cbn [writable core_writable] in Hw.
  apply andb_true_iff in Hw as [[[Hok%word_name_ok Hkw]%andb_true_iff Hargs]%andb_true_iff Hk].
  cbn [shape_tokens core_tokens] in K. destruct toks as [|tn toks]; [done|]. injection K as Hty Hlx K. cbn [length] in Hf.
  destruct f as [|f]; [lia|]. unfold parse_body. apply yields_bind, yields_skip. intros st1 E1 T1.
  rewrite E in E1. apply yields_bind. unfold parse_atomic_or_group_type.
  apply yields_bind, yields_peek; [eauto with parsing|]. intros t0 _ _.
  apply yields_bind, (yields_first_hit tn (toks ++ rest)); [eauto with parsing|done| |].
  { rewrite Hty. apply existsb_exists in Hkw as (ty & Hin & ->%tteq_true). by apply list_elem_of_In. }
  intros st2 C E2 T2. assert (NQ : no_qualifier (ahead st2)).
  { rewrite E2. destruct toks as [|tq toks]; [by apply ends_no_qualifier|]. intros t v [= <- <-].
    destruct args as [|a args].
    - cbn [app] in K. destruct k as [|k]; [done|]. cbn in K. injection K as Hq _ _. rewrite Hq. by split.
    - injection K as Hq _ _. rewrite Hq. by split. }
  eapply yields_mono; [apply (parse_name_reads _ _ tn st2 st1); [done|eauto with parsing|done]|].
  cbv beta. intros t st3 T3 [(nd & i & -> & Hi) E3] _. rewrite E2 in E3. rewrite Hlx in Hi.
  assert (L3 : live st3) by eauto 10 with parsing.
  destruct args as [|a args].
  - cbn [app] in K. apply (postfix_optional _ _ _ (CName n []) k _ toks); [done|done|done|done| |lia|done].
    cbn. by rewrite Hi, Hok.
  - destruct toks as [|tl toks]; [done|]. injection K as Hl Hll K. rewrite <- app_assoc in K. cbn [app] in K.
    apply map_eq_app in K as (ta & tr & -> & Ka & K). destruct tr as [|tg tr]; [done|]. injection K as Hg Hgl K.
    cbn [length] in Hf. rewrite length_app in Hf. cbn [length] in Hf. cbn [app] in E3. rewrite <- app_assoc in E3. cbn [app] in E3.
    cbn [parse_postfix_type]. apply yields_bind, yields_peek; [done|]. intros t0' _ _.
    apply yields_bind, (yields_hit tl (ta ++ tg :: tr ++ rest)); [done|by rewrite E3|done|].
    intros st4 C4 E4 T4. apply yields_bind.
    destruct f as [|f]; [lia|].
    eapply yields_mono.
    { apply (parse_type_list_reads _ _ (a :: args) st4 ta tg (tr ++ rest) GT); try done; [eauto with parsing|lia|lia|by_decision]. }
    cbv beta. intros ts st5 T5 [Hts E5] _. apply yields_bind, yields_ret. intros _.
    apply (postfix_optional _ _ _ (CName n (a :: args)) k _ tr); [eauto 10 with parsing|done|done|done| |lia|done].
    cbn [shape_of]. change (Some i ≫= ?g) with (g i). cbn [mbind option_bind]. fold (shapes_with shape_of).
    rewrite Hts. cbn. by rewrite Hi, Hok.
Qed.

(** The other types start with a token of their own. *)
Lemma atomic_skips tn u f st :
  live st -> ahead st = tn :: u -> type tn ∉ name_tokens ->
  forall (Q : TypeNode -> ParseState -> Prop),
  (forall st1, live st1 -> ahead st1 = tn :: u -> same_tokens st st1 ->
     yields (lp ← match_p LPAREN;
       if lp : bool then parse_tuple (parse_at f) f (location tn)
       else
         lb ← match_p LBRACKET;
         if lb : bool then parse_array parse_expression (parse_at f)
         else
           fn ← match_p KEYWORD_FN;
           if fn : bool then parse_function (parse_at f) f (location tn)
           else t ← peek_p; error_at t (start_message t (location tn))) st1
       (fun t st2 => same_tokens st1 st2 -> yields (parse_postfix_type (parse_at f) f t) st2 Q)) ->
  yields (parse_body parse_expression (parse_at f) f) st Q.
Proof.
  intros L E Hn Q H. unfold parse_body. apply yields_bind, yields_skip. intros st1 E1 T1. rewrite E in E1.
  assert (L1 : live st1) by eauto with parsing. apply yields_bind. unfold parse_atomic_or_group_type.
  apply yields_bind, yields_peek; [done|]. intros t0 Ht0 _. rewrite (Ht0 _ _ E1).
  apply yields_bind, yields_first_miss; [done| |].
  { intros t v E'. rewrite E1 in E'. by injection E' as <- _. }
  intros _. by apply H.
Qed.

Lemma tuple_reads f ms k st toks rest :
  Forall (reads_shape f) ms -> writable (Shp (CTuple ms) k) = true -> live st -> ahead st = toks ++ rest ->
  map kind_of toks = shape_tokens (Shp (CTuple ms) k) -> length toks <= f -> ends_type rest ->
  yields (parse_body parse_expression (parse_at f) f) st (fun t st' => shape_of t = Some (Shp (CTuple ms) k) /\ ahead st' = rest).
Proof.
  intros HF Hw L E K Hf R. cbn [writable core_writable] in Hw. apply andb_true_iff in Hw as [Hms Hk].
  cbn [shape_tokens core_tokens] in K. destruct toks as [|tn toks]; [done|]. injection K as Hty Hlx K.
  rewrite <- app_assoc in K. cbn [app] in K. apply map_eq_app in K as (ta & tr & -> & Ka & K).
  destruct tr as [|tg tr]; [done|]. injection K as Hg Hgl K. cbn [length] in Hf. rewrite length_app in Hf. cbn [length] in Hf.
  cbn [app] in E. rewrite <- app_assoc in E. cbn [app] in E.
  apply (atomic_skips tn (ta ++ tg :: tr ++ rest)); [done|done|rewrite Hty; by_decision|].
  intros st1 L1 E1 T1. apply yields_bind, (yields_hit tn (ta ++ tg :: tr ++ rest)); [done..|].
  intros st2 C E2 T2. unfold parse_tuple. apply yields_bind. eapply yields_mono.
  { apply (parse_type_list_reads _ _ ms st2 ta tg (tr ++ rest) RPAREN); try done; [eauto with parsing|lia|lia|by_decision]. }
  cbv beta. intros ts st3 T3 [Hts E3] _. apply yields_bind, yields_node. intros n st4 E4 T4.
  apply yields_ret. intros _. assert (A4 : ahead st4 = tr ++ rest) by (by rewrite (ahead_stream _ _ E4)).
  apply (postfix_optional _ _ _ (CTuple ms) k _ tr); [eauto 10 with parsing|done|done|done| |lia|done].
  cbn [shape_of]. fold (shapes_with shape_of). by rewrite Hts.
Qed.

Lemma array_reads f el k st toks rest :
  reads_shape f el -> writable (Shp (CArray el None) k) = true -> live st -> ahead st = toks ++ rest ->
  map kind_of toks = shape_tokens (Shp (CArray el None) k) -> length toks <= f -> ends_type rest ->
  yields (parse_body parse_expression (parse_at f) f) st
    (fun t st' => shape_of t = Some (Shp (CArray el None) k) /\ ahead st' = rest).
Proof.
  intros Hel Hw L E K Hf R. cbn [writable core_writable] in Hw. apply andb_true_iff in Hw as [_ Hk].
  cbn [shape_tokens core_tokens] in K. destruct toks as [|tn toks]; [done|]. injection K as Hty Hlx K.
  rewrite <- app_assoc in K. cbn [app] in K. apply map_eq_app in K as (ta & tr & -> & Ka & K).
  destruct tr as [|tg tr]; [done|]. injection K as Hg Hgl K. cbn [length] in Hf. rewrite length_app in Hf. cbn [length] in Hf.
  cbn [app] in E. rewrite <- app_assoc in E. cbn [app] in E.
  apply (atomic_skips tn (ta ++ tg :: tr ++ rest)); [done|done|rewrite Hty; by_decision|].
  intros st1 L1 E1 T1. apply yields_bind, (miss_next tn (ta ++ tg :: tr ++ rest)); [done|done|rewrite Hty; discriminate|].
  intros _ _. apply yields_bind, (yields_hit tn (ta ++ tg :: tr ++ rest)); [done..|]. intros st2 C E2 T2.
  unfold parse_array. apply yields_bind, (yields_previous tn st1); [done|]. intros _.
  apply yields_bind, yields_get_pos. intros _. apply yields_bind, yields_try. eapply yields_mono.
  { apply (Hel st2 ta (tg :: tr ++ rest)); [eauto with parsing|done|done|lia|].
    apply closers_end. rewrite Hg. by_decision. }
  cbv beta. intros t st3 T3 [Ht E3] _. apply yields_bind, (miss_next tg (tr ++ rest)); [eauto with parsing|done|rewrite Hg; discriminate|].
  intros _ _. apply yields_bind, yields_ret. intros _. apply yields_bind, yields_try.
  apply (yields_expect tg (tr ++ rest)); [eauto with parsing|done|done|]. intros st4 E4 T4.
  apply yields_bind, yields_node. intros n st5 E5 T5. apply yields_ret. intros T6.
  assert (A5 : ahead st5 = tr ++ rest) by (by rewrite (ahead_stream _ _ E5)).
  apply (postfix_optional _ _ _ (CArray el None) k _ tr); [eauto 10 with parsing|done|done|done| |lia|done].
  cbn [shape_of]. change (Some t ≫= shape_of) with (shape_of t). by rewrite Ht.
Qed.

Lemma function_reads f ps r st toks rest :
  Forall (reads_shape f) ps -> reads_shape f r -> writable (Shp (CFunction ps r) 0) = true -> live st -> ahead st = toks ++ rest ->
  map kind_of toks = shape_tokens (Shp (CFunction ps r) 0) -> length toks <= f -> ends_type rest ->
  yields (parse_body parse_expression (parse_at f) f) st
    (fun t st' => shape_of t = Some (Shp (CFunction ps r) 0) /\ ahead st' = rest).
Proof.
  intros HF Hr Hw L E K Hf R. cbn [writable core_writable] in Hw. apply andb_true_iff in Hw as [[Hps _]%andb_true_iff _].
  cbn [shape_tokens core_tokens replicate] in K. rewrite app_nil_r in K.
  destruct toks as [|tn [|tp toks]]; [done|done|]. injection K as Hty Hlx Hp Hpl K.
  apply map_eq_app in K as (ta & tr & -> & Ka & K). destruct tr as [|tg [|tw tr]]; [done|done|].
  injection K as Hg Hgl Hw Hwl K. cbn [length] in Hf. rewrite length_app in Hf. cbn [length] in Hf.
  cbn [app] in E. rewrite <- app_assoc in E. cbn [app] in E.
  apply (atomic_skips tn (tp :: ta ++ tg :: tw :: tr ++ rest)); [done|done|rewrite Hty; by_decision|].
  intros st1 L1 E1 T1.
  do 2 (apply yields_bind, (miss_next tn (tp :: ta ++ tg :: tw :: tr ++ rest)); [done|done|rewrite Hty; discriminate|]; intros _ _).
  apply yields_bind, (yields_hit tn (tp :: ta ++ tg :: tw :: tr ++ rest)); [done..|]. intros st2 C E2 T2.
  unfold parse_function. apply yields_bind, (yields_expect tp (ta ++ tg :: tw :: tr ++ rest)); [eauto with parsing|done|done|].
  intros st3 E3 T3. apply yields_bind. eapply yields_mono.
  { apply (parse_type_list_reads _ _ ps st3 ta tg (tw :: tr ++ rest) RPAREN); try done;
      [eauto 10 with parsing|lia|lia|by_decision]. }
  cbv beta. intros ts st4 T4 [Hts E4] _.
  apply yields_bind, (yields_hit tw (tr ++ rest)); [eauto 10 with parsing|done|done|]. intros st5 C5 E5 T5.
  apply yields_bind, yields_bind. eapply yields_mono.
  { apply (Hr st5 tr rest); [eauto 10 with parsing|done|done|lia|done]. }
  cbv beta. intros t st6 T6 [Ht E6] _. apply yields_ret. intros _. apply yields_bind, yields_node. intros n st7 E7 T7.
  apply yields_ret. intros T8. assert (A7 : ahead st7 = rest) by (by rewrite (ahead_stream _ _ E7)).
  destruct f as [|f]; [lia|]. eapply yields_mono; [apply postfix_done; [eauto 10 with parsing|by rewrite A7]|].
  intros t' st8 _ [-> ->]. split; [|done]. cbn [shape_of]. fold (shapes_with shape_of). rewrite Hts. cbn. by rewrite Ht.
Qed.

Lemma reads_all s : writable s = true -> forall f, reads_shape f s.
Proof.
  assert (Body : forall c k, (forall f, (forall st toks rest, live st -> ahead st = toks ++ rest ->
      map kind_of toks = shape_tokens (Shp c k) -> length toks <= f -> ends_type rest ->
      yields (parse_body parse_expression (parse_at f) f) st (fun t st' => shape_of t = Some (Shp c k) /\ ahead st' = rest))) ->
    forall f, reads_shape f (Shp c k)).
  { intros c k H [|f] st toks rest L E K Hf R; [lia|]. cbn [parse_type]. by apply (H f st toks); [..|lia|]. }
  assert (All : forall l f, Forall (fun s => writable s = true -> forall f, reads_shape f s) l -> forallb writable l = true ->
    Forall (reads_shape f) l).
  { intros l f H W. rewrite forallb_forall in W. rewrite Forall_forall in H |- *.
    intros x Hx. apply H; [done|]. by apply W, list_elem_of_In. }
  revert s. apply (Shape_nested_ind (fun s => writable s = true -> forall f, reads_shape f s)
    (fun c => forall k, writable (Shp c k) = true -> forall f, reads_shape f (Shp c k))).
  - intros c k H. apply H.
  - intros n args H k W. apply Body. intros f st toks rest L E K Hf R. apply (name_reads f n args k st toks); try done.
    apply All; [done|]. cbn in W. by apply andb_true_iff in W as [[_ W]%andb_true_iff _].
  - intros el [sz|] H k W.
    { exfalso. cbn in W. by rewrite andb_false_r in W. }
    apply Body. intros f st toks rest L E K Hf R. apply (array_reads f el k st toks); try done.
    apply H. cbn in W. apply andb_true_iff in W as [W _]. by apply andb_true_iff in W as [W _].
  - intros ms H k W. apply Body. intros f st toks rest L E K Hf R. apply (tuple_reads f ms k st toks); try done.
    apply All; [done|]. cbn in W. by apply andb_true_iff in W as [W _].
  - intros ps r H Hr k W. assert (k = 0) as ->.
    { cbn in W. apply andb_true_iff in W as [_ W]. rewrite andb_false_r in W. apply orb_true_iff in W as [->%Nat.eqb_eq|?]; done. }
    apply Body. intros f st toks rest L E K Hf R. cbn in W. apply andb_true_iff in W as [W _].
    apply andb_true_iff in W as [Wp Wr]. apply (function_reads f ps r st toks); try done; [by apply All|by apply Hr|].
    cbn. by rewrite Wp, Wr.
Qed.
End RoundTrip.

(** The tokens of a writable type, followed by a token that does not continue
    a type, are parsed as a type of that shape, whatever comments and line
    breaks lie between them; exactly those tokens are consumed. *)
Theorem type_tokens_parse parse_expression s fuel st toks rest :
  writable s = true -> live st -> ahead st = toks ++ rest -> map kind_of toks = shape_tokens s ->
  length toks < fuel -> ends_type rest ->
  exists t st', parse_type parse_expression fuel st = Some (Return t st')
    /\ shape_of t = Some s /\ ahead st' = rest.
Proof.
  intros W L E K Hf R. destruct (reads_all parse_expression s W fuel st toks rest L E K Hf R) as (t & st' & H & _ & Hs).
  by exists t, st'.
Qed.

(** ** What cannot start a type *)

(** Any other token is rejected, and the message names it. *)
Lemma parse_type_rejects parse_expression f st t u :
  live st -> ahead st = t :: u -> type t ∉ starters ->
  raises (parse_type parse_expression (S f)) st
    (runtime_error ($"Error at " ++ SourceLocation_toString (location t) ++ $": "
       ++ start_message t (location t) ++ $" (found '" ++ lexeme t ++ $"')")).
Proof.
  intros L E Hn. assert (Hs : forall ty, ty ∈ starters -> type t <> ty) by (by intros ty Hty Ht; apply Hn; rewrite Ht).
  cbn [parse_type]. unfold parse_body. apply raises_bind, yields_skip. intros st1 E1 T1. rewrite E in E1.
  assert (L1 : live st1) by eauto with parsing. apply raises_here. unfold parse_atomic_or_group_type.
  apply raises_bind, yields_peek; [done|]. intros t0 Ht0 _. rewrite (Ht0 _ _ E1).
  apply raises_bind, yields_first_miss; [done| |].
  { intros t' v E'. rewrite E1 in E'. injection E' as <- _. intros Hin. apply Hn, elem_of_app. by left. }
  intros _. do 3 (apply raises_bind, (miss_next t u); [done|done|apply Hs; by_decision|]; intros _ _).
  apply raises_bind, yields_peek; [done|]. intros t' Ht' _. rewrite (Ht' _ _ E1). by eexists.
Qed.
