(* ===== verification/TypeText.v ===== *)
(** * Printed types, lexed and parsed again

    The text of a type ([TypeNode_toString]) through the lexer and the type
    parser. [lexed] relates a text without line breaks, comments and literals
    to its tokens; it is sound for the loop of [tokenize]. *)

From S2P Require Import Prelude.
From S2P Require Import Token.
From S2P Require Import Lexer.
From S2P Require Import LexerProps.
From S2P Require Import TokenStream.
From S2P Require Import Ast.
From S2P Require Import AstText.
From S2P Require Import AstTypes.
From S2P Require Import ParserMonad.
From S2P Require Import TypeParser.

(** ** Texts and their tokens *)

Definition head_not (p : ascii -> bool) (s : str) : Prop := match s with [] => True | c :: _ => p c = false end.

Definition punctuation (c : ascii) : option TokenType :=
  if c =c "(" then Some LPAREN else if c =c ")" then Some RPAREN
  else if c =c "[" then Some LBRACKET else if c =c "]" then Some RBRACKET
  else if c =c "," then Some COMMA else if c =c "?" then Some QUESTION_MARK
  else None.

Inductive lexed : str -> list (TokenType * str) -> Prop :=
| lexed_nil : lexed [] []
| lexed_space s ts : lexed s ts -> lexed (" "%char :: s) ts
| lexed_word c w s ts :
    is_letter c = true -> forallb is_word_char w = true -> head_not is_word_char s -> lexed s ts ->
    lexed (c :: w ++ s) ((get_keyword_type (c :: w), c :: w) :: ts)
| lexed_mark c ty s ts : punctuation c = Some ty -> lexed s ts -> lexed (c :: s) ((ty, [c]) :: ts)
| lexed_lt s ts :
    head_not (fun c => (c =c "<") || (c =c "=")) s -> lexed s ts -> lexed ("<"%char :: s) ((LT, $"<") :: ts)
| lexed_gt s ts : head_not (ceq "=") s -> lexed s ts -> lexed (">"%char :: s) ((GT, $">") :: ts)
| lexed_arrow s ts : lexed s ts -> lexed ("-"%char :: ">"%char :: s) ((ARROW, $"->") :: ts).

(** ** Soundness for the lexer's loop *)

Lemma next_is_at L k d : next_is L k d = match rest L !! k with Some x => x =c d | None => false end.
Proof. unfold next_is. by rewrite rest_lookup. Qed.

Lemma at_rest L c s : rest L = c :: s -> source_ L !! pos_ L = Some c.
Proof. intros E. replace (pos_ L) with (pos_ L + 0) by lia. by rewrite <- rest_lookup, E. Qed.

(** The lexer continues with [s] after tokens [new], its levels unchanged. *)
Definition after (L : Lexer) (s : str) (L' : Lexer) : Prop :=
  rest L' = s /\ indent_levels_ L' = indent_levels_ L.

Lemma after_nest L n c d : after L (drop n (rest L)) (nest (advance L n c) d).
Proof. split; [|done]. exact (rest_advance L n c). Qed.

Lemma after_advance L n c : after L (drop n (rest L)) (advance L n c).
Proof. split; [|done]. apply rest_advance. Qed.

Definition operator_char (c : ascii) : bool :=
  negb (is_letter c || is_digit c
        || bool_decide (c ∈ [ch_cr; ch_nl; "#"%char; " "%char; ch_tab; "/"%char; ch_quote])).

Lemma operator_step L c tokens :
  operator_char c = true -> tokenize_step L c tokens = lex_operator L c tokens.
Proof.
  unfold operator_char. rewrite negb_true_iff. intros [[Hl Hd]%orb_false_iff Hs%bool_decide_eq_false]%orb_false_iff.
  unfold tokenize_step.
  assert (N : forall d, d ∈ [ch_cr; ch_nl; "#"%char; " "%char; ch_tab; "/"%char; ch_quote] -> (c =c d) = false).
  { intros d Hin. apply ceq_false. intros ->. by apply Hs. }
  rewrite !N by by_decision. cbn. by rewrite Hl, Hd.
Qed.

Definition kinds (l : list Token) : list (TokenType * str) := map kind_of l.

Lemma operator_lexes L c s tokens ts d :
  rest L = c :: s -> tokenize_step L c tokens = lex_operator L c tokens -> operator_tokens L c = Some (ts, d) ->
  exists L' new, tokenize_step L c tokens = Ok (L', tokens ++ new) /\ kinds new = ts
    /\ after L (drop (length (concat ts.*2)) (c :: s)) L'.
Proof.
  intros E Hc Ho. rewrite Hc. unfold lex_operator. rewrite Ho, emit_tokens_eq.
  eexists _, _. split; [reflexivity|]. split.
  - unfold kinds. clear. induction ts as [|[ty lx] ts IH]; [done|]. cbn. f_equal. exact IH.
  - rewrite <- E. apply after_nest.
Qed.

Lemma word_lexes L c w s tokens :
  rest L = c :: w ++ s -> is_letter c = true -> forallb is_word_char w = true -> head_not is_word_char s ->
  exists L' new, tokenize_step L c tokens = Ok (L', tokens ++ new)
    /\ kinds new = [(get_keyword_type (c :: w), c :: w)] /\ after L s L'.
Proof.
  intros E Hc Hw Hs. rewrite is_letter_step by done. unfold lex_word. rewrite consume_while_eq.
  assert (T : take_while is_word_char (rest L) = c :: w).
  { rewrite E. change (c :: w ++ s) with ((c :: w) ++ s). rewrite take_while_app.
    - destruct s as [|x s]; cbn; [by rewrite app_nil_r|]. cbn in Hs. by rewrite Hs, app_nil_r.
    - constructor; [unfold is_word_char; by rewrite Hc|]. apply Forall_forall. intros x Hx%list_elem_of_In.
      rewrite forallb_forall in Hw. by apply Hw. }
  rewrite T. eexists _, _. split; [reflexivity|]. split; [done|]. rewrite advance_advance, Nat.add_0_r.
  replace s with (drop (length (c :: w)) (rest L)); [apply after_advance|].
  rewrite E. exact (drop_app_length (c :: w) s).
Qed.

(** One iteration, at a text that the relation [R] describes: a prefix of the
    tokens is emitted and the remaining text is described by the others. *)
Definition lexes_on (R : str -> list (TokenType * str) -> Prop) (s : str) (ts : list (TokenType * str)) (L : Lexer) (tokens : list Token) : Prop :=
  exists c L' new s' ts', source_ L !! pos_ L = Some c /\ tokenize_step L c tokens = Ok (L', tokens ++ new)
    /\ after L s' L' /\ R s' ts' /\ length s' < length s /\ ts = kinds new ++ ts'.

Lemma switch_lexes_on R L c s tokens ts d s' ts' :
  rest L = c :: s -> tokenize_step L c tokens = lex_operator L c tokens -> operator_tokens L c = Some (ts, d) ->
  drop (length (concat ts.*2)) (c :: s) = s' -> length s' < length (c :: s) -> R s' ts' ->
  lexes_on R (c :: s) (ts ++ ts') L tokens.
Proof.
  intros E Hc Ho Hd Hl H. destruct (operator_lexes L c s tokens _ d E Hc Ho) as (L' & new & Hstep & Hk & HA).
  rewrite Hd in HA. exists c, L', new, s', ts'. split_and!; try done; [by eapply at_rest|by rewrite Hk].
Qed.

Lemma operator_lexes_on R L c s tokens ts d s' ts' :
  rest L = c :: s -> operator_char c = true -> operator_tokens L c = Some (ts, d) ->
  drop (length (concat ts.*2)) (c :: s) = s' -> length s' < length (c :: s) -> R s' ts' ->
  lexes_on R (c :: s) (ts ++ ts') L tokens.
Proof. intros E Hc. apply switch_lexes_on; [done|by apply operator_step]. Qed.

Lemma word_lexes_on R L c w s ts tokens :
  rest L = c :: w ++ s -> is_letter c = true -> forallb is_word_char w = true -> head_not is_word_char s -> R s ts ->
  lexes_on R (c :: w ++ s) ((get_keyword_type (c :: w), c :: w) :: ts) L tokens.
Proof.
  intros E Hc Hw Hs H. destruct (word_lexes L c w s tokens) as (L' & new & Hstep & Hk & HA); [done..|].
  exists c, L', new, s, ts. split_and!; try done; [by eapply at_rest| |by rewrite Hk]. cbn. rewrite length_app. lia.
Qed.

Lemma space_lexes_on R L s ts tokens : rest L = " "%char :: s -> R s ts -> lexes_on R (" "%char :: s) ts L tokens.
Proof.
  intros E H. eexists _, (advance L 1 1), [], s, ts. rewrite app_nil_r.
  split_and!; [by eapply at_rest|done| |done|cbn; lia|done]. pose proof (after_advance L 1 1) as A. by rewrite E in A.
Qed.

Lemma mark_lexes_on R L c ty s ts tokens : rest L = c :: s -> punctuation c = Some ty -> R s ts ->
  lexes_on R (c :: s) ((ty, [c]) :: ts) L tokens.
Proof.
  intros E Hc H. assert (exists d, operator_char c = true /\ operator_tokens L c = Some ([(ty, [c])], d)) as (d & Hop & Ho).
  { unfold punctuation in Hc. repeat case_match; simplify_eq;
      match goal with H : (_ =c _) = true |- _ => apply ceq_true in H as -> end; by eexists. }
  apply (operator_lexes_on R L c s tokens _ d s ts E Hop Ho); [done|cbn; lia|done].
Qed.

(** What a description of texts promises: the empty text has no tokens, and
    the lexer follows it at every other one. *)
Class LexRelation (R : str -> list (TokenType * str) -> Prop) : Prop := {
  relation_nil ts : R [] ts -> ts = [];
  relation_step s ts L tokens : R s ts -> rest L = s -> s <> [] -> lexes_on R s ts L tokens
}.

Section Described.
Context (R : str -> list (TokenType * str) -> Prop) `{!LexRelation R}.

Lemma described_loop fuel s ts L tokens :
  R s ts -> rest L = s -> length s <= fuel ->
  exists L' new, tokenize_loop fuel L tokens = Some (Ok (L', tokens ++ new)) /\ kinds new = ts
    /\ indent_levels_ L' = indent_levels_ L.
Proof.
  revert s ts L tokens. induction fuel as [|fuel IH]; intros s ts L tokens H E Hf;
    (destruct (decide (s = [])) as [->|Hne];
      [apply relation_nil in H as ->; exists L, []; rewrite app_nil_r, tokenize_loop_end; [done|];
       replace (pos_ L) with (pos_ L + 0) by lia; by rewrite <- rest_lookup, E|]).
  - destruct s; [done|cbn in Hf; lia].
  - destruct (relation_step s ts L tokens H E Hne) as (c & L1 & new & s' & ts' & Hat & Hst & [Er El] & H' & Hl & ->).
    rewrite (tokenize_loop_step _ _ _ _ _ _ Hat Hst).
    destruct (IH s' ts' L1 (tokens ++ new) H' Er) as (L2 & new2 & Hlp & Hk & El2); [lia|].
    exists L2, (new ++ new2). rewrite app_assoc. split; [done|]. split; [|congruence].
    unfold kinds in *. by rewrite map_app, Hk.
Qed.

(** The tokens of such a text, up to the end of the file. *)
Lemma described_tokenize s ts path : R s ts ->
  exists toks loc, tokenize s path = Some (Ok (toks ++ [mkToken END_OF_FILE [] loc])) /\ kinds toks = ts.
Proof.
  intros H. destruct (described_loop (length s) s ts (Lexer_new s path) []) as (L & new & Hl & Hk & El); [done..|].
  exists new. unfold tokenize. rewrite Hl. eexists. split; [|done]. do 2 f_equal. unfold tokenize_finish.
  rewrite El. cbn. reflexivity.
Qed.
End Described.

(** Two closing brackets are one iteration. *)
Lemma gt_lexes_on s ts L tokens :
  head_not (ceq "=") s -> lexed s ts -> rest L = ">"%char :: s -> lexes_on lexed (">"%char :: s) ((GT, $">") :: ts) L tokens.
Proof.
  intros Hs H E. destruct s as [|x s].
  { apply (operator_lexes_on _ L _ _ _ [(GT, $">")] 0 []); try done; [|cbn; lia].
    cbv [operator_tokens]. cbn. by rewrite !next_is_at, E. }
  destruct (x =c ">") eqn:Ex.
  - apply ceq_true in Ex as ->. inversion H as [| | | | |? ts' Hs' H' |]; subst; try done.
    apply (operator_lexes_on _ L _ _ _ [(GT, $">"); (GT, $">")] 0 s); try done; [|cbn; lia].
    cbv [operator_tokens]. cbn. rewrite !next_is_at, E. cbn. destruct s as [|y s]; [done|]. cbn in Hs' |- *.
    apply ceq_false in Hs'. by rewrite (proj2 (ceq_false y "=") (not_eq_sym Hs')).
  - apply (operator_lexes_on _ L _ _ _ [(GT, $">")] 0 (x :: s)); try done; [|cbn; lia].
    cbv [operator_tokens]. cbn. rewrite !next_is_at, E. cbn. rewrite Ex. cbn in Hs.
    apply ceq_false in Hs. by rewrite (proj2 (ceq_false x "=") (not_eq_sym Hs)).
Qed.

#[export] Instance lexed_relation : LexRelation lexed.
Proof.
  split; [by inversion 1|]. intros s ts L tokens H. revert L tokens.
  destruct H as [|s ts H|c w s ts Hc Hw Hs H|c ty s ts Hc H|s ts Hs H|s ts Hs H|s ts H]; intros L tokens E Hne; [done|..].
  - by apply space_lexes_on.
  - by apply word_lexes_on.
  - by apply mark_lexes_on.
  - apply (operator_lexes_on _ L _ s tokens [(LT, $"<")] 0 s ts E); try done; [|cbn; lia].
    cbv [operator_tokens]. cbn. rewrite !next_is_at, E. cbn.
    destruct s as [|x s]; [done|]. cbn in Hs |- *. by apply orb_false_iff in Hs as [-> ->].
  - by apply gt_lexes_on.
  - apply (operator_lexes_on _ L _ _ tokens [(ARROW, $"->")] 0 s ts E); try done; [|cbn; lia].
    cbv [operator_tokens]. cbn. by rewrite !next_is_at, E.
Qed.

(** ** The texts of types *)

Definition stops (r : str) : Prop := head_not (fun c => is_word_char c || (c =c "=")) r.

Lemma stops_word r : stops r -> head_not is_word_char r.
Proof. destruct r; [done|]. by intros [? _]%orb_false_iff. Qed.
Lemma stops_equals r : stops r -> head_not (ceq "=") r.
Proof. destruct r as [|c r]; [done|]. intros [_ H]%orb_false_iff. cbn. apply ceq_false in H. by apply ceq_false, not_eq_sym. Qed.

Lemma marks_lexed k r ts : lexed r ts -> lexed (replicate k "?"%char ++ r) (replicate k (QUESTION_MARK, $"?") ++ ts).
Proof. intros H. induction k as [|k IH]; [done|]. by apply (lexed_mark "?"%char QUESTION_MARK). Qed.

Lemma marks_stop k r : stops r -> stops (replicate k "?"%char ++ r).
Proof. by destruct k. Qed.

Definition shape_lexes (s : Shape) : Prop :=
  forall r ts, stops r -> lexed r ts -> lexed (shape_text s ++ r) (shape_tokens s ++ ts).
Definition core_lexes (c : Core) : Prop :=
  forall r ts, stops r -> lexed r ts -> lexed (core_text c ++ r) (core_tokens c ++ ts).

Lemma list_lexed l r ts :
  Forall shape_lexes l -> stops r -> lexed r ts -> lexed (shape_list l ++ r) (separated (map shape_tokens l) ++ ts).
Proof.
  intros H Hr Hts. induction H as [|s l Hs H IH]; [done|]. cbn [map]. rewrite joined_cons. cbn [from_option id].
  destruct l as [|s' l]; [cbn; rewrite app_nil_r; by apply Hs|].
  change (separated (shape_tokens s :: map shape_tokens (s' :: l)))
    with (shape_tokens s ++ (COMMA, $",") :: separated (map shape_tokens (s' :: l))).
  rewrite <- !app_assoc. apply Hs; [done|]. by apply (lexed_mark ","%char COMMA), lexed_space.
Qed.

(** What a type starts with. *)
Lemma writable_head s : writable s = true ->
  exists a t, shape_text s = a :: t /\ (is_letter a = true \/ a = "["%char \/ a = "("%char).
Proof.
  destruct s as [[n args|el sz|ms|ps r] k]; intros H.
  - cbn in H. apply andb_true_iff in H as [H _]. do 2 (apply andb_true_iff in H as [H _]).
    destruct n as [|c w]; [done|]. cbn in H. apply andb_true_iff in H as [H _]. eexists c, _. split; [reflexivity|by left].
  - eexists "["%char, _. split; [reflexivity|by right; left].
  - eexists "("%char, _. split; [reflexivity|by right; right].
  - eexists "f"%char, _. split; [reflexivity|by left].
Qed.

Lemma open_follows s l r : writable s = true ->
  head_not (fun c => (c =c "<") || (c =c "=")) (shape_list (s :: l) ++ r).
Proof.
  intros (a & t & E & Ha)%writable_head. cbn [map]. rewrite joined_cons. cbn [from_option id]. rewrite E. cbn.
  destruct Ha as [Ha|[->| ->]]; [|done..]. apply orb_false_iff. split; apply ceq_false; by intros ->.
Qed.

Lemma name_lexes n args :
  Forall shape_lexes args -> word_ok n = true -> forallb writable args = true -> core_lexes (CName n args).
Proof.
  intros HF Hn Ha r ts Hr Hts. destruct n as [|c w]; [done|].
  apply andb_true_iff in Hn as [Hc Hw]. cbn [core_text core_tokens]. destruct args as [|a args].
  { rewrite app_nil_r. cbn [app]. apply lexed_word; [done..|by apply stops_word|done]. }
  rewrite <- !app_assoc. cbn [app]. apply lexed_word; [done..|].
  rewrite <- !app_assoc. apply (lexed_lt (shape_list (a :: args) ++ $">" ++ r)).
  - apply open_follows. by apply andb_true_iff in Ha as [? _].
  - apply list_lexed; [done|done|]. by apply lexed_gt; [apply stops_equals|].
Qed.

Lemma all_lexes l :
  Forall (fun s => writable s = true -> shape_lexes s) l -> forallb writable l = true -> Forall shape_lexes l.
Proof.
  intros H W. rewrite forallb_forall in W. rewrite Forall_forall in H |- *. intros x Hx. apply H; [done|].
  by apply W, list_elem_of_In.
Qed.

Lemma shape_lexed s : writable s = true -> shape_lexes s.
Proof.
  revert s. apply (Shape_nested_ind (fun s => writable s = true -> shape_lexes s)
    (fun c => core_writable c = true -> core_lexes c)).
  - intros c k H W r ts Hr Hts. cbn in W. apply andb_true_iff in W as [W _]. cbn [shape_text shape_tokens].
    rewrite <- !app_assoc. apply H; [done|by apply marks_stop|by apply marks_lexed].
  - intros n args H [[Hn _]%andb_true_iff W]%andb_true_iff. apply name_lexes; [by apply all_lexes|done|done].
  - intros el [sz|] H W r ts Hr Hts; cbn in W; [by rewrite andb_false_r in W|]. rewrite andb_true_r in W.
    cbn [core_text core_tokens app]. rewrite <- !app_assoc. apply (lexed_mark "["%char LBRACKET); [done|].
    apply H; [done..|]. by apply (lexed_mark "]"%char RBRACKET).
  - intros ms H W r ts Hr Hts. cbn [core_text core_tokens app]. rewrite <- !app_assoc.
    apply (lexed_mark "("%char LPAREN); [done|]. apply list_lexed; [by apply all_lexes|done|].
    by apply (lexed_mark ")"%char RPAREN).
  - intros ps r0 H Hr0 [Wp Wr]%andb_true_iff r ts Hr Hts. cbn [core_text core_tokens app]. rewrite <- !app_assoc.
    apply (lexed_word "f"%char ["n"%char] ("("%char :: shape_list ps ++ $") -> " ++ shape_text r0 ++ r)); [done..|].
    apply (lexed_mark "("%char LPAREN); [done|]. apply list_lexed; [by apply all_lexes|done|].
    apply (lexed_mark ")"%char RPAREN); [done|]. apply lexed_space, lexed_arrow, lexed_space. by apply Hr0.
Qed.

(** ** Round trip *)

Lemma keyword_not_trivia w : get_keyword_type w ∉ [COMMENT; NEWLINE].
Proof.
  unfold get_keyword_type. destruct (assoc_find w keywords) as [t|] eqn:E; [|by_decision].
  apply assoc_elem_of in E.
  assert (H : Forall (fun p => p.2 ∉ [COMMENT; NEWLINE]) keywords) by by_decision.
  rewrite Forall_forall in H. by apply (H (w, t)).
Qed.

Lemma lexed_not_trivia s ts : lexed s ts -> Forall (fun p => p.1 ∉ [COMMENT; NEWLINE]) ts.
Proof.
  induction 1 as [|s ts H IH|c w s ts Hc Hw Hs H IH|c ty s ts Hc H IH|s ts Hs H IH|s ts Hs H IH|s ts H IH];
    [constructor|exact IH|..]; (constructor; [|exact IH]); cbn [fst].
  - apply keyword_not_trivia.
  - unfold punctuation in Hc. repeat case_match; simplify_eq; by_decision.
  - by_decision.
  - by_decision.
  - by_decision.
Qed.

(** A parser at the start of a token vector. *)
Definition at_start (toks : list Token) (path : str) (counter : Z) : ParseState := mkPState (mkParser toks 0 path) counter initial_env.

Lemma ahead_at_start toks path counter ts loc :
  kinds toks = ts -> Forall (fun p => p.1 ∉ [COMMENT; NEWLINE]) ts ->
  ahead (at_start (toks ++ [mkToken END_OF_FILE [] loc]) path counter) = toks ++ [mkToken END_OF_FILE [] loc].
Proof.
  intros <- H. unfold ahead, upcoming. change (drop (cursor (stream (at_start ?l path counter))) (tokens_ (stream (at_start ?l path counter)))) with l.
  rewrite filter_app. f_equal.
  induction toks as [|t l IH]; [done|]. inversion H as [|? ? Ht H']; subst.
  rewrite filter_cons_True; [by rewrite IH|]. unfold is_trivia. apply orb_false_iff. cbn in Ht.
  split; apply tteq_false; intros E; apply Ht; rewrite E; by_decision.
Qed.

Lemma ends_at_eof loc : ends_type [mkToken END_OF_FILE [] loc].
Proof. intros t u [= <- <-]. by_decision. Qed.

(** C34: Printing a type and reading it back, for the types whose text the
    grammar can write: names of one word that may start a type, with or without
    arguments, arrays without a size, tuples, function types, [Vec] and
    [Future], any of them but a function type or a one-element group behind at
    most one question mark, nested at will, with no part missing. [tokenize]
    lexes the text of [toString] without an error (closing brackets of nested
    arguments included, which lie next to each other), and the type parser reads
    those tokens, up to the end of the file, as a type with the same shape and
    the same text. Types outside of this grammar are left out: sized arrays,
    qualified names, and pointers, whose text is refused
    ([pointer_text_rejected]). *)
Theorem type_text_roundtrip parse_expression t s path counter :
  shape_of t = Some s -> writable s = true ->
  exists toks t' st',
    tokenize (TypeNode_toString t) path = Some (Ok toks)
    /\ parse_type parse_expression (length toks) (at_start toks path counter) = Some (Return t' st')
    /\ shape_of t' = Some s /\ TypeNode_toString t' = TypeNode_toString t
    /\ map type (ahead st') = [END_OF_FILE].
Proof.
  intros Hs W. apply shape_of_sound in Hs as [_ Htext].
  assert (H : lexed (shape_text s) (shape_tokens s)).
  { pose proof (shape_lexed s W [] [] I lexed_nil) as H. by rewrite !app_nil_r in H. }
  destruct (described_tokenize lexed _ _ path H) as (toks & loc & Htok & Hk).
  pose proof (ahead_at_start toks path counter _ loc Hk (lexed_not_trivia _ _ H)) as Ha.
  destruct (type_tokens_parse parse_expression s (length (toks ++ [mkToken END_OF_FILE [] loc]))
    (at_start (toks ++ [mkToken END_OF_FILE [] loc]) path counter) toks [mkToken END_OF_FILE [] loc])
    as (t' & st' & Hp & Hsh & Hend); try done.
  - by destruct toks.
  - rewrite length_app. cbn. lia.
  - apply ends_at_eof.
  - eexists _, t', st'. rewrite Htext. split_and!; try done; [by apply shape_of_sound in Hsh as [_ ->]|by rewrite Hend].
Qed.

Definition map_of_vecs : TypeNode :=
  let node := mkNode (mkLoc [] 1 1) 0 in
  let named n args := TypeName node (Some (mkIdentifier node n)) args in
  let int := named $"Int" [] in
  OptionalType node (Some (named $"Map" [Some (TupleTypeNode node [Some int; Some int]);
    Some (FunctionType node [Some (ArrayType node (Some int) None)] (Some (named $"Vec" [Some (named $"Vec" [Some int])])))])).

(** [Map<(Int, Int), fn([Int]) -> Vec<Vec<Int>>>?] *)
Lemma type_text_roundtrip_witness :
  exists toks t' st',
    tokenize $"Map<(Int, Int), fn([Int]) -> Vec<Vec<Int>>>?" $"a.vyb" = Some (Ok toks)
    /\ parse_type (mret None) (length toks) (at_start toks $"a.vyb" 0) = Some (Return t' st')
    /\ shape_of t' = shape_of map_of_vecs /\ TypeNode_toString t' = TypeNode_toString map_of_vecs
    /\ map type (ahead st') = [END_OF_FILE].
Proof.
  destruct (shape_of map_of_vecs) as [s|] eqn:E; [|by vm_compute in E].
  apply (type_text_roundtrip (mret None) map_of_vecs s $"a.vyb" 0 E). vm_compute in E. injection E as <-. reflexivity.
Defined.

(** A pointer type does not read back. [toString] prints it as [ptr<T>],
    but [ptr] is a keyword and no type starts with it: the text lexes, and the
    type parser throws at its first token. *)
Theorem pointer_text_rejected parse_expression n p s path counter :
  shape_of p = Some s -> writable s = true ->
  exists toks message,
    tokenize (TypeNode_toString (PointerType n (Some p))) path = Some (Ok toks)
    /\ raises (parse_type parse_expression (length toks)) (at_start toks path counter) (runtime_error message).
Proof.
  intros Hs W. assert (Hp : shape_of (PointerType n (Some p)) = Some (Shp (CName $"ptr" [s]) 0)).
  { cbn [shape_of]. change (Some p ≫= shape_of) with (shape_of p). by rewrite Hs. }
  apply shape_of_sound in Hp as [_ ->].
  assert (H : lexed (core_text (CName $"ptr" [s])) (core_tokens (CName $"ptr" [s]))).
  { rewrite <- (app_nil_r (core_text _)), <- (app_nil_r (core_tokens _)). apply name_lexes; try done.
    - constructor; [by apply shape_lexed|done].
    - cbn. by rewrite W.
    - constructor. }
  cbn [shape_text replicate]. rewrite app_nil_r.
  destruct (described_tokenize lexed _ _ path H) as (toks & loc & Htok & Hk).
  pose proof (ahead_at_start toks path counter _ loc Hk (lexed_not_trivia _ _ H)) as Ha.
  destruct toks as [|t toks]; [done|]. eexists _, _. split; [exact Htok|]. cbn [app length]. apply (parse_type_rejects _ _ _ t (toks ++ [mkToken END_OF_FILE [] loc])).
  - done.
  - exact Ha.
  - injection Hk as -> _ _. by_decision.
Qed.

Lemma pointer_text_rejected_witness :
  let int := TypeName (mkNode (mkLoc [] 1 1) 0) (Some (mkIdentifier (mkNode (mkLoc [] 1 1) 0) $"Int")) [] in
  exists toks message,
    tokenize $"ptr<Int>" $"a.vyb" = Some (Ok toks)
    /\ raises (parse_type (mret None) (length toks)) (at_start toks $"a.vyb" 0) (runtime_error message).
Proof.
  intros int. apply (pointer_text_rejected (mret None) (mkNode (mkLoc [] 1 1) 0) int (Shp (CName $"Int" []) 0) $"a.vyb" 0); reflexivity.
Defined.
