(* ===== verification/ExprParser.v ===== *)
(** * The expression parser

    src/parser/expression_parser.cpp. The methods of [ExpressionParser] are
    one definition each; [parse_primary] is cut into the forms it tries, in
    the order it tries them. A form that falls through to the next one returns
    [None]. The recursive calls ([rec_expression], [rec_primary]) and the
    statement parser it calls through [stmt_parser_] ([parse_block],
    [parse_match]) are arguments; [fuel] bounds its loops and the type parser.
    The comments, line breaks, [INDENT] and [DEDENT] tokens some of its scans
    skip are more than [peek] skips, so the scans read the token vector. *)

From Stdlib Require Import SpecFloat.
From S2P Require Import Prelude.
From S2P Require Import Token.
From S2P Require Import Ast.
From S2P Require Import AstTypes.
From S2P Require Import IntTypes.
From S2P Require Import TypeRel.
From S2P Require Import TokenStream.
From S2P Require Import ParserMonad.
From S2P Require Import TypeParser.

(** ** Floating-point literals *)

(** [std::stod] on the decimal texts the lexer makes float literals of: digits,
    a fraction and an exponent. The value [m * 10 ^ e] is rounded to the
    nearest double; overflow, and a tiny result that is not exact, set [ERANGE],
    which [std::stod] reports as [std::out_of_range]. *)
Definition is_dec (c : ascii) : bool := in_range c "0" "9".

Definition signed_exponent (s : str) : Z :=
  match s with
  | c :: s' =>
      if c =c "-" then (- digits_value 10 0 s')%Z
      else if c =c "+" then digits_value 10 0 s' else digits_value 10 0 s
  | [] => 0%Z
  end.

(** The digits, how many of them follow the point, and the exponent. *)
Definition decimal_parts (s : str) : str * nat * Z :=
  let whole := take_while is_dec s in
  let r := drop_while is_dec s in
  let '(frac, r') := match r with
                     | c :: r1 => if c =c "." then (take_while is_dec r1, drop_while is_dec r1) else ([], r)
                     | [] => ([], [])
                     end in
  let e := match r' with
           | c :: r2 => if (c =c "e") || (c =c "E") then signed_exponent r2 else 0%Z
           | [] => 0%Z
           end in
  (whole ++ frac, length frac, e).

(** [m / 10 ^ k] with all the bits that decide the rounding: the quotient of a
    scaled numerator, and a last bit for the remainder. *)
Definition scaled_quotient (m k : Z) : Z * Z :=
  let d := (10 ^ k)%Z in
  let s := (Z.log2 d + 60)%Z in
  let q := (m * 2 ^ s / d)%Z in
  let r := (m * 2 ^ s mod d)%Z in
  ((2 * q + (if (r =? 0)%Z then 0 else 1))%Z, (- s - 1)%Z).

(** Below the smallest normal number, whatever the precision there. *)
Definition is_tiny (m e : Z) : bool :=
  match binary_normalize 53 (2 ^ 62) m e false with
  | S754_finite _ _ e' => (e' + 53 <=? -1022)%Z
  | _ => false
  end.

Definition double_of_decimal (m e : Z) : outcome double :=
  let '(m', e') := if (0 <=? e)%Z then ((m * 10 ^ e)%Z, 0%Z) else scaled_quotient m (- e) in
  match binary_normalize 53 1024 m' e' false with
  | S754_infinity _ => Throw (out_of_range $"stod")
  | v =>
      if (e <? 0)%Z && negb (m =? 0)%Z && is_tiny m' e' && negb (m * 2 ^ 1074 mod 10 ^ (- e) =? 0)%Z
      then Throw (out_of_range $"stod") else Ok v
  end.

Definition stod (s : str) : outcome double :=
  let '(ds, k, e) := decimal_parts s in
  match ds with
  | [] => Throw (invalid_argument $"stod")
  | _ => double_of_decimal (digits_value 10 0 ds) (e - Z.of_nat k)
  end.

(** ** Token classes *)

Definition is_literal (ty : TokenType) : bool :=
  match ty with
  | INT_LITERAL | FLOAT_LITERAL | STRING_LITERAL | KEYWORD_TRUE | KEYWORD_FALSE | KEYWORD_NULL | KEYWORD_NIL => true
  | _ => false
  end.

Definition is_expression_start (ty : TokenType) : bool :=
  match ty with
  | Token.IDENTIFIER | KEYWORD_FROM | KEYWORD_MY | KEYWORD_THEIR | KEYWORD_OUR | KEYWORD_MILD | KEYWORD_BORROW | KEYWORD_VIEW
  | INT_LITERAL | FLOAT_LITERAL | STRING_LITERAL | KEYWORD_TRUE | KEYWORD_FALSE | KEYWORD_NULL | KEYWORD_NIL
  | LPAREN | LBRACKET | LBRACE | KEYWORD_IF | KEYWORD_TYPEOF | KEYWORD_TYPENAME | KEYWORD_SELECT
  | KEYWORD_AWAIT | KEYWORD_ASYNC | BANG | MINUS | TILDE => true
  | _ => false
  end.

(** ** Scans of the token vector *)

Definition is_layout (t : Token) : bool := type_in t [COMMENT; NEWLINE; INDENT; DEDENT].

(** The loop that steps over layout tokens from index [p]. *)
Definition skip_layout (ts : list Token) (p : nat) : nat := p + length (take_while is_layout (drop p ts)).

(** [find_next_token] and [next_significant]: the size when there is none. *)
Definition find_next_token (ts : list Token) (start_pos : nat) : nat :=
  if start_pos <? length ts then skip_layout ts start_pos else length ts.

Definition token_is (ts : list Token) (i : nat) (ty : TokenType) : bool :=
  match ts !! i with Some t => type t =t ty | None => false end.

(** [obj.field.method(]: each round moves [token_pos] forward, so the number of
    tokens bounds the rounds. *)
Fixpoint method_call_pattern (ts : list Token) (n token_pos : nat) : bool :=
  match n with
  | O => false
  | S n' =>
      if token_is ts token_pos DOT || token_is ts token_pos COLONCOLON then
        let next_identifier_pos := find_next_token ts (S token_pos) in
        if negb (token_is ts next_identifier_pos Token.IDENTIFIER) then false
        else
          let after_identifier_pos := find_next_token ts (S next_identifier_pos) in
          if token_is ts after_identifier_pos LPAREN then true
          else if token_is ts after_identifier_pos DOT || token_is ts after_identifier_pos COLONCOLON
          then method_call_pattern ts n' after_identifier_pos
          else false
      else false
  end.

Definition name_like : list TokenType :=
  [Token.IDENTIFIER; KEYWORD_MY; KEYWORD_THEIR; KEYWORD_OUR; KEYWORD_MILD; KEYWORD_BORROW; KEYWORD_VIEW].

Definition intrinsic_names : list str :=
  [$"println"; $"print"; $"debug"; $"error"; $"warn"; $"info"; $"lit"; $"notype"; $"bare"; $"deserial";
   $"my"; $"their"; $"our"; $"borrow"; $"view"].

(** [skip_type_parsing]: the tokens at [pos] look like a call. *)
Definition skip_type_parsing (ts : list Token) (pos : nat) (t : Token) (known_type : bool) : bool :=
  if type_in t name_like then
    let identifier_pos := skip_layout ts pos in
    let after_identifier_pos := find_next_token ts (S identifier_pos) in
    let call := token_is ts after_identifier_pos LPAREN in
    (call && negb known_type) || method_call_pattern ts (length ts) after_identifier_pos
    || (call && in_names (lexeme t) intrinsic_names)
  else false.

(** The index of the [>] that closes the [<] the scan starts at. *)
Fixpoint close_angle (depth : Z) (l : list Token) (g : nat) : option nat :=
  match l with
  | [] => None
  | t :: l' =>
      if type t =t LT then close_angle (depth + 1) l' (S g)
      else if type t =t GT then if (depth - 1 =? 0)%Z then Some g else close_angle (depth - 1) l' (S g)
      else close_angle depth l' (S g)
  end.

(** [Ident<...>::] *)
Definition is_generic_scoped (ts : list Token) (pos : nat) : bool :=
  let scan_pos := skip_layout ts pos in
  if token_is ts (S scan_pos) LT then
    match close_angle 0 (drop (S scan_pos) ts) (S scan_pos) with
    | Some g => token_is ts (find_next_token ts (S g)) COLONCOLON
    | None => false
    end
  else false.

(** The same scan of a typed struct literal, which also stops at a token
    outside the brackets. *)
Fixpoint struct_scan (angle_depth : Z) (l : list Token) (scan_pos : nat) : option nat :=
  match l with
  | [] => None
  | t :: l' =>
      if type t =t LT then struct_scan (angle_depth + 1) l' (S scan_pos)
      else if type t =t GT then
        if (angle_depth - 1 =? 0)%Z then Some scan_pos else struct_scan (angle_depth - 1) l' (S scan_pos)
      else if (angle_depth =? 0)%Z then None
      else struct_scan angle_depth l' (S scan_pos)
  end.

(** Whether [Type {] or [Type<...> {] follows: [Some has_generic_args]. *)
Definition is_typed_struct (ts : list Token) (pos : nat) : option bool :=
  let ident_idx := skip_layout ts pos in
  if S ident_idx <? length ts then
    let after_ident := find_next_token ts (S ident_idx) in
    if token_is ts after_ident LBRACE then Some false
    else if token_is ts after_ident LT then
      match struct_scan 0 (drop after_ident ts) after_ident with
      | Some g => if token_is ts (find_next_token ts (S g)) LBRACE then Some true else None
      | None => None
      end
    else None
  else None.

(** [for] at the level of the bracket that was opened. *)
Fixpoint will_comprehension (bracket_nest : Z) (l : list Token) : bool :=
  match l with
  | [] => false
  | t :: l' =>
      if type t =t LBRACKET then will_comprehension (bracket_nest + 1) l'
      else if type t =t RBRACKET then
        if (bracket_nest - 1 =? 0)%Z then false else will_comprehension (bracket_nest - 1) l'
      else if (bracket_nest =? 1)%Z && (type t =t KEYWORD_FOR) then true
      else will_comprehension bracket_nest l'
  end.

(** A call through a null or dangling pointer, or a dereference of a null one,
    is undefined; the model throws a marker. *)
Definition undefined {A} (what : str) : parser A := lift_p (Throw (undefined_behaviour what)).

Definition has_statement_parser : parser bool :=
  get_env (fun E => match stmt_parser_ E with null_parser => false | _ => true end).
Definition via_statement_parser {A} (m : parser A) : parser A :=
  p ← get_env stmt_parser_;
  match p with valid_parser => m | _ => undefined $"stmt_parser_" end.

(** A node whose class is known. *)
Definition make {A} (l : SourceLocation) (f : Node -> A) : parser A := n ← node_p l; mret (f n).
Definition make_identifier (t : Token) : parser Identifier := make (location t) (fun n => mkIdentifier n (lexeme t)).

(** [while (match(NEWLINE)) {}] *)
Fixpoint newlines (n : nat) : parser () :=
  match n with
  | O => no_fuel
  | S n' => m ← match_p NEWLINE; if m : bool then newlines n' else mret tt
  end.

Section ExprParser.
Variables (rec_expression rec_primary : parser (option Expression)).
Variables (parse_block : parser Block) (parse_match : parser (option Statement)).
Variable fuel : nat.

Definition parse_type_here : parser TypeNode := parse_type rec_expression fuel.

(** ** Lists *)

(** [do { list.push_back(parse_expression()); } while (match(COMMA));] *)
Fixpoint expression_list (n : nat) : parser (list (option Expression)) :=
  match n with
  | O => no_fuel
  | S n' =>
      e ← rec_expression;
      c ← match_p COMMA;
      if c : bool then es ← expression_list n'; mret (e :: es) else mret [e]
  end.

(** [if (!match(RPAREN)) { ...; expect(RPAREN); }] *)
Definition call_arguments : parser (list (option Expression)) :=
  r ← match_p RPAREN;
  if r : bool then mret [] else es ← expression_list fuel; _ ← expect_p RPAREN; mret es.

(** [if (!check(RPAREN)) { ... } expect(RPAREN);] *)
Definition intrinsic_arguments : parser (list (option Expression)) :=
  r ← check_p RPAREN;
  es ← (if r : bool then mret [] else expression_list fuel);
  _ ← expect_p RPAREN;
  mret es.

(** [while (match(COMMA)) { if (check(close)) break; list.push_back(parse_expression()); }] *)
Fixpoint trailing_elements (n : nat) (close : TokenType) : parser (list (option Expression)) :=
  match n with
  | O => no_fuel
  | S n' =>
      c ← match_p COMMA;
      if c : bool then
        k ← check_p close;
        if k : bool then mret []
        else e ← rec_expression; es ← trailing_elements n' close; mret (e :: es)
      else mret []
  end.

(** ** Calls and members *)

Definition parse_call_expression (callee_expr : option Expression) : parser (option Expression) :=
  p ← previous_p;
  args ← call_arguments;
  make (location p) (fun n => Some (CallExpression n callee_expr args [])).

Definition parse_member_access (object : option Expression) : parser (option Expression) :=
  t ← peek_p;
  let member_loc := location t in
  if type t =t Token.IDENTIFIER then
    property_token ← consume_p;
    i ← make_identifier property_token;
    make member_loc (fun n => Some (MemberExpression n object (Some (IdentifierExpr i)) false))
  else throw_p ($"Expected identifier for member access at " ++ location_to_string member_loc).

(** ** Literals *)

Definition parse_literal : parser (option Expression) :=
  t ← peek_p;
  match type t with
  | INT_LITERAL =>
      _ ← consume_p;
      p ← lift_p (parseIntegerLiteralValue (lexeme t));
      make (location t) (fun n => Some (IntegerLiteral n (sval p) (isUnsigned p) (uval p)))
  | FLOAT_LITERAL =>
      _ ← consume_p; v ← lift_p (stod (lexeme t)); make (location t) (fun n => Some (FloatLiteral n v))
  | STRING_LITERAL =>
      _ ← consume_p; make (location t) (fun n => Some (StringLiteral (mkStringLit n (lexeme t))))
  | KEYWORD_TRUE => _ ← consume_p; make (location t) (fun n => Some (BooleanLiteral n true))
  | KEYWORD_FALSE => _ ← consume_p; make (location t) (fun n => Some (BooleanLiteral n false))
  | KEYWORD_NULL | KEYWORD_NIL => _ ← consume_p; make (location t) (fun n => Some (NilLiteral n))
  | ty => throw_p ($"Unexpected token in parse_literal: " ++ token_type_to_string ty ++ $" at "
                   ++ location_to_string (location t))
  end.

(** ** Trap and ensure clauses *)

(** [while (match(COLONCOLON))] over the parts of a type path, joined. *)
Fixpoint type_path (n : nat) (path : str) : parser str :=
  match n with
  | O => no_fuel
  | S n' =>
      c ← match_p COLONCOLON;
      if c : bool then
        k ← check_p Token.IDENTIFIER;
        if k : bool then t ← consume_p; type_path n' (path ++ $"::" ++ lexeme t)
        else error_here $"Expected identifier after '::'"
      else mret path
  end.

(** A type name from a path: the identifier and the type at the first part. *)
Definition trap_type : parser TypeNode :=
  t ← consume_p;
  full ← type_path fuel (lexeme t);
  i ← make (location t) (fun n => mkIdentifier n full);
  make (location t) (fun n => TypeName n (Some i) []).

Fixpoint trap_alternatives (n : nat) : parser (list TypeNode) :=
  match n with
  | O => no_fuel
  | S n' =>
      p ← match_p PIPE;
      if p : bool then
        k ← check_p Token.IDENTIFIER;
        if k : bool then ty ← trap_type; tys ← trap_alternatives n'; mret (ty :: tys)
        else error_here $"Expected type name after '|' in trap clause"
      else mret []
  end.

(** What stands between [<] and [>]: the single type, the types of a union,
    and the two flags. *)
Definition trap_types : parser (option TypeNode * list TypeNode * bool * bool) :=
  q ← check_p QUESTION_MARK;
  if q : bool then _ ← consume_p; mret (None, [], true, false)
  else
    k ← check_p Token.IDENTIFIER;
    if k : bool then
      first ← trap_type;
      p ← check_p PIPE;
      if p : bool then tys ← trap_alternatives fuel; mret (None, first :: tys, false, true)
      else mret (Some first, [], false, false)
    else error_here $"Expected error type name or '?' in trap clause".

(** The block of a clause, by the statement parser. *)
Definition clause_block (no_parser no_brace : str) : parser Block :=
  s ← has_statement_parser;
  if s : bool then
    b ← check_p LBRACE;
    if b : bool then via_statement_parser parse_block else error_here no_brace
  else error_here no_parser.

Definition parse_trap_clause : parser TrapClause :=
  l ← location_p;
  _ ← expect_msg_p LPAREN $"Expected '(' after 'trap'";
  k ← check_p Token.IDENTIFIER;
  if k : bool then
    errorToken ← consume_p;
    errorName ← make_identifier errorToken;
    _ ← expect_msg_p LT $"Expected '<' after error variable name";
    r ← trap_types;
    let '(errorType, errorTypes, isWildcard, isMultiType) := r in
    _ ← expect_msg_p GT $"Expected '>' after error type";
    _ ← expect_msg_p RPAREN $"Expected ')' after error pattern";
    _ ← expect_msg_p ARROW $"Expected '->' after trap pattern";
    handler ← clause_block $"Statement parser not available for trap handler"
                $"Expected '{' for trap handler block";
    make l (fun n => mkTrapClause n (Some errorName) errorType errorTypes (Some (BlockStatement handler))
                       isWildcard isMultiType)
  else error_here $"Expected error variable name in trap clause".

Definition parse_ensure_clause : parser EnsureClause :=
  l ← location_p;
  _ ← expect_msg_p ARROW $"Expected '->' after 'ensure'";
  cleanup ← clause_block $"Statement parser not available for ensure handler"
              $"Expected '{' for ensure cleanup block";
  make l (fun n => mkEnsureClause n (Some (BlockStatement cleanup))).

Fixpoint trap_clauses (n : nat) : parser (list TrapClause) :=
  match n with
  | O => no_fuel
  | S n' =>
      k ← match_p KEYWORD_TRAP;
      if k : bool then c ← parse_trap_clause; cs ← trap_clauses n'; mret (c :: cs) else mret []
  end.

Definition ensure_clause : parser (option EnsureClause) :=
  k ← match_p KEYWORD_ENSURE;
  if k : bool then c ← parse_ensure_clause; mret (Some c) else mret None.

Definition block_node (b : Block) : Node := match b with mkBlock n _ => n end.

(** A block with the trap and ensure clauses behind it. *)
Definition block_expression : parser (option Expression) :=
  b ← via_statement_parser parse_block;
  traps ← trap_clauses fuel;
  ensure ← ensure_clause;
  make (loc (block_node b)) (fun n => Some (BlockExpression n (Some b) traps ensure)).

(** ** Postfix operations *)

Definition intrinsic_error {A} (name : str) (l : SourceLocation) (m : str) : parser A :=
  error_at (mkToken Token.IDENTIFIER name l) ($"Intrinsic '" ++ name ++ $"' expects " ++ m).

Definition one_argument_error {A} (i : Identifier) (args : list (option Expression)) : parser A :=
  intrinsic_error (name i) (loc (id_node i)) ($"1 argument, got " ++ to_string (Z.of_nat (length args))).

Definition borrow_call (op_loc : SourceLocation) (i : Identifier) : parser (option Expression) :=
  args ← intrinsic_arguments;
  match args with
  | [a] =>
      make op_loc (fun n => Some (BorrowExpression n a
        (if name i =s $"borrow" then MUTABLE_BORROW else IMMUTABLE_VIEW)))
  | _ => one_argument_error i args
  end.

Definition intrinsic_call (op_loc : SourceLocation) (i : Identifier) (expr : option Expression) : parser (option Expression) :=
  args ← intrinsic_arguments;
  if in_names (name i) [$"loc"; $"addr"; $"at"] then
    match args with
    | [a] =>
        make op_loc (fun n => Some (if name i =s $"loc" then LocationExpression n a
                                    else if name i =s $"addr" then AddrOfExpression n a
                                    else PointerDerefExpression n a))
    | _ => one_argument_error i args
    end
  else
    match args with
    | [] => intrinsic_error (name i) (loc (id_node i)) $"at least 1 argument, got 0"
    | _ => make op_loc (fun n => Some (CallExpression n expr args []))
    end.

(** After the opening parenthesis of a call. *)
Definition postfix_call (op_loc : SourceLocation) (expr : option Expression) : parser (option Expression) :=
  match expr with
  | None => undefined $"expr->getType()"
  | Some (IdentifierExpr i) =>
      if in_names (name i) [$"view"; $"borrow"] then borrow_call op_loc i
      else if in_names (name i) [$"loc"; $"addr"; $"at"; $"lit"; $"notype"; $"bare"; $"deserial"]
      then intrinsic_call op_loc i expr
      else parse_call_expression expr
  | Some _ => parse_call_expression expr
  end.

Fixpoint postfix_loop (n : nat) (expr : option Expression) : parser (option Expression) :=
  match n with
  | O => no_fuel
  | S n' =>
      t ← peek_p;
      let op_loc := location t in
      lp ← match_p LPAREN;
      if lp : bool then e ← postfix_call op_loc expr; postfix_loop n' e
      else
        d ← match_p DOT;
        if d : bool then e ← parse_member_access expr; postfix_loop n' e
        else
          cc ← match_p COLONCOLON;
          if cc : bool then e ← parse_member_access expr; postfix_loop n' e
          else
            lb ← match_p LBRACKET;
            if lb : bool then
              bracket_token ← previous_p;
              index_expr ← rec_expression;
              _ ← expect_p RBRACKET;
              e ← make (location bracket_token) (fun n => Some (ArrayElementExpression n expr index_expr));
              postfix_loop n' e
            else mret expr
  end.

(** [parse_postfix_expr], with the parser of the primary it starts with. *)
Definition parse_postfix_expr (primary : parser (option Expression)) : parser (option Expression) :=
  expr ← primary; postfix_loop fuel expr.

(** ** Select expressions *)

Definition comparison_tokens : list TokenType := [LT; LTEQ; GT; GTEQ; EQEQ; NOTEQ].

(** The elements a set pattern may have. *)
Definition set_element (elem : Expression) : parser Expression :=
  match elem with
  | IntegerLiteral _ _ _ _ | FloatLiteral _ _ | StringLiteral _ | BooleanLiteral _ _ | NilLiteral _
  | IdentifierExpr _ | MemberExpression _ _ _ _ => mret elem
  | CallExpression _ _ _ _ =>
      error_at (mkToken Token.IDENTIFIER [] (loc (expr_node elem)))
        $"Payload-binding enum variants (e.g. Circle(r)) are not allowed in a select set; use a bare variant name such as Circle"
  | _ =>
      error_at (mkToken Token.IDENTIFIER [] (loc (expr_node elem)))
        $"Only literals and bare enum variant names are allowed in a select set"
  end.

Fixpoint set_elements (n : nat) : parser (list (option Expression)) :=
  match n with
  | O => no_fuel
  | S n' =>
      b ← check_p RBRACE;
      e ← at_end_p;
      if b || e then mret []
      else
        _ ← newlines fuel;
        b' ← check_p RBRACE;
        if b' : bool then mret []
        else
          o ← parse_postfix_expr rec_primary;
          match o with
          | None => error_here $"Expected literal or bare enum variant name in select set pattern"
          | Some elem =>
              x ← set_element elem;
              _ ← newlines fuel;
              c ← match_p COMMA;
              if c : bool then xs ← set_elements n'; mret (Some x :: xs) else mret [Some x]
          end
  end.

Definition parse_set_pattern : parser (option Expression) :=
  t ← peek_p;
  let l := location t in
  _ ← expect_msg_p LBRACE $"Expected '{' to begin select set pattern";
  elements ← set_elements fuel;
  _ ← expect_msg_p RBRACE $"Expected '}' after select set pattern";
  match elements with
  | [] => error_at (mkToken LBRACE $"{" l) $"Empty select set pattern {} is not allowed"
  | _ => make l (fun n => Some (SetPattern n elements))
  end.

(** A comparison pattern; the message differs between select and match. *)
Definition comparison_pattern (message : str) : parser (option Expression) :=
  op_token ← consume_p;
  value ← rec_primary;
  match value with
  | None => error_here message
  | Some _ => make (location op_token) (fun n => Some (ComparisonPattern n op_token value))
  end.

(** [while (peek().type != RPAREN && !IsAtEnd())] over the bindings. *)
Fixpoint variant_bindings (n : nat) (message : str) : parser (list (option Expression)) :=
  match n with
  | O => no_fuel
  | S n' =>
      t ← peek_p;
      e ← at_end_p;
      if (type t =t RPAREN) || e then mret []
      else
        b ← rec_primary;
        match b with
        | None => error_here message
        | Some _ =>
            c ← match_p COMMA;
            if c : bool then bs ← variant_bindings n' message; mret (b :: bs) else mret [b]
        end
  end.

(** An identifier pattern followed by a parenthesis is a variant with its
    payload. *)
Definition variant_pattern (binding_message close_message : str) (pattern : option Expression) : parser (option Expression) :=
  match pattern with
  | Some (IdentifierExpr pid) =>
      t ← peek_p;
      if type t =t LPAREN then
        _ ← consume_p;
        vbindings ← variant_bindings fuel binding_message;
        _ ← expect_msg_p RPAREN close_message;
        let l := loc (id_node pid) in
        i ← make l (fun n => mkIdentifier n (name pid));
        ty ← make l (fun n => TypeName n (Some i) []);
        make l (fun n => Some (ConstructionExpression n (Some ty) vbindings))
      else mret pattern
  | _ => mret pattern
  end.

Definition select_pattern : parser (option Expression) :=
  t ← peek_p;
  if type t =t QUESTION_MARK then _ ← consume_p; mret None
  else if type_in t comparison_tokens then
    comparison_pattern $"Expected value after comparison operator in pattern"
  else if type t =t LBRACE then parse_set_pattern
  else
    pattern ← rec_primary;
    match pattern with
    | None => error_here $"Expected pattern in select arm"
    | Some _ =>
        variant_pattern $"Expected binding name in enum variant pattern"
          $"Expected ')' after enum variant pattern bindings" pattern
    end.

Definition select_result : parser (option Expression) :=
  b ← check_p LBRACE;
  s ← has_statement_parser;
  if b && s then block_expression
  else
    result ← rec_expression;
    match result with
    | None => error_here $"Expected expression after '->' in select arm"
    | Some _ => mret result
    end.

Fixpoint select_cases (n : nat) : parser (list (option Expression * option Expression)) :=
  match n with
  | O => no_fuel
  | S n' =>
      b ← check_p RBRACE;
      e ← at_end_p;
      if b || e then mret []
      else
        _ ← newlines fuel;
        b' ← check_p RBRACE;
        if b' : bool then mret []
        else
          pattern ← select_pattern;
          _ ← expect_msg_p ARROW $"Expected '->' after select pattern";
          result ← select_result;
          _ ← match_p COMMA;
          _ ← newlines fuel;
          cs ← select_cases n';
          mret ((pattern, result) :: cs)
  end.

(** After [select]. *)
Definition select_expression : parser (option Expression) :=
  t ← peek_p;
  let select_loc := location t in
  _ ← expect_msg_p LPAREN $"Expected '(' after 'select'";
  select_expr ← rec_expression;
  match select_expr with
  | None => error_here $"Expected expression in select statement"
  | Some _ =>
      _ ← expect_msg_p RPAREN $"Expected ')' after select expression";
      _ ← expect_msg_p ARROW $"Expected '->' after select expression";
      _ ← expect_msg_p LBRACE $"Expected '{' after '->' in select";
      cases ← select_cases fuel;
      _ ← expect_msg_p RBRACE $"Expected '}' after select cases";
      make select_loc (fun n => Some (SelectExpression n select_expr cases))
  end.

(** ** Match and if as expressions *)

Definition match_expression : parser (option Expression) :=
  s ← has_statement_parser;
  if s : bool then
    matchStmt ← via_statement_parser parse_match;
    match matchStmt with
    | Some (MatchStatement m) =>
        let ms_loc := match m with mkMatch n _ _ _ => loc n end in
        make ms_loc (fun n => Some (MatchExpression n (Some m)))
    | _ => error_here $"internal error: expected match statement"
    end
  else error_here $"match expression requires a statement parser".

(** After [if]. *)
Definition if_expression (l : SourceLocation) : parser (option Expression) :=
  _ ← expect_p LPAREN;
  condition ← rec_expression;
  _ ← expect_p RPAREN;
  _ ← expect_p LBRACE;
  then_branch ← rec_expression;
  _ ← expect_p RBRACE;
  e ← match_p KEYWORD_ELSE;
  if e : bool then
    _ ← expect_p LBRACE;
    else_branch ← rec_expression;
    _ ← expect_p RBRACE;
    make l (fun n => Some (IfExpression n condition then_branch else_branch))
  else error_here $"Expected 'else' branch for if-expression.".

(** ** Lambdas *)

Fixpoint lambda_parameters (n : nat) : parser (list FunctionParameter) :=
  match n with
  | O => no_fuel
  | S n' =>
      p ← check_p PIPE;
      if p : bool then mret []
      else
        k ← check_p Token.IDENTIFIER;
        if k : bool then
          param_token ← consume_p;
          param_name ← make_identifier param_token;
          lt ← match_p LT;
          param_type ← (if lt : bool then
                          t ← parse_type_here;
                          _ ← expect_msg_p GT $"Expected '>' after parameter type in lambda";
                          mret (Some t)
                        else mret None);
          let param := mkFunctionParameter param_name param_type true in
          c ← match_p COMMA;
          if c : bool then ps ← lambda_parameters n'; mret (param :: ps) else mret [param]
        else error_here $"Expected parameter name in lambda expression"
  end.

Definition lambda_body : parser (option Expression) :=
  b ← check_p LBRACE;
  s ← has_statement_parser;
  if b && s then
    block ← via_statement_parser parse_block;
    make (loc (block_node block)) (fun n => Some (BlockExpression n (Some block) [] None))
  else
    body ← rec_expression;
    match body with
    | None => error_here $"Expected expression or block after '->' in lambda"
    | Some _ => mret body
    end.

(** At the opening pipe, or at the [||] of a lambda without parameters. *)
Definition lambda (isAsync : bool) : parser (option Expression) :=
  t ← peek_p;
  let lambda_loc := location t in
  isZeroArgOr ← check_p OR;
  _ ← consume_p;
  p ← check_p PIPE;
  params ← (if isZeroArgOr || p then mret [] else lambda_parameters fuel);
  _ ← (if isZeroArgOr : bool then mret tt
       else _ ← expect_msg_p PIPE $"Expected closing '|' after lambda parameters"; mret tt);
  _ ← expect_msg_p ARROW $"Expected '->' after lambda parameters";
  body ← lambda_body;
  make lambda_loc (fun n => Some (FunctionExpression n params body isAsync)).

(** [async] is consumed when a pipe follows it. *)
Definition async_prefix : parser bool :=
  a ← check_p KEYWORD_ASYNC;
  if a : bool then
    t ← peek_next_p;
    if type_in t [PIPE; OR] then _ ← consume_p; mret true else mret false
  else mret false.

Definition lambda_start : parser bool :=
  o ← check_p OR;
  zeroArgOrLambda ← (if o : bool then t ← peek_next_p; mret (type t =t ARROW) else mret false);
  p ← check_p PIPE;
  mret (p || zeroArgOrLambda).

(** ** Construction *)

Definition is_pointer (t : TypeNode) : bool := match t with PointerType _ _ => true | _ => false end.

(** The intrinsics that read as types, or a construction. *)
Definition construct (call_loc : SourceLocation) (type_node_ : TypeNode) (args : list (option Expression)) : parser (option Expression) :=
  let regular := make (loc (type_node type_node_)) (fun n => Some (ConstructionExpression n (Some type_node_) args)) in
  let single (message : str) (f : option Expression -> Node -> Expression) : parser (option Expression) :=
    match args with
    | [a] => make call_loc (fun n => Some (f a n))
    | _ => error_here message
    end in
  match type_node_ with
  | TypeName _ i gargs =>
      let nm := match i with Some i => name i | None => [] end in
      if nm =s $"loc" then single $"loc() expects 1 argument" (fun a n => LocationExpression n a)
      else if nm =s $"addr" then single $"addr() expects 1 argument" (fun a n => AddrOfExpression n a)
      else if nm =s $"at" then single $"at() expects 1 argument" (fun a n => PointerDerefExpression n a)
      else if nm =s $"from" then
        match gargs with
        | [targetType] => single $"from<T>() expects 1 argument" (fun a n => FromIntToLocExpression n a targetType)
        | _ => error_here $"from<T>() expects a single generic type argument"
        end
      else regular
  | _ => regular
  end.

(** [TypeName(arguments)]: [None] when the tokens are not one, and the position
    is the one before. *)
Definition construction : parser (option (option Expression)) :=
  initial_pos ← get_pos_p;
  t ← peek_p;
  ts ← tokens_p;
  known ← get_env (is_known_type_name (lexeme t));
  let backtrack := _ ← set_pos_p initial_pos; mret None in
  if skip_type_parsing ts initial_pos t known then mret None
  else
    try_runtime
      (type_node_ ← parse_type_here;
       lp ← (if is_pointer type_node_ then mret false else match_p LPAREN);
       if lp : bool then
         p ← previous_p;
         args ← call_arguments;
         e ← construct (location p) type_node_ args;
         mret (Some e)
       else backtrack)
      (fun _ => backtrack).

(** [[Type; Size]()]. *)
Definition array_initialization (l : SourceLocation) : parser (option (option Expression)) :=
  t ← peek_p;
  if type t =t LBRACKET then
    before_array_init_pos ← get_pos_p;
    let backtrack := _ ← set_pos_p before_array_init_pos; mret None in
    _ ← consume_p;
    try_runtime
      (element_type ← parse_type_here;
       s ← match_p SEMICOLON;
       if s : bool then
         size_expr ← rec_expression;
         match size_expr with
         | None => backtrack
         | Some _ =>
             _ ← expect_p RBRACKET;
             lp ← match_p LPAREN;
             if lp : bool then
               _ ← expect_p RPAREN;
               make l (fun n => Some (Some (ArrayInitializationExpression n (Some element_type) size_expr)))
             else backtrack
         end
       else backtrack)
      (fun _ => backtrack)
  else mret None.

(** ** Identifiers, [from<T>(e)] and struct literals *)

(** After the lookahead has seen [from <]. *)
Definition from_expression (from_token : Token) : parser (option Expression) :=
  _ ← consume_p;
  _ ← expect_p LT;
  target_type ← parse_type_here;
  _ ← expect_p GT;
  _ ← expect_p LPAREN;
  address_expr ← rec_expression;
  _ ← expect_p RPAREN;
  make (location from_token) (fun n => Some (FromIntToLocExpression n address_expr (Some target_type))).

(** [while (!check(GT) && !IsAtEnd())] over the type arguments. *)
Fixpoint scoped_arguments (n : nat) : parser (list (option TypeNode)) :=
  match n with
  | O => no_fuel
  | S n' =>
      g ← check_p GT;
      e ← at_end_p;
      if g || e then mret []
      else
        arg ← parse_type_here;
        c ← match_p COMMA;
        if c : bool then args ← scoped_arguments n'; mret (Some arg :: args) else mret [Some arg]
  end.

Definition generic_scoped : parser (option Expression) :=
  id_token ← peek_p;
  base ← make_identifier id_token;
  _ ← consume_p;
  lt_token ← peek_p;
  _ ← expect_p LT;
  args ← scoped_arguments fuel;
  gt_token ← peek_p;
  _ ← expect_p GT;
  make (location id_token) (fun n => Some (GenericInstantiationExpression n (Some (IdentifierExpr base)) args
    (location lt_token) (location gt_token))).

(** The nested generic arguments are skipped up to their closing bracket. *)
Fixpoint skip_nested (n : nat) (nested_depth : Z) : parser () :=
  match n with
  | O => no_fuel
  | S n' =>
      i ← inside_p;
      if (0 <? nested_depth)%Z && i then
        t ← peek_p;
        _ ← consume_p;
        skip_nested n' (if type t =t LT then nested_depth + 1
                        else if type t =t GT then nested_depth - 1 else nested_depth)%Z
      else mret tt
  end.

Fixpoint literal_type_arguments (n : nat) : parser (list (option TypeNode)) :=
  match n with
  | O => no_fuel
  | S n' =>
      k ← check_p Token.IDENTIFIER;
      if k : bool then
        arg_token ← consume_p;
        arg_id ← make_identifier arg_token;
        lt ← match_p LT;
        _ ← (if lt : bool then skip_nested fuel 1 else mret tt);
        arg ← make (location arg_token) (fun n => TypeName n (Some arg_id) []);
        c ← match_p COMMA;
        if c : bool then args ← literal_type_arguments n'; mret (Some arg :: args) else mret [Some arg]
      else error_here $"Expected type identifier in generic arguments"
  end.

(** The value of a property, or none for the shorthand. *)
Definition property_initializer : parser (option Expression) :=
  c ← match_first [COLON; EQ];
  if c : bool then
    m ← check_first [COMMA; RBRACE];
    if m : bool then error_here $"Expected expression for struct field value after ':' or '='." else rec_expression
  else mret None.

Fixpoint struct_properties (n : nat) : parser (list ObjectProperty) :=
  match n with
  | O => no_fuel
  | S n' =>
      t ← peek_p;
      if type t =t Token.IDENTIFIER then
        key_token ← consume_p;
        key_identifier ← make_identifier key_token;
        value ← property_initializer;
        let property := mkObjectProperty (location key_token) key_identifier value in
        c ← match_p COMMA;
        if c : bool then
          r ← check_p RBRACE;
          if r : bool then mret [property]
          else
            t' ← peek_p;
            if type t' =t Token.IDENTIFIER then ps ← struct_properties n'; mret (property :: ps)
            else error_at t' $"Expected identifier for struct field name after comma."
        else mret [property]
      else error_at t $"Expected identifier for struct field name."
  end.

Definition struct_body : parser (list ObjectProperty) :=
  r ← check_p RBRACE;
  ps ← (if r : bool then mret [] else struct_properties fuel);
  _ ← expect_p RBRACE;
  mret ps.

Definition typed_struct (has_generic_args : bool) : parser (option Expression) :=
  type_name_token ← consume_p;
  let struct_loc := location type_name_token in
  i ← make_identifier type_name_token;
  generic_args ← (if has_generic_args then
                    _ ← expect_p LT; args ← literal_type_arguments fuel; _ ← expect_p GT; mret args
                  else mret []);
  ty ← make struct_loc (fun n => TypeName n (Some i) generic_args);
  _ ← expect_p LBRACE;
  ps ← struct_body;
  make struct_loc (fun n => Some (ObjectLiteral n (Some ty) ps)).

(** [view] and [borrow] must be followed by a parenthesis, looked for from the
    index after [pos_]. *)
Definition plain_identifier (ts : list Token) (pos : nat) (current_id_token : Token) : parser (option Expression) :=
  let lx := lexeme current_id_token in
  if type_in current_id_token [KEYWORD_VIEW; KEYWORD_BORROW] && negb (token_is ts (skip_layout ts (S pos)) LPAREN) then
    error_at current_id_token ($"Prefix '" ++ lx ++ $" expr' syntax is no longer supported. Use '" ++ lx
                               ++ $"(expr)' instead.")
  else
    id_token ← consume_p;
    i ← make_identifier id_token;
    mret (Some (IdentifierExpr i)).

Definition identifier_expression : parser (option (option Expression)) :=
  current_id_token ← peek_p;
  if type_in current_id_token (KEYWORD_FROM :: name_like) then
    next ← peek_next_p;
    if (lexeme current_id_token =s $"from") && (type next =t LT) then
      e ← from_expression current_id_token; mret (Some e)
    else
      ts ← tokens_p;
      pos ← get_pos_p;
      e ← (if is_generic_scoped ts pos then generic_scoped
           else match is_typed_struct ts pos with
                | Some has_generic_args => typed_struct has_generic_args
                | None => plain_identifier ts pos current_id_token
                end);
      mret (Some e)
  else mret None.

(** ** Groups, arrays and braces *)

Definition literal_expression : parser (option (option Expression)) :=
  t ← peek_p;
  if is_literal (type t) then e ← parse_literal; mret (Some e) else mret None.

Definition group_or_tuple : parser (option (option Expression)) :=
  lp ← match_p LPAREN;
  if lp : bool then
    p ← previous_p;
    let lparen_loc := location p in
    r ← check_p RPAREN;
    if r : bool then _ ← consume_p; make lparen_loc (fun n => Some (Some (SequenceExpression n [])))
    else
      first_expr ← rec_expression;
      c ← check_p COMMA;
      if c : bool then
        elements ← trailing_elements fuel RPAREN;
        _ ← expect_p RPAREN;
        make lparen_loc (fun n => Some (Some (SequenceExpression n (first_expr :: elements))))
      else _ ← expect_p RPAREN; mret (Some first_expr)
  else mret None.

(** From the [for] of a list comprehension on. *)
Definition comprehension (array_loc : SourceLocation) (first_expr : option Expression) : parser (option Expression) :=
  _ ← consume_p;
  k ← check_p Token.IDENTIFIER;
  if k : bool then
    var_token ← consume_p;
    loop_var ← make_identifier var_token;
    i ← match_p KEYWORD_IN;
    if i : bool then
      iterable_expr ← rec_expression;
      c ← match_p KEYWORD_IF;
      cond_expr ← (if c : bool then rec_expression else mret None);
      _ ← expect_p RBRACKET;
      make array_loc (fun n => Some (ListComprehension n first_expr (Some loop_var) iterable_expr cond_expr))
    else error_here $"Expected 'in' after loop variable in list comprehension."
  else error_here $"Expected identifier after 'for' in list comprehension.".

Definition array_or_comprehension : parser (option (option Expression)) :=
  lb ← match_p LBRACKET;
  if lb : bool then
    p ← previous_p;
    let array_loc := location p in
    r ← check_p RBRACKET;
    if r : bool then _ ← consume_p; make array_loc (fun n => Some (Some (ArrayLiteral n [])))
    else
      ts ← tokens_p;
      snapshot_pos ← get_pos_p;
      first_expr ← rec_expression;
      f ← check_p KEYWORD_FOR;
      if will_comprehension 1 (drop snapshot_pos ts) || f then
        e ← comprehension array_loc first_expr; mret (Some e)
      else
        elements ← trailing_elements fuel RBRACKET;
        _ ← expect_p RBRACKET;
        make array_loc (fun n => Some (Some (ArrayLiteral n (first_expr :: elements))))
  else mret None.

(** What follows an opening brace decides between a block and an object
    literal; the position is restored. *)
Definition brace_is_block : parser bool :=
  saved_pos ← get_pos_p;
  _ ← consume_p;
  t ← peek_p;
  b ← (if type t =t RBRACE then mret false
       else if type t =t Token.IDENTIFIER then
         _ ← consume_p;
         after_ident ← peek_p;
         mret (negb (type_in after_ident [COLON; EQ; COMMA; RBRACE]))
       else mret true);
  _ ← set_pos_p saved_pos;
  mret b.

Definition brace_block : parser (option (option Expression)) :=
  b ← check_p LBRACE;
  s ← has_statement_parser;
  if b && s then
    is_block ← brace_is_block;
    if is_block : bool then e ← block_expression; mret (Some e) else mret None
  else mret None.

Definition anonymous_struct : parser (option (option Expression)) :=
  lb ← match_p LBRACE;
  if lb : bool then
    p ← previous_p;
    ps ← struct_body;
    make (location p) (fun n => Some (Some (ObjectLiteral n None ps)))
  else mret None.

(** The forms tried one after another, up to the first that applies. *)
Fixpoint first_form (forms : list (parser (option (option Expression)))) : parser (option Expression) :=
  match forms with
  | [] => error_here $"Expected primary expression."
  | form :: forms' => r ← form; match r with Some e => mret e | None => first_form forms' end
  end.

Definition parse_primary : parser (option Expression) :=
  t0 ← peek_p;
  let l := location t0 in
  sel ← match_p KEYWORD_SELECT;
  if sel : bool then select_expression
  else
    t1 ← peek_p;
    if type t1 =t KEYWORD_MATCH then match_expression
    else
      ifk ← match_p KEYWORD_IF;
      if ifk : bool then if_expression l
      else
        sawAsyncLambda ← async_prefix;
        starts ← lambda_start;
        if starts : bool then lambda sawAsyncLambda
        else
          first_form [construction; array_initialization l; identifier_expression; literal_expression;
                      group_or_tuple; array_or_comprehension; brace_block; anonymous_struct].

(** ** Operators *)

Fixpoint parse_unary_expr (n : nat) : parser (option Expression) :=
  match n with
  | O => no_fuel
  | S n' =>
      aw ← match_p KEYWORD_AWAIT;
      if aw : bool then
        await_token ← previous_p;
        operand ← parse_unary_expr n';
        make (location await_token) (fun n => Some (AwaitExpression n operand))
      else
        ty ← match_p KEYWORD_TYPEOF;
        if ty : bool then
          typeof_token ← previous_p;
          lt ← match_p LT;
          if lt : bool then
            targ ← parse_type_here;
            _ ← expect_msg_p GT $"Expected '>' after typeof type argument";
            _ ← expect_msg_p LPAREN $"Expected '(' after 'typeof<T>'";
            _ ← expect_msg_p RPAREN $"Expected ')' after 'typeof<T>'";
            make (location typeof_token) (fun n => Some (TypeofExpression n None (Some targ)))
          else
            _ ← expect_msg_p LPAREN $"Expected '(' after 'typeof'";
            operand ← rec_expression;
            _ ← expect_msg_p RPAREN $"Expected ')' after typeof operand";
            make (location typeof_token) (fun n => Some (TypeofExpression n operand None))
        else
          tn ← match_p KEYWORD_TYPENAME;
          if tn : bool then
            typename_token ← previous_p;
            _ ← expect_msg_p LPAREN $"Expected '(' after 'typename'";
            operand ← rec_expression;
            _ ← expect_msg_p RPAREN $"Expected ')' after typename operand";
            make (location typename_token) (fun n => Some (TypenameExpression n operand))
          else
            u ← match_first [BANG; MINUS; TILDE];
            if u : bool then
              op_token ← previous_p;
              operand ← parse_unary_expr n';
              make (location op_token) (fun n => Some (UnaryExpression n op_token operand))
            else parse_postfix_expr parse_primary
  end.

Fixpoint cast_loop (n : nat) (left : option Expression) : parser (option Expression) :=
  match n with
  | O => no_fuel
  | S n' =>
      a ← match_p KEYWORD_AS;
      if a : bool then
        as_token ← previous_p;
        target ← parse_type_here;
        e ← make (location as_token) (fun n => Some (AsExpression n left (Some target)));
        cast_loop n' e
      else mret left
  end.

Definition parse_cast_expr : parser (option Expression) :=
  left ← parse_unary_expr fuel; cast_loop fuel left.

Definition binary_node (op_token : Token) (left right : option Expression) : parser (option Expression) :=
  make (location op_token) (fun n => Some (if type op_token =t DOTDOT then RangeExpression n left right None
                                           else BinaryExpression n left op_token right)).

Section Binary.
Variable parse_higher_precedence : parser (option Expression).

Fixpoint binary_loop (n : nat) (operators : list TokenType) (left : option Expression) : parser (option Expression) :=
  match n with
  | O => no_fuel
  | S n' =>
      operator_found ← check_first operators;
      if operator_found : bool then
        op_token ← consume_p;
        right ← parse_higher_precedence;
        e ← binary_node op_token left right;
        binary_loop n' operators e
      else mret left
  end.

Definition parse_binary_expression (operators : list TokenType) : parser (option Expression) :=
  left ← parse_higher_precedence; binary_loop fuel operators left.

(** The shift operator that comes next, consumed: a token of its own or two
    adjacent brackets. *)
Definition shift_operator : parser (option Token) :=
  ls ← check_p LSHIFT;
  if ls : bool then t ← consume_p; mret (Some t)
  else
    rs ← check_p RSHIFT;
    if rs : bool then t ← consume_p; mret (Some t)
    else
      let pair ty op text :=
        c ← check_p ty;
        if c : bool then
          next ← peek_next_p;
          if type next =t ty then
            first ← peek_p; _ ← consume_p; _ ← consume_p; mret (Some (mkToken op text (location first)))
          else mret None
        else mret None in
      l ← pair LT LSHIFT $"<<";
      match l with Some t => mret (Some t) | None => pair GT RSHIFT $">>" end.

Fixpoint shift_loop (n : nat) (left : option Expression) : parser (option Expression) :=
  match n with
  | O => no_fuel
  | S n' =>
      _ ← previous_p;
      o ← shift_operator;
      match o with
      | Some op_token =>
          right ← parse_higher_precedence;
          e ← make (location op_token) (fun n => Some (BinaryExpression n left op_token right));
          shift_loop n' e
      | None => mret left
      end
  end.
End Binary.

Definition parse_multiplicative_expr := parse_binary_expression parse_cast_expr [MULTIPLY; DIVIDE; MODULO].
Definition parse_additive_expr := parse_binary_expression parse_multiplicative_expr [PLUS; MINUS].
Definition parse_shift_expr : parser (option Expression) :=
  left ← parse_additive_expr; shift_loop parse_additive_expr fuel left.
Definition parse_relational_expr := parse_binary_expression parse_shift_expr [LT; LTEQ; GT; GTEQ; DOTDOT].
Definition parse_equality_expr := parse_binary_expression parse_relational_expr [EQEQ; NOTEQ].
Definition parse_bitwise_and_expr := parse_binary_expression parse_equality_expr [AMPERSAND].
Definition parse_bitwise_xor_expr := parse_binary_expression parse_bitwise_and_expr [CARET].
Definition parse_bitwise_or_expr := parse_binary_expression parse_bitwise_xor_expr [PIPE].
Definition parse_logical_and_expr := parse_binary_expression parse_bitwise_or_expr [AND].
Definition parse_logical_or_expr := parse_binary_expression parse_logical_and_expr [OR].

(** [expr else default], when it is enabled. *)
Definition else_default (left : option Expression) : parser (option Expression) :=
  enabled ← get_env elseInfixEnabled_;
  el ← (if enabled : bool then match_p KEYWORD_ELSE else mret false);
  if el : bool then
    p ← previous_p;
    def ← rec_expression;
    match def with
    | None => error_here $"Expected a default value after 'else' in optional expression."
    | Some _ =>
        make (location p) (fun n => Some (BinaryExpression n left (mkToken KEYWORD_ELSE $"else" (location p)) def))
    end
  else mret left.

Definition assignment_tokens : list TokenType :=
  [EQ; PLUSEQ; MINUSEQ; MULTIPLYEQ; DIVEQ; MODEQ; LSHIFTEQ; RSHIFTEQ; BITWISEANDEQ; BITWISEOREQ; BITWISEXOREQ; COLONEQ].

Definition parse_assignment_expr : parser (option Expression) :=
  left ← parse_logical_or_expr;
  left ← else_default left;
  op ← match_first_tok assignment_tokens;
  match op with
  | Some op_token =>
      right ← rec_expression;
      make (location op_token) (fun n => Some (AssignmentExpression n left op_token right))
  | None => mret left
  end.

Definition parse_expression : parser (option Expression) := parse_assignment_expr.
End ExprParser.
