(* ===== verification/ExprProps.v ===== *)
(** * Termination of the expression parser

    One lemma per definition of [ExprParser], in its order: with fewer tokens
    ahead than fuel the parser returns or throws, and it consumed at least one
    token ([progress]) or moved back over none ([advance_only]). The parsers it
    calls are assumed to do so one level of nesting down. *)

From S2P Require Import Prelude.
From S2P Require Import Token.
From S2P Require Import Ast.
From S2P Require Import AstTypes.
From S2P Require Import TokenStream.
From S2P Require Import ParserMonad.
From S2P Require Import TypeParser.
From S2P Require Import ParserLogic.
From S2P Require Import ExprParser.

Section ExprRuns.
Context (ts : Input) (closed : closed_tokens ts) (f : nat).
Context (rec_expression rec_primary : parser (option Expression)).
Context (parse_block : parser Block) (parse_match : parser (option Statement)).
Hypothesis expression_spec : progress ts f rec_expression.
Hypothesis primary_spec : progress ts f rec_primary.
Hypothesis block_spec : progress ts (S f) parse_block.
Hypothesis match_spec : progress ts (S f) parse_match.

Local Notation progress := (progress ts).
Local Notation advance_only := (advance_only ts).
Local Notation fuel := (S f).

Lemma type_spec : progress (S f) (parse_type_here rec_expression fuel).
Proof.
  assert (ExpressionParser ts f rec_expression) by by apply progress_advance.
  eapply progress_weaken; [by apply (parse_type_progress ts closed _ f)|]. lia.
Qed.

Local Hint Resolve expression_spec primary_spec block_spec match_spec type_spec : parser_specs.

Lemma make_spec {A} b l (g : Node -> A) : advance_only b (make l g).
Proof. intros st H. unfold make. prun. Qed.
Lemma make_identifier_spec b t : advance_only b (make_identifier t).
Proof. apply make_spec. Qed.
Local Hint Resolve make_spec make_identifier_spec : parser_specs.

Lemma expression_list_spec n : progress (f `min` n) (expression_list rec_expression n).
Proof. induction n as [|n IH]; intros st H; [lia|]. cbn [expression_list]. prun. Qed.
Local Hint Resolve expression_list_spec : parser_specs.
Lemma call_arguments_spec : progress f (call_arguments rec_expression fuel).
Proof. intros st H. unfold call_arguments. prun. Qed.
Lemma intrinsic_arguments_spec : progress f (intrinsic_arguments rec_expression fuel).
Proof. intros st H. unfold intrinsic_arguments. prun. Qed.
Local Hint Resolve call_arguments_spec intrinsic_arguments_spec : parser_specs.
Lemma trailing_elements_spec n close : advance_only (f `min` n) (trailing_elements rec_expression n close).
Proof. induction n as [|n IH]; intros st H; [lia|]. cbn [trailing_elements]. prun. Qed.
Local Hint Resolve trailing_elements_spec : parser_specs.
Lemma parse_call_expression_spec e : progress f (parse_call_expression rec_expression fuel e).
Proof. intros st H. unfold parse_call_expression. prun. Qed.
Lemma parse_member_access_spec b e : progress b (parse_member_access e).
Proof. intros st H. unfold parse_member_access. prun. Qed.
Lemma parse_literal_spec b : progress b parse_literal.
Proof. intros st H. unfold parse_literal. prun. Qed.
Local Hint Resolve parse_call_expression_spec parse_member_access_spec parse_literal_spec : parser_specs.

Lemma type_path_spec n p : advance_only n (type_path n p).
Proof. revert p. induction n as [|n IH]; intros p st H; [lia|]. cbn [type_path]. prun. Qed.
Local Hint Resolve type_path_spec : parser_specs.
Lemma trap_type_spec : advance_only (S f) (trap_type fuel).
Proof. intros st H. unfold trap_type. prun. Qed.
Local Hint Resolve trap_type_spec : parser_specs.
Lemma trap_alternatives_spec n : advance_only (S f `min` n) (trap_alternatives fuel n).
Proof. induction n as [|n IH]; intros st H; [lia|]. cbn [trap_alternatives]. prun. Qed.
Local Hint Resolve trap_alternatives_spec : parser_specs.
Lemma trap_types_spec : advance_only (S f) (trap_types fuel).
Proof. intros st H. unfold trap_types. prun. Qed.
Local Hint Resolve trap_types_spec : parser_specs.

Lemma has_statement_parser_spec b : advance_only b has_statement_parser.
Proof. intros st H. unfold has_statement_parser. prun. Qed.
Lemma via_statement_parser_spec {A} b (m : parser A) : progress b m -> progress b (via_statement_parser m).
Proof. intros Hm st H. unfold via_statement_parser, undefined. prun. Qed.
Local Hint Resolve has_statement_parser_spec via_statement_parser_spec : parser_specs.
Lemma clause_block_spec m1 m2 : progress (S f) (clause_block parse_block m1 m2).
Proof. intros st H. unfold clause_block. prun. Qed.
Local Hint Resolve clause_block_spec : parser_specs.
Lemma parse_trap_clause_spec : progress (S f) (parse_trap_clause parse_block fuel).
Proof. intros st H. unfold parse_trap_clause. prun. Qed.
Lemma parse_ensure_clause_spec : progress (S f) (parse_ensure_clause parse_block).
Proof. intros st H. unfold parse_ensure_clause. prun. Qed.
Local Hint Resolve parse_trap_clause_spec parse_ensure_clause_spec : parser_specs.
Lemma trap_clauses_spec n : advance_only (S f `min` n) (trap_clauses parse_block fuel n).
Proof. induction n as [|n IH]; intros st H; [lia|]. cbn [trap_clauses]. prun. Qed.
Lemma ensure_clause_spec : advance_only (S f) (ensure_clause parse_block).
Proof. intros st H. unfold ensure_clause. prun. Qed.
Local Hint Resolve trap_clauses_spec ensure_clause_spec : parser_specs.
Lemma block_expression_spec : progress (S f) (block_expression parse_block fuel).
Proof. intros st H. unfold block_expression. prun. Qed.
Local Hint Resolve block_expression_spec : parser_specs.

Lemma postfix_call_spec l e : advance_only f (postfix_call rec_expression fuel l e).
Proof.
  intros st H. unfold postfix_call, borrow_call, intrinsic_call, one_argument_error, intrinsic_error, undefined. prun.
Qed.
Local Hint Resolve postfix_call_spec : parser_specs.
Lemma postfix_loop_spec n e : advance_only (S f `min` n) (postfix_loop rec_expression fuel n e).
Proof. revert e. induction n as [|n IH]; intros e st H; [lia|]. cbn [postfix_loop]. prun. Qed.
Local Hint Resolve postfix_loop_spec : parser_specs.
Lemma parse_postfix_spec b primary : b <= S f -> progress b primary -> progress b (parse_postfix_expr rec_expression fuel primary).
Proof. intros Hb Hp st H. unfold parse_postfix_expr. prun. Qed.
Lemma rec_postfix_spec : progress f (parse_postfix_expr rec_expression fuel rec_primary).
Proof. apply parse_postfix_spec; [lia|done]. Qed.
Local Hint Resolve rec_postfix_spec : parser_specs.

Lemma newlines_spec n : advance_only n (newlines n).
Proof. induction n as [|n IH]; intros st H; [lia|]. cbn [newlines]. prun. Qed.
Local Hint Resolve newlines_spec : parser_specs.
Lemma set_element_spec b e : advance_only b (set_element e).
Proof. intros st H. unfold set_element. prun. Qed.
Local Hint Resolve set_element_spec : parser_specs.
Lemma set_elements_spec n : advance_only (f `min` n) (set_elements rec_expression rec_primary fuel n).
Proof. induction n as [|n IH]; intros st H; [lia|]. cbn [set_elements]. prun. Qed.
Local Hint Resolve set_elements_spec : parser_specs.
Lemma parse_set_pattern_spec : progress (S f) (parse_set_pattern rec_expression rec_primary fuel).
Proof. intros st H. unfold parse_set_pattern. prun. Qed.
Lemma variant_bindings_spec n m : advance_only (f `min` n) (variant_bindings rec_primary n m).
Proof. induction n as [|n IH]; intros st H; [lia|]. cbn [variant_bindings]. prun. Qed.
Local Hint Resolve parse_set_pattern_spec variant_bindings_spec : parser_specs.
Lemma variant_pattern_spec m1 m2 e : advance_only f (variant_pattern rec_primary fuel m1 m2 e).
Proof. intros st H. unfold variant_pattern. prun. Qed.
Local Hint Resolve variant_pattern_spec : parser_specs.
Lemma select_pattern_spec : progress f (select_pattern rec_expression rec_primary fuel).
Proof. intros st H. unfold select_pattern, comparison_pattern. prun. Qed.
Lemma select_result_spec : progress f (select_result rec_expression parse_block fuel).
Proof. intros st H. unfold select_result. prun. Qed.
Local Hint Resolve select_pattern_spec select_result_spec : parser_specs.
Lemma select_cases_spec n : advance_only (f `min` n) (select_cases rec_expression rec_primary parse_block fuel n).
Proof. induction n as [|n IH]; intros st H; [lia|]. cbn [select_cases]. prun. Qed.
Local Hint Resolve select_cases_spec : parser_specs.
Lemma select_expression_spec : progress f (select_expression rec_expression rec_primary parse_block fuel).
Proof. intros st H. unfold select_expression. prun. Qed.
Lemma match_expression_spec : progress (S f) (match_expression parse_match).
Proof. intros st H. unfold match_expression. prun. Qed.
Lemma if_expression_spec l : progress f (if_expression rec_expression l).
Proof. intros st H. unfold if_expression. prun. Qed.
Lemma lambda_parameters_spec n : advance_only (S f `min` n) (lambda_parameters rec_expression fuel n).
Proof. induction n as [|n IH]; intros st H; [lia|]. cbn [lambda_parameters]. prun. Qed.
Lemma lambda_body_spec : progress f (lambda_body rec_expression parse_block).
Proof. intros st H. unfold lambda_body. prun. Qed.
Local Hint Resolve select_expression_spec match_expression_spec if_expression_spec lambda_parameters_spec lambda_body_spec : parser_specs.
Lemma lambda_spec a : progress (S f) (lambda rec_expression parse_block fuel a).
Proof. intros st H. unfold lambda. prun. Qed.
Lemma async_prefix_spec b : advance_only b async_prefix.
Proof. intros st H. unfold async_prefix. prun. Qed.
Lemma lambda_start_spec b : advance_only b lambda_start.
Proof. intros st H. unfold lambda_start. prun. Qed.
Local Hint Resolve lambda_spec async_prefix_spec lambda_start_spec : parser_specs.

(** A form that returns [None] may have moved nothing; one that returns an
    expression has consumed a token. *)
Definition form_spec (b : nat) (m : parser (option (option Expression))) : Prop :=
  forall st, remaining st < b ->
    runs ts m (fun r st' => match r with Some _ => remaining st' < remaining st | None => remaining st' = remaining st end) st.

Lemma construct_spec b l ty args : advance_only b (construct l ty args).
Proof. intros st H. unfold construct. prun. Qed.
Local Hint Resolve construct_spec : parser_specs.
Lemma construction_spec : form_spec (S f) (construction rec_expression fuel).
Proof. intros st H. unfold construction. prun. Qed.
Lemma array_initialization_spec l : form_spec (S f) (array_initialization rec_expression fuel l).
Proof. intros st H. unfold array_initialization, make. prun. Qed.

Lemma from_expression_spec t : advance_only (S f) (from_expression rec_expression fuel t).
Proof. intros st H. unfold from_expression. prun. Qed.
Lemma scoped_arguments_spec n : advance_only (S f `min` n) (scoped_arguments rec_expression fuel n).
Proof. induction n as [|n IH]; intros st H; [lia|]. cbn [scoped_arguments]. prun. Qed.
Local Hint Resolve from_expression_spec scoped_arguments_spec : parser_specs.
Lemma generic_scoped_spec : progress (S f) (generic_scoped rec_expression fuel).
Proof. intros st H. unfold generic_scoped. prun. Qed.
Lemma skip_nested_spec n d : advance_only n (skip_nested n d).
Proof. revert d. induction n as [|n IH]; intros d st H; [lia|]. cbn [skip_nested]. prun. Qed.
Local Hint Resolve generic_scoped_spec skip_nested_spec : parser_specs.
Lemma literal_type_arguments_spec n : advance_only (S f `min` n) (literal_type_arguments fuel n).
Proof. induction n as [|n IH]; intros st H; [lia|]. cbn [literal_type_arguments]. prun. Qed.
Lemma property_initializer_spec : advance_only f (property_initializer rec_expression).
Proof. intros st H. unfold property_initializer. prun. Qed.
Local Hint Resolve literal_type_arguments_spec property_initializer_spec : parser_specs.
Lemma struct_properties_spec n : advance_only (S f `min` n) (struct_properties rec_expression n).
Proof. induction n as [|n IH]; intros st H; [lia|]. cbn [struct_properties]. prun. Qed.
Local Hint Resolve struct_properties_spec : parser_specs.
Lemma struct_body_spec : progress (S f) (struct_body rec_expression fuel).
Proof. intros st H. unfold struct_body. prun. Qed.
Local Hint Resolve struct_body_spec : parser_specs.
Lemma typed_struct_spec g : progress (S f) (typed_struct rec_expression fuel g).
Proof. intros st H. unfold typed_struct. prun. Qed.
Local Hint Resolve typed_struct_spec : parser_specs.
Lemma identifier_expression_spec : form_spec (S f) (identifier_expression rec_expression fuel).
Proof. intros st H. unfold identifier_expression, plain_identifier, from_expression. prun. Qed.
Lemma literal_expression_spec : form_spec (S f) literal_expression.
Proof. intros st H. unfold literal_expression. prun. Qed.
Lemma group_or_tuple_spec : form_spec (S f) (group_or_tuple rec_expression fuel).
Proof. intros st H. unfold group_or_tuple, make. prun. Qed.
Lemma comprehension_spec l e : advance_only f (comprehension rec_expression l e).
Proof. intros st H. unfold comprehension. prun. Qed.
Local Hint Resolve comprehension_spec : parser_specs.
Lemma array_or_comprehension_spec : form_spec (S f) (array_or_comprehension rec_expression fuel).
Proof. intros st H. unfold array_or_comprehension, make. prun. Qed.
Lemma brace_block_spec : form_spec (S f) (brace_block parse_block fuel).
Proof. intros st H. unfold brace_block, brace_is_block, has_statement_parser. prun. Qed.
Lemma anonymous_struct_spec : form_spec (S f) (anonymous_struct rec_expression fuel).
Proof. intros st H. unfold anonymous_struct, make. prun. Qed.

Lemma first_form_spec forms : Forall (form_spec (S f)) forms -> progress (S f) (first_form forms).
Proof.
  induction 1 as [|form forms Hf _ IH]; intros st H; cbn [first_form]; [prun|].
  apply runs_bind. eapply runs_mono; [by apply Hf|]. cbv beta. intros [e|] st' R; [by apply runs_ret|].
  rewrite <- R. apply IH. lia.
Qed.

Lemma parse_primary_spec : progress (S f) (parse_primary rec_expression rec_primary parse_block parse_match fuel).
Proof.
  assert (F : forall l, progress (S f) (first_form [construction rec_expression fuel; array_initialization rec_expression fuel l;
    identifier_expression rec_expression fuel; literal_expression; group_or_tuple rec_expression fuel;
    array_or_comprehension rec_expression fuel; brace_block parse_block fuel; anonymous_struct rec_expression fuel])).
  { intros l. apply first_form_spec. repeat constructor.
    - apply construction_spec.
    - apply array_initialization_spec.
    - apply identifier_expression_spec.
    - apply literal_expression_spec.
    - apply group_or_tuple_spec.
    - apply array_or_comprehension_spec.
    - apply brace_block_spec.
    - apply anonymous_struct_spec. }
  intros st H. unfold parse_primary. prun.
Qed.
Local Hint Resolve parse_primary_spec parse_postfix_spec : parser_specs.

Local Notation Primary := (parse_primary rec_expression rec_primary parse_block parse_match fuel).
Lemma primary_postfix_spec : progress (S f) (parse_postfix_expr rec_expression fuel Primary).
Proof. apply parse_postfix_spec; [lia|apply parse_primary_spec]. Qed.
Local Hint Resolve primary_postfix_spec : parser_specs.
Lemma parse_unary_spec n : progress (S f `min` n) (parse_unary_expr rec_expression rec_primary parse_block parse_match fuel n).
Proof. induction n as [|n IH]; intros st H; [lia|]. cbn [parse_unary_expr]. prun. Qed.
Lemma cast_loop_spec n e : advance_only (S f `min` n) (cast_loop rec_expression fuel n e).
Proof. revert e. induction n as [|n IH]; intros e st H; [lia|]. cbn [cast_loop]. prun. Qed.
Local Hint Resolve parse_unary_spec cast_loop_spec : parser_specs.
Lemma parse_cast_spec : progress (S f) (parse_cast_expr rec_expression rec_primary parse_block parse_match fuel).
Proof. intros st H. unfold parse_cast_expr. prun. Qed.

Section BinaryRuns.
Context (higher : parser (option Expression)) (higher_spec : progress (S f) higher).
Local Hint Resolve higher_spec : parser_specs.
Lemma binary_node_spec b t l r : advance_only b (binary_node t l r).
Proof. apply make_spec. Qed.
Local Hint Resolve binary_node_spec : parser_specs.
Lemma binary_loop_spec n ops e : advance_only (S f `min` n) (binary_loop higher n ops e).
Proof. revert e. induction n as [|n IH]; intros e st H; [lia|]. cbn [binary_loop]. prun. Qed.
Local Hint Resolve binary_loop_spec : parser_specs.
Lemma parse_binary_spec ops : progress (S f) (parse_binary_expression fuel higher ops).
Proof. intros st H. unfold parse_binary_expression. prun. Qed.
Lemma shift_operator_spec b : forall st, remaining st < b ->
  runs ts shift_operator (fun o st' => match o with Some _ => remaining st' < remaining st | None => remaining st' = remaining st end) st.
Proof. intros st H. unfold shift_operator. prun. Qed.
Lemma shift_loop_spec n e : advance_only (S f `min` n) (shift_loop higher n e).
Proof.
  revert e. induction n as [|n IH]; intros e st H; [lia|]. cbn [shift_loop]. do 2 pstep.
  apply runs_bind. eapply runs_mono; [by apply (shift_operator_spec (S (remaining st))); lia|].
  cbv beta. intros [op|] st' R; prun.
Qed.
End BinaryRuns.
Local Hint Resolve parse_binary_spec parse_cast_spec shift_loop_spec : parser_specs.

Lemma parse_additive_spec : progress (S f) (parse_additive_expr rec_expression rec_primary parse_block parse_match fuel).
Proof. unfold parse_additive_expr, parse_multiplicative_expr. eauto with parser_specs. Qed.
Local Hint Resolve parse_additive_spec : parser_specs.
Lemma parse_shift_spec : progress (S f) (parse_shift_expr rec_expression rec_primary parse_block parse_match fuel).
Proof. intros st H. unfold parse_shift_expr. prun. Qed.
Local Hint Resolve parse_shift_spec : parser_specs.
Lemma parse_logical_or_spec : progress (S f) (parse_logical_or_expr rec_expression rec_primary parse_block parse_match fuel).
Proof.
  unfold parse_logical_or_expr, parse_logical_and_expr, parse_bitwise_or_expr, parse_bitwise_xor_expr,
    parse_bitwise_and_expr, parse_equality_expr, parse_relational_expr. eauto 10 with parser_specs.
Qed.
Lemma else_default_spec e : advance_only (S f) (else_default rec_expression e).
Proof. intros st H. unfold else_default. prun. Qed.
Local Hint Resolve parse_logical_or_spec else_default_spec : parser_specs.
Lemma parse_expression_spec : progress (S f) (parse_expression rec_expression rec_primary parse_block parse_match fuel).
Proof. intros st H. unfold parse_expression, parse_assignment_expr. prun. Qed.
End ExprRuns.
