(* ===== verification/StmtParser.v ===== *)
(** * The statement parser

    src/parser/statement_parser.cpp: one definition per method of
    [StatementParser], the loops of a method as definitions of their own. The
    nested statements ([rec_statement]) and expressions, and the methods of the
    declaration parser a statement may call, are arguments. A method that
    builds several nodes draws their ids in the order of the source. *)

From S2P Require Import Prelude.
From S2P Require Import Token.
From S2P Require Import Ast.
From S2P Require Import AstText.
From S2P Require Import AstTypes.
From S2P Require Import TypeRel.
From S2P Require Import TokenStream.
From S2P Require Import ParserMonad.
From S2P Require Import TypeParser.
From S2P Require Import ExprParser.

Definition is_statement_start (ty : TokenType) : bool :=
  match ty with
  | KEYWORD_LET | KEYWORD_MUT | KEYWORD_CONST | KEYWORD_VAR | KEYWORD_AUTO | KEYWORD_ASYNC | KEYWORD_EXTERN
  | KEYWORD_CLASS | KEYWORD_TEMPLATE | KEYWORD_IF | KEYWORD_ENSURE | KEYWORD_WHILE | KEYWORD_FOR | KEYWORD_MATCH
  | KEYWORD_RETURN | KEYWORD_PASS | LBRACE | KEYWORD_BREAK | KEYWORD_CONTINUE | KEYWORD_FREEDOM | KEYWORD_FAIL
  | KEYWORD_PANIC | KEYWORD_EXIT | KEYWORD_REFAIL | KEYWORD_ASSERT | KEYWORD_DEFER | Token.IDENTIFIER => true
  | _ => is_expression_start ty
  end.

(** [IsAtEnd() || peek().type == a || ...] *)
Definition at_end_or (types : list TokenType) : parser bool :=
  e ← at_end_p;
  if e : bool then mret true else t ← peek_p; mret (type_in t types).

(** [while (!IsAtEnd() && peek().type == NEWLINE) consume();] *)
Fixpoint skip_newlines (n : nat) : parser () :=
  match n with
  | O => no_fuel
  | S n' =>
      e ← at_end_p;
      if e : bool then mret tt
      else t ← peek_p; if type t =t NEWLINE then _ ← consume_p; skip_newlines n' else mret tt
  end.

(** [if (decl_parser_) decl_parser_->declareVariable(name)] *)
Definition declare_variable (n : str) : parser () :=
  d ← get_env decl_parser_;
  if d : bool then set_env (declareVariable n) else mret tt.

Fixpoint declare_variables (ns : list str) : parser () :=
  match ns with
  | [] => mret tt
  | n :: ns' => _ ← declare_variable n; declare_variables ns'
  end.

(** [p->...] on a pointer to an expression. *)
Definition deref (e : option Expression) : parser Expression :=
  match e with Some x => mret x | None => undefined $"null expression" end.

(** ** How a statement may end *)

(** A semicolon is consumed; otherwise the next token must be one of [types],
    the end, or the start of a statement. *)
Definition separator (types : list TokenType) (message : str) : parser () :=
  t ← peek_p;
  if type t =t SEMICOLON then _ ← consume_p; mret tt
  else
    e ← at_end_p;
    if e || type_in t types || is_statement_start (type t) then mret tt
    else throw_p (message ++ location_to_string (location t)).

Definition optional_semicolon : parser () := _ ← match_p SEMICOLON; mret tt.

(** [if (peek().type == SEMICOLON) consume();] *)
Definition peeked_semicolon : parser () :=
  t ← peek_p;
  if type t =t SEMICOLON then _ ← consume_p; mret tt else mret tt.

(** ** Nodes a method makes *)

Definition ident_expr (l : SourceLocation) (n : str) : parser (option Expression) :=
  make l (fun nd => Some (IdentifierExpr (mkIdentifier nd n))).
Definition int_expr (l : SourceLocation) (v : Z) : parser (option Expression) :=
  make l (fun nd => Some (IntegerLiteral nd v false 0)).
Definition bool_expr (l : SourceLocation) (b : bool) : parser (option Expression) :=
  make l (fun nd => Some (BooleanLiteral nd b)).
Definition binary_expr (l : SourceLocation) (a : option Expression) (op : Token) (b : option Expression) : parser (option Expression) :=
  make l (fun nd => Some (BinaryExpression nd a op b)).
Definition assign_expr (l : SourceLocation) (a b : option Expression) : parser (option Expression) :=
  make l (fun nd => Some (AssignmentExpression nd a (mkToken EQ $"=" l) b)).
Definition block_stmt (l : SourceLocation) (body : list (option Statement)) : parser Block :=
  make l (fun nd => mkBlock nd body).
Definition block_expr (l : SourceLocation) (b : Block) : parser (option Expression) :=
  make l (fun nd => Some (BlockExpression nd (Some b) [] None)).
(** [object.method()] *)
Definition method_call (l : SourceLocation) (object : option Expression) (method : str) : parser (option Expression) :=
  m ← make l (fun nd => mkIdentifier nd method);
  mem ← make l (fun nd => Some (MemberExpression nd object (Some (IdentifierExpr m)) false));
  make l (fun nd => Some (CallExpression nd mem [] [])).
(** [var name = init;] with an inferred type *)
Definition var_decl (l : SourceLocation) (n : str) (owns : bool) (init : parser (option Expression)) : parser (option Statement) :=
  i ← make l (fun nd => mkIdentifier nd n);
  e ← init;
  make l (fun nd => Some (VariableDeclaration nd (Some i) false None e owns)).

(** ** The loops the [for] statements stand for *)

(** [while (true) { body }] in a loop that runs once, after [pre]. *)
Definition run_once (l : SourceLocation) (item : str) (pre : list (option Statement)) (m : Match) : parser Statement :=
  true_lit ← bool_expr l true;
  while_block ← block_stmt l [Some (MatchStatement m)];
  while_stmt ← make l (fun nd => WhileStatement nd true_lit (Some (BlockStatement while_block)) []);
  final_block ← block_stmt l (pre ++ [Some while_stmt]);
  let run_name := $"__run_once_" ++ item in
  run_decl ← var_decl l run_name false (bool_expr l true);
  run_cond ← ident_expr l run_name;
  run_upd_l ← ident_expr l run_name;
  run_upd_r ← bool_expr l false;
  run_update ← assign_expr l run_upd_l run_upd_r;
  make l (fun nd => ForStatement nd run_decl run_cond run_update (Some (BlockStatement final_block)) []).

(** [? -> { break }] *)
Definition break_arm (l : SourceLocation) : parser (option Expression) :=
  b ← make l (fun nd => BreakStatement nd []);
  block ← block_stmt l [Some b];
  block_expr l block.

(** [it.next()] *)
Definition make_next (l : SourceLocation) (it_name : str) : parser (option Expression) :=
  obj ← ident_expr l it_name; method_call l obj $"next".

(** The step of an iterator loop: the declaration of the step, and the two
    statements put in front of the body, which advance the iterator. *)
Definition skip_prologue (l : SourceLocation) (item it_name : str) (skip_expr : option Expression) :
    parser (option Statement * list (option Statement)) :=
  let step_name := $"__step_" ++ item in
  let s_name := $"__s_" ++ item in
  step_decl ← var_decl l step_name false (mret skip_expr);
  s_decl ← var_decl l s_name false (int_expr l 1);
  lt_s ← ident_expr l s_name;
  lt_step ← ident_expr l step_name;
  cond ← binary_expr l lt_s (mkToken LT $"<" l) lt_step;
  v_binding ← ident_expr l ($"__v_" ++ item);
  s_inc_l ← ident_expr l s_name;
  s_inc_rl ← ident_expr l s_name;
  s_one2 ← int_expr l 1;
  s_rhs ← binary_expr l s_inc_rl (mkToken PLUS $"+" l) s_one2;
  s_inc ← assign_expr l s_inc_l s_rhs;
  inc_stmt ← make l (fun nd => ExpressionStatement nd s_inc);
  v_arm_block ← block_stmt l [Some inc_stmt];
  v_arm_body ← block_expr l v_arm_block;
  s_reset_l ← ident_expr l s_name;
  s_reset_r ← ident_expr l step_name;
  s_reset ← assign_expr l s_reset_l s_reset_r;
  reset_stmt ← make l (fun nd => ExpressionStatement nd s_reset);
  inner_none_block ← block_stmt l [Some reset_stmt];
  inner_none_body ← block_expr l inner_none_block;
  next ← make_next l it_name;
  inner_match ← make l (fun nd => mkMatch nd next [(v_binding, v_arm_body); (None, inner_none_body)] []);
  inner_while_block ← block_stmt l [Some (MatchStatement inner_match)];
  inner_while ← make l (fun nd => WhileStatement nd cond (Some (BlockStatement inner_while_block)) []);
  mret (step_decl, [s_decl; Some inner_while]).

Definition prepend (pre : list (option Statement)) (b : Block) : Block :=
  match b with mkBlock n body => mkBlock n (pre ++ body) end.

Definition buildForLoopIteratorDesugar (l : SourceLocation) (ident : Token) (range_expr : option Expression)
    (body : Block) (skip_expr hoist_expr : option Expression) (hoistOwnsValue : bool) : parser Statement :=
  let item := lexeme ident in
  let it_name := $"__it_" ++ item in
  '(src, range) ←
    match hoist_expr with
    | Some _ =>
        let src_name := $"__src_" ++ item in
        src_decl ← var_decl l src_name hoistOwnsValue (mret hoist_expr);
        src_ident ← ident_expr l src_name;
        call ← method_call l src_ident $"iter";
        mret ([src_decl], call)
    | None => mret ([], range_expr)
    end;
  it_decl ← var_decl l it_name false (mret range);
  none_body ← break_arm l;
  some_binding ← ident_expr l item;
  '(pre, body') ←
    match skip_expr with
    | Some _ => '(step_decl, pro) ← skip_prologue l item it_name skip_expr; mret ([step_decl], prepend pro body)
    | None => mret ([], body)
    end;
  some_body_expr ← block_expr l body';
  next ← make_next l it_name;
  iter_match ← make l (fun nd => mkMatch nd next [(some_binding, some_body_expr); (None, none_body)] []);
  run_once l item (src ++ pre ++ [it_decl]) iter_match.

Definition buildAsyncChanForDesugar (l : SourceLocation) (ident : Token) (chanKind : str) (ch_expr : option Expression)
    (body : Block) : parser Statement :=
  let item := lexeme ident in
  let ch_name := $"__ch_" ++ item in
  let recv_fn := if chanKind =s $"String" then $"strchan_recv_opt" else $"chan_recv_opt" in
  ch_decl ← var_decl l ch_name false (mret ch_expr);
  ch_ref ← ident_expr l ch_name;
  callee ← ident_expr l recv_fn;
  recv_call ← make l (fun nd => Some (CallExpression nd callee [ch_ref] []));
  absent_body ← break_arm l;
  present_pattern ← ident_expr l item;
  present_body ← block_expr l body;
  chan_match ← make l (fun nd => mkMatch nd recv_call [(present_pattern, present_body); (None, absent_body)] []);
  run_once l item [ch_decl] chan_match.

(** [for (i in start..end, step)]: a loop over an inclusive range. *)
Definition range_loop (for_loc : SourceLocation) (ident : Token) (start end_ step : option Expression) (body : Block) : parser Statement :=
  let l := location ident in
  let item := lexeme ident in
  loop_var_name ← make l (fun nd => mkIdentifier nd item);
  type_name_id ← make l (fun nd => mkIdentifier nd $"Int");
  loop_var_type ← make l (fun nd => TypeName nd (Some type_name_id) []);
  loop_var_decl ← make l (fun nd => VariableDeclaration nd (Some loop_var_name) false (Some loop_var_type) start false);
  cond_left ← ident_expr l item;
  condition ← binary_expr l cond_left (mkToken LTEQ $"<=" l) end_;
  incr_left ← ident_expr l item;
  incr_right_left ← ident_expr l item;
  step_value ← (match step with Some _ => mret step | None => int_expr l 1 end);
  incr_right ← binary_expr l incr_right_left (mkToken PLUS $"+" l) step_value;
  increment ← assign_expr l incr_left incr_right;
  make for_loc (fun nd => ForStatement nd (Some loop_var_decl) condition increment (Some (BlockStatement body)) []).

(** [e.iter] is called: the object and whether the property is [iter]. *)
Definition iter_receiver (e : Expression) : option (option Expression) :=
  match e with
  | CallExpression _ (Some (MemberExpression _ object (Some (IdentifierExpr p)) _)) _ _ =>
      if name p =s $"iter" then Some object else None
  | _ => None
  end.

Definition is_member (e : option Expression) : bool :=
  match e with Some (MemberExpression _ _ _ _) => true | _ => false end.

(** The loop over [range_expr], by what kind of expression it is. *)
Definition for_in (for_loc : SourceLocation) (ident : Token) (range_expr : Expression) (skip_expr : option Expression)
    (body : Block) : parser Statement :=
  match range_expr with
  | RangeExpression _ start end_ step =>
      range_loop for_loc ident start end_ (match skip_expr with Some _ => skip_expr | None => step end) body
  | IdentifierExpr _ =>
      call ← method_call for_loc (Some range_expr) $"iter";
      buildForLoopIteratorDesugar for_loc ident call body skip_expr None false
  | MemberExpression _ _ _ _ =>
      buildForLoopIteratorDesugar for_loc ident None body skip_expr (Some range_expr) false
  | _ =>
      match iter_receiver range_expr with
      | Some object =>
          if is_member object
          then buildForLoopIteratorDesugar for_loc ident None body skip_expr object false
          else buildForLoopIteratorDesugar for_loc ident (Some range_expr) body skip_expr None false
      | None => buildForLoopIteratorDesugar for_loc ident None body skip_expr (Some range_expr) true
      end
  end.

Definition set_label (label : str) (s : Statement) : Statement :=
  match s with
  | ForStatement n i t u b _ => ForStatement n i t u b label
  | WhileStatement n t b _ => WhileStatement n t b label
  | _ => s
  end.

(** A statement parser on the stack: its constructor points the expression
    parser to it, and when it goes the pointer dangles. *)
Definition with_sub_parser {A} (m : parser A) : parser A := fun st =>
  let gone st' := mkPState (stream st') (node_counter st') (set_statement_parser dangling_parser (env st')) in
  match m (mkPState (stream st) (node_counter st) (set_statement_parser valid_parser (env st))) with
  | Some (Return a st') => Some (Return a (gone st'))
  | Some (Raise e st') => Some (Raise e (gone st'))
  | None => None
  end.

(** [typePath->clone()] *)
Definition clone_p (t : TypeNode) : parser TypeNode := fun st =>
  let '(t', c) := TypeNode_clone t (node_counter st) in Some (Return t' (mkPState (stream st) c (env st))).

Section StmtParser.
Variables (rec_expression rec_primary : parser (option Expression)) (rec_statement : parser (option Statement)).
Variable fuel : nat.

(** ** Blocks *)

(** After a statement of a braced block. *)
Definition after_statement : parser () :=
  stop ← at_end_or [RBRACE];
  if stop : bool then mret tt
  else
    t ← peek_p;
    if type t =t SEMICOLON then _ ← consume_p; mret tt
    else if (type t =t NEWLINE) || is_expression_start (type t) || is_statement_start (type t) then mret tt
    else throw_p ($"Expected newline, semicolon, or end of block after statement at " ++ location_to_string (location t)
                  ++ $", got " ++ token_type_to_string (type t)).

Fixpoint braced_statements (n : nat) : parser (list (option Statement)) :=
  match n with
  | O => no_fuel
  | S n' =>
      stop ← at_end_or [RBRACE];
      if stop : bool then mret []
      else
        _ ← skip_newlines fuel;
        stop' ← at_end_or [RBRACE];
        if stop' : bool then mret []
        else
          s ← rec_statement;
          _ ← after_statement;
          ss ← braced_statements n';
          mret (s :: ss)
  end.

(** The statements up to [DEDENT], by the statement parser [parse]. *)
Fixpoint indented_statements (parse : parser (option Statement)) (n : nat) : parser (list (option Statement)) :=
  match n with
  | O => no_fuel
  | S n' =>
      stop ← at_end_or [DEDENT; END_OF_FILE];
      if stop : bool then mret []
      else
        _ ← skip_newlines fuel;
        stop' ← at_end_or [DEDENT];
        if stop' : bool then mret []
        else s ← parse; ss ← indented_statements parse n'; mret (s :: ss)
  end.

Definition parse_block : parser Block :=
  start_loc ← location_p;
  t ← peek_p;
  if type t =t LBRACE then
    _ ← consume_p;
    ss ← braced_statements fuel;
    _ ← expect_msg_p RBRACE $"Expected '}' to end a block.";
    block_stmt start_loc ss
  else if type t =t INDENT then
    _ ← consume_p;
    ss ← indented_statements rec_statement fuel;
    t' ← peek_p;
    _ ← (if type t' =t DEDENT then _ ← consume_p; mret tt else mret tt);
    block_stmt start_loc ss
  else
    l ← location_p;
    throw_p ($"Expected '{{' or indentation to start a block at " ++ location_to_string l).

(** ** Match *)

(** An object literal of which every property is a shorthand is a struct
    pattern. *)
Definition all_shorthand (ps : list ObjectProperty) : bool :=
  forallb (fun p => match p with mkObjectProperty _ _ v => match v with Some _ => false | None => true end end) ps.

Fixpoint pattern_bindings (ps : list ObjectProperty) : parser (list (option Identifier)) :=
  match ps with
  | [] => mret []
  | mkObjectProperty _ k _ :: ps' =>
      i ← make (loc (id_node k)) (fun nd => mkIdentifier nd (name k));
      ids ← pattern_bindings ps';
      mret (Some i :: ids)
  end.

Definition struct_pattern (pattern : option Expression) : parser (option Expression) :=
  match pattern with
  | Some (ObjectLiteral n (Some typePath) ((_ :: _) as ps)) =>
      if all_shorthand ps then
        bindings ← pattern_bindings ps;
        typeName ← clone_p typePath;
        make (loc n) (fun nd => Some (StructPattern nd (Some typeName) bindings))
      else mret pattern
  | _ => mret pattern
  end.

Definition match_pattern : parser (option Expression) :=
  t ← peek_p;
  if type t =t QUESTION_MARK then _ ← consume_p; mret None
  else if type_in t comparison_tokens then
    comparison_pattern rec_primary $"Expected value after comparison operator in pattern."
  else
    pattern0 ← rec_primary;
    match pattern0 with
    | None => error_here $"Expected pattern in match arm."
    | Some _ =>
        pattern ← variant_pattern rec_primary fuel $"Expected binding name in enum variant pattern."
          $"Expected ')' after enum variant pattern bindings." pattern0;
        d ← peek_p;
        if type d =t DOTDOT then
          _ ← consume_p;
          endExpr ← rec_primary;
          match endExpr with
          | None => error_here $"Expected end value after '..' in range pattern."
          | Some _ =>
              p ← deref pattern;
              make (loc (expr_node p)) (fun nd => Some (RangeExpression nd pattern endExpr None))
          end
        else struct_pattern pattern
    end.

Definition match_guard : parser (option Expression) :=
  k ← match_p KEYWORD_IF;
  if k : bool then
    guard ← rec_expression;
    match guard with
    | None => error_here $"Expected condition after 'if' in match arm."
    | Some _ => mret guard
    end
  else mret None.

Definition match_result : parser (option Expression) :=
  b ← check_p LBRACE;
  if b : bool then block ← parse_block; block_expr (loc (block_node block)) block
  else
    result ← rec_expression;
    match result with
    | None => error_here $"Expected expression or block after '->' in match arm."
    | Some _ => mret result
    end.

Fixpoint match_cases (n : nat) : parser (list (option Expression * option Expression * option Expression)) :=
  match n with
  | O => no_fuel
  | S n' =>
      b ← check_p RBRACE;
      e ← at_end_p;
      if b || e then mret []
      else
        _ ← newlines fuel;
        b' ← check_p RBRACE;
        if b' : bool then mret []
        else
          pattern ← match_pattern;
          guard ← match_guard;
          _ ← expect_msg_p ARROW $"Expected '->' after match pattern.";
          result ← match_result;
          _ ← match_p COMMA;
          _ ← newlines fuel;
          cs ← match_cases n';
          mret ((pattern, result, guard) :: cs)
  end.

Definition parse_match : parser (option Statement) :=
  k ← expect_msg_p KEYWORD_MATCH $"Expected 'match'";
  _ ← expect_msg_p LPAREN $"Expected '(' after 'match'.";
  match_expr ← rec_expression;
  match match_expr with
  | None => error_here $"Expected expression in match statement."
  | Some _ =>
      _ ← expect_msg_p RPAREN $"Expected ')' after match expression.";
      _ ← expect_msg_p LBRACE $"Expected '{' after match expression.";
      cs ← match_cases fuel;
      _ ← expect_msg_p RBRACE $"Expected '}' after match cases.";
      make (location k) (fun nd => Some (MatchStatement
        (mkMatch nd match_expr (map fst cs) (map snd cs))))
  end.

(** ** The expression parser, with this statement parser *)

Definition expression_p : parser (option Expression) :=
  parse_expression rec_expression rec_primary parse_block parse_match fuel.
Definition primary_p : parser (option Expression) :=
  parse_primary rec_expression rec_primary parse_block parse_match fuel.
Definition type_p : parser TypeNode := parse_type rec_expression fuel.

Definition parse_expression_statement : parser Statement :=
  expr ← expression_p;
  x ← deref expr;
  s ← match_p SEMICOLON;
  _ ← (if s : bool then mret tt
       else
         e ← at_end_p;
         t ← peek_p;
         if e || type_in t [RBRACE; DEDENT] || is_statement_start (type t) then mret tt
         else throw_p ($"Expected semicolon, newline, '}', or DEDENT after expression statement at "
                       ++ location_to_string (location t) ++ $", got " ++ token_type_to_string (type t)));
  make (loc (expr_node x)) (fun nd => ExpressionStatement nd expr).

(** ** Conditionals and loops *)

Fixpoint parse_if (n : nat) : parser Statement :=
  match n with
  | O => no_fuel
  | S n' =>
      k ← expect_msg_p KEYWORD_IF $"Expected 'if'.";
      _ ← expect_msg_p LPAREN $"Expected '(' after 'if'.";
      condition ← expression_p;
      _ ← expect_msg_p RPAREN $"Expected ')' after if condition.";
      then_branch ← parse_block;
      el ← match_p KEYWORD_ELSE;
      else_branch ← (if el : bool then
                       t ← peek_p;
                       if type t =t KEYWORD_IF then s ← parse_if n'; mret (Some s)
                       else b ← parse_block; mret (Some (BlockStatement b))
                     else mret None);
      make (location k) (fun nd => IfStatement nd condition (Some (BlockStatement then_branch)) else_branch)
  end.

(** The infix [else] is off while the condition is parsed; when it throws, it
    stays off. *)
Definition parse_ensure : parser Statement :=
  k ← expect_msg_p KEYWORD_ENSURE $"Expected 'ensure'.";
  let l := location k in
  _ ← set_env (set_else_infix_enabled false);
  condition ← expression_p;
  _ ← set_env (set_else_infix_enabled true);
  _ ← expect_msg_p KEYWORD_ELSE $"Expected 'else' after ensure condition.";
  b ← check_p LBRACE;
  handling ← (if b : bool then h ← parse_block; mret (Some (BlockStatement h)) else rec_statement);
  emptyThen ← block_stmt l [];
  make l (fun nd => IfStatement nd condition (Some (BlockStatement emptyThen)) handling).

Definition parse_while : parser Statement :=
  k ← expect_msg_p KEYWORD_WHILE $"Expected 'while'.";
  _ ← expect_msg_p LPAREN $"Expected '(' after 'while'.";
  condition ← expression_p;
  _ ← expect_msg_p RPAREN $"Expected ')' after while condition.";
  body ← parse_block;
  make (location k) (fun nd => WhileStatement nd condition (Some (BlockStatement body)) []).

Definition parse_async_for : parser Statement :=
  k ← consume_p;
  _ ← expect_msg_p KEYWORD_FOR $"Expected 'for' after 'async'";
  _ ← expect_msg_p LPAREN $"Expected '(' after 'async for'";
  t ← peek_p;
  if type t =t Token.IDENTIFIER then
    ident_token ← consume_p;
    _ ← declare_variable (lexeme ident_token);
    lt ← match_p LT;
    chanKind ← (if lt : bool then
                  ty ← type_p;
                  _ ← expect_msg_p GT $"Expected '>' after 'async for' loop variable type";
                  let text := TypeNode_toString ty in
                  if in_names text [$"Int"; $"String"] then mret text
                  else error_at ident_token ($"'async for' over channels supports <Int> or <String> payloads, got " ++ text)
                else mret $"Int");
    _ ← expect_msg_p KEYWORD_IN $"Expected 'in' after 'async for' loop variable";
    ch_expr ← expression_p;
    _ ← expect_msg_p RPAREN $"Expected ')' after 'async for' header";
    c ← peek_p;
    if type c =t COMMA then error_at c $"'async for' over channels does not take a step argument"
    else
      body ← parse_block;
      buildAsyncChanForDesugar (location k) ident_token chanKind ch_expr body
  else error_at t $"Expected loop variable in 'async for'".

(** ** Variable declarations *)

(** [do { types.push_back(parse()); } while (match(COMMA));] *)
Fixpoint declared_types (n : nat) : parser (list (option TypeNode)) :=
  match n with
  | O => no_fuel
  | S n' =>
      t ← type_p;
      c ← match_p COMMA;
      if c : bool then ts ← declared_types n'; mret (Some t :: ts) else mret [Some t]
  end.

(** One type, or the tuple of several. *)
Definition tuple_type (decl_loc : SourceLocation) (types : list (option TypeNode)) : parser (option TypeNode) :=
  match types with
  | [t] => mret t
  | _ => make decl_loc (fun nd => Some (TupleTypeNode nd types))
  end.

Definition separator_tokens : list TokenType := [NEWLINE; RBRACE; DEDENT; END_OF_FILE].
Definition declaration_separator : parser () :=
  separator separator_tokens $"Expected statement separator after variable declaration at ".

(** [if (match(EQ)) initializer = parse_expression();] *)
Definition optional_initializer : parser (option Expression) :=
  e ← match_p EQ;
  if e : bool then expression_p else mret None.

Definition declared_name (message : str) : parser Identifier :=
  name_token ← expect_msg_p Token.IDENTIFIER message;
  i ← make_identifier name_token;
  _ ← declare_variable (lexeme name_token);
  mret i.

Definition auto_decl (decl_loc : SourceLocation) : parser (option Statement) :=
  i ← declared_name $"Expected variable name after 'auto'.";
  _ ← expect_msg_p EQ $"Auto variables require an initializer.";
  initializer ← expression_p;
  match initializer with
  | None =>
      l ← location_p;
      throw_p ($"Expected initializer expression after '=' for auto variable at " ++ location_to_string l)
  | Some _ =>
      _ ← declaration_separator;
      make decl_loc (fun nd => Some (VariableDeclaration nd (Some i) false None initializer false))
  end.

Definition legacy_var_decl (decl_loc : SourceLocation) : parser (option Statement) :=
  _ ← expect_msg_p LT $"Expected '<' after 'var'.";
  types ← declared_types fuel;
  _ ← expect_msg_p GT $"Expected '>' after type in variable declaration.";
  type_expr ← tuple_type decl_loc types;
  i ← declared_name $"Expected variable name.";
  initializer ← optional_initializer;
  _ ← declaration_separator;
  make decl_loc (fun nd => Some (VariableDeclaration nd (Some i) false type_expr initializer false)).

Definition const_decl (decl_loc : SourceLocation) : parser (option Statement) :=
  t ← peek_p;
  let rest type_expr :=
    i ← declared_name $"Expected variable name.";
    initializer ← optional_initializer;
    _ ← peeked_semicolon;
    make decl_loc (fun nd => Some (VariableDeclaration nd (Some i) true type_expr initializer false)) in
  if type t =t LT then
    _ ← consume_p;
    types ← declared_types fuel;
    _ ← expect_msg_p GT $"Expected '>' after type in const variable declaration.";
    type_expr ← tuple_type decl_loc types;
    rest type_expr
  else if type t =t Token.IDENTIFIER then ty ← type_p; rest (Some ty)
  else throw_p ($"Expected '<' or type name after 'const', but found '" ++ token_type_to_string (type t) ++ $"' at "
                ++ location_to_string (location t)).

(** [a<T>, b<U>]: the names, their types, and whether one of them is const. *)
Fixpoint unified_names (n : nat) (decl_loc : SourceLocation) : parser (list (Identifier * option TypeNode) * bool) :=
  match n with
  | O => no_fuel
  | S n' =>
      name_token ← expect_msg_p Token.IDENTIFIER $"Expected variable name.";
      i ← make_identifier name_token;
      _ ← expect_msg_p LT $"Expected '<' after variable name in unified syntax.";
      types ← declared_types fuel;
      t ← peek_p;
      is_const ← (if ((type t =t Token.IDENTIFIER) && (lexeme t =s $"const")) || (type t =t KEYWORD_CONST)
                  then _ ← consume_p; mret true else mret false);
      _ ← expect_msg_p GT $"Expected '>' after type in variable declaration.";
      type_expr ← tuple_type decl_loc types;
      c ← match_p COMMA;
      if c : bool then
        '(rest, k) ← unified_names n' decl_loc;
        mret ((i, type_expr) :: rest, is_const || k)
      else mret ([(i, type_expr)], is_const)
  end.

(** The declarations of several names share one initializer. *)
Fixpoint shared_declarations (decl_loc : SourceLocation) (is_const : bool) (init : option Expression)
    (names : list (Identifier * option TypeNode)) : parser (list (option Statement)) :=
  match names with
  | [] => mret []
  | (i, ty) :: names' =>
      d ← make decl_loc (fun nd => VariableDeclaration nd (Some i) is_const ty init false);
      ds ← shared_declarations decl_loc is_const init names';
      mret (Some d :: ds)
  end.

Definition unified_decl (decl_loc : SourceLocation) : parser (option Statement) :=
  '(names, is_const) ← unified_names fuel decl_loc;
  initializer ← optional_initializer;
  _ ← declaration_separator;
  _ ← declare_variables (map (fun p => name (fst p)) names);
  match names with
  | [(i, ty)] => make decl_loc (fun nd => Some (VariableDeclaration nd (Some i) is_const ty initializer false))
  | _ =>
      body ← shared_declarations decl_loc is_const initializer names;
      b ← block_stmt decl_loc body;
      mret (Some (BlockStatement b))
  end.

Definition parse_var_decl : parser (option Statement) :=
  decl_loc ← location_p;
  a ← match_p KEYWORD_AUTO;
  if a : bool then auto_decl decl_loc
  else
    v ← match_p KEYWORD_VAR;
    if v : bool then legacy_var_decl decl_loc
    else
      c ← match_p KEYWORD_CONST;
      if c : bool then const_decl decl_loc else unified_decl decl_loc.

(** ** Lookahead *)

(** [Type name] ahead; the position is restored. *)
Definition relaxed_syntax (saved_pos : nat) : parser bool :=
  _ ← type_p;
  stop ← at_end_p;
  named ← (if stop : bool then mret false else t ← peek_p; mret (type t =t Token.IDENTIFIER));
  _ ← set_pos_p saved_pos;
  mret named.

(** A declaration in that form, with every exception of it caught. *)
Definition relaxed_declaration : parser (option (option Statement)) :=
  saved_pos ← get_pos_p;
  try_any
    (named ← relaxed_syntax saved_pos;
     if named : bool then s ← parse_var_decl; mret (Some s) else mret None)
    (_ ← set_pos_p saved_pos; mret None).

(** The type arguments of a call, thrown away. *)
Fixpoint skipped_types (n : nat) : parser () :=
  match n with
  | O => no_fuel
  | S n' => _ ← type_p; c ← match_p COMMA; if c : bool then skipped_types n' else mret tt
  end.

Definition looks_like_generic_call : parser bool :=
  start ← get_pos_p;
  try_any
    (_ ← expect_msg_p Token.IDENTIFIER $"Expected identifier in generic call check.";
     _ ← expect_msg_p LT $"Expected '<' in generic call check.";
     _ ← skipped_types fuel;
     _ ← expect_msg_p GT $"Expected '>' in generic call check.";
     t ← peek_p;
     _ ← set_pos_p start;
     mret (type t =t LPAREN))
    (_ ← set_pos_p start; mret false).

(** [while (depth > 0 && !IsAtEnd())] up to the closing [>]. *)
Fixpoint skip_annotation (n : nat) (depth : Z) : parser () :=
  match n with
  | O => no_fuel
  | S n' =>
      e ← at_end_p;
      if (0 <? depth)%Z && negb e then
        t ← consume_p;
        skip_annotation n' (if type t =t LT then depth + 1 else if type t =t GT then depth - 1 else depth)%Z
      else mret tt
  end.

(** The names after the first; [None] when the tokens are something else. *)
Fixpoint destructured_names (n : nat) : parser (option (list Identifier)) :=
  match n with
  | O => no_fuel
  | S n' =>
      c ← match_p COMMA;
      if c : bool then
        lt ← check_p LT;
        _ ← (if lt : bool then _ ← consume_p; skip_annotation fuel 1 else mret tt);
        k ← check_p Token.IDENTIFIER;
        if k : bool then
          id_token ← consume_p;
          i ← make_identifier id_token;
          rest ← destructured_names n';
          mret (match rest with Some l => Some (i :: l) | None => None end)
        else mret None
      else mret (Some [])
  end.

(** What may follow a destructuring assignment. *)
Definition destructure_separator : parser () :=
  s ← match_p SEMICOLON;
  if s : bool then mret tt
  else
    e ← at_end_p;
    t ← peek_p;
    if e || type_in t [RBRACE; DEDENT] || is_statement_start (type t) then mret tt
    else throw_p ($"Expected semicolon, newline, '}', or DEDENT after tuple destructure at "
                  ++ location_to_string (location t)).

Definition try_parse_tuple_destructure : parser (option Statement) :=
  t ← peek_p;
  if type t =t Token.IDENTIFIER then
    saved_pos ← get_pos_p;
    let restore := _ ← set_pos_p saved_pos; mret None in
    id_token ← consume_p;
    first ← make_identifier id_token;
    rest ← destructured_names fuel;
    match rest with
    | None => restore
    | Some ids =>
        eq ← match_p EQ;
        if eq : bool then
          rhs ← expression_p;
          match rhs with
          | None =>
              l ← location_p;
              throw_p ($"Expected expression after '=' in tuple destructure at " ++ location_to_string l)
          | Some _ =>
              _ ← destructure_separator;
              match ids with
              | [] => restore
              | _ =>
                  _ ← declare_variables (map name (first :: ids));
                  make (loc (id_node first)) (fun nd => Some (TupleDestructureAssignment nd (first :: ids) rhs))
              end
          end
        else restore
    end
  else mret None.

(** [parse_pattern]: a pattern is an identifier. *)
Definition parse_pattern : parser (option Expression) :=
  id_token ← expect_msg_p Token.IDENTIFIER $"Expected identifier in pattern.";
  i ← make_identifier id_token;
  mret (Some (IdentifierExpr i)).

(** ** For *)

(** The initializer of a C-style loop; it ends with its own semicolon. *)
Definition for_initializer : parser (option Statement) :=
  t ← peek_p;
  if type_in t [KEYWORD_LET; KEYWORD_MUT; KEYWORD_CONST; KEYWORD_VAR; KEYWORD_AUTO] then parse_var_decl
  else if type t =t SEMICOLON then
    _ ← expect_msg_p SEMICOLON $"Expected semicolon after empty for-loop initializer."; mret None
  else if type t =t Token.IDENTIFIER then
    saved_pos ← get_pos_p;
    try_any
      (named ← relaxed_syntax saved_pos;
       if named : bool then parse_var_decl else s ← parse_expression_statement; mret (Some s))
      (_ ← set_pos_p saved_pos; s ← parse_expression_statement; mret (Some s))
  else s ← parse_expression_statement; mret (Some s).

(** [if (peek().type != close) e = parse_expression();] *)
Definition for_clause (close : TokenType) : parser (option Expression) :=
  t ← peek_p;
  if type t =t close then mret None else expression_p.

Definition c_style_for (for_loc : SourceLocation) : parser Statement :=
  initializer ← for_initializer;
  condition ← for_clause SEMICOLON;
  _ ← expect_msg_p SEMICOLON $"Expected semicolon after for-loop condition.";
  increment ← for_clause RPAREN;
  _ ← expect_msg_p RPAREN $"Expected ')' after for-loop clauses.";
  body ← parse_block;
  make for_loc (fun nd => ForStatement nd initializer condition increment (Some (BlockStatement body)) []).

(** After [for (item in]. *)
Definition for_in_loop (for_loc : SourceLocation) (ident_token : Token) : parser Statement :=
  _ ← declare_variable (lexeme ident_token);
  range_expr ← expression_p;
  c ← peek_p;
  skip_expr ← (if type c =t COMMA then _ ← consume_p; expression_p else mret None);
  _ ← expect_msg_p RPAREN $"Expected ')' after for loop header";
  body ← parse_block;
  r ← deref range_expr;
  for_in for_loc ident_token r skip_expr body.

Definition parse_for : parser Statement :=
  k ← expect_msg_p KEYWORD_FOR $"Expected 'for'.";
  let for_loc := location k in
  _ ← expect_msg_p LPAREN $"Expected '(' after 'for'";
  t ← peek_p;
  if type t =t Token.IDENTIFIER then
    saved_pos ← get_pos_p;
    ident_token ← consume_p;
    i ← peek_p;
    if type i =t KEYWORD_IN then _ ← consume_p; for_in_loop for_loc ident_token
    else _ ← set_pos_p saved_pos; c_style_for for_loc
  else c_style_for for_loc.

(** ** Return, pass and the error statements *)

Fixpoint returned_values (n : nat) : parser (list (option Expression)) :=
  match n with
  | O => no_fuel
  | S n' =>
      t ← peek_p;
      if type t =t COMMA then
        _ ← consume_p;
        e ← expression_p;
        _ ← deref e;
        es ← returned_values n';
        mret (e :: es)
      else mret []
  end.

Definition parse_return : parser Statement :=
  k ← expect_msg_p KEYWORD_RETURN $"Expected 'return'.";
  let return_loc := location k in
  t ← peek_p;
  value ← (if type_in t [SEMICOLON; NEWLINE; RBRACE; DEDENT] then mret None
           else
             v ← expression_p;
             _ ← deref v;
             c ← peek_p;
             if type c =t COMMA then
               es ← returned_values fuel;
               make return_loc (fun nd => Some (SequenceExpression nd (v :: es)))
             else mret v);
  _ ← separator [NEWLINE; RBRACE; DEDENT] $"Expected semicolon or newline after return statement at ";
  make return_loc (fun nd => ReturnStatement nd value).

Definition parse_pass : parser Statement :=
  k ← expect_msg_p KEYWORD_PASS $"Expected 'pass'.";
  t ← peek_p;
  if type_in t [SEMICOLON; NEWLINE; RBRACE; DEDENT] then
    throw_p ($"Expected expression after 'pass' keyword at " ++ location_to_string (location k))
  else
    value ← expression_p;
    match value with
    | None => u ← peek_p; throw_p ($"Expected expression after 'pass' at " ++ location_to_string (location u))
    | Some _ =>
        s ← peek_p;
        e ← at_end_p;
        _ ← (if type s =t SEMICOLON then _ ← consume_p; mret tt
             else if type_in s [NEWLINE; RBRACE; DEDENT] || e then mret tt
             else throw_p ($"Expected semicolon or newline after pass statement at " ++ location_to_string (location s)));
        make (location k) (fun nd => PassStatement nd value)
    end.

(** [break label], [continue label]. *)
Definition jump_label : parser str :=
  t ← peek_p;
  if type t =t Token.IDENTIFIER then _ ← consume_p; mret (lexeme t) else mret [].

Definition parse_break : parser Statement :=
  k ← expect_msg_p KEYWORD_BREAK $"Expected 'break'";
  label ← jump_label;
  _ ← optional_semicolon;
  make (location k) (fun nd => BreakStatement nd label).

Definition parse_continue : parser Statement :=
  k ← expect_msg_p KEYWORD_CONTINUE $"Expected 'continue'";
  label ← jump_label;
  _ ← optional_semicolon;
  make (location k) (fun nd => ContinueStatement nd label).

Definition parse_freedom : parser Statement :=
  k ← expect_msg_p KEYWORD_FREEDOM $"Expected 'freedom'";
  block ← parse_block;
  make (location k) (fun nd => FreedomStatement nd (Some block)).

(** [if (!e) throw std::runtime_error(message + location)] *)
Definition required (message : str) (l : SourceLocation) (e : option Expression) : parser (option Expression) :=
  match e with
  | None => throw_p (message ++ location_to_string l)
  | Some _ => mret e
  end.

Definition parse_fail : parser Statement :=
  k ← expect_msg_p KEYWORD_FAIL $"Expected 'fail'";
  lt ← match_p LT;
  '(ty, err) ←
    (if lt : bool then
       t ← type_p;
       _ ← expect_msg_p GT $"Expected '>' after fail error type";
       _ ← expect_msg_p LPAREN $"Expected '(' after typed fail";
       e ← expression_p;
       _ ← expect_msg_p RPAREN $"Expected ')' after typed fail expression";
       mret (Some t, e)
     else e ← expression_p; mret (None, e));
  err' ← required $"Expected error expression after 'fail' at " (location k) err;
  _ ← optional_semicolon;
  make (location k) (fun nd => FailStatement nd err' ty).

Definition parse_panic : parser Statement :=
  k ← expect_msg_p KEYWORD_PANIC $"Expected 'panic'";
  _ ← expect_msg_p LPAREN $"Expected '(' after 'panic'";
  m ← expression_p;
  m' ← required $"Expected panic message expression at " (location k) m;
  _ ← expect_msg_p RPAREN $"Expected ')' after panic message";
  _ ← optional_semicolon;
  make (location k) (fun nd => PanicStatement nd m').

Definition parse_exit : parser Statement :=
  k ← expect_msg_p KEYWORD_EXIT $"Expected 'exit'";
  _ ← expect_msg_p LPAREN $"Expected '(' after 'exit'";
  c ← expression_p;
  c' ← required $"Expected exit code expression at " (location k) c;
  _ ← expect_msg_p RPAREN $"Expected ')' after exit code";
  _ ← optional_semicolon;
  make (location k) (fun nd => ExitStatement nd c').

Definition parse_assert : parser Statement :=
  k ← expect_msg_p KEYWORD_ASSERT $"Expected 'assert'";
  _ ← expect_msg_p LPAREN $"Expected '(' after 'assert'";
  c ← expression_p;
  c' ← required $"Expected assert condition at " (location k) c;
  comma ← match_p COMMA;
  msg ← (if comma : bool then m ← expression_p; required $"Expected assert message at " (location k) m else mret None);
  _ ← expect_msg_p RPAREN $"Expected ')' after assert";
  _ ← optional_semicolon;
  make (location k) (fun nd => AssertStatement nd c' msg).

Definition parse_refail : parser Statement :=
  k ← expect_msg_p KEYWORD_REFAIL $"Expected 'refail'";
  t ← peek_p;
  e ← at_end_p;
  wrapped ← (if type_in t [SEMICOLON; NEWLINE; RBRACE; DEDENT] || e then mret None else expression_p);
  _ ← optional_semicolon;
  make (location k) (fun nd => RefailStatement nd wrapped).

Definition parse_defer : parser Statement :=
  k ← consume_p;
  expr ← expression_p;
  match expr with
  | None => error_here $"Expected expression after 'defer'."
  | Some _ =>
      _ ← peeked_semicolon;
      inner ← make (location k) (fun nd => ExpressionStatement nd expr);
      make (location k) (fun nd => DeferStatement nd (Some inner))
  end.

Definition parse_await : parser Statement :=
  k ← consume_p;
  let await_loc := location k in
  expression ← expression_p;
  match expression with
  | None => error_here $"Expected expression after 'await'."
  | Some _ =>
      s ← match_p SEMICOLON;
      t ← peek_p;
      e ← at_end_p;
      _ ← (if s || type_in t [NEWLINE; RBRACE; DEDENT] || e || is_statement_start (type t) then mret tt
           else error_at t $"Expected semicolon or newline after await statement.");
      u ← make await_loc (fun nd => Some (UnaryExpression nd (mkToken KEYWORD_AWAIT $"await" await_loc) expression));
      make await_loc (fun nd => ExpressionStatement nd u)
  end.

(** ** Try *)

(** A braced block, or an indented one whose statements are parsed by a
    statement parser made for each of them. *)
Definition try_block (message : str) : parser Block :=
  t ← peek_p;
  if type t =t LBRACE then parse_block
  else if type t =t INDENT then
    _ ← consume_p;
    stmts ← indented_statements (with_sub_parser rec_statement) fuel;
    _ ← expect_p DEDENT;
    block_stmt (location t) stmts
  else error_at t message.

(** [catch (e: Type)], [catch e] or [catch]: the name. *)
Definition catch_name : parser (option str) :=
  lp ← match_p LPAREN;
  if lp : bool then
    t ← peek_p;
    if type t =t Token.IDENTIFIER then
      ident_token ← consume_p;
      c ← match_p COLON;
      _ ← (if c : bool then _ ← type_p; mret tt else mret tt);
      _ ← expect_p RPAREN;
      mret (Some (lexeme ident_token))
    else error_at t $"Expected identifier within parentheses in catch clause."
  else
    t ← peek_p;
    if type t =t Token.IDENTIFIER then ident_token ← consume_p; mret (Some (lexeme ident_token)) else mret None.

(** [while (depth > 0 && !IsAtEnd())] over the parameters of a clause that is
    skipped. *)
Fixpoint skip_parameters (n : nat) (depth : Z) : parser () :=
  match n with
  | O => no_fuel
  | S n' =>
      e ← at_end_p;
      if (0 <? depth)%Z && negb e then
        l ← match_p LPAREN;
        if l : bool then skip_parameters n' (depth + 1)
        else
          r ← match_p RPAREN;
          if r : bool then skip_parameters n' (depth - 1)
          else _ ← consume_p; skip_parameters n' depth
      else mret tt
  end.

Fixpoint skip_to_dedent (n : nat) : parser () :=
  match n with
  | O => no_fuel
  | S n' =>
      stop ← at_end_or [DEDENT; END_OF_FILE];
      if stop : bool then mret tt else _ ← consume_p; skip_to_dedent n'
  end.

(** The clauses after the first are parsed and forgotten. *)
Fixpoint skip_catches (n : nat) : parser () :=
  match n with
  | O => no_fuel
  | S n' =>
      k ← match_p KEYWORD_CATCH;
      if k : bool then
        lp ← match_p LPAREN;
        _ ← (if lp : bool then skip_parameters fuel 1
             else t ← peek_p; if type t =t Token.IDENTIFIER then _ ← consume_p; mret tt else mret tt);
        t ← peek_p;
        _ ← (if type t =t LBRACE then _ ← parse_block; mret tt
             else if type t =t INDENT then
               _ ← consume_p; _ ← skip_to_dedent fuel; _ ← expect_p DEDENT; mret tt
             else error_at t $"Expected block after 'catch' in try statement.");
        skip_catches n'
      else mret tt
  end.

Definition parse_try : parser Statement :=
  try_loc ← location_p;
  _ ← expect_p KEYWORD_TRY;
  tryBlock ← try_block $"Expected block (starting with '{' or indent) after 'try'.";
  c ← match_p KEYWORD_CATCH;
  '(catchIdent, catchBlock) ←
    (if c : bool then
       n ← catch_name;
       b ← try_block $"Expected block (starting with '{' or indent) after 'catch' clause.";
       mret (n, Some b)
     else mret (None, None));
  _ ← skip_catches fuel;
  f ← match_p KEYWORD_FINALLY;
  finallyBlock ← (if f : bool then
                    b ← try_block $"Expected block (starting with '{' or indent) after 'finally'."; mret (Some b)
                  else mret None);
  make try_loc (fun nd => TryStatement nd (Some tryBlock) catchIdent catchBlock finallyBlock).

(** ** Statements *)

Variables (parse_function parse_extern_block parse_class_declaration parse_template_declaration : parser (option Statement)).

(** The methods of the declaration parser, when there is one. *)
Definition declaration (what : str) (t : Token) (m : parser (option Statement)) : parser (option Statement) :=
  d ← get_env decl_parser_;
  if d : bool then m
  else throw_p (what ++ $" parsing not available in this context at " ++ location_to_string (location t)).

(** A block, or the expression statement it starts when clauses follow. *)
Definition block_statement : parser (option Statement) :=
  b ← parse_block;
  c ← check_first [KEYWORD_TRAP; KEYWORD_ENSURE];
  if c : bool then
    traps ← trap_clauses parse_block fuel fuel;
    ensure ← ensure_clause parse_block;
    let l := loc (block_node b) in
    e ← make l (fun nd => Some (BlockExpression nd (Some b) traps ensure));
    make l (fun nd => Some (ExpressionStatement nd e))
  else mret (Some (BlockStatement b)).

Definition some_statement (m : parser Statement) : parser (option Statement) := s ← m; mret (Some s).

(** [label: for (...)], [label: while (...)]. *)
Definition labeled_loop (t : Token) : parser (option (option Statement)) :=
  next ← peek_next_p;
  if (type t =t Token.IDENTIFIER) && (type next =t COLON) then
    after_colon ← peek_ahead_p 2;
    if type_in after_colon [KEYWORD_FOR; KEYWORD_WHILE] then
      label ← consume_p;
      _ ← expect_msg_p COLON $"Expected ':' after loop label";
      loop ← (if type after_colon =t KEYWORD_FOR then parse_for else parse_while);
      mret (Some (Some (set_label (lexeme label) loop)))
    else mret None
  else mret None.

(** [name = |params| -> body]: [None], with the position restored, when no
    lambda follows. *)
Definition lambda_declaration (t : Token) : parser (option (option Statement)) :=
  saved_pos ← get_pos_p;
  _ ← consume_p;
  _ ← consume_p;
  p ← peek_p;
  a1 ← peek_ahead_p 1;
  a2 ← peek_ahead_p 2;
  let isAsyncLambdaAfterEq :=
    (type p =t KEYWORD_ASYNC) && ((type a1 =t PIPE) || ((type a1 =t OR) && (type a2 =t ARROW))) in
  if (type p =t PIPE) || isAsyncLambdaAfterEq then
    i ← make_identifier t;
    init ← expression_p;
    _ ← peeked_semicolon;
    _ ← declare_variable (lexeme t);
    make (location t) (fun nd => Some (Some (VariableDeclaration nd (Some i) false None init false)))
  else _ ← set_pos_p saved_pos; mret None.

(** [name = expr] for a name that is not declared. *)
Definition inferred_declaration (t : Token) : parser (option (option Statement)) :=
  d ← get_env decl_parser_;
  known ← get_env (isVariableDeclared (lexeme t));
  if d && negb known then
    _ ← consume_p;
    _ ← expect_msg_p EQ $"Expected '=' after variable name.";
    init ← expression_p;
    match init with
    | None =>
        l ← location_p;
        throw_p ($"Expected initializer expression after '=' for variable at " ++ location_to_string l)
    | Some _ =>
        _ ← separator [RBRACE; DEDENT; NEWLINE] $"Expected statement separator after variable declaration at ";
        i ← make_identifier t;
        _ ← declare_variable (lexeme t);
        make (location t) (fun nd => Some (Some (VariableDeclaration nd (Some i) false None init false)))
    end
  else mret None.

Definition fallback_statement (t : Token) : parser (option Statement) :=
  if is_expression_start (type t) then some_statement parse_expression_statement
  else throw_p ($"Unexpected token at start of statement: '" ++ token_type_to_string (type t) ++ $"' at "
                ++ location_to_string (location t)).

(** A statement that starts with an identifier, tried as a declaration in its
    forms, as a destructuring assignment and as an expression. *)
Definition identifier_statement (t : Token) : parser (option Statement) :=
  next ← peek_next_p;
  if type next =t LT then
    g ← looks_like_generic_call;
    if g && is_expression_start (type t) then some_statement parse_expression_statement else parse_var_decl
  else
    lam ← (if type next =t EQ then lambda_declaration t else mret None);
    match lam with
    | Some s => mret s
    | None =>
        inf ← (if type next =t EQ then inferred_declaration t else mret None);
        match inf with
        | Some s => mret s
        | None =>
            r ← relaxed_declaration;
            match r with
            | Some s => mret s
            | None =>
                d ← try_parse_tuple_destructure;
                match d with
                | Some s => mret (Some s)
                | None => fallback_statement t
                end
            end
        end
    end.

(** The switch on the first token. *)
Definition statement_by_token (t : Token) : parser (option Statement) :=
  match type t with
  | KEYWORD_MUT | KEYWORD_CONST | KEYWORD_VAR | KEYWORD_AUTO => parse_var_decl
  | KEYWORD_ASYNC =>
      next ← peek_next_p;
      if type next =t KEYWORD_FOR then some_statement parse_async_for
      else declaration $"Async function" t parse_function
  | KEYWORD_EXTERN =>
      declaration $"Extern declaration" t
        (next ← peek_next_p; if type next =t STRING_LITERAL then parse_extern_block else parse_function)
  | KEYWORD_CLASS => declaration $"Class declaration" t parse_class_declaration
  | KEYWORD_TEMPLATE => declaration $"Template declaration" t parse_template_declaration
  | KEYWORD_IF => some_statement (parse_if fuel)
  | KEYWORD_ENSURE => some_statement parse_ensure
  | KEYWORD_WHILE => some_statement parse_while
  | KEYWORD_FOR => some_statement parse_for
  | KEYWORD_MATCH => parse_match
  | KEYWORD_RETURN => some_statement parse_return
  | KEYWORD_PASS => some_statement parse_pass
  | LBRACE => block_statement
  | KEYWORD_TRY => some_statement parse_try
  | KEYWORD_FREEDOM => some_statement parse_freedom
  | KEYWORD_DEFER => some_statement parse_defer
  | KEYWORD_AWAIT => some_statement parse_await
  | KEYWORD_BREAK => some_statement parse_break
  | KEYWORD_CONTINUE => some_statement parse_continue
  | KEYWORD_FAIL => some_statement parse_fail
  | KEYWORD_PANIC => some_statement parse_panic
  | KEYWORD_EXIT => some_statement parse_exit
  | KEYWORD_ASSERT => some_statement parse_assert
  | KEYWORD_REFAIL => some_statement parse_refail
  | Token.IDENTIFIER => identifier_statement t
  | _ => fallback_statement t
  end.

(** [throw expr] is parsed and left out of the tree. *)
Definition throw_statement : parser (option Statement) :=
  _ ← consume_p;
  _ ← expression_p;
  _ ← match_p SEMICOLON;
  mret None.

Definition parse_statement : parser (option Statement) :=
  _ ← skip_indents_p;
  _ ← skip_newlines fuel;
  e ← at_end_p;
  if e : bool then mret None
  else
    t ← peek_p;
    if (type t =t Token.IDENTIFIER) && (lexeme t =s $"throw") then throw_statement
    else
      l ← labeled_loop t;
      match l with
      | Some s => mret s
      | None =>
          r ← reserved_name_p [EQ];
          if r : bool then
            throw_p ($"'" ++ lexeme t ++ $"' is a reserved word and cannot be used as a variable name at "
                     ++ location_to_string (location t))
          else statement_by_token t
      end.
End StmtParser.
