(* ===== verification/StmtProps.v ===== *)
(** * Termination of the statement parser

    One lemma per definition of [StmtParser], as in [ExprProps]. A statement may
    consume nothing when only layout is left, and then the parser is at the end
    ([consumes_or_ends]), where the loops over statements stop. *)

From S2P Require Import Prelude.
From S2P Require Import Token.
From S2P Require Import Ast.
From S2P Require Import AstTypes.
From S2P Require Import TokenStream.
From S2P Require Import ParserMonad.
From S2P Require Import TypeParser.
From S2P Require Import ParserLogic.
From S2P Require Import ExprParser.
From S2P Require Import ExprProps.
From S2P Require Import StmtParser.

Section StmtRuns.
Context (ts : Input) (closed : closed_tokens ts) (f : nat).
Context (rec_expression rec_primary : parser (option Expression)) (rec_statement : parser (option Statement)).
Hypothesis expression_spec : progress ts f rec_expression.
Hypothesis primary_spec : progress ts f rec_primary.
Hypothesis statement_spec : consumes_or_ends ts f rec_statement.

Local Notation progress := (progress ts).
Local Notation advance_only := (advance_only ts).
Local Notation fuel := (S f).

Local Hint Resolve expression_spec primary_spec statement_spec : parser_specs.

Lemma at_end_or_spec types (Q : bool -> ParseState -> Prop) st :
  Q true st -> (~ at_end st -> 0 < remaining st -> Q false st) -> runs ts (at_end_or types) Q st.
Proof.
  intros H1 H2. unfold at_end_or. pstep. pstep; [by apply runs_ret|]. repeat pstep. destruct (type_in _ _); [done|by apply H2].
Qed.

Local Hint Resolve make_spec make_identifier_spec newlines_spec : parser_specs.

Lemma skip_newlines_spec n : advance_only n (skip_newlines n).
Proof. induction n as [|n IH]; intros st H; [lia|]. cbn [skip_newlines]. prun. Qed.
Local Hint Resolve skip_newlines_spec : parser_specs.
Lemma declare_variable_spec b n : advance_only b (declare_variable n).
Proof. intros st H. unfold declare_variable. prun. Qed.
Local Hint Resolve declare_variable_spec : parser_specs.
Lemma declare_variables_spec b ns : advance_only b (declare_variables ns).
Proof. induction ns as [|n ns IH]; intros st H; cbn [declare_variables]; prun. Qed.
Lemma deref_spec b e : advance_only b (deref e).
Proof. intros st H. unfold deref, undefined. prun. Qed.
Lemma separator_spec b types m : advance_only b (separator types m).
Proof. intros st H. unfold separator. prun. Qed.
Lemma optional_semicolon_spec b : advance_only b optional_semicolon.
Proof. intros st H. unfold optional_semicolon. prun. Qed.
Lemma peeked_semicolon_spec b : advance_only b peeked_semicolon.
Proof. intros st H. unfold peeked_semicolon. prun. Qed.
Local Hint Resolve declare_variables_spec deref_spec separator_spec optional_semicolon_spec peeked_semicolon_spec : parser_specs.

(** The nodes of a desugared loop consume nothing. *)
Lemma ident_expr_spec b l n : advance_only b (ident_expr l n).
Proof. apply make_spec. Qed.
Lemma int_expr_spec b l n : advance_only b (int_expr l n).
Proof. apply make_spec. Qed.
Lemma bool_expr_spec b l n : advance_only b (bool_expr l n).
Proof. apply make_spec. Qed.
Lemma binary_expr_spec b l x op y : advance_only b (binary_expr l x op y).
Proof. apply make_spec. Qed.
Lemma assign_expr_spec b l x y : advance_only b (assign_expr l x y).
Proof. apply make_spec. Qed.
Lemma block_stmt_spec b l x : advance_only b (block_stmt l x).
Proof. apply make_spec. Qed.
Lemma block_expr_spec b l x : advance_only b (block_expr l x).
Proof. apply make_spec. Qed.
Local Hint Resolve ident_expr_spec int_expr_spec bool_expr_spec binary_expr_spec assign_expr_spec block_stmt_spec block_expr_spec : parser_specs.
Lemma method_call_spec b l x n : advance_only b (method_call l x n).
Proof. intros st H. unfold method_call. prun. Qed.
Lemma var_decl_spec b l n o m : (forall b', advance_only b' m) -> advance_only b (var_decl l n o m).
Proof. intros Hm st H. unfold var_decl. prun. Qed.
Lemma ret_spec {A} b (a : A) : advance_only b (mret a).
Proof. intros st H. prun. Qed.
Local Hint Resolve method_call_spec var_decl_spec ret_spec : parser_specs.
Lemma break_arm_spec b l : advance_only b (break_arm l).
Proof. intros st H. unfold break_arm. prun. Qed.
Lemma make_next_spec b l n : advance_only b (make_next l n).
Proof. intros st H. unfold make_next. prun. Qed.
Lemma run_once_spec b l i pre m : advance_only b (run_once l i pre m).
Proof. intros st H. unfold run_once. prun. Qed.
Local Hint Resolve break_arm_spec make_next_spec run_once_spec : parser_specs.
Lemma skip_prologue_spec b l i n e : advance_only b (skip_prologue l i n e).
Proof. intros st H. unfold skip_prologue. prun. Qed.
Local Hint Resolve skip_prologue_spec : parser_specs.
Lemma iterator_desugar_spec b l t r body s h o : advance_only b (buildForLoopIteratorDesugar l t r body s h o).
Proof. intros st H. unfold buildForLoopIteratorDesugar. prun. Qed.
Lemma async_desugar_spec b l t k e body : advance_only b (buildAsyncChanForDesugar l t k e body).
Proof. intros st H. unfold buildAsyncChanForDesugar. prun. Qed.
Lemma range_loop_spec b l t x y z body : advance_only b (range_loop l t x y z body).
Proof. intros st H. unfold range_loop. prun. Qed.
Local Hint Resolve iterator_desugar_spec async_desugar_spec range_loop_spec : parser_specs.
Lemma for_in_spec b l t e s body : advance_only b (for_in l t e s body).
Proof. intros st H. unfold for_in. prun. Qed.
Local Hint Resolve for_in_spec : parser_specs.

(** ** Blocks *)

Lemma after_statement_spec st :
  runs ts after_statement (fun _ st' => st' = st \/ remaining st' < remaining st) st.
Proof.
  unfold after_statement. pstep. apply at_end_or_spec; [prun; auto|]. intros ? ?. prun; auto; right; lia.
Qed.

(** A statement that consumed nothing left the parser at the end, where the
    loop stops. *)
Lemma braced_statements_spec n st : remaining st < f -> remaining st < n \/ at_end st /\ 0 < n ->
  runs ts (braced_statements rec_statement fuel n) (fun _ st' => remaining st' <= remaining st) st.
Proof.
  revert st. induction n as [|n IH]; intros st Hf H; [lia|]. cbn [braced_statements].
  pstep. apply at_end_or_spec; [prun|]. intros Ne Hr. destruct H as [H|[H _]]; [|done]. do 2 pstep. pstep.
  apply at_end_or_spec; [prun|]. intros Ne' Hr'. do 2 pstep. pstep.
  eapply runs_mono; [apply after_statement_spec|]. cbv beta. intros _ st4 H4.
  pstep. eapply runs_mono; [apply IH|].
  - destruct H4 as [->|?]; lia.
  - destruct H4 as [->|?]; [|left; lia]. destruct H2 as [?|?]; [left; lia|right; split; [done|lia]].
  - cbv beta. intros ss st5 H5. prun. destruct H4 as [->|?]; lia.
Qed.

Lemma indented_statements_spec parse n st : consumes_or_ends ts f parse -> remaining st < f ->
  remaining st < n \/ at_end st /\ 0 < n ->
  runs ts (indented_statements fuel parse n) (fun _ st' => remaining st' <= remaining st) st.
Proof.
  intros Hp. revert st. induction n as [|n IH]; intros st Hf H; [lia|]. cbn [indented_statements].
  pstep. apply at_end_or_spec; [prun|]. intros Ne Hr. destruct H as [H|[H _]]; [|done]. do 2 pstep. pstep.
  apply at_end_or_spec; [prun|]. intros Ne' Hr'. do 2 pstep. pstep. eapply runs_mono; [apply IH|].
  - lia.
  - destruct H2 as [?|?]; [left; lia|right; split; [done|lia]].
  - cbv beta. intros ss st5 H5. prun.
Qed.

Lemma braced_block_spec : advance_only f (braced_statements rec_statement fuel fuel).
Proof. intros st H. apply braced_statements_spec; [done|]. left. lia. Qed.
Lemma indented_block_spec parse : consumes_or_ends ts f parse -> advance_only f (indented_statements fuel parse fuel).
Proof. intros Hp st H. apply indented_statements_spec; [done|done|]. left. lia. Qed.
Local Hint Resolve braced_block_spec indented_block_spec : parser_specs.
Lemma parse_block_spec : progress (S f) (parse_block rec_statement fuel).
Proof. intros st H. unfold parse_block. prun. Qed.
Local Hint Resolve parse_block_spec : parser_specs.

(** ** Match *)

Lemma pattern_bindings_spec b ps : advance_only b (pattern_bindings ps).
Proof. induction ps as [|p ps IH]; intros st H; cbn [pattern_bindings]; prun. Qed.
Lemma clone_spec b t : advance_only b (clone_p t).
Proof. intros st H W. unfold clone_p. destruct (TypeNode_clone _ _). split; [by eapply within_stream|done]. Qed.
Local Hint Resolve pattern_bindings_spec clone_spec : parser_specs.
Lemma struct_pattern_spec b e : advance_only b (struct_pattern e).
Proof. intros st H. unfold struct_pattern. prun. Qed.
Local Hint Resolve struct_pattern_spec variant_pattern_spec : parser_specs.
Lemma match_pattern_spec : progress f (match_pattern rec_primary fuel).
Proof. intros st H. unfold match_pattern, comparison_pattern. prun. Qed.
Lemma match_guard_spec : advance_only f (match_guard rec_expression).
Proof. intros st H. unfold match_guard. prun. Qed.
Lemma match_result_spec : advance_only f (match_result rec_expression rec_statement fuel).
Proof. intros st H. unfold match_result. prun. Qed.
Local Hint Resolve match_pattern_spec match_guard_spec match_result_spec : parser_specs.
Lemma match_cases_spec n : advance_only (f `min` n) (match_cases rec_expression rec_primary rec_statement fuel n).
Proof. induction n as [|n IH]; intros st H; [lia|]. cbn [match_cases]. prun. Qed.
Local Hint Resolve match_cases_spec : parser_specs.
Lemma parse_match_spec : progress (S f) (parse_match rec_expression rec_primary rec_statement fuel).
Proof. intros st H. unfold parse_match. prun. Qed.
Local Hint Resolve parse_match_spec : parser_specs.

Lemma expression_p_spec : progress (S f) (expression_p rec_expression rec_primary rec_statement fuel).
Proof. unfold expression_p. apply (parse_expression_spec ts closed); [done|done|apply parse_block_spec|apply parse_match_spec]. Qed.
Lemma type_p_spec : progress (S f) (type_p rec_expression fuel).
Proof. by apply (type_spec ts closed). Qed.
Local Hint Resolve expression_p_spec type_p_spec : parser_specs.


Lemma parse_expression_statement_spec : progress (S f) (parse_expression_statement rec_expression rec_primary rec_statement fuel).
Proof. intros st H. unfold parse_expression_statement. prun. Qed.
Lemma parse_if_spec n : progress (S f `min` n) (parse_if rec_expression rec_primary rec_statement fuel n).
Proof. induction n as [|n IH]; intros st H; [lia|]. cbn [parse_if]. prun. Qed.
Lemma parse_ensure_spec : progress (S f) (parse_ensure rec_expression rec_primary rec_statement fuel).
Proof. intros st H. unfold parse_ensure. prun. Qed.
Lemma parse_while_spec : progress (S f) (parse_while rec_expression rec_primary rec_statement fuel).
Proof. intros st H. unfold parse_while. prun. Qed.
Lemma parse_async_for_spec : progress (S f) (parse_async_for rec_expression rec_primary rec_statement fuel).
Proof. intros st H. unfold parse_async_for. prun. Qed.
Local Hint Resolve parse_expression_statement_spec parse_if_spec parse_ensure_spec parse_while_spec parse_async_for_spec : parser_specs.

Lemma declared_types_spec n : progress (S f `min` n) (declared_types rec_expression fuel n).
Proof. induction n as [|n IH]; intros st H; [lia|]. cbn [declared_types]. prun. Qed.
Lemma tuple_type_spec b l tys : advance_only b (tuple_type l tys).
Proof. intros st H. unfold tuple_type. prun. Qed.
Lemma declaration_separator_spec b : advance_only b declaration_separator.
Proof. apply separator_spec. Qed.
Lemma optional_initializer_spec : advance_only (S f) (optional_initializer rec_expression rec_primary rec_statement fuel).
Proof. intros st H. unfold optional_initializer. prun. Qed.
Lemma declared_name_spec b m : progress b (declared_name m).
Proof. intros st H. unfold declared_name. prun. Qed.
Local Hint Resolve declared_types_spec tuple_type_spec declaration_separator_spec optional_initializer_spec declared_name_spec : parser_specs.
Lemma auto_decl_spec l : progress (S f) (auto_decl rec_expression rec_primary rec_statement fuel l).
Proof. intros st H. unfold auto_decl. prun. Qed.
Lemma legacy_var_decl_spec l : progress (S f) (legacy_var_decl rec_expression rec_primary rec_statement fuel l).
Proof. intros st H. unfold legacy_var_decl. prun. Qed.
Lemma const_decl_spec l : progress (S f) (const_decl rec_expression rec_primary rec_statement fuel l).
Proof. intros st H. unfold const_decl. prun. Qed.
Lemma unified_names_spec n l : progress (S f `min` n) (unified_names rec_expression fuel n l).
Proof. induction n as [|n IH]; intros st H; [lia|]. cbn [unified_names]. prun. Qed.
Lemma shared_declarations_spec b l c e ns : advance_only b (shared_declarations l c e ns).
Proof. induction ns as [|[i ty] ns IH]; intros st H; cbn [shared_declarations]; prun. Qed.
Local Hint Resolve auto_decl_spec legacy_var_decl_spec const_decl_spec unified_names_spec shared_declarations_spec : parser_specs.
Lemma unified_decl_spec l : progress (S f) (unified_decl rec_expression rec_primary rec_statement fuel l).
Proof. intros st H. unfold unified_decl. prun. Qed.
Local Hint Resolve unified_decl_spec : parser_specs.
Lemma parse_var_decl_spec : progress (S f) (parse_var_decl rec_expression rec_primary rec_statement fuel).
Proof. intros st H. unfold parse_var_decl. prun. Qed.
Local Hint Resolve parse_var_decl_spec : parser_specs.

Lemma relaxed_declaration_spec st : remaining st < S f ->
  runs ts (relaxed_declaration rec_expression rec_primary rec_statement fuel)
    (fun r st' => match r with Some _ => remaining st' < remaining st | None => remaining st' = remaining st end) st.
Proof. intros H. unfold relaxed_declaration, relaxed_syntax. prun. Qed.
Lemma skipped_types_spec n : progress (S f `min` n) (skipped_types rec_expression fuel n).
Proof. induction n as [|n IH]; intros st H; [lia|]. cbn [skipped_types]. prun. Qed.
Local Hint Resolve skipped_types_spec : parser_specs.
Lemma looks_like_generic_call_spec st : remaining st < S f ->
  runs ts (looks_like_generic_call rec_expression fuel) (fun _ st' => remaining st' = remaining st) st.
Proof. intros H. unfold looks_like_generic_call. prun. Qed.
Lemma skip_annotation_spec n d : advance_only n (skip_annotation n d).
Proof. revert d. induction n as [|n IH]; intros d st H; [lia|]. cbn [skip_annotation]. prun. Qed.
Local Hint Resolve skip_annotation_spec : parser_specs.
Lemma destructured_names_spec n : advance_only (S f `min` n) (destructured_names fuel n).
Proof. induction n as [|n IH]; intros st H; [lia|]. cbn [destructured_names]. prun. Qed.
Lemma destructure_separator_spec b : advance_only b destructure_separator.
Proof. intros st H. unfold destructure_separator. prun. Qed.
Local Hint Resolve destructured_names_spec destructure_separator_spec : parser_specs.
Lemma tuple_destructure_spec st : remaining st < S f ->
  runs ts (try_parse_tuple_destructure rec_expression rec_primary rec_statement fuel)
    (fun r st' => match r with Some _ => remaining st' < remaining st | None => remaining st' = remaining st end) st.
Proof. intros H. unfold try_parse_tuple_destructure, make. prun. Qed.

Lemma for_initializer_spec : advance_only (S f) (for_initializer rec_expression rec_primary rec_statement fuel).
Proof. intros st H. unfold for_initializer, relaxed_syntax. prun. Qed.
Lemma for_clause_spec ty : advance_only (S f) (for_clause rec_expression rec_primary rec_statement fuel ty).
Proof. intros st H. unfold for_clause. prun. Qed.
Local Hint Resolve for_initializer_spec for_clause_spec : parser_specs.
Lemma c_style_for_spec l : progress (S f) (c_style_for rec_expression rec_primary rec_statement fuel l).
Proof. intros st H. unfold c_style_for. prun. Qed.
Lemma for_in_loop_spec l t : progress (S f) (for_in_loop rec_expression rec_primary rec_statement fuel l t).
Proof. intros st H. unfold for_in_loop. prun. Qed.
Local Hint Resolve c_style_for_spec for_in_loop_spec : parser_specs.
Lemma parse_for_spec : progress (S f) (parse_for rec_expression rec_primary rec_statement fuel).
Proof. intros st H. unfold parse_for. prun. Qed.
Local Hint Resolve parse_for_spec : parser_specs.

Lemma returned_values_spec n : advance_only (S f `min` n) (returned_values rec_expression rec_primary rec_statement fuel n).
Proof. induction n as [|n IH]; intros st H; [lia|]. cbn [returned_values]. prun. Qed.
Local Hint Resolve returned_values_spec : parser_specs.
Lemma parse_return_spec : progress (S f) (parse_return rec_expression rec_primary rec_statement fuel).
Proof. intros st H. unfold parse_return. prun. Qed.
Lemma parse_pass_spec : progress (S f) (parse_pass rec_expression rec_primary rec_statement fuel).
Proof. intros st H. unfold parse_pass. prun. Qed.
Lemma jump_label_spec b : advance_only b jump_label.
Proof. intros st H. unfold jump_label. prun. Qed.
Local Hint Resolve jump_label_spec : parser_specs.
Lemma parse_break_spec b : progress b parse_break.
Proof. intros st H. unfold parse_break. prun. Qed.
Lemma parse_continue_spec b : progress b parse_continue.
Proof. intros st H. unfold parse_continue. prun. Qed.
Lemma parse_freedom_spec : progress (S f) (parse_freedom rec_statement fuel).
Proof. intros st H. unfold parse_freedom. prun. Qed.
Lemma required_spec b m l e : advance_only b (required m l e).
Proof. intros st H. unfold required. prun. Qed.
Local Hint Resolve required_spec : parser_specs.
Lemma parse_fail_spec : progress (S f) (parse_fail rec_expression rec_primary rec_statement fuel).
Proof. intros st H. unfold parse_fail. prun. Qed.
Lemma parse_panic_spec : progress (S f) (parse_panic rec_expression rec_primary rec_statement fuel).
Proof. intros st H. unfold parse_panic. prun. Qed.
Lemma parse_exit_spec : progress (S f) (parse_exit rec_expression rec_primary rec_statement fuel).
Proof. intros st H. unfold parse_exit. prun. Qed.
Lemma parse_assert_spec : progress (S f) (parse_assert rec_expression rec_primary rec_statement fuel).
Proof. intros st H. unfold parse_assert. prun. Qed.
Lemma parse_refail_spec : progress (S f) (parse_refail rec_expression rec_primary rec_statement fuel).
Proof. intros st H. unfold parse_refail. prun. Qed.
Lemma parse_defer_spec : progress (S f) (parse_defer rec_expression rec_primary rec_statement fuel).
Proof. intros st H. unfold parse_defer. prun. Qed.
Lemma parse_await_spec : progress (S f) (parse_await rec_expression rec_primary rec_statement fuel).
Proof. intros st H. unfold parse_await. prun. Qed.
Local Hint Resolve parse_return_spec parse_pass_spec parse_break_spec parse_continue_spec parse_freedom_spec parse_fail_spec
  parse_panic_spec parse_exit_spec parse_assert_spec parse_refail_spec parse_defer_spec parse_await_spec : parser_specs.

(** ** Try *)

Lemma with_sub_parser_spec {A} (m : parser A) (Q : A -> ParseState -> Prop) st :
  (forall st1, remaining st1 = remaining st -> runs ts m (fun a st' =>
     forall st2, stream st2 = stream st' -> Q a st2) st1) -> runs ts (with_sub_parser m) Q st.
Proof.
  intros H W. set (st1 := mkPState (stream st) (node_counter st) (set_statement_parser valid_parser (env st))).
  specialize (H st1 eq_refl (within_stream _ _ st1 W eq_refl)). unfold with_sub_parser. fold st1.
  destruct (m st1) as [[a st'|e st']|]; [|by apply (within_stream _ st')|done].
  destruct H as [W' H]. split; [by apply (within_stream _ st')|by apply H].
Qed.

Lemma sub_parser_spec : consumes_or_ends ts f (with_sub_parser rec_statement).
Proof.
  intros st H. apply with_sub_parser_spec. intros st1 R1. eapply runs_mono; [apply statement_spec; lia|].
  cbv beta. intros s st' H' st2 E. unfold remaining, at_end, ahead in *. rewrite E, <- R1. exact H'.
Qed.
Local Hint Resolve sub_parser_spec : parser_specs.
Lemma try_block_spec m : progress (S f) (try_block rec_statement fuel m).
Proof. intros st H. unfold try_block. prun. Qed.
Lemma catch_name_spec : advance_only (S f) (catch_name rec_expression fuel).
Proof. intros st H. unfold catch_name. prun. Qed.
Lemma skip_parameters_spec n d : advance_only n (skip_parameters n d).
Proof. revert d. induction n as [|n IH]; intros d st H; [lia|]. cbn [skip_parameters]. prun. Qed.
Lemma skip_to_dedent_spec n : advance_only n (skip_to_dedent n).
Proof.
  induction n as [|n IH]; intros st H; [lia|]. cbn [skip_to_dedent]. pstep.
  apply at_end_or_spec; [prun|]. intros ? ?. prun.
Qed.
Local Hint Resolve try_block_spec catch_name_spec skip_parameters_spec skip_to_dedent_spec : parser_specs.
Lemma skip_catches_spec n : advance_only (S f `min` n) (skip_catches rec_statement fuel n).
Proof. induction n as [|n IH]; intros st H; [lia|]. cbn [skip_catches]. prun. Qed.
Local Hint Resolve skip_catches_spec : parser_specs.
Lemma parse_try_spec : progress (S f) (parse_try rec_expression rec_statement fuel).
Proof. intros st H. unfold parse_try. prun. Qed.
Local Hint Resolve parse_try_spec : parser_specs.

(** ** Statements *)

Context (parse_function parse_extern_block parse_class_declaration parse_template_declaration : parser (option Statement)).
Hypothesis function_spec : progress (S f) parse_function.
Hypothesis extern_block_spec : progress (S f) parse_extern_block.
Hypothesis class_spec : progress (S f) parse_class_declaration.
Hypothesis template_spec : progress (S f) parse_template_declaration.
Local Hint Resolve function_spec extern_block_spec class_spec template_spec : parser_specs.

Local Hint Resolve trap_clauses_spec ensure_clause_spec : parser_specs.
Lemma block_statement_spec : progress (S f) (block_statement rec_statement fuel).
Proof. intros st H. unfold block_statement. prun. Qed.
Lemma some_statement_spec b m : progress b m -> progress b (some_statement m).
Proof. intros Hm st H. unfold some_statement. prun. Qed.
Local Hint Resolve block_statement_spec some_statement_spec : parser_specs.

(** Forms that may fall through to the next one. *)
Local Notation falls_through m := (forall st, remaining st < S f -> runs ts m
  (fun r st' => match r with Some _ => remaining st' < remaining st | None => remaining st' = remaining st end) st).

Lemma labeled_loop_spec t : falls_through (labeled_loop rec_expression rec_primary rec_statement fuel t).
Proof. intros st H. unfold labeled_loop. prun. Qed.
Lemma lambda_declaration_spec t st : 0 < remaining st -> remaining st < S f ->
  runs ts (lambda_declaration rec_expression rec_primary rec_statement fuel t)
    (fun r st' => match r with Some _ => remaining st' < remaining st | None => remaining st' = remaining st end) st.
Proof. intros N H. unfold lambda_declaration, make. prun. Qed.
Lemma inferred_declaration_spec t : falls_through (inferred_declaration rec_expression rec_primary rec_statement fuel t).
Proof. intros st H. unfold inferred_declaration, make. prun. Qed.
Lemma fallback_statement_spec t : progress (S f) (fallback_statement rec_expression rec_primary rec_statement fuel t).
Proof. intros st H. unfold fallback_statement. prun. Qed.
Local Hint Resolve fallback_statement_spec : parser_specs.

Lemma identifier_statement_spec t st : 0 < remaining st -> remaining st < S f ->
  runs ts (identifier_statement rec_expression rec_primary rec_statement fuel t)
    (fun _ st' => remaining st' < remaining st) st.
Proof.
  intros N H. unfold identifier_statement. do 2 pstep. pstep.
  { pstep. eapply runs_mono; [by apply looks_like_generic_call_spec|]. cbv beta. intros g st1 H1. prun. }
  assert (R : forall st1, remaining st1 = remaining st -> runs ts
    (r ← relaxed_declaration rec_expression rec_primary rec_statement fuel;
     match r with
     | Some s => mret s
     | None => d ← try_parse_tuple_destructure rec_expression rec_primary rec_statement fuel;
         match d with Some s => mret (Some s) | None => fallback_statement rec_expression rec_primary rec_statement fuel t end
     end) (fun _ st' => remaining st' < remaining st) st1).
  { intros st1 H1. pstep. eapply runs_mono; [apply relaxed_declaration_spec; lia|]. cbv beta. intros [s|] st2 H2; [prun|].
    pstep. eapply runs_mono; [apply tuple_destructure_spec; lia|]. cbv beta. intros [s|] st3 H3; prun. }
  pstep. destruct (type a =t EQ).
  2: { pstep. pstep. pstep. by apply R. }
  eapply runs_mono; [by apply lambda_declaration_spec|]. cbv beta. intros [s|] st1 H1; [prun|].
  pstep. eapply runs_mono; [apply inferred_declaration_spec; lia|]. cbv beta. intros [s|] st2 H2; [prun|]. apply R. lia.
Qed.

Lemma statement_by_token_spec t st : (type t <> END_OF_FILE -> 0 < remaining st) -> remaining st < S f ->
  runs ts (statement_by_token rec_expression rec_primary rec_statement fuel
             parse_function parse_extern_block parse_class_declaration parse_template_declaration t)
    (fun _ st' => remaining st' < remaining st) st.
Proof.
  intros N H. unfold statement_by_token, declaration.
  destruct (type t); seen_tokens; try (apply identifier_statement_spec; done); prun.
Qed.

Lemma parse_statement_spec : consumes_or_ends ts (S f)
  (parse_statement rec_expression rec_primary rec_statement fuel
     parse_function parse_extern_block parse_class_declaration parse_template_declaration).
Proof.
  intros st H. unfold parse_statement. do 2 pstep. do 2 pstep. do 2 pstep.
  { prun. split; [lia|by right]. }
  pstep. pstep. pstep.
  { unfold throw_statement. prun. }
  pstep. eapply runs_mono; [apply labeled_loop_spec; lia|]. cbv beta. intros [s|] st3 R3; [prun; lia|].
  do 2 pstep. pstep; [prun|]. eapply runs_mono; [apply statement_by_token_spec; [by rewrite R3|lia]|]. cbv beta. intros. lia.
Qed.
End StmtRuns.
