(* ===== verification/DeclParser.v ===== *)
(** * The declaration parser

    src/parser/declaration_parser.cpp: one definition per method of
    [DeclarationParser], the loops of a method as definitions of their own. The
    type, expression and statement parsers it is constructed with are
    arguments. Function bodies are parsed by a statement parser on the stack
    ([with_sub_parser]).

    Two things depend on the platform and are parameters: the order in which
    the compiler evaluates the arguments of a call ([args_ltr]: left to right),
    which decides whether a name gets the position before or after it, and
    whether the C library's [strtoll] knows the prefix [0b] ([c23_strtoll]). *)

From S2P Require Import Prelude.
From S2P Require Import Token.
From S2P Require Import Ast.
From S2P Require Import AstTypes.
From S2P Require Import IntTypes.
From S2P Require Import TokenStream.
From S2P Require Import ParserMonad.
From S2P Require Import TypeParser.
From S2P Require Import ExprParser.
From S2P Require Import StmtParser.

(** ** Helpers *)

(** [throw std::runtime_error(message + location_to_string(current_location()))] *)
Definition throw_here {A} (message : str) : parser A :=
  l ← location_p; throw_p (message ++ location_to_string l).

(** [DeclarationParser::IsOperator] *)
Definition is_operator_token (t : Token) : bool :=
  type_in t [PLUS; MINUS; MULTIPLY; DIVIDE; MODULO; EQEQ; NOTEQ; LT; GT; LTEQ; GTEQ; AND; OR; AMPERSAND; PIPE; CARET;
             LSHIFT; RSHIFT; TILDE; LBRACKET].

(** [std::strtoll(s, nullptr, 0)] on a text that starts with a digit: the
    prefix selects the base, and a value that does not fit is the largest one. *)
Definition strtoll0 (c23_strtoll : bool) (s : str) : Z :=
  let prefixed (lower upper : ascii) (base : Z) (s : str) : bool :=
    match s with
    | z :: x :: d :: _ => (z =c "0") && ((x =c lower) || (x =c upper)) && bool_decide (is_Some (digit_in base d))
    | _ => false
    end in
  let v :=
    if prefixed "x"%char "X"%char 16%Z s then digits_value 16 0 (drop 2 s)
    else if c23_strtoll && prefixed "b"%char "B"%char 2%Z s then digits_value 2 0 (drop 2 s)
    else match s with
         | z :: _ => if z =c "0" then digits_value 8 0 s else digits_value 10 0 s
         | [] => 0%Z
         end in
  Z.min v (2 ^ 63 - 1).

(** ** Telling declarations apart *)

(** The scan to the closing token: the index after it, or none. *)
Fixpoint close_scan (open_ close : TokenType) (depth : Z) (l : list Token) (look_pos : nat) : option nat :=
  match l with
  | [] => if (depth <=? 0)%Z then Some look_pos else None
  | t :: l' =>
      if (depth <=? 0)%Z then Some look_pos
      else close_scan open_ close (if type t =t open_ then depth + 1 else if type t =t close then depth - 1 else depth)%Z
             l' (S look_pos)
  end.

(** [name(params)<ReturnType> ->] from index [pos] on. *)
Definition is_function_declaration_context (ts : list Token) (pos : nat) : bool :=
  if token_is ts pos Token.IDENTIFIER && token_is ts (S pos) LPAREN then
    match close_scan LPAREN RPAREN 1 (drop (S (S pos)) ts) (S (S pos)) with
    | None => false
    | Some look_pos =>
        if token_is ts look_pos LT then
          match close_scan LT GT 1 (drop (S look_pos) ts) (S look_pos) with
          | None => false
          | Some look_pos' => token_is ts look_pos' ARROW
          end
        else token_is ts look_pos ARROW
    end
  else false.

Section DeclParser.
Variables (args_ltr c23_strtoll : bool).
Variables (expression_p : parser (option Expression)) (type_p : parser TypeNode).
Variables (parse_block : parser Block) (rec_statement : parser (option Statement)).
Variable fuel : nat.

(** The arguments [current_location()] and [consume()] of one call. *)
Definition located_token : parser (SourceLocation * Token) :=
  if args_ltr then l ← location_p; t ← consume_p; mret (l, t)
  else t ← consume_p; l ← location_p; mret (l, t).

Definition consumed_identifier : parser Identifier :=
  '(l, t) ← located_token; make l (fun n => mkIdentifier n (lexeme t)).
Definition consumed_string : parser StringLit :=
  '(l, t) ← located_token; make l (fun n => mkStringLit n (lexeme t)).

(** An identifier must come next. *)
Definition named (message : str) : parser Identifier :=
  t ← peek_p;
  if type t =t Token.IDENTIFIER then consumed_identifier else throw_here message.

(** ** Generic parameters *)

(** A bound: a type that is one name. *)
Definition aspect_bound (message : str) : parser (option TypeNode) :=
  bound_loc ← location_p;
  t ← peek_p;
  if type t =t Token.IDENTIFIER then
    aspect_name ← consume_p;
    i ← make bound_loc (fun n => mkIdentifier n (lexeme aspect_name));
    make bound_loc (fun n => Some (TypeName n (Some i) []))
  else throw_p (message ++ location_to_string bound_loc).

(** [do { ... } while (match(separator))] over bounds. *)
Fixpoint aspect_bounds (n : nat) (separator : TokenType) (message : str) : parser (list (option TypeNode)) :=
  match n with
  | O => no_fuel
  | S n' =>
      b ← aspect_bound message;
      c ← match_p separator;
      if c : bool then bs ← aspect_bounds n' separator message; mret (b :: bs) else mret [b]
  end.

(** [<A, B>] or [: A + B], or nothing. *)
Definition optional_bounds (angle_message colon_message : str) : parser (list (option TypeNode)) :=
  lt ← match_p LT;
  if lt : bool then bs ← aspect_bounds fuel COMMA angle_message; _ ← expect_p GT; mret bs
  else
    c ← match_p COLON;
    if c : bool then aspect_bounds fuel PLUS colon_message else mret [].

Fixpoint generic_parameters (n : nat) : parser (list (option GenericParameter)) :=
  match n with
  | O => no_fuel
  | S n' =>
      param_loc ← location_p;
      t ← peek_p;
      if type t =t Token.IDENTIFIER then
        u ← consume_p;
        param_name ← make param_loc (fun n => mkIdentifier n (lexeme u));
        bounds ← optional_bounds $"Expected aspect name for bound after '<' at " $"Expected aspect name for bound after ':' at ";
        p ← make param_loc (fun n => Some (mkGenericParameter n (Some param_name) bounds));
        c ← match_p COMMA;
        if c : bool then ps ← generic_parameters n'; mret (p :: ps) else mret [p]
      else throw_p ($"Expected identifier for generic parameter name at " ++ location_to_string param_loc)
  end.

Definition parse_generic_params : parser (list (option GenericParameter)) :=
  lt ← match_p LT;
  if lt : bool then ps ← generic_parameters fuel; _ ← expect_p GT; mret ps else mret [].

(** ** Parameters *)

(** A default value is parsed and dropped. *)
Definition default_value (i : Identifier) : parser () :=
  eq ← match_p EQ;
  if eq : bool then
    e ← expression_p;
    match e with
    | None => throw_here ($"Expected expression for default value of parameter \'" ++ name i ++ $"\' at ")
    | Some _ => mret tt
    end
  else mret tt.

(** [var<Type> name], [const<Type> name] after the keyword. *)
Definition legacy_parameter (is_mutable : bool) : parser FunctionParameter :=
  _ ← expect_p LT;
  type_annot ← type_p;
  _ ← expect_p GT;
  i ← named $"Expected parameter name (identifier) after type at ";
  _ ← default_value i;
  mret (mkFunctionParameter i (Some type_annot) is_mutable).

(** [name<Type const>]: whether the modifier is there. *)
Definition const_modifier (keyword_too : bool) : parser bool :=
  t ← peek_p;
  if ((type t =t Token.IDENTIFIER) && (lexeme t =s $"const")) || (keyword_too && (type t =t KEYWORD_CONST))
  then _ ← consume_p; mret true else mret false.

Definition unified_parameter : parser FunctionParameter :=
  i ← consumed_identifier;
  _ ← expect_p LT;
  type_annot ← type_p;
  k ← const_modifier false;
  _ ← expect_p GT;
  _ ← default_value i;
  mret (mkFunctionParameter i (Some type_annot) (negb k)).

Definition relaxed_parameter : parser FunctionParameter :=
  type_annot ← type_p;
  i ← named $"Expected parameter name (identifier) after type at ";
  _ ← default_value i;
  mret (mkFunctionParameter i (Some type_annot) true).

Definition self_parameter (l : SourceLocation) : parser FunctionParameter :=
  i ← consumed_identifier;
  s ← make l (fun n => mkIdentifier n $"Self");
  ty ← make l (fun n => TypeName n (Some s) []);
  mret (mkFunctionParameter i (Some ty) true).

Definition parse_function_parameter_struct : parser FunctionParameter :=
  l ← location_p;
  c ← match_p KEYWORD_CONST;
  if c : bool then legacy_parameter false
  else
    v ← match_p KEYWORD_VAR;
    if v : bool then legacy_parameter true
    else
      r ← reserved_name_p [COMMA; RPAREN; EQ];
      t ← peek_p;
      if r : bool then throw_here ($"'" ++ lexeme t ++ $"' is a reserved word and cannot be used as a parameter name at ")
      else if type t =t Token.IDENTIFIER then
        lookahead ← peek_next_p;
        if (lexeme t =s $"self") && type_in lookahead [COMMA; RPAREN] then self_parameter l
        else if type lookahead =t LT then unified_parameter
        else relaxed_parameter
      else throw_here $"Expected parameter declaration at ".

(** [parse_param]: the type and the default value are dropped. *)
Definition parse_param : parser Identifier :=
  l ← location_p;
  t ← peek_p;
  if type t =t Token.IDENTIFIER then
    i ← consumed_identifier;
    _ ← expect_p COLON;
    _ ← type_p;
    _ ← default_value i;
    mret i
  else throw_p ($"Expected parameter name (identifier) at " ++ location_to_string l).

(** [do { ... } while (match(COMMA))]; a trailing [...] ends the list. *)
Fixpoint parameters (n : nat) (ellipsis : bool) : parser (list FunctionParameter * bool) :=
  match n with
  | O => no_fuel
  | S n' =>
      t ← peek_p;
      if ellipsis && (type t =t ELLIPSIS) then _ ← consume_p; mret ([], true)
      else
        p ← parse_function_parameter_struct;
        c ← match_p COMMA;
        if c : bool then '(ps, v) ← parameters n' ellipsis; mret (p :: ps, v) else mret ([p], false)
  end.

Definition parameter_list (ellipsis : bool) : parser (list FunctionParameter * bool) :=
  _ ← expect_p LPAREN;
  t ← peek_p;
  r ← (if type t =t RPAREN then mret ([], false) else parameters fuel ellipsis);
  _ ← expect_p RPAREN;
  mret r.

Definition parameter_name (p : FunctionParameter) : str := match p with mkFunctionParameter i _ _ => name i end.

Fixpoint declare_parameters (ps : list FunctionParameter) : parser () :=
  match ps with
  | [] => mret tt
  | p :: ps' => _ ← set_env (declareVariable (parameter_name p)); declare_parameters ps'
  end.

(** ** Functions *)

(** A name, or [operator] and a symbol. *)
Definition function_name : parser Identifier :=
  t ← peek_p;
  if type t =t Token.IDENTIFIER then
    _ ← consume_p;
    o ← peek_p;
    if (lexeme t =s $"operator") && is_operator_token o then
      op_token ← consume_p;
      make (location t) (fun n => mkIdentifier n (lexeme t ++ lexeme op_token))
    else make (location t) (fun n => mkIdentifier n (lexeme t))
  else if type t =t KEYWORD_OPERATOR then
    _ ← consume_p;
    o ← peek_p;
    if is_operator_token o then
      op_token ← consume_p;
      make (location t) (fun n => mkIdentifier n ($"operator" ++ lexeme op_token))
    else throw_here $"Expected operator symbol after 'operator' keyword at "
  else throw_here $"Expected function name at ".

Fixpoint return_types (n : nat) : parser (list (option TypeNode)) :=
  match n with
  | O => no_fuel
  | S n' =>
      t ← type_p;
      c ← match_p COMMA;
      if c : bool then ts ← return_types n'; mret (Some t :: ts) else mret [Some t]
  end.

(** [<T>], [<T, U>] as a tuple, or [Void] when there is none. *)
Definition return_type (reject_empty : bool) : parser TypeNode :=
  lt ← match_p LT;
  if lt : bool then
    t ← peek_p;
    if reject_empty && (type t =t GT) then
      throw_here $"empty return signature '<>' is invalid; omit the return signature for an implicit Void function at "
    else
      ts ← return_types fuel;
      _ ← expect_p GT;
      match ts with
      | [Some ty] => mret ty
      | _ => l ← location_p; make l (fun n => TupleTypeNode n ts)
      end
  else
    l ← location_p;
    i ← make l (fun n => mkIdentifier n $"Void");
    make l (fun n => TypeName n (Some i) []).

(** [throws E] is parsed and dropped. *)
Definition throws_clause : parser () :=
  t ← peek_p;
  if (type t =t Token.IDENTIFIER) && (lexeme t =s $"throws") then
    _ ← consume_p;
    e ← peek_p;
    if type e =t Token.IDENTIFIER then
      l ← location_p;
      u ← consume_p;
      i ← make l (fun n => mkIdentifier n (lexeme u));
      _ ← make l (fun n => TypeName n (Some i) []);
      mret tt
    else throw_here $"Expected error type after 'throws' at "
  else mret tt.

Definition type_named (t : TypeNode) (s : str) : bool :=
  match t with TypeName _ (Some i) _ => name i =s s | _ => false end.

(** The statements of an indented body; one [DEDENT] is consumed. *)
Definition indented_body : parser Block :=
  _ ← consume_p;
  ss ← indented_statements fuel (with_sub_parser rec_statement) fuel;
  t ← peek_p;
  _ ← (if type t =t DEDENT then _ ← consume_p; mret tt else mret tt);
  l ← location_p;
  block_stmt l ss.

(** A body in braces, indented, or none. *)
Definition block_body : parser (option Block) :=
  t ← peek_p;
  if type t =t LBRACE then b ← with_sub_parser parse_block; mret (Some b)
  else if type t =t INDENT then b ← indented_body; mret (Some b)
  else mret None.

(** The body of a function; a statement that starts with the name of the return
    type is one by itself. *)
Definition function_body (return_type_node : TypeNode) : parser (option Block) :=
  t ← peek_p;
  if type t =t Token.IDENTIFIER then
    if type_named return_type_node (lexeme t) then
      stmt_loc ← location_p;
      s ← with_sub_parser rec_statement;
      match s with
      | Some _ => b ← block_stmt stmt_loc [s]; mret (Some b)
      | None => mret None
      end
    else mret None
  else block_body.

(** [fn<ReturnType> name(params) -> body], after [fn]. *)
Definition legacy_function (l : SourceLocation) (is_async : bool) : parser Function_ :=
  return_type_node ← return_type false;
  i ← function_name;
  '(ps, _) ← parameter_list false;
  _ ← declare_parameters ps;
  _ ← expect_p ARROW;
  _ ← throws_clause;
  body ← function_body return_type_node;
  make l (fun n => mkFunction n (Some i) [] ps body is_async true false (Some return_type_node) 0).

(** [name<T>(params)<ReturnType> -> body]. *)
Definition unified_function (l : SourceLocation) (is_async : bool) : parser Function_ :=
  i ← function_name;
  generic_params ← parse_generic_params;
  '(ps, variadic) ← parameter_list true;
  _ ← declare_parameters ps;
  return_type_node ← return_type true;
  t ← peek_p;
  body ← (if type t =t ARROW then _ ← consume_p; _ ← throws_clause; function_body return_type_node else mret None);
  make l (fun n => mkFunction n (Some i) generic_params ps body is_async (type t =t ARROW) variadic
                     (Some return_type_node) 0).

Definition parse_function_unattributed : parser Function_ :=
  _ ← skip_indents_p;
  _ ← set_env resetFunctionScope;
  l ← location_p;
  is_async ← match_p KEYWORD_ASYNC;
  _ ← match_p KEYWORD_EXTERN;
  fn ← match_p KEYWORD_FN;
  if fn : bool then legacy_function l is_async else unified_function l is_async.

(** [@inline] and [@noinline]: the hint. *)
Fixpoint attributes (n : nat) (inline_hint : Z) : parser Z :=
  match n with
  | O => no_fuel
  | S n' =>
      t ← peek_p;
      if type t =t AT then
        at_loc ← location_p;
        _ ← consume_p;
        u ← peek_p;
        if type u =t Token.IDENTIFIER then
          attr ← consume_p;
          if in_names (lexeme attr) [$"inline"; $"noinline"] then
            let hint := if lexeme attr =s $"inline" then 1%Z else (-1)%Z in
            if negb (inline_hint =? 0)%Z && negb (inline_hint =? hint)%Z then
              throw_p ($"Conflicting attributes @inline and @noinline at " ++ location_to_string at_loc)
            else _ ← skip_p; _ ← skip_indents_p; attributes n' hint
          else throw_p ($"Unknown function attribute '@" ++ lexeme attr ++ $"' at " ++ location_to_string at_loc
                        ++ $" (expected @inline or @noinline)")
        else throw_p ($"Expected attribute name after '@' at " ++ location_to_string at_loc)
      else mret inline_hint
  end.

Definition set_inline_hint (hint : Z) (f : Function_) : Function_ :=
  match f with mkFunction n i g p b a d v r _ => mkFunction n i g p b a d v r hint end.

Definition parse_function_node : parser Function_ :=
  _ ← skip_indents_p;
  inline_hint ← attributes fuel 0;
  fn ← parse_function_unattributed;
  if (inline_hint =? 0)%Z then mret fn
  else
    match fn with
    | mkFunction _ i _ _ None _ _ _ _ _ =>
        throw_p ($"Attribute @" ++ (if (0 <? inline_hint)%Z then $"inline" else $"noinline")
                 ++ $" needs a function with a body ('" ++ match i with Some i => name i | None => $"?" end ++ $"')")
    | _ => mret (set_inline_hint inline_hint fn)
    end.

Definition parse_function : parser (option Statement) := f ← parse_function_node; mret (Some (FunctionDeclaration f)).

(** ** Structs *)

(** [#[repr(C)]] in front of a struct: whether it is there. *)
Definition repr_attribute : parser bool :=
  h ← match_p HASH;
  if h : bool then
    _ ← expect_p LBRACKET;
    t ← peek_p;
    if (type t =t Token.IDENTIFIER) && (lexeme t =s $"repr") then
      _ ← consume_p;
      _ ← expect_p LPAREN;
      c ← peek_p;
      if (type c =t Token.IDENTIFIER) && (lexeme c =s $"C") then
        _ ← consume_p;
        _ ← expect_p RPAREN;
        _ ← expect_p RBRACKET;
        _ ← skip_p;
        mret true
      else
        l ← location_p;
        throw_p ($"Unsupported repr attribute before struct at " ++ location_to_string l
                 ++ $". Only #[repr(C)] is currently supported.")
    else
      l ← location_p;
      throw_p ($"Unsupported attribute before struct at " ++ location_to_string l
               ++ $". Only #[repr(C)] is currently supported.")
  else mret false.

(** [cloneGenericParams] *)
Fixpoint clone_bounds (bs : list (option TypeNode)) : parser (list (option TypeNode)) :=
  match bs with
  | [] => mret []
  | None :: bs' => r ← clone_bounds bs'; mret (None :: r)
  | Some b :: bs' => c ← clone_p b; r ← clone_bounds bs'; mret (Some c :: r)
  end.

Fixpoint cloneGenericParams (gs : list (option GenericParameter)) : parser (list (option GenericParameter)) :=
  match gs with
  | [] => mret []
  | None :: gs' => r ← cloneGenericParams gs'; mret (None :: r)
  | Some (mkGenericParameter n nm bounds) :: gs' =>
      bs ← clone_bounds bounds;
      match nm with
      | None => undefined $"gp->name"
      | Some i =>
          i' ← make (loc (id_node i)) (fun nd => mkIdentifier nd (name i));
          g ← make (loc n) (fun nd => Some (mkGenericParameter nd (Some i') bs));
          r ← cloneGenericParams gs';
          mret (g :: r)
      end
  end.

(** The struct's own parameters as type arguments. *)
Fixpoint self_arguments (gs : list (option GenericParameter)) : parser (list (option TypeNode)) :=
  match gs with
  | [] => mret []
  | Some (mkGenericParameter n (Some i) _) :: gs' =>
      i' ← make (loc n) (fun nd => mkIdentifier nd (name i));
      t ← make (loc n) (fun nd => Some (TypeName nd (Some i') []));
      r ← self_arguments gs';
      mret (t :: r)
  | _ :: gs' => self_arguments gs'
  end.

(** [constructor (] ahead, layout tokens between them allowed. *)
Definition constructor_ahead (ts : list Token) (pos : nat) : bool :=
  let look := skip_layout ts pos in
  let look' := if token_is ts look Token.IDENTIFIER then S look else look in
  token_is ts (skip_layout ts look') LPAREN.

(** The number of the constructor is part of its name. *)
Definition parse_constructor (struct_name : str) (generic_params : list (option GenericParameter)) (index : nat) : parser Function_ :=
  ctor_loc ← location_p;
  _ ← consume_p;
  '(ps, _) ← parameter_list false;
  lt ← match_p LT;
  ctor_ret ← (if lt : bool then t ← type_p; _ ← expect_p GT; mret t
              else
                self_args ← self_arguments generic_params;
                i ← make ctor_loc (fun n => mkIdentifier n struct_name);
                make ctor_loc (fun n => TypeName n (Some i) self_args));
  _ ← match_p ARROW;
  ctor_body ← block_body;
  let ctor_name := $"__ctor_" ++ struct_name ++ $"_" ++ to_string (Z.of_nat index) in
  let ident := make ctor_loc (fun n => mkIdentifier n ctor_name) in
  let params := cloneGenericParams generic_params in
  '(i, gs) ← (if args_ltr then i ← ident; gs ← params; mret (i, gs) else gs ← params; i ← ident; mret (i, gs));
  f ← make ctor_loc (fun n => mkFunction n (Some i) gs ps ctor_body false true false (Some ctor_ret) 0);
  _ ← skip_p;
  t ← peek_p;
  _ ← (if type t =t COMMA then _ ← consume_p; _ ← skip_p; mret tt else mret tt);
  mret f.

(** [name<Type>], [name: Type] or [Type name]. *)
Definition struct_field (struct_name : str) : parser Field :=
  field_loc ← location_p;
  t ← peek_p;
  if type t =t Token.IDENTIFIER then
    firstIdent ← consume_p;
    u ← peek_p;
    '(i, ty) ←
      (if type u =t Token.IDENTIFIER then
         v ← consume_p;
         i ← make field_loc (fun n => mkIdentifier n (lexeme v));
         ti ← make field_loc (fun n => mkIdentifier n (lexeme firstIdent));
         ty ← make field_loc (fun n => TypeName n (Some ti) []);
         mret (i, ty)
       else
         i ← make field_loc (fun n => mkIdentifier n (lexeme firstIdent));
         if type u =t COLON then _ ← consume_p; ty ← type_p; mret (i, ty)
         else _ ← expect_p LT; ty ← type_p; _ ← expect_p GT; mret (i, ty));
    make field_loc (fun n => mkField n (Some i) (Some ty) None false)
  else
    l ← location_p;
    let lex := match lexeme t with [] => $"<token>" | lx => lx end in
    if isReservedWordToken (type t) then
      throw_p ($"'" ++ lex ++ $"' is a reserved word and cannot be used as a field name in struct '" ++ struct_name
               ++ $"' at " ++ location_to_string l)
    else throw_p ($"Expected field name in struct '" ++ struct_name ++ $"' at " ++ location_to_string l
                  ++ $" (found '" ++ lex ++ $"')").

(** What follows a field: whether the loop goes on. *)
Definition after_field (struct_name : str) : parser bool :=
  _ ← skip_p;
  c ← match_p COMMA;
  if c : bool then
    _ ← skip_p;
    t ← peek_p;
    mret (negb (type t =t RBRACE))
  else
    t ← peek_p;
    if (type t =t RBRACE) || ((type t =t Token.IDENTIFIER) && (lexeme t =s $"constructor")) then mret true
    else throw_here ($"Expected comma or closing brace after struct field in '" ++ struct_name ++ $"' at ").

(** The fields and constructors; [index] constructors have been read. *)
Fixpoint struct_members (n : nat) (struct_name : str) (generic_params : list (option GenericParameter)) (index : nat) :
    parser (list (option Field) * list (option Function_)) :=
  match n with
  | O => no_fuel
  | S n' =>
      t ← peek_p;
      if type_in t [RBRACE; END_OF_FILE] then mret ([], [])
      else
        ts ← tokens_p;
        pos ← get_pos_p;
        if (type t =t Token.IDENTIFIER) && (lexeme t =s $"constructor") && constructor_ahead ts pos then
          f ← parse_constructor struct_name generic_params index;
          '(fs, cs) ← struct_members n' struct_name generic_params (S index);
          mret (fs, Some f :: cs)
        else
          fd ← struct_field struct_name;
          more ← after_field struct_name;
          if more : bool then
            '(fs, cs) ← struct_members n' struct_name generic_params index;
            mret (Some fd :: fs, cs)
          else mret ([Some fd], [])
  end.

Definition parse_struct : parser Statement :=
  l0 ← location_p;
  reprC ← repr_attribute;
  l ← (if reprC : bool then location_p else mret l0);
  _ ← expect_p KEYWORD_STRUCT;
  i ← named $"Expected struct name at ";
  generic_params ← parse_generic_params;
  _ ← expect_p LBRACE;
  '(fields, constructors) ← struct_members fuel (name i) generic_params 0;
  _ ← expect_p RBRACE;
  make l (fun n => StructDeclaration n (Some i) generic_params fields constructors reprC).

(** ** Aspects and bindings *)

(** [match(COMMA); match(SEMICOLON); skip_comments_and_newlines();] *)
Definition after_member : parser () := _ ← match_p COMMA; _ ← match_p SEMICOLON; skip_p.

Fixpoint super_aspects (n : nat) (aspect_name : str) : parser (list (option Identifier)) :=
  match n with
  | O => no_fuel
  | S n' =>
      i ← named ($"Expected super-aspect name (identifier) after ':' in aspect '" ++ aspect_name ++ $"' at ");
      c ← match_p COMMA;
      if c : bool then is' ← super_aspects n' aspect_name; mret (Some i :: is') else mret [Some i]
  end.

Definition associated_bound (message : str) : parser (option TypeNode) :=
  t ← peek_p;
  if type t =t Token.IDENTIFIER then
    bound_loc ← location_p;
    u ← consume_p;
    i ← make bound_loc (fun n => mkIdentifier n (lexeme u));
    make bound_loc (fun n => Some (TypeName n (Some i) []))
  else throw_here message.

Fixpoint associated_bounds (n : nat) (separator : TokenType) (message : str) : parser (list (option TypeNode)) :=
  match n with
  | O => no_fuel
  | S n' =>
      b ← associated_bound message;
      c ← match_p separator;
      if c : bool then bs ← associated_bounds n' separator message; mret (b :: bs) else mret [b]
  end.

(** [type Item<A, B> = Default], after [type]: the name, the constraints and the default. *)
Definition associated_type (aspect_name : str) (associated_type_loc : SourceLocation) :
    parser (Identifier * list (option TypeNode) * option TypeNode) :=
  t ← peek_p;
  if type t =t Token.IDENTIFIER then
    u ← consume_p;
    i ← make associated_type_loc (fun n => mkIdentifier n (lexeme u));
    lt ← match_p LT;
    constraints ←
      (if lt : bool then
         bs ← associated_bounds fuel COMMA $"Expected aspect name for associated type bound after '<' at ";
         _ ← expect_p GT; mret bs
       else
         c ← match_p COLON;
         if c : bool then associated_bounds fuel PLUS $"Expected aspect name for associated type bound after ':' at "
         else mret []);
    eq ← match_p EQ;
    d ← (if eq : bool then ty ← type_p; mret (Some ty) else mret None);
    mret (i, constraints, d)
  else throw_here ($"Expected associated type name in aspect '" ++ aspect_name ++ $"' at ").

(** The members: associated types on the left, methods on the right. *)
Fixpoint aspect_members (n : nat) (aspect_name : str) :
    parser (list (Identifier * list (option TypeNode) * option TypeNode) * list (option Function_)) :=
  match n with
  | O => no_fuel
  | S n' =>
      t ← peek_p;
      if type_in t [RBRACE; END_OF_FILE] then mret ([], [])
      else if type t =t KEYWORD_TYPE then
        l ← location_p;
        _ ← consume_p;
        a ← associated_type aspect_name l;
        _ ← after_member;
        '(ts, ms) ← aspect_members n' aspect_name;
        mret (a :: ts, ms)
      else
        m ← parse_function_node;
        _ ← after_member;
        '(ts, ms) ← aspect_members n' aspect_name;
        mret (ts, Some m :: ms)
  end.

Definition parse_trait_declaration : parser Statement :=
  l ← location_p;
  _ ← expect_p KEYWORD_ASPECT;
  i ← named $"Expected trait name (identifier) at ";
  generic_params ← parse_generic_params;
  t ← peek_p;
  super_types ← (if type t =t COLON then _ ← consume_p; super_aspects fuel (name i) else mret []);
  _ ← expect_p LBRACE;
  _ ← skip_p;
  '(ts, methods) ← aspect_members fuel (name i);
  _ ← expect_p RBRACE;
  make l (fun n => AspectDeclaration n (Some i) generic_params super_types
    (map (fun a => Some a.1.1) ts) (map (fun a => a.2) ts) (map (fun a => a.1.2) ts) methods).

Fixpoint bind_members (n : nat) : parser (list (option Identifier * option TypeNode) * list (option Function_)) :=
  match n with
  | O => no_fuel
  | S n' =>
      b ← check_p RBRACE;
      e ← at_end_p;
      if b || e then mret ([], [])
      else
        t ← peek_p;
        if type t =t KEYWORD_TYPE then
          _ ← consume_p;
          i ← named $"Expected associated type name in bind block at ";
          eq ← match_p EQ;
          if eq : bool then
            ty ← type_p;
            _ ← after_member;
            '(ts, ms) ← bind_members n';
            mret ((Some i, Some ty) :: ts, ms)
          else throw_here $"Expected '=' after associated type name in bind block at "
        else
          m ← parse_function_node;
          _ ← after_member;
          '(ts, ms) ← bind_members n';
          mret (ts, Some m :: ms)
  end.

Definition parse_impl : parser Statement :=
  l ← location_p;
  _ ← expect_p KEYWORD_BIND;
  generic_params ← parse_generic_params;
  first ← type_p;
  a ← match_p ARROW;
  '(trait_type, self_type) ← (if a : bool then s ← type_p; mret (Some first, s) else mret (None, first));
  _ ← expect_p LBRACE;
  '(bindings, methods) ← bind_members fuel;
  _ ← expect_p RBRACE;
  make l (fun n => BindDeclaration n None generic_params trait_type (Some self_type) bindings methods).

(** ** Enums *)

Definition variant_types : parser (list (option TypeNode)) :=
  lp ← match_p LPAREN;
  if lp : bool then
    t ← peek_p;
    ts ← (if type t =t RPAREN then mret [] else return_types fuel);
    _ ← expect_p RPAREN;
    mret ts
  else mret [].

(** [= 2], [= -2]: the value, if there is one. *)
Definition variant_value : parser (option Z) :=
  eq ← match_p EQ;
  if eq : bool then
    neg ← match_p MINUS;
    t ← peek_p;
    if type t =t INT_LITERAL then
      u ← consume_p;
      let v := strtoll0 c23_strtoll (lexeme u) in
      mret (Some (if neg : bool then (- v)%Z else v))
    else throw_here $"Expected integer value after '=' in enum variant at "
  else mret None.

Definition parse_enum_variant : parser EnumVariant :=
  l ← location_p;
  t ← peek_p;
  if type t =t Token.IDENTIFIER then
    i ← consumed_identifier;
    ts ← variant_types;
    v ← variant_value;
    make l (fun n => mkEnumVariant n (Some i) ts (match v with Some z => z | None => 0%Z end)
                       (match v with Some _ => true | None => false end))
  else throw_p ($"Expected enum variant name (identifier) at " ++ location_to_string l).

Fixpoint enum_variants (n : nat) (enum_name : str) : parser (list (option EnumVariant)) :=
  match n with
  | O => no_fuel
  | S n' =>
      t ← peek_p;
      if type_in t [RBRACE; END_OF_FILE] then mret []
      else
        v ← parse_enum_variant;
        _ ← skip_p;
        c ← match_p COMMA;
        if c : bool then
          _ ← skip_p;
          u ← peek_p;
          if type u =t RBRACE then mret [Some v]
          else vs ← enum_variants n' enum_name; mret (Some v :: vs)
        else
          u ← peek_p;
          if type_in u [RBRACE; Token.IDENTIFIER] then vs ← enum_variants n' enum_name; mret (Some v :: vs)
          else throw_here ($"Expected comma, closing brace, or next variant identifier after enum variant in enum '"
                           ++ enum_name ++ $"' at ")
  end.

Definition parse_enum_declaration : parser Statement :=
  l ← location_p;
  _ ← expect_p KEYWORD_ENUM;
  i ← named $"Expected enum name (identifier) at ";
  generic_params ← parse_generic_params;
  _ ← expect_p LBRACE;
  _ ← skip_p;
  variants ← enum_variants fuel (name i);
  _ ← expect_p RBRACE;
  make l (fun n => EnumDeclaration n (Some i) generic_params variants).

(** ** Aliases and global variables *)

Definition parse_type_alias_declaration : parser Statement :=
  l ← location_p;
  _ ← expect_p KEYWORD_TYPE;
  _ ← expect_p LT;
  aliased ← type_p;
  _ ← expect_p GT;
  i ← named $"Expected type alias name (identifier) at ";
  _ ← expect_p SEMICOLON;
  make l (fun n => TypeAliasDeclaration n (Some i) (Some aliased)).

(** [= expr]: the initializer, if there is one. *)
Definition global_initializer : parser (option Expression) :=
  eq ← match_p EQ;
  if eq : bool then
    e ← expression_p;
    match e with
    | None => throw_here $"Expected initializer expression after '=' in declaration at "
    | Some _ => mret e
    end
  else mret None.

(** [var<Type> name = expr;], [const<Type> name = expr;] after the keyword. *)
Definition legacy_global (l : SourceLocation) (is_const : bool) : parser Statement :=
  _ ← expect_p LT;
  type_node_ ← type_p;
  _ ← expect_p GT;
  i ← named $"Expected identifier after type annotation in declaration at ";
  _ ← set_env (declareGlobalVariable (name i));
  initializer ← global_initializer;
  _ ← expect_p SEMICOLON;
  make l (fun n => VariableDeclaration n (Some i) is_const (Some type_node_) initializer false).

Definition unified_global (l : SourceLocation) (auto_type_inference : bool) : parser Statement :=
  i ← named $"Expected identifier at start of variable declaration at ";
  _ ← set_env (declareGlobalVariable (name i));
  '(type_node_, is_const) ←
    (if auto_type_inference then mret (None, false)
     else
       _ ← expect_p LT;
       ty ← type_p;
       k ← const_modifier true;
       _ ← expect_p GT;
       mret (Some ty, k));
  initializer ← global_initializer;
  match initializer with
  | None =>
      if auto_type_inference then throw_here $"'auto' variables must have an initializer at "
      else
        _ ← peeked_semicolon;
        make l (fun n => VariableDeclaration n (Some i) is_const type_node_ None false)
  | Some _ =>
      _ ← peeked_semicolon;
      make l (fun n => VariableDeclaration n (Some i) is_const type_node_ initializer false)
  end.

Definition parse_global_var_declaration : parser Statement :=
  l ← location_p;
  a ← match_p KEYWORD_AUTO;
  if a : bool then unified_global l true
  else
    v ← match_p KEYWORD_VAR;
    if v : bool then legacy_global l false
    else
      c ← match_p KEYWORD_CONST;
      if c : bool then legacy_global l true else unified_global l false.

(** ** Imports *)

Record ImportWords : Type := mkImportWords { keyword_ : TokenType; word : str; list_word : str; kind_ : ImportKind }.

(** [* as NS from "path"], at the star; [label] is the form's name in messages. *)
Definition namespace_import (W : ImportWords) (l : SourceLocation) (label import_label : str) : parser Statement :=
  _ ← consume_p;
  a ← match_p KEYWORD_AS;
  if a : bool then
    nsAlias ← named ($"Expected identifier after '*' in " ++ label ++ $" at ");
    f ← match_p KEYWORD_FROM;
    if f : bool then
      t ← peek_p;
      if type t =t STRING_LITERAL then
        nsSource ← consumed_string;
        _ ← match_p SEMICOLON;
        make l (fun n => ImportDeclaration n (kind_ W) (Some nsSource) None [] None (Some nsAlias))
      else throw_here ($"Expected string literal after 'from' in " ++ label ++ $" at ")
    else throw_here ($"Expected 'from' after namespace alias in " ++ import_label ++ $" at ")
  else throw_here ($"Expected 'as' after '*' in " ++ label ++ $" at ").

Fixpoint import_specifiers (n : nat) (W : ImportWords) : parser (list ImportSpecifier) :=
  match n with
  | O => no_fuel
  | S n' =>
      stop ← at_end_or [RBRACE];
      if stop : bool then mret []
      else
        imported ← named ($"Expected imported name in " ++ word W ++ $" specifier list at ");
        a ← match_p KEYWORD_AS;
        local ← (if a : bool then
                   i ← named ($"Expected local name after 'as' in " ++ word W ++ $" specifier at "); mret (Some i)
                 else mret None);
        let s := mkImportSpecifier (Some imported) local in
        c ← match_p COMMA;
        if c : bool then ss ← import_specifiers n' W; mret (s :: ss) else mret [s]
  end.

(** The rest of a path, and the list that may end it. *)
Fixpoint import_path (n : nat) (W : ImportWords) (path : str) : parser (str * list ImportSpecifier) :=
  match n with
  | O => no_fuel
  | S n' =>
      t ← peek_p;
      if type_in t [COLONCOLON; DOT] then
        separator ← consume_p;
        u ← peek_p;
        if (type separator =t COLONCOLON) && (type u =t LBRACE) then
          _ ← consume_p;
          ss ← import_specifiers fuel W;
          _ ← expect_msg_p RBRACE ($"Expected '}' after " ++ word W ++ $" specifier list.");
          mret (path, ss)
        else if type u =t Token.IDENTIFIER then v ← consume_p; import_path n' W (path ++ $"::" ++ lexeme v)
        else throw_here ($"Expected identifier in " ++ word W ++ $" path at ")
      else mret (path, [])
  end.

(** [as NS] *)
Definition import_alias (W : ImportWords) : parser (option Identifier) :=
  a ← match_p KEYWORD_AS;
  if a : bool then i ← named ($"Expected identifier after 'as' in " ++ word W ++ $" at "); mret (Some i) else mret None.

(** [from "locator"] *)
Definition import_locator (W : ImportWords) : parser (option StringLit) :=
  t ← peek_p;
  if type t =t KEYWORD_FROM then
    _ ← consume_p;
    u ← peek_p;
    if type u =t STRING_LITERAL then s ← consumed_string; mret (Some s)
    else throw_here ($"Expected string literal after 'from' in " ++ word W ++ $" at ")
  else mret None.

Definition import_node (W : ImportWords) (l : SourceLocation) (path : str) (specifiers : list ImportSpecifier)
    (alias : option Identifier) (locator : option StringLit) : parser Statement :=
  _ ← match_p SEMICOLON;
  source ← make l (fun n => mkStringLit n path);
  match alias, specifiers with
  | Some _, _ :: _ =>
      throw_here ($"Namespace alias on " ++ list_word W ++ $" list is not supported; use `" ++ word W
                  ++ $" module as NS` or `" ++ word W ++ $" module::{a, b}` at ")
  | _, _ => make l (fun n => ImportDeclaration n (kind_ W) (Some source) locator specifiers None alias)
  end.

Definition import_words : ImportWords := mkImportWords KEYWORD_IMPORT $"import" $"an import" TrustedImport.
Definition smuggle_words : ImportWords := mkImportWords KEYWORD_SMUGGLE $"smuggle" $"a smuggle" Smuggle.

(** [import] takes the alias before the locator. *)
Definition parse_import_declaration : parser Statement :=
  l ← location_p;
  _ ← expect_p KEYWORD_IMPORT;
  t ← peek_p;
  if type t =t MULTIPLY then namespace_import import_words l $"namespace import" $"import"
  else if type t =t Token.IDENTIFIER then
    first ← consume_p;
    '(path, specifiers) ← import_path fuel import_words (lexeme first);
    alias ← import_alias import_words;
    locator ← import_locator import_words;
    import_node import_words l path specifiers alias locator
  else throw_here $"Expected identifier after 'import' at ".

(** [smuggle] takes the locator before the alias. *)
Definition parse_smuggle_declaration : parser Statement :=
  l ← location_p;
  _ ← expect_p KEYWORD_SMUGGLE;
  t ← peek_p;
  if type t =t MULTIPLY then namespace_import smuggle_words l $"smuggle namespace import" $"smuggle import"
  else if type t =t Token.IDENTIFIER then
    first ← consume_p;
    '(path, specifiers) ← import_path fuel smuggle_words (lexeme first);
    locator ← import_locator smuggle_words;
    alias ← import_alias smuggle_words;
    import_node smuggle_words l path specifiers alias locator
  else throw_here $"Expected identifier after 'smuggle' at ".

(** ** Extern blocks, classes and templates *)

Fixpoint semicolons (n : nat) : parser () :=
  match n with
  | O => no_fuel
  | S n' => t ← peek_p; if type t =t SEMICOLON then _ ← consume_p; semicolons n' else mret tt
  end.

Definition function_has_body (f : Function_) : bool :=
  match f with mkFunction _ _ _ _ (Some _) _ _ _ _ _ => true | _ => false end.
Definition function_loc (f : Function_) : SourceLocation := match f with mkFunction n _ _ _ _ _ _ _ _ _ => loc n end.

Fixpoint extern_members (n : nat) : parser (list (option Statement)) :=
  match n with
  | O => no_fuel
  | S n' =>
      stop ← at_end_or [RBRACE];
      if stop : bool then mret []
      else
        _ ← skip_p;
        t ← peek_p;
        if type t =t RBRACE then mret []
        else
          f ← parse_function_node;
          if function_has_body f then
            throw_p ($"Extern " ++ [ch_quote] ++ $"C" ++ [ch_quote] ++ $" declarations cannot include function bodies at "
                     ++ location_to_string (function_loc f))
          else
            _ ← semicolons fuel;
            ms ← extern_members n';
            mret (Some (FunctionDeclaration f) :: ms)
  end.

Definition parse_extern_block : parser (option Statement) :=
  l ← location_p;
  _ ← expect_p KEYWORD_EXTERN;
  t ← peek_p;
  if type t =t STRING_LITERAL then
    abi ← consume_p;
    if lexeme abi =s $"C" then
      _ ← expect_p LBRACE;
      members ← extern_members fuel;
      _ ← expect_p RBRACE;
      i ← make l (fun n => mkIdentifier n $"__extern_C");
      make l (fun n => Some (NamespaceDeclaration n (Some i) members))
    else
      l' ← location_p;
      throw_p ($"Unsupported extern ABI '" ++ lexeme abi ++ $"' at " ++ location_to_string l' ++ $". Only extern "
               ++ [ch_quote] ++ $"C" ++ [ch_quote] ++ $" is currently supported.")
  else throw_here $"Expected ABI string after 'extern' at ".

Definition field_keywords : list TokenType := [KEYWORD_VAR; KEYWORD_MUT; KEYWORD_CONST; KEYWORD_LET].

(** A field of a class, at its keyword or name. *)
Definition class_field (class_name : str) (t : Token) : parser (option Statement) :=
  _ ← (if type_in t field_keywords then _ ← consume_p; mret tt else mret tt);
  field_loc ← location_p;
  u ← peek_p;
  if type u =t Token.IDENTIFIER then
    v ← consume_p;
    i ← make field_loc (fun n => mkIdentifier n (lexeme v));
    _ ← expect_p LT;
    ty ← type_p;
    _ ← expect_p GT;
    eq ← match_p EQ;
    initializer ← (if eq : bool then
                     e ← expression_p;
                     match e with
                     | None => throw_here ($"Expected initializer for field \'" ++ name i ++ $"\' in class \'" ++ class_name ++ $"\' at ")
                     | Some _ => mret e
                     end
                   else mret None);
    f ← make field_loc (fun n => mkField n (Some i) (Some ty) initializer (type_in t [KEYWORD_VAR; KEYWORD_MUT]));
    _ ← match_p COMMA;
    _ ← match_p SEMICOLON;
    mret (Some (FieldDeclaration f))
  else throw_here ($"Expected field name in class '" ++ class_name ++ $"' at ").

Fixpoint class_members (n : nat) (class_name : str) : parser (list (option Statement)) :=
  match n with
  | O => no_fuel
  | S n' =>
      t0 ← peek_p;
      if type_in t0 [RBRACE; END_OF_FILE] then mret []
      else
        _ ← skip_p;
        t ← peek_p;
        m ← (if type_in t (Token.IDENTIFIER :: field_keywords) then class_field class_name t
             else if type_in t [KEYWORD_FN; KEYWORD_OPERATOR] then parse_function
             else throw_here ($"Unexpected token in class body: " ++ token_type_to_string (type t) ++ $" ('" ++ lexeme t ++ $"') at "));
        ms ← class_members n' class_name;
        mret (m :: ms)
  end.

Definition parse_class_declaration : parser (option Statement) :=
  l ← location_p;
  _ ← expect_p KEYWORD_CLASS;
  i ← named $"Expected class name at ";
  generic_params ← parse_generic_params;
  _ ← expect_p LBRACE;
  members ← class_members fuel (name i);
  _ ← expect_p RBRACE;
  make l (fun n => Some (ClassDeclaration n (Some i) generic_params members)).

Definition parse_template_declaration : parser (option Statement) :=
  l ← location_p;
  _ ← expect_p KEYWORD_TEMPLATE;
  i ← named $"Expected identifier after 'template' at ";
  t ← peek_p;
  generic_params ← (if type t =t LT then parse_generic_params else mret []);
  _ ← expect_p LBRACE;
  _ ← skip_p;
  u ← peek_p;
  body ← (if type u =t KEYWORD_CLASS then parse_class_declaration
          else if type u =t KEYWORD_STRUCT then s ← parse_struct; mret (Some s)
          else if type u =t KEYWORD_ENUM then s ← parse_enum_declaration; mret (Some s)
          else if type_in u [KEYWORD_FN; KEYWORD_ASYNC] then parse_function
          else throw_here $"Expected a class, struct, enum, or function declaration inside template body at ");
  _ ← expect_p RBRACE;
  make l (fun n => Some (TemplateDeclaration n (Some i) generic_params body)).

(** ** Declarations *)

(** [register_type_name] with the name of what was declared. *)
Definition declared_type_name (s : option Statement) : str :=
  match s with
  | Some (StructDeclaration _ (Some i) _ _ _ _) | Some (ClassDeclaration _ (Some i) _ _)
  | Some (EnumDeclaration _ (Some i) _ _) | Some (TypeAliasDeclaration _ (Some i) _) => name i
  | _ => []
  end.
Definition registered (m : parser (option Statement)) : parser (option Statement) :=
  s ← m;
  _ ← set_env (register_type_name (declared_type_name s));
  mret s.

(** [while (angle_depth > 0 && !IsAtEnd())] over the generic parameters. *)
Fixpoint skip_angles (n : nat) (angle_depth : Z) : parser () :=
  match n with
  | O => no_fuel
  | S n' =>
      e ← at_end_p;
      if (0 <? angle_depth)%Z && negb e then
        t ← peek_p;
        _ ← consume_p;
        skip_angles n' (if type t =t LT then angle_depth + 1 else if type t =t GT then angle_depth - 1 else angle_depth)%Z
      else mret tt
  end.

(** [name<...>(] ahead; the position is restored. *)
Definition generic_function_ahead : parser bool :=
  saved_pos ← get_pos_p;
  is_function ← try_any
    (_ ← consume_p;
     t ← peek_p;
     _ ← (if type t =t LT then _ ← consume_p; skip_angles fuel 1 else mret tt);
     u ← peek_p;
     mret (type u =t LPAREN))
    (mret false);
  _ ← set_pos_p saved_pos;
  mret is_function.

(** [Type name] ahead, parsed as a variable; every exception is caught. *)
Definition relaxed_global : parser (option Statement) :=
  saved_pos ← get_pos_p;
  r ← try_any
    (_ ← type_p;
     t ← peek_p;
     if type t =t Token.IDENTIFIER then _ ← set_pos_p saved_pos; s ← parse_global_var_declaration; mret (Some s)
     else mret None)
    (mret None);
  match r with
  | Some s => mret (Some s)
  | None => _ ← set_pos_p saved_pos; mret None
  end.

(** [while (peek().type == COMMENT) consume();] *)
Fixpoint skip_comments (n : nat) : parser () :=
  match n with
  | O => no_fuel
  | S n' => t ← peek_p; if type t =t COMMENT then _ ← consume_p; skip_comments n' else mret tt
  end.

Definition parse_declaration : parser (option Statement) :=
  _ ← skip_comments fuel;
  t ← peek_p;
  next ← peek_next_p;
  ts ← tokens_p;
  pos ← get_pos_p;
  if type t =t AT then parse_function
  else if type t =t KEYWORD_EXTERN then
    if type next =t STRING_LITERAL then parse_extern_block else parse_function
  else if type_in t [KEYWORD_FN; KEYWORD_ASYNC]
          || ((type t =t Token.IDENTIFIER) && (lexeme t =s $"async") && (type next =t KEYWORD_FN))
          || ((type t =t Token.IDENTIFIER) && (type next =t LPAREN) && is_function_declaration_context ts pos)
  then parse_function
  else if type_in t [KEYWORD_STRUCT; HASH] then registered (some_statement parse_struct)
  else if type t =t KEYWORD_ASPECT then some_statement parse_trait_declaration
  else if type t =t KEYWORD_BIND then some_statement parse_impl
  else if type t =t KEYWORD_CLASS then registered parse_class_declaration
  else if type t =t KEYWORD_ENUM then registered (some_statement parse_enum_declaration)
  else if type t =t KEYWORD_TYPE then registered (some_statement parse_type_alias_declaration)
  else if type_in t [KEYWORD_LET; KEYWORD_MUT; KEYWORD_CONST; KEYWORD_VAR; KEYWORD_AUTO]
  then some_statement parse_global_var_declaration
  else if (type t =t Token.IDENTIFIER) && (type next =t LT) then
    f ← generic_function_ahead;
    if f : bool then parse_function else some_statement parse_global_var_declaration
  else if (type t =t Token.IDENTIFIER) && (type next =t LPAREN) then parse_function
  else
    r ← relaxed_global;
    match r with
    | Some s => mret (Some s)
    | None =>
        if type t =t KEYWORD_TEMPLATE then parse_template_declaration
        else if (type t =t KEYWORD_IMPORT) || ((type t =t Token.IDENTIFIER) && (lexeme t =s $"import"))
        then some_statement parse_import_declaration
        else if (type t =t KEYWORD_SMUGGLE) || ((type t =t Token.IDENTIFIER) && (lexeme t =s $"smuggle"))
        then some_statement parse_smuggle_declaration
        else mret None
    end.
End DeclParser.
