(* ===== verification/DeclProps.v ===== *)
(** * Termination of the declaration parser

    Each parser of [DeclParser] returns or throws when fewer tokens are ahead
    than it has fuel, and says what it consumed: a declaration that was parsed
    took at least one token ([parse_declaration_spec]), which the module
    parser's loop needs. *)

From S2P Require Import Prelude.
From S2P Require Import Token.
From S2P Require Import Ast.
From S2P Require Import AstTypes.
From S2P Require Import TokenStream.
From S2P Require Import ParserMonad.
From S2P Require Import TypeParser.
From S2P Require Import ParserLogic.
From S2P Require Import ExprParser.
From S2P Require Import ExprProps.
From S2P Require Import StmtParser.
From S2P Require Import StmtProps.
From S2P Require Import DeclParser.

Section DeclRuns.
Context (ts : Input) (closed : closed_tokens ts) (f : nat) (args_ltr c23_strtoll : bool).
Context (expression_p : parser (option Expression)) (type_p : parser TypeNode).
Context (parse_block : parser Block) (rec_statement : parser (option Statement)).
Hypothesis expression_spec : progress ts (S f) expression_p.
Hypothesis type_spec : progress ts (S f) type_p.
Hypothesis block_spec : progress ts (S f) parse_block.
Hypothesis statement_spec : consumes_or_ends ts f rec_statement.

Local Notation progress := (progress ts).
Local Notation advance_only := (advance_only ts).
Local Notation fuel := (S f).

Local Hint Resolve expression_spec type_spec block_spec statement_spec : parser_specs.
Local Hint Resolve make_spec peeked_semicolon_spec block_stmt_spec clone_spec : parser_specs.

Lemma throw_here_spec {A} m (Q : A -> ParseState -> Prop) st : runs ts (throw_here m) Q st.
Proof. unfold throw_here. prun. Qed.

Ltac dstep := first [apply throw_here_spec | apply (at_end_or_spec ts closed); [|intros ? ?] | pstep].
Ltac drun := repeat dstep; cbv beta in *; try lia.

Lemma located_token_spec st : 0 < remaining st ->
  runs ts (located_token args_ltr) (fun _ st' => remaining st' < remaining st) st.
Proof. intros H. unfold located_token. drun. Qed.
Lemma consumed_identifier_spec st : 0 < remaining st ->
  runs ts (consumed_identifier args_ltr) (fun _ st' => remaining st' < remaining st) st.
Proof.
  intros H. unfold consumed_identifier. pstep. eapply runs_mono; [by apply located_token_spec|]. cbv beta. intros [l t] st' H'.
  drun.
Qed.
Lemma consumed_string_spec st : 0 < remaining st ->
  runs ts (consumed_string args_ltr) (fun _ st' => remaining st' < remaining st) st.
Proof.
  intros H. unfold consumed_string. pstep. eapply runs_mono; [by apply located_token_spec|]. cbv beta. intros [l t] st' H'.
  drun.
Qed.

Ltac name_step :=
  lazymatch goal with
  | |- runs _ (consumed_identifier _) _ _ =>
      eapply runs_mono; [apply consumed_identifier_spec; lia|]; cbv beta; intros ? ? ?
  | |- runs _ (consumed_string _) _ _ =>
      eapply runs_mono; [apply consumed_string_spec; lia|]; cbv beta; intros ? ? ?
  end.
Ltac nrun := repeat first [name_step | dstep]; cbv beta in *; try lia.

Lemma named_spec b m : progress b (named args_ltr m).
Proof. intros st H. unfold named. nrun. Qed.
Local Hint Resolve named_spec : parser_specs.

(** ** Generic parameters *)

Lemma aspect_bound_spec b m : progress b (aspect_bound m).
Proof. intros st H. unfold aspect_bound. nrun. Qed.
Local Hint Resolve aspect_bound_spec : parser_specs.
Lemma aspect_bounds_spec n s m : progress n (aspect_bounds n s m).
Proof. induction n as [|n IH]; intros st H; [lia|]. cbn [aspect_bounds]. nrun. Qed.
Local Hint Resolve aspect_bounds_spec : parser_specs.
Lemma optional_bounds_spec m1 m2 : advance_only (S f) (optional_bounds fuel m1 m2).
Proof. intros st H. unfold optional_bounds. nrun. Qed.
Local Hint Resolve optional_bounds_spec : parser_specs.
Lemma generic_parameters_spec n : progress (S f `min` n) (generic_parameters fuel n).
Proof. induction n as [|n IH]; intros st H; [lia|]. cbn [generic_parameters]. nrun. Qed.
Local Hint Resolve generic_parameters_spec : parser_specs.
Lemma parse_generic_params_spec : advance_only (S f) (parse_generic_params fuel).
Proof. intros st H. unfold parse_generic_params. nrun. Qed.
Local Hint Resolve parse_generic_params_spec : parser_specs.

(** ** Parameters *)

Lemma default_value_spec i : advance_only (S f) (default_value expression_p i).
Proof. intros st H. unfold default_value. nrun. Qed.
Lemma const_modifier_spec b k : advance_only b (const_modifier k).
Proof. intros st H. unfold const_modifier. nrun. Qed.
Local Hint Resolve default_value_spec const_modifier_spec : parser_specs.
Lemma legacy_parameter_spec m : progress (S f) (legacy_parameter args_ltr expression_p type_p m).
Proof. intros st H. unfold legacy_parameter. nrun. Qed.
Lemma unified_parameter_spec st : 0 < remaining st -> remaining st < S f ->
  runs ts (unified_parameter args_ltr expression_p type_p) (fun _ st' => remaining st' < remaining st) st.
Proof. intros N H. unfold unified_parameter. nrun. Qed.
Lemma relaxed_parameter_spec : progress (S f) (relaxed_parameter args_ltr expression_p type_p).
Proof. intros st H. unfold relaxed_parameter. nrun. Qed.
Lemma self_parameter_spec l st : 0 < remaining st ->
  runs ts (self_parameter args_ltr l) (fun _ st' => remaining st' < remaining st) st.
Proof. intros N. unfold self_parameter. nrun. Qed.
Local Hint Resolve legacy_parameter_spec relaxed_parameter_spec : parser_specs.
Lemma parse_function_parameter_spec : progress (S f) (parse_function_parameter_struct args_ltr expression_p type_p).
Proof.
  intros st H. unfold parse_function_parameter_struct.
  repeat first [apply self_parameter_spec; lia | apply unified_parameter_spec; lia | name_step | dstep]; lia.
Qed.
Local Hint Resolve parse_function_parameter_spec : parser_specs.
Lemma parameters_spec n e : progress (S f `min` n) (parameters args_ltr expression_p type_p n e).
Proof. induction n as [|n IH]; intros st H; [lia|]. cbn [parameters]. destruct e; nrun. Qed.
Local Hint Resolve parameters_spec ret_spec : parser_specs.
Lemma parameter_list_spec e : progress (S f) (parameter_list args_ltr expression_p type_p fuel e).
Proof. intros st H. unfold parameter_list. nrun. Qed.
Lemma declare_parameters_spec b ps : advance_only b (declare_parameters ps).
Proof. induction ps as [|p ps IH]; intros st H; cbn [declare_parameters]; nrun. Qed.
Local Hint Resolve parameter_list_spec declare_parameters_spec : parser_specs.

(** ** Functions *)

Lemma function_name_spec b : progress b function_name.
Proof. intros st H. unfold function_name. nrun. Qed.
Lemma return_types_spec n : progress (S f `min` n) (return_types type_p n).
Proof. induction n as [|n IH]; intros st H; [lia|]. cbn [return_types]. nrun. Qed.
Local Hint Resolve function_name_spec return_types_spec : parser_specs.
Lemma return_type_spec r : advance_only (S f) (return_type type_p fuel r).
Proof. intros st H. unfold return_type. nrun. Qed.
Lemma throws_clause_spec b : advance_only b throws_clause.
Proof. intros st H. unfold throws_clause. nrun. Qed.
Local Hint Resolve return_type_spec throws_clause_spec : parser_specs.

(** Bodies, in a statement parser of their own. *)
Lemma body_statements_spec : advance_only f (indented_statements fuel (with_sub_parser rec_statement) fuel).
Proof. apply (indented_block_spec ts closed). by apply sub_parser_spec. Qed.
Lemma body_block_spec : progress (S f) (with_sub_parser parse_block).
Proof.
  intros st H. apply with_sub_parser_spec. intros st1 R1. eapply runs_mono; [apply block_spec; lia|].
  cbv beta. intros s st' H' st2 E. unfold remaining, ahead in *. rewrite E, <- R1. exact H'.
Qed.
Lemma body_statement_spec : consumes_or_ends ts f (with_sub_parser rec_statement).
Proof. by apply sub_parser_spec. Qed.
Local Hint Resolve body_statements_spec body_block_spec body_statement_spec : parser_specs.
Lemma indented_body_spec st : 0 < remaining st -> remaining st < S f ->
  runs ts (indented_body rec_statement fuel) (fun _ st' => remaining st' < remaining st) st.
Proof. intros N H. unfold indented_body. nrun. Qed.
Lemma block_body_spec : advance_only (S f) (block_body parse_block rec_statement fuel).
Proof.
  intros st H. unfold block_body. repeat first [dstep | eapply runs_mono; [apply indented_body_spec; lia|]; cbv beta; intros ? ? ?]; lia.
Qed.
Local Hint Resolve block_body_spec : parser_specs.
Lemma function_body_spec t : advance_only f (function_body parse_block rec_statement fuel t).
Proof. intros st H. unfold function_body. nrun. Qed.
Local Hint Resolve function_body_spec : parser_specs.
Lemma legacy_function_spec l a : progress (S f)
  (legacy_function args_ltr expression_p type_p parse_block rec_statement fuel l a).
Proof. intros st H. unfold legacy_function. nrun. Qed.
Lemma unified_function_spec l a : progress (S f)
  (unified_function args_ltr expression_p type_p parse_block rec_statement fuel l a).
Proof. intros st H. unfold unified_function. nrun. Qed.
Local Hint Resolve legacy_function_spec unified_function_spec : parser_specs.
Lemma attributes_spec n h : advance_only n (attributes n h).
Proof. revert h. induction n as [|n IH]; intros h st H; [lia|]. cbn [attributes]. nrun. Qed.
Local Hint Resolve attributes_spec : parser_specs.
Lemma parse_function_unattributed_spec : progress (S f)
  (parse_function_unattributed args_ltr expression_p type_p parse_block rec_statement fuel).
Proof. intros st H. unfold parse_function_unattributed. nrun. Qed.
Local Hint Resolve parse_function_unattributed_spec : parser_specs.
Lemma parse_function_node_spec : progress (S f)
  (parse_function_node args_ltr expression_p type_p parse_block rec_statement fuel).
Proof. intros st H. unfold parse_function_node. nrun. Qed.
Local Hint Resolve parse_function_node_spec : parser_specs.
Lemma parse_function_spec : progress (S f)
  (parse_function args_ltr expression_p type_p parse_block rec_statement fuel).
Proof. intros st H. unfold parse_function. nrun. Qed.
Local Hint Resolve parse_function_spec : parser_specs.

(** ** Structs *)

Lemma repr_attribute_spec b : advance_only b repr_attribute.
Proof. intros st H. unfold repr_attribute. nrun. Qed.
Lemma clone_bounds_spec b bs : advance_only b (clone_bounds bs).
Proof. induction bs as [|[x|] bs IH]; intros st H; cbn [clone_bounds]; nrun. Qed.
Local Hint Resolve repr_attribute_spec clone_bounds_spec : parser_specs.
Lemma cloneGenericParams_spec b gs : advance_only b (cloneGenericParams gs).
Proof. induction gs as [|[[n i bs]|] gs IH]; intros st H; cbn [cloneGenericParams]; unfold undefined; nrun. Qed.
Lemma self_arguments_spec b gs : advance_only b (self_arguments gs).
Proof. induction gs as [|[[n [i|] bs]|] gs IH]; intros st H; cbn [self_arguments]; nrun. Qed.
Local Hint Resolve cloneGenericParams_spec self_arguments_spec : parser_specs.
Lemma parse_constructor_spec s gs k st : 0 < remaining st -> remaining st < S f ->
  runs ts (parse_constructor args_ltr expression_p type_p parse_block rec_statement fuel s gs k)
    (fun _ st' => remaining st' < remaining st) st.
Proof. intros N H. unfold parse_constructor. nrun. Qed.
Lemma struct_field_spec s : progress (S f) (struct_field type_p s).
Proof. intros st H. unfold struct_field. nrun. Qed.
Lemma after_field_spec b s : advance_only b (after_field s).
Proof. intros st H. unfold after_field. nrun. Qed.
Local Hint Resolve struct_field_spec after_field_spec : parser_specs.
Lemma struct_members_spec n s gs k : advance_only (S f `min` n)
  (struct_members args_ltr expression_p type_p parse_block rec_statement fuel n s gs k).
Proof.
  revert k. induction n as [|n IH]; intros k st H; [lia|]. cbn [struct_members].
  repeat first [dstep | eapply runs_mono; [apply parse_constructor_spec; lia|]; cbv beta; intros ? ? ?]; try lia.
Qed.
Local Hint Resolve struct_members_spec : parser_specs.
Lemma parse_struct_spec : progress (S f)
  (parse_struct args_ltr expression_p type_p parse_block rec_statement fuel).
Proof. intros st H. unfold parse_struct. nrun. Qed.
Local Hint Resolve parse_struct_spec : parser_specs.

(** ** Aspects and bindings *)

Lemma after_member_spec b : advance_only b after_member.
Proof. intros st H. unfold after_member. nrun. Qed.
Lemma super_aspects_spec n a : progress n (super_aspects args_ltr n a).
Proof. induction n as [|n IH]; intros st H; [lia|]. cbn [super_aspects]. nrun. Qed.
Lemma associated_bound_spec b m : progress b (associated_bound m).
Proof. intros st H. unfold associated_bound. nrun. Qed.
Local Hint Resolve after_member_spec super_aspects_spec associated_bound_spec : parser_specs.
Lemma associated_bounds_spec n s m : progress n (associated_bounds n s m).
Proof. induction n as [|n IH]; intros st H; [lia|]. cbn [associated_bounds]. nrun. Qed.
Local Hint Resolve associated_bounds_spec : parser_specs.
Lemma associated_type_spec a l : progress (S f) (associated_type type_p fuel a l).
Proof. intros st H. unfold associated_type. nrun. Qed.
Local Hint Resolve associated_type_spec : parser_specs.
Lemma aspect_members_spec n a : advance_only (S f `min` n)
  (aspect_members args_ltr expression_p type_p parse_block rec_statement fuel n a).
Proof. induction n as [|n IH]; intros st H; [lia|]. cbn [aspect_members]. nrun. Qed.
Local Hint Resolve aspect_members_spec : parser_specs.
Lemma parse_trait_declaration_spec : progress (S f)
  (parse_trait_declaration args_ltr expression_p type_p parse_block rec_statement fuel).
Proof. intros st H. unfold parse_trait_declaration. nrun. Qed.
Lemma bind_members_spec n : advance_only (S f `min` n)
  (bind_members args_ltr expression_p type_p parse_block rec_statement fuel n).
Proof. induction n as [|n IH]; intros st H; [lia|]. cbn [bind_members]. nrun. Qed.
Local Hint Resolve parse_trait_declaration_spec bind_members_spec : parser_specs.
Lemma parse_impl_spec : progress (S f)
  (parse_impl args_ltr expression_p type_p parse_block rec_statement fuel).
Proof. intros st H. unfold parse_impl. nrun. Qed.
Local Hint Resolve parse_impl_spec : parser_specs.

(** ** Enums *)

Lemma variant_types_spec : advance_only (S f) (variant_types type_p fuel).
Proof. intros st H. unfold variant_types. nrun. Qed.
Lemma variant_value_spec b : advance_only b (variant_value c23_strtoll).
Proof. intros st H. unfold variant_value. nrun. Qed.
Local Hint Resolve variant_types_spec variant_value_spec : parser_specs.
Lemma parse_enum_variant_spec : progress (S f) (parse_enum_variant args_ltr c23_strtoll type_p fuel).
Proof. intros st H. unfold parse_enum_variant. nrun. Qed.
Local Hint Resolve parse_enum_variant_spec : parser_specs.
Lemma enum_variants_spec n e : advance_only (S f `min` n) (enum_variants args_ltr c23_strtoll type_p fuel n e).
Proof. induction n as [|n IH]; intros st H; [lia|]. cbn [enum_variants]. nrun. Qed.
Local Hint Resolve enum_variants_spec : parser_specs.
Lemma parse_enum_declaration_spec : progress (S f) (parse_enum_declaration args_ltr c23_strtoll type_p fuel).
Proof. intros st H. unfold parse_enum_declaration. nrun. Qed.
Local Hint Resolve parse_enum_declaration_spec : parser_specs.

(** ** Aliases and global variables *)

Lemma parse_type_alias_spec : progress (S f) (parse_type_alias_declaration args_ltr type_p).
Proof. intros st H. unfold parse_type_alias_declaration. nrun. Qed.
Lemma global_initializer_spec : advance_only (S f) (global_initializer expression_p).
Proof. intros st H. unfold global_initializer. nrun. Qed.
Local Hint Resolve parse_type_alias_spec global_initializer_spec : parser_specs.
Lemma legacy_global_spec l c : progress (S f) (legacy_global args_ltr expression_p type_p l c).
Proof. intros st H. unfold legacy_global. nrun. Qed.
Lemma unified_global_spec l a : progress (S f) (unified_global args_ltr expression_p type_p l a).
Proof. intros st H. unfold unified_global. nrun. Qed.
Local Hint Resolve legacy_global_spec unified_global_spec : parser_specs.
Lemma parse_global_spec : progress (S f) (parse_global_var_declaration args_ltr expression_p type_p).
Proof. intros st H. unfold parse_global_var_declaration. nrun. Qed.
Local Hint Resolve parse_global_spec : parser_specs.

(** ** Imports *)

Lemma namespace_import_spec W l a b c : advance_only c (namespace_import args_ltr W l a b).
Proof. intros st H. unfold namespace_import. nrun. Qed.
Lemma import_specifiers_spec n W : advance_only n (import_specifiers args_ltr n W).
Proof. induction n as [|n IH]; intros st H; [lia|]. cbn [import_specifiers]. nrun. Qed.
Local Hint Resolve namespace_import_spec import_specifiers_spec : parser_specs.
Lemma import_path_spec n W p : advance_only (S f `min` n) (import_path args_ltr fuel n W p).
Proof. revert p. induction n as [|n IH]; intros p st H; [lia|]. cbn [import_path]. nrun. Qed.
Lemma import_alias_spec W b : advance_only b (import_alias args_ltr W).
Proof. intros st H. unfold import_alias. nrun. Qed.
Lemma import_locator_spec W b : advance_only b (import_locator args_ltr W).
Proof. intros st H. unfold import_locator. nrun. Qed.
Lemma import_node_spec W l p ss a lo b : advance_only b (import_node W l p ss a lo).
Proof. intros st H. unfold import_node. nrun. Qed.
Local Hint Resolve import_path_spec import_alias_spec import_locator_spec import_node_spec : parser_specs.
Lemma parse_import_spec : progress (S f) (parse_import_declaration args_ltr fuel).
Proof. intros st H. unfold parse_import_declaration. nrun. Qed.
Lemma parse_smuggle_spec : progress (S f) (parse_smuggle_declaration args_ltr fuel).
Proof. intros st H. unfold parse_smuggle_declaration. nrun. Qed.
Local Hint Resolve parse_import_spec parse_smuggle_spec : parser_specs.

(** ** Extern blocks, classes and templates *)

Lemma semicolons_spec n : advance_only n (semicolons n).
Proof. induction n as [|n IH]; intros st H; [lia|]. cbn [semicolons]. nrun. Qed.
Local Hint Resolve semicolons_spec : parser_specs.
Lemma extern_members_spec n : advance_only (S f `min` n)
  (extern_members args_ltr expression_p type_p parse_block rec_statement fuel n).
Proof. induction n as [|n IH]; intros st H; [lia|]. cbn [extern_members]. nrun. Qed.
Local Hint Resolve extern_members_spec : parser_specs.
Lemma parse_extern_block_spec : progress (S f)
  (parse_extern_block args_ltr expression_p type_p parse_block rec_statement fuel).
Proof. intros st H. unfold parse_extern_block. nrun. Qed.
Lemma class_field_spec c t : progress (S f) (class_field expression_p type_p c t).
Proof. intros st H. unfold class_field. nrun. Qed.
Local Hint Resolve parse_extern_block_spec class_field_spec : parser_specs.
Lemma class_members_spec n c : advance_only (S f `min` n)
  (class_members args_ltr expression_p type_p parse_block rec_statement fuel n c).
Proof. induction n as [|n IH]; intros st H; [lia|]. cbn [class_members]. nrun. Qed.
Local Hint Resolve class_members_spec : parser_specs.
Lemma parse_class_declaration_spec : progress (S f)
  (parse_class_declaration args_ltr expression_p type_p parse_block rec_statement fuel).
Proof. intros st H. unfold parse_class_declaration. nrun. Qed.
Local Hint Resolve parse_class_declaration_spec : parser_specs.
Lemma parse_template_declaration_spec : progress (S f)
  (parse_template_declaration args_ltr c23_strtoll expression_p type_p parse_block rec_statement fuel).
Proof. intros st H. unfold parse_template_declaration. nrun. Qed.
Local Hint Resolve parse_template_declaration_spec some_statement_spec : parser_specs.

(** ** Declarations *)

Lemma registered_spec b m : progress b m -> progress b (registered m).
Proof. intros Hm st H. unfold registered. nrun. Qed.
Local Hint Resolve registered_spec : parser_specs.
Lemma skip_angles_spec n d : advance_only n (skip_angles n d).
Proof. revert d. induction n as [|n IH]; intros d st H; [lia|]. cbn [skip_angles]. nrun. Qed.
Local Hint Resolve skip_angles_spec : parser_specs.
Lemma generic_function_ahead_spec st : remaining st < S f ->
  runs ts (generic_function_ahead fuel) (fun _ st' => remaining st' = remaining st) st.
Proof. intros H. unfold generic_function_ahead. nrun. Qed.
Lemma relaxed_global_spec st : remaining st < S f ->
  runs ts (relaxed_global args_ltr expression_p type_p)
    (fun r st' => match r with Some _ => remaining st' < remaining st | None => remaining st' = remaining st end) st.
Proof. intros H. unfold relaxed_global. nrun. Qed.
Lemma skip_comments_spec n : advance_only n (skip_comments n).
Proof. induction n as [|n IH]; intros st H; [lia|]. cbn [skip_comments]. nrun. Qed.
Local Hint Resolve skip_comments_spec : parser_specs.

Lemma parse_declaration_spec st : remaining st < S f ->
  runs ts (parse_declaration args_ltr c23_strtoll expression_p type_p parse_block rec_statement fuel)
    (fun r st' => remaining st' <= remaining st /\ (r <> None -> remaining st' < remaining st)) st.
Proof.
  intros H. unfold parse_declaration.
  repeat first
    [ dstep
    | eapply runs_mono; [apply generic_function_ahead_spec; lia|]; cbv beta; intros ? ? ?
    | eapply runs_mono; [apply relaxed_global_spec; lia|]; cbv beta; intros [?|] ? ? ];
    (split; [lia|]); try lia. all: try (intros; lia). intros []; done.
Qed.
End DeclRuns.
