(* ===== verification/ModuleParser.v ===== *)
(** * The module parser and the whole front end

    src/parser/module_parser.cpp, the classes of src/include/vyb/parser/parser.hpp
    put together as the constructor of [Parser] does, and
    src/parser/parser.cpp. The parsers call each other through references;
    [parsers fuel] ties them, one unit of fuel per nesting level.

    A declaration that throws is recorded and skipped, so that one run reports
    every broken declaration of a file. *)

From S2P Require Import Prelude.
From S2P Require Import Token.
From S2P Require Import Lexer.
From S2P Require Import Ast.
From S2P Require Import AstTypes.
From S2P Require Import TokenStream.
From S2P Require Import ParserMonad.
From S2P Require Import TypeParser.
From S2P Require Import ExprParser.
From S2P Require Import StmtParser.
From S2P Require Import DeclParser.

(** ** The globals of a module *)

(** The balanced [<...>] of a declaration, from the [<] on: the nesting where
    the scan stopped and the tokens after that place. *)
Fixpoint type_scan (angle : Z) (l : list Token) : Z * list Token :=
  match l with
  | [] => (angle, [])
  | t :: l' =>
      if type_in t [NEWLINE; END_OF_FILE; LBRACE] then ((-100)%Z, l')
      else
        let angle' := (if type t =t LT then angle + 1
                       else if type t =t GT then angle - 1
                       else if type t =t RSHIFT then angle - 2 else angle)%Z in
        if (angle' <=? 0)%Z then (angle', l') else type_scan angle' l'
  end.

(** The name a statement at nesting depth 0 declares, [l] what follows its
    first token. *)
Definition declared_global (t : Token) (l : list Token) : option str :=
  match l with
  | u :: l' =>
      if type_in t [KEYWORD_LET; KEYWORD_MUT; KEYWORD_VAR; KEYWORD_CONST; KEYWORD_AUTO] && (type u =t Token.IDENTIFIER)
      then Some (lexeme u)
      else if negb (type t =t Token.IDENTIFIER) then None
      else if type u =t EQ then Some (lexeme t)
      else if negb (type u =t LT) then None
      else
        match type_scan 0 l with
        | (0%Z, after :: _) => if type_in after [EQ; NEWLINE; SEMICOLON; END_OF_FILE] then Some (lexeme t) else None
        | _ => None
        end
  | [] => None
  end.

(** [prescanModuleGlobals]: the names it declares, in order. *)
Fixpoint prescan (depth : Z) (atStart : bool) (l : list Token) : list str :=
  match l with
  | [] => []
  | t :: l' =>
      if type t =t END_OF_FILE then []
      else if type t =t COMMENT then prescan depth atStart l'
      else if type_in t [LBRACE; LPAREN; LBRACKET; INDENT] then prescan (depth + 1) false l'
      else if type_in t [RBRACE; RPAREN; RBRACKET; DEDENT] then
        let depth' := (if 0 <? depth then depth - 1 else depth)%Z in
        prescan depth' ((depth' =? 0)%Z && type_in t [RBRACE; DEDENT]) l'
      else if type_in t [NEWLINE; SEMICOLON] then prescan depth (if (depth =? 0)%Z then true else atStart) l'
      else if negb (depth =? 0)%Z || negb atStart then prescan depth false l'
      else
        match declared_global t l' with
        | Some x => x :: prescan depth false l'
        | None => prescan depth false l'
        end
  end.

Fixpoint declare_globals (names : list str) : parser () :=
  match names with
  | [] => mret tt
  | x :: names' => _ ← set_env (declareGlobalVariable x); declare_globals names'
  end.

Definition prescanModuleGlobals : parser () :=
  ts ← tokens_p;
  pos ← get_pos_p;
  declare_globals (prescan 0 true (drop pos ts)).

(** ** Recovery *)

Definition isTopLevelStarter (tt : TokenType) : bool :=
  existsb (tteq tt) [KEYWORD_STRUCT; KEYWORD_ENUM; KEYWORD_TYPE; KEYWORD_IMPORT; KEYWORD_SMUGGLE; KEYWORD_ASPECT;
                     KEYWORD_BIND; KEYWORD_CLASS; KEYWORD_MODULE; KEYWORD_USE; KEYWORD_FN; KEYWORD_EXTERN].

Fixpoint skip_to_starter (n : nat) (depth : Z) : parser () :=
  match n with
  | O => no_fuel
  | S n' =>
      t ← peek_p;
      if type t =t END_OF_FILE then mret tt
      else if type t =t LBRACE then _ ← consume_p; skip_to_starter n' (depth + 1)
      else if type t =t RBRACE then _ ← consume_p; skip_to_starter n' (if 0 <? depth then depth - 1 else depth)%Z
      else if (depth =? 0)%Z && isTopLevelStarter (type t) then mret tt
      else _ ← consume_p; skip_to_starter n' depth
  end.

Definition synchronizeToNextDeclaration (fuel : nat) : parser () :=
  t ← peek_p;
  _ ← (if type t =t END_OF_FILE then mret tt else _ ← consume_p; mret tt);
  skip_to_starter fuel 0.

(** [e.what()] *)
Definition what (e : exn) : str :=
  match e with
  | runtime_error w | out_of_range w | invalid_argument w | undefined_behaviour w => w
  end.

(** [try { m } catch (const std::exception& e) { ... }]: the message, or what was returned. *)
Definition caught {A} (m : parser A) : parser (A + exn) := fun st =>
  match m st with
  | Some (Return a st') => Some (Return (inl a) st')
  | Some (Raise (undefined_behaviour w) st') => Some (Raise (undefined_behaviour w) st')
  | Some (Raise e st') => Some (Return (inr e) st')
  | None => None
  end.

Section ModuleParser.
Variables (parse_declaration : parser (option Statement)) (fuel : nat).

(** The declarations and the errors, in order. *)
Fixpoint module_loop (n : nat) : parser (list (option Statement) * list str) :=
  match n with
  | O => no_fuel
  | S n' =>
      t ← peek_p;
      if type t =t END_OF_FILE then mret ([], [])
      else
        r ← caught parse_declaration;
        match r with
        | inr e =>
            _ ← synchronizeToNextDeclaration fuel;
            '(ds, es) ← module_loop n';
            mret (ds, ($"Parse error at " ++ location_to_string (location t) ++ $": " ++ what e) :: es)
        | inl (Some d) =>
            _ ← semicolons fuel;
            '(ds, es) ← module_loop n';
            mret (Some d :: ds, es)
        | inl None =>
            u ← peek_p;
            _ ← synchronizeToNextDeclaration fuel;
            '(ds, es) ← module_loop n';
            mret (ds, ($"Parse error at " ++ location_to_string (location u) ++ $": unexpected token '"
                       ++ token_type_to_string (type u) ++ $"'") :: es)
        end
  end.

(** [ModuleParser::parse]: the module and [errors_]. *)
Definition ModuleParser_parse : parser (Module_ * list str) :=
  module_loc ← location_p;
  _ ← skip_p;
  _ ← prescanModuleGlobals;
  '(module_body, errors_) ← module_loop fuel;
  m ← make module_loc (fun n => mkModule n module_body);
  mret (m, errors_).

Definition aggregate (errors : list str) : str :=
  $"Parse errors (" ++ to_string (Z.of_nat (length errors)) ++ $"):" ++ [ch_nl]
  ++ concat (map (fun e => $"  - " ++ e ++ [ch_nl]) errors).

(** The token where the parser stopped, comments and newlines skipped, must be
    the end. *)
Definition final_check : parser () :=
  ts ← tokens_p;
  pos ← get_pos_p;
  path ← reading (fun P => Ok (parser_file_path P));
  match ts !! skip_from ts pos with
  | Some t =>
      if type t =t END_OF_FILE then mret tt
      else throw_p ($"Parser::parse_module: Did not consume all tokens. Remaining token: " ++ token_type_to_string (type t)
                    ++ $" (" ++ [ch_quote] ++ lexeme t ++ [ch_quote] ++ $") at " ++ location_to_string (location t)
                    ++ $" in file " ++ path)
  | None => mret tt
  end.

(** [Parser::parse_module]; the module is never null, so the branch for a null
    one is not reached. *)
Definition parse_module : parser Module_ :=
  '(module_node, recovered) ← ModuleParser_parse;
  match recovered with
  | [] => _ ← final_check; mret module_node
  | _ => throw_p ($"Parser::parse_module: " ++ aggregate recovered)
  end.
End ModuleParser.

(** ** The parsers, tied together *)

Section FrontEnd.
Variables (args_ltr c23_strtoll : bool).

Record Parsers : Type := mkParsers {
  expression_parser_ : parser (option Expression);
  primary_parser_ : parser (option Expression);
  statement_parser_ : parser (option Statement)
}.

(** The declaration parser over the parsers [P] of the level below. *)
Definition declaration_level {A} (P : Parsers) (fuel : nat)
    (k : parser (option Expression) -> parser TypeNode -> parser Block -> parser (option Statement) -> nat -> A) : A :=
  k (expression_p (expression_parser_ P) (primary_parser_ P) (statement_parser_ P) fuel)
    (type_p (expression_parser_ P) fuel) (parse_block (statement_parser_ P) fuel) (statement_parser_ P) fuel.

Fixpoint parsers (fuel : nat) : Parsers :=
  match fuel with
  | O => mkParsers no_fuel no_fuel no_fuel
  | S f =>
      let P := parsers f in
      mkParsers
        (expression_p (expression_parser_ P) (primary_parser_ P) (statement_parser_ P) fuel)
        (primary_p (expression_parser_ P) (primary_parser_ P) (statement_parser_ P) fuel)
        (parse_statement (expression_parser_ P) (primary_parser_ P) (statement_parser_ P) fuel
           (declaration_level P fuel (parse_function args_ltr))
           (declaration_level P fuel (parse_extern_block args_ltr))
           (declaration_level P fuel (parse_class_declaration args_ltr))
           (declaration_level P fuel (parse_template_declaration args_ltr c23_strtoll)))
  end.

Definition declaration_parser_ (fuel : nat) : parser (option Statement) :=
  declaration_level (parsers (pred fuel)) fuel (parse_declaration args_ltr c23_strtoll).

(** [Parser(tokens, file_path)]; the node counter is the process's. *)
Definition Parser_new (tokens : list Token) (file_path : str) (counter : Z) : ParseState :=
  mkPState (mkParser tokens 0 file_path) counter initial_env.

(** One level per token is more than the parsers can nest. *)
Definition parse_tokens (tokens : list Token) (file_path : str) (counter : Z) : option (presult Module_) :=
  let fuel := S (length tokens) in
  parse_module (declaration_parser_ fuel) fuel (Parser_new tokens file_path counter).

(** Source text to a module, as [ModuleRegistry::parseModuleOnly] does it. *)
Definition parseModuleOnly (source file_path : str) (counter : Z) : option (outcome Module_) :=
  match tokenize source file_path with
  | None => None
  | Some (Throw e) => Some (Throw e)
  | Some (Ok tokens) =>
      match parse_tokens tokens file_path counter with
      | Some (Return m _) => Some (Ok m)
      | Some (Raise e _) => Some (Throw e)
      | None => None
      end
  end.
End FrontEnd.
