(* ===== verification/ModuleProps.v ===== *)
(** * Termination of the front end

    [parsers_specs]: every parser returns or throws when its fuel exceeds the
    number of tokens ahead. The module parser's loop ends at the end of the
    file, and its exceptions are the reports of broken declarations. *)

From S2P Require Import Prelude.
From S2P Require Import Token.
From S2P Require Import Lexer.
From S2P Require Import LexerProps.
From S2P Require Import Ast.
From S2P Require Import AstTypes.
From S2P Require Import TokenStream.
From S2P Require Import ParserMonad.
From S2P Require Import TypeParser.
From S2P Require Import ParserLogic.
From S2P Require Import ExprParser.
From S2P Require Import ExprProps.
From S2P Require Import StmtParser.
From S2P Require Import StmtProps.
From S2P Require Import DeclParser.
From S2P Require Import DeclProps.
From S2P Require Import ModuleParser.

Section ModuleRuns.
Context (ts : Input) (closed : closed_tokens ts) (args_ltr c23_strtoll : bool).

Local Notation parsers := (parsers args_ltr c23_strtoll).

Record parsers_bounded (f : nat) (P : Parsers) : Prop := {
  expression_bounded : progress ts f (expression_parser_ P);
  primary_bounded : progress ts f (primary_parser_ P);
  statement_bounded : consumes_or_ends ts f (statement_parser_ P)
}.

Section Level.
Context (f : nat) (P : Parsers) (B : parsers_bounded f P).

Lemma level_expression : progress ts (S f)
  (expression_p (expression_parser_ P) (primary_parser_ P) (statement_parser_ P) (S f)).
Proof. destruct B. by apply expression_p_spec. Qed.

Lemma level_primary : progress ts (S f)
  (primary_p (expression_parser_ P) (primary_parser_ P) (statement_parser_ P) (S f)).
Proof.
  destruct B. unfold primary_p. apply (parse_primary_spec ts closed); [done|done| |].
  - by apply parse_block_spec.
  - by apply parse_match_spec.
Qed.

Lemma level_type : progress ts (S f) (type_p (expression_parser_ P) (S f)).
Proof. destruct B. by apply type_p_spec. Qed.

Lemma level_block : progress ts (S f) (parse_block (statement_parser_ P) (S f)).
Proof. destruct B. by apply parse_block_spec. Qed.
End Level.
Local Hint Resolve level_expression level_primary level_type level_block statement_bounded : core.

Lemma parsers_specs f : parsers_bounded f (parsers f).
Proof.
  induction f as [|f IH]; [constructor; intros st H; lia|]. cbn [ModuleParser.parsers]. constructor.
  - by apply level_expression.
  - by apply level_primary.
  - pose proof IH as [He Hp Hs]. unfold declaration_level. apply (parse_statement_spec ts closed); try assumption.
    + apply (parse_function_spec ts closed); auto.
    + apply (parse_extern_block_spec ts closed); auto.
    + apply (parse_class_declaration_spec ts closed); auto.
    + apply (parse_template_declaration_spec ts closed); auto.
Qed.

Lemma declaration_parser_spec f st : remaining st < S f ->
  runs ts (declaration_parser_ args_ltr c23_strtoll (S f))
    (fun r st' => remaining st' <= remaining st /\ (r <> None -> remaining st' < remaining st)) st.
Proof.
  intros H. unfold declaration_parser_, declaration_level. cbn [pred].
  pose proof (parsers_specs f). apply (parse_declaration_spec ts closed); auto.
Qed.
End ModuleRuns.

(** ** The loop over the declarations

    [recovers m Q st]: from [st], [m] returns what satisfies [Q]; it throws
    nothing, undefined behaviour apart. *)

Definition finished (st : ParseState) : Prop := exists t, peek (stream st) = Ok t /\ type t = END_OF_FILE.

Section Recovery.
Context (tokens : list Token) (closed : forall k, closed_tokens (mkInput tokens k)).

Definition recovers {A} (m : parser A) (Q : A -> ParseState -> Prop) (st : ParseState) : Prop :=
  tokens_ (stream st) = tokens ->
  match m st with
  | Some (Return a st') => tokens_ (stream st') = tokens /\ Q a st'
  | Some (Raise e _) => exists w, e = undefined_behaviour w
  | None => False
  end.

Lemma recovers_ret {A} (a : A) (Q : A -> ParseState -> Prop) st : Q a st -> recovers (mret a) Q st.
Proof. intros H W. by split. Qed.

Lemma recovers_bind {A B} (m : parser A) (k : A -> parser B) Q st :
  recovers m (fun a st' => recovers (k a) Q st') st -> recovers (m ≫= k) Q st.
Proof.
  intros H W. specialize (H W). unfold mbind, parser_bind. destruct (m st) as [[a st'|e st']|]; [|done|done].
  destruct H as [W' H]. by apply H.
Qed.

Lemma recovers_mono {A} (m : parser A) (Q Q' : A -> ParseState -> Prop) st :
  recovers m Q st -> (forall a st', Q a st' -> Q' a st') -> recovers m Q' st.
Proof. intros H F W. specialize (H W). destruct (m st) as [[a st'|e st']|]; naive_solver. Qed.

Lemma recovers_live st : tokens_ (stream st) = tokens -> live st.
Proof. intros W. apply (within_live _ (closed (remaining st))). by split. Qed.

Lemma recovers_peek (Q : Token -> ParseState -> Prop) st :
  (forall t, peek (stream st) = Ok t -> (type t <> END_OF_FILE -> 0 < remaining st) -> Q t st) -> recovers peek_p Q st.
Proof.
  intros H W. pose proof (recovers_live st W) as L. rewrite (peek_p_live _ L). split; [done|].
  apply H; [by apply peek_upcoming|]. unfold remaining. destruct (ahead st); [|cbn; lia].
  intros N. destruct N. by apply (within_last _ (closed (remaining st))).
Qed.

Lemma recovers_consume (Q : Token -> ParseState -> Prop) st :
  (forall t st', remaining st' = pred (remaining st) -> Q t st') -> recovers consume_p Q st.
Proof.
  intros H W. destruct (consume_p_live st (recovers_live st W)) as (t & st' & -> & Ha & T & _).
  split; [unfold same_tokens in T; congruence|]. apply H. unfold remaining. rewrite Ha. by destruct (ahead st).
Qed.

(** What a declaration that threw left behind is not before its start. *)
Lemma recovers_caught {A} (m : parser A) (Q : A -> ParseState -> Prop) st :
  runs (mkInput tokens (remaining st)) m Q st ->
  recovers (caught m) (fun r st' => match r with inl a => Q a st' | inr _ => remaining st' <= remaining st end) st.
Proof.
  intros H W. specialize (H (conj W (le_n _))). unfold caught.
  destruct (m st) as [[a st'|[w|w|w|w] st']|]; try done; [by destruct H as [[? ?] ?]|..]; try (by destruct H); by exists w.
Qed.

Ltac rstep :=
  lazymatch goal with
  | |- recovers (_ ≫= _) _ _ => apply recovers_bind
  | |- recovers (mret _) _ _ => apply recovers_ret; cbv beta
  | |- recovers peek_p _ _ => apply recovers_peek; intros ? ? ?; cbv beta
  | |- recovers consume_p _ _ => apply recovers_consume; intros ? ? ?; cbv beta
  | |- recovers (if ?b then _ else _) _ _ => destruct b eqn:?; seen_tokens
  end.

Lemma not_eof t (P : Prop) : (type t <> END_OF_FILE -> P) -> (type t =t END_OF_FILE) = false -> P.
Proof. intros H E. apply H. intros F. by rewrite F in E. Qed.

Lemma skip_to_starter_recovers n d st : remaining st < n ->
  recovers (skip_to_starter n d) (fun _ st' => remaining st' <= remaining st) st.
Proof.
  revert d st. induction n as [|n IH]; intros d st H; [lia|]. cbn [skip_to_starter].
  assert (L : forall st', remaining st' = pred (remaining st) -> 0 < remaining st -> forall d',
    recovers (skip_to_starter n d') (fun _ st2 => remaining st2 <= remaining st) st').
  { intros st' R N d'. eapply recovers_mono; [apply IH; lia|]. cbv beta. intros. lia. }
  do 2 rstep. destruct (type t =t END_OF_FILE) eqn:E; [by apply recovers_ret|].
  pose proof (not_eof _ _ H1 E). repeat rstep; auto.
Qed.

(** Recovery moves on, unless it is at the end. *)
Lemma synchronize_recovers n st : remaining st < n ->
  recovers (synchronizeToNextDeclaration n)
    (fun _ st' => remaining st' < remaining st \/ finished st' /\ remaining st' <= remaining st) st.
Proof.
  intros H. unfold synchronizeToNextDeclaration. do 2 rstep. rstep. destruct (type t =t END_OF_FILE) eqn:E.
  - apply recovers_ret. destruct n as [|n]; [lia|]. cbn [skip_to_starter]. do 2 rstep.
    replace t0 with t by congruence. rewrite E. apply recovers_ret. right. split; [|done]. exists t. by apply tteq_true in E.
  - pose proof (not_eof _ _ H1 E). repeat rstep. eapply recovers_mono; [apply skip_to_starter_recovers; lia|].
    cbv beta. intros. left. lia.
Qed.

Lemma semicolons_recovers n st : remaining st < n ->
  recovers (semicolons n) (fun _ st' => remaining st' <= remaining st) st.
Proof.
  revert st. induction n as [|n IH]; intros st H; [lia|]. cbn [semicolons]. repeat rstep; [|done].
  eapply recovers_mono; [apply IH; lia|]. cbv beta. intros. lia.
Qed.

Context (parse_declaration : parser (option Statement)) (fuel : nat).
Hypothesis declaration_spec : forall k st, remaining st < fuel ->
  runs (mkInput tokens k) parse_declaration
    (fun r st' => remaining st' <= remaining st /\ (r <> None -> remaining st' < remaining st)) st.

(** The loop ends at the end of the file; no null declaration is kept. *)
Lemma module_loop_recovers n st : remaining st < fuel -> remaining st < n \/ finished st /\ 0 < n ->
  recovers (module_loop parse_declaration fuel n)
    (fun r st' => Forall is_Some r.1 /\ finished st') st.
Proof.
  revert st. induction n as [|n IH]; intros st Hf H; [lia|]. cbn [module_loop]. do 2 rstep.
  destruct (type t =t END_OF_FILE) eqn:E.
  { apply recovers_ret. split; [constructor|]. exists t. by apply tteq_true in E. }
  assert (Hn : remaining st < S n).
  { destruct H as [H|[(t' & H' & H3) _]]; [done|]. exfalso. rewrite H0 in H'. injection H' as ->. by rewrite H3 in E. }
  pose proof (not_eof _ _ H1 E) as N.
  assert (R : forall st', remaining st' < remaining st \/ finished st' /\ remaining st' <= remaining st ->
    recovers (module_loop parse_declaration fuel n) (fun r st2 => Forall is_Some r.1 /\ finished st2) st').
  { intros st' [?|[? ?]]; (apply IH; [lia|]); [left; lia|right; split; [done|lia]]. }
  rstep. eapply recovers_mono; [by apply recovers_caught, declaration_spec|]. cbv beta. intros [[d|]|e] st1; cbv iota.
  - intros [_ H2]. specialize (H2 ltac:(done)). rstep. eapply recovers_mono; [apply semicolons_recovers; lia|]. cbv beta.
    intros _ st2 H3. rstep. eapply recovers_mono; [apply R; left; lia|]. cbv beta. intros [ds es] st3 [F L]. apply recovers_ret.
    split; [by constructor|done].
  - intros [H2 _]. do 2 rstep. rstep. eapply recovers_mono; [apply synchronize_recovers; lia|]. cbv beta. intros _ st2 H5. rstep.
    eapply recovers_mono; [apply R; destruct H5 as [?|[? ?]]; [left; lia|right; split; [done|lia]]|]. cbv beta.
    intros [ds es] st3 H6. by apply recovers_ret.
  - intros H2. rstep. eapply recovers_mono; [apply synchronize_recovers; lia|]. cbv beta. intros _ st2 H5. rstep.
    eapply recovers_mono; [apply R; destruct H5 as [?|[? ?]]; [left; lia|right; split; [done|lia]]|]. cbv beta.
    intros [ds es] st3 H6. by apply recovers_ret.
Qed.

Lemma recovers_reading {A} (f : BaseParser -> A) (Q : A -> ParseState -> Prop) st :
  Q (f (stream st)) st -> recovers (reading (fun P => Ok (f P))) Q st.
Proof. intros H W. destruct st. by split. Qed.

(** Changes to what is not the token stream. *)
Lemma recovers_set_env g (Q : () -> ParseState -> Prop) st :
  (forall st', stream st' = stream st -> Q tt st') -> recovers (set_env g) Q st.
Proof. intros H W. split; [done|by apply H]. Qed.

Lemma declare_globals_recovers names st : recovers (declare_globals names) (fun _ st' => stream st' = stream st) st.
Proof.
  revert st. induction names as [|x names IH]; intros st; cbn [declare_globals]; [by apply recovers_ret|].
  apply recovers_bind, recovers_set_env. intros st' E. rewrite <- E. apply IH.
Qed.

Lemma recovers_make {A} l (g : Node -> A) (Q : A -> ParseState -> Prop) st :
  (forall n st', stream st' = stream st -> Q (g n) st') -> recovers (make l g) Q st.
Proof.
  intros H. unfold make. apply recovers_bind. intros W. unfold node_p. destruct (new_node _ _) as [n c]. split; [done|].
  by apply recovers_ret, H.
Qed.

Lemma module_parse_recovers st : remaining st < fuel ->
  recovers (ModuleParser_parse parse_declaration fuel)
    (fun r st' => Forall is_Some (module_body r.1) /\ finished st') st.
Proof.
  intros H. unfold ModuleParser_parse. apply recovers_bind, recovers_reading, recovers_bind. intros W. split; [done|].
  set (st1 := mkPState _ _ _). assert (R : remaining st1 = remaining st).
  { unfold remaining, ahead, st1. cbn [stream]. by rewrite skip_upcoming. }
  apply recovers_bind. unfold prescanModuleGlobals. do 2 (apply recovers_bind, recovers_reading).
  eapply recovers_mono; [apply declare_globals_recovers|]. cbv beta. intros _ st2 E.
  assert (R2 : remaining st2 = remaining st) by (rewrite <- R; unfold remaining; by rewrite (ahead_stream _ _ E)).
  apply recovers_bind. eapply recovers_mono; [apply module_loop_recovers; [lia|left; lia]|]. cbv beta.
  intros [ds es] st3 [F (t & Ht & He)]. apply recovers_bind, recovers_make. intros n st4 E4. apply recovers_ret.
  split; [done|]. exists t. by rewrite E4.
Qed.

(** The check behind the module finds the end, so it never throws. *)
Lemma final_check_passes st : finished st -> recovers final_check (fun _ st' => st' = st) st.
Proof.
  intros (t & Ht & He). unfold final_check. do 3 (apply recovers_bind, recovers_reading).
  unfold peek in Ht. destruct (_ !! _) as [u|]; [|by apply recovers_ret]. injection Ht as ->. rewrite He. by apply recovers_ret.
Qed.

Lemma parse_module_outcome st : tokens_ (stream st) = tokens -> remaining st < fuel ->
  match parse_module parse_declaration fuel st with
  | Some (Return m st') => Forall is_Some (module_body m) /\ finished st'
  | Some (Raise e _) => (exists w, e = undefined_behaviour w)
      \/ exists errors, errors <> [] /\ e = runtime_error ($"Parser::parse_module: " ++ aggregate errors)
  | None => False
  end.
Proof.
  intros W H. pose proof (module_parse_recovers st H W) as M. unfold parse_module, mbind, parser_bind.
  destruct (ModuleParser_parse _ _ st) as [[[m es] st'|e st']|]; [|by left|done]. destruct M as (W' & F & L).
  destruct es as [|e es].
  - pose proof (final_check_passes st' L W') as C. destruct (final_check st') as [[? st2|? ?]|]; [|by left|done].
    destruct C as [_ ->]. by split.
  - cbn. right. by exists (e :: es).
Qed.
End Recovery.

(** ** Source text *)

(** The lexer's tokens end with [END_OF_FILE], and only there. *)
Lemma tokenize_closed source path tokens k : tokenize source path = Some (Ok tokens) -> closed_tokens (mkInput tokens k).
Proof.
  intros (L & ts & _ & _ & ->)%tokenize_inv. unfold tokenize_finish. eexists (_ ++ _), _. cbn [input_tokens].
  split; [by rewrite <- (app_assoc ts)|done].
Qed.

Lemma remaining_length st : remaining st <= length (tokens_ (stream st)).
Proof. unfold remaining, ahead, upcoming. rewrite length_filter, length_drop. lia. Qed.

Section FrontEnd.
Context (args_ltr c23_strtoll : bool).

Lemma parse_tokens_outcome tokens path counter : (forall k, closed_tokens (mkInput tokens k)) ->
  match parse_tokens args_ltr c23_strtoll tokens path counter with
  | Some (Return m st') => Forall is_Some (module_body m) /\ finished st'
  | Some (Raise e _) => (exists w, e = undefined_behaviour w)
      \/ exists errors, errors <> [] /\ e = runtime_error ($"Parser::parse_module: " ++ aggregate errors)
  | None => False
  end.
Proof.
  intros C. unfold parse_tokens. apply (parse_module_outcome tokens C).
  - intros k st H. by apply (declaration_parser_spec (mkInput tokens k) (C k)).
  - done.
  - pose proof (remaining_length (Parser_new tokens path counter)) as L. cbn [Parser_new stream tokens_] in L. lia.
Qed.

End FrontEnd.
