(* ===== verification/AstWf.v ===== *)
(** * Well-formed trees

    The classes of ast.hpp hold their children in pointers that can be null.
    [wf_expr], [wf_stmt] and the others say which of them must be there: the
    operands of an operator, the condition and the branches of a conditional,
    the body of a loop or function, the elements of every list but a block's. A
    pointer that may be null (an initializer, a return type, a message, a
    statement of a block) is null or well-formed.

    A wildcard pattern is a null pointer.

    [ensures m P]: what the parser [m] returns satisfies [P], and the only
    undefined behaviour it can run into is a call through the expression
    parser's stale pointer to a statement parser. The class [Wf] gives each type
    of parser result its predicate. *)

From S2P Require Import Prelude.
From S2P Require Import Token.
From S2P Require Import Ast.
From S2P Require Import AstTypes.
From S2P Require Import TokenStream.
From S2P Require Import ParserMonad.

Definition present {A} (o : option A) : bool := match o with Some _ => true | None => false end.
Definition required_by {A} (f : A -> bool) (o : option A) : bool := match o with Some a => f a | None => false end.
Definition optional_by {A} (f : A -> bool) (o : option A) : bool := match o with Some a => f a | None => true end.

Fixpoint wf_expr (e : Expression) : bool :=
  match e with
  | IdentifierExpr _ | IntegerLiteral _ _ _ _ | FloatLiteral _ _ | StringLiteral _ | BooleanLiteral _ _ | NilLiteral _
  | ThisExpression _ | SuperExpression _ => true
  | ArrayLiteral _ es | SequenceExpression _ es | SetPattern _ es => forallb (required_by wf_expr) es
  | ObjectLiteral _ t ps => optional_by wf_type t && forallb wf_property ps
  | BorrowExpression _ x _ | PointerDerefExpression _ x | AddrOfExpression _ x | LocationExpression _ x
  | UnaryExpression _ _ x | AwaitExpression _ x | ComparisonPattern _ _ x | TypenameExpression _ x => required_by wf_expr x
  | FromIntToLocExpression _ x t | AsExpression _ x t => required_by wf_expr x && required_by wf_type t
  | ArrayElementExpression _ a i => required_by wf_expr a && required_by wf_expr i
  | ListComprehension _ x v i c =>
      required_by wf_expr x && present v && required_by wf_expr i && optional_by wf_expr c
  | BinaryExpression _ l _ r | AssignmentExpression _ l _ r | LogicalExpression _ l _ r =>
      required_by wf_expr l && required_by wf_expr r
  | CallExpression _ f args tys =>
      required_by wf_expr f && forallb (required_by wf_expr) args && forallb (required_by wf_type) tys
  | ConstructionExpression _ t args => required_by wf_type t && forallb (required_by wf_expr) args
  | ArrayInitializationExpression _ t s => required_by wf_type t && required_by wf_expr s
  | GenericInstantiationExpression _ b args _ _ => required_by wf_expr b && forallb (required_by wf_type) args
  | MemberExpression _ o p _ => required_by wf_expr o && required_by wf_expr p
  | IfExpression _ c t x | ConditionalExpression _ c t x =>
      required_by wf_expr c && required_by wf_expr t && required_by wf_expr x
  | FunctionExpression _ ps b _ => forallb wf_parameter ps && required_by wf_expr b
  | RangeExpression _ a b s => required_by wf_expr a && required_by wf_expr b && optional_by wf_expr s
  | BlockExpression _ b ts en => required_by wf_block b && forallb wf_trap ts && optional_by wf_ensure en
  | SelectExpression _ x cs =>
      required_by wf_expr x && forallb (fun c => match c with (p, r) => optional_by wf_expr p && required_by wf_expr r end) cs
  | StructPattern _ t bs => required_by wf_type t && forallb present bs
  | TypeofExpression _ x t => (present x || present t) && optional_by wf_expr x && optional_by wf_type t
  | MatchExpression _ m => required_by wf_match m
  end

with wf_stmt (s : Statement) : bool :=
  match s with
  | BlockStatement b => wf_block b
  | EmptyStatement _ | BreakStatement _ _ | ContinueStatement _ _ => true
  | TryStatement _ b _ c f => required_by wf_block b && optional_by wf_block c && optional_by wf_block f
  | ExpressionStatement _ x | PanicStatement _ x | ThrowStatement _ x | YieldStatement _ x | YieldReturnStatement _ x
  | TupleDestructureAssignment _ _ x => required_by wf_expr x
  | IfStatement _ c t e => required_by wf_expr c && required_by wf_stmt t && optional_by wf_stmt e
  | ForStatement _ i c u b _ => optional_by wf_stmt i && optional_by wf_expr c && optional_by wf_expr u && required_by wf_stmt b
  | WhileStatement _ c b _ => required_by wf_expr c && required_by wf_stmt b
  | ReturnStatement _ x | PassStatement _ x | RefailStatement _ x | ExitStatement _ x => optional_by wf_expr x
  | FreedomStatement _ b => required_by wf_block b
  | ExternStatement _ i t ps => present i && optional_by wf_type t && forallb wf_parameter ps
  | MatchStatement m => wf_match m
  | AssertStatement _ c m => required_by wf_expr c && optional_by wf_expr m
  | FailStatement _ e t => required_by wf_expr e && optional_by wf_type t
  | DeferStatement _ x => required_by wf_stmt x
  | VariableDeclaration _ i _ t e _ => present i && optional_by wf_type t && optional_by wf_expr e
  | FunctionDeclaration f => wf_function f
  | TypeAliasDeclaration _ i t => present i && required_by wf_type t
  | ImportDeclaration _ _ s _ sp _ _ => present s && forallb (fun x => present (importedName x)) sp
  | StructDeclaration _ i gs fs cs _ =>
      present i && forallb (required_by wf_generic) gs && forallb (required_by wf_field) fs && forallb (required_by wf_function) cs
  | ClassDeclaration _ i gs ms => present i && forallb (required_by wf_generic) gs && forallb (required_by wf_stmt) ms
  | FieldDeclaration f => wf_field f
  | BindDeclaration _ _ gs t self bs ms =>
      forallb (required_by wf_generic) gs && optional_by wf_type t && required_by wf_type self
      && forallb (fun b => match b with (i, ty) => present i && required_by wf_type ty end) bs && forallb (required_by wf_function) ms
  | EnumDeclaration _ i gs vs => present i && forallb (required_by wf_generic) gs && forallb (required_by wf_variant) vs
  | TemplateDeclaration _ i gs b => present i && forallb (required_by wf_generic) gs && required_by wf_stmt b
  | AspectDeclaration _ i gs sup tys ds cs ms =>
      present i && forallb (required_by wf_generic) gs && forallb present sup && forallb present tys
      && forallb (optional_by wf_type) ds && forallb (forallb (required_by wf_type)) cs && forallb (required_by wf_function) ms
  | NamespaceDeclaration _ i ms => present i && forallb (required_by wf_stmt) ms
  end

with wf_type (t : TypeNode) : bool :=
  match t with
  | TypeName _ i args => present i && forallb (required_by wf_type) args
  | PointerType _ x | VecType _ x | FutureType _ x | OptionalType _ x => required_by wf_type x
  | ArrayType _ x s => required_by wf_type x && optional_by wf_expr s
  | FunctionType _ ps r => forallb (required_by wf_type) ps && optional_by wf_type r
  | TupleTypeNode _ ms => forallb (required_by wf_type) ms
  end

with wf_property (p : ObjectProperty) : bool := match p with mkObjectProperty _ _ v => optional_by wf_expr v end
with wf_parameter (p : FunctionParameter) : bool := match p with mkFunctionParameter _ t _ => optional_by wf_type t end
with wf_generic (g : GenericParameter) : bool :=
  match g with mkGenericParameter _ i bs => present i && forallb (required_by wf_type) bs end
with wf_block (b : Block) : bool := match b with mkBlock _ ss => forallb (optional_by wf_stmt) ss end
with wf_match (m : Match) : bool :=
  match m with
  | mkMatch _ x cs gs =>
      required_by wf_expr x && forallb (fun c => match c with (p, r) => optional_by wf_expr p && required_by wf_expr r end) cs
      && forallb (optional_by wf_expr) gs
  end
with wf_trap (t : TrapClause) : bool :=
  match t with
  | mkTrapClause _ _ ty tys h _ _ => optional_by wf_type ty && forallb wf_type tys && required_by wf_stmt h
  end
with wf_ensure (e : EnsureClause) : bool := match e with mkEnsureClause _ b => required_by wf_stmt b end
with wf_field (f : Field) : bool :=
  match f with mkField _ i t e _ => present i && required_by wf_type t && optional_by wf_expr e end
with wf_function (f : Function_) : bool :=
  match f with
  | mkFunction _ i gs ps b _ _ _ r _ =>
      present i && forallb (required_by wf_generic) gs && forallb wf_parameter ps && optional_by wf_block b && optional_by wf_type r
  end
with wf_variant (v : EnumVariant) : bool :=
  match v with mkEnumVariant _ i ts _ _ => present i && forallb (required_by wf_type) ts end.

Definition wf_module (m : Module_) : bool := forallb (required_by wf_stmt) (module_body m).

(** ** The predicate of a type of results *)

Class Wf (A : Type) : Type := wf : A -> bool.

#[export] Instance wf_any_unit : Wf () := fun _ => true.
#[export] Instance wf_any_bool : Wf bool := fun _ => true.
#[export] Instance wf_any_nat : Wf nat := fun _ => true.
#[export] Instance wf_any_Z : Wf Z := fun _ => true.
#[export] Instance wf_any_str : Wf str := fun _ => true.
#[export] Instance wf_any_double : Wf double := fun _ => true.
#[export] Instance wf_any_token : Wf Token := fun _ => true.
#[export] Instance wf_any_type : Wf TokenType := fun _ => true.
#[export] Instance wf_any_location : Wf SourceLocation := fun _ => true.
#[export] Instance wf_any_node : Wf Node := fun _ => true.
#[export] Instance wf_any_identifier : Wf Identifier := fun _ => true.
#[export] Instance wf_any_string : Wf StringLit := fun _ => true.
#[export] Instance wf_specifier : Wf ImportSpecifier := fun x => present (importedName x).
#[export] Instance wf_expression : Wf Expression := wf_expr.
#[export] Instance wf_statement : Wf Statement := wf_stmt.
#[export] Instance wf_typenode : Wf TypeNode := wf_type.
#[export] Instance wf_object_property : Wf ObjectProperty := wf_property.
#[export] Instance wf_function_parameter : Wf FunctionParameter := wf_parameter.
#[export] Instance wf_generic_parameter : Wf GenericParameter := wf_generic.
#[export] Instance wf_block_node : Wf Block := wf_block.
#[export] Instance wf_match_node : Wf Match := wf_match.
#[export] Instance wf_trap_clause : Wf TrapClause := wf_trap.
#[export] Instance wf_ensure_clause : Wf EnsureClause := wf_ensure.
#[export] Instance wf_field_node : Wf Field := wf_field.
#[export] Instance wf_function_node : Wf Function_ := wf_function.
#[export] Instance wf_enum_variant : Wf EnumVariant := wf_variant.
#[export] Instance wf_module_node : Wf Module_ := wf_module.

(** A pointer may be null, an element of a list of pointers may not. *)
#[export] Instance wf_option `{Wf A} : Wf (option A) := optional_by wf.
#[export] Instance wf_list `{Wf A} : Wf (list A) | 10 := forallb wf.
#[export] Instance wf_pointers `{Wf A} : Wf (list (option A)) | 5 := forallb (required_by wf).
#[export] Instance wf_cases : Wf (list (option Expression * option Expression)) | 0 :=
  forallb (fun c => match c with (p, r) => optional_by wf_expr p && required_by wf_expr r end).
#[export] Instance wf_bindings : Wf (list (option Identifier * option TypeNode)) | 0 :=
  forallb (fun b => match b with (i, ty) => present i && required_by wf_type ty end).
#[export] Instance wf_arms : Wf (list (option Expression * option Expression * option Expression)) | 0 :=
  forallb (fun c => match c with (p, r, g) => optional_by wf_expr p && required_by wf_expr r && optional_by wf_expr g end).
#[export] Instance wf_statements : Wf (list (option Statement)) | 0 := forallb (optional_by wf_stmt).
#[export] Instance wf_form : Wf (option (option Expression)) | 0 := optional_by (required_by wf_expr).
#[export] Instance wf_prod `{Wf A, Wf B} : Wf (A * B) := fun p => match p with (a, b) => wf a && wf b end.

(** ** What parsers return *)

Definition stale_pointer : str := $"stmt_parser_".

Definition ensures {A} (m : parser A) (P : A -> bool) : Prop := forall st,
  match m st with
  | Some (Return a _) => P a = true
  | Some (Raise (undefined_behaviour w) _) => w = stale_pointer
  | _ => True
  end.

Lemma ensures_ret {A} (a : A) (P : A -> bool) : P a = true -> ensures (mret a) P.
Proof. by intros H st. Qed.

Lemma ensures_bind {A B} (m : parser A) (k : A -> parser B) P Q :
  ensures m P -> (forall a, P a = true -> ensures (k a) Q) -> ensures (m ≫= k) Q.
Proof.
  intros H K st. specialize (H st). unfold mbind, parser_bind. destruct (m st) as [[a st'|e st']|]; [|done|done].
  by apply K.
Qed.

Lemma ensures_mono {A} (m : parser A) (P Q : A -> bool) : ensures m P -> (forall a, P a = true -> Q a = true) -> ensures m Q.
Proof. intros H K st. specialize (H st). destruct (m st) as [[a st'|e st']|]; [by apply K|done|done]. Qed.

Lemma ensures_no_fuel {A} (P : A -> bool) : ensures no_fuel P.
Proof. done. Qed.

(** No exception of the token stream is undefined behaviour. *)
Definition benign {A} (o : outcome A) : Prop := match o with Throw (undefined_behaviour _) => False | _ => True end.

Lemma ensures_on_stream {A} (f : BaseParser -> outcome (A * BaseParser)) :
  (forall P, benign (f P)) -> ensures (on_stream f) (fun _ => true).
Proof. intros H st. specialize (H (stream st)). unfold on_stream. destruct (f _) as [[a P]|e]; [done|]. by destruct e. Qed.

Lemma benign_bind {A B} (m : outcome A) (k : A -> outcome B) : benign m -> (forall a, benign (k a)) -> benign (m ≫= k).
Proof. destruct m as [a|e]; [intros _ H; apply H|done]. Qed.

Lemma ensures_reading {A} (f : BaseParser -> outcome A) : (forall P, benign (f P)) -> ensures (reading f) (fun _ => true).
Proof. intros H. apply ensures_on_stream. intros P. by apply benign_bind. Qed.

Lemma ensures_throw {A} (o : BaseParser -> outcome A) (P : A -> bool) :
  (forall B, exists w, o B = Throw (runtime_error w)) -> ensures (reading o) P.
Proof. intros H st. unfold reading, on_stream. by destruct (H (stream st)) as [w ->]. Qed.

Lemma ensures_try_any {A} (m h : parser A) P : ensures m P -> ensures h P -> ensures (try_any m h) P.
Proof. intros H K st. specialize (H st). unfold try_any. destruct (m st) as [[a st'|[w|w|w|w] st']|]; try done; apply K. Qed.

Lemma ensures_try {A} (m : parser A) h P : ensures m P -> (forall w, ensures (h (runtime_error w)) P) -> ensures (try_runtime m h) P.
Proof. intros H K st. specialize (H st). unfold try_runtime. destruct (m st) as [[a st'|[w|w|w|w] st']|]; try done; apply K. Qed.

Lemma ensures_set_env f : ensures (set_env f) (fun _ => true).
Proof. done. Qed.
Lemma ensures_get_env {A} (f : ParserEnv -> A) : ensures (get_env f) (fun _ => true).
Proof. done. Qed.
Lemma ensures_node l : ensures (node_p l) (fun _ => true).
Proof. intros st. unfold node_p. by destruct (new_node _ _). Qed.

(** ** The operations of the token stream *)

Lemma benign_back P w : benign (back_or_throw P w).
Proof. unfold back_or_throw. by destruct (last _). Qed.
Lemma benign_peek P : benign (peek P).
Proof. unfold peek. destruct (_ !! _); [done|apply benign_back]. Qed.
Lemma benign_peek_next P : benign (peekNext P).
Proof. unfold peekNext. destruct (_ !! _); [done|apply benign_back]. Qed.
Lemma benign_peek_ahead P k : benign (peekAhead P k).
Proof. unfold peekAhead. destruct (nth_significant _ _); [done|apply benign_back]. Qed.
Lemma benign_consume P : benign (consume P).
Proof. unfold consume. destruct (_ !! _); [done|]. apply benign_bind; [apply benign_back|done]. Qed.
Lemma benign_previous P : benign (previous_token P).
Proof. unfold previous_token. destruct (cursor P); [done|]. by destruct (_ !! _). Qed.
Lemma benign_put_back P : benign (put_back_token P).
Proof. unfold put_back_token. destruct (cursor P) as [|[|p]]; [done..|]. by destruct (_ !! _). Qed.
Lemma benign_expect P ty : benign (expect P ty).
Proof. apply benign_bind; [apply benign_peek|]. intros t. destruct (negb _); [done|apply benign_consume]. Qed.
Lemma benign_expect_msg P ty m : benign (expect_msg P ty m).
Proof. apply benign_bind; [apply benign_peek|]. intros t. destruct (negb _); [done|apply benign_consume]. Qed.
Lemma benign_match P ty : benign (match_token P ty).
Proof. unfold match_token. destruct (check P ty); [|done]. apply benign_bind; [apply benign_consume|]. by intros []. Qed.
Lemma benign_scan P n d k : benign (angle_scan P n d k).
Proof.
  revert d k. induction n as [|n IH]; intros d k; cbn [angle_scan]; [done|]. case_match; [|done].
  apply benign_bind; [apply benign_peek_ahead|]. intros t. repeat case_match; try done; apply IH.
Qed.
Lemma benign_reserved P follow : benign (reservedWordAsTypedName P follow).
Proof.
  unfold reservedWordAsTypedName. case_match; [done|]. apply benign_bind; [apply benign_peek|]. intros t. case_match; [done|].
  apply benign_bind; [apply benign_peek_ahead|]. intros u. case_match; [done|]. apply benign_bind; [apply benign_scan|].
  intros r. repeat case_match; try done. apply benign_bind; [apply benign_peek_ahead|]. done.
Qed.

Create HintDb wf_specs.

Lemma ensures_peek : ensures peek_p (fun _ => true).
Proof. apply ensures_reading, benign_peek. Qed.
Lemma ensures_previous : ensures previous_p (fun _ => true).
Proof. apply ensures_reading, benign_previous. Qed.
Lemma ensures_consume : ensures consume_p (fun _ => true).
Proof. apply ensures_on_stream, benign_consume. Qed.
Lemma ensures_peek_next : ensures peek_next_p (fun _ => true).
Proof. apply ensures_reading, benign_peek_next. Qed.
Lemma ensures_peek_ahead k : ensures (peek_ahead_p k) (fun _ => true).
Proof. apply ensures_reading. intros P. apply benign_peek_ahead. Qed.
Lemma ensures_expect ty : ensures (expect_p ty) (fun _ => true).
Proof. apply ensures_on_stream. intros P. apply benign_expect. Qed.
Lemma ensures_expect_msg ty m : ensures (expect_msg_p ty m) (fun _ => true).
Proof. apply ensures_on_stream. intros P. apply benign_expect_msg. Qed.
Lemma ensures_match ty : ensures (match_p ty) (fun _ => true).
Proof. apply ensures_on_stream. intros P. apply benign_bind; [apply benign_match|]. by intros []. Qed.
Lemma ensures_match_tok ty : ensures (match_tok_p ty) (fun _ => true).
Proof. apply ensures_on_stream. intros P. apply benign_match. Qed.
Lemma ensures_put_back : ensures put_back_p (fun _ => true).
Proof. apply ensures_on_stream. intros P. apply benign_bind; [apply benign_put_back|done]. Qed.
Lemma ensures_reserved f : ensures (reserved_name_p f) (fun _ => true).
Proof. apply ensures_reading. intros P. apply benign_reserved. Qed.
Lemma ensures_match_first types : ensures (match_first types) (fun _ => true).
Proof.
  induction types as [|ty types IH]; cbn [match_first]; [done|]. eapply ensures_bind; [apply ensures_match|].
  intros [] _; [by apply ensures_ret|done].
Qed.
Lemma ensures_match_first_tok types : ensures (match_first_tok types) (fun _ => true).
Proof.
  induction types as [|ty types IH]; cbn [match_first_tok]; [done|]. eapply ensures_bind; [apply ensures_match_tok|].
  intros [] _; [by apply ensures_ret|done].
Qed.
Lemma ensures_pure {A} (f : BaseParser -> A) : ensures (reading (fun P => Ok (f P))) (fun _ => true).
Proof. by apply ensures_reading. Qed.
Lemma ensures_step {A} (f : BaseParser -> A * BaseParser) : ensures (on_stream (fun P => Ok (f P))) (fun _ => true).
Proof. by apply ensures_on_stream. Qed.
Lemma ensures_error_at {A} t m (P : A -> bool) : ensures (error_at t m) P.
Proof. done. Qed.
Lemma ensures_error_here {A} m (P : A -> bool) : ensures (error_here m) P.
Proof. eapply ensures_bind; [apply ensures_peek|]. done. Qed.
Lemma ensures_throw_p {A} m (P : A -> bool) : ensures (throw_p m) P.
Proof. done. Qed.
Lemma ensures_rethrow {A} w (P : A -> bool) : ensures (rethrow (runtime_error w)) P.
Proof. done. Qed.

#[export] Hint Resolve ensures_peek ensures_previous ensures_consume ensures_peek_next ensures_peek_ahead ensures_expect
  ensures_expect_msg ensures_match ensures_match_tok ensures_put_back ensures_reserved ensures_match_first
  ensures_match_first_tok ensures_set_env ensures_get_env ensures_node : wf_specs.

(** ** The tactics

    [wsolve] proves that a tree is well-formed from its parts; [wstep] applies
    the rule of the first operation of a parser, [wrun] all of them. *)

Ltac wunfold :=
  cbv beta iota delta
    [wf wf_any_unit wf_any_bool wf_any_nat wf_any_Z wf_any_str wf_any_double wf_any_token wf_any_type wf_any_location
     wf_any_node wf_any_identifier wf_any_string wf_specifier wf_expression wf_statement wf_typenode wf_object_property
     wf_function_parameter wf_generic_parameter wf_block_node wf_match_node wf_trap_clause wf_ensure_clause wf_field_node
     wf_function_node wf_enum_variant wf_module_node wf_option wf_list wf_pointers wf_cases wf_bindings wf_arms wf_statements wf_form
     wf_prod] in *;
  cbn [wf_expr wf_stmt wf_type wf_property wf_parameter wf_generic wf_block wf_match wf_trap wf_ensure wf_field wf_function
       wf_variant wf_module module_body forallb andb orb
       required_by optional_by present importedName] in *.

Ltac wsplit :=
  repeat match goal with
  | H : _ && _ = true |- _ => apply andb_true_iff in H as [? ?]
  | |- _ && _ = true => apply andb_true_iff; split
  | H : true = true |- _ => clear H
  | H : false = true |- _ => discriminate H
  end.

Ltac wease :=
  wunfold; rewrite ?List.forallb_app; cbn [forallb andb required_by optional_by]; wsplit; try reflexivity; try assumption.

Ltac wsolve :=
  wease;
  repeat match goal with
  | |- context [required_by _ ?x] => is_var x; destruct x; wease
  | |- context [optional_by _ ?x] => is_var x; destruct x; wease
  | |- context [present ?x] => is_var x; destruct x; wease
  | |- context [match ?x with _ => _ end] => is_var x; destruct x; wease
  end; solve [eauto].

#[export] Hint Extern 5 (_ = true) => solve [wsolve] : wf_specs.

Ltac wstep :=
  lazymatch goal with
  | |- ensures (mret _) _ => apply ensures_ret; cbv beta
  | |- ensures no_fuel _ => apply ensures_no_fuel
  | |- ensures (error_at _ _) _ => apply ensures_error_at
  | |- ensures (error_here _) _ => apply ensures_error_here
  | |- ensures (throw_p _) _ => apply ensures_throw_p
  | |- ensures (rethrow _) _ => apply ensures_rethrow
  | |- ensures (if ?b then _ else _) _ => destruct b eqn:?
  | |- ensures (match ?x with _ => _ end) _ => destruct x eqn:?; subst; wunfold; wsplit
  | |- ensures (let _ := _ in _) _ => cbv zeta
  | |- ensures (try_runtime _ _) _ => apply ensures_try; [|intros ?]
  | |- ensures (try_any _ _) _ => apply ensures_try_any
  | |- ensures (_ ≫= _) _ =>
      first [ eapply ensures_bind; [solve [eauto 4 with wf_specs | apply ensures_pure | apply ensures_step]|cbv beta; intros ? ?]
            | eapply (ensures_bind _ _ wf); [|cbv beta; intros ? ?] ]
  | |- ensures _ _ => first [ solve [eauto 4 with wf_specs | apply ensures_pure | apply ensures_step]
                            | eapply ensures_mono; [solve [eauto 4 with wf_specs]|cbv beta; intros ? ?] ]
  end.

Ltac wrun := repeat wstep; try wsolve.
