(* ===== verification/ExprWf.v ===== *)
(** * The expression parser builds well-formed trees

    The type parser first, then each definition of [ExprParser] in its order.
    An expression parser never returns null. *)

From S2P Require Import Prelude.
From S2P Require Import Token.
From S2P Require Import Ast.
From S2P Require Import AstTypes.
From S2P Require Import IntTypes.
From S2P Require Import TokenStream.
From S2P Require Import ParserMonad.
From S2P Require Import TypeParser.
From S2P Require Import ExprParser.
From S2P Require Import AstWf.

Local Notation req := (required_by wf).

(** ** Types *)

Section TypeWf.
Context (parse_expression : parser (option Expression)).
Hypothesis expression_wf : ensures parse_expression req.
Local Hint Resolve expression_wf : wf_specs.

Section Level.
Context (parse : parser TypeNode) (parse_wf : ensures parse wf).
Local Hint Resolve parse_wf : wf_specs.

Lemma parse_types_wf fuel : ensures (parse_types parse fuel) wf.
Proof. induction fuel as [|f IH]; cbn [parse_types]; wrun. Qed.
Local Hint Resolve parse_types_wf : wf_specs.
Lemma parse_type_list_wf fuel close : ensures (parse_type_list parse fuel close) wf.
Proof. unfold parse_type_list. wrun. Qed.
Local Hint Resolve parse_type_list_wf : wf_specs.
Lemma qualifier_wf sep m q : ensures (qualifier sep m q) wf.
Proof. unfold qualifier. wrun. Qed.
Local Hint Resolve qualifier_wf : wf_specs.
Lemma qualifiers_wf fuel q : ensures (qualifiers fuel q) wf.
Proof. revert q. induction fuel as [|f IH]; intros q; cbn [qualifiers]; wrun. Qed.
Local Hint Resolve qualifiers_wf : wf_specs.
Lemma parse_name_wf fuel l : ensures (parse_name fuel l) wf.
Proof. unfold parse_name. wrun. Qed.
Lemma parse_tuple_wf fuel l : ensures (parse_tuple parse fuel l) wf.
Proof. unfold parse_tuple. wrun. Qed.
Lemma array_size_wf : ensures (array_size parse_expression) wf.
Proof. unfold array_size. wrun. Qed.
Local Hint Resolve parse_name_wf parse_tuple_wf array_size_wf : wf_specs.
Lemma parse_array_wf : ensures (parse_array parse_expression parse) wf.
Proof. unfold parse_array. wrun. Qed.
Lemma parse_function_type_wf fuel l : ensures (parse_function parse fuel l) wf.
Proof. unfold parse_function. wrun. Qed.
Local Hint Resolve parse_array_wf parse_function_type_wf : wf_specs.
Lemma parse_atomic_wf fuel : ensures (parse_atomic_or_group_type parse_expression parse fuel) wf.
Proof. unfold parse_atomic_or_group_type. wrun. Qed.
Lemma set_arguments_wf t args : wf t = true -> wf args = true -> ensures (set_arguments t args) wf.
Proof. intros. unfold set_arguments. wrun. Qed.
Lemma make_pointer_wf l t : wf t = true -> ensures (make_pointer l t) wf.
Proof. intros. unfold make_pointer. wrun. Qed.
Lemma make_optional_wf l t : wf t = true -> ensures (make_optional l t) wf.
Proof. intros. unfold make_optional, ungroup. destruct t as [| | | | | | |n [|[m|] [|? ?]]]; wrun. Qed.
Local Hint Resolve parse_atomic_wf set_arguments_wf make_pointer_wf make_optional_wf : wf_specs.
Lemma parse_postfix_type_wf fuel t : wf t = true -> ensures (parse_postfix_type parse fuel t) wf.
Proof. revert t. induction fuel as [|f IH]; intros t Ht; cbn [parse_postfix_type]; wrun. Qed.
Local Hint Resolve parse_postfix_type_wf : wf_specs.
Lemma parse_body_wf fuel : ensures (parse_body parse_expression parse fuel) wf.
Proof. unfold parse_body. wrun. Qed.
End Level.

Lemma parse_type_wf fuel : ensures (parse_type parse_expression fuel) wf.
Proof. induction fuel as [|f IH]; [done|]. cbn [parse_type]. by apply parse_body_wf. Qed.
End TypeWf.

(** ** Expressions *)

Section ExprWf.
Context (rec_expression rec_primary : parser (option Expression)).
Context (parse_block : parser Block) (parse_match : parser (option Statement)) (fuel : nat).
Hypothesis expression_wf : ensures rec_expression req.
Hypothesis primary_wf : ensures rec_primary req.
Hypothesis block_wf : ensures parse_block wf.
Hypothesis match_wf : ensures parse_match req.
Local Hint Resolve expression_wf primary_wf block_wf match_wf : wf_specs.

Lemma make_wf {A} l (g : Node -> A) (P : A -> bool) : (forall n, P (g n) = true) -> ensures (make l g) P.
Proof. intros H. unfold make. eapply ensures_bind; [apply ensures_node|]. intros n _. by apply ensures_ret. Qed.
Lemma make_identifier_wf t : ensures (make_identifier t) (fun _ => true).
Proof. by apply make_wf. Qed.
Lemma type_here_wf : ensures (parse_type_here rec_expression fuel) wf.
Proof. by apply parse_type_wf. Qed.
Lemma has_statement_parser_wf : ensures has_statement_parser (fun _ => true).
Proof. apply ensures_get_env. Qed.
Lemma via_statement_parser_wf {A} (m : parser A) P : ensures m P -> ensures (via_statement_parser m) P.
Proof.
  intros H. eapply ensures_bind; [apply ensures_get_env|]. cbv beta. intros [] _; [done|exact H|done].
Qed.
Local Hint Resolve make_identifier_wf type_here_wf has_statement_parser_wf via_statement_parser_wf : wf_specs.

Ltac estep :=
  lazymatch goal with
  | |- ensures (make _ _) _ => apply make_wf; intros ?
  | |- ensures (@make (option _) _ _ ≫= _) _ => eapply (ensures_bind _ _ req); [|cbv beta; intros ? ?]
  | |- _ => wstep
  end.
Ltac erun := repeat estep; try wsolve.

Lemma newlines_wf n : ensures (newlines n) wf.
Proof. induction n as [|n IH]; cbn [newlines]; erun. Qed.
Local Hint Resolve newlines_wf : wf_specs.
Lemma expression_list_wf n : ensures (expression_list rec_expression n) wf.
Proof. induction n as [|n IH]; cbn [expression_list]; erun. Qed.
Local Hint Resolve expression_list_wf : wf_specs.
Lemma call_arguments_wf : ensures (call_arguments rec_expression fuel) wf.
Proof. unfold call_arguments. erun. Qed.
Lemma intrinsic_arguments_wf : ensures (intrinsic_arguments rec_expression fuel) wf.
Proof. unfold intrinsic_arguments. erun. Qed.
Lemma trailing_elements_wf n close : ensures (trailing_elements rec_expression n close) wf.
Proof. induction n as [|n IH]; cbn [trailing_elements]; erun. Qed.
Local Hint Resolve call_arguments_wf intrinsic_arguments_wf trailing_elements_wf : wf_specs.
Lemma parse_call_expression_wf e : req e = true -> ensures (parse_call_expression rec_expression fuel e) req.
Proof. intros. unfold parse_call_expression. erun. Qed.
Lemma parse_member_access_wf e : req e = true -> ensures (parse_member_access e) req.
Proof. intros. unfold parse_member_access. erun. Qed.
Lemma integer_value_wf s : ensures (lift_p (parseIntegerLiteralValue s)) (fun _ => true).
Proof.
  apply ensures_reading. intros _. unfold parseIntegerLiteralValue, stoll, stoull.
  repeat (case_match; cbn); done.
Qed.
Lemma stod_wf s : ensures (lift_p (stod s)) (fun _ => true).
Proof. apply ensures_reading. intros _. unfold stod, double_of_decimal. repeat case_match; done. Qed.
Local Hint Resolve integer_value_wf stod_wf : wf_specs.
Lemma parse_literal_wf : ensures parse_literal req.
Proof.
  unfold parse_literal. estep. destruct (type a); erun.
Qed.
Local Hint Resolve parse_call_expression_wf parse_member_access_wf parse_literal_wf : wf_specs.

(** ** Clauses *)

Lemma type_path_wf n p : ensures (type_path n p) wf.
Proof. revert p. induction n as [|n IH]; intros p; cbn [type_path]; erun. Qed.
Local Hint Resolve type_path_wf : wf_specs.
Lemma trap_type_wf : ensures (trap_type fuel) wf.
Proof. unfold trap_type. erun. Qed.
Local Hint Resolve trap_type_wf : wf_specs.
Lemma trap_alternatives_wf n : ensures (trap_alternatives fuel n) wf.
Proof. induction n as [|n IH]; cbn [trap_alternatives]; erun. Qed.
Local Hint Resolve trap_alternatives_wf : wf_specs.
Lemma trap_types_wf : ensures (trap_types fuel) wf.
Proof. unfold trap_types. erun. Qed.
Lemma clause_block_wf m1 m2 : ensures (clause_block parse_block m1 m2) wf.
Proof. unfold clause_block. erun. Qed.
Local Hint Resolve trap_types_wf clause_block_wf : wf_specs.
Lemma parse_trap_clause_wf : ensures (parse_trap_clause parse_block fuel) wf.
Proof. unfold parse_trap_clause. erun. Qed.
Lemma parse_ensure_clause_wf : ensures (parse_ensure_clause parse_block) wf.
Proof. unfold parse_ensure_clause. erun. Qed.
Local Hint Resolve parse_trap_clause_wf parse_ensure_clause_wf : wf_specs.
Lemma trap_clauses_wf n : ensures (trap_clauses parse_block fuel n) wf.
Proof. induction n as [|n IH]; cbn [trap_clauses]; erun. Qed.
Lemma ensure_clause_wf : ensures (ensure_clause parse_block) wf.
Proof. unfold ensure_clause. erun. Qed.
Local Hint Resolve trap_clauses_wf ensure_clause_wf : wf_specs.
Lemma block_expression_wf : ensures (block_expression parse_block fuel) req.
Proof. unfold block_expression. erun. Qed.
Local Hint Resolve block_expression_wf : wf_specs.

(** ** Postfix operations *)

Lemma borrow_call_wf l i : ensures (borrow_call rec_expression fuel l i) req.
Proof. unfold borrow_call, one_argument_error, intrinsic_error. erun. Qed.
Lemma intrinsic_call_wf l i e : req e = true -> ensures (intrinsic_call rec_expression fuel l i e) req.
Proof. intros. unfold intrinsic_call, one_argument_error, intrinsic_error. erun. repeat case_match; wsolve. Qed.
Local Hint Resolve borrow_call_wf intrinsic_call_wf : wf_specs.
Lemma postfix_call_wf l e : req e = true -> ensures (postfix_call rec_expression fuel l e) req.
Proof. intros. unfold postfix_call. destruct e as [[]|]; erun. Qed.
Local Hint Resolve postfix_call_wf : wf_specs.
Lemma postfix_loop_wf n e : req e = true -> ensures (postfix_loop rec_expression fuel n e) req.
Proof. revert e. induction n as [|n IH]; intros e He; cbn [postfix_loop]; erun. Qed.
Local Hint Resolve postfix_loop_wf : wf_specs.
Lemma parse_postfix_wf p : ensures p req -> ensures (parse_postfix_expr rec_expression fuel p) req.
Proof. intros Hp. unfold parse_postfix_expr. erun. Qed.
Local Hint Resolve parse_postfix_wf : wf_specs.

(** ** Select, match and if *)

Lemma set_element_wf e : wf e = true -> ensures (set_element e) wf.
Proof. intros H. destruct e; unfold set_element; erun. Qed.
Local Hint Resolve set_element_wf : wf_specs.
Lemma set_elements_wf n : ensures (set_elements rec_expression rec_primary fuel n) wf.
Proof. induction n as [|n IH]; cbn [set_elements]; erun. Qed.
Local Hint Resolve set_elements_wf : wf_specs.
Lemma parse_set_pattern_wf : ensures (parse_set_pattern rec_expression rec_primary fuel) req.
Proof. unfold parse_set_pattern. erun. Qed.
Lemma comparison_pattern_wf m : ensures (comparison_pattern rec_primary m) req.
Proof. unfold comparison_pattern. erun. Qed.
Lemma variant_bindings_wf n m : ensures (variant_bindings rec_primary n m) wf.
Proof. induction n as [|n IH]; cbn [variant_bindings]; erun. Qed.
Local Hint Resolve parse_set_pattern_wf comparison_pattern_wf variant_bindings_wf : wf_specs.
Lemma variant_pattern_wf m1 m2 e : req e = true -> ensures (variant_pattern rec_primary fuel m1 m2 e) req.
Proof. intros. unfold variant_pattern. destruct e as [[]|]; erun. Qed.
Local Hint Resolve variant_pattern_wf : wf_specs.
Lemma select_pattern_wf : ensures (select_pattern rec_expression rec_primary fuel) wf.
Proof. unfold select_pattern. erun. Qed.
Lemma select_result_wf : ensures (select_result rec_expression parse_block fuel) req.
Proof. unfold select_result. erun. Qed.
Local Hint Resolve select_pattern_wf select_result_wf : wf_specs.
Lemma select_cases_wf n : ensures (select_cases rec_expression rec_primary parse_block fuel n) wf.
Proof. induction n as [|n IH]; cbn [select_cases]; erun. Qed.
Local Hint Resolve select_cases_wf : wf_specs.
Lemma select_expression_wf : ensures (select_expression rec_expression rec_primary parse_block fuel) req.
Proof. unfold select_expression. erun. Qed.
Lemma match_expression_wf : ensures (match_expression parse_match) req.
Proof. unfold match_expression. erun. Qed.
Lemma if_expression_wf l : ensures (if_expression rec_expression l) req.
Proof. unfold if_expression. erun. Qed.
Local Hint Resolve select_expression_wf match_expression_wf if_expression_wf : wf_specs.

(** ** Lambdas *)

Lemma lambda_parameters_wf n : ensures (lambda_parameters rec_expression fuel n) wf.
Proof. induction n as [|n IH]; cbn [lambda_parameters]; erun. Qed.
Lemma lambda_body_wf : ensures (lambda_body rec_expression parse_block) req.
Proof. unfold lambda_body. erun. Qed.
Local Hint Resolve lambda_parameters_wf lambda_body_wf : wf_specs.
Lemma lambda_wf a : ensures (lambda rec_expression parse_block fuel a) req.
Proof. unfold lambda. erun. Qed.
Lemma async_prefix_wf : ensures async_prefix wf.
Proof. unfold async_prefix. erun. Qed.
Lemma lambda_start_wf : ensures lambda_start wf.
Proof. unfold lambda_start. erun. Qed.
Local Hint Resolve lambda_wf async_prefix_wf lambda_start_wf : wf_specs.

(** ** Construction and identifiers *)

Lemma construct_wf l t args : wf t = true -> wf args = true -> ensures (construct l t args) req.
Proof. intros Ht Ha. unfold construct. destruct t; erun. Qed.
Local Hint Resolve construct_wf : wf_specs.
Lemma construction_wf : ensures (construction rec_expression fuel) wf.
Proof. unfold construction. erun. Qed.
Lemma array_initialization_wf l : ensures (array_initialization rec_expression fuel l) wf.
Proof. unfold array_initialization. erun. Qed.
Lemma from_expression_wf t : ensures (from_expression rec_expression fuel t) req.
Proof. unfold from_expression. erun. Qed.
Lemma scoped_arguments_wf n : ensures (scoped_arguments rec_expression fuel n) wf.
Proof. induction n as [|n IH]; cbn [scoped_arguments]; erun. Qed.
Local Hint Resolve construction_wf array_initialization_wf from_expression_wf scoped_arguments_wf : wf_specs.
Lemma generic_scoped_wf : ensures (generic_scoped rec_expression fuel) req.
Proof. unfold generic_scoped. erun. Qed.
Lemma skip_nested_wf n d : ensures (skip_nested n d) wf.
Proof. revert d. induction n as [|n IH]; intros d; cbn [skip_nested]; erun. Qed.
Local Hint Resolve generic_scoped_wf skip_nested_wf : wf_specs.
Lemma literal_type_arguments_wf n : ensures (literal_type_arguments fuel n) wf.
Proof. induction n as [|n IH]; cbn [literal_type_arguments]; erun. Qed.
Lemma property_initializer_wf : ensures (property_initializer rec_expression) wf.
Proof. unfold property_initializer. erun. Qed.
Local Hint Resolve literal_type_arguments_wf property_initializer_wf : wf_specs.
Lemma struct_properties_wf n : ensures (struct_properties rec_expression n) wf.
Proof. induction n as [|n IH]; cbn [struct_properties]; erun. Qed.
Local Hint Resolve struct_properties_wf : wf_specs.
Lemma struct_body_wf : ensures (struct_body rec_expression fuel) wf.
Proof. unfold struct_body. erun. Qed.
Local Hint Resolve struct_body_wf : wf_specs.
Lemma typed_struct_wf g : ensures (typed_struct rec_expression fuel g) req.
Proof. unfold typed_struct. erun. Qed.
Lemma plain_identifier_wf ts p t : ensures (plain_identifier ts p t) req.
Proof. unfold plain_identifier. erun. Qed.
Local Hint Resolve typed_struct_wf plain_identifier_wf : wf_specs.
Lemma identifier_expression_wf : ensures (identifier_expression rec_expression fuel) wf.
Proof.
  unfold identifier_expression. repeat lazymatch goal with
  | |- ensures ((if is_generic_scoped _ _ then _ else _) ≫= _) _ => eapply (ensures_bind _ _ req); [|cbv beta; intros ? ?]
  | |- _ => estep
  end; wsolve.
Qed.

(** ** Groups, arrays and braces *)

Lemma literal_expression_wf : ensures literal_expression wf.
Proof. unfold literal_expression. erun. Qed.
Lemma group_or_tuple_wf : ensures (group_or_tuple rec_expression fuel) wf.
Proof. unfold group_or_tuple. erun. Qed.
Lemma comprehension_wf l e : req e = true -> ensures (comprehension rec_expression l e) req.
Proof. intros. unfold comprehension. erun. Qed.
Local Hint Resolve comprehension_wf : wf_specs.
Lemma array_or_comprehension_wf : ensures (array_or_comprehension rec_expression fuel) wf.
Proof. unfold array_or_comprehension. erun. Qed.
Lemma brace_is_block_wf : ensures brace_is_block wf.
Proof. unfold brace_is_block. erun. Qed.
Local Hint Resolve brace_is_block_wf : wf_specs.
Lemma brace_block_wf : ensures (brace_block parse_block fuel) wf.
Proof. unfold brace_block. erun. Qed.
Lemma anonymous_struct_wf : ensures (anonymous_struct rec_expression fuel) wf.
Proof. unfold anonymous_struct. erun. Qed.

Lemma first_form_wf forms : Forall (fun m => ensures m wf) forms -> ensures (first_form forms) req.
Proof. induction 1 as [|m forms Hm _ IH]; cbn [first_form]; erun. Qed.

Lemma parse_primary_wf : ensures (parse_primary rec_expression rec_primary parse_block parse_match fuel) req.
Proof.
  unfold parse_primary. repeat estep. apply first_form_wf. repeat constructor.
  - apply construction_wf.
  - apply array_initialization_wf.
  - apply identifier_expression_wf.
  - apply literal_expression_wf.
  - apply group_or_tuple_wf.
  - apply array_or_comprehension_wf.
  - apply brace_block_wf.
  - apply anonymous_struct_wf.
Qed.
Local Hint Resolve parse_primary_wf : wf_specs.

(** ** Operators *)

Lemma parse_unary_wf n : ensures (parse_unary_expr rec_expression rec_primary parse_block parse_match fuel n) req.
Proof. induction n as [|n IH]; cbn [parse_unary_expr]; erun. Qed.
Lemma cast_loop_wf n e : req e = true -> ensures (cast_loop rec_expression fuel n e) req.
Proof. revert e. induction n as [|n IH]; intros e He; cbn [cast_loop]; erun. Qed.
Local Hint Resolve parse_unary_wf cast_loop_wf : wf_specs.
Lemma parse_cast_wf : ensures (parse_cast_expr rec_expression rec_primary parse_block parse_match fuel) req.
Proof. unfold parse_cast_expr. erun. Qed.
Lemma binary_node_wf t l r : req l = true -> req r = true -> ensures (binary_node t l r) req.
Proof. intros. unfold binary_node. estep. case_match; wsolve. Qed.
Local Hint Resolve parse_cast_wf binary_node_wf : wf_specs.

Section BinaryWf.
Context (higher : parser (option Expression)) (higher_wf : ensures higher req).
Local Hint Resolve higher_wf : wf_specs.
Lemma binary_loop_wf n ops e : req e = true -> ensures (binary_loop higher n ops e) req.
Proof. revert e. induction n as [|n IH]; intros e He; cbn [binary_loop]; erun. Qed.
Local Hint Resolve binary_loop_wf : wf_specs.
Lemma parse_binary_wf ops : ensures (parse_binary_expression fuel higher ops) req.
Proof. unfold parse_binary_expression. erun. Qed.
Lemma shift_operator_wf : ensures shift_operator wf.
Proof. unfold shift_operator. erun. Qed.
Local Hint Resolve shift_operator_wf : wf_specs.
Lemma shift_loop_wf n e : req e = true -> ensures (shift_loop higher n e) req.
Proof. revert e. induction n as [|n IH]; intros e He; cbn [shift_loop]; erun. Qed.
End BinaryWf.
Local Hint Resolve parse_binary_wf shift_loop_wf : wf_specs.

Lemma parse_shift_wf : ensures (parse_shift_expr rec_expression rec_primary parse_block parse_match fuel) req.
Proof.
  assert (A : ensures (parse_additive_expr rec_expression rec_primary parse_block parse_match fuel) req).
  { unfold parse_additive_expr, parse_multiplicative_expr. auto with wf_specs. }
  unfold parse_shift_expr. erun.
Qed.
Lemma parse_logical_or_wf : ensures (parse_logical_or_expr rec_expression rec_primary parse_block parse_match fuel) req.
Proof.
  unfold parse_logical_or_expr, parse_logical_and_expr, parse_bitwise_or_expr, parse_bitwise_xor_expr,
    parse_bitwise_and_expr, parse_equality_expr, parse_relational_expr. repeat apply parse_binary_wf. apply parse_shift_wf.
Qed.
Lemma else_default_wf e : req e = true -> ensures (else_default rec_expression e) req.
Proof. intros. unfold else_default. erun. Qed.
Local Hint Resolve parse_logical_or_wf else_default_wf : wf_specs.
Lemma parse_expression_wf : ensures (parse_expression rec_expression rec_primary parse_block parse_match fuel) req.
Proof. unfold parse_expression, parse_assignment_expr. erun. Qed.
End ExprWf.
