(* ===== verification/StmtWf.v ===== *)
(** * The statement parser builds well-formed trees

    Each definition of [StmtParser] in its order. A statement of a block may be
    null ([throw expr] is), a variable declaration or a match is not. *)

From S2P Require Import Prelude.
From S2P Require Import Token.
From S2P Require Import Ast.
From S2P Require Import AstTypes.
From S2P Require Import TokenStream.
From S2P Require Import ParserMonad.
From S2P Require Import TypeParser.
From S2P Require Import ExprParser.
From S2P Require Import AstWf.
From S2P Require Import ExprWf.
From S2P Require Import StmtParser.

Local Notation req := (required_by wf).

(** ** Clones *)

Lemma clone_vector_wf {A} (P : A -> bool) f l c :
  Forall (on_pointer (fun a => forall c, P a = true -> P (f a c).1 = true)) l ->
  forallb (required_by P) l = true -> forallb (required_by P) (clone_vector f l c).1 = true.
Proof.
  intros H. revert c. induction H as [|[a|] l Ha _ IH]; intros c; cbn [forallb required_by]; [done| |done].
  intros [W1 W2]%andb_true_iff. specialize (Ha c W1).
  change (clone_vector f (Some a :: l) c)
    with (let '(b, c1) := f a c in let '(l2, c2) := clone_vector f l c1 in (Some b :: l2, c2)).
  destruct (f a c) as [b c1]. specialize (IH c1 W2). destruct (clone_vector f l c1) as [l2 c2]. cbn in *. by rewrite Ha.
Qed.

Lemma clone_pointer_wf {A} (P : A -> bool) f o c :
  on_pointer (fun a => forall c, P a = true -> P (f a c).1 = true) o ->
  required_by P o = true -> required_by P (clone_pointer f o c).1 = true.
Proof. destruct o as [a|]; [|done]. intros H W. specialize (H c W). unfold clone_pointer. by destruct (f a c). Qed.

Lemma clone_optional_wf {A} (P : A -> bool) f o c :
  on_pointer (fun a => forall c, P a = true -> P (f a c).1 = true) o ->
  optional_by P o = true -> optional_by P (clone_pointer f o c).1 = true.
Proof. destruct o as [a|]; [|done]. intros H W. specialize (H c W). unfold clone_pointer. by destruct (f a c). Qed.

Lemma TypeNode_clone_wf t c : wf_type t = true -> wf_type (TypeNode_clone t c).1 = true.
Proof.
  revert c. induction t as [n i args IH|n p IH|n el s IH|n el IH|n r IH|n ps r IH IHr|n x IH|n ms IH]
    using TypeNode_nested_ind; intros c; cbn [wf_type TypeNode_clone].
  - intros [Hi Ha]%andb_true_iff. pose proof (clone_vector_wf wf_type TypeNode_clone args c IH Ha) as W.
    destruct (clone_vector _ _ _) as [args' c1]. destruct i as [i|]; [exact W|done].
  - intros Hp. pose proof (clone_pointer_wf wf_type TypeNode_clone p c IH Hp) as W. by destruct (clone_pointer _ _ _).
  - intros [He Hs]%andb_true_iff. destruct (clone_size s c) as [s' c1] eqn:E.
    pose proof (clone_pointer_wf wf_type TypeNode_clone el c1 IH He) as W. destruct (clone_pointer _ _ _). unfold new_node. cbn [fst wf_type] in *. rewrite W.
    unfold clone_size in E. destruct s as [[]|]; by injection E as <- _.
  - intros Hp. pose proof (clone_pointer_wf wf_type TypeNode_clone el c IH Hp) as W. by destruct (clone_pointer _ _ _).
  - intros Hp. pose proof (clone_pointer_wf wf_type TypeNode_clone r c IH Hp) as W. by destruct (clone_pointer _ _ _).
  - intros [Hs Hr]%andb_true_iff. pose proof (clone_vector_wf wf_type TypeNode_clone ps c IH Hs) as W.
    destruct (clone_vector _ _ _) as [ps' c1]. pose proof (clone_optional_wf wf_type TypeNode_clone r c1 IHr Hr) as W'.
    destruct (clone_pointer _ _ _). unfold new_node. cbn [fst wf_type] in *. by rewrite W.
  - intros Hp. pose proof (clone_pointer_wf wf_type TypeNode_clone x c IH Hp) as W. by destruct (clone_pointer _ _ _).
  - intros Hp. pose proof (clone_vector_wf wf_type TypeNode_clone ms c IH Hp) as W. by destruct (clone_vector _ _ _).
Qed.

Lemma clone_wf t : wf t = true -> ensures (clone_p t) wf.
Proof. intros H st. unfold clone_p. pose proof (TypeNode_clone_wf t (node_counter st) H) as W. by destruct (TypeNode_clone _ _). Qed.

Lemma with_sub_parser_wf {A} (m : parser A) P : ensures m P -> ensures (with_sub_parser m) P.
Proof.
  intros H st. unfold with_sub_parser. set (st1 := mkPState _ _ _). specialize (H st1).
  by destruct (m st1) as [[a st'|[] st']|].
Qed.

Ltac estep :=
  lazymatch goal with
  | |- ensures (make _ _) _ => apply make_wf; intros ?
  | |- ensures (@make (option _) _ _ ≫= _) _ => eapply (ensures_bind _ _ req); [|cbv beta; intros ? ?]
  | |- _ => wstep
  end.
Ltac erun := repeat estep; try wsolve.

#[local] Hint Resolve clone_wf with_sub_parser_wf make_identifier_wf newlines_wf : wf_specs.

(** ** Helpers *)

Lemma at_end_or_wf types : ensures (at_end_or types) wf.
Proof. unfold at_end_or. erun. Qed.
Lemma skip_newlines_wf n : ensures (skip_newlines n) wf.
Proof. induction n as [|n IH]; cbn [skip_newlines]; erun. Qed.
Lemma declare_variable_wf n : ensures (declare_variable n) wf.
Proof. unfold declare_variable. erun. Qed.
#[local] Hint Resolve at_end_or_wf skip_newlines_wf declare_variable_wf : wf_specs.
Lemma declare_variables_wf ns : ensures (declare_variables ns) wf.
Proof. induction ns as [|n ns IH]; cbn [declare_variables]; erun. Qed.
Lemma deref_wf e : req e = true -> ensures (deref e) wf.
Proof. intros. unfold deref. destruct e; erun. Qed.
Lemma separator_wf types m : ensures (separator types m) wf.
Proof. unfold separator. erun. Qed.
Lemma optional_semicolon_wf : ensures optional_semicolon wf.
Proof. unfold optional_semicolon. erun. Qed.
Lemma peeked_semicolon_wf : ensures peeked_semicolon wf.
Proof. unfold peeked_semicolon. erun. Qed.
#[local] Hint Resolve declare_variables_wf deref_wf separator_wf optional_semicolon_wf peeked_semicolon_wf : wf_specs.

(** ** Desugared loops *)

Lemma ident_expr_wf l n : ensures (ident_expr l n) req.
Proof. unfold ident_expr. erun. Qed.
Lemma int_expr_wf l n : ensures (int_expr l n) req.
Proof. unfold int_expr. erun. Qed.
Lemma bool_expr_wf l n : ensures (bool_expr l n) req.
Proof. unfold bool_expr. erun. Qed.
Lemma binary_expr_wf l x op y : req x = true -> req y = true -> ensures (binary_expr l x op y) req.
Proof. intros. unfold binary_expr. erun. Qed.
Lemma assign_expr_wf l x y : req x = true -> req y = true -> ensures (assign_expr l x y) req.
Proof. intros. unfold assign_expr. erun. Qed.
Lemma block_stmt_wf l b : wf b = true -> ensures (block_stmt l b) wf.
Proof. intros. unfold block_stmt. erun. Qed.
Lemma block_expr_wf l b : wf b = true -> ensures (block_expr l b) req.
Proof. intros. unfold block_expr. erun. Qed.
#[local] Hint Resolve ident_expr_wf int_expr_wf bool_expr_wf binary_expr_wf assign_expr_wf block_stmt_wf block_expr_wf : wf_specs.
Lemma method_call_wf l x n : req x = true -> ensures (method_call l x n) req.
Proof. intros. unfold method_call. erun. Qed.
Lemma var_decl_wf l n o m : ensures m wf -> ensures (var_decl l n o m) req.
Proof. intros. unfold var_decl. erun. Qed.
Lemma var_decl_req_wf l n o m : ensures m req -> ensures (var_decl l n o m) req.
Proof. intros H. apply var_decl_wf. eapply ensures_mono; [exact H|]. intros [a|]; done. Qed.
Lemma ret_wf {A} (a : A) P : P a = true -> ensures (mret a) P.
Proof. apply ensures_ret. Qed.
#[local] Hint Resolve method_call_wf var_decl_wf var_decl_req_wf ret_wf : wf_specs.
Lemma run_once_wf l i pre m : wf pre = true -> wf m = true -> ensures (run_once l i pre m) wf.
Proof.
  intros Hp Hm. unfold run_once. erun.
Qed.
Lemma break_arm_wf l : ensures (break_arm l) req.
Proof. unfold break_arm. erun. Qed.
Lemma make_next_wf l n : ensures (make_next l n) req.
Proof. unfold make_next. erun. Qed.
#[local] Hint Resolve run_once_wf break_arm_wf make_next_wf : wf_specs.
Lemma skip_prologue_wf l i n e : wf e = true -> ensures (skip_prologue l i n e) wf.
Proof. intros. unfold skip_prologue. erun. Qed.
Lemma prepend_wf pre b : wf pre = true -> wf b = true -> wf (prepend pre b) = true.
Proof. destruct b as [n ss]. intros. cbn [prepend]. wsolve. Qed.
#[local] Hint Resolve skip_prologue_wf prepend_wf : wf_specs.
Lemma iterator_desugar_wf l t r b s h o : wf r = true -> wf b = true -> wf s = true -> wf h = true ->
  ensures (buildForLoopIteratorDesugar l t r b s h o) wf.
Proof.
  intros. unfold buildForLoopIteratorDesugar. repeat estep; try wsolve.
  all: wunfold; wsplit; first [by apply prepend_wf | wsolve].
Qed.
Lemma async_desugar_wf l t k e b : wf e = true -> wf b = true -> ensures (buildAsyncChanForDesugar l t k e b) wf.
Proof. intros. unfold buildAsyncChanForDesugar. erun. Qed.
Lemma range_loop_wf l t x y z b : wf x = true -> req y = true -> wf z = true -> wf b = true -> ensures (range_loop l t x y z b) wf.
Proof.
  intros. unfold range_loop. repeat lazymatch goal with
  | |- ensures (match z with Some _ => _ | None => _ end ≫= _) _ => eapply (ensures_bind _ _ req); [|cbv beta; intros ? ?]
  | |- _ => estep
  end; wsolve.
Qed.
#[local] Hint Resolve iterator_desugar_wf async_desugar_wf range_loop_wf : wf_specs.
Lemma iter_receiver_wf e o : wf e = true -> iter_receiver e = Some o -> wf o = true.
Proof.
  destruct e; try done. intros W. cbn [iter_receiver]. repeat case_match; try done. intros [= <-]. subst. wsolve.
Qed.
Lemma for_in_wf l t e s b : wf e = true -> wf s = true -> wf b = true -> ensures (for_in l t e s b) wf.
Proof.
  intros He Hs Hb. unfold for_in. destruct e.
  all: lazymatch goal with |- context [iter_receiver ?e] => destruct (iter_receiver e) as [o|] eqn:E;
    [pose proof (iter_receiver_wf _ _ He E)|] | _ => idtac end; erun.
  all: wunfold; wsplit; destruct s; wsolve.
Qed.
#[local] Hint Resolve for_in_wf : wf_specs.
Lemma set_label_wf x s : wf s = true -> wf (set_label x s) = true.
Proof. by destruct s. Qed.
#[local] Hint Resolve set_label_wf : wf_specs.

Section StmtWf.
Context (rec_expression rec_primary : parser (option Expression)) (rec_statement : parser (option Statement)) (fuel : nat).
Hypothesis expression_wf : ensures rec_expression req.
Hypothesis primary_wf : ensures rec_primary req.
Hypothesis statement_wf : ensures rec_statement wf.
Local Hint Resolve expression_wf primary_wf statement_wf : wf_specs.

(** ** Blocks and match *)

Lemma after_statement_wf : ensures after_statement wf.
Proof. unfold after_statement. erun. Qed.
Local Hint Resolve after_statement_wf : wf_specs.
Lemma braced_statements_wf n : ensures (braced_statements rec_statement fuel n) wf.
Proof. induction n as [|n IH]; cbn [braced_statements]; erun. Qed.
Lemma indented_statements_wf parse n : ensures parse wf -> ensures (indented_statements fuel parse n) wf.
Proof. intros Hp. induction n as [|n IH]; cbn [indented_statements]; erun. Qed.
Local Hint Resolve braced_statements_wf indented_statements_wf : wf_specs.
Lemma parse_block_wf : ensures (parse_block rec_statement fuel) wf.
Proof. unfold parse_block. erun. Qed.
Local Hint Resolve parse_block_wf : wf_specs.
Lemma pattern_bindings_wf ps : ensures (pattern_bindings ps) wf.
Proof. induction ps as [|[] ps IH]; cbn [pattern_bindings]; erun. Qed.
Local Hint Resolve pattern_bindings_wf : wf_specs.
Lemma struct_pattern_wf e : req e = true -> ensures (struct_pattern e) req.
Proof. intros. unfold struct_pattern. destruct e as [[]|]; erun. Qed.
Local Hint Resolve struct_pattern_wf comparison_pattern_wf variant_pattern_wf : wf_specs.
Lemma match_pattern_wf : ensures (match_pattern rec_primary fuel) wf.
Proof. unfold match_pattern. erun. Qed.
Lemma match_guard_wf : ensures (match_guard rec_expression) wf.
Proof. unfold match_guard. erun. Qed.
Lemma match_result_wf : ensures (match_result rec_expression rec_statement fuel) req.
Proof. unfold match_result. erun. Qed.
Local Hint Resolve match_pattern_wf match_guard_wf match_result_wf : wf_specs.
Lemma match_cases_wf n : ensures (match_cases rec_expression rec_primary rec_statement fuel n) wf.
Proof. induction n as [|n IH]; cbn [match_cases]; erun. Qed.
Local Hint Resolve match_cases_wf : wf_specs.
Lemma arms_wf cs : wf cs = true ->
  wf (map fst cs) = true /\ forallb (optional_by wf_expr) (map snd cs) = true.
Proof.
  induction cs as [|[[p r] g] cs IH]; intros H; cbn [map fst snd]; wunfold; wsplit; [done|].
  destruct IH; [done|]. split; wsolve.
Qed.
Lemma parse_match_wf : ensures (parse_match rec_expression rec_primary rec_statement fuel) req.
Proof. unfold parse_match. repeat estep. destruct (arms_wf _ ltac:(eassumption)). wsolve. Qed.
Local Hint Resolve parse_match_wf : wf_specs.

Lemma expression_p_wf : ensures (expression_p rec_expression rec_primary rec_statement fuel) req.
Proof. unfold expression_p. apply parse_expression_wf; auto with wf_specs. Qed.
Lemma primary_p_wf : ensures (primary_p rec_expression rec_primary rec_statement fuel) req.
Proof. unfold primary_p. apply parse_primary_wf; auto with wf_specs. Qed.
Lemma type_p_wf : ensures (type_p rec_expression fuel) wf.
Proof. by apply parse_type_wf. Qed.
Local Hint Resolve expression_p_wf type_p_wf : wf_specs.

(** ** Conditionals and loops *)

Lemma parse_expression_statement_wf : ensures (parse_expression_statement rec_expression rec_primary rec_statement fuel) wf.
Proof. unfold parse_expression_statement. erun. Qed.
Local Hint Resolve parse_expression_statement_wf : wf_specs.
Lemma parse_if_wf n : ensures (parse_if rec_expression rec_primary rec_statement fuel n) wf.
Proof. induction n as [|n IH]; cbn [parse_if]; erun. Qed.
Local Hint Resolve parse_if_wf : wf_specs.
Lemma parse_ensure_wf : ensures (parse_ensure rec_expression rec_primary rec_statement fuel) wf.
Proof. unfold parse_ensure. erun. Qed.
Local Hint Resolve parse_ensure_wf : wf_specs.
Lemma parse_while_wf : ensures (parse_while rec_expression rec_primary rec_statement fuel) wf.
Proof. unfold parse_while. erun. Qed.
Local Hint Resolve parse_while_wf : wf_specs.
Lemma parse_async_for_wf : ensures (parse_async_for rec_expression rec_primary rec_statement fuel) wf.
Proof. unfold parse_async_for. erun. Qed.
Local Hint Resolve parse_async_for_wf : wf_specs.

(** ** Variable declarations *)

Lemma declared_types_wf n : ensures (declared_types rec_expression fuel n) wf.
Proof. induction n as [|n IH]; cbn [declared_types]; erun. Qed.
Local Hint Resolve declared_types_wf : wf_specs.
Lemma tuple_type_wf l ts : wf ts = true -> ensures (tuple_type l ts) req.
Proof. intros. unfold tuple_type. erun. Qed.
Local Hint Resolve tuple_type_wf : wf_specs.
Lemma declaration_separator_wf : ensures declaration_separator wf.
Proof. unfold declaration_separator. erun. Qed.
Local Hint Resolve declaration_separator_wf : wf_specs.
Lemma optional_initializer_wf : ensures (optional_initializer rec_expression rec_primary rec_statement fuel) wf.
Proof. unfold optional_initializer. erun. Qed.
Local Hint Resolve optional_initializer_wf : wf_specs.
Lemma declared_name_wf m : ensures (declared_name m) wf.
Proof. unfold declared_name. erun. Qed.
Local Hint Resolve declared_name_wf : wf_specs.
Lemma auto_decl_wf l : ensures (auto_decl rec_expression rec_primary rec_statement fuel l) req.
Proof. unfold auto_decl. erun. Qed.
Local Hint Resolve auto_decl_wf : wf_specs.
Lemma legacy_var_decl_wf l : ensures (legacy_var_decl rec_expression rec_primary rec_statement fuel l) req.
Proof. unfold legacy_var_decl. erun. Qed.
Local Hint Resolve legacy_var_decl_wf : wf_specs.
Lemma const_decl_wf l : ensures (const_decl rec_expression rec_primary rec_statement fuel l) req.
Proof. unfold const_decl. erun. Qed.
Local Hint Resolve const_decl_wf : wf_specs.
Lemma unified_names_wf n l : ensures (unified_names rec_expression fuel n l) wf.
Proof. induction n as [|n IH]; cbn [unified_names]; erun. Qed.
Lemma shared_declarations_wf l c e ns : wf e = true -> wf ns = true -> ensures (shared_declarations l c e ns) wf.
Proof. intros He. induction ns as [|[i ty] ns IH]; intros Hn; cbn [shared_declarations]; erun. Qed.
Local Hint Resolve unified_names_wf shared_declarations_wf : wf_specs.
Lemma unified_decl_wf l : ensures (unified_decl rec_expression rec_primary rec_statement fuel l) req.
Proof. unfold unified_decl. erun. Qed.
Local Hint Resolve unified_decl_wf : wf_specs.
Lemma parse_var_decl_wf : ensures (parse_var_decl rec_expression rec_primary rec_statement fuel) req.
Proof. unfold parse_var_decl. erun. Qed.
Local Hint Resolve parse_var_decl_wf : wf_specs.

(** ** Lookahead *)

Lemma relaxed_syntax_wf p : ensures (relaxed_syntax rec_expression fuel p) wf.
Proof. unfold relaxed_syntax. erun. Qed.
Local Hint Resolve relaxed_syntax_wf : wf_specs.
Lemma relaxed_declaration_wf : ensures (relaxed_declaration rec_expression rec_primary rec_statement fuel) wf.
Proof. unfold relaxed_declaration. erun. Qed.
Local Hint Resolve relaxed_declaration_wf : wf_specs.
Lemma skipped_types_wf n : ensures (skipped_types rec_expression fuel n) wf.
Proof. induction n as [|n IH]; cbn [skipped_types]; erun. Qed.
Local Hint Resolve skipped_types_wf : wf_specs.
Lemma looks_like_generic_call_wf : ensures (looks_like_generic_call rec_expression fuel) wf.
Proof. unfold looks_like_generic_call. erun. Qed.
Local Hint Resolve looks_like_generic_call_wf : wf_specs.
Lemma skip_annotation_wf n d : ensures (skip_annotation n d) wf.
Proof. revert d. induction n as [|n IH]; intros d; cbn [skip_annotation]; erun. Qed.
Local Hint Resolve skip_annotation_wf : wf_specs.
Lemma destructured_names_wf n : ensures (destructured_names fuel n) wf.
Proof. induction n as [|n IH]; cbn [destructured_names]; erun. Qed.
Local Hint Resolve destructured_names_wf : wf_specs.
Lemma destructure_separator_wf : ensures destructure_separator wf.
Proof. unfold destructure_separator. erun. Qed.
Local Hint Resolve destructure_separator_wf : wf_specs.
Lemma try_parse_tuple_destructure_wf : ensures (try_parse_tuple_destructure rec_expression rec_primary rec_statement fuel) wf.
Proof. unfold try_parse_tuple_destructure. erun. Qed.
Local Hint Resolve try_parse_tuple_destructure_wf : wf_specs.
Lemma parse_pattern_wf : ensures parse_pattern req.
Proof. unfold parse_pattern. erun. Qed.
Local Hint Resolve parse_pattern_wf : wf_specs.

(** ** For *)

Lemma for_initializer_wf : ensures (for_initializer rec_expression rec_primary rec_statement fuel) wf.
Proof. unfold for_initializer. erun. Qed.
Local Hint Resolve for_initializer_wf : wf_specs.
Lemma for_clause_wf ty : ensures (for_clause rec_expression rec_primary rec_statement fuel ty) wf.
Proof. unfold for_clause. erun. Qed.
Local Hint Resolve for_clause_wf : wf_specs.
Lemma c_style_for_wf l : ensures (c_style_for rec_expression rec_primary rec_statement fuel l) wf.
Proof. unfold c_style_for. erun. Qed.
Local Hint Resolve c_style_for_wf : wf_specs.
Lemma for_in_loop_wf l t : ensures (for_in_loop rec_expression rec_primary rec_statement fuel l t) wf.
Proof. unfold for_in_loop. erun. Qed.
Local Hint Resolve for_in_loop_wf : wf_specs.
Lemma parse_for_wf : ensures (parse_for rec_expression rec_primary rec_statement fuel) wf.
Proof. unfold parse_for. erun. Qed.
Local Hint Resolve parse_for_wf : wf_specs.

(** ** Return, pass and the error statements *)

Lemma returned_values_wf n : ensures (returned_values rec_expression rec_primary rec_statement fuel n) wf.
Proof. induction n as [|n IH]; cbn [returned_values]; erun. Qed.
Local Hint Resolve returned_values_wf : wf_specs.
Lemma parse_return_wf : ensures (parse_return rec_expression rec_primary rec_statement fuel) wf.
Proof. unfold parse_return. erun. Qed.
Local Hint Resolve parse_return_wf : wf_specs.
Lemma parse_pass_wf : ensures (parse_pass rec_expression rec_primary rec_statement fuel) wf.
Proof. unfold parse_pass. erun. Qed.
Local Hint Resolve parse_pass_wf : wf_specs.
Lemma jump_label_wf : ensures jump_label wf.
Proof. unfold jump_label. erun. Qed.
Local Hint Resolve jump_label_wf : wf_specs.
Lemma parse_break_wf : ensures parse_break wf.
Proof. unfold parse_break. erun. Qed.
Local Hint Resolve parse_break_wf : wf_specs.
Lemma parse_continue_wf : ensures parse_continue wf.
Proof. unfold parse_continue. erun. Qed.
Local Hint Resolve parse_continue_wf : wf_specs.
Lemma parse_freedom_wf : ensures (parse_freedom rec_statement fuel) wf.
Proof. unfold parse_freedom. erun. Qed.
Local Hint Resolve parse_freedom_wf : wf_specs.
Lemma required_wf m l e : wf e = true -> ensures (required m l e) req.
Proof. intros. unfold required. erun. Qed.
Local Hint Resolve required_wf : wf_specs.
Lemma parse_fail_wf : ensures (parse_fail rec_expression rec_primary rec_statement fuel) wf.
Proof. unfold parse_fail. erun. Qed.
Local Hint Resolve parse_fail_wf : wf_specs.
Lemma parse_panic_wf : ensures (parse_panic rec_expression rec_primary rec_statement fuel) wf.
Proof. unfold parse_panic. erun. Qed.
Local Hint Resolve parse_panic_wf : wf_specs.
Lemma parse_exit_wf : ensures (parse_exit rec_expression rec_primary rec_statement fuel) wf.
Proof. unfold parse_exit. erun. Qed.
Local Hint Resolve parse_exit_wf : wf_specs.
Lemma parse_assert_wf : ensures (parse_assert rec_expression rec_primary rec_statement fuel) wf.
Proof. unfold parse_assert. erun. Qed.
Local Hint Resolve parse_assert_wf : wf_specs.
Lemma parse_refail_wf : ensures (parse_refail rec_expression rec_primary rec_statement fuel) wf.
Proof. unfold parse_refail. erun. Qed.
Local Hint Resolve parse_refail_wf : wf_specs.
Lemma parse_defer_wf : ensures (parse_defer rec_expression rec_primary rec_statement fuel) wf.
Proof. unfold parse_defer. erun. Qed.
Local Hint Resolve parse_defer_wf : wf_specs.
Lemma parse_await_wf : ensures (parse_await rec_expression rec_primary rec_statement fuel) wf.
Proof. unfold parse_await. erun. Qed.
Local Hint Resolve parse_await_wf : wf_specs.

(** ** Try *)

Lemma try_block_wf m : ensures (try_block rec_statement fuel m) wf.
Proof. unfold try_block. erun. Qed.
Local Hint Resolve try_block_wf : wf_specs.
Lemma catch_name_wf : ensures (catch_name rec_expression fuel) wf.
Proof. unfold catch_name. erun. Qed.
Local Hint Resolve catch_name_wf : wf_specs.
Lemma skip_parameters_wf n d : ensures (skip_parameters n d) wf.
Proof. revert d. induction n as [|n IH]; intros d; cbn [skip_parameters]; erun. Qed.
Local Hint Resolve skip_parameters_wf : wf_specs.
Lemma skip_to_dedent_wf n : ensures (skip_to_dedent n) wf.
Proof. induction n as [|n IH]; cbn [skip_to_dedent]; erun. Qed.
Local Hint Resolve skip_to_dedent_wf : wf_specs.
Lemma skip_catches_wf n : ensures (skip_catches rec_statement fuel n) wf.
Proof. induction n as [|n IH]; cbn [skip_catches]; erun. Qed.
Local Hint Resolve skip_catches_wf : wf_specs.
Lemma parse_try_wf : ensures (parse_try rec_expression rec_statement fuel) wf.
Proof. unfold parse_try. erun. Qed.
Local Hint Resolve parse_try_wf : wf_specs.

(** ** Statements *)

Context (parse_function parse_extern_block parse_class_declaration parse_template_declaration : parser (option Statement)).
Hypothesis function_wf : ensures parse_function req.
Hypothesis extern_block_wf : ensures parse_extern_block req.
Hypothesis class_wf : ensures parse_class_declaration req.
Hypothesis template_wf : ensures parse_template_declaration req.
Local Hint Resolve function_wf extern_block_wf class_wf template_wf trap_clauses_wf ensure_clause_wf : wf_specs.

Lemma declaration_wf w t m : ensures m req -> ensures (declaration w t m) wf.
Proof. intros. unfold declaration. erun. Qed.
Lemma block_statement_wf : ensures (block_statement rec_statement fuel) wf.
Proof. unfold block_statement. erun. Qed.
Lemma some_statement_wf m : ensures m wf -> ensures (some_statement m) req.
Proof. intros. unfold some_statement. erun. Qed.
Local Hint Resolve declaration_wf block_statement_wf some_statement_wf : wf_specs.
Lemma labeled_loop_wf t : ensures (labeled_loop rec_expression rec_primary rec_statement fuel t) wf.
Proof. unfold labeled_loop. repeat estep; try wsolve. wunfold. by apply set_label_wf. Qed.
Lemma lambda_declaration_wf t : ensures (lambda_declaration rec_expression rec_primary rec_statement fuel t) wf.
Proof. unfold lambda_declaration. erun. Qed.
Lemma inferred_declaration_wf t : ensures (inferred_declaration rec_expression rec_primary rec_statement fuel t) wf.
Proof. unfold inferred_declaration. erun. Qed.
Lemma fallback_statement_wf t : ensures (fallback_statement rec_expression rec_primary rec_statement fuel t) wf.
Proof. unfold fallback_statement. erun. Qed.
Local Hint Resolve labeled_loop_wf lambda_declaration_wf inferred_declaration_wf fallback_statement_wf : wf_specs.
Lemma identifier_statement_wf t : ensures (identifier_statement rec_expression rec_primary rec_statement fuel t) wf.
Proof. unfold identifier_statement. erun. Qed.
Local Hint Resolve identifier_statement_wf : wf_specs.
Lemma statement_by_token_wf t : ensures (statement_by_token rec_expression rec_primary rec_statement fuel
  parse_function parse_extern_block parse_class_declaration parse_template_declaration t) wf.
Proof. unfold statement_by_token. destruct (type t); erun; apply declaration_wf; erun. Qed.
Lemma throw_statement_wf : ensures (throw_statement rec_expression rec_primary rec_statement fuel) wf.
Proof. unfold throw_statement. erun. Qed.
Local Hint Resolve statement_by_token_wf throw_statement_wf : wf_specs.
Lemma parse_statement_wf : ensures (parse_statement rec_expression rec_primary rec_statement fuel
  parse_function parse_extern_block parse_class_declaration parse_template_declaration) wf.
Proof. unfold parse_statement. erun. Qed.
End StmtWf.
