(* ===== verification/DeclWf.v ===== *)
(** * The declaration parser builds well-formed trees

    Each definition of [DeclParser] in its order, and then the whole front end:
    a module that is returned is well-formed, and the only undefined behaviour
    the parsers can run into is a call through the stale pointer to a statement
    parser ([parsed_module_well_formed]). *)

From S2P Require Import Prelude.
From S2P Require Import Token.
From S2P Require Import Lexer.
From S2P Require Import Ast.
From S2P Require Import AstTypes.
From S2P Require Import TokenStream.
From S2P Require Import ParserMonad.
From S2P Require Import TypeParser.
From S2P Require Import ExprParser.
From S2P Require Import AstWf.
From S2P Require Import ExprWf.
From S2P Require Import StmtParser.
From S2P Require Import StmtWf.
From S2P Require Import DeclParser.
From S2P Require Import ModuleParser.

Local Notation req := (required_by wf).

Section DeclWf.
Context (args_ltr c23_strtoll : bool).
Context (expression_p : parser (option Expression)) (type_p : parser TypeNode).
Context (parse_block : parser Block) (rec_statement : parser (option Statement)) (fuel : nat).
Hypothesis expression_wf : ensures expression_p req.
Hypothesis type_wf : ensures type_p wf.
Hypothesis block_wf : ensures parse_block wf.
Hypothesis statement_wf : ensures rec_statement wf.
Local Hint Resolve expression_wf type_wf block_wf statement_wf : wf_specs.
Local Hint Resolve clone_wf with_sub_parser_wf make_identifier_wf at_end_or_wf block_stmt_wf peeked_semicolon_wf
  indented_statements_wf some_statement_wf : wf_specs.

Lemma throw_here_wf {A} m (P : A -> bool) : ensures (throw_here m) P.
Proof. eapply ensures_bind; [apply ensures_pure|]. intros l _. apply ensures_throw_p. Qed.

Ltac dstep :=
  lazymatch goal with
  | |- ensures (throw_here _) _ => apply throw_here_wf
  | |- ensures (make _ _) _ => apply make_wf; intros ?
  | |- ensures (@make (option _) _ _ ≫= _) _ => eapply (ensures_bind _ _ req); [|cbv beta; intros ? ?]
  | |- _ => wstep
  end.
Ltac erun := repeat dstep; try wsolve.

Lemma located_token_wf : ensures (located_token args_ltr) wf.
Proof. unfold located_token. erun. Qed.
Local Hint Resolve located_token_wf : wf_specs.
Lemma consumed_identifier_wf : ensures (consumed_identifier args_ltr) wf.
Proof. unfold consumed_identifier. erun. Qed.
Local Hint Resolve consumed_identifier_wf : wf_specs.
Lemma consumed_string_wf : ensures (consumed_string args_ltr) wf.
Proof. unfold consumed_string. erun. Qed.
Local Hint Resolve consumed_string_wf : wf_specs.
Lemma named_wf m : ensures (named args_ltr m) wf.
Proof. unfold named. erun. Qed.
Local Hint Resolve named_wf : wf_specs.

(** ** Generic parameters *)

Lemma aspect_bound_wf m : ensures (aspect_bound m) req.
Proof. unfold aspect_bound. erun. Qed.
Local Hint Resolve aspect_bound_wf : wf_specs.
Lemma aspect_bounds_wf n s m : ensures (aspect_bounds n s m) wf.
Proof. induction n as [|n IH]; cbn [aspect_bounds]; erun. Qed.
Local Hint Resolve aspect_bounds_wf : wf_specs.
Lemma optional_bounds_wf m1 m2 : ensures (optional_bounds fuel m1 m2) wf.
Proof. unfold optional_bounds. erun. Qed.
Local Hint Resolve optional_bounds_wf : wf_specs.
Lemma generic_parameters_wf n : ensures (generic_parameters fuel n) wf.
Proof. induction n as [|n IH]; cbn [generic_parameters]; erun. Qed.
Local Hint Resolve generic_parameters_wf : wf_specs.
Lemma parse_generic_params_wf : ensures (parse_generic_params fuel) wf.
Proof. unfold parse_generic_params. erun. Qed.
Local Hint Resolve parse_generic_params_wf : wf_specs.

(** ** Parameters *)

Lemma default_value_wf i : ensures (default_value expression_p i) wf.
Proof. unfold default_value. erun. Qed.
Local Hint Resolve default_value_wf : wf_specs.
Lemma const_modifier_wf k : ensures (const_modifier k) wf.
Proof. unfold const_modifier. erun. Qed.
Local Hint Resolve const_modifier_wf : wf_specs.
Lemma legacy_parameter_wf m : ensures (legacy_parameter args_ltr expression_p type_p m) wf.
Proof. unfold legacy_parameter. erun. Qed.
Local Hint Resolve legacy_parameter_wf : wf_specs.
Lemma unified_parameter_wf : ensures (unified_parameter args_ltr expression_p type_p) wf.
Proof. unfold unified_parameter. erun. Qed.
Local Hint Resolve unified_parameter_wf : wf_specs.
Lemma relaxed_parameter_wf : ensures (relaxed_parameter args_ltr expression_p type_p) wf.
Proof. unfold relaxed_parameter. erun. Qed.
Local Hint Resolve relaxed_parameter_wf : wf_specs.
Lemma self_parameter_wf l : ensures (self_parameter args_ltr l) wf.
Proof. unfold self_parameter. erun. Qed.
Local Hint Resolve self_parameter_wf : wf_specs.
Lemma parse_function_parameter_struct_wf : ensures (parse_function_parameter_struct args_ltr expression_p type_p) wf.
Proof. unfold parse_function_parameter_struct. erun. Qed.
Local Hint Resolve parse_function_parameter_struct_wf : wf_specs.
Lemma parse_param_wf : ensures (parse_param args_ltr expression_p type_p) wf.
Proof. unfold parse_param. erun. Qed.
Local Hint Resolve parse_param_wf : wf_specs.
Lemma parameters_wf n e : ensures (parameters args_ltr expression_p type_p n e) wf.
Proof. induction n as [|n IH]; cbn [parameters]; erun. Qed.
Local Hint Resolve parameters_wf : wf_specs.
Lemma parameter_list_wf e : ensures (parameter_list args_ltr expression_p type_p fuel e) wf.
Proof. unfold parameter_list. erun. Qed.
Local Hint Resolve parameter_list_wf : wf_specs.
Lemma declare_parameters_wf ps : ensures (declare_parameters ps) wf.
Proof. induction ps as [|p ps IH]; cbn [declare_parameters]; erun. Qed.
Local Hint Resolve declare_parameters_wf : wf_specs.

(** ** Functions *)

Lemma function_name_wf : ensures function_name wf.
Proof. unfold function_name. erun. Qed.
Local Hint Resolve function_name_wf : wf_specs.
Lemma return_types_wf n : ensures (return_types type_p n) wf.
Proof. induction n as [|n IH]; cbn [return_types]; erun. Qed.
Local Hint Resolve return_types_wf : wf_specs.
Lemma return_type_wf r : ensures (return_type type_p fuel r) wf.
Proof. unfold return_type. erun. Qed.
Local Hint Resolve return_type_wf : wf_specs.
Lemma throws_clause_wf : ensures throws_clause wf.
Proof. unfold throws_clause. erun. Qed.
Local Hint Resolve throws_clause_wf : wf_specs.
Lemma indented_body_wf : ensures (indented_body rec_statement fuel) wf.
Proof. unfold indented_body. erun. Qed.
Local Hint Resolve indented_body_wf : wf_specs.
Lemma block_body_wf : ensures (block_body parse_block rec_statement fuel) wf.
Proof. unfold block_body. erun. Qed.
Local Hint Resolve block_body_wf : wf_specs.
Lemma function_body_wf t : ensures (function_body parse_block rec_statement fuel t) wf.
Proof. unfold function_body. erun. Qed.
Local Hint Resolve function_body_wf : wf_specs.
Lemma legacy_function_wf l a : ensures (legacy_function args_ltr expression_p type_p parse_block rec_statement fuel l a) wf.
Proof. unfold legacy_function. erun. Qed.
Local Hint Resolve legacy_function_wf : wf_specs.
Lemma unified_function_wf l a : ensures (unified_function args_ltr expression_p type_p parse_block rec_statement fuel l a) wf.
Proof. unfold unified_function. erun. Qed.
Local Hint Resolve unified_function_wf : wf_specs.
Lemma parse_function_unattributed_wf : ensures (parse_function_unattributed args_ltr expression_p type_p parse_block rec_statement fuel) wf.
Proof. unfold parse_function_unattributed. erun. Qed.
Local Hint Resolve parse_function_unattributed_wf : wf_specs.
Lemma attributes_wf n h : ensures (attributes n h) wf.
Proof. revert h. induction n as [|n IH]; intros h; cbn [attributes]; erun. Qed.
Local Hint Resolve attributes_wf : wf_specs.
Lemma parse_function_node_wf : ensures (parse_function_node args_ltr expression_p type_p parse_block rec_statement fuel) wf.
Proof. unfold parse_function_node. repeat dstep; cbn [set_inline_hint]; wsolve. Qed.
Local Hint Resolve parse_function_node_wf : wf_specs.
Lemma parse_function_wf : ensures (parse_function args_ltr expression_p type_p parse_block rec_statement fuel) req.
Proof. unfold parse_function. erun. Qed.
Local Hint Resolve parse_function_wf : wf_specs.

(** ** Structs *)

Lemma repr_attribute_wf : ensures repr_attribute wf.
Proof. unfold repr_attribute. erun. Qed.
Local Hint Resolve repr_attribute_wf : wf_specs.
Lemma clone_bounds_wf bs : wf bs = true -> ensures (clone_bounds bs) wf.
Proof. induction bs as [|[x|] bs IH]; intros H; wunfold; wsplit; cbn [clone_bounds]; erun. Qed.
Local Hint Resolve clone_bounds_wf : wf_specs.
Lemma cloneGenericParams_wf gs : wf gs = true -> ensures (cloneGenericParams gs) wf.
Proof. induction gs as [|[[n [i|] bs]|] gs IH]; intros H; wunfold; wsplit; cbn [cloneGenericParams]; erun. Qed.
Local Hint Resolve cloneGenericParams_wf : wf_specs.
Lemma self_arguments_wf gs : ensures (self_arguments gs) wf.
Proof. induction gs as [|[[n [i|] bs]|] gs IH]; cbn [self_arguments]; erun. Qed.
Local Hint Resolve self_arguments_wf : wf_specs.
Lemma parse_constructor_wf s gs k : wf gs = true -> ensures (parse_constructor args_ltr expression_p type_p parse_block rec_statement fuel s gs k) wf.
Proof. intros. unfold parse_constructor. erun. Qed.
Local Hint Resolve parse_constructor_wf : wf_specs.
Lemma struct_field_wf s : ensures (struct_field type_p s) wf.
Proof. unfold struct_field. erun. Qed.
Local Hint Resolve struct_field_wf : wf_specs.
Lemma after_field_wf s : ensures (after_field s) wf.
Proof. unfold after_field. erun. Qed.
Local Hint Resolve after_field_wf : wf_specs.
Lemma struct_members_wf n s gs k : wf gs = true -> ensures (struct_members args_ltr expression_p type_p parse_block rec_statement fuel n s gs k) wf.
Proof. intros H. revert k. induction n as [|n IH]; intros k; cbn [struct_members]; erun. Qed.
Local Hint Resolve struct_members_wf : wf_specs.
Lemma parse_struct_wf : ensures (parse_struct args_ltr expression_p type_p parse_block rec_statement fuel) wf.
Proof. unfold parse_struct. erun. Qed.
Local Hint Resolve parse_struct_wf : wf_specs.

(** ** Aspects and bindings *)

Lemma after_member_wf : ensures after_member wf.
Proof. unfold after_member. erun. Qed.
Local Hint Resolve after_member_wf : wf_specs.
Lemma super_aspects_wf n a : ensures (super_aspects args_ltr n a) wf.
Proof. induction n as [|n IH]; cbn [super_aspects]; erun. Qed.
Local Hint Resolve super_aspects_wf : wf_specs.
Lemma associated_bound_wf m : ensures (associated_bound m) req.
Proof. unfold associated_bound. erun. Qed.
Local Hint Resolve associated_bound_wf : wf_specs.
Lemma associated_bounds_wf n s m : ensures (associated_bounds n s m) wf.
Proof. induction n as [|n IH]; cbn [associated_bounds]; erun. Qed.
Local Hint Resolve associated_bounds_wf : wf_specs.
Lemma associated_type_wf a l : ensures (associated_type type_p fuel a l) wf.
Proof. unfold associated_type. erun. Qed.
Local Hint Resolve associated_type_wf : wf_specs.
Lemma aspect_members_wf n a : ensures (aspect_members args_ltr expression_p type_p parse_block rec_statement fuel n a) wf.
Proof. induction n as [|n IH]; cbn [aspect_members]; erun. Qed.
Local Hint Resolve aspect_members_wf : wf_specs.
Lemma associated_wf (ts : list (Identifier * list (option TypeNode) * option TypeNode)) : wf ts = true ->
  forallb present (map (fun a => Some a.1.1) ts) = true /\ forallb (optional_by wf_type) (map (fun a => a.2) ts) = true
  /\ forallb (forallb (required_by wf_type)) (map (fun a => a.1.2) ts) = true.
Proof.
  induction ts as [|[[i bs] d] ts IH]; intros H; cbn [map fst snd]; wunfold; wsplit; [done|].
  destruct IH as (? & ? & ?); [done|]. split_and!; wsolve.
Qed.
Lemma parse_trait_declaration_wf : ensures (parse_trait_declaration args_ltr expression_p type_p parse_block rec_statement fuel) wf.
Proof.
  unfold parse_trait_declaration. repeat dstep; [done|].
  match goal with |- context [map (fun a => a.2) ?l] => destruct (associated_wf l) as (? & ? & ?); [assumption|] end. wsolve.
Qed.
Local Hint Resolve parse_trait_declaration_wf : wf_specs.
Lemma bind_members_wf n : ensures (bind_members args_ltr expression_p type_p parse_block rec_statement fuel n) wf.
Proof. induction n as [|n IH]; cbn [bind_members]; erun. Qed.
Local Hint Resolve bind_members_wf : wf_specs.
Lemma parse_impl_wf : ensures (parse_impl args_ltr expression_p type_p parse_block rec_statement fuel) wf.
Proof. unfold parse_impl. erun. Qed.
Local Hint Resolve parse_impl_wf : wf_specs.

(** ** Enums, aliases and global variables *)

Lemma variant_types_wf : ensures (variant_types type_p fuel) wf.
Proof. unfold variant_types. erun. Qed.
Local Hint Resolve variant_types_wf : wf_specs.
Lemma variant_value_wf : ensures (variant_value c23_strtoll) wf.
Proof. unfold variant_value. erun. Qed.
Local Hint Resolve variant_value_wf : wf_specs.
Lemma parse_enum_variant_wf : ensures (parse_enum_variant args_ltr c23_strtoll type_p fuel) wf.
Proof. unfold parse_enum_variant. erun. Qed.
Local Hint Resolve parse_enum_variant_wf : wf_specs.
Lemma enum_variants_wf n e : ensures (enum_variants args_ltr c23_strtoll type_p fuel n e) wf.
Proof. induction n as [|n IH]; cbn [enum_variants]; erun. Qed.
Local Hint Resolve enum_variants_wf : wf_specs.
Lemma parse_enum_declaration_wf : ensures (parse_enum_declaration args_ltr c23_strtoll type_p fuel) wf.
Proof. unfold parse_enum_declaration. erun. Qed.
Local Hint Resolve parse_enum_declaration_wf : wf_specs.
Lemma parse_type_alias_declaration_wf : ensures (parse_type_alias_declaration args_ltr type_p) wf.
Proof. unfold parse_type_alias_declaration. erun. Qed.
Local Hint Resolve parse_type_alias_declaration_wf : wf_specs.
Lemma global_initializer_wf : ensures (global_initializer expression_p) wf.
Proof. unfold global_initializer. erun. Qed.
Local Hint Resolve global_initializer_wf : wf_specs.
Lemma legacy_global_wf l c : ensures (legacy_global args_ltr expression_p type_p l c) wf.
Proof. unfold legacy_global. erun. Qed.
Local Hint Resolve legacy_global_wf : wf_specs.
Lemma unified_global_wf l a : ensures (unified_global args_ltr expression_p type_p l a) wf.
Proof. unfold unified_global. erun. Qed.
Local Hint Resolve unified_global_wf : wf_specs.
Lemma parse_global_var_declaration_wf : ensures (parse_global_var_declaration args_ltr expression_p type_p) wf.
Proof. unfold parse_global_var_declaration. erun. Qed.
Local Hint Resolve parse_global_var_declaration_wf : wf_specs.

(** ** Imports *)

Lemma namespace_import_wf W l a b : ensures (namespace_import args_ltr W l a b) wf.
Proof. unfold namespace_import. erun. Qed.
Local Hint Resolve namespace_import_wf : wf_specs.
Lemma import_specifiers_wf n W : ensures (import_specifiers args_ltr n W) wf.
Proof. induction n as [|n IH]; cbn [import_specifiers]; erun. Qed.
Local Hint Resolve import_specifiers_wf : wf_specs.
Lemma import_path_wf n W p : ensures (import_path args_ltr fuel n W p) wf.
Proof. revert p. induction n as [|n IH]; intros p; cbn [import_path]; erun. Qed.
Local Hint Resolve import_path_wf : wf_specs.
Lemma import_alias_wf W : ensures (import_alias args_ltr W) wf.
Proof. unfold import_alias. erun. Qed.
Local Hint Resolve import_alias_wf : wf_specs.
Lemma import_locator_wf W : ensures (import_locator args_ltr W) wf.
Proof. unfold import_locator. erun. Qed.
Local Hint Resolve import_locator_wf : wf_specs.
Lemma import_node_wf W l p ss a lo : wf ss = true -> ensures (import_node W l p ss a lo) wf.
Proof. intros. unfold import_node. erun. Qed.
Local Hint Resolve import_node_wf : wf_specs.
Lemma parse_import_declaration_wf : ensures (parse_import_declaration args_ltr fuel) wf.
Proof. unfold parse_import_declaration. erun. Qed.
Local Hint Resolve parse_import_declaration_wf : wf_specs.
Lemma parse_smuggle_declaration_wf : ensures (parse_smuggle_declaration args_ltr fuel) wf.
Proof. unfold parse_smuggle_declaration. erun. Qed.
Local Hint Resolve parse_smuggle_declaration_wf : wf_specs.

(** ** Extern blocks, classes and templates *)

Lemma semicolons_wf n : ensures (semicolons n) wf.
Proof. induction n as [|n IH]; cbn [semicolons]; erun. Qed.
Local Hint Resolve semicolons_wf : wf_specs.
Lemma extern_members_wf n : ensures (extern_members args_ltr expression_p type_p parse_block rec_statement fuel n) (forallb req).
Proof. induction n as [|n IH]; cbn [extern_members]; erun. Qed.
Local Hint Resolve extern_members_wf : wf_specs.
Lemma parse_extern_block_wf : ensures (parse_extern_block args_ltr expression_p type_p parse_block rec_statement fuel) req.
Proof. unfold parse_extern_block. erun. Qed.
Local Hint Resolve parse_extern_block_wf : wf_specs.
Lemma class_field_wf c t : ensures (class_field expression_p type_p c t) req.
Proof. unfold class_field. erun. Qed.
Local Hint Resolve class_field_wf : wf_specs.
Lemma class_members_wf n c : ensures (class_members args_ltr expression_p type_p parse_block rec_statement fuel n c) (forallb req).
Proof.
  induction n as [|n IH]; cbn [class_members]; repeat lazymatch goal with
  | |- ensures ((if type_in _ (_ :: _) then _ else _) ≫= _) _ => eapply (ensures_bind _ _ req); [|cbv beta; intros ? ?]
  | |- _ => dstep
  end; try wsolve.
Qed.
Local Hint Resolve class_members_wf : wf_specs.
Lemma parse_class_declaration_wf : ensures (parse_class_declaration args_ltr expression_p type_p parse_block rec_statement fuel) req.
Proof. unfold parse_class_declaration. erun. Qed.
Local Hint Resolve parse_class_declaration_wf : wf_specs.
Lemma parse_template_declaration_wf : ensures (parse_template_declaration args_ltr c23_strtoll expression_p type_p parse_block rec_statement fuel) req.
Proof.
  unfold parse_template_declaration. repeat lazymatch goal with
  | |- ensures ((if type _ =t KEYWORD_CLASS then _ else _) ≫= _) _ => eapply (ensures_bind _ _ req); [|cbv beta; intros ? ?]
  | |- _ => dstep
  end; try wsolve.
Qed.
Local Hint Resolve parse_template_declaration_wf : wf_specs.

(** ** Declarations *)

Lemma registered_wf m : ensures m req -> ensures (registered m) req.
Proof. intros. unfold registered. erun. Qed.
Local Hint Resolve registered_wf : wf_specs.
Lemma skip_angles_wf n d : ensures (skip_angles n d) wf.
Proof. revert d. induction n as [|n IH]; intros d; cbn [skip_angles]; erun. Qed.
Local Hint Resolve skip_angles_wf : wf_specs.
Lemma generic_function_ahead_wf : ensures (generic_function_ahead fuel) wf.
Proof. unfold generic_function_ahead. erun. Qed.
Local Hint Resolve generic_function_ahead_wf : wf_specs.
Lemma relaxed_global_wf : ensures (relaxed_global args_ltr expression_p type_p) wf.
Proof. unfold relaxed_global. erun. Qed.
Local Hint Resolve relaxed_global_wf : wf_specs.
Lemma skip_comments_wf n : ensures (skip_comments n) wf.
Proof. induction n as [|n IH]; cbn [skip_comments]; erun. Qed.
Local Hint Resolve skip_comments_wf : wf_specs.
Lemma parse_declaration_wf : ensures (parse_declaration args_ltr c23_strtoll expression_p type_p parse_block rec_statement fuel) wf.
Proof. unfold parse_declaration. erun. Qed.
End DeclWf.

(** ** The front end *)

Lemma caught_wf {A} (m : parser A) (P : A -> bool) :
  ensures m P -> ensures (caught m) (fun r => match r with inl a => P a | inr _ => true end).
Proof. intros H st. specialize (H st). unfold caught. by destruct (m st) as [[a st'|[] st']|]. Qed.

Lemma declare_globals_wf names : ensures (declare_globals names) wf.
Proof. induction names as [|x names IH]; cbn [declare_globals]; wrun. Qed.
Lemma skip_to_starter_wf n d : ensures (skip_to_starter n d) wf.
Proof. revert d. induction n as [|n IH]; intros d; cbn [skip_to_starter]; wrun. Qed.
Local Hint Resolve declare_globals_wf skip_to_starter_wf semicolons_wf : wf_specs.
Lemma prescan_wf : ensures prescanModuleGlobals wf.
Proof. unfold prescanModuleGlobals. wrun. Qed.
Lemma synchronize_wf n : ensures (synchronizeToNextDeclaration n) wf.
Proof. unfold synchronizeToNextDeclaration. wrun. Qed.
Local Hint Resolve prescan_wf synchronize_wf : wf_specs.

Section ModuleWf.
Context (parse_declaration : parser (option Statement)) (fuel : nat) (declaration_wf : ensures parse_declaration wf).

(** The declarations that are kept are not null. *)
Lemma module_loop_wf n : ensures (module_loop parse_declaration fuel n) (fun r => forallb req r.1).
Proof.
  induction n as [|n IH]; cbn [module_loop]; [done|]. wstep. wstep; [by apply ensures_ret|].
  eapply ensures_bind; [apply caught_wf, declaration_wf|]. cbv beta. intros [[d|]|e] Hd; cbv iota;
    repeat (eapply ensures_bind; [solve [eauto with wf_specs]|cbv beta; intros ? ?]);
    match goal with H : forallb req (fst ?r) = true |- _ => destruct r as [ds es] end;
    apply ensures_ret; cbn [fst] in *; wsolve.
Qed.

Lemma module_parse_wf : ensures (ModuleParser_parse parse_declaration fuel) (fun r => wf_module r.1).
Proof.
  unfold ModuleParser_parse. do 3 wstep. eapply ensures_bind; [apply module_loop_wf|]. intros [ds es] W.
  eapply (ensures_bind _ _ wf_module); [by apply make_wf|]. intros m Hm. by apply ensures_ret.
Qed.

Lemma parse_module_wf : ensures (parse_module parse_declaration fuel) wf_module.
Proof.
  unfold parse_module. eapply ensures_bind; [apply module_parse_wf|]. intros [m es] W. destruct es as [|e es]; [|done].
  unfold final_check. wstep; [|by apply ensures_ret]. wrun.
Qed.
End ModuleWf.

Section FrontEndWf.
Context (args_ltr c23_strtoll : bool).

Record parsers_well_formed (P : Parsers) : Prop := {
  expression_well_formed : ensures (expression_parser_ P) req;
  primary_well_formed : ensures (primary_parser_ P) req;
  statement_well_formed : ensures (statement_parser_ P) wf
}.

Lemma parsers_wf f : parsers_well_formed (parsers args_ltr c23_strtoll f).
Proof.
  induction f as [|f [He Hp Hs]]; [by constructor|]. cbn [parsers].
  pose proof (expression_p_wf _ _ _ (S f) He Hp Hs) as E. pose proof (type_p_wf _ (S f) He) as T.
  pose proof (parse_block_wf _ (S f) Hs) as B. constructor.
  - exact E.
  - by apply primary_p_wf.
  - unfold declaration_level. apply parse_statement_wf; try assumption.
    + by apply parse_function_wf.
    + by apply parse_extern_block_wf.
    + by apply parse_class_declaration_wf.
    + by apply parse_template_declaration_wf.
Qed.

Lemma declaration_parser_wf f : ensures (declaration_parser_ args_ltr c23_strtoll f) wf.
Proof.
  unfold declaration_parser_, declaration_level. destruct (parsers_wf (pred f)) as [He Hp Hs]. apply parse_declaration_wf.
  - by apply expression_p_wf.
  - by apply type_p_wf.
  - by apply parse_block_wf.
  - done.
Qed.

(** C3: Every module the parser returns is well-formed, whatever the tokens: no
    operand, condition, branch, body, name or list element that the tree must
    have is missing, at any depth. On the way the parser dereferences no null
    pointer; the only undefined behaviour it can reach is a call through the
    expression parser's pointer to a statement parser that is gone. *)
Theorem parsed_module_well_formed tokens path counter :
  match parse_tokens args_ltr c23_strtoll tokens path counter with
  | Some (Return m _) => wf_module m = true
  | Some (Raise (undefined_behaviour w) _) => w = stale_pointer
  | _ => True
  end.
Proof. apply parse_module_wf, declaration_parser_wf. Qed.
End FrontEndWf.
