(* ===== verification/FrontEnd.v ===== *)
(** * The front end, from source text to module

    What [ModuleRegistry::parseModuleOnly] does with a source text: the
    lexer's and the parsers' theorems put together, and what the parsers make
    of some texts that show where they depart from what they mean to do. *)

From S2P Require Import Prelude.
From S2P Require Import Token.
From S2P Require Import Lexer.
From S2P Require Import LexerProps.
From S2P Require Import Ast.
From S2P Require Import AstText.
From S2P Require Import TokenStream.
From S2P Require Import ParserMonad.
From S2P Require Import ParserLogic.
From S2P Require Import AstWf.
From S2P Require Import DeclWf.
From S2P Require Import ModuleParser.
From S2P Require Import ModuleProps.

Section FrontEnd.
Context (args_ltr c23_strtoll : bool).

(** What the parser raises on closed tokens: undefined behaviour through the
    stale pointer, or the report of the broken declarations. *)
Lemma parse_tokens_raises tokens path counter e st : (forall k, closed_tokens (mkInput tokens k)) ->
  parse_tokens args_ltr c23_strtoll tokens path counter = Some (Raise e st) ->
  e = undefined_behaviour stale_pointer
  \/ exists errors, errors <> [] /\ e = runtime_error ($"Parser::parse_module: " ++ aggregate errors).
Proof.
  intros C E. pose proof (parse_tokens_outcome args_ltr c23_strtoll tokens path counter C) as O.
  pose proof (parse_module_wf _ (S (length tokens)) (declaration_parser_wf args_ltr c23_strtoll (S (length tokens)))
    (Parser_new tokens path counter)) as W. fold (parse_tokens args_ltr c23_strtoll tokens path counter) in W.
  rewrite E in O, W. destruct O as [[w ->]|O]; [left; congruence|by right].
Qed.

(** C1: The front end ends on every source text: lexing and parsing return a
    module or throw, whatever the text. The module that is returned has no null
    declaration, and the parser has read up to the end of the file. What is
    thrown is the lexer's exception, or the parser's report with every broken
    declaration in it; the parser's check that all tokens were consumed never
    fires. The one other outcome is the undefined behaviour of a call through
    the pointer to a statement parser that is gone. *)
Theorem front_end_terminates source path counter :
  exists r, parseModuleOnly args_ltr c23_strtoll source path counter = Some r /\
  match r with
  | Ok m => Forall is_Some (module_body m)
  | Throw e => tokenize source path = Some (Throw e) \/ e = undefined_behaviour stale_pointer
      \/ exists errors, errors <> [] /\ e = runtime_error ($"Parser::parse_module: " ++ aggregate errors)
  end.
Proof.
  unfold parseModuleOnly. destruct (tokenize_terminates source path) as [[tokens|e] E]; rewrite E; [|eexists; split; [done|by left]].
  pose proof (fun k => tokenize_closed _ _ _ k E) as C.
  pose proof (parse_tokens_outcome args_ltr c23_strtoll tokens path counter C) as O.
  destruct (parse_tokens _ _ _ _ _) as [[m st|e st]|] eqn:P; [| |done]; (eexists; split; [done|]); [by destruct O|right].
  by apply (parse_tokens_raises tokens path counter e st).
Qed.
End FrontEnd.

(** ** Texts *)

(** The text of the module a source is parsed as. *)
Definition module_text (source : str) : option (outcome (list str)) :=
  match parseModuleOnly true false source $"a.vyb" 0 with
  | Some (Ok m) => Some (Ok (map (fun d => match d with Some d => Statement_toString d | None => [] end) (module_body m)))
  | Some (Throw e) => Some (Throw e)
  | None => None
  end.

Definition lines (l : list str) : str := concat (map (fun s => s ++ [ch_nl]) l).

(** A lambda with a block in a global initializer: fine in front of the first
    function, undefined behind it. *)
Definition lambda_global : str := $"g<Int> = |x| -> { return x }".
Definition some_function : str := $"f()<Int> -> { return 1 }".

Lemma lambda_before_function : is_Some (module_text (lines [lambda_global; some_function])) /\
  forall e, module_text (lines [lambda_global; some_function]) <> Some (Throw e).
Proof. split; [by eexists; vm_compute|]. intros e. vm_compute. discriminate. Qed.

(** The pointer the expression parser keeps to a statement parser dangles once
    a function body has been parsed: a block in a later global initializer is
    parsed through it. *)
Theorem stale_statement_parser :
  module_text (lines [some_function; lambda_global]) = Some (Throw (undefined_behaviour stale_pointer)).
Proof. vm_compute. reflexivity. Qed.

(** Several broken declarations are reported together. *)
Lemma errors_aggregated :
  module_text (lines [$"struct {"; $"struct {"; some_function]) =
  Some (Throw (runtime_error ($"Parser::parse_module: " ++ aggregate
    [$"Parse error at a.vyb:1:1: Expected struct name at a.vyb:1:8"; $"Parse error at a.vyb:2:1: Expected struct name at a.vyb:2:8"]))).
Proof. vm_compute. reflexivity. Qed.

(** A bare [return] takes the expression on the next line. *)
Lemma return_takes_next_line :
  module_text (lines [$"f()<Int> -> {"; $"  return"; $"  g()"; $"}"])
  = module_text (lines [$"f()<Int> -> {"; $"  return g()"; $"}"]).
Proof. vm_compute. reflexivity. Qed.

(** [break] takes the name on the next line as its label. *)
Lemma break_takes_next_line :
  module_text (lines [$"f()<Int> -> {"; $"  while (c) {"; $"    break"; $"    g()"; $"  }"; $"}"])
  = module_text (lines [$"f()<Int> -> {"; $"  while (c) {"; $"    break g"; $"    ()"; $"  }"; $"}"]).
Proof. vm_compute. reflexivity. Qed.

(** [throw e] leaves nothing in the block. *)
Lemma throw_dropped :
  module_text (lines [$"f()<Int> -> { throw e }"]) = module_text (lines [$"f()<Int> -> { }"]).
Proof. vm_compute. reflexivity. Qed.

(** Default values of parameters are dropped. *)
Lemma default_value_dropped :
  module_text (lines [$"f(x<Int> = 3)<Int> -> { return x }"]) = module_text (lines [$"f(x<Int>)<Int> -> { return x }"]).
Proof. vm_compute. reflexivity. Qed.

(** The arguments of a type argument of a struct literal are dropped. *)
Lemma nested_arguments_dropped :
  module_text (lines [$"f()<Int> -> { p<P> = P<Vec<Int>>{a: 1} }"]) = module_text (lines [$"f()<Int> -> { p<P> = P<Vec>{a: 1} }"]).
Proof. vm_compute. reflexivity. Qed.

(** An enum value with a leading zero is octal. *)
Lemma enum_value_octal :
  module_text (lines [$"enum E { A = 010 }"]) = module_text (lines [$"enum E { A = 8 }"]).
Proof. vm_compute. reflexivity. Qed.

(** The clauses after the first [catch] are dropped. *)
Lemma catches_dropped :
  module_text (lines [$"f()<Int> -> { try { a() } catch (e) { b() } catch (g) { c() } }"])
  = module_text (lines [$"f()<Int> -> { try { a() } catch (e) { b() } }"]).
Proof. vm_compute. reflexivity. Qed.

(** [x = e] for a declared [x] is parsed twice, first as the start of a tuple
    assignment; a variable that a block of [e] declares is known the second
    time, and its declaration becomes an assignment. *)
Lemma declaration_lost_on_second_parse :
  module_text (lines [$"f()<Int> -> { x = 0; x = g(|| -> { y = 1; return y }) }"])
  = Some (Ok [removelast (lines [$"fn<Int> f() -> {"; $"  var x = 0;"; $"  (x = g(fn() => { {"; $"    (y = 1);"; $"    return y;";
      $"  } }));"; $"}"])]).
Proof. vm_compute. reflexivity. Qed.

(** A function inside a function forgets the outer one's variables: the
    assignment to the parameter declares a variable. *)
Lemma nested_function_forgets_parameters :
  module_text (lines [$"f(a<Int>)<Int> -> {"; $"  async g()<Int> -> { return 1 }"; $"  a = 2"; $"}"])
  = Some (Ok [removelast (lines [$"fn<Int> f(a: Int) -> {"; $"  async fn<Int> g() -> {"; $"    return 1;"; $"  }"; $"  var a = 2;";
      $"}"])]).
Proof. vm_compute. reflexivity. Qed.

(** [view(x)] is refused at the start of a line: the parenthesis is looked for
    behind the line break instead of behind the name. *)
Lemma view_refused_on_new_line :
  exists e, module_text (lines [$"f()<Int> -> { g("; $"  view(x)) }"]) = Some (Throw e)
  /\ module_text (lines [$"f()<Int> -> { g(view(x)) }"]) = Some (Ok [removelast (lines [$"fn<Int> f() -> {"; $"  g(view(x));"; $"}"])]).
Proof. eexists. split; vm_compute; reflexivity. Qed.
