(* ===== verification/Precedence.v ===== *)
(** * Operators

    What the expression parser makes of a sentence of literals,
    prefix operators, infix operators and parentheses. A [Sentence] is a reading
    of the tokens, [fits k] says that it respects the levels of the operators
    from [k] on, [denotes] relates it to a tree of the program; the theorem is
    that the parser finds exactly the reading that fits. *)

From S2P Require Import Prelude.
From S2P Require Import Token.
From S2P Require Import TokenStream.
From S2P Require Import Ast.
From S2P Require Import IntTypes.
From S2P Require Import ParserMonad.
From S2P Require Import TypeParser.
From S2P Require Import ExprParser.
From S2P Require Import StmtParser.
From S2P Require Import ModuleParser.
Local Open Scope vyb_scope.
Local Open Scope nat_scope.

(** ** Sentences *)

Inductive Sentence : Type :=
  | Literal (t : Token)
  | Group (open : Token) (s : Sentence) (close : Token)
  | Prefix (op : Token) (s : Sentence)
  | Infix (a : Sentence) (op : list Token) (b : Sentence).

Fixpoint flatten (s : Sentence) : list Token :=
  match s with
  | Literal t => [t]
  | Group o s c => o :: flatten s ++ [c]
  | Prefix op s => op :: flatten s
  | Infix a op b => flatten a ++ op ++ flatten b
  end.

(** The level of a token that is an operator on its own: assignments are the
    weakest, [*], [/] and [%] the strongest. *)
Definition token_level (ty : TokenType) : option nat :=
  match ty with
  | EQ | PLUSEQ | MINUSEQ | MULTIPLYEQ | DIVEQ | MODEQ | LSHIFTEQ | RSHIFTEQ | BITWISEANDEQ | BITWISEOREQ | BITWISEXOREQ
  | COLONEQ => Some 0
  | OR => Some 1
  | AND => Some 2
  | PIPE => Some 3
  | CARET => Some 4
  | AMPERSAND => Some 5
  | EQEQ | NOTEQ => Some 6
  | LT | LTEQ | GT | GTEQ | DOTDOT => Some 7
  | LSHIFT | RSHIFT => Some 8
  | PLUS | MINUS => Some 9
  | MULTIPLY | DIVIDE | MODULO => Some 10
  | _ => None
  end.

(** An operator with its level and the token its node carries. The lexer has
    no shift token: [<<] and [>>] are two brackets. *)
Definition operator (op : list Token) : option (nat * Token) :=
  match op with
  | [t] => l ← token_level (type t); Some (l, t)
  | [t; u] =>
      if (type t =t LT) && (type u =t LT) then Some (8, mkToken LSHIFT $"<<" (location t))
      else if (type t =t GT) && (type u =t GT) then Some (8, mkToken RSHIFT $">>" (location t))
      else None
  | _ => None
  end.

Lemma bracket_operators t u l tk : operator [t; u] = Some (l, tk) ->
  (type t = LT /\ type u = LT /\ tk = mkToken LSHIFT $"<<" (location t))
  \/ (type t = GT /\ type u = GT /\ tk = mkToken RSHIFT $">>" (location t)).
Proof.
  cbn. destruct ((type t =t LT) && (type u =t LT)) eqn:E1; [|destruct ((type t =t GT) && (type u =t GT)) eqn:E2; [|done]];
    intros [= _ <-].
  - apply andb_prop in E1 as [?%tteq_true ?%tteq_true]. by left.
  - apply andb_prop in E2 as [?%tteq_true ?%tteq_true]. by right.
Qed.

Definition operator_level (op : list Token) : option nat := fst <$> operator op.

Lemma operator_range op l tk : operator op = Some (l, tk) -> l <= 10.
Proof.
  destruct op as [|t [|u [|]]]; try done; cbn; [destruct (type t)|repeat case_match]; try done; cbn; intros; simplify_eq; lia.
Qed.

(** Level 11 holds the prefix operators and what binds tighter. *)
Fixpoint fits (k : nat) (s : Sentence) : bool :=
  match s with
  | Literal _ => true
  | Group _ s _ => fits 0 s
  | Prefix _ s => fits 11 s
  | Infix a op b =>
      match operator_level op with
      | Some 0 => (k =? 0) && fits 1 a && fits 0 b
      | Some l => (k <=? l) && fits l a && fits (S l) b
      | None => false
      end
  end.

Definition literal_value (t : Token) : option (Node -> Expression) :=
  match type t with
  | INT_LITERAL =>
      match parseIntegerLiteralValue (lexeme t) with
      | Ok p => Some (fun n => IntegerLiteral n (sval p) (isUnsigned p) (uval p))
      | Throw _ => None
      end
  | FLOAT_LITERAL => match stod (lexeme t) with Ok v => Some (fun n => FloatLiteral n v) | Throw _ => None end
  | STRING_LITERAL => Some (fun n => StringLiteral (mkStringLit n (lexeme t)))
  | KEYWORD_TRUE => Some (fun n => BooleanLiteral n true)
  | KEYWORD_FALSE => Some (fun n => BooleanLiteral n false)
  | KEYWORD_NULL | KEYWORD_NIL => Some (fun n => NilLiteral n)
  | _ => None
  end.

Definition prefix_tokens : list TokenType := [BANG; MINUS; TILDE].

(** The tokens are of the kinds the sentence says. *)
Fixpoint spelled (s : Sentence) : bool :=
  match s with
  | Literal t => bool_decide (is_Some (literal_value t))
  | Group o s c => (type o =t LPAREN) && spelled s && (type c =t RPAREN)
  | Prefix op s => type_in op prefix_tokens && spelled s
  | Infix a op b => spelled a && bool_decide (is_Some (operator op)) && spelled b
  end.

(** The node of an infix operator. *)
Definition infix_node (op : Token) (n : Node) (x y : Expression) : Expression :=
  match token_level (type op) with
  | Some 0 => AssignmentExpression n (Some x) op (Some y)
  | _ => if type op =t DOTDOT then RangeExpression n (Some x) (Some y) None else BinaryExpression n (Some x) op (Some y)
  end.

(** The tree says what the sentence says: parentheses leave no trace, and a
    node lies where its operator is. *)
Inductive denotes : Sentence -> Expression -> Prop :=
  | denotes_literal t v n : literal_value t = Some v -> loc n = location t -> denotes (Literal t) (v n)
  | denotes_group o s c x : denotes s x -> denotes (Group o s c) x
  | denotes_prefix op s n x : loc n = location op -> denotes s x ->
      denotes (Prefix op s) (UnaryExpression n op (Some x))
  | denotes_infix a op b l t n x y : operator op = Some (l, t) -> loc n = location t -> denotes a x -> denotes b y ->
      denotes (Infix a op b) (infix_node t n x y).

(** What may follow a sentence: no operator, no postfix and no [as] or [else]. *)
Definition ends_expression (t : Token) : bool :=
  bool_decide (token_level (type t) = None)
  && negb (type_in t [LPAREN; DOT; COLONCOLON; LBRACKET; KEYWORD_AS; KEYWORD_ELSE]).

(** ** Steps *)

Lemma yields_check ty t u st (Q : bool -> ParseState -> Prop) :
  ahead st = t :: u -> Q (type t =t ty) st -> yields (check_p ty) st Q.
Proof.
  intros E H. exists (type t =t ty), st. unfold check_p, reading, on_stream. rewrite check_upcoming.
  unfold ahead in E. rewrite E. split_and!; [by destruct st|done|done].
Qed.

Lemma yields_check_first types t u st (Q : bool -> ParseState -> Prop) :
  ahead st = t :: u -> Q (type_in t types) st -> yields (check_first types) st Q.
Proof.
  intros E H. exists (type_in t types), st. split_and!; [|done|done]. unfold check_first, reading, on_stream, type_in.
  replace (existsb (check (stream st)) types) with (existsb (tteq (type t)) types); [by destruct st|].
  clear H. unfold ahead in E. induction types as [|ty types IH]; [done|]. cbn [existsb]. by rewrite check_upcoming, E, IH.
Qed.

(** A token has been read, so [previous_token] finds one. *)
Definition has_previous (st : ParseState) : Prop := exists t, previous_token (stream st) = Ok t.

Lemma consumed_has_previous t st st' : consumed t st st' -> has_previous st'.
Proof.
  intros [_ _ H _]. unfold previous_p, reading, on_stream in H. exists t.
  destruct (previous_token (stream st')) as [v|w]; [|discriminate H]. by injection H as -> _.
Qed.

Lemma yields_consume t u st (Q : Token -> ParseState -> Prop) : live st -> ahead st = t :: u ->
  (forall st', has_previous st' -> ahead st' = u -> Q t st') -> yields consume_p st Q.
Proof.
  intros L E H. unfold yields, consume_p, on_stream. destruct (put_back_stream (stream st) t u E) as (P' & Hc & Hu & Hp & _ & _ & _ & T' & _).
  rewrite Hc. cbn. eexists _, _. split_and!; [reflexivity|done|]. apply H; [by exists t|done].
Qed.

Lemma yields_expected t u ty st (Q : Token -> ParseState -> Prop) : live st -> ahead st = t :: u -> type t = ty ->
  (forall st', has_previous st' -> ahead st' = u -> Q t st') -> yields (expect_p ty) st Q.
Proof.
  intros L E Et H. unfold yields, expect_p, on_stream, expect. rewrite (peek_upcoming _ L).
  destruct (put_back_stream (stream st) t u E) as (P' & Hc & Hu & Hp & _ & _ & _ & T' & _).
  unfold ahead in E. rewrite E. cbn. rewrite (proj2 (tteq_true _ _) Et). cbn. rewrite Hc. cbn. eexists _, _.
  split_and!; [reflexivity|done|]. apply H; [by exists t|done].
Qed.

Lemma yields_match_tok ty t u st (Q : option Token -> ParseState -> Prop) : live st -> ahead st = t :: u ->
  (if type t =t ty then forall st', has_previous st' -> ahead st' = u -> Q (Some t) st' else Q None st) -> yields (match_tok_p ty) st Q.
Proof.
  intros L E H. unfold yields, match_tok_p, on_stream, match_token. rewrite check_upcoming.
  destruct (put_back_stream (stream st) t u E) as (P' & Hc & Hu & Hp & _ & _ & _ & T' & _).
  unfold ahead in E. rewrite E. destruct (type t =t ty).
  - rewrite Hc. cbn. eexists _, _. split_and!; [reflexivity|done|]. apply H; [by exists t|done].
  - eexists None, st. by destruct st.
Qed.

Lemma yields_first_tok types t u st (Q : option Token -> ParseState -> Prop) : live st -> ahead st = t :: u ->
  (if type_in t types then forall st', has_previous st' -> ahead st' = u -> Q (Some t) st' else Q None st) ->
  yields (match_first_tok types) st Q.
Proof.
  intros L E. induction types as [|ty types IH]; cbn [match_first_tok]; [by apply yields_ret|]. intros H. apply yields_bind.
  eapply yields_match_tok; [done|exact E|]. unfold type_in in *. cbn [existsb] in H.
  destruct (type t =t ty); [intros st' P' E' _; by apply yields_ret, H|]. intros _. by apply IH.
Qed.

Lemma yields_peek_next t v u st (Q : Token -> ParseState -> Prop) : live st -> ahead st = t :: v :: u ->
  Q v st -> yields peek_next_p st Q.
Proof.
  intros L E H. exists v, st. unfold peek_next_p, reading, on_stream. rewrite peekNext_upcoming by done.
  unfold ahead in E. rewrite E. split_and!; [by destruct st|done|done].
Qed.

Lemma yields_previous_any st (Q : Token -> ParseState -> Prop) : has_previous st -> (forall t, Q t st) -> yields previous_p st Q.
Proof.
  intros [t E] H. exists t, st. unfold previous_p, reading, on_stream. rewrite E. split_and!; [by destruct st|done|done].
Qed.

Lemma yields_make {A} l (f : Node -> A) st (Q : A -> ParseState -> Prop) :
  (forall n st', loc n = l -> stream st' = stream st -> Q (f n) st') -> yields (make l f) st Q.
Proof. intros H. eexists _, _. split_and!; [reflexivity|done|]. by apply H. Qed.

Lemma yields_tokens st (Q : list Token -> ParseState -> Prop) : Q (tokens_ (stream st)) st -> yields tokens_p st Q.
Proof. intros H. eexists _, _. split_and!; [reflexivity|done|]. by destruct st. Qed.

Lemma yields_env {A} (f : ParserEnv -> A) st (Q : A -> ParseState -> Prop) : (forall a, Q a st) -> yields (get_env f) st Q.
Proof. intros H. eexists _, _. split_and!; [reflexivity|done|]. apply H. Qed.

Lemma yields_set_pos p st0 st (Q : () -> ParseState -> Prop) : same_tokens st0 st -> p = cursor (stream st0) ->
  (forall st', ahead st' = ahead st0 -> Q tt st') -> yields (set_pos_p p) st Q.
Proof.
  intros T -> H. eexists _, _. split_and!; [reflexivity|done|]. apply H. unfold ahead, upcoming. cbn. by rewrite T.
Qed.

Lemma miss_token t u ty st (Q : bool -> ParseState -> Prop) : live st -> ahead st = t :: u -> (type t =t ty) = false ->
  Q false st -> yields (match_p ty) st Q.
Proof.
  intros L E N H. apply yields_miss; [done| |done]. intros t' u' E'. rewrite E in E'. injection E' as <- _.
  intros F. by rewrite (proj2 (tteq_true _ _) F) in N.
Qed.

(** ** What follows an operand *)

(** No postfix, no cast, no [else], and no operator that binds as tightly as [k]. *)
Definition bracket_pair (rest : list Token) : bool :=
  match rest with
  | t :: u :: _ => ((type t =t LT) && (type u =t LT)) || ((type t =t GT) && (type u =t GT))
  | _ => false
  end.

Definition postfix_tokens : list TokenType := [LPAREN; DOT; COLONCOLON; LBRACKET; KEYWORD_AS; KEYWORD_ELSE].

Definition follows (k : nat) (rest : list Token) : Prop :=
  exists t u, rest = t :: u /\ type_in t postfix_tokens = false
    /\ if bracket_pair rest then 8 < k
       else forall j, token_level (type t) = Some j -> j < k /\ (j = 7 -> u <> []).

Lemma follows_le k k' rest : follows k rest -> k <= k' -> follows k' rest.
Proof.
  intros (t & u & -> & N & H) K. exists t, u. split_and!; [done..|]. destruct (bracket_pair _); [lia|].
  intros j Hj. destruct (H j Hj). split; [lia|done].
Qed.

Lemma not_postfix t j : token_level (type t) = Some j -> type_in t postfix_tokens = false.
Proof. unfold type_in. by destruct (type t). Qed.

Lemma ends_follows k t u : ends_expression t = true -> follows k (t :: u).
Proof.
  intros [N H]%andb_prop. apply bool_decide_eq_true_1 in N. exists t, u. split_and!; [done| |].
  - unfold type_in in *. by destruct (type t).
  - replace (bracket_pair (t :: u)) with false; [by rewrite N|]. destruct u as [|v u]; [done|]. cbn [bracket_pair].
    by destruct (type t).
Qed.

(** The kinds a sentence starts with. *)
Definition first_tokens : list TokenType :=
  [INT_LITERAL; FLOAT_LITERAL; STRING_LITERAL; KEYWORD_TRUE; KEYWORD_FALSE; KEYWORD_NULL; KEYWORD_NIL; LPAREN] ++ prefix_tokens.

Lemma flatten_first s : spelled s = true -> exists t u, flatten s = t :: u /\ type t ∈ first_tokens.
Proof.
  induction s as [t|o s IH c|op s IH|a IHa op b IHb]; cbn [spelled flatten].
  - intros [v H]%bool_decide_eq_true_1. exists t, []. split; [done|]. unfold literal_value in H.
    destruct (type t); try discriminate H; by_decision.
  - intros [[H%tteq_true _]%andb_prop _]%andb_prop. eexists o, _. split; [done|]. rewrite H. by_decision.
  - intros [H _]%andb_prop. eexists op, _. split; [done|]. unfold type_in in H. destruct (type op); try discriminate H; by_decision.
  - intros [[H _]%andb_prop _]%andb_prop. destruct (IHa H) as (t & u & -> & Ht). by eexists t, _.
Qed.

Lemma operator_follows op l tk b rest k : operator op = Some (l, tk) -> spelled b = true -> l < k ->
  follows k (op ++ flatten b ++ rest).
Proof.
  intros O B K. destruct (flatten_first b B) as (v & w & -> & Hv). destruct op as [|t [|u [|]]]; try discriminate O.
  - cbn in O. destruct (token_level (type t)) as [j|] eqn:J; [|done]. injection O as -> ->.
    exists tk, ((v :: w) ++ rest). split_and!; [done|by eapply not_postfix|].
    replace (bracket_pair _) with false; [intros i Hi; rewrite J in Hi; by injection Hi as <-|]. cbn. unfold first_tokens in Hv. symmetry.
    apply orb_false_intro; apply andb_false_intro2; destruct (type v); try done; exfalso; revert Hv; by_decision.
  - exists t, ([u] ++ (v :: w) ++ rest). cbn [app bracket_pair]. pose proof (bracket_operators t u l tk O) as H.
    assert (l = 8) as -> by (cbn in O; by repeat case_match; simplify_eq).
    destruct H as [(Et & Eu & _)|(Et & Eu & _)]; rewrite Et, Eu; (split_and!; [done|by apply (not_postfix _ 7); rewrite Et|done]).
Qed.

(** ** Reading a level *)

(** [m] reads the sentences of level [j] with at most [bound] tokens. *)
Definition reads (bound j : nat) (m : parser (option Expression)) : Prop :=
  forall s st rest, fits j s = true -> spelled s = true -> length (flatten s) <= bound -> live st ->
    ahead st = flatten s ++ rest -> follows j rest ->
    yields m st (fun e st' => exists x, e = Some x /\ denotes s x /\ ahead st' = rest /\ has_previous st').

Lemma fits_infix k a op b : 0 < k -> fits k (Infix a op b) = true ->
  exists l, operator_level op = Some l /\ k <= l /\ fits l a = true /\ fits (S l) b = true.
Proof.
  intros K. cbn [fits]. destruct (operator_level op) as [[|l]|]; [|eexists; split; [done|]|done].
  - destruct (Nat.eqb_spec k 0); [lia|done].
  - apply andb_prop in H as [[?%Nat.leb_le ?]%andb_prop ?]. done.
Qed.

Lemma fits_weaken k s : 0 < k -> fits (S k) s = true -> fits k s = true.
Proof.
  intros K. destruct s as [| | |a op b]; try done. intros (l & O & L & A & B)%fits_infix; [|lia]. cbn [fits]. rewrite O.
  destruct l as [|l]; [lia|]. rewrite A, B, (proj2 (Nat.leb_le k (S l))) by lia. done.
Qed.

Lemma stream_live st st' : stream st' = stream st -> live st -> live st'.
Proof. unfold live. by intros ->. Qed.

Lemma stream_previous st st' : stream st' = stream st -> has_previous st -> has_previous st'.
Proof. unfold has_previous. by intros ->. Qed.

Section Level.
Context (bound k : nat) (higher : parser (option Expression)) (loop : nat -> option Expression -> parser (option Expression)).
Hypothesis positive : 0 < k.
Hypothesis higher_reads : reads bound (S k) higher.

(** One round of the loop reads an operator of the level and its right side,
    and the loop ends when none follows. *)
Hypothesis loop_step : forall n x op tk s rest st Q,
  operator op = Some (k, tk) -> spelled s = true -> live st -> has_previous st -> ahead st = op ++ flatten s ++ rest ->
  (forall st', same_tokens st st' -> ahead st' = flatten s ++ rest ->
     yields higher st' (fun r st2 => exists y, r = Some y
       /\ forall nd st3, loc nd = location tk -> stream st3 = stream st2 -> yields (loop n (Some (infix_node tk nd x y))) st3 Q)) ->
  yields (loop (S n) (Some x)) st Q.
Hypothesis loop_stop : forall n x st rest Q,
  live st -> has_previous st -> ahead st = rest -> follows k rest -> Q (Some x) st -> yields (loop (S n) (Some x)) st Q.

(** The loop is reached with the sentence read so far. *)
Lemma loop_reached s : forall n st rest Q,
  fits k s = true -> spelled s = true -> length (flatten s) <= bound -> live st -> ahead st = flatten s ++ rest ->
  follows (S k) rest -> length (flatten s) <= n ->
  (forall m x st', same_tokens st st' -> n <= m + length (flatten s) -> denotes s x -> ahead st' = rest -> has_previous st' ->
     yields (loop (S m) (Some x)) st' Q) ->
  yields (e ← higher; loop (S n) e) st Q.
Proof.
  assert (D : forall s n st rest Q, fits (S k) s = true -> spelled s = true -> length (flatten s) <= bound -> live st ->
    ahead st = flatten s ++ rest -> follows (S k) rest ->
    (forall m x st', same_tokens st st' -> n <= m + length (flatten s) -> denotes s x -> ahead st' = rest ->
       has_previous st' -> yields (loop (S m) (Some x)) st' Q) ->
    yields (e ← higher; loop (S n) e) st Q).
  { intros s' n st rest Q F W B L E R H. apply yields_bind.
    eapply yields_mono; [by apply (higher_reads s')|]. intros e st' T (x & -> & Dx & E' & P') _. apply H; [done|lia|done..]. }
  induction s as [t|o s IH c|p s IH|a IHa op b IHb]; intros n st rest Q F W B L E R N H; try by eapply D; eauto.
  destruct (fits_infix k a op b positive F) as (l & O & K & A & Fb).
  destruct (decide (l = k)) as [->|Hne].
  2: { eapply D; eauto. cbn [fits]. rewrite O. destruct l as [|l]; [lia|]. rewrite A, Fb, (proj2 (Nat.leb_le (S k) (S l))) by lia. done. }
  unfold operator_level in O. destruct (operator op) as [[l tk]|] eqn:Op; [|done]. injection O as ->.
  cbn [spelled flatten] in W, E, B, N, H. apply andb_prop in W as [[Wa _]%andb_prop Wb]. rewrite <- !app_assoc in E.
  rewrite !length_app in *. destruct (flatten_first b Wb) as (v & w & Ev & _).
  eapply (IHa n st (op ++ flatten b ++ rest)); try done; try lia; [by eapply operator_follows; [exact Op|done|lia]|].
  intros m x st' T M Dx E' P'. assert (length (flatten b) = S (length w)) by (by rewrite Ev). destruct m as [|m]; [lia|].
  eapply (loop_step (S m) x op tk b rest); try done; [by eapply same_tokens_live|].
  intros st1 T1 E1. eapply yields_mono; [apply (higher_reads b); try done; try lia|].
  { eapply same_tokens_live; [exact T1|]. by eapply same_tokens_live. }
  intros r st2 T2 (y & -> & Dy & E2 & P2). exists y. split; [done|]. intros nd st3 Hl S3.
  apply H; [|lia|by econstructor| |by eapply stream_previous].
  - etrans; [exact T|]. etrans; [exact T1|]. etrans; [exact T2|]. unfold same_tokens. by rewrite S3.
  - unfold ahead. by rewrite S3.
Qed.

Lemma level_reads n : bound <= n -> reads bound k (e ← higher; loop (S n) e).
Proof.
  intros Hn s st rest F W B L E R. eapply loop_reached; try done; [by apply (follows_le k); [|lia]|lia|].
  intros m x st' T M Dx E' P'. eapply loop_stop; try done; [by eapply same_tokens_live|]. by exists x.
Qed.
End Level.

(** ** The levels of the parser *)

Section Binary.
Context (bound k : nat) (higher : parser (option Expression)) (operators : list TokenType).
Hypothesis positive : 0 < k.
Hypothesis higher_reads : reads bound (S k) higher.
Hypothesis level_operators : forall ty, existsb (tteq ty) operators = bool_decide (token_level ty = Some k).
Hypothesis not_shift : k <> 8.

Lemma binary_step n x op tk s rest st Q :
  operator op = Some (k, tk) -> spelled s = true -> live st -> has_previous st -> ahead st = op ++ flatten s ++ rest ->
  (forall st', same_tokens st st' -> ahead st' = flatten s ++ rest ->
     yields higher st' (fun r st2 => exists y, r = Some y
       /\ forall nd st3, loc nd = location tk -> stream st3 = stream st2 ->
            yields (binary_loop higher n operators (Some (infix_node tk nd x y))) st3 Q)) ->
  yields (binary_loop higher (S n) operators (Some x)) st Q.
Proof.
  intros O W L P E H. destruct op as [|t [|u [|]]]; try discriminate O; cbn in O.
  2: { destruct (_ && _); [|destruct (_ && _); [|done]]; congruence. }
  destruct (token_level (type t)) as [j|] eqn:J; [|done]. injection O as Ej <-. rewrite Ej in J. cbn [binary_loop app] in *.
  eapply yields_bind, yields_check_first; [exact E|]. intros _. unfold type_in. rewrite level_operators, J, bool_decide_eq_true_2 by done.
  eapply yields_bind, yields_consume; [done|exact E|]. intros st1 P1 E1 T1. apply yields_bind.
  eapply yields_mono; [by apply H|]. intros r st2 _ (y & -> & Hy) _.
  apply yields_bind, yields_make. intros nd st3 Hl S3 _. specialize (Hy nd st3 Hl S3). unfold infix_node in Hy. rewrite J in Hy.
  by destruct k; [lia|].
Qed.

Lemma binary_stop n x st rest Q :
  live st -> has_previous st -> ahead st = rest -> follows k rest -> Q (Some x) st ->
  yields (binary_loop higher (S n) operators (Some x)) st Q.
Proof.
  intros L P E (t & u & -> & _ & R) H. cbn [binary_loop]. eapply yields_bind, yields_check_first; [exact E|]. intros _.
  unfold type_in. rewrite level_operators. rewrite bool_decide_eq_false_2; [by apply yields_ret|]. intros J.
  destruct (bracket_pair (t :: u)) eqn:B; [|by destruct (R k J); lia].
  destruct u as [|v u]; [done|]. cbn in B. assert (k = 7); [|lia].
  apply orb_prop in B as [[B%tteq_true _]%andb_prop|[B%tteq_true _]%andb_prop]; rewrite B in J; cbn in J; congruence.
Qed.

Lemma binary_reads n : bound <= n -> reads bound k (parse_binary_expression (S n) higher operators).
Proof.
  intros N. apply (level_reads bound k higher (fun n => binary_loop higher n operators)); [done..| | |done].
  - intros *. apply binary_step.
  - intros *. apply binary_stop.
Qed.
End Binary.

Section Shift.
Context (bound : nat) (higher : parser (option Expression)).
Hypothesis higher_reads : reads bound 9 higher.

(** The part of [shift_operator] that looks for two brackets. *)
Definition bracket_operator (ty op : TokenType) (text : str) : parser (option Token) :=
  c ← check_p ty;
  if c : bool then
    next ← peek_next_p;
    if type next =t ty then
      first ← peek_p; _ ← consume_p; _ ← consume_p; mret (Some (mkToken op text (location first)))
    else mret None
  else mret None.

Lemma shift_operator_eq : shift_operator
  = (ls ← check_p LSHIFT;
     if ls : bool then t ← consume_p; mret (Some t)
     else
       rs ← check_p RSHIFT;
       if rs : bool then t ← consume_p; mret (Some t)
       else
         l ← bracket_operator LT LSHIFT $"<<";
         match l with Some t => mret (Some t) | None => bracket_operator GT RSHIFT $">>" end).
Proof. done. Qed.

Lemma bracket_hit ty op text t u rest st (Q : option Token -> ParseState -> Prop) :
  live st -> ahead st = t :: u :: rest -> type t = ty -> type u = ty ->
  (forall st', ahead st' = rest -> Q (Some (mkToken op text (location t))) st') -> yields (bracket_operator ty op text) st Q.
Proof.
  intros L E Ht Hu H. eapply yields_bind, yields_check; [exact E|]. intros _. rewrite (proj2 (tteq_true _ _) Ht).
  eapply yields_bind, yields_peek_next; [done|exact E|]. intros _. rewrite (proj2 (tteq_true _ _) Hu).
  apply yields_bind, yields_peek; [done|]. intros f Hf _. rewrite (Hf _ _ E).
  eapply yields_bind, yields_consume; [done|exact E|]. intros st1 _ E1 T1.
  eapply yields_bind, yields_consume; [by eapply same_tokens_live|exact E1|]. intros st2 _ E2 _. by apply yields_ret, H.
Qed.

Lemma bracket_miss ty op text t u st (Q : option Token -> ParseState -> Prop) :
  live st -> ahead st = t :: u -> (type t = ty -> exists v w, u = v :: w /\ type v <> ty) -> Q None st ->
  yields (bracket_operator ty op text) st Q.
Proof.
  intros L E N H. eapply yields_bind, yields_check; [exact E|]. intros _. destruct (type t =t ty) eqn:Et; [|by apply yields_ret].
  apply tteq_true in Et. destruct (N Et) as (v & w & -> & Hv). eapply yields_bind, yields_peek_next; [done|exact E|]. intros _.
  destruct (type v =t ty) eqn:Ev; [by apply tteq_true in Ev|by apply yields_ret].
Qed.

(** The shift operator that comes next is read as one token. *)
Lemma shift_operator_hit op tk s rest st (Q : option Token -> ParseState -> Prop) :
  operator op = Some (8, tk) -> live st -> ahead st = op ++ flatten s ++ rest ->
  (forall st', ahead st' = flatten s ++ rest -> Q (Some tk) st') -> yields shift_operator st Q.
Proof.
  intros O L E H. rewrite shift_operator_eq. destruct op as [|t [|u [|]]]; try discriminate O; cbn [app operator] in O, E.
  - destruct (token_level (type t)) as [j|] eqn:J; [|done]. injection O as -> ->.
    eapply yields_bind, yields_check; [exact E|]. intros _. destruct (type tk =t LSHIFT) eqn:E1.
    { eapply yields_bind, yields_consume; [done|exact E|]. intros st' _ E' _. by apply yields_ret, H. }
    eapply yields_bind, yields_check; [exact E|]. intros _. destruct (type tk =t RSHIFT) eqn:E2; [|by destruct (type tk)].
    eapply yields_bind, yields_consume; [done|exact E|]. intros st' _ E' _. by apply yields_ret, H.
  - destruct (bracket_operators t u 8 tk O) as [(Et & Eu & ->)|(Et & Eu & ->)].
    + do 2 (eapply yields_bind, yields_check; [exact E|]; intros _; rewrite Et; cbn [tteq]).
      eapply yields_bind, bracket_hit; [done|exact E|done..|]. intros st' E' _. by apply yields_ret, H.
    + do 2 (eapply yields_bind, yields_check; [exact E|]; intros _; rewrite Et; cbn [tteq]).
      eapply yields_bind, bracket_miss; [done|exact E|by rewrite Et|]. intros _. eapply bracket_hit; [done|exact E|done..].
Qed.

Lemma shift_operator_miss rest st (Q : option Token -> ParseState -> Prop) :
  live st -> ahead st = rest -> follows 8 rest -> Q None st -> yields shift_operator st Q.
Proof.
  intros L E (t & u & -> & _ & R) H. rewrite shift_operator_eq. destruct (bracket_pair (t :: u)) eqn:B; [lia|].
  assert (N : forall ty, token_level ty = Some 8 -> (type t =t ty) = false).
  { intros ty Hty. destruct (type t =t ty) eqn:Et; [|done]. apply tteq_true in Et. rewrite Et in R. destruct (R 8 Hty). lia. }
  do 2 (eapply yields_bind, yields_check; [exact E|]; intros _; rewrite N by done).
  assert (M : forall ty, ty = LT \/ ty = GT -> type t = ty -> exists v w, u = v :: w /\ type v <> ty).
  { intros ty Hty Et. rewrite Et in R. destruct (R 7) as [_ Hu]; [by destruct Hty as [->| ->]|]. destruct u as [|v w]; [by destruct Hu|].
    exists v, w. split; [done|]. intros Ev. cbn in B. rewrite Et, Ev in B. by destruct Hty as [->| ->]. }
  eapply yields_bind, bracket_miss; [done|exact E|by auto|]. intros _. eapply bracket_miss; [done|exact E|by auto|done].
Qed.

Lemma shift_node op tk nd x y : operator op = Some (8, tk) -> infix_node tk nd x y = BinaryExpression nd (Some x) tk (Some y).
Proof.
  intros O. destruct op as [|t [|u [|]]]; try discriminate O.
  - cbn in O. destruct (token_level (type t)) as [j|] eqn:J; [|done]. injection O as -> ->. unfold infix_node. rewrite J.
    by destruct (type tk).
  - by apply bracket_operators in O as [(_ & _ & ->)|(_ & _ & ->)].
Qed.

Lemma shift_reads n : bound <= n -> reads bound 8 (e ← higher; shift_loop higher (S n) e).
Proof.
  intros N. apply (level_reads bound 8 higher (shift_loop higher)); [lia|done| | |done].
  - intros m x op tk s rest st Q O W L P E H. cbn [shift_loop]. apply yields_bind, yields_previous_any; [done|]. intros _ _.
    eapply yields_bind, shift_operator_hit; [done..|]. intros st1 E1 T1. cbn. apply yields_bind.
    eapply yields_mono; [by apply H|]. intros r st2 _ (y & -> & Hy) _. apply yields_bind, yields_make. intros nd st3 Hl S3 _.
    specialize (Hy nd st3 Hl S3). by rewrite (shift_node op) in Hy.
  - intros m x st rest Q L P E R H. cbn [shift_loop]. apply yields_bind, yields_previous_any; [done|]. intros _ _.
    eapply yields_bind, shift_operator_miss; [done..|]. intros _. by apply yields_ret.
Qed.
End Shift.

(** ** Primaries *)

Lemma literal_kind t v : literal_value t = Some v -> is_literal (type t) = true.
Proof. unfold literal_value. by destruct (type t). Qed.

Lemma literal_no_starter t : is_literal (type t) = true -> type t ∉ starters.
Proof. destruct (type t); try done; by_decision. Qed.

Lemma prefix_no_starter t : type_in t prefix_tokens = true -> type t ∉ starters.
Proof. unfold type_in. destruct (type t); try done; by_decision. Qed.

(** [m] throws some [std::runtime_error]. *)
Definition throws {A} (m : parser A) (st : ParseState) : Prop := exists w, raises m st (runtime_error w).

Lemma throws_bind {A B} (m : parser A) (k : A -> parser B) st :
  yields m st (fun a st' => same_tokens st st' -> throws (k a) st') -> throws (m ≫= k) st.
Proof.
  intros (a & st' & E & T & H). destruct (H T) as (w & st2 & E2 & T2). exists w, st2. unfold mbind, parser_bind. rewrite E.
  split; [done|by etrans].
Qed.

Lemma throws_here {A B} (m : parser A) (k : A -> parser B) st : throws m st -> throws (m ≫= k) st.
Proof. intros [w H]. exists w. by apply raises_here. Qed.

(** The parser of types, when a parenthesis comes and what is in it throws. *)
Lemma group_no_type rec_expression f o t u st : live st -> ahead st = o :: t :: u -> type o = LPAREN -> type t <> RPAREN ->
  (forall st', same_tokens st st' -> ahead st' = t :: u -> throws (parse_type rec_expression (S f)) st') ->
  throws (parse_type rec_expression (S (S f))) st.
Proof.
  intros L E Ho Ht H. change (parse_type rec_expression (S (S f))) with (parse_body rec_expression (parse_type rec_expression (S f)) (S f)).
  unfold parse_body. apply throws_bind, yields_skip. intros st1 E1 T1. rewrite E in E1.
  assert (L1 : live st1) by (by eapply same_tokens_live). apply throws_here. unfold parse_atomic_or_group_type.
  apply throws_bind, yields_peek; [done|]. intros t0 _ _.
  apply throws_bind, yields_first_miss; [done| |].
  { intros t' v E'. rewrite E1 in E'. injection E' as <- _. rewrite Ho. by_decision. }
  intros _. apply throws_bind. eapply yields_hit; [done|exact E1|done|]. intros st2 _ E2 T2.
  assert (T02 : same_tokens st st2) by (by etrans). unfold parse_tuple, parse_type_list. apply throws_here.
  apply throws_bind, yields_peek; [by eapply same_tokens_live|]. intros t' Ht' _. rewrite (Ht' _ _ E2).
  destruct (type t =t RPAREN) eqn:Et; [by apply tteq_true in Et|]. apply throws_here. cbn [parse_types]. apply throws_here. by apply H.
Qed.

(** A sentence is not a type: the parser of types throws at the first token
    that is not an opening parenthesis. *)
Lemma sentence_no_type rec_expression s : spelled s = true -> forall f st rest,
  live st -> ahead st = flatten s ++ rest -> length (flatten s) <= f -> throws (parse_type rec_expression f) st.
Proof.
  induction s as [t|o s IH c|op s IH|a IHa op b IHb]; intros W f st rest L E F; cbn [flatten spelled app length] in *.
  - apply bool_decide_eq_true_1 in W as [v W]. destruct f as [|f]; [lia|]. eexists. eapply parse_type_rejects; [done|exact E|].
    by eapply literal_no_starter, literal_kind.
  - apply andb_prop in W as [[Wo%tteq_true W]%andb_prop _]. rewrite length_app in F. cbn in F. rewrite <- app_assoc in E.
    destruct f as [|[|f]]; [lia..|]. destruct (flatten_first s W) as (t & u & Et & Ht).
    eapply (group_no_type _ _ o t); [done|by rewrite E, Et|done| |].
    + intros Hr. rewrite Hr in Ht. revert Ht. by_decision.
    + intros st' T' E'. eapply (IH W); [by eapply same_tokens_live| |lia]. by rewrite E', Et.
  - apply andb_prop in W as [W _]. destruct f as [|f]; [lia|]. eexists. eapply parse_type_rejects; [done|exact E|].
    by apply prefix_no_starter.
  - apply andb_prop in W as [[Wa _]%andb_prop _]. rewrite <- !app_assoc in E. rewrite length_app in F. eapply IHa; [done..|lia].
Qed.

Section Expression.
Context (b n : nat) (rec_expression rec_primary : parser (option Expression)).
Context (parse_block : parser Block) (parse_match : parser (option Statement)).
Hypothesis rec_reads : reads b 0 rec_expression.
Hypothesis enough : S b <= n.

(** A literal or a group. *)
Definition primary_sentence (s : Sentence) : bool := match s with Literal _ | Group _ _ _ => true | _ => false end.

Lemma primary_first s : spelled s = true -> primary_sentence s = true ->
  exists t u, flatten s = t :: u /\ (is_literal (type t) = true \/ type t = LPAREN).
Proof.
  destruct s as [t|o s c| |]; try done; cbn [spelled flatten].
  - intros [v H]%bool_decide_eq_true_1 _. exists t, []. split; [done|]. left. by eapply literal_kind.
  - intros [[H%tteq_true _]%andb_prop _]%andb_prop _. eexists o, _. split; [done|]. by right.
Qed.

Lemma construction_none s st rest (Q : option (option Expression) -> ParseState -> Prop) :
  spelled s = true -> primary_sentence s = true -> length (flatten s) <= S n -> live st -> ahead st = flatten s ++ rest ->
  (forall st', ahead st' = ahead st -> Q None st') -> yields (construction rec_expression (S n)) st Q.
Proof.
  intros W P F L E H. destruct (primary_first s W P) as (t & u & Et & Ht). unfold construction.
  apply yields_bind, yields_get_pos. intros _. apply yields_bind, yields_peek; [done|]. intros t' Ht' _.
  rewrite (Ht' t (u ++ rest)) by (by rewrite E, Et). apply yields_bind, yields_tokens. intros _. apply yields_bind, yields_env. intros k _.
  replace (skip_type_parsing _ _ t k) with false.
  2: { unfold skip_type_parsing. replace (type_in t name_like) with false; [done|]. unfold type_in.
       by destruct (type t); destruct Ht. }
  destruct (sentence_no_type rec_expression s W (S n) st rest L E F) as [w Hw].
  eapply yields_catch; [by apply raises_here|]. intros st1 T1. apply yields_bind. eapply yields_set_pos; [exact T1|done|].
  intros st2 E2 _. apply yields_ret. by apply H.
Qed.

Lemma literal_reads t v u st (Q : option Expression -> ParseState -> Prop) :
  literal_value t = Some v -> live st -> ahead st = t :: u ->
  (forall nd st', loc nd = location t -> ahead st' = u -> has_previous st' -> Q (Some (v nd)) st') -> yields parse_literal st Q.
Proof.
  intros V L E H. unfold parse_literal. apply yields_bind, yields_peek; [done|]. intros t' Ht' _. rewrite (Ht' _ _ E).
  assert (M : forall st1 (f : Node -> option Expression), ahead st1 = u -> has_previous st1 -> (forall nd, f nd = Some (v nd)) ->
    yields (make (location t) f) st1 Q).
  { intros st1 f E1 P1 Hf. apply yields_make. intros nd st2 Hl S2. rewrite Hf. apply H; [done|by unfold ahead; rewrite S2|].
    by eapply stream_previous. }
  unfold literal_value in V. destruct (type t); try discriminate V;
    (eapply yields_bind, yields_consume; [done|exact E|]; intros st1 P1 E1 _); try by injection V as <-; apply M.
  - destruct (parseIntegerLiteralValue (lexeme t)) as [p|]; [|done]. injection V as <-.
    apply yields_bind. exists p, st1. split_and!; [by destruct st1|done|]. intros _. by apply M.
  - destruct (stod (lexeme t)) as [p|]; [|done]. injection V as <-.
    apply yields_bind. exists p, st1. split_and!; [by destruct st1|done|]. intros _. by apply M.
Qed.

(** The forms of a primary before the literals do not apply. *)
Lemma early_forms l forms s st rest Q :
  spelled s = true -> primary_sentence s = true -> length (flatten s) <= S n -> live st -> ahead st = flatten s ++ rest ->
  (forall st', same_tokens st st' -> ahead st' = ahead st -> yields (first_form forms) st' Q) ->
  yields (first_form (construction rec_expression (S n) :: array_initialization rec_expression (S n) l
                      :: identifier_expression rec_expression (S n) :: forms)) st Q.
Proof.
  intros W P F L E H. destruct (primary_first s W P) as (t & u & Et & Ht). cbn [first_form]. apply yields_bind.
  eapply construction_none; [done..|]. intros st1 E1 T1. assert (L1 : live st1) by (by eapply same_tokens_live).
  assert (A1 : ahead st1 = t :: u ++ rest) by (by rewrite E1, E, Et).
  apply yields_bind. unfold array_initialization. apply yields_bind, yields_peek; [done|]. intros t1 H1 _. rewrite (H1 _ _ A1).
  replace (type t =t LBRACKET) with false by (by destruct (type t); destruct Ht). apply yields_ret. intros _.
  apply yields_bind. unfold identifier_expression. apply yields_bind, yields_peek; [done|]. intros t2 H2 _. rewrite (H2 _ _ A1).
  replace (type_in t (KEYWORD_FROM :: name_like)) with false by (by unfold type_in; destruct (type t); destruct Ht).
  apply yields_ret. intros _. by apply H.
Qed.

Lemma group_reads o s c st rest (Q : option (option Expression) -> ParseState -> Prop) :
  fits 0 s = true -> spelled s = true -> length (flatten s) <= b -> type o = LPAREN -> type c = RPAREN -> live st ->
  ahead st = o :: flatten s ++ c :: rest ->
  (forall x st', denotes s x -> ahead st' = rest -> has_previous st' -> Q (Some (Some x)) st') ->
  yields (group_or_tuple rec_expression (S n)) st Q.
Proof.
  intros Fs W B Ho Hc L E H. unfold group_or_tuple. apply yields_bind. eapply yields_hit; [done|exact E|done|].
  intros st1 C1 E1 T1. assert (L1 : live st1) by (by eapply same_tokens_live). apply yields_bind. eapply yields_previous; [exact C1|].
  intros _. destruct (flatten_first s W) as (t & u & Et & Ht). eapply yields_bind, yields_check; [by rewrite E1, Et|]. intros _.
  replace (type t =t RPAREN) with false by (destruct (type t); try done; exfalso; revert Ht; by_decision).
  apply yields_bind. eapply yields_mono; [apply (rec_reads s); try done|].
  { apply ends_follows. unfold ends_expression, type_in. by rewrite Hc. }
  intros e st2 T2 (x & -> & Dx & E2 & P2) _. eapply yields_bind, yields_check; [exact E2|]. intros _. rewrite Hc. cbn [tteq].
  eapply yields_bind, yields_expected; [by eapply same_tokens_live|exact E2|done|]. intros st3 P3 E3 _. by apply yields_ret, H.
Qed.

Lemma primary_reads s st rest :
  fits 11 s = true -> primary_sentence s = true -> spelled s = true -> length (flatten s) <= S b -> live st ->
  ahead st = flatten s ++ rest ->
  yields (parse_primary rec_expression rec_primary parse_block parse_match (S n)) st
    (fun e st' => exists x, e = Some x /\ denotes s x /\ ahead st' = rest /\ has_previous st').
Proof.
  intros Fs P W B L E. destruct (primary_first s W P) as (t & u & Et & Ht).
  assert (A : ahead st = t :: u ++ rest) by (by rewrite E, Et). unfold parse_primary.
  apply yields_bind, yields_peek; [done|]. intros t0 _ _.
  eapply yields_bind, miss_token; [done|exact A|by destruct (type t); destruct Ht|]. intros _.
  apply yields_bind, yields_peek; [done|]. intros t1 H1 _. rewrite (H1 _ _ A).
  replace (type t =t KEYWORD_MATCH) with false by (by destruct (type t); destruct Ht).
  eapply yields_bind, miss_token; [done|exact A|by destruct (type t); destruct Ht|]. intros _.
  apply yields_bind. unfold async_prefix. eapply yields_bind, yields_check; [exact A|]. intros _.
  replace (type t =t KEYWORD_ASYNC) with false by (by destruct (type t); destruct Ht). apply yields_ret. intros _.
  apply yields_bind. unfold lambda_start. eapply yields_bind, yields_check; [exact A|]. intros _.
  replace (type t =t OR) with false by (by destruct (type t); destruct Ht). apply yields_bind, yields_ret. intros _.
  eapply yields_bind, yields_check; [exact A|]. intros _.
  replace (type t =t PIPE) with false by (by destruct (type t); destruct Ht). apply yields_ret. intros _. cbn [orb].
  eapply (early_forms _ _ s); [done|done|lia|done|exact E|]. intros st1 T1 E1. assert (L1 : live st1) by (by eapply same_tokens_live).
  rewrite A in E1. cbn [first_form]. apply yields_bind. unfold literal_expression. apply yields_bind, yields_peek; [done|].
  intros t2 H2 _. rewrite (H2 _ _ E1). destruct s as [t'|o s c| |]; try done; cbn [flatten spelled] in *.
  - injection Et as -> <-. apply bool_decide_eq_true_1 in W as [v V]. rewrite (literal_kind _ _ V). apply yields_bind.
    eapply literal_reads; [done..|]. intros nd st2 Hl E2 P2 _. apply yields_ret. intros _. apply yields_ret.
    exists (v nd). split_and!; [done|by constructor|done..].
  - injection Et as -> <-. apply andb_prop in W as [[Wo%tteq_true W]%andb_prop Wc%tteq_true]. rewrite Wo. cbn [is_literal].
    apply yields_ret. intros _. apply yields_bind. rewrite <- app_assoc in E1. cbn [length] in B. rewrite length_app in B. cbn in B.
    eapply (group_reads t s c); try done; [lia|]. intros x st2 Dx E2 P2 _. apply yields_ret. exists x. split_and!; [done|by constructor|done..].
Qed.

Lemma postfix_stops m x st rest (Q : option Expression -> ParseState -> Prop) :
  live st -> ahead st = rest -> follows 11 rest -> Q (Some x) st -> yields (postfix_loop rec_expression (S n) (S m) (Some x)) st Q.
Proof.
  intros L E (t & u & -> & N & _) H. cbn [postfix_loop]. apply yields_bind, yields_peek; [done|]. intros t0 _ _.
  do 4 (eapply yields_bind, miss_token; [done|exact E|by unfold type_in in N; destruct (type t)|]; intros _). by apply yields_ret.
Qed.

Definition unary_read (s : Sentence) : Prop := forall m st rest,
  fits 11 s = true -> spelled s = true -> length (flatten s) <= S b -> length (flatten s) <= m -> live st ->
  ahead st = flatten s ++ rest -> follows 11 rest ->
  yields (parse_unary_expr rec_expression rec_primary parse_block parse_match (S n) m) st
    (fun e st' => exists x, e = Some x /\ denotes s x /\ ahead st' = rest /\ has_previous st').

Lemma unary_primary s : primary_sentence s = true -> unary_read s.
Proof.
  intros P m st rest F W B M L E R. destruct (primary_first s W P) as (t & u & Et & Ht).
  destruct m as [|m]; [rewrite Et in M; cbn in M; lia|].
  cbn [parse_unary_expr]. assert (A : ahead st = t :: u ++ rest) by (by rewrite E, Et).
  do 3 (eapply yields_bind, miss_token; [done|exact A|by destruct (type t); destruct Ht|]; intros _).
  apply yields_bind, yields_first_miss; [done| |].
  { intros t' u' A'. rewrite A in A'. injection A' as <- _. destruct (type t); destruct Ht; try done; by_decision. }
  intros _. unfold parse_postfix_expr. apply yields_bind. eapply yields_mono; [by apply primary_reads|].
  intros e st' T (x & -> & Dx & E' & P') _. eapply postfix_stops; [by eapply same_tokens_live|done..|]. by exists x.
Qed.

Lemma unary_reads s : unary_read s.
Proof.
  induction s as [t|o s IH c|op s IH|a IHa op c IHc]; [by apply unary_primary|by apply unary_primary| |];
    intros m st rest F W B M L E R.
  - cbn [flatten spelled length] in *. apply andb_prop in W as [Wo W]. destruct m as [|m]; [lia|]. cbn [parse_unary_expr].
    do 3 (eapply yields_bind, miss_token; [done|exact E|by unfold type_in in Wo; destruct (type op)|]; intros _).
    apply yields_bind. eapply yields_first_hit; [done|exact E| |].
    { unfold type_in in Wo. destruct (type op); try done; by_decision. }
    intros st1 C1 E1 T1. apply yields_bind. eapply yields_previous; [exact C1|]. intros _. apply yields_bind.
    eapply yields_mono; [apply IH; try done; try lia; by eapply same_tokens_live|].
    intros e st2 T2 (x & -> & Dx & E2 & P2) _. apply yields_make. intros nd st3 Hl S3. eexists. split_and!; [done|by constructor| |].
    + unfold ahead. by rewrite S3.
    + by eapply stream_previous.
  - apply fits_infix in F as (l & O & K & _); [|lia]. unfold operator_level in O.
    destruct (operator op) as [[l' tk]|] eqn:Op; [|done]. injection O as ->. by apply operator_range in Op; lia.
Qed.

Lemma cast_reads : reads (S b) 11 (parse_cast_expr rec_expression rec_primary parse_block parse_match (S n)).
Proof.
  intros s st rest F W B L E R. unfold parse_cast_expr. apply yields_bind. eapply yields_mono; [apply (unary_reads s); try done; lia|].
  intros e st1 T1 (x & -> & Dx & E1 & P1) _. destruct R as (t & u & -> & N & _). cbn [cast_loop].
  eapply yields_bind, miss_token; [by eapply same_tokens_live|exact E1|by unfold type_in in N; destruct (type t)|]. intros _.
  apply yields_ret. by exists x.
Qed.

Lemma logical_or_reads : reads (S b) 1 (parse_logical_or_expr rec_expression rec_primary parse_block parse_match (S n)).
Proof.
  repeat first [apply (binary_reads (S b)); [lia| |by intros []|done|done] | apply (shift_reads (S b)); [|done]].
  apply cast_reads.
Qed.

Lemma else_stops e t u st (Q : option Expression -> ParseState -> Prop) :
  live st -> ahead st = t :: u -> (type t =t KEYWORD_ELSE) = false -> Q e st -> yields (else_default rec_expression e) st Q.
Proof.
  intros L E Ht H. unfold else_default. apply yields_bind, yields_env. intros en _. apply yields_bind.
  destruct en; [eapply miss_token; [done|exact E|done|]|apply yields_ret]; intros _; by apply yields_ret.
Qed.

Lemma assignment_level t : type_in t assignment_tokens = bool_decide (token_level (type t) = Some 0).
Proof. unfold type_in. by destruct (type t). Qed.

Lemma fits_zero s : fits 0 s = true ->
  fits 1 s = true \/ exists a op c, s = Infix a op c /\ operator_level op = Some 0 /\ fits 1 a = true /\ fits 0 c = true.
Proof.
  destruct s as [t|o s c|op s|a op c]; auto. cbn [fits]. destruct (operator_level op) as [[|l]|] eqn:O; [|by auto..].
  intros [Ha Hc]%andb_prop. right. by exists a, op, c.
Qed.

(** Assignments take the whole expression to their right. *)
Lemma expression_reads : reads (S b) 0 (parse_expression rec_expression rec_primary parse_block parse_match (S n)).
Proof.
  intros s st rest F W B L E R. unfold parse_expression, parse_assignment_expr. apply yields_bind.
  destruct (fits_zero s F) as [F1|(a & op & c & -> & O & Fa & Fc)].
  - eapply yields_mono; [apply (logical_or_reads s); try done; by apply (follows_le 0); [|lia]|].
    intros e st1 T1 (x & -> & Dx & E1 & P1) _. assert (L1 : live st1) by (by eapply same_tokens_live).
    destruct R as (t & u & -> & N & R). apply yields_bind. eapply else_stops; [done|exact E1|by unfold type_in in N; destruct (type t)|].
    intros _. eapply yields_bind, yields_first_tok; [done|exact E1|]. rewrite assignment_level.
    destruct (bool_decide_reflect (token_level (type t) = Some 0)) as [J|_]; [|intros _; apply yields_ret; by exists x].
    destruct (bracket_pair _); [lia|]. destruct (R 0 J). lia.
  - cbn [flatten spelled] in *. apply andb_prop in W as [[Wa _]%andb_prop Wc]. rewrite <- !app_assoc in E. rewrite !length_app in B.
    unfold operator_level in O. destruct (operator op) as [[l tk]|] eqn:Op; [|done]. injection O as ->.
    eapply yields_mono; [apply (logical_or_reads a); try done; [lia|by eapply operator_follows; [exact Op|done|lia]]|].
    intros e st1 T1 (x & -> & Dx & E1 & P1) _. assert (L1 : live st1) by (by eapply same_tokens_live).
    destruct op as [|t [|u [|]]]; try done; [|by cbn in Op; repeat case_match].
    assert (J : token_level (type t) = Some 0 /\ t = tk) by (cbn in Op; destruct (token_level (type t)); by simplify_eq/=).
    destruct J as [J ->]. cbn [app length] in *. apply yields_bind. eapply else_stops; [done|exact E1|by destruct (type tk)|].
    intros _. eapply yields_bind, yields_first_tok; [done|exact E1|]. rewrite assignment_level, bool_decide_eq_true_2 by done.
    intros st2 P2 E2 T2. apply yields_bind.
    eapply yields_mono; [apply (rec_reads c); try done; [lia|by eapply same_tokens_live]|].
    intros e st3 T3 (y & -> & Dy & E3 & P3) _. apply yields_make. intros nd st4 Hl S4.
    exists (infix_node tk nd x y). split_and!; [|by econstructor|by unfold ahead; rewrite S4|by eapply stream_previous].
    unfold infix_node. by rewrite J.
Qed.
End Expression.

(** ** The front end's expression parser *)

Lemma parsers_read args_ltr c23_strtoll f : reads f 0 (expression_parser_ (parsers args_ltr c23_strtoll (S f))).
Proof.
  induction f as [|f IH].
  - intros s st rest _ W B. destruct (flatten_first s W) as (t & u & Et & _). rewrite Et in B. cbn in B. lia.
  - change (parsers args_ltr c23_strtoll (S (S f))) with
      (let P := parsers args_ltr c23_strtoll (S f) in
       mkParsers (expression_p (expression_parser_ P) (primary_parser_ P) (statement_parser_ P) (S (S f)))
         (primary_parser_ (parsers args_ltr c23_strtoll (S (S f)))) (statement_parser_ (parsers args_ltr c23_strtoll (S (S f))))).
    cbv zeta. cbn [expression_parser_]. unfold expression_p. apply expression_reads; [exact IH|lia].
Qed.


(** Parentheses where the levels ask for them, and only there. *)
Section Printing.
Context (open close : Token) (is_open : type open = LPAREN) (is_close : type close = RPAREN).

Fixpoint parenthesized (k : nat) (s : Sentence) : Sentence :=
  match s with
  | Literal t => Literal t
  | Group _ s _ => parenthesized k s
  | Prefix op s => Prefix op (parenthesized 11 s)
  | Infix a op c =>
      let l := match operator_level op with Some l => l | None => 0 end in
      let s' := Infix (parenthesized (max 1 l) a) op (parenthesized (if l =? 0 then 0 else S l) c) in
      if k <=? l then s' else Group open s' close
  end.

Lemma parenthesized_fits s : spelled s = true -> forall k, fits k (parenthesized k s) = true /\ spelled (parenthesized k s) = true.
Proof.
  induction s as [t|o s IH c|op s IH|a IHa op c IHc]; cbn [spelled parenthesized].
  - done.
  - intros [[_ W]%andb_prop _]%andb_prop. by apply IH.
  - intros [Wo W]%andb_prop k. destruct (IH W 11) as [F S]. cbn [fits spelled]. by rewrite F, Wo, S.
  - intros [[Wa Wo]%andb_prop Wc]%andb_prop k. pose proof Wo as [[l tk] O]%bool_decide_eq_true_1.
    unfold operator_level. rewrite O. cbn [fmap option_fmap option_map fst].
    destruct (IHa Wa (max 1 l)) as [Fa Sa]. destruct (IHc Wc (if l =? 0 then 0 else S l)) as [Fc Sc].
    assert (G : forall j, j <= l -> fits j (Infix (parenthesized (max 1 l) a) op (parenthesized (if l =? 0 then 0 else S l) c)) = true).
    { intros j Hj. cbn [fits]. unfold operator_level. rewrite O. cbn. destruct l as [|l]; cbn in *.
      - destruct j; [|lia]. by rewrite Fa, Fc.
      - rewrite Fa, Fc. rewrite (proj2 (Nat.leb_le j (S l)) Hj). done. }
    destruct (Nat.leb_spec k l) as [K|K].
    + split; [by apply G|]. cbn [spelled]. by rewrite Sa, Sc, Wo.
    + split; [cbn [fits]; apply G; lia|]. cbn [spelled]. by rewrite Sa, Sc, Wo, is_open, is_close.
Qed.

Lemma parenthesized_denotes s : forall k x, denotes (parenthesized k s) x -> denotes s x.
Proof.
  induction s as [t|o s IH c|op s IH|a IHa op c IHc]; cbn [parenthesized]; intros k x.
  - done.
  - intros H. constructor. by eapply IH.
  - inversion 1; subst. constructor; [done|]. by eapply IH.
  - intros H. assert (exists i j, denotes (Infix (parenthesized i a) op (parenthesized j c)) x) as (i & j & H').
    { destruct (_ <=? _); [by eexists _, _|]. inversion H; subst. by eexists _, _. }
    inversion H'; subst. econstructor; eauto.
Qed.

(** So every reading can be written: with the parentheses it needs, it is the one the parser finds. *)
Lemma parenthesized_reads args_ltr c23_strtoll s st stop rest :
  spelled s = true -> ends_expression stop = true -> ahead st = flatten (parenthesized 0 s) ++ stop :: rest -> live st ->
  exists x st', expression_parser_ (parsers args_ltr c23_strtoll (S (length (flatten (parenthesized 0 s))))) st
      = Some (Return (Some x) st') /\ denotes s x /\ ahead st' = stop :: rest.
Proof.
  intros W S E L. destruct (parenthesized_fits s W 0) as [F W'].
  destruct (parsers_read args_ltr c23_strtoll _ _ st (stop :: rest) F W' (le_n _) L E (ends_follows 0 stop rest S))
    as (e & st' & R & _ & x & -> & D & E' & _). exists x, st'. eauto using parenthesized_denotes.
Qed.
End Printing.

(** [1 << 2 + 3 * -4 <= 5 && (true = false)], as the lexer splits it. *)
Definition sample_token (ty : TokenType) (column : Z) (text : str) : Token := mkToken ty text (mkLoc $"a.vyb" 1 column).

Definition sample_sentence : Sentence :=
  let int c v := Literal (sample_token INT_LITERAL c v) in
  Infix
    (Infix
       (Infix (int 1%Z $"1") [sample_token LT 3 $"<"; sample_token LT 4 $"<"]
          (Infix (int 6%Z $"2") [sample_token PLUS 8 $"+"]
             (Infix (int 10%Z $"3") [sample_token MULTIPLY 12 $"*"] (Prefix (sample_token MINUS 14 $"-") (int 15%Z $"4")))))
       [sample_token LTEQ 17 $"<="] (int 20%Z $"5"))
    [sample_token AND 22 $"&&"]
    (Group (sample_token LPAREN 25 $"(")
       (Infix (Literal (sample_token KEYWORD_TRUE 26 $"true")) [sample_token EQ 31 $"="] (Literal (sample_token KEYWORD_FALSE 33 $"false")))
       (sample_token RPAREN 38 $")")).

