(* ===== verification/Format.v ===== *)
(** * The source formatter (src/format.cpp, include/vyb/format.hpp)

    [SourcePrinter] walks the tree and appends to a stream. What a visit method
    does never depends on the stream, so a method is modelled by the list of the
    calls it makes, in order ([emit], [newline], [push], [pop], and a use of a
    null pointer where the code has one), and [run] executes the calls on the
    printer's state. There is one definition per visit method; [accept] on a
    child is the recursive call of the mutual functions below. *)

From Stdlib Require Import SpecFloat.
From S2P Require Import Prelude.
From S2P Require Import Token.
From S2P Require Import Ast.
From S2P Require Import AstText.

(** ** The printer *)

Record SourcePrinter : Type := mkPrinter { out_ : str; indent_ : Z; atLineStart_ : bool }.

Definition SourcePrinter_new : SourcePrinter := mkPrinter [] 0 true.

Definition indentation (n : Z) : str := concat (replicate (Z.to_nat n) $"    ").

Definition emit (s : str) (p : SourcePrinter) : SourcePrinter :=
  if atLineStart_ p then mkPrinter (out_ p ++ indentation (indent_ p) ++ s) (indent_ p) false
  else mkPrinter (out_ p ++ s) (indent_ p) false.

Definition newline (p : SourcePrinter) : SourcePrinter := mkPrinter (out_ p ++ [ch_nl]) (indent_ p) true.
Definition push (p : SourcePrinter) : SourcePrinter := mkPrinter (out_ p) (indent_ p + 1) (atLineStart_ p).
Definition pop (p : SourcePrinter) : SourcePrinter := mkPrinter (out_ p) (indent_ p - 1) (atLineStart_ p).

(** The calls of a visit method; [Null] is the use of a null pointer. *)
Inductive Command : Type := Emit (s : str) | Newline | Push | Pop | Null (what : str).

Fixpoint run (cs : list Command) (p : SourcePrinter) : outcome SourcePrinter :=
  match cs with
  | [] => Ok p
  | Emit s :: cs' => run cs' (emit s p)
  | Newline :: cs' => run cs' (newline p)
  | Push :: cs' => run cs' (push p)
  | Pop :: cs' => run cs' (pop p)
  | Null w :: _ => Throw (undefined_behaviour w)
  end.

Abbreviation commands := (list Command).

Definition e_ (s : str) : commands := [Emit s].

(** [if (x) x->accept( *this)] *)
Definition if_ (x : option commands) : commands := match x with Some c => c | None => [] end.
(** [if (x) { before; x->accept( *this); after }] *)
Definition wrapped (before : commands) (x : option commands) (after : commands) : commands :=
  match x with Some c => before ++ c ++ after | None => [] end.
(** [x->accept( *this)] without a test. *)
Definition deref_ (what : str) (x : option commands) : commands := match x with Some c => c | None => [Null what] end.
(** [if (id) emit(id->name)] *)
Definition name_ (i : option Identifier) : commands := match i with Some i => e_ (name i) | None => [] end.

(** [for (i ...) { if (i) emit(sep); ... }] *)
Fixpoint rest_of (sep : str) (l : list commands) : commands :=
  match l with [] => [] | c :: l' => Emit sep :: c ++ rest_of sep l' end.
Definition separated_by (sep : str) (l : list commands) : commands :=
  match l with [] => [] | c :: l' => c ++ rest_of sep l' end.

(** Each item on a line of its own, with [sep] after all but the last. *)
Fixpoint lines_with (sep : str) (l : list commands) : commands :=
  match l with
  | [] => []
  | [c] => c ++ [Newline]
  | c :: l' => c ++ Emit sep :: Newline :: lines_with sep l'
  end.

(** ** Precedence *)

Definition binary_prec (op : str) : Z :=
  if op =s $"||" then 4 else if op =s $"&&" then 5 else if op =s $"|" then 6 else if op =s $"^" then 7
  else if op =s $"&" then 8 else if (op =s $"==") || (op =s $"!=") then 9
  else if (op =s $"<") || (op =s $">") || (op =s $"<=") || (op =s $">=") then 10
  else if (op =s $"<<") || (op =s $">>") then 11 else if (op =s $"+") || (op =s $"-") then 12 else 13.

Definition logical_prec (op : str) : Z := if op =s $"||" then 4 else if op =s $"&&" then 5 else 4.

Definition precOf (e : Expression) : Z :=
  match e with
  | AssignmentExpression _ _ _ _ | SequenceExpression _ _ => 1
  | ConditionalExpression _ _ _ _ | MatchExpression _ _ | SelectExpression _ _ _ | IfExpression _ _ _ _ | AsExpression _ _ _ => 2
  | RangeExpression _ _ _ _ => 3
  | LogicalExpression _ _ op _ => logical_prec (lexeme op)
  | BinaryExpression _ _ op _ => binary_prec (lexeme op)
  | UnaryExpression _ _ _ => 14
  | _ => 15
  end.

(** [printExpr], with [accept] as the argument. *)
Definition printExpr (accept : Expression -> commands) (e : option Expression) (parentPrec : Z) : commands :=
  match e with
  | None => []
  | Some x => if (precOf x <? parentPrec)%Z then e_ $"(" ++ accept x ++ e_ $")" else accept x
  end.

(** ** Numbers *)

(** [ss << std::setprecision(15) << v]: the C format percent-.15g, of the exact
    binary value, ties to even. [scaled m e k] is [m * 2^e * 10^k], rounded. *)
Definition scaled (m e k : Z) : Z :=
  (round_half_even (m * 2 ^ Z.max 0 e * 10 ^ Z.max 0 k) (2 ^ Z.max 0 (- e) * 10 ^ Z.max 0 (- k)))%Z.

(** The exponent of the leading decimal digit: a double has one above -325. *)
Definition decimal_exponent (m e : Z) : Z :=
  (Z.of_nat (length (to_string (m * 2 ^ Z.max 0 e * 10 ^ 340 / 2 ^ Z.max 0 (- e)))) - 341)%Z.

(** Fifteen digits and the exponent of the first; rounding may carry. *)
Definition digits15 (m e : Z) : Z * Z :=
  (let x := decimal_exponent m e in
   let d := scaled m e (14 - x) in
   if d =? 10 ^ 15 then (10 ^ 14, x + 1) else (d, x))%Z.

Definition strip_zeros (s : str) : str := rev (drop_while (ceq "0"%char) (rev s)).
Definition point (whole frac : str) : str := match strip_zeros frac with [] => whole | f => whole ++ $"." ++ f end.
Definition two_digits (z : Z) : str := (if (z <? 10)%Z then $"0" else []) ++ to_string z.

Definition general15 (m e : Z) : str :=
  let '(d, x) := digits15 m e in
  let s := to_string d in
  if ((x <? -4) || (15 <=? x))%Z then
    point (take 1 s) (drop 1 s) ++ $"e" ++ (if (x <? 0)%Z then $"-" else $"+") ++ two_digits (Z.abs x)
  else if (x <? 0)%Z then point $"0" (replicate (Z.to_nat (- x - 1)) "0"%char ++ s)
  else point (take (S (Z.to_nat x)) s) (drop (S (Z.to_nat x)) s).

Definition double_general (x : double) : str :=
  match x with
  | S754_zero s => sign_text s ++ $"0"
  | S754_infinity s => sign_text s ++ $"inf"
  | S754_nan => $"nan"
  | S754_finite s m e => sign_text s ++ general15 (Zpos m) e
  end.

Definition print_FloatLiteral (v : double) : commands :=
  let s := double_general v in
  e_ (if existsb (fun c => (c =c ".") || (c =c "e") || (c =c "E")) s then s else s ++ $".0").

(** [(long long)uvalue] wraps. *)
Definition long_long (u : Z) : Z := (if u <? 2 ^ 63 then u else u - 2 ^ 64)%Z.

Definition print_IntegerLiteral (value : Z) (isUnsigned : bool) (uvalue : Z) : commands :=
  e_ (to_string (if isUnsigned then long_long uvalue else value) ++ (if isUnsigned then $"u" else [])).

(** ** Types *)

Definition printGenericArgs (args : list (option commands)) : commands :=
  match args with [] => [] | _ => e_ $"<" ++ separated_by $", " (map if_ args) ++ e_ $">" end.

Definition print_TypeName (identifier : option Identifier) (genericArgs : list (option commands)) : commands :=
  name_ identifier ++ printGenericArgs genericArgs.
Definition print_VecType (elementType : option commands) : commands := e_ $"Vec<" ++ if_ elementType ++ e_ $">".
Definition print_OptionalType (containedType : option commands) : commands := if_ containedType ++ e_ $"?".
Definition print_FunctionType (parameterTypes : list (option commands)) (returnType : option commands) : commands :=
  e_ $"fn(" ++ separated_by $", " (map if_ parameterTypes) ++ e_ $")" ++ wrapped (e_ $" -> ") returnType [].
Definition print_PointerType (pointeeType : option commands) : commands := e_ $"loc<" ++ if_ pointeeType ++ e_ $">".
Definition print_ArrayType (elementType sizeExpression : option commands) : commands :=
  e_ $"[" ++ if_ elementType ++ wrapped (e_ $"; ") sizeExpression [] ++ e_ $"]".
Definition print_FutureType (resultType : option commands) : commands := e_ $"Future<" ++ if_ resultType ++ e_ $">".
Definition print_TupleType (memberTypes : list (option commands)) : commands :=
  e_ $"(" ++ separated_by $", " (map if_ memberTypes) ++ e_ $")".

(** [gps[i]->name]: a null parameter is dereferenced. *)
Definition print_generic_parameter (name : option Identifier) (bounds : list (option commands)) : commands :=
  name_ name ++ match bounds with [] => [] | _ => e_ $": " ++ separated_by $" + " (map if_ bounds) end.
Definition printGenericParams (gps : list (option commands)) : commands :=
  match gps with [] => [] | _ => e_ $"<" ++ separated_by $", " (map (deref_ $"gps[i]->name") gps) ++ e_ $">" end.

Definition print_parameter (name : Identifier) (typeNode : option commands) : commands :=
  e_ (Ast.name name) ++ wrapped (e_ $"<") typeNode (e_ $">").
Definition printParamList (params : list commands) : commands := e_ $"(" ++ separated_by $", " params ++ e_ $")".

(** ** Blocks and declarations *)

(** [stmt(s)]: the statement and a line break; a null statement is dereferenced. *)
Definition stmt (s : option commands) : commands := deref_ $"s->accept" s ++ [Newline].

Definition printBlock (body : option (list (option commands))) : commands :=
  match body with
  | Some ((_ :: _) as l) => Emit $"{" :: Newline :: Push :: concat (map stmt l) ++ [Pop; Emit $"}"]
  | _ => [Emit $"{"; Emit $" }"]
  end.

(** [emit(" {"); newline(); push(); ... pop(); emit("}")] *)
Definition braces (open : str) (inside : commands) : commands :=
  Emit open :: Newline :: Push :: inside ++ [Pop; Emit $"}"].

Definition print_Module (body : list (option commands)) : commands :=
  match body with
  | [] => []
  | s :: l => stmt s ++ concat (map (fun s => Newline :: stmt s) l)
  end.

Definition print_VariableDeclaration (isConst : bool) (id : option Identifier) (typeNode init : option commands) : commands :=
  (if isConst then e_ $"let " else []) ++ name_ id ++ wrapped (e_ $"<") typeNode (e_ $">") ++ wrapped (e_ $" = ") init [].

Definition print_FunctionDeclaration (inlineHint : Z) (id : option Identifier) (genericParams : list (option commands))
    (params : list commands) (variadic : bool) (returnTypeNode : option commands) (body : option (list (option commands))) : commands :=
  (if (inlineHint =? 0)%Z then [] else [Emit (if (0 <? inlineHint)%Z then $"@inline" else $"@noinline"); Newline])
  ++ name_ id ++ printGenericParams genericParams ++ printParamList params ++ (if variadic then e_ $"..." else [])
  ++ wrapped (e_ $"<") returnTypeNode (e_ $">")
  ++ match body with Some (_ :: _) => e_ $" -> " ++ printBlock body | _ => [] end.

Definition print_FieldDeclaration (name : option Identifier) (typeNode initializer : option commands) : commands :=
  name_ name ++ wrapped (e_ $"<") typeNode (e_ $">") ++ wrapped (e_ $" = ") initializer [].

(** The fields, each followed by a comma unless it ends the body. *)
Fixpoint struct_fields (more : bool) (fields : list commands) : commands :=
  match fields with
  | [] => []
  | f :: fs => f ++ Emit (match fs with [] => if more then $"," else [] | _ => $"," end) :: Newline :: struct_fields more fs
  end.

Definition print_StructDeclaration (reprC : bool) (name : option Identifier) (genericParams fields constructors : list (option commands)) : commands :=
  e_ (if reprC then $"struct reprC " else $"struct ") ++ name_ name ++ printGenericParams genericParams
  ++ braces $" {"
       (struct_fields (negb (bool_decide (constructors = []))) (map (deref_ $"fields[i]->name") fields)
        ++ lines_with $"," (map (deref_ $"constructors[i]->inlineHint") constructors)).

Definition print_EnumVariant (name : option Identifier) (associatedTypes : list (option commands)) (hasValue : bool) (value : Z) : commands :=
  name_ name
  ++ match associatedTypes with
     | _ :: _ => e_ $"(" ++ separated_by $", " (map if_ associatedTypes) ++ e_ $")"
     | [] => if hasValue then [Emit $" = "; Emit (to_string value)] else []
     end.

Definition print_EnumDeclaration (name : option Identifier) (genericParams variants : list (option commands)) : commands :=
  e_ $"enum " ++ name_ name ++ printGenericParams genericParams
  ++ braces $" {" (struct_fields false (map (deref_ $"variants[i]->name") variants)).

Definition print_specifier (s : ImportSpecifier) : commands :=
  name_ (importedName s) ++ match localName s with Some l => [Emit $" as "; Emit (name l)] | None => [] end.

Definition print_ImportDeclaration (source locator : option StringLit) (specifiers : list ImportSpecifier)
    (defaultImport namespaceImport : option Identifier) : commands :=
  e_ $"import "
  ++ match defaultImport, namespaceImport, specifiers with
     | Some d, _, _ => [Emit (name d); Emit $" from "]
     | None, Some s, _ => [Emit $"* as "; Emit (name s); Emit $" from "]
     | None, None, _ :: _ => e_ $"{ " ++ separated_by $", " (map print_specifier specifiers) ++ e_ $" } from "
     | None, None, [] => []
     end
  ++ match source with Some s => e_ (str_value s) | None => [] end
  ++ match locator with Some l => [Emit ($" from " ++ [ch_quote]); Emit (str_value l); Emit [ch_quote]] | None => [] end.

Definition print_TypeAliasDeclaration (name : option Identifier) (typeNode : option commands) : commands :=
  e_ $"type " ++ name_ name ++ e_ $" = " ++ if_ typeNode.

Definition print_ClassDeclaration (name : option Identifier) (genericParams members : list (option commands)) : commands :=
  e_ $"class " ++ name_ name ++ printGenericParams genericParams ++ braces $" {" (concat (map stmt members)).

Definition method_lines (methods : list (option commands)) : commands :=
  concat (map (fun m => deref_ $"m->inlineHint" m ++ [Newline]) methods).

Definition print_BindDeclaration (selfType : option commands) (methods : list (option commands)) : commands :=
  e_ $"bind " ++ if_ selfType ++ braces $" -> {" (method_lines methods).

Definition print_TemplateDeclaration (name : option Identifier) (genericParams : list (option commands)) (body : option commands) : commands :=
  e_ $"template " ++ name_ name ++ printGenericParams genericParams ++ e_ $" " ++ if_ body.

Definition print_AspectDeclaration (name : option Identifier) (genericParams : list (option commands))
    (superTypes : list (option Identifier)) (methods : list (option commands)) : commands :=
  e_ $"aspect " ++ name_ name ++ printGenericParams genericParams
  ++ match superTypes with [] => [] | _ => e_ $" : " ++ separated_by $" + " (map name_ superTypes) end
  ++ braces $" {" (method_lines methods).

Definition print_NamespaceDeclaration (name : option Identifier) (members : list (option commands)) : commands :=
  e_ $"namespace " ++ name_ name ++ braces $" {" (concat (map stmt members)).

(** ** Statements *)

Definition label_ (label : str) : commands := match label with [] => [] | _ => [Emit label; Emit $": "] end.

Definition print_IfStatement (test consequent alternate : option commands) : commands :=
  e_ $"if (" ++ if_ test ++ e_ $") " ++ if_ consequent ++ wrapped (e_ $" else ") alternate [].
Definition print_ForStatement (label : str) (init test update body : option commands) : commands :=
  label_ label ++ e_ $"for (" ++ if_ init ++ e_ $"; " ++ if_ test ++ e_ $"; " ++ if_ update ++ e_ $") " ++ if_ body.
Definition print_WhileStatement (label : str) (test body : option commands) : commands :=
  label_ label ++ e_ $"while (" ++ if_ test ++ e_ $") " ++ if_ body.
Definition print_ReturnStatement (argument : option commands) : commands := e_ $"return" ++ wrapped (e_ $" ") argument [].
Definition print_PassStatement (argument : option commands) : commands := e_ $"pass(" ++ if_ argument ++ e_ $")".
Definition jump (word label : str) : commands := Emit word :: match label with [] => [] | _ => [Emit $" "; Emit label] end.
Definition print_BreakStatement (label : str) : commands := jump $"break" label.
Definition print_ContinueStatement (label : str) : commands := jump $"continue" label.
Definition print_TryStatement (tryBlock : option commands) (catchIdent : option str) (catchBlock finallyBlock : option commands) : commands :=
  e_ $"try " ++ if_ tryBlock
  ++ wrapped (Emit $" catch" :: match catchIdent with Some i => [Emit $" ("; Emit i; Emit $")"] | None => [] end ++ e_ $" ") catchBlock []
  ++ wrapped (e_ $" finally ") finallyBlock [].
Definition print_FreedomStatement (block : option commands) : commands := e_ $"freedom " ++ if_ block.
Definition print_ExternStatement (name : option Identifier) (parameters : list commands) (returnType : option commands) : commands :=
  e_ $"extern " ++ name_ name ++ printParamList parameters ++ wrapped (e_ $"<") returnType (e_ $">").
Definition print_ThrowStatement (expr : option commands) : commands := e_ $"throw " ++ if_ expr.

Definition print_arm (arm : option commands * option commands) (guard : option commands) : commands :=
  (match arm.1 with Some p => p | None => e_ $"?" end) ++ wrapped (e_ $" if ") guard [] ++ e_ $" -> " ++ if_ arm.2.

(** Guards beyond the cases are ignored, and a case beyond them has none. *)
Fixpoint print_arms (cases : list (option commands * option commands)) (guards : list (option commands)) : list commands :=
  match cases with
  | [] => []
  | c :: cs => print_arm c (match guards with g :: _ => g | [] => None end) :: print_arms cs (tail guards)
  end.

Definition print_MatchStatement (expr : option commands) (cases : list (option commands * option commands)) (guards : list (option commands)) : commands :=
  e_ $"match (" ++ if_ expr ++ braces $") {" (lines_with $"," (print_arms cases guards)).
Definition print_YieldStatement (expression : option commands) : commands := e_ $"yield" ++ wrapped (e_ $" ") expression [].
Definition print_YieldReturnStatement (expression : option commands) : commands := e_ $"yield return" ++ wrapped (e_ $" ") expression [].
Definition print_AssertStatement (condition message : option commands) : commands :=
  e_ $"assert(" ++ if_ condition ++ wrapped (e_ $", ") message [] ++ e_ $")".
Definition print_FailStatement (error : option commands) : commands := e_ $"fail(" ++ if_ error ++ e_ $")".
Definition print_RefailStatement (wrappedError : option commands) : commands := e_ $"refail" ++ wrapped (e_ $" ") wrappedError [].
Definition print_PanicStatement (message : option commands) : commands := e_ $"panic(" ++ if_ message ++ e_ $")".
Definition print_ExitStatement (code : option commands) : commands := e_ $"exit(" ++ if_ code ++ e_ $")".
Definition print_DeferStatement (statement : option commands) : commands := e_ $"defer " ++ if_ statement.
Definition print_TupleDestructureAssignment (identifiers : list Identifier) (expression : option commands) : commands :=
  e_ $"(" ++ separated_by $", " (map (fun i => e_ (name i)) identifiers) ++ e_ $") = " ++ if_ expression.

(** ** Expressions *)

Definition print_StringLiteral (value : str) : commands := [Emit [ch_quote]; Emit value; Emit [ch_quote]].
Definition print_ArrayLiteral (elements : list (option commands)) : commands :=
  e_ $"[" ++ separated_by $", " (map if_ elements) ++ e_ $"]".
Definition print_property (key : Identifier) (value : option commands) : commands := e_ (name key) ++ wrapped (e_ $" = ") value [].
Definition print_ObjectLiteral (typePath : option commands) (properties : list commands) : commands :=
  wrapped [] typePath (e_ $" ") ++ e_ $"{ " ++ separated_by $", " properties ++ e_ $" }".
Definition spaced (left : commands) (op : Token) (right : commands) : commands :=
  left ++ [Emit $" "; Emit (lexeme op); Emit $" "] ++ right.
Definition arguments_ (arguments : list (option commands)) : commands :=
  e_ $"(" ++ separated_by $", " (map if_ arguments) ++ e_ $")".
Definition print_CallExpression (callee : option commands) (explicitTypeArgs arguments : list (option commands)) : commands :=
  deref_ $"n->callee->accept" callee
  ++ match explicitTypeArgs with [] => [] | _ => e_ $"<" ++ separated_by $", " (map if_ explicitTypeArgs) ++ e_ $">" end
  ++ arguments_ arguments.
Definition print_MemberExpression (object : commands) (computed : bool) (property : option commands) : commands :=
  object ++ (if computed then e_ $"[" ++ if_ property ++ e_ $"]" else e_ $"." ++ if_ property).
Definition call_like (word : str) (argument : option commands) : commands := e_ (word ++ $"(") ++ if_ argument ++ e_ $")".
Definition print_BorrowExpression (kind : BorrowKind) (expression : option commands) : commands :=
  call_like (match kind with MUTABLE_BORROW => $"borrow" | IMMUTABLE_VIEW => $"view" end) expression.
Definition print_PointerDerefExpression (pointer : option commands) : commands := call_like $"at" pointer.
Definition print_AddrOfExpression (location : option commands) : commands := call_like $"addr" location.
Definition print_LocationExpression (expression : option commands) : commands := call_like $"loc" expression.
Definition print_TypenameExpression (operand : option commands) : commands := call_like $"typename" operand.
Definition print_FromIntToLocExpression (target address : option commands) : commands :=
  e_ $"from<" ++ if_ target ++ e_ $">(" ++ if_ address ++ e_ $")".
Definition print_ArrayElementExpression (array : commands) (index : option commands) : commands :=
  array ++ e_ $"[" ++ if_ index ++ e_ $"]".
Definition print_ListComprehension (elementExpr : option commands) (loopVariable : option Identifier) (iterableExpr conditionExpr : option commands) : commands :=
  e_ $"[" ++ if_ elementExpr ++ e_ $" for " ++ name_ loopVariable ++ e_ $" in " ++ if_ iterableExpr
  ++ wrapped (e_ $" if ") conditionExpr [] ++ e_ $"]".
Definition print_IfExpression (condition thenBranch elseBranch : option commands) : commands :=
  e_ $"if (" ++ if_ condition ++ e_ $") " ++ if_ thenBranch ++ e_ $" else " ++ if_ elseBranch.
Definition print_ConstructionExpression (constructedType : option commands) (arguments : list (option commands)) : commands :=
  if_ constructedType ++ arguments_ arguments.
Definition print_ArrayInitializationExpression (elementType sizeExpression : option commands) : commands :=
  e_ $"[" ++ if_ elementType ++ e_ $"; " ++ if_ sizeExpression ++ e_ $"]()".
Definition print_GenericInstantiationExpression (base : option commands) (genericArguments : list (option commands)) : commands :=
  if_ base ++ e_ $"<" ++ separated_by $", " (map if_ genericArguments) ++ e_ $">".
Definition print_ConditionalExpression (condition thenExpr elseExpr : commands) : commands :=
  condition ++ e_ $" ? " ++ thenExpr ++ e_ $" : " ++ elseExpr.
Definition print_SequenceExpression (expressions : list (option commands)) : commands := separated_by $", " (map if_ expressions).
Definition print_FunctionExpression (isAsync : bool) (params : list commands) (body : option commands) : commands :=
  (if isAsync then e_ $"async " else [])
  ++ match params with [] => e_ $"||" | _ => e_ $"|" ++ separated_by $", " params ++ e_ $"|" end
  ++ e_ $" -> " ++ if_ body.
Definition print_AwaitExpression (expr : option commands) : commands := e_ $"await " ++ if_ expr.
Definition print_RangeExpression (start end_ step : option commands) : commands :=
  if_ start ++ e_ $".." ++ if_ end_ ++ wrapped (e_ $"..") step [].
Definition print_SelectExpression (expr : option commands) (cases : list (option commands * option commands)) : commands :=
  e_ $"select(" ++ if_ expr ++ braces $") -> {" (lines_with $"," (map (fun c => print_arm c None) cases)).
Definition print_TypeofExpression (operand typeArg : option commands) : commands :=
  e_ $"typeof" ++ match typeArg with
                  | Some t => e_ $"<" ++ t ++ [Emit $">"; Emit $"()"]
                  | None => e_ $"(" ++ if_ operand ++ e_ $")"
                  end.
Definition print_AsExpression (operand targetType : option commands) : commands := if_ operand ++ e_ $" as " ++ if_ targetType.
Definition print_ComparisonPattern (op : Token) (value : option commands) : commands := [Emit (lexeme op); Emit $" "] ++ if_ value.
Definition print_StructPattern (typeName : option commands) (bindings : list (option Identifier)) : commands :=
  if_ typeName ++ e_ $" { " ++ separated_by $", " (map name_ bindings) ++ e_ $" }".
Definition print_SetPattern (elements : list (option commands)) : commands :=
  e_ $"{ " ++ separated_by $", " (map if_ elements) ++ e_ $" }".

(** ** [accept]: the visit method of a node *)

Fixpoint visit_expression (e : Expression) : commands :=
  let E := visit_expression in
  let T := visit_type in
  match e with
  | IdentifierExpr i => e_ (name i)
  | IntegerLiteral _ v u uv => print_IntegerLiteral v u uv
  | FloatLiteral _ v => print_FloatLiteral v
  | StringLiteral s => print_StringLiteral (str_value s)
  | BooleanLiteral _ v => e_ (if v then $"true" else $"false")
  | NilLiteral _ => e_ $"Nil"
  | ArrayLiteral _ es => print_ArrayLiteral (map (option_map E) es)
  | ObjectLiteral _ t ps =>
      print_ObjectLiteral (option_map T t)
        (map (fun p => match p with mkObjectProperty _ k v => print_property k (option_map E v) end) ps)
  | BorrowExpression _ x k => print_BorrowExpression k (option_map E x)
  | PointerDerefExpression _ x => print_PointerDerefExpression (option_map E x)
  | AddrOfExpression _ x => print_AddrOfExpression (option_map E x)
  | FromIntToLocExpression _ x t => print_FromIntToLocExpression (option_map T t) (option_map E x)
  | ArrayElementExpression _ a i => print_ArrayElementExpression (printExpr E a 15) (option_map E i)
  | LocationExpression _ x => print_LocationExpression (option_map E x)
  | ListComprehension _ x v i c => print_ListComprehension (option_map E x) v (option_map E i) (option_map E c)
  | UnaryExpression _ op x => e_ (lexeme op) ++ printExpr E x 14
  | BinaryExpression _ l op r =>
      let p := binary_prec (lexeme op) in spaced (printExpr E l p) op (printExpr E r (p + 1))
  | CallExpression _ c args targs => print_CallExpression (option_map E c) (map (option_map T) targs) (map (option_map E) args)
  | ConstructionExpression _ t args => print_ConstructionExpression (option_map T t) (map (option_map E) args)
  | ArrayInitializationExpression _ t s => print_ArrayInitializationExpression (option_map T t) (option_map E s)
  | GenericInstantiationExpression _ b args _ _ =>
      print_GenericInstantiationExpression (option_map E b) (map (option_map T) args)
  | MemberExpression _ o p c => print_MemberExpression (printExpr E o 15) c (option_map E p)
  | AssignmentExpression _ l op r => spaced (printExpr E l 1) op (printExpr E r 1)
  | IfExpression _ c t f => print_IfExpression (option_map E c) (option_map E t) (option_map E f)
  | LogicalExpression _ l op r =>
      let p := logical_prec (lexeme op) in spaced (printExpr E l p) op (printExpr E r (p + 1))
  | ConditionalExpression _ c t f => print_ConditionalExpression (printExpr E c 2) (printExpr E t 0) (printExpr E f 2)
  | SequenceExpression _ es => print_SequenceExpression (map (option_map E) es)
  | FunctionExpression _ ps b a => print_FunctionExpression a (map visit_parameter ps) (option_map E b)
  | ThisExpression _ => e_ $"this"
  | SuperExpression _ => e_ $"super"
  | AwaitExpression _ x => print_AwaitExpression (option_map E x)
  | RangeExpression _ a b s => print_RangeExpression (option_map E a) (option_map E b) (option_map E s)
  | BlockExpression _ b _ _ => if_ (option_map visit_block b)
  | SelectExpression _ x cs =>
      print_SelectExpression (option_map E x) (map (fun c => (option_map E (fst c), option_map E (snd c))) cs)
  | ComparisonPattern _ op v => print_ComparisonPattern op (option_map E v)
  | StructPattern _ t bs => print_StructPattern (option_map T t) bs
  | SetPattern _ es => print_SetPattern (map (option_map E) es)
  | TypeofExpression _ x t => print_TypeofExpression (option_map E x) (option_map T t)
  | TypenameExpression _ x => print_TypenameExpression (option_map E x)
  | AsExpression _ x t => print_AsExpression (option_map E x) (option_map T t)
  | MatchExpression _ m => if_ (option_map visit_match m)
  end

with visit_statement (s : Statement) : commands :=
  let E := visit_expression in
  let T := visit_type in
  let St := visit_statement in
  match s with
  | BlockStatement b => visit_block b
  | EmptyStatement _ => []
  | TryStatement _ t i c f => print_TryStatement (option_map visit_block t) i (option_map visit_block c) (option_map visit_block f)
  | ExpressionStatement _ x => if_ (option_map E x)
  | IfStatement _ t c a => print_IfStatement (option_map E t) (option_map St c) (option_map St a)
  | ForStatement _ i t u b l => print_ForStatement l (option_map St i) (option_map E t) (option_map E u) (option_map St b)
  | WhileStatement _ t b l => print_WhileStatement l (option_map E t) (option_map St b)
  | ReturnStatement _ x => print_ReturnStatement (option_map E x)
  | PassStatement _ x => print_PassStatement (option_map E x)
  | BreakStatement _ l => print_BreakStatement l
  | ContinueStatement _ l => print_ContinueStatement l
  | FreedomStatement _ b => print_FreedomStatement (option_map visit_block b)
  | ExternStatement _ i r ps => print_ExternStatement i (map visit_parameter ps) (option_map T r)
  | ThrowStatement _ x => print_ThrowStatement (option_map E x)
  | MatchStatement m => visit_match m
  | YieldStatement _ x => print_YieldStatement (option_map E x)
  | YieldReturnStatement _ x => print_YieldReturnStatement (option_map E x)
  | AssertStatement _ c m => print_AssertStatement (option_map E c) (option_map E m)
  | FailStatement _ x _ => print_FailStatement (option_map E x)
  | RefailStatement _ x => print_RefailStatement (option_map E x)
  | PanicStatement _ x => print_PanicStatement (option_map E x)
  | ExitStatement _ x => print_ExitStatement (option_map E x)
  | DeferStatement _ x => print_DeferStatement (option_map St x)
  | TupleDestructureAssignment _ is_ x => print_TupleDestructureAssignment is_ (option_map E x)
  | VariableDeclaration _ i k t x _ => print_VariableDeclaration k i (option_map T t) (option_map E x)
  | FunctionDeclaration f => visit_function f
  | TypeAliasDeclaration _ i t => print_TypeAliasDeclaration i (option_map T t)
  | ImportDeclaration _ _ src l sp d ns => print_ImportDeclaration src l sp d ns
  | StructDeclaration _ i gs fs cs r =>
      print_StructDeclaration r i (map (option_map visit_generic) gs) (map (option_map visit_field) fs) (map (option_map visit_function) cs)
  | ClassDeclaration _ i gs ms => print_ClassDeclaration i (map (option_map visit_generic) gs) (map (option_map St) ms)
  | FieldDeclaration f => visit_field f
  | BindDeclaration _ _ _ _ self _ ms => print_BindDeclaration (option_map T self) (map (option_map visit_function) ms)
  | EnumDeclaration _ i gs vs => print_EnumDeclaration i (map (option_map visit_generic) gs) (map (option_map visit_variant) vs)
  | TemplateDeclaration _ i gs b => print_TemplateDeclaration i (map (option_map visit_generic) gs) (option_map St b)
  | AspectDeclaration _ i gs ss _ _ _ ms => print_AspectDeclaration i (map (option_map visit_generic) gs) ss (map (option_map visit_function) ms)
  | NamespaceDeclaration _ i ms => print_NamespaceDeclaration i (map (option_map St) ms)
  end

with visit_type (t : TypeNode) : commands :=
  let T := visit_type in
  match t with
  | TypeName _ i args => print_TypeName i (map (option_map T) args)
  | PointerType _ p => print_PointerType (option_map T p)
  | ArrayType _ el s => print_ArrayType (option_map T el) (option_map visit_expression s)
  | VecType _ el => print_VecType (option_map T el)
  | FutureType _ r => print_FutureType (option_map T r)
  | FunctionType _ ps r => print_FunctionType (map (option_map T) ps) (option_map T r)
  | OptionalType _ c => print_OptionalType (option_map T c)
  | TupleTypeNode _ ms => print_TupleType (map (option_map T) ms)
  end

with visit_parameter (p : FunctionParameter) : commands :=
  match p with mkFunctionParameter i t _ => print_parameter i (option_map visit_type t) end

with visit_generic (g : GenericParameter) : commands :=
  match g with mkGenericParameter _ i bs => print_generic_parameter i (map (option_map visit_type) bs) end

with visit_block (b : Block) : commands :=
  match b with mkBlock _ ss => printBlock (Some (map (option_map visit_statement) ss)) end

with visit_match (m : Match) : commands :=
  match m with
  | mkMatch _ x cs gs =>
      print_MatchStatement (option_map visit_expression x)
        (map (fun c => (option_map visit_expression (fst c), option_map visit_expression (snd c))) cs)
        (map (option_map visit_expression) gs)
  end

with visit_field (f : Field) : commands :=
  match f with mkField _ i t x _ => print_FieldDeclaration i (option_map visit_type t) (option_map visit_expression x) end

with visit_function (f : Function_) : commands :=
  match f with
  | mkFunction _ i gs ps b _ _ v r h =>
      print_FunctionDeclaration h i (map (option_map visit_generic) gs) (map visit_parameter ps) v (option_map visit_type r)
        (option_map (fun b => match b with mkBlock _ ss => map (option_map visit_statement) ss end) b)
  end

with visit_variant (v : EnumVariant) : commands :=
  match v with mkEnumVariant _ i ts x h => print_EnumVariant i (map (option_map visit_type) ts) h x end.

(** [TrapClause] and [EnsureClause] have visit methods that no other method calls. *)
Definition print_TrapClause (c : TrapClause) : commands :=
  match c with
  | mkTrapClause _ i t ts h wild multi =>
      e_ $"trap (" ++ name_ i
      ++ (if wild then e_ $"<?>"
          else if multi then e_ $"<" ++ separated_by $" | " (map visit_type ts) ++ e_ $">"
          else wrapped (e_ $"<") (option_map visit_type t) (e_ $">"))
      ++ e_ $") " ++ if_ (option_map visit_statement h)
  end.
Definition print_EnsureClause (c : EnsureClause) : commands :=
  match c with mkEnsureClause _ b => e_ $"ensure " ++ if_ (option_map visit_statement b) end.

(** ** [SourcePrinter::format] *)

Definition is_blank_end (c : ascii) : bool := (c =c ch_nl) || (c =c " ") || (c =c ch_tab).

Definition normalized (s : str) : str := rev (drop_while is_blank_end (rev s)) ++ [ch_nl].

Definition format (module : Module_) : outcome str :=
  p ← run (print_Module (map (option_map visit_statement) (module_body module))) SourcePrinter_new;
  Ok (normalized (out_ p)).
