(* ===== verification/FormatProps.v ===== *)
(** * The formatter against the front end

    The text the formatter writes for an expression of operators and literals,
    through the lexer and the expression parser: the tree comes back. What the
    formatter writes for other trees is in the examples at the end. *)

From S2P Require Import Prelude.
From S2P Require Import Token.
From S2P Require Import Lexer.
From S2P Require Import LexerProps.
From S2P Require Import TokenStream.
From S2P Require Import Ast.
From S2P Require Import IntTypes.
From S2P Require Import ParserMonad.
From S2P Require Import TypeParser.
From S2P Require Import TypeText.
From S2P Require Import ExprParser.
From S2P Require Import ModuleParser.
From S2P Require Import Precedence.
From S2P Require Import Format.

(** ** Running the calls *)

(** What the calls of an expression write: they open no line. *)
Fixpoint emitted (cs : list Command) : option str :=
  match cs with
  | [] => Some []
  | Emit s :: cs' => t ← emitted cs'; Some (s ++ t)
  | _ => None
  end.

Lemma emitted_app a b s t : emitted a = Some s -> emitted b = Some t -> emitted (a ++ b) = Some (s ++ t).
Proof.
  intros Ha Hb. revert s Ha. induction a as [|[u| | | |] a IH]; intros s; cbn; try done; [by intros [= <-]|].
  destruct (emitted a) as [v|]; [|done]. intros [= <-]. cbn. rewrite (IH v) by done. cbn. by rewrite app_assoc.
Qed.

Lemma run_emitted cs s p : emitted cs = Some s -> atLineStart_ p = false ->
  run cs p = Ok (mkPrinter (out_ p ++ s) (indent_ p) false).
Proof.
  revert s p. induction cs as [|[u| | | |] cs IH]; intros s p; cbn [emitted run]; try done.
  - intros [= <-] Hp. rewrite app_nil_r. destruct p. by cbn in Hp; subst.
  - destruct (emitted cs) as [v|]; [|done]. intros [= <-] Hp. rewrite (IH v) by (done || by unfold emit; rewrite Hp).
    unfold emit. rewrite Hp. cbn. by rewrite app_assoc.
Qed.

(** On a new printer nothing is indented. *)
Lemma run_new cs s : emitted cs = Some s -> cs <> [] -> run cs SourcePrinter_new = Ok (mkPrinter s 0 false).
Proof.
  destruct cs as [|[u| | | |] cs]; cbn [emitted]; try done. intros H _. destruct (emitted cs) as [v|] eqn:E; [|done].
  injection H as <-. cbn [run]. by rewrite (run_emitted cs v) by done.
Qed.

(** A formatted module ends in one line break, after something that is not blank. *)
Lemma drop_while_stops {A} (p : A -> bool) (l : list A) : match drop_while p l with x :: _ => p x = false | [] => True end.
Proof. induction l as [|x l IH]; [done|]. cbn. by destruct (p x) eqn:E. Qed.

Lemma format_normal m s : format m = Ok s ->
  exists t, s = t ++ [ch_nl] /\ match last t with Some c => is_blank_end c = false | None => True end.
Proof.
  unfold format. destruct (run _ _) as [p|]; [|done]. intros [= <-]. eexists. split; [done|].
  pose proof (drop_while_stops is_blank_end (rev (out_ p))) as H. destruct (drop_while _ _) as [|c l]; [done|].
  cbn. by rewrite last_snoc.
Qed.

(** ** Texts of expressions *)

(** The infix operators the lexer knows, with their tokens. [-=] and [:=] are
    not among them. *)
Definition infix_table : list (TokenType * str * list (TokenType * str)) :=
  [(OR, $"||", [(OR, $"||")]); (AND, $"&&", [(AND, $"&&")]); (PIPE, $"|", [(PIPE, $"|")]); (CARET, $"^", [(CARET, $"^")]);
   (AMPERSAND, $"&", [(AMPERSAND, $"&")]); (EQEQ, $"==", [(EQEQ, $"==")]); (NOTEQ, $"!=", [(NOTEQ, $"!=")]);
   (LT, $"<", [(LT, $"<")]); (LTEQ, $"<=", [(LTEQ, $"<=")]); (GT, $">", [(GT, $">")]); (GTEQ, $">=", [(GTEQ, $">=")]);
   (LSHIFT, $"<<", [(LT, $"<"); (LT, $"<")]); (RSHIFT, $">>", [(GT, $">"); (GT, $">")]);
   (PLUS, $"+", [(PLUS, $"+")]); (MINUS, $"-", [(MINUS, $"-")]); (MULTIPLY, $"*", [(MULTIPLY, $"*")]);
   (DIVIDE, $"/", [(DIVIDE, $"/")]); (MODULO, $"%", [(MODULO, $"%")])].

Definition assignment_table : list (TokenType * str * list (TokenType * str)) :=
  [(EQ, $"=", [(EQ, $"=")]); (PLUSEQ, $"+=", [(PLUSEQ, $"+=")]); (MULTIPLYEQ, $"*=", [(MULTIPLYEQ, $"*=")]);
   (DIVEQ, $"/=", [(DIVEQ, $"/=")]); (MODEQ, $"%=", [(MODEQ, $"%=")]); (LSHIFTEQ, $"<<=", [(LSHIFTEQ, $"<<=")]);
   (RSHIFTEQ, $">>=", [(RSHIFTEQ, $">>=")]); (BITWISEANDEQ, $"&=", [(BITWISEANDEQ, $"&=")]);
   (BITWISEOREQ, $"|=", [(BITWISEOREQ, $"|=")]); (BITWISEXOREQ, $"^=", [(BITWISEXOREQ, $"^=")])].

Definition prefix_char (c : ascii) : option TokenType :=
  if c =c "!" then Some BANG else if c =c "-" then Some MINUS else if c =c "~" then Some TILDE else None.

Inductive written : str -> list (TokenType * str) -> Prop :=
| written_nil : written [] []
| written_space s ts : written s ts -> written (" "%char :: s) ts
| written_word c w s ts :
    is_letter c = true -> forallb is_word_char w = true -> head_not is_word_char s -> written s ts ->
    written (c :: w ++ s) ((get_keyword_type (c :: w), c :: w) :: ts)
| written_number w s ts :
    w <> [] -> forallb is_digit w = true -> head_not (fun c => is_word_char c || (c =c ".")) s -> written s ts ->
    written (w ++ s) ((INT_LITERAL, w) :: ts)
| written_mark c ty s ts : punctuation c = Some ty -> written s ts -> written (c :: s) ((ty, [c]) :: ts)
| written_prefix c ty s ts :
    prefix_char c = Some ty -> head_not (fun c => (c =c "=") || (c =c ">")) s -> written s ts -> written (c :: s) ((ty, [c]) :: ts)
| written_infix ty op tys s ts :
    (ty, op, tys) ∈ infix_table ++ assignment_table -> written s ts -> written (op ++ " "%char :: s) (tys ++ ts).

Lemma slash_step L s tokens : rest L = "/"%char :: s -> head_not (ceq "/") s ->
  tokenize_step L "/"%char tokens = lex_operator L "/"%char tokens.
Proof.
  intros E H. unfold tokenize_step. replace (next_is L 1 "/") with false; [reflexivity|]. rewrite next_is_at, E.
  destruct s as [|x s]; [done|]. cbn in H |- *. symmetry. apply ceq_false in H. apply ceq_false. congruence.
Qed.

Lemma infix_lexes_on L ty op tys s ts tokens : (ty, op, tys) ∈ infix_table ++ assignment_table ->
  rest L = op ++ " "%char :: s -> written s ts -> lexes_on written (op ++ " "%char :: s) (tys ++ ts) L tokens.
Proof.
  intros H E W. apply written_space in W.
  assert (G : exists c o d, op = c :: o /\ tokenize_step L c tokens = lex_operator L c tokens
    /\ operator_tokens L c = Some (tys, d) /\ length (concat tys.*2) = length op).
  { revert E. clear W. unfold infix_table, assignment_table in H. cbn [app] in H.
    repeat (apply elem_of_cons in H as [H|H]; [injection H as -> -> ->; cbn [app]; intros E; eexists _, _, _;
      split; [reflexivity|]; split; [first [by apply operator_step | by eapply slash_step; [exact E|]]|];
      split; [cbv [operator_tokens]; cbn; rewrite !next_is_at, E; reflexivity|reflexivity]|]).
    by apply elem_of_nil in H. }
  destruct G as (c & o & d & -> & Hs & Ho & Hl). cbn [app] in *.
  eapply switch_lexes_on; [exact E|done|exact Ho| | |exact W].
  - rewrite Hl. change (c :: o ++ " "%char :: s) with ((c :: o) ++ " "%char :: s). by rewrite drop_app_length.
  - cbn. rewrite length_app. cbn. lia.
Qed.

Lemma digit_step L c tokens : is_digit c = true -> tokenize_step L c tokens = lex_number L c tokens.
Proof.
  intros H. unfold tokenize_step.
  assert (N : forall d, is_digit d = false -> (c =c d) = false) by (intros d Hd; apply ceq_false; intros ->; congruence).
  rewrite !N by done. cbn [andb orb]. replace (is_letter c) with false; [by rewrite H|].
  symmetry. unfold is_digit, is_letter, in_range in *. apply andb_prop in H as [H1 H2].
  repeat match goal with H : (_ <=? _)%N = true |- _ => apply N.leb_le in H end.
  apply orb_false_intro; apply andb_false_iff; [left|left]; apply N.leb_gt; cbn in *; lia.
Qed.

Lemma take_while_stop {A} (p : A -> bool) (w s : list A) : forallb p w = true ->
  match s with [] => True | x :: _ => p x = false end -> take_while p (w ++ s) = w.
Proof.
  intros Hw Hs. induction w as [|x w IH]; cbn in *; [by destruct s as [|y s]; cbn; [|rewrite Hs]|].
  apply andb_prop in Hw as [-> Hw]. by rewrite IH.
Qed.

(** No letter, digit or dot comes next. *)
Definition number_ends (s : str) : Prop := head_not (fun c => is_word_char c || (c =c ".")) s.

Lemma number_ends_not s L k d : number_ends s -> rest L = s -> is_word_char d || (d =c ".") = true -> k = 0 -> next_is L k d = false.
Proof.
  intros N E H ->. rewrite next_is_at, E. destruct s as [|x s]; [done|]. cbn in N |- *. apply ceq_false. intros ->. congruence.
Qed.

Lemma number_lexes L w s tokens : rest L = w ++ s -> w <> [] -> forallb is_digit w = true -> number_ends s ->
  lex_decimal L tokens = Ok (advance (advance (advance L (length w) 0) 0 0) 0 (Z.of_nat (length w)), tokens ++ [mkToken INT_LITERAL w (here L)]).
Proof.
  intros E Hw Hd N. unfold lex_decimal. rewrite consume_while_eq, E.
  assert (T : take_while is_digit (w ++ s) = w).
  { apply take_while_stop; [done|]. destruct s as [|x s]; [done|]. cbn in N. unfold is_word_char in N. by destruct (is_digit x), (is_letter x). }
  rewrite T. set (L1 := advance L (length w) 0).
  assert (E1 : rest L1 = s) by (unfold L1; by rewrite rest_advance, E, drop_app_length).
  assert (F : forall c, source_ L1 !! pos_ L1 = Some c -> is_word_char c || (c =c ".") = false).
  { intros c Hc. replace (pos_ L1) with (pos_ L1 + 0) in Hc by lia. rewrite <- rest_lookup, E1 in Hc. destruct s as [|x s]; [done|].
    by injection Hc as ->. }
  assert (S : unsigned_suffix L1 = []).
  { unfold unsigned_suffix. destruct (source_ L1 !! pos_ L1) as [c|] eqn:Ec; [|done]. specialize (F c eq_refl).
    destruct (c =c "u") eqn:E2; [apply ceq_true in E2 as ->; done|]. destruct (c =c "U") eqn:E3; [apply ceq_true in E3 as ->; done|done]. }
  rewrite S. cbn [length app]. rewrite app_nil_r. change (Z.of_nat 0) with 0%Z. rewrite (advance_0 L1).
  rewrite !(number_ends_not s L1 0) by done. cbn [andb].
  assert (X : consume_exponent L1 = Ok ([], L1)).
  { unfold consume_exponent. destruct (source_ L1 !! pos_ L1) as [c|] eqn:Ec; [|done]. specialize (F c eq_refl).
    destruct (c =c "e") eqn:E2; [apply ceq_true in E2 as ->; done|]. destruct (c =c "E") eqn:E3; [apply ceq_true in E3 as ->; done|done]. }
  by rewrite X.
Qed.

Lemma number_lexes_on L w s ts tokens : rest L = w ++ s -> w <> [] -> forallb is_digit w = true -> number_ends s -> written s ts ->
  lexes_on written (w ++ s) ((INT_LITERAL, w) :: ts) L tokens.
Proof.
  intros E Hw Hd N H. destruct w as [|c w]; [done|]. pose proof Hd as [Hc Hd']%andb_prop.
  eexists c, _, [mkToken INT_LITERAL (c :: w) (here L)], s, ts. split_and!; [by eapply at_rest| | |done| |done].
  - rewrite digit_step by done. unfold lex_number.
    assert (X : forall d, is_digit d = false -> is_word_char d = true -> next_is L 1 d = false).
    { intros d D1 D2. rewrite next_is_at, E. cbn. destruct w as [|y w]; cbn.
      - destruct s as [|x s]; [done|]. cbn in N |- *. apply ceq_false. intros ->. by rewrite D2 in N.
      - cbn in Hd'. apply andb_prop in Hd' as [Hy _]. apply ceq_false. intros ->. congruence. }
    rewrite !X by done. cbn [orb]. rewrite !andb_false_r. by rewrite (number_lexes L (c :: w) s).
  - split; [|done]. rewrite !advance_advance, rest_advance, E, !Nat.add_0_r. apply drop_app_length.
  - rewrite length_app. cbn. lia.
Qed.

#[export] Instance written_relation : LexRelation written.
Proof.
  split.
  { intros ts H. inversion H; try done; match goal with E : _ ++ _ = [] |- _ => by apply app_eq_nil in E as [-> ?] end. }
  intros s ts L tokens H. revert L tokens.
  destruct H as [|s ts H|c w s ts Hc Hw Hs H|w s ts Hw Hd Hs H|c ty s ts Hc H|c ty s ts Hc Hs H|ty op tys s ts Ho H];
    intros L tokens E Hne; [done|..].
  - by apply space_lexes_on.
  - by apply word_lexes_on.
  - by apply number_lexes_on.
  - by apply mark_lexes_on.
  - assert (operator_char c = true /\ operator_tokens L c = Some ([(ty, [c])], 0%Z)) as [Hop Ht].
    { unfold prefix_char in Hc. repeat case_match; simplify_eq;
        match goal with H : (_ =c _) = true |- _ => apply ceq_true in H as -> end; (split; [done|]);
        cbv [operator_tokens]; cbn; try rewrite !next_is_at, E; try done; destruct s as [|x s]; try done; cbn in Hs |- *;
        apply orb_false_iff in Hs as [H1 H2]; by rewrite ?H1, ?H2. }
    apply (operator_lexes_on _ L c s tokens _ 0 s ts E Hop Ht); [done|cbn; lia|done].
  - by eapply infix_lexes_on.
Qed.

(** ** Operator expressions *)

Definition in_table (table : list (TokenType * str * list (TokenType * str))) (op : Token) : bool :=
  existsb (fun '(ty, lx, _) => (type op =t ty) && (lexeme op =s lx)) table.

Definition is_prefix (op : Token) : bool :=
  match lexeme op with [c] => bool_decide (prefix_char c = Some (type op)) | _ => false end.

Definition is_assignment (x : Expression) : bool := match x with AssignmentExpression _ _ _ _ => true | _ => false end.

(** Integers and booleans under the operators the lexer knows; an assignment
    is not the target of another. *)
Fixpoint operator_expression (x : Expression) : bool :=
  match x with
  | IntegerLiteral _ v u uv => (0 <=? v)%Z && (v <? 2 ^ 63)%Z && negb u && (uv =? 0)%Z
  | BooleanLiteral _ _ => true
  | UnaryExpression _ op (Some y) => is_prefix op && operator_expression y
  | BinaryExpression _ (Some l) op (Some r) => in_table infix_table op && operator_expression l && operator_expression r
  | AssignmentExpression _ (Some l) op (Some r) =>
      in_table assignment_table op && operator_expression l && negb (is_assignment l) && operator_expression r
  | _ => false
  end.

(** The same tree: node numbers and places may differ. *)
Inductive same_tree : Expression -> Expression -> Prop :=
| same_integer n m v u uv : same_tree (IntegerLiteral n v u uv) (IntegerLiteral m v u uv)
| same_boolean n m v : same_tree (BooleanLiteral n v) (BooleanLiteral m v)
| same_unary n m op op' x y : kind_of op = kind_of op' -> same_tree x y ->
    same_tree (UnaryExpression n op (Some x)) (UnaryExpression m op' (Some y))
| same_binary n m op op' x y x' y' : kind_of op = kind_of op' -> same_tree x x' -> same_tree y y' ->
    same_tree (BinaryExpression n (Some x) op (Some y)) (BinaryExpression m (Some x') op' (Some y'))
| same_assignment n m op op' x y x' y' : kind_of op = kind_of op' -> same_tree x x' -> same_tree y y' ->
    same_tree (AssignmentExpression n (Some x) op (Some y)) (AssignmentExpression m (Some x') op' (Some y')).

(** The formatter's precedences on the parser's levels. *)
Definition level_of (p : Z) : nat := if (p <=? 1)%Z then 0 else if (p <=? 4)%Z then 1 else Nat.min 11 (Z.to_nat (p - 3)).

Definition boundary (r : str) : Prop := match r with [] => True | c :: _ => c = " "%char \/ c = ")"%char end.

Lemma boundary_word r : boundary r -> head_not is_word_char r.
Proof. destruct r as [|c r]; [done|]. by intros [->| ->]. Qed.
Lemma boundary_number r : boundary r -> number_ends r.
Proof. destruct r as [|c r]; [done|]. by intros [->| ->]. Qed.

(** The calls [cs] write a text that lexes to the tokens of a sentence of
    level [k], and the sentence denotes the tree [x]. *)
Definition readable (k : nat) (cs : list Command) (x : Expression) : Prop :=
  exists s K, emitted cs = Some s
    /\ (exists c s', s = c :: s' /\ (c =c "=") || (c =c ">") = false)
    /\ (forall r kr, boundary r -> written r kr -> written (s ++ r) (K ++ kr))
    /\ (forall toks, kinds toks = K ->
          exists S, flatten S = toks /\ fits k S = true /\ spelled S = true /\ forall y, denotes S y -> same_tree x y).

Lemma fits_le k k' s : fits k s = true -> k' <= k -> fits k' s = true.
Proof.
  induction k as [|k IH]; intros F K; [by replace k' with 0 by lia|]. destruct (decide (k' = S k)) as [->|]; [done|].
  apply IH; [|lia]. destruct k as [|k]; [|by apply fits_weaken; [lia|]].
  destruct s as [| | |a op b]; try done. cbn [fits] in *. destruct (operator_level op) as [[|l]|]; try done.
Qed.

Lemma readable_le k k' cs x : readable k cs x -> k' <= k -> readable k' cs x.
Proof.
  intros (s & K & E & H & W & S) L. exists s, K. split_and!; try done. intros toks Hk.
  destruct (S toks Hk) as (t & Ht & F & Sp & D). exists t. split_and!; try done. by eapply fits_le.
Qed.

Lemma kinds_app toks a b : kinds toks = a ++ b -> exists l r, toks = l ++ r /\ kinds l = a /\ kinds r = b.
Proof. unfold kinds. intros H. apply map_eq_app in H as (l & r & -> & Ha & Hb). by exists l, r. Qed.

Lemma readable_group k cs x : readable 0 cs x -> readable k (e_ $"(" ++ cs ++ e_ $")") x.
Proof.
  intros (s & K & E & _ & W & S). exists ($"(" ++ s ++ $")"), ([(LPAREN, $"(")] ++ K ++ [(RPAREN, $")")]). split_and!.
  - apply (emitted_app (e_ $"(")); [done|]. by apply emitted_app.
  - by eexists _, _.
  - intros r kr Hr Hw. rewrite <- !app_assoc. cbn [app]. apply (written_mark "("%char LPAREN); [done|].
    apply W; [by right|]. by apply (written_mark ")"%char RPAREN).
  - intros toks Hk. destruct (kinds_app toks _ _ Hk) as (lp & toks1 & -> & Hl & H1).
    destruct (kinds_app toks1 _ _ H1) as (mid & rp & -> & Hm & Hr).
    destruct lp as [|o [|]]; try done. destruct rp as [|c [|]]; try done. injection Hl as Ho _. injection Hr as Hc _.
    destruct (S mid Hm) as (t & <- & F & Sp & D). exists (Group o t c). split_and!; [done|done| |].
    + cbn [spelled]. by rewrite Ho, Hc, Sp.
    + intros y Hy. inversion Hy; subst. by apply D.
Qed.

Lemma readable_operand p cs x : readable (level_of (precOf x)) cs x ->
  readable (level_of p) (if (precOf x <? p)%Z then e_ $"(" ++ cs ++ e_ $")" else cs) x.
Proof.
  intros H. destruct (Z.ltb_spec (precOf x) p).
  - apply readable_group. by eapply readable_le; [|lia].
  - eapply readable_le; [done|]. unfold level_of. repeat case_match; lia.
Qed.

(** A table entry, as the parser sees its tokens. *)
Lemma infix_entry op : in_table infix_table op = true ->
  exists tys, (type op, lexeme op, tys) ∈ infix_table ++ assignment_table
    /\ forall l, kinds l = tys -> exists tk, operator l = Some (level_of (binary_prec (lexeme op)), tk) /\ kind_of tk = kind_of op
         /\ forall n x y, infix_node tk n x y = BinaryExpression n (Some x) tk (Some y).
Proof.
  destruct op as [ty lx l0]. unfold in_table, infix_table. cbn [existsb type lexeme]. intros H.
  repeat (apply orb_prop in H as [H|H];
    [apply andb_prop in H as [->%tteq_true ->%streq_true]; eexists; split; [apply list_elem_of_In; cbn; tauto|];
     intros l Hl; destruct l as [|[ty1 lx1 l1] [|[ty2 lx2 l2] [|]]]; try discriminate Hl; injection Hl; intros; subst;
     eexists; split; [reflexivity|]; split; reflexivity|]).
  done.
Qed.

Lemma assignment_entry op : in_table assignment_table op = true ->
  exists tys, (type op, lexeme op, tys) ∈ infix_table ++ assignment_table
    /\ forall l, kinds l = tys -> exists tk, operator l = Some (0, tk) /\ kind_of tk = kind_of op
         /\ forall n x y, infix_node tk n x y = AssignmentExpression n (Some x) tk (Some y).
Proof.
  destruct op as [ty lx l0]. unfold in_table, assignment_table. cbn [existsb type lexeme]. intros H.
  repeat (apply orb_prop in H as [H|H];
    [apply andb_prop in H as [->%tteq_true ->%streq_true]; eexists; split; [apply list_elem_of_In; cbn; tauto|];
     intros l Hl; destruct l as [|[ty1 lx1 l1] [|[ty2 lx2 l2] [|]]]; try discriminate Hl; injection Hl; intros; subst;
     eexists; split; [reflexivity|]; split; reflexivity|]).
  done.
Qed.

(** ** The calls of each node *)

(** A literal is one token, which the parser turns back into the literal. *)
Lemma readable_literal k s c s' ty x : s = c :: s' -> (c =c "=") || (c =c ">") = false ->
  (forall r kr, boundary r -> written r kr -> written (s ++ r) ((ty, s) :: kr)) ->
  (forall l, exists v, literal_value (mkToken ty s l) = Some v /\ forall n, same_tree x (v n)) ->
  readable k (e_ s) x.
Proof.
  intros E Hc W V. exists s, [(ty, s)]. split_and!; [by cbn; rewrite app_nil_r|by exists c, s'|exact W|].
  intros [|[ty1 s1 l] [|]] Hk; try done. injection Hk as -> ->. destruct (V l) as (v & Hv & D).
  exists (Literal (mkToken ty s l)). split_and!; [done|done| |].
  - cbn [spelled]. apply bool_decide_eq_true_2. by exists v.
  - intros y Hy. inversion Hy as [t v' n Hv'| | |]; subst. rewrite Hv in Hv'. by injection Hv' as <-.
Qed.

Lemma readable_integer k n v : (0 <= v < 2 ^ 63)%Z ->
  readable k (print_IntegerLiteral v false 0) (IntegerLiteral n v false 0).
Proof.
  intros Hv. unfold print_IntegerLiteral. rewrite app_nil_r. destruct (to_string_digits v) as (Hd & Hne & _); [lia|].
  destruct (to_string v) as [|c s] eqn:E; [done|]. pose proof Hd as [Hc _]%andb_prop.
  eapply (readable_literal k _ c s INT_LITERAL); [done| | |].
  - apply orb_false_intro; apply ceq_false; intros ->; discriminate Hc.
  - intros r kr Hr Hw. apply written_number; [done|done|by apply boundary_number|done].
  - intros l. unfold literal_value. cbn [type lexeme]. rewrite <- E.
    destruct (integer_literal_roundtrip v) as [-> _]; [lia|]. rewrite (proj2 (Z.ltb_lt _ _)) by lia.
    eexists. split; [done|]. intros m. constructor.
Qed.

Lemma readable_boolean k n (b : bool) : readable k (e_ (if b then $"true" else $"false")) (BooleanLiteral n b).
Proof.
  destruct b; (eapply readable_literal; [done|done| |]);
    try (intros r kr Hr Hw; apply written_word; [done|done|by apply boundary_word|done]);
    intros l; eexists; (split; [reflexivity|]); intros m; constructor.
Qed.

Lemma readable_unary n op cs x : is_prefix op = true -> readable 11 cs x ->
  readable 11 (e_ (lexeme op) ++ cs) (UnaryExpression n op (Some x)).
Proof.
  unfold is_prefix. intros Hp (s & K & E & (c' & s' & -> & Hc') & W & S). destruct (lexeme op) as [|c [|]] eqn:El; try done.
  apply bool_decide_eq_true_1 in Hp. exists ([c] ++ c' :: s'), ([(type op, [c])] ++ K). split_and!.
  - by apply emitted_app.
  - exists c, (c' :: s'). split; [done|]. unfold prefix_char in Hp.
    apply orb_false_intro; apply ceq_false; intros ->; discriminate Hp.
  - intros r kr Hr Hw. apply written_prefix; [done|done|]. by apply W.
  - intros toks Hk. destruct (kinds_app toks _ _ Hk) as (l & toks1 & -> & Hl & H1).
    destruct l as [|o [|]]; try done. destruct (S toks1 H1) as (t & <- & F & Sp & D).
    exists (Prefix o t). injection Hl as Ho Hx. split_and!; [done|done| |].
    + cbn [spelled]. rewrite Sp, andb_true_r. unfold type_in, prefix_tokens. rewrite Ho. unfold prefix_char in Hp.
      repeat case_match; try discriminate Hp; by injection Hp as <-.
    + intros y Hy. inversion Hy; subst. constructor; [|by apply D]. unfold kind_of. by rewrite Ho, Hx, El.
Qed.

(** Two operands around an operator of the tables, with the operand levels
    that [fits] asks for. *)
Lemma readable_infix k l i j a b op tys x y z :
  (type op, lexeme op, tys) ∈ infix_table ++ assignment_table ->
  (forall toks, kinds toks = tys -> exists tk, operator toks = Some (l, tk)
     /\ forall n x' y', same_tree x x' -> same_tree y y' -> same_tree z (infix_node tk n x' y')) ->
  (forall s t toks, operator_level toks = Some l -> fits i s = true -> fits j t = true -> fits k (Infix s toks t) = true) ->
  readable i a x -> readable j b y -> readable k (spaced a op b) z.
Proof.
  intros Ht Ho Hf (s & K & E & (c & s' & -> & Hc) & W & S) (t & K' & E' & (d & t' & -> & Hd) & W' & S').
  exists ((c :: s') ++ ($" " ++ lexeme op ++ $" ") ++ d :: t'), (K ++ tys ++ K'). split_and!.
  - apply emitted_app; [done|]. apply (emitted_app [Emit $" "; Emit (lexeme op); Emit $" "]); done.
  - by exists c, (s' ++ ($" " ++ lexeme op ++ $" ") ++ d :: t').
  - intros r kr Hr Hw. rewrite <- !app_assoc. apply W; [by left|]. cbn [app]. apply written_space.
    eapply written_infix; [exact Ht|]. by apply (W' r kr).
  - intros toks Hk. destruct (kinds_app toks _ _ Hk) as (l1 & toks1 & -> & H1 & Hk1).
    destruct (kinds_app toks1 _ _ Hk1) as (l2 & l3 & -> & H2 & H3).
    destruct (S l1 H1) as (p & <- & Fp & Sp & Dp). destruct (S' l3 H3) as (q & <- & Fq & Sq & Dq).
    destruct (Ho l2 H2) as (tk & Hop & Hn). exists (Infix p l2 q). split_and!; [done| | |].
    + apply Hf; [|done|done]. unfold operator_level. by rewrite Hop.
    + cbn [spelled]. rewrite Sp, Sq. apply andb_true_intro. split; [|done]. apply andb_true_intro. split; [done|].
      apply bool_decide_eq_true_2. by eexists.
    + intros w Hw. inversion Hw as [| | |? ? ? l' tk' ? ? ? Hop']; subst. rewrite Hop in Hop'. injection Hop' as <- <-.
      apply Hn; [by apply Dp|by apply Dq].
Qed.

Lemma fits_below k l s toks t : k <= l -> 0 < l -> operator_level toks = Some l -> fits l s = true -> fits (S l) t = true ->
  fits k (Infix s toks t) = true.
Proof.
  intros K L O Fs Ft. cbn [fits]. rewrite O. destruct l as [|l]; [lia|]. rewrite Fs, Ft. by rewrite (proj2 (Nat.leb_le _ _) K).
Qed.

Lemma readable_binary n a b op x y : in_table infix_table op = true ->
  let p := binary_prec (lexeme op) in
  readable (level_of p) a x -> readable (level_of (p + 1)) b y ->
  readable (level_of p) (spaced a op b) (BinaryExpression n (Some x) op (Some y)).
Proof.
  intros H p Ra Rb. destruct (infix_entry op H) as (tys & Ht & Ho).
  assert (P : 0 < level_of p /\ level_of (p + 1) = S (level_of p)).
  { clear. unfold p, binary_prec. repeat case_match; (split; [apply Nat.ltb_lt|]; vm_compute; reflexivity). }
  eapply readable_infix; [exact Ht| | |exact Ra|exact Rb].
  - intros toks Hk. destruct (Ho toks Hk) as (tk & O & E & N). exists tk. split; [exact O|]. intros m x' y' Hx Hy. rewrite N.
    by constructor.
  - intros s t toks O Fs Ft. destruct P as [P1 P2]. rewrite P2 in Ft. by eapply fits_below.
Qed.

Lemma readable_assignment n a b op x y : in_table assignment_table op = true -> readable 1 a x -> readable 0 b y ->
  readable 0 (spaced a op b) (AssignmentExpression n (Some x) op (Some y)).
Proof.
  intros H Ra Rb. destruct (assignment_entry op H) as (tys & Ht & Ho).
  eapply readable_infix; [exact Ht| | |exact Ra|exact Rb].
  - intros toks Hk. destruct (Ho toks Hk) as (tk & O & E & N). exists tk. split; [exact O|]. intros m x' y' Hx Hy. rewrite N.
    by constructor.
  - intros s t toks O Fs Ft. cbn [fits]. by rewrite O, Fs, Ft.
Qed.

(** The parts of an operator expression are reached by this induction. *)
Lemma operator_expression_ind (P : Expression -> Prop) :
  (forall n v, (0 <= v < 2 ^ 63)%Z -> P (IntegerLiteral n v false 0)) ->
  (forall n b, P (BooleanLiteral n b)) ->
  (forall n op x, is_prefix op = true -> P x -> P (UnaryExpression n op (Some x))) ->
  (forall n op x y, in_table infix_table op = true -> P x -> P y -> P (BinaryExpression n (Some x) op (Some y))) ->
  (forall n op x y, in_table assignment_table op = true -> is_assignment x = false -> operator_expression x = true -> P x -> P y ->
     P (AssignmentExpression n (Some x) op (Some y))) ->
  forall x, operator_expression x = true -> P x.
Proof.
  intros Hi Hb Hu Ho Ha. fix IH 1. intros x. destruct x; cbn [operator_expression]; try discriminate.
  - intros [[[H1%Z.leb_le H2%Z.ltb_lt]%andb_prop H3%negb_true_iff]%andb_prop H4%Z.eqb_eq]%andb_prop. subst. by apply Hi.
  - intros _. apply Hb.
  - destruct operand as [y|]; [|discriminate]. intros [H1 H2]%andb_prop. by apply Hu; [|apply IH].
  - destruct left as [l|], right as [r|]; try discriminate. intros [[H1 H2]%andb_prop H3]%andb_prop. by apply Ho; [|apply IH|apply IH].
  - destruct left as [l|], right as [r|]; try discriminate.
    intros [[[H1 H2]%andb_prop H3%negb_true_iff]%andb_prop H4]%andb_prop. by apply Ha; [| | |apply IH|apply IH].
Qed.

(** Every operand is put in parentheses when its level asks for it, so that
    the tokens read as the tree. *)
Lemma operator_expression_readable x : operator_expression x = true -> readable (level_of (precOf x)) (visit_expression x) x.
Proof.
  revert x. apply operator_expression_ind.
  - intros n v Hv. by apply readable_integer.
  - intros n b. apply readable_boolean.
  - intros n op x Hop IH. apply readable_unary; [done|]. by apply (readable_operand 14).
  - intros n op x y Hop IHx IHy. apply readable_binary; [done|by apply readable_operand|by apply readable_operand].
  - intros n op x y Hop Hx Ox IHx IHy. apply readable_assignment; [done| |by apply (readable_operand 1)].
    assert (H : (2 <= precOf x)%Z).
    { destruct x; try done; cbn in Ox |- *; unfold binary_prec; repeat case_match; done. }
    cbn [printExpr]. rewrite (proj2 (Z.ltb_ge _ _)) by lia. eapply readable_le; [done|]. unfold level_of. repeat case_match; lia.
Qed.

(** ** The round trip *)

Lemma written_not_trivia s ts : written s ts -> Forall (fun p => p.1 ∉ [COMMENT; NEWLINE]) ts.
Proof.
  induction 1 as [|s ts H IH|c w s ts Hc Hw Hs H IH|w s ts Hw Hd Hs H IH|c ty s ts Hc H IH|c ty s ts Hc Hs H IH|ty op tys s ts Ho H IH].
  - constructor.
  - done.
  - constructor; [apply keyword_not_trivia|done].
  - constructor; [by_decision|done].
  - constructor; [|done]. unfold punctuation in Hc. repeat case_match; simplify_eq; by_decision.
  - constructor; [|done]. unfold prefix_char in Hc. repeat case_match; simplify_eq; by_decision.
  - apply Forall_app. split; [|done]. revert Ho. unfold infix_table, assignment_table. cbn [app]. intros Ho.
    repeat (apply elem_of_cons in Ho as [Ho|Ho]; [injection Ho as -> -> ->; repeat constructor; by_decision|]).
    by apply elem_of_nil in Ho.
Qed.

(** C7: what the formatter writes for an operator expression reads back as that
    expression. Take any tree, however deep, of signed integer literals from 0 up
    to [2^63 - 1] and boolean literals under the prefix operators [!], [-], [~],
    the eighteen infix operators of [infix_table] and the ten assignment
    operators of [assignment_table], where no assignment is the target of
    another: the printer writes one line without touching its indentation, the
    lexer splits it into tokens, and the front end's expression parser consumes
    them all and returns the same tree, up to node numbers and places. So for
    these operators the formatter puts parentheses where the parser's levels need
    them. Outside of them it does not always: [nil_becomes_a_name],
    [large_unsigned_negative], [range_operand_unwrapped],
    [cast_operand_unwrapped], [assignment_target_unwrapped]. *)
Theorem formatted_expression_reads_back args_ltr c23_strtoll x path counter : operator_expression x = true ->
  exists s toks y st',
    run (visit_expression x) SourcePrinter_new = Ok (mkPrinter s 0 false)
    /\ tokenize s path = Some (Ok toks)
    /\ expression_parser_ (parsers args_ltr c23_strtoll (length toks)) (Parser_new toks path counter) = Some (Return (Some y) st')
    /\ same_tree x y /\ map type (ahead st') = [END_OF_FILE].
Proof.
  intros H. destruct (operator_expression_readable x H) as (s & K & E & (c & s' & Hs & _) & W & S).
  specialize (W [] [] I written_nil). rewrite !app_nil_r in W.
  destruct (described_tokenize written s K path W) as (toks & l & Ht & Hk).
  pose proof (ahead_at_start toks path counter K l Hk (written_not_trivia _ _ W)) as Ha.
  destruct (S toks Hk) as (t & Hf & F & Sp & D).
  set (eof := mkToken END_OF_FILE [] l) in *. exists s, (toks ++ [eof]).
  destruct (parsers_read args_ltr c23_strtoll (length toks) t (at_start (toks ++ [eof]) path counter) [eof])
    as (e & st' & R & _ & y & -> & Hy & E' & _); [by eapply fits_le; [|lia]|done|by rewrite Hf| |by rewrite Ha, Hf|by apply ends_follows|].
  { intros N. by destruct toks. }
  exists y, st'. split_and!; [|done| |by apply D|by rewrite E'].
  - apply run_new; [done|]. intros N. rewrite N in E. injection E as <-. done.
  - rewrite length_app, Nat.add_comm. exact R.
Qed.

(** The tree of [1 - (2 - 3) << 4 = !(true = false)]. *)
Definition sample_expression : Expression :=
  let n := mkNode (mkLoc [] 1 1) 0 in
  let op ty s := mkToken ty s (mkLoc [] 1 1) in
  let int v := Some (IntegerLiteral n v false 0) in
  AssignmentExpression n
    (Some (BinaryExpression n
      (Some (BinaryExpression n (int 1%Z) (op MINUS $"-") (Some (BinaryExpression n (int 2%Z) (op MINUS $"-") (int 3%Z)))))
      (op LSHIFT $"<<") (int 4%Z)))
    (op EQ $"=")
    (Some (UnaryExpression n (op BANG $"!")
      (Some (AssignmentExpression n (Some (BooleanLiteral n true)) (op EQ $"=") (Some (BooleanLiteral n false)))))).

Lemma formatted_expression_reads_back_witness :
  run (visit_expression sample_expression) SourcePrinter_new = Ok (mkPrinter $"1 - (2 - 3) << 4 = !(true = false)" 0 false)
  /\ exists s toks y st',
    run (visit_expression sample_expression) SourcePrinter_new = Ok (mkPrinter s 0 false)
    /\ tokenize s $"a.vyb" = Some (Ok toks)
    /\ expression_parser_ (parsers true false (length toks)) (Parser_new toks $"a.vyb" 0) = Some (Return (Some y) st')
    /\ same_tree sample_expression y /\ map type (ahead st') = [END_OF_FILE].
Proof. split; [vm_compute; reflexivity|]. apply formatted_expression_reads_back. vm_compute. reflexivity. Defined.

(** ** Texts that change their meaning *)

Definition formatted (source : str) : option (outcome str) :=
  match parseModuleOnly true false source $"a.vyb" 0 with
  | Some (Ok m) => Some (format m)
  | Some (Throw e) => Some (Throw e)
  | None => None
  end.

Definition in_f (s : str) : str := $"f()<Int> -> {" ++ [ch_nl] ++ $"    " ++ s ++ [ch_nl] ++ $"}" ++ [ch_nl].

(** A cast and a range drop the parentheses of their operands. *)
Lemma cast_operand_unwrapped :
  formatted (in_f $"x = (1 + 2) as Int") = Some (Ok (in_f $"x = 1 + 2 as Int")).
Proof. vm_compute. reflexivity. Qed.
Lemma range_operand_unwrapped :
  formatted (in_f $"x = (1 || 2)..3") = Some (Ok (in_f $"x = 1 || 2..3")).
Proof. vm_compute. reflexivity. Qed.

(** The target of an assignment is printed at the level of an assignment. *)
Lemma assignment_target_unwrapped :
  formatted (in_f $"(a = b) = c") = Some (Ok (in_f $"a = b = c")).
Proof. vm_compute. reflexivity. Qed.

(** An unsigned literal above [2^63] comes out negative. *)
Lemma large_unsigned_negative :
  formatted ($"a<UInt> = 18446744073709551615u" ++ [ch_nl]) = Some (Ok ($"a<UInt> = -1u" ++ [ch_nl])).
Proof. vm_compute. reflexivity. Qed.

(** [nil] is printed as a name. *)
Lemma nil_becomes_a_name :
  formatted (in_f $"return nil") = Some (Ok (in_f $"return Nil")) /\ get_keyword_type $"Nil" = IDENTIFIER.
Proof. vm_compute. done. Qed.

(** [async] is dropped from a function. *)
Lemma async_dropped : formatted ($"async " ++ in_f $"return 1") = Some (Ok (in_f $"return 1")).
Proof. vm_compute. reflexivity. Qed.

(** A block that holds [throw x] holds a null statement, which the printer
    dereferences. *)
Lemma throw_crashes_printer :
  formatted (in_f $"throw x") = Some (Throw (undefined_behaviour $"s->accept")).
Proof. vm_compute. reflexivity. Qed.

(** [-=] is in the parser's grammar and not in the lexer's: the formatter's
    [a -= b] is a minus sign and an equals sign. *)
Lemma minus_equals_two_tokens path : exists l1 l2 l3 l4 l5,
  tokenize $"a -= b" path = Some (Ok [mkToken IDENTIFIER $"a" l1; mkToken MINUS $"-" l2; mkToken EQ $"=" l3; mkToken IDENTIFIER $"b" l4;
    mkToken END_OF_FILE [] l5]).
Proof. do 5 eexists. vm_compute. reflexivity. Qed.
