(* ===== verification/Lint.v ===== *)
(** * The lint pass (src/lint.cpp, include/vyb/lint.hpp)

    [Linter] walks the tree with a stack of frames, one per function, and
    collects warnings. Where the walk goes does not depend on the frames or the
    warnings, so [walk] gives the calls it makes, in order ([countUse],
    [countUse] followed by [declare], [warn], a frame around the calls of a
    function, and a use of a null pointer), and [execute] makes the calls on the
    linter's state. *)

From Stdlib Require Import Sorting.Sorted.
From S2P Require Import Prelude.
From S2P Require Import Token.
From S2P Require Import Ast.
From S2P Require Import ModuleParser.

(** ** [std::map] with string keys: in the order of the keys *)

(** [std::string::operator<] compares bytes as unsigned numbers. *)
Fixpoint str_compare (a b : str) : comparison :=
  match a, b with
  | [], [] => Eq
  | [], _ :: _ => Lt
  | _ :: _, [] => Gt
  | c :: a', d :: b' => match (code c ?= code d)%N with Eq => str_compare a' b' | o => o end
  end.

Section Map.
Context {V : Type}.

(** [m[k]] with the value it had, or none; the value is replaced by [f] of it. *)
Fixpoint map_update (f : option V -> V) (k : str) (m : list (str * V)) : list (str * V) :=
  match m with
  | [] => [(k, f None)]
  | (k', v) :: m' =>
      match str_compare k k' with
      | Lt => (k, f None) :: m
      | Eq => (k', f (Some v)) :: m'
      | Gt => (k', v) :: map_update f k m'
      end
  end.
End Map.

(** [m[k]++]: the counters are [int], far from their bound. *)
Definition increment : str -> list (str * Z) -> list (str * Z) := map_update (fun v => (match v with Some n => n + 1 | None => 1 end)%Z).

(** [if (!m.count(k)) m[k] = v] *)
Definition set_first {V} (v : V) : str -> list (str * V) -> list (str * V) := map_update (fun old => match old with Some w => w | None => v end).

(** ** State *)

Record Frame_ : Type := mkFrame {
  declared : list (str * Z);
  declaredLoc : list (str * (Z * Z));
  uses : list (str * Z)
}.

Definition Frame_new : Frame_ := mkFrame [] [] [].

(** The back of [frames] is the head of the list. *)
Record Linter : Type := mkLinter { filename : str; warnings : list str; frames : list Frame_ }.

Definition warning_text (file : str) (line column : Z) (msg : str) : str :=
  file ++ $":" ++ to_string line ++ $":" ++ to_string column ++ $": warning: " ++ msg.

Definition warn (line column : Z) (msg : str) (L : Linter) : Linter :=
  mkLinter (filename L) (warnings L ++ [warning_text (filename L) line column msg]) (frames L).

Definition declare (name : str) (line column : Z) (L : Linter) : Linter :=
  match name, frames L with
  | [], _ | _, [] => L
  | _, f :: fs =>
      mkLinter (filename L) (warnings L)
        (mkFrame (increment name (declared f)) (set_first (line, column) name (declaredLoc f)) (uses f) :: fs)
  end.

Definition countUse (name : str) (L : Linter) : Linter :=
  match name, frames L with
  | [], _ | _, [] => L
  | _, f :: fs => mkLinter (filename L) (warnings L) (mkFrame (declared f) (declaredLoc f) (increment name (uses f)) :: fs)
  end.

Definition unused_message (name : str) : str := $"unused variable '" ++ name ++ $"'".

(** The loop of [finishFrame] over [declared]. *)
Fixpoint report_unused (f : Frame_) (names : list (str * Z)) (L : Linter) : Linter :=
  match names with
  | [] => L
  | (k, count) :: names' =>
      let n := match assoc_find k (uses f) with Some n => n | None => 0%Z end in
      let '(ln, cl) := match assoc_find k (declaredLoc f) with Some p => p | None => (1, 1)%Z end in
      report_unused f names' (if (n <=? count)%Z then warn ln cl (unused_message k) L else L)
  end.

Definition finishFrame (L : Linter) : Linter :=
  match frames L with
  | [] => L
  | f :: fs => report_unused f (declared f) (mkLinter (filename L) (warnings L) fs)
  end.

(** ** Calls *)

Inductive Call : Type :=
| Reference (name : str)
| Introduce (name : str) (line column : Z)
| Warning (line column : Z) (msg : str)
| Frame (body : list Call)
| NullUse (what : str).

(** One after the other, until one throws. *)
Definition each {A S} (f : A -> S -> outcome S) : list A -> S -> outcome S :=
  fix each l s := match l with [] => Ok s | x :: l' => s' ← f x s; each l' s' end.

Fixpoint execute_call (c : Call) (L : Linter) : outcome Linter :=
  match c with
  | Reference n => Ok (countUse n L)
  | Introduce n line column => Ok (declare n line column (countUse n L))
  | Warning line column m => Ok (warn line column m L)
  | Frame body =>
      L' ← each execute_call body (mkLinter (filename L) (warnings L) (Frame_new :: frames L));
      Ok (finishFrame L')
  | NullUse w => Throw (undefined_behaviour w)
  end.

Definition execute : list Call -> Linter -> outcome Linter := each execute_call.

(** ** The walk *)

Abbreviation calls := (list Call).

Definition opt_ (x : option calls) : calls := match x with Some c => c | None => [] end.
Definition all_ (l : list (option calls)) : calls := concat (map opt_ l).

(** [warnNode]: a null node is reported at the start of the file. *)
Definition warnNode (n : option Node) (msg : str) : calls :=
  match n with Some n => [Warning (line (loc n)) (column (loc n)) msg] | None => [Warning 1 1 msg] end.

Definition bool_text (b : bool) : str := if b then $"true" else $"false".

(** [if (auto* bl = dynamic_cast<ast::BooleanLiteral*>(...)) warnNode(n, ...)] *)
Definition constant_condition (n : Node) (test : option Expression) : calls :=
  match test with
  | Some (BooleanLiteral _ b) => warnNode (Some n) ($"condition is always " ++ bool_text b)
  | _ => []
  end.

Definition is_comparison (op : str) : bool :=
  (op =s $"==") || (op =s $"!=") || (op =s $"<") || (op =s $">") || (op =s $"<=") || (op =s $">=").

Definition self_comparison (n : Node) (left : option Expression) (op : Token) (right : option Expression) : calls :=
  match left, right with
  | Some (IdentifierExpr l), Some (IdentifierExpr r) =>
      if (name l =s name r) && is_comparison (lexeme op)
      then warnNode (Some n) ($"comparing '" ++ name l ++ $"' to itself") else []
  | _, _ => []
  end.

Definition introduce (i : Identifier) : Call := Introduce (name i) (line (loc (id_node i))) (column (loc (id_node i))).

Definition parameter_calls (p : FunctionParameter) : Call := match p with mkFunctionParameter i _ _ => introduce i end.

(** [countUse( *this, b ? b->name : "")] *)
Definition binding_call (b : option Identifier) : Call := Reference (match b with Some b => name b | None => [] end).

Definition Statement_node (s : Statement) : Node :=
  match s with
  | BlockStatement (mkBlock n _) | EmptyStatement n | TryStatement n _ _ _ _ | ExpressionStatement n _ | IfStatement n _ _ _
  | ForStatement n _ _ _ _ _ | WhileStatement n _ _ _ | ReturnStatement n _ | PassStatement n _ | BreakStatement n _
  | ContinueStatement n _ | FreedomStatement n _ | ExternStatement n _ _ _ | ThrowStatement n _
  | MatchStatement (mkMatch n _ _ _) | YieldStatement n _ | YieldReturnStatement n _ | AssertStatement n _ _
  | FailStatement n _ _ | RefailStatement n _ | PanicStatement n _ | ExitStatement n _ | DeferStatement n _
  | TupleDestructureAssignment n _ _ | VariableDeclaration n _ _ _ _ _
  | FunctionDeclaration (mkFunction n _ _ _ _ _ _ _ _ _) | TypeAliasDeclaration n _ _ | ImportDeclaration n _ _ _ _ _ _
  | StructDeclaration n _ _ _ _ _ | ClassDeclaration n _ _ _ | FieldDeclaration (mkField n _ _ _ _)
  | BindDeclaration n _ _ _ _ _ _ | EnumDeclaration n _ _ _ | TemplateDeclaration n _ _ _
  | AspectDeclaration n _ _ _ _ _ _ _ | NamespaceDeclaration n _ _ => n
  end.

(** [s->getType()] on a null pointer is undefined. *)
Definition isTerminator (s : Statement) : bool :=
  match s with ReturnStatement _ _ | BreakStatement _ _ | ContinueStatement _ _ => true | _ => false end.

Definition unreachable_text : str := $"unreachable statement after terminator".

(** What [walkBlock] does between two statements. *)
Definition between (s next : option Statement) : calls :=
  match s with
  | None => [NullUse $"s->getType"]
  | Some s => if isTerminator s then warnNode (option_map Statement_node next) unreachable_text else []
  end.

(** The body of [walkBlock], over the statements and the calls of each. *)
Fixpoint block_calls (body : list (option Statement * calls)) : calls :=
  match body with
  | [] => []
  | (s, c) :: rest =>
      c ++ match rest with [] => [] | (next, _) :: _ => between s next end ++ block_calls rest
  end.

Definition walkBlock_calls (n : Node) (body : list (option Statement * calls)) : calls :=
  match body with [] => warnNode (Some n) $"empty block" | _ => block_calls body end.

(** Pattern, body and guard of each case; there may be fewer guards. *)
Fixpoint case_calls (cases : list (calls * calls)) (guards : list calls) : calls :=
  match cases with
  | [] => []
  | (p, b) :: cases' => p ++ b ++ match guards with [] => [] | g :: _ => g end ++ case_calls cases' (tail guards)
  end.

Definition variable_calls (id : option Identifier) (init : option calls) : calls :=
  match id with Some i => [introduce i] | None => [] end ++ opt_ init.

Fixpoint walk_expression (e : Expression) : calls :=
  let E x := opt_ (option_map walk_expression x) in
  let Es l := all_ (map (option_map walk_expression) l) in
  match e with
  | IdentifierExpr i => [Reference (name i)]
  | IntegerLiteral _ _ _ _ | FloatLiteral _ _ | StringLiteral _ | BooleanLiteral _ _ | NilLiteral _
  | ThisExpression _ | SuperExpression _ => []
  | ArrayLiteral _ es => Es es
  | ObjectLiteral _ _ ps => concat (map (fun p => match p with mkObjectProperty _ _ v => E v end) ps)
  | UnaryExpression _ _ x => E x
  | BinaryExpression n l op r => self_comparison n l op r ++ E l ++ E r
  | LogicalExpression _ l _ r => E l ++ E r
  | CallExpression _ c args _ => E c ++ Es args
  | MemberExpression _ o p c => E o ++ (if c then E p else [])
  | AssignmentExpression _ l _ r => E l ++ E r
  | BorrowExpression _ x _ => E x
  | PointerDerefExpression _ x => E x
  | AddrOfExpression _ x => E x
  | FromIntToLocExpression _ x _ => E x
  | ArrayElementExpression _ a i => E a ++ E i
  | LocationExpression _ x => E x
  | ListComprehension _ x _ i c => E x ++ E i ++ E c
  | IfExpression n c t f => constant_condition n c ++ E c ++ E t ++ E f
  | ConstructionExpression _ _ args => Es args
  | GenericInstantiationExpression _ b _ _ _ => E b
  | ConditionalExpression _ c t f => E c ++ E t ++ E f
  | SequenceExpression _ es => Es es
  | FunctionExpression _ ps b _ => [Frame (map parameter_calls ps ++ E b)]
  | AwaitExpression _ x => E x
  | RangeExpression _ a b s => E a ++ E b ++ E s
  | BlockExpression _ b _ _ => opt_ (option_map walkBlock b)
  | SelectExpression _ x cs => E x ++ concat (map (fun c => E (fst c) ++ E (snd c)) cs)
  | TypeofExpression _ x _ => E x
  | TypenameExpression _ x => E x
  | AsExpression _ x _ => E x
  | MatchExpression _ m => opt_ (option_map walk_match m)
  | ComparisonPattern _ _ v => E v
  | StructPattern _ _ bs => map binding_call bs
  | SetPattern _ es => Es es
  | ArrayInitializationExpression _ _ _ => []
  end

with walk_statement (s : Statement) : calls :=
  let E x := opt_ (option_map walk_expression x) in
  let S x := opt_ (option_map walk_statement x) in
  let B x := opt_ (option_map walkBlock x) in
  match s with
  | BlockStatement b => walkBlock b
  | EmptyStatement _ => []
  | ExpressionStatement _ x => E x
  | IfStatement n t c a => constant_condition n t ++ E t ++ S c ++ S a
  | ForStatement n i t u b _ =>
      constant_condition n t
      ++ match i with Some ((VariableDeclaration _ _ _ _ _ _ | ExpressionStatement _ _) as v) => walk_statement v | _ => [] end
      ++ E t ++ E u ++ S b
  | WhileStatement n t b _ => constant_condition n t ++ E t ++ S b
  | ReturnStatement _ x => E x
  | PassStatement _ x => E x
  | BreakStatement _ _ | ContinueStatement _ _ => []
  | TryStatement _ t _ c f => B t ++ B c ++ B f
  | FreedomStatement _ b => B b
  | ExternStatement _ _ _ _ => []
  | ThrowStatement _ x => E x
  | MatchStatement m => walk_match m
  | YieldStatement _ x => E x
  | YieldReturnStatement _ x => E x
  | AssertStatement _ c m => E c ++ E m
  | FailStatement _ x _ => E x
  | RefailStatement _ x => E x
  | PanicStatement _ x => E x
  | ExitStatement _ x => E x
  | DeferStatement _ x => S x
  | TupleDestructureAssignment _ is_ x => map (fun i => Reference (name i)) is_ ++ E x
  | VariableDeclaration _ i _ _ x _ => variable_calls i (option_map walk_expression x)
  | FunctionDeclaration f => walk_function f
  | _ => []
  end

with walkBlock (b : Block) : calls :=
  match b with
  | mkBlock n ss => walkBlock_calls n (map (fun s => (s, opt_ (option_map walk_statement s))) ss)
  end

with walk_match (m : Match) : calls :=
  let E x := opt_ (option_map walk_expression x) in
  match m with
  | mkMatch _ x cs gs => E x ++ case_calls (map (fun c => (E (fst c), E (snd c))) cs) (map E gs)
  end

with walk_function (f : Function_) : calls :=
  match f with
  | mkFunction _ _ _ ps b _ _ _ _ _ => [Frame (map parameter_calls ps ++ opt_ (option_map walkBlock b))]
  end.

(** [walk(ast::Declaration* )]: fields, variants, aliases and imports hold nothing to look at. *)
Fixpoint walk_declaration (d : Statement) : calls :=
  let F l := all_ (map (option_map walk_function) l) in
  match d with
  | VariableDeclaration _ i _ _ x _ => variable_calls i (option_map walk_expression x)
  | FunctionDeclaration f => walk_function f
  | StructDeclaration _ _ _ _ cs _ => F cs
  | ClassDeclaration _ _ _ ms =>
      concat (map (fun m => match m with Some (FunctionDeclaration f) => walk_function f | _ => [] end) ms)
  | BindDeclaration _ _ _ _ _ _ ms => F ms
  | TemplateDeclaration _ _ _ b => opt_ (option_map walk_declaration b)
  | AspectDeclaration _ _ _ _ _ _ _ ms => F ms
  | NamespaceDeclaration _ _ ms => all_ (map (option_map walk_declaration) ms)
  | _ => []
  end.

(** [dynamic_cast<ast::Declaration*>] *)
Definition is_declaration (s : Statement) : bool :=
  match s with
  | VariableDeclaration _ _ _ _ _ _ | FunctionDeclaration _ | TypeAliasDeclaration _ _ _ | ImportDeclaration _ _ _ _ _ _ _
  | StructDeclaration _ _ _ _ _ _ | ClassDeclaration _ _ _ _ | FieldDeclaration _ | BindDeclaration _ _ _ _ _ _ _
  | EnumDeclaration _ _ _ _ | TemplateDeclaration _ _ _ _ | AspectDeclaration _ _ _ _ _ _ _ _ | NamespaceDeclaration _ _ _ => true
  | _ => false
  end.

Definition walk_top (s : option Statement) : calls :=
  match s with
  | Some s => if is_declaration s then walk_declaration s else walk_statement s
  | None => []
  end.

Definition module_calls (m : Module_) : calls := concat (map walk_top (module_body m)).

(** The vector of warnings afterwards, and the count that is returned. *)
Definition lintModule (module : option Module_) (file : str) (ws : list str) : outcome (list str * Z) :=
  match module with
  | None => Ok (ws, 0%Z)
  | Some m => L ← execute (module_calls m) (mkLinter file ws []); Ok (warnings L, Z.of_nat (length (warnings L)))
  end.

(** ** Ordered maps *)

Lemma str_compare_eq a b : str_compare a b = Eq <-> a = b.
Proof.
  revert b. induction a as [|c a IH]; intros [|d b]; cbn; try done.
  destruct (N.compare_spec (code c) (code d)) as [E|E|E].
  - rewrite IH. split; [|congruence]. intros ->. f_equal. rewrite <- (ascii_N_embedding c), <- (ascii_N_embedding d). by f_equal.
  - split; [done|]. intros [= -> ->]. lia.
  - split; [done|]. intros [= -> ->]. lia.
Qed.

Lemma str_compare_antisym a b : str_compare b a = CompOpp (str_compare a b).
Proof.
  revert b. induction a as [|c a IH]; intros [|d b]; cbn; try done. rewrite (N.compare_antisym (code c)).
  destruct (code c ?= code d)%N; cbn; [apply IH|done|done].
Qed.

Definition str_lt (a b : str) : Prop := str_compare a b = Lt.

#[export] Instance str_lt_trans : Transitive str_lt.
Proof.
  unfold str_lt. intros a. induction a as [|c a IH]; intros [|d b] [|e l]; cbn; try done.
  destruct (N.compare_spec (code c) (code d)); destruct (N.compare_spec (code d) (code e)); try done; intros H1 H2;
    destruct (N.compare_spec (code c) (code e)); try lia; try done. by eapply IH.
Qed.

Section MapProps.
Context {V : Type}.
Implicit Types (m : list (str * V)) (k : str) (f : option V -> V).

Definition by_key (a b : str * V) : Prop := str_lt a.1 b.1.

Lemma below_head k k' v m : str_lt k k' -> Forall (by_key (k', v)) m -> Forall (fun p => str_lt k p.1) m.
Proof. intros H Hm. eapply Forall_impl; [exact Hm|]. intros p Hp. by transitivity k'. Qed.

Lemma not_below k m : Forall (fun p => str_lt k p.1) m -> assoc_find k m = None.
Proof.
  intros H. apply assoc_None. rewrite list_elem_of_fmap. intros (p & -> & Hp). rewrite Forall_forall in H. specialize (H p Hp).
  unfold str_lt in H. by rewrite (proj2 (str_compare_eq _ _) eq_refl) in H.
Qed.

Lemma map_update_above f k0 k m : str_lt k0 k -> Forall (fun p => str_lt k0 p.1) m ->
  Forall (fun p => str_lt k0 p.1) (map_update f k m).
Proof.
  intros Hk. induction 1 as [|[k' v] m H Hm IH]; cbn; [by repeat constructor|].
  destruct (str_compare k k'); by repeat constructor.
Qed.

Lemma map_update_sorted f k m : StronglySorted by_key m -> StronglySorted by_key (map_update f k m).
Proof.
  induction 1 as [|[k' v] m Hm IH Hk]; cbn; [by repeat constructor|].
  destruct (str_compare k k') eqn:E.
  - by constructor.
  - constructor; [by constructor|]. constructor; [done|]. by eapply below_head.
  - constructor; [done|]. apply map_update_above; [|done]. unfold str_lt. cbn. by rewrite (str_compare_antisym k k'), E.
Qed.

Lemma map_update_find f k m : StronglySorted by_key m -> forall k',
  assoc_find k' (map_update f k m) = if decide (k' = k) then Some (f (assoc_find k m)) else assoc_find k' m.
Proof.
  intros H k'. induction H as [|[k0 v] m Hm IH Hk]; cbn; [by case_decide|].
  destruct (str_compare k k0) eqn:E.
  - apply str_compare_eq in E as ->. cbn. by repeat case_decide.
  - assert (k <> k0) by (intros ->; by rewrite (proj2 (str_compare_eq _ _) eq_refl) in E). cbn.
    rewrite (decide_False (P := k = k0)) by done. rewrite (not_below k m) by (by eapply below_head). by repeat case_decide.
  - assert (k <> k0) by (intros ->; by rewrite (proj2 (str_compare_eq _ _) eq_refl) in E). cbn.
    rewrite (decide_False (P := k = k0)) by done. rewrite IH. by repeat case_decide; subst.
Qed.

Lemma sorted_find m k v : StronglySorted by_key m -> (k, v) ∈ m <-> assoc_find k m = Some v.
Proof.
  intros H. split; [|apply assoc_elem_of]. induction H as [|[k0 w] m Hm IH Hk]; cbn; [by intros ?%elem_of_nil|].
  rewrite elem_of_cons. intros [[= -> ->]|E]; [by rewrite decide_True|]. rewrite decide_False; [by apply IH|]. intros ->.
  apply list_elem_of_In in E. rewrite List.Forall_forall in Hk. specialize (Hk _ E). unfold by_key, str_lt in Hk. cbn in Hk.
  by rewrite (proj2 (str_compare_eq _ _) eq_refl) in Hk.
Qed.
End MapProps.

(** ** What a frame counts *)

(** Calls of this frame only: those of an inner function count there. *)
Fixpoint introductions (n : str) (cs : calls) : Z :=
  match cs with
  | [] => 0
  | Introduce m _ _ :: cs' => (if decide (n = m) then 1 else 0) + introductions n cs'
  | _ :: cs' => introductions n cs'
  end%Z.

Fixpoint references (n : str) (cs : calls) : Z :=
  match cs with
  | [] => 0
  | Reference m :: cs' => (if decide (n = m) then 1 else 0) + references n cs'
  | _ :: cs' => references n cs'
  end%Z.

Fixpoint first_introduction (n : str) (cs : calls) : option (Z * Z) :=
  match cs with
  | [] => None
  | Introduce m line column :: cs' => if decide (n = m) then Some (line, column) else first_introduction n cs'
  | _ :: cs' => first_introduction n cs'
  end.

Definition frame_call (c : Call) (f : Frame_) : Frame_ :=
  match c with
  | Reference ((_ :: _) as n) => mkFrame (declared f) (declaredLoc f) (increment n (uses f))
  | Introduce ((_ :: _) as n) line column =>
      mkFrame (increment n (declared f)) (set_first (line, column) n (declaredLoc f)) (increment n (uses f))
  | _ => f
  end.

Definition absorb (cs : calls) (f : Frame_) : Frame_ := foldl (fun f c => frame_call c f) f cs.

(** [f] holds the counts of [cs]. *)
Record holds (cs : calls) (f : Frame_) : Prop := {
  declared_sorted : StronglySorted by_key (declared f);
  locations_sorted : StronglySorted by_key (declaredLoc f);
  uses_sorted : StronglySorted by_key (uses f);
  declared_counts n : n <> [] -> default 0%Z (assoc_find n (declared f)) = introductions n cs;
  uses_counts n : n <> [] -> default 0%Z (assoc_find n (uses f)) = (introductions n cs + references n cs)%Z;
  locations n : n <> [] -> assoc_find n (declaredLoc f) = first_introduction n cs;
  declared_same n : is_Some (assoc_find n (declared f)) <-> is_Some (assoc_find n (declaredLoc f));
  declared_named : assoc_find [] (declared f) = None
}.

Lemma introductions_app n a b : introductions n (a ++ b) = (introductions n a + introductions n b)%Z.
Proof. induction a as [|[] a IH]; cbn; rewrite ?IH; lia. Qed.
Lemma references_app n a b : references n (a ++ b) = (references n a + references n b)%Z.
Proof. induction a as [|[] a IH]; cbn; rewrite ?IH; lia. Qed.
Lemma first_introduction_app n a b :
  first_introduction n (a ++ b) = match first_introduction n a with Some p => Some p | None => first_introduction n b end.
Proof. induction a as [|[] a IH]; cbn; try done. by case_decide. Qed.

Lemma references_nonneg n cs : (0 <= references n cs)%Z.
Proof. induction cs as [|[] cs IH]; cbn; try done. case_decide; lia. Qed.

Lemma references_zero n cs : references n cs = 0%Z <-> Reference n ∉ cs.
Proof.
  induction cs as [|c cs IH]; [by split; [intros _; apply not_elem_of_nil|]|]. rewrite not_elem_of_cons.
  destruct c; cbn; rewrite ?IH; try naive_solver. pose proof (references_nonneg n cs). case_decide; subst.
  - split; [lia|]. by intros [? _].
  - rewrite <- IH. rewrite Z.add_0_l. naive_solver.
Qed.

Lemma increment_counts n k m : StronglySorted by_key m ->
  default 0%Z (assoc_find n (increment k m)) = ((if decide (n = k) then 1 else 0) + default 0 (assoc_find n m))%Z.
Proof.
  intros H. unfold increment. rewrite map_update_find by done. case_decide; [subst|done].
  destruct (assoc_find k m) as [v|]; cbn; lia.
Qed.

Lemma holds_call cs f c : holds cs f -> holds (cs ++ [c]) (frame_call c f).
Proof.
  intros [S1 S2 S3 C1 C2 L D N]. destruct c as [[|x n]|[|x n] l k| | |]; cbn [frame_call];
    split; cbn [declared declaredLoc uses]; try done; try (by apply map_update_sorted);
    try (intros m Hm; rewrite ?introductions_app, ?references_app, ?first_introduction_app, ?increment_counts, ?C1, ?C2, ?L by done;
         cbn; repeat case_decide; try done; try lia; by destruct (first_introduction _ _)).
  - intros m Hm. unfold set_first. rewrite map_update_find, first_introduction_app, !L by done. cbn. case_decide; [subst|by destruct (first_introduction _ _)].
    by destruct (first_introduction _ _).
  - intros m. unfold increment, set_first. rewrite !map_update_find by done. case_decide; [done|apply D].
  - unfold increment. rewrite map_update_find by done. by case_decide.
Qed.

Lemma holds_absorb cs f cs' : holds cs' f -> holds (cs' ++ cs) (absorb cs f).
Proof.
  revert f cs'. induction cs as [|c cs IH]; intros f cs' H; [by rewrite app_nil_r|]. cbn. rewrite cons_middle, app_assoc.
  by apply IH, holds_call.
Qed.

Lemma holds_new : holds [] Frame_new.
Proof. split; try done; try constructor; by intros []. Qed.

(** ** The warnings of a frame *)

(** [l] lists the names introduced and never referenced, in order, each with
    the place of its first introduction. *)
Definition unused_names (cs : calls) (l : list (str * (Z * Z))) : Prop :=
  StronglySorted by_key l /\
  forall n p, (n, p) ∈ l <-> n <> [] /\ first_introduction n cs = Some p /\ Reference n ∉ cs.

Definition unused_warning (file : str) (u : str * (Z * Z)) : str := warning_text file u.2.1 u.2.2 (unused_message u.1).

Definition unused_of (f : Frame_) (p : str * Z) : option (str * (Z * Z)) :=
  if (default 0 (assoc_find p.1 (uses f)) <=? p.2)%Z then Some (p.1, default (1, 1)%Z (assoc_find p.1 (declaredLoc f))) else None.

Lemma report_unused_eq f names L : report_unused f names L =
  mkLinter (filename L) (warnings L ++ map (unused_warning (filename L)) (omap (unused_of f) names)) (frames L).
Proof.
  revert L. induction names as [|[k n] names IH]; intros L; cbn [report_unused omap list_omap].
  - cbn. rewrite app_nil_r. by destruct L.
  - unfold unused_of at 1. cbn [fst snd]. change (match ?x with Some n => n | None => ?d end) with (default d x).
    destruct (default (1, 1)%Z (assoc_find k (declaredLoc f))) as [ln cl] eqn:E. rewrite IH.
    destruct (_ <=? n)%Z; cbn; [|done]. by rewrite <- app_assoc.
Qed.

Lemma omap_sorted {V W} (g : str * V -> option (str * W)) l : (forall p q, g p = Some q -> q.1 = p.1) ->
  StronglySorted by_key l -> StronglySorted by_key (omap g l).
Proof.
  intros G. induction 1 as [|p l Hl IH Hp]; cbn; [constructor|]. destruct (g p) as [q|] eqn:E; [|done]. constructor; [done|].
  apply Forall_forall. intros r (p' & Hp' & Hr)%list_elem_of_omap. rewrite Forall_forall in Hp. unfold by_key.
  rewrite (G p q E), (G p' r Hr). by apply Hp.
Qed.

Lemma unused_correct cs f : holds cs f -> unused_names cs (omap (unused_of f) (declared f)).
Proof.
  intros [S1 S2 S3 C1 C2 L D N].
  assert (G : forall p q, unused_of f p = Some q -> q.1 = p.1) by (intros p q; unfold unused_of; case_match; by intros [= <-]).
  split; [by apply omap_sorted|]. intros n p. rewrite list_elem_of_omap. split.
  - intros ([k c] & Hin & Hu). pose proof (G _ _ Hu) as E. cbn in E. subst k. apply (sorted_find _ _ _ S1) in Hin.
    assert (Hn : n <> []) by (intros ->; congruence). split; [done|].
    destruct (proj1 (D n) (ex_intro _ c Hin)) as [q Hq]. unfold unused_of in Hu. cbn [fst snd] in Hu. rewrite Hq in Hu.
    rewrite C2 in Hu by done. pose proof (C1 n Hn) as C. rewrite Hin in C. cbn in C. subst c.
    destruct (Z.leb_spec (introductions n cs + references n cs) (introductions n cs)); [|done]. injection Hu as <-.
    rewrite <- L by done. split; [done|]. apply references_zero. pose proof (references_nonneg n cs). lia.
  - intros (Hn & Hf & Hr). apply references_zero in Hr. rewrite <- L in Hf by done.
    destruct (proj2 (D n) (ex_intro _ p Hf)) as [c Hc]. exists (n, c). split; [by apply sorted_find|].
    unfold unused_of. cbn [fst snd]. rewrite C2, Hr, Hf by done. pose proof (C1 n Hn) as C. rewrite Hc in C. cbn in C. subst c.
    by rewrite Z.add_0_r, Z.leb_refl.
Qed.

(** ** The warnings of a module *)

(** The calls make these warnings, in order: each [warn], and after the calls
    of a function those for its unused names. *)
Inductive reported (file : str) : calls -> list str -> Prop :=
| reported_nil : reported file [] []
| reported_reference n cs w : reported file cs w -> reported file (Reference n :: cs) w
| reported_introduce n line column cs w : reported file cs w -> reported file (Introduce n line column :: cs) w
| reported_warning line column m cs w : reported file cs w ->
    reported file (Warning line column m :: cs) (warning_text file line column m :: w)
| reported_frame body unused cs w w' : reported file body w -> unused_names body unused -> reported file cs w' ->
    reported file (Frame body :: cs) (w ++ map (unused_warning file) unused ++ w').

Fixpoint null_free (c : Call) : bool :=
  match c with NullUse _ => false | Frame body => forallb null_free body | _ => true end.

Lemma Call_nested_ind (P : Call -> Prop) :
  (forall n, P (Reference n)) -> (forall n l c, P (Introduce n l c)) -> (forall l c m, P (Warning l c m)) ->
  (forall body, Forall P body -> P (Frame body)) -> (forall w, P (NullUse w)) -> forall c, P c.
Proof.
  intros Hr Hi Hw Hf Hn. fix IH 1. intros [n|n l c|l c m|body|w]; [apply Hr|apply Hi|apply Hw| |apply Hn].
  apply Hf. induction body as [|c body IHb]; constructor; [apply IH|exact IHb].
Qed.

(** What the calls do to the stack: the innermost frame, if any, counts. *)
Definition absorb_top (cs : calls) (fs : list Frame_) : list Frame_ :=
  match fs with [] => [] | f :: fs' => absorb cs f :: fs' end.

Lemma absorb_top_app a b fs : absorb_top (a ++ b) fs = absorb_top b (absorb_top a fs).
Proof. destruct fs as [|f fs]; [done|]. cbn. unfold absorb. by rewrite foldl_app. Qed.

Definition call_spec (cs : calls) (file : str) (ws : list str) (fs : list Frame_) (r : outcome Linter) : Prop :=
  match r with
  | Ok L => forallb null_free cs = true /\ exists w, reported file cs w /\ L = mkLinter file (ws ++ w) (absorb_top cs fs)
  | Throw e => forallb null_free cs = false /\ exists what, e = undefined_behaviour what
  end.

Lemma reported_app file a b w w' : reported file a w -> reported file b w' -> reported file (a ++ b) (w ++ w').
Proof. intros H Hb. induction H; cbn; rewrite <- ?app_assoc; try (constructor; done). done. Qed.

Lemma execute_spec cs : Forall (fun c => forall file ws fs, call_spec [c] file ws fs (execute_call c (mkLinter file ws fs))) cs ->
  forall file ws fs, call_spec cs file ws fs (execute cs (mkLinter file ws fs)).
Proof.
  induction 1 as [|c cs Hc _ IH]; intros file ws fs; cbn.
  - split; [done|]. exists []. split; [constructor|]. by destruct fs; rewrite app_nil_r.
  - specialize (Hc file ws fs). destruct (execute_call _ _) as [L|e]; cbn in *.
    + rewrite andb_true_r in Hc. destruct Hc as [Hn (w & Hw & ->)]. specialize (IH file (ws ++ w) (absorb_top [c] fs)).
      destruct (execute _ _) as [L|e]; cbn in *; rewrite Hn; [|done]. destruct IH as [-> (w' & Hw' & ->)]. split; [done|].
      exists (w ++ w'). split; [by apply (reported_app _ [c])|]. by rewrite app_assoc, (absorb_top_app [c] cs).
    + rewrite andb_true_r in Hc. destruct Hc as [Hc He]. split; [cbn; by rewrite Hc|done].
Qed.

Lemma execute_call_spec c file ws fs : call_spec [c] file ws fs (execute_call c (mkLinter file ws fs)).
Proof.
  revert file ws fs. induction c as [n|n l c|l c m|body IH|w] using Call_nested_ind; intros file ws fs; cbn.
  - split; [done|]. exists []. split; [repeat constructor|]. rewrite app_nil_r. by destruct fs, n.
  - split; [done|]. exists []. split; [repeat constructor|]. rewrite app_nil_r. by destruct fs, n.
  - split; [done|]. eexists. split; [repeat constructor|]. by destruct fs.
  - pose proof (execute_spec body IH file ws (Frame_new :: fs)) as H. fold execute. destruct (execute _ _) as [L|e]; cbn in *; [|by rewrite andb_true_r].
    destruct H as [-> (w & Hw & ->)]. split; [done|]. unfold finishFrame. cbn [frames filename warnings]. rewrite report_unused_eq. cbn.
    eexists (w ++ map (unused_warning file) _ ++ []). split; [apply reported_frame; [done| |constructor]|].
    + apply unused_correct. apply (holds_absorb body Frame_new []), holds_new.
    + rewrite app_nil_r, app_assoc. by destruct fs.
  - split; [done|]. by eexists.
Qed.


(** ** Warnings that are wrong *)

Definition linted (source : str) : option (outcome (list str)) :=
  match parseModuleOnly true false source $"a.vyb" 0 with
  | Some (Ok m) => Some (r ← lintModule (Some m) $"a.vyb" []; Ok r.1)
  | Some (Throw e) => Some (Throw e)
  | None => None
  end.

(** A parameter that only a closure uses is reported: the closure's frame
    counts the use. *)
Lemma captured_parameter_unused :
  linted $"f(a<Int>)<Int> -> { return g(|x| -> a + x) }" = Some (Ok [$"a.vyb:1:3: warning: unused variable 'a'"]).
Proof. vm_compute. reflexivity. Qed.

(** What only a trap clause uses is reported: the clauses of a block are not
    walked. *)
Lemma trap_use_unused :
  linted $"f(a<Int>)<Int> -> { x = { g() } trap (e<E>) -> { h(a) }; return x }"
  = Some (Ok [$"a.vyb:1:3: warning: unused variable 'a'"]).
Proof. vm_compute. reflexivity. Qed.

(** So is what only the size of an array uses. *)
Lemma array_size_unused :
  linted $"f(a<Int>)<Int> -> { return [Int; a]() }" = Some (Ok [$"a.vyb:1:3: warning: unused variable 'a'"]).
Proof. vm_compute. reflexivity. Qed.

(** An assignment counts as a use. *)
Lemma assigned_only_silent :
  linted $"f()<Int> -> { x<Int> = 1; x = 2; return 3 }" = Some (Ok []).
Proof. vm_compute. reflexivity. Qed.

(** [throw] before another statement leaves a null statement behind. *)
Lemma throw_crashes_linter :
  linted $"f()<Int> -> { throw e; return 1 }" = Some (Throw (undefined_behaviour $"s->getType")).
Proof. vm_compute. reflexivity. Qed.
