(* ===== verification/AstCopy.v ===== *)
(** * Copies of declarations (src/module_registry.cpp, class AstCloner)

    A module's declarations are copied into every module that imports them.
    The copy is built bottom up: every constructor call draws the next id of
    the node counter, after its arguments. [args_ltr] says in which order the
    compiler evaluates the arguments of a call. *)

From S2P Require Import Prelude.
From S2P Require Import Token.
From S2P Require Import Ast.
From S2P Require Import AstTypes.

(** ** Drawing ids *)

Definition alloc (A : Type) : Type := Z -> A * Z.

#[export] Instance alloc_ret : MRet alloc := fun A a c => (a, c).
#[export] Instance alloc_bind : MBind alloc := fun A B k m c => let '(a, c') := m c in k a c'.

Definition new (n : Node) : alloc Node := new_node (loc n).

(** [if (!x) return nullptr; ...] *)
Definition opt_copy {A} (f : A -> alloc A) (o : option A) : alloc (option A) :=
  match o with None => mret None | Some a => b ← f a; mret (Some b) end.

(** [for (auto& x : v) out.push_back(clone(x))] *)
Definition list_copy {A} (f : A -> alloc A) : list A -> alloc (list A) :=
  fix go l := match l with [] => mret [] | a :: l' => b ← f a; bs ← go l'; mret (b :: bs) end.

(** A pair in braces is built left to right. *)
Definition pair_copy {A B} (f : A -> alloc A) (g : B -> alloc B) (p : A * B) : alloc (A * B) :=
  a ← f (fst p); b ← g (snd p); mret (a, b).

Section Cloner.
Context (args_ltr : bool).

(** Two arguments of a call. *)
Definition args2 {A B} (a : alloc A) (b : alloc B) : alloc (A * B) :=
  if args_ltr then x ← a; y ← b; mret (x, y) else y ← b; x ← a; mret (x, y).

Definition cloneId (i : Identifier) : alloc Identifier := n ← new (id_node i); mret (mkIdentifier n (name i)).
Definition cloneStringLiteral (s : StringLit) : alloc StringLit := n ← new (str_node s); mret (mkStringLit n (str_value s)).
Definition cloneSpecifier (s : ImportSpecifier) : alloc ImportSpecifier :=
  '(i, l) ← args2 (opt_copy cloneId (importedName s)) (opt_copy cloneId (localName s)); mret (mkImportSpecifier i l).

Definition cloneProperty (E : option Expression -> alloc (option Expression)) (p : ObjectProperty) : alloc ObjectProperty :=
  match p with mkObjectProperty l k v => '(k', v') ← args2 (cloneId k) (E v); mret (mkObjectProperty l k' v') end.

Fixpoint cloneExpr (e : Expression) : alloc Expression :=
  let E := opt_copy cloneExpr in
  let Es := list_copy (opt_copy cloneExpr) in
  let T := opt_copy cloneTy in
  let Ts := list_copy (opt_copy cloneTy) in
  match e with
  | IdentifierExpr i => i' ← cloneId i; mret (IdentifierExpr i')
  | IntegerLiteral n v u uv => n' ← new n; mret (IntegerLiteral n' v u uv)
  | FloatLiteral n v => n' ← new n; mret (FloatLiteral n' v)
  | StringLiteral s => s' ← cloneStringLiteral s; mret (StringLiteral s')
  | BooleanLiteral n v => n' ← new n; mret (BooleanLiteral n' v)
  | NilLiteral n => n' ← new n; mret (NilLiteral n')
  | ArrayLiteral n es => es' ← Es es; n' ← new n; mret (ArrayLiteral n' es')
  | ObjectLiteral n t ps =>
      ps' ← list_copy (cloneProperty E) ps; t' ← T t; n' ← new n; mret (ObjectLiteral n' t' ps')
  | UnaryExpression n op x => x' ← E x; n' ← new n; mret (UnaryExpression n' op x')
  | BinaryExpression n l op r => '(l', r') ← args2 (E l) (E r); n' ← new n; mret (BinaryExpression n' l' op r')
  | CallExpression n f args tys =>
      '(f', args') ← args2 (E f) (Es args); n' ← new n; tys' ← Ts tys; mret (CallExpression n' f' args' tys')
  | MemberExpression n o p c => '(o', p') ← args2 (E o) (E p); n' ← new n; mret (MemberExpression n' o' p' c)
  | AssignmentExpression n l op r => '(l', r') ← args2 (E l) (E r); n' ← new n; mret (AssignmentExpression n' l' op r')
  | BorrowExpression n x k => x' ← E x; n' ← new n; mret (BorrowExpression n' x' k)
  | PointerDerefExpression n x => x' ← E x; n' ← new n; mret (PointerDerefExpression n' x')
  | AddrOfExpression n x => x' ← E x; n' ← new n; mret (AddrOfExpression n' x')
  | FromIntToLocExpression n x t => '(x', t') ← args2 (E x) (T t); n' ← new n; mret (FromIntToLocExpression n' x' t')
  | ArrayElementExpression n a i => '(a', i') ← args2 (E a) (E i); n' ← new n; mret (ArrayElementExpression n' a' i')
  | LocationExpression n x => x' ← E x; n' ← new n; mret (LocationExpression n' x')
  | ListComprehension n x v i c =>
      '(x', (v', (i', c'))) ← args2 (E x) (args2 (opt_copy cloneId v) (args2 (E i) (E c)));
      n' ← new n; mret (ListComprehension n' x' v' i' c')
  | IfExpression n c t f => '(c', (t', f')) ← args2 (E c) (args2 (E t) (E f)); n' ← new n; mret (IfExpression n' c' t' f')
  | ConstructionExpression n t args => '(t', args') ← args2 (T t) (Es args); n' ← new n; mret (ConstructionExpression n' t' args')
  | ArrayInitializationExpression n t s => '(t', s') ← args2 (T t) (E s); n' ← new n; mret (ArrayInitializationExpression n' t' s')
  | GenericInstantiationExpression n b args lt gt =>
      '(b', args') ← args2 (E b) (Ts args); n' ← new n; mret (GenericInstantiationExpression n' b' args' lt gt)
  | LogicalExpression n l op r => '(l', r') ← args2 (E l) (E r); n' ← new n; mret (LogicalExpression n' l' op r')
  | ConditionalExpression n c t f =>
      '(c', (t', f')) ← args2 (E c) (args2 (E t) (E f)); n' ← new n; mret (ConditionalExpression n' c' t' f')
  | SequenceExpression n es => es' ← Es es; n' ← new n; mret (SequenceExpression n' es')
  | FunctionExpression n ps b a =>
      '(ps', b') ← args2 (list_copy cloneParam ps) (E b); n' ← new n; mret (FunctionExpression n' ps' b' a)
  | ThisExpression n => n' ← new n; mret (ThisExpression n')
  | SuperExpression n => n' ← new n; mret (SuperExpression n')
  | AwaitExpression n x => x' ← E x; n' ← new n; mret (AwaitExpression n' x')
  | RangeExpression n a b s => '(a', (b', s')) ← args2 (E a) (args2 (E b) (E s)); n' ← new n; mret (RangeExpression n' a' b' s')
  | BlockExpression n b ts en =>
      '(b', (ts', en')) ← args2 (opt_copy cloneBlock b) (args2 (list_copy cloneTrap ts) (opt_copy cloneEnsure en));
      n' ← new n; mret (BlockExpression n' b' ts' en')
  | SelectExpression n x cs =>
      '(x', cs') ← args2 (E x) (list_copy (pair_copy E E) cs); n' ← new n; mret (SelectExpression n' x' cs')
  | ComparisonPattern n op v => v' ← E v; n' ← new n; mret (ComparisonPattern n' op v')
  | StructPattern n t bs => '(t', bs') ← args2 (T t) (list_copy (opt_copy cloneId) bs); n' ← new n; mret (StructPattern n' t' bs')
  | SetPattern n es => es' ← Es es; n' ← new n; mret (SetPattern n' es')
  | TypeofExpression n (Some x) _ => x' ← cloneExpr x; n' ← new n; mret (TypeofExpression n' (Some x') None)
  | TypeofExpression n None t => t' ← T t; n' ← new n; mret (TypeofExpression n' None t')
  | TypenameExpression n x => x' ← E x; n' ← new n; mret (TypenameExpression n' x')
  | AsExpression n x t => '(x', t') ← args2 (E x) (T t); n' ← new n; mret (AsExpression n' x' t')
  | MatchExpression n m => m' ← opt_copy cloneMatchStmt m; n' ← new n; mret (MatchExpression n' m')
  end

with cloneStmt (s : Statement) : alloc Statement :=
  let E := opt_copy cloneExpr in
  let S := opt_copy cloneStmt in
  let T := opt_copy cloneTy in
  let B := opt_copy cloneBlock in
  let I := opt_copy cloneId in
  let Gs := list_copy (opt_copy cloneGenericParam) in
  let Fs := list_copy (opt_copy cloneFuncDecl) in
  match s with
  | BlockStatement b => b' ← cloneBlock b; mret (BlockStatement b')
  | EmptyStatement n => n' ← new n; mret (EmptyStatement n')
  | ExpressionStatement n x => x' ← E x; n' ← new n; mret (ExpressionStatement n' x')
  | IfStatement n t c a => '(t', (c', a')) ← args2 (E t) (args2 (S c) (S a)); n' ← new n; mret (IfStatement n' t' c' a')
  | ForStatement n i t u b l =>
      '(i', (t', (u', b'))) ← args2 (S i) (args2 (E t) (args2 (E u) (S b))); n' ← new n; mret (ForStatement n' i' t' u' b' l)
  | WhileStatement n t b l => '(t', b') ← args2 (E t) (S b); n' ← new n; mret (WhileStatement n' t' b' l)
  | ReturnStatement n x => x' ← E x; n' ← new n; mret (ReturnStatement n' x')
  | PassStatement n x => x' ← E x; n' ← new n; mret (PassStatement n' x')
  | BreakStatement n l => n' ← new n; mret (BreakStatement n' l)
  | ContinueStatement n l => n' ← new n; mret (ContinueStatement n' l)
  | TryStatement n t i c f =>
      '(t', (c', f')) ← args2 (B t) (args2 (B c) (B f)); n' ← new n; mret (TryStatement n' t' i c' f')
  | FreedomStatement n b => b' ← B b; n' ← new n; mret (FreedomStatement n' b')
  | ExternStatement n i r ps =>
      '(i', (r', ps')) ← args2 (I i) (args2 (T r) (list_copy cloneParam ps)); n' ← new n; mret (ExternStatement n' i' r' ps')
  | ThrowStatement n x => x' ← E x; n' ← new n; mret (ThrowStatement n' x')
  | MatchStatement m => m' ← cloneMatchStmt m; mret (MatchStatement m')
  | YieldStatement n x => x' ← E x; n' ← new n; mret (YieldStatement n' x')
  | YieldReturnStatement n x => x' ← E x; n' ← new n; mret (YieldReturnStatement n' x')
  | AssertStatement n c m => '(c', m') ← args2 (E c) (E m); n' ← new n; mret (AssertStatement n' c' m')
  | FailStatement n x t => '(x', t') ← args2 (E x) (T t); n' ← new n; mret (FailStatement n' x' t')
  | RefailStatement n x => x' ← E x; n' ← new n; mret (RefailStatement n' x')
  | PanicStatement n x => x' ← E x; n' ← new n; mret (PanicStatement n' x')
  | ExitStatement n x => x' ← E x; n' ← new n; mret (ExitStatement n' x')
  | DeferStatement n x => x' ← S x; n' ← new n; mret (DeferStatement n' x')
  | TupleDestructureAssignment n is_ x =>
      '(is', x') ← args2 (list_copy cloneId is_) (E x); n' ← new n; mret (TupleDestructureAssignment n' is' x')
  | VariableDeclaration n i k t x _ =>
      '(i', t') ← args2 (I i) (T t); n' ← new n; x' ← E x; mret (VariableDeclaration n' i' k t' x' false)
  | FunctionDeclaration f => f' ← cloneFuncDecl f; mret (FunctionDeclaration f')
  | TypeAliasDeclaration n i t => '(i', t') ← args2 (I i) (T t); n' ← new n; mret (TypeAliasDeclaration n' i' t')
  | ImportDeclaration n k src l sp d ns =>
      sp' ← list_copy cloneSpecifier sp;
      src' ← opt_copy cloneStringLiteral src;
      l' ← opt_copy cloneStringLiteral l;
      '(d', ns') ← args2 (I d) (I ns);
      n' ← new n; mret (ImportDeclaration n' k src' l' sp' d' ns')
  | StructDeclaration n i gs fs cs r =>
      '(i', (gs', fs')) ← args2 (I i) (args2 (Gs gs) (list_copy (opt_copy cloneField) fs));
      n' ← new n; cs' ← Fs cs; mret (StructDeclaration n' i' gs' fs' cs' r)
  | ClassDeclaration n i gs ms =>
      '(i', (gs', ms')) ← args2 (I i) (args2 (Gs gs) (list_copy S ms)); n' ← new n; mret (ClassDeclaration n' i' gs' ms')
  | FieldDeclaration f => f' ← cloneField f; mret (FieldDeclaration f')
  | BindDeclaration n i gs tr self bs ms =>
      bs' ← list_copy (pair_copy I T) bs;
      '(self', (ms', (i', (gs', tr')))) ← args2 (T self) (args2 (Fs ms) (args2 (I i) (args2 (Gs gs) (T tr))));
      n' ← new n; mret (BindDeclaration n' i' gs' tr' self' bs' ms')
  | EnumDeclaration n i gs vs =>
      '(i', (gs', vs')) ← args2 (I i) (args2 (Gs gs) (list_copy (opt_copy cloneEnumVariant) vs));
      n' ← new n; mret (EnumDeclaration n' i' gs' vs')
  | TemplateDeclaration n i gs b =>
      '(i', (gs', b')) ← args2 (I i) (args2 (Gs gs) (S b)); n' ← new n; mret (TemplateDeclaration n' i' gs' b')
  | AspectDeclaration n i gs ss ats ds cs ms =>
      cs' ← list_copy (list_copy T) cs;
      '(i', (gs', (ss', (ats', (ds', ms'))))) ←
        args2 (I i) (args2 (Gs gs) (args2 (list_copy I ss) (args2 (list_copy I ats) (args2 (list_copy T ds) (Fs ms)))));
      n' ← new n; mret (AspectDeclaration n' i' gs' ss' ats' ds' cs' ms')
  | NamespaceDeclaration n i ms => '(i', ms') ← args2 (I i) (list_copy S ms); n' ← new n; mret (NamespaceDeclaration n' i' ms')
  end

with cloneTy (t : TypeNode) : alloc TypeNode :=
  let T := opt_copy cloneTy in
  match t with
  | TypeName n i args => '(i', args') ← args2 (opt_copy cloneId i) (list_copy T args); n' ← new n; mret (TypeName n' i' args')
  | PointerType n p => p' ← T p; n' ← new n; mret (PointerType n' p')
  | ArrayType n el s => '(el', s') ← args2 (T el) (opt_copy cloneExpr s); n' ← new n; mret (ArrayType n' el' s')
  | VecType n el => el' ← T el; n' ← new n; mret (VecType n' el')
  | FutureType n r => r' ← T r; n' ← new n; mret (FutureType n' r')
  | FunctionType n ps r => '(ps', r') ← args2 (list_copy T ps) (T r); n' ← new n; mret (FunctionType n' ps' r')
  | OptionalType n x => x' ← T x; n' ← new n; mret (OptionalType n' x')
  | TupleTypeNode n ms => ms' ← list_copy T ms; n' ← new n; mret (TupleTypeNode n' ms')
  end

with cloneParam (p : FunctionParameter) : alloc FunctionParameter :=
  match p with
  | mkFunctionParameter i t m => '(i', t') ← args2 (cloneId i) (opt_copy cloneTy t); mret (mkFunctionParameter i' t' m)
  end

with cloneGenericParam (g : GenericParameter) : alloc GenericParameter :=
  match g with
  | mkGenericParameter n i bs =>
      '(i', bs') ← args2 (opt_copy cloneId i) (list_copy (opt_copy cloneTy) bs); n' ← new n; mret (mkGenericParameter n' i' bs')
  end

with cloneBlock (b : Block) : alloc Block :=
  match b with mkBlock n ss => ss' ← list_copy (opt_copy cloneStmt) ss; n' ← new n; mret (mkBlock n' ss') end

with cloneMatchStmt (m : Match) : alloc Match :=
  let E := opt_copy cloneExpr in
  match m with
  | mkMatch n x cs gs =>
      '(x', (cs', gs')) ← args2 (E x) (args2 (list_copy (pair_copy E E) cs) (list_copy E gs));
      n' ← new n; mret (mkMatch n' x' cs' gs')
  end

with cloneTrap (t : TrapClause) : alloc TrapClause :=
  match t with
  | mkTrapClause n i ty tys h w m =>
      '(i', (ty', h')) ← args2 (opt_copy cloneId i) (args2 (opt_copy cloneTy ty) (opt_copy cloneStmt h));
      n' ← new n; tys' ← list_copy cloneTy tys; mret (mkTrapClause n' i' ty' tys' h' w m)
  end

with cloneEnsure (e : EnsureClause) : alloc EnsureClause :=
  match e with mkEnsureClause n b => b' ← opt_copy cloneStmt b; n' ← new n; mret (mkEnsureClause n' b') end

with cloneField (f : Field) : alloc Field :=
  match f with
  | mkField n i t x m =>
      '(i', (t', x')) ← args2 (opt_copy cloneId i) (args2 (opt_copy cloneTy t) (opt_copy cloneExpr x));
      n' ← new n; mret (mkField n' i' t' x' m)
  end

with cloneFuncDecl (f : Function_) : alloc Function_ :=
  match f with
  | mkFunction n i gs ps b a d v r h =>
      '(i', (ps', (b', (r', gs')))) ←
        args2 (opt_copy cloneId i) (args2 (list_copy cloneParam ps) (args2 (opt_copy cloneBlock b)
          (args2 (opt_copy cloneTy r) (list_copy (opt_copy cloneGenericParam) gs))));
      n' ← new n; mret (mkFunction n' i' gs' ps' b' a d v r' h)
  end

with cloneEnumVariant (v : EnumVariant) : alloc EnumVariant :=
  match v with
  | mkEnumVariant n i ts x h =>
      '(i', ts') ← args2 (opt_copy cloneId i) (list_copy (opt_copy cloneTy) ts); n' ← new n; mret (mkEnumVariant n' i' ts' x h)
  end.
End Cloner.

(** [cloneSplicedStmt] *)
Definition cloneSplicedStmt (args_ltr : bool) (s : option Statement) : alloc (option Statement) := opt_copy (cloneStmt args_ltr) s.

(** ** What a copy keeps *)

(** A tree without its ids: [bare_stmt] and its companions erase the ids of
    the nodes and nothing else. [lossy_stmt] also erases what the cloner does not
    take along: the flag of a variable that owns its bound value
    (module_registry.cpp:745, where the copy's flag keeps its default), and the
    type argument of a [typeof] that has an operand. *)
Definition bare (n : Node) : Node := mkNode (loc n) 0.
Definition bare_id (i : Identifier) : Identifier := mkIdentifier (bare (id_node i)) (name i).
Definition bare_string (s : StringLit) : StringLit := mkStringLit (bare (str_node s)) (str_value s).
Definition bare_specifier (s : ImportSpecifier) : ImportSpecifier :=
  mkImportSpecifier (option_map bare_id (importedName s)) (option_map bare_id (localName s)).

Definition bare_property (E : option Expression -> option Expression) (p : ObjectProperty) : ObjectProperty :=
  match p with mkObjectProperty l k v => mkObjectProperty l (bare_id k) (E v) end.

Section Erase.
Context (lossy : bool).

Fixpoint erase_expr (e : Expression) : Expression :=
  let E := option_map erase_expr in
  let T := option_map erase_type in
  match e with
  | IdentifierExpr i => IdentifierExpr (bare_id i)
  | IntegerLiteral n v u uv => IntegerLiteral (bare n) v u uv
  | FloatLiteral n v => FloatLiteral (bare n) v
  | StringLiteral s => StringLiteral (bare_string s)
  | BooleanLiteral n v => BooleanLiteral (bare n) v
  | NilLiteral n => NilLiteral (bare n)
  | ArrayLiteral n es => ArrayLiteral (bare n) (map E es)
  | ObjectLiteral n t ps =>
      ObjectLiteral (bare n) (T t) (map (bare_property E) ps)
  | UnaryExpression n op x => UnaryExpression (bare n) op (E x)
  | BinaryExpression n l op r => BinaryExpression (bare n) (E l) op (E r)
  | CallExpression n f args tys => CallExpression (bare n) (E f) (map E args) (map T tys)
  | MemberExpression n o p c => MemberExpression (bare n) (E o) (E p) c
  | AssignmentExpression n l op r => AssignmentExpression (bare n) (E l) op (E r)
  | BorrowExpression n x k => BorrowExpression (bare n) (E x) k
  | PointerDerefExpression n x => PointerDerefExpression (bare n) (E x)
  | AddrOfExpression n x => AddrOfExpression (bare n) (E x)
  | FromIntToLocExpression n x t => FromIntToLocExpression (bare n) (E x) (T t)
  | ArrayElementExpression n a i => ArrayElementExpression (bare n) (E a) (E i)
  | LocationExpression n x => LocationExpression (bare n) (E x)
  | ListComprehension n x v i c => ListComprehension (bare n) (E x) (option_map bare_id v) (E i) (E c)
  | IfExpression n c t f => IfExpression (bare n) (E c) (E t) (E f)
  | ConstructionExpression n t args => ConstructionExpression (bare n) (T t) (map E args)
  | ArrayInitializationExpression n t s => ArrayInitializationExpression (bare n) (T t) (E s)
  | GenericInstantiationExpression n b args lt gt => GenericInstantiationExpression (bare n) (E b) (map T args) lt gt
  | LogicalExpression n l op r => LogicalExpression (bare n) (E l) op (E r)
  | ConditionalExpression n c t f => ConditionalExpression (bare n) (E c) (E t) (E f)
  | SequenceExpression n es => SequenceExpression (bare n) (map E es)
  | FunctionExpression n ps b a => FunctionExpression (bare n) (map erase_param ps) (E b) a
  | ThisExpression n => ThisExpression (bare n)
  | SuperExpression n => SuperExpression (bare n)
  | AwaitExpression n x => AwaitExpression (bare n) (E x)
  | RangeExpression n a b s => RangeExpression (bare n) (E a) (E b) (E s)
  | BlockExpression n b ts en => BlockExpression (bare n) (option_map erase_block b) (map erase_trap ts) (option_map erase_ensure en)
  | SelectExpression n x cs => SelectExpression (bare n) (E x) (map (fun c => (E (fst c), E (snd c))) cs)
  | ComparisonPattern n op v => ComparisonPattern (bare n) op (E v)
  | StructPattern n t bs => StructPattern (bare n) (T t) (map (option_map bare_id) bs)
  | SetPattern n es => SetPattern (bare n) (map E es)
  | TypeofExpression n (Some x) t =>
      TypeofExpression (bare n) (Some (erase_expr x)) (if lossy then None else T t)
  | TypeofExpression n None t => TypeofExpression (bare n) None (T t)
  | TypenameExpression n x => TypenameExpression (bare n) (E x)
  | AsExpression n x t => AsExpression (bare n) (E x) (T t)
  | MatchExpression n m => MatchExpression (bare n) (option_map erase_match m)
  end

with erase_stmt (s : Statement) : Statement :=
  let E := option_map erase_expr in
  let S := option_map erase_stmt in
  let T := option_map erase_type in
  let B := option_map erase_block in
  let I := option_map bare_id in
  let Gs := map (option_map erase_generic) in
  let Fs := map (option_map erase_function) in
  match s with
  | BlockStatement b => BlockStatement (erase_block b)
  | EmptyStatement n => EmptyStatement (bare n)
  | ExpressionStatement n x => ExpressionStatement (bare n) (E x)
  | IfStatement n t c a => IfStatement (bare n) (E t) (S c) (S a)
  | ForStatement n i t u b l => ForStatement (bare n) (S i) (E t) (E u) (S b) l
  | WhileStatement n t b l => WhileStatement (bare n) (E t) (S b) l
  | ReturnStatement n x => ReturnStatement (bare n) (E x)
  | PassStatement n x => PassStatement (bare n) (E x)
  | BreakStatement n l => BreakStatement (bare n) l
  | ContinueStatement n l => ContinueStatement (bare n) l
  | TryStatement n t i c f => TryStatement (bare n) (B t) i (B c) (B f)
  | FreedomStatement n b => FreedomStatement (bare n) (B b)
  | ExternStatement n i r ps => ExternStatement (bare n) (I i) (T r) (map erase_param ps)
  | ThrowStatement n x => ThrowStatement (bare n) (E x)
  | MatchStatement m => MatchStatement (erase_match m)
  | YieldStatement n x => YieldStatement (bare n) (E x)
  | YieldReturnStatement n x => YieldReturnStatement (bare n) (E x)
  | AssertStatement n c m => AssertStatement (bare n) (E c) (E m)
  | FailStatement n x t => FailStatement (bare n) (E x) (T t)
  | RefailStatement n x => RefailStatement (bare n) (E x)
  | PanicStatement n x => PanicStatement (bare n) (E x)
  | ExitStatement n x => ExitStatement (bare n) (E x)
  | DeferStatement n x => DeferStatement (bare n) (S x)
  | TupleDestructureAssignment n is_ x => TupleDestructureAssignment (bare n) (map bare_id is_) (E x)
  | VariableDeclaration n i k t x o =>
      VariableDeclaration (bare n) (I i) k (T t) (E x) (if lossy then false else o)
  | FunctionDeclaration f => FunctionDeclaration (erase_function f)
  | TypeAliasDeclaration n i t => TypeAliasDeclaration (bare n) (I i) (T t)
  | ImportDeclaration n k src l sp d ns =>
      ImportDeclaration (bare n) k (option_map bare_string src) (option_map bare_string l) (map bare_specifier sp) (I d) (I ns)
  | StructDeclaration n i gs fs cs r => StructDeclaration (bare n) (I i) (Gs gs) (map (option_map erase_field) fs) (Fs cs) r
  | ClassDeclaration n i gs ms => ClassDeclaration (bare n) (I i) (Gs gs) (map S ms)
  | FieldDeclaration f => FieldDeclaration (erase_field f)
  | BindDeclaration n i gs tr self bs ms =>
      BindDeclaration (bare n) (I i) (Gs gs) (T tr) (T self) (map (fun b => (I (fst b), T (snd b))) bs) (Fs ms)
  | EnumDeclaration n i gs vs => EnumDeclaration (bare n) (I i) (Gs gs) (map (option_map erase_variant) vs)
  | TemplateDeclaration n i gs b => TemplateDeclaration (bare n) (I i) (Gs gs) (S b)
  | AspectDeclaration n i gs ss ats ds cs ms =>
      AspectDeclaration (bare n) (I i) (Gs gs) (map I ss) (map I ats) (map T ds) (map (map T) cs) (Fs ms)
  | NamespaceDeclaration n i ms => NamespaceDeclaration (bare n) (I i) (map S ms)
  end

with erase_type (t : TypeNode) : TypeNode :=
  let T := option_map erase_type in
  match t with
  | TypeName n i args => TypeName (bare n) (option_map bare_id i) (map T args)
  | PointerType n p => PointerType (bare n) (T p)
  | ArrayType n el s => ArrayType (bare n) (T el) (option_map erase_expr s)
  | VecType n el => VecType (bare n) (T el)
  | FutureType n r => FutureType (bare n) (T r)
  | FunctionType n ps r => FunctionType (bare n) (map T ps) (T r)
  | OptionalType n x => OptionalType (bare n) (T x)
  | TupleTypeNode n ms => TupleTypeNode (bare n) (map T ms)
  end

with erase_param (p : FunctionParameter) : FunctionParameter :=
  match p with mkFunctionParameter i t m => mkFunctionParameter (bare_id i) (option_map erase_type t) m end

with erase_generic (g : GenericParameter) : GenericParameter :=
  match g with mkGenericParameter n i bs => mkGenericParameter (bare n) (option_map bare_id i) (map (option_map erase_type) bs) end

with erase_block (b : Block) : Block :=
  match b with mkBlock n ss => mkBlock (bare n) (map (option_map erase_stmt) ss) end

with erase_match (m : Match) : Match :=
  let E := option_map erase_expr in
  match m with mkMatch n x cs gs => mkMatch (bare n) (E x) (map (fun c => (E (fst c), E (snd c))) cs) (map E gs) end

with erase_trap (t : TrapClause) : TrapClause :=
  match t with
  | mkTrapClause n i ty tys h w m =>
      mkTrapClause (bare n) (option_map bare_id i) (option_map erase_type ty) (map erase_type tys) (option_map erase_stmt h) w m
  end

with erase_ensure (e : EnsureClause) : EnsureClause :=
  match e with mkEnsureClause n b => mkEnsureClause (bare n) (option_map erase_stmt b) end

with erase_field (f : Field) : Field :=
  match f with mkField n i t x m => mkField (bare n) (option_map bare_id i) (option_map erase_type t) (option_map erase_expr x) m end

with erase_function (f : Function_) : Function_ :=
  match f with
  | mkFunction n i gs ps b a d v r h =>
      mkFunction (bare n) (option_map bare_id i) (map (option_map erase_generic) gs) (map erase_param ps) (option_map erase_block b) a d v
        (option_map erase_type r) h
  end

with erase_variant (v : EnumVariant) : EnumVariant :=
  match v with mkEnumVariant n i ts x h => mkEnumVariant (bare n) (option_map bare_id i) (map (option_map erase_type) ts) x h end.
End Erase.

Notation bare_stmt := (erase_stmt false).
Notation lossy_stmt := (erase_stmt true).

(** What [m] builds satisfies [P], wherever the counter stands. *)
Definition gives {A} (m : alloc A) (P : A -> Prop) : Prop := forall c, P (m c).1.

Lemma gives_ret {A} (a : A) (P : A -> Prop) : P a -> gives (mret a) P.
Proof. by intros H c. Qed.
Lemma gives_bind {A B} (m : alloc A) (k : A -> alloc B) (P : A -> Prop) (Q : B -> Prop) :
  gives m P -> (forall a, P a -> gives (k a) Q) -> gives (m ≫= k) Q.
Proof. intros Hm Hk c. specialize (Hm c). unfold mbind, alloc_bind. destruct (m c) as [a c']. by apply Hk. Qed.
Lemma gives_args2 {A B} ltr (a : alloc A) (b : alloc B) (P : A -> Prop) (Q : B -> Prop) :
  gives a P -> gives b Q -> gives (args2 ltr a b) (fun p => P p.1 /\ Q p.2).
Proof.
  intros Ha Hb. destruct ltr; (eapply gives_bind; [eassumption|]; intros x Hx; eapply gives_bind; [eassumption|]; intros y Hy; by apply gives_ret).
Qed.

(** [f] copies [a]: what it builds, read through [E false], is [a] read through
    [E true]. *)
Definition copies {A} (f : A -> alloc A) (E : bool -> A -> A) (a : A) : Prop := gives (f a) (fun b => E false b = E true a).

Lemma copies_new n : gives (new n) (fun n' => bare n' = bare n).
Proof. done. Qed.

(** These end in [Defined]: the recursion of the proof below passes through them. *)
Lemma copies_opt {A} (f : A -> alloc A) E : (forall a, copies f E a) -> forall o, copies (opt_copy f) (fun l => option_map (E l)) o.
Proof.
  intros H [a|]; [|by intros c]. intros c. specialize (H a c). cbn in *. unfold mbind, alloc_bind. destruct (f a c) as [b c'].
  cbn in *. exact (f_equal Some H).
Defined.

Lemma copies_list {A} (f : A -> alloc A) E : (forall a, copies f E a) -> forall l, copies (list_copy f) (fun l => map (E l)) l.
Proof.
  intros H. fix go 1. intros [|a l] c; [exact eq_refl|]. cbn. unfold mbind, alloc_bind. pose proof (H a c) as Ha.
  destruct (f a c) as [b c']. pose proof (go l c') as Hl. destruct (list_copy f l c') as [l' c'']. cbn in *.
  exact (f_equal2 cons Ha Hl).
Defined.

Lemma copies_pair {A B} (f : A -> alloc A) (g : B -> alloc B) E F : (forall a, copies f E a) -> (forall b, copies g F b) ->
  forall p, copies (pair_copy f g) (fun l p => (E l (fst p), F l (snd p))) p.
Proof.
  intros Hf Hg [a b] c. unfold copies, pair_copy, mbind, alloc_bind. cbn. pose proof (Hf a c) as Ha. cbn in *. destruct (f a c) as [a' c'].
  pose proof (Hg b c') as Hb. destruct (g b c') as [b' c'']. cbn in *. exact (f_equal2 pair Ha Hb).
Defined.

Lemma copies_id i : copies cloneId (fun _ => bare_id) i.
Proof. by intros c. Qed.
Lemma copies_string s : copies cloneStringLiteral (fun _ => bare_string) s.
Proof. by intros c. Qed.

Lemma copies_specifier ltr s : copies (cloneSpecifier ltr) (fun _ => bare_specifier) s.
Proof.
  eapply gives_bind; [apply gives_args2; apply copies_opt, copies_id|]. intros [i l] [Hi Hl]. apply gives_ret.
  unfold bare_specifier. cbn in *. by rewrite Hi, Hl.
Qed.

Lemma copies_property ltr f E : (forall o, copies f E o) -> forall p, copies (cloneProperty ltr f) (fun l => bare_property (E l)) p.
Proof.
  intros H [l k v]. unfold copies. eapply gives_bind; [apply gives_args2; [apply copies_id|apply H]|]. intros [k' v'] [Hk Hv].
  apply gives_ret. cbn in *. exact (f_equal2 (mkObjectProperty l) Hk Hv).
Defined.

Ltac copied :=
  first [exact (copies_new _) | apply gives_args2; copied | apply copies_opt; copied | apply copies_list; copied
        | apply copies_pair; copied | apply copies_property; copied | apply copies_id | apply copies_string | apply copies_specifier
        | match goal with H : forall x, copies ?f ?E x |- _ => apply H end].

Ltac copy_steps :=
  lazymatch goal with
  | |- gives (_ ≫= _) _ =>
      eapply gives_bind; [copied|]; cbn beta;
      let p := fresh "p" in let H := fresh "H" in intros p H;
      repeat match goal with q : (_ * _)%type |- _ => destruct q; cbn [fst snd] in * end; cbn beta iota; copy_steps
  | |- gives (mret _) _ => apply gives_ret; cbn; destruct_and?; cbn in *; congruence
  end.

(** The whole copy: the tree it returns is the tree it was given, up to ids. *)
Lemma cloneStmt_bare ltr s : copies (cloneStmt ltr) erase_stmt s.
Proof.
  revert s.
  fix IHs 1 with
    (IHe (e : Expression) {struct e} : copies (cloneExpr ltr) erase_expr e)
    (IHt (t : TypeNode) {struct t} : copies (cloneTy ltr) erase_type t)
    (IHp (p : FunctionParameter) {struct p} : copies (cloneParam ltr) erase_param p)
    (IHg (g : GenericParameter) {struct g} : copies (cloneGenericParam ltr) erase_generic g)
    (IHb (b : Block) {struct b} : copies (cloneBlock ltr) erase_block b)
    (IHm (m : Match) {struct m} : copies (cloneMatchStmt ltr) erase_match m)
    (IHc (t : TrapClause) {struct t} : copies (cloneTrap ltr) erase_trap t)
    (IHn (n : EnsureClause) {struct n} : copies (cloneEnsure ltr) erase_ensure n)
    (IHf (f : Field) {struct f} : copies (cloneField ltr) erase_field f)
    (IHu (f : Function_) {struct f} : copies (cloneFuncDecl ltr) erase_function f)
    (IHv (v : EnumVariant) {struct v} : copies (cloneEnumVariant ltr) erase_variant v).
  - intros s. unfold copies. destruct s; cbn [cloneStmt]; copy_steps.
  - intros e. unfold copies. destruct e as [| | | | | | | | | | | | | | | | | | | | | | | | | | | | | | | | | | | | |n [x|] t| | |]; cbn [cloneExpr]; copy_steps.
  - intros t. unfold copies. destruct t; cbn [cloneTy]; copy_steps.
  - intros p. unfold copies. destruct p; cbn [cloneParam]; copy_steps.
  - intros g. unfold copies. destruct g; cbn [cloneGenericParam]; copy_steps.
  - intros b. unfold copies. destruct b; cbn [cloneBlock]; copy_steps.
  - intros m. unfold copies. destruct m; cbn [cloneMatchStmt]; copy_steps.
  - intros t. unfold copies. destruct t; cbn [cloneTrap]; copy_steps.
  - intros n. unfold copies. destruct n; cbn [cloneEnsure]; copy_steps.
  - intros f. unfold copies. destruct f; cbn [cloneField]; copy_steps.
  - intros f. unfold copies. destruct f; cbn [cloneFuncDecl]; copy_steps.
  - intros v. unfold copies. destruct v; cbn [cloneEnumVariant]; copy_steps.
Qed.

(** C39: copying a declaration into an importer keeps its tree but for the two
    things the cloner does not take along. Whatever the statement and whichever
    way the compiler evaluates constructor arguments, the copy, with nothing but
    its ids erased, is the original with its ids erased, every variable's
    owns-its-value flag reset and the type argument of every [typeof] with an
    operand dropped: the same constructors, names, literals, flags and
    locations, in the same order, and nothing added. *)
Theorem spliced_copy_same args_ltr s counter :
  option_map bare_stmt (cloneSplicedStmt args_ltr s counter).1 = option_map lossy_stmt s.
Proof.
  unfold cloneSplicedStmt, opt_copy. destruct s as [s|]; [|done]. pose proof (cloneStmt_bare args_ltr s counter) as H. cbn beta in H.
  unfold mbind, alloc_bind. destruct (cloneStmt args_ltr s counter) as [s' c]. cbn in *. by rewrite H.
Qed.

(** A copied variable forgets that it owns its value. *)
Lemma clone_drops_ownership ltr n i k t x c :
  exists n' i' t' x', (cloneStmt ltr (VariableDeclaration n i k t x true) c).1 = VariableDeclaration n' i' k t' x' false.
Proof. destruct ltr; cbn; unfold mbind, alloc_bind; cbn; repeat case_match; by do 4 eexists. Qed.
