(* ===== verification/Splice.v ===== *)
(** * Names across modules (src/module_registry.cpp)

    The tree walks of the module registry: the identifiers a declaration
    mentions ([FreeIdentifierCollector]), the rewriting of [NS.sym] to the
    mangled symbol, the renaming of bare references inside a copied
    declaration, and the names declarations go by. The rewrites change the tree
    in place, so nodes keep their ids; the identifier that replaces an
    expression draws a new one. *)

From S2P Require Import Prelude.
From S2P Require Import Token.
From S2P Require Import Ast.
From S2P Require Import AstText.
From S2P Require Import AstTypes.
From S2P Require Import AstCopy.

(** ** Free identifiers *)

(** [if (x) x->accept( *this)] *)
Definition names_of {A} (f : A -> list str) (o : option A) : list str := match o with Some a => f a | None => [] end.
Definition all_names {A} (f : A -> list str) (l : list (option A)) : list str := concat (map (names_of f) l).
Definition id_name (i : Identifier) : list str := [name i].

Fixpoint free_expr (e : Expression) : list str :=
  let E := names_of free_expr in
  let Es := all_names free_expr in
  let T := names_of free_type in
  let Ts := all_names free_type in
  match e with
  | IdentifierExpr i => id_name i
  | IntegerLiteral _ _ _ _ | FloatLiteral _ _ | StringLiteral _ | BooleanLiteral _ _ | NilLiteral _
  | ThisExpression _ | SuperExpression _ => []
  | ObjectLiteral _ t ps => T t ++ concat (map (fun p => match p with mkObjectProperty _ k v => id_name k ++ E v end) ps)
  | UnaryExpression _ _ x => E x
  | BinaryExpression _ l _ r => E l ++ E r
  | CallExpression _ c args tys => E c ++ Es args ++ Ts tys
  | MemberExpression _ o p _ => E o ++ E p
  | AssignmentExpression _ l _ r => E l ++ E r
  | ArrayLiteral _ es => Es es
  | BorrowExpression _ x _ => E x
  | PointerDerefExpression _ x => E x
  | AddrOfExpression _ x => E x
  | FromIntToLocExpression _ x t => E x ++ T t
  | ArrayElementExpression _ a i => E a ++ E i
  | LocationExpression _ x => E x
  | ListComprehension _ x v i c => E x ++ names_of id_name v ++ E i ++ E c
  | IfExpression _ c t f => E c ++ E t ++ E f
  | ConstructionExpression _ t args => T t ++ Es args
  | ArrayInitializationExpression _ t s => T t ++ E s
  | GenericInstantiationExpression _ b args _ _ => E b ++ Ts args
  | LogicalExpression _ l _ r => E l ++ E r
  | ConditionalExpression _ c t f => E c ++ E t ++ E f
  | SequenceExpression _ es => Es es
  | FunctionExpression _ ps b _ => concat (map free_param ps) ++ E b
  | AwaitExpression _ x => E x
  | RangeExpression _ a b s => E a ++ E b ++ E s
  | BlockExpression _ b ts en => names_of free_block b ++ concat (map free_trap ts) ++ names_of free_ensure en
  | SelectExpression _ x cs => E x ++ concat (map (fun c => E (fst c) ++ E (snd c)) cs)
  | ComparisonPattern _ _ v => E v
  | StructPattern _ t bs => T t ++ all_names id_name bs
  | SetPattern _ es => Es es
  | TypeofExpression _ x t => E x ++ T t
  | TypenameExpression _ x => E x
  | AsExpression _ x t => E x ++ T t
  | MatchExpression _ m => names_of free_match m
  end

with free_stmt (s : Statement) : list str :=
  let E := names_of free_expr in
  let S := names_of free_stmt in
  let T := names_of free_type in
  let B := names_of free_block in
  let Gs := all_names free_generic in
  let Fs := all_names free_function in
  match s with
  | BlockStatement b => free_block b
  | ExpressionStatement _ x => E x
  | IfStatement _ t c a => E t ++ S c ++ S a
  | ForStatement _ i t u b _ => S i ++ E t ++ E u ++ S b
  | WhileStatement _ t b _ => E t ++ S b
  | ReturnStatement _ x => E x
  | PassStatement _ x => E x
  | BreakStatement _ _ | ContinueStatement _ _ | EmptyStatement _ => []
  | TryStatement _ t _ c f => B t ++ B c ++ B f
  | FreedomStatement _ b => B b
  | ExternStatement _ _ r ps => T r ++ concat (map free_param ps)
  | ThrowStatement _ x => E x
  | MatchStatement m => free_match m
  | YieldStatement _ x => E x
  | YieldReturnStatement _ x => E x
  | AssertStatement _ c m => E c ++ E m
  | FailStatement _ x t => E x ++ T t
  | RefailStatement _ x => E x
  | PanicStatement _ x => E x
  | ExitStatement _ x => E x
  | DeferStatement _ x => S x
  | TupleDestructureAssignment _ is_ x => concat (map id_name is_) ++ E x
  | VariableDeclaration _ _ _ t x _ => T t ++ E x
  | FunctionDeclaration f => free_function f
  | TypeAliasDeclaration _ _ t => T t
  | ImportDeclaration _ _ _ _ _ _ _ => []
  | StructDeclaration _ _ gs fs cs _ => Gs gs ++ all_names free_field fs ++ Fs cs
  | ClassDeclaration _ _ gs ms => Gs gs ++ all_names free_stmt ms
  | FieldDeclaration f => free_field f
  | BindDeclaration _ _ gs tr self bs ms => Gs gs ++ T tr ++ T self ++ concat (map (fun b => T (snd b)) bs) ++ Fs ms
  | EnumDeclaration _ _ gs vs => Gs gs ++ all_names free_variant vs
  | TemplateDeclaration _ _ gs b => Gs gs ++ S b
  | AspectDeclaration _ _ gs ss ats ds cs ms =>
      Gs gs ++ all_names id_name ss ++ all_names id_name ats ++ all_names free_type ds ++ concat (map (all_names free_type) cs) ++ Fs ms
  | NamespaceDeclaration _ _ ms => all_names free_stmt ms
  end

with free_type (t : TypeNode) : list str :=
  let T := names_of free_type in
  match t with
  | TypeName _ i args => names_of id_name i ++ all_names free_type args
  | PointerType _ p => T p
  | ArrayType _ el s => T el ++ names_of free_expr s
  | VecType _ el => T el
  | FutureType _ r => T r
  | FunctionType _ ps r => all_names free_type ps ++ T r
  | OptionalType _ x => T x
  | TupleTypeNode _ ms => all_names free_type ms
  end

with free_param (p : FunctionParameter) : list str :=
  match p with mkFunctionParameter _ t _ => names_of free_type t end

with free_generic (g : GenericParameter) : list str :=
  match g with mkGenericParameter _ _ bs => all_names free_type bs end

with free_block (b : Block) : list str :=
  match b with mkBlock _ ss => all_names free_stmt ss end

with free_match (m : Match) : list str :=
  let E := names_of free_expr in
  match m with mkMatch _ x cs gs => E x ++ concat (map (fun c => E (fst c) ++ E (snd c)) cs) ++ all_names free_expr gs end

with free_trap (t : TrapClause) : list str :=
  match t with mkTrapClause _ _ ty tys h _ _ => names_of free_type ty ++ concat (map free_type tys) ++ names_of free_stmt h end

with free_ensure (e : EnsureClause) : list str :=
  match e with mkEnsureClause _ b => names_of free_stmt b end

with free_field (f : Field) : list str :=
  match f with mkField _ _ t x _ => names_of free_type t ++ names_of free_expr x end

with free_function (f : Function_) : list str :=
  match f with
  | mkFunction _ _ gs ps b _ _ _ r _ =>
      concat (map free_param ps) ++ all_names free_generic gs ++ names_of free_type r ++ names_of free_block b
  end

with free_variant (v : EnumVariant) : list str :=
  match v with mkEnumVariant _ _ ts _ _ => all_names free_type ts end.

(** ** Mangled names *)

Definition mangledNamespaceName (ns symbol : str) : str := $"__ns_" ++ ns ++ $"_" ++ symbol.

(** FNV-1a over the bytes of the module key, at 64 bits. *)
Definition fnv1a (key : str) : Z :=
  foldl (fun h c => to_uint64 (Z.lxor h (Z.of_N (code c)) * 1099511628211)) 1469598103934665603%Z key.

Definition hex_digit (z : Z) : ascii :=
  match nth_error $"0123456789abcdef" (Z.to_nat z) with Some c => c | None => "0"%char end.

Definition privateMangledName (moduleKey symbol : str) : str :=
  let h := fnv1a moduleKey in
  $"__pv_" ++ map (fun shift => hex_digit (Z.land (Z.shiftr h shift) 15)) [28; 24; 20; 16; 12; 8; 4; 0]%Z ++ $"_" ++ symbol.

Definition starts_with (p s : str) : bool := take (length p) s =s p.

Definition isPrivateMangledName (name : str) : bool := starts_with $"__pv_" name.

(** ** Rewriting *)

(** The expression that stands for a reference, if it is one: a new identifier
    at the place of the old node. *)
Definition replacement (n : Node) (s : option str) : option (alloc Expression) :=
  match s with Some s => Some (n' ← new n; mret (IdentifierExpr (mkIdentifier n' s))) | None => None end.

(** [NS.sym] for a namespace of the module and one of its symbols. *)
Definition foldNamespaceMember (localNS : gmap str (gmap str str)) (e : Expression) : option (alloc Expression) :=
  match e with
  | MemberExpression n (Some (IdentifierExpr o)) (Some (IdentifierExpr p)) false =>
      replacement n (localNS !! name o ≫= (.!! name p))
  | _ => None
  end.

Definition foldIdentifierMember (symbolToMangled : gmap str str) (e : Expression) : option (alloc Expression) :=
  match e with IdentifierExpr i => replacement (id_node i) (symbolToMangled !! name i) | _ => None end.

(** An initializer is only looked at itself: neither fold goes inside it. *)
Definition fold_init (fold : Expression -> option (alloc Expression)) (init : option Expression) : alloc (option Expression) :=
  match init with
  | Some e => match fold e with Some m => x ← m; mret (Some x) | None => mret (Some e) end
  | None => mret None
  end.
Definition foldVariableInit (localNS : gmap str (gmap str str)) := fold_init (foldNamespaceMember localNS).
Definition foldBareInit (symbolToMangled : gmap str str) := fold_init (foldIdentifierMember symbolToMangled).

Section RewriteNamespace.
Context (localNS : gmap str (gmap str str)).

Fixpoint rewriteNamespaceExpr (e : Expression) : alloc Expression :=
  let E := opt_copy rewriteNamespaceExpr in
  let Es := list_copy (opt_copy rewriteNamespaceExpr) in
  match foldNamespaceMember localNS e with
  | Some m => m
  | None =>
      match e with
      | CallExpression n c args tys => c' ← E c; args' ← Es args; mret (CallExpression n c' args' tys)
      | MemberExpression n o p k => o' ← E o; p' ← E p; mret (MemberExpression n o' p' k)
      | AssignmentExpression n l op r => l' ← E l; r' ← E r; mret (AssignmentExpression n l' op r')
      | ObjectLiteral n t ps =>
          ps' ← list_copy (fun p => match p with mkObjectProperty l k v => v' ← E v; mret (mkObjectProperty l k v') end) ps;
          mret (ObjectLiteral n t ps')
      | UnaryExpression n op x => x' ← E x; mret (UnaryExpression n op x')
      | BinaryExpression n l op r => l' ← E l; r' ← E r; mret (BinaryExpression n l' op r')
      | LogicalExpression n l op r => l' ← E l; r' ← E r; mret (LogicalExpression n l' op r')
      | ConditionalExpression n c t f => c' ← E c; t' ← E t; f' ← E f; mret (ConditionalExpression n c' t' f')
      | SequenceExpression n es => es' ← Es es; mret (SequenceExpression n es')
      | ArrayLiteral n es => es' ← Es es; mret (ArrayLiteral n es')
      | BorrowExpression n x k => x' ← E x; mret (BorrowExpression n x' k)
      | PointerDerefExpression n x => x' ← E x; mret (PointerDerefExpression n x')
      | AddrOfExpression n x => x' ← E x; mret (AddrOfExpression n x')
      | ArrayElementExpression n a i => a' ← E a; i' ← E i; mret (ArrayElementExpression n a' i')
      | LocationExpression n x => x' ← E x; mret (LocationExpression n x')
      | ListComprehension n x v i c => x' ← E x; i' ← E i; c' ← E c; mret (ListComprehension n x' v i' c')
      | IfExpression n c t f => c' ← E c; t' ← E t; f' ← E f; mret (IfExpression n c' t' f')
      | ConstructionExpression n t args => args' ← Es args; mret (ConstructionExpression n t args')
      | ArrayInitializationExpression n t s => s' ← E s; mret (ArrayInitializationExpression n t s')
      | GenericInstantiationExpression n b args lt gt => b' ← E b; mret (GenericInstantiationExpression n b' args lt gt)
      | FunctionExpression n ps b a => b' ← E b; mret (FunctionExpression n ps b' a)
      | AwaitExpression n x => x' ← E x; mret (AwaitExpression n x')
      | RangeExpression n a b s => a' ← E a; b' ← E b; s' ← E s; mret (RangeExpression n a' b' s')
      | BlockExpression n b ts en =>
          b' ← opt_copy rewriteBlockBody b;
          ts' ← list_copy rewrite_trap ts;
          en' ← opt_copy rewrite_ensure en;
          mret (BlockExpression n b' ts' en')
      | SelectExpression n x cs => x' ← E x; cs' ← list_copy (pair_copy E E) cs; mret (SelectExpression n x' cs')
      | ComparisonPattern n op v => v' ← E v; mret (ComparisonPattern n op v')
      | SetPattern n es => es' ← Es es; mret (SetPattern n es')
      | TypeofExpression n x t => x' ← E x; mret (TypeofExpression n x' t)
      | TypenameExpression n x => x' ← E x; mret (TypenameExpression n x')
      | AsExpression n x t => x' ← E x; mret (AsExpression n x' t)
      | MatchExpression n m => m' ← opt_copy rewrite_match m; mret (MatchExpression n m')
      | _ => mret e
      end
  end

with rewriteNamespaceRawStmt (s : Statement) : alloc Statement :=
  let E := opt_copy rewriteNamespaceExpr in
  let S := opt_copy rewriteNamespaceRawStmt in
  let B := opt_copy rewriteBlockBody in
  let Fs := list_copy (opt_copy rewrite_function) in
  match s with
  | BlockStatement b => b' ← rewriteBlockBody b; mret (BlockStatement b')
  | ExpressionStatement n x => x' ← E x; mret (ExpressionStatement n x')
  | IfStatement n t c a => t' ← E t; c' ← S c; a' ← S a; mret (IfStatement n t' c' a')
  | WhileStatement n t b l => t' ← E t; b' ← S b; mret (WhileStatement n t' b' l)
  | ForStatement n i t u b l =>
      i' ← (match i with
            | Some (ExpressionStatement n0 x) => x' ← E x; mret (Some (ExpressionStatement n0 x'))
            | Some (VariableDeclaration n0 id k ty x o) =>
                x' ← foldVariableInit localNS x; mret (Some (VariableDeclaration n0 id k ty x' o))
            | _ => mret i
            end : alloc (option Statement));
      t' ← E t; u' ← E u; b' ← S b; mret (ForStatement n i' t' u' b' l)
  | ReturnStatement n x => x' ← E x; mret (ReturnStatement n x')
  | PassStatement n x => x' ← E x; mret (PassStatement n x')
  | TryStatement n t i c f => t' ← B t; c' ← B c; f' ← B f; mret (TryStatement n t' i c' f')
  | FreedomStatement n b => b' ← B b; mret (FreedomStatement n b')
  | ThrowStatement n x => x' ← E x; mret (ThrowStatement n x')
  | MatchStatement m => m' ← rewrite_match m; mret (MatchStatement m')
  | YieldStatement n x => x' ← E x; mret (YieldStatement n x')
  | YieldReturnStatement n x => x' ← E x; mret (YieldReturnStatement n x')
  | AssertStatement n c m => c' ← E c; m' ← E m; mret (AssertStatement n c' m')
  | FailStatement n x t => x' ← E x; mret (FailStatement n x' t)
  | RefailStatement n x => x' ← E x; mret (RefailStatement n x')
  | PanicStatement n x => x' ← E x; mret (PanicStatement n x')
  | ExitStatement n x => x' ← E x; mret (ExitStatement n x')
  | DeferStatement n x => x' ← S x; mret (DeferStatement n x')
  | TupleDestructureAssignment n is_ x => x' ← E x; mret (TupleDestructureAssignment n is_ x')
  | VariableDeclaration n i k t x o => x' ← foldVariableInit localNS x; mret (VariableDeclaration n i k t x' o)
  | FunctionDeclaration f => f' ← rewrite_function f; mret (FunctionDeclaration f')
  | StructDeclaration n i gs fs cs r =>
      fs' ← list_copy (opt_copy rewrite_field) fs; cs' ← Fs cs; mret (StructDeclaration n i gs fs' cs' r)
  | AspectDeclaration n i gs ss ats ds cs ms => ms' ← Fs ms; mret (AspectDeclaration n i gs ss ats ds cs ms')
  | BindDeclaration n i gs tr self bs ms => ms' ← Fs ms; mret (BindDeclaration n i gs tr self bs ms')
  | ClassDeclaration n i gs ms =>
      ms' ← list_copy (opt_copy (fun m => match m with
                                          | FieldDeclaration f => f' ← rewrite_field f; mret (FieldDeclaration f')
                                          | FunctionDeclaration f => f' ← rewrite_function f; mret (FunctionDeclaration f')
                                          | _ => mret m
                                          end)) ms;
      mret (ClassDeclaration n i gs ms')
  | _ => mret s
  end

with rewriteBlockBody (b : Block) : alloc Block :=
  match b with mkBlock n ss => ss' ← list_copy (opt_copy rewriteNamespaceRawStmt) ss; mret (mkBlock n ss') end

with rewrite_match (m : Match) : alloc Match :=
  let E := opt_copy rewriteNamespaceExpr in
  match m with
  | mkMatch n x cs gs => x' ← E x; cs' ← list_copy (pair_copy E E) cs; gs' ← list_copy E gs; mret (mkMatch n x' cs' gs')
  end

with rewrite_trap (t : TrapClause) : alloc TrapClause :=
  match t with
  | mkTrapClause n i ty tys h w m => h' ← opt_copy rewriteNamespaceRawStmt h; mret (mkTrapClause n i ty tys h' w m)
  end

with rewrite_ensure (e : EnsureClause) : alloc EnsureClause :=
  match e with mkEnsureClause n b => b' ← opt_copy rewriteNamespaceRawStmt b; mret (mkEnsureClause n b') end

with rewrite_field (f : Field) : alloc Field :=
  match f with mkField n i t x m => x' ← opt_copy rewriteNamespaceExpr x; mret (mkField n i t x' m) end

with rewrite_function (f : Function_) : alloc Function_ :=
  match f with
  | mkFunction n i gs ps b a d v r h => b' ← opt_copy rewriteBlockBody b; mret (mkFunction n i gs ps b' a d v r h)
  end.
End RewriteNamespace.

Section MangleBare.
Context (symbolToMangled : gmap str str).

(** Clauses of a block, set patterns and field initializers are not visited. *)
Fixpoint mangleBareExpr (e : Expression) : alloc Expression :=
  let E := opt_copy mangleBareExpr in
  let Es := list_copy (opt_copy mangleBareExpr) in
  match foldIdentifierMember symbolToMangled e with
  | Some m => m
  | None =>
      match e with
      | CallExpression n c args tys => c' ← E c; args' ← Es args; mret (CallExpression n c' args' tys)
      | MemberExpression n o p k => o' ← E o; p' ← E p; mret (MemberExpression n o' p' k)
      | AssignmentExpression n l op r => l' ← E l; r' ← E r; mret (AssignmentExpression n l' op r')
      | ObjectLiteral n t ps =>
          ps' ← list_copy (fun p => match p with mkObjectProperty l k v => v' ← E v; mret (mkObjectProperty l k v') end) ps;
          mret (ObjectLiteral n t ps')
      | UnaryExpression n op x => x' ← E x; mret (UnaryExpression n op x')
      | BinaryExpression n l op r => l' ← E l; r' ← E r; mret (BinaryExpression n l' op r')
      | LogicalExpression n l op r => l' ← E l; r' ← E r; mret (LogicalExpression n l' op r')
      | ConditionalExpression n c t f => c' ← E c; t' ← E t; f' ← E f; mret (ConditionalExpression n c' t' f')
      | SequenceExpression n es => es' ← Es es; mret (SequenceExpression n es')
      | ArrayLiteral n es => es' ← Es es; mret (ArrayLiteral n es')
      | BorrowExpression n x k => x' ← E x; mret (BorrowExpression n x' k)
      | PointerDerefExpression n x => x' ← E x; mret (PointerDerefExpression n x')
      | AddrOfExpression n x => x' ← E x; mret (AddrOfExpression n x')
      | ArrayElementExpression n a i => a' ← E a; i' ← E i; mret (ArrayElementExpression n a' i')
      | LocationExpression n x => x' ← E x; mret (LocationExpression n x')
      | ListComprehension n x v i c => x' ← E x; i' ← E i; c' ← E c; mret (ListComprehension n x' v i' c')
      | IfExpression n c t f => c' ← E c; t' ← E t; f' ← E f; mret (IfExpression n c' t' f')
      | ConstructionExpression n t args => args' ← Es args; mret (ConstructionExpression n t args')
      | ArrayInitializationExpression n t s => s' ← E s; mret (ArrayInitializationExpression n t s')
      | GenericInstantiationExpression n b args lt gt => b' ← E b; mret (GenericInstantiationExpression n b' args lt gt)
      | FunctionExpression n ps b a => b' ← E b; mret (FunctionExpression n ps b' a)
      | AwaitExpression n x => x' ← E x; mret (AwaitExpression n x')
      | RangeExpression n a b s => a' ← E a; b' ← E b; s' ← E s; mret (RangeExpression n a' b' s')
      | BlockExpression n b ts en => b' ← opt_copy mangleBareBlock b; mret (BlockExpression n b' ts en)
      | SelectExpression n x cs => x' ← E x; cs' ← list_copy (pair_copy E E) cs; mret (SelectExpression n x' cs')
      | ComparisonPattern n op v => v' ← E v; mret (ComparisonPattern n op v')
      | TypeofExpression n x t => x' ← E x; mret (TypeofExpression n x' t)
      | TypenameExpression n x => x' ← E x; mret (TypenameExpression n x')
      | AsExpression n x t => x' ← E x; mret (AsExpression n x' t)
      | MatchExpression n m => m' ← opt_copy mangle_match m; mret (MatchExpression n m')
      | _ => mret e
      end
  end

with mangleBareRawStmt (s : Statement) : alloc Statement :=
  let E := opt_copy mangleBareExpr in
  let S := opt_copy mangleBareRawStmt in
  let B := opt_copy mangleBareBlock in
  let Fs := list_copy (opt_copy mangle_function) in
  match s with
  | BlockStatement b => b' ← mangleBareBlock b; mret (BlockStatement b')
  | ExpressionStatement n x => x' ← E x; mret (ExpressionStatement n x')
  | IfStatement n t c a => t' ← E t; c' ← S c; a' ← S a; mret (IfStatement n t' c' a')
  | WhileStatement n t b l => t' ← E t; b' ← S b; mret (WhileStatement n t' b' l)
  | ForStatement n i t u b l =>
      (* The macro ends in an [if], so the [else] with the variable declaration
         belongs to it: a declared loop variable is never looked at. *)
      i' ← (match i with
            | Some (ExpressionStatement n0 x) => x' ← E x; mret (Some (ExpressionStatement n0 x'))
            | _ => mret i
            end : alloc (option Statement));
      t' ← E t; u' ← E u; b' ← S b; mret (ForStatement n i' t' u' b' l)
  | ReturnStatement n x => x' ← E x; mret (ReturnStatement n x')
  | PassStatement n x => x' ← E x; mret (PassStatement n x')
  | TryStatement n t i c f => t' ← B t; c' ← B c; f' ← B f; mret (TryStatement n t' i c' f')
  | FreedomStatement n b => b' ← B b; mret (FreedomStatement n b')
  | ThrowStatement n x => x' ← E x; mret (ThrowStatement n x')
  | MatchStatement m => m' ← mangle_match m; mret (MatchStatement m')
  | YieldStatement n x => x' ← E x; mret (YieldStatement n x')
  | YieldReturnStatement n x => x' ← E x; mret (YieldReturnStatement n x')
  | AssertStatement n c m => c' ← E c; m' ← E m; mret (AssertStatement n c' m')
  | FailStatement n x t => x' ← E x; mret (FailStatement n x' t)
  | RefailStatement n x => x' ← E x; mret (RefailStatement n x')
  | PanicStatement n x => x' ← E x; mret (PanicStatement n x')
  | ExitStatement n x => x' ← E x; mret (ExitStatement n x')
  | DeferStatement n x => x' ← S x; mret (DeferStatement n x')
  | TupleDestructureAssignment n is_ x => x' ← E x; mret (TupleDestructureAssignment n is_ x')
  | VariableDeclaration n i k t x o => x' ← foldBareInit symbolToMangled x; mret (VariableDeclaration n i k t x' o)
  | FunctionDeclaration f => f' ← mangle_function f; mret (FunctionDeclaration f')
  | StructDeclaration n i gs fs cs r => cs' ← Fs cs; mret (StructDeclaration n i gs fs cs' r)
  | AspectDeclaration n i gs ss ats ds cs ms => ms' ← Fs ms; mret (AspectDeclaration n i gs ss ats ds cs ms')
  | BindDeclaration n i gs tr self bs ms => ms' ← Fs ms; mret (BindDeclaration n i gs tr self bs ms')
  | ClassDeclaration n i gs ms =>
      ms' ← list_copy (opt_copy (fun m => match m with
                                          | FunctionDeclaration f => f' ← mangle_function f; mret (FunctionDeclaration f')
                                          | _ => mret m
                                          end)) ms;
      mret (ClassDeclaration n i gs ms')
  | _ => mret s
  end

with mangleBareBlock (b : Block) : alloc Block :=
  match b with mkBlock n ss => ss' ← list_copy (opt_copy mangleBareRawStmt) ss; mret (mkBlock n ss') end

with mangle_match (m : Match) : alloc Match :=
  let E := opt_copy mangleBareExpr in
  match m with
  | mkMatch n x cs gs => x' ← E x; cs' ← list_copy (pair_copy E E) cs; gs' ← list_copy E gs; mret (mkMatch n x' cs' gs')
  end

with mangle_function (f : Function_) : alloc Function_ :=
  match f with
  | mkFunction n i gs ps b a d v r h => b' ← opt_copy mangleBareBlock b; mret (mkFunction n i gs ps b' a d v r h)
  end.
End MangleBare.

Definition mangleBareStmt (symbolToMangled : gmap str str) (s : option Statement) : alloc (option Statement) :=
  opt_copy (mangleBareRawStmt symbolToMangled) s.

(** ** The names of declarations *)

Definition name_or_empty (i : option Identifier) : str := match i with Some i => name i | None => [] end.

Definition declarationName (s : option Statement) : str :=
  match s with
  | Some (FunctionDeclaration (mkFunction _ i _ _ _ _ _ _ _ _)) => name_or_empty i
  | Some (VariableDeclaration _ i _ _ _ _) => name_or_empty i
  | Some (TypeAliasDeclaration _ i _) => name_or_empty i
  | Some (StructDeclaration _ i _ _ _ _) => name_or_empty i
  | Some (EnumDeclaration _ i _ _) => name_or_empty i
  | Some (AspectDeclaration _ i _ _ _ _ _ _) => name_or_empty i
  | Some (ClassDeclaration _ i _ _) => name_or_empty i
  | Some (BindDeclaration _ _ _ (Some tr) (Some self) _ _) => $"bind:" ++ TypeNode_toString self ++ $":" ++ TypeNode_toString tr
  | Some (BindDeclaration _ _ _ _ _ _ _) => $"bind"
  | _ => []
  end.

(** An extern block is a namespace called [__extern_C]. *)
Fixpoint collect_declared (s : Statement) : list str :=
  let own := match declarationName (Some s) with [] => [] | n => [n] end in
  match s with
  | NamespaceDeclaration _ (Some i) ms =>
      if name i =s $"__extern_C"
      then concat (map (fun m => match m with Some m => collect_declared m | None => [] end) ms)
      else own
  | _ => own
  end.

Definition collectDeclarationNames (s : option Statement) : list str :=
  match s with Some s => collect_declared s | None => [] end.

(** [None] is the result [false]. *)
Definition renameDeclaration (s : option Statement) (newName : str) : option (option Statement) :=
  let rename i := mkIdentifier (id_node i) newName in
  match s with
  | Some (FunctionDeclaration (mkFunction n (Some i) gs ps b a d v r h)) =>
      Some (Some (FunctionDeclaration (mkFunction n (Some (rename i)) gs ps b a d v r h)))
  | Some (VariableDeclaration n (Some i) k t x o) => Some (Some (VariableDeclaration n (Some (rename i)) k t x o))
  | Some (TypeAliasDeclaration n (Some i) t) => Some (Some (TypeAliasDeclaration n (Some (rename i)) t))
  | Some (StructDeclaration n (Some i) gs fs cs r) => Some (Some (StructDeclaration n (Some (rename i)) gs fs cs r))
  | Some (EnumDeclaration n (Some i) gs vs) => Some (Some (EnumDeclaration n (Some (rename i)) gs vs))
  | Some (AspectDeclaration n (Some i) gs ss ats ds cs ms) => Some (Some (AspectDeclaration n (Some (rename i)) gs ss ats ds cs ms))
  | Some (ClassDeclaration n (Some i) gs ms) => Some (Some (ClassDeclaration n (Some (rename i)) gs ms))
  | _ => None
  end.

Definition isMainFunction (s : option Statement) : bool :=
  match s with Some (FunctionDeclaration (mkFunction _ (Some i) _ _ _ _ _ _ _ _)) => name i =s $"main" | _ => false end.
