(* ===== verification/ModuleSource.v ===== *)
(** * Directives of a module source (src/module_registry.cpp)

    [preprocessModuleSource] reads a source line by line before it is parsed:
    [bundle(...)], [share(...)] and [no_core()] are taken out, and what they say
    is kept beside the text. The theorem is that every line stays where it is,
    so that the parser's places are places of the file. *)

From S2P Require Import Prelude.

(** ** Text helpers *)

Definition isalpha (c : ascii) : bool := in_range c "a" "z" || in_range c "A" "Z".
Definition isalnum (c : ascii) : bool := isalpha c || in_range c "0" "9".
Definition word_char (c : ascii) : bool := isalnum c || (c =c "_").

Definition trimCopy (text : str) : str := rev (drop_while isspace (rev (drop_while isspace text))).

(** [text.rfind(p, 0) == 0] *)
Fixpoint strip_prefix (p text : str) : option str :=
  match p, text with
  | [], _ => Some text
  | c :: p', d :: text' => if c =c d then strip_prefix p' text' else None
  | _ :: _, [] => None
  end.

(** [find(c)]: what stands before the first [c] and after it. *)
Fixpoint cut_at (c : ascii) (text : str) : option (str * str) :=
  match text with
  | [] => None
  | d :: text' => if d =c c then Some ([], text') else '(a, b) ← cut_at c text'; Some (d :: a, b)
  end.

Definition startsWithWord (text word : str) : bool :=
  match strip_prefix word text with
  | None => false
  | Some [] => true
  | Some (c :: _) => negb (isalnum c) && negb (c =c "_")
  end.

(** The pieces between commas; [fuel] is the length of the text. *)
Fixpoint directive_args (fuel : nat) (inside : str) : list str :=
  match fuel, inside with
  | O, _ | _, [] => []
  | S f, _ =>
      let '(piece, rest) := match cut_at "," inside with Some (a, b) => (a, b) | None => (inside, []) end in
      match trimCopy piece with [] => [] | arg => [arg] end ++ directive_args f rest
  end.
Definition parseDirectiveArgs (inside : str) : list str := directive_args (length inside) inside.

(** The arguments of the directive and the rest of the line; [None] when the
    line does not start with it. *)
Definition consumeDirective (line name : str) : outcome (option (list str * str)) :=
  match strip_prefix (name ++ $"(") (trimCopy line) with
  | None => Ok None
  | Some s =>
      match cut_at ")" s with
      | None => throw_runtime ($"Malformed " ++ name ++ $"(...) directive")
      | Some (inside, rest) => Ok (Some (parseDirectiveArgs inside, trimCopy rest))
      end
  end.

Definition takeIdentifierAfterKeyword (line keyword : str) : str :=
  if startsWithWord line keyword then take_while word_char (drop_while isspace (drop (length keyword) line)) else [].

(** The text behind a balanced [<...>] at the front, with [depth] brackets open. *)
Fixpoint skip_angles (depth : nat) (rest : str) : option str :=
  match rest with
  | [] => None
  | c :: rest' =>
      if c =c "<" then skip_angles (S depth) rest'
      else if c =c ">" then match depth with S O => Some rest' | _ => skip_angles (depth - 1) rest' end
      else skip_angles depth rest'
  end.

Definition bindKeyFromLine (line : str) : str :=
  if startsWithWord line $"bind" then
    let rest := trimCopy (drop 4 line) in
    let after := match rest with
                 | c :: _ => if c =c "<" then match skip_angles 0 rest with Some r => Some (trimCopy r) | None => None end else Some rest
                 | [] => Some rest
                 end in
    match after with
    | None => []
    | Some rest =>
        let trait := take_while word_char rest in
        let rest := trimCopy (drop_while word_char rest) in
        if startsWithWord rest $"->" then
          let rest := trimCopy (drop 2 rest) in
          let target := trimCopy (match cut_at "{" rest with Some (a, _) => a | None => rest end) in
          match trait, target with
          | _ :: _, _ :: _ => $"bind:" ++ target ++ $":" ++ trait
          | _, _ => []
          end
        else []
    end
  else [].

Definition contains (c : ascii) (line : str) : bool := match cut_at c line with Some _ => true | None => false end.

(** The first of these that is not empty. *)
Fixpoint first_nonempty (l : list str) : str := match l with [] => [] | [] :: l' => first_nonempty l' | s :: _ => s end.

Definition leading_name (line : str) : str :=
  match line with
  | c :: _ =>
      if isalpha c || (c =c "_") then
        match drop_while word_char line with
        | d :: _ => if (d =c "(") || (d =c "<") || (d =c "=") then take_while word_char line else []
        | [] => []
        end
      else []
  | [] => []
  end.

Definition declarationNameFromLine (line : str) : str :=
  let word := takeIdentifierAfterKeyword line in
  first_nonempty
    [word $"struct"; word $"enum"; word $"aspect"; word $"class"; word $"type"; word $"fn";
     (if contains ch_quote line then [] else word $"extern");
     (if contains "(" line then word $"async" else []);
     bindKeyFromLine line; leading_name line].

Definition isImportLine (line : str) : bool := startsWithWord line $"import" || startsWithWord line $"smuggle".

(** ** The lines of a source *)

(** What [std::getline] delivers; [line] is what it has read of one. *)
Fixpoint source_lines (line text : str) : list str :=
  match text with
  | [] => match line with [] => [] | _ => [line] end
  | c :: rest => if c =c ch_nl then line :: source_lines [] rest else source_lines (line ++ [c]) rest
  end.

Record SourceMetadata : Type := mkMetadata {
  source : str;
  bundles : list str;
  sharesByName : gmap str (list str);
  importShares : list (list str);
  coreAutoImport : bool
}.

(** The loop's variables: the metadata with the cleaned text so far, and [pendingShare]. *)
Record Scan : Type := mkScan { meta : SourceMetadata; pendingShare : option (list str) }.

Definition Scan_new : Scan := mkScan (mkMetadata [] [] ∅ [] true) None.

Definition add_line (line : str) (S : Scan) : Scan :=
  let m := meta S in
  mkScan (mkMetadata (source m ++ line ++ [ch_nl]) (bundles m) (sharesByName m) (importShares m) (coreAutoImport m)) (pendingShare S).
Definition add_bundles (args : list str) (S : Scan) : Scan :=
  let m := meta S in mkScan (mkMetadata (source m) (bundles m ++ args) (sharesByName m) (importShares m) (coreAutoImport m)) (pendingShare S).
Definition set_pending (p : option (list str)) (S : Scan) : Scan := mkScan (meta S) p.
Definition no_core_import (S : Scan) : Scan :=
  let m := meta S in mkScan (mkMetadata (source m) (bundles m) (sharesByName m) (importShares m) false) (pendingShare S).
Definition add_import (args : list str) (S : Scan) : Scan :=
  let m := meta S in mkScan (mkMetadata (source m) (bundles m) (sharesByName m) (importShares m ++ [args]) (coreAutoImport m)) (pendingShare S).
Definition add_shares (name : str) (args : list str) (S : Scan) : Scan :=
  let m := meta S in mkScan (mkMetadata (source m) (bundles m) (<[name := args]> (sharesByName m)) (importShares m) (coreAutoImport m)) (pendingShare S).

(** One directive at the front of [working]: what is left of the line, or
    [None] when nothing is and the line becomes empty. *)
Definition take_directive (name : str) (effect : list str -> Scan -> Scan) (working : str) (S : Scan) : outcome (option str * Scan) :=
  r ← consumeDirective working name;
  match r with
  | None => Ok (Some working, S)
  | Some (args, []) => Ok (None, add_line [] (effect args S))
  | Some (args, rest) => Ok (Some rest, effect args S)
  end.

Section Preprocess.
Context (device : bool). (** [vyb::g_kernel_mode || vyb::g_freestanding] *)

(** The rest of the loop body, behind the directives. *)
Definition keep_line (line working : str) (S : Scan) : Scan :=
  match working with
  | [] => add_line line S
  | _ =>
      if isImportLine working then
        add_line working (set_pending None (add_import (match pendingShare S with Some a => a | None => [] end) S))
      else match pendingShare S with
           | Some args =>
               match declarationNameFromLine working with
               | [] => add_line working S
               | name => add_line working (set_pending None (add_shares name args S))
               end
           | None => add_line line S
           end
  end.

Definition scan_line (line : str) (S : Scan) : outcome Scan :=
  '(w, S) ← take_directive $"bundle" add_bundles (trimCopy line) S;
  match w with
  | None => Ok S
  | Some w =>
      '(w, S) ← take_directive $"share" (fun args S => set_pending (Some args) S) w S;
      match w with
      | None => Ok S
      | Some w =>
          '(w, S) ← take_directive $"no_core" (fun _ S => no_core_import S) w S;
          match w with
          | None => Ok S
          | Some w => Ok (keep_line line w (if device then no_core_import S else S))
          end
      end
  end.

Fixpoint scan_lines (lines : list str) (S : Scan) : outcome Scan :=
  match lines with [] => Ok S | l :: lines' => S' ← scan_line l S; scan_lines lines' S' end.

Definition preprocessModuleSource (text : str) : outcome SourceMetadata :=
  S ← scan_lines (source_lines [] text) Scan_new; Ok (meta S).
End Preprocess.

(** ** Lines stay where they are *)

Lemma drop_while_suffix {A} (p : A -> bool) l : drop_while p l `suffix_of` l.
Proof. induction l as [|a l IH]; [done|]. cbn. destruct (p a); [|done]. by apply suffix_cons_r. Qed.

(** Trimming text whose end is trimmed takes a suffix. *)
Definition ends_solid (s : str) : Prop := match last s with Some c => isspace c = false | None => True end.

Lemma rev_drop_solid s : ends_solid s -> rev (drop_while isspace (rev s)) = s.
Proof.
  unfold ends_solid. intros H. destruct (rev s) as [|c l] eqn:E.
  - apply (f_equal (@rev _)) in E. rewrite rev_involutive in E. by subst.
  - apply (f_equal (@rev _)) in E. rewrite rev_involutive in E. cbn in E. subst s. rewrite last_snoc in H. cbn. rewrite H. done.
Qed.

Lemma solid_suffix a s : ends_solid (a ++ s) -> ends_solid s.
Proof. unfold ends_solid. destruct s as [|c s]; [done|]. rewrite last_app. by destruct (last (c :: s)) eqn:E; [|apply last_None in E]. Qed.

Lemma trimCopy_suffix s : ends_solid s -> trimCopy s `suffix_of` s /\ ends_solid (trimCopy s).
Proof.
  intros H. destruct (drop_while_suffix isspace s) as [a Ha]. unfold trimCopy. rewrite rev_drop_solid.
  - split; [by exists a|]. rewrite Ha in H. by eapply solid_suffix.
  - rewrite Ha in H. by eapply solid_suffix.
Qed.

Lemma trimCopy_solid s : ends_solid (trimCopy s).
Proof.
  unfold trimCopy, ends_solid. destruct (drop_while isspace (rev (drop_while isspace s))) as [|c l] eqn:E; [done|].
  cbn. rewrite last_snoc. by eapply drop_while_head.
Qed.

Lemma strip_prefix_app p text s : strip_prefix p text = Some s -> text = p ++ s.
Proof.
  revert text. induction p as [|c p IH]; intros [|d text]; cbn; try (intros; by simplify_eq).
  destruct (c =c d) eqn:E; [|done]. apply ceq_true in E as ->. intros H. by rewrite (IH _ H).
Qed.

Lemma cut_at_app c text a b : cut_at c text = Some (a, b) -> text = a ++ c :: b.
Proof.
  revert a. induction text as [|d text IH]; intros a; cbn; [done|]. destruct (d =c c) eqn:E.
  - apply ceq_true in E as ->. by intros [= <- <-].
  - destruct (cut_at c text) as [[a' b']|]; [|done]. intros [= <- <-]. by rewrite (IH a').
Qed.

(** Behind a directive stands a suffix of what was there. *)
Lemma consumeDirective_suffix line name args rest : ends_solid line -> consumeDirective line name = Ok (Some (args, rest)) ->
  rest `suffix_of` line /\ ends_solid rest.
Proof.
  intros S. destruct (trimCopy_suffix line S) as [T1 T2]. unfold consumeDirective.
  destruct (strip_prefix _ _) as [s|] eqn:E; [|done]. destruct (cut_at _ _) as [[inside r]|] eqn:C; [|done]. intros [= <- <-].
  apply strip_prefix_app in E. apply cut_at_app in C. subst s.
  assert (R : ends_solid r) .
  { rewrite E in T2. apply (solid_suffix ((name ++ $"(") ++ inside ++ [")"%char])). by rewrite <- !app_assoc in *. }
  destruct (trimCopy_suffix r R) as [R1 R2]. split; [|done]. etrans; [exact R1|]. etrans; [|exact T1]. rewrite E.
  exists ((name ++ $"(") ++ inside ++ [")"%char]). by rewrite <- !app_assoc.
Qed.

(** [S'] has one more line than [S]: [o]. *)
Definition one_more (S S' : Scan) (o : str) : Prop := source (meta S') = source (meta S) ++ o ++ [ch_nl].

Definition quiet (f : list str -> Scan -> Scan) : Prop := forall args S, source (meta (f args S)) = source (meta S).

Lemma take_directive_spec name f working S w S' : quiet f -> ends_solid working -> take_directive name f working S = Ok (w, S') ->
  match w with
  | None => one_more S S' []
  | Some w => w `suffix_of` working /\ ends_solid w /\ source (meta S') = source (meta S)
  end.
Proof.
  intros Q E. unfold take_directive. destruct (consumeDirective working name) as [[[args rest]|]|] eqn:C; cbn; [| |done].
  - destruct (consumeDirective_suffix _ _ _ _ E C) as [H1 H2]. destruct rest as [|c rest]; intros [= <- <-].
    + unfold one_more. cbn. by rewrite Q.
    + by rewrite Q.
  - by intros [= <- <-].
Qed.

Lemma keep_line_spec line w S : exists o, one_more S (keep_line line w S) o /\ (o = line \/ o = w).
Proof.
  unfold keep_line, one_more. destruct w as [|c w]; [exists line; split; [done|by left]|].
  destruct (isImportLine _); [eexists; split; [reflexivity|by right]|].
  destruct (pendingShare S) as [args|]; [|exists line; split; [done|by left]].
  destruct (declarationNameFromLine _); (eexists; split; [reflexivity|by right]).
Qed.

Lemma scan_line_spec device line S S' : scan_line device line S = Ok S' ->
  exists o, one_more S S' o /\ (o = line \/ o `suffix_of` trimCopy line).
Proof.
  unfold scan_line. intros H. apply bind_Ok in H as ([w1 S1] & H1 & H).
  apply take_directive_spec in H1; [|done|apply trimCopy_solid].
  destruct w1 as [w1|]; [|injection H as <-; exists []; split; [done|right; apply suffix_nil]]. destruct H1 as (U1 & E1 & Q1).
  apply bind_Ok in H as ([w2 S2] & H2 & H). apply take_directive_spec in H2; [|done|done].
  destruct w2 as [w2|]; [|injection H as <-; exists []; split; [unfold one_more in *; by rewrite H2, Q1|right; apply suffix_nil]].
  destruct H2 as (U2 & E2 & Q2).
  apply bind_Ok in H as ([w3 S3] & H3 & H). apply take_directive_spec in H3; [|done|done].
  destruct w3 as [w3|]; [|injection H as <-; exists []; split; [unfold one_more in *; by rewrite H3, Q2, Q1|right; apply suffix_nil]].
  destruct H3 as (U3 & E3 & Q3). injection H as <-.
  destruct (keep_line_spec line w3 (if device then no_core_import S3 else S3)) as (o & Ho & Hw). exists o. split.
  - unfold one_more in *. rewrite Ho. destruct device; cbn; by rewrite Q3, Q2, Q1.
  - destruct Hw as [->| ->]; [by left|right]. by etrans; [|etrans].
Qed.

Definition no_newline (s : str) : Prop := ch_nl ∉ s.

Lemma source_lines_no_newline acc text : no_newline acc -> Forall no_newline (source_lines acc text).
Proof.
  unfold no_newline. revert acc. induction text as [|c text IH]; intros acc H; cbn; [by destruct acc; repeat constructor|].
  destruct (c =c ch_nl) eqn:E.
  - constructor; [done|]. apply IH. apply not_elem_of_nil.
  - apply IH. apply ceq_false in E. rewrite not_elem_of_app, list_elem_of_singleton. split; [done|congruence].
Qed.

Lemma source_lines_line l acc r : no_newline l -> source_lines acc (l ++ ch_nl :: r) = (acc ++ l) :: source_lines [] r.
Proof.
  unfold no_newline. revert acc. induction l as [|c l IH]; intros acc H; cbn; [by rewrite app_nil_r|].
  apply not_elem_of_cons in H as [Hc Hl]. rewrite (proj2 (ceq_false _ _)) by congruence. rewrite IH by done. by rewrite <- app_assoc.
Qed.

Lemma trimCopy_elem c s : c ∈ trimCopy s -> c ∈ s.
Proof.
  unfold trimCopy. rewrite list_elem_of_In, <- in_rev, <- list_elem_of_In. intros H.
  destruct (drop_while_suffix isspace (rev (drop_while isspace s))) as [a Ha].
  assert (K : c ∈ rev (drop_while isspace s)) by (rewrite Ha, elem_of_app; by right).
  rewrite list_elem_of_In, <- in_rev, <- list_elem_of_In in K. destruct (drop_while_suffix isspace s) as [b Hb].
  rewrite Hb, elem_of_app. by right.
Qed.

Lemma kept_no_newline l o : no_newline l -> (o = l \/ o `suffix_of` trimCopy l) -> no_newline o.
Proof.
  intros H [->|[a Ha]]; [done|]. intros C. apply H, trimCopy_elem. rewrite Ha, elem_of_app. by right.
Qed.

Lemma scan_lines_spec device ls S S' : Forall no_newline ls -> scan_lines device ls S = Ok S' ->
  exists outs, (forall r, source (meta S') ++ r = source (meta S) ++ concat (map (fun o => o ++ [ch_nl]) outs) ++ r)
    /\ Forall2 (fun l o => o = l \/ o `suffix_of` trimCopy l) ls outs
    /\ source_lines [] (concat (map (fun o => o ++ [ch_nl]) outs)) = outs.
Proof.
  intros N. revert S. induction N as [|l ls Hl N IH]; intros S; cbn; [intros [= <-]; by exists []|].
  intros H. apply bind_Ok in H as (S1 & H1 & H). destruct (scan_line_spec _ _ _ _ H1) as (o & Ho & Hk).
  destruct (IH _ H) as (outs & Hs & F & L). exists (o :: outs). split_and!.
  - intros r. rewrite Hs, Ho. cbn. by rewrite <- !app_assoc.
  - by constructor.
  - cbn. rewrite <- app_assoc. cbn. rewrite source_lines_line by (by eapply kept_no_newline). by rewrite L.
Qed.

(** C40: the directives are taken out of a module's source without moving a
    line. When the scan does not fail, the text that is parsed has as many lines
    as the file, and each of them is the line of the file at the same place or an
    end of it without its blanks: nothing is merged, split or moved, so the lines
    the lexer and the parser report are lines of the file. *)
Theorem preprocess_keeps_lines device text m : preprocessModuleSource device text = Ok m ->
  Forall2 (fun l o => o = l \/ o `suffix_of` trimCopy l) (source_lines [] text) (source_lines [] (source m)).
Proof.
  unfold preprocessModuleSource. intros H. apply bind_Ok in H as (S & H & E). injection E as <-.
  destruct (scan_lines_spec _ _ _ _ (source_lines_no_newline [] text (not_elem_of_nil _)) H) as (outs & Hs & F & L).
  specialize (Hs []). rewrite !app_nil_r in Hs. cbn in Hs. by rewrite Hs, L.
Qed.

Definition sample_module : str :=
  $"bundle(net, io)" ++ [ch_nl] ++ $"  share(all) fn f() { }" ++ [ch_nl] ++ $"import core::io" ++ [ch_nl] ++ $"  x = 1" ++ [ch_nl].

Lemma preprocess_keeps_lines_witness : exists m,
  preprocessModuleSource false sample_module = Ok m
  /\ source_lines [] (source m) = [[]; $"fn f() { }"; $"import core::io"; $"  x = 1"]
  /\ sharesByName m !! $"f" = Some [$"all"] /\ bundles m = [$"net"; $"io"]
  /\ Forall2 (fun l o => o = l \/ o `suffix_of` trimCopy l) (source_lines [] sample_module) (source_lines [] (source m)).
Proof.
  eexists. split; [vm_compute; reflexivity|]. split; [vm_compute; reflexivity|]. split; [vm_compute; reflexivity|].
  split; [vm_compute; reflexivity|]. apply (preprocess_keeps_lines false). vm_compute. reflexivity.
Defined.

(** ** Where the scan misreads *)

(** A statement that calls a function of that name is taken for a directive,
    and the next declaration is shared. *)
Lemma call_taken_for_directive :
  (m ← preprocessModuleSource false ($"fn f() {" ++ [ch_nl] ++ $"  share(all)" ++ [ch_nl] ++ $"}" ++ [ch_nl] ++ $"fn secret() { }");
   Ok (source m, sharesByName m !! $"secret"))
  = Ok ($"fn f() {" ++ [ch_nl] ++ [ch_nl] ++ $"}" ++ [ch_nl] ++ $"fn secret() { }" ++ [ch_nl], Some [$"all"]).
Proof. vm_compute. reflexivity. Qed.

(** [bundle] and [no_core] in front of a declaration stay in the text. *)
Lemma directive_left_in_line :
  (m ← preprocessModuleSource false $"bundle(net) fn f() { }"; Ok (source m, bundles m))
  = Ok ($"bundle(net) fn f() { }" ++ [ch_nl], [$"net"]).
Proof. vm_compute. reflexivity. Qed.

(** A [bind] whose arrow is written against the target's name is not seen, and
    the share waits for the next declaration. *)
Lemma bind_arrow_needs_blank :
  (declarationNameFromLine $"bind Show -> P {", declarationNameFromLine $"bind Show ->P {") = ($"bind:P:Show", []).
Proof. vm_compute. reflexivity. Qed.
