(* ===== verification/Closure.v ===== *)
(** * What an import carries along (src/module_registry.cpp, resolveModule)

    A declaration that is copied into an importer mentions other declarations of
    its module, and calls methods that binds provide. The registry computes what
    has to come along by rescanning until nothing new is found. The theorem is
    that the result is exactly what is reachable, in whatever order the hash
    tables are walked, and that the scan ends. *)

From S2P Require Import Prelude.
From S2P Require Import Token.
From S2P Require Import Ast.
From S2P Require Import Splice.
From stdpp Require Import orders.

(** ** Tables *)

Record Tables : Type := mkTables {
  declByName : gmap str Statement; (* its keys are [moduleDeclNames] *)
  bindByKey : gmap str Statement;
  bindMethodToKeys : gmap str (list str);
  bindSelfBase : gmap str str;
  bindTypeBases : gmap str (gset str)
}.

Definition baseTypeName (t : option TypeNode) : str := match t with Some (TypeName _ (Some i) _) => name i | _ => [] end.

(** [emplace]: what is there stays. *)
Definition emplace {V} (k : str) (v : V) (m : gmap str V) : gmap str V := match m !! k with Some _ => m | None => <[k := v]> m end.

Definition method_name (f : option Function_) : list str :=
  match f with Some (mkFunction _ (Some i) _ _ _ _ _ _ _ _) => [name i] | _ => [] end.
Definition method_result (f : option Function_) : str :=
  match f with Some (mkFunction _ _ _ _ _ _ _ _ r _) => baseTypeName r | None => [] end.

Definition push_key (k : str) (m : gmap str (list str)) (method : str) : gmap str (list str) :=
  <[method := default [] (m !! method) ++ [k]]> m.

Definition nonempty_set (l : list str) : gset str := list_to_set (filter (fun s => s <> []) l).

Definition add_declaration (T : Tables) (d : option Statement) : Tables :=
  match d with
  | None | Some (ImportDeclaration _ _ _ _ _ _ _) => T
  | Some ((BindDeclaration _ _ _ tr self _ ms) as b) =>
      match declarationName d with
      | [] => T
      | bk =>
          let selfBase := baseTypeName self in
          mkTables (declByName T) (emplace bk b (bindByKey T))
            (foldl (push_key bk) (bindMethodToKeys T) (concat (map method_name ms)))
            (match selfBase with [] => bindSelfBase T | _ => <[bk := selfBase]> (bindSelfBase T) end)
            (<[bk := default ∅ (bindTypeBases T !! bk) ∪ nonempty_set (selfBase :: baseTypeName tr :: map method_result ms)]> (bindTypeBases T))
      end
  | Some s =>
      match declarationName d with
      | [] => T
      | n => mkTables (emplace n s (declByName T)) (bindByKey T) (bindMethodToKeys T) (bindSelfBase T) (bindTypeBases T)
      end
  end.

Definition body_tables (body : list (option Statement)) : Tables := foldl add_declaration (mkTables ∅ ∅ ∅ ∅ ∅) body.

(** ** The scan *)

Record Closure : Type := mkClosure {
  carryNames : gset str;
  carryBindKeys : gset str;
  reachableTypes : gset str;
  referencedMethods : gset str;
  declWalked : gset str;
  bindBodyWalked : gset str
}.

Section Scan.
Context (order : gset str -> list str) (T : Tables).

(** One free identifier of a declaration that is carried; the flag is [changed]. *)
Definition absorb_name (s : Closure * bool) (ref : str) : Closure * bool :=
  let '(C, changed) := s in
  let isDecl := bool_decide (is_Some (declByName T !! ref)) in
  let isNew := isDecl && negb (bool_decide (ref ∈ carryNames C)) in
  (mkClosure (if isDecl then {[ref]} ∪ carryNames C else carryNames C) (carryBindKeys C) ({[ref]} ∪ reachableTypes C)
     (if bool_decide (is_Some (bindMethodToKeys T !! ref)) then {[ref]} ∪ referencedMethods C else referencedMethods C)
     (declWalked C) (bindBodyWalked C),
   changed || isNew).

Definition absorb_names (s : Closure * bool) (d : Statement) : Closure * bool :=
  foldl absorb_name s (order (list_to_set (free_stmt d))).

Definition walk_decl (s : Closure * bool) (k : str) : Closure * bool :=
  let '(C, changed) := s in
  if bool_decide (k ∈ declWalked C) then s
  else
    let C := mkClosure (carryNames C) (carryBindKeys C) (reachableTypes C) (referencedMethods C) ({[k]} ∪ declWalked C) (bindBodyWalked C) in
    match declByName T !! k with Some d => absorb_names (C, changed) d | None => (C, changed) end.

Definition walk_bind (s : Closure * bool) (k : str) : Closure * bool :=
  let '(C, changed) := s in
  if bool_decide (k ∈ bindBodyWalked C) then s
  else
    let C := mkClosure (carryNames C) (carryBindKeys C) (reachableTypes C) (referencedMethods C) (declWalked C) ({[k]} ∪ bindBodyWalked C) in
    match bindByKey T !! k with Some d => absorb_names (C, changed) d | None => (C, changed) end.

(** A bind whose self type is reachable; the flag is [admitted]. *)
Definition admit_bind (s : Closure * bool) (bk : str) : Closure * bool :=
  let '(C, admitted) := s in
  if bool_decide (bk ∈ carryBindKeys C) then s
  else match bindSelfBase T !! bk with
       | Some base =>
           if bool_decide (base ∈ reachableTypes C) then
             (mkClosure (carryNames C) ({[bk]} ∪ carryBindKeys C) (default ∅ (bindTypeBases T !! bk) ∪ reachableTypes C)
                (referencedMethods C) (declWalked C) (bindBodyWalked C), true)
           else s
       | None => s
       end.

(** [while (admitted)] over these keys. *)
Fixpoint admit_loop (fuel : nat) (keys : list str) (C : Closure) (changed : bool) : option (Closure * bool) :=
  match fuel with
  | O => None
  | S f =>
      let '(C', admitted) := foldl admit_bind (C, false) keys in
      if admitted then admit_loop f keys C' true else Some (C', changed)
  end.

Definition method_keys (C : Closure) : list str :=
  concat (map (fun m => default [] (bindMethodToKeys T !! m)) (order (referencedMethods C))).

Definition admit_fuel : nat := S (size (bindByKey T)).

Definition closure_pass (C : Closure) : option (Closure * bool) :=
  let '(C1, changed1) := foldl walk_decl (C, false) (order (carryNames C)) in
  let '(C2, changed2) := foldl walk_bind (C1, changed1) (order (carryBindKeys C1)) in
  '(C3, changed3) ← admit_loop admit_fuel (method_keys C2) C2 changed2;
  admit_loop admit_fuel (order (dom (bindByKey T))) C3 changed3.

(** [while (changed)] *)
Fixpoint closure_loop (fuel : nat) (C : Closure) : option Closure :=
  match fuel with
  | O => None
  | S f =>
      '(C', changed) ← closure_pass C;
      if changed : bool then closure_loop f C' else Some C'
  end.

Definition closure_fuel : nat := S (size (declByName T) + size (bindByKey T)).

Definition import_closure (seed : gset str) : option (gset str * gset str) :=
  C ← closure_loop closure_fuel (mkClosure seed ∅ seed ∅ ∅ ∅);
  Some (carryNames C, carryBindKeys C).
End Scan.

(** ** What is reachable *)

Inductive Item : Type := Named (n : str) | Bound (k : str) | Typed (t : str).

Inductive carried (T : Tables) (seed : gset str) : Item -> Prop :=
| carried_seed n : n ∈ seed -> carried T seed (Named n)
| carried_seed_type n : n ∈ seed -> carried T seed (Typed n)
| carried_mention k d ref : carried T seed (Named k) -> declByName T !! k = Some d -> ref ∈ free_stmt d -> carried T seed (Typed ref)
| carried_sibling k d ref : carried T seed (Named k) -> declByName T !! k = Some d -> ref ∈ free_stmt d ->
    is_Some (declByName T !! ref) -> carried T seed (Named ref)
| carried_bind_mention k d ref : carried T seed (Bound k) -> bindByKey T !! k = Some d -> ref ∈ free_stmt d -> carried T seed (Typed ref)
| carried_bind_sibling k d ref : carried T seed (Bound k) -> bindByKey T !! k = Some d -> ref ∈ free_stmt d ->
    is_Some (declByName T !! ref) -> carried T seed (Named ref)
| carried_bind k base : bindSelfBase T !! k = Some base -> carried T seed (Typed base) -> carried T seed (Bound k)
| carried_bases k bases base : carried T seed (Bound k) -> bindTypeBases T !! k = Some bases -> base ∈ bases -> carried T seed (Typed base).

Section Exact.
Context (order : gset str -> list str) (walks : forall X, order X ≡ₚ elements X).
Context (T : Tables) (seed : gset str).
Context (bases_known : dom (bindSelfBase T) ⊆ dom (bindByKey T)).

Lemma elem_of_order X x : x ∈ order X <-> x ∈ X.
Proof. by rewrite (walks X), elem_of_elements. Qed.

(** From one state to a later one: the sets grow, and the flag says whether
    names or binds did. *)
Record extends (s s' : Closure * bool) : Prop := {
  ext_names : carryNames s.1 ⊆ carryNames s'.1;
  ext_binds : carryBindKeys s.1 ⊆ carryBindKeys s'.1;
  ext_types : reachableTypes s.1 ⊆ reachableTypes s'.1;
  ext_decl_walked : declWalked s.1 ⊆ declWalked s'.1;
  ext_bind_walked : bindBodyWalked s.1 ⊆ bindBodyWalked s'.1;
  ext_same : s'.2 = false -> s.2 = false /\ carryNames s'.1 = carryNames s.1 /\ carryBindKeys s'.1 = carryBindKeys s.1;
  ext_grows : s'.2 = true -> s.2 = true \/ carryNames s.1 ⊂ carryNames s'.1 \/ carryBindKeys s.1 ⊂ carryBindKeys s'.1
}.

Lemma extends_refl s : extends s s.
Proof. split; auto. Qed.

Lemma extends_trans s1 s2 s3 : extends s1 s2 -> extends s2 s3 -> extends s1 s3.
Proof.
  intros [A1 A2 A3 A4 A5 A6 A7] [B1 B2 B3 B4 B5 B6 B7]. split; try (by etrans).
  - intros H. destruct (B6 H) as (H2 & -> & ->). by destruct (A6 H2) as (? & -> & ->).
  - intros H. destruct (B7 H) as [H2|[H2|H2]].
    + destruct (A7 H2) as [?|[?|?]]; [by left|right; left|right; right]; by eapply strict_trans_l.
    + right. left. by eapply strict_trans_r.
    + right. right. by eapply strict_trans_r.
Qed.

(** Everything found is reachable. *)
Record sound (C : Closure) : Prop := {
  names_carried n : n ∈ carryNames C -> carried T seed (Named n);
  binds_carried k : k ∈ carryBindKeys C -> carried T seed (Bound k);
  types_carried t : t ∈ reachableTypes C -> carried T seed (Typed t);
  seed_names : seed ⊆ carryNames C;
  seed_types : seed ⊆ reachableTypes C;
  names_bounded : carryNames C ⊆ seed ∪ dom (declByName T);
  binds_bounded : carryBindKeys C ⊆ dom (bindByKey T);
  bases_closed k bases : k ∈ carryBindKeys C -> bindTypeBases T !! k = Some bases -> bases ⊆ reachableTypes C
}.

(** [d] has been absorbed. *)
Definition absorbed (C : Closure) (d : Statement) : Prop :=
  forall ref, ref ∈ free_stmt d -> ref ∈ reachableTypes C /\ (is_Some (declByName T !! ref) -> ref ∈ carryNames C).

(** What was walked has been absorbed. *)
Record walked (C : Closure) : Prop := {
  decl_walked k d : k ∈ declWalked C -> declByName T !! k = Some d -> absorbed C d;
  bind_walked k d : k ∈ bindBodyWalked C -> bindByKey T !! k = Some d -> absorbed C d
}.

Definition closing (C : Closure) : Prop := sound C /\ walked C.

Lemma absorbed_extends s s' d : extends s s' -> absorbed s.1 d -> absorbed s'.1 d.
Proof. intros E H ref Hr. destruct (H ref Hr) as [H1 H2]. split; [by apply (ext_types _ _ E)|]. intros S. by apply (ext_names _ _ E), H2. Qed.

Lemma fold_steps (f : Closure * bool -> str -> Closure * bool) (P Q : Closure * bool -> str -> Prop) l s :
  (forall s s' a, extends s s' -> P s a -> P s' a) -> (forall s s' a, extends s s' -> Q s a -> Q s' a) ->
  (forall s a, closing s.1 -> P s a -> closing (f s a).1 /\ extends s (f s a) /\ Q (f s a) a) ->
  closing s.1 -> (forall a, a ∈ l -> P s a) ->
  closing (foldl f s l).1 /\ extends s (foldl f s l) /\ (forall a, a ∈ l -> Q (foldl f s l) a).
Proof.
  intros HP HQ Hf. revert s. induction l as [|a l IH]; intros s Hs Hl.
  { split_and!; [done|apply extends_refl|]. by intros a ?%elem_of_nil. }
  cbn. destruct (Hf s a Hs (Hl a ltac:(left))) as (H1 & E1 & Q1).
  destruct (IH (f s a) H1) as (H2 & E2 & Q2).
  { intros b Hb. eapply HP; [exact E1|]. apply Hl. by right. }
  split_and!; [done|by eapply extends_trans|]. intros b [->|Hb]%elem_of_cons; [by eapply HQ|by apply Q2].
Qed.

(** What a fold of [absorb_name] does, exactly. *)
Lemma absorb_fold l C b : let r := foldl (absorb_name T) (C, b) l in
  carryBindKeys r.1 = carryBindKeys C /\ declWalked r.1 = declWalked C /\ bindBodyWalked r.1 = bindBodyWalked C
  /\ (forall n, n ∈ carryNames r.1 <-> n ∈ carryNames C \/ (n ∈ l /\ is_Some (declByName T !! n)))
  /\ (forall t, t ∈ reachableTypes r.1 <-> t ∈ reachableTypes C \/ t ∈ l)
  /\ (r.2 = false -> b = false /\ carryNames r.1 = carryNames C)
  /\ (r.2 = true -> b = true \/ carryNames C ⊂ carryNames r.1).
Proof.
  revert C b. induction l as [|x l IH]; intros C b; cbn [foldl].
  { cbn. split_and!; try done; [intros n|intros t|by left]; rewrite elem_of_nil; tauto. }
  destruct (absorb_name T (C, b) x) as [C1 b1] eqn:E. specialize (IH C1 b1). cbn in IH.
  destruct (foldl (absorb_name T) (C1, b1) l) as [C2 b2]. cbn in *. destruct IH as (I1 & I2 & I3 & I4 & I5 & I6 & I7).
  unfold absorb_name in E. injection E as <- <-. cbn in *. rewrite I1, I2, I3.
  assert (N : forall n, n ∈ carryNames C2 <-> n ∈ carryNames C \/ (n ∈ x :: l /\ is_Some (declByName T !! n))).
  { intros n. rewrite I4, elem_of_cons. case_bool_decide as S; [rewrite elem_of_union, elem_of_singleton|]; naive_solver. }
  split_and!; try done.
  - intros t. rewrite I5, elem_of_union, elem_of_singleton, elem_of_cons. tauto.
  - intros H. destruct (I6 H) as [H1 H2]. apply orb_false_iff in H1 as [-> H1]. rewrite H2. split; [done|].
    case_bool_decide; [|done]. cbn in H1. apply negb_false_iff, bool_decide_eq_true_1 in H1. by apply subseteq_union_1_L, singleton_subseteq_l.
  - intros H. assert (Sub : carryNames C ⊆ carryNames C2) by (intros n Hn; apply N; by left).
    destruct (I7 H) as [H1|H1].
    + apply orb_true_iff in H1 as [->|H1]; [by left|right]. apply andb_prop in H1 as [H1%bool_decide_eq_true_1 H2].
      apply negb_true_iff, bool_decide_eq_false_1 in H2. split; [done|]. intros S. apply H2, S, N. right. split; [left|done].
    + right. eapply strict_trans_r; [|exact H1]. case_bool_decide; [apply union_subseteq_r|done].
Qed.

Lemma absorb_ok C b d : sound C -> (forall ref, ref ∈ free_stmt d -> carried T seed (Typed ref)
    /\ (is_Some (declByName T !! ref) -> carried T seed (Named ref))) ->
  let r := absorb_names order T (C, b) d in
  sound r.1 /\ extends (C, b) r /\ absorbed r.1 d /\ declWalked r.1 = declWalked C /\ bindBodyWalked r.1 = bindBodyWalked C.
Proof.
  intros I Hd. unfold absorb_names. set (l := order _).
  assert (Hl : forall x, x ∈ l <-> x ∈ free_stmt d) by (intros x; unfold l; by rewrite elem_of_order, elem_of_list_to_set).
  pose proof (absorb_fold l C b) as F. cbn zeta in *. destruct (foldl _ _ _) as [C' b']. cbn [fst snd] in *.
  destruct F as (F1 & F2 & F3 & F4 & F5 & F6 & F7). destruct I as [J1 J2 J3 J4 J5 J6 J7 J8]. split_and!; try done.
  - split; rewrite ?F1; try done.
    + intros n [H|[H H']]%F4; [auto|]. apply Hd; [by apply Hl|done].
    + intros t [H|H]%F5; [auto|]. apply Hd. by apply Hl.
    + intros n H. apply F4. auto.
    + intros n H. apply F5. auto.
    + intros n [H|[_ H]]%F4; [auto|]. apply elem_of_union_r, elem_of_dom, H.
    + intros k bases H Hb x Hx. apply F5. left. by eapply J8.
  - split; cbn; rewrite ?F1, ?F2, ?F3; try done.
    + intros n H. apply F4. auto.
    + intros n H. apply F5. auto.
    + intros H. destruct (F6 H) as [-> ->]. done.
    + intros H. destruct (F7 H) as [->|H']; [by left|]. right. by left.
  - intros ref Hr. apply Hl in Hr. split; [apply F5; by right|]. intros S. apply F4. by right.
Qed.

(** Walking a carried declaration, or the body of an admitted bind. *)
Lemma walk_decl_ok s k : closing s.1 -> k ∈ carryNames s.1 ->
  closing (walk_decl order T s k).1 /\ extends s (walk_decl order T s k) /\ k ∈ declWalked (walk_decl order T s k).1.
Proof.
  destruct s as [C b]. cbn [fst]. intros [I W] K. unfold walk_decl. case_bool_decide as V; [by split_and!; [|apply extends_refl|]|].
  set (C0 := mkClosure _ _ _ _ _ _). assert (I0 : sound C0) by (by destruct I).
  assert (E0 : extends (C, b) (C0, b)) by (split; cbn; auto; apply union_subseteq_r).
  assert (W0 : forall s d, extends (C0, b) s -> absorbed C d -> absorbed s.1 d).
  { intros s d E Hd. apply (absorbed_extends (C, b)); [by eapply extends_trans|done]. }
  destruct (declByName T !! k) as [d|] eqn:D.
  - destruct (absorb_ok C0 b d I0) as (R1 & R2 & R3 & R4 & R5).
    { intros ref Hr. pose proof (names_carried _ I k K). split; [by eapply carried_mention|]. by eapply carried_sibling. }
    set (r := absorb_names order T (C0, b) d) in *. rewrite R4. split_and!; [split; [done|]|by eapply extends_trans|by apply elem_of_union_l, elem_of_singleton].
    split; rewrite ?R4, ?R5; cbn.
    + intros k' d' [->%elem_of_singleton|H]%elem_of_union Hd; [rewrite D in Hd; by injection Hd as <-|]. by eapply W0, (decl_walked _ W).
    + intros k' d' H Hd. by eapply W0, (bind_walked _ W).
  - split_and!; [split; [done|]|done|by apply elem_of_union_l, elem_of_singleton]. split; cbn.
    + intros k' d' [->%elem_of_singleton|H]%elem_of_union Hd; [congruence|]. by eapply (W0 (C0, b)), (decl_walked _ W); [apply extends_refl|..].
    + intros k' d' H Hd. by eapply (W0 (C0, b)), (bind_walked _ W); [apply extends_refl|..].
Qed.

Lemma walk_bind_ok s k : closing s.1 -> k ∈ carryBindKeys s.1 ->
  closing (walk_bind order T s k).1 /\ extends s (walk_bind order T s k) /\ k ∈ bindBodyWalked (walk_bind order T s k).1.
Proof.
  destruct s as [C b]. cbn [fst]. intros [I W] K. unfold walk_bind. case_bool_decide as V; [by split_and!; [|apply extends_refl|]|].
  set (C0 := mkClosure _ _ _ _ _ _). assert (I0 : sound C0) by (by destruct I).
  assert (E0 : extends (C, b) (C0, b)) by (split; cbn; auto; apply union_subseteq_r).
  assert (W0 : forall s d, extends (C0, b) s -> absorbed C d -> absorbed s.1 d).
  { intros s d E Hd. apply (absorbed_extends (C, b)); [by eapply extends_trans|done]. }
  destruct (bindByKey T !! k) as [d|] eqn:D.
  - destruct (absorb_ok C0 b d I0) as (R1 & R2 & R3 & R4 & R5).
    { intros ref Hr. pose proof (binds_carried _ I k K). split; [by eapply carried_bind_mention|]. by eapply carried_bind_sibling. }
    set (r := absorb_names order T (C0, b) d) in *. rewrite R5. split_and!; [split; [done|]|by eapply extends_trans|by apply elem_of_union_l, elem_of_singleton].
    split; rewrite ?R4, ?R5; cbn.
    + intros k' d' H Hd. by eapply W0, (decl_walked _ W).
    + intros k' d' [->%elem_of_singleton|H]%elem_of_union Hd; [rewrite D in Hd; by injection Hd as <-|]. by eapply W0, (bind_walked _ W).
  - split_and!; [split; [done|]|done|by apply elem_of_union_l, elem_of_singleton]. split; cbn.
    + intros k' d' H Hd. by eapply (W0 (C0, b)), (decl_walked _ W); [apply extends_refl|..].
    + intros k' d' [->%elem_of_singleton|H]%elem_of_union Hd; [congruence|]. by eapply (W0 (C0, b)), (bind_walked _ W); [apply extends_refl|..].
Qed.

Lemma admit_bind_ok s k : closing s.1 -> closing (admit_bind T s k).1 /\ extends s (admit_bind T s k)
  /\ ((admit_bind T s k).2 = false -> forall base, bindSelfBase T !! k = Some base -> base ∈ reachableTypes s.1 -> k ∈ carryBindKeys s.1).
Proof.
  destruct s as [C b]. cbn [fst]. intros [I W]. unfold admit_bind. case_bool_decide as V; [by split_and!; [|apply extends_refl|]|].
  destruct (bindSelfBase T !! k) as [base|] eqn:B; [|by split_and!; [|apply extends_refl|]].
  case_bool_decide as R; [|split_and!; [done|apply extends_refl|]; intros _ base' [= <-]; done].
  set (C' := mkClosure _ _ _ _ _ _). assert (E : extends (C, b) (C', true)).
  { split; cbn; auto; try apply union_subseteq_r; [done|]. intros _. right. right. split; [apply union_subseteq_r|]. intros S. apply V, S.
    by apply elem_of_union_l, elem_of_singleton. }
  split_and!; [|done|done]. split.
  - destruct I as [J1 J2 J3 J4 J5 J6 J7 J8]. assert (K : carried T seed (Bound k)) by (eapply carried_bind; [done|by apply J3]).
    split; cbn; try done.
    + intros k' [->%elem_of_singleton|H]%elem_of_union; auto.
    + intros t [H|H]%elem_of_union; [|auto]. destruct (bindTypeBases T !! k) as [bases|] eqn:Bs; [|by apply not_elem_of_empty in H].
      by eapply carried_bases.
    + etrans; [done|apply union_subseteq_r].
    + apply union_subseteq. split; [|done]. apply singleton_subseteq_l, bases_known, elem_of_dom. by eexists.
    + intros k' bases [->%elem_of_singleton|H]%elem_of_union Hb; [rewrite Hb; apply union_subseteq_l|].
      etrans; [by eapply J8|apply union_subseteq_r].
  - split; cbn; intros k' d Hk Hd; (eapply (absorbed_extends (C, b) (C', true)); [done|]); [by eapply (decl_walked _ W)|by eapply (bind_walked _ W)].
Qed.

(** A pass over [keys] that admits nothing. *)
Definition admits_none (C : Closure) (keys : list str) : Prop :=
  forall k base, k ∈ keys -> bindSelfBase T !! k = Some base -> base ∈ reachableTypes C -> k ∈ carryBindKeys C.

Lemma admit_fold keys s : closing s.1 ->
  closing (foldl (admit_bind T) s keys).1 /\ extends s (foldl (admit_bind T) s keys)
  /\ ((foldl (admit_bind T) s keys).2 = false -> (foldl (admit_bind T) s keys).1 = s.1 /\ admits_none s.1 keys).
Proof.
  revert s. induction keys as [|k keys IH]; intros s Hs; cbn [foldl].
  { split_and!; [done|apply extends_refl|]. intros _. split; [done|]. by intros k base ?%elem_of_nil. }
  destruct (admit_bind_ok s k Hs) as (A1 & A2 & A3). destruct (IH _ A1) as (B1 & B2 & B3).
  split_and!; [done|by eapply extends_trans|]. intros F. destruct (B3 F) as [-> B4].
  destruct (ext_same _ _ B2 F) as (F1 & _). assert (Q : (admit_bind T s k).1 = s.1).
  { revert F1. destruct s as [C b]. unfold admit_bind. repeat case_match; done. }
  rewrite Q in B4 |- *. split; [done|]. intros k' base [->|Hk]%elem_of_cons; [by apply A3|by apply B4].
Qed.

Lemma admit_fold_names keys s : carryNames (foldl (admit_bind T) s keys).1 = carryNames s.1.
Proof.
  revert s. induction keys as [|k keys IH]; intros s; cbn; [done|]. rewrite IH. destruct s as [C b]. unfold admit_bind.
  by repeat case_match.
Qed.

(** The loop ends: each round but the last admits a bind. *)
Lemma admit_loop_ok fuel keys C b : closing C -> size (dom (bindByKey T)) < fuel + size (carryBindKeys C) ->
  exists C' b', admit_loop T fuel keys C b = Some (C', b') /\ closing C' /\ extends (C, b) (C', b') /\ admits_none C' keys.
Proof.
  revert C b. induction fuel as [|f IH]; intros C b I S.
  { pose proof (subseteq_size _ _ (binds_bounded _ (proj1 I))). lia. }
  cbn [admit_loop]. destruct (admit_fold keys (C, false) I) as (A1 & A2 & A3). pose proof (admit_fold_names keys (C, false)) as N1.
  destruct (foldl (admit_bind T) (C, false) keys) as [C1 admitted]. cbn in *. destruct admitted.
  - destruct (ext_grows _ _ A2 eq_refl) as [?|G]; [done|]. cbn in G.
    assert (G' : carryBindKeys C ⊂ carryBindKeys C1).
    { destruct G as [[_ G]|G]; [|done]. by rewrite N1 in G. }
    destruct (IH C1 true A1) as (C' & b' & E & H1 & H2 & H3); [pose proof (subset_size _ _ G'); lia|].
    exists C', b'. split_and!; try done. eapply extends_trans; [|exact H2]. destruct A2. split; cbn in *; auto; done.
  - exists C1, b. destruct (A3 eq_refl) as [-> A4]. split_and!; try done. apply extends_refl.
Qed.

(** ** A pass, and the loop *)

(** Nothing is missing from [C]. *)
Definition complete (C : Closure) : Prop :=
  (forall k d, k ∈ carryNames C -> declByName T !! k = Some d -> absorbed C d)
  /\ (forall k d, k ∈ carryBindKeys C -> bindByKey T !! k = Some d -> absorbed C d)
  /\ admits_none C (elements (dom (bindSelfBase T))).

Lemma closure_pass_ok C : closing C ->
  exists C' changed, closure_pass order T C = Some (C', changed) /\ closing C' /\ extends (C, false) (C', changed)
    /\ (changed = false -> complete C').
Proof.
  intros I. unfold closure_pass.
  destruct (fold_steps (walk_decl order T) (fun s k => k ∈ carryNames s.1) (fun s k => k ∈ declWalked s.1) (order (carryNames C)) (C, false))
    as (A1 & A2 & A3); [intros s s' a E; apply (ext_names _ _ E)|intros s s' a E; apply (ext_decl_walked _ _ E)
      |intros s a; apply walk_decl_ok|done|intros a; apply elem_of_order|].
  destruct (foldl (walk_decl order T) _ _) as [C1 b1]. cbn [fst] in *.
  destruct (fold_steps (walk_bind order T) (fun s k => k ∈ carryBindKeys s.1) (fun s k => k ∈ bindBodyWalked s.1) (order (carryBindKeys C1)) (C1, b1))
    as (B1 & B2 & B3); [intros s s' a E; apply (ext_binds _ _ E)|intros s s' a E; apply (ext_bind_walked _ _ E)
      |intros s a; apply walk_bind_ok|done|intros a; apply elem_of_order|].
  destruct (foldl (walk_bind order T) _ _) as [C2 b2]. cbn [fst] in *.
  destruct (admit_loop_ok (admit_fuel T) (method_keys order T C2) C2 b2 B1) as (C3 & b3 & E3 & D1 & D2 & _);
    [unfold admit_fuel; rewrite size_dom; lia|].
  rewrite E3. cbn. destruct (admit_loop_ok (admit_fuel T) (order (dom (bindByKey T))) C3 b3 D1) as (C4 & b4 & E4 & F1 & F2 & F3);
    [unfold admit_fuel; rewrite size_dom; lia|].
  assert (X : extends (C, false) (C4, b4)) by (do 3 (eapply extends_trans; [eassumption|]); eassumption).
  exists C4, b4. split_and!; try done. intros ->.
  destruct (ext_same _ _ X eq_refl) as (_ & N4 & _). cbn in N4.
  destruct (ext_same _ _ (extends_trans _ _ _ B2 (extends_trans _ _ _ D2 F2)) eq_refl) as (_ & _ & K4). cbn in K4. split_and!.
  - intros k d Hk Hd. eapply (decl_walked _ (proj2 F1)); [|done].
    apply (ext_decl_walked _ _ (extends_trans _ _ _ B2 (extends_trans _ _ _ D2 F2))). cbn. apply A3, elem_of_order. by rewrite <- N4.
  - intros k d Hk Hd. eapply (bind_walked _ (proj2 F1)); [|done].
    apply (ext_bind_walked _ _ (extends_trans _ _ _ D2 F2)). cbn. apply B3, elem_of_order. by rewrite <- K4.
  - intros k base Hk Hb Hr. apply F3 with base; [|done|done]. apply elem_of_order, bases_known, elem_of_dom. by eexists.
Qed.

(** What is left to find. *)
Definition missing (C : Closure) : nat :=
  size (dom (declByName T) ∖ carryNames C) + size (dom (bindByKey T) ∖ carryBindKeys C).

Lemma difference_grows (D X Y : gset str) : X ⊆ Y -> size (D ∖ Y) <= size (D ∖ X).
Proof. intros H. apply subseteq_size. intros x [H1 H2]%elem_of_difference. apply elem_of_difference. split; [done|]. intros H3. by apply H2, H. Qed.

Lemma difference_grows_strictly (D X Y : gset str) x : X ⊆ Y -> x ∈ Y -> x ∈ D -> x ∉ X -> size (D ∖ Y) < size (D ∖ X).
Proof.
  intros H HY HD HX. apply subset_size. split.
  - intros z [H1 H2]%elem_of_difference. apply elem_of_difference. split; [done|]. intros H3. by apply H2, H.
  - intros S. assert (x ∈ D ∖ Y) as [_ ?]%elem_of_difference by (apply S, elem_of_difference; done). done.
Qed.

Lemma strict_witness (X Y : gset str) : X ⊂ Y -> exists x, x ∈ Y /\ x ∉ X.
Proof.
  intros [H1 H2]. destruct (set_choose_or_empty (Y ∖ X)) as [[x Hx]|E].
  - apply elem_of_difference in Hx. by exists x.
  - exfalso. apply H2. intros x Hx. destruct (decide (x ∈ X)) as [?|N]; [done|]. exfalso. apply (not_elem_of_empty (C := gset str) x).
    rewrite <- E. by apply elem_of_difference.
Qed.

Lemma extends_missing C C' : sound C -> sound C' -> extends (C, false) (C', true) -> missing C' < missing C.
Proof.
  intros I I' E. pose proof (ext_names _ _ E) as N. pose proof (ext_binds _ _ E) as B. cbn in N, B. unfold missing.
  destruct (ext_grows _ _ E eq_refl) as [?|[G|G]]; [done|..]; cbn in G; destruct (strict_witness _ _ G) as (x & H1 & H2).
  - assert (H3 : x ∈ dom (declByName T)).
    { destruct (proj1 (elem_of_union _ _ _) (names_bounded _ I' x H1)) as [H|H]; [|done]. exfalso. by apply H2, (seed_names _ I). }
    pose proof (difference_grows_strictly _ _ _ x N H1 H3 H2). pose proof (difference_grows (dom (bindByKey T)) _ _ B). lia.
  - pose proof (difference_grows_strictly _ _ _ x B H1 (binds_bounded _ I' x H1) H2). pose proof (difference_grows (dom (declByName T)) _ _ N). lia.
Qed.

Lemma closure_loop_ok fuel C : closing C -> missing C < fuel ->
  exists C', closure_loop order T fuel C = Some C' /\ closing C' /\ complete C'.
Proof.
  revert C. induction fuel as [|f IH]; intros C I M; [lia|]. cbn. destruct (closure_pass_ok C I) as (C' & changed & E & I' & X & D).
  rewrite E. cbn. destruct changed.
  - destruct (IH C' I') as (C'' & H & ?); [|by exists C'']. pose proof (extends_missing C C' (proj1 I) (proj1 I') X). lia.
  - exists C'. split_and!; [done|done|by apply D].
Qed.

(** A complete state holds all that is reachable. *)
Lemma complete_carried C x : closing C -> complete C -> carried T seed x ->
  match x with Named n => n ∈ carryNames C | Bound k => k ∈ carryBindKeys C | Typed t => t ∈ reachableTypes C end.
Proof.
  intros [I _] (C1 & C2 & C3). induction 1 as [n H|n H|k d ref _ IH Hd Hr|k d ref _ IH Hd Hr S|k d ref _ IH Hd Hr|k d ref _ IH Hd Hr S
    |k base Hb _ IH|k bases base _ IH Hb Hx].
  - by apply (seed_names _ I).
  - by apply (seed_types _ I).
  - by apply (C1 k d).
  - by apply (C1 k d).
  - by apply (C2 k d).
  - by apply (C2 k d).
  - apply C3 with base; [|done|done]. apply elem_of_elements, elem_of_dom. by eexists.
  - by eapply (bases_closed _ I).
Qed.

Lemma import_closure_ok : exists N B, import_closure order T seed = Some (N, B)
  /\ (forall n, n ∈ N <-> carried T seed (Named n)) /\ (forall k, k ∈ B <-> carried T seed (Bound k)).
Proof.
  unfold import_closure. set (C0 := mkClosure seed ∅ seed ∅ ∅ ∅).
  assert (I0 : closing C0).
  { split; split; cbn; try done; try (by intros ? ?%not_elem_of_empty); try (by intros ? ? ?%not_elem_of_empty);
      [apply carried_seed|apply carried_seed_type|apply union_subseteq_l]. }
  destruct (closure_loop_ok (closure_fuel T) C0 I0) as (C & E & I & D).
  { unfold missing, closure_fuel, C0. cbn. pose proof (subseteq_size (dom (declByName T) ∖ seed) (dom (declByName T)) ltac:(apply subseteq_difference_l; done)).
    pose proof (subseteq_size (dom (bindByKey T) ∖ ∅) (dom (bindByKey T)) ltac:(apply subseteq_difference_l; done)). rewrite !size_dom in *. lia. }
  rewrite E. cbn. exists (carryNames C), (carryBindKeys C). split_and!; [done|..].
  - intros n. split; [apply (names_carried _ (proj1 I))|]. apply (complete_carried C (Named n) I D).
  - intros k. split; [apply (binds_carried _ (proj1 I))|]. apply (complete_carried C (Bound k) I D).
Qed.
End Exact.

(** ** The tables of a module *)

Lemma dom_emplace {V} k (v : V) m : dom m ⊆ dom (emplace k v m) /\ k ∈ dom (emplace k v m).
Proof.
  unfold emplace. destruct (m !! k) eqn:E; [split; [done|apply elem_of_dom; by eexists]|]. rewrite dom_insert. set_solver.
Qed.

Lemma add_declaration_bases T d : dom (bindSelfBase T) ⊆ dom (bindByKey T) ->
  dom (bindSelfBase (add_declaration T d)) ⊆ dom (bindByKey (add_declaration T d)).
Proof.
  intros H. destruct d as [d|]; [|done]. unfold add_declaration.
  destruct d; try done; try (destruct (declarationName _); done). destruct (declarationName _) as [|c bk]; [done|]. cbn.
  match goal with |- context [emplace ?k ?v ?m] => destruct (dom_emplace k v m) as [D1 D2] end.
  destruct (baseTypeName _) as [|x base]; [by etrans|]. rewrite dom_insert. apply union_subseteq. split; [|by etrans].
  by apply singleton_subseteq_l.
Qed.

Lemma body_tables_bases body : dom (bindSelfBase (body_tables body)) ⊆ dom (bindByKey (body_tables body)).
Proof.
  unfold body_tables. assert (G : forall l T, dom (bindSelfBase T) ⊆ dom (bindByKey T) ->
    dom (bindSelfBase (foldl add_declaration T l)) ⊆ dom (bindByKey (foldl add_declaration T l))).
  { induction l as [|d l IH]; intros T H; [done|]. cbn. by apply IH, add_declaration_bases. }
  by apply G.
Qed.

(** C6: an import carries exactly what it needs. Whatever the declarations of
    a module and the names asked for, and in whatever order the hash tables are
    walked, the scan ends, the names it carries are those reachable from the
    names asked for through mentions in declarations and in the bodies of binds,
    and the binds it carries are those whose self type is reachable. *)
Theorem import_closure_exact order body seed : (forall X, order X ≡ₚ elements X) ->
  exists N B, import_closure order (body_tables body) seed = Some (N, B)
    /\ (forall n, n ∈ N <-> carried (body_tables body) seed (Named n))
    /\ (forall k, k ∈ B <-> carried (body_tables body) seed (Bound k)).
Proof. intros H. apply import_closure_ok; [done|apply body_tables_bases]. Qed.

(** [f] calls [g], which mentions the type [P]; [P] has a bind whose method calls [h]; nothing mentions [k]. *)
Definition sample_body : list (option Statement) :=
  let n := mkNode (mkLoc [] 1 1) 0 in
  let i s := mkIdentifier n s in
  let ty s := Some (TypeName n (Some (i s)) []) in
  let fn s r body := mkFunction n (Some (i s)) [] [] (Some (mkBlock n [Some (ExpressionStatement n body)])) false false false r 0 in
  let call s := Some (CallExpression n (Some (IdentifierExpr (i s))) [] []) in
  [Some (FunctionDeclaration (fn $"f" None (call $"g"))); Some (FunctionDeclaration (fn $"g" (ty $"P") None));
   Some (BindDeclaration n None [] (ty $"Show") (ty $"P") [] [Some (fn $"show" None (call $"h"))]);
   Some (FunctionDeclaration (fn $"h" None None)); Some (FunctionDeclaration (fn $"k" None None))].

Lemma import_closure_exact_witness :
  (fun r => (elements r.1, elements r.2)) <$> import_closure elements (body_tables sample_body) {[$"f"]}
    = Some ([$"h"; $"g"; $"f"], [$"bind:P:Show"])
  /\ exists N B, import_closure elements (body_tables sample_body) {[$"f"]} = Some (N, B)
    /\ (forall n, n ∈ N <-> carried (body_tables sample_body) {[$"f"]} (Named n))
    /\ (forall k, k ∈ B <-> carried (body_tables sample_body) {[$"f"]} (Bound k)).
Proof. split; [vm_compute; reflexivity|]. apply import_closure_exact. reflexivity. Defined.
