(* ===== verification/Registry.v ===== *)
(** * The module registry (src/module_registry.cpp, include/vyb/module_registry.hpp)

    [resolveModule] parses a module, resolves what it imports, and copies the
    declarations it imports into its body. The file system, the environment and
    [std::filesystem]'s view of them are the parameter [FileSystem]; the order in
    which a hash table is walked is the parameter [order]. [Registry] is the
    object's state with the node counter; a computation of the registry returns
    or throws and leaves a state either way, and [None] means that the fuel ran
    out. *)

From S2P Require Import Prelude.
From S2P Require Import Token.
From S2P Require Import Lexer.
From S2P Require Import Ast.
From S2P Require Import AstText.
From S2P Require Import AstTypes.
From S2P Require Import ParserMonad.
From S2P Require Import ModuleParser.
From S2P Require Import AstCopy.
From S2P Require Import Splice.
From S2P Require Import ModuleSource.
From S2P Require Import Closure.

(** ** Paths *)

(** What the registry asks of the operating system. [None] is an error code. *)
Record FileSystem : Type := mkFileSystem {
  absolute : str -> option str;
  weakly_canonical : str -> option str;
  lexically_normal : str -> str;
  is_file : str -> bool;       (* [fs::exists(p) && fs::is_regular_file(p)] *)
  is_dir : str -> bool;        (* [fs::exists(p) && fs::is_directory(p)] *)
  read_file : str -> option str;
  env_stdlib : option str;     (* VYB_STDLIB *)
  env_module_path : option str (* VYB_MODULE_PATH *)
}.

Definition is_slash (c : ascii) : bool := c =c "/".
Definition is_absolute (p : str) : bool := match p with c :: _ => is_slash c | [] => false end.

(** [fs::path::operator/] on POSIX paths. *)
Definition path_join (a b : str) : str :=
  if is_absolute b then b
  else match last a with Some c => if is_slash c then a ++ b else a ++ $"/" ++ b | None => b end.

(** The text after the last slash, and what stands before it. *)
Definition file_name (p : str) : str := rev (take_while (fun c => negb (is_slash c)) (rev p)).
Definition dir_part (p : str) : str := rev (drop_while (fun c => negb (is_slash c)) (rev p)).

(** A root is its own parent; otherwise the slashes in front of the name go. *)
Definition parent_path (p : str) : str :=
  let d := dir_part p in
  match rev (drop_while is_slash (rev d)) with
  | [] => match d with [] => [] | _ => $"/" end
  | q => q
  end.

(** Where the extension starts: the last dot of the name, unless it is its
    first character or the name is [..]. *)
Definition stem_and_extension (name : str) : str * str :=
  if (name =s $".") || (name =s $"..") then (name, [])
  else let before := rev (drop_while (fun c => negb (c =c ".")) (rev name)) in
       match before with
       | [] | [_] => (name, [])
       | _ => (removelast before, drop (length before - 1) name)
       end.
Definition path_stem (p : str) : str := (stem_and_extension (file_name p)).1.
Definition has_extension (p : str) : bool := match (stem_and_extension (file_name p)).2 with [] => false | _ => true end.

(** The elements a path is iterated by: the root, then the names; a slash at
    the end is an empty name. *)
Fixpoint path_names (name p : str) : list str :=
  match p with
  | [] => [name]
  | c :: p' =>
      if is_slash c then match name with [] => path_names [] p' | _ => name :: path_names [] p' end
      else path_names (name ++ [c]) p'
  end.
Definition path_elements (p : str) : list str :=
  match p with
  | [] => []
  | c :: p' =>
      if is_slash c then $"/" :: (match path_names [] p' with [[]] => [] | l => l end) else path_names [] p
  end.

(** The segments between [::], joined; empty ones are skipped. *)
Fixpoint module_segments (segment text relative : str) : str :=
  match text with
  | c :: ((d :: text') as rest) =>
      if (c =c ":") && (d =c ":")
      then module_segments [] text' (match segment with [] => relative | _ => path_join relative segment end)
      else module_segments (segment ++ [c]) rest relative
  | [c] => path_join relative (segment ++ [c])
  | [] => match segment with [] => relative | _ => path_join relative segment end
  end.

Definition modulePathRelativeFile (modulePath : str) : str :=
  let relative := module_segments [] modulePath [] in
  if has_extension relative then relative else relative ++ $".vyb".

(** ** State *)

Inductive ModuleState : Type := Unresolved | Parsing | Resolved | Failed.

#[export] Instance ModuleState_eq_dec : EqDecision ModuleState.
Proof. solve_decision. Defined.

Record ModuleRecord : Type := mkRecord {
  key : str;
  sourcePath : str;
  module : option Module_;
  importedModuleKeys : list str;
  state : ModuleState;
  importSpelling : str;
  record_bundles : list str;
  record_shares : gmap str (list str)
}.

Definition ModuleRecord_new : ModuleRecord := mkRecord [] [] None [] Unresolved [] [] ∅.

Record ModuleRegistryOptions : Type := mkOptions {
  cliModulePaths : list str;
  executablePath : str;
  skipImportResolution : bool;
  privilegedModules : list str
}.

Record Registry : Type := mkRegistry {
  records_ : gmap str ModuleRecord;
  activeStack_ : list str; (* its back is the head *)
  topologicalOrder_ : list str;
  moduleKeyByName_ : gmap str str;
  effectiveScope_ : gmap str (gset str);
  exports_ : gmap str (gset str);
  allNames_ : gmap str (gset str);
  namespaces_ : gmap str (gmap str (gmap str str));
  node_count : Z
}.

Definition ModuleRegistry_new (counter : Z) : Registry := mkRegistry ∅ [] [] ∅ ∅ ∅ ∅ ∅ counter.

Definition reg (A : Type) : Type := Registry -> option (outcome A * Registry).

#[export] Instance reg_ret : MRet reg := fun A a R => Some (Ok a, R).
#[export] Instance reg_bind : MBind reg := fun A B k m R =>
  match m R with
  | Some (Ok a, R') => k a R'
  | Some (Throw e, R') => Some (Throw e, R')
  | None => None
  end.

Definition raise {A} (e : exn) : reg A := fun R => Some (Throw e, R).
Definition raise_runtime {A} (m : str) : reg A := raise (runtime_error m).
Definition of_outcome {A} (o : outcome A) : reg A := fun R => Some (o, R).
Definition gets {A} (f : Registry -> A) : reg A := fun R => Some (Ok (f R), R).
Definition modify (f : Registry -> Registry) : reg () := fun R => Some (Ok tt, f R).

Definition set_records (f : gmap str ModuleRecord -> gmap str ModuleRecord) (R : Registry) : Registry :=
  mkRegistry (f (records_ R)) (activeStack_ R) (topologicalOrder_ R) (moduleKeyByName_ R) (effectiveScope_ R) (exports_ R)
    (allNames_ R) (namespaces_ R) (node_count R).
Definition set_stack (f : list str -> list str) (R : Registry) : Registry :=
  mkRegistry (records_ R) (f (activeStack_ R)) (topologicalOrder_ R) (moduleKeyByName_ R) (effectiveScope_ R) (exports_ R)
    (allNames_ R) (namespaces_ R) (node_count R).
Definition set_order (f : list str -> list str) (R : Registry) : Registry :=
  mkRegistry (records_ R) (activeStack_ R) (f (topologicalOrder_ R)) (moduleKeyByName_ R) (effectiveScope_ R) (exports_ R)
    (allNames_ R) (namespaces_ R) (node_count R).
Definition set_owner (f : gmap str str -> gmap str str) (R : Registry) : Registry :=
  mkRegistry (records_ R) (activeStack_ R) (topologicalOrder_ R) (f (moduleKeyByName_ R)) (effectiveScope_ R) (exports_ R)
    (allNames_ R) (namespaces_ R) (node_count R).
Definition set_scope (f : gmap str (gset str) -> gmap str (gset str)) (R : Registry) : Registry :=
  mkRegistry (records_ R) (activeStack_ R) (topologicalOrder_ R) (moduleKeyByName_ R) (f (effectiveScope_ R)) (exports_ R)
    (allNames_ R) (namespaces_ R) (node_count R).
Definition set_exports (f : gmap str (gset str) -> gmap str (gset str)) (R : Registry) : Registry :=
  mkRegistry (records_ R) (activeStack_ R) (topologicalOrder_ R) (moduleKeyByName_ R) (effectiveScope_ R) (f (exports_ R))
    (allNames_ R) (namespaces_ R) (node_count R).
Definition set_all_names (f : gmap str (gset str) -> gmap str (gset str)) (R : Registry) : Registry :=
  mkRegistry (records_ R) (activeStack_ R) (topologicalOrder_ R) (moduleKeyByName_ R) (effectiveScope_ R) (exports_ R)
    (f (allNames_ R)) (namespaces_ R) (node_count R).
Definition set_namespaces (f : gmap str (gmap str (gmap str str)) -> gmap str (gmap str (gmap str str))) (R : Registry) : Registry :=
  mkRegistry (records_ R) (activeStack_ R) (topologicalOrder_ R) (moduleKeyByName_ R) (effectiveScope_ R) (exports_ R)
    (allNames_ R) (f (namespaces_ R)) (node_count R).
Definition set_count (c : Z) (R : Registry) : Registry :=
  mkRegistry (records_ R) (activeStack_ R) (topologicalOrder_ R) (moduleKeyByName_ R) (effectiveScope_ R) (exports_ R)
    (allNames_ R) (namespaces_ R) c.

(** Nodes are made with the registry's counter. *)
Definition making {A} (m : alloc A) : reg A := fun R => let '(a, c) := m (node_count R) in Some (Ok a, set_count c R).

(** [map[k].insert(names)] *)
Definition insert_names (k : str) (X : gset str) (m : gmap str (gset str)) : gmap str (gset str) :=
  <[k := default ∅ (m !! k) ∪ X]> m.

Definition update_record (k : str) (f : ModuleRecord -> ModuleRecord) : reg () :=
  modify (set_records (fun m => <[k := f (default ModuleRecord_new (m !! k))]> m)).

Definition set_state (s : ModuleState) (r : ModuleRecord) : ModuleRecord :=
  mkRecord (key r) (sourcePath r) (module r) (importedModuleKeys r) s (importSpelling r) (record_bundles r) (record_shares r).
Definition set_module (m : option Module_) (r : ModuleRecord) : ModuleRecord :=
  mkRecord (key r) (sourcePath r) m (importedModuleKeys r) (state r) (importSpelling r) (record_bundles r) (record_shares r).
Definition set_shares (f : gmap str (list str) -> gmap str (list str)) (r : ModuleRecord) : ModuleRecord :=
  mkRecord (key r) (sourcePath r) (module r) (importedModuleKeys r) (state r) (importSpelling r) (record_bundles r) (f (record_shares r)).
Definition set_imported (f : list str -> list str) (r : ModuleRecord) : ModuleRecord :=
  mkRecord (key r) (sourcePath r) (module r) (f (importedModuleKeys r)) (state r) (importSpelling r) (record_bundles r) (record_shares r).

Definition add_to_shares (k : str) (name : str) (v : list str) : reg () := update_record k (set_shares <[name := v]>).

(** ** The registry's operations *)

Section ModuleRegistry.
Context (FS : FileSystem) (options : ModuleRegistryOptions).
Context (args_ltr c23_strtoll device : bool).
Context (order : gset str -> list str).

Definition normalizePath (p : str) : str :=
  let a := match absolute FS p with Some a => a | None => p end in
  match weakly_canonical FS a with Some n => n | None => lexically_normal FS a end.

(** An error leaves an empty path. *)
Definition canonical_or_empty (p : str) : str :=
  default [] (weakly_canonical FS (default [] (absolute FS p))).

Fixpoint elements_under (p root : list str) : bool :=
  match p, root with
  | _, [] => true
  | [], _ :: _ => false
  | a :: p', b :: root' => (a =s b) && elements_under p' root'
  end.
Definition pathIsUnder (p root : str) : bool :=
  elements_under (path_elements (canonical_or_empty p)) (path_elements (canonical_or_empty root)).

Definition discoverStdlibRoot : option str :=
  let probe :=
    match executablePath options with
    | [] => None
    | exe =>
        let exeDir := parent_path (normalizePath exe) in
        let p1 := normalizePath (path_join (path_join exeDir $"..") $"stdlib") in
        let p2 := normalizePath (path_join exeDir $"stdlib") in
        if is_dir FS p1 then Some p1 else if is_dir FS p2 then Some p2 else None
    end in
  match env_stdlib FS with
  | Some v => match trimCopy v with [] => probe | value => Some (normalizePath value) end
  | None => probe
  end.

(** Paths in order, each once. *)
Fixpoint distinct (seen : list str) (l : list str) : list str :=
  match l with
  | [] => []
  | p :: l' => if bool_decide (p ∈ seen) then distinct seen l' else p :: distinct (p :: seen) l'
  end.

(** [std::getline(stream, segment, ':')] *)
Fixpoint colon_segments (segment text : str) : list str :=
  match text with
  | [] => match segment with [] => [] | _ => [segment] end
  | c :: rest => if c =c ":" then segment :: colon_segments [] rest else colon_segments (segment ++ [c]) rest
  end.

Definition buildConfiguredSearchPaths : list str :=
  distinct [] (map normalizePath
    (cliModulePaths options
     ++ match env_module_path FS with
        | Some v => filter (fun s => s <> []) (map trimCopy (colon_segments [] v))
        | None => []
        end
     ++ match discoverStdlibRoot with Some r => [r] | None => [] end)).

Definition buildSearchRoots (importingFile : str) : list str :=
  distinct [] (map normalizePath (parent_path importingFile :: buildConfiguredSearchPaths)).

Record Import : Type := mkImport {
  import_node : Node;
  import_kind : ImportKind;
  import_source : option StringLit;
  import_locator : option StringLit;
  import_specifiers : list ImportSpecifier;
  import_default : option Identifier;
  import_namespace : option Identifier
}.

Definition import_text (i : Import) : str :=
  Statement_toString (ImportDeclaration (import_node i) (import_kind i) (import_source i) (import_locator i) (import_specifiers i)
    (import_default i) (import_namespace i)).

Record ResolvedImportPath : Type := mkImportPath {
  resolvedPath : str;
  path_spelling : str;
  path_line : Z;
  importerFile : str
}.

Definition not_found (spelling importer : str) (ln : Z) (tried : list str) : exn :=
  runtime_error ($"Module file not found for import '" ++ spelling ++ $"' from " ++ importer ++ $":" ++ to_string ln
    ++ [ch_nl] ++ $"Tried paths:" ++ concat (map (fun p => [ch_nl] ++ $" - " ++ p) tried)).

(** The candidates of the roots, in the order they are tried. *)
Definition import_candidates (relative : str) (roots : list str) : list str :=
  concat (map (fun root => [normalizePath (path_join root relative);
                            normalizePath (path_join (path_join (path_join root (parent_path relative)) (path_stem relative)) $"mod.vyb")]) roots).

Fixpoint find_text (p s : str) : bool :=
  match s with
  | [] => match p with [] => true | _ => false end
  | _ :: s' => match strip_prefix p s with Some _ => true | None => find_text p s' end
  end.

Definition resolveImportPath (i : Import) (importingFile : str) : outcome ResolvedImportPath :=
  match import_source i with
  | None => throw_runtime $"Malformed import declaration"
  | Some src =>
      match import_default i with
      | Some _ => throw_runtime ($"Unsupported import form: default imports are not yet supported (" ++ import_text i ++ $")")
      | None =>
          let spelling := import_text i in
          let ln := line (loc (import_node i)) in
          let search (candidates : list str) :=
            match List.find (is_file FS) candidates with
            | Some p => Ok (mkImportPath p spelling ln importingFile)
            | None => Throw (not_found spelling importingFile ln candidates)
            end in
          match import_locator i with
          | Some l =>
              if find_text $"://" (str_value l)
              then throw_runtime ($"Unsupported import locator protocol in '" ++ spelling ++ $"'")
              else search [normalizePath (if is_absolute (str_value l) then str_value l
                                          else path_join (parent_path importingFile) (str_value l))]
          | None => search (import_candidates (modulePathRelativeFile (str_value src)) (buildSearchRoots importingFile))
          end
      end
  end.

Definition readSourceFile (p : str) : outcome str :=
  match read_file FS p with
  | Some s => Ok s
  | None => throw_runtime ($"Could not read imported module: " ++ p)
  end.

Definition core_aspects : list str := [$"Display"; $"Debug"; $"Clone"; $"Equatable"; $"Hashable"; $"Comparable"].
Definition scalar_targets : list str := [$"Int"; $"Float"; $"Bool"; $"String"].

Definition in_list (s : str) (l : list str) : bool := existsb (streq s) l.

Definition core_conflict (s : option Statement) : bool :=
  match s with
  | Some (ImportDeclaration _ _ (Some src) _ _ _ _) => in_list (str_value src) [$"core::aspects"; $"core::prelude"; $"prelude"]
  | Some (AspectDeclaration _ (Some i) _ _ _ _ _ _) => in_list (name i) core_aspects
  | Some (BindDeclaration _ _ _ (Some tr) (Some self) _ _) =>
      in_list (TypeNode_toString self) scalar_targets && in_list (TypeNode_toString tr) core_aspects
  | _ => false
  end.
Definition moduleHasCoreAutoImportConflict (m : Module_) : bool := existsb core_conflict (module_body m).

Definition sharesAllow (shares importerBundles : list str) : bool :=
  existsb (fun s => (s =s $"all") || in_list s importerBundles) shares.

Definition declarationVisible (n : str) (imported : ModuleRecord) (importerBundles : list str) (kind : ImportKind) : bool :=
  match kind with
  | Smuggle => true
  | TrustedImport => match record_shares imported !! n with Some shares => sharesAllow shares importerBundles | None => false end
  end.

(** ** Splicing *)

(** What [resolveModule] keeps while it goes through the statements. *)
Record Local : Type := mkLocal {
  seenNames : gset str;
  seenOrigins : gmap str str;
  resolvedBody : list (option Statement);
  ownStmtIndices : list nat;
  localNamespaces : gmap str (gmap str str);
  importIndex : nat
}.

Definition Local_new : Local := mkLocal ∅ ∅ [] [] ∅ 0.

Definition see (n origin : str) (s : option Statement) (L : Local) : Local :=
  mkLocal ({[n]} ∪ seenNames L) (<[n := origin]> (seenOrigins L)) (resolvedBody L ++ [s]) (ownStmtIndices L) (localNamespaces L) (importIndex L).
Definition bind_namespace (ns : str) (m : gmap str str) (L : Local) : Local :=
  mkLocal (seenNames L) (seenOrigins L) (resolvedBody L) (ownStmtIndices L) (<[ns := m]> (localNamespaces L)) (importIndex L).
Definition next_import (L : Local) : Local :=
  mkLocal (seenNames L) (seenOrigins L) (resolvedBody L) (ownStmtIndices L) (localNamespaces L) (S (importIndex L)).

(** One import being spliced. [sp_closure] is there when [closureComputed]. *)
Record Splicing : Type := mkSplicing {
  sp_current : str;
  sp_bundles : list str;
  sp_kind : ImportKind;
  sp_namespace : str;
  sp_path : ResolvedImportPath;
  sp_imported : ModuleRecord;
  sp_share : list str;
  sp_closure : option (gset str * gset str);
  sp_requested : gset str;
  sp_renames : gmap str str;
  sp_private : gmap str str
}.

Definition isNamespaceImport (sp : Splicing) : bool := negb (sp_namespace sp =s []).

Definition declaringOrigin (currentKey n : str) : reg str := gets (fun R => default currentKey (moduleKeyByName_ R !! n)).

Definition at_import (p : ResolvedImportPath) : str :=
  $"' while importing '" ++ path_spelling p ++ $"' from " ++ importerFile p ++ $":" ++ to_string (path_line p).

(** An inherited share, or the one in front of the import. *)
Definition carryShare (sp : Splicing) (originName localName : str) : reg () :=
  match record_shares (sp_imported sp) !! originName with
  | Some v => add_to_shares (sp_current sp) localName v
  | None => match sp_share sp with [] => mret tt | v => add_to_shares (sp_current sp) localName v end
  end.

Definition splice_bind (sp : Splicing) (b : option Statement) (trait : option TypeNode) (L : Local) : reg Local :=
  match declarationName b with
  | [] => mret L
  | bindKey =>
      let bindTrait := match trait with Some t => TypeNode_toString t | None => [] end in
      let bindRequested := bool_decide (sp_requested sp = ∅)
        || (negb (bindTrait =s []) && bool_decide (bindTrait ∈ sp_requested sp)) in
      let bindClosureCarried := match sp_closure sp with Some (_, B) => bool_decide (bindKey ∈ B) | None => false end in
      if negb bindRequested && negb bindClosureCarried then mret L
      else if negb bindClosureCarried && negb (declarationVisible bindKey (sp_imported sp) (sp_bundles sp) (sp_kind sp)) then mret L
      else
        o ← declaringOrigin (sp_current sp) bindKey;
        if bool_decide (bindKey ∈ seenNames L) then
          if bindClosureCarried || (default [] (seenOrigins L !! bindKey) =s o) then mret L
          else raise_runtime ($"Duplicate bind after splice: '" ++ bindKey ++ at_import (sp_path sp))
        else
          _ ← carryShare sp bindKey bindKey;
          c ← making (cloneSplicedStmt args_ltr b);
          mret (see bindKey o c L)
  end.

(** [if (!renameDeclaration(...)) throw ...] *)
Definition renamed (s : option Statement) (newName failure : str) : reg (option Statement) :=
  match renameDeclaration s newName with Some s' => mret s' | None => raise_runtime failure end.

(** The alias of a requested name: the copy, its name, and what is still asked for. *)
Definition apply_alias (sp : Splicing) (n : str) (copy : option Statement) (requested : gset str) : reg (option Statement * str * gset str) :=
  if bool_decide (requested = ∅) then mret (copy, n, requested)
  else match sp_renames sp !! n with
       | Some local =>
           if local =s n then mret (copy, n, requested ∖ {[n]})
           else
             copy' ← renamed copy local ($"Cannot alias imported declaration '" ++ n ++ $"' from " ++ sourcePath (sp_imported sp));
             mret (copy', local, requested ∖ {[n]})
       | None => mret (copy, n, requested ∖ {[n]})
       end.

(** A name that collides takes an identity of its own, and the references follow. *)
Definition apply_private (sp : Splicing) (originName n : str) (copy : option Statement) : reg (option Statement * str) :=
  if isNamespaceImport sp then mret (copy, n)
  else
    '(copy, n) ← (match (if isPrivateMangledName n then None else sp_private sp !! originName) with
                  | Some p =>
                      copy' ← renamed copy p ($"Cannot give declaration '" ++ originName ++ $"' from " ++ sourcePath (sp_imported sp)
                                              ++ $" a module-local identity");
                      mret (copy', p)
                  | None => mret (copy, n)
                  end : reg (option Statement * str));
    copy ← making (mangleBareStmt (sp_private sp) copy);
    mret (copy, n).

Definition duplicate_text (sp : Splicing) (n : str) : str := $"Duplicate symbol after splice: '" ++ n ++ at_import (sp_path sp).

(** The loop's other variables: [requestedNames] and [namespaceMangled]. *)
Definition Splice_state : Type := (Local * gset str * gmap str str)%type.

Definition splice_namespace (sp : Splicing) (originName o : str) (copy : option Statement) (L : Local) (requested : gset str) (ns : gmap str str)
    : reg Splice_state :=
  let mangled := mangledNamespaceName (sp_namespace sp) originName in
  copy ← renamed copy mangled ($"Cannot mangle namespace import '" ++ originName ++ $"' from " ++ sourcePath (sp_imported sp));
  copy ← making (mangleBareStmt ns copy);
  if bool_decide (mangled ∈ seenNames L) then raise_runtime (duplicate_text sp mangled)
  else
    _ ← carryShare sp originName mangled;
    mret (see mangled o copy L, requested, <[originName := mangled]> ns).

Definition splice_declaration (sp : Splicing) (s : option Statement) (st : Splice_state) : reg Splice_state :=
  let '(L, requested, ns) := st in
  match declarationName s with
  | [] => mret st
  | originName =>
      let carries := match sp_closure sp with Some (N, _) => bool_decide (originName ∈ N) | None => true end in
      let closureCarry := match sp_closure sp with Some _ => negb (bool_decide (originName ∈ requested)) | None => false end in
      if negb carries then mret st
      else if negb closureCarry && negb (declarationVisible originName (sp_imported sp) (sp_bundles sp) (sp_kind sp)) then mret st
      else
        copy ← making (cloneSplicedStmt args_ltr s);
        '(copy, n, requested) ← apply_alias sp originName copy requested;
        '(copy, n) ← apply_private sp originName n copy;
        o ← declaringOrigin (sp_current sp) originName;
        if bool_decide (n ∈ seenNames L) then
          if isPrivateMangledName n || bool_decide (seenOrigins L !! n = Some o) then mret (L, requested, ns)
          else if negb (bool_decide (sp_requested sp = ∅)) && negb (bool_decide (is_Some (sp_renames sp !! originName)))
          then mret (L, requested, ns)
          else raise_runtime (duplicate_text sp n ++ $" -- already defined by " ++ default $"(unknown)" (seenOrigins L !! n)
                              ++ $", also defined by " ++ o)
        else if isNamespaceImport sp then splice_namespace sp originName o copy L requested ns
        else
          _ ← carryShare sp originName n;
          mret (see n o copy L, requested, ns)
  end.

Definition splice_statement (sp : Splicing) (s : option Statement) (st : Splice_state) : reg Splice_state :=
  if isMainFunction s
  then raise_runtime ($"Imported module must not define main(): " ++ sourcePath (sp_imported sp))
  else match s with
       | Some (BindDeclaration _ _ _ tr _ _ _) =>
           let '(L, requested, ns) := st in
           L' ← splice_bind sp s tr L; mret (L', requested, ns)
       | _ => splice_declaration sp s st
       end.

Fixpoint splice_statements (sp : Splicing) (body : list (option Statement)) (st : Splice_state) : reg Splice_state :=
  match body with [] => mret st | s :: body' => st' ← splice_statement sp s st; splice_statements sp body' st' end.

(** ** One import *)

(** The namespace an import binds, if it does. *)
Fixpoint namespace_of (currentKey nsName : str) (specifiers : list ImportSpecifier) : outcome str :=
  match specifiers with
  | [] => Ok nsName
  | s :: l =>
      match importedName s with
      | None =>
          namespace_of currentKey
            (match localName s with Some i => if nsName =s [] then name i else nsName | None => nsName end) l
      | Some _ =>
          match nsName with
          | [] => namespace_of currentKey nsName l
          | _ => throw_runtime ($"Module resolution error in " ++ currentKey ++ $": cannot combine a namespace alias with an import list")
          end
      end
  end.

(** [requestedRenames]; its keys are [requestedNames]. A specifier without a
    name is dereferenced. *)
Fixpoint requested_renames (specifiers : list ImportSpecifier) (m : gmap str str) : outcome (gmap str str) :=
  match specifiers with
  | [] => Ok m
  | s :: l =>
      match importedName s with
      | None => Throw (undefined_behaviour $"specifier.importedName->name")
      | Some i => requested_renames l (<[name i := match localName s with Some j => name j | None => name i end]> m)
      end
  end.

(** What the importer may name afterwards, and what it exports. *)
Definition grant (currentKey importedKey : str) (kind : ImportKind) (importShare : list str) (renames : gmap str str)
    (closure : option (gset str * gset str)) : reg () :=
  exported ← gets (fun R => default ∅ (exports_ R !! importedKey));
  everything ← gets (fun R => default ∅ (allNames_ R !! importedKey));
  let isSmuggle := match kind with Smuggle => true | TrustedImport => false end in
  let shares := negb (bool_decide (importShare = [])) && negb isSmuggle in
  let scope := fun X => modify (set_scope (insert_names currentKey X)) in
  let export := fun X => if shares then modify (set_exports (insert_names currentKey X)) else mret tt in
  if bool_decide (renames = ∅) then
    let granted := if isSmuggle then everything else exported in
    _ ← scope granted; export granted
  else
    let granted := map_to_set (fun _ local => local) (filter (fun p => isSmuggle || bool_decide (p.1 ∈ exported)) renames) : gset str in
    _ ← scope granted;
    _ ← export granted;
    match closure with
    | Some (N, _) => scope ((N ∖ dom renames) ∩ exported)
    | None => mret tt
    end.

(** The symbols a namespace exposes, each with its mangled name. *)
Definition namespace_symbols (nsName : str) (imported : ModuleRecord) (bundles_ : list str) (kind : ImportKind)
    (body : list (option Statement)) : gmap str str :=
  foldl (fun m s =>
    match s with
    | None | Some (BindDeclaration _ _ _ _ _ _ _) => m
    | Some _ =>
        if isMainFunction s then m
        else foldl (fun m n => if declarationVisible n imported bundles_ kind then <[n := mangledNamespaceName nsName n]> m else m)
               m (collectDeclarationNames s)
    end) ∅ body.

(** Names the importer has already, from another module. *)
Definition private_names (currentKey : str) (L : Local) (owner : gmap str str) (body : list (option Statement)) : gmap str str :=
  let origin n := default currentKey (owner !! n) in
  foldl (fun m s =>
    match s with
    | None | Some (ImportDeclaration _ _ _ _ _ _ _) => m
    | Some _ =>
        if isMainFunction s then m
        else foldl (fun m n =>
               if isPrivateMangledName n then m
               else match seenOrigins L !! n with
                    | Some o => if bool_decide (n ∈ seenNames L) && negb (o =s origin n)
                                then <[n := privateMangledName (origin n) n]> m else m
                    | None => m
                    end) m (collectDeclarationNames s)
    end) ∅ body.

(** An error inside the imported module, seen from the import. *)
Definition located_error (p : ResolvedImportPath) (e : exn) : exn :=
  match e with
  | undefined_behaviour _ => e
  | runtime_error m | out_of_range m | invalid_argument m =>
      if find_text $"Parse error inside module" m
      then runtime_error (m ++ $" (import '" ++ path_spelling p ++ $"' from " ++ importerFile p ++ $":" ++ to_string (path_line p) ++ $")")
      else e
  end.

Definition rethrowing {A} (f : exn -> exn) (m : reg A) : reg A := fun R =>
  match m R with Some (Throw e, R') => Some (Throw (f e), R') | r => r end.

Definition privileged_error (n : str) : str :=
  $"Package '" ++ n ++ $"' is privileged (freedom): consume it through smuggle, e.g. `smuggle " ++ n ++ $" as <alias>`, not `import` (#204)".

Definition is_trusted (k : ImportKind) : bool := match k with TrustedImport => true | Smuggle => false end.

(** [records_.at(importedKey)] *)
Definition record_at (k : str) : reg ModuleRecord := fun R =>
  match records_ R !! k with Some r => Some (Ok r, R) | None => Some (Throw (out_of_range $"unordered_map::at"), R) end.

Definition not_exported (sp : Splicing) (missing : str) : str :=
  $"Imported symbol '" ++ missing ++ $"' is not exported by " ++ sourcePath (sp_imported sp) ++ $" (from '"
  ++ path_spelling (sp_path sp) ++ $"' at " ++ importerFile (sp_path sp) ++ $":" ++ to_string (path_line (sp_path sp)) ++ $")".

Section Import.
Context (resolve : str -> str -> str -> reg str). (** [resolveModule] *)

Definition splice_import (sp : Splicing) (body : list (option Statement)) (L : Local) : reg Local :=
  let ns := if isNamespaceImport sp then namespace_symbols (sp_namespace sp) (sp_imported sp) (sp_bundles sp) (sp_kind sp) body else ∅ in
  '(L, requested, ns) ← splice_statements sp body (L, sp_requested sp, ns);
  match order requested with
  | missing :: _ => raise_runtime (not_exported sp missing)
  | [] => mret (if isNamespaceImport sp then bind_namespace (sp_namespace sp) ns L else L)
  end.

Definition import_module (currentKey currentPath : str) (bundles_ : list str) (importShare : list str) (nsName : str) (i : Import) (L : Local)
    : reg Local :=
  p ← of_outcome (resolveImportPath i currentPath);
  let src := match import_source i with Some s => str_value s | None => [] end in
  _ ← (if is_trusted (import_kind i) && in_list src (privilegedModules options) then raise_runtime (privileged_error src) else mret tt);
  text ← of_outcome (readSourceFile (resolvedPath p));
  importedKey ← rethrowing (located_error p) (resolve text (resolvedPath p) (path_spelling p));
  _ ← update_record currentKey (set_imported (fun l => l ++ [importedKey]));
  imported ← record_at importedKey;
  renames ← of_outcome (requested_renames (import_specifiers i) ∅);
  exported ← gets (fun R => default ∅ (exports_ R !! importedKey));
  let isNs := negb (nsName =s []) in
  let seed := if bool_decide (renames = ∅) then exported else dom renames in
  closure ← (match module imported with
             | Some m => if isNs then mret None
                         else fun R => match import_closure order (body_tables (module_body m)) seed with
                                       | Some r => Some (Ok (Some r), R)
                                       | None => None
                                       end
             | None => mret None
             end : reg (option (gset str * gset str)));
  _ ← (if isNs then mret tt else grant currentKey importedKey (import_kind i) importShare renames closure);
  match module imported with
  | None => mret L
  | Some m =>
      owner ← gets moduleKeyByName_;
      let priv := if isNs then ∅ else private_names currentKey L owner (module_body m) in
      splice_import
        (mkSplicing currentKey bundles_ (import_kind i) nsName p imported importShare closure (dom renames) renames priv) (module_body m) L
  end.

(** ** One module *)

Definition own_statement (currentKey : str) (s : option Statement) (L : Local) : Local :=
  let '(names, origins) :=
    match declarationName s with
    | [] => (seenNames L, seenOrigins L)
    | n => ({[n]} ∪ seenNames L, <[n := currentKey]> (seenOrigins L))
    end in
  mkLocal names origins (resolvedBody L ++ [s]) (ownStmtIndices L ++ [length (resolvedBody L)]) (localNamespaces L) (importIndex L).

Definition module_statement (currentKey currentPath : str) (bundles_ : list str) (shares : list (list str)) (s : option Statement) (L : Local)
    : reg Local :=
  match s with
  | Some (ImportDeclaration n k src l sp d ns) =>
      let importShare := default [] (shares !! importIndex L) in
      let L := next_import L in
      nsName ← of_outcome (namespace_of currentKey (name_or_empty ns) sp);
      if skipImportResolution options then mret (own_statement currentKey s L)
      else import_module currentKey currentPath bundles_ importShare nsName (mkImport n k src l sp d ns) L
  | _ => mret (own_statement currentKey s L)
  end.

Fixpoint module_statements (currentKey currentPath : str) (bundles_ : list str) (shares : list (list str)) (body : list (option Statement))
    (L : Local) : reg Local :=
  match body with
  | [] => mret L
  | s :: body' => L' ← module_statement currentKey currentPath bundles_ shares s L; module_statements currentKey currentPath bundles_ shares body' L'
  end.

Definition what (e : exn) : str :=
  match e with runtime_error m | out_of_range m | invalid_argument m | undefined_behaviour m => m end.

Definition parse_error (k : str) (e : exn) : exn :=
  match e with undefined_behaviour _ => e | _ => runtime_error ($"Parse error inside module '" ++ k ++ $"': " ++ what e) end.

Definition parse_source (text k : str) : reg Module_ := fun R =>
  match tokenize text k with
  | None => None
  | Some (Throw e) => Some (Throw e, R)
  | Some (Ok tokens) =>
      match parse_tokens args_ltr c23_strtoll tokens k (node_count R) with
      | Some (Return m st) => Some (Ok m, set_count (node_counter st) R)
      | Some (Raise e st) => Some (Throw e, set_count (node_counter st) R)
      | None => None
      end
  end.

(** The module's own names: its scope, and their owner. *)
Definition register_names (currentKey : str) (body : list (option Statement)) : reg () :=
  let names := concat (map collectDeclarationNames body) in
  _ ← modify (set_scope (insert_names currentKey (list_to_set names)));
  modify (set_owner (fun m => foldl (fun m n => <[n := currentKey]> m) m names)).

Definition core_import : alloc (option Statement) :=
  let l := mkLoc [] 1 1 in
  s ← new_node l; n ← new_node l;
  mret (Some (ImportDeclaration n TrustedImport (Some (mkStringLit s $"core::aspects")) None [] None None)).

(** The import of the core aspects goes in front, with an empty share. *)
Definition with_core (currentPath : str) (meta : SourceMetadata) (m : Module_) : reg (list (option Statement) * list (list str)) :=
  let underStdlib := match discoverStdlibRoot with Some root => pathIsUnder currentPath root | None => false end in
  if coreAutoImport meta && negb underStdlib && negb (moduleHasCoreAutoImportConflict m) then
    i ← making core_import;
    mret (i :: module_body m, [] :: importShares meta)
  else mret (module_body m, importShares meta).

(** The module's own statements, rewritten for its namespaces. *)
Fixpoint rewrite_own (indices : list nat) (ns : gmap str (gmap str str)) (body : list (option Statement)) : alloc (list (option Statement)) :=
  match indices with
  | [] => mret body
  | i :: l =>
      match body !! i with
      | Some s => s' ← opt_copy (rewriteNamespaceRawStmt ns) s; rewrite_own l ns (<[i := s']> body)
      | None => rewrite_own l ns body
      end
  end.

Definition finish_module (currentKey : str) (m : Module_) (L : Local) : reg () :=
  _ ← modify (set_namespaces (fun all => if bool_decide (localNamespaces L = ∅) then all
                                         else <[currentKey := localNamespaces L ∪ default ∅ (all !! currentKey)]> all));
  body ← making (if bool_decide (localNamespaces L = ∅) then mret (resolvedBody L)
                 else rewrite_own (ownStmtIndices L) (localNamespaces L) (resolvedBody L));
  _ ← modify (set_all_names <[currentKey := list_to_set (concat (map collectDeclarationNames body))]>);
  _ ← update_record currentKey (fun r => set_state Resolved (set_module (Some (mkModule (module_node m) body)) r));
  modify (set_order (fun l => l ++ [currentKey])).

(** The body of the [try] in [resolveModule]. *)
Definition resolve_parsed (currentKey currentPath text : str) : reg () :=
  meta ← of_outcome (preprocessModuleSource device text);
  m ← rethrowing (parse_error currentKey) (parse_source (source meta) currentKey);
  _ ← update_record currentKey (fun r => mkRecord (key r) (sourcePath r) (module r) [] (state r) (importSpelling r) (bundles meta) (sharesByName meta));
  _ ← register_names currentKey (module_body m);
  _ ← modify (set_exports (fun all => if bool_decide (sharesByName meta = ∅) then all else insert_names currentKey (dom (sharesByName meta)) all));
  '(body, shares) ← with_core currentPath meta m;
  L ← module_statements currentKey currentPath (bundles meta) shares body Local_new;
  finish_module currentKey m L.
End Import.

(** The chain from the first time the module was entered. *)
Definition cycle_text (currentKey : str) (stack : list str) : str :=
  concat (map (fun k => [ch_nl] ++ $" - " ++ k) (drop_while (fun k => negb (k =s currentKey)) (rev stack) ++ [currentKey])).

Definition cycle_error (currentKey spelling : str) (stack : list str) : exn :=
  runtime_error ($"Circular import detected while resolving module '" ++ currentKey ++ $"' (from '" ++ spelling
    ++ $"'). Dependency chain:" ++ cycle_text currentKey stack).

(** [catch (...)] marks the module and leaves the stack as it was. *)
Definition resolve_guarded (currentKey : str) (m : reg ()) : reg str := fun R =>
  match m R with
  | Some (Ok _, R') => Some (Ok currentKey, set_stack tail R')
  | Some (Throw e, R') =>
      Some (Throw e, set_stack tail (set_records (fun all => <[currentKey := set_state Failed (default ModuleRecord_new (all !! currentKey))]> all) R'))
  | None => None
  end.

Fixpoint resolveModule (fuel : nat) (text path spelling : str) : reg str :=
  match fuel with
  | O => fun _ => None
  | S f =>
      let currentPath := normalizePath path in
      let currentKey := currentPath in
      _ ← update_record currentKey (fun r =>
            mkRecord currentKey currentPath (module r) (importedModuleKeys r) (state r) spelling (record_bundles r) (record_shares r));
      r ← record_at currentKey;
      match state r with
      | Resolved => mret currentKey
      | Parsing => stack ← gets activeStack_; raise (cycle_error currentKey spelling stack)
      | Failed => raise_runtime ($"Module previously failed to resolve: " ++ currentKey)
      | Unresolved =>
          _ ← update_record currentKey (set_state Parsing);
          _ ← modify (set_stack (cons currentKey));
          resolve_guarded currentKey (resolve_parsed (resolveModule f) currentKey currentPath text)
      end
  end.

(** The root's module leaves its record. *)
Definition resolveRoot (fuel : nat) (text fileName : str) : reg Module_ :=
  rootKey ← resolveModule fuel text fileName $"<root>";
  R ← gets (fun R => records_ R !! rootKey);
  match R ≫= module with
  | Some m => _ ← update_record rootKey (set_module None); mret m
  | None => raise_runtime ($"Module resolution failed for root module: " ++ rootKey)
  end.
End ModuleRegistry.
