(* ===== verification/RegistryProps.v ===== *)
(** * Module resolution ends, dependencies first

    [resolveModule] calls itself through the imports of the module it is in. The
    theorems: on a file system with finitely many files it returns or throws
    whatever the import graph; the order it leaves lists every module once and
    after all it imports; and the stack of modules being resolved is what it was.
    Then what resolution does to some programs. *)

From S2P Require Import Prelude.
From S2P Require Import Token.
From S2P Require Import Lexer.
From S2P Require Import LexerProps.
From S2P Require Import Ast.
From S2P Require Import AstText.
From S2P Require Import ParserMonad.
From S2P Require Import ModuleParser.
From S2P Require Import ModuleProps.
From S2P Require Import AstCopy.
From S2P Require Import Splice.
From S2P Require Import ModuleSource.
From S2P Require Import Closure.
From S2P Require Import Registry.

(** ** States *)

Definition state_of (R : Registry) (k : str) : ModuleState := match records_ R !! k with Some r => state r | None => Unresolved end.
Definition deps_of (R : Registry) (k : str) : list str := match records_ R !! k with Some r => importedModuleKeys r | None => [] end.

(** The stack holds the modules being parsed, the order those resolved, and a
    module's imports are resolved before it. *)
Record registry_wf (R : Registry) : Prop := {
  stack_distinct : NoDup (activeStack_ R);
  stack_parsing k : state_of R k = Parsing <-> k ∈ activeStack_ R;
  order_distinct : NoDup (topologicalOrder_ R);
  order_resolved k : state_of R k = Resolved <-> k ∈ topologicalOrder_ R;
  deps_resolved k d : d ∈ deps_of R k -> d ∈ topologicalOrder_ R;
  deps_before k d l1 l2 : topologicalOrder_ R = l1 ++ k :: l2 -> d ∈ deps_of R k -> d ∈ l1
}.

Lemma registry_wf_new c : registry_wf (ModuleRegistry_new c).
Proof.
  assert (S : forall k, state_of (ModuleRegistry_new c) k = Unresolved) by (intros k; unfold state_of; cbn; by rewrite lookup_empty).
  split.
  - constructor.
  - intros k. rewrite S. by split; [|intros ?%elem_of_nil].
  - constructor.
  - intros k. rewrite S. by split; [|intros ?%elem_of_nil].
  - intros k d. unfold deps_of. cbn. rewrite lookup_empty. by intros ?%elem_of_nil.
  - intros k d l1 l2 H. by destruct l1.
Qed.

(** From one state to a later one. *)
Record later (R R' : Registry) : Prop := {
  later_stack : activeStack_ R' = activeStack_ R;
  later_order : exists new, topologicalOrder_ R' = topologicalOrder_ R ++ new;
  later_state k : state_of R k <> Unresolved -> state_of R' k = state_of R k;
  later_wf : registry_wf R -> registry_wf R'
}.

Lemma later_refl R : later R R.
Proof. split; try done. exists []. by rewrite app_nil_r. Qed.

Lemma later_trans R1 R2 R3 : later R1 R2 -> later R2 R3 -> later R1 R3.
Proof.
  intros [A1 [n1 A2] A3 A4] [B1 [n2 B2] B3 B4]. split.
  - congruence.
  - exists (n1 ++ n2). by rewrite B2, A2, app_assoc.
  - intros k H. rewrite B3; [by apply A3|]. by rewrite A3.
  - auto.
Qed.

(** The same modules in the same states. *)
Record same_modules (R R' : Registry) : Prop := {
  same_stack : activeStack_ R' = activeStack_ R;
  same_order : topologicalOrder_ R' = topologicalOrder_ R;
  same_state k : state_of R' k = state_of R k;
  same_deps k : deps_of R' k = deps_of R k
}.

Lemma same_refl R : same_modules R R.
Proof. done. Qed.
Lemma same_trans R1 R2 R3 : same_modules R1 R2 -> same_modules R2 R3 -> same_modules R1 R3.
Proof. intros [A1 A2 A3 A4] [B1 B2 B3 B4]. split; congruence. Qed.

Lemma same_later R R' : same_modules R R' -> later R R'.
Proof.
  intros [S1 S2 S3 S4]. split; [done|exists []; by rewrite app_nil_r|intros k _; apply S3|].
  intros [W1 W2 W3 W4 W5 W6]. split; rewrite ?S1, ?S2; try done.
  - intros k. by rewrite S3.
  - intros k. by rewrite S3.
  - intros k d. rewrite S4. apply W5.
  - intros k d l1 l2. rewrite S4. apply W6.
Qed.

(** ** Computations that leave the modules alone *)

Definition quiet {A} (m : reg A) : Prop := forall R, exists o R', m R = Some (o, R') /\ same_modules R R'.

Lemma quiet_ret {A} (a : A) : quiet (mret a).
Proof. intros R. by eexists _, R. Qed.
Lemma quiet_bind {A B} (m : reg A) (k : A -> reg B) : quiet m -> (forall a, quiet (k a)) -> quiet (m ≫= k).
Proof.
  intros Hm Hk R. unfold mbind, reg_bind. destruct (Hm R) as ([a|e] & R' & -> & S); [|by eexists _, R'].
  destruct (Hk a R') as (o & R'' & E & S'). exists o, R''. split; [done|by eapply same_trans].
Qed.
Lemma bind_ok {A B} (m : reg A) (k : A -> reg B) R a R' : m R = Some (Ok a, R') -> (m ≫= k) R = k a R'.
Proof. intros E. unfold mbind, reg_bind. by rewrite E. Qed.
Lemma bind_throw {A B} (m : reg A) (k : A -> reg B) R e R' : m R = Some (Throw e, R') -> (m ≫= k) R = Some (Throw e, R').
Proof. intros E. unfold mbind, reg_bind. by rewrite E. Qed.
Lemma quiet_raise {A} e : quiet (raise (A := A) e).
Proof. intros R. by eexists _, R. Qed.
Lemma quiet_outcome {A} (o : outcome A) : quiet (of_outcome o).
Proof. intros R. by eexists _, R. Qed.
Lemma quiet_gets {A} (f : Registry -> A) : quiet (gets f).
Proof. intros R. by eexists _, R. Qed.
Lemma quiet_making {A} (m : alloc A) : quiet (making m).
Proof. intros R. unfold making. destruct (m (node_count R)) as [a c]. by eexists _, _. Qed.
Lemma quiet_modify f : (forall R, same_modules R (f R)) -> quiet (modify f).
Proof. intros H R. by eexists _, _. Qed.
Lemma quiet_rethrowing {A} f (m : reg A) : quiet m -> quiet (rethrowing f m).
Proof. intros H R. unfold rethrowing. destruct (H R) as ([a|e] & R' & -> & S); by eexists _, R'. Qed.

Lemma lookup_update (k : str) (f : ModuleRecord -> ModuleRecord) (m : gmap str ModuleRecord) (k' : str) : <[k := f (default ModuleRecord_new (m !! k))]> m !! k'
  = if decide (k = k') then Some (f (default ModuleRecord_new (m !! k))) else m !! k'.
Proof. case_decide; [subst; apply lookup_insert_eq|by apply lookup_insert_ne]. Qed.

Lemma state_of_update (k : str) (f : ModuleRecord -> ModuleRecord) R k' : state_of (set_records (fun m => <[k := f (default ModuleRecord_new (m !! k))]> m) R) k'
  = if decide (k = k') then state (f (default ModuleRecord_new (records_ R !! k))) else state_of R k'.
Proof. unfold state_of. cbn. rewrite lookup_update. by case_decide. Qed.
Lemma deps_of_update (k : str) (f : ModuleRecord -> ModuleRecord) R k' : deps_of (set_records (fun m => <[k := f (default ModuleRecord_new (m !! k))]> m) R) k'
  = if decide (k = k') then importedModuleKeys (f (default ModuleRecord_new (records_ R !! k))) else deps_of R k'.
Proof. unfold deps_of. cbn. rewrite lookup_update. by case_decide. Qed.

Lemma default_state R k : state (default ModuleRecord_new (records_ R !! k)) = state_of R k.
Proof. unfold state_of. by destruct (records_ R !! k). Qed.
Lemma default_deps R k : importedModuleKeys (default ModuleRecord_new (records_ R !! k)) = deps_of R k.
Proof. unfold deps_of. by destruct (records_ R !! k). Qed.

Lemma quiet_update k f : (forall r, state (f r) = state r /\ importedModuleKeys (f r) = importedModuleKeys r) -> quiet (update_record k f).
Proof.
  intros H. apply quiet_modify. intros R. split; try done.
  - intros k'. rewrite state_of_update. case_decide; [subst|done]. by rewrite (proj1 (H _)), default_state.
  - intros k'. rewrite deps_of_update. case_decide; [subst|done]. by rewrite (proj2 (H _)), default_deps.
Qed.

Create HintDb quiet discriminated.
#[export] Hint Resolve quiet_ret quiet_raise quiet_outcome quiet_gets quiet_making : quiet.

(** Goes through a computation, splitting on what it splits on. *)
Ltac quiet_steps :=
  repeat first
    [ progress intros
    | apply quiet_bind
    | solve [auto with quiet]
    | apply quiet_raise
    | apply quiet_update; done
    | apply quiet_modify; done
    | match goal with |- quiet (match ?x with _ => _ end) => destruct x end
    | match goal with |- quiet (if ?x then _ else _) => destruct x end
    | progress cbn beta iota zeta ].

Section Quiet.
Context (FS : FileSystem) (options : ModuleRegistryOptions) (args_ltr c23_strtoll device : bool) (order : gset str -> list str).

Lemma quiet_carryShare sp a b : quiet (carryShare sp a b).
Proof. unfold carryShare, add_to_shares. quiet_steps. Qed.
Lemma quiet_renamed s n f : quiet (renamed s n f).
Proof. unfold renamed, raise_runtime. quiet_steps. Qed.
Hint Resolve quiet_carryShare quiet_renamed : quiet.

Lemma quiet_splice_bind sp b tr L : quiet (splice_bind args_ltr sp b tr L).
Proof. unfold splice_bind, raise_runtime, declaringOrigin. quiet_steps. Qed.
Lemma quiet_apply_alias sp n c r : quiet (apply_alias sp n c r).
Proof. unfold apply_alias. quiet_steps. Qed.
Lemma quiet_apply_private sp o n c : quiet (apply_private sp o n c).
Proof. unfold apply_private. quiet_steps. Qed.
Lemma quiet_splice_namespace sp on o c L r ns : quiet (splice_namespace sp on o c L r ns).
Proof. unfold splice_namespace, raise_runtime. quiet_steps. Qed.
Hint Resolve quiet_splice_bind quiet_apply_alias quiet_apply_private quiet_splice_namespace : quiet.

Lemma quiet_splice_declaration sp s st : quiet (splice_declaration args_ltr sp s st).
Proof. unfold splice_declaration, raise_runtime, declaringOrigin. quiet_steps. Qed.
Hint Resolve quiet_splice_declaration : quiet.
Lemma quiet_splice_statement sp s st : quiet (splice_statement args_ltr sp s st).
Proof. unfold splice_statement, raise_runtime. quiet_steps. Qed.
Hint Resolve quiet_splice_statement : quiet.
Lemma quiet_splice_statements sp body st : quiet (splice_statements args_ltr sp body st).
Proof. revert st. induction body as [|s body IH]; intros st; cbn; quiet_steps; apply IH. Qed.
Hint Resolve quiet_splice_statements : quiet.
Lemma quiet_splice_import sp body L : quiet (splice_import args_ltr order sp body L).
Proof. unfold splice_import, raise_runtime. quiet_steps. Qed.
Lemma quiet_grant ck ik k sh rn cl : quiet (grant ck ik k sh rn cl).
Proof. unfold grant. quiet_steps. Qed.
Lemma quiet_register ck body : quiet (register_names ck body).
Proof. unfold register_names. quiet_steps. Qed.
Lemma quiet_with_core p md m : quiet (with_core FS options p md m).
Proof. unfold with_core. quiet_steps. Qed.

Lemma quiet_record_at k : quiet (record_at k).
Proof. intros R. unfold record_at. destruct (records_ R !! k); by eexists _, R. Qed.

Lemma quiet_parse text k : quiet (parse_source args_ltr c23_strtoll text k).
Proof.
  intros R. unfold parse_source. destruct (tokenize_terminates text k) as [[tokens|e] E]; rewrite E; [|by eexists _, R].
  pose proof (parse_tokens_outcome args_ltr c23_strtoll tokens k (node_count R) (fun i => tokenize_closed _ _ _ i E)) as O.
  destruct (parse_tokens _ _ _ _ _) as [[m st|e st]|]; [by eexists _, _|by eexists _, _|done].
Qed.
End Quiet.

(** ** One module being resolved *)

(** The modules among [K] that resolution has not reached. *)
Definition unresolved (K : list str) (R : Registry) : nat := length (filter (fun k => state_of R k = Unresolved) K).

Lemma filter_length_le {A} (P Q : A -> Prop) `{forall x, Decision (P x)} `{forall x, Decision (Q x)} (l : list A) :
  (forall x, P x -> Q x) -> length (filter P l) <= length (filter Q l).
Proof.
  intros H2. induction l as [|x l IH]; [done|]. rewrite !filter_cons.
  destruct (decide (P x)) as [p|p], (decide (Q x)) as [q|q]; cbn; try lia. destruct (q (H2 _ p)).
Qed.

Lemma filter_length_lt {A} (P Q : A -> Prop) `{forall x, Decision (P x)} `{forall x, Decision (Q x)} (l : list A) y :
  (forall x, P x -> Q x) -> y ∈ l -> Q y -> ~ P y -> length (filter P l) < length (filter Q l).
Proof.
  intros H2 Hy HQ HP. induction l as [|x l IH]; [by apply elem_of_nil in Hy|]. rewrite !filter_cons.
  pose proof (filter_length_le P Q l H2). apply elem_of_cons in Hy as [->|Hy].
  - rewrite decide_False, decide_True by done. cbn. lia.
  - specialize (IH Hy). destruct (decide (P x)) as [p|p], (decide (Q x)) as [q|q]; cbn; try lia. destruct (q (H2 _ p)).
Qed.

Lemma later_unresolved K R R' : later R R' -> unresolved K R' <= unresolved K R.
Proof.
  intros L. apply filter_length_le. intros k U. destruct (decide (state_of R k = Unresolved)) as [|N]; [done|].
  by rewrite (later_state _ _ L _ N) in U.
Qed.

Lemma later_resolved R R' k : later R R' -> k ∈ topologicalOrder_ R -> k ∈ topologicalOrder_ R'.
Proof. intros [_ [n E] _ _] H. rewrite E. apply elem_of_app. by left. Qed.

(** While the module [cur] is being resolved, with fewer than [n] modules to go. *)
Section Running.
Context (K : list str) (n : nat) (cur : str).

Record running (R : Registry) : Prop := {
  running_wf : registry_wf R;
  running_parsing : state_of R cur = Parsing;
  running_few : unresolved K R < n
}.

Lemma running_later R R' : running R -> later R R' -> running R'.
Proof.
  intros [W P F] L. split; [by apply (later_wf _ _ L)|by rewrite (later_state _ _ L) by (by rewrite P)|].
  pose proof (later_unresolved K R R' L). lia.
Qed.

(** It returns or throws, and what was resolved stays so. *)
Definition runs {A} (m : reg A) : Prop := forall R, running R -> exists o R', m R = Some (o, R') /\ later R R'.

Lemma runs_quiet {A} (m : reg A) : quiet m -> runs m.
Proof. intros Q R _. destruct (Q R) as (o & R' & E & S). exists o, R'. split; [done|by apply same_later]. Qed.

Lemma runs_then {A B} (m : reg A) (k : A -> reg B) : runs m -> (forall a, runs (k a)) -> runs (m ≫= k).
Proof.
  intros Hm Hk R I. unfold mbind, reg_bind. destruct (Hm R I) as ([a|e] & R' & -> & L); [|by eexists _, R'].
  destruct (Hk a R' (running_later _ _ I L)) as (o & R'' & E & L'). exists o, R''. split; [done|by eapply later_trans].
Qed.

(** The import's key goes to the end of what the module imports. *)
Lemma later_import R d : running R -> d ∈ topologicalOrder_ R ->
  later R (set_records (fun m => <[cur := set_imported (fun l => l ++ [d]) (default ModuleRecord_new (m !! cur))]> m) R).
Proof.
  intros [[W1 W2 W3 W4 W5 W6] P _] Hd.
  assert (S : forall k, state_of (set_records (fun m => <[cur := set_imported (fun l => l ++ [d]) (default ModuleRecord_new (m !! cur))]> m) R) k
                        = state_of R k).
  { intros k. rewrite state_of_update. case_decide; [subst|done]. cbn. by rewrite default_state. }
  split; [done|exists []; by rewrite app_nil_r|by intros k _|]. intros _. split; try done.
  - intros k. by rewrite S.
  - intros k. by rewrite S.
  - intros k d' H. rewrite deps_of_update in H. case_decide; [subst|by eapply W5]. cbn in H. rewrite default_deps in H.
    apply elem_of_app in H as [H| ->%list_elem_of_singleton]; [by eapply W5|done].
  - intros k d' l1 l2 O H. cbn in O. rewrite deps_of_update in H. case_decide as C; [|by eapply W6]. exfalso.
    assert (Rk : state_of R k = Resolved) by (apply W4; rewrite O; apply elem_of_app; right; apply elem_of_cons; by left).
    by rewrite <- C, P in Rk.
Qed.

(** The imports are forgotten when the source has been read. *)
Lemma runs_forget f : (forall r, state (f r) = state r /\ importedModuleKeys (f r) = []) -> runs (update_record cur f).
Proof.
  intros F R [[W1 W2 W3 W4 W5 W6] P _]. eexists _, _. split; [done|].
  assert (S : forall k, state_of (set_records (fun m => <[cur := f (default ModuleRecord_new (m !! cur))]> m) R) k = state_of R k).
  { intros k. rewrite state_of_update. case_decide; [subst|done]. by rewrite (proj1 (F _)), default_state. }
  split; [done|exists []; by rewrite app_nil_r|by intros k _|]. intros _. split; try done.
  - intros k. by rewrite S.
  - intros k. by rewrite S.
  - intros k d' H. rewrite deps_of_update in H. case_decide; [|by eapply W5]. rewrite (proj2 (F _)) in H. by apply elem_of_nil in H.
  - intros k d' l1 l2 O H. cbn in O. rewrite deps_of_update in H. case_decide as C; [|by eapply W6].
    rewrite (proj2 (F _)) in H. by apply elem_of_nil in H.
Qed.
End Running.

Section Resolve.
Context (FS : FileSystem) (options : ModuleRegistryOptions) (args_ltr c23_strtoll device : bool) (order : gset str -> list str).
Context (elem_of_order : forall X, order X ≡ₚ elements X).
Context (K : list str) (files_known : forall p, is_file FS p = true -> normalizePath FS p ∈ K).

(** What a nested resolution does, when fewer than [n] modules are left. *)
Definition resolve_ok (n : nat) (resolve : str -> str -> str -> reg str) : Prop :=
  forall text path spelling R, registry_wf R -> unresolved K R < n -> normalizePath FS path ∈ K ->
  exists o R', resolve text path spelling R = Some (o, R') /\ later R R' /\ forall k, o = Ok k -> k ∈ topologicalOrder_ R'.

Lemma resolveImportPath_file i f p : resolveImportPath FS options i f = Ok p -> is_file FS (resolvedPath p) = true.
Proof.
  unfold resolveImportPath, throw_runtime. intros H.
  repeat match type of H with
         | (match List.find ?P ?l with _ => _ end) = _ => destruct (List.find P l) eqn:Fd
         | (match ?x with _ => _ end) = _ => destruct x
         end; try discriminate; injection H as <-; cbn; by apply List.find_some in Fd as [_ ?].
Qed.

Lemma quiet_closure body seed (wanted : bool) :
  quiet (if wanted then mret None else fun R => match import_closure order (body_tables body) seed with
                                                | Some r => Some (Ok (Some r), R) | None => None end).
Proof.
  destruct wanted; [apply quiet_ret|].
  destruct (import_closure_ok order elem_of_order (body_tables body) seed (body_tables_bases body)) as (N & B & E & _).
  intros R. rewrite E. by eexists _, R.
Qed.

Section Nested.
Context (resolve : str -> str -> str -> reg str) (n : nat) (resolves : resolve_ok n resolve) (cur : str).

Lemma runs_resolve f text path spelling (k : str -> reg Local) : normalizePath FS path ∈ K -> (forall d, runs K n cur (k d)) ->
  runs K n cur (d ← rethrowing f (resolve text path spelling); _ ← update_record cur (set_imported (fun l => l ++ [d])); k d).
Proof.
  intros HK Hk R I. destruct (resolves text path spelling R (running_wf _ _ _ _ I) (running_few _ _ _ _ I) HK) as (o & R1 & E & L1 & D).
  unfold mbind, reg_bind, rethrowing. rewrite E. destruct o as [d|e]; [|by eexists _, R1].
  pose proof (running_later _ _ _ _ _ I L1) as I1.
  unfold update_record, modify. pose proof (later_import K n cur R1 d I1 (D d eq_refl)) as L2.
  destruct (Hk d _ (running_later _ _ _ _ _ I1 L2)) as (o & R3 & E3 & L3). exists o, R3. split; [done|].
  eapply later_trans; [exact L1|]. by eapply later_trans.
Qed.

Lemma runs_outcome {A B} (o : outcome A) (k : A -> reg B) : (forall a, o = Ok a -> runs K n cur (k a)) -> runs K n cur (of_outcome o ≫= k).
Proof.
  intros H R I. unfold mbind, reg_bind, of_outcome. destruct o as [a|e]; [by apply H|]. exists (Throw e), R. split; [done|apply later_refl].
Qed.

Lemma runs_import path bundles shares ns i L :
  runs K n cur (import_module FS options args_ltr order resolve cur path bundles shares ns i L).
Proof.
  unfold import_module. apply runs_outcome. intros p Hp.
  apply runs_then; [apply runs_quiet; unfold raise_runtime; quiet_steps|intros []].
  apply runs_outcome. intros text _. apply runs_resolve; [by apply files_known, (resolveImportPath_file i path)|].
  intros d. apply runs_quiet. apply quiet_bind; [apply quiet_record_at|intros imported].
  apply quiet_bind; [auto with quiet|intros renames]. apply quiet_bind; [auto with quiet|intros exported].
  apply quiet_bind; [destruct (module imported); [apply quiet_closure|auto with quiet]|intros closure].
  apply quiet_bind; [destruct (negb _); [auto with quiet|apply quiet_grant]|intros _].
  destruct (module imported); [|auto with quiet]. apply quiet_bind; [auto with quiet|intros owner]. apply quiet_splice_import.
Qed.

Lemma runs_statements path bundles shares body L :
  runs K n cur (module_statements FS options args_ltr order resolve cur path bundles shares body L).
Proof.
  revert L. induction body as [|s body IH]; intros L; cbn [module_statements]; [apply runs_quiet; auto with quiet|].
  apply runs_then; [|done]. unfold module_statement.
  destruct s as [[]|]; try (apply runs_quiet; auto with quiet; fail).
  apply runs_outcome. intros ns _. destruct (skipImportResolution options); [apply runs_quiet; auto with quiet|apply runs_import].
Qed.
End Nested.

Lemma list_snoc_or {A} (l : list A) : l = [] \/ exists l' x, l = l' ++ [x].
Proof. induction l as [|x l _] using rev_ind; [by left|]. right. by exists l, x. Qed.

(** The module leaves the stack, resolved or failed. *)
Record leaves (cur : str) (s : ModuleState) (R R' : Registry) : Prop := {
  leaves_stack : activeStack_ R' = tail (activeStack_ R);
  leaves_order : topologicalOrder_ R' = topologicalOrder_ R ++ (if decide (s = Resolved) then [cur] else []);
  leaves_state k : state_of R' k = if decide (cur = k) then s else state_of R k;
  leaves_deps k : deps_of R' k = deps_of R k
}.

Lemma leaves_wf cur s st R R' : leaves cur s R R' -> s = Resolved \/ s = Failed -> activeStack_ R = cur :: st ->
  registry_wf R -> registry_wf R'.
Proof.
  intros [L1 L2 L3 L4] Hs Est W. pose proof (stack_distinct _ W) as N. rewrite Est in L1, N. cbn in L1.
  apply NoDup_cons in N as [Nc N]. pose proof (order_distinct _ W) as O.
  assert (P : state_of R cur = Parsing) by (apply (stack_parsing _ W); rewrite Est; by apply elem_of_cons; left).
  assert (Nc' : cur ∉ topologicalOrder_ R) by (intros H%(order_resolved _ W); by rewrite P in H).
  split.
  - by rewrite L1.
  - intros k. rewrite L1, L3. destruct (decide (cur = k)) as [<-|C]; [split; [intros ->; by destruct Hs|done]|].
    rewrite (stack_parsing _ W), Est, elem_of_cons. split; [by intros [?|?]|by right].
  - rewrite L2. destruct (decide (s = Resolved)); [|by rewrite app_nil_r]. apply NoDup_app. split_and!; [done| |apply NoDup_singleton].
    by intros x Hx ->%list_elem_of_singleton.
  - intros k. rewrite L2, L3, elem_of_app, <- (order_resolved _ W).
    destruct (decide (cur = k)) as [<-|C], (decide (s = Resolved)) as [S|S].
    + split; [by right; apply list_elem_of_singleton|done].
    + split; [done|]. intros [H|H%elem_of_nil]; [|done]. by rewrite P in H.
    + split; [by left|]. by intros [?| ->%list_elem_of_singleton].
    + split; [by left|]. by intros [?|?%elem_of_nil].
  - intros k d. rewrite L4, L2. intros H%(deps_resolved _ W). apply elem_of_app. by left.
  - intros k d l1 l2. rewrite L2, L4. destruct (decide (s = Resolved)); [|rewrite app_nil_r; apply (deps_before _ W)]. intros E H.
    destruct (list_snoc_or l2) as [->|(l2' & x & ->)].
    + apply app_inj_tail in E as [<- <-]. by apply (deps_resolved _ W) in H.
    + replace (l1 ++ k :: l2' ++ [x]) with ((l1 ++ k :: l2') ++ [x]) in E by (by rewrite <- app_assoc). apply app_inj_tail in E as [E _].
      by eapply (deps_before _ W).
Qed.

(** The module enters the stack. *)
Record enters (cur : str) (R R' : Registry) : Prop := {
  enters_stack : activeStack_ R' = cur :: activeStack_ R;
  enters_order : topologicalOrder_ R' = topologicalOrder_ R;
  enters_state k : state_of R' k = if decide (cur = k) then Parsing else state_of R k;
  enters_deps k : deps_of R' k = deps_of R k
}.

Lemma enters_wf cur R R' : enters cur R R' -> state_of R cur = Unresolved -> registry_wf R -> registry_wf R'.
Proof.
  intros [E1 E2 E3 E4] U [W1 W2 W3 W4 W5 W6]. split.
  - rewrite E1. apply NoDup_cons. split; [|done]. intros H%W2. by rewrite U in H.
  - intros k. rewrite E1, E3, elem_of_cons, <- W2. destruct (decide (cur = k)) as [<-|C]; [split; [by left|done]|].
    split; [by right|]. by intros [?|?].
  - by rewrite E2.
  - intros k. rewrite E2, E3, <- W4. destruct (decide (cur = k)) as [<-|C]; [by rewrite U|done].
  - intros k d. rewrite E2, E4. apply W5.
  - intros k d l1 l2. rewrite E2, E4. apply W6.
Qed.

Lemma enters_running cur n R R' : enters cur R R' -> cur ∈ K -> state_of R cur = Unresolved -> registry_wf R -> unresolved K R < S n ->
  running K n cur R'.
Proof.
  intros E HK U W F. split; [by eapply enters_wf|rewrite (enters_state _ _ _ E); by case_decide|].
  enough (unresolved K R' < unresolved K R) by lia. unfold unresolved. apply filter_length_lt with (y := cur); [|done|done|].
  - intros k. rewrite (enters_state _ _ _ E). by case_decide.
  - rewrite (enters_state _ _ _ E). by case_decide.
Qed.

Lemma enters_leaves cur s R R1 R2 R3 : enters cur R R1 -> later R1 R2 -> leaves cur s R2 R3 -> s = Resolved \/ s = Failed ->
  state_of R cur = Unresolved -> later R R3.
Proof.
  intros E L V Hs U. assert (St : activeStack_ R2 = cur :: activeStack_ R) by (by rewrite (later_stack _ _ L), (enters_stack _ _ _ E)). split.
  - by rewrite (leaves_stack _ _ _ _ V), St.
  - destruct (later_order _ _ L) as [l El]. rewrite (leaves_order _ _ _ _ V), El, (enters_order _ _ _ E). eexists. by rewrite <- app_assoc.
  - intros k N. rewrite (leaves_state _ _ _ _ V). case_decide as C; [by subst|]. rewrite (later_state _ _ L), (enters_state _ _ _ E);
      by rewrite ?(enters_state _ _ _ E), decide_False by done.
  - intros W. eapply leaves_wf; [done|done|done|]. apply (later_wf _ _ L). by eapply enters_wf.
Qed.

(** A computation that ends by making the module resolved. *)
Definition ends (n : nat) (cur : str) (m : reg ()) : Prop := forall R, running K n cur R -> exists o R', m R = Some (o, R') /\
  match o with Ok _ => exists R1, later R R1 /\ leaves cur Resolved R1 (set_stack tail R') | Throw _ => later R R' end.

Lemma ends_bind {A} n cur (m : reg A) (k : A -> reg ()) : runs K n cur m -> (forall a, ends n cur (k a)) -> ends n cur (m ≫= k).
Proof.
  intros Hm Hk R I. unfold mbind, reg_bind. destruct (Hm R I) as ([a|e] & R' & -> & L); [|by eexists _, R'].
  destruct (Hk a R' (running_later _ _ _ _ _ I L)) as (o & R'' & E & H). exists o, R''. split; [done|].
  destruct o as [u|e]; [|by eapply later_trans]. destruct H as (R1 & L1 & V). exists R1. split; [by eapply later_trans|done].
Qed.

Lemma finish_ends n cur m L : ends n cur (finish_module cur m L).
Proof.
  unfold finish_module. apply ends_bind; [apply runs_quiet; quiet_steps|intros _].
  apply ends_bind; [apply runs_quiet; auto with quiet|intros body].
  apply ends_bind; [apply runs_quiet, quiet_modify; done|intros _].
  intros R I. eexists _, _. split; [done|]. exists R. split; [apply later_refl|]. split.
  - done.
  - by rewrite decide_True.
  - intros k. etransitivity; [|apply (state_of_update cur (fun r => set_state Resolved (set_module (Some (mkModule (module_node m) body)) r)) R k)].
    done.
  - intros k. etransitivity; [apply (deps_of_update cur (fun r => set_state Resolved (set_module (Some (mkModule (module_node m) body)) r)) R k)|].
    case_decide; [subst|done]. apply default_deps.
Qed.

Lemma resolve_parsed_ends n cur path text resolve : resolve_ok n resolve ->
  ends n cur (resolve_parsed FS options args_ltr c23_strtoll device order resolve cur path text).
Proof.
  intros Hr. unfold resolve_parsed.
  apply ends_bind; [apply runs_quiet; auto with quiet|intros meta].
  apply ends_bind; [apply runs_quiet, quiet_rethrowing, quiet_parse|intros m].
  apply ends_bind; [by apply runs_forget|intros _].
  apply ends_bind; [apply runs_quiet, quiet_register|intros _].
  apply ends_bind; [apply runs_quiet, quiet_modify; done|intros _].
  apply ends_bind; [apply runs_quiet, quiet_with_core|intros [body shares]].
  apply ends_bind; [by apply runs_statements|intros L]. apply finish_ends.
Qed.

Lemma guarded_ok n cur m R0 R : ends n cur m -> running K n cur R -> enters cur R0 R -> state_of R0 cur = Unresolved ->
  exists o R', resolve_guarded cur m R = Some (o, R') /\ later R0 R'
    /\ forall k, o = Ok k -> k = cur /\ k ∈ topologicalOrder_ R' /\ last (topologicalOrder_ R') = Some cur.
Proof.
  intros Hm I E U. destruct (Hm R I) as ([u|e] & R' & Em & H); unfold resolve_guarded; rewrite Em; eexists _, _; (split; [done|]).
  - destruct H as (R1 & L1 & V). split; [by eapply (enters_leaves cur Resolved R0 R R1); [..|left|]|]. intros k [= <-]. split; [done|].
    rewrite (leaves_order _ _ _ _ V). split; [|apply last_snoc]. apply elem_of_app. right. by apply list_elem_of_singleton.
  - split; [|done]. eapply (enters_leaves cur Failed R0 R R'); [done|done| |by right|done]. split.
    + done.
    + cbn. by rewrite app_nil_r.
    + intros k. etransitivity; [apply (state_of_update cur (set_state Failed) R' k)|]. done.
    + intros k. etransitivity; [apply (deps_of_update cur (set_state Failed) R' k)|]. case_decide; [subst|done]. apply default_deps.
Qed.

(** The module's record is there after its fields have been set. *)
Definition enter_record (k spelling : str) (r : ModuleRecord) : ModuleRecord :=
  mkRecord k k (module r) (importedModuleKeys r) (state r) spelling (record_bundles r) (record_shares r).
Definition entered (k spelling : str) (R : Registry) : Registry :=
  set_records (fun m => <[k := enter_record k spelling (default ModuleRecord_new (m !! k))]> m) R.

Lemma entered_same k spelling R : same_modules R (entered k spelling R).
Proof.
  split; try done; intros k'; unfold entered.
  - rewrite (state_of_update k (enter_record k spelling)). case_decide; [subst; apply default_state|done].
  - rewrite (deps_of_update k (enter_record k spelling)). case_decide; [subst; apply default_deps|done].
Qed.

Lemma entered_record k spelling R : exists r, records_ (entered k spelling R) !! k = Some r /\ state r = state_of R k.
Proof. eexists. split; [cbn; apply lookup_insert_eq|]. cbn. apply default_state. Qed.

Lemma resolveModule_ok n text path spelling R : registry_wf R -> unresolved K R < n -> normalizePath FS path ∈ K ->
  exists o R', resolveModule FS options args_ltr c23_strtoll device order n text path spelling R = Some (o, R')
    /\ later R R' /\ forall k, o = Ok k -> k = normalizePath FS path /\ k ∈ topologicalOrder_ R'
      /\ (state_of R k = Unresolved -> last (topologicalOrder_ R') = Some k).
Proof.
  revert text path spelling R. induction n as [|n IH]; intros text path spelling R W F HK; [lia|].
  cbn [resolveModule]. unfold mbind, reg_bind at 1, update_record at 1, modify at 1.
  change (set_records _ R) with (entered (normalizePath FS path) spelling R).
  set (cur := normalizePath FS path) in *. pose proof (entered_same cur spelling R) as Sm. pose proof (same_later _ _ Sm) as L0.
  destruct (entered_record cur spelling R) as (r & Er & Hr). set (R1 := entered cur spelling R) in *.
  unfold reg_bind at 1, record_at. rewrite Er. destruct (state r) eqn:St.
  - set (f := set_state Parsing). set (R2 := set_stack (cons cur) (set_records (fun m => <[cur := f (default ModuleRecord_new (m !! cur))]> m) R1)).
    assert (E : enters cur R1 R2).
    { split; [done|done|..]; intros k.
      - etransitivity; [apply (state_of_update cur f R1 k)|]. done.
      - etransitivity; [apply (deps_of_update cur f R1 k)|]. case_decide; [subst|done]. apply default_deps. }
    assert (U : state_of R1 cur = Unresolved) by (by rewrite (same_state _ _ Sm), <- Hr).
    assert (F1 : unresolved K R1 < S n) by (pose proof (later_unresolved K _ _ L0); lia).
    destruct (guarded_ok n cur (resolve_parsed FS options args_ltr c23_strtoll device order
      (resolveModule FS options args_ltr c23_strtoll device order n) cur cur text) R1 R2) as (o & R' & Eo & L & D).
    + apply resolve_parsed_ends. intros t p s R3 W3 F3 H3. destruct (IH t p s R3 W3 F3 H3) as (o & R4 & E4 & L4 & D4).
      exists o, R4. split_and!; [done|done|]. intros k Ek. by apply D4.
    + eapply enters_running; [done|done|done| |done]. by apply (later_wf _ _ L0).
    + done.
    + done.
    + exists o, R'. split; [exact Eo|]. split; [by eapply later_trans|]. intros k Ek. destruct (D k Ek) as (-> & H1 & H2). by split_and!.
  - eexists _, R1. split; [done|]. by split.
  - eexists _, R1. split; [done|]. split; [done|]. intros k [= <-]. split; [done|].
    split; [|by rewrite <- Hr]. apply (order_resolved _ (later_wf _ _ L0 W)). by rewrite (same_state _ _ Sm), <- Hr.
  - eexists _, R1. split; [done|]. by split.
Qed.
End Resolve.

(** ** The theorems *)

(** What of the file system can be reached. *)
Definition known_keys (FS : FileSystem) (root : str) (files : list str) : list str := map (normalizePath FS) (root :: files).

Lemma known_files FS root files : (forall p, is_file FS p = true -> p ∈ files) ->
  forall p, is_file FS p = true -> normalizePath FS p ∈ known_keys FS root files.
Proof. intros H p F. apply list_elem_of_fmap. exists p. split; [done|]. apply elem_of_cons. right. by apply H. Qed.

Lemma known_root FS root files : normalizePath FS root ∈ known_keys FS root files.
Proof. apply elem_of_cons. by left. Qed.

Lemma known_few FS root files R fuel : S (length files) < fuel -> unresolved (known_keys FS root files) R < fuel.
Proof.
  intros H. eapply Nat.le_lt_trans; [apply length_filter|]. unfold known_keys. by rewrite length_map.
Qed.

(** C8: resolution ends whatever the import graph. With one level of fuel per
    file and two more, resolving a module of a well-formed registry returns or
    throws: cycles are found rather than followed. Either way the stack of
    modules being resolved is what it was, no module that was resolved, failed or
    being resolved has changed state, and the registry is well-formed. *)
Theorem resolution_ends FS options args_ltr c23_strtoll device order files fuel text path spelling R :
  (forall X, order X ≡ₚ elements X) -> (forall p, is_file FS p = true -> p ∈ files) -> S (length files) < fuel -> registry_wf R ->
  exists o R', resolveModule FS options args_ltr c23_strtoll device order fuel text path spelling R = Some (o, R')
    /\ activeStack_ R' = activeStack_ R /\ (forall k, state_of R k <> Unresolved -> state_of R' k = state_of R k) /\ registry_wf R'.
Proof.
  intros Ho Hf Hn W.
  destruct (resolveModule_ok FS options args_ltr c23_strtoll device order Ho (known_keys FS path files) (known_files _ _ _ Hf)
    fuel text path spelling R W (known_few _ _ _ _ _ Hn) (known_root _ _ _)) as (o & R' & E & L & _).
  exists o, R'. split_and!; [done|by apply later_stack|apply (later_state _ _ L)|by apply (later_wf _ _ L)].
Qed.

(** C5: the order a root's resolution leaves is a topological order of the
    imports. Whether it returns or throws, the modules in it are the resolved
    ones, each once, and a module's imports stand before it, so that no resolved
    module imports itself through others; when it returns, the root is last. *)
Theorem dependencies_first FS options args_ltr c23_strtoll device order files fuel text fileName counter :
  (forall X, order X ≡ₚ elements X) -> (forall p, is_file FS p = true -> p ∈ files) -> S (length files) < fuel ->
  exists o R, resolveRoot FS options args_ltr c23_strtoll device order fuel text fileName (ModuleRegistry_new counter) = Some (o, R)
    /\ activeStack_ R = [] /\ NoDup (topologicalOrder_ R) /\ (forall k, state_of R k = Resolved <-> k ∈ topologicalOrder_ R)
    /\ (forall k d l1 l2, topologicalOrder_ R = l1 ++ k :: l2 -> d ∈ deps_of R k -> d ∈ l1)
    /\ (forall m, o = Ok m -> last (topologicalOrder_ R) = Some (normalizePath FS fileName)).
Proof.
  intros Ho Hf Hn.
  destruct (resolveModule_ok FS options args_ltr c23_strtoll device order Ho (known_keys FS fileName files) (known_files _ _ _ Hf)
    fuel text fileName $"<root>" (ModuleRegistry_new counter) (registry_wf_new _) (known_few _ _ _ _ _ Hn) (known_root _ _ _))
    as (o & R & E & L & D).
  set (leave := fun k => update_record k (set_module None)).
  assert (Q : forall k, quiet (leave k)) by (intros k; by apply quiet_update).
  assert (G : forall o' R', same_modules R R' ->
    activeStack_ R' = [] /\ NoDup (topologicalOrder_ R') /\ (forall k, state_of R' k = Resolved <-> k ∈ topologicalOrder_ R')
    /\ (forall k d l1 l2, topologicalOrder_ R' = l1 ++ k :: l2 -> d ∈ deps_of R' k -> d ∈ l1)
    /\ (forall m : Module_, o' = Ok m -> (exists k, o = Ok k) -> last (topologicalOrder_ R') = Some (normalizePath FS fileName))).
  { intros o' R' S. pose proof (later_wf _ _ (later_trans _ _ _ L (same_later _ _ S)) (registry_wf_new _)) as [_ _ W3 W4 _ W6].
    split_and!; try done; [by rewrite (same_stack _ _ S), (later_stack _ _ L)|]. intros m _ [k ->].
    destruct (D k eq_refl) as (-> & _ & H). rewrite (same_order _ _ S). apply H. unfold state_of. cbn. by rewrite lookup_empty. }
  unfold resolveRoot. destruct o as [k|e].
  - rewrite (bind_ok _ _ _ _ _ E), (bind_ok _ _ _ _ _ eq_refl). destruct (records_ R !! k ≫= module) as [m|].
    + destruct (Q k R) as ([u|x] & R' & Eq & S); [rewrite (bind_ok _ _ _ _ _ Eq)|rewrite (bind_throw _ _ _ _ _ Eq)];
        eexists _, R'; (split; [done|]).
      * destruct (G (Ok m) R' S) as (H1 & H2 & H3 & H4 & H5). split_and!; try done. intros m' [= <-]. apply (H5 m eq_refl). by exists k.
      * destruct (G (Throw x) R' S) as (H1 & H2 & H3 & H4 & H5). by split_and!.
    + eexists _, R. split; [done|]. destruct (G (throw_runtime []) R (same_refl R)) as (H1 & H2 & H3 & H4 & H5). by split_and!.
  - rewrite (bind_throw _ _ _ _ _ E). eexists _, R. split; [done|].
    destruct (G (Throw e) R (same_refl R)) as (H1 & H2 & H3 & H4 & H5). by split_and!.
Qed.

(** A root that imports [a] and [b], which imports [a]. *)
Definition file_system (l : list (str * str)) : FileSystem :=
  mkFileSystem (fun p => Some (if is_absolute p then p else $"/" ++ p)) Some (fun p => p)
    (fun p => match assoc_find p l with Some _ => true | None => false end) (fun _ => false) (fun p => assoc_find p l) (Some $"/std") None.

Lemma file_system_files l p : is_file (file_system l) p = true -> p ∈ map fst l.
Proof.
  cbn. destruct (assoc_find p l) as [v|] eqn:E; [|done]. intros _. apply list_elem_of_fmap. exists (p, v). split; [done|].
  by apply assoc_elem_of.
Qed.

Definition text_of (lines : list str) : str := concat (map (fun l => l ++ [ch_nl]) lines).
Definition plain : ModuleRegistryOptions := mkOptions [] [] false [].
Definition core_file : str * str := ($"/std/core/aspects.vyb", []).

(** The order and the bodies, or the message. *)
Definition resolved (l : list (str * list str)) : option (list str * list str + str) :=
  let files := core_file :: map (fun p => (p.1, text_of p.2)) l in
  match l with
  | [] => None
  | (root, lines) :: _ =>
      match resolveRoot (file_system files) plain true false false elements 10 (text_of lines) root (ModuleRegistry_new 0) with
      | Some (Ok m, R) => Some (inl (topologicalOrder_ R, map (fun d => match d with Some d => Statement_toString d | None => [] end) (module_body m)))
      | Some (Throw e, _) => Some (inr (what e))
      | None => None
      end
  end.

Definition diamond : list (str * list str) :=
  [($"/m.vyb", [$"import b"; $"import a"; $"main()<Int> -> { return 0 }"]); ($"/b.vyb", [$"import a"]); ($"/a.vyb", [])].
Definition diamond_files : list (str * str) := core_file :: map (fun p => (p.1, text_of p.2)) diamond.

Lemma resolution_ends_witness :
  exists o R', resolveModule (file_system diamond_files) plain true false false elements 6 (text_of [$"import b"]) $"/m.vyb" $"<root>" (ModuleRegistry_new 0)
      = Some (o, R')
    /\ activeStack_ R' = [] /\ (forall k, state_of (ModuleRegistry_new 0) k <> Unresolved -> state_of R' k = state_of (ModuleRegistry_new 0) k)
    /\ registry_wf R'.
Proof.
  apply (resolution_ends (file_system diamond_files) plain true false false elements (map fst diamond_files)).
  - reflexivity.
  - apply file_system_files.
  - vm_compute. lia.
  - apply registry_wf_new.
Defined.

Lemma dependencies_first_witness :
  match resolved diamond with Some (inl (ks, _)) => Some ks | _ => None end = Some [$"/std/core/aspects.vyb"; $"/a.vyb"; $"/b.vyb"; $"/m.vyb"]
  /\ exists o R, resolveRoot (file_system diamond_files) plain true false false elements 10 (text_of [$"import b"]) $"/m.vyb" (ModuleRegistry_new 0)
      = Some (o, R)
    /\ activeStack_ R = [] /\ NoDup (topologicalOrder_ R) /\ (forall k, state_of R k = Resolved <-> k ∈ topologicalOrder_ R)
    /\ (forall k d l1 l2, topologicalOrder_ R = l1 ++ k :: l2 -> d ∈ deps_of R k -> d ∈ l1)
    /\ (forall m, o = Ok m -> last (topologicalOrder_ R) = Some (normalizePath (file_system diamond_files) $"/m.vyb")).
Proof.
  split; [vm_compute; reflexivity|].
  apply (dependencies_first (file_system diamond_files) plain true false false elements (map fst diamond_files)).
  - reflexivity.
  - apply file_system_files.
  - vm_compute. lia.
Defined.

(** ** What resolution does to some programs *)

(** Two modules with a private helper of the same name: in the second one the
    helper gets a name of its own, and so does the call in the [return], but not
    the call that initializes a variable ([foldBareInit] looks only at the root of
    an initializer), which now calls the first module's helper. *)
Lemma initializer_calls_other_module :
  resolved [($"/m.vyb", [$"import a"; $"import b"; $"main()<Int> -> { return fa(1) + fb(2) }"]);
            ($"/a.vyb", [$"share(all)"; $"fa(x<Int>)<Int> -> { return helper(x) }"; $"helper(x<Int>)<Int> -> { return x }"]);
            ($"/b.vyb", [$"share(all)"; $"fb(x<Int>)<Int> -> {"; $"y<Int> = helper(x)"; $"return y + helper(x)"; $"}";
                         $"helper(x<Int>)<Int> -> { return x + 1 }"])]
  = Some (inl ([$"/std/core/aspects.vyb"; $"/a.vyb"; $"/b.vyb"; $"/m.vyb"],
      [removelast (text_of [$"fn<Int> fa(x: Int) -> {"; $"  return helper(x);"; $"}"]);
       removelast (text_of [$"fn<Int> helper(x: Int) -> {"; $"  return x;"; $"}"]);
       removelast (text_of [$"fn<Int> fb(x: Int) -> {"; $"  var y: Int = helper(x);"; $"  return (y + __pv_251f22bd_helper(x));"; $"}"]);
       removelast (text_of [$"fn<Int> __pv_251f22bd_helper(x: Int) -> {"; $"  return (x + 1);"; $"}"]);
       removelast (text_of [$"fn<Int> main() -> {"; $"  return (fa(1) + fb(2));"; $"}"])])).
Proof. vm_compute. reflexivity. Qed.

(** [A.fa(1)] as an initializer still names the namespace ([foldVariableInit]
    looks only at the root), and the private helper that the shared function
    calls is not copied: [helper] names nothing. *)
Lemma namespace_leaves_names :
  resolved [($"/m.vyb", [$"import a as A"; $"main()<Int> -> {"; $"y<Int> = A.fa(1)"; $"return A.fa(1)"; $"}"]);
            ($"/a.vyb", [$"share(all)"; $"fa(x<Int>)<Int> -> { return helper(x) }"; $"helper(x<Int>)<Int> -> { return x }"])]
  = Some (inl ([$"/std/core/aspects.vyb"; $"/a.vyb"; $"/m.vyb"],
      [removelast (text_of [$"fn<Int> __ns_A_fa(x: Int) -> {"; $"  return helper(x);"; $"}"]);
       removelast (text_of [$"fn<Int> main() -> {"; $"  var y: Int = A.fa(1);"; $"  return __ns_A_fa(1);"; $"}"])])).
Proof. vm_compute. reflexivity. Qed.

(** A namespace import binds no plain name, and is refused when the importer has
    declared one of them above it. *)
Lemma namespace_collides :
  resolved [($"/m.vyb", [$"fa(x<Int>)<Int> -> { return 0 }"; $"import a as A"; $"main()<Int> -> { return A.fa(1) }"]);
            ($"/a.vyb", [$"share(all)"; $"fa(x<Int>)<Int> -> { return x }"])]
  = Some (inr $"Duplicate symbol after splice: 'fa' while importing 'import a;' from /m.vyb:2 -- already defined by /m.vyb, also defined by /a.vyb").
Proof. vm_compute. reflexivity. Qed.

(** Two modules that import each other. *)
Lemma cycle_is_found :
  resolved [($"/m.vyb", [$"import a"]); ($"/a.vyb", [$"import m"])]
  = Some (inr ($"Circular import detected while resolving module '/m.vyb' (from 'import m;'). Dependency chain:"
      ++ [ch_nl] ++ $" - /m.vyb" ++ [ch_nl] ++ $" - /a.vyb" ++ [ch_nl] ++ $" - /m.vyb")).
Proof. vm_compute. reflexivity. Qed.
