(* ===== verification/Json.v ===== *)
(** * The language server's JSON (src/lsp.cpp)

    [Json], [JsonParser], [jsonEscape] and [writeJson]. The parser's position is
    the text still ahead; a position past the end is nothing ahead, and no
    method reads there. [value], [object] and [array] call each other, with
    one level of fuel per call: two per byte are enough ([parse_total]). *)

From Stdlib Require Import SpecFloat.
From S2P Require Import Prelude.
From S2P Require Import Token.
From S2P Require Import Ast.
From S2P Require Import AstText.
From S2P Require Import IntTypes.
From S2P Require Import ExprParser.
From S2P Require Import Format.
From S2P Require Import Splice.

(** ** Values *)

Inductive Json : Type :=
| Null
| Bool (b : bool)
| Num (num : double)
| Str (s : str)
| Arr (arr : list Json)
| Obj (obj : list (str * Json)).

(** The fields every value has. *)
Definition json_num (v : Json) : double := match v with Num x => x | _ => S754_zero false end.
Definition json_s (v : Json) : str := match v with Str s => s | _ => [] end.
Definition json_arr (v : Json) : list Json := match v with Arr l => l | _ => [] end.
Definition json_obj (v : Json) : list (str * Json) := match v with Obj l => l | _ => [] end.

Definition get (k : str) (v : Json) : option Json := assoc_find k (json_obj v).

Fixpoint set_member (k : str) (v : Json) (l : list (str * Json)) : list (str * Json) :=
  match l with
  | [] => [(k, v)]
  | (k', v') :: l' => if k' =s k then (k, v) :: l' else (k', v') :: set_member k v l'
  end.

(** [set] on a null makes an object of it; no other value is one. *)
Definition set (k : str) (v : Json) (o : Json) : Json := Obj (set_member k v (json_obj o)).

(** ** Numbers *)

(** The C format percent-g at [P] digits, as [general15] for fifteen. *)
Definition digits_at (P m e : Z) : Z * Z :=
  (let x := decimal_exponent m e in
   let d := scaled m e (P - 1 - x) in
   if d =? 10 ^ P then (10 ^ (P - 1), x + 1) else (d, x))%Z.

Definition general_at (P m e : Z) : str :=
  let '(d, x) := digits_at P m e in
  let s := to_string d in
  if ((x <? -4) || (P <=? x))%Z then
    point (take 1 s) (drop 1 s) ++ $"e" ++ (if (x <? 0)%Z then $"-" else $"+") ++ two_digits (Z.abs x)
  else if (x <? 0)%Z then point $"0" (replicate (Z.to_nat (- x - 1)) "0"%char ++ s)
  else point (take (S (Z.to_nat x)) s) (drop (S (Z.to_nat x)) s).

Definition number_text (x : double) : str :=
  match x with
  | S754_zero s => sign_text s ++ $"0"
  | S754_infinity s => sign_text s ++ $"inf"
  | S754_nan => $"nan"
  | S754_finite s m e => sign_text s ++ general_at 6 (Zpos m) e
  end.

(** [std::atof] on the characters of a number: an exponent without digits is
    not part of it, and what has no digits is zero. *)
Definition exponent_of (s : str) : Z :=
  match s with
  | c :: s' =>
      if (c =c "e") || (c =c "E") then
        let '(neg, ds) := match s' with
                          | d :: s'' => if d =c "-" then (true, s'') else if d =c "+" then (false, s'') else (false, s')
                          | [] => (false, [])
                          end in
        let x := digits_value 10 0 (take_while is_dec ds) in if neg : bool then (- x)%Z else x
      else 0%Z
  | [] => 0%Z
  end.

Definition unsigned_atof (s : str) : double :=
  let whole := take_while is_dec s in
  let r := drop_while is_dec s in
  let '(frac, r) := match r with
                    | c :: r1 => if c =c "." then (take_while is_dec r1, drop_while is_dec r1) else ([], r)
                    | [] => ([], [])
                    end in
  let m := digits_value 10 0 (whole ++ frac) in
  let e := (exponent_of r - Z.of_nat (length frac))%Z in
  let '(m', e') := if (0 <=? e)%Z then ((m * 10 ^ e)%Z, 0%Z) else scaled_quotient m (- e) in
  binary_normalize 53 1024 m' e' false.

(** Something converts when a digit comes first, or a point and a digit. *)
Definition converts (s : str) : bool :=
  match s with
  | c :: s' => is_dec c || ((c =c ".") && match s' with d :: _ => is_dec d | [] => false end)
  | [] => false
  end.

(** One sign may come first; where nothing converts, [atof] returns a plain
    zero, whatever the sign. *)
Definition atof (s : str) : double :=
  let '(neg, u) := match s with
                   | c :: s' => if c =c "-" then (true, s') else if c =c "+" then (false, s') else (false, s)
                   | [] => (false, [])
                   end in
  if converts u then (if neg : bool then SFopp (unsigned_atof u) else unsigned_atof u) else S754_zero false.

Example atof_nothing : atof $"-" = S754_zero false /\ atof $"--5" = S754_zero false /\ atof $"-0" = S754_zero true.
Proof. by split_and!. Qed.

(** ** The parser *)

Definition json_blank (c : ascii) : bool := (c =c " ") || (c =c ch_tab) || (c =c ch_nl) || (c =c ch_cr).
Definition ws (r : str) : str := drop_while json_blank r.

(** [if (ok() && t[p] == c) ++p;] *)
Definition skip_char (c : ascii) (r : str) : str := match r with d :: r' => if d =c c then r' else r | [] => [] end.

Definition unescape (e : ascii) : ascii :=
  if e =c "n" then ch_nl else if e =c "t" then ch_tab else if e =c "r" then ch_cr else e.

Definition more (c : ascii) (p : str * str) : str * str := (c :: p.1, p.2).

(** Up to the closing quote: a code point in hexadecimal is a question mark. *)
Fixpoint string_body (r : str) : str * str :=
  match r with
  | [] => ([], [])
  | c :: r1 =>
      if c =c ch_quote then ([], r)
      else if c =c ch_bslash then
        match r1 with
        | [] => ([c], [])
        | e :: r2 =>
            if e =c "u" then
              match r2 with _ :: _ :: _ :: _ :: r3 => more "?" (string_body r3) | _ => ($"?", []) end
            else more (unescape e) (string_body r2)
        end
      else more c (string_body r1)
  end.

Definition string (r : str) : str * str :=
  let '(s, r') := string_body (skip_char ch_quote r) in (s, skip_char ch_quote r').

Definition number_char (c : ascii) : bool :=
  is_dec c || (c =c ".") || (c =c "e") || (c =c "E") || (c =c "-") || (c =c "+").

(** A sign counts among the characters of the rest. *)
Definition number (r : str) : double * str := (atof (take_while number_char r), drop_while number_char r).

Definition boolean (r : str) : bool * str :=
  if take 4 r =s $"true" then (true, drop 4 r) else (false, drop 5 r).

Fixpoint value (fuel : nat) (r : str) : option (Json * str) :=
  match fuel with
  | O => None
  | S f =>
      match ws r with
      | [] => Some (Null, [])
      | (c :: r1) as r =>
          if c =c "{" then
            match ws r1 with
            | d :: r2 => if d =c "}" then Some (Obj [], r2) else '(o, r) ← object f [] (d :: r2); Some (Obj o, r)
            | [] => Some (Obj [], [])
            end
          else if c =c "[" then
            match ws r1 with
            | d :: r2 => if d =c "]" then Some (Arr [], r2) else '(a, r) ← array f [] (d :: r2); Some (Arr a, r)
            | [] => Some (Arr [], [])
            end
          else if c =c ch_quote then let '(s, r) := string r in Some (Str s, r)
          else if (c =c "t") || (c =c "f") then let '(b, r) := boolean r in Some (Bool b, r)
          else if c =c "n" then Some (Null, drop 4 r)
          else let '(x, r) := number r in Some (Num x, r)
      end
  end

(** [while (ok())] over the members, with those read so far. *)
with object (fuel : nat) (o : list (str * Json)) (r : str) : option (list (str * Json) * str) :=
  match fuel with
  | O => None
  | S f =>
      match r with
      | [] => Some (o, [])
      | _ =>
          let '(key, r) := string (ws r) in
          '(v, r) ← value f (skip_char ":" (ws r));
          let o := set_member key v o in
          match ws r with
          | c :: r' => if c =c "," then object f o r' else if c =c "}" then Some (o, r') else Some (o, c :: r')
          | [] => Some (o, [])
          end
      end
  end

with array (fuel : nat) (a : list Json) (r : str) : option (list Json * str) :=
  match fuel with
  | O => None
  | S f =>
      match r with
      | [] => Some (a, [])
      | _ =>
          '(v, r) ← value f r;
          let a := a ++ [v] in
          match ws r with
          | c :: r' => if c =c "," then array f a r' else if c =c "]" then Some (a, r') else Some (a, c :: r')
          | [] => Some (a, [])
          end
      end
  end.

Definition json_fuel (t : str) : nat := 2 * length t + 2.

Definition parseJson (t : str) : option Json := '(v, _) ← value (json_fuel t) (ws t); Some v.

(** ** The writer *)

Definition escape (c : ascii) : str :=
  if c =c ch_quote then [ch_bslash; ch_quote]
  else if c =c ch_bslash then [ch_bslash; ch_bslash]
  else if c =c ch_nl then [ch_bslash; "n"%char]
  else if c =c ch_cr then [ch_bslash; "r"%char]
  else if c =c ch_tab then [ch_bslash; "t"%char]
  else if (code c <? 32)%N then ch_bslash :: $"u00" ++ [if (code c <? 16)%N then "0"%char else "1"%char; hex_digit (Z.of_N (code c) mod 16)]
  else [c].

Definition jsonEscape (v : str) : str := ch_quote :: concat (map escape v) ++ [ch_quote].

Definition commas (l : list str) : str :=
  match l with [] => [] | s :: l' => s ++ concat (map (fun t => ","%char :: t) l') end.

Fixpoint writeJson (v : Json) : str :=
  match v with
  | Null => $"null"
  | Bool b => if b then $"true" else $"false"
  | Num x => number_text x
  | Str s => jsonEscape s
  | Arr l => "["%char :: commas (map writeJson l) ++ $"]"
  | Obj l => "{"%char :: commas (map (fun p => jsonEscape p.1 ++ ":"%char :: writeJson p.2) l) ++ $"}"
  end.

(** ** The parser ends *)

Lemma ws_le r : length (ws r) <= length r.
Proof. apply length_drop_while. Qed.
Lemma skip_char_le c r : length (skip_char c r) <= length r.
Proof. destruct r as [|d r]; cbn; [lia|]. destruct (d =c c); cbn; lia. Qed.

Lemma string_body_le r : length (string_body r).2 <= length r.
Proof.
  induction r as [r IH] using (induction_ltof1 _ (@length ascii)). unfold ltof in IH. destruct r as [|c r1]; [cbn; lia|]. cbn [string_body].
  destruct (c =c ch_quote); [cbn; lia|]. destruct (c =c ch_bslash).
  - destruct r1 as [|e r2]; [cbn; lia|]. destruct (e =c "u").
    + do 4 (destruct r2 as [|? r2]; [cbn; lia|]). pose proof (IH r2 ltac:(cbn; lia)). cbn in *. lia.
    + pose proof (IH r2 ltac:(cbn; lia)). cbn in *. lia.
  - pose proof (IH r1 ltac:(cbn; lia)). cbn in *. lia.
Qed.

(** Where something is ahead, a key takes a byte. *)
Lemma string_lt c r : length (string (c :: r)).2 <= length r.
Proof.
  unfold string, skip_char at 1. destruct (c =c ch_quote) eqn:Q.
  - pose proof (string_body_le r). destruct (string_body r) as [s r']. pose proof (skip_char_le ch_quote r'). cbn in *. lia.
  - cbn [string_body]. rewrite Q. assert (S : forall p : str * str, length p.2 <= length r -> length (let '(s, r') := p in (s, skip_char ch_quote r')).2 <= length r).
    { intros [s r'] H. pose proof (skip_char_le ch_quote r'). cbn in *. lia. }
    apply S. destruct (c =c ch_bslash).
    + destruct r as [|e r2]; [cbn; lia|]. destruct (e =c "u").
      * do 4 (destruct r2 as [|? r2]; [cbn; lia|]). pose proof (string_body_le r2). cbn in *. lia.
      * pose proof (string_body_le r2). cbn in *. lia.
    + pose proof (string_body_le r). cbn in *. lia.
Qed.

Lemma value_total_step n :
  (forall r, length r < n -> forall fuel, 2 * length r + 1 <= fuel -> exists v r', value fuel r = Some (v, r') /\ length r' <= length r)
  /\ (forall o r, length r < n -> forall fuel, 2 * length r + 2 <= fuel -> exists v r', object fuel o r = Some (v, r') /\ length r' <= length r)
  /\ (forall a r, length r < n -> forall fuel, 2 * length r + 2 <= fuel -> exists v r', array fuel a r = Some (v, r') /\ length r' <= length r).
Proof.
  induction n as [|n (IHv & IHo & IHa)]; [split_and!; intros; lia|].
  assert (V : forall r, length r < S n -> forall fuel, 2 * length r + 1 <= fuel -> exists v r', value fuel r = Some (v, r') /\ length r' <= length r).
  { intros r Hr [|f] Hf; [lia|]. pose proof (ws_le r) as W. cbn [value]. destruct (ws r) as [|c r1]; [eexists _, _; split; [done|cbn; lia]|].
    cbn in W. pose proof (ws_le r1) as W1. repeat case_if.
    - destruct (ws r1) as [|d r2]; [eexists _, _; split; [done|cbn; lia]|]. cbn in W1. destruct (d =c "}"); [eexists _, _; split; [done|cbn; lia]|].
      destruct (IHo [] (d :: r2) ltac:(cbn; lia) f ltac:(cbn; lia)) as (o & r' & -> & L). eexists _, _. split; [done|]. cbn in *. lia.
    - destruct (ws r1) as [|d r2]; [eexists _, _; split; [done|cbn; lia]|]. cbn in W1. destruct (d =c "]"); [eexists _, _; split; [done|cbn; lia]|].
      destruct (IHa [] (d :: r2) ltac:(cbn; lia) f ltac:(cbn; lia)) as (a & r' & -> & L). eexists _, _. split; [done|]. cbn in *. lia.
    - pose proof (string_lt c r1) as L. destruct (string (c :: r1)) as [s r']. eexists _, _. split; [done|]. cbn in *. lia.
    - unfold boolean. destruct (_ =s _); (eexists _, _; split; [done|]); cbn [skipn]; rewrite length_drop; lia.
    - eexists _, _. split; [done|]. cbn. rewrite length_drop. lia.
    - unfold number. eexists _, _. split; [done|]. pose proof (length_drop_while number_char (c :: r1)). cbn [length] in *. lia. }
  split_and!; [done|..].
  - intros o r Hr [|f] Hf; [lia|]. cbn [object]. destruct r as [|c r]; [by eexists _, _|]. set (r0 := c :: r) in *.
    assert (L0 : length (string (ws r0)).2 <= length r \/ ws r0 = []).
    { pose proof (ws_le r0) as W. destruct (ws r0) as [|d r1]; [by right|]. left. pose proof (string_lt d r1). cbn in *. lia. }
    assert (L1 : length (string (ws r0)).2 <= length r) by (destruct L0 as [| ->]; [done|cbn; lia]).
    destruct (string (ws r0)) as [key r1]. cbn in L1. pose proof (ws_le r1). pose proof (skip_char_le ":" (ws r1)).
    destruct (V (skip_char ":" (ws r1)) ltac:(cbn in *; lia) f ltac:(cbn in *; lia)) as (v & r2 & -> & L2). cbn.
    pose proof (ws_le r2). destruct (ws r2) as [|d r3]; [eexists _, _; split; [done|cbn; lia]|].
    subst r0. cbn [length] in *. destruct (d =c ","); [|destruct (d =c "}")].
    + destruct (IHo (set_member key v o) r3 ltac:(lia) f ltac:(lia)) as (o' & r' & -> & L'). eexists _, _. split; [done|]. lia.
    + eexists _, _. split; [done|]. lia.
    + eexists _, _. split; [done|]. cbn. lia.
  - intros a r Hr [|f] Hf; [lia|]. cbn [array]. destruct r as [|c r]; [by eexists _, _|]. set (r0 := c :: r) in *.
    destruct (V r0 Hr f ltac:(lia)) as (v & r2 & -> & L2). cbn. pose proof (ws_le r2).
    destruct (ws r2) as [|d r3]; [eexists _, _; split; [done|cbn in *; lia]|].
    subst r0. cbn [length] in *. destruct (d =c ","); [|destruct (d =c "]")].
    + destruct (IHa (a ++ [v]) r3 ltac:(lia) f ltac:(lia)) as (o' & r' & -> & L'). eexists _, _. split; [done|]. lia.
    + eexists _, _. split; [done|]. lia.
    + eexists _, _. split; [done|]. cbn. lia.
Qed.

Lemma parse_total t : exists v, parseJson t = Some v.
Proof.
  unfold parseJson, json_fuel. pose proof (ws_le t).
  destruct (proj1 (value_total_step (S (length (ws t)))) (ws t) ltac:(lia) (2 * length t + 2) ltac:(lia)) as (v & r & -> & _). by eexists.
Qed.

(** ** What is written reads back *)

(** The strings whose every byte has an escape the reader undoes: no control
    character but the line break, the carriage return and the tab. *)
Definition plain_char (c : ascii) : bool := negb (code c <? 32)%N || (c =c ch_nl) || (c =c ch_cr) || (c =c ch_tab).
Definition plain_text (s : str) : Prop := forallb plain_char s = true.

Definition finite (x : double) : bool := match x with S754_zero _ | S754_finite _ _ _ => true | _ => false end.

Fixpoint writable (v : Json) : Prop :=
  match v with
  | Null | Bool _ => True
  | Num x => finite x = true
  | Str s => plain_text s
  | Arr l => (fix all l := match l with [] => True | v :: l' => writable v /\ all l' end) l
  | Obj l => NoDup (map fst l) /\ (fix all l := match l with [] => True | p :: l' => (plain_text p.1 /\ writable p.2) /\ all l' end) l
  end.

(** The numbers have six digits when they come back. *)
Fixpoint reread (v : Json) : Json :=
  match v with
  | Num x => Num (atof (number_text x))
  | Arr l => Arr (map reread l)
  | Obj l => Obj (map (fun p => (p.1, reread p.2)) l)
  | _ => v
  end.

Lemma writable_arr l : writable (Arr l) -> Forall writable l.
Proof. cbn. induction l as [|v l IH]; [constructor|]. intros [H1 H2]. constructor; [done|by apply IH]. Qed.
Lemma writable_obj l : writable (Obj l) -> NoDup (map fst l) /\ Forall (fun p => plain_text p.1 /\ writable p.2) l.
Proof. cbn. intros [N H]. split; [done|]. clear N. induction l as [|p l IH]; [constructor|]. destruct H as [H1 H2]. constructor; [done|by apply IH]. Qed.

Lemma plain_escape c r : plain_char c = true -> string_body (escape c ++ r) = more c (string_body r).
Proof.
  intros H. unfold escape. destruct (c =c ch_quote) eqn:E1; [by apply ceq_true in E1 as ->|].
  destruct (c =c ch_bslash) eqn:E2; [by apply ceq_true in E2 as ->|]. destruct (c =c ch_nl) eqn:E3; [by apply ceq_true in E3 as ->|].
  destruct (c =c ch_cr) eqn:E4; [by apply ceq_true in E4 as ->|]. destruct (c =c ch_tab) eqn:E5; [by apply ceq_true in E5 as ->|].
  unfold plain_char in H. rewrite E3, E4, E5, !orb_false_r in H. apply negb_true_iff in H. rewrite H. cbn [app string_body]. by rewrite E1, E2.
Qed.

Lemma string_reads s rest : plain_text s -> string (jsonEscape s ++ rest) = (s, rest).
Proof.
  intros H. unfold jsonEscape, string. cbn [app skip_char]. rewrite ceq_refl, <- app_assoc. cbn [app].
  assert (B : string_body (concat (map escape s) ++ ch_quote :: rest) = (s, ch_quote :: rest)).
  { induction s as [|c s IH]; [done|]. cbn in H. apply andb_true_iff in H as [Hc Hs]. cbn [map concat]. rewrite <- app_assoc, plain_escape by done.
    by rewrite IH. }
  rewrite B. cbn [skip_char]. by rewrite ceq_refl.
Qed.

(** *** Numbers *)

Definition numeric (s : str) : Prop := forallb number_char s = true.
Definition digits (s : str) : Prop := forallb is_dec s = true.

Lemma digits_numeric s : digits s -> numeric s.
Proof.
  unfold digits, numeric. induction s as [|c s IH]; [done|]. cbn. intros [H1 H2]%andb_true_iff. unfold number_char at 1. rewrite H1. by apply IH.
Qed.
Lemma digits_app s1 s2 : digits (s1 ++ s2) <-> digits s1 /\ digits s2.
Proof. unfold digits. by rewrite forallb_app, andb_true_iff. Qed.
Lemma numeric_app s1 s2 : numeric (s1 ++ s2) <-> numeric s1 /\ numeric s2.
Proof. unfold numeric. by rewrite forallb_app, andb_true_iff. Qed.

Lemma to_string_dec z : (0 <= z)%Z -> digits (to_string z) /\ to_string z <> [].
Proof.
  intros H. destruct z as [|p|p]; [done| |lia]. assert (Hb : (N.pos p < 10 ^ N.of_nat (N.to_nat (N.pos p)))%N).
  { rewrite N2Nat.id. apply N.pow_gt_lin_r. lia. }
  rewrite (to_string_pos p _ Hb). unfold digits. rewrite forallb_rev. split; [apply digit_loop_dec|].
  intros E. apply (f_equal (digits_value 10 0)) in E. rewrite digit_loop_value in E by done. done.
Qed.

(** A text that starts with a digit. *)
Definition led (s : str) : Prop := exists c s', s = c :: s' /\ is_dec c = true.

Lemma led_digits s : digits s -> s <> [] -> led s.
Proof. intros H N. destruct s as [|c s]; [done|]. cbn in H. apply andb_true_iff in H as [H _]. by exists c, s. Qed.
Lemma led_app s1 s2 : led s1 -> led (s1 ++ s2).
Proof. intros (c & s & -> & H). by exists c, (s ++ s2). Qed.

Lemma point_spec whole frac : led whole -> digits whole -> digits frac -> led (point whole frac) /\ numeric (point whole frac).
Proof.
  intros L W F. unfold point. assert (S : digits (strip_zeros frac)).
  { unfold digits, strip_zeros. rewrite forallb_rev. unfold digits in F. rewrite <- forallb_rev in F.
    rewrite <- (take_drop_while (ceq "0"%char) (rev frac)), forallb_app in F. by apply andb_true_iff in F as [_ F]. }
  destruct (strip_zeros frac) as [|c f]; [split; [done|by apply digits_numeric]|]. split; [by apply led_app|].
  apply numeric_app. split; [by apply digits_numeric|]. change ($"." ++ c :: f) with ([(".")%char] ++ c :: f). apply numeric_app.
  split; [done|by apply digits_numeric].
Qed.

Lemma round_nonneg num den : (0 <= num)%Z -> (0 < den)%Z -> (0 <= round_half_even num den)%Z.
Proof.
  intros H D. unfold round_half_even. pose proof (Z.div_pos num den H D). repeat case_match; lia.
Qed.

Lemma digits_at_nonneg m e : (0 <= (digits_at 6 (Zpos m) e).1)%Z.
Proof.
  unfold digits_at. destruct (_ =? _)%Z; [done|]. cbn. unfold scaled. apply round_nonneg; [|lia].
  apply Z.mul_nonneg_nonneg; [apply Z.mul_nonneg_nonneg; lia|lia].
Qed.

Lemma digits_take n s : digits s -> digits (take n s).
Proof. intros H. rewrite <- (take_drop n s) in H. by apply digits_app in H as [? _]. Qed.
Lemma digits_drop n s : digits s -> digits (drop n s).
Proof. intros H. rewrite <- (take_drop n s) in H. by apply digits_app in H as [_ ?]. Qed.
Lemma led_take n s : digits s -> s <> [] -> led (take (S n) s).
Proof. intros H N. apply led_digits; [by apply digits_take|]. by destruct s. Qed.

Lemma general_spec m e : led (general_at 6 (Zpos m) e) /\ numeric (general_at 6 (Zpos m) e).
Proof.
  unfold general_at. pose proof (digits_at_nonneg m e) as D. destruct (digits_at 6 (Zpos m) e) as [d x]. cbn in D.
  destruct (to_string_dec d D) as [T N]. destruct ((x <? -4) || (6 <=? x))%Z.
  - destruct (point_spec (take 1 (to_string d)) (drop 1 (to_string d))) as [L Q]; [by apply led_take|by apply digits_take|by apply digits_drop|].
    split; [by apply led_app|]. apply numeric_app. split; [done|]. apply (numeric_app $"e"). split; [done|].
    apply numeric_app. split; [by destruct (x <? 0)%Z|]. unfold two_digits. apply numeric_app.
    split; [by destruct (_ <? 10)%Z|]. apply digits_numeric, to_string_dec. lia.
  - destruct (x <? 0)%Z.
    + apply point_spec; [by exists "0"%char, []|done|]. apply digits_app. split; [|done]. unfold digits. by induction (Z.to_nat (- x - 1)).
    + apply point_spec; [by apply led_take|by apply digits_take|by apply digits_drop].
Qed.

(** How a finite number starts, and that all of it is characters of a number. *)
Lemma number_text_spec x : finite x = true ->
  (exists c s, number_text x = c :: s /\ ((c =c "-") || is_dec c) = true) /\ numeric (number_text x).
Proof.
  intros F. destruct x as [s| | |s m e]; try done; cbn [number_text].
  - destruct s; (split; [by eexists _, _|done]).
  - destruct (general_spec m e) as [(c & r & E & H) Q]. rewrite E in *. destruct s; cbn [sign_text app].
    + split; [by eexists _, _|]. by apply (numeric_app $"-").
    + split; [|done]. exists c, r. by rewrite H, orb_true_r.
Qed.

(** What may come behind a number. *)
Definition ends_number (r : str) : Prop := match r with c :: _ => number_char c = false | [] => True end.

Lemma number_reads x rest : finite x = true -> ends_number rest -> number (number_text x ++ rest) = (atof (number_text x), rest).
Proof.
  intros F R. unfold number. destruct (number_text_spec x F) as [_ Q].
  assert (A : Forall (fun c => number_char c = true) (number_text x)).
  { apply List.Forall_forall. intros c Hc. by apply (proj1 (forallb_forall _ _) Q). }
  rewrite take_while_app, drop_while_app by done. destruct rest as [|c r]; cbn; [by rewrite app_nil_r|]. cbn in R. by rewrite R, app_nil_r.
Qed.

(** *** Trees *)

Lemma ws_keep c r : json_blank c = false -> ws (c :: r) = c :: r.
Proof. intros H. unfold ws. cbn. by rewrite H. Qed.

(** The bytes [value] tells apart. *)
Definition opens (c : ascii) : bool :=
  json_blank c || (c =c "]") || (c =c "{") || (c =c "[") || (c =c ch_quote) || (c =c "t") || (c =c "f") || (c =c "n").
Lemma number_opens c : (c =c "-") || is_dec c = true -> opens c = false.
Proof. destruct c as [[] [] [] [] [] [] [] []]; vm_compute; done. Qed.

Lemma value_number f c r : opens c = false -> value (S f) (c :: r) = Some (let '(x, r) := number (c :: r) in (Num x, r)).
Proof.
  unfold opens. rewrite !orb_false_iff. intros [[[[[[[B _] E1] E2] E3] E4] E5] E6]. cbn [value]. rewrite ws_keep by done.
  rewrite E1, E2, E3, E4, E5, E6. cbn. by destruct (number (c :: r)).
Qed.

(** What starts a value is no blank and does not close an array. *)
Lemma starts_value v : writable v -> exists c s, writeJson v = c :: s /\ json_blank c = false /\ (c =c "]") = false.
Proof.
  destruct v as [|[]|x|s|l|l]; intros W; try (by eexists _, _).
  destruct (number_text_spec x W) as [(c & s & E & H) _]. exists c, s. split; [done|]. apply number_opens in H. unfold opens in H.
  by rewrite !orb_false_iff in H; destruct H as [[[[[[[? ?] ?] ?] ?] ?] ?] ?].
Qed.

Lemma Json_ind' (P : Json -> Prop) : P Null -> (forall b, P (Bool b)) -> (forall x, P (Num x)) -> (forall s, P (Str s)) ->
  (forall l, Forall P l -> P (Arr l)) -> (forall l, Forall (fun p => P p.2) l -> P (Obj l)) -> forall v, P v.
Proof.
  intros H1 H2 H3 H4 H5 H6. fix IH 1. intros [|b|x|s|l|l]; [done|done|done|done|apply H5|apply H6]; induction l as [|a l IHl]; constructor; try done; apply IH.
Qed.

Lemma commas_cons s t l : commas (s :: t :: l) = s ++ ","%char :: commas (t :: l).
Proof. done. Qed.

Lemma ends_comma r : ends_number (","%char :: r).
Proof. done. Qed.

(** What reading back means, at any level. *)
Definition reads (v : Json) : Prop := forall rest fuel, ends_number rest -> 2 * length (writeJson v) <= fuel ->
  value fuel (writeJson v ++ rest) = Some (reread v, rest).

Lemma elements_read l a rest fuel : Forall reads l -> l <> [] -> 2 * length (commas (map writeJson l)) < fuel ->
  array fuel a (commas (map writeJson l) ++ "]"%char :: rest) = Some (a ++ map reread l, rest).
Proof.
  intros H. revert a fuel. induction H as [|v l Hv Hl IH]; intros a fuel N F; [done|]. clear N. destruct fuel as [|f]; [lia|]. cbn [array].
  destruct l as [|w l].
  - cbn [map commas concat] in *. rewrite app_nil_r in *. assert (E := Hv ("]"%char :: rest) f eq_refl ltac:(lia)).
    destruct (writeJson v ++ "]"%char :: rest) as [|c r] eqn:T; [by destruct (writeJson v)|]. rewrite E. cbn. done.
  - cbn [map] in *. rewrite commas_cons in *. rewrite length_app in F. cbn [length] in F. rewrite <- app_assoc.
    assert (E := Hv (","%char :: commas (map writeJson (w :: l)) ++ "]"%char :: rest) f eq_refl ltac:(lia)).
    cbn [map app] in *.
    destruct (writeJson v ++ _) as [|c r] eqn:T; [by destruct (writeJson v)|]. rewrite E. unfold mbind, option_bind. rewrite ws_keep by done. rewrite ceq_refl.
    rewrite IH by (try done; lia). by rewrite <- app_assoc.
Qed.

Lemma set_member_new k v l : k ∉ map fst l -> set_member k v l = l ++ [(k, v)].
Proof.
  induction l as [|[k' v'] l IH]; [done|]. cbn. rewrite not_elem_of_cons. intros [N1 N2].
  rewrite (proj2 (streq_false k' k)) by congruence. by rewrite IH.
Qed.

Definition writeMember (p : str * Json) : str := jsonEscape p.1 ++ ":"%char :: writeJson p.2.

Lemma object_reads l o rest fuel : Forall (fun p => plain_text p.1 /\ reads p.2) l -> l <> [] ->
  NoDup (map fst o ++ map fst l) -> 2 * length (commas (map writeMember l)) < fuel ->
  object fuel o (commas (map writeMember l) ++ "}"%char :: rest) = Some (o ++ map (fun p => (p.1, reread p.2)) l, rest).
Proof.
  intros H. revert o fuel. induction H as [|[k v] l [Hk Hv] Hl IH]; intros o fuel N D F; [done|]. clear N. destruct fuel as [|f]; [lia|].
  cbn [fst snd] in Hk, Hv. assert (New : k ∉ map fst o).
  { apply NoDup_app in D as (_ & D & _). intros Hi. apply (D k Hi), elem_of_cons. by left. }
  (* one member, whatever comes behind it *)
  assert (Step : forall tail, ends_number tail -> 2 * length (writeJson v) <= f -> object (S f) o (writeMember (k, v) ++ tail)
    = match ws tail with
      | c :: r' => if c =c "," then object f (o ++ [(k, reread v)]) r'
                   else if c =c "}" then Some (o ++ [(k, reread v)], r') else Some (o ++ [(k, reread v)], c :: r')
      | [] => Some (o ++ [(k, reread v)], [])
      end).
  { intros tail T Fv. unfold writeMember. cbn [fst snd]. rewrite <- app_assoc. cbn [app].
    assert (E := string_reads k (":"%char :: writeJson v ++ tail) Hk). unfold jsonEscape in *. cbn [app] in *. cbn [object].
    rewrite ws_keep by done. rewrite E. rewrite ws_keep by done. cbn [skip_char]. rewrite ceq_refl, (Hv tail f T Fv). unfold mbind, option_bind.
    by rewrite set_member_new. }
  destruct l as [|p l].
  - cbn [map commas concat] in *. rewrite app_nil_r in *. rewrite Step; [by rewrite ws_keep|done|].
    unfold writeMember in F. rewrite length_app in F. cbn [length snd] in F. lia.
  - cbn [map] in *. rewrite commas_cons, length_app in F. cbn [length] in F. rewrite commas_cons, <- app_assoc. cbn [app].
    rewrite Step; [|done|unfold writeMember in F; rewrite length_app in F; cbn [length snd] in F; lia].
    rewrite ws_keep, ceq_refl by done. rewrite IH; [by rewrite <- app_assoc|done| |lia].
    rewrite map_app. cbn [map fst]. by rewrite <- app_assoc.
Qed.

Lemma value_reads v : writable v -> reads v.
Proof.
  induction v as [|b|x|s|l IH|l IH] using Json_ind'; intros W rest fuel R F; (destruct fuel as [|f];
    [destruct (starts_value _ W) as (c & t & E & _); rewrite E in F; cbn in F; lia|]).
  - done.
  - by destruct b.
  - cbn [writeJson reread]. destruct (number_text_spec x W) as [(c & t & E & H) _]. pose proof (number_reads x rest W R) as N.
    rewrite E in *. cbn [app] in *. by rewrite value_number, N by (by apply number_opens).
  - cbn [writeJson reread]. pose proof (string_reads s rest W) as E. unfold jsonEscape in *. cbn [app] in *. cbn [value]. rewrite ws_keep by done.
    cbn [ceq]. change (ch_quote =c "{") with false. change (ch_quote =c "[") with false. by rewrite ceq_refl, E.
  - apply writable_arr in W. assert (IH' : Forall reads l) by (clear - IH W; induction IH; inversion W; constructor; auto).
    cbn [writeJson reread] in *. destruct l as [|v l]; [done|]. cbn [app value]. rewrite ws_keep by done.
    change ("["%char =c "{") with false. rewrite ceq_refl. cbn [length] in F. rewrite length_app in F. cbn [length] in F.
    assert (A := elements_read (v :: l) [] rest f IH' ltac:(done) ltac:(lia)). rewrite <- app_assoc. cbn [app] in *.
    inversion W as [|? ? Wv _]. subst. destruct (starts_value v Wv) as (c & t & E & B & Q). cbn [map commas] in *. rewrite E in *. cbn [app] in *.
    rewrite ws_keep, Q by done. change ($"]" ++ rest) with ("]"%char :: rest). by rewrite A.
  - apply writable_obj in W as [D W]. assert (IH' : Forall (fun p => plain_text p.1 /\ reads p.2) l).
    { clear - IH W. induction IH; inversion W as [|? ? []]; constructor; auto. }
    cbn [writeJson reread] in *. destruct l as [|v l]; [done|]. cbn [app value]. rewrite ws_keep by done. rewrite ceq_refl.
    cbn [length] in F. rewrite length_app in F. cbn [length] in F.
    assert (A := object_reads (v :: l) [] rest f IH' ltac:(done) D ltac:(unfold writeMember; lia)). rewrite <- app_assoc. cbn [app] in *.
    destruct v as [k v]. assert (Ek : jsonEscape k = ch_quote :: concat (map escape k) ++ [ch_quote]) by done.
    unfold writeMember in A. cbn [map commas fst snd] in *. rewrite Ek in *. cbn [app] in *. rewrite ws_keep by done.
    change (ch_quote =c "}") with false. cbn iota. change ($"}" ++ rest) with ("}"%char :: rest). by rewrite A.
Qed.

(** C18: what the server writes, it reads. For every value whose strings hold no
    control character but line breaks, carriage returns and tabs, whose objects
    name a member once and whose numbers are finite, the text [writeJson] makes
    is parsed to the same value, members and elements in order, each number
    replaced by the one its six printed digits denote. *)
Theorem json_roundtrip v : writable v -> parseJson (writeJson v) = Some (reread v).
Proof.
  intros W. unfold parseJson. destruct (starts_value v W) as (c & s & E & B & _). rewrite E, ws_keep by done. rewrite <- E.
  pose proof (value_reads v W [] (json_fuel (writeJson v)) I ltac:(unfold json_fuel; lia)) as H. rewrite app_nil_r in H. by rewrite H.
Qed.

Definition sample_value : Json :=
  Obj [($"id", Num (atof $"7")); ($"s", Str ($"a" ++ [ch_quote; ch_nl])); ($"l", Arr [Null; Bool true; Num (atof $"-2.5"); Obj []])].

Lemma json_roundtrip_witness :
  writeJson sample_value = map (fun c => if c =c "'" then ch_quote else c) $"{'id':7,'s':'a\'\n','l':[null,true,-2.5,{}]}"
  /\ reread sample_value = sample_value /\ parseJson (writeJson sample_value) = Some (reread sample_value).
Proof.
  split; [vm_compute; reflexivity|]. split; [vm_compute; reflexivity|]. apply json_roundtrip. cbn. split_and!; try done; by_decision.
Defined.

(** ** Where the text changes *)

(** A number has six digits: an integer of seven comes back as another one. *)
Lemma large_number_rounded :
  writeJson (Num (atof $"1234567")) = $"1.23457e+06" /\ reread (Num (atof $"1234567")) = Num (atof $"1234570").
Proof. split; vm_compute; reflexivity. Qed.

(** A code point in hexadecimal is read as a question mark, and the escapes of
    a backspace and a form feed as letters. *)
Lemma escapes_misread :
  string_body $"caf\u00e9\b\f" = ($"caf?bf", []).
Proof. vm_compute. reflexivity. Qed.
