(* ===== verification/Lsp.v ===== *)
(** * The language server (src/lsp.cpp)

    [Server] is the document that is open and what was found in it. A message is
    handled on that state; [handle] returns the state with the bytes written to
    standard output, and [Throw] where the code dereferences a null pointer or
    converts a number no unsigned int holds. [parse] is the callback [ParseFn];
    [serve] reads frames from standard input. *)

From Stdlib Require Import SpecFloat.
From S2P Require Import Prelude.
From S2P Require Import Token.
From S2P Require Import Ast.
From S2P Require Import AstText.
From S2P Require Import IntTypes.
From S2P Require Import ExprParser.
From S2P Require Import ModuleSource.
From S2P Require Import Registry.
From S2P Require Import Lint.
From S2P Require Import Json.

(** ** Numbers and places *)

(** [makeNum] of an unsigned number. *)
Definition make_num (z : Z) : Json := Num (binary_normalize 53 1024 z 0 false).

(** [(unsigned)x]: towards zero; undefined where no unsigned int is. *)
Definition truncate (x : double) : option Z :=
  match x with
  | S754_zero _ => Some 0%Z
  | S754_finite s m e =>
      let a := (if 0 <=? e then Zpos m * 2 ^ e else Zpos m / 2 ^ (- e))%Z in
      if s : bool then (if (a =? 0)%Z then Some 0%Z else None) else if (a <? 2 ^ 32)%Z then Some a else None
  | _ => None
  end.

(** [(unsigned)pos->get(k)->num] *)
Definition coordinate (k : str) (pos : Json) : outcome Z :=
  match get k pos with
  | None => Throw (undefined_behaviour ($"pos->get('" ++ k ++ $"')->num"))
  | Some v => match truncate (json_num v) with Some z => Ok z | None => Throw (undefined_behaviour $"(unsigned)num") end
  end.

(** The lines of a text: there is one more than there are line breaks. *)
Fixpoint text_lines (cur text : str) : list str :=
  match text with
  | [] => [cur]
  | c :: text' => if c =c ch_nl then cur :: text_lines [] text' else text_lines (cur ++ [c]) text'
  end.

Definition line_at (text : str) (line0 : Z) : option str := text_lines [] text !! Z.to_nat line0.

Definition isw (c : ascii) : bool := isalnum c || (c =c "_") || (c =c ".").

(** The identifier around a place, dots allowed. *)
Definition wordAt (text : str) (line0 col0 : Z) : str :=
  match line_at text line0 with
  | None => []
  | Some ln =>
      let c := Nat.min (Z.to_nat col0) (length ln) in
      rev (take_while isw (rev (take c ln))) ++ take_while isw (drop c ln)
  end.

(** [s.rfind('.')]: what stands before the last dot, and behind it. *)
Definition last_dot (s : str) : option (str * str) :=
  let after := take_while (fun c => negb (c =c ".")) (rev s) in
  match drop_while (fun c => negb (c =c ".")) (rev s) with
  | [] => None
  | _ :: before => Some (rev before, rev after)
  end.

(** ** State *)

Record Symbol_ : Type := mkSymbol {
  sym_name : str;
  sym_kind : str;
  sym_line : Z;
  sym_col : Z;
  signature : str;
  doc : str
}.

Record Server : Type := mkServer {
  uri : str;
  text : str;
  symbols : list Symbol_;
  dotSuggest_ : list (str * str);
  shuttingDown : bool;
  stdout : str
}.

Definition Server_new : Server := mkServer [] [] [] [] false [].

Definition set_document (u t : str) (S : Server) : Server := mkServer u t (symbols S) (dotSuggest_ S) (shuttingDown S) (stdout S).
Definition set_index (l : list Symbol_) (d : list (str * str)) (S : Server) : Server := mkServer (uri S) (text S) l d (shuttingDown S) (stdout S).

(** ** Messages out *)

Definition frame (body : str) : str :=
  $"Content-Length: " ++ to_string (Z.of_nat (length body)) ++ [ch_cr; ch_nl; ch_cr; ch_nl] ++ body.

Definition send (msg : Json) (S : Server) : Server :=
  mkServer (uri S) (text S) (symbols S) (dotSuggest_ S) (shuttingDown S) (stdout S ++ frame (writeJson msg)).

(** An object, its members set in order. *)
Definition make_obj (l : list (str * Json)) : Json := foldl (fun o p => set p.1 p.2 o) (Obj []) l.

Definition response (id : option Json) (result : Json) : Json :=
  make_obj [($"jsonrpc", Str $"2.0"); ($"id", default Null id); ($"result", result)].
Definition writeResponse (id : option Json) (result : Json) (S : Server) : Server := send (response id result) S.

Definition notification (method : str) (params : Json) : Json :=
  make_obj [($"jsonrpc", Str $"2.0"); ($"method", Str method); ($"params", params)].
Definition notify (method : str) (params : Json) (S : Server) : Server := send (notification method params) S.

(** ** The document model *)

Definition comma_separated (l : list str) : str := match l with [] => [] | s :: l' => s ++ concat (map (fun t => $", " ++ t) l') end.

Definition function_signature (nm : str) (params : list FunctionParameter) (ret : option TypeNode) : str :=
  let one p := match p with
               | mkFunctionParameter i t _ => name i ++ match t with Some t => $"<" ++ TypeNode_toString t ++ $">" | None => [] end
               end in
  nm ++ $"(" ++ comma_separated (map one params) ++ $")" ++ match ret with Some t => $"<" ++ TypeNode_toString t ++ $">" | None => [] end.

(** The symbol of a declaration that has one; the comment field stays empty. *)
Definition buildSymbol (d : Statement) : option Symbol_ :=
  let l := loc (Statement_node d) in
  let make nm kind sig := Some (mkSymbol nm kind (line l) (column l) sig []) in
  match d with
  | FunctionDeclaration (mkFunction _ (Some i) _ ps _ _ _ _ r _) => make (name i) $"function" (function_signature (name i) ps r)
  | StructDeclaration _ (Some i) _ _ _ _ => make (name i) $"struct" ($"struct " ++ name i)
  | EnumDeclaration _ (Some i) _ _ => make (name i) $"enum" ($"enum " ++ name i)
  | TypeAliasDeclaration _ (Some i) _ => make (name i) $"alias" ($"type " ++ name i)
  | AspectDeclaration _ (Some i) _ _ _ _ _ _ => make (name i) $"aspect" ($"aspect " ++ name i)
  | ImportDeclaration _ _ (Some s) _ _ _ _ => make (str_value s) $"import" ($"import " ++ str_value s)
  | BindDeclaration _ _ _ _ self _ _ =>
      let nm := match self with Some t => $"bind " ++ TypeNode_toString t | None => $"bind" end in make nm $"bind" nm
  | _ => None
  end.

(** What [obj.] may be followed by. *)
Definition members_of (d : Statement) : list (str * str) :=
  match d with
  | StructDeclaration _ _ _ fs _ _ =>
      concat (map (fun f => match f with Some (mkField _ (Some i) _ _ _) => [(name i, $"field")] | _ => [] end) fs)
  | BindDeclaration _ _ _ _ _ _ ms =>
      concat (map (fun f => match f with Some (mkFunction _ (Some i) _ _ _ _ _ _ _ _) => [(name i, $"method")] | _ => [] end) ms)
  | _ => []
  end.

Definition index_statement (s : option Statement) : list (Symbol_ * list (str * str)) :=
  match s with
  | Some d => if is_declaration d then match buildSymbol d with Some y => [(y, members_of d)] | None => [] end else []
  | None => []
  end.

Definition module_index (m : option Module_) : list (Symbol_ * list (str * str)) :=
  match m with Some m => concat (map index_statement (module_body m)) | None => [] end.

Definition findSymbol (n : str) (l : list Symbol_) : option Symbol_ := List.find (fun s => sym_name s =s n) l.

(** The symbol of a word, or of what follows its last dot. *)
Definition lookup_symbol (w : str) (l : list Symbol_) : option Symbol_ :=
  match findSymbol w l with
  | Some s => Some s
  | None => match last_dot w with Some (_, after) => findSymbol after l | None => None end
  end.

(** ** Diagnostics *)

Definition position (l c : Z) : Json := make_obj [($"line", make_num l); ($"character", make_num c)].
Definition range (l1 c1 l2 c2 : Z) : Json := make_obj [($"start", position l1 c1); ($"end", position l2 c2)].

Definition diagnostic (line0 char0 endLine : Z) (msg : str) (severity : Z) : Json :=
  make_obj [($"range", range line0 char0 endLine (to_uint32 (char0 + 1))); ($"severity", make_num severity); ($"message", Str msg)].

(** What follows the first occurrence of [p], and where it starts. *)
Fixpoint find_index (p s : str) : option (nat * str) :=
  match strip_prefix p s with
  | Some rest => Some (0, rest)
  | None => match s with [] => None | _ :: s' => '(i, rest) ← find_index p s'; Some (S i, rest) end
  end.

Definition without_scheme (u : str) : str := match find_index $"://" u with Some (_, rest) => rest | None => u end.

(** [%u]: blanks, a sign, digits. *)
Definition scan_unsigned (s : str) : option (Z * str) :=
  let s := drop_while isspace s in
  let '(neg, s) := match s with
                   | c :: s' => if c =c "-" then (true, s') else if c =c "+" then (false, s') else (false, s)
                   | [] => (false, [])
                   end in
  match take_while is_dec s with
  | [] => None
  | ds => let v := digits_value 10 0 ds in Some (to_uint32 (if neg : bool then - v else v)%Z, drop_while is_dec s)
  end.

(** [sscanf(w, "%*[^:]:%u:%u: warning: ", &line, &col) == 2] *)
Definition warning_place (w : str) : option (Z * Z) :=
  let s := take_while (fun c => negb (c =c ch_nul)) w in
  match take_while (fun c => negb (c =c ":")) s with
  | [] => None
  | _ =>
      match drop_while (fun c => negb (c =c ":")) s with
      | [] => None
      | _ :: s1 =>
          '(l, s2) ← scan_unsigned s1;
          match s2 with
          | c :: s3 => if c =c ":" then '(k, _) ← scan_unsigned s3; Some (l, k) else None
          | [] => None
          end
      end
  end.

(** [w.substr(w.find("warning:") + 8)]; [npos + 8] is 7. *)
Definition warning_message (w : str) : outcome str :=
  m ← (match find_index $"warning:" w with
       | Some (_, rest) => Ok rest
       | None => if length w <? 7 then Throw (out_of_range $"basic_string::substr") else Ok (drop 7 w)
       end);
  Ok (skip_char " " m).

(** One warning of the linter, if it has the form; places are counted from 0. *)
Definition lint_diagnostic (w : str) : outcome (list Json) :=
  match warning_place w with
  | None => Ok []
  | Some (l, c) =>
      msg ← warning_message w;
      Ok [diagnostic (if 0 <? l then l - 1 else 0)%Z (if 0 <? c then c - 1 else 0)%Z (if 0 <? l then l else 1)%Z msg 2]
  end.

Fixpoint lint_diagnostics (ws : list str) : outcome (list Json) :=
  match ws with [] => Ok [] | w :: ws' => d ← lint_diagnostic w; ds ← lint_diagnostics ws'; Ok (d ++ ds) end.

Section Server.
Context (parse : str -> str -> outcome (option Module_ * list str)). (** source and uri to module and errors *)

Definition reindex (S : Server) : outcome Server :=
  '(m, _) ← parse (text S) (uri S);
  let l := module_index m in Ok (set_index (map fst l) (concat (map snd l)) S).

Definition publishDiagnostics (S : Server) : outcome Server :=
  '(m, errors) ← parse (text S) (uri S);
  let parse_errors := map (fun e => diagnostic 0 0 1 ($"parse error: " ++ e) 1) errors in
  warns ← (match m with
           | Some m => '(ws, _) ← lintModule (Some m) (without_scheme (uri S)) []; lint_diagnostics ws
           | None => Ok []
           end);
  Ok (notify $"textDocument/publishDiagnostics"
        (make_obj [($"uri", Str (uri S)); ($"diagnostics", Arr (parse_errors ++ warns))]) S).

(** ** Requests *)

Definition hover_contents (s : Symbol_) : str :=
  $"**" ++ sym_kind s ++ $"** " ++ signature s ++ [ch_nl; ch_nl] ++ doc s.

Definition hoverAt (params : Json) (S : Server) : outcome Json :=
  match get $"position" params, get $"textDocument" params with
  | Some pos, Some _ =>
      l ← coordinate $"line" pos; c ← coordinate $"character" pos;
      Ok (match wordAt (text S) l c with
          | [] => Null
          | w => match lookup_symbol w (symbols S) with
                 | None => Null
                 | Some s => make_obj [($"contents", make_obj [($"kind", Str $"markdown"); ($"value", Str (hover_contents s))])]
                 end
          end)
  | _, _ => Ok Null
  end.

(** Lines and columns are unsigned, the length of a name is a size. *)
Definition definition_range (s : Symbol_) : Json :=
  let l := to_uint32 (sym_line s - 1) in
  let c := to_uint32 (sym_col s - 1) in
  range l c l (to_uint64 (c + Z.of_nat (length (sym_name s)))).

Definition definitionAt (params : Json) (S : Server) : outcome Json :=
  match get $"position" params with
  | Some pos =>
      l ← coordinate $"line" pos; c ← coordinate $"character" pos;
      Ok (match wordAt (text S) l c with
          | [] => Null
          | w => match lookup_symbol w (symbols S) with
                 | None => Null
                 | Some s => make_obj [($"range", definition_range s); ($"uri", Str (uri S))]
                 end
          end)
  | None => Ok Null
  end.

Definition before_cursor (t : str) (line0 col0 : Z) : str :=
  match line_at t line0 with Some ln => take (Z.to_nat col0) ln | None => [] end.

(** A dot behind a word, or at the start of the line: what is typed after it. *)
Definition member_filter (before : str) : option str :=
  match last_dot before with
  | None => None
  | Some (obj, filter) =>
      match last obj with
      | Some c => if isalnum c || (c =c "_") then Some filter else None
      | None => Some filter
      end
  end.

Definition completion_item (label detail : str) (kind : Z) : Json :=
  make_obj [($"label", Str label); ($"kind", make_num kind); ($"detail", Str detail)].

Definition member_kind (k : str) : Z := (if k =s $"field" then 4 else if k =s $"method" then 2 else 6)%Z.
Definition symbol_kind (k : str) : Z := (if k =s $"function" then 3 else if (k =s $"struct") || (k =s $"class") then 7 else 6)%Z.

Definition is_prefix (p s : str) : bool := match strip_prefix p s with Some _ => true | None => false end.

Definition completions (params : Json) (S : Server) : outcome Json :=
  match get $"position" params with
  | None => Ok (Arr [])
  | Some pos =>
      l ← coordinate $"line" pos; c ← coordinate $"character" pos;
      Ok (Arr (match member_filter (before_cursor (text S) l c) with
               | Some filter =>
                   map (fun d => completion_item d.1 d.2 (member_kind d.2)) (List.filter (fun d => is_prefix filter d.1) (dotSuggest_ S))
               | None =>
                   let prefix := wordAt (text S) l c in
                   map (fun s => completion_item (sym_name s) (sym_kind s) (symbol_kind (sym_kind s)))
                     (List.filter (fun s => is_prefix prefix (sym_name s)) (symbols S))
               end))
  end.

Definition capabilities : Json :=
  make_obj [($"textDocumentSync", make_obj [($"openClose", Bool true); ($"change", make_num 1)]); ($"hoverProvider", Bool true);
            ($"definitionProvider", Bool true); ($"completionProvider", make_obj [($"triggerCharacters", Arr [Str $"."])])].

Definition initialize_result : Json :=
  make_obj [($"capabilities", capabilities); ($"serverInfo", make_obj [($"name", Str $"vyb-lsp"); ($"version", Str $"0.1")])].

(** The text of an open or a change; without one the text stays. *)
Definition new_text (opened : bool) (params td : Json) (old : str) : str :=
  if opened then match get $"text" td with Some t => json_s t | None => old end
  else match get $"contentChanges" params with
       | Some ch => match last (json_arr ch) with
                    | Some c => match get $"text" c with Some t => json_s t | None => old end
                    | None => old
                    end
       | None => old
       end.

Definition document_changed (opened : bool) (params : option Json) (S : Server) : outcome Server :=
  match params with
  | Some p =>
      match get $"textDocument" p with
      | Some td =>
          match get $"uri" td with
          | Some u => S1 ← reindex (set_document (json_s u) (new_text opened p td (text S)) S); publishDiagnostics S1
          | None => Ok S
          end
      | None => Ok S
      end
  | None => Ok S
  end.

(** [params ? handler( *params) : null] *)
Definition answer (handler : Json -> Server -> outcome Json) (id params : option Json) (S : Server) : outcome Server :=
  r ← (match params with Some p => handler p S | None => Ok Null end); Ok (writeResponse id r S).

(** The parser never fails ([parse_total]). *)
Definition request (body : str) : Json := default Null (parseJson body).

(** [handleMessageDispatch]: the flag asks the loop to end. *)
Definition handle (body : str) (S : Server) : outcome (bool * Server) :=
  let req := request body in
  let id := get $"id" req in
  let params := get $"params" req in
  match get $"method" req with
  | None => Ok (false, S)
  | Some method =>
      let m := json_s method in
      let stay (r : outcome Server) := S' ← r; Ok (false, S') in
      if m =s $"initialize" then Ok (false, writeResponse id initialize_result S)
      else if m =s $"initialized" then Ok (false, S)
      else if m =s $"shutdown" then
        Ok (false, writeResponse id Null (mkServer (uri S) (text S) (symbols S) (dotSuggest_ S) true (stdout S)))
      else if m =s $"exit" then Ok (true, S)
      else if (m =s $"textDocument/didOpen") || (m =s $"textDocument/didChange") then
        stay (document_changed (m =s $"textDocument/didOpen") params S)
      else if m =s $"textDocument/didClose" then Ok (false, mkServer [] [] [] (dotSuggest_ S) (shuttingDown S) (stdout S))
      else if m =s $"textDocument/hover" then stay (answer hoverAt id params S)
      else if m =s $"textDocument/definition" then stay (answer definitionAt id params S)
      else if m =s $"textDocument/completion" then stay (answer completions id params S)
      else if (m =s $"$/cancelRequest") || (m =s $"textDocument/didSave") then Ok (false, S)
      else Ok (false, writeResponse id Null S)
  end.

(** ** Frames in *)

(** [std::strtoul] in base ten: saturated, a minus sign wraps. *)
Definition strtoul (s : str) : Z :=
  let s := drop_while isspace s in
  let '(neg, s) := match s with
                   | c :: s' => if c =c "-" then (true, s') else if c =c "+" then (false, s') else (false, s)
                   | [] => (false, [])
                   end in
  let v := digits_value 10 0 (take_while is_dec s) in
  if (2 ^ 64 <=? v)%Z then (2 ^ 64 - 1)%Z else if neg : bool then to_uint64 (- v) else v.

Definition trim_cr (line : str) : str := match last line with Some c => if c =c ch_cr then removelast line else line | None => line end.

Definition header_length (line : str) (len : Z) : Z :=
  match strip_prefix $"Content-Length:" (trim_cr line) with Some r => strtoul r | None => len end.

(** The header lines up to one that is empty, or the end of the input: the
    length, whether there was a line, and what is left. *)
Fixpoint headers (cur : str) (got : bool) (len : Z) (input : str) : Z * bool * str :=
  match input with
  | [] => match cur with [] => (len, got, []) | _ => ((if cur =s [ch_cr] then len else header_length cur len), true, []) end
  | c :: input' =>
      if c =c ch_nl then if cur =s [ch_cr] then (len, true, input') else headers [] true (header_length cur len) input'
      else headers (cur ++ [c]) got len input'
  end.

(** [serveLsp]: the loop, one level of fuel per message. *)
Fixpoint serve (fuel : nat) (input : str) (S : Server) : option (outcome Server) :=
  match fuel with
  | O => None
  | Datatypes.S f =>
      let '(len, got, rest) := headers [] false 0 input in
      if negb got || (len =? 0)%Z || (Z.of_nat (length rest) <? len)%Z then Some (Ok S)
      else
        let n := Z.to_nat len in
        match handle (take n rest) S with
        | Throw e => Some (Throw e)
        | Ok (true, S') => Some (Ok S')
        | Ok (false, S') => serve f (drop n rest) S'
        end
  end.

Definition serveLsp (input : str) : option (outcome Server) := serve (Datatypes.S (length input)) input Server_new.
End Server.

(** ** The parser the driver passes (src/main.cpp, [run_lsp_command]) *)

(** [parse_vyb_module] without resolving imports, so that one level of fuel is
    enough ([lsp_parse_returns]); what it throws is the only error. *)
Definition lsp_parse (FS : FileSystem) (args_ltr c23_strtoll device : bool) (order : gset str -> list str)
    (options : ModuleRegistryOptions) (counter : Z) (source uri : str) : outcome (option Module_ * list str) :=
  let options := mkOptions (cliModulePaths options) (executablePath options) true (privilegedModules options) in
  match resolveRoot FS options args_ltr c23_strtoll device order 1 source uri (ModuleRegistry_new counter) with
  | Some (Ok m, _) => Ok (Some m, [])
  | Some (Throw (undefined_behaviour e), _) => Throw (undefined_behaviour e)
  | Some (Throw e, _) => Ok (None, [what e])
  | None => Throw (undefined_behaviour $"no result")
  end.
