(* ===== verification/LspProps.v ===== *)
(** * The language server keeps its promises

    A frame that is sent is a frame that is read; every request is answered once,
    under its id as the server writes it; what the server knows of a document is what its parser says of
    the text it has. Then where it does not do what the protocol asks. *)

From Stdlib Require Import SpecFloat.
From S2P Require Import Prelude.
From S2P Require Import Token.
From S2P Require Import Ast.
From S2P Require Import AstText.
From S2P Require Import IntTypes.
From S2P Require Import ExprParser.
From S2P Require Import ModuleSource.
From S2P Require Import Registry.
From S2P Require Import RegistryProps.
From S2P Require Import Lint.
From S2P Require Import Json.
From S2P Require Import Lsp.

(** ** Framing *)

Lemma headers_line cur got len line rest : ch_nl ∉ line ->
  headers cur got len (line ++ ch_nl :: rest)
  = if cur ++ line =s [ch_cr] then (len, true, rest) else headers [] true (header_length (cur ++ line) len) rest.
Proof.
  revert cur. induction line as [|c line IH]; intros cur N; [cbn [app headers]; by rewrite ceq_refl, app_nil_r|].
  apply not_elem_of_cons in N as [Nc N]. cbn [app headers]. rewrite (proj2 (ceq_false c ch_nl)) by (intros ->; done). rewrite IH by done.
  by rewrite <- app_assoc.
Qed.

Lemma digits_no_char s c : digits s -> is_dec c = false -> c ∉ s.
Proof.
  unfold digits. intros H D Hc. apply list_elem_of_In in Hc. pose proof (proj1 (forallb_forall _ _) H c Hc) as T. by rewrite T in D.
Qed.

Lemma to_string_value z : (0 <= z)%Z -> digits_value 10 0 (to_string z) = z.
Proof.
  intros H. destruct z as [|p|p]; [done| |lia]. assert (Hb : (N.pos p < 10 ^ N.of_nat (N.to_nat (N.pos p)))%N).
  { rewrite N2Nat.id. apply N.pow_gt_lin_r. lia. }
  by rewrite (to_string_pos p _ Hb), digit_loop_value.
Qed.

Lemma strtoul_reads z : (0 <= z < 2 ^ 64)%Z -> strtoul ($" " ++ to_string z) = z.
Proof.
  intros H. destruct (to_string_dec z ltac:(lia)) as [D N]. unfold strtoul.
  assert (E : drop_while isspace ($" " ++ to_string z) = to_string z).
  { cbn. destruct (to_string z) as [|c s]; [done|]. cbn in D. apply andb_true_iff in D as [D _]. cbn.
    by destruct c as [[] [] [] [] [] [] [] []]. }
  rewrite E. assert (S : forall c, is_dec c = true -> (c =c "-") = false /\ (c =c "+") = false).
  { intros c. by destruct c as [[] [] [] [] [] [] [] []]. }
  assert (T : take_while is_dec (to_string z) = to_string z).
  { rewrite <- (app_nil_r (to_string z)) at 1. rewrite take_while_app; [by rewrite app_nil_r|]. apply List.Forall_forall. by apply forallb_forall. }
  pose proof (to_string_value z ltac:(lia)) as V. destruct (to_string z) as [|c s] eqn:Z; [done|].
  cbn in D. apply andb_true_iff in D as [D _]. destruct (S c D) as [-> ->]. rewrite T, V.
  by rewrite (proj2 (Z.leb_gt _ _)) by lia.
Qed.

Lemma frame_reads body rest : (Z.of_nat (length body) < 2 ^ 64)%Z ->
  headers [] false 0 (frame body ++ rest) = (Z.of_nat (length body), true, body ++ rest).
Proof.
  intros H. set (n := Z.of_nat (length body)) in *. destruct (to_string_dec n ltac:(lia)) as [D _].
  set (first := $"Content-Length: " ++ to_string n ++ [ch_cr]).
  assert (F : frame body ++ rest = first ++ ch_nl :: [ch_cr] ++ ch_nl :: body ++ rest).
  { unfold frame, first. rewrite <- !app_assoc. by cbn. }
  rewrite F, headers_line. 2: { unfold first. rewrite !not_elem_of_app. split_and!; [by_decision|by apply digits_no_char|by_decision]. }
  cbn [app]. rewrite (proj2 (streq_false _ _)) by done. change (ch_cr :: ch_nl :: body ++ rest) with ([ch_cr] ++ ch_nl :: (body ++ rest)).
  rewrite headers_line by by_decision. cbn [app]. rewrite (proj2 (streq_true _ _)) by done.
  unfold header_length, trim_cr, first. rewrite app_assoc, last_snoc, ceq_refl, removelast_last.
  change ($"Content-Length: " ++ to_string n) with ($"Content-Length:" ++ $" " ++ to_string n).
  assert (P : forall p s, strip_prefix p (p ++ s) = Some s).
  { induction p as [|c p IH]; intros s; [by destruct s|]. cbn. by rewrite ceq_refl. }
  rewrite P, strtoul_reads by (unfold n in *; lia). done.
Qed.

Definition quoted (s : str) : str := map (fun c => if c =c "'" then ch_quote else c) s.

(** The body of a response: the id as [writeJson] writes it (a number with six
    significant digits), [null] where the request names none. *)
Definition response_text (id : option Json) (result : Json) : str :=
  quoted $"{'jsonrpc':'2.0','id':" ++ writeJson (default Null id) ++ quoted $",'result':" ++ writeJson result ++ $"}".

Lemma response_written id result : writeJson (response id result) = response_text id result.
Proof.
  change (response id result) with (Obj [($"jsonrpc", Str $"2.0"); ($"id", default Null id); ($"result", result)]).
  unfold response_text. cbn [writeJson map fst snd]. generalize (writeJson (default Null id)) (writeJson result). intros a b.
  unfold commas. cbn [map concat]. rewrite <- !app_assoc. reflexivity.
Qed.

Section Server.
Context (parse : str -> str -> outcome (option Module_ * list str)).

(** Messages one after the other, up to one that ends the server. *)
Fixpoint handle_all (bodies : list str) (S : Server) : outcome Server :=
  match bodies with
  | [] => Ok S
  | b :: bodies' => '(stop, S') ← handle parse b S; if stop : bool then Ok S' else handle_all bodies' S'
  end.

Lemma serve_frames bodies fuel S : Forall (fun b => b <> [] /\ (Z.of_nat (length b) < 2 ^ 64)%Z) bodies -> length bodies < fuel ->
  serve parse fuel (concat (map frame bodies)) S = Some (handle_all bodies S).
Proof.
  intros H. revert fuel S. induction H as [|b bodies [Nb Hb] _ IH]; intros [|f] S F; try (cbn in F; lia); [done|].
  cbn [map concat serve handle_all]. rewrite frame_reads by done.
  rewrite (proj2 (Z.eqb_neq _ _)) by (destruct b; [done|cbn; lia]). rewrite length_app, (proj2 (Z.ltb_ge _ _)) by lia. cbn [negb orb].
  rewrite Nat2Z.id, take_app_length, drop_app_length. destruct (handle parse b S) as [[[] S']|e]; cbn; [done| |done].
  apply IH. cbn in F. lia.
Qed.

Lemma headers_le input : forall cur got len, length (headers cur got len input).2 <= length input.
Proof.
  induction input as [|c input IH]; intros cur got len; cbn [headers]; [by destruct cur|].
  repeat case_if; cbn [length]; try (cbn; lia); eapply Nat.le_trans; try apply IH; lia.
Qed.

(** Where there was a line, a byte was read. *)
Lemma headers_lt len input len' rest : headers [] false len input = (len', true, rest) -> length rest < length input.
Proof.
  destruct input as [|c input]; [done|]. cbn [headers]. intros H. enough (length rest <= length input) by (cbn; lia).
  pose proof (headers_le input [] true (header_length [] len)) as L1. pose proof (headers_le input [c] false len) as L2.
  destruct (c =c ch_nl); [change ([] =s [ch_cr]) with false in H; rewrite H in L1; done|]. cbn [app] in H. by rewrite H in L2.
Qed.

Lemma serve_total fuel input S : length input < fuel -> exists r, serve parse fuel input S = Some r.
Proof.
  revert input S. induction fuel as [|f IH]; intros input S H; [lia|]. cbn [serve]. pose proof (headers_lt 0 input) as L.
  destruct (headers [] false 0 input) as [[len got] rest]. destruct got; [|by eexists]. specialize (L len rest eq_refl).
  destruct (_ || _ || _); [by eexists|]. destruct (handle parse _ S) as [[[] S']|e]; [by eexists| |by eexists].
  apply IH. rewrite length_drop. lia.
Qed.

(** ** What a message does *)

Definition silent (m : str) : bool :=
  in_list m [$"initialized"; $"exit"; $"textDocument/didClose"; $"$/cancelRequest"; $"textDocument/didSave"].
Definition changes (m : str) : bool := in_list m [$"textDocument/didOpen"; $"textDocument/didChange"].

(** What the server writes for a method. *)
Definition written_for (id : option Json) (m out : str) : Prop :=
  if silent m then out = []
  else if changes m then out = [] \/ exists params, out = frame (writeJson (notification $"textDocument/publishDiagnostics" params))
  else exists result, out = frame (response_text id result).

Definition written (body out : str) : Prop :=
  match get $"method" (request body) with
  | None => out = []
  | Some m => written_for (get $"id" (request body)) (json_s m) out
  end.

Lemma document_changed_out opened params S S' : document_changed parse opened params S = Ok S' ->
  S' = S \/ exists p, stdout S' = stdout S ++ frame (writeJson (notification $"textDocument/publishDiagnostics" p)).
Proof.
  unfold document_changed. intros H. destruct params as [p|]; [|left; congruence]. destruct (get _ p) as [td|]; [|left; congruence].
  destruct (get _ td) as [u|]; [|left; congruence]. right. apply bind_Ok in H as (S1 & H1 & H2).
  assert (E : stdout S1 = stdout S).
  { unfold reindex in H1. apply bind_Ok in H1 as ([m e] & _ & [= <-]). done. }
  unfold publishDiagnostics in H2. apply bind_Ok in H2 as ([m errs] & _ & H2). apply bind_Ok in H2 as (ws & _ & [= <-]).
  eexists. cbn. rewrite E. done.
Qed.

Lemma answer_out handler id params S S' : answer handler id params S = Ok S' -> exists r, S' = writeResponse id r S.
Proof. unfold answer. intros H. apply bind_Ok in H as (r & _ & [= <-]). by exists r. Qed.

Lemma handle_out body S stop S' : handle parse body S = Ok (stop, S') -> exists out, stdout S' = stdout S ++ out /\ written body out.
Proof.
  unfold handle, written. destruct (get $"method" (request body)) as [m|]; [|intros [= <- <-]; exists []; by rewrite app_nil_r].
  set (k := json_s m). set (id := get $"id" (request body)). intros H.
  assert (Answered : forall r S0, S' = writeResponse id r S0 -> stdout S0 = stdout S -> silent k = false -> changes k = false ->
    exists out, stdout S' = stdout S ++ out /\ written_for id k out).
  { intros r S0 -> E Q1 Q2. unfold written_for. rewrite Q1, Q2. eexists. split; [|by exists r]. unfold writeResponse, send. cbn [stdout]. by rewrite E, response_written. }
  assert (Quiet : silent k = true -> stdout S' = stdout S -> exists out, stdout S' = stdout S ++ out /\ written_for id k out).
  { intros Q E. exists []. rewrite app_nil_r. split; [done|]. unfold written_for. by rewrite Q. }
  assert (Answers : forall h, (S' ← answer h id (get $"params" (request body)) S; Ok (false, S')) = Ok (stop, S') ->
    silent k = false -> changes k = false -> exists out, stdout S' = stdout S ++ out /\ written_for id k out).
  { intros h E Q1 Q2. apply bind_Ok in E as (S1 & E & [= <- <-]). apply answer_out in E as [r ->]. by eapply (Answered r S). }
  assert (Changed : forall o, (S' ← document_changed parse o (get $"params" (request body)) S; Ok (false, S')) = Ok (stop, S') ->
    silent k = false -> changes k = true -> exists out, stdout S' = stdout S ++ out /\ written_for id k out).
  { intros o E Q1 Q2. apply bind_Ok in E as (S1 & E & [= <- <-]). unfold written_for. rewrite Q1, Q2.
    apply document_changed_out in E as [->|[p E]]; [exists []; rewrite app_nil_r; by split; [|left]|eexists; split; [done|right; by exists p]]. }
  repeat match type of H with
  | (if k =s ?t then _ else _) = _ => destruct (k =s t) eqn:?
  | (if (k =s ?t) || (k =s ?u) then _ else _) = _ => destruct (k =s t) eqn:?; [|destruct (k =s u) eqn:?]; cbn [orb] in H
  end;
  repeat match goal with E : (k =s _) = true |- _ => apply streq_true in E; rewrite E in * end;
  first [by eapply Answers | by eapply Changed | injection H as <- <-; first [by apply Quiet | by eapply Answered | idtac]].
  eapply (Answered Null S); [done|done|..]; unfold silent, changes, in_list; cbn [existsb];
    repeat match goal with E : (k =s _) = false |- _ => rewrite E; clear E end; done.
Qed.

Lemma handle_all_out bodies S S' : handle_all bodies S = Ok S' ->
  exists read unread outs, bodies = read ++ unread /\ Forall2 written read outs /\ stdout S' = stdout S ++ concat outs.
Proof.
  revert S. induction bodies as [|b bodies IH]; intros S H; [injection H as <-; exists [], [], []; split_and!; [done|constructor|by rewrite app_nil_r]|].
  cbn in H. apply bind_Ok in H as ([stop S1] & H1 & H2). destruct (handle_out b S stop S1 H1) as (out & E & W). destruct stop.
  - injection H2 as <-. exists [b], bodies, [out]. split_and!; [done|by repeat constructor|]. cbn. by rewrite app_nil_r.
  - destruct (IH S1 H2) as (read & unread & outs & -> & F & E2). exists (b :: read), unread, (out :: outs).
    split_and!; [done|by constructor|]. cbn. by rewrite E2, E, app_assoc.
Qed.

Lemma frames_length bodies : length bodies <= length (concat (map frame bodies)).
Proof. induction bodies as [|b bodies IH]; [done|]. cbn [map concat]. unfold frame at 1. rewrite !length_app. cbn in *. lia. Qed.

(** C17: a session on standard input and output. When a client frames its
    messages as the server frames its own, each is read as it was sent, and
    handled in order up to one that asks to exit; and unless one of them makes
    the server dereference a null pointer, what it has written is, message by
    message: nothing for a notification, at most one list of diagnostics for an
    opened or changed document, and for every other method one response, whose
    id is that of the request as [writeJson] writes it: a number keeps six
    significant digits, so an id of seven digits is answered as another
    ([large_id_changed]). A message that makes the server dereference a null
    pointer ends the session ([no_line_crashes]). *)
Theorem session_answered bodies : Forall (fun b => b <> [] /\ (Z.of_nat (length b) < 2 ^ 64)%Z) bodies ->
  serveLsp parse (concat (map frame bodies)) = Some (handle_all bodies Server_new)
  /\ forall S, handle_all bodies Server_new = Ok S ->
     exists read unread outs, bodies = read ++ unread /\ Forall2 written read outs /\ stdout S = concat outs.
Proof.
  intros H. split; [|intros S; apply handle_all_out]. apply serve_frames; [done|]. pose proof (frames_length bodies). lia.
Qed.

(** ** What the server knows *)

(** The symbols are those of the text, or nothing is open. *)
Definition up_to_date (S : Server) : Prop :=
  (text S = [] /\ symbols S = [])
  \/ exists m errors, parse (text S) (uri S) = Ok (m, errors) /\ symbols S = map fst (module_index m).

Lemma document_changed_current opened params S S' : document_changed parse opened params S = Ok S' -> up_to_date S -> up_to_date S'.
Proof.
  unfold document_changed. intros H U. destruct params as [p|]; [|congruence]. destruct (get _ p) as [td|]; [|congruence].
  destruct (get _ td) as [u|]; [|congruence]. apply bind_Ok in H as (S1 & H1 & H2).
  unfold reindex in H1. apply bind_Ok in H1 as ([m e] & H1 & [= <-]).
  unfold publishDiagnostics in H2. apply bind_Ok in H2 as ([m2 e2] & H2 & H3). apply bind_Ok in H3 as (ws & _ & [= <-]).
  right. exists m, e. by split.
Qed.

Lemma handle_current body S stop S' : handle parse body S = Ok (stop, S') -> up_to_date S -> up_to_date S'.
Proof.
  unfold handle. destruct (get $"method" (request body)) as [m|]; [|by intros [= <- <-]]. intros H U.
  assert (Answers : forall h, (S' ← answer h (get $"id" (request body)) (get $"params" (request body)) S; Ok (false, S')) = Ok (stop, S') -> up_to_date S').
  { intros h E. apply bind_Ok in E as (S1 & E & [= <- <-]). by apply answer_out in E as [r ->]. }
  repeat match type of H with (if ?b then _ else _) = _ => destruct b end;
  first [by eapply Answers | by injection H as <- <- | by injection H as <- <-; left
        | apply bind_Ok in H as (S1 & H & [= <- <-]); by eapply document_changed_current].
Qed.

(** C26: the server answers about the text it has. Whatever bytes arrive, the
    loop ends, and unless a message makes the server dereference a null pointer
    the symbols it looks definitions, hovers and completions up in are exactly
    those of the module its parser makes of the text and uri of the open
    document; after a document is closed there are none. *)
Theorem symbols_up_to_date input : exists r, serveLsp parse input = Some r /\ forall S, r = Ok S -> up_to_date S.
Proof.
  assert (G : forall fuel i S0 S, up_to_date S0 -> serve parse fuel i S0 = Some (Ok S) -> up_to_date S).
  { induction fuel as [|f IH]; intros i S0 S U E; [done|]. cbn [serve] in E. destruct (headers [] false 0 i) as [[len got] rest].
    destruct (_ || _ || _); [by injection E as <-|]. destruct (handle parse _ S0) as [[stop S1]|e] eqn:H; [|done].
    pose proof (handle_current _ _ _ _ H U). destruct stop; [by injection E as <-|by eapply IH]. }
  destruct (serve_total (Datatypes.S (length input)) input Server_new ltac:(lia)) as [r E]. exists r. split; [done|].
  intros S ->. eapply G; [|exact E]. by left.
Qed.
End Server.

(** ** The driver's parser *)

(** A computation that returns or throws. *)
Definition total {A} (m : reg A) : Prop := forall R, exists o R', m R = Some (o, R').

Lemma quiet_total {A} (m : reg A) : quiet m -> total m.
Proof. intros Q R. destruct (Q R) as (o & R' & E & _). by exists o, R'. Qed.
Lemma total_bind {A B} (m : reg A) (k : A -> reg B) : total m -> (forall a, total (k a)) -> total (m ≫= k).
Proof.
  intros Hm Hk R. destruct (Hm R) as ([a|e] & R' & E); [rewrite (bind_ok _ _ _ _ _ E); apply Hk|].
  rewrite (bind_throw _ _ _ _ _ E). by eexists _, _.
Qed.
Lemma modify_total f : total (modify f).
Proof. intros R. by eexists _, _. Qed.

Section Driver.
Context (FS : FileSystem) (args_ltr c23_strtoll device : bool) (order : gset str -> list str) (options : ModuleRegistryOptions).
Hypothesis (skips : skipImportResolution options = true).

Lemma quiet_statements resolve cur path bundles shares body L :
  quiet (module_statements FS options args_ltr order resolve cur path bundles shares body L).
Proof.
  revert L. induction body as [|s body IH]; intros L; cbn [module_statements]; [apply quiet_ret|]. apply quiet_bind; [|done].
  unfold module_statement. rewrite skips. destruct s as [[]|]; try apply quiet_ret. apply quiet_bind; [apply quiet_outcome|intros ns; apply quiet_ret].
Qed.

Lemma resolve_total resolve cur path text : total (resolve_parsed FS options args_ltr c23_strtoll device order resolve cur path text).
Proof.
  unfold resolve_parsed.
  apply total_bind; [apply quiet_total, quiet_outcome|intros meta].
  apply total_bind; [apply quiet_total, quiet_rethrowing, quiet_parse|intros m].
  apply total_bind; [apply modify_total|intros _]. apply total_bind; [apply quiet_total, quiet_register|intros _].
  apply total_bind; [apply modify_total|intros _]. apply total_bind; [apply quiet_total, quiet_with_core|intros [body shares]].
  apply total_bind; [apply quiet_total, quiet_statements|intros L]. unfold finish_module.
  apply total_bind; [apply modify_total|intros _]. apply total_bind; [apply quiet_total, quiet_making|intros b].
  apply total_bind; [apply modify_total|intros _]. apply total_bind; [apply modify_total|intros _]. apply modify_total.
Qed.

Lemma resolveModule_skips text path spelling : total (resolveModule FS options args_ltr c23_strtoll device order 1 text path spelling).
Proof.
  cbn [resolveModule]. apply total_bind; [apply modify_total|intros _]. apply total_bind; [apply quiet_total, quiet_record_at|intros r].
  destruct (state r).
  - apply total_bind; [apply modify_total|intros _]. apply total_bind; [apply modify_total|intros _]. intros R. unfold resolve_guarded.
    match goal with |- context [resolve_parsed _ _ _ _ _ _ ?r ?c ?p ?t R] => destruct (resolve_total r c p t R) as ([[]|e] & R' & ->) end;
      by eexists _, _.
  - apply total_bind; [apply quiet_total, quiet_gets|intros stack]. apply quiet_total, quiet_raise.
  - apply quiet_total, quiet_ret.
  - apply quiet_total, quiet_raise.
Qed.
End Driver.

(** One level of fuel is enough for the driver's parser. *)
Lemma lsp_parse_returns FS args_ltr c23_strtoll device order options counter source uri :
  exists o R, resolveRoot FS (mkOptions (cliModulePaths options) (executablePath options) true (privilegedModules options))
    args_ltr c23_strtoll device order 1 source uri (ModuleRegistry_new counter) = Some (o, R).
Proof.
  unfold resolveRoot. apply total_bind; [by apply resolveModule_skips|intros k]. apply total_bind; [apply quiet_total, quiet_gets|intros r].
  destruct (r ≫= module); [|apply quiet_total, quiet_raise]. apply total_bind; [apply modify_total|intros _]. apply quiet_total, quiet_ret.
Qed.

(** ** Sessions *)

Definition no_files : FileSystem := file_system [].
Definition driver : str -> str -> outcome (option Module_ * list str) := lsp_parse no_files true false false elements plain 0.

Definition opened (u : str) (t : str) : str :=
  quoted $"{'jsonrpc':'2.0','method':'textDocument/didOpen','params':{'textDocument':{'uri':'" ++ u ++ quoted $"','text':'" ++ t ++ quoted $"'}}}".
Definition asked (id method : str) (l c : str) : str :=
  quoted ($"{'jsonrpc':'2.0','id':" ++ id ++ $",'method':'textDocument/" ++ method ++ $"','params':{'textDocument':{'uri':'u'},'position':{'line':"
    ++ l ++ $",'character':" ++ c ++ $"}}}").
Definition closed : str := quoted $"{'jsonrpc':'2.0','method':'textDocument/didClose'}".

(** What is written for these messages; [Throw] where the server crashes. *)
Definition session (bodies : list str) : outcome str := S ← handle_all driver bodies Server_new; Ok (stdout S).

Definition sample_session : list str :=
  [opened $"file:///a.vyb" $"struct P { x<Int>, y<Int> }\nf(p<P>)<Int> -> {\n q<Int> = 1\n return p.x }\n"; asked $"1" $"definition" $"1" $"0"].

Lemma session_answered_witness :
  session sample_session
    = Ok (frame (quoted ($"{'jsonrpc':'2.0','method':'textDocument/publishDiagnostics','params':{'uri':'file:///a.vyb','diagnostics':["
                 ++ $"{'range':{'start':{'line':2,'character':1},'end':{'line':3,'character':2}},'severity':2,'message':'unused variable ~q~'}]}}"))
          ++ frame (quoted ($"{'jsonrpc':'2.0','id':1,'result':{'range':{'start':{'line':1,'character':0},'end':{'line':1,'character':1}},"
                 ++ $"'uri':'file:///a.vyb'}}"))) ≫= (fun s => Ok (map (fun c => if c =c "~" then "'"%char else c) s))
  /\ serveLsp driver (concat (map frame sample_session)) = Some (handle_all driver sample_session Server_new)
  /\ forall S, handle_all driver sample_session Server_new = Ok S ->
     exists read unread outs, sample_session = read ++ unread /\ Forall2 written read outs /\ stdout S = concat outs.
Proof. split; [vm_compute; reflexivity|]. apply session_answered. repeat constructor; done. Defined.

(** The range of a warning ends on the line below: the number of a line,
    counted from 1, is its end, counted from 0. *)
Lemma warning_range_too_long :
  lint_diagnostic $"/a.vyb:3:2: warning: x" = Ok [diagnostic 2 1 3 $"x" 2].
Proof. vm_compute. reflexivity. Qed.

(** The warnings of a document whose uri has a colon and no slashes behind it
    are not shown: an unsaved buffer has none. *)
Lemma unsaved_has_no_warnings :
  session [opened $"untitled:U-1" $"f(p<Int>)<Int> -> {\n q<Int> = 1\n return p }\n"]
  = Ok (frame (quoted $"{'jsonrpc':'2.0','method':'textDocument/publishDiagnostics','params':{'uri':'untitled:U-1','diagnostics':[]}}")).
Proof. vm_compute. reflexivity. Qed.

(** A request whose position names no line ends the server. *)
Lemma no_line_crashes :
  session [opened $"file:///a.vyb" $"f()<Int> -> { return 0 }";
           quoted $"{'id':1,'method':'textDocument/hover','params':{'textDocument':{'uri':'u'},'position':{'character':0}}}"]
  = Throw (undefined_behaviour $"pos->get('line')->num").
Proof. vm_compute. reflexivity. Qed.

(** A request is answered under another id when its id has seven digits. *)
Lemma large_id_changed :
  session [quoted $"{'id':1234567,'method':'shutdown'}"] = Ok (frame (quoted $"{'jsonrpc':'2.0','id':1.23457e+06,'result':null}")).
Proof. vm_compute. reflexivity. Qed.

(** A notification the server does not know is answered, and a request it does
    not know is answered as if it had succeeded. *)
Lemma unknown_method_answered :
  session [quoted $"{'method':'workspace/didChangeConfiguration'}"; quoted $"{'id':9,'method':'textDocument/rename'}"]
  = Ok (frame (quoted $"{'jsonrpc':'2.0','id':null,'result':null}") ++ frame (quoted $"{'jsonrpc':'2.0','id':9,'result':null}")).
Proof. vm_compute. reflexivity. Qed.

(** A member cannot be completed where it is typed: a text that ends a line with
    a dot does not parse, and without a tree there are no members. *)
Lemma typed_dot_has_no_members :
  (S ← handle_all driver [opened $"file:///a.vyb" $"struct P { x<Int> }\nf(p<P>)<Int> -> {\n return p.\n}\n"; asked $"1" $"completion" $"2" $"10"] Server_new;
   Ok (symbols S, dotSuggest_ S)) = Ok ([], [])
  /\ (S ← handle_all driver [opened $"file:///a.vyb" $"struct P { x<Int> }\nf(p<P>)<Int> -> {\n return p.x\n}\n"] Server_new;
      Ok (dotSuggest_ S)) = Ok [($"x", $"field")].
Proof. split; vm_compute; reflexivity. Qed.

(** No symbol has a comment to show. *)
Lemma hover_without_comment d s : buildSymbol d = Some s -> doc s = [].
Proof. intros H. unfold buildSymbol in H. repeat case_match; by simplify_eq. Qed.
