(* ===== verification/Repl.v ===== *)
(** * The interactive session (src/repl.cpp)

    What an entry is taken for, the line editor, and the loop that keeps the
    declarations and statements of a session and evaluates each entry by running
    the compiler on a file. The operating system is a record of operations on a
    state [W]. Standard input is the bytes to come; standard output and error are
    what was written to them. Only the terminal attributes are left out. *)

From S2P Require Import Prelude.
From S2P Require Import ModuleSource.

(** ** What an entry is *)

Inductive Kind : Type := DECL | ASSIGN | STMT | EXPR.

Definition trim (s : str) : str := rev (drop_while isspace (rev (drop_while isspace s))).

(** [s[n]] behind the word. *)
Definition starts_with_word (s w : str) : bool :=
  match strip_prefix w s with
  | None => false
  | Some [] => true
  | Some (c :: _) => negb (isalnum c || (c =c "_"))
  end.

Definition isIdentStart (c : ascii) : bool := isalpha c || (c =c "_").

(** [c == '#' || (c == '/' && line[i + 1] == '/')] *)
Definition starts_comment (c : ascii) (rest : str) : bool :=
  (c =c "#") || ((c =c "/") && match rest with d :: _ => d =c "/" | [] => false end).

Definition opening (c : ascii) : bool := (c =c "{") || (c =c "(") || (c =c "[").
Definition closing (c : ascii) : bool := (c =c "}") || (c =c ")") || (c =c "]").

Fixpoint delta_loop (inStr : bool) (depth : Z) (line : str) : Z :=
  match line with
  | [] => depth
  | c :: rest =>
      if inStr then
        if c =c ch_bslash then match rest with [] => depth | _ :: rest' => delta_loop true depth rest' end
        else delta_loop (negb (c =c ch_quote)) depth rest
      else if c =c ch_quote then delta_loop true depth rest
      else if starts_comment c rest then depth
      else if opening c then delta_loop false (depth + 1) rest
      else if closing c then delta_loop false (depth - 1) rest
      else delta_loop false depth rest
  end.

Definition bracketDelta (line : str) : Z := delta_loop false 0 line.

(** [strchr] finds the terminator too: no character before is a match. *)
Definition no_assignment (prev next : ascii) : bool :=
  (next =c "=") || (next =c ">") || (prev =c ch_nul) || existsb (ceq prev) $"<>!=+-*/%&|^".

Fixpoint assign_loop (inStr : bool) (depth : nat) (prev : ascii) (line : str) : bool :=
  match line with
  | [] => false
  | c :: rest =>
      if inStr then
        if c =c ch_bslash then match rest with [] => false | d :: rest' => assign_loop true depth d rest' end
        else assign_loop (negb (c =c ch_quote)) depth c rest
      else if c =c ch_quote then assign_loop true depth c rest
      else if starts_comment c rest then false
      else if opening c then assign_loop false (S depth) c rest
      else if closing c then assign_loop false (pred depth) c rest
      else if (c =c "=") && (depth =? 0) && negb (no_assignment prev (hd ch_nul rest)) then true
      else assign_loop false depth c rest
  end.

Definition containsTopLevelAssign (line : str) : bool := assign_loop false 0 ch_nul line.

Fixpoint arrow_loop (inStr : bool) (depth : nat) (sawOpen : bool) (line : str) : bool :=
  match line with
  | [] => false
  | c :: rest =>
      if inStr then
        if c =c ch_bslash then match rest with [] => false | _ :: rest' => arrow_loop true depth sawOpen rest' end
        else arrow_loop (negb (c =c ch_quote)) depth sawOpen rest
      else if c =c ch_quote then arrow_loop true depth sawOpen rest
      else if starts_comment c rest then false
      else if c =c "(" then arrow_loop false (S depth) true rest
      else if (c =c ")") && negb (depth =? 0) then arrow_loop false (pred depth) sawOpen rest
      else if (c =c "-") && match rest with d :: _ => d =c ">" | [] => false end && (depth =? 0) && sawOpen then true
      else arrow_loop false depth sawOpen rest
  end.

Definition isFunctionDeclLine (line : str) : bool :=
  match line with [] => false | c :: _ => isIdentStart c && arrow_loop false 0 false line end.

Definition declaration_words : list str := [$"import"; $"struct"; $"enum"; $"type"; $"aspect"; $"bind"; $"class"].
Definition statement_words : list str :=
  [$"if"; $"for"; $"while"; $"return"; $"match"; $"else"; $"break"; $"continue"; $"assert"; $"println"; $"print"; $"eprintln"; $"flush"].

Definition classify (line0 : str) : Kind :=
  let s := trim line0 in
  if existsb (starts_with_word s) declaration_words then DECL
  else if isFunctionDeclLine s then DECL
  else if containsTopLevelAssign s then ASSIGN
  else if existsb (starts_with_word s) statement_words then STMT
  else EXPR.

(** ** Running a program *)

(** One return of [select]: for each pipe, when it is ready, what [read] gives;
    nothing is the end of the file or an error. *)
Record Round : Type := mkRound { out_ready : option str; err_ready : option str }.

Inductive Status : Type := Exited (code : Z) | Signaled (signal : Z) | Other.

Record System (W : Type) : Type := mkSystem {
  TMPDIR : W -> option str;
  mkstemps : str -> W -> option str * W;            (** the path made from the template *)
  write_file : str -> str -> W -> W;                (** how much is written is not looked at *)
  remove : str -> W -> W;
  spawn : str -> list str -> W -> option (list (option Round) * Status) * W (** [None]: no pipes or no process *)
}.
Arguments TMPDIR {W}.
Arguments mkstemps {W}.
Arguments write_file {W}.
Arguments remove {W}.
Arguments spawn {W}.

(** One pipe of a round: whether it stays open, and what was read so far. *)
Definition drain_pipe (open : bool) (ready : option str) (acc : str) : bool * str :=
  if open then match ready with Some [] => (false, acc) | Some s => (true, acc ++ s) | None => (true, acc) end
  else (false, acc).

(** [while (outOpen || errOpen)]; a round that is [None] is a failed [select],
    and no more rounds a program that has not ended. *)
Fixpoint drain (rounds : list (option Round)) (outOpen errOpen : bool) (out err : str) : option (str * str) :=
  if negb (outOpen || errOpen) then Some (out, err)
  else match rounds with
       | [] => None
       | None :: _ => Some (out, err)
       | Some r :: rounds' =>
           let '(outOpen', out') := drain_pipe outOpen (out_ready r) out in
           let '(errOpen', err') := drain_pipe errOpen (err_ready r) err in
           drain rounds' outOpen' errOpen' out' err'
       end.

Definition exit_code (s : Status) : Z := match s with Exited c => c | Signaled n => 128 + n | Other => 1 end%Z.

(** [None]: the program does not end. *)
Definition runProgram {W} (OS : System W) (exe : str) (args : list str) (w : W) : option (Z * str * str * W) :=
  let '(child, w') := spawn OS exe args w in
  match child with
  | None => Some ((-1)%Z, [], [], w')
  | Some (rounds, status) => '(out, err) ← drain rounds true true [] []; Some (exit_code status, out, err, w')
  end.

Definition temp_template (tmpdir : option str) : str :=
  match tmpdir with Some (c :: d) => c :: d | _ => $"/tmp" end ++ $"/vyb_repl_XXXXXX.vyb".

Definition makeTempFile {W} (OS : System W) (body : str) (w : W) : str * W :=
  match mkstemps OS (temp_template (TMPDIR OS w)) w with
  | (None, w') => ([], w')
  | (Some path, w') => (path, write_file OS path body w')
  end.

(** ** The line editor *)

Record LineEditor : Type := mkEditor {
  history_ : list str;
  histPos_ : nat;
  draft_ : str
}.

Definition LineEditor_new : LineEditor := mkEditor [] 0 [].

Definition remember (line : str) (E : LineEditor) : LineEditor :=
  if negb (line =s []) && negb (bool_decide (last (history_ E) = Some line)) then mkEditor (history_ E ++ [line]) (histPos_ E) (draft_ E) else E.

(** The variables of [read]: the line, the cursor, what was drawn. *)
Record Edit : Type := mkEdit { line : str; pos : nat; drawn : str; editor : LineEditor }.

Definition ch_esc : ascii := "027"%char.

Definition draw_text (prompt line : str) (pos : nat) : str :=
  [ch_cr; ch_esc] ++ $"[K" ++ prompt ++ line
  ++ if pos <? length line then ch_esc :: $"[" ++ to_string (Z.of_nat (length line - pos)) ++ $"D" else [].

Definition redraw (prompt : str) (l : str) (p : nat) (X : Edit) : Edit := mkEdit l p (drawn X ++ draw_text prompt l p) (editor X).
Definition set_editor (E : LineEditor) (X : Edit) : Edit := mkEdit (line X) (pos X) (drawn X) E.

(** The third byte of an escape sequence. *)
Definition arrow (prompt : str) (b2 : ascii) (X : Edit) : Edit :=
  let E := editor X in
  if b2 =c "A" then
    if 0 <? histPos_ E then
      let draft := if histPos_ E =? length (history_ E) then line X else draft_ E in
      let p := histPos_ E - 1 in
      let l := nth p (history_ E) [] in
      redraw prompt l (length l) (set_editor (mkEditor (history_ E) p draft) X)
    else X
  else if b2 =c "B" then
    if histPos_ E <? length (history_ E) then
      let p := histPos_ E + 1 in
      let l := if p =? length (history_ E) then draft_ E else nth p (history_ E) [] in
      redraw prompt l (length l) (set_editor (mkEditor (history_ E) p (draft_ E)) X)
    else X
  else if b2 =c "C" then if pos X <? length (line X) then redraw prompt (line X) (pos X + 1) X else X
  else if b2 =c "D" then if 0 <? pos X then redraw prompt (line X) (pos X - 1) X else X
  else if b2 =c "H" then redraw prompt (line X) 0 X
  else if b2 =c "F" then redraw prompt (line X) (length (line X)) X
  else X.

(** [line.erase(s, pos - s)] *)
Definition erase (s : nat) (X : Edit) : str := take s (line X) ++ drop (pos X) (line X).

(** Where the word before the cursor starts. *)
Definition word_start (X : Edit) : nat :=
  length (drop_while (fun c => negb (isspace c)) (drop_while isspace (rev (take (pos X) (line X))))).

(** The other keys. *)
Definition key (prompt : str) (c : ascii) (X : Edit) : Edit :=
  if (c =c "127") || (c =c "008") then
    if 0 <? pos X then redraw prompt (erase (pos X - 1) X) (pos X - 1) X else X
  else if c =c "021" then redraw prompt [] 0 X
  else if c =c "023" then let s := word_start X in redraw prompt (erase s X) s X
  else if (32 <=? code c)%N then redraw prompt (take (pos X) (line X) ++ c :: drop (pos X) (line X)) (pos X + 1) X
  else X.

(** The loop over the bytes read: whether the input ended, and what is left. *)
Fixpoint edit (prompt : str) (input : str) (X : Edit) : bool * Edit * str :=
  match input with
  | [] => (true, X, [])
  | c :: input1 =>
      if (c =c ch_nl) || (c =c ch_cr) then (false, mkEdit (line X) (pos X) (drawn X ++ [ch_cr; ch_nl]) (editor X), input1)
      else if c =c "004" then match line X with [] => (true, X, input1) | _ => edit prompt input1 X end
      else if c =c ch_esc then
        match input1 with
        | [] => (true, X, [])
        | b1 :: input2 =>
            if b1 =c "[" then
              match input2 with
              | [] => (true, X, [])
              | b2 :: input3 => edit prompt input3 (arrow prompt b2 X)
              end
            else edit prompt input2 X
        end
      else edit prompt input1 (key prompt c X)
  end.

(** [std::getline]: the line and what is left, if there is anything. *)
Definition getline (input : str) : option (str * str) :=
  match input with
  | [] => None
  | _ => Some (take_while (fun c => negb (c =c ch_nl)) input, drop 1 (drop_while (fun c => negb (c =c ch_nl)) input))
  end.

(** The standard streams with the editor. *)
Record Terminal : Type := mkTerminal { input : str; stdout : str; stderr : str; lines : LineEditor }.

Definition Edit_new (prompt : str) (E : LineEditor) : Edit :=
  redraw prompt [] 0 (mkEdit [] 0 [] (mkEditor (history_ E) (length (history_ E)) [])).

(** [None]: the end of the input. *)
Definition read (tty : bool) (prompt : str) (T : Terminal) : option str * Terminal :=
  if tty then
    let '(eof, X, rest) := edit prompt (input T) (Edit_new prompt (lines T)) in
    (if eof : bool then None else Some (line X), mkTerminal rest (stdout T ++ drawn X) (stderr T) (editor X))
  else
    match getline (input T) with
    | None => (None, T)
    | Some (l, rest) => (Some l, mkTerminal rest (stdout T) (stderr T) (lines T))
    end.

(** ** The session *)

Definition line_of (s : str) : str := s ++ [ch_nl].

(** The program of the declarations and the statements of [main]. *)
Definition program (decls body : list str) : str :=
  concat (map line_of decls) ++ ch_nl :: $"main() -> {" ++ [ch_nl] ++ concat (map line_of body) ++ $"}" ++ [ch_nl].

(** The lines of the body a statement stands for. *)
Definition body_lines (entry : str) : list str :=
  map (fun l => $"    " ++ l) (List.filter (fun l => negb (trim l =s [])) (source_lines [] entry)).

(** What [fputs] and [printf] print of a string. *)
Definition c_str (s : str) : str := take_while (fun c => negb (c =c ch_nul)) s.

Definition strip_cr (s : str) : str := match last s with Some c => if c =c ch_cr then removelast s else s | None => s end.

Definition is_eol (c : ascii) : bool := (c =c ch_nl) || (c =c ch_cr).

Definition help_text : str :=
  concat (map line_of
    [$"Vyb REPL commands:";
     $"  :help       show this help";
     $"  :clear      reset the session (declarations + main body)";
     $"  :decls      print the accumulated program";
     $"  :type <expr>  print the inferred type of <expr>";
     $"  :quit :q :exit  leave the REPL";
     $"Declarations (fn/struct/enum/type/...) persist across entries;";
     $"a bare expression evaluates and prints its value."]).

Record Session (W : Type) : Type := mkSession { decls : list str; body : list str; terminal : Terminal; world : W }.
Arguments mkSession {W}.
Arguments decls {W}.
Arguments body {W}.
Arguments terminal {W}.
Arguments world {W}.

Definition put_out (s : str) (T : Terminal) : Terminal := mkTerminal (input T) (stdout T ++ s) (stderr T) (lines T).
Definition put_err (s : str) (T : Terminal) : Terminal := mkTerminal (input T) (stdout T) (stderr T ++ s) (lines T).

Section Session.
Context {W : Type} (OS : System W) (selfExe : str) (tty : bool).

Definition on_terminal (f : Terminal -> Terminal) (S : Session W) : Session W := mkSession (decls S) (body S) (f (terminal S)) (world S).

(** [prompt("vyb> ")] *)
Definition prompt (S : Session W) : Session W := on_terminal (if tty then put_out $"vyb> " else put_err $"vyb> ") S.

(** [:type]: the type of an expression in the session, as the compiler prints it. *)
Definition show_type (expr : str) (S : Session W) : option (Session W) :=
  let '(path, w) := makeTempFile OS (program (decls S) (body S ++ [$"    vtypeprobe = " ++ expr])) (world S) in
  '(rc, out, err, w) ← runProgram OS selfExe [$"type"; path; $"vtypeprobe"] w;
  let typeres := rev (drop_while is_eol (rev out)) in
  let T := put_out ($":type " ++ c_str expr ++ $" = " ++ (if typeres =s [] then $"(error)" else c_str typeres) ++ [ch_nl]) (terminal S) in
  let T := if negb (rc =? 0)%Z && negb (err =s []) then put_err (c_str err) T else T in
  Some (prompt (mkSession (decls S) (body S) T (remove OS path w))).

(** The declarations and statements with the entry, and the body that is run:
    the value of an expression is printed, and the expression is not kept. *)
Definition entry_decls (entry : str) (S : Session W) : list str := match classify entry with DECL => decls S ++ [entry] | _ => decls S end.
Definition entry_body (entry : str) (S : Session W) : list str := match classify entry with ASSIGN | STMT => body S ++ body_lines entry | _ => body S end.
Definition eval_body (entry : str) (S : Session W) : list str :=
  match classify entry with EXPR => body S ++ [$"    println(" ++ trim entry ++ $")"] | _ => entry_body entry S end.

(** After an evaluation that failed. *)
Definition revert (entry : str) (S : Session W) : list str * list str :=
  match classify entry with
  | DECL => (removelast (entry_decls entry S), body S)
  | EXPR => (decls S, body S)
  | _ => (decls S, if bool_decide (entry_body entry S = eval_body entry S) then removelast (entry_body entry S) else entry_body entry S)
  end.

(** An entry that is not a command: [true] ends the session. *)
Definition evaluate (entry : str) (S : Session W) : option (bool * Session W) :=
  let '(path, w) := makeTempFile OS (program (entry_decls entry S) (eval_body entry S)) (world S) in
  if path =s [] then
    Some (true, mkSession (entry_decls entry S) (entry_body entry S) (put_err ($"repl: could not create temp file" ++ [ch_nl]) (terminal S)) w)
  else
    '(rc, out, err, w) ← runProgram OS selfExe [path] w;
    let w := remove OS path w in
    Some (false, prompt
      (if (rc =? 0)%Z then mkSession (entry_decls entry S) (entry_body entry S) (put_err (c_str err) (put_out (c_str out) (terminal S))) w
       else mkSession (revert entry S).1 (revert entry S).2 (put_err (c_str err) (put_err ($"Error:" ++ [ch_nl]) (terminal S))) w)).

(** One entry. *)
Definition submit (entry : str) (S : Session W) : option (bool * Session W) :=
  let t := trim entry in
  let stay S' := Some (false, prompt S') in
  if t =s [] then stay S
  else if existsb (streq t) [$":q"; $":quit"; $":exit"; $":bye"] then Some (true, S)
  else if existsb (streq t) [$":help"; $":?"] then stay (on_terminal (put_out help_text) S)
  else if t =s $":clear" then stay (mkSession [] [] (terminal S) (world S))
  else if t =s $":decls" then stay (on_terminal (put_out (c_str (program (decls S) (body S)))) S)
  else match strip_prefix $":type" t with
       | Some rest =>
           let expr := trim rest in
           if expr =s [] then stay (on_terminal (put_out ($"usage: :type <expr>" ++ [ch_nl])) S)
           else S' ← show_type expr S; Some (false, S')
       | None => evaluate entry S
       end.

(** [while (true)]: more lines until the brackets balance; one level of fuel per line. *)
Fixpoint continue_entry (fuel : nat) (depth : Z) (entry line : str) (T : Terminal) : option (str * Terminal) :=
  let depth := (depth + bracketDelta line)%Z in
  if (0 <? depth)%Z then
    match fuel with
    | O => None
    | Datatypes.S f =>
        match read tty $"... " T with
        | (None, T') => Some (entry, T')
        | (Some l, T') => let l := strip_cr l in continue_entry f depth (entry ++ ch_nl :: l) l T'
        end
    end
  else Some (entry, T).

Definition set_terminal (T : Terminal) (S : Session W) : Session W := mkSession (decls S) (body S) T (world S).

(** [while (lineEditor.read(...))]; one level of fuel per entry. *)
Fixpoint loop (fuel : nat) (S : Session W) : option (Session W) :=
  match fuel with
  | O => None
  | Datatypes.S f =>
      match read tty $"vyb> " (terminal S) with
      | (None, T) => Some (set_terminal T S)
      | (Some l, T) =>
          let l := strip_cr l in
          '(entry, T) ← continue_entry (length (input T) + 1) 0 l l T;
          let T := mkTerminal (input T) (stdout T) (stderr T) (remember entry (lines T)) in
          '(stop, S) ← submit entry (set_terminal T S);
          if stop : bool then Some S else loop f S
      end
  end.

Definition banner : str := $"Vyb REPL (JIT backend). :help for commands, :quit to exit." ++ [ch_nl].

Definition runRepl (stdin : str) (w : W) : option (Session W) :=
  let S := mkSession [] [] (mkTerminal stdin [] [] LineEditor_new) w in
  let S := if tty then on_terminal (put_out banner) S else S in
  S ← loop (length stdin + 1) (prompt S);
  Some (if tty then on_terminal (put_out [ch_nl]) S else S).
End Session.
