(* ===== verification/ReplProps.v ===== *)
(** * The interactive session keeps what was accepted

    The line editor is a zipper on the line within a zipper on the history. The
    session ends on every input, whatever is typed, and what it keeps is the list
    of the entries the compiler accepted; then where it does not. *)

From S2P Require Import Prelude.
From S2P Require Import ModuleSource.
From S2P Require Import ModuleParser.
From S2P Require Import Repl.

(** ** The line editor *)

(** The line before and behind the cursor; the history before the entry that is
    shown, its stored text, and what follows it, the draft at the end. *)
Record Zipper : Type := mkZipper { before : str; after : str; older : list str; current : str; newer : list str }.

Definition on_line (b a : str) (Z : Zipper) : Zipper := mkZipper b a (older Z) (current Z) (newer Z).

Definition move_up (Z : Zipper) : Zipper :=
  match older Z with
  | [] => Z
  | h :: o => mkZipper h [] o h ((match newer Z with [] => before Z ++ after Z | _ => current Z end) :: newer Z)
  end.
Definition move_down (Z : Zipper) : Zipper :=
  match newer Z with [] => Z | n :: r => mkZipper n [] (current Z :: older Z) n r end.
Definition move_right (Z : Zipper) : Zipper :=
  match after Z with [] => Z | c :: a => on_line (before Z ++ [c]) a Z end.
Definition move_left (Z : Zipper) : Zipper :=
  match last (before Z) with None => Z | Some c => on_line (removelast (before Z)) (c :: after Z) Z end.

Definition arrow_zipper (b2 : ascii) (Z : Zipper) : Zipper :=
  if b2 =c "A" then move_up Z
  else if b2 =c "B" then move_down Z
  else if b2 =c "C" then move_right Z
  else if b2 =c "D" then move_left Z
  else if b2 =c "H" then on_line [] (before Z ++ after Z) Z
  else if b2 =c "F" then on_line (before Z ++ after Z) [] Z
  else Z.

(** A text without its last word and the blanks behind it. *)
Definition without_word (s : str) : str := rev (drop_while (fun c => negb (isspace c)) (drop_while isspace (rev s))).

Definition key_zipper (c : ascii) (Z : Zipper) : Zipper :=
  if (c =c "127") || (c =c "008") then on_line (removelast (before Z)) (after Z) Z
  else if c =c "021" then on_line [] [] Z
  else if c =c "023" then on_line (without_word (before Z)) (after Z) Z
  else if (32 <=? code c)%N then on_line (before Z ++ [c]) (after Z) Z
  else Z.

Fixpoint edit_zipper (input : str) (Z : Zipper) : bool * Zipper * str :=
  match input with
  | [] => (true, Z, [])
  | c :: input1 =>
      if (c =c ch_nl) || (c =c ch_cr) then (false, Z, input1)
      else if c =c "004" then match before Z ++ after Z with [] => (true, Z, input1) | _ => edit_zipper input1 Z end
      else if c =c ch_esc then
        match input1 with
        | [] => (true, Z, [])
        | b1 :: input2 =>
            if b1 =c "[" then match input2 with [] => (true, Z, []) | b2 :: input3 => edit_zipper input3 (arrow_zipper b2 Z) end
            else edit_zipper input2 Z
        end
      else edit_zipper input1 (key_zipper c Z)
  end.

(** The cursor and the place in the history are within their bounds. *)
Record represents (X : Edit) (Z : Zipper) : Prop := mkRepresents {
  rep_line : line X = before Z ++ after Z;
  rep_pos : pos X = length (before Z);
  rep_tape : history_ (editor X) ++ [draft_ (editor X)] = rev (older Z) ++ current Z :: newer Z;
  rep_place : histPos_ (editor X) = length (older Z)
}.

Lemma represents_bounds X Z : represents X Z -> pos X <= length (line X) /\ histPos_ (editor X) <= length (history_ (editor X)).
Proof.
  intros [L P T H]. split; [rewrite L, P, length_app; lia|]. apply (f_equal length) in T.
  rewrite !length_app, length_rev in T. cbn in T. lia.
Qed.

Lemma represents_redraw prompt l p X Z b a : represents X Z -> l = b ++ a -> p = length b -> represents (redraw prompt l p X) (on_line b a Z).
Proof. intros [L P T H] -> ->. by split. Qed.

(** The place is at the end of the history where nothing follows. *)
Lemma represents_end X Z : represents X Z -> (histPos_ (editor X) =? length (history_ (editor X))) = match newer Z with [] => true | _ => false end.
Proof.
  intros [L P T H]. apply (f_equal length) in T. rewrite !length_app, length_rev in T. cbn in T. rewrite H.
  destruct (newer Z); cbn in T; [apply Nat.eqb_eq; lia|apply Nat.eqb_neq; lia].
Qed.

Lemma tape_history {A} (h : list A) (d : A) l x r : h ++ [d] = l ++ x :: r -> r <> [] -> exists r', h = l ++ x :: r' /\ r = r' ++ [d].
Proof.
  intros E N. destruct (exists_last N) as (r' & y & ->). exists r'. rewrite app_comm_cons, app_assoc in E.
  apply app_inj_tail in E as [-> ->]. done.
Qed.
Lemma tape_end {A} (h : list A) (d : A) l x : h ++ [d] = l ++ [x] -> h = l /\ d = x.
Proof. apply app_inj_tail. Qed.

Lemma represents_up prompt X Z : represents X Z -> represents (arrow prompt "A" X) (move_up Z).
Proof.
  intros R. pose proof (represents_end X Z R) as E. destruct R as [L P T H]. unfold arrow, move_up. change ("A" =c "A") with true. cbv iota zeta.
  rewrite E, H. destruct (older Z) as [|h o] eqn:O; [by split; rewrite ?O|]. cbn [length]. rewrite (proj2 (Nat.ltb_lt _ _)) by lia.
  replace (S (length o) - 1) with (length o) by lia. cbn [rev] in T. rewrite <- app_assoc in T. cbn [app] in T.
  assert (Hist : exists r', history_ (editor X) = rev o ++ h :: r' /\ current Z :: newer Z = r' ++ [draft_ (editor X)]) by (by apply tape_history).
  destruct Hist as (r' & Hh & Hr). assert (N : nth (length o) (history_ (editor X)) [] = h).
  { rewrite Hh, app_nth2 by (rewrite length_rev; lia). by rewrite length_rev, Nat.sub_diag. }
  rewrite N. split; cbn; [by rewrite app_nil_r|done| |done]. rewrite L. destruct (newer Z) as [|n r].
  - rewrite Hh. destruct r' as [|c r']; [|destruct r'; discriminate Hr]. by rewrite <- app_assoc.
  - by rewrite T.
Qed.

Lemma represents_down prompt X Z : represents X Z -> represents (arrow prompt "B" X) (move_down Z).
Proof.
  intros R. pose proof (represents_bounds X Z R) as [_ B]. pose proof (represents_end X Z R) as E. destruct R as [L P T H]. unfold arrow, move_down.
  change ("B" =c "A") with false. change ("B" =c "B") with true. cbv iota zeta.
  destruct (newer Z) as [|n r] eqn:N.
  - apply Nat.eqb_eq in E. rewrite (proj2 (Nat.ltb_ge _ _)) by lia. split; [done..|by rewrite N|done].
  - apply Nat.eqb_neq in E. rewrite (proj2 (Nat.ltb_lt _ _)) by lia. destruct (tape_history _ _ _ _ _ T ltac:(done)) as (r' & Hh & Hr).
    assert (V : (if histPos_ (editor X) + 1 =? length (history_ (editor X)) then draft_ (editor X) else nth (histPos_ (editor X) + 1) (history_ (editor X)) []) = n).
    { rewrite Hh, H, length_app, length_rev. cbn [length]. destruct r' as [|m r'].
      - cbn in Hr. injection Hr as -> ->. cbn [length]. by rewrite (proj2 (Nat.eqb_eq _ _)) by lia.
      - injection Hr as -> ->. cbn [length]. rewrite (proj2 (Nat.eqb_neq _ _)) by lia.
        rewrite app_nth2 by (rewrite length_rev; lia). rewrite length_rev. by replace (length (older Z) + 1 - length (older Z)) with 1 by lia. }
    rewrite V. split; cbn; [by rewrite app_nil_r|done| |lia]. by rewrite T, <- app_assoc.
Qed.

Lemma represents_arrow prompt b2 X Z : represents X Z -> represents (arrow prompt b2 X) (arrow_zipper b2 Z).
Proof.
  intros R. unfold arrow_zipper. destruct (b2 =c "A") eqn:A; [apply ceq_true in A as ->; by apply represents_up|].
  destruct (b2 =c "B") eqn:B; [apply ceq_true in B as ->; by apply represents_down|]. unfold arrow. rewrite A, B.
  pose proof R as [L P T H]. rewrite L, P.
  destruct (b2 =c "C"); [|destruct (b2 =c "D"); [|destruct (b2 =c "H"); [by apply represents_redraw|destruct (b2 =c "F"); [|done]]]].
  - unfold move_right. rewrite length_app. destruct (after Z) as [|c a] eqn:E; cbn [length].
    + rewrite (proj2 (Nat.ltb_ge _ _)) by lia. done.
    + rewrite (proj2 (Nat.ltb_lt _ _)) by lia. apply represents_redraw; [done|by rewrite <- app_assoc|by rewrite length_app].
  - unfold move_left. destruct (before Z) as [|c b] eqn:E using rev_ind; [done|]. rewrite last_snoc, removelast_last, length_app. cbn [length].
    rewrite (proj2 (Nat.ltb_lt _ _)) by lia. apply represents_redraw; [done|by rewrite <- app_assoc|lia].
  - apply represents_redraw; [done|by rewrite app_nil_r|done].
Qed.

(** Dropping from the back is taking from the front. *)
Lemma rev_drop_while_take p (s : str) : rev (drop_while p (rev s)) = take (length (drop_while p (rev s))) s.
Proof.
  pose proof (f_equal (@rev ascii) (take_drop_while p (rev s))) as E. rewrite rev_involutive, rev_app_distr in E.
  rewrite <- E at 3. by rewrite <- length_rev, take_app_length.
Qed.

Lemma represents_key prompt c X Z : represents X Z -> represents (key prompt c X) (key_zipper c Z).
Proof.
  intros R. pose proof R as [L P T H]. unfold key, key_zipper, erase. rewrite L, P.
  assert (Tk : take (length (before Z)) (before Z ++ after Z) = before Z) by apply take_app_length.
  assert (Dr : drop (length (before Z)) (before Z ++ after Z) = after Z) by apply drop_app_length.
  destruct (_ || _); [|destruct (c =c "021"); [by apply represents_redraw|destruct (c =c "023"); [|destruct (32 <=? code c)%N; [|done]]]].
  - rewrite Dr. destruct (before Z) as [|x b _] eqn:E using rev_ind.
    + cbn. destruct Z; cbn in *; subst. by split.
    + rewrite length_app, removelast_last. cbn [length]. rewrite (proj2 (Nat.ltb_lt _ _)) by lia.
      replace (length b + 1 - 1) with (length b) by lia. apply represents_redraw; [done| |done]. by rewrite <- app_assoc, take_app_length.
  - unfold word_start. rewrite L, P, Tk, Dr. unfold without_word.
    set (r := drop_while isspace (rev (before Z))). set (q := drop_while (fun c => negb (isspace c)) r).
    assert (E : rev q = take (length q) (before Z ++ after Z)).
    { unfold q. assert (S : r = rev (take (length r) (before Z))).
      { unfold r. rewrite <- rev_drop_while_take. by rewrite rev_involutive. }
      rewrite S at 1. rewrite rev_drop_while_take, <- S, take_take, take_app_le; [f_equal|].
      - rewrite Nat.min_l; [done|]. apply length_drop_while.
      - pose proof (length_drop_while (fun c => negb (isspace c)) r). pose proof (length_drop_while isspace (rev (before Z))) as D. rewrite length_rev in D. unfold r in *. lia. }
    rewrite <- E. apply represents_redraw; [done..|by rewrite length_rev].
  - rewrite Tk, Dr. apply represents_redraw; [done|by rewrite <- app_assoc|by rewrite length_app].
Qed.

(** C28: The line editor is a zipper in a zipper. On every sequence of bytes the
    loop reads the same bytes and ends in the same way as an editor whose line is
    what stands before and behind the cursor and whose history is what stands
    before and behind the entry that is shown, where each key acts at the two
    places only; so the line that is returned is the text of that editor, and the
    cursor and the place in the history never leave their bounds. *)
Theorem line_editor_refines prompt input X Z : represents X Z ->
  exists Z', edit_zipper input Z = ((edit prompt input X).1.1, Z', (edit prompt input X).2)
    /\ represents (edit prompt input X).1.2 Z'
    /\ pos (edit prompt input X).1.2 <= length (line (edit prompt input X).1.2).
Proof.
  enough (G : forall input X Z, represents X Z -> exists Z', edit_zipper input Z = ((edit prompt input X).1.1, Z', (edit prompt input X).2)
    /\ represents (edit prompt input X).1.2 Z').
  { intros R. destruct (G input X Z R) as (Z' & E & R'). exists Z'. split_and!; [done..|]. by apply (represents_bounds _ Z'). }
  clear. intros input. induction input as [input IH] using (induction_ltof1 _ (@length ascii)). unfold ltof in IH. intros X Z R.
  destruct input as [|c input1]; cbn [edit edit_zipper]; [by exists Z|]. destruct (_ || _); [by exists Z; split; [|destruct R; split]|].
  destruct (c =c "004").
  - rewrite <- (rep_line _ _ R). destruct (line X); [by exists Z|]. by apply IH; [cbn; lia|].
  - destruct (c =c ch_esc); [|apply IH; [cbn; lia|by apply represents_key]]. destruct input1 as [|b1 input2]; [by exists Z|].
    destruct (b1 =c "["); [|by apply IH; [cbn; lia|]]. destruct input2 as [|b2 input3]; [by exists Z|].
    apply IH; [cbn; lia|by apply represents_arrow].
Qed.

(** The editor [read] starts with. *)
Lemma represents_new prompt E : represents (Edit_new prompt E) (mkZipper [] [] (rev (history_ E)) [] []).
Proof. split; cbn; [done|done|by rewrite rev_involutive|by rewrite length_rev]. Qed.

Definition keys : str := $"foo bar" ++ [ch_esc] ++ $"[D" ++ [ch_esc] ++ $"[D!" ++ ["023"%char] ++ [ch_esc] ++ $"[A" ++ [ch_esc] ++ $"[B;" ++ [ch_nl] ++ $"rest".

Definition two_entries : LineEditor := mkEditor [$"one"; $"two"] 0 [].
Definition fresh (E : LineEditor) : Zipper := mkZipper [] [] (rev (history_ E)) [] [].

Lemma line_editor_refines_witness :
  edit_zipper keys (fresh two_entries) = (false, mkZipper $"foo ar;" [] [$"two"; $"one"] $"foo ar" [], $"rest")
  /\ exists Z', edit_zipper keys (fresh two_entries)
                = ((edit $"vyb> " keys (Edit_new $"vyb> " two_entries)).1.1, Z', (edit $"vyb> " keys (Edit_new $"vyb> " two_entries)).2)
    /\ represents (edit $"vyb> " keys (Edit_new $"vyb> " two_entries)).1.2 Z'
    /\ pos (edit $"vyb> " keys (Edit_new $"vyb> " two_entries)).1.2 <= length (line (edit $"vyb> " keys (Edit_new $"vyb> " two_entries)).1.2).
Proof. split; [vm_compute; reflexivity|]. apply (line_editor_refines $"vyb> " keys). apply represents_new. Defined.

(** Typing a line gives that line. *)
Lemma typed_line l rest prompt E : Forall (fun c => (32 <=? code c)%N = true /\ (c =c "127") = false) l ->
  exists X, edit prompt (l ++ ch_nl :: rest) (Edit_new prompt E) = (false, X, rest) /\ line X = l.
Proof.
  intros F. destruct (line_editor_refines prompt (l ++ ch_nl :: rest) _ _ (represents_new prompt E)) as (Z' & EZ & R & _).
  set (Z0 := mkZipper [] [] (rev (history_ E)) [] []) in *.
  assert (G : forall Z, after Z = [] -> exists Z', edit_zipper (l ++ ch_nl :: rest) Z = (false, Z', rest) /\ before Z' = before Z ++ l /\ after Z' = []).
  { clear -F. induction F as [|c l [C1 C2] _ IH]; intros Z A; [by exists Z; rewrite app_nil_r|]. cbn [app edit_zipper].
    assert (N : forall d, (code d <? 32)%N = true -> (c =c d) = false).
    { intros d D. apply ceq_false. intros ->. apply N.leb_le in C1. apply N.ltb_lt in D. lia. }
    rewrite (N ch_nl), (N ch_cr), (N "004"%char), (N ch_esc) by done. cbn [orb]. unfold key_zipper. rewrite C2, (N "008"%char), (N "021"%char), (N "023"%char), C1 by done. cbn [orb].
    destruct (IH (on_line (before Z ++ [c]) (after Z) Z) A) as (Z' & -> & B & A'). exists Z'. split_and!; [done| |done].
    rewrite B. cbn. by rewrite <- app_assoc. }
  destruct (G Z0 eq_refl) as (Z1 & E1 & B & A). rewrite E1 in EZ. destruct (edit prompt _ _) as [[eof X] r]. cbn in *.
  injection EZ as <- <- <-. exists X. split; [done|]. by rewrite (rep_line _ _ R), B, A, app_nil_r.
Qed.

(** ** Reading ends *)

Lemma edit_le prompt input X : length (edit prompt input X).2 <= length input /\ ((edit prompt input X).1.1 = false -> length (edit prompt input X).2 < length input).
Proof.
  revert X. induction input as [input IH] using (induction_ltof1 _ (@length ascii)). unfold ltof in IH. intros X.
  destruct input as [|c input1]; [done|]. cbn [edit]. destruct (_ || _); [cbn; lia|].
  assert (G : forall i Y, length i <= length input1 -> length (edit prompt i Y).2 <= length (c :: input1)
    /\ ((edit prompt i Y).1.1 = false -> length (edit prompt i Y).2 < length (c :: input1))).
  { intros i Y H. destruct (IH i ltac:(cbn; lia) Y) as [L1 L2]. cbn. split; [lia|intros E; specialize (L2 E); lia]. }
  destruct (c =c "004"); [destruct (line X); [cbn; split; [lia|done]|by apply G]|].
  destruct (c =c ch_esc); [|by apply G]. destruct input1 as [|b1 input2]; [cbn; split; [lia|done]|].
  destruct (b1 =c "["); [|apply G; cbn; lia]. destruct input2 as [|b2 input3]; [cbn; split; [lia|done]|]. apply G. cbn. lia.
Qed.

Lemma read_le tty p T : length (input (read tty p T).2) <= length (input T)
  /\ forall l, (read tty p T).1 = Some l -> length (input (read tty p T).2) < length (input T).
Proof.
  unfold read. destruct tty.
  - destruct (edit_le p (input T) (Edit_new p (lines T))) as [L1 L2]. destruct (edit p _ _) as [[eof X] rest]. cbn in *.
    split; [done|]. destruct eof; [done|]. intros _ _. by apply L2.
  - unfold getline. destruct (input T) as [|c i] eqn:E; [cbn; rewrite E; by split; [cbn; lia|]|].
    assert (L : length (drop 1 (drop_while (fun d => negb (d =c ch_nl)) (c :: i))) <= length i).
    { cbn [drop_while]. destruct (negb (c =c ch_nl)); [|cbn; rewrite drop_0; lia]. rewrite length_drop.
      pose proof (length_drop_while (fun d => negb (d =c ch_nl)) i). lia. }
    cbn [fst snd input]. cbn [length] in *. split; [|intros _ _]; lia.
Qed.

(** What was written does not matter to what is read. *)
Definition same_input (T1 T2 : Terminal) : Prop := input T1 = input T2 /\ lines T1 = lines T2.

Lemma read_same tty p T1 T2 : same_input T1 T2 -> (read tty p T1).1 = (read tty p T2).1 /\ same_input (read tty p T1).2 (read tty p T2).2.
Proof.
  intros [I L]. unfold read. rewrite I, L. destruct tty.
  - by destruct (edit p _ _) as [[eof X] rest].
  - by destruct (getline (input T2)) as [[l rest]|]; repeat split.
Qed.

Lemma continue_total tty fuel depth entry line T : length (input T) < fuel ->
  exists e T', continue_entry tty fuel depth entry line T = Some (e, T') /\ length (input T') <= length (input T).
Proof.
  revert depth entry line T. induction fuel as [|f IH]; intros depth entry line T H; [lia|]. cbn [continue_entry].
  destruct (0 <? _)%Z; [|by eexists _, _]. destruct (read_le tty $"... " T) as [L1 L2]. destruct (read tty _ T) as [[l|] T'] eqn:E; cbn in L1, L2.
  - specialize (L2 _ eq_refl). destruct (IH (depth + bracketDelta line)%Z (entry ++ ch_nl :: strip_cr l) (strip_cr l) T' ltac:(lia)) as (e & T2 & -> & L).
    eexists _, _. split; [done|lia].
  - by eexists _, _.
Qed.

Lemma continue_same tty fuel depth entry line T1 T2 e T1' : same_input T1 T2 ->
  continue_entry tty fuel depth entry line T1 = Some (e, T1') ->
  exists T2', continue_entry tty fuel depth entry line T2 = Some (e, T2') /\ same_input T1' T2'.
Proof.
  revert depth entry line T1 T2. induction fuel as [|f IH]; intros depth entry line T1 T2 H; cbn [continue_entry].
  - destruct (0 <? _)%Z; [done|]. intros [= <- <-]. by eexists.
  - destruct (0 <? _)%Z; [|intros [= <- <-]; by eexists]. destruct (read_same tty $"... " T1 T2 H) as [E1 E2].
    destruct (read tty _ T1) as [[l|] T1'']; destruct (read tty _ T2) as [[l2|] T2'']; cbn in E1, E2; simplify_eq.
    + by apply IH.
    + intros [= <- <-]. by eexists.
Qed.

(** ** The entries of a session *)

Definition quits (t : str) : bool := existsb (streq t) [$":q"; $":quit"; $":exit"; $":bye"].

(** The entries that are read, up to one that leaves. *)
Fixpoint entries (tty : bool) (fuel : nat) (T : Terminal) : option (list str) :=
  match fuel with
  | O => None
  | S f =>
      match read tty $"vyb> " T with
      | (None, _) => Some []
      | (Some l, T) =>
          let l := strip_cr l in
          '(entry, T) ← continue_entry tty (length (input T) + 1) 0 l l T;
          if quits (trim entry) then Some [entry]
          else es ← entries tty f (mkTerminal (input T) (stdout T) (stderr T) (remember entry (lines T))); Some (entry :: es)
      end
  end.

Definition session_entries (tty : bool) (stdin : str) : option (list str) :=
  entries tty (length stdin + 1) (mkTerminal stdin [] [] LineEditor_new).

Lemma entries_same tty fuel T1 T2 : same_input T1 T2 -> entries tty fuel T1 = entries tty fuel T2.
Proof.
  revert T1 T2. induction fuel as [|f IH]; intros T1 T2 H; [done|]. cbn [entries]. destruct (read_same tty $"vyb> " T1 T2 H) as [E1 E2].
  destruct (read tty _ T1) as [[l|] T1']; destruct (read tty _ T2) as [[l2|] T2']; cbn in E1, E2; simplify_eq; [|done].
  rewrite (proj1 E2). destruct (continue_total tty (length (input T2') + 1) 0 (strip_cr l2) (strip_cr l2) T1') as (e & T3 & E3 & _); [rewrite (proj1 E2); lia|].
  destruct (continue_same _ _ _ _ _ _ T2' _ _ E2 E3) as (T4 & E4 & S4). rewrite E3, E4. cbn [mbind option_bind]. destruct (quits (trim e)); [done|].
  rewrite (IH _ (mkTerminal (input T4) (stdout T4) (stderr T4) (remember e (lines T4)))); [done|]. destruct S4 as [-> ->]. by split.
Qed.

(** ** What is kept *)

#[export] Instance Kind_eq_dec : EqDecision Kind.
Proof. solve_decision. Defined.

Definition is_statement (e : str) : bool := match classify e with ASSIGN | STMT => true | _ => false end.
Definition is_declaration (e : str) : bool := match classify e with DECL => true | _ => false end.

(** The program of the entries that are kept, and of one more. *)
Definition decls_of (kept : list str) : list str := List.filter is_declaration kept.
Definition body_of (kept : list str) : list str := concat (map body_lines (List.filter is_statement kept)).
Definition program_with (kept : list str) (e : str) : str :=
  program (decls_of (kept ++ [e])) (body_of (kept ++ [e]) ++ match classify e with EXPR => [$"    println(" ++ trim e ++ $")"] | _ => [] end).

Definition is_command (t : str) : bool :=
  (t =s []) || quits t || existsb (streq t) [$":help"; $":?"; $":clear"; $":decls"]
  || match strip_prefix $":type" t with Some _ => true | None => false end.

(** What one entry leaves of the entries so far. *)
Definition keep (accepts : str -> bool) (kept : list str) (e : str) : list str :=
  if trim e =s $":clear" then []
  else if is_command (trim e) then kept
  else match classify e with EXPR => kept | _ => if accepts (program_with kept e) then kept ++ [e] else kept end.

Section Session.
Context {W : Type} (OS : System W) (selfExe : str) (tty : bool) (accepts : str -> bool).

(** A file can be made of every program, and the compiler ends on it: with zero
    exactly on the programs it accepts. *)
Hypothesis runs : forall p w, (makeTempFile OS p w).1 <> [] /\ exists rc out err w',
  runProgram OS selfExe [(makeTempFile OS p w).1] (makeTempFile OS p w).2 = Some (rc, out, err, w') /\ (rc =? 0)%Z = accepts p.
Hypothesis types : forall path w, is_Some (runProgram OS selfExe [$"type"; path; $"vtypeprobe"] w).

Definition keeps (S : Session W) (kept : list str) : Prop := decls S = decls_of kept /\ body S = body_of kept.

Lemma decls_of_snoc kept e : decls_of (kept ++ [e]) = decls_of kept ++ (if is_declaration e then [e] else []).
Proof. unfold decls_of. rewrite List.filter_app. cbn. by destruct (is_declaration e). Qed.
Lemma body_of_snoc kept e : body_of (kept ++ [e]) = body_of kept ++ (if is_statement e then body_lines e else []).
Proof. unfold body_of. rewrite List.filter_app, map_app, concat_app. cbn. destruct (is_statement e); cbn; by rewrite ?app_nil_r. Qed.

Lemma prompt_keeps S kept : keeps (prompt tty S) kept <-> keeps S kept.
Proof. done. Qed.
Lemma prompt_same (S : Session W) : same_input (terminal (prompt tty S)) (terminal S).
Proof. unfold prompt. by destruct tty. Qed.

Lemma entry_keeps e S kept : keeps S kept ->
  entry_decls e S = decls_of (kept ++ [e]) /\ entry_body e S = body_of (kept ++ [e])
  /\ program (entry_decls e S) (eval_body e S) = program_with kept e.
Proof.
  intros [Hd Hb]. unfold program_with, eval_body, entry_decls, entry_body. rewrite decls_of_snoc, body_of_snoc, Hd, Hb. unfold is_declaration, is_statement.
  by destruct (classify e); rewrite ?app_nil_r.
Qed.

Lemma revert_keeps e S kept : keeps S kept -> (is_statement e = true -> length (body_lines e) = 1) -> revert e S = (decls_of kept, body_of kept).
Proof.
  intros [Hd Hb] One. unfold revert, eval_body, entry_decls, entry_body. unfold is_statement in One. rewrite Hd, Hb.
  assert (L : length (body_lines e) = 1 -> removelast (body_of kept ++ body_lines e) = body_of kept).
  { destruct (body_lines e) as [|x [|]]; try done. intros _. by rewrite removelast_last. }
  destruct (classify e); [by rewrite removelast_last|rewrite bool_decide_true, L by auto; done..|done].
Qed.

Lemma evaluate_keeps e S kept : keeps S kept -> (is_statement e = true -> length (body_lines e) = 1) ->
  exists S', evaluate OS selfExe tty e S = Some (false, S') /\ same_input (terminal S') (terminal S)
    /\ keeps S' (match classify e with EXPR => kept | _ => if accepts (program_with kept e) then kept ++ [e] else kept end).
Proof.
  intros K One. unfold evaluate. destruct (entry_keeps e S kept K) as (Ed & Eb & Ep). rewrite Ep, Ed, Eb, (revert_keeps e S kept K One).
  destruct (runs (program_with kept e) (world S)) as (Np & rc & out & err & w' & Hr & Ha).
  destruct (makeTempFile OS _ _) as [path w]. cbn in Np, Hr. rewrite (proj2 (streq_false _ _)) by done. rewrite Hr. cbn [mbind option_bind].
  rewrite Ha. eexists. split; [done|]. destruct (accepts _); (split; [by unfold prompt; destruct tty|]); rewrite prompt_keeps; unfold keeps; cbn.
  - destruct (classify e) eqn:C; try done. rewrite decls_of_snoc, body_of_snoc. unfold is_declaration, is_statement. by rewrite C, !app_nil_r.
  - by destruct (classify e).
Qed.

Lemma show_type_keeps expr S kept : keeps S kept ->
  exists S', show_type OS selfExe tty expr S = Some S' /\ same_input (terminal S') (terminal S) /\ keeps S' kept.
Proof.
  intros K. unfold show_type. destruct (makeTempFile OS _ _) as [path w]. destruct (types path w) as [[[[rc out] err] w'] ->].
  cbn [mbind option_bind]. eexists. split; [done|]. split; [|done]. cbn. by destruct (_ && _), tty.
Qed.

Lemma submit_keeps e S kept : keeps S kept -> (is_statement e = true -> length (body_lines e) = 1) ->
  exists S', submit OS selfExe tty e S = Some (quits (trim e), S') /\ same_input (terminal S') (terminal S) /\ keeps S' (keep accepts kept e).
Proof.
  intros K One. unfold submit, keep, is_command. fold (quits (trim e)).
  assert (Stay : forall S1 : Session W, same_input (terminal S1) (terminal S) -> same_input (terminal (prompt tty S1)) (terminal S)).
  { intros S1 [I L]. unfold prompt. destruct tty; by split. }
  destruct (trim e =s []) eqn:E0; [apply streq_true in E0; rewrite E0; eexists; split; [done|]; split; [by apply Stay|done]|].
  destruct (trim e =s $":clear") eqn:E1.
  { apply streq_true in E1. rewrite E1. cbn [orb]. eexists. split; [done|]. split; [by apply Stay|done]. }
  destruct (quits (trim e)) eqn:E2; [by eexists|]. cbn [orb existsb]. rewrite E1.
  destruct (trim e =s $":help"); [eexists; split; [done|]; split; [by apply Stay|done]|].
  destruct (trim e =s $":?"); [eexists; split; [done|]; split; [by apply Stay|done]|].
  destruct (trim e =s $":decls"); [eexists; split; [done|]; split; [by apply Stay|done]|]. cbn [orb].
  destruct (strip_prefix $":type" (trim e)) as [rest|]; [|by apply evaluate_keeps].
  destruct (trim rest =s []); [eexists; split; [done|]; split; [by apply Stay|done]|].
  destruct (show_type_keeps (trim rest) S kept K) as (S' & -> & I & K'). by eexists.
Qed.

Definition one_line (e : str) : Prop := is_statement e = true -> length (body_lines e) = 1.

Lemma loop_keeps fuel S kept : keeps S kept -> length (input (terminal S)) < fuel ->
  exists es, entries tty fuel (terminal S) = Some es
    /\ (Forall one_line es -> exists S', loop OS selfExe tty fuel S = Some S' /\ keeps S' (foldl (keep accepts) kept es)).
Proof.
  revert S kept. induction fuel as [|f IH]; intros S kept K H; [lia|]. cbn [entries loop].
  destruct (read_le tty $"vyb> " (terminal S)) as [_ L]. destruct (read tty $"vyb> " (terminal S)) as [[l|] T]; [|by exists []; split; [|intros _; eexists]].
  specialize (L _ eq_refl). cbn in L. destruct (continue_total tty (length (input T) + 1) 0 (strip_cr l) (strip_cr l) T ltac:(lia)) as (e & T1 & -> & L1).
  cbn [mbind option_bind]. set (T2 := mkTerminal (input T1) (stdout T1) (stderr T1) (remember e (lines T1))).
  assert (Next : one_line e -> exists S', submit OS selfExe tty e (set_terminal T2 S) = Some (quits (trim e), S') /\ same_input (terminal S') T2 /\ keeps S' (keep accepts kept e)).
  { intros O. exact (submit_keeps e (set_terminal T2 S) kept K O). }
  destruct (quits (trim e)).
  - exists [e]. split; [done|]. intros [O _]%Forall_cons. destruct (Next O) as (S' & -> & _ & K'). by eexists.
  - assert (R : exists es, entries tty f T2 = Some es).
    { destruct (IH (set_terminal T2 S) kept K) as (es & E & _); [cbn; lia|]. by exists es. }
    destruct R as [es R]. rewrite R. cbn [mbind option_bind]. exists (e :: es). split; [done|]. intros [O F]%Forall_cons.
    destruct (Next O) as (S' & -> & I & K'). cbn [mbind option_bind foldl].
    destruct (IH S' _ K') as (es' & E & G); [rewrite (proj1 I); cbn; lia|]. rewrite (entries_same _ _ _ _ I), R in E. injection E as <-. by apply G.
Qed.

(** C19: What a session keeps. Whatever bytes are typed, at a terminal or not,
    the entries read from them are a function of the bytes alone. Where a
    temporary file can be made, the compiler ends on every program and exits with
    zero exactly on those it accepts ([accepts], a function of the program's
    text), its type query ends, and every statement entered is one line, the
    session ends, and its declarations and the body of its [main] are those of
    the entries since the last [:clear] that the compiler accepted at the time,
    in order: an entry is tried behind those kept so far, a rejected entry leaves
    nothing, and an expression or a command never stays. (Of a rejected statement
    of several lines some stay: [rejected_lines_stay].) *)
Theorem session_keeps_accepted stdin w : exists es, session_entries tty stdin = Some es /\
  (Forall one_line es ->
   exists S, runRepl OS selfExe tty stdin w = Some S
     /\ decls S = decls_of (foldl (keep accepts) [] es) /\ body S = body_of (foldl (keep accepts) [] es)).
Proof.
  unfold session_entries, runRepl.
  set (S1 := if tty then on_terminal (put_out banner) (mkSession [] [] (mkTerminal stdin [] [] LineEditor_new) w)
             else mkSession [] [] (mkTerminal stdin [] [] LineEditor_new) w).
  assert (I : same_input (terminal (prompt tty S1)) (mkTerminal stdin [] [] LineEditor_new)) by (unfold prompt, S1; by destruct tty).
  assert (K : keeps (prompt tty S1) []) by (unfold prompt, S1, keeps; by destruct tty).
  destruct (loop_keeps (length stdin + 1) (prompt tty S1) [] K) as (es & E & G); [rewrite (proj1 I); cbn; lia|].
  rewrite (entries_same _ _ _ _ I) in E. exists es. split; [done|]. intros F. destruct (G F) as (S' & -> & K').
  cbn [mbind option_bind]. eexists. split; [done|]. by destruct tty.
Qed.
End Session.

(** ** Sessions

    A system whose state is the file, and a compiler that accepts what the front
    end parses. *)

Definition parses (source : str) : bool :=
  match parseModuleOnly true false source $"a.vyb" 0 with Some (Ok _) => true | _ => false end.

Definition ending (out err : str) : list (option Round) := [Some (mkRound (Some out) (Some err)); Some (mkRound (Some []) (Some []))].

Definition one_file : System str :=
  mkSystem str (fun _ => None) (fun t w => (Some t, w)) (fun _ b _ => b) (fun _ _ => [])
    (fun _ args w => (Some (match args with
                            | [_] => if parses w then (ending $"ok" [], Exited 0) else (ending [] $"no", Exited 1)
                            | _ => (ending $"Int" [], Exited 0)
                            end), w)).

Lemma one_file_runs p w : (makeTempFile one_file p w).1 <> [] /\ exists rc out err w',
  runProgram one_file $"vyb" [(makeTempFile one_file p w).1] (makeTempFile one_file p w).2 = Some (rc, out, err, w') /\ (rc =? 0)%Z = parses p.
Proof. split; [done|]. cbn -[parses]. unfold runProgram. cbn -[parses]. destruct (parses p); by repeat eexists. Qed.
Lemma one_file_types path w : is_Some (runProgram one_file $"vyb" [$"type"; path; $"vtypeprobe"] w).
Proof. by eexists. Qed.

(** What is kept of these lines; [None] where the session does not end. *)
Definition kept_lines (l : list str) : option (list str * list str) :=
  S ← runRepl one_file $"vyb" false (concat (map line_of l)) []; Some (decls S, body S).

Definition sample_lines : list str :=
  [$"f(x<Int>)<Int> -> {"; $"  return x + 1 }"; $"y<Int> = f(1)"; $"z<Int> = = 2"; $"f(y)"; $"struct P { x<Int> }"; $":type y"; $"struct"; $":quit"].

Lemma session_keeps_accepted_witness :
  kept_lines sample_lines = Some ([$"f(x<Int>)<Int> -> {" ++ [ch_nl] ++ $"  return x + 1 }"; $"struct P { x<Int> }"], [$"    y<Int> = f(1)"])
  /\ exists es, session_entries false (concat (map line_of sample_lines)) = Some es /\
     (Forall one_line es ->
      exists S, runRepl one_file $"vyb" false (concat (map line_of sample_lines)) [] = Some S
        /\ decls S = decls_of (foldl (keep parses) [] es) /\ body S = body_of (foldl (keep parses) [] es)).
Proof.
  split; [vm_compute; reflexivity|]. apply (session_keeps_accepted one_file $"vyb" false parses); [apply one_file_runs|apply one_file_types].
Defined.

(** Of a rejected statement of several lines all but the last stay, and no later
    entry is accepted. *)
Lemma rejected_lines_stay :
  kept_lines [$"if (true) {"; $"  = 1"; $"}"] = Some ([], [$"    if (true) {"; $"      = 1"])
  /\ kept_lines [$"if (true) {"; $"  = 1"; $"}"; $"x<Int> = 1"] = Some ([], [$"    if (true) {"; $"      = 1"])
  /\ kept_lines [$"x<Int> = 1"] = Some ([], [$"    x<Int> = 1"]).
Proof. split_and!; vm_compute; reflexivity. Qed.

(** A comment is an expression to print, which no program is accepted with. *)
Lemma comment_rejected :
  classify $"# note" = EXPR /\ parses (program_with [] $"# note") = false /\ parses (program_with [] $"1 # one") = false
  /\ parses (program_with [] $"1") = true.
Proof. split_and!; vm_compute; reflexivity. Qed.

(** A match on a parenthesized value is taken for a function, so it is tried
    outside of [main]; as the statement it is, it is accepted. *)
Lemma match_taken_for_function :
  classify $"match (1) { 1 -> println(1) }" = DECL /\ parses (program_with [] $"match (1) { 1 -> println(1) }") = false
  /\ parses (program [] [$"match (1) { 1 -> println(1) }"]) = true.
Proof. split_and!; vm_compute; reflexivity. Qed.

(** The brackets of an entry are counted line by line when it is typed, and in
    one piece when it is recalled: behind a comment on its first line nothing
    counts, and the recalled entry waits for a line that closes it again. *)
Lemma recalled_entry_waits :
  (bracketDelta $"f() -> { # c" + bracketDelta $"  return 1 }")%Z = 0%Z
  /\ bracketDelta ($"f() -> { # c" ++ [ch_nl] ++ $"  return 1 }") = 1%Z.
Proof. split; vm_compute; reflexivity. Qed.
