(* ===== verification/Docgen.v ===== *)
(** * The documentation generator (src/docgen.cpp)

    Doc comments are read from the lines of the source and attached to the
    declarations of the tree by line number; every declaration becomes a section
    of a page. Fields are never null in a parsed tree ([DeclWf]). *)

From S2P Require Import Prelude.
From S2P Require Import Token.
From S2P Require Import Ast.
From S2P Require Import AstText.
From S2P Require Import ModuleSource.
From S2P Require Import ModuleParser.
From S2P Require Import Lint.

(** ** Escaping *)

Definition escape_html_char (c : ascii) : str :=
  if c =c "&" then $"&amp;"
  else if c =c "<" then $"&lt;"
  else if c =c ">" then $"&gt;"
  else if c =c ch_quote then $"&quot;"
  else if c =c "'" then $"&#39;"
  else [c].

Definition html_escape (s : str) : str := concat (map escape_html_char s).

(** ** Doc comments *)

Record DocBlock : Type := mkBlock { start : nat; stop : nat; text : str }.

Definition isDocLine (t : str) : bool := match strip_prefix $"///" t with Some _ => true | None => false end.

Definition doc_line (raw : str) : bool := isDocLine (drop_while (fun c => (c =c " ") || (c =c ch_tab) || (c =c ch_cr)) raw).

Definition docLineText (line : str) : str :=
  let t := drop_while (fun c => c =c " ") (drop 3 (drop_while (fun c => (c =c " ") || (c =c ch_tab)) line)) in
  match last t with Some c => if c =c ch_cr then removelast t else t | None => t end.

(** [if (!joined.empty()) joined += " "; joined += docLineText(r);] *)
Definition join_line (joined line : str) : str := (match joined with [] => [] | _ => joined ++ $" " end) ++ docLineText line.

(** The lines from the one with index [i] on, with the block that is open. *)
Fixpoint blocks_from (i : nat) (open : option DocBlock) (lines : list str) : list DocBlock :=
  match lines with
  | [] => option_list open
  | raw :: lines' =>
      if doc_line raw then
        blocks_from (S i)
          (Some match open with
                | Some b => mkBlock (start b) (i + 1) (join_line (text b) raw)
                | None => mkBlock (i + 1) (i + 1) (join_line [] raw)
                end) lines'
      else option_list open ++ blocks_from (S i) None lines'
  end.

Definition extractDocBlocks (source : str) : list DocBlock := blocks_from 0 None (source_lines [] source).

(** The last block that holds the line or ends above it. *)
Definition near (L : nat) (b : DocBlock) : bool := (start b <=? L) && (L <=? stop b + 1).
Definition docForLine (blocks : list DocBlock) (L : nat) : str :=
  match foldl (fun best b => if near L b then Some b else best) None blocks with Some b => text b | None => [] end.

(** ** Signatures *)

Definition separated (sep : str) (l : list str) : str := match l with [] => [] | s :: l' => s ++ concat (map (fun t => sep ++ t) l') end.

Definition id_text (i : option Identifier) : str := match i with Some i => name i | None => [] end.
Definition type_text (t : option TypeNode) : str := match t with Some t => TypeNode_toString t | None => [] end.
Definition in_angles (t : option TypeNode) : str := match t with Some t => $"<" ++ TypeNode_toString t ++ $">" | None => [] end.

Definition generics_text (gs : list (option GenericParameter)) : str :=
  match gs with
  | [] => []
  | _ => $"<" ++ separated $", " (map (fun g => match g with Some (mkGenericParameter _ i _) => id_text i | None => [] end) gs) ++ $">"
  end.

Definition parameter_text (p : FunctionParameter) : str := match p with mkFunctionParameter i t _ => name i ++ in_angles t end.
Definition field_text (f : option Field) : str := match f with Some (mkField _ i t _ _) => id_text i ++ in_angles t | None => [] end.
Definition variant_text (v : option EnumVariant) : str :=
  match v with
  | Some (mkEnumVariant _ i ts value hasValue) =>
      id_text i ++ (match ts with
                    | [] => if hasValue then $" = " ++ to_string value else []
                    | _ => $"(" ++ separated $", " (map type_text ts) ++ $")"
                    end)
  | None => []
  end.

Definition function_text (f : Function_) : str :=
  match f with
  | mkFunction _ i gs ps _ async _ variadic r _ =>
      (if async then $"async " else []) ++ id_text i ++ generics_text gs ++ $"(" ++ separated $", " (map parameter_text ps)
      ++ (if variadic then $", ..." else []) ++ $")" ++ in_angles r
  end.

Definition declSignature (d : Statement) : str :=
  match d with
  | FunctionDeclaration f => function_text f
  | StructDeclaration _ i gs fs _ c =>
      (if c then $"struct reprC " else $"struct ") ++ id_text i ++ generics_text gs ++ $" { " ++ separated $", " (map field_text fs) ++ $" }"
  | EnumDeclaration _ i _ vs => $"enum " ++ id_text i ++ $" { " ++ separated $", " (map variant_text vs) ++ $" }"
  | TypeAliasDeclaration _ i t => $"type " ++ id_text i ++ $" = " ++ type_text t
  | ImportDeclaration _ _ s l _ _ _ =>
      $"import " ++ match s with Some s => str_value s | None => [] end
      ++ match l with Some l => $" from " ++ ch_quote :: str_value l ++ [ch_quote] | None => [] end
  | AspectDeclaration _ i _ sup _ _ _ _ =>
      $"aspect " ++ id_text i ++ match sup with [] => [] | _ => $" : " ++ separated $" + " (map id_text sup) end
  | BindDeclaration _ _ _ _ self _ _ => $"bind " ++ type_text self
  | ClassDeclaration _ i _ _ => $"class " ++ id_text i ++ $" { ... }"
  | _ => Statement_toString d
  end.

(** ** The page *)

Definition anchor (s : str) : str := map (fun c => if isalnum c || (c =c "_") then c else "-"%char) s.

Definition declName (d : Statement) : str :=
  match d with
  | FunctionDeclaration (mkFunction _ (Some i) _ _ _ _ _ _ _ _) | StructDeclaration _ (Some i) _ _ _ _ | EnumDeclaration _ (Some i) _ _
  | TypeAliasDeclaration _ (Some i) _ | AspectDeclaration _ (Some i) _ _ _ _ _ _ | ClassDeclaration _ (Some i) _ _ => name i
  | BindDeclaration _ _ _ _ self _ _ => match self with Some t => $"bind " ++ TypeNode_toString t | None => $"bind" end
  | _ => $"decl"
  end.

Definition attribute (key value : str) : str := key ++ $"=" ++ ch_quote :: value ++ [ch_quote].

Definition section (nm doc sig : str) : str :=
  $"<section " ++ attribute $"id" (anchor nm) ++ $">" ++ [ch_nl] ++ $"  <h3>" ++ html_escape nm ++ $"</h3>" ++ [ch_nl]
  ++ match doc with [] => [] | _ => $"  <p " ++ attribute $"class" $"doc" ++ $">" ++ html_escape doc ++ $"</p>" ++ [ch_nl] end
  ++ $"  <pre>" ++ html_escape sig ++ $"</pre>" ++ [ch_nl] ++ $"</section>" ++ [ch_nl].

(** The declarations that get a section: imports do not. *)
Definition documented (s : option Statement) : option Statement :=
  match s with
  | Some d => if is_declaration d then match d with ImportDeclaration _ _ _ _ _ _ _ => None | _ => Some d end else None
  | None => None
  end.

Definition decl_section (blocks : list DocBlock) (d : Statement) : str :=
  section (declName d) (docForLine blocks (Z.to_nat (line (loc (Statement_node d))))) (declSignature d).

(** The fragments and the names of the contents. *)
Definition renderDeclSections (m : Module_) (blocks : list DocBlock) : list (str * str) :=
  map (fun d => (decl_section blocks d, declName d)) (omap documented (module_body m)).

Definition toc_entry (nm : str) : str := $"<li><a " ++ attribute $"href" ($"#" ++ anchor nm) ++ $">" ++ html_escape nm ++ $"</a></li>".

Definition renderModule (m : Module_) (source : str) : str :=
  let l := renderDeclSections m (extractDocBlocks source) in
  $"<ul " ++ attribute $"class" $"toc" ++ $">" ++ concat (map (fun f => toc_entry f.2) l) ++ $"</ul>" ++ concat (map fst l).

Definition css : str :=
  $"body{font-family:system-ui,-apple-system,sans-serif;margin:2rem auto;max-width:52rem;" ++
  $"padding:0 1rem;line-height:1.5;color:#1a1a1a;background:#fff;}" ++
  $"h1{border-bottom:2px solid #eee;padding-bottom:.3rem;}" ++
  $"h3{margin:.6rem 0 .2rem;color:#0b5394;}" ++
  $".doc{background:#f6f8fa;padding:.4rem .7rem;border-left:3px solid #0969da;}" ++
  $"pre{background:#0d1117;color:#e6edf3;padding:.8rem;border-radius:6px;overflow-x:auto;" ++
  $"font-size:.85em;}section{margin:1.2rem 0;}" ++
  $"ul.toc{column-width:14rem;list-style:none;padding:0;}ul.toc a{color:#0969da;text-decoration:none;}".

Definition page_head (title : str) : str :=
  $"<!DOCTYPE html>" ++ [ch_nl] ++ $"<html " ++ attribute $"lang" $"en" ++ $"><head><meta " ++ attribute $"charset" $"utf-8" ++ $">" ++ [ch_nl]
  ++ $"<meta " ++ attribute $"name" $"viewport" ++ $" " ++ attribute $"content" $"width=device-width,initial-scale=1" ++ $">" ++ [ch_nl]
  ++ $"<title>" ++ html_escape title ++ $"</title>" ++ [ch_nl] ++ $"<style>" ++ css ++ $"</style>" ++ [ch_nl] ++ $"</head>" ++ [ch_nl]
  ++ $"<body>" ++ [ch_nl] ++ $"<h1>" ++ html_escape title ++ $"</h1>" ++ [ch_nl].

Definition buildPage (title : str) (bodyFragments : list str) : str :=
  page_head title ++ concat (map (fun f => f ++ [ch_nl]) bodyFragments) ++ $"</body>" ++ [ch_nl] ++ $"</html>" ++ [ch_nl].

(** ** A page is read as it was meant

    A reader of pages: tags, and the characters between them, with the entities
    of [html_escape] for the characters they stand for. *)

Inductive html : Type := Tag (t : str) | Char (c : ascii).

Inductive reading : Type := Outside | InTag (t : str) | InEntity (e : str).

Definition entities : list (str * ascii) := [($"amp", "&"%char); ($"lt", "<"%char); ($"gt", ">"%char); ($"quot", ch_quote); ($"#39", "'"%char)].
Definition entity (e : str) : ascii := default "?"%char (assoc_find e entities).

Fixpoint read_html (st : reading) (s : str) : list html :=
  match s with
  | [] => []
  | c :: s' =>
      match st with
      | Outside => if c =c "<" then read_html (InTag []) s' else if c =c "&" then read_html (InEntity []) s' else Char c :: read_html Outside s'
      | InTag t => if c =c ">" then Tag t :: read_html Outside s' else read_html (InTag (t ++ [c])) s'
      | InEntity e => if c =c ";" then Char (entity e) :: read_html Outside s' else read_html (InEntity (e ++ [c])) s'
      end
  end.

Lemma read_escaped s rest : read_html Outside (html_escape s ++ rest) = map Char s ++ read_html Outside rest.
Proof.
  induction s as [|c s IH]; [done|]. unfold html_escape in *. cbn [map concat]. rewrite <- app_assoc, <- app_comm_cons, <- IH.
  unfold escape_html_char. repeat match goal with |- context [if c =c ?d then _ else _] => destruct (c =c d) eqn:?;
    [match goal with H : (c =c d) = true |- _ => apply ceq_true in H; subst c end; by vm_compute|] end.
  cbn [app read_html]. rewrite Heqb, Heqb0. done.
Qed.

Lemma read_tag t rest : ">"%char ∉ t -> read_html Outside (("<"%char :: t) ++ ">"%char :: rest) = Tag t :: read_html Outside rest.
Proof.
  intros N. cbn [app read_html]. change ("<" =c "<") with true. cbv iota.
  assert (G : forall u, read_html (InTag u) (t ++ ">"%char :: rest) = Tag (u ++ t) :: read_html Outside rest).
  { clear -N. induction t as [|c t IH]; intros u; cbn [app read_html]; [by rewrite ceq_refl, app_nil_r|].
    apply not_elem_of_cons in N as [Nc N]. rewrite (proj2 (ceq_false _ _)) by (intros ->; done). rewrite IH by done. by rewrite <- app_assoc. }
  apply G.
Qed.

Lemma read_plain s rest : "<"%char ∉ s -> "&"%char ∉ s -> read_html Outside (s ++ rest) = map Char s ++ read_html Outside rest.
Proof.
  intros N1 N2. induction s as [|c s IH]; [done|]. apply not_elem_of_cons in N1 as [C1 N1], N2 as [C2 N2]. cbn [app read_html map].
  rewrite !(proj2 (ceq_false _ _)) by congruence. by rewrite IH.
Qed.

(** A page in pieces: a tag, text that needs no escape, text that is escaped. *)
Inductive piece : Type := Mark (t : str) | Plain (s : str) | Escaped (s : str).

Definition render (p : piece) : str := match p with Mark t => ("<"%char :: t) ++ $">" | Plain s => s | Escaped s => html_escape s end.
Definition meaning (p : piece) : list html := match p with Mark t => [Tag t] | Plain s | Escaped s => map Char s end.
Definition sound (p : piece) : Prop :=
  match p with Mark t => ">"%char ∉ t | Plain s => "<"%char ∉ s /\ "&"%char ∉ s | Escaped _ => True end.

Definition render_all (l : list piece) : str := concat (map render l).
Definition meaning_all (l : list piece) : list html := concat (map meaning l).

Lemma read_pieces l rest : Forall sound l -> read_html Outside (render_all l ++ rest) = meaning_all l ++ read_html Outside rest.
Proof.
  induction 1 as [|p l Hp _ IH]; [done|]. unfold render_all, meaning_all in *. cbn [map concat]. rewrite <- !app_assoc, <- IH.
  destruct p; cbn [render meaning sound] in *; [|apply read_plain; tauto|by rewrite read_escaped].
  rewrite <- app_assoc. by apply read_tag.
Qed.

Lemma read_all l : Forall sound l -> read_html Outside (render_all l) = meaning_all l.
Proof. intros H. rewrite <- (app_nil_r (render_all l)), read_pieces by done. by rewrite app_nil_r. Qed.

(** What a section says: its name, the comment if there is one, the signature. *)
Definition section_pieces (nm doc sig : str) : list piece :=
  [Mark ($"section " ++ attribute $"id" (anchor nm)); Plain (ch_nl :: $"  "); Mark $"h3"; Escaped nm; Mark $"/h3"; Plain [ch_nl]]
  ++ match doc with
     | [] => []
     | _ => [Plain $"  "; Mark ($"p " ++ attribute $"class" $"doc"); Escaped doc; Mark $"/p"; Plain [ch_nl]]
     end
  ++ [Plain $"  "; Mark $"pre"; Escaped sig; Mark $"/pre"; Plain [ch_nl]; Mark $"/section"; Plain [ch_nl]].

Definition toc_pieces (nm : str) : list piece :=
  [Mark $"li"; Mark ($"a " ++ attribute $"href" ($"#" ++ anchor nm)); Escaped nm; Mark $"/a"; Mark $"/li"].

Definition decl_pieces (blocks : list DocBlock) (d : Statement) : list piece :=
  section_pieces (declName d) (docForLine blocks (Z.to_nat (line (loc (Statement_node d))))) (declSignature d).

(** A module: the contents, then the sections. *)
Definition module_pieces (m : Module_) (source : str) : list piece :=
  let ds := omap documented (module_body m) in
  [Mark ($"ul " ++ attribute $"class" $"toc")] ++ concat (map (fun d => toc_pieces (declName d)) ds) ++ [Mark $"/ul"]
  ++ concat (map (decl_pieces (extractDocBlocks source)) ds).

Definition page_pieces (title : str) (body : list piece) : list piece :=
  [Mark $"!DOCTYPE html"; Plain [ch_nl]; Mark ($"html " ++ attribute $"lang" $"en"); Mark $"head"; Mark ($"meta " ++ attribute $"charset" $"utf-8"); Plain [ch_nl];
   Mark ($"meta " ++ attribute $"name" $"viewport" ++ $" " ++ attribute $"content" $"width=device-width,initial-scale=1"); Plain [ch_nl];
   Mark $"title"; Escaped title; Mark $"/title"; Plain [ch_nl]; Mark $"style"; Plain css; Mark $"/style"; Plain [ch_nl]; Mark $"/head"; Plain [ch_nl];
   Mark $"body"; Plain [ch_nl]; Mark $"h1"; Escaped title; Mark $"/h1"; Plain [ch_nl]]
  ++ body ++ [Plain [ch_nl]; Mark $"/body"; Plain [ch_nl]; Mark $"/html"; Plain [ch_nl]].

Lemma render_app l1 l2 : render_all (l1 ++ l2) = render_all l1 ++ render_all l2.
Proof. unfold render_all. by rewrite map_app, concat_app. Qed.

Lemma render_concat {A} (f : A -> list piece) l : render_all (concat (map f l)) = concat (map (fun x => render_all (f x)) l).
Proof. induction l as [|x l IH]; [done|]. cbn [map concat]. by rewrite render_app, IH. Qed.

Ltac pieces := unfold render_all; cbn [map concat render app]; repeat (cbn [app]; rewrite <- ?app_assoc); rewrite ?app_nil_r; try reflexivity.

Lemma section_renders nm doc sig : section nm doc sig = render_all (section_pieces nm doc sig).
Proof. unfold section, section_pieces. destruct doc; pieces. Qed.
Lemma toc_renders nm : toc_entry nm = render_all (toc_pieces nm).
Proof. unfold toc_entry, toc_pieces. pieces. Qed.

Lemma module_renders m source : renderModule m source = render_all (module_pieces m source).
Proof.
  unfold renderModule, module_pieces, renderDeclSections. rewrite !render_app, !render_concat, !map_map.
  rewrite (map_ext _ (fun d => toc_entry (declName d))) by done.
  rewrite (map_ext (fun d => render_all (toc_pieces (declName d))) (fun d => toc_entry (declName d))) by (intros; by rewrite toc_renders).
  rewrite (map_ext (fun d => render_all (decl_pieces _ d)) (decl_section (extractDocBlocks source))) by (intros; unfold decl_pieces; by rewrite <- section_renders).
  cbn [fst]. pieces.
Qed.

Lemma page_renders title l : buildPage title [render_all l] = render_all (page_pieces title l).
Proof. unfold buildPage, page_pieces, page_head. rewrite !render_app. cbn [map concat]. set (b := render_all l). pieces. Qed.

Lemma anchor_plain c s : isalnum c = false -> (c =c "_") = false -> (c =c "-") = false -> c ∉ anchor s.
Proof.
  intros A B C. induction s as [|d s IH]; [apply not_elem_of_nil|]. apply not_elem_of_cons. split; [|done].
  intros ->. destruct (isalnum d || (d =c "_")) eqn:E; [by rewrite A, B in E|done].
Qed.

Lemma anchor_mark l r s : ">"%char ∉ l -> ">"%char ∉ r -> ">"%char ∉ l ++ anchor s ++ r.
Proof. intros L R. rewrite !not_elem_of_app. split_and!; [done|by apply anchor_plain|done]. Qed.

Ltac sound_piece := first [exact I | split; by_decision | by_decision].

Lemma section_sound nm doc sig : Forall sound (section_pieces nm doc sig).
Proof.
  unfold section_pieces. rewrite !Forall_app. split_and!; [|destruct doc|]; repeat apply List.Forall_cons; try apply List.Forall_nil; try sound_piece.
  by apply (anchor_mark ($"section id=" ++ [ch_quote]) [ch_quote]); by_decision.
Qed.
Lemma toc_sound nm : Forall sound (toc_pieces nm).
Proof.
  repeat apply List.Forall_cons; try apply List.Forall_nil; try sound_piece. by apply (anchor_mark ($"a href=" ++ [ch_quote] ++ $"#") [ch_quote]); by_decision.
Qed.
Lemma module_sound m source : Forall sound (module_pieces m source).
Proof.
  unfold module_pieces. rewrite !Forall_app. split_and!; [repeat constructor; sound_piece| |repeat constructor; sound_piece|].
  - apply Forall_concat, Forall_map, Forall_true. intros d. apply toc_sound.
  - apply Forall_concat, Forall_map, Forall_true. intros d. apply section_sound.
Qed.
Lemma page_sound title l : Forall sound l -> Forall sound (page_pieces title l).
Proof.
  intros H. unfold page_pieces. rewrite !Forall_app. split_and!; [|done|]; repeat apply List.Forall_cons; try apply List.Forall_nil; sound_piece.
Qed.

(** C27: A page says what it was made from, and nothing in a source can add to its
    markup. A reader that takes tags and entities apart finds in the page of a
    module the tags of the template around the title, the names, the comments and
    the signatures exactly as they are: the contents with one entry per
    declaration that is not an import, then one section per declaration in the
    order of the source. *)
Theorem page_reads_back title m source :
  read_html Outside (buildPage title [renderModule m source]) = meaning_all (page_pieces title (module_pieces m source)).
Proof. rewrite module_renders, page_renders. apply read_all, page_sound, module_sound. Qed.

(** ** A comment is found *)

(** The last line is no doc line, if there is one; nor is the first. *)
Definition ends_plain (l : list str) : Prop := match last l with Some raw => doc_line raw = false | None => True end.
Definition starts_plain (l : list str) : Prop := match l with raw :: _ => doc_line raw = false | [] => True end.

Lemma blocks_run i b run rest : Forall (fun r => doc_line r = true) run -> starts_plain rest -> stop b = i ->
  blocks_from i (Some b) (run ++ rest) = mkBlock (start b) (i + length run) (foldl join_line (text b) run) :: blocks_from (i + length run) None rest.
Proof.
  intros H R. revert i b. induction H as [|r run Hr _ IH]; intros i b E; cbn [app length foldl blocks_from].
  - rewrite Nat.add_0_r. destruct b. cbn in *. subst. destruct rest as [|raw rest]; [done|]. cbn [blocks_from]. by rewrite R.
  - rewrite Hr, IH by (cbn; lia). cbn [start text]. by rewrite Nat.add_succ_comm.
Qed.

Lemma blocks_plain_end i o pre x : doc_line x = false -> blocks_from i o (pre ++ [x]) = blocks_from i o pre.
Proof.
  intros N. revert i o. induction pre as [|r pre IH]; intros i o; cbn [app blocks_from]; [by rewrite N, app_nil_r|].
  destruct (doc_line r); by rewrite IH.
Qed.

Lemma blocks_split i o pre x rest : doc_line x = false ->
  blocks_from i o ((pre ++ [x]) ++ rest) = blocks_from i o pre ++ blocks_from (i + length pre + 1) None rest.
Proof.
  intros N. revert i o. induction pre as [|r pre IH]; intros i o; cbn [app blocks_from length]; [by rewrite N, Nat.add_0_r, Nat.add_1_r|].
  replace (i + S (length pre) + 1) with (S i + length pre + 1) by lia. destruct (doc_line r); rewrite IH; [done|by rewrite app_assoc].
Qed.

(** The blocks of some lines lie within them; the open block may start before. *)
Lemma blocks_within lines : forall i o s, (match o with Some b => s <= start b /\ start b <= i /\ stop b = i | None => s <= i + 1 end) ->
  Forall (fun b => s <= start b /\ start b <= stop b /\ stop b <= i + length lines) (blocks_from i o lines).
Proof.
  induction lines as [|raw lines IH]; intros i o s H; cbn [blocks_from length].
  - destruct o; cbn; repeat constructor; lia.
  - destruct (doc_line raw).
    + eapply Forall_impl; [apply (IH (S i) _ s)|cbn; intros b; lia]. destruct o; cbn; lia.
    + apply Forall_app. split.
      * destruct o; cbn; repeat constructor; lia.
      * eapply Forall_impl; [apply (IH (S i) None s)|cbn; intros b; lia]. destruct o; cbn in *; lia.
Qed.

Lemma best_app L l1 l2 : (forall b, b ∈ l2 -> near L b = false) ->
  foldl (fun best b => if near L b then Some b else best) None (l1 ++ l2) = foldl (fun best b => if near L b then Some b else best) None l1.
Proof.
  intros H. rewrite foldl_app. generalize (foldl (fun best b => if near L b then Some b else best) None l1). induction l2 as [|b l2 IH]; [done|].
  intros o. cbn. rewrite H by set_solver. apply IH. set_solver.
Qed.

Lemma far_away L l s e : Forall (fun b => s <= start b /\ start b <= stop b /\ stop b <= e) l -> e + 1 < L \/ L < s -> forall b, b ∈ l -> near L b = false.
Proof.
  intros H D b Hb. pose proof (proj1 (Forall_forall _ _) H b Hb) as B. cbn in B. unfold near.
  destruct D; [|by rewrite (proj2 (Nat.leb_gt _ _)) by lia]. rewrite (proj2 (Nat.leb_gt L _)) by lia. by rewrite andb_false_r.
Qed.

Lemma far_plain L l : forall i o, (forall k raw, l !! k = Some raw -> doc_line raw = true -> i + k + 1 <> L /\ i + k + 2 <> L) ->
  match o with Some b => near L b = false /\ stop b = i /\ start b <= i | None => True end -> forall b, b ∈ blocks_from i o l -> near L b = false.
Proof.
  induction l as [|raw l IH]; intros i o H O b Hb; cbn [blocks_from] in Hb.
  - destruct o; set_solver.
  - assert (H' : forall k r, l !! k = Some r -> doc_line r = true -> S i + k + 1 <> L /\ S i + k + 2 <> L).
    { intros k r K D. specialize (H (S k) r K D). lia. }
    destruct (doc_line raw) eqn:D.
    + apply (IH (S i) _ H') in Hb; [done|]. specialize (H 0 raw eq_refl D). unfold near in *. destruct o as [o|]; cbn [start stop].
      * destruct O as (N & E & B). split; [|lia]. apply andb_false_iff. apply andb_false_iff in N. rewrite !Nat.leb_gt in *. lia.
      * split; [|lia]. apply andb_false_iff. rewrite !Nat.leb_gt. lia.
    + apply elem_of_app in Hb as [Hb|Hb]; [destruct o; set_solver|]. by apply (IH (S i) None H').
Qed.

(** The comment of a declaration is the run of doc lines it stands behind.
    For a longest run of doc lines of the source, every line of the run and the
    line below it gets the text of exactly that run, its lines joined; a line
    that is no doc line and does not stand below one gets none. *)
Theorem doc_comment_found source L :
  (forall pre run post, source_lines [] source = pre ++ run ++ post -> run <> [] -> Forall (fun r => doc_line r = true) run ->
     ends_plain pre -> starts_plain post -> length pre + 1 <= L <= length pre + length run + 1 ->
     docForLine (extractDocBlocks source) L = foldl join_line [] run)
  /\ ((forall k raw, source_lines [] source !! k = Some raw -> doc_line raw = true -> k + 1 <> L /\ k + 2 <> L) ->
     docForLine (extractDocBlocks source) L = []).
Proof.
  unfold extractDocBlocks, docForLine. split.
  - intros pre run post -> Nr F E P HL. destruct F as [|r run Hr F]; [done|].
    assert (S : exists bs, blocks_from 0 None (pre ++ (r :: run) ++ post) = bs ++ blocks_from (length pre) None ((r :: run) ++ post)
              /\ forall b, b ∈ bs -> near L b = false).
    { destruct pre as [|x pre' _] using rev_ind; [by exists []; split; [|set_solver]|]. unfold ends_plain in E. rewrite last_snoc in E.
      exists (blocks_from 0 None pre'). rewrite blocks_split by done. rewrite length_app in *. cbn in *. split; [done|].
      eapply far_away; [apply (blocks_within pre' 0 None 1); cbn; lia|]. lia. }
    destruct S as (bs & -> & Hbs). cbn [app blocks_from length]. rewrite Hr, blocks_run by (first [done|cbn; lia]).
    rewrite foldl_app. cbn [foldl start text length] in *.
    match goal with |- context [near L ?m] => assert (N : near L m = true) end.
    { unfold near. cbn [start stop]. rewrite (proj2 (Nat.leb_le _ _)), (proj2 (Nat.leb_le _ _)) by lia. done. }
    rewrite N. clear N.
    set (me := mkBlock _ _ _). match goal with |- context [foldl ?f (Some me) ?l] => assert (K : foldl f (Some me) l = Some me) end.
    { match goal with |- foldl _ _ ?l = _ => assert (Far : forall b, b ∈ l -> near L b = false) end.
      { destruct post as [|x post]; [set_solver|]. cbn [blocks_from]. unfold starts_plain in P. rewrite P. cbn [option_list app].
        eapply far_away; [apply (blocks_within post _ None (S (length pre) + length run + 2)); cbn; lia|]. lia. }
      revert Far. generalize (blocks_from (S (length pre) + length run) None post). intros l. induction l as [|b l IH]; [done|]. intros Far. cbn.
      rewrite Far by set_solver. apply IH. set_solver. }
    by rewrite K.
  - intros H. rewrite <- (app_nil_l (blocks_from 0 None _)), best_app; [done|]. by apply far_plain.
Qed.

(** ** Comments of some sources *)

(** The declarations of a source with the comment each one is given. *)
Definition comments_of (l : list str) : option (list (str * str)) :=
  let text := concat (map (fun s => s ++ [ch_nl]) l) in
  match preprocessModuleSource false text with
  | Ok meta =>
      match parseModuleOnly true false (ModuleSource.source meta) $"a.vyb" 0 with
      | Some (Ok m) =>
          Some (map (fun d => (declName d, docForLine (extractDocBlocks text) (Z.to_nat (line (loc (Statement_node d)))))) (omap documented (module_body m)))
      | _ => None
      end
  | Throw _ => None
  end.

Definition sample_lines : list str := [$"/// a < b"; $"  ///  & c"; $"f()<Int> -> { return 1 }"; $""; $"g()<Int> -> { return 2 }"].

Lemma doc_comment_found_witness :
  comments_of sample_lines = Some [($"f", $"a < b & c"); ($"g", [])]
  /\ docForLine (extractDocBlocks (concat (map (fun s => s ++ [ch_nl]) sample_lines))) 3 = $"a < b & c"
  /\ docForLine (extractDocBlocks (concat (map (fun s => s ++ [ch_nl]) sample_lines))) 5 = [].
Proof.
  split; [vm_compute; reflexivity|]. split.
  - rewrite (proj1 (doc_comment_found _ 3) [] (take 2 sample_lines) (drop 2 sample_lines)); [vm_compute; reflexivity|vm_compute; reflexivity|done|by_decision|done|done|cbn; lia].
  - apply (proj2 (doc_comment_found _ 5)). intros k raw. do 5 (destruct k as [|k]; [vm_compute; intros [= <-]; first [done|lia]|]). done.
Defined.

(** The first declaration of a source loses its comment to a [share] on a line of
    its own; a later one is placed where its comment starts. *)
Lemma first_shared_undocumented :
  comments_of [$"/// P doc"; $"share(all)"; $"struct P { x<Int> }"; $"/// Q doc"; $"share(all)"; $"struct Q { x<Int> }"]
  = Some [($"P", []); ($"Q", $"Q doc")].
Proof. vm_compute. reflexivity. Qed.

(** A later declaration behind two comments is given the first of them. *)
Lemma far_comment_given :
  comments_of [$"f()<Int> -> { return 1 }"; $"/// old"; $""; $"/// new"; $"g()<Int> -> { return 1 }"] = Some [($"f", []); ($"g", $"old")].
Proof. vm_compute. reflexivity. Qed.

(** A comment at the end of a line gives the struct below it the comment of the
    declaration on that line. *)
Lemma comment_of_neighbour :
  comments_of [$"/// about f"; $"f()<Int> -> { return 1 } // trailing"; $"struct P { x<Int> }"] = Some [($"f", $"about f"); ($"P", $"about f")].
Proof. vm_compute. reflexivity. Qed.

(** The binds of two aspects to one type have one name, and so one anchor. *)
Lemma binds_share_anchor n i gs t1 t2 self bs1 bs2 ms1 ms2 :
  anchor (declName (BindDeclaration n i gs t1 self bs1 ms1)) = anchor (declName (BindDeclaration n i gs t2 self bs2 ms2)).
Proof. done. Qed.
