(* ===== verification/Words.v ===== *)
(** * Bytes and machine words of the C runtime

    An [unsigned char] is a byte of a [str] read as a number, a [uint32_t] or
    [uint64_t] is a [Z] reduced modulo its width where the C code wraps, and
    the bit operations are those of [Z]. The lemmas turn the masks and shifts
    of byte codes into division and remainder. *)

From S2P Require Import Prelude.

(** ** Bytes *)

Definition uchar (c : ascii) : Z := Z.of_N (N_of_ascii c).

(** [(unsigned char)z]. *)
Definition to_uchar (z : Z) : ascii := ascii_of_N (Z.to_N (z mod 256)).

Lemma uchar_range c : (0 <= uchar c < 256)%Z.
Proof. unfold uchar. pose proof (N_ascii_bounded c). lia. Qed.

Lemma uchar_to_uchar z : uchar (to_uchar z) = (z mod 256)%Z.
Proof.
  unfold uchar, to_uchar. pose proof (Z.mod_pos_bound z 256 ltac:(lia)).
  rewrite N_ascii_embedding; lia.
Qed.

Lemma uchar_to_uchar_small z : (0 <= z < 256)%Z -> uchar (to_uchar z) = z.
Proof. intros H. rewrite uchar_to_uchar. by apply Z.mod_small. Qed.

Lemma to_uchar_uchar c : to_uchar (uchar c) = c.
Proof.
  unfold to_uchar. rewrite Z.mod_small by apply uchar_range. unfold uchar. rewrite N2Z.id. apply ascii_N_embedding.
Qed.

#[global] Instance uchar_inj : Inj (=) (=) uchar.
Proof. intros a b H. by rewrite <- (to_uchar_uchar a), H, to_uchar_uchar. Qed.

(** A boolean fact about finitely many numbers or about all characters, by
    evaluation. *)
Lemma forall_below (P : Z -> bool) n z : forallb P (seqZ 0 n) = true -> (0 <= z < n)%Z -> P z = true.
Proof.
  intros H Hz. rewrite forallb_forall in H. apply H. apply list_elem_of_In. apply elem_of_seqZ. lia.
Qed.

Definition all_chars : list ascii := to_uchar <$> seqZ 0 256.

Lemma forall_char (P : ascii -> bool) c : forallb P all_chars = true -> P c = true.
Proof.
  intros H. rewrite forallb_forall in H. apply H. unfold all_chars. rewrite <- (to_uchar_uchar c).
  apply in_map, list_elem_of_In, elem_of_seqZ. pose proof (uchar_range c). lia.
Qed.

(** Closes a decidable goal about a number below [n]. *)
Ltac all_below n v :=
  lazymatch goal with
  | H : (0 <= v < n)%Z |- ?G =>
      apply (proj1 (bool_decide_eq_true G));
      let f := (eval pattern v in (bool_decide G)) in
      lazymatch f with ?P _ => apply (forall_below P n v); [vm_compute; reflexivity|exact H] end
  end.

(** Closes a decidable goal about a character. *)
Ltac all_characters c :=
  lazymatch goal with
  | |- ?G =>
      apply (proj1 (bool_decide_eq_true G));
      let f := (eval pattern c in (bool_decide G)) in
      lazymatch f with ?P _ => apply (forall_char P c); vm_compute; reflexivity end
  end.

(** ** Wrap-around *)

Definition u32 (z : Z) : Z := (z mod 2 ^ 32)%Z.
Definition u64 (z : Z) : Z := (z mod 2 ^ 64)%Z.

(** [(int64_t)z] for an unsigned [z]. *)
Definition s64 (z : Z) : Z := let m := u64 z in (if m <? 2 ^ 63 then m else m - 2 ^ 64)%Z.

Lemma u32_range z : (0 <= u32 z < 2 ^ 32)%Z.
Proof. apply Z.mod_pos_bound. lia. Qed.
Lemma u64_range z : (0 <= u64 z < 2 ^ 64)%Z.
Proof. apply Z.mod_pos_bound. lia. Qed.
Lemma u64_small z : (0 <= z < 2 ^ 64)%Z -> u64 z = z.
Proof. apply Z.mod_small. Qed.
Lemma s64_small z : (0 <= z < 2 ^ 63)%Z -> s64 z = z.
Proof. intros H. unfold s64. rewrite u64_small by lia. destruct (Z.ltb_spec z (2 ^ 63)); lia. Qed.
Lemma s64_range z : (- 2 ^ 63 <= s64 z < 2 ^ 63)%Z.
Proof. unfold s64. pose proof (u64_range z). destruct (Z.ltb_spec (u64 z) (2 ^ 63)); lia. Qed.

(** ** Masks and shifts *)

Lemma land_low z n : (0 <= n)%Z -> Z.land z (Z.ones n) = (z mod 2 ^ n)%Z.
Proof. intros. by apply Z.land_ones. Qed.

Lemma testbit_above lo n i : (0 <= n <= i)%Z -> (0 <= lo < 2 ^ n)%Z -> Z.testbit lo i = false.
Proof.
  intros Hn Hlo. apply Z.testbit_false; [lia|]. rewrite Z.div_small; [done|].
  split; [lia|]. apply Z.lt_le_trans with (2 ^ n)%Z; [lia|]. apply Z.pow_le_mono_r; lia.
Qed.

Lemma shift_disjoint hi lo n : (0 <= n)%Z -> (0 <= lo < 2 ^ n)%Z -> Z.land (Z.shiftl hi n) lo = 0%Z.
Proof.
  intros Hn Hlo. apply Z.bits_inj'. intros i Hi. rewrite Z.land_spec, Z.bits_0.
  destruct (Z.ltb_spec i n); [by rewrite Z.shiftl_spec_low|].
  rewrite (testbit_above lo n i) by lia. apply andb_false_r.
Qed.

(** Joining a high part with a low part that fits below it. *)
Lemma shift_or hi lo n : (0 <= n)%Z -> (0 <= lo < 2 ^ n)%Z -> Z.lor (Z.shiftl hi n) lo = (hi * 2 ^ n + lo)%Z.
Proof.
  intros Hn Hlo. rewrite <- Z.shiftl_mul_pow2 by done. pose proof (shift_disjoint hi lo n Hn Hlo) as D.
  by rewrite <- Z.lxor_lor, <- Z.add_nocarry_lxor.
Qed.
