(* ===== verification/Utf8.v ===== *)
(** * UTF-8 in the runtime

    The [utf8] functions of runtime/vyb_runtime.c: decoding one code point,
    counting, indexing and validating. A String is a pointer and a byte length;
    the buffer is [option str] (a null pointer is [None]) and the length stays
    an argument. The theorems relate the decoder to the encoding that RFC 3629
    defines, written down as [encode]. *)

From S2P Require Import Prelude.
From S2P Require Import Words.
#[local] Open Scope Z_scope.

(** ** The code *)

(** [s[i]]; the callers stay below [len]. *)
Definition byte_at (s : str) (i : Z) : Z :=
  match s !! Z.to_nat i with Some c => uchar c | None => 0 end.

(** The first bits of the code point and the number of continuation bytes. *)
Definition utf8_lead (c : Z) : option (Z * Z) :=
  if Z.land c 0xE0 =? 0xC0 then Some (Z.land c 0x1F, 1)
  else if Z.land c 0xF0 =? 0xE0 then Some (Z.land c 0x0F, 2)
  else if Z.land c 0xF8 =? 0xF0 then Some (Z.land c 0x07, 3)
  else None.

(** [for (i = 1; i <= need; i++)]: [n] bytes are left from index [i] on. *)
Fixpoint utf8_continue (s : str) (off : Z) (n : nat) (i cp : Z) : option Z :=
  match n with
  | O => Some cp
  | S n' =>
      let cc := byte_at s (off + i) in
      if negb (Z.land cc 0xC0 =? 0x80) then None
      else utf8_continue s off n' (i + 1) (Z.lor (Z.shiftl cp 6) (Z.land cc 0x3F))
  end.

(** Overlong encodings, values above the range and surrogates. *)
Definition utf8_refused (need cp : Z) : bool :=
  ((need =? 1) && (cp <? 0x80)) || ((need =? 2) && (cp <? 0x800)) || ((need =? 3) && (cp <? 0x10000))
  || (0x10FFFF <? cp) || ((0xD800 <=? cp) && (cp <=? 0xDFFF)).

(** The code point or -1, and the offset afterwards. *)
Definition vyb_utf8_decode_at (s : option str) (len off : Z) : Z * Z :=
  match s with
  | None => (-1, off)
  | Some s =>
      if (off <? 0) || (len <=? off) then (-1, off)
      else
        let c := byte_at s off in
        if c <? 0x80 then (c, off + 1)
        else
          match utf8_lead c with
          | None => (-1, off)
          | Some (cp, need) =>
              if len <=? off + need then (-1, off)
              else
                match utf8_continue s off (Z.to_nat need) 1 cp with
                | None => (-1, off)
                | Some cp => if utf8_refused need cp then (-1, off) else (cp, off + need + 1)
                end
          end
  end.

(** The loops; [None] is running out of fuel. *)
Fixpoint utf8_len_loop (fuel : nat) (s : option str) (len n off : Z) : option Z :=
  match fuel with
  | O => None
  | S fuel' =>
      if off <? len then
        let '(cp, off') := vyb_utf8_decode_at s len off in
        if 0 <=? cp then utf8_len_loop fuel' s len (n + 1) off' else Some n
      else Some n
  end.

Fixpoint utf8_index_loop (fuel : nat) (s : option str) (len cp_index off idx : Z) : option Z :=
  match fuel with
  | O => None
  | S fuel' =>
      if off <? len then
        let '(cp, off') := vyb_utf8_decode_at s len off in
        if cp <? 0 then Some (-1)
        else if idx =? cp_index then Some off
        else utf8_index_loop fuel' s len cp_index off' (idx + 1)
      else Some (-1)
  end.

Fixpoint utf8_valid_loop (fuel : nat) (s : option str) (len off : Z) : option Z :=
  match fuel with
  | O => None
  | S fuel' =>
      if off <? len then
        let '(cp, off') := vyb_utf8_decode_at s len off in
        if cp <? 0 then Some 0 else utf8_valid_loop fuel' s len off'
      else Some 1
  end.

(** Every iteration moves the offset by at least one byte. *)
Definition vyb_utf8_len (s : option str) (len : Z) : option Z := utf8_len_loop (S (Z.to_nat len)) s len 0 0.

Definition vyb_utf8_index (s : option str) (len cp_index : Z) : option Z :=
  if cp_index <? 0 then Some (-1) else utf8_index_loop (S (Z.to_nat len)) s len cp_index 0 0.

Definition vyb_utf8_at (s : option str) (len byte_off : Z) : Z :=
  match s with
  | None => -1
  | Some _ => if (byte_off <? 0) || (len <=? byte_off) then -1 else (vyb_utf8_decode_at s len byte_off).1
  end.

Definition vyb_utf8_valid (s : option str) (len : Z) : option Z :=
  match s with
  | None => Some 0
  | Some _ => utf8_valid_loop (S (Z.to_nat len)) s len 0
  end.

(** ** The encoding *)

(** A Unicode scalar value. *)
Definition scalar (cp : Z) : Prop := 0 <= cp <= 0x10FFFF /\ ~ (0xD800 <= cp <= 0xDFFF).

Definition encode (cp : Z) : str :=
  to_uchar <$>
    (if cp <? 0x80 then [cp]
     else if cp <? 0x800 then [0xC0 + cp / 64; 0x80 + cp mod 64]
     else if cp <? 0x10000 then [0xE0 + cp / 4096; 0x80 + cp / 64 mod 64; 0x80 + cp mod 64]
     else [0xF0 + cp / 262144; 0x80 + cp / 4096 mod 64; 0x80 + cp / 64 mod 64; 0x80 + cp mod 64]).

Definition encode_all (cps : list Z) : str := concat (encode <$> cps).

(** ** Byte classes *)

Lemma lead_cases c : 0 <= c < 256 ->
  utf8_lead c = if (0xC0 <=? c) && (c <? 0xE0) then Some (c - 0xC0, 1)
                else if (0xE0 <=? c) && (c <? 0xF0) then Some (c - 0xE0, 2)
                else if (0xF0 <=? c) && (c <? 0xF8) then Some (c - 0xF0, 3)
                else None.
Proof.
  intros Hc. all_below 256 c.
Qed.

Lemma continuation_byte c : 0 <= c < 256 ->
  (Z.land c 0xC0 =? 0x80) = (0x80 <=? c) && (c <? 0xC0) /\ Z.land c 0x3F = c mod 64.
Proof.
  intros Hc. split; [|exact (land_low c 6 ltac:(lia))].
  all_below 256 c.
Qed.

(** ** Decoding at an offset is decoding the rest of the text *)

Lemma byte_at_app pre l i : 0 <= i -> byte_at (pre ++ l) (Z.of_nat (length pre) + i) = byte_at l i.
Proof.
  intros Hi. unfold byte_at. rewrite lookup_app_r by lia.
  by replace (Z.to_nat (Z.of_nat (length pre) + i) - length pre)%nat with (Z.to_nat i) by lia.
Qed.

Lemma continue_app pre l n i cp : 0 <= i ->
  utf8_continue (pre ++ l) (Z.of_nat (length pre)) n i cp = utf8_continue l 0 n i cp.
Proof.
  revert i cp. induction n as [|n IH]; intros i cp Hi; [done|]. cbn [utf8_continue].
  rewrite byte_at_app, Z.add_0_l by done. case_if; [done|]. apply IH. lia.
Qed.

Abbreviation zlen l := (Z.of_nat (length l)).

Lemma decode_app pre l :
  vyb_utf8_decode_at (Some (pre ++ l)) (zlen (pre ++ l)) (zlen pre)
  = let '(cp, k) := vyb_utf8_decode_at (Some l) (zlen l) 0 in (cp, zlen pre + k).
Proof.
  unfold vyb_utf8_decode_at. rewrite length_app.
  destruct (Z.ltb_spec (zlen pre) 0); [lia|]. change (0 <? 0) with false. cbn [orb].
  destruct (Z.leb_spec (zlen l) 0), (Z.leb_spec (Z.of_nat (length pre + length l)) (zlen pre)); try lia.
  { f_equal. lia. }
  rewrite <- (byte_at_app pre l 0), Z.add_0_r by lia. case_if; [f_equal; lia|].
  destruct (utf8_lead _) as [[cp need]|] eqn:E; [|f_equal; lia].
  destruct (Z.leb_spec (zlen l) (0 + need)), (Z.leb_spec (Z.of_nat (length pre + length l)) (zlen pre + need)); try lia.
  { f_equal. lia. }
  rewrite continue_app by lia. destruct (utf8_continue _ _ _ _ _) as [cp'|]; [|f_equal; lia].
  case_if; f_equal; lia.
Qed.

(** ** The decoder and the encoding *)

Lemma byte_at_cons c l i : 0 < i -> byte_at (c :: l) i = byte_at l (i - 1).
Proof. intros Hi. unfold byte_at. replace (Z.to_nat i) with (S (Z.to_nat (i - 1))) by lia. done. Qed.
Lemma byte_at_0 c l : byte_at (c :: l) 0 = uchar c.
Proof. done. Qed.

(** One continuation byte. *)
Lemma continue_step s n i cp c :
  byte_at s (0 + i) = 0x80 + c -> 0 <= c < 64 -> 0 <= cp ->
  utf8_continue s 0 (S n) i cp = utf8_continue s 0 n (i + 1) (cp * 64 + c).
Proof.
  intros E Hc Hcp. cbn [utf8_continue]. rewrite E.
  destruct (continuation_byte (128 + c)) as [H1 H2]; [lia|].
  rewrite H1, H2. destruct (Z.leb_spec 128 (128 + c)), (Z.ltb_spec (128 + c) 192); try lia. cbn [andb negb].
  f_equal. rewrite shift_or by (try lia; apply Z.mod_pos_bound; lia).
  assert ((128 + c) mod 64 = c) as -> by (rewrite <- (Z.mod_small c 64) at 2 by lia; rewrite <- (Z_mod_plus_full c 2 64); f_equal; lia).
  lia.
Qed.

Lemma continue_inv s n i cp r :
  0 <= cp -> utf8_continue s 0 (S n) i cp = Some r ->
  exists c, byte_at s (0 + i) = 0x80 + c /\ 0 <= c < 64 /\ utf8_continue s 0 n (i + 1) (cp * 64 + c) = Some r.
Proof.
  intros Hcp H. assert (B : 0 <= byte_at s (0 + i) < 256).
  { unfold byte_at. destruct (s !! _); [apply uchar_range|lia]. }
  pose proof (continuation_byte _ B) as [H1 H2].
  destruct (negb (Z.land (byte_at s (0 + i)) 0xC0 =? 0x80)) eqn:E.
  { cbn [utf8_continue] in H. by rewrite E in H. }
  rewrite H1, negb_false_iff, andb_true_iff in E. exists (byte_at s (0 + i) - 0x80).
  split; [lia|]. split; [lia|]. rewrite <- H. symmetry. apply continue_step; lia.
Qed.

(** Decoding a text whose first byte is [c]. *)
Lemma decode_ascii c l : uchar c < 0x80 -> vyb_utf8_decode_at (Some (c :: l)) (zlen (c :: l)) 0 = (uchar c, 1).
Proof.
  intros Hc. unfold vyb_utf8_decode_at. change (0 <? 0) with false. cbn [orb].
  destruct (Z.leb_spec (zlen (c :: l)) 0) as [H|_]; [cbn in H; lia|].
  rewrite byte_at_0. by destruct (Z.ltb_spec (uchar c) 0x80); [|lia].
Qed.

Lemma decode_lead c l cp0 need cp :
  0x80 <= uchar c -> utf8_lead (uchar c) = Some (cp0, need) -> need < zlen (c :: l) ->
  utf8_continue (c :: l) 0 (Z.to_nat need) 1 cp0 = Some cp -> utf8_refused need cp = false ->
  vyb_utf8_decode_at (Some (c :: l)) (zlen (c :: l)) 0 = (cp, need + 1).
Proof.
  intros Hc Hl Hn Hk Hr. unfold vyb_utf8_decode_at. change (0 <? 0) with false. cbn [orb].
  destruct (Z.leb_spec (zlen (c :: l)) 0) as [H|_]; [cbn in H; lia|]. rewrite byte_at_0.
  destruct (Z.ltb_spec (uchar c) 0x80); [lia|]. rewrite Hl, Z.add_0_l.
  destruct (Z.leb_spec (zlen (c :: l)) need); [lia|]. by rewrite Hk, Hr.
Qed.

Lemma decode_inv c l cp k :
  vyb_utf8_decode_at (Some (c :: l)) (zlen (c :: l)) 0 = (cp, k) -> cp <> -1 ->
  (uchar c < 0x80 /\ cp = uchar c /\ k = 1)
  \/ exists cp0 need, 0x80 <= uchar c /\ utf8_lead (uchar c) = Some (cp0, need) /\ need < zlen (c :: l)
       /\ utf8_continue (c :: l) 0 (Z.to_nat need) 1 cp0 = Some cp /\ utf8_refused need cp = false /\ k = need + 1.
Proof.
  unfold vyb_utf8_decode_at. change (0 <? 0) with false. cbn [orb]. rewrite byte_at_0.
  destruct (Z.leb_spec (zlen (c :: l)) 0) as [H|_]; [cbn in H; lia|].
  destruct (Z.ltb_spec (uchar c) 0x80). { intros [= <- <-] _. by left. }
  destruct (utf8_lead (uchar c)) as [[cp0 need]|]; [|congruence]. rewrite Z.add_0_l.
  destruct (Z.leb_spec (zlen (c :: l)) need); [congruence|].
  destruct (utf8_continue _ _ _ _ _) as [cp'|] eqn:E; [|congruence].
  destruct (utf8_refused need cp') eqn:R; [congruence|]. intros [= <- <-] _. right. by exists cp0, need.
Qed.

Lemma to_uchar_at z l i : 0 <= i -> 0 <= z < 256 -> l !! Z.to_nat i = Some (to_uchar z) -> byte_at l (0 + i) = z.
Proof. intros Hi Hz H. unfold byte_at. rewrite Z.add_0_l, H. by apply uchar_to_uchar_small. Qed.

(** Splitting a code point into groups of six bits. *)
Lemma six_bits cp : 0 <= cp -> cp = cp / 64 * 64 + cp mod 64 /\ 0 <= cp mod 64 < 64 /\ 0 <= cp / 64.
Proof. intros H. pose proof (Z.mod_pos_bound cp 64 ltac:(lia)). pose proof (Z.div_pos cp 64 H). pose proof (Z.div_mod cp 64). lia. Qed.

Lemma lead_two b : 0 <= b < 32 -> utf8_lead (0xC0 + b) = Some (b, 1).
Proof. intros H. rewrite lead_cases by lia. repeat case_if; try lia; do 2 f_equal; lia. Qed.
Lemma lead_three b : 0 <= b < 16 -> utf8_lead (0xE0 + b) = Some (b, 2).
Proof. intros H. rewrite lead_cases by lia. repeat case_if; try lia; do 2 f_equal; lia. Qed.
Lemma lead_four b : 0 <= b < 8 -> utf8_lead (0xF0 + b) = Some (b, 3).
Proof. intros H. rewrite lead_cases by lia. repeat case_if; try lia; do 2 f_equal; lia. Qed.

Lemma refused_false need cp :
  utf8_refused need cp = false <->
  ~ (need = 1 /\ cp < 0x80) /\ ~ (need = 2 /\ cp < 0x800) /\ ~ (need = 3 /\ cp < 0x10000)
  /\ cp <= 0x10FFFF /\ ~ (0xD800 <= cp <= 0xDFFF).
Proof. unfold utf8_refused. rewrite !orb_false_iff, !andb_false_iff. lia. Qed.

Lemma decode_encode cp r : scalar cp ->
  vyb_utf8_decode_at (Some (encode cp ++ r)) (zlen (encode cp ++ r)) 0 = (cp, zlen (encode cp)).
Proof.
  intros [Hr Hs]. pose proof (six_bits cp ltac:(lia)) as (E1 & B1 & P1).
  pose proof (six_bits (cp / 64) P1) as (E2 & B2 & P2). pose proof (six_bits (cp / 64 / 64) P2) as (E3 & B3 & P3).
  rewrite (Z.div_div cp) in *  by lia. change (64 * 64) with 4096 in *.
  rewrite (Z.div_div cp 4096) in * by lia. change (4096 * 64) with 262144 in *. unfold encode.
  destruct (Z.ltb_spec cp 0x80); [|destruct (Z.ltb_spec cp 0x800); [|destruct (Z.ltb_spec cp 0x10000)]];
    cbn [fmap list_fmap app].
  - rewrite decode_ascii by (rewrite uchar_to_uchar_small; lia). f_equal. apply uchar_to_uchar_small. lia.
  - rewrite (decode_lead _ _ (cp / 64) 1 cp); [done|..]; rewrite ?uchar_to_uchar_small by lia.
    + lia.
    + apply lead_two. lia.
    + cbn [length]. lia.
    + change (Z.to_nat 1) with 1%nat. rewrite (continue_step _ _ _ _ (cp mod 64)); [cbn; f_equal; lia| |done|done].
      apply to_uchar_at; [lia|lia|done].
    + apply refused_false. lia.
  - rewrite (decode_lead _ _ (cp / 4096) 2 cp); [done|..]; rewrite ?uchar_to_uchar_small by lia.
    + lia.
    + apply lead_three. lia.
    + cbn [length]. lia.
    + change (Z.to_nat 2) with 2%nat.
      rewrite (continue_step _ _ _ _ (cp / 64 mod 64)); [|apply to_uchar_at; [lia|lia|done]|done|done].
      rewrite (continue_step _ _ _ _ (cp mod 64)); [cbn; f_equal; lia| |done|lia]. apply to_uchar_at; [lia|lia|done].
    + apply refused_false. lia.
  - rewrite (decode_lead _ _ (cp / 262144) 3 cp); [done|..]; rewrite ?uchar_to_uchar_small by lia.
    + lia.
    + apply lead_four. lia.
    + cbn [length]. lia.
    + change (Z.to_nat 3) with 3%nat.
      rewrite (continue_step _ _ _ _ (cp / 4096 mod 64)); [|apply to_uchar_at; [lia|lia|done]|done|done].
      rewrite (continue_step _ _ _ _ (cp / 64 mod 64)); [|apply to_uchar_at; [lia|lia|done]|done|lia].
      rewrite (continue_step _ _ _ _ (cp mod 64)); [cbn; f_equal; lia| |done|lia]. apply to_uchar_at; [lia|lia|done].
    + apply refused_false. lia.
Qed.

Lemma join_six a x : 0 <= x < 64 -> (a * 64 + x) / 64 = a /\ (a * 64 + x) mod 64 = x.
Proof.
  intros H. split.
  - rewrite Z.div_add_l, Z.div_small by lia. lia.
  - rewrite Z.add_comm, Z_mod_plus_full. by apply Z.mod_small.
Qed.

Lemma encode_two a x : 2 <= a < 32 -> 0 <= x < 64 -> encode (a * 64 + x) = [to_uchar (0xC0 + a); to_uchar (0x80 + x)].
Proof.
  intros Ha Hx. destruct (join_six a x Hx) as [E1 E2]. unfold encode.
  destruct (Z.ltb_spec (a * 64 + x) 0x80), (Z.ltb_spec (a * 64 + x) 0x800); try lia. by rewrite E1, E2.
Qed.

Lemma encode_three a x y : 32 <= a * 64 + x < 1024 -> 0 <= x < 64 -> 0 <= y < 64 ->
  encode ((a * 64 + x) * 64 + y) = [to_uchar (0xE0 + a); to_uchar (0x80 + x); to_uchar (0x80 + y)].
Proof.
  intros Ha Hx Hy. destruct (join_six a x Hx) as [E1 E2], (join_six (a * 64 + x) y Hy) as [E3 E4]. unfold encode.
  destruct (Z.ltb_spec ((a * 64 + x) * 64 + y) 0x80), (Z.ltb_spec ((a * 64 + x) * 64 + y) 0x800),
    (Z.ltb_spec ((a * 64 + x) * 64 + y) 0x10000); try lia.
  change 4096 with (64 * 64). rewrite <- Z.div_div by lia. by rewrite E3, E4, E1, E2.
Qed.

Lemma encode_four a x y z : 16 <= a * 64 + x -> 0 <= x < 64 -> 0 <= y < 64 -> 0 <= z < 64 ->
  encode (((a * 64 + x) * 64 + y) * 64 + z)
  = [to_uchar (0xF0 + a); to_uchar (0x80 + x); to_uchar (0x80 + y); to_uchar (0x80 + z)].
Proof.
  intros Ha Hx Hy Hz. destruct (join_six a x Hx) as [E1 E2], (join_six (a * 64 + x) y Hy) as [E3 E4],
    (join_six ((a * 64 + x) * 64 + y) z Hz) as [E5 E6]. unfold encode.
  destruct (Z.ltb_spec (((a * 64 + x) * 64 + y) * 64 + z) 0x80), (Z.ltb_spec (((a * 64 + x) * 64 + y) * 64 + z) 0x800),
    (Z.ltb_spec (((a * 64 + x) * 64 + y) * 64 + z) 0x10000); try lia.
  change 262144 with (64 * 64 * 64). change 4096 with (64 * 64). rewrite <- !Z.div_div by lia.
  by rewrite E5, E6, E3, E4, E1, E2.
Qed.

Lemma lead_inv c cp0 need : 0 <= c < 256 -> utf8_lead c = Some (cp0, need) ->
  (need = 1 /\ c = 0xC0 + cp0 /\ 0 <= cp0 < 32) \/ (need = 2 /\ c = 0xE0 + cp0 /\ 0 <= cp0 < 16)
  \/ (need = 3 /\ c = 0xF0 + cp0 /\ 0 <= cp0 < 8).
Proof.
  intros Hc. rewrite lead_cases by done. intros H. repeat case_if; simplify_eq; lia.
Qed.

Lemma decode_sound l cp k :
  vyb_utf8_decode_at (Some l) (zlen l) 0 = (cp, k) -> cp <> -1 ->
  scalar cp /\ k = zlen (encode cp) /\ exists r, l = encode cp ++ r.
Proof.
  intros H Hne. destruct l as [|c l]. { vm_compute in H. congruence. }
  pose proof (uchar_range c) as Bc.
  destruct (decode_inv c l cp k H Hne) as [(Hc & -> & ->)|(cp0 & need & Hc & Hl & Hn & Hk & Hr & ->)].
  - assert (encode (uchar c) = [c]) as E.
    { unfold encode. destruct (Z.ltb_spec (uchar c) 0x80); [|lia]. cbn [fmap list_fmap]. by rewrite to_uchar_uchar. }
    rewrite E. split; [split; lia|]. split; [done|]. by exists l.
  - apply refused_false in Hr. assert (S : 0 <= cp -> scalar cp) by (intros; split; lia).
    apply lead_inv in Hl as [(-> & Ec & B0)|[(-> & Ec & B0)|(-> & Ec & B0)]]; [| | |done];
      change (Z.to_nat 1) with 1%nat in *; change (Z.to_nat 2) with 2%nat in *; change (Z.to_nat 3) with 3%nat in *.
    + apply continue_inv in Hk as (x & Ex & Bx & Hk); [|lia]. cbn in Hk. injection Hk as <-.
      destruct l as [|d l]; [cbn in Hn; lia|]. change (uchar d = 128 + x) in Ex.
      rewrite encode_two by lia. split; [apply S; lia|]. split; [done|]. exists l. cbn [app].
      by rewrite <- Ec, <- Ex, !to_uchar_uchar.
    + apply continue_inv in Hk as (x & Ex & Bx & Hk); [|lia]. apply continue_inv in Hk as (y & Ey & By & Hk); [|lia].
      cbn in Hk. injection Hk as <-.
      destruct l as [|d [|e l]]; [cbn in Hn; lia..|]. change (uchar d = 128 + x) in Ex. change (uchar e = 128 + y) in Ey.
      rewrite encode_three by lia. split; [apply S; lia|]. split; [done|]. exists l. cbn [app].
      by rewrite <- Ec, <- Ex, <- Ey, !to_uchar_uchar.
    + apply continue_inv in Hk as (x & Ex & Bx & Hk); [|lia]. apply continue_inv in Hk as (y & Ey & By & Hk); [|lia].
      apply continue_inv in Hk as (z & Ez & Bz & Hk); [|lia]. cbn in Hk. injection Hk as <-.
      destruct l as [|d [|e [|g l]]]; [cbn in Hn; lia..|]. change (uchar d = 128 + x) in Ex. change (uchar e = 128 + y) in Ey. change (uchar g = 128 + z) in Ez.
      rewrite encode_four by lia. split; [apply S; lia|]. split; [done|]. exists l. cbn [app].
      by rewrite <- Ec, <- Ex, <- Ey, <- Ez, !to_uchar_uchar.
Qed.

(** ** Walking a text *)

(** No code point is encoded at the front. *)
Definition undecodable (r : str) : Prop := forall cp t, scalar cp -> r <> encode cp ++ t.

Lemma encode_length cp : 1 <= zlen (encode cp).
Proof. unfold encode. repeat case_if; cbn; lia. Qed.

Lemma decode_negative l cp k : vyb_utf8_decode_at (Some l) (zlen l) 0 = (cp, k) -> cp < 0 -> undecodable l.
Proof.
  intros H Hneg cp' t Hs ->. rewrite decode_encode in H by done. injection H as -> _. destruct Hs. lia.
Qed.

Lemma decode_undecodable l cp k : undecodable l -> vyb_utf8_decode_at (Some l) (zlen l) 0 = (cp, k) -> cp = -1.
Proof.
  intros U H. destruct (Z.eq_dec cp (-1)) as [|Hne]; [done|].
  destruct (decode_sound l cp k H Hne) as (Hs & _ & r & E). by destruct (U cp r Hs).
Qed.

Lemma decode_next pre cp l : scalar cp ->
  vyb_utf8_decode_at (Some (pre ++ encode cp ++ l)) (zlen (pre ++ encode cp ++ l)) (zlen pre)
  = (cp, zlen (pre ++ encode cp)).
Proof. intros Hs. rewrite decode_app, decode_encode by done. rewrite length_app. f_equal. lia. Qed.

Lemma decode_stuck pre r : undecodable r ->
  exists k, vyb_utf8_decode_at (Some (pre ++ r)) (zlen (pre ++ r)) (zlen pre) = (-1, k).
Proof.
  intros U. rewrite decode_app. destruct (vyb_utf8_decode_at (Some r) (zlen r) 0) as [cp k] eqn:E.
  rewrite (decode_undecodable _ _ _ U E). by eexists.
Qed.

(** Every text is the encoding of some code points and a rest. *)
Lemma text_splits s : exists cps r, s = encode_all cps ++ r /\ Forall scalar cps /\ undecodable r.
Proof.
  induction s as [s IH] using (induction_ltof1 _ (@length ascii)). unfold ltof in IH.
  destruct (vyb_utf8_decode_at (Some s) (zlen s) 0) as [cp k] eqn:E. destruct (Z.eq_dec cp (-1)) as [->|Hne].
  { exists [], s. split; [done|]. split; [constructor|]. by eapply decode_negative. }
  destruct (decode_sound s cp k E Hne) as (Hs & _ & l & ->).
  destruct (IH l) as (cps & r & -> & Hf & U). { rewrite length_app. pose proof (encode_length cp). lia. }
  exists (cp :: cps), r. split; [by cbn; rewrite <- app_assoc|]. split; [by constructor|done].
Qed.

Lemma encode_all_cons cp cps : encode_all (cp :: cps) = encode cp ++ encode_all cps.
Proof. done. Qed.

Section Walk.
Variables (r : str) (stuck : undecodable r).

Lemma len_walk cps fuel pre n : Forall scalar cps -> (length cps < fuel)%nat ->
  utf8_len_loop fuel (Some (pre ++ encode_all cps ++ r)) (zlen (pre ++ encode_all cps ++ r)) n (zlen pre)
  = Some (n + zlen cps).
Proof.
  intros H. revert fuel pre n. induction H as [|cp cps Hs H IH]; intros fuel pre n Hf; (destruct fuel as [|fuel]; [cbn in Hf; lia|]);
    cbn [utf8_len_loop].
  - cbn [encode_all fmap list_fmap concat app]. destruct (Z.ltb_spec (zlen pre) (zlen (pre ++ r))); [|f_equal; cbn; lia].
    destruct (decode_stuck pre r stuck) as (k & ->). cbn. f_equal. lia.
  - rewrite encode_all_cons, <- app_assoc. pose proof (encode_length cp).
    destruct (Z.ltb_spec (zlen pre) (zlen (pre ++ encode cp ++ encode_all cps ++ r))); [|rewrite !length_app in *; lia].
    rewrite decode_next by done. destruct (Z.leb_spec 0 cp); [|destruct Hs; lia].
    rewrite app_assoc. rewrite IH by (cbn in Hf; lia). f_equal. cbn [length]. lia.
Qed.

Lemma index_walk cps fuel pre idx ci : Forall scalar cps -> (length cps < fuel)%nat -> idx <= ci ->
  utf8_index_loop fuel (Some (pre ++ encode_all cps ++ r)) (zlen (pre ++ encode_all cps ++ r)) ci (zlen pre) idx
  = Some (if ci - idx <? zlen cps then zlen pre + zlen (encode_all (take (Z.to_nat (ci - idx)) cps)) else -1).
Proof.
  intros H. revert fuel pre idx. induction H as [|cp cps Hs H IH]; intros fuel pre idx Hf Hi;
    (destruct fuel as [|fuel]; [cbn in Hf; lia|]); cbn [utf8_index_loop].
  - cbn [encode_all fmap list_fmap concat app]. destruct (Z.ltb_spec (ci - idx) (zlen (@nil Z))); [cbn in *; lia|].
    destruct (Z.ltb_spec (zlen pre) (zlen (pre ++ r))); [|done]. by destruct (decode_stuck pre r stuck) as (k & ->).
  - rewrite encode_all_cons, <- app_assoc. pose proof (encode_length cp).
    destruct (Z.ltb_spec (zlen pre) (zlen (pre ++ encode cp ++ encode_all cps ++ r))); [|rewrite !length_app in *; lia].
    rewrite decode_next by done. destruct (Z.ltb_spec cp 0); [destruct Hs; lia|].
    destruct (Z.eqb_spec idx ci) as [->|Hne].
    + rewrite Z.sub_diag. destruct (Z.ltb_spec 0 (zlen (cp :: cps))); [|cbn in *; lia]. f_equal.
      change (encode_all (take (Z.to_nat 0) (cp :: cps))) with (@nil ascii). cbn [length]. lia.
    + rewrite app_assoc. rewrite IH by (cbn in Hf; lia). f_equal.
      replace (ci - (idx + 1)) with (ci - idx - 1) by lia.
      destruct (Z.ltb_spec (ci - idx - 1) (zlen cps)), (Z.ltb_spec (ci - idx) (zlen (cp :: cps))); cbn [length] in *; try lia.
      replace (Z.to_nat (ci - idx)) with (S (Z.to_nat (ci - idx - 1))) by lia. cbn [take].
      rewrite encode_all_cons, !length_app. lia.
Qed.

Lemma valid_walk cps fuel pre : Forall scalar cps -> (length cps < fuel)%nat ->
  utf8_valid_loop fuel (Some (pre ++ encode_all cps ++ r)) (zlen (pre ++ encode_all cps ++ r)) (zlen pre)
  = Some (if decide (r = []) then 1 else 0).
Proof.
  intros H. revert fuel pre. induction H as [|cp cps Hs H IH]; intros fuel pre Hf; (destruct fuel as [|fuel]; [cbn in Hf; lia|]);
    cbn [utf8_valid_loop].
  - cbn [encode_all fmap list_fmap concat app]. destruct (Z.ltb_spec (zlen pre) (zlen (pre ++ r))) as [Hl|Hl].
    + destruct (decode_stuck pre r stuck) as (k & ->). cbn. rewrite decide_False; [done|].
      intros ->. rewrite app_nil_r in Hl. lia.
    + rewrite decide_True; [done|]. rewrite length_app in Hl. destruct r; [done|cbn in Hl; lia].
  - rewrite encode_all_cons, <- app_assoc. pose proof (encode_length cp).
    destruct (Z.ltb_spec (zlen pre) (zlen (pre ++ encode cp ++ encode_all cps ++ r))); [|rewrite !length_app in *; lia].
    rewrite decode_next by done. destruct (Z.ltb_spec cp 0); [destruct Hs; lia|].
    rewrite app_assoc. apply IH. cbn in Hf. lia.
Qed.
End Walk.

Lemma encode_all_length cps : (length cps <= length (encode_all cps))%nat.
Proof.
  induction cps as [|cp cps IH]; [done|]. rewrite encode_all_cons, length_app. pose proof (encode_length cp). cbn. lia.
Qed.

Lemma encode_all_app a b : encode_all (a ++ b) = encode_all a ++ encode_all b.
Proof. unfold encode_all. by rewrite fmap_app, concat_app. Qed.



(** On every byte string the four functions agree on one reading of it:
    the longest prefix that is well-formed UTF-8. The count is the number of
    code points of that prefix, the index of the [i]-th is the byte offset at
    which its encoding starts (-1 from the first byte that is not well-formed
    on), reading at such an offset gives the code point, and the text is
    valid exactly when nothing is left over. *)
Theorem utf8_text_exact s :
  exists cps r, s = encode_all cps ++ r /\ Forall scalar cps /\ undecodable r
    /\ vyb_utf8_len (Some s) (zlen s) = Some (zlen cps)
    /\ vyb_utf8_valid (Some s) (zlen s) = Some (if decide (r = []) then 1 else 0)
    /\ (forall i, 0 <= i -> vyb_utf8_index (Some s) (zlen s) i
          = Some (if i <? zlen cps then zlen (encode_all (take (Z.to_nat i) cps)) else -1))
    /\ (forall i cp, cps !! i = Some cp -> vyb_utf8_at (Some s) (zlen s) (zlen (encode_all (take i cps))) = cp).
Proof.
  destruct (text_splits s) as (cps & r & -> & Hf & U). exists cps, r.
  assert (F : (length cps < S (Z.to_nat (zlen (encode_all cps ++ r))))%nat).
  { rewrite Nat2Z.id, length_app. pose proof (encode_all_length cps). lia. }
  split; [done|]. split; [done|]. split; [done|]. split; [exact (len_walk r U cps _ [] 0 Hf F)|].
  split; [exact (valid_walk r U cps _ [] Hf F)|]. split.
  - intros i Hi. unfold vyb_utf8_index. destruct (Z.ltb_spec i 0); [lia|].
    pose proof (index_walk r U cps _ [] 0 i Hf F Hi) as H'. rewrite Z.sub_0_r in H'. exact H'.
  - intros i cp Hi. rewrite <- (take_drop i cps) at 1 2. rewrite (drop_S _ _ _ Hi).
    assert (scalar cp) by (by eapply Forall_lookup_1).
    rewrite encode_all_app, encode_all_cons, <- !app_assoc. unfold vyb_utf8_at.
    set (pre := encode_all (take i cps)). pose proof (encode_length cp).
    destruct (Z.ltb_spec (zlen pre) 0); [lia|]. cbn [orb].
    destruct (Z.leb_spec (zlen (pre ++ encode cp ++ encode_all (drop (S i) cps) ++ r)) (zlen pre)); [rewrite !length_app in *; lia|].
    by rewrite decode_next.
Qed.
