(* ===== verification/Codec.v ===== *)
(** * Text codecs and digests of the runtime

    Hexadecimal, base64, SHA-256, SHA-1 and the WebSocket accept key of
    runtime/vyb_runtime.c. Buffers are byte strings; a [uint32_t] is a [Z] with
    its wrap-around written out. A call of [malloc] or [calloc] that the code
    checks is a flag that says whether it succeeded. *)

From S2P Require Import Prelude.
From S2P Require Import Words.
#[local] Open Scope Z_scope.

(** ** Hexadecimal *)

Definition hex_digits : str := $"0123456789abcdef".
Definition char_of (alphabet : str) (i : Z) : ascii := nth (Z.to_nat i) alphabet ch_nul.

Definition vyb_hex_nibble (c : ascii) : Z :=
  if in_range c "0" "9" then uchar c - uchar "0"
  else if in_range c "a" "f" then uchar c - uchar "a" + 10
  else if in_range c "A" "F" then uchar c - uchar "A" + 10
  else -1.

(** The loop over pairs; [None] is the result -1. *)
Fixpoint hex_decode_pairs (hex : str) : option str :=
  match hex with
  | [] => Some []
  | h :: l :: hex' =>
      let hi := vyb_hex_nibble h in
      let lo := vyb_hex_nibble l in
      if (hi <? 0) || (lo <? 0) then None
      else out ← hex_decode_pairs hex'; Some (to_uchar (Z.lor (Z.shiftl hi 4) lo) :: out)
  | [_] => None
  end.

Definition vyb_hex_decode (hex : option str) : option str :=
  match hex with
  | None => None
  | Some h => if Z.odd (Z.of_nat (length h)) then None else hex_decode_pairs h
  end.

Definition vyb_hex_encode (data : str) : str :=
  b ← data; [char_of hex_digits (Z.shiftr (uchar b) 4); char_of hex_digits (Z.land (uchar b) 0x0f)].

(** ** Base64 *)

Definition b64_digits : str := $"ABCDEFGHIJKLMNOPQRSTUVWXYZabcdefghijklmnopqrstuvwxyz0123456789+/".
Definition b64_char (chunk shift : Z) : ascii := char_of b64_digits (Z.land (Z.shiftr chunk shift) 0x3F).

(** One iteration of the loop for each three bytes. *)
Fixpoint b64_loop (data : str) : str :=
  match data with
  | [] => []
  | [a] =>
      let chunk := Z.shiftl (uchar a) 16 in
      [b64_char chunk 18; b64_char chunk 12; "="%char; "="%char]
  | [a; b] =>
      let chunk := Z.lor (Z.shiftl (uchar a) 16) (Z.shiftl (uchar b) 8) in
      [b64_char chunk 18; b64_char chunk 12; b64_char chunk 6; "="%char]
  | a :: b :: c :: data' =>
      let chunk := Z.lor (Z.lor (Z.shiftl (uchar a) 16) (Z.shiftl (uchar b) 8)) (uchar c) in
      b64_char chunk 18 :: b64_char chunk 12 :: b64_char chunk 6 :: b64_char chunk 0 :: b64_loop data'
  end.

(** [None] is the pair of a null pointer and zero. *)
Definition vyb_base64_encode (allocated : bool) (data : option str) (len : Z) : option str :=
  if len <? 0 then None
  else if negb allocated then None
  else Some (b64_loop (take (Z.to_nat len) (default [] data))).

(** ** Digests *)

Definition vyb_ror32 (x n : Z) : Z := Z.lor (Z.shiftr x n) (u32 (Z.shiftl x (32 - n))).
Definition rol32 (x n : Z) : Z := Z.lor (u32 (Z.shiftl x n)) (Z.shiftr x (32 - n)).
Definition not32 (x : Z) : Z := u32 (Z.lnot x).
Definition xor3 (a b c : Z) : Z := Z.lxor (Z.lxor a b) c.

(** Four bytes, the most significant first. *)
Definition be_word (b : list ascii) : Z :=
  match b with
  | [b0; b1; b2; b3] =>
      Z.lor (Z.lor (Z.lor (Z.shiftl (uchar b0) 24) (Z.shiftl (uchar b1) 16)) (Z.shiftl (uchar b2) 8)) (uchar b3)
  | _ => 0
  end.
Definition word_bytes (h : Z) : str :=
  [to_uchar (Z.shiftr h 24); to_uchar (Z.shiftr h 16); to_uchar (Z.shiftr h 8); to_uchar h].

(** The 16 words of the block that starts at [blk]. *)
Definition block_words (m : str) (blk : nat) : list Z :=
  (fun i => be_word (take 4 (drop (blk + i * 4) m))) <$> seq 0 16.

(** [w[i - d]] while the schedule is built in order. *)
Definition back (w : list Z) (d : nat) : Z := nth (length w - d) w 0.
Definition schedule (next : list Z -> Z) (n : nat) (w : list Z) : list Z :=
  Nat.iter n (fun w => w ++ [next w]) w.

Definition bit_length (len : nat) : Z := u64 (Z.of_nat len * 8).
Definition length_bytes (bits : Z) : str := (fun i => to_uchar (Z.shiftr bits (56 - 8 * Z.of_nat i))) <$> seq 0 8.

(** *** SHA-256 *)

(** The table [K], one list per line of the source. *)
Definition K256_rows : list (list Z) :=
  [[0x428a2f98; 0x71374491; 0xb5c0fbcf; 0xe9b5dba5; 0x3956c25b; 0x59f111f1; 0x923f82a4; 0xab1c5ed5];
   [0xd807aa98; 0x12835b01; 0x243185be; 0x550c7dc3; 0x72be5d74; 0x80deb1fe; 0x9bdc06a7; 0xc19bf174];
   [0xe49b69c1; 0xefbe4786; 0x0fc19dc6; 0x240ca1cc; 0x2de92c6f; 0x4a7484aa; 0x5cb0a9dc; 0x76f988da];
   [0x983e5152; 0xa831c66d; 0xb00327c8; 0xbf597fc7; 0xc6e00bf3; 0xd5a79147; 0x06ca6351; 0x14292967];
   [0x27b70a85; 0x2e1b2138; 0x4d2c6dfc; 0x53380d13; 0x650a7354; 0x766a0abb; 0x81c2c92e; 0x92722c85];
   [0xa2bfe8a1; 0xa81a664b; 0xc24b8b70; 0xc76c51a3; 0xd192e819; 0xd6990624; 0xf40e3585; 0x106aa070];
   [0x19a4c116; 0x1e376c08; 0x2748774c; 0x34b0bcb5; 0x391c0cb3; 0x4ed8aa4a; 0x5b9cca4f; 0x682e6ff3];
   [0x748f82ee; 0x78a5636f; 0x84c87814; 0x8cc70208; 0x90befffa; 0xa4506ceb; 0xbef9a3f7; 0xc67178f2]].
Definition K256 : list Z := mjoin K256_rows.
Definition H256 : list Z :=
  [0x6a09e667;0xbb67ae85;0x3c6ef372;0xa54ff53a;0x510e527f;0x9b05688c;0x1f83d9ab;0x5be0cd19].

(** The buffer [m]. *)
Definition sha256_padded_len (len : nat) : nat := (((len + 8) / 64 + 1) * 64)%nat.
Definition sha256_padded (data : str) : str :=
  let len := length data in
  data ++ [to_uchar 0x80] ++ replicate (sha256_padded_len len - 8 - (len + 1)) ch_nul ++ length_bytes (bit_length len).

Definition sha256_next (w : list Z) : Z :=
  let s0 := xor3 (vyb_ror32 (back w 15) 7) (vyb_ror32 (back w 15) 18) (Z.shiftr (back w 15) 3) in
  let s1 := xor3 (vyb_ror32 (back w 2) 17) (vyb_ror32 (back w 2) 19) (Z.shiftr (back w 2) 10) in
  u32 (back w 16 + s0 + back w 7 + s1).

(** One round on the eight working variables. *)
Definition sha256_round (v : list Z) (kw : Z * Z) : list Z :=
  match v with
  | [a; b; c; d; e; f; g; hh] =>
      let S1 := xor3 (vyb_ror32 e 6) (vyb_ror32 e 11) (vyb_ror32 e 25) in
      let ch := Z.lxor (Z.land e f) (Z.land (not32 e) g) in
      let t1 := u32 (hh + S1 + ch + kw.1 + kw.2) in
      let S0 := xor3 (vyb_ror32 a 2) (vyb_ror32 a 13) (vyb_ror32 a 22) in
      let maj := xor3 (Z.land a b) (Z.land a c) (Z.land b c) in
      let t2 := u32 (S0 + maj) in
      [u32 (t1 + t2); a; b; c; u32 (d + t1); e; f; g]
  | _ => v
  end.

Definition add_words (h v : list Z) : list Z := zip_with (fun x y => u32 (x + y)) h v.

Definition sha256_block (m : str) (h : list Z) (blk : nat) : list Z :=
  let w := schedule sha256_next 48 (block_words m blk) in
  add_words h (foldl sha256_round h (zip K256 w)).

(** The digest in [out]; the buffer is left alone when [malloc] fails. *)
Definition vyb_sha256 (allocated : bool) (data : str) (out : str) : str :=
  if negb allocated then out
  else
    let m := sha256_padded data in
    let h := foldl (fun h b => sha256_block m h (b * 64)) H256 (seq 0 (length m / 64)) in
    h ≫= word_bytes.

(** [digest_allocated] and [hex_allocated] are the two calls of [malloc], [junk]
    the uninitialized [digest]. *)
Definition vyb_sha256_hex (digest_allocated hex_allocated : bool) (junk : str) (data : option str) (len : Z) : option str :=
  if len <? 0 then None
  else
    let digest := vyb_sha256 digest_allocated (take (Z.to_nat len) (default [] data)) junk in
    if negb hex_allocated then None else Some (vyb_hex_encode digest).

(** *** SHA-1 *)

Definition H1 : list Z := [0x67452301; 0xEFCDAB89; 0x98BADCFE; 0x10325476; 0xC3D2E1F0].

(** [while ((msg_len % 64) != 56) msg_len++;] *)
Fixpoint sha1_msg_len (fuel msg_len : nat) : option nat :=
  match fuel with
  | O => None
  | S f => if (msg_len mod 64 =? 56)%nat then Some msg_len else sha1_msg_len f (S msg_len)
  end.

Definition sha1_padded (data : str) (msg_len : nat) : str :=
  data ++ [to_uchar 0x80] ++ replicate (msg_len - (length data + 1)) ch_nul ++ length_bytes (bit_length (length data)).

Definition sha1_next (w : list Z) : Z :=
  rol32 (Z.lxor (xor3 (back w 3) (back w 8) (back w 14)) (back w 16)) 1.

Definition sha1_round (v : list Z) (iw : nat * Z) : list Z :=
  match v with
  | [a; bb; c; d; e] =>
      let '(f, k) :=
        if (iw.1 <? 20)%nat then (Z.lor (Z.land bb c) (Z.land (not32 bb) d), 0x5A827999)
        else if (iw.1 <? 40)%nat then (xor3 bb c d, 0x6ED9EBA1)
        else if (iw.1 <? 60)%nat then (Z.lor (Z.lor (Z.land bb c) (Z.land bb d)) (Z.land c d), 0x8F1BBCDC)
        else (xor3 bb c d, 0xCA62C1D6) in
      let tmp := u32 (rol32 a 5 + f + e + k + iw.2) in
      [tmp; a; rol32 bb 30; c; d]
  | _ => v
  end.

Definition sha1_block (m : str) (h : list Z) (blk : nat) : list Z :=
  let w := schedule sha1_next 64 (block_words m blk) in
  add_words h (foldl sha1_round h (zip (seq 0 80) w)).

(** Twenty zero bytes when [calloc] fails. The loop for the length takes at
    most 64 steps. *)
Definition vyb_sha1 (allocated : bool) (data : str) : option str :=
  msg_len ← sha1_msg_len 64 (length data + 1);
  if negb allocated then Some (replicate 20 ch_nul)
  else
    let m := sha1_padded data msg_len in
    let h := foldl (fun h b => sha1_block m h (b * 64)) H1 (seq 0 ((msg_len + 8) / 64)) in
    Some (h ≫= word_bytes).

Definition ws_guid : str := $"258EAFA5-E914-47DA-95CA-C5AB0DC85B11".

Definition vyb_ws_accept_key (joined_allocated sha_allocated b64_allocated : bool) (key : option str) (key_len : Z)
    : option (option str) :=
  if key_len <? 0 then Some None
  else if negb joined_allocated then Some None
  else
    digest ← vyb_sha1 sha_allocated (take (Z.to_nat key_len) (default [] key) ++ ws_guid);
    Some (vyb_base64_encode b64_allocated (Some digest) 20).

(** ** Known answers *)

Example sha256_empty : vyb_sha256_hex true true [] None 0
  = Some $"e3b0c44298fc1c149afbf4c8996fb92427ae41e4649b934ca495991b7852b855".
Proof. vm_compute. reflexivity. Qed.

Example sha256_two_blocks : vyb_sha256_hex true true [] (Some $"abcdbcdecdefdefgefghfghighijhijkijkljklmklmnlmnomnopnopq") 56
  = Some $"248d6a61d20638b8e5c026930c3e6039a33ce45964ff2167f6ecedd419db06c1".
Proof. vm_compute. reflexivity. Qed.

Example ws_rfc6455 : vyb_ws_accept_key true true true (Some $"dGhlIHNhbXBsZSBub25jZQ==") 24
  = Some (Some $"s3pPLMBiTxaQ9kYGzzhZRbK+xOo=").
Proof. vm_compute. reflexivity. Qed.

(** ** Hexadecimal read back *)

Definition lower_hex (c : ascii) : ascii := if in_range c "A" "F" then to_uchar (uchar c + 32) else c.

Lemma nibble_char c : vyb_hex_nibble c <> -1 ->
  0 <= vyb_hex_nibble c < 16 /\ char_of hex_digits (vyb_hex_nibble c) = lower_hex c.
Proof. revert c. intros c. all_characters c. Qed.

Lemma nibble_lower c : vyb_hex_nibble (lower_hex c) = vyb_hex_nibble c.
Proof. all_characters c. Qed.

Lemma nibble_minus_one c : (vyb_hex_nibble c <? 0) = bool_decide (vyb_hex_nibble c = -1).
Proof. all_characters c. Qed.

Lemma nibble_digit v : 0 <= v < 16 -> vyb_hex_nibble (char_of hex_digits v) = v.
Proof.
  intros Hv. all_below 16 v.
Qed.

Lemma high_nibble z : Z.shiftr z 4 = z / 16.
Proof. by rewrite Z.shiftr_div_pow2. Qed.
Lemma low_nibble z : Z.land z 0x0f = z mod 16.
Proof. exact (land_low z 4 ltac:(lia)). Qed.

Lemma nibbles_byte hi lo : 0 <= hi < 16 -> 0 <= lo < 16 ->
  uchar (to_uchar (Z.lor (Z.shiftl hi 4) lo)) = hi * 16 + lo.
Proof. intros Hh Hl. rewrite shift_or by lia. apply uchar_to_uchar_small. lia. Qed.

Lemma hex_encode_cons b d :
  vyb_hex_encode (b :: d)
  = char_of hex_digits (uchar b / 16) :: char_of hex_digits (uchar b mod 16) :: vyb_hex_encode d.
Proof. unfold vyb_hex_encode. cbn [mbind list_bind]. by rewrite high_nibble, low_nibble. Qed.

Lemma hex_pairs_exact n h d : (length h <= n)%nat ->
  hex_decode_pairs h = Some d <-> vyb_hex_encode d = lower_hex <$> h.
Proof.
  revert h d. induction n as [|n IH]; intros h d Hn.
  { destruct h; [|cbn in Hn; lia]. cbn. destruct d; [done|]. rewrite hex_encode_cons. split; [congruence|done]. }
  destruct h as [|x [|y h]].
  - cbn. destruct d; [done|]. rewrite hex_encode_cons. split; [congruence|done].
  - cbn. split; [congruence|]. destruct d; [done|]. by rewrite hex_encode_cons.
  - cbn [hex_decode_pairs fmap list_fmap]. rewrite !nibble_minus_one.
    split.
    + case_bool_decide as Hx; [done|]. case_bool_decide as Hy; [done|]. cbn [orb].
      intros (out & Hout & [= <-])%bind_Some. rewrite hex_encode_cons.
      destruct (nibble_char x Hx) as [Bx Cx], (nibble_char y Hy) as [By Cy].
      rewrite nibbles_byte by done. rewrite Z.div_add_l, Z.div_small, Z.add_0_r by lia.
      rewrite Z.add_comm, Z_mod_plus_full, Z.mod_small by lia. rewrite Cx, Cy. do 2 f_equal.
      apply IH; [cbn in Hn; lia|done].
    + destruct d as [|b d]; [done|]. rewrite hex_encode_cons. intros [= Ex Ey Ed].
      pose proof (uchar_range b) as Bb. pose proof (Z.mod_pos_bound (uchar b) 16 ltac:(lia)) as Bl.
      assert (Bh : 0 <= uchar b / 16 < 16) by (split; [apply Z.div_pos; lia|apply Z.div_lt_upper_bound; lia]).
      assert (Nx : vyb_hex_nibble x = uchar b / 16) by (by rewrite <- nibble_lower, <- Ex, nibble_digit).
      assert (Ny : vyb_hex_nibble y = uchar b mod 16) by (by rewrite <- nibble_lower, <- Ey, nibble_digit).
      rewrite Nx, Ny. rewrite !bool_decide_eq_false_2 by lia. cbn [orb].
      rewrite (proj2 (IH h d ltac:(cbn in Hn; lia)) Ed). cbn. do 2 f_equal.
      apply uchar_inj. rewrite nibbles_byte by done. pose proof (Z.div_mod (uchar b) 16). lia.
Qed.

(** Hexadecimal text decodes to some bytes exactly when it is, up to
    the case of its letters, what the encoder writes for those bytes. So the
    decoder inverts the encoder and refuses an odd length and every other
    character. *)
Theorem hex_decode_exact h d : vyb_hex_decode (Some h) = Some d <-> vyb_hex_encode d = lower_hex <$> h.
Proof.
  cbn [vyb_hex_decode]. destruct (Z.odd (Z.of_nat (length h))) eqn:O; [|by apply (hex_pairs_exact (length h))].
  split; [done|]. intros E. exfalso. apply (f_equal length) in E. rewrite length_fmap in E.
  assert (length (vyb_hex_encode d) = (2 * length d)%nat) as E2.
  { clear. induction d as [|b d IH]; [done|]. rewrite hex_encode_cons. cbn [length]. rewrite IH. lia. }
  rewrite <- E, E2, Nat2Z.inj_mul, Z.odd_mul in O. done.
Qed.

(** ** Base64 read back *)

(** The decoder of RFC 4648, with padding at the end only. *)
Definition b64_value (c : ascii) : option Z := (fun p => Z.of_nat p.1) <$> list_find (c =.) b64_digits.

Definition is_pad (c : ascii) : bool := c =c "=".

Fixpoint b64_decode (s : str) : option str :=
  match s with
  | [] => Some []
  | a :: b :: c :: d :: s' =>
      va ← b64_value a; vb ← b64_value b;
      let last := match s' with [] => true | _ => false end in
      let x := to_uchar (va * 4 + vb / 16) in
      if last && is_pad c && is_pad d then Some [x]
      else
        vc ← b64_value c;
        let y := to_uchar (vb mod 16 * 16 + vc / 4) in
        if last && is_pad d then Some [x; y]
        else
          vd ← b64_value d; rest ← b64_decode s';
          Some (x :: y :: to_uchar (vc mod 4 * 64 + vd) :: rest)
  | _ => None
  end.

Lemma b64_value_char v : 0 <= v < 64 -> b64_value (char_of b64_digits v) = Some v /\ is_pad (char_of b64_digits v) = false.
Proof.
  intros Hv. all_below 64 v.
Qed.

Lemma b64_char_digit chunk k : 0 <= k -> b64_char chunk k = char_of b64_digits (chunk / 2 ^ k mod 64).
Proof.
  intros Hk. unfold b64_char. rewrite Z.shiftr_div_pow2 by done. f_equal. exact (land_low _ 6 ltac:(lia)).
Qed.

Lemma sextet z : 0 <= z mod 64 < 64.
Proof. apply Z.mod_pos_bound. lia. Qed.

(** The chunk of three bytes as a number. *)
Lemma chunk_three a b c : 0 <= a -> 0 <= b < 256 -> 0 <= c < 256 ->
  Z.lor (Z.lor (Z.shiftl a 16) (Z.shiftl b 8)) c = a * 65536 + b * 256 + c.
Proof.
  intros Ha Hb Hc. rewrite (Z.shiftl_mul_pow2 b) by lia. rewrite (shift_or a (b * 2 ^ 8) 16) by lia.
  replace (a * 2 ^ 16 + b * 2 ^ 8) with (Z.shiftl (a * 256 + b) 8) by (rewrite Z.shiftl_mul_pow2; lia).
  rewrite shift_or by lia. lia.
Qed.

Lemma chunk_two a b : 0 <= a -> 0 <= b < 256 -> Z.lor (Z.shiftl a 16) (Z.shiftl b 8) = a * 65536 + b * 256.
Proof. intros Ha Hb. pose proof (chunk_three a b 0 Ha Hb ltac:(lia)) as H. rewrite Z.lor_0_r in H. lia. Qed.

Lemma chunk_one a : Z.shiftl a 16 = a * 65536.
Proof. rewrite Z.shiftl_mul_pow2; lia. Qed.

(** The bytes of a chunk from its four groups of six bits. *)
Lemma regroup a b c (n := a * 65536 + b * 256 + c) : 0 <= a < 256 -> 0 <= b < 256 -> 0 <= c < 256 ->
  n / 2 ^ 18 mod 64 * 4 + n / 2 ^ 12 mod 64 / 16 = a
  /\ n / 2 ^ 12 mod 64 mod 16 * 16 + n / 2 ^ 6 mod 64 / 4 = b
  /\ n / 2 ^ 6 mod 64 mod 4 * 64 + n / 2 ^ 0 mod 64 = c.
Proof.
  intros Ha Hb Hc. subst n. change (2 ^ 18) with 262144. change (2 ^ 12) with 4096. change (2 ^ 6) with 64. change (2 ^ 0) with 1.
  Z.to_euclidean_division_equations. lia.
Qed.

Lemma b64_quad n s :
  b64_decode (b64_char n 18 :: b64_char n 12 :: b64_char n 6 :: b64_char n 0 :: s)
  = rest ← b64_decode s;
    Some (to_uchar (n / 2 ^ 18 mod 64 * 4 + n / 2 ^ 12 mod 64 / 16)
          :: to_uchar (n / 2 ^ 12 mod 64 mod 16 * 16 + n / 2 ^ 6 mod 64 / 4)
          :: to_uchar (n / 2 ^ 6 mod 64 mod 4 * 64 + n / 2 ^ 0 mod 64) :: rest).
Proof.
  rewrite !b64_char_digit by lia. cbn [b64_decode].
  destruct (b64_value_char _ (sextet (n / 2 ^ 18))) as [-> _], (b64_value_char _ (sextet (n / 2 ^ 12))) as [-> _],
    (b64_value_char _ (sextet (n / 2 ^ 6))) as [-> P6], (b64_value_char _ (sextet (n / 2 ^ 0))) as [-> P0].
  cbn [mbind option_bind]. by rewrite P6, P0, !andb_false_r.
Qed.

Lemma b64_loop_decodes n data : (length data <= n)%nat -> b64_decode (b64_loop data) = Some data.
Proof.
  revert data. induction n as [|n IH]; intros data Hn. { destruct data; [done|cbn in Hn; lia]. }
  destruct data as [|a [|b [|c data]]]; [done|..]; pose proof (uchar_range a); cbn [b64_loop].
  - rewrite chunk_one. destruct (regroup (uchar a) 0 0) as (E1 & _); [lia..|].
    rewrite Z.mul_0_l, !Z.add_0_r in E1. rewrite !b64_char_digit by lia. cbn [b64_decode].
    destruct (b64_value_char _ (sextet (uchar a * 65536 / 2 ^ 18))) as [-> _],
      (b64_value_char _ (sextet (uchar a * 65536 / 2 ^ 12))) as [-> _].
    cbn [mbind option_bind]. change (is_pad "="%char) with true. cbn [andb]. by rewrite E1, to_uchar_uchar.
  - pose proof (uchar_range b). rewrite chunk_two by lia.
    destruct (regroup (uchar a) (uchar b) 0) as (E1 & E2 & _); [lia..|]. rewrite Z.add_0_r in E1, E2.
    rewrite !b64_char_digit by lia. set (m := uchar a * 65536 + uchar b * 256) in *. cbn [b64_decode].
    destruct (b64_value_char _ (sextet (m / 2 ^ 18))) as [-> _], (b64_value_char _ (sextet (m / 2 ^ 12))) as [-> _],
      (b64_value_char _ (sextet (m / 2 ^ 6))) as [-> P6].
    cbn [mbind option_bind]. rewrite P6. change (is_pad "="%char) with true. cbn [andb]. by rewrite E1, E2, !to_uchar_uchar.
  - pose proof (uchar_range b). pose proof (uchar_range c). rewrite chunk_three by lia.
    destruct (regroup (uchar a) (uchar b) (uchar c)) as (E1 & E2 & E3); [lia..|].
    rewrite b64_quad. rewrite IH by (cbn in Hn; lia).
    cbn [mbind option_bind]. by rewrite E1, E2, E3, !to_uchar_uchar.
Qed.

Lemma b64_loop_length n data : (length data <= n)%nat -> length (b64_loop data) = ((length data + 2) / 3 * 4)%nat.
Proof.
  revert data. induction n as [|n IH]; intros data Hn. { destruct data; [done|cbn in Hn; lia]. }
  destruct data as [|a [|b [|c data]]]; [done..|]. cbn [b64_loop length] in *. rewrite IH by lia.
  replace (S (S (S (length data))) + 2)%nat with (length data + 2 + 1 * 3)%nat by lia. rewrite Nat.div_add by lia. lia.
Qed.

(** What [base64_encode] writes for any bytes, the decoder of RFC 4648
    reads back as those bytes; the text has four characters for every three
    bytes begun, the length the code allocates. *)
Theorem base64_roundtrip data :
  exists text, vyb_base64_encode true (Some data) (Z.of_nat (length data)) = Some text
    /\ b64_decode text = Some data /\ length text = ((length data + 2) / 3 * 4)%nat.
Proof.
  unfold vyb_base64_encode. destruct (Z.ltb_spec (Z.of_nat (length data)) 0); [lia|]. cbn [negb default].
  rewrite Nat2Z.id, firstn_all. eexists. split; [done|].
  split; [by eapply b64_loop_decodes|by eapply b64_loop_length].
Qed.

(** ** Padding and digests *)

Lemma msg_len_search k fuel m :
  (k < fuel)%nat -> ((m + k) mod 64 = 56)%nat -> (k < 64)%nat -> sha1_msg_len fuel m = Some (m + k)%nat.
Proof.
  revert fuel m. induction k as [|k IH]; intros [|fuel] m Hf E Hk; try lia; cbn [sha1_msg_len].
  - rewrite Nat.add_0_r in E. rewrite E. cbn. f_equal. lia.
  - destruct (Nat.eqb_spec (m mod 64) 56) as [E'|_].
    + exfalso. pose proof (Nat.div_mod_eq m 64). pose proof (Nat.div_mod_eq (m + S k) 64). lia.
    + rewrite (IH fuel (S m)); [f_equal; lia|lia| |lia]. by replace (S m + k)%nat with (m + S k)%nat by lia.
Qed.

Lemma padded_len_spec len :
  (sha256_padded_len len mod 64 = 0 /\ len + 9 <= sha256_padded_len len < len + 9 + 64)%nat.
Proof.
  unfold sha256_padded_len. rewrite Nat.Div0.mod_mul. pose proof (Nat.div_mod_eq (len + 8) 64).
  pose proof (Nat.mod_upper_bound (len + 8) 64). lia.
Qed.

Lemma msg_len_padded len : sha1_msg_len 64 (len + 1) = Some (sha256_padded_len len - 8)%nat.
Proof.
  destruct (padded_len_spec len) as [Hm Hl]. pose proof (Nat.div_mod_eq (sha256_padded_len len) 64) as D.
  rewrite (msg_len_search (sha256_padded_len len - 9 - len)); [f_equal; lia|lia| |lia].
  replace (len + 1 + (sha256_padded_len len - 9 - len))%nat with (56 + (sha256_padded_len len / 64 - 1) * 64)%nat by lia.
  by rewrite Nat.Div0.mod_add.
Qed.

Lemma padded_length data : length (sha256_padded data) = sha256_padded_len (length data).
Proof.
  unfold sha256_padded. rewrite !length_app, length_replicate. destruct (padded_len_spec (length data)).
  change (length (length_bytes _)) with 8%nat. cbn [length]. lia.
Qed.

Lemma add_words_length h v : length h = length v -> length (add_words h v) = length h.
Proof. intros H. unfold add_words. rewrite length_zip_with. lia. Qed.

Lemma rounds_length {A} (f : list Z -> A -> list Z) n l v :
  (forall v x, length v = n -> length (f v x) = n) -> length v = n -> length (foldl f v l) = n.
Proof. intros H. revert v. induction l as [|x l IH]; intros v Hv; [done|]. apply IH. by apply H. Qed.

Lemma sha256_round_length v x : length v = 8%nat -> length (sha256_round v x) = 8%nat.
Proof. intros H. do 9 (destruct v as [|? v]; try done). Qed.
Lemma sha1_round_length v x : length v = 5%nat -> length (sha1_round v x) = 5%nat.
Proof. intros H. do 6 (destruct v as [|? v]; try done). cbn. by repeat case_if. Qed.

Lemma word_bytes_length h : length (h ≫= word_bytes) = (4 * length h)%nat.
Proof. induction h as [|x h IH]; [done|]. change ((x :: h) ≫= word_bytes) with (word_bytes x ++ (h ≫= word_bytes)).
  rewrite length_app, IH. cbn [length word_bytes]. lia. Qed.

(** Both digests run over the same padded message, the one FIPS 180-4
    prescribes: the data, a byte 0x80, zeros, and the length in bits as
    eight bytes, the most significant first, in the smallest whole number of
    64-byte blocks. They end with 32 and 20 bytes. *)
Theorem digest_padding data :
  exists zeros, (zeros < 64)%nat
    /\ sha256_padded data = data ++ to_uchar 0x80 :: replicate zeros ch_nul ++ length_bytes (bit_length (length data))
    /\ (length (sha256_padded data) mod 64 = 0)%nat
    /\ sha1_msg_len 64 (length data + 1) = Some (length (sha256_padded data) - 8)%nat
    /\ sha1_padded data (length (sha256_padded data) - 8) = sha256_padded data
    /\ (forall out, length (vyb_sha256 true data out) = 32%nat)
    /\ (exists digest, vyb_sha1 true data = Some digest /\ length digest = 20%nat).
Proof.
  destruct (padded_len_spec (length data)) as [Hm Hl]. rewrite padded_length.
  eexists. split; [|split; [reflexivity|split; [done|]]]; [lia|].
  split; [apply msg_len_padded|]. split.
  { unfold sha1_padded, sha256_padded. done. }
  split.
  - intros out. cbn [vyb_sha256 negb]. rewrite word_bytes_length. rewrite (rounds_length _ 8); [done| |done].
    intros v b Hv. unfold sha256_block. rewrite add_words_length; [done|].
    rewrite (rounds_length _ 8); [done|apply sha256_round_length|done].
  - unfold vyb_sha1. rewrite msg_len_padded. cbn [mbind option_bind negb]. eexists. split; [reflexivity|].
    rewrite word_bytes_length. rewrite (rounds_length _ 5); [done| |done].
    intros v b Hv. unfold sha1_block. rewrite add_words_length; [done|].
    rewrite (rounds_length _ 5); [done|apply sha1_round_length|done].
Qed.

(** A failed allocation: SHA-256 leaves the caller's buffer as it was, so the
    hexadecimal text is that of the uninitialized bytes. *)
Lemma sha256_hex_unallocated junk data len : 0 <= len ->
  vyb_sha256_hex false true junk data len = Some (vyb_hex_encode junk).
Proof. intros H. unfold vyb_sha256_hex. by destruct (Z.ltb_spec len 0); [lia|]. Qed.
