(* ===== verification/Convert.v ===== *)
(** * Conversions and random numbers

    The text conversions of the primitive types and the xorshift generator of
    runtime/vyb_runtime.c. A C string is a [str] without a NUL; a null pointer
    is [None]. A conversion from text returns its value and the success
    flag. *)

From S2P Require Import Prelude.
From S2P Require Import Lexer.
From S2P Require Import IntTypes.
From S2P Require Import Words.
#[local] Open Scope Z_scope.

(** ** To text *)

(** [%ld] and [%lu]. *)
Definition vyb_int_to_string (v : Z) : str := to_string (s64 v).
Definition vyb_uint_to_string (v : Z) : str := to_string (u64 v).
Definition vyb_bool_to_string (b : bool) : str := if b then $"true" else $"false".
Definition vyb_string_to_string (s : option str) : str := default [] s.

(** ** From text *)

(** [strtoll(s, &end, 10)]: the value, clamped, what [end] points to, and
    whether [errno] is set. *)
Definition strtoll (s : str) : Z * str * bool :=
  let '(neg, ds) := number_parts 10 s in
  if has_digit 10 ds then
    let v := digits_value 10 0 ds in
    let r := if neg then - v else v in
    let rest := drop_while is_dec ds in
    if r <? - 2 ^ 63 then (- 2 ^ 63, rest, true)
    else if 2 ^ 63 - 1 <? r then (2 ^ 63 - 1, rest, true)
    else (r, rest, false)
  else (0, s, false).

Definition vyb_int_from_string (s : option str) : Z * bool :=
  match s with
  | None | Some [] => (0, false)
  | Some s =>
      let '(value, rest, range) := strtoll s in
      if range || negb (bool_decide (rest = [])) then (0, false) else (value, true)
  end.

Definition vyb_bool_from_string (s : option str) : bool * bool :=
  match s with
  | None => (false, false)
  | Some s =>
      if bool_decide (s = $"true") || bool_decide (s = $"1") then (true, true)
      else if bool_decide (s = $"false") || bool_decide (s = $"0") then (false, true)
      else (false, false)
  end.

Definition vyb_string_from_string (s : option str) : str * bool :=
  match s with None => ([], false) | Some s => (s, true) end.

(** ** Round trips *)

Lemma drop_while_all (p : ascii -> bool) l : forallb p l = true -> drop_while p l = [].
Proof. induction l as [|c l IH]; [done|]. cbn. intros [-> H]%andb_true_iff. by apply IH. Qed.

Lemma s64_id v : - 2 ^ 63 <= v < 2 ^ 63 -> s64 v = v.
Proof.
  intros H. destruct (Z.leb_spec 0 v) as [H0|H0]; [apply s64_small; lia|]. unfold s64, u64.
  replace (v mod 2 ^ 64) with (v + 2 ^ 64); [destruct (Z.ltb_spec (v + 2 ^ 64) (2 ^ 63)); lia|].
  rewrite <- (Z.mod_add v 1) by lia. rewrite Z.mod_small; lia.
Qed.

(** A sign and decimal digits. *)
Definition decimal_text (neg : bool) (ds : str) : str := if neg then "-"%char :: ds else ds.

Lemma strtoll_decimal (neg : bool) (ds : str) : ds <> [] -> forallb is_dec ds = true ->
  strtoll (decimal_text neg ds) =
  let v := digits_value 10 0 ds in let r := if neg then - v else v in
  if r <? - 2 ^ 63 then (- 2 ^ 63, [], true) else if 2 ^ 63 - 1 <? r then (2 ^ 63 - 1, [], true) else (r, [], false).
Proof.
  intros Hne Hd. destruct ds as [|c ds]; [done|].
  pose proof Hd as [Hc _]%andb_true_iff. destruct (dec_not_space c Hc) as (H1 & H2 & H3 & _).
  assert (P : number_parts 10 (decimal_text neg (c :: ds)) = (neg, c :: ds)).
  { unfold number_parts, decimal_text. destruct neg; cbn [drop_while]; [|by rewrite H1, H2, H3; destruct ds].
    change (isspace "-") with false. change ("-" =c "-") with true. cbn iota. by destruct ds. }
  unfold strtoll. rewrite P. assert (has_digit 10 (c :: ds) = true) as ->.
  { apply bool_decide_eq_true_2. destruct (is_dec_digit c Hc) as [d E]. by exists d. }
  by rewrite (drop_while_all _ _ Hd).
Qed.

Lemma to_string_text v : Z.abs v < 10 ^ 39 -> exists ds, to_string v = decimal_text (v <? 0) ds /\ ds <> [] /\ forallb is_dec ds = true
  /\ digits_value 10 0 ds = Z.abs v.
Proof.
  intros H. exists (to_string (Z.abs v)). destruct (to_string_digits (Z.abs v) ltac:(lia)) as (Dg & Nn & Ev). split_and!; try done.
  by destruct v.
Qed.

Lemma from_decimal (neg : bool) (ds : str) : ds <> [] -> forallb is_dec ds = true ->
  let v := digits_value 10 0 ds in let r := if neg then - v else v in
  vyb_int_from_string (Some (decimal_text neg ds)) = if decide (- 2 ^ 63 <= r < 2 ^ 63) then (r, true) else (0, false).
Proof.
  intros Hne Hd v r. pose proof (strtoll_decimal neg ds Hne Hd) as S. fold v in S. cbn zeta in S. fold r in S.
  assert (exists c t, decimal_text neg ds = c :: t) as (c & t & E) by (destruct neg, ds; cbn; eauto; done).
  unfold vyb_int_from_string. rewrite E, <- E, S.
  destruct (Z.ltb_spec r (- 2 ^ 63)), (Z.ltb_spec (2 ^ 63 - 1) r); case_decide; done || lia.
Qed.

(** Integers survive the trip through text, and no text is read as another
    number: a decimal text (a sign and digits) converts to its value when that
    is a 64-bit integer and is refused otherwise, never wrapped or clamped;
    what [to_string] writes for an [Int] reads back as that [Int], and the
    texts of the two Booleans as themselves. *)
Theorem text_conversions :
  (forall neg ds, ds <> [] -> forallb is_dec ds = true ->
     let v := digits_value 10 0 ds in let r := if neg : bool then - v else v in
     vyb_int_from_string (Some (decimal_text neg ds)) = if decide (- 2 ^ 63 <= r < 2 ^ 63) then (r, true) else (0, false))
  /\ (forall v, - 2 ^ 63 <= v < 2 ^ 63 -> vyb_int_from_string (Some (vyb_int_to_string v)) = (v, true))
  /\ (forall b, vyb_bool_from_string (Some (vyb_bool_to_string b)) = (b, true)).
Proof.
  split_and!.
  - intros neg ds. apply from_decimal.
  - intros v Hv. unfold vyb_int_to_string.
    rewrite s64_id by done.
    destruct (to_string_text v) as (ds & -> & Hne & Hd & E); [lia|]. rewrite from_decimal by done. rewrite E.
    assert ((if v <? 0 then - Z.abs v else Z.abs v) = v) as -> by (destruct (Z.ltb_spec v 0); lia). by rewrite decide_True.
  - by intros [].
Qed.

(** ** Random numbers *)

(** One xorshift step on a 64-bit state. *)
Definition xorshift (x : Z) : Z :=
  let x := Z.lxor x (Z.shiftr x 12) in
  let x := Z.lxor x (u64 (Z.shiftl x 25)) in
  Z.lxor x (Z.shiftr x 27).

(** [vyb_rand_next]: the number and the new state; [entropy] is what the clock,
    the process and the address give when the state has not been seeded. *)
Definition vyb_rand_next (entropy state : Z) : Z * Z :=
  let x := if state =? 0 then (if entropy =? 0 then 0x9E3779B97F4A7C15 else entropy) else state in
  let x := xorshift x in
  (u64 (x * 0x2545F4914F6CDD1D), x).

Definition vyb_rand (entropy state : Z) : Z * Z :=
  let '(r, s) := vyb_rand_next entropy state in (Z.land r 0x7FFFFFFFFFFFFFFF, s).

(** [None] where [hi - lo] overflows a signed integer. *)
Definition vyb_rand_range (entropy lo hi state : Z) : option (Z * Z) :=
  if hi <=? lo then Some (lo, state)
  else if 2 ^ 63 <=? hi - lo then None
  else
    let span := hi - lo in
    let '(r, s) := vyb_rand_next entropy state in Some (lo + r mod span, s).

Definition vyb_rand_seed (seed : Z) : Z := Z.lor (Z.lxor (u64 seed) 0x9E3779B97F4A7C15) 1.

Lemma shiftr_fixed x k : 0 <= x -> 0 < k -> Z.shiftr x k = x -> x = 0.
Proof.
  intros Hx Hk E. rewrite Z.shiftr_div_pow2 in E by lia. destruct (Z.eq_dec x 0) as [|Hne]; [done|].
  pose proof (Z.pow_gt_1 2 k ltac:(lia)) as [P _]. specialize (P Hk). pose proof (Z.div_lt x (2 ^ k) ltac:(lia) P). lia.
Qed.

(** A number equal to its own left shift has no lowest bit. *)
Lemma shiftl_fixed x k : 0 <= x < 2 ^ 64 -> 0 < k -> u64 (Z.shiftl x k) = x -> x = 0.
Proof.
  intros Hx Hk E. apply Z.bits_inj'. intros n Hn. rewrite Z.bits_0. revert Hn.
  assert (B : forall m : nat, forall n, 0 <= n < Z.of_nat m -> Z.testbit x n = false).
  { induction m as [|m IH]; intros i Hi; [lia|]. rewrite <- E. unfold u64. destruct (Z.ltb_spec i 64).
    - rewrite Z.mod_pow2_bits_low by lia. destruct (Z.ltb_spec i k); [by rewrite Z.shiftl_spec_low|].
      rewrite Z.shiftl_spec by lia. apply IH. lia.
    - by rewrite Z.mod_pow2_bits_high by lia. }
  intros Hn. apply (B (Z.to_nat (n + 1))). lia.
Qed.

Lemma lxor_range x y n : 0 <= n -> 0 <= x < 2 ^ n -> 0 <= y < 2 ^ n -> 0 <= Z.lxor x y < 2 ^ n.
Proof.
  intros Hn Hx Hy. split; [apply Z.lxor_nonneg; lia|].
  assert (0 <= Z.lxor x y) by (apply Z.lxor_nonneg; lia). destruct (Z.eq_dec (Z.lxor x y) 0) as [->|Hne]; [apply Z.pow_pos_nonneg; lia|].
  apply Z.log2_lt_pow2; [lia|]. pose proof (Z.log2_lxor x y ltac:(lia) ltac:(lia)).
  assert (L : forall z, 0 <= z < 2 ^ n -> z <> 0 -> Z.log2 z < n) by (intros z Hz Hz0; apply Z.log2_lt_pow2; lia).
  destruct (Z.eq_dec x 0) as [->|Hx0], (Z.eq_dec y 0) as [->|Hy0].
  - by rewrite Z.lxor_0_l in Hne.
  - rewrite Z.lxor_0_l in *. by apply L.
  - rewrite Z.lxor_0_r in *. by apply L.
  - specialize (L x Hx Hx0) as L1. specialize (L y Hy Hy0) as L2. lia.
Qed.

Lemma shiftr_range x k n : 0 <= k -> 0 <= x < 2 ^ n -> 0 <= Z.shiftr x k < 2 ^ n.
Proof.
  intros Hk Hx. rewrite Z.shiftr_div_pow2 by done. pose proof (Z.pow_pos_nonneg 2 k ltac:(lia) Hk). split; [apply Z.div_pos; lia|].
  pose proof (Z.div_le_upper_bound x (2 ^ k) x ltac:(lia) ltac:(nia)). lia.
Qed.

Lemma xorshift_state x : 0 < x < 2 ^ 64 -> 0 < xorshift x < 2 ^ 64.
Proof.
  intros Hx. unfold xorshift.
  assert (St : forall a b, 0 < a < 2 ^ 64 -> 0 <= b < 2 ^ 64 -> a <> b -> 0 < Z.lxor a b < 2 ^ 64).
  { intros a b Ha Hb Hne. pose proof (lxor_range a b 64 ltac:(lia) ltac:(lia) Hb) as [B1 B2]. split; [|done].
    destruct (Z.eq_dec (Z.lxor a b) 0) as [E|]; [|lia]. apply Z.lxor_eq in E. done. }
  assert (H1 : 0 < Z.lxor x (Z.shiftr x 12) < 2 ^ 64).
  { apply St; [done|apply shiftr_range; lia|]. intros E. symmetry in E. apply shiftr_fixed in E; lia. }
  set (y := Z.lxor x (Z.shiftr x 12)) in *.
  assert (H2 : 0 < Z.lxor y (u64 (Z.shiftl y 25)) < 2 ^ 64).
  { apply St; [done|apply Z.mod_pos_bound; lia|]. intros E. symmetry in E. apply shiftl_fixed in E; lia. }
  set (z := Z.lxor y (u64 (Z.shiftl y 25))) in *.
  apply St; [done|apply shiftr_range; lia|]. intros E. symmetry in E. apply shiftr_fixed in E; lia.
Qed.

Lemma rand_next_state entropy state : 0 <= entropy < 2 ^ 64 -> 0 <= state < 2 ^ 64 -> 0 < (vyb_rand_next entropy state).2 < 2 ^ 64.
Proof.
  intros He Hs. unfold vyb_rand_next. cbn [snd]. apply xorshift_state.
  destruct (Z.eqb_spec state 0); [destruct (Z.eqb_spec entropy 0); lia|lia].
Qed.

(** The generator never gets stuck and keeps its bounds: its state never
    becomes zero again, so it is seeded from the clock at most once; a number
    is a non-negative [Int], and a number of a range lies in it whenever the
    width of the range is itself an [Int]; an empty range gives its lower
    bound. Seeding makes the state non-zero. *)
Theorem rand_bounds entropy state : 0 <= entropy < 2 ^ 64 -> 0 <= state < 2 ^ 64 ->
  (0 <= (vyb_rand entropy state).1 < 2 ^ 63 /\ 0 < (vyb_rand entropy state).2 < 2 ^ 64)
  /\ (forall lo hi, lo < hi -> hi - lo < 2 ^ 63 ->
        exists r s, vyb_rand_range entropy lo hi state = Some (r, s) /\ lo <= r < hi /\ 0 < s < 2 ^ 64)
  /\ (forall lo hi, hi <= lo -> vyb_rand_range entropy lo hi state = Some (lo, state))
  /\ (forall seed, 0 < vyb_rand_seed seed < 2 ^ 64).
Proof.
  intros He Hs. pose proof (rand_next_state entropy state He Hs) as N. split; [split|split; [|split]].
  - unfold vyb_rand. destruct (vyb_rand_next entropy state) as [r s]. cbn [fst].
    change 0x7FFFFFFFFFFFFFFF with (Z.ones 63). rewrite land_low by lia. apply Z.mod_pos_bound. lia.
  - unfold vyb_rand. by destruct (vyb_rand_next entropy state) as [r s].
  - intros lo hi Hlt Hw. unfold vyb_rand_range. rewrite (proj2 (Z.leb_gt _ _) Hlt), (proj2 (Z.leb_gt _ _) Hw).
    destruct (vyb_rand_next entropy state) as [r s]. exists (lo + r mod (hi - lo)), s.
    pose proof (Z.mod_pos_bound r (hi - lo) ltac:(lia)). split; [done|]. split; [lia|exact N].
  - intros lo hi Hle. unfold vyb_rand_range. by rewrite (proj2 (Z.leb_le _ _) Hle).
  - intros seed. unfold vyb_rand_seed. set (z := Z.lxor _ _).
    assert (Hz : 0 <= z < 2 ^ 64) by (apply lxor_range; [lia|apply Z.mod_pos_bound; lia|lia]).
    pose proof (Z.lor_nonneg z 1) as [_ P]. assert (B : Z.testbit (Z.lor z 1) 0 = true) by (rewrite Z.lor_spec; apply orb_true_r).
    assert (Z.lor z 1 <> 0) by (intros E; by rewrite E in B). specialize (P ltac:(lia)). split; [lia|].
    apply Z.log2_lt_pow2; [lia|]. rewrite Z.log2_lor by lia. change (Z.log2 1) with 0.
    destruct (Z.eq_dec z 0) as [E|]; [rewrite E; change (Z.log2 0) with 0; lia|].
    pose proof (proj1 (Z.log2_lt_pow2 z 64 ltac:(lia)) ltac:(lia)). lia.
Qed.

Lemma rand_bounds_witness : exists r s, vyb_rand_range 5 (-3) 4 0 = Some (r, s) /\ -3 <= r < 4.
Proof.
  destruct (rand_bounds 5 0 ltac:(lia) ltac:(lia)) as (_ & H & _). destruct (H (-3) 4 ltac:(lia) ltac:(lia)) as (r & s & E & B & _). by exists r, s.
Defined.

(** A range as wide as the type overflows. *)
Example rand_range_overflows : vyb_rand_range 5 (- 2 ^ 63) (2 ^ 63 - 1) 0 = None.
Proof. by vm_compute. Qed.
