(* ===== verification/StrRegistry.v ===== *)
(** * The string registry of the runtime

    Heap strings are reference counted in an open-addressing hash table with
    linear probing and tombstones (runtime/vyb_runtime.c). A pointer is its
    address, a slot a pointer and a count; the table is the list of its slots,
    and the log [freed] records the calls of [free] on buffers. Whether a
    [calloc] of the table succeeds is an argument of the operations that call
    it. Each operation here runs to its end; how the operations of several
    threads interleave is the subject of the next file. *)

From S2P Require Import Prelude.
From S2P Require Import Words.
#[local] Open Scope Z_scope.

(** ** State *)

Definition ptr : Type := Z.
Definition NULL : ptr := 0.
Definition VYB_STR_TOMB : ptr := 1.

Record vyb_str_ref : Type := mkSlot { slot_p : ptr; slot_refs : Z }.
Definition empty_slot : vyb_str_ref := mkSlot NULL 0.

#[global] Instance vyb_str_ref_eq_dec : EqDecision vyb_str_ref.
Proof. solve_decision. Defined.

Record Registry : Type := mkRegistry {
  vyb_str_reg : list vyb_str_ref;
  vyb_str_max_cap : Z;
  vyb_str_tombs : Z;
  vyb_str_live : Z;
  vyb_str_churn : Z;
  freed : list ptr
}.

(** [vyb_str_eff_cap] is stored together with the table it describes. *)
Definition vyb_str_capacity (R : Registry) : nat := length (vyb_str_reg R).
Definition cap_z (t : list vyb_str_ref) : Z := Z.of_nat (length t).

Definition set_table (R : Registry) (t : list vyb_str_ref) : Registry :=
  mkRegistry t (vyb_str_max_cap R) (vyb_str_tombs R) (vyb_str_live R) (vyb_str_churn R) (freed R).

(** [calloc(n, sizeof(vyb_str_ref))]: fails when the size overflows. *)
Definition SIZE_MAX : Z := 2 ^ 64 - 1.
Definition calloc_ok (memory : bool) (n : Z) : bool := memory && (n * 16 <=? SIZE_MAX).
Definition fresh_table (n : Z) : list vyb_str_ref := replicate (Z.to_nat n) empty_slot.

(** ** Initialization *)

Definition startup_floor : Z := 262144.

(** [while ((x << 1) <= v) x <<= 1;] *)
Fixpoint round_down (fuel : nat) (x v : Z) : Z :=
  match fuel with
  | O => x
  | S f => if Z.shiftl x 1 <=? v then round_down f (Z.shiftl x 1) v else x
  end.

(** [env] is the number in VYB_STR_REG_CAP, [None] when unset. [None] as the
    result is the call of [exit]. *)
Definition vyb_str_reg_init (memory : bool) (env : option Z) : option Registry :=
  let '(start, maxcap) :=
    match env with
    | Some v =>
        if 4 <=? v then
          let x := round_down 64 1 v in (if x <? startup_floor then x else startup_floor, x)
        else (startup_floor, SIZE_MAX)
    | None => (startup_floor, SIZE_MAX)
    end in
  if calloc_ok memory start then Some (mkRegistry (fresh_table start) maxcap 0 0 0 []) else None.

(** ** Probing *)

Definition vyb_str_hash_from (p : ptr) : Z :=
  let h := u64 p in
  let h := Z.lxor h (Z.shiftr h 30) in
  let h := u64 (h * 0xbf58476d1ce4e5b9) in
  let h := Z.lxor h (Z.shiftr h 27) in
  let h := u64 (h * 0x94d049bb133111eb) in
  Z.lxor h (Z.shiftr h 31).

(** The indices [(h + i) & (cap - 1)] for [i] from 0 to [cap - 1]. *)
Definition probe_order (cap : Z) (p : ptr) : list nat :=
  let h := Z.land (vyb_str_hash_from p) (cap - 1) in
  (fun i => Z.to_nat (Z.land (h + Z.of_nat i) (cap - 1))) <$> seq 0 (Z.to_nat cap).

Definition ptr_at (t : list vyb_str_ref) (idx : nat) : ptr := slot_p (default empty_slot (t !! idx)).
Definition refs_at (t : list vyb_str_ref) (idx : nat) : Z := slot_refs (default empty_slot (t !! idx)).

Definition vyb_str_insert_slot (t : list vyb_str_ref) (p : ptr) : option nat :=
  snd <$> list_find (fun idx => ptr_at t idx = VYB_STR_TOMB \/ ptr_at t idx = NULL \/ ptr_at t idx = p)
                    (probe_order (cap_z t) p).

Definition vyb_str_lookup_slot (t : list vyb_str_ref) (p : ptr) : option nat :=
  if p =? NULL then None
  else
    match list_find (fun idx => ptr_at t idx = p \/ ptr_at t idx = NULL) (probe_order (cap_z t) p) with
    | Some (_, idx) => if ptr_at t idx =? p then Some idx else None
    | None => None
    end.

(** ** Rehashing and growing *)

(** The inner loop: the first free slot of the new table; nothing is stored
    when there is none. The flag counts a stored entry. *)
Definition reinsert (nw : list vyb_str_ref) (s : vyb_str_ref) : list vyb_str_ref * bool :=
  match list_find (fun k => ptr_at nw k = NULL \/ ptr_at nw k = VYB_STR_TOMB) (probe_order (cap_z nw) (slot_p s)) with
  | Some (_, k) => (<[k := s]> nw, true)
  | None => (nw, false)
  end.

Fixpoint reinsert_all (old nw : list vyb_str_ref) (reinserted : Z) : list vyb_str_ref * Z :=
  match old with
  | [] => (nw, reinserted)
  | s :: old' =>
      if (slot_p s =? NULL) || (slot_p s =? VYB_STR_TOMB) then reinsert_all old' nw reinserted
      else
        let '(nw', stored) := reinsert nw s in
        reinsert_all old' nw' (if stored then reinserted + 1 else reinserted)
  end.

(** The state and whether the table was replaced. *)
Definition vyb_str_reg_rehash (memory : bool) (newcap : Z) (R : Registry) : Registry * bool :=
  if newcap <? cap_z (vyb_str_reg R) then (R, false)
  else if negb (calloc_ok memory newcap) then (R, false)
  else
    let '(nw, reinserted) := reinsert_all (vyb_str_reg R) (fresh_table newcap) 0 in
    (mkRegistry nw (vyb_str_max_cap R) 0 reinserted 0 (freed R), true).

Definition vyb_str_reg_grow (memory : bool) (R : Registry) : Registry * bool :=
  let oldcap := cap_z (vyb_str_reg R) in
  let newcap :=
    if (vyb_str_max_cap R <=? oldcap) || (SIZE_MAX / 2 <? oldcap) then vyb_str_max_cap R
    else let n := oldcap * 2 in if vyb_str_max_cap R <? n then vyb_str_max_cap R else n in
  if newcap <=? oldcap then (R, false) else vyb_str_reg_rehash memory newcap R.

(** [while (want < tgt && want < max) want <<= 1;] *)
Fixpoint double_up (fuel : nat) (want tgt maxcap : Z) : Z :=
  match fuel with
  | O => want
  | S f => if (want <? tgt) && (want <? maxcap) then double_up f (Z.shiftl want 1) tgt maxcap else want
  end.

Definition wanted_capacity (R : Registry) : Z :=
  let cap := cap_z (vyb_str_reg R) in
  let tgt := vyb_str_live R * 2 in
  if cap <? tgt then
    let want := double_up 64 1 tgt (vyb_str_max_cap R) in
    let want := if vyb_str_max_cap R <? want then vyb_str_max_cap R else want in
    if want <? cap then cap else want
  else cap.

Definition vyb_str_reg_maybe_resize (memory : bool) (R : Registry) : Registry :=
  let cap := cap_z (vyb_str_reg R) in
  let crowded := cap * 3 <=? (vyb_str_live R + vyb_str_tombs R) * 4 in
  let tombHeavy := cap <? vyb_str_tombs R * 8 in
  let churned := cap / 16 <=? vyb_str_churn R in
  if negb crowded && negb tombHeavy && negb churned then R
  else (vyb_str_reg_rehash memory (wanted_capacity R) R).1.

(** ** The operations *)

(** Storing [p] in the slot that was found. *)
Definition claim_slot (p : ptr) (initial_refs : Z) (R : Registry) (s : nat) : Registry :=
  let slotP := ptr_at (vyb_str_reg R) s in
  if (slotP =? NULL) || (slotP =? VYB_STR_TOMB) then
    mkRegistry (<[s := mkSlot p initial_refs]> (vyb_str_reg R)) (vyb_str_max_cap R)
      (if (slotP =? VYB_STR_TOMB) && (0 <? vyb_str_tombs R) then vyb_str_tombs R - 1 else vyb_str_tombs R)
      (vyb_str_live R + 1) (vyb_str_churn R) (freed R)
  else R.

(** [None] is [vyb_str_reg_exhausted], which ends the process. *)
Definition vyb_string_register_refs (resize_memory grow_memory : bool) (p : ptr) (initial_refs : Z) (R : Registry)
    : option Registry :=
  if p =? NULL then Some R
  else
    let R1 := vyb_str_reg_maybe_resize resize_memory R in
    match vyb_str_insert_slot (vyb_str_reg R1) p with
    | Some s => Some (claim_slot p initial_refs R1 s)
    | None =>
        let '(R2, grew) := vyb_str_reg_grow grow_memory R1 in
        if negb grew then None
        else
          match vyb_str_insert_slot (vyb_str_reg R2) p with
          | Some s => Some (claim_slot p initial_refs R2 s)
          | None => None
          end
    end.

Definition vyb_string_register (m1 m2 : bool) (p : ptr) (R : Registry) : option Registry :=
  vyb_string_register_refs m1 m2 p 1 R.
Definition vyb_string_register_borrowed (m1 m2 : bool) (p : ptr) (R : Registry) : option Registry :=
  vyb_string_register_refs m1 m2 p 0 R.

Definition bump_refs (t : list vyb_str_ref) (idx : nat) (d : Z) : list vyb_str_ref :=
  <[idx := mkSlot (ptr_at t idx) (refs_at t idx + d)]> t.

Definition vyb_string_retain (p : ptr) (R : Registry) : Registry :=
  match vyb_str_lookup_slot (vyb_str_reg R) p with
  | Some s => set_table R (bump_refs (vyb_str_reg R) s 1)
  | None => R
  end.

(** The atomic decrement of [release] and the count before it. *)
Definition release_decrement (p : ptr) (R : Registry) : Registry * option Z :=
  match vyb_str_lookup_slot (vyb_str_reg R) p with
  | Some s => (set_table R (bump_refs (vyb_str_reg R) s (-1)), Some (refs_at (vyb_str_reg R) s))
  | None => (R, None)
  end.

(** Retiring the slot under the lock after the last reference. *)
Definition release_retire (p : ptr) (R : Registry) : Registry :=
  match vyb_str_lookup_slot (vyb_str_reg R) p with
  | Some home =>
      mkRegistry (<[home := mkSlot VYB_STR_TOMB 0]> (vyb_str_reg R)) (vyb_str_max_cap R)
        (vyb_str_tombs R + 1) (if 0 <? vyb_str_live R then vyb_str_live R - 1 else vyb_str_live R)
        (vyb_str_churn R + 1) (p :: freed R)
  | None => R
  end.

Definition vyb_string_release (p : ptr) (R : Registry) : Registry :=
  let '(R', old) := release_decrement p R in
  match old with
  | Some 1 => release_retire p R'
  | _ => R'
  end.

(** The bulk helpers over the data pointers of an array. *)
Definition vyb_string_release_each (arr : list ptr) (R : Registry) : Registry := foldl (fun R p => vyb_string_release p R) R arr.
Definition vyb_string_retain_each (arr : list ptr) (R : Registry) : Registry := foldl (fun R p => vyb_string_retain p R) R arr.

(** ** Probe sequences *)

Definition pow2 (n : Z) : Prop := exists k, 0 <= k /\ n = 2 ^ k.

Lemma pow2_pos n : pow2 n -> 0 < n.
Proof. intros (k & Hk & ->). apply Z.pow_pos_nonneg; lia. Qed.

Lemma mask_mod n x : pow2 n -> Z.land x (n - 1) = x mod n.
Proof.
  intros (k & Hk & ->). rewrite <- land_low by done. f_equal. rewrite Z.ones_equiv. lia.
Qed.

Section ProbeOrder.
Context (cap : Z) (Hcap : pow2 cap) (p : ptr).

Lemma order_lookup i idx :
  probe_order cap p !! i = Some idx <->
  Z.of_nat i < cap /\ idx = Z.to_nat ((vyb_str_hash_from p mod cap + Z.of_nat i) mod cap).
Proof.
  unfold probe_order. rewrite list_lookup_fmap_Some. rewrite mask_mod by done. split.
  - intros (j & -> & (-> & Hi)%lookup_seq). cbn. rewrite mask_mod by done. split; [lia|done].
  - intros [Hi ->]. exists i. cbn. rewrite mask_mod by done. split; [done|]. apply lookup_seq. lia.
Qed.

Lemma order_inj i j idx : probe_order cap p !! i = Some idx -> probe_order cap p !! j = Some idx -> i = j.
Proof.
  intros [Hi ->]%order_lookup [Hj E]%order_lookup. pose proof (pow2_pos _ Hcap).
  apply Z2Nat.inj in E; [|apply Z.mod_pos_bound; lia..].
  set (h := vyb_str_hash_from p mod cap) in *.
  pose proof (Z.div_mod (h + Z.of_nat i) cap ltac:(lia)). pose proof (Z.div_mod (h + Z.of_nat j) cap ltac:(lia)).
  set (q1 := (h + Z.of_nat i) / cap) in *. set (q2 := (h + Z.of_nat j) / cap) in *.
  assert (Z.of_nat i - Z.of_nat j = cap * (q1 - q2)) as D by lia.
  destruct (Z.lt_trichotomy q1 q2) as [Hq|[Hq|Hq]].
  - assert (cap * (q1 - q2) <= cap * -1) by (apply Z.mul_le_mono_nonneg_l; lia). lia.
  - rewrite Hq, Z.sub_diag, Z.mul_0_r in D. lia.
  - assert (cap * 1 <= cap * (q1 - q2)) by (apply Z.mul_le_mono_nonneg_l; lia). lia.
Qed.

Lemma order_complete idx : Z.of_nat idx < cap -> exists i, probe_order cap p !! i = Some idx.
Proof.
  intros Hidx. pose proof (pow2_pos _ Hcap). set (h := vyb_str_hash_from p mod cap).
  pose proof (Z.mod_pos_bound (Z.of_nat idx - h) cap ltac:(lia)) as B.
  exists (Z.to_nat ((Z.of_nat idx - h) mod cap)). apply order_lookup. split; [lia|].
  rewrite Z2Nat.id by lia. fold h. rewrite Z.add_mod_idemp_r by lia.
  replace (h + (Z.of_nat idx - h)) with (Z.of_nat idx) by lia. rewrite Z.mod_small by lia. lia.
Qed.

Lemma order_range i idx : probe_order cap p !! i = Some idx -> Z.of_nat idx < cap.
Proof.
  intros [_ ->]%order_lookup. pose proof (pow2_pos _ Hcap).
  pose proof (Z.mod_pos_bound (vyb_str_hash_from p mod cap + Z.of_nat i) cap ltac:(lia)). lia.
Qed.
End ProbeOrder.

(** ** Well-formed tables *)

Definition live_ptr (p : ptr) : Prop := p <> NULL /\ p <> VYB_STR_TOMB.

#[global] Instance live_ptr_dec p : Decision (live_ptr p).
Proof. unfold live_ptr. apply _. Defined.

(** Along the probe sequence of a stored pointer no slot before its own is
    empty or holds it again. *)
Definition probe_inv (t : list vyb_str_ref) : Prop :=
  forall p i idx j jdx, live_ptr p -> probe_order (cap_z t) p !! i = Some idx -> ptr_at t idx = p ->
    (j < i)%nat -> probe_order (cap_z t) p !! j = Some jdx -> ptr_at t jdx <> NULL /\ ptr_at t jdx <> p.

Definition table_ok (t : list vyb_str_ref) : Prop := pow2 (cap_z t) /\ probe_inv t.

Definition holds (t : list vyb_str_ref) (p : ptr) (idx : nat) : Prop := (idx < length t)%nat /\ ptr_at t idx = p.

Lemma ptr_at_insert t idx s jdx : (idx < length t)%nat ->
  ptr_at (<[idx := s]> t) jdx = if decide (idx = jdx) then slot_p s else ptr_at t jdx.
Proof.
  intros H. unfold ptr_at. destruct (decide (idx = jdx)) as [<-|Hne].
  - by rewrite list_lookup_insert_eq.
  - by rewrite list_lookup_insert_ne.
Qed.

Lemma cap_insert t idx s : cap_z (<[idx := s]> t) = cap_z t.
Proof. unfold cap_z. by rewrite length_insert. Qed.

Lemma holds_in_order t p idx : table_ok t -> holds t p idx -> exists i, probe_order (cap_z t) p !! i = Some idx.
Proof. intros [Hp _] [Hi _]. apply order_complete; [done|]. unfold cap_z. lia. Qed.

Lemma holds_unique t p idx jdx : table_ok t -> live_ptr p -> holds t p idx -> holds t p jdx -> idx = jdx.
Proof.
  intros T L H1 H2. destruct (holds_in_order _ _ _ T H1) as [i Hi], (holds_in_order _ _ _ T H2) as [j Hj].
  destruct T as [Hp Hv], H1 as [_ E1], H2 as [_ E2].
  destruct (Nat.lt_trichotomy i j) as [Hlt|[->|Hlt]].
  - by destruct (Hv p j jdx i idx L Hj E2 Hlt Hi).
  - congruence.
  - by destruct (Hv p i idx j jdx L Hi E1 Hlt Hj).
Qed.

Lemma lookup_slot_spec t p idx : table_ok t -> live_ptr p ->
  vyb_str_lookup_slot t p = Some idx <-> holds t p idx.
Proof.
  intros T L. unfold vyb_str_lookup_slot. destruct (Z.eqb_spec p NULL) as [->|_]; [by destruct L|]. split.
  - destruct (list_find _ _) as [[i jdx]|] eqn:F; [|done]. apply list_find_Some in F as (Hi & _ & _).
    destruct (Z.eqb_spec (ptr_at t jdx) p) as [E|]; [|done]. intros [= ->]. split; [|done].
    destruct T as [Hp _]. apply (order_range _ Hp) in Hi. unfold cap_z in Hi. lia.
  - intros H. destruct (holds_in_order _ _ _ T H) as [i Hi]. destruct H as [_ E].
    assert (list_find (fun idx => ptr_at t idx = p \/ ptr_at t idx = NULL) (probe_order (cap_z t) p) = Some (i, idx)) as ->.
    { apply list_find_Some. split; [done|]. split; [by left|]. intros j jdx Hj Hlt.
      destruct T as [_ Hv]. destruct (Hv p i idx j jdx L Hi E Hlt Hj). naive_solver. }
    by destruct (Z.eqb_spec (ptr_at t idx) p).
Qed.

Lemma lookup_slot_None t p : table_ok t -> live_ptr p ->
  vyb_str_lookup_slot t p = None <-> forall idx, ~ holds t p idx.
Proof.
  intros T L. split.
  - intros H idx Hh. apply (lookup_slot_spec t p idx T L) in Hh. congruence.
  - intros H. destruct (vyb_str_lookup_slot t p) as [idx|] eqn:E; [|done]. apply lookup_slot_spec in E; [|done..].
    by destruct (H idx).
Qed.

(** ** Writing a slot *)

Lemma lookup_ptr t idx s : t !! idx = Some s -> ptr_at t idx = slot_p s.
Proof. unfold ptr_at. by intros ->. Qed.

Lemma lookup_holds t idx s : t !! idx = Some s -> holds t (slot_p s) idx.
Proof. intros H. split; [by eapply lookup_lt_Some|by apply lookup_ptr]. Qed.

Lemma holds_lookup t p idx : holds t p idx -> t !! idx = Some (mkSlot p (refs_at t idx)).
Proof.
  intros [Hi E]. destruct (lookup_lt_is_Some_2 _ _ Hi) as [s Hs]. rewrite Hs. unfold refs_at. rewrite Hs. cbn.
  rewrite (lookup_ptr _ _ _ Hs) in E. destruct s. cbn in *. by subst.
Qed.

(** A slot may not be emptied, and a pointer may be written where its probe
    sequence has met no empty slot, unless it is stored already. *)
Lemma write_ok t idx s :
  table_ok t -> (idx < length t)%nat -> (slot_p s = NULL -> ptr_at t idx = NULL) ->
  (live_ptr (slot_p s) -> slot_p s <> ptr_at t idx ->
     (forall jdx, ~ holds t (slot_p s) jdx)
     /\ exists i, probe_order (cap_z t) (slot_p s) !! i = Some idx
          /\ forall j jdx, (j < i)%nat -> probe_order (cap_z t) (slot_p s) !! j = Some jdx -> ptr_at t jdx <> NULL) ->
  table_ok (<[idx := s]> t).
Proof.
  intros [Hp Hv] Hidx Hnull Hnew. split; [by rewrite cap_insert|].
  intros p i idx' j jdx L. rewrite cap_insert, !ptr_at_insert by done. intros Hi E Hlt Hj.
  assert (Hjdx : (jdx < length t)%nat) by (apply (order_range _ Hp) in Hj; unfold cap_z in Hj; lia).
  destruct (decide (idx = idx')) as [<-|Hne].
  - destruct (decide (idx = jdx)) as [<-|_].
    { exfalso. pose proof (order_inj _ Hp _ _ _ _ Hi Hj). lia. }
    destruct (decide (slot_p s = ptr_at t idx)) as [Es|Es].
    + rewrite E in Es. by apply (Hv p i idx j jdx).
    + subst p. destruct (Hnew L Es) as [Hno (i' & Hi' & Hb)]. rewrite (order_inj _ Hp _ _ _ _ Hi Hi') in Hlt.
      split; [by eapply Hb|]. intros E. by apply (Hno jdx).
  - destruct (Hv p i idx' j jdx L Hi E Hlt Hj) as [N1 N2]. destruct (decide (idx = jdx)) as [->|_]; [|done].
    split; [naive_solver|]. intros Es. destruct (Hnew ltac:(by rewrite Es) ltac:(by rewrite Es; apply not_eq_sym)) as [Hno _].
    apply (Hno idx'). rewrite Es. split; [|done]. apply (order_range _ Hp) in Hi. unfold cap_z in Hi. lia.
Qed.

(** ** The counts a table stands for *)

Definition represents (t : list vyb_str_ref) (m : gmap ptr Z) : Prop :=
  forall p r, m !! p = Some r <-> live_ptr p /\ exists idx, t !! idx = Some (mkSlot p r).

Definition put_entry (s : vyb_str_ref) (m : gmap ptr Z) : gmap ptr Z :=
  if decide (live_ptr (slot_p s)) then <[slot_p s := slot_refs s]> m else m.
Definition drop_entry (s : vyb_str_ref) (m : gmap ptr Z) : gmap ptr Z :=
  if decide (live_ptr (slot_p s)) then delete (slot_p s) m else m.

Lemma represents_live t m p r : represents t m -> m !! p = Some r -> live_ptr p.
Proof. intros H E. by apply H in E as [? _]. Qed.

Lemma represents_holds t m p : represents t m -> live_ptr p -> m !! p = None <-> forall idx, ~ holds t p idx.
Proof.
  intros H L. split.
  - intros E idx Hh. apply holds_lookup in Hh. assert (m !! p = Some (refs_at t idx)) as E' by (apply H; by eauto). congruence.
  - intros Hno. destruct (m !! p) as [r|] eqn:E; [|done]. apply H in E as (_ & idx & Hi). apply lookup_holds in Hi. by destruct (Hno idx).
Qed.

Lemma write_represents t m idx o s :
  table_ok t -> represents t m -> t !! idx = Some o ->
  (live_ptr (slot_p s) -> slot_p s = slot_p o \/ forall jdx, ~ holds t (slot_p s) jdx) ->
  represents (<[idx := s]> t) (put_entry s (drop_entry o m)).
Proof.
  intros T H Ho Hs p r. pose proof (lookup_lt_Some _ _ _ Ho) as Hidx.
  assert (Old : drop_entry o m !! p = Some r <-> live_ptr p /\ exists jdx, jdx <> idx /\ t !! jdx = Some (mkSlot p r)).
  { unfold drop_entry. destruct (decide (live_ptr (slot_p o))) as [Lo|Lo].
    - rewrite lookup_delete_Some, (H p r). split.
      + intros (Hne & L & jdx & Hj). split; [done|]. exists jdx. split; [|done]. intros ->. rewrite Hj in Ho. by injection Ho as <-.
      + intros (L & jdx & Hne & Hj). split; [|eauto]. intros <-.
        apply Hne, (holds_unique t (slot_p o)); [done..|by apply (lookup_holds _ _ _ Hj)|by apply lookup_holds].
    - rewrite (H p r). split; intros [L Hex]; (split; [done|]).
      + destruct Hex as (jdx & Hj). exists jdx. split; [|done]. intros ->. rewrite Hj in Ho. by injection Ho as <-.
      + destruct Hex as (jdx & _ & Hj). eauto. }
  unfold put_entry. destruct (decide (live_ptr (slot_p s))) as [Ls|Ls].
  - rewrite lookup_insert_Some, Old. split.
    + intros [[<- <-]|(Hne & L & jdx & Hj & E)].
      * split; [done|]. exists idx. rewrite list_lookup_insert_eq by done. by destruct s.
      * split; [done|]. exists jdx. by rewrite list_lookup_insert_ne.
    + intros (L & jdx & Hj). apply list_lookup_insert_Some in Hj as [(<- & -> & _)|(Hne & Hj)]; [by left|].
      right. split; [|split; [done|by exists jdx]]. cbn. intros E.
      destruct (Hs Ls) as [Es|Hno].
      * apply Hne. apply (holds_unique t (slot_p s)); [done..|rewrite Es; by apply lookup_holds|].
        apply lookup_holds in Hj. cbn in Hj. by rewrite E.
      * apply (Hno jdx). apply lookup_holds in Hj. cbn in Hj. by rewrite E.
  - rewrite Old. split; intros [L Hex]; (split; [done|]).
    + destruct Hex as (jdx & Hne & Hj). exists jdx. by rewrite list_lookup_insert_ne.
    + destruct Hex as (jdx & Hj). apply list_lookup_insert_Some in Hj as [(<- & -> & _)|(Hne & Hj)]; [by destruct Ls|].
      by exists jdx.
Qed.

(** ** Counting slots *)

Lemma filter_insert_length {A} (P : A -> Prop) `{Hdec : !forall x, Decision (P x)} l i x y :
  l !! i = Some y ->
  (length (filter P (<[i := x]> l)) + (if decide (P y) then 1 else 0)
   = length (filter P l) + (if decide (P x) then 1 else 0))%nat.
Proof.
  revert i. induction l as [|z l IH]; intros [|i] H; [done..| |].
  - injection H as ->. change (<[0%nat := x]> (y :: l)) with (x :: l). rewrite !filter_cons. repeat case_decide; cbn [length]; lia.
  - change (<[S i := x]> (z :: l)) with (z :: <[i := x]> l). rewrite !filter_cons. specialize (IH i H).
    repeat case_decide; cbn [length] in *; lia.
Qed.

Definition live_count (t : list vyb_str_ref) : Z := Z.of_nat (length (filter (fun s => live_ptr (slot_p s)) t)).
Definition tomb_count (t : list vyb_str_ref) : Z := Z.of_nat (length (filter (fun s => slot_p s = VYB_STR_TOMB) t)).

Definition one_if (P : Prop) `{!Decision P} : Z := if decide P then 1 else 0.

Lemma live_count_write t idx o s : t !! idx = Some o ->
  live_count (<[idx := s]> t) = live_count t + one_if (live_ptr (slot_p s)) - one_if (live_ptr (slot_p o)).
Proof.
  intros H. pose proof (filter_insert_length (fun s => live_ptr (slot_p s)) t idx s o H) as E.
  unfold live_count, one_if. repeat case_decide; lia.
Qed.
Lemma tomb_count_write t idx o s : t !! idx = Some o ->
  tomb_count (<[idx := s]> t) = tomb_count t + one_if (slot_p s = VYB_STR_TOMB) - one_if (slot_p o = VYB_STR_TOMB).
Proof.
  intros H. pose proof (filter_insert_length (fun s => slot_p s = VYB_STR_TOMB) t idx s o H) as E.
  unfold tomb_count, one_if. repeat case_decide; lia.
Qed.

(** ** Rehashing *)

Lemma filter_all {A} (P : A -> Prop) `{Hdec : !forall x, Decision (P x)} l : Forall P l -> filter P l = l.
Proof. induction 1 as [|x l Hx _ IH]; [done|]. by rewrite filter_cons_True, IH. Qed.

Lemma filter_none {A} (P : A -> Prop) `{Hdec : !forall x, Decision (P x)} l : Forall (fun x => ~ P x) l -> filter P l = [].
Proof. induction 1 as [|x l Hx _ IH]; [done|]. by rewrite filter_cons_False. Qed.

(** Only live and empty slots. *)
Definition no_tombs (t : list vyb_str_ref) : Prop := Forall (fun s => slot_p s <> VYB_STR_TOMB) t.

Lemma no_tombs_count t : no_tombs t -> tomb_count t = 0.
Proof. intros H. unfold tomb_count. by rewrite filter_none. Qed.

Lemma slot_cases s : slot_p s = NULL \/ slot_p s = VYB_STR_TOMB \/ live_ptr (slot_p s).
Proof. unfold live_ptr. lia. Qed.

Lemma free_slot nw p : table_ok nw -> no_tombs nw -> live_count nw < cap_z nw ->
  exists i k, list_find (fun k => ptr_at nw k = NULL \/ ptr_at nw k = VYB_STR_TOMB) (probe_order (cap_z nw) p) = Some (i, k)
    /\ nw !! k <> None /\ ptr_at nw k = NULL /\ probe_order (cap_z nw) p !! i = Some k
    /\ forall j jdx, (j < i)%nat -> probe_order (cap_z nw) p !! j = Some jdx -> ptr_at nw jdx <> NULL.
Proof.
  intros [Hp _] Hn Hc. destruct (list_find _ _) as [[i k]|] eqn:F.
  - exists i, k. apply list_find_Some in F as (Hi & Hk & Hb). pose proof (order_range _ Hp _ _ _ Hi) as Hr. unfold cap_z in Hr.
    destruct (lookup_lt_is_Some_2 nw k ltac:(lia)) as [s Hs]. rewrite Hs. split; [done|]. split; [done|].
    split; [|split; [done|]].
    + destruct Hk as [Hk|Hk]; [done|]. rewrite (lookup_ptr _ _ _ Hs) in Hk.
      unfold no_tombs in Hn. rewrite Forall_lookup in Hn. by destruct (Hn _ _ Hs).
    + intros j jdx Hlt Hj E. apply (Hb j jdx Hj Hlt). by left.
  - exfalso. apply list_find_None in F. rewrite Forall_forall in F.
    assert (Forall (fun s => live_ptr (slot_p s)) nw) as Hl.
    { apply Forall_lookup. intros k s Hs. pose proof (lookup_lt_Some _ _ _ Hs).
      destruct (order_complete _ Hp p k) as [i Hi]; [unfold cap_z; lia|].
      pose proof (F k (list_elem_of_lookup_2 _ _ _ Hi)) as N. rewrite (lookup_ptr _ _ _ Hs) in N.
      destruct (slot_cases s) as [|[|]]; [naive_solver..|done]. }
    unfold live_count in Hc. rewrite filter_all in Hc by done. unfold cap_z in Hc. lia.
Qed.

Lemma elem_insert_null (nw : list vyb_str_ref) k o s x :
  nw !! k = Some o -> ~ live_ptr (slot_p o) -> live_ptr (slot_p x) -> x ∈ <[k := s]> nw <-> x = s \/ x ∈ nw.
Proof.
  intros Ho Hn Hx. pose proof (lookup_lt_Some _ _ _ Ho). rewrite !list_elem_of_lookup. split.
  - intros [j Hj]. apply list_lookup_insert_Some in Hj as [(_ & -> & _)|(_ & Hj)]; [by left|right; eauto].
  - intros [->|[j Hj]]; [exists k; by apply list_lookup_insert_eq|]. exists j.
    rewrite list_lookup_insert_ne; [done|]. intros <-. by simplify_eq.
Qed.

Lemma reinsert_spec nw s :
  table_ok nw -> no_tombs nw -> live_count nw < cap_z nw -> live_ptr (slot_p s) ->
  (forall jdx, ~ holds nw (slot_p s) jdx) ->
  exists nw', reinsert nw s = (nw', true) /\ table_ok nw' /\ no_tombs nw' /\ cap_z nw' = cap_z nw
    /\ live_count nw' = live_count nw + 1
    /\ forall x, live_ptr (slot_p x) -> x ∈ nw' <-> x = s \/ x ∈ nw.
Proof.
  intros T Hn Hc L Hno. destruct (free_slot nw (slot_p s) T Hn Hc) as (i & k & F & Hk & E & Hi & Hb).
  unfold reinsert. rewrite F. destruct (nw !! k) as [o|] eqn:Ho; [|done]. clear Hk.
  pose proof (lookup_ptr _ _ _ Ho) as Eo. pose proof (lookup_lt_Some _ _ _ Ho) as Hlt.
  assert (No : ~ live_ptr (slot_p o)) by (unfold live_ptr; rewrite <- Eo, E; naive_solver).
  exists (<[k := s]> nw). split; [done|]. split_and!.
  - apply write_ok; [done|done|by intros _; rewrite E|]. intros _ _. split; [done|]. by exists i.
  - apply Forall_insert; [done|]. by destruct L.
  - apply cap_insert.
  - rewrite (live_count_write _ _ _ _ Ho). unfold one_if. rewrite decide_True, decide_False by done. lia.
  - intros x Hx. by apply (elem_insert_null _ _ o).
Qed.

Definition live_ptrs (t : list vyb_str_ref) : list ptr := slot_p <$> filter (fun s => live_ptr (slot_p s)) t.

Lemma live_count_cons s t : live_count (s :: t) = live_count t + one_if (live_ptr (slot_p s)).
Proof. unfold live_count, one_if. rewrite filter_cons. case_decide; cbn [length]; lia. Qed.

Lemma holds_elem t p : (exists idx, holds t p idx) <-> exists r, mkSlot p r ∈ t.
Proof.
  split.
  - intros [idx H]. apply holds_lookup in H. eexists. by eapply list_elem_of_lookup_2.
  - intros [r [idx H]%list_elem_of_lookup_1]. exists idx. exact (lookup_holds _ _ _ H).
Qed.

Lemma reinsert_all_spec old : forall nw n,
  table_ok nw -> no_tombs nw -> live_count nw + live_count old <= cap_z nw ->
  NoDup (live_ptrs old) -> (forall s, s ∈ old -> live_ptr (slot_p s) -> forall jdx, ~ holds nw (slot_p s) jdx) ->
  exists nw', reinsert_all old nw n = (nw', n + live_count old)
    /\ table_ok nw' /\ no_tombs nw' /\ cap_z nw' = cap_z nw /\ live_count nw' = live_count nw + live_count old
    /\ forall x, live_ptr (slot_p x) -> x ∈ nw' <-> x ∈ old \/ x ∈ nw.
Proof.
  induction old as [|s old IH]; intros nw n T Hn Hc Hd Hno.
  { exists nw. split_and!; try done; [cbn; by rewrite Z.add_0_r|unfold live_count at 3; cbn; lia|].
    intros x _. rewrite elem_of_nil. naive_solver. }
  rewrite live_count_cons in *. cbn [reinsert_all]. unfold live_ptrs in Hd. rewrite filter_cons in Hd.
  assert (Hno' : forall s', s' ∈ old -> live_ptr (slot_p s') -> forall jdx, ~ holds nw (slot_p s') jdx)
    by (intros s' Hs'; apply Hno; by right).
  destruct (decide (live_ptr (slot_p s))) as [L|L].
  - destruct L as [L0 L1]. rewrite (proj2 (Z.eqb_neq _ _) L0), (proj2 (Z.eqb_neq _ _) L1). cbn [orb].
    rewrite fmap_cons in Hd. apply NoDup_cons in Hd as [Hfresh Hd].
    assert (live_count old = Z.of_nat (length (filter (fun s => live_ptr (slot_p s)) old))) as Elo by done.
    unfold one_if in *. rewrite decide_True in * by done.
    destruct (reinsert_spec nw s T Hn) as (nw1 & E1 & T1 & Hn1 & C1 & Lc1 & M1); [lia|done|apply Hno; [by left|done]|].
    rewrite E1. destruct (IH nw1 (n + 1) T1 Hn1) as (nw' & E' & T' & Hn' & C' & Lc' & M'); [lia|done| |].
    { intros s' Hs' L' jdx Hh. destruct (proj1 (holds_elem _ _) (ex_intro _ jdx Hh)) as [r Hr].
      apply M1 in Hr as [<-|Hr]; [|destruct (proj2 (holds_elem nw (slot_p s'))) as [k Hk]; [by exists r|by eapply Hno']|done].
      apply Hfresh. cbn. apply list_elem_of_fmap. exists s'. split; [done|]. by apply list_elem_of_filter. }
    exists nw'. split_and!; try done; [rewrite E'; f_equal; lia|lia|lia|].
    intros x Hx. rewrite (M' x Hx), (M1 x Hx), elem_of_cons. tauto.
  - assert ((slot_p s =? NULL) || (slot_p s =? VYB_STR_TOMB) = true) as ->.
    { destruct (slot_cases s) as [E|[E|?]]; [by rewrite E..|done]. }
    unfold one_if in *. rewrite decide_False in * by done.
    destruct (IH nw n T Hn) as (nw' & E' & T' & Hn' & C' & Lc' & M'); [lia|done|done|].
    exists nw'. split_and!; try done; [rewrite E'; f_equal; lia|lia|].
    intros x Hx. rewrite (M' x Hx), elem_of_cons. naive_solver.
Qed.

(** ** The registry *)

Record reg_ok (R : Registry) (m : gmap ptr Z) : Prop := {
  ok_table : table_ok (vyb_str_reg R);
  ok_counts : represents (vyb_str_reg R) m;
  ok_live : vyb_str_live R = live_count (vyb_str_reg R);
  ok_tombs : vyb_str_tombs R = tomb_count (vyb_str_reg R);
  ok_max : pow2 (vyb_str_max_cap R) \/ vyb_str_max_cap R = SIZE_MAX;
  ok_cap : cap_z (vyb_str_reg R) <= vyb_str_max_cap R;
  ok_size : cap_z (vyb_str_reg R) * 16 <= SIZE_MAX
}.

Lemma represents_elem t m : represents t m <-> forall p r, m !! p = Some r <-> live_ptr p /\ mkSlot p r ∈ t.
Proof. unfold represents. by setoid_rewrite list_elem_of_lookup. Qed.

Lemma fresh_table_cap n : 0 <= n -> cap_z (fresh_table n) = n.
Proof. intros H. unfold cap_z, fresh_table. rewrite length_replicate. lia. Qed.

Lemma fresh_table_null n idx : ptr_at (fresh_table n) idx = NULL.
Proof.
  unfold ptr_at, fresh_table. destruct (_ !! _) as [s|] eqn:E; [|done]. by apply lookup_replicate in E as [-> _].
Qed.

Lemma fresh_table_ok n : pow2 n -> table_ok (fresh_table n) /\ no_tombs (fresh_table n) /\ live_count (fresh_table n) = 0.
Proof.
  intros H. pose proof (pow2_pos _ H). split_and!.
  - split; [by rewrite fresh_table_cap by lia|]. intros p i idx j jdx [L _] _ E. by rewrite fresh_table_null in E.
  - apply Forall_replicate. done.
  - unfold live_count. rewrite filter_none; [done|]. apply Forall_replicate. cbn. unfold live_ptr. naive_solver.
Qed.

Lemma live_count_bound t : 0 <= live_count t <= cap_z t.
Proof. unfold live_count, cap_z. pose proof (length_filter (fun s => live_ptr (slot_p s)) t). lia. Qed.

Lemma table_NoDup t : table_ok t -> NoDup (live_ptrs t).
Proof.
  intros T. assert (H : forall idx jdx s s', t !! idx = Some s -> t !! jdx = Some s' ->
    slot_p s = slot_p s' -> live_ptr (slot_p s) -> idx = jdx).
  { intros idx jdx s s' Hs Hs' E L. apply (holds_unique t (slot_p s)); [done..|by apply lookup_holds|].
    rewrite E. by apply lookup_holds. }
  clear T. induction t as [|s t IH]; [constructor|]. unfold live_ptrs. rewrite filter_cons.
  assert (IH' : NoDup (live_ptrs t)).
  { apply IH. intros idx jdx s1 s2 H1 H2 E L. pose proof (H (S idx) (S jdx) s1 s2 H1 H2 E L). lia. }
  case_decide as L; [|exact IH']. rewrite fmap_cons. constructor; [|exact IH'].
  intros (s' & E & [L' [jdx Hj]%list_elem_of_lookup_1]%list_elem_of_filter)%list_elem_of_fmap.
  pose proof (H 0%nat (S jdx) s s' eq_refl Hj E L). lia.
Qed.

Lemma rehash_spec memory newcap R m :
  reg_ok R m -> pow2 newcap -> newcap <= vyb_str_max_cap R -> cap_z (vyb_str_reg R) <= newcap ->
  if calloc_ok memory newcap then
    exists R', vyb_str_reg_rehash memory newcap R = (R', true) /\ reg_ok R' m /\ cap_z (vyb_str_reg R') = newcap
      /\ no_tombs (vyb_str_reg R') /\ live_count (vyb_str_reg R') = live_count (vyb_str_reg R) /\ freed R' = freed R
      /\ vyb_str_max_cap R' = vyb_str_max_cap R /\ vyb_str_churn R' = 0
  else vyb_str_reg_rehash memory newcap R = (R, false).
Proof.
  intros [T C HL HT Hmax Hcap Hsz] Hp Hm Hge. unfold vyb_str_reg_rehash.
  destruct (Z.ltb_spec newcap (cap_z (vyb_str_reg R))); [lia|]. pose proof (pow2_pos _ Hp).
  destruct (calloc_ok memory newcap) eqn:Hall; [cbn [negb]|done].
  destruct (fresh_table_ok newcap Hp) as (T0 & N0 & L0).
  destruct (reinsert_all_spec (vyb_str_reg R) (fresh_table newcap) 0) as (nw & E & T1 & N1 & C1 & L1 & M1); try done.
  - pose proof (live_count_bound (vyb_str_reg R)). rewrite fresh_table_cap by lia. lia.
  - by apply table_NoDup.
  - intros s _ [L _] jdx [_ E]. rewrite fresh_table_null in E. by rewrite E in L.
  - rewrite E. eexists. split; [done|]. rewrite fresh_table_cap in C1 by lia.
    assert (reg_ok (mkRegistry nw (vyb_str_max_cap R) 0 (0 + live_count (vyb_str_reg R)) 0 (freed R)) m).
    { split; cbn; try done.
      - apply represents_elem. intros p r. rewrite (proj1 (represents_elem _ _) C p r).
        split; intros [L Hin]; (split; [done|]).
        + apply M1; [done|]. by left.
        + apply M1 in Hin as [|Hin]; [done| |done]. apply list_elem_of_lookup_1 in Hin as [k Hk].
          apply lookup_replicate in Hk as [Hk _]. unfold empty_slot in Hk. simplify_eq. by destruct L.
      - lia.
      - by rewrite no_tombs_count.
      - lia.
      - unfold calloc_ok in Hall. apply andb_true_iff in Hall as [_ Hall]. lia. }
    split_and!; try done. cbn. lia.
Qed.

Lemma pow2_double n : pow2 n -> pow2 (n * 2).
Proof. intros (k & Hk & ->). exists (k + 1). split; [lia|]. rewrite Z.pow_add_r by lia. lia. Qed.

(** The doubling loop stops at the target or at the limit, well before its
    fuel. *)
Lemma double_up_spec fuel want tgt maxcap : pow2 want -> tgt <= want * 2 ^ Z.of_nat fuel ->
  let w := double_up fuel want tgt maxcap in
  pow2 w /\ (tgt <= w \/ maxcap <= w) /\ (w = want \/ w < 2 * tgt).
Proof.
  revert want. induction fuel as [|f IH]; intros want Hp Hf; cbn [double_up].
  - cbn in Hf. split; [done|]. lia.
  - destruct (Z.ltb_spec want tgt), (Z.ltb_spec want maxcap); cbn [andb]; try (split; [done|]; lia).
    rewrite Z.shiftl_mul_pow2 by lia. change (2 ^ 1) with 2.
    destruct (IH (want * 2) (pow2_double _ Hp)) as (H1 & H2 & H3).
    + rewrite Nat2Z.inj_succ, Z.pow_succ_r in Hf by lia. lia.
    + split; [done|]. split; [done|]. lia.
Qed.

Lemma one_pow2 : pow2 1.
Proof. exists 0. split; [lia|done]. Qed.

Lemma wanted_spec R m : reg_ok R m ->
  let w := wanted_capacity R in
  pow2 w /\ w <= vyb_str_max_cap R /\ cap_z (vyb_str_reg R) <= w /\ (vyb_str_live R * 2 <= w \/ w = vyb_str_max_cap R)
  /\ w <= cap_z (vyb_str_reg R) * 4.
Proof.
  intros [T C HL HT Hmax Hcap Hsz]. unfold wanted_capacity. pose proof (live_count_bound (vyb_str_reg R)) as B.
  destruct (Z.ltb_spec (cap_z (vyb_str_reg R)) (vyb_str_live R * 2)) as [Hlt|Hge]; [|split_and!; [by destruct T|done|done|left; lia|lia]].
  destruct (double_up_spec 64 1 (vyb_str_live R * 2) (vyb_str_max_cap R) one_pow2) as (P & E & U).
  { unfold SIZE_MAX in Hsz. lia. }
  set (w := double_up 64 1 (vyb_str_live R * 2) (vyb_str_max_cap R)) in *. pose proof (pow2_pos _ P).
  assert (w <= 2 * (cap_z (vyb_str_reg R) * 2)) by lia.
  destruct (Z.ltb_spec (vyb_str_max_cap R) w) as [Hm|Hm].
  - destruct Hmax as [Hmax|Hmax]; [|unfold SIZE_MAX in *; lia].
    destruct (Z.ltb_spec (vyb_str_max_cap R) (cap_z (vyb_str_reg R))); [lia|]. split_and!; [done|lia|lia|by right|lia].
  - destruct (Z.ltb_spec w (cap_z (vyb_str_reg R))).
    + split_and!; [by destruct T|done|done| |lia]. destruct E as [E|E]; [left; lia|right; lia].
    + split_and!; [done|lia|lia| |lia]. destruct E as [E|E]; [left; lia|right; lia].
Qed.

(** *** Resizing *)

(** Same counts, same log, same limit. *)
Definition same_counts (R R' : Registry) (m : gmap ptr Z) : Prop :=
  reg_ok R' m /\ freed R' = freed R /\ vyb_str_max_cap R' = vyb_str_max_cap R
  /\ live_count (vyb_str_reg R') = live_count (vyb_str_reg R).

Lemma maybe_resize_spec memory R m : reg_ok R m -> same_counts R (vyb_str_reg_maybe_resize memory R) m.
Proof.
  intros H. unfold vyb_str_reg_maybe_resize. case_if; [by split_and!|].
  destruct (wanted_spec R m H) as (P & W & G & _). pose proof (rehash_spec memory _ R m H P W G) as S.
  destruct (calloc_ok _ _).
  - destruct S as (R' & -> & Hok & _ & _ & HL & Hf & Hm & _). cbn. by split_and!.
  - rewrite S. by split_and!.
Qed.

Lemma grow_spec memory R m : reg_ok R m ->
  match vyb_str_reg_grow memory R with
  | (R', true) => same_counts R R' m /\ cap_z (vyb_str_reg R) < cap_z (vyb_str_reg R')
  | (R', false) => R' = R
  end.
Proof.
  intros H. pose proof H as [T C HL HT Hmax Hcap Hsz]. unfold vyb_str_reg_grow.
  set (cap := cap_z (vyb_str_reg R)) in *. assert (pow2 cap) as Hp by (by destruct T). pose proof (pow2_pos _ Hp).
  set (newcap := if _ || _ then _ else _).
  destruct (Z.leb_spec newcap cap) as [Hle|Hgt]; [done|].
  assert (P : pow2 newcap /\ newcap <= vyb_str_max_cap R).
  { subst newcap. change (SIZE_MAX / 2) with 9223372036854775807 in *. change SIZE_MAX with 18446744073709551615 in *.
    destruct (Z.leb_spec (vyb_str_max_cap R) cap), (Z.ltb_spec 9223372036854775807 cap); cbn [orb] in *; try lia.
    destruct (Z.ltb_spec (vyb_str_max_cap R) (cap * 2)).
    - split; [|lia]. destruct Hmax as [|Hmax]; [done|]. lia.
    - split; [by apply pow2_double|lia]. }
  destruct P as [P1 P2]. pose proof (rehash_spec memory newcap R m H P1 P2 ltac:(lia)) as S.
  destruct (calloc_ok _ _).
  - destruct S as (R' & -> & Hok & Hc & _ & HL' & Hf & Hm & _). split; [by split_and!|]. fold cap. lia.
  - by rewrite S.
Qed.

(** *** Registering *)

Lemma insert_slot_Some t p s : vyb_str_insert_slot t p = Some s ->
  exists i, probe_order (cap_z t) p !! i = Some s /\ (ptr_at t s = VYB_STR_TOMB \/ ptr_at t s = NULL \/ ptr_at t s = p)
    /\ forall j jdx, (j < i)%nat -> probe_order (cap_z t) p !! j = Some jdx -> live_ptr (ptr_at t jdx) /\ ptr_at t jdx <> p.
Proof.
  unfold vyb_str_insert_slot. destruct (list_find _ _) as [[i k]|] eqn:F; [|done]. intros [= <-].
  apply list_find_Some in F as (Hi & Hk & Hb). exists i. split; [done|]. split; [done|].
  intros j jdx Hlt Hj. pose proof (Hb j jdx Hj Hlt). unfold live_ptr. naive_solver.
Qed.

Lemma insert_slot_None t p : table_ok t -> vyb_str_insert_slot t p = None -> live_count t = cap_z t.
Proof.
  intros [Hp _]. unfold vyb_str_insert_slot. destruct (list_find _ _) as [[i k]|] eqn:F; [done|]. intros _.
  apply list_find_None in F. rewrite Forall_forall in F. unfold live_count. rewrite filter_all; [done|].
  apply Forall_lookup. intros k s Hs. pose proof (lookup_lt_Some _ _ _ Hs).
  destruct (order_complete _ Hp p k) as [i Hi]; [unfold cap_z; lia|].
  pose proof (F k (list_elem_of_lookup_2 _ _ _ Hi)) as N. rewrite (lookup_ptr _ _ _ Hs) in N.
  unfold live_ptr. naive_solver.
Qed.

Lemma claim_spec p r R m s :
  reg_ok R m -> live_ptr p -> m !! p = None -> vyb_str_insert_slot (vyb_str_reg R) p = Some s ->
  reg_ok (claim_slot p r R s) (<[p := r]> m) /\ freed (claim_slot p r R s) = freed R.
Proof.
  intros [T C HL HT Hmax Hcap Hsz] L Hm (i & Hi & Hs & Hb)%insert_slot_Some.
  pose proof (proj1 (represents_holds _ _ _ C L) Hm) as Hno.
  assert (Hlt : (s < length (vyb_str_reg R))%nat).
  { destruct T as [Hp _]. apply (order_range _ Hp) in Hi. unfold cap_z in Hi. lia. }
  destruct (lookup_lt_is_Some_2 _ _ Hlt) as [o Ho]. pose proof (lookup_ptr _ _ _ Ho) as Eo.
  assert (No : slot_p o = NULL \/ slot_p o = VYB_STR_TOMB).
  { rewrite <- Eo. destruct Hs as [|[|E]]; [by right|by left|]. by destruct (Hno s). }
  assert (Lo : ~ live_ptr (slot_p o)) by (unfold live_ptr; naive_solver).
  unfold claim_slot. rewrite Eo. assert ((slot_p o =? NULL) || (slot_p o =? VYB_STR_TOMB) = true) as ->.
  { apply orb_true_iff. rewrite !Z.eqb_eq. done. }
  split; [|done]. split; cbn; try done.
  - apply write_ok; [done|done|cbn; intros ->; by destruct L|]. cbn. intros _ _. split; [done|]. exists i. split; [done|].
    intros j jdx Hlt' Hj. by destruct (Hb j jdx Hlt' Hj) as [[? _] _].
  - pose proof (write_represents _ _ s o (mkSlot p r) T C Ho) as W. unfold put_entry, drop_entry in W. cbn in W.
    rewrite decide_True, decide_False in W by done. apply W. intros _. by right.
  - rewrite (live_count_write _ _ _ _ Ho). unfold one_if. cbn. rewrite decide_True, decide_False by done. lia.
  - rewrite (tomb_count_write _ _ _ _ Ho). unfold one_if. cbn.
    rewrite (decide_False (P := p = VYB_STR_TOMB)) by (by destruct L).
    assert (0 <= tomb_count (vyb_str_reg R)) by (unfold tomb_count; lia).
    destruct (Z.eqb_spec (slot_p o) VYB_STR_TOMB) as [E|E]; case_decide; try done; cbn [andb]; [|lia].
    assert (1 <= tomb_count (vyb_str_reg R)).
    { unfold tomb_count. assert (o ∈ filter (fun s => slot_p s = VYB_STR_TOMB) (vyb_str_reg R)) as Hin.
      { apply list_elem_of_filter. split; [done|]. by eapply list_elem_of_lookup_2. }
      destruct (filter _ _); [by apply elem_of_nil in Hin|cbn [length]; lia]. }
    destruct (Z.ltb_spec 0 (vyb_str_tombs R)); lia.
  - by rewrite cap_insert.
  - by rewrite cap_insert.
Qed.

(** The effect of registering a pointer that is not tracked. *)
Lemma register_spec m1 m2 p r R m : reg_ok R m -> live_ptr p -> m !! p = None ->
  match vyb_string_register_refs m1 m2 p r R with
  | Some R' => reg_ok R' (<[p := r]> m) /\ freed R' = freed R
  | None =>
      let R1 := vyb_str_reg_maybe_resize m1 R in
      live_count (vyb_str_reg R1) = cap_z (vyb_str_reg R1) /\ (vyb_str_reg_grow m2 R1).2 = false
  end.
Proof.
  intros H L Hm. unfold vyb_string_register_refs. rewrite (proj2 (Z.eqb_neq p NULL)) by (by destruct L).
  destruct (maybe_resize_spec m1 R m H) as (H1 & F1 & _ & _). set (R1 := vyb_str_reg_maybe_resize m1 R) in *.
  destruct (vyb_str_insert_slot (vyb_str_reg R1) p) as [s|] eqn:E.
  { destruct (claim_spec p r R1 m s H1 L Hm E) as [? E']. split; [done|congruence]. }
  pose proof (insert_slot_None _ _ (ok_table _ _ H1) E) as Hfull.
  pose proof (grow_spec m2 R1 m H1) as G. destruct (vyb_str_reg_grow m2 R1) as [R2 grew] eqn:EG.
  destruct grew; cbn [negb]; [|done]. destruct G as ((H2 & F2 & _ & L2) & Hc).
  destruct (vyb_str_insert_slot (vyb_str_reg R2) p) as [s|] eqn:E2.
  - destruct (claim_spec p r R2 m s H2 L Hm E2) as [? E']. split; [done|congruence].
  - apply insert_slot_None in E2; [lia|apply H2].
Qed.

(** *** Retaining and releasing *)

Lemma lookup_counts R m p : reg_ok R m -> live_ptr p ->
  match vyb_str_lookup_slot (vyb_str_reg R) p with
  | Some s => m !! p = Some (refs_at (vyb_str_reg R) s) /\ holds (vyb_str_reg R) p s
  | None => m !! p = None
  end.
Proof.
  intros [T C _ _ _ _ _] L. destruct (vyb_str_lookup_slot _ p) as [s|] eqn:E.
  - apply lookup_slot_spec in E; [|done..]. split; [|done]. apply C. split; [done|]. exists s. by apply holds_lookup.
  - apply (represents_holds _ _ _ C L). by apply lookup_slot_None.
Qed.

Lemma bump_spec R m p s d r : reg_ok R m -> live_ptr p -> holds (vyb_str_reg R) p s -> m !! p = Some r ->
  refs_at (vyb_str_reg R) s = r -> reg_ok (set_table R (bump_refs (vyb_str_reg R) s d)) (<[p := r + d]> m).
Proof.
  intros [T C HL HT Hmax Hcap Hsz] L Hh Hm Er. pose proof (holds_lookup _ _ _ Hh) as Ho. pose proof Hh as [Hlt Ep].
  unfold bump_refs. rewrite Ep, Er. split; cbn; try done.
  - apply write_ok; [done|done| |]; cbn; [intros ->; by destruct L|]. intros _ Hne. by rewrite Ep in Hne.
  - pose proof (write_represents _ _ s _ (mkSlot p (r + d)) T C Ho) as W. unfold put_entry, drop_entry in W. cbn in W.
    rewrite !decide_True in W by done. rewrite insert_delete_eq in W. apply W. intros _. by left.
  - rewrite (live_count_write _ _ _ _ Ho). unfold one_if. cbn. rewrite !decide_True by done. lia.
  - rewrite (tomb_count_write _ _ _ _ Ho). unfold one_if. cbn. case_decide; lia.
  - by rewrite cap_insert.
  - by rewrite cap_insert.
Qed.

Lemma retire_spec R m p r : reg_ok R m -> live_ptr p -> m !! p = Some r ->
  reg_ok (release_retire p R) (delete p m) /\ freed (release_retire p R) = p :: freed R.
Proof.
  intros H L Hm. pose proof (lookup_counts R m p H L) as Lk. unfold release_retire.
  destruct (vyb_str_lookup_slot _ p) as [s|]; [|congruence]. destruct Lk as [_ Hh].
  destruct H as [T C HL HT Hmax Hcap Hsz]. pose proof (holds_lookup _ _ _ Hh) as Ho. pose proof Hh as [Hlt Ep].
  split; [|done]. split; cbn; try done.
  - apply write_ok; [done|done|done|]. cbn. intros [_ []]. done.
  - pose proof (write_represents _ _ s _ (mkSlot VYB_STR_TOMB 0) T C Ho) as W. unfold put_entry, drop_entry in W. cbn in W.
    rewrite decide_False in W by (by intros [_ []]). rewrite decide_True in W by done. apply W. by intros [_ []].
  - rewrite (live_count_write _ _ _ _ Ho). unfold one_if. cbn.
    rewrite decide_False by (by intros [_ []]). rewrite decide_True by done.
    assert (1 <= live_count (vyb_str_reg R)).
    { unfold live_count. assert (mkSlot p (refs_at (vyb_str_reg R) s) ∈ filter (fun s => live_ptr (slot_p s)) (vyb_str_reg R)) as Hin.
      { apply list_elem_of_filter. split; [done|]. by eapply list_elem_of_lookup_2. }
      destruct (filter _ _); [by apply elem_of_nil in Hin|cbn [length]; lia]. }
    destruct (Z.ltb_spec 0 (vyb_str_live R)); lia.
  - rewrite (tomb_count_write _ _ _ _ Ho). unfold one_if. cbn. rewrite decide_True by done.
    rewrite (decide_False (P := p = VYB_STR_TOMB)) by (by destruct L). lia.
  - by rewrite cap_insert.
  - by rewrite cap_insert.
Qed.

(** ** The contract *)

Definition spec_retain (p : ptr) (m : gmap ptr Z) : gmap ptr Z := alter (fun r => r + 1) p m.

(** The counts and the log after a release. *)
Definition spec_release (p : ptr) (m : gmap ptr Z) (log : list ptr) : gmap ptr Z * list ptr :=
  match m !! p with
  | None => (m, log)
  | Some r => if r =? 1 then (delete p m, p :: log) else (<[p := r - 1]> m, log)
  end.

Lemma retain_spec R m p : reg_ok R m -> live_ptr p ->
  reg_ok (vyb_string_retain p R) (spec_retain p m) /\ freed (vyb_string_retain p R) = freed R.
Proof.
  intros H L. pose proof (lookup_counts R m p H L) as Lk. unfold vyb_string_retain, spec_retain.
  destruct (vyb_str_lookup_slot _ p) as [s|].
  - destruct Lk as [Hm Hh]. split; [|done].
    assert (alter (fun r => r + 1) p m = <[p := refs_at (vyb_str_reg R) s + 1]> m) as ->.
    { apply map_eq. intros q. destruct (decide (p = q)) as [<-|].
      - by rewrite lookup_alter_eq, Hm, lookup_insert_eq.
      - by rewrite lookup_alter_ne, lookup_insert_ne. }
    by apply bump_spec.
  - split; [|done]. assert (alter (fun r => r + 1) p m = m) as ->; [|done].
    apply map_eq. intros q. destruct (decide (p = q)) as [<-|]; [by rewrite lookup_alter_eq, Lk|by rewrite lookup_alter_ne].
Qed.

Lemma decrement_spec R m p : reg_ok R m -> live_ptr p ->
  match m !! p with
  | Some r => exists R', release_decrement p R = (R', Some r) /\ reg_ok R' (<[p := r - 1]> m) /\ freed R' = freed R
  | None => release_decrement p R = (R, None)
  end.
Proof.
  intros H L. pose proof (lookup_counts R m p H L) as Lk. unfold release_decrement.
  destruct (vyb_str_lookup_slot _ p) as [s|]; [|by rewrite Lk]. destruct Lk as [Hm Hh]. rewrite Hm.
  eexists. split; [done|]. split; [|done]. by apply bump_spec.
Qed.

Lemma release_spec R m p : reg_ok R m -> live_ptr p ->
  reg_ok (vyb_string_release p R) (spec_release p m (freed R)).1
  /\ freed (vyb_string_release p R) = (spec_release p m (freed R)).2.
Proof.
  intros H L. pose proof (decrement_spec R m p H L) as D. unfold vyb_string_release, spec_release.
  destruct (m !! p) as [r|] eqn:Hm; [|by rewrite D]. destruct D as (R' & -> & H' & F').
  destruct (Z.eqb_spec r 1) as [->|Hne].
  - destruct (retire_spec R' _ p 0 H' L) as [H2 F2]; [by rewrite lookup_insert_eq|].
    rewrite delete_insert_eq in H2. split; [done|]. by rewrite F2, F'.
  - destruct r as [|[]|]; try done; by split.
Qed.

(** C2: The registry implements a map of reference counts. On every
    well-formed registry, retaining a pointer adds one to its count and is
    ignored for a pointer that is not tracked; releasing takes one off, and
    the last release removes the pointer and frees the buffer, once;
    registering a new pointer adds it with its initial count, through any
    resizing and rehashing of the table, or finds every slot taken and the
    table unable to grow, in which case the process ends. No operation
    touches another pointer's count or frees another buffer. *)
Theorem registry_refines R m p : reg_ok R m -> live_ptr p ->
  (reg_ok (vyb_string_retain p R) (spec_retain p m) /\ freed (vyb_string_retain p R) = freed R)
  /\ (reg_ok (vyb_string_release p R) (spec_release p m (freed R)).1
      /\ freed (vyb_string_release p R) = (spec_release p m (freed R)).2)
  /\ (forall m1 m2 r, m !! p = None ->
        match vyb_string_register_refs m1 m2 p r R with
        | Some R' => reg_ok R' (<[p := r]> m) /\ freed R' = freed R
        | None => let R1 := vyb_str_reg_maybe_resize m1 R in
                  live_count (vyb_str_reg R1) = cap_z (vyb_str_reg R1) /\ (vyb_str_reg_grow m2 R1).2 = false
        end).
Proof.
  intros H L. split; [by apply retain_spec|]. split; [by apply release_spec|].
  intros m1 m2 r Hm. by apply register_spec.
Qed.

(** *** The initial registry *)

Lemma round_down_spec fuel x v : pow2 x -> x <= v -> v < x * 2 ^ Z.of_nat fuel ->
  pow2 (round_down fuel x v) /\ x <= round_down fuel x v <= v.
Proof.
  revert x. induction fuel as [|f IH]; intros x P Hx Hv; cbn [round_down]; [cbn in Hv; lia|].
  rewrite Z.shiftl_mul_pow2 by lia. change (2 ^ 1) with 2. pose proof (pow2_pos _ P).
  destruct (Z.leb_spec (x * 2) v); [|split; [done|lia]].
  rewrite Nat2Z.inj_succ, Z.pow_succ_r in Hv by lia.
  destruct (IH (x * 2) (pow2_double _ P)) as [P' B]; [lia..|]. split; [done|lia].
Qed.

Lemma startup_pow2 : pow2 startup_floor.
Proof. exists 18. split; [lia|done]. Qed.

Lemma fresh_registry_ok start maxcap : pow2 start -> pow2 maxcap \/ maxcap = SIZE_MAX -> start <= maxcap ->
  start * 16 <= SIZE_MAX -> reg_ok (mkRegistry (fresh_table start) maxcap 0 0 0 []) ∅.
Proof.
  intros P Hmax Hle Hsz. destruct (fresh_table_ok start P) as (T & N & L0). pose proof (pow2_pos _ P).
  split; cbn; try done.
  - apply represents_elem. intros p r. rewrite lookup_empty. split; [done|]. intros [L Hin].
    apply list_elem_of_lookup_1 in Hin as [k Hk]. apply lookup_replicate in Hk as [Hk _].
    unfold empty_slot in Hk. simplify_eq. by destruct L.
  - by rewrite no_tombs_count.
  - by rewrite fresh_table_cap by lia.
  - by rewrite fresh_table_cap by lia.
Qed.

Lemma init_ok memory env R : (forall v, env = Some v -> v <= SIZE_MAX) ->
  vyb_str_reg_init memory env = Some R -> reg_ok R ∅.
Proof.
  intros Hv. unfold vyb_str_reg_init.
  assert (Default : (if calloc_ok memory startup_floor then Some (mkRegistry (fresh_table startup_floor) SIZE_MAX 0 0 0 []) else None) = Some R ->
    reg_ok R ∅).
  { destruct (calloc_ok memory startup_floor); [|done]. intros [= <-].
    apply fresh_registry_ok; [apply startup_pow2|by right|unfold startup_floor, SIZE_MAX; lia..]. }
  destruct env as [v|]; [|exact Default]. destruct (Z.leb_spec 4 v) as [H4|]; [|exact Default].
  destruct (round_down_spec 64 1 v one_pow2) as [P B]; [lia|specialize (Hv v eq_refl); unfold SIZE_MAX in Hv; lia|].
  set (x := round_down 64 1 v) in *. cbv zeta iota beta. clear Default.
  destruct (calloc_ok memory (if x <? startup_floor then x else startup_floor)) eqn:Hc; [|discriminate]. intros [= <-].
  unfold calloc_ok in Hc. apply andb_true_iff in Hc as [_ Hc].
  destruct (Z.ltb_spec x startup_floor); apply fresh_registry_ok; try done; try lia; [by left|apply startup_pow2|by left].
Qed.

(** *** Load *)

Lemma pow2_not_size_max n : pow2 n -> n <> SIZE_MAX.
Proof.
  intros (k & Hk & ->) E. unfold SIZE_MAX in E. destruct (Z.eq_dec k 0) as [->|]; [done|].
  replace k with (1 + (k - 1)) in E by lia. rewrite Z.pow_add_r in E by lia. lia.
Qed.

(** Few enough entries for short probe sequences. *)
Definition roomy (R : Registry) : Prop :=
  (vyb_str_live R + vyb_str_tombs R) * 4 < cap_z (vyb_str_reg R) * 3.

Lemma register_load p r R m s : reg_ok R m -> live_ptr p -> m !! p = None ->
  vyb_str_insert_slot (vyb_str_reg R) p = Some s -> roomy R ->
  let R' := claim_slot p r R s in (vyb_str_live R' + vyb_str_tombs R') * 4 < cap_z (vyb_str_reg R') * 3 + 4.
Proof.
  unfold roomy. intros H L Hm Hs Hload. unfold claim_slot. case_if; cbv zeta; cbn [vyb_str_live vyb_str_tombs vyb_str_reg]; [|lia].
  rewrite cap_insert. case_if; lia.
Qed.

Lemma resized_load R m : reg_ok R m -> cap_z (vyb_str_reg R) * 64 <= SIZE_MAX ->
  let R1 := vyb_str_reg_maybe_resize true R in roomy R1 \/ cap_z (vyb_str_reg R1) = vyb_str_max_cap R.
Proof.
  intros H Hsz. unfold vyb_str_reg_maybe_resize, roomy. match goal with |- context [if ?b then _ else _] => destruct b eqn:Hc end.
  { apply andb_true_iff in Hc as [[Hc _]%andb_true_iff _]. apply negb_true_iff in Hc. cbv zeta. lia. }
  destruct (wanted_spec R m H) as (P & W & G & D & U). pose proof (rehash_spec true _ R m H P W G) as S.
  pose proof (pow2_pos _ P).
  assert (calloc_ok true (wanted_capacity R) = true) as E by (unfold calloc_ok; cbn; lia). rewrite E in S.
  destruct S as (R' & -> & [T C HL HT _ _ _] & Hcap & Hn & Hlc & _). cbn [fst].
  rewrite HL, HT, Hlc, no_tombs_count, Hcap by done. pose proof (ok_live _ _ H). lia.
Qed.

(** No slot of a full table is free. *)
Lemma full_table_no_slot R m p : reg_ok R m -> live_ptr p -> m !! p = None ->
  live_count (vyb_str_reg R) = cap_z (vyb_str_reg R) -> vyb_str_insert_slot (vyb_str_reg R) p = None.
Proof.
  intros [T C _ _ _ _ _] L Hm Hf. destruct (vyb_str_insert_slot _ p) as [s|] eqn:E; [exfalso|done].
  apply insert_slot_Some in E as (i & Hi & Hs & _). pose proof (proj1 (represents_holds _ _ _ C L) Hm) as Hno.
  assert (Hlt : (s < length (vyb_str_reg R))%nat).
  { destruct T as [Hp _]. apply (order_range _ Hp) in Hi. unfold cap_z in Hi. lia. }
  destruct (lookup_lt_is_Some_2 _ _ Hlt) as [o Ho]. pose proof (lookup_ptr _ _ _ Ho) as Eo.
  assert (~ live_ptr (slot_p o)) as N.
  { rewrite <- Eo. destruct Hs as [->|[->|E]]; [by intros [_ []]|by intros [[] _]|]. by destruct (Hno s). }
  pose proof (length_filter_lt (fun s => live_ptr (slot_p s)) _ _ (list_elem_of_lookup_2 _ _ _ Ho) N).
  unfold live_count, cap_z in Hf. lia.
Qed.

Lemma room_for_one R m p : reg_ok R m -> roomy R -> exists s, vyb_str_insert_slot (vyb_str_reg R) p = Some s.
Proof.
  unfold roomy. intros H Hl. destruct (vyb_str_insert_slot _ p) as [s|] eqn:E; [by exists s|].
  apply insert_slot_None in E; [|apply H]. destruct H as [T C HL HT _ _ _].
  assert (0 <= tomb_count (vyb_str_reg R)) by (unfold tomb_count; lia).
  pose proof (live_count_bound (vyb_str_reg R)). lia.
Qed.

(** Where the resized table has no slot it is at its ceiling, and growing
    fails. *)
Lemma grow_at_ceiling memory R : cap_z (vyb_str_reg R) = vyb_str_max_cap R -> vyb_str_reg_grow memory R = (R, false).
Proof. intros E. unfold vyb_str_reg_grow. rewrite E, Z.leb_refl. cbn [orb]. by rewrite Z.leb_refl. Qed.

(** The load after a registration: at most three quarters, or the ceiling. *)
Definition bounded_load (maxcap : Z) (R : Registry) : Prop :=
  (vyb_str_live R + vyb_str_tombs R) * 4 < cap_z (vyb_str_reg R) * 3 + 4 \/ cap_z (vyb_str_reg R) = maxcap.

Lemma claim_load p r R m s maxcap : reg_ok R m -> live_ptr p -> m !! p = None -> vyb_str_insert_slot (vyb_str_reg R) p = Some s ->
  roomy R \/ cap_z (vyb_str_reg R) = maxcap -> bounded_load maxcap (claim_slot p r R s).
Proof.
  intros H L Hm Hs [Hl|Hc]; [left; by eapply register_load|right]. unfold claim_slot. case_if; cbn [vyb_str_reg]; [by rewrite cap_insert|done].
Qed.

(** C36: While [calloc] succeeds, registering a new string ends the process
    exactly when as many strings are live as [VYB_STR_REG_CAP] allows; in every
    other state it succeeds, and afterwards live and deleted slots together fill
    at most three quarters of the table (up to the entry just added) unless the
    table is at that ceiling already. Without the limit it never ends the
    process and the bound always holds, so probe sequences stay short under any
    mix of creating and freeing strings. *)
Theorem register_bounded_load p r R m :
  reg_ok R m -> live_ptr p -> m !! p = None -> cap_z (vyb_str_reg R) * 64 <= SIZE_MAX ->
  match vyb_string_register_refs true true p r R with
  | Some R' => vyb_str_live R < vyb_str_max_cap R /\ reg_ok R' (<[p := r]> m) /\ bounded_load (vyb_str_max_cap R) R'
  | None => vyb_str_live R = vyb_str_max_cap R
  end
  /\ (vyb_str_max_cap R = SIZE_MAX ->
       exists R', vyb_string_register_refs true true p r R = Some R' /\ reg_ok R' (<[p := r]> m)
         /\ (vyb_str_live R' + vyb_str_tombs R') * 4 < cap_z (vyb_str_reg R') * 3 + 4).
Proof.
  intros H L Hm Hsz. destruct (maybe_resize_spec true R m H) as (H1 & _ & Hmax1 & HL1).
  pose proof (resized_load R m H Hsz) as Hl. set (R1 := vyb_str_reg_maybe_resize true R) in *. cbv zeta in Hl.
  pose proof (ok_live _ _ H) as HL. rewrite <- HL1 in HL. pose proof (live_count_bound (vyb_str_reg R1)).
  pose proof (ok_cap _ _ H1) as Hc1. rewrite Hmax1 in Hc1.
  unfold vyb_string_register_refs. rewrite (proj2 (Z.eqb_neq p NULL)) by (by destruct L). fold R1.
  destruct (vyb_str_insert_slot (vyb_str_reg R1) p) as [s|] eqn:Hs.
  - destruct (claim_spec p r R1 m s H1 L Hm Hs) as [Hok _]. pose proof (claim_load p r R1 m s _ H1 L Hm Hs Hl) as B.
    assert (vyb_str_live R < vyb_str_max_cap R).
    { destruct (decide (live_count (vyb_str_reg R1) = cap_z (vyb_str_reg R1))) as [E|]; [|lia].
      by rewrite (full_table_no_slot R1 m p H1 L Hm E) in Hs. }
    split; [done|]. intros U. exists (claim_slot p r R1 s). split; [done|]. split; [done|]. destruct B as [|E]; [done|].
    destruct Hok as [[P _] _ _ _ _ _ _]. by destruct (pow2_not_size_max _ P); rewrite E.
  - pose proof (insert_slot_None _ _ (ok_table _ _ H1) Hs) as Hf.
    destruct Hl as [Hl|Hl]; [by destruct (room_for_one R1 m p H1 Hl); congruence|].
    rewrite grow_at_ceiling by congruence. cbn [negb]. split; [lia|]. intros U.
    destruct (ok_table _ _ H1) as [P _]. by destruct (pow2_not_size_max _ P); congruence.
Qed.

(** *** A registry at work *)

Definition sample_registry (cap : Z) : Registry := mkRegistry (fresh_table cap) cap 0 0 0 [].

Lemma sample_registry_ok cap : pow2 cap -> cap * 16 <= SIZE_MAX -> reg_ok (sample_registry cap) ∅.
Proof. intros P H. apply fresh_registry_ok; [done|by left|done|done]. Qed.

Lemma four_pow2 : pow2 4.
Proof. by exists 2. Qed.

Definition after_register (p : ptr) (R : Registry) : Registry := default R (vyb_string_register true true p R).

Lemma sample_live : live_ptr 0x1280.
Proof. split; done. Qed.

Lemma one_string_ok : reg_ok (after_register 0x1280 (sample_registry 4)) {[ 0x1280 := 1 ]}.
Proof.
  pose proof (register_spec true true 0x1280 1 (sample_registry 4) ∅ (sample_registry_ok 4 four_pow2 ltac:(by vm_compute))
    sample_live (lookup_empty _)) as H.
  unfold after_register, vyb_string_register. destruct (vyb_string_register_refs _ _ _ _ _) as [R'|] eqn:E.
  - destruct H as [H _]. by rewrite insert_empty in H.
  - by vm_compute in E.
Qed.

Lemma registry_refines_witness :
  reg_ok (vyb_string_release 0x1280 (after_register 0x1280 (sample_registry 4))) ∅
  /\ freed (vyb_string_release 0x1280 (after_register 0x1280 (sample_registry 4))) = [0x1280].
Proof.
  destruct (registry_refines _ _ 0x1280 one_string_ok sample_live) as (_ & [H F] & _).
  split; [exact H|exact F].
Defined.

Lemma register_bounded_load_witness :
  (exists R', vyb_string_register_refs true true 0x1280 1 (mkRegistry (fresh_table 32) SIZE_MAX 0 0 0 []) = Some R'
    /\ (vyb_str_live R' + vyb_str_tombs R') * 4 < cap_z (vyb_str_reg R') * 3 + 4)
  /\ is_Some (vyb_string_register_refs true true 0x1280 1 (sample_registry 4)).
Proof.
  split.
  - destruct (register_bounded_load 0x1280 1 (mkRegistry (fresh_table 32) SIZE_MAX 0 0 0 []) ∅) as (_ & R' & E & _ & Hl).
    + apply fresh_registry_ok; [by exists 5|by right|by vm_compute|by vm_compute].
    + exact sample_live.
    + reflexivity.
    + by vm_compute.
    + reflexivity.
    + exists R'. split; [exact E|exact Hl].
  - destruct (register_bounded_load 0x1280 1 (sample_registry 4) ∅) as [H _].
    + exact (sample_registry_ok 4 four_pow2 ltac:(by vm_compute)).
    + exact sample_live.
    + reflexivity.
    + by vm_compute.
    + destruct (vyb_string_register_refs _ _ _ _ _) as [R'|]; [by exists R'|discriminate H].
Defined.

(** Under a cap of four, four live strings are the end: the fifth
    registration aborts; with one of them released it succeeds. *)
Definition four_strings : Registry :=
  foldr after_register (sample_registry 4) [0x1280; 0x1430; 0x2280; 0x3330].

Example cap_reached :
  vyb_string_register true true 0x4440 four_strings = None
  /\ is_Some (vyb_string_register true true 0x4440 (vyb_string_release 0x1280 four_strings)).
Proof. vm_compute. split; [reflexivity|by eexists]. Qed.

(** Registering a pointer that is tracked already is not always ignored: when
    a deleted slot lies before its own on the probe sequence, a second entry
    is stored there and hides the first. *)
Definition hidden_entry : option (list vyb_str_ref) :=
  R1 ← vyb_string_register true true 0x1280 (sample_registry 32);
  R2 ← vyb_string_register true true 0x1430 R1;
  R3 ← vyb_string_register true true 0x1430 (vyb_string_retain 0x1430 (vyb_string_release 0x1280 R2));
  Some (filter (fun s => slot_p s <> NULL) (vyb_str_reg R3)).

Lemma reregistration_duplicates : hidden_entry = Some [mkSlot 0x1430 1; mkSlot 0x1430 2].
Proof. vm_compute. reflexivity. Qed.
