(* ===== verification/StrThreads.v ===== *)
(** * Threads on the string registry

    How the operations of several threads interleave. The first part runs the
    atomic steps of register, retain and release (whose decrement and whose
    retirement of the slot are two steps) under the rule generated code
    follows: who retains or releases holds a reference. The second part is
    the reader guard that keeps lock-free probes off a table that is being
    replaced, on a memory with a store buffer. *)

From S2P Require Import Prelude.
From S2P Require Import StrRegistry.
#[local] Open Scope Z_scope.

(** ** References held by threads *)

Record World : Type := mkWorld {
  registry : Registry;
  owners : gmap ptr nat;      (* references threads hold *)
  handed : gset ptr;          (* registered without an owner, not yet retained *)
  retiring : list ptr         (* releases that saw the last reference, before the lock *)
}.

Definition owned (W : World) (p : ptr) : nat := default 0%nat (owners W !! p).
Definition set_owned (p : ptr) (n : nat) (m : gmap ptr nat) : gmap ptr nat := <[p := n]> m.

(** [malloc] returns no address that is still allocated, so a new buffer is
    not tracked. *)
Inductive world_step : World -> World -> Prop :=
| step_register W p m1 m2 R' :
    live_ptr p -> vyb_str_lookup_slot (vyb_str_reg (registry W)) p = None ->
    vyb_string_register m1 m2 p (registry W) = Some R' ->
    world_step W (mkWorld R' (set_owned p 1 (owners W)) (handed W) (retiring W))
| step_register_borrowed W p m1 m2 R' :
    live_ptr p -> vyb_str_lookup_slot (vyb_str_reg (registry W)) p = None ->
    vyb_string_register_borrowed m1 m2 p (registry W) = Some R' ->
    world_step W (mkWorld R' (owners W) ({[ p ]} ∪ handed W) (retiring W))
| step_take W p :
    live_ptr p -> p ∈ handed W ->
    world_step W (mkWorld (vyb_string_retain p (registry W)) (set_owned p 1 (owners W)) (handed W ∖ {[ p ]}) (retiring W))
| step_retain W p :
    live_ptr p -> (0 < owned W p)%nat ->
    world_step W (mkWorld (vyb_string_retain p (registry W)) (set_owned p (S (owned W p)) (owners W)) (handed W) (retiring W))
| step_decrement W p R' old :
    live_ptr p -> (0 < owned W p)%nat -> release_decrement p (registry W) = (R', old) ->
    world_step W (mkWorld R' (set_owned p (owned W p - 1) (owners W)) (handed W)
                          (if bool_decide (old = Some 1) then p :: retiring W else retiring W))
| step_retire W p l1 l2 :
    retiring W = l1 ++ p :: l2 ->
    world_step W (mkWorld (release_retire p (registry W)) (owners W) (handed W) (l1 ++ l2)).

Definition start_world (R : Registry) : World := mkWorld R ∅ ∅ [].

(** Where a buffer is in its life. *)
Inductive phase (W : World) (m : gmap ptr Z) (p : ptr) : Prop :=
| phase_untracked : m !! p = None -> owned W p = 0%nat -> p ∉ handed W -> p ∉ retiring W -> phase W m p
| phase_held : m !! p = Some (Z.of_nat (owned W p)) -> (0 < owned W p)%nat -> p ∉ handed W -> p ∉ retiring W -> phase W m p
| phase_handed : m !! p = Some 0 -> owned W p = 0%nat -> p ∈ handed W -> p ∉ retiring W -> phase W m p
| phase_retiring : m !! p = Some 0 -> owned W p = 0%nat -> p ∉ handed W -> p ∈ retiring W -> phase W m p.

Definition world_inv (W : World) (m : gmap ptr Z) : Prop :=
  reg_ok (registry W) m /\ NoDup (retiring W) /\ forall p, phase W m p.

Lemma untracked R m p : reg_ok R m -> live_ptr p -> vyb_str_lookup_slot (vyb_str_reg R) p = None <-> m !! p = None.
Proof. intros H L. pose proof (lookup_counts R m p H L). destruct (vyb_str_lookup_slot _ p); naive_solver. Qed.

(** A step touches one buffer: the others stay in their phase. *)
Lemma world_frame W W' m m' p :
  (forall q, phase W m q) -> reg_ok (registry W') m' -> NoDup (retiring W') -> phase W' m' p ->
  (forall q, p <> q -> m' !! q = m !! q /\ owned W' q = owned W q
     /\ (q ∈ handed W' <-> q ∈ handed W) /\ (q ∈ retiring W' <-> q ∈ retiring W)) ->
  world_inv W' m'.
Proof.
  intros Hph HR HD Hp Hq. split_and!; [done|done|]. intros q. destruct (decide (p = q)) as [<-|Hne]; [done|].
  destruct (Hq q Hne) as (E1 & E2 & E3 & E4).
  destruct (Hph q); [eapply phase_untracked|eapply phase_held|eapply phase_handed|eapply phase_retiring]; rewrite ?E1, ?E2, ?E3, ?E4; done.
Qed.

Ltac elsewhere :=
  let q := fresh "q" in let Hne := fresh in
  intros q Hne; cbn [registry owners handed retiring]; unfold owned, set_owned; cbn [owners];
  rewrite ?lookup_insert_ne, ?lookup_delete_ne, ?lookup_alter_ne by done; split_and!; [done|done|set_solver|set_solver].

Ltac here := cbn [registry owners handed retiring]; unfold owned, set_owned in *; cbn [owners] in *;
  rewrite ?lookup_insert_eq, ?lookup_delete_eq, ?lookup_alter_eq; cbn; try done; try lia.

Lemma world_step_inv W W' m : world_inv W m -> world_step W W' -> exists m', world_inv W' m'.
Proof.
  intros (HR & HD & HP) H.
  destruct H as [W p m1 m2 R' L Hn Hreg|W p m1 m2 R' L Hn Hreg|W p L Hp|W p L Hp|W p R' old L Hp Hd|W p l1 l2 Hl];
    pose proof (HP p) as HPp.
  - apply (untracked _ _ _ HR L) in Hn. pose proof (register_spec m1 m2 p 1 _ _ HR L Hn) as S.
    unfold vyb_string_register in Hreg. rewrite Hreg in S. destruct S as [S _].
    exists (<[p := 1]> m). apply (world_frame W _ m _ p HP); [done|done| |elsewhere].
    destruct HPp; [|congruence..]. apply phase_held; here.
  - apply (untracked _ _ _ HR L) in Hn. pose proof (register_spec m1 m2 p 0 _ _ HR L Hn) as S.
    unfold vyb_string_register_borrowed in Hreg. rewrite Hreg in S. destruct S as [S _].
    exists (<[p := 0]> m). apply (world_frame W _ m _ p HP); [done|done| |elsewhere].
    destruct HPp; [|congruence..]. apply phase_handed; here; set_solver.
  - destruct (retain_spec _ _ p HR L) as [S _]. eexists. apply (world_frame W _ m _ p HP); [exact S|done| |unfold spec_retain; elsewhere].
    destruct HPp as [| |Hm _ _ Ht|]; [done|done| |done]. unfold spec_retain.
    apply phase_held; here; [by rewrite Hm|set_solver].
  - destruct (retain_spec _ _ p HR L) as [S _]. eexists. apply (world_frame W _ m _ p HP); [exact S|done| |unfold spec_retain; elsewhere].
    destruct HPp as [|Hm _ Hh Ht| |]; [lia| |lia..]. unfold spec_retain.
    apply phase_held; here. rewrite Hm. unfold owned. cbn. f_equal. lia.
  - destruct HPp as [|Hm _ Hh Ht| |]; [lia| |lia..]. pose proof (decrement_spec _ _ p HR L) as S. rewrite Hm in S.
    destruct S as (R2 & E & S & _). rewrite E in Hd. simplify_eq. eexists.
    apply (world_frame W _ m _ p HP); [exact S| | |case_bool_decide; elsewhere].
    + cbn. case_bool_decide; [by constructor|done].
    + case_bool_decide as Hb; [apply phase_retiring|apply phase_held]; here; try (f_equal; lia); try set_solver.
      * simplify_eq. f_equal. lia.
      * simplify_eq. lia.
      * destruct (default 0%nat (owners W !! p)) as [|[|]] eqn:E2; [lia|done|lia].
  - assert (Hin : p ∈ retiring W) by (rewrite Hl; set_solver). destruct HPp as [| | |Hm Ho Hh _]; [done..|].
    assert (L : live_ptr p) by (eapply represents_live; [apply (ok_counts _ _ HR)|done]).
    destruct (retire_spec _ _ p 0 HR L Hm) as [S _]. rewrite Hl in HD. apply NoDup_app in HD as HD'. destruct HD' as (N1 & N2 & N3).
    apply NoDup_cons in N3 as [N3 N4].
    eexists. apply (world_frame W _ m _ p HP); [exact S| | |].
    + cbn. apply NoDup_app. split_and!; [done|set_solver|done].
    + apply phase_untracked; here. set_solver.
    + intros q Hne. cbn. rewrite Hl, lookup_delete_ne by done. split_and!; [done|done|done|set_solver].
Qed.

Lemma start_inv R : reg_ok R ∅ -> world_inv (start_world R) ∅.
Proof. intros H. split_and!; [done|constructor|]. intros p. apply phase_untracked; [done|done|set_solver|set_solver]. Qed.

Lemma reachable_inv R W : reg_ok R ∅ -> rtc world_step (start_world R) W -> exists m, world_inv W m.
Proof.
  intros H Hr. assert (S : exists m, world_inv (start_world R) m) by (eexists; by apply start_inv).
  induction Hr as [W|W W1 W2 Hs _ IH]; [done|]. destruct S as [m Hm]. apply IH. by eapply world_step_inv.
Qed.

(** Only the retirement of a slot frees, and it frees the buffer it retires. *)
Lemma step_frees W W' m : world_inv W m -> world_step W W' ->
  freed (registry W') = freed (registry W)
  \/ exists p, p ∈ retiring W /\ freed (registry W') = p :: freed (registry W).
Proof.
  intros (HR & HD & HP) H.
  destruct H as [W p m1 m2 R' L Hn Hreg|W p m1 m2 R' L Hn Hreg|W p L Hp|W p L Hp|W p R' old L Hp Hd|W p l1 l2 Hl]; cbn.
  1,2: apply (untracked _ _ _ HR L) in Hn; unfold vyb_string_register, vyb_string_register_borrowed in Hreg;
    match type of Hreg with vyb_string_register_refs _ _ _ ?r _ = _ => pose proof (register_spec m1 m2 p r _ _ HR L Hn) as S end;
    rewrite Hreg in S; left; by destruct S.
  1,2: left; by apply (retain_spec _ m).
  - left. pose proof (decrement_spec _ _ p HR L) as S. destruct (m !! p); [|by rewrite S in Hd; simplify_eq].
    destruct S as (R2 & E & _ & F). rewrite E in Hd. by simplify_eq.
  - assert (Hin : p ∈ retiring W) by (rewrite Hl; set_solver). destruct (HP p) as [| | |Hm Ho Hh _]; [done..|].
    assert (L : live_ptr p) by (eapply represents_live; [apply (ok_counts _ _ HR)|done]).
    right. exists p. split; [done|]. by apply (retire_spec _ m p 0).
Qed.


(** A string registered, shared and released twice: freed once. *)
Definition shared_once : World :=
  mkWorld (after_register 0x1280 (sample_registry 4)) (set_owned 0x1280 1%nat ∅) ∅ [].


(** ** The reader guard

    [vyb_str_rdr_enter] adds itself to [vyb_str_rdrs], then looks at
    [vyb_str_growing]; the thread that rehashes stores 1 to [vyb_str_growing],
    then waits for [vyb_str_rdrs] to be 0. Tables are numbered: a rehash
    publishes the next one and frees the one before. *)

Inductive reader : Type :=
| Outside              (* at the top of the loop of rdr_enter, or not in it *)
| Counted              (* after the fetch_add *)
| Refused              (* saw growing set, before the fetch_sub *)
| Spinning             (* in the inner loop *)
| Entered              (* rdr_enter returned *)
| Probing (table : nat). (* loaded the table and walks it *)

Inductive grower : Type := NotGrowing | Draining | Copying | Published.

#[global] Instance reader_eq_dec : EqDecision reader.
Proof. solve_decision. Defined.
#[global] Instance grower_eq_dec : EqDecision grower.
Proof. solve_decision. Defined.

Record Guard : Type := mkGuard {
  growing : bool;             (* the flag in memory *)
  pending : list bool;        (* stores to the flag the grower's core still buffers *)
  rdrs : nat;
  current : nat;
  released : nat;             (* tables below this number are freed *)
  readers : list reader;
  growth : grower
}.

(** Which readers the counter counts. *)
Definition counted (r : reader) : nat :=
  match r with Counted | Refused | Entered | Probing _ => 1 | Outside | Spinning => 0 end.

(** One move of a reader: its next place and the counter's. *)
Inductive reader_move (G : Guard) : reader -> reader -> nat -> Prop :=
| enter_add : reader_move G Outside Counted (S (rdrs G))
| enter_pass : growing G = false -> reader_move G Counted Entered (rdrs G)
| enter_refuse : growing G = true -> reader_move G Counted Refused (rdrs G)
| enter_sub : reader_move G Refused Spinning (rdrs G - 1)
| spin_again : growing G = false -> reader_move G Spinning Outside (rdrs G)
| load_table : reader_move G Entered (Probing (current G)) (rdrs G)
| leave v : reader_move G (Probing v) Outside (rdrs G - 1).

(** A store of the grower to the flag is a release: it may wait in the buffer
    of its core while the core goes on. *)
Definition store_growing (b : bool) (G : Guard) (g : grower) : Guard :=
  mkGuard (growing G) (pending G ++ [b]) (rdrs G) (current G) (released G) (readers G) g.

Inductive guard_step : Guard -> Guard -> Prop :=
| guard_reader G i r r' n :
    readers G !! i = Some r -> reader_move G r r' n ->
    guard_step G (mkGuard (growing G) (pending G) n (current G) (released G) (<[i := r']> (readers G)) (growth G))
| guard_flush G b bs :
    pending G = b :: bs ->
    guard_step G (mkGuard b bs (rdrs G) (current G) (released G) (readers G) (growth G))
| guard_announce G :
    growth G = NotGrowing -> guard_step G (store_growing true G Draining)
| guard_drained G :
    growth G = Draining -> rdrs G = 0%nat ->
    guard_step G (mkGuard (growing G) (pending G) (rdrs G) (current G) (released G) (readers G) Copying)
| guard_publish G :
    growth G = Copying ->
    guard_step G (store_growing false
      (mkGuard (growing G) (pending G) (rdrs G) (S (current G)) (released G) (readers G) (growth G)) Published)
| guard_free G :
    growth G = Published ->
    guard_step G (mkGuard (growing G) (pending G) (rdrs G) (current G) (current G) (readers G) NotGrowing).

Definition start_guard (n : nat) : Guard := mkGuard false [] 0 0 0 (replicate n Outside) NotGrowing.

(** The counter counts. *)
Definition counts (G : Guard) : Prop := rdrs G = sum_list_with counted (readers G).

Lemma sum_insert (f : reader -> nat) l i x y : l !! i = Some x ->
  (sum_list_with f (<[i := y]> l) + f x = sum_list_with f l + f y)%nat.
Proof.
  revert i. induction l as [|a l IH]; intros [|i] H; try done.
  - injection H as ->. change (<[0%nat:=y]> (x :: l)) with (y :: l). cbn [sum_list_with]. lia.
  - specialize (IH i H). change (<[S i:=y]> (a :: l)) with (a :: <[i:=y]> l). cbn [sum_list_with]. lia.
Qed.

Lemma sum_counted l r : r ∈ l -> (counted r <= sum_list_with counted l)%nat.
Proof. induction 1 as [r l|r s l _ IH]; cbn; [lia|]. etransitivity; [exact IH|]. lia. Qed.

Lemma in_insert (l : list reader) (i : nat) (x y r : reader) : l !! i = Some x -> r ∈ <[i := y]> l -> r = y \/ r ∈ l.
Proof.
  intros Hi [j Hj]%list_elem_of_lookup_1. apply list_lookup_insert_Some in Hj as [(_ & -> & _)|(_ & Hj)]; [by left|right].
  by eapply list_elem_of_lookup_2.
Qed.

Lemma reader_counts G i r r' n : readers G !! i = Some r -> reader_move G r r' n -> counts G ->
  n = sum_list_with counted (<[i := r']> (readers G)).
Proof.
  intros Hi Hm HC. pose proof (sum_insert counted _ i r r' Hi) as S.
  pose proof (sum_counted _ _ (list_elem_of_lookup_2 _ _ _ Hi)) as B. unfold counts in HC. destruct Hm; cbn in *; lia.
Qed.

Lemma guard_step_counts G G' : guard_step G G' -> counts G -> counts G'.
Proof. intros H C. destruct H; try done. by apply (reader_counts G i r r' n). Qed.

Lemma start_counts n : counts (start_guard n).
Proof. unfold counts. cbn. induction n; cbn; [done|]. by rewrite <- IHn. Qed.

Lemma guard_reach_counts n G : rtc guard_step (start_guard n) G -> counts G.
Proof.
  intros H. pose proof (start_counts n) as I. induction H as [|G G1 G2 Hs _ IH]; [done|]. apply IH. by eapply guard_step_counts.
Qed.

(** ** The guard where the store is not late

    In an execution where the store that announces a rehash has left the buffer
    when the grower sees no readers, nobody is inside while the table is copied
    and nobody walks a freed table. *)
Definition timely_step (G G' : Guard) : Prop :=
  guard_step G G' /\ (growth G = Draining -> growth G' = Copying -> pending G = []).

Record guard_inv (G : Guard) : Prop := {
  guard_count : counts G;
  guard_flag : growth G = Draining -> last (growing G :: pending G) = Some true;
  guard_copying : growth G = Copying -> growing G = true /\ pending G = [] /\ forall r, r ∈ readers G -> r <> Entered /\ forall v, r <> Probing v;
  guard_tables : forall v, Probing v ∈ readers G -> v = current G;
  guard_released : (released G <= current G)%nat
}.

Lemma guard_step_inv G G' : guard_inv G -> timely_step G G' -> guard_inv G'.
Proof.
  intros [HC HF HD HV HL] [H T]. pose proof (guard_step_counts _ _ H HC) as HC'. destruct H as [G i r r' n Hi Hm|G b bs Hb|G Hg|G Hg H0|G Hg|G Hg]; split; cbn in *; try done.
  - intros Hg. destruct (HD Hg) as (E1 & E2 & N). split_and!; [done..|]. intros r0 Hr0. apply (in_insert _ _ _ _ _ Hi) in Hr0 as [->|Hr0]; [|by apply N].
    destruct (N r (list_elem_of_lookup_2 _ _ _ Hi)) as [N1 N2]. destruct Hm; try done. congruence.
  - intros v Hv. apply (in_insert _ _ _ _ _ Hi) in Hv as [Hv|Hv]; [|by apply HV]. subst r'. inversion Hm; subst; done.
  - intros Hg. specialize (HF Hg). rewrite Hb in HF. by destruct bs.
  - intros Hg. destruct (HD Hg) as (_ & E & _). congruence.
  - intros _. by rewrite app_comm_cons, last_snoc.
  - intros _. specialize (T Hg eq_refl). split_and!; [|done|].
    + specialize (HF Hg). rewrite T in HF. by injection HF.
    + intros r Hr. pose proof (sum_counted _ _ Hr) as B. unfold counts in HC. rewrite <- HC, H0 in B. destruct r; cbn in B; (lia || done).
  - intros v Hv. destruct (HD Hg) as (_ & _ & N). by destruct (N _ Hv) as [_ Hno], (Hno v).
  - lia.
Qed.

Lemma guard_start n : guard_inv (start_guard n).
Proof. split; cbn; try done; [apply start_counts|]. intros v Hv. apply elem_of_replicate in Hv. naive_solver. Qed.

Lemma guard_excludes_readers n G : rtc timely_step (start_guard n) G ->
  (growth G = Copying -> forall r, r ∈ readers G -> r <> Entered /\ forall v, r <> Probing v)
  /\ (forall v, Probing v ∈ readers G -> v = current G /\ (released G <= v)%nat).
Proof.
  intros H. assert (I : guard_inv G).
  { pose proof (guard_start n) as I. induction H as [|G G1 G2 Hs _ IH]; [done|]. apply IH. by eapply guard_step_inv. }
  split; [intros Hg; by apply guard_copying|]. intros v Hv. rewrite (guard_tables _ I v Hv). split; [done|apply I].
Qed.

(** Nothing in the code makes the store timely: it stores the flag with
    [memory_order_release] and then loads the count with [memory_order_acquire],
    and that order lets the store wait in the buffer past the load. A reader then passes the guard after the grower saw
    no readers, and still walks the old table when the grower frees it. *)
Example released_store_race :
  rtc guard_step (start_guard 1) (mkGuard false [true; false] 1 1 1 [Probing 0] NotGrowing).
Proof.
  eapply rtc_l; [by apply guard_announce|]. eapply rtc_l; [by apply guard_drained|].
  eapply rtc_l; [by eapply (guard_reader _ 0%nat); [|by apply enter_add]|].
  eapply rtc_l; [by eapply (guard_reader _ 0%nat); [|by apply enter_pass]|].
  eapply rtc_l; [by eapply (guard_reader _ 0%nat); [|by apply load_table]|].
  eapply rtc_l; [by apply guard_publish|]. eapply rtc_l; [by apply guard_free|]. reflexivity.
Qed.

(** *** Draining ends *)

(** The moves a reader has left while the flag is set. *)
Definition moves_left (r : reader) : nat :=
  match r with
  | Spinning => 0 | Refused => 1 | Counted => 2 | Outside => 3 | Probing _ => 4 | Entered => 5
  end.
Definition drain_measure (G : Guard) : nat := sum_list_with moves_left (readers G).

Inductive drain_step : Guard -> Guard -> Prop :=
| drain_move G i r r' n :
    readers G !! i = Some r -> reader_move G r r' n ->
    drain_step G (mkGuard (growing G) (pending G) n (current G) (released G) (<[i := r']> (readers G)) (growth G)).

Lemma drain_decreases G G' : growing G = true -> drain_step G G' -> growing G' = true /\ (drain_measure G' < drain_measure G)%nat.
Proof.
  intros Hg H. destruct H as [G i r r' n Hi Hm]. split; [done|]. unfold drain_measure. cbn.
  pose proof (sum_insert moves_left _ i r r' Hi) as S. destruct Hm; cbn in *; try congruence; lia.
Qed.

Lemma someone_counted l : sum_list_with counted l <> 0%nat -> exists i r, l !! i = Some r /\ counted r = 1%nat.
Proof.
  induction l as [|a l IH]; cbn; [done|]. intros H. destruct (counted a) eqn:E.
  - destruct IH as (i & r & Hi & Hr); [lia|]. by exists (S i), r.
  - exists 0%nat, a. split; [done|]. destruct a; cbn in *; lia.
Qed.

Lemma drain_length k : forall G G', growing G = true -> nsteps drain_step k G G' -> (k + drain_measure G' <= drain_measure G)%nat.
Proof.
  induction k as [|k IH]; intros G G' F Hk; inversion Hk; subst; [lia|].
  destruct (drain_decreases _ _ F H0) as [F' D]. specialize (IH _ _ F' H1). lia.
Qed.

Lemma measure_bound l : (sum_list_with moves_left l <= 5 * length l)%nat.
Proof. induction l as [|r l IH]; cbn; [lia|]. destruct r; cbn; lia. Qed.

Lemma drain_counts k : forall G G', counts G -> nsteps drain_step k G G' -> counts G'.
Proof.
  induction k as [|k IH]; intros G G' C Hk; inversion Hk; subst; [done|]. eapply IH; [|done]. destruct H0. by apply (reader_counts G i r r' n).
Qed.

Lemma drain_progress G : counts G -> rdrs G <> 0%nat -> exists G', drain_step G G'.
Proof.
  intros C Hr. rewrite C in Hr. destruct (someone_counted _ Hr) as (i & r & Hi & Hc).
  assert (M : exists r' c, reader_move G r r' c).
  { destruct r; try done; try by (eexists _, _; constructor).
    destruct (growing G) eqn:E; [exists Refused, (rdrs G)|exists Entered, (rdrs G)]; by constructor. }
  destruct M as (r' & c & M). eexists. by eapply drain_move.
Qed.

Lemma drain_ends G : growing G = true -> counts G -> exists k G', nsteps drain_step k G G' /\ rdrs G' = 0%nat.
Proof.
  remember (drain_measure G) as m eqn:E. revert G E. induction m as [m IH] using lt_wf_ind. intros G -> F C.
  destruct (decide (rdrs G = 0%nat)) as [Z|N]; [exists 0%nat, G; by split; [constructor|]|].
  destruct (drain_progress G C N) as [G1 Hs]. destruct (drain_decreases _ _ F Hs) as [F1 D].
  destruct (IH _ D G1 eq_refl F1) as (k & G' & Hk & Z).
  { destruct Hs. by apply (reader_counts G i r r' n). }
  exists (S k), G'. split; [|done]. by econstructor.
Qed.

(** C25: The grower's wait for the readers ends. In every state the code can
    reach while a rehash drains, with the store to the flag arrived in memory:
    each reader can still make at most five moves before it spins, whatever the
    schedule; as long as the count the grower waits on is not zero some reader can
    move; and when none can, the count is zero. *)
Theorem drain_terminates n G : rtc guard_step (start_guard n) G -> growth G = Draining -> growing G = true ->
  (forall k G', nsteps drain_step k G G' -> (k <= 5 * length (readers G))%nat)
  /\ (forall k G', nsteps drain_step k G G' -> rdrs G' <> 0%nat -> exists G'', drain_step G' G'')
  /\ (exists k G', nsteps drain_step k G G' /\ rdrs G' = 0%nat).
Proof.
  intros H _ F. pose proof (guard_reach_counts n G H) as C. clear H.
  assert (L : forall k G', nsteps drain_step k G G' -> (k + drain_measure G' <= drain_measure G)%nat) by (intros; by apply drain_length).
  assert (P : forall k G', nsteps drain_step k G G' -> rdrs G' <> 0%nat -> exists G'', drain_step G' G'').
  { intros k G' Hk. apply drain_progress. by eapply drain_counts. }
  split_and!; [|exact P|by apply drain_ends].
  intros k G' Hk. pose proof (L k G' Hk). pose proof (measure_bound (readers G)). unfold drain_measure in *. lia.
Qed.

Lemma drain_terminates_witness :
  exists k G', nsteps drain_step k (mkGuard true [] 1 0 0 [Counted] Draining) G' /\ rdrs G' = 0%nat.
Proof.
  apply (drain_terminates 1 (mkGuard true [] 1 0 0 [Counted] Draining)); [|done|done].
  eapply rtc_l; [by apply guard_announce|]. eapply rtc_l; [by eapply guard_flush|].
  eapply rtc_l; [by eapply (guard_reader _ 0%nat); [|by apply enter_add]|]. reflexivity.
Defined.
