(* ===== verification/Channel.v ===== *)
(** * Channels

    The bounded and unbounded channels of runtime/vyb_runtime.c: a ring buffer
    with a head and a size, under one mutex, with a condition variable the
    receivers wait on; the String channels, whose slots own a reference of the
    string registry; one-shot tasks, which deliver their result through a
    channel of capacity one; and select.

    An operation runs under the mutex, so it is one function from the heap of
    channels to the heap and its result. A result can be [Blocked] (the
    operation waits on the condition variable) or [Undefined] (an access
    outside the buffer, or to a channel that is not allocated). *)

From S2P Require Import Prelude.
From S2P Require Import Words.
From S2P Require Import StrRegistry.
#[local] Open Scope Z_scope.

Inductive outcome (A : Type) : Type :=
| Done (a : A)
| Blocked
| Undefined.
Arguments Done {A} a.
Arguments Blocked {A}.
Arguments Undefined {A}.

(** A slot of fresh memory holds no value yet. *)
Record vyb_chan (A : Type) : Type := mkChan {
  buf : list (option A);
  head : Z;
  size : Z;
  cap : Z;
  bounded : bool;
  closed : bool
}.
Arguments mkChan {A} _ _ _ _ _ _.
Arguments buf {A} _.
Arguments head {A} _.
Arguments size {A} _.
Arguments cap {A} _.
Arguments bounded {A} _.
Arguments closed {A} _.

(** [malloc(sz * n)]: the product is a [size_t], and no allocation is larger
    than [PTRDIFF_MAX]. *)
Definition PTRDIFF_MAX : Z := 2 ^ 63 - 1.
Definition malloc_ok (memory : bool) (sz n : Z) : bool := memory && (u64 (sz * n) <=? PTRDIFF_MAX).
Definition fresh_buf {A} (sz n : Z) : list (option A) := replicate (Z.to_nat (u64 (sz * n) / sz)) None.

Definition read_buf {A} (b : list (option A)) (i : Z) : outcome A :=
  match b !! Z.to_nat i with Some (Some v) => Done v | _ => Undefined end.
Definition write_buf {A} (b : list (option A)) (i : Z) (v : A) : outcome (list (option A)) :=
  if Z.of_nat (length b) <=? i then Undefined else Done (<[Z.to_nat i := Some v]> b).

(** The body of [vyb_chan_new] and [vyb_strchan_new] once the struct, its mutex
    and its condition variable exist. *)
Definition chan_init {A} (sz : Z) (memory : bool) (capacity : Z) : option (vyb_chan A) :=
  let bnd := 0 <? capacity in
  let initial := if bnd then u64 capacity else 8 in
  if malloc_ok memory sz initial then Some (mkChan (fresh_buf sz initial) 0 0 initial bnd false) else None.

(** [for (i = 0; i < size; ++i) nb[i] = buf[(head + i) % cap];] *)
Definition copy_ring {A} (sz ncap : Z) (c : vyb_chan A) : list (option A) :=
  let nb := fresh_buf sz ncap in
  ((fun i => default None (buf c !! Z.to_nat ((head c + Z.of_nat i) mod cap c))) <$> seq 0 (Z.to_nat (size c)))
  ++ drop (Z.to_nat (size c)) nb.

Definition chan_grow {A} (sz : Z) (memory : bool) (c : vyb_chan A) : option (vyb_chan A) :=
  let ncap := if 0 <? cap c then cap c * 2 else 8 in
  if malloc_ok memory sz ncap then Some (mkChan (copy_ring sz ncap c) 0 (size c) ncap (bounded c) (closed c)) else None.

(** [buf[(head + size) % cap] = v; size++;] *)
Definition chan_put {A} (v : A) (c : vyb_chan A) : outcome (vyb_chan A) :=
  match write_buf (buf c) ((head c + size c) mod cap c) v with
  | Done b => Done (mkChan b (head c) (size c + 1) (cap c) (bounded c) (closed c))
  | _ => Undefined
  end.

(** [v = buf[head]; head = (head + 1) % cap; size--;] *)
Definition chan_take {A} (c : vyb_chan A) : outcome (A * vyb_chan A) :=
  match read_buf (buf c) (head c) with
  | Done v => Done (v, mkChan (buf c) ((head c + 1) mod cap c) (size c - 1) (cap c) (bounded c) (closed c))
  | _ => Undefined
  end.

(** The locked part of a send: the value is stored or refused. *)
Definition chan_send {A} (sz : Z) (memory : bool) (v : A) (c : vyb_chan A) : outcome (bool * vyb_chan A) :=
  let store c := match chan_put v c with Done c' => Done (true, c') | _ => Undefined end in
  if closed c then Done (false, c)
  else if bounded c && (cap c <=? size c) then Done (false, c)
  else if negb (bounded c) && (size c =? cap c) then
    match chan_grow sz memory c with Some c' => store c' | None => Done (false, c) end
  else store c.

(** The locked part of a receive: [wait] is whether it waits for a value. *)
Definition chan_recv {A} (wait : bool) (c : vyb_chan A) : outcome (option A * vyb_chan A) :=
  if (size c =? 0) && wait && negb (closed c) then Blocked
  else if size c =? 0 then Done (None, c)
  else match chan_take c with Done (v, c') => Done (Some v, c') | _ => Undefined end.

Definition chan_close {A} (c : vyb_chan A) : vyb_chan A :=
  mkChan (buf c) (head c) (size c) (cap c) (bounded c) true.

Definition chan_ready {A} (c : vyb_chan A) : bool := (0 <? size c) || closed c.

(** ** The ring as a queue *)

Record chan_ok {A} (sz : Z) (c : vyb_chan A) (q : list A) : Prop := {
  ring_len : Z.of_nat (length (buf c)) = cap c;
  ring_cap : 0 < cap c;
  ring_bytes : sz * cap c <= PTRDIFF_MAX;
  ring_head : 0 <= head c < cap c;
  ring_size : size c = Z.of_nat (length q);
  ring_fits : size c <= cap c;
  ring_slots : forall i v, q !! i = Some v -> buf c !! Z.to_nat ((head c + Z.of_nat i) mod cap c) = Some (Some v)
}.

Section Ring.
Context {A : Type} (sz : Z) (Hsz : 1 <= sz).
Implicit Types (c : vyb_chan A) (q : list A).

Lemma fresh_buf_len n : 0 <= n -> sz * n < 2 ^ 64 -> Z.of_nat (length (fresh_buf (A := A) sz n)) = n.
Proof.
  intros H0 H. unfold fresh_buf, u64. rewrite length_replicate, Z.mod_small by lia. rewrite Z.mul_comm, Z.div_mul by lia. lia.
Qed.

Lemma init_chan_ok memory capacity c : capacity < 2 ^ 63 -> (0 < capacity -> sz * capacity < 2 ^ 64) -> sz * 8 < 2 ^ 64 ->
  chan_init sz memory capacity = Some c ->
  chan_ok sz c [] /\ closed c = false /\ bounded c = (0 <? capacity) /\ (0 < capacity -> cap c = capacity).
Proof.
  intros H63 Hc H8. unfold chan_init, malloc_ok. set (initial := if 0 <? capacity then u64 capacity else 8).
  assert (E : 0 < initial /\ sz * initial < 2 ^ 64 /\ (0 < capacity -> initial = capacity)).
  { unfold initial. destruct (Z.ltb_spec 0 capacity) as [H|H]; [|lia].
    assert (E : u64 capacity = capacity) by (unfold u64; apply Z.mod_small; lia). rewrite E. auto. }
  destruct E as (E0 & E1 & E2). unfold u64. rewrite Z.mod_small by nia.
  destruct (Z.leb_spec (sz * initial) PTRDIFF_MAX); [|by rewrite andb_false_r]. destruct memory; [|done]. cbn. intros [= <-].
  split; [|done]. split; cbn; try done; try lia. apply fresh_buf_len; lia.
Qed.

Lemma put_ok c q v : chan_ok sz c q -> size c < cap c ->
  exists c', chan_put v c = Done c' /\ chan_ok sz c' (q ++ [v])
    /\ cap c' = cap c /\ bounded c' = bounded c /\ closed c' = closed c.
Proof.
  intros [HL HC HB HH HS HF HQ] Hroom. pose proof (Z.mod_pos_bound (head c + size c) (cap c) HC) as M.
  unfold chan_put, write_buf. destruct (Z.leb_spec (Z.of_nat (length (buf c))) ((head c + size c) mod cap c)); [lia|].
  eexists. split; [done|]. split; [|done]. split; cbn; try done.
  - by rewrite length_insert.
  - rewrite length_app. cbn. lia.
  - lia.
  - intros i w Hi. apply lookup_app_Some in Hi as [Hi|[Hge Hi]].
    + rewrite list_lookup_insert_ne; [by apply HQ|]. intros E. apply Z2Nat.inj in E; [|lia|apply Z.mod_pos_bound; lia].
      pose proof (lookup_lt_Some _ _ _ Hi).
      assert (D : (size c - Z.of_nat i) mod cap c = 0).
      { replace (size c - Z.of_nat i) with ((head c + size c) - (head c + Z.of_nat i)) by lia.
        rewrite Zminus_mod, E, Z.sub_diag. done. }
      rewrite Z.mod_small in D; lia.
    + apply list_lookup_singleton_Some in Hi as [Hi ->]. replace (Z.of_nat i) with (size c) by lia.
      apply list_lookup_insert_eq. lia.
Qed.

Lemma take_ok c q v : chan_ok sz c (v :: q) ->
  exists c', chan_take c = Done (v, c') /\ chan_ok sz c' q
    /\ cap c' = cap c /\ bounded c' = bounded c /\ closed c' = closed c.
Proof.
  intros [HL HC HB HH HS HF HQ]. unfold chan_take, read_buf.
  pose proof (HQ 0%nat v eq_refl) as H0. rewrite Z.add_0_r, Z.mod_small in H0 by lia. rewrite H0.
  eexists. split; [done|]. split; [|done]. split; cbn in *; try done; try lia.
  - by apply Z.mod_pos_bound.
  - intros i w Hi. rewrite Zplus_mod_idemp_l. replace (head c + 1 + Z.of_nat i) with (head c + Z.of_nat (S i)) by lia. by apply HQ.
Qed.

Lemma grow_ok c q memory : chan_ok sz c q ->
  match chan_grow sz memory c with
  | Some c' => malloc_ok memory sz (cap c * 2) = true /\ chan_ok sz c' q /\ cap c' = cap c * 2
      /\ bounded c' = bounded c /\ closed c' = closed c
  | None => malloc_ok memory sz (cap c * 2) = false
  end.
Proof.
  intros [HL HC HB HH HS HF HQ]. unfold chan_grow. rewrite (proj2 (Z.ltb_lt 0 (cap c)) HC).
  destruct (malloc_ok memory sz (cap c * 2)) eqn:Hm; [|done]. split; [done|]. split; [|done].
  assert (H2 : sz * (cap c * 2) <= PTRDIFF_MAX).
  { unfold malloc_ok, u64 in Hm. apply andb_true_iff in Hm as [_ Hm%Z.leb_le].
    rewrite Z.mod_small in Hm; [done|]. unfold PTRDIFF_MAX in HB. nia. }
  pose proof (fresh_buf_len (cap c * 2) ltac:(lia) ltac:(unfold PTRDIFF_MAX in H2; lia)) as FL. split; cbn; try done; try lia.
  - unfold copy_ring. rewrite length_app, length_fmap, length_seq, length_drop. lia.
  - intros i v Hi. pose proof (lookup_lt_Some _ _ _ Hi). change (0 + Z.of_nat i) with (Z.of_nat i).
    rewrite Z.mod_small by lia. rewrite Nat2Z.id.
    unfold copy_ring. rewrite lookup_app_l by (rewrite length_fmap, length_seq; lia).
    rewrite list_lookup_fmap, lookup_seq_lt by lia. cbn. by rewrite (HQ i v Hi).
Qed.

(** What a channel accepts: nothing once closed, up to its capacity when
    bounded, and whatever memory allows otherwise. *)
Definition accepts (memory : bool) (c : vyb_chan A) : bool :=
  negb (closed c) && (if bounded c then size c <? cap c else (size c <? cap c) || malloc_ok memory sz (cap c * 2)).

Lemma send_ok c q v memory : chan_ok sz c q ->
  exists c', chan_send sz memory v c = Done (accepts memory c, c')
    /\ chan_ok sz c' (if accepts memory c then q ++ [v] else q)
    /\ bounded c' = bounded c /\ closed c' = closed c /\ (bounded c = true -> cap c' = cap c).
Proof.
  intros H. pose proof (ring_fits _ _ _ H) as Hf. unfold chan_send, accepts. destruct (closed c) eqn:Hcl; [by exists c|].
  destruct (bounded c) eqn:Hb; cbn [negb andb].
  - destruct (Z.ltb_spec (size c) (cap c)) as [Hr|Hr].
    + rewrite (proj2 (Z.leb_gt _ _) Hr). destruct (put_ok c q v H Hr) as (c' & E & O & E1 & E2 & E3). rewrite E.
      exists c'. split_and!; congruence || done.
    + rewrite (proj2 (Z.leb_le _ _) Hr). by exists c.
  - destruct (Z.ltb_spec (size c) (cap c)) as [Hr|Hr]; cbn [orb].
    + rewrite (proj2 (Z.eqb_neq _ _)) by lia. destruct (put_ok c q v H Hr) as (c' & E & O & E1 & E2 & E3). rewrite E.
      exists c'. split_and!; congruence || done.
    + rewrite (proj2 (Z.eqb_eq _ _)) by lia. pose proof (grow_ok c q memory H) as G.
      destruct (chan_grow sz memory c) as [c1|]; [|by rewrite G; exists c]. destruct G as (-> & G & G1 & G2 & G3).
      assert (R1 : size c1 < cap c1).
      { rewrite G1, (ring_size _ _ _ G), <- (ring_size _ _ _ H). pose proof (ring_cap _ _ _ H). lia. }
      destruct (put_ok c1 q v G R1) as (c' & E & O & E1 & E2 & E3). rewrite E. exists c'. split_and!; congruence || done.
Qed.

Lemma recv_ok c q wait : chan_ok sz c q ->
  match q with
  | [] => chan_recv wait c = if wait && negb (closed c) then Blocked else Done (None, c)
  | v :: q' => exists c', chan_recv wait c = Done (Some v, c') /\ chan_ok sz c' q'
      /\ bounded c' = bounded c /\ closed c' = closed c /\ cap c' = cap c
  end.
Proof.
  intros H. pose proof (ring_size _ _ _ H) as S. unfold chan_recv. destruct q as [|v q]; cbn in S.
  - change (Z.of_nat 0) with 0 in S. rewrite S, Z.eqb_refl. by destruct wait, (closed c).
  - rewrite (proj2 (Z.eqb_neq _ _)) by lia. cbn [andb]. destruct (take_ok c q v H) as (c' & -> & O & E1 & E2 & E3).
    exists c'. done.
Qed.

Lemma close_ok c q : chan_ok sz c q -> chan_ok sz (chan_close c) q.
Proof. intros [? ? ? ? ? ? ?]. by split. Qed.
End Ring.

(** ** Int channels

    A handle is the address of the struct; 0 is no handle. *)

Notation Heap := (gmap Z (vyb_chan Z)).

(** [a] is the address [calloc] returned, 0 when it failed. *)
Definition vyb_chan_new (a : Z) (mutex_ok cond_ok memory : bool) (capacity : Z) (H : Heap) : Z * Heap :=
  if a =? 0 then (0, H)
  else if negb mutex_ok then (0, H)
  else if negb cond_ok then (0, H)
  else match chan_init 8 memory capacity with
       | Some c => (a, <[a := c]> H)
       | None => (0, H)
       end.

(** An operation on the channel a handle names. *)
Definition with_chan {R} (ch : Z) (H : Heap) (bad : R) (f : vyb_chan Z -> outcome (R * vyb_chan Z)) : outcome (R * Heap) :=
  if ch =? 0 then Done (bad, H)
  else match H !! ch with
       | None => Undefined
       | Some c => match f c with
                   | Done (r, c') => Done (r, <[ch := c']> H)
                   | Blocked => Blocked
                   | Undefined => Undefined
                   end
       end.

Definition map_result {R S A} (g : R -> S) (o : outcome (R * A)) : outcome (S * A) :=
  match o with Done (r, a) => Done (g r, a) | Blocked => Blocked | Undefined => Undefined end.

Definition vyb_chan_send (memory : bool) (ch v : Z) (H : Heap) : outcome (Z * Heap) :=
  with_chan ch H 0 (fun c => map_result (fun b : bool => if b then 1 else 0) (chan_send 8 memory v c)).

(** -1 stands for no value. *)
Definition vyb_chan_recv (ch : Z) (H : Heap) : outcome (Z * Heap) :=
  with_chan ch H (-1) (fun c => map_result (default (-1)) (chan_recv true c)).
Definition vyb_chan_try (ch : Z) (H : Heap) : outcome (Z * Heap) :=
  with_chan ch H (-1) (fun c => map_result (default (-1)) (chan_recv false c)).

(** The result and what is written to [*out]; [out] is false for a null
    pointer. *)
Definition present (r : option Z) : Z * option Z := (match r with Some _ => 1 | None => 0 end, r).
Definition vyb_chan_poll (ch : Z) (out : bool) (H : Heap) : outcome ((Z * option Z) * Heap) :=
  if negb out then Done ((0, None), H) else with_chan ch H (0, None) (fun c => map_result present (chan_recv false c)).
Definition vyb_chan_recv_opt (ch : Z) (out : bool) (H : Heap) : outcome ((Z * option Z) * Heap) :=
  if negb out then Done ((0, None), H) else with_chan ch H (0, None) (fun c => map_result present (chan_recv true c)).
Definition vyb_chan_try_opt (ch : Z) (out : bool) (H : Heap) : outcome ((Z * option Z) * Heap) := vyb_chan_poll ch out H.

Definition vyb_chan_len (ch : Z) (H : Heap) : outcome (Z * Heap) :=
  with_chan ch H (-1) (fun c => Done (s64 (size c), c)).
Definition vyb_chan_close (ch : Z) (H : Heap) : outcome (Z * Heap) :=
  with_chan ch H 0 (fun c => Done (1, chan_close c)).
Definition vyb_chan_free (ch : Z) (H : Heap) : outcome (Z * Heap) :=
  if ch =? 0 then Done (-1, H) else match H !! ch with None => Undefined | Some _ => Done (0, delete ch H) end.

(** ** A run of operations on one channel *)

Inductive chan_op : Type :=
| OpSend (memory : bool) (v : Z)
| OpRecv                       (* recv_opt *)
| OpPoll                       (* poll, try_opt *)
| OpClose.

(** What has happened on the channel: values accepted, values delivered. *)
Record History : Type := mkHistory { accepted : list Z; delivered : list Z }.

Definition run_op (ch : Z) (op : chan_op) (s : History * Heap) : outcome (History * Heap) :=
  let '(h, H) := s in
  let recv (o : outcome ((Z * option Z) * Heap)) :=
    match o with
    | Done ((_, Some v), H') => Done (mkHistory (accepted h) (delivered h ++ [v]), H')
    | Done ((_, None), H') => Done (h, H')
    | Blocked => Blocked
    | Undefined => Undefined
    end in
  match op with
  | OpSend memory v =>
      match vyb_chan_send memory ch v H with
      | Done (1, H') => Done (mkHistory (accepted h ++ [v]) (delivered h), H')
      | Done (_, H') => Done (h, H')
      | Blocked => Blocked
      | Undefined => Undefined
      end
  | OpRecv => recv (vyb_chan_recv_opt ch true H)
  | OpPoll => recv (vyb_chan_poll ch true H)
  | OpClose => match vyb_chan_close ch H with Done (_, H') => Done (h, H') | Blocked => Blocked | Undefined => Undefined end
  end.

(** A blocked receive leaves the channel to the other threads. *)
Fixpoint run_ops (ch : Z) (ops : list chan_op) (s : History * Heap) : outcome (History * Heap) :=
  match ops with
  | [] => Done s
  | op :: ops' =>
      match run_op ch op s with
      | Done s' => run_ops ch ops' s'
      | Blocked => run_ops ch ops' s
      | Undefined => Undefined
      end
  end.

Definition chan_at (ch : Z) (limit : option Z) (s : History * Heap) : Prop :=
  exists c q, s.2 !! ch = Some c /\ chan_ok 8 c q /\ accepted s.1 = delivered s.1 ++ q
    /\ bounded c = bool_decide (is_Some limit) /\ (forall n, limit = Some n -> cap c = n).

Lemma run_op_ok ch op limit s : ch <> 0 -> chan_at ch limit s ->
  match run_op ch op s with Done s' => chan_at ch limit s' | Blocked => op = OpRecv | Undefined => False end.
Proof.
  intros Hch (c & q & Hc & Hq & Ha & Hb & Hl). destruct s as [h H]. cbn in Hc, Ha.
  unfold run_op, vyb_chan_send, vyb_chan_recv_opt, vyb_chan_poll, vyb_chan_close, with_chan.
  rewrite (proj2 (Z.eqb_neq ch 0) Hch), Hc. cbn [negb]. destruct op as [memory v| | |].
  - destruct (send_ok 8 ltac:(lia) c q v memory Hq) as (c' & E & O & E1 & E2 & E3). rewrite E. 
    destruct (accepts 8 memory c); cbn; eexists c', _; cbn; rewrite lookup_insert_eq;
      (split_and!; [done|exact O| |congruence|]).
    1: by rewrite Ha, app_assoc. 2: done.
    all: intros n ->; rewrite E3 by (rewrite Hb; by apply bool_decide_eq_true_2); by apply Hl.
  - pose proof (recv_ok 8 c q true Hq) as R. destruct q as [|v q].
    + rewrite R. destruct (true && negb (closed c)); [done|]. cbn. exists c, []. cbn. by rewrite insert_id.
    + destruct R as (c' & -> & O & E1 & E2 & E3). cbn. exists c', q. cbn. rewrite lookup_insert_eq, Ha, <- app_assoc.
      split_and!; try done; [congruence|]. intros n Hn. rewrite E3. by apply Hl.
  - pose proof (recv_ok 8 c q false Hq) as R. destruct q as [|v q].
    + rewrite R. cbn. exists c, []. cbn. by rewrite insert_id.
    + destruct R as (c' & -> & O & E1 & E2 & E3). cbn. exists c', q. cbn. rewrite lookup_insert_eq, Ha, <- app_assoc.
      split_and!; try done; [congruence|]. intros n Hn. rewrite E3. by apply Hl.
  - cbn. exists (chan_close c), q. cbn. rewrite lookup_insert_eq. split_and!; try done. by apply close_ok.
Qed.

Lemma run_ops_ok ch ops limit : ch <> 0 -> forall s, chan_at ch limit s ->
  exists s', run_ops ch ops s = Done s' /\ chan_at ch limit s'.
Proof.
  intros Hch. induction ops as [|op ops IH]; intros s Hs; cbn; [by exists s|].
  pose proof (run_op_ok ch op limit s Hch Hs) as R. destruct (run_op ch op s) as [s'| |]; [by apply IH|by apply IH|done].
Qed.

Lemma new_at a capacity memory H H0 : - 2 ^ 63 <= capacity < 2 ^ 63 -> 8 * capacity < 2 ^ 64 -> a <> 0 ->
  vyb_chan_new a true true memory capacity H = (a, H0) ->
  chan_at a (if 0 <? capacity then Some capacity else None) (mkHistory [] [], H0).
Proof.
  intros R B Ha. unfold vyb_chan_new. rewrite (proj2 (Z.eqb_neq a 0) Ha). cbn [negb].
  destruct (chan_init 8 memory capacity) as [c|] eqn:E; [|intros [= ? _]; congruence]. intros [= <-].
  destruct (init_chan_ok 8 ltac:(lia) memory capacity c ltac:(lia) ltac:(lia) ltac:(lia) E) as (O & _ & Hb & Hc).
  exists c, []. cbn. rewrite lookup_insert_eq. split_and!; try done.
  - rewrite Hb. by destruct (0 <? capacity).
  - intros n. destruct (Z.ltb_spec 0 capacity); [|done]. intros [= <-]. auto.
Qed.

Lemma size_small (c : vyb_chan Z) (q : list Z) : chan_ok 8 c q -> s64 (size c) = Z.of_nat (length q).
Proof.
  intros O. destruct O as [HL HC HB HH HS HF HQ]. unfold PTRDIFF_MAX in HB. rewrite <- HS.
  apply s64_small. lia.
Qed.

(** C14: a channel is a FIFO queue. Whatever sends, receives, polls and closes
    run on a new channel, in any order, none of them touches memory outside
    the ring; the values accepted are the values delivered, in the same order,
    followed by those the channel still holds; the length reported is their
    number, and a bounded channel never holds more than its capacity. The
    capacity asked for is one whose cells, of eight bytes each, are fewer than
    [2^64] bytes. *)
Theorem channel_fifo a capacity memory H H0 ops :
  - 2 ^ 63 <= capacity < 2 ^ 63 -> 8 * capacity < 2 ^ 64 -> a <> 0 ->
  vyb_chan_new a true true memory capacity H = (a, H0) ->
  exists h H1 q, run_ops a ops (mkHistory [] [], H0) = Done (h, H1)
    /\ accepted h = delivered h ++ q
    /\ vyb_chan_len a H1 = Done (Z.of_nat (length q), H1)
    /\ (0 < capacity -> Z.of_nat (length q) <= capacity).
Proof.
  intros R B Ha E. destruct (run_ops_ok a ops _ Ha _ (new_at a capacity memory H H0 R B Ha E)) as ([h H1] & Er & S).
  destruct S as (c & q & Hc & O & Hq & Hb & Hl). exists h, H1, q. split_and!; [done|done| |].
  - unfold vyb_chan_len, with_chan. cbn in Hc. rewrite (proj2 (Z.eqb_neq a 0) Ha), Hc. rewrite (size_small _ _ O). by rewrite insert_id.
  - intros Hp. rewrite (proj2 (Z.ltb_lt _ _) Hp) in Hl. rewrite <- (Hl capacity eq_refl), <- (ring_size _ _ _ O). apply (ring_fits _ _ _ O).
Qed.

Lemma channel_fifo_witness :
  exists h H1 q, run_ops 64 [OpSend true 7; OpSend true 8; OpSend true 9; OpPoll; OpSend true (-1)]
      (mkHistory [] [], (vyb_chan_new 64 true true true 2 ∅).2) = Done (h, H1)
    /\ accepted h = [7; 8; -1] /\ delivered h = [7] /\ q = [8; -1].
Proof.
  destruct (channel_fifo 64 2 true ∅ (vyb_chan_new 64 true true true 2 ∅).2
    [OpSend true 7; OpSend true 8; OpSend true 9; OpPoll; OpSend true (-1)]) as (h & H1 & q & E & Hq & _); [lia|lia|done|by vm_compute|].
  exists h, H1, q. vm_compute in E. injection E as <- <-. cbn in *. injection Hq as <-. done.
Defined.

(** With a capacity whose buffer size wraps, the ring is larger than its
    memory: the second value is written past it. *)
Example capacity_wraps :
  match vyb_chan_new 64 true true true (2 ^ 61 + 1) ∅ with
  | (ch, H) => ch = 64 /\ match vyb_chan_send true ch 7 H with
                          | Done (r, H') => r = 1 /\ vyb_chan_send true ch 8 H' = Undefined
                          | _ => False
                          end
  end.
Proof. by vm_compute. Qed.

(** *** Closing *)

(** [n] receives, each of which must deliver. *)
Fixpoint receive_all (ch : Z) (n : nat) (H : Heap) : outcome (list Z * Heap) :=
  match n with
  | O => Done ([], H)
  | S n' =>
      match vyb_chan_recv_opt ch true H with
      | Done ((_, Some v), H') => map_result (cons v) (receive_all ch n' H')
      | Done ((_, None), _) => Undefined
      | Blocked => Blocked
      | Undefined => Undefined
      end
  end.

Lemma receive_all_ok ch q : ch <> 0 -> forall H c, H !! ch = Some c -> chan_ok 8 c q ->
  exists H' c', receive_all ch (length q) H = Done (q, H') /\ H' !! ch = Some c' /\ chan_ok 8 c' [] /\ closed c' = closed c.
Proof.
  intros Hch. induction q as [|v q IH]; intros H c Hc O; [by exists H, c|]. cbn [length receive_all].
  unfold vyb_chan_recv_opt, with_chan. cbn [negb]. rewrite (proj2 (Z.eqb_neq ch 0) Hch), Hc.
  destruct (recv_ok 8 c (v :: q) true O) as (c1 & -> & O1 & _ & E2 & _). cbn.
  destruct (IH (<[ch := c1]> H) c1) as (H' & c' & -> & E & O' & E'); [apply lookup_insert_eq|done|].
  exists H', c'. split_and!; [done|done|done|congruence].
Qed.

(** C37: closing a channel loses nothing and blocks nobody: later sends are
    refused, the values still in the channel are received in order, and every
    receive after them reports that the channel is drained instead of
    waiting. *)
Theorem close_drains ch H c q :
  ch <> 0 -> H !! ch = Some c -> chan_ok 8 c q ->
  exists H1 H2, vyb_chan_close ch H = Done (1, H1)
    /\ (forall memory v, vyb_chan_send memory ch v H1 = Done (0, H1))
    /\ receive_all ch (length q) H1 = Done (q, H2)
    /\ vyb_chan_recv_opt ch true H2 = Done ((0, None), H2)
    /\ vyb_chan_recv ch H2 = Done (-1, H2).
Proof.
  intros Hch Hc O. exists (<[ch := chan_close c]> H).
  destruct (receive_all_ok ch q Hch (<[ch := chan_close c]> H) (chan_close c) (lookup_insert_eq _ _ _) (close_ok _ _ _ O)) as (H2 & c2 & E & Hc2 & O2 & Cl).
  exists H2. assert (Hn := proj2 (Z.eqb_neq ch 0) Hch). pose proof (recv_ok 8 c2 [] true O2) as R. rewrite Cl in R. cbn in R.
  unfold vyb_chan_close, vyb_chan_send, vyb_chan_recv_opt, vyb_chan_recv, with_chan. cbn [negb]. rewrite Hn, Hc, Hc2, R. split_and!.
  - done.
  - intros memory v. rewrite lookup_insert_eq. cbn. by rewrite insert_insert_eq.
  - done.
  - cbn. by rewrite insert_id.
  - cbn. by rewrite insert_id.
Qed.

Definition two_buffered : vyb_chan Z := mkChan [Some 5; None; Some 3] 2 2 3 true false.

Lemma two_buffered_ok : chan_ok 8 two_buffered [3; 5].
Proof. split; cbn; try done; try lia. intros [|[|i]] v Hi; [by injection Hi as <-..|done]. Qed.

Lemma close_drains_witness :
  exists H1 H2, vyb_chan_close 64 {[ 64 := two_buffered ]} = Done (1, H1) /\ receive_all 64 2 H1 = Done ([3; 5], H2).
Proof.
  destruct (close_drains 64 {[ 64 := two_buffered ]} two_buffered [3; 5]) as (H1 & H2 & E1 & _ & E2 & _);
    [done|apply lookup_singleton_eq|apply two_buffered_ok|]. by exists H1, H2.
Defined.

(** ** Receivers and the condition variable

    Receivers that block in [pthread_cond_wait] leave the mutex; a send signals
    one of them, a close all of them, and a wait may end without a signal. A
    receiver that was woken checks the channel again under the mutex. *)

Inductive receiver : Type :=
| Checking                   (* before the check of the wait loop *)
| Waiting
| Woken                      (* out of the wait, before the check *)
| Received (r : option Z).

#[global] Instance receiver_eq_dec : EqDecision receiver.
Proof. solve_decision. Defined.

Inductive wake_step : vyb_chan Z * list receiver -> vyb_chan Z * list receiver -> Prop :=
| wake_send_signal c rs memory v c' i :
    chan_send 8 memory v c = Done (true, c') -> rs !! i = Some Waiting -> wake_step (c, rs) (c', <[i := Woken]> rs)
| wake_send_nobody c rs memory v c' :
    chan_send 8 memory v c = Done (true, c') -> Waiting ∉ rs -> wake_step (c, rs) (c', rs)
| wake_send_refused c rs memory v c' :
    chan_send 8 memory v c = Done (false, c') -> wake_step (c, rs) (c', rs)
| wake_check_wait c rs i r :
    rs !! i = Some r -> r = Checking \/ r = Woken -> chan_recv true c = Blocked -> wake_step (c, rs) (c, <[i := Waiting]> rs)
| wake_check_done c rs i r v c' :
    rs !! i = Some r -> r = Checking \/ r = Woken -> chan_recv true c = Done (v, c') ->
    wake_step (c, rs) (c', <[i := Received v]> rs)
| wake_again c rs i v : rs !! i = Some (Received v) -> wake_step (c, rs) (c, <[i := Checking]> rs)
| wake_try c rs v c' : chan_recv false c = Done (v, c') -> wake_step (c, rs) (c', rs)
| wake_spurious c rs i : rs !! i = Some Waiting -> wake_step (c, rs) (c, <[i := Woken]> rs)
| wake_close c rs : wake_step (c, rs) (chan_close c, (fun r => if decide (r = Waiting) then Woken else r) <$> rs).

Definition woken (rs : list receiver) : Z := Z.of_nat (length (filter (fun r => r = Woken) rs)).

Record wake_inv (s : vyb_chan Z * list receiver) : Prop := {
  wake_queue : exists q, chan_ok 8 s.1 q;
  wake_open : Waiting ∈ s.2 -> closed s.1 = false;
  wake_enough : Waiting ∈ s.2 -> size s.1 <= woken s.2
}.

Lemma woken_insert rs i x y : rs !! i = Some x ->
  woken (<[i := y]> rs) = woken rs + one_if (y = Woken) - one_if (x = Woken).
Proof.
  intros H. pose proof (filter_insert_length (fun r => r = Woken) rs i y x H) as E.
  unfold woken, one_if. repeat case_decide; lia.
Qed.

Lemma woken_nonneg rs : 0 <= woken rs.
Proof. unfold woken. lia. Qed.

Lemma waiting_insert (rs : list receiver) i x y : rs !! i = Some x -> y <> Waiting -> Waiting ∈ <[i := y]> rs -> Waiting ∈ rs.
Proof.
  intros Hi Hy [j Hj]%list_elem_of_lookup_1. apply list_lookup_insert_Some in Hj as [(_ & Hj & _)|(_ & Hj)]; [congruence|].
  by eapply list_elem_of_lookup_2.
Qed.

Lemma not_blocked_size c (q : list Z) v c' : chan_ok 8 c q -> chan_recv true c = Done (v, c') \/ chan_recv false c = Done (v, c') ->
  (exists q', chan_ok 8 c' q') /\ closed c' = closed c
  /\ (size c' = size c - 1 \/ size c = 0 /\ size c' = 0 /\ (chan_recv true c = Done (v, c') -> closed c = true)).
Proof.
  intros O H. pose proof (recv_ok 8 c q true O) as R1. pose proof (recv_ok 8 c q false O) as R2. destruct q as [|w q].
  - pose proof (ring_size _ _ _ O) as S. rewrite R1, R2 in H. assert (c' = c) as ->.
    { destruct (closed c); destruct H as [H|H]; cbn in H; simplify_eq; done. }
    split; [by exists []|]. split; [done|]. right. split_and!; [done|done|]. rewrite R1. by destruct (closed c).
  - destruct R1 as (c1 & E1 & O1 & _ & C1 & _), R2 as (c2 & E2 & O2 & _ & C2 & _). rewrite E1, E2 in H.
    pose proof (ring_size _ _ _ O) as S. pose proof (ring_size _ _ _ O1) as S1. pose proof (ring_size _ _ _ O2) as S2. cbn in *.
    destruct H as [H|H]; simplify_eq; (split; [by eexists|]; split; [done|left; lia]).
Qed.

Lemma wake_step_inv s s' : wake_inv s -> wake_step s s' -> wake_inv s'.
Proof.
  intros [[q O] HO HE] H.
  destruct H as [c rs memory v c' i Hs Hi|c rs memory v c' Hs Hi|c rs memory v c' Hs|c rs i r Hi Hr Hb|c rs i r v c' Hi Hr Hd|c rs i v Hi|c rs v c' Hd|c rs i Hi|c rs];
    cbn [fst snd] in *; pose proof (woken_nonneg rs).
  - destruct (send_ok 8 ltac:(lia) c q v memory O) as (c1 & E & O1 & _ & C1 & _). rewrite E in Hs. injection Hs as Ea ->. rewrite Ea in O1.
    assert (Hw : Waiting ∈ rs) by (by eapply list_elem_of_lookup_2).
    split; cbn [fst snd]; [by eexists|intros _; rewrite C1; auto|]. intros _. rewrite (woken_insert _ _ _ _ Hi). unfold one_if.
    specialize (HE Hw). rewrite (ring_size _ _ _ O1), length_app. change (length [v]) with 1%nat. rewrite (ring_size _ _ _ O) in HE.
    repeat case_decide; simplify_eq; lia.
  - destruct (send_ok 8 ltac:(lia) c q v memory O) as (c1 & E & O1 & _ & C1 & _). rewrite E in Hs. injection Hs as Ea ->.
    split; cbn [fst snd]; [by eexists|by intros ?%Hi..].
  - destruct (send_ok 8 ltac:(lia) c q v memory O) as (c1 & E & O1 & _ & C1 & _). rewrite E in Hs. injection Hs as Ea ->. rewrite Ea in O1.
    split; cbn [fst snd]; [by eexists|rewrite C1; auto|]. rewrite (ring_size _ _ _ O1), <- (ring_size _ _ _ O). auto.
  - pose proof (recv_ok 8 c q true O) as R. destruct q as [|w q]; [|by destruct R as (? & R & _); congruence].
    assert (Hc : closed c = false) by (rewrite R in Hb; by destruct (closed c)).
    split; cbn [fst snd]; [by eexists|done|]. intros _. rewrite (ring_size _ _ _ O). cbn. apply woken_nonneg.
  - destruct (not_blocked_size c q v c' O (or_introl Hd)) as (O' & C' & S).
    assert (Hin : Waiting ∈ <[i := Received v]> rs -> Waiting ∈ rs) by (by eapply waiting_insert).
    split; cbn [fst snd]; [done|intros Hw; rewrite C'; auto|]. intros Hw%Hin. rewrite (woken_insert _ _ _ _ Hi).
    specialize (HE Hw). specialize (HO Hw). unfold one_if. destruct S as [S|(S1 & S2 & S3)]; [repeat case_decide; simplify_eq; lia|].
    rewrite S3 in HO by done. done.
  - assert (Hin : Waiting ∈ <[i := Checking]> rs -> Waiting ∈ rs) by (by eapply waiting_insert).
    split; cbn [fst snd]; [by eexists|auto|]. intros Hw%Hin. rewrite (woken_insert _ _ _ _ Hi). unfold one_if. specialize (HE Hw). repeat case_decide; simplify_eq; lia.
  - destruct (not_blocked_size c q v c' O (or_intror Hd)) as (O' & C' & S).
    split; cbn [fst snd]; [done|intros Hw; rewrite C'; auto|]. intros Hw. specialize (HE Hw). lia.
  - assert (Hin : Waiting ∈ <[i := Woken]> rs -> Waiting ∈ rs) by (by eapply waiting_insert).
    split; cbn [fst snd]; [by eexists|auto|]. intros Hw%Hin. rewrite (woken_insert _ _ _ _ Hi). unfold one_if. specialize (HE Hw). repeat case_decide; simplify_eq; lia.
  - assert (N : Waiting ∉ ((fun r => if decide (r = Waiting) then Woken else r) <$> rs)).
    { intros (r & E & _)%list_elem_of_fmap. by case_decide. }
    split; cbn [fst snd]; [by eexists; apply close_ok|by intros ?%N..].
Qed.

Lemma wake_reach s s' : wake_inv s -> rtc wake_step s s' -> wake_inv s'.
Proof. intros I H. induction H as [|s s1 s2 Hs _ IH]; [done|]. apply IH. by eapply wake_step_inv. Qed.

Lemma wake_start c rs : chan_ok 8 c [] -> Waiting ∉ rs -> wake_inv (c, rs).
Proof. intros O N. split; [by eexists|by intros ?%N..]. Qed.

Lemma woken_pos rs : 0 < woken rs -> exists i, rs !! i = Some Woken.
Proof.
  unfold woken. intros H. destruct (filter (fun r => r = Woken) rs) as [|r l] eqn:E; [done|].
  assert (Hin : r ∈ filter (fun r => r = Woken) rs) by (rewrite E; left).
  apply list_elem_of_filter in Hin as [-> Hin]. by apply list_elem_of_lookup_1.
Qed.

(** C21: no wakeup is lost. Whatever the threads do on a channel, a receiver
    blocks only while the channel is open, and as long as one blocks, each
    value in the buffer has a woken receiver of its own, which takes a value
    when it next runs. So nobody sleeps beside a value that nobody fetches,
    and nobody sleeps on a closed channel. *)
Theorem no_lost_wakeup c0 rs0 c rs :
  chan_ok 8 c0 [] -> Waiting ∉ rs0 -> rtc wake_step (c0, rs0) (c, rs) -> Waiting ∈ rs ->
  closed c = false /\ size c <= woken rs
  /\ (0 < size c -> exists i v c', rs !! i = Some Woken /\ chan_recv true c = Done (Some v, c')
        /\ wake_step (c, rs) (c', <[i := Received (Some v)]> rs)).
Proof.
  intros O N H Hw. destruct (wake_reach _ _ (wake_start c0 rs0 O N) H) as [[q Oq] HO HE]. cbn [fst snd] in *.
  split_and!; [auto|auto|]. intros Hp. destruct (woken_pos rs) as [i Hi]; [specialize (HE Hw); lia|].
  pose proof (recv_ok 8 c q true Oq) as R. destruct q as [|v q].
  - rewrite (ring_size _ _ _ Oq) in Hp. done.
  - destruct R as (c' & E & _). exists i, v, c'. split_and!; [done|done|]. eapply wake_check_done; [done|by right|done].
Qed.

Definition empty_ring : vyb_chan Z := mkChan [None; None] 0 0 2 true false.

Lemma empty_ring_ok : chan_ok 8 empty_ring [].
Proof. by split. Qed.

(** Two receivers wait, one value arrives: one is woken. *)
Lemma no_lost_wakeup_witness :
  exists i v c', [Woken; Waiting] !! i = Some Woken
    /\ wake_step (mkChan [Some 5; None] 0 1 2 true false, [Woken; Waiting]) (c', <[i := Received (Some v)]> [Woken; Waiting]).
Proof.
  destruct (no_lost_wakeup empty_ring [Checking; Checking] (mkChan [Some 5; None] 0 1 2 true false) [Woken; Waiting])
    as (_ & _ & H).
  - apply empty_ring_ok.
  - set_solver.
  - eapply rtc_l; [by eapply (wake_check_wait _ _ 0%nat); [done|by left|]|].
    eapply rtc_l; [by eapply (wake_check_wait _ _ 1%nat); [done|by left|]|].
    eapply rtc_l; [by eapply (wake_send_signal _ _ true 5 _ 0%nat); [by vm_compute|]|]. reflexivity.
  - set_solver.
  - destruct H as (i & v & c' & Hi & _ & Hs); [done|]. by exists i, v, c'.
Defined.

(** ** Tasks

    The handle of a task is its result channel. [pthread_create] and the
    closure's run are parameters: [f] is the closure, applied to its
    environment. *)

Definition vyb_task_spawn (fn_ok : bool) (a : Z) (mutex_ok cond_ok memory task_memory thread_ok : bool) (H : Heap) : Z * Heap :=
  if negb fn_ok then (0, H)
  else
    let '(chan, H1) := vyb_chan_new a mutex_ok cond_ok memory 1 H in
    if chan =? 0 then (0, H1)
    else if negb task_memory || negb thread_ok then
      match vyb_chan_free chan H1 with Done (_, H2) => (0, H2) | _ => (0, H1) end
    else (chan, H1).

(** What the worker does to the channel when the closure returned [r]. *)
Definition vyb_task_trampoline (chan r : Z) (H : Heap) : outcome (Z * Heap) := vyb_chan_send true chan r H.

Definition vyb_task_await (task : Z) (H : Heap) : outcome (Z * Heap) :=
  if task =? 0 then Done (-1, H) else vyb_chan_recv task H.
Definition vyb_task_poll (task : Z) (H : Heap) : outcome (Z * Heap) :=
  if task =? 0 then Done (-1, H) else vyb_chan_try task H.
Definition vyb_task_poll_opt (task : Z) (out : bool) (H : Heap) : outcome ((Z * option Z) * Heap) :=
  if (task =? 0) || negb out then Done ((0, None), H) else vyb_chan_poll task out H.
Definition vyb_task_free (task : Z) (H : Heap) : outcome (Z * Heap) :=
  if task =? 0 then Done (-1, H) else vyb_chan_free task H.

Lemma with_chan_hit {R} ch c H (bad : R) f : ch <> 0 ->
  with_chan ch (<[ch := c]> H) bad f =
  match f c with Done (r, c') => Done (r, <[ch := c']> H) | Blocked => Blocked | Undefined => Undefined end.
Proof.
  intros Hne. unfold with_chan. rewrite (proj2 (Z.eqb_neq ch 0) Hne), lookup_insert_eq.
  destruct (f c) as [[r c']| |]; [by rewrite insert_insert_eq|done|done].
Qed.

Lemma free_hit ch c H : ch <> 0 -> H !! ch = None -> vyb_chan_free ch (<[ch := c]> H) = Done (0, H).
Proof.
  intros Hne Hn. unfold vyb_chan_free. rewrite (proj2 (Z.eqb_neq ch 0) Hne), lookup_insert_eq. by rewrite delete_insert_id.
Qed.

(** A spawned task can be awaited and polled before and after it finishes:
    until then an await blocks and the lossless poll reports no result; the
    worker's delivery never fails; afterwards either returns exactly the
    closure's result, every 64-bit value included, and the handle can be
    reclaimed. A spawn that fails leaves no channel behind. *)
Theorem task_delivers a mutex_ok cond_ok memory task_memory thread_ok H r :
  H !! a = None ->
  let '(t, H1) := vyb_task_spawn true a mutex_ok cond_ok memory task_memory thread_ok H in
  (t = 0 -> H1 = H)
  /\ (t <> 0 ->
      vyb_task_await t H1 = Blocked /\ vyb_task_poll_opt t true H1 = Done ((0, None), H1) /\ vyb_task_poll t H1 = Done (-1, H1)
      /\ exists H2 H3, vyb_task_trampoline t r H1 = Done (1, H2)
          /\ vyb_task_await t H2 = Done (r, H3) /\ vyb_task_poll_opt t true H2 = Done ((1, Some r), H3)
          /\ vyb_task_poll t H2 = Done (r, H3) /\ vyb_task_free t H3 = Done (0, H)).
Proof.
  intros Ha. unfold vyb_task_spawn, vyb_chan_new. cbn [negb]. destruct (Z.eqb_spec a 0) as [->|Hne]; [done|].
  destruct mutex_ok; [|done]. destruct cond_ok; [|done]. destruct memory; [|done].
  change (chan_init (A := Z) 8 true 1) with (Some (mkChan (A := Z) [None] 0 0 1 true false)). cbn [negb].
  assert (Hz := proj2 (Z.eqb_neq a 0) Hne). rewrite Hz. destruct (negb task_memory || negb thread_ok).
  { rewrite free_hit by done. done. }
  split; [done|]. intros _.
  unfold vyb_task_await, vyb_task_poll, vyb_task_poll_opt, vyb_task_free, vyb_task_trampoline,
    vyb_chan_recv, vyb_chan_poll, vyb_chan_try, vyb_chan_send.
  rewrite Hz. cbn [negb orb]. rewrite !with_chan_hit by done. split_and!; [done|done|done|].
  eexists _, _. split; [reflexivity|]. rewrite !with_chan_hit by done. split_and!; [reflexivity|reflexivity|reflexivity|].
  by rewrite free_hit.
Qed.

Lemma task_delivers_witness :
  exists H2 H3, vyb_task_trampoline 64 (-1) (vyb_task_spawn true 64 true true true true true ∅).2 = Done (1, H2)
    /\ vyb_task_poll_opt 64 true H2 = Done ((1, Some (-1)), H3).
Proof.
  destruct (task_delivers 64 true true true true true ∅ (-1) (lookup_empty _)) as [_ H].
  destruct H as (_ & _ & _ & H2 & H3 & E2 & _ & E3 & _); [done|]. by exists H2, H3.
Defined.

(** ** Select

    Each channel is looked at under its own mutex while the other threads run:
    [view k i] is the heap when pass [k] comes to handle [i]. The loop is
    cut off after [passes] passes. *)

Fixpoint select_pass (view : Z -> Heap) (i : Z) (handles : list Z) : outcome (option Z) :=
  match handles with
  | [] => Done None
  | h :: hs =>
      if h =? 0 then select_pass view (i + 1) hs
      else match view i !! h with
           | None => Undefined
           | Some c => if chan_ready c then Done (Some i) else select_pass view (i + 1) hs
           end
  end.

Fixpoint select_loop (passes : nat) (view : nat -> Z -> Heap) (handles : list Z) : outcome Z :=
  match passes with
  | O => Blocked
  | S n => match select_pass (view O) 0 handles with
           | Done (Some i) => Done i
           | Done None => select_loop n (fun k => view (S k)) handles
           | Blocked => Blocked
           | Undefined => Undefined
           end
  end.

Definition vyb_chan_select (passes : nat) (view : nat -> Z -> Heap) (handles_ok : bool) (handles : list Z) : outcome Z :=
  if negb handles_ok || (Z.of_nat (length handles) <=? 0) then Done (-1) else select_loop passes view handles.

Definition ready_at (view : Z -> Heap) (handles : list Z) (i : Z) : Prop :=
  exists h c, 0 <= i /\ handles !! Z.to_nat i = Some h /\ h <> 0 /\ view i !! h = Some c /\ chan_ready c = true.

Definition allocated (view : Z -> Heap) (handles : list Z) : Prop :=
  forall i h, 0 <= i -> handles !! Z.to_nat i = Some h -> h <> 0 -> is_Some (view i !! h).

Lemma select_pass_ok view handles : forall i,
  (forall j h, 0 <= j -> handles !! Z.to_nat j = Some h -> h <> 0 -> is_Some (view (i + j) !! h)) ->
  match select_pass view i handles with
  | Done (Some k) => i <= k /\ ready_at (fun j => view (i + j)) handles (k - i)
      /\ forall j, j < k - i -> ~ ready_at (fun j => view (i + j)) handles j
  | Done None => forall j, ~ ready_at (fun j => view (i + j)) handles j
  | _ => False
  end.
Proof.
  induction handles as [|h hs IH]; intros i Hall; cbn [select_pass].
  - intros j (h & c & _ & Hh & _). done.
  - assert (Tail : forall j g, 0 <= j -> hs !! Z.to_nat j = Some g -> g <> 0 -> is_Some (view (i + 1 + j) !! g)).
    { intros j g Hj Hg Hne. replace (i + 1 + j) with (i + (j + 1)) by lia. apply Hall; [lia| |done].
      by replace (Z.to_nat (j + 1)) with (S (Z.to_nat j)) by lia. }
    specialize (IH (i + 1) Tail).
    assert (Shift : forall j, 0 < j -> ready_at (fun j => view (i + j)) (h :: hs) j <-> ready_at (fun j => view (i + 1 + j)) hs (j - 1)).
    { intros j Hj. unfold ready_at. replace (Z.to_nat j) with (S (Z.to_nat (j - 1))) by lia.
      replace (i + 1 + (j - 1)) with (i + j) by lia. cbn [lookup list_lookup]. split; intros (g & c & Hx); exists g, c; (split; [lia|apply Hx]). }
    assert (Later : ~ ready_at (fun j => view (i + j)) (h :: hs) 0 ->
      match select_pass view (i + 1) hs with
      | Done (Some k) => i <= k /\ ready_at (fun j => view (i + j)) (h :: hs) (k - i)
          /\ forall j, j < k - i -> ~ ready_at (fun j => view (i + j)) (h :: hs) j
      | Done None => forall j, ~ ready_at (fun j => view (i + j)) (h :: hs) j
      | _ => False
      end).
    { intros H0. assert (Neg : forall j, j < 0 -> ~ ready_at (fun j => view (i + j)) (h :: hs) j) by (intros j Hj (? & ? & ? & _); lia).
      assert (Cases : forall j, j < 0 \/ j = 0 \/ 0 < j) by lia.
      destruct (select_pass view (i + 1) hs) as [[k|]| |]; [|..]; try done.
      - destruct IH as (Hk & Hr & Hf). split_and!; [lia|apply Shift; [lia|]; by replace (k - i - 1) with (k - (i + 1)) by lia|].
        intros j Hj. destruct (Cases j) as [Hc|[->|Hc]]; [by apply Neg|done|]. rewrite Shift by done. apply Hf. lia.
      - intros j. destruct (Cases j) as [Hc|[->|Hc]]; [by apply Neg|done|]. rewrite Shift by done. apply IH. }
    destruct (Z.eqb_spec h 0) as [->|Hne]; [apply Later; by intros (g & c & _ & [= <-] & Hg & _)|].
    destruct (Hall 0 h ltac:(lia) eq_refl Hne) as [c Hc]. rewrite Z.add_0_r in Hc. rewrite Hc. destruct (chan_ready c) eqn:Hr.
    + split_and!; [lia| |intros j Hj (? & ? & ? & _); lia]. exists h, c. rewrite Z.sub_diag, Z.add_0_r. split_and!; done || lia.
    + apply Later. intros (g & c' & _ & [= <-] & _ & E & Hr'). rewrite Z.add_0_r in E. congruence.
Qed.

Lemma select_pass_spec view handles : allocated view handles ->
  match select_pass view 0 handles with
  | Done (Some k) => ready_at view handles k /\ forall j, j < k -> ~ ready_at view handles j
  | Done None => forall j, ~ ready_at view handles j
  | _ => False
  end.
Proof.
  intros Ha. pose proof (select_pass_ok view handles 0 Ha) as H. destruct (select_pass view 0 handles) as [[k|]| |]; try done.
  rewrite Z.sub_0_r in H. destruct H as (_ & H1 & H2). by split.
Qed.

(** Select returns once a channel is ready: if a handle holds a value or
    is closed when some pass comes to it, the loop ends at that pass or
    before, with the index of a handle that was ready when it was looked at,
    the first such in its pass. *)
Theorem select_returns passes view handles k i :
  (forall n, allocated (view n) handles) -> ready_at (view k) handles i -> (k < passes)%nat ->
  exists n j, vyb_chan_select passes view true handles = Done j /\ (n <= k)%nat
    /\ ready_at (view n) handles j /\ forall j', j' < j -> ~ ready_at (view n) handles j'.
Proof.
  intros Ha Hr Hk. unfold vyb_chan_select. cbn [negb orb]. destruct (Z.leb_spec (Z.of_nat (length handles)) 0) as [H0|_].
  { destruct Hr as (h & c & _ & Hh & _). apply lookup_lt_Some in Hh. lia. }
  revert view k Ha Hr Hk. induction passes as [|passes IH]; intros view k Ha Hr Hk; [lia|]. cbn [select_loop].
  pose proof (select_pass_spec (view O) handles (Ha O)) as S. destruct (select_pass (view O) 0 handles) as [[j|]| |]; try done.
  - exists O, j. split_and!; [done|lia|apply S..].
  - destruct k as [|k]; [by destruct (S i)|].
    destruct (IH (fun n => view (Datatypes.S n)) k) as (n & j & E & Hn & Hj); [intros n; apply Ha|done|lia|].
    exists (Datatypes.S n), j. split_and!; [done|lia|apply Hj..].
Qed.

Lemma select_returns_witness :
  exists n j, vyb_chan_select 2 (fun _ _ => {[ 64 := empty_ring; 72 := two_buffered ]}) true [64; 0; 72] = Done j /\ (n <= 1)%nat.
Proof.
  destruct (select_returns 2 (fun _ _ => {[ 64 := empty_ring; 72 := two_buffered ]}) [64; 0; 72] 1 2) as (n & j & E & Hn & _).
  - intros n i h _ Hh Hne. destruct (Z.to_nat i) as [|[|[|?]]]; cbn in Hh; simplify_eq; [by eexists|by eexists].
  - exists 72, two_buffered. by vm_compute.
  - lia.
  - by exists n, j.
Defined.

(** ** String channels

    A slot holds a pointer and a length; a buffered pointer is a reference the
    channel owns. The registry is the one of StrRegistry. *)

Notation vyb_file_str := (ptr * Z)%type.

Notation strchan := (vyb_chan vyb_file_str).

Definition vyb_strchan_new (struct_ok mutex_ok cond_ok memory : bool) (capacity : Z) : option strchan :=
  if struct_ok && mutex_ok && cond_ok then chan_init 16 memory capacity else None.

(** The channel behind a handle; [None] is the handle 0. *)
Definition on_handle {R} (ch : option strchan) (bad : R) (f : strchan -> outcome (R * strchan)) : outcome (R * option strchan) :=
  match ch with
  | None => Done (bad, None)
  | Some c => match f c with Done (r, c') => Done (r, Some c') | Blocked => Blocked | Undefined => Undefined end
  end.

Definition vyb_strchan_send (memory : bool) (ch : option strchan) (p : ptr) (len : Z) (R : Registry)
    : outcome ((Z * Registry) * option strchan) :=
  if p =? NULL then Done ((0, R), ch)
  else
    on_handle ch (0, R) (fun c =>
      let R1 := vyb_string_retain p R in
      map_result (fun sent : bool => if sent then (1, R1) else (0, vyb_string_release p R1)) (chan_send 16 memory (p, len) c)).

Definition no_string : vyb_file_str := (NULL, 0).
Definition vyb_strchan_recv (ch : option strchan) : outcome (vyb_file_str * option strchan) :=
  on_handle ch no_string (fun c => map_result (default no_string) (chan_recv true c)).
Definition vyb_strchan_try (ch : option strchan) : outcome (vyb_file_str * option strchan) :=
  on_handle ch no_string (fun c => map_result (default no_string) (chan_recv false c)).

Definition str_present (r : option vyb_file_str) : Z * option vyb_file_str := (match r with Some _ => 1 | None => 0 end, r).
Definition vyb_strchan_recv_opt (ch : option strchan) (out : bool) : outcome ((Z * option vyb_file_str) * option strchan) :=
  if negb out then Done ((0, None), ch) else on_handle ch (0, None) (fun c => map_result str_present (chan_recv true c)).
Definition vyb_strchan_try_opt (ch : option strchan) (out : bool) : outcome ((Z * option vyb_file_str) * option strchan) :=
  if negb out then Done ((0, None), ch) else on_handle ch (0, None) (fun c => map_result str_present (chan_recv false c)).
Definition vyb_strchan_len (ch : option strchan) : outcome (Z * option strchan) := on_handle ch (-1) (fun c => Done (s64 (size c), c)).
Definition vyb_strchan_close (ch : option strchan) : outcome (Z * option strchan) := on_handle ch 0 (fun c => Done (1, chan_close c)).

(** [for (i = 0; i < size; ++i) release(buf[(head + i) % cap].ptr);] *)
Fixpoint release_buffered (n i : nat) (c : strchan) (R : Registry) : outcome Registry :=
  match n with
  | O => Done R
  | S n' => match read_buf (buf c) ((head c + Z.of_nat i) mod cap c) with
            | Done (p, _) => release_buffered n' (S i) c (vyb_string_release p R)
            | _ => Undefined
            end
  end.
Definition vyb_strchan_free (ch : option strchan) (R : Registry) : outcome (Z * Registry) :=
  match ch with
  | None => Done (-1, R)
  | Some c => match release_buffered (Z.to_nat (size c)) 0 c R with
              | Done R' => Done (0, R') | Blocked => Blocked | Undefined => Undefined
              end
  end.

(** A string registry that does not track a pointer ignores it, so a literal
    can be sent too. [holds_refs m q] is what a channel with contents [q] adds
    to the counts [m]. *)
Definition holds_refs (m : gmap ptr Z) (q : list vyb_file_str) : gmap ptr Z := foldr (fun s m => spec_retain s.1 m) m q.

Lemma retain_lookup p q m : spec_retain p m !! q = if decide (p = q) then (fun r => r + 1) <$> m !! q else m !! q.
Proof.
  unfold spec_retain. destruct (decide (p = q)) as [->|Hne]; [by rewrite lookup_alter_eq|by rewrite lookup_alter_ne].
Qed.

Lemma retain_comm p q m : spec_retain p (spec_retain q m) = spec_retain q (spec_retain p m).
Proof.
  apply map_eq. intros x. rewrite !retain_lookup. destruct (decide (p = x)), (decide (q = x)); done.
Qed.

Lemma holds_refs_snoc m q s : holds_refs m (q ++ [s]) = spec_retain s.1 (holds_refs m q).
Proof.
  unfold holds_refs. induction q as [|a q IH]; cbn; [done|]. rewrite IH. apply retain_comm.
Qed.

(** Every string that is tracked has a reference besides the channel's. *)
Definition counted_map (m : gmap ptr Z) : Prop := forall p r, m !! p = Some r -> 1 <= r.

Lemma release_retained p m log : counted_map m -> spec_release p (spec_retain p m) log = (m, log).
Proof.
  intros Hc. unfold spec_release. rewrite retain_lookup, decide_True by done. destruct (m !! p) as [r|] eqn:E; cbn.
  - specialize (Hc p r E). rewrite (proj2 (Z.eqb_neq _ _)) by lia. f_equal. apply map_eq. intros x.
    destruct (decide (p = x)) as [<-|Hne]; [rewrite lookup_insert_eq, E; f_equal; lia|].
    by rewrite lookup_insert_ne, retain_lookup, decide_False.
  - f_equal. apply map_eq. intros x. rewrite retain_lookup. case_decide; [subst; by rewrite E|done].
Qed.

Lemma holds_refs_counted m q : counted_map m -> counted_map (holds_refs m q).
Proof.
  intros H. induction q as [|s q IH]; [done|]. intros p r.
  change (holds_refs m (s :: q)) with (spec_retain s.1 (holds_refs m q)). rewrite retain_lookup. case_decide; [|apply IH].
  destruct (holds_refs m q !! p) as [r'|] eqn:E; cbn; [|done]. intros [= <-]. specialize (IH p r' E). lia.
Qed.

(** The channel, its contents and the registry together: the counts are those
    of the other holders plus the channel's references. *)
Record strchan_ok (c : strchan) (q : list vyb_file_str) (R : Registry) (m : gmap ptr Z) : Prop := {
  str_ring : chan_ok 16 c q;
  str_live : Forall (fun s => live_ptr s.1) q;
  str_counts : reg_ok R (holds_refs m q);
  str_others : counted_map m
}.

Lemma strchan_send_ok memory c q R m p len : strchan_ok c q R m -> live_ptr p ->
  exists r R' c', vyb_strchan_send memory (Some c) p len R = Done ((r, R'), Some c')
    /\ strchan_ok c' (if accepts 16 memory c then q ++ [(p, len)] else q) R' m /\ freed R' = freed R
    /\ r = (if accepts 16 memory c then 1 else 0).
Proof.
  intros [O L C M] Lp. destruct (send_ok 16 ltac:(lia) c q (p, len) memory O) as (c' & E & O' & _).
  unfold vyb_strchan_send, on_handle. rewrite (proj2 (Z.eqb_neq p NULL)) by (by destruct Lp). rewrite E. cbn [map_result].
  destruct (retain_spec R _ p C Lp) as [C1 F1]. destruct (accepts 16 memory c).
  - eexists _, _, c'. split; [done|]. split; [|done]. split; [done| |by rewrite holds_refs_snoc|done].
    apply Forall_app. split; [done|by apply Forall_singleton].
  - destruct (release_spec _ _ p C1 Lp) as [C2 F2]. rewrite release_retained in C2, F2 by (by apply holds_refs_counted).
    eexists _, _, c'. split; [done|]. split; [by split|]. split; [by rewrite F2, F1|done].
Qed.

Lemma strchan_recv_ok wait c s q R m : strchan_ok c (s :: q) R m ->
  exists c', chan_recv wait c = Done (Some s, c') /\ strchan_ok c' q R (spec_retain s.1 m).
Proof.
  intros [O L C M]. destruct (recv_ok 16 c (s :: q) wait O) as (c' & E & O' & _). exists c'. split; [done|].
  apply Forall_cons in L as [_ L]. split; [done|done| |].
  - replace (holds_refs (spec_retain s.1 m) q) with (holds_refs m (s :: q)); [done|].
    change (holds_refs m (s :: q)) with (spec_retain s.1 (holds_refs m q)). clear.
    induction q as [|a q IH]; [done|]. change (holds_refs ?m (a :: q)) with (spec_retain a.1 (holds_refs m q)).
    by rewrite retain_comm, IH.
  - intros x r. rewrite retain_lookup. case_decide; [|apply M]. destruct (m !! x) as [r'|] eqn:E'; [|done].
    cbn. intros [= <-]. specialize (M x r' E'). lia.
Qed.

Lemma release_buffered_ok (c : strchan) m q : forall i R,
  (forall j s, q !! j = Some s -> buf c !! Z.to_nat ((head c + Z.of_nat (i + j)) mod cap c) = Some (Some s)) ->
  Forall (fun s => live_ptr s.1) q -> reg_ok R (holds_refs m q) -> counted_map m ->
  exists R', release_buffered (length q) i c R = Done R' /\ reg_ok R' m /\ freed R' = freed R.
Proof.
  induction q as [|[p len] q IH]; intros i R Hs L C M; [by exists R|]. cbn [length release_buffered].
  apply Forall_cons in L as [Lp L]. pose proof (Hs 0%nat _ eq_refl) as H0. rewrite Nat.add_0_r in H0.
  unfold read_buf. rewrite H0. change (holds_refs m ((p, len) :: q)) with (spec_retain p (holds_refs m q)) in C.
  destruct (release_spec R _ p C Lp) as [C1 F1]. rewrite release_retained in C1, F1 by (by apply holds_refs_counted).
  destruct (IH (S i) (vyb_string_release p R)) as (R' & E & C' & F'); [|done..|].
  - intros j s Hj. replace (S i + j)%nat with (i + S j)%nat by lia. by apply Hs.
  - exists R'. split; [done|]. split; [done|]. by rewrite F', F1.
Qed.

(** A string channel owns exactly one reference per buffered string. A
    send that succeeds adds one, a send that is refused (closed, full, no
    memory) leaves every count as it was, a receive hands the reference to the
    receiver, and freeing the channel gives back the references of the strings
    still in it and frees none that another holder has. *)
Theorem strchan_references c q R m :
  strchan_ok c q R m ->
  (forall memory p len, live_ptr p ->
     exists r R' c', vyb_strchan_send memory (Some c) p len R = Done ((r, R'), Some c') /\ freed R' = freed R
       /\ (r = 1 /\ strchan_ok c' (q ++ [(p, len)]) R' m \/ r = 0 /\ strchan_ok c' q R' m))
  /\ (forall s q', q = s :: q' -> exists c', vyb_strchan_recv (Some c) = Done (s, Some c')
        /\ vyb_strchan_try_opt (Some c) true = Done ((1, Some s), Some c')
        /\ strchan_ok c' q' R (spec_retain s.1 m))
  /\ exists R', vyb_strchan_free (Some c) R = Done (0, R') /\ reg_ok R' m /\ freed R' = freed R.
Proof.
  intros H. split_and!.
  - intros memory p len Lp. destruct (strchan_send_ok memory c q R m p len H Lp) as (r & R' & c' & E & O & F & Hr).
    exists r, R', c'. split_and!; [done|done|]. destruct (accepts 16 memory c); [by left|by right].
  - intros s q' ->. destruct (strchan_recv_ok true c s q' R m H) as (c' & E & O).
    destruct (strchan_recv_ok false c s q' R m H) as (c2 & E2 & _). exists c'.
    assert (c2 = c') as ->.
    { pose proof (str_ring _ _ _ _ H) as O1. pose proof (ring_size _ _ _ O1) as S. cbn in S.
      unfold chan_recv in E, E2. rewrite (proj2 (Z.eqb_neq _ _)) in E, E2 by lia. cbn [andb] in E, E2. congruence. }
    unfold vyb_strchan_recv, vyb_strchan_try_opt, on_handle. cbn [negb]. rewrite E, E2. split_and!; [done|done|done].
  - destruct H as [O L C M]. destruct (release_buffered_ok c m q 0 R) as (R' & E & C' & F); [|done..|].
    + intros j s Hj. by apply (ring_slots _ _ _ O).
    + exists R'. unfold vyb_strchan_free. rewrite (ring_size _ _ _ O), Nat2Z.id, E. done.
Qed.

Definition one_slot_ring : strchan := mkChan [None] 0 0 1 true false.

Lemma one_slot_ok : strchan_ok one_slot_ring [] (after_register 0x1280 (sample_registry 4)) {[ 0x1280 := 1 ]}.
Proof.
  split; [by split|constructor|apply one_string_ok|].
  intros p r. rewrite lookup_singleton_Some. lia.
Qed.

Lemma strchan_references_witness :
  exists r R' c', vyb_strchan_send true (Some one_slot_ring) 0x1280 5 (after_register 0x1280 (sample_registry 4))
    = Done ((r, R'), Some c') /\ freed R' = [].
Proof.
  destruct (strchan_references one_slot_ring [] _ _ one_slot_ok) as (H & _).
  destruct (H true 0x1280 5 sample_live) as (r & R' & c' & E & F & _). exists r, R', c'. split; [exact E|]. rewrite F. by vm_compute.
Defined.
