(* ===== verification/Threads.v ===== *)
(** * Threads

    The thread table of runtime/vyb_runtime.c: 256 slots under one lock,
    handles that are slot numbers plus one, and spawn, join and detach, with
    the trampoline that runs a closure and gives its slot back.

    A call that blocks, or that works partly outside the lock, is split where
    other threads can run: the trampoline into the store of the closure's
    result and the locked epilogue, join into its locked prologue and, once
    the thread has ended, its locked epilogue. *)

From S2P Require Import Prelude.
From S2P Require Import Words.
From S2P Require Import StrRegistry.
#[local] Open Scope Z_scope.

Definition VYB_THREAD_CAP : nat := 256.

Record vyb_thread : Type := mkThread {
  tid : nat;
  fn : ptr;
  env : ptr;
  result : Z;
  used : bool;
  done : bool;
  detach : bool;
  joining : bool
}.
Definition empty_thread : vyb_thread := mkThread 0 NULL NULL 0 false false false false.

(** A pthread: its slot, and the closure's result once it is stored. *)
Record Running : Type := mkRunning { run_slot : nat; run_fn : ptr; run_env : ptr; run_result : option Z }.

Record Threads : Type := mkThreads {
  vyb_threads : list vyb_thread;
  closure_refs : gmap ptr Z;           (* references threads hold to closure environments *)
  running : gmap nat Running;          (* pthreads that have not ended *)
  exited : gmap nat (ptr * ptr * Z);   (* ended pthreads: closure and result *)
  next_tid : nat;
  joiners : list (nat * nat)           (* joins in [pthread_join]: slot and pthread *)
}.

Definition start_threads : Threads := mkThreads (replicate VYB_THREAD_CAP empty_thread) ∅ ∅ ∅ 0 [].

(** [__vyb_closure_retain] and [__vyb_closure_release] on a possibly null
    environment. *)
Definition add_closure_refs (e : ptr) (d : Z) (refs : gmap ptr Z) : gmap ptr Z :=
  if e =? NULL then refs else <[e := default 0 (refs !! e) + d]> refs.

Definition first_free (l : list vyb_thread) : option nat := fst <$> list_find (fun t => used t = false) l.

(** [create] is whether [pthread_create] succeeds. *)
Definition vyb_thread_spawn (create : bool) (e f : ptr) (T : Threads) : Z * Threads :=
  if f =? NULL then (-1, T)
  else
    match first_free (vyb_threads T) with
    | None => (-1, T)
    | Some idx =>
        let refs := add_closure_refs e 1 (closure_refs T) in
        if create then
          (Z.of_nat idx + 1,
           mkThreads (<[idx := mkThread (next_tid T) f e 0 true false false false]> (vyb_threads T)) refs
             (<[next_tid T := mkRunning idx f e None]> (running T)) (exited T) (S (next_tid T)) (joiners T))
        else
          (-1, mkThreads (<[idx := mkThread (next_tid T) f e 0 false false false false]> (vyb_threads T))
             (add_closure_refs e (-1) refs) (running T) (exited T) (S (next_tid T)) (joiners T))
    end.

(** The trampoline up to the lock: [r] is what the closure returned. *)
Definition trampoline_store (k : nat) (r : Z) (T : Threads) : option Threads :=
  match running T !! k with
  | Some (mkRunning idx f e None) =>
      match vyb_threads T !! idx with
      | Some t =>
          Some (mkThreads (<[idx := mkThread (tid t) (fn t) (env t) r (used t) (done t) (detach t) (joining t)]> (vyb_threads T))
                  (add_closure_refs e (-1) (closure_refs T)) (<[k := mkRunning idx f e (Some r)]> (running T))
                  (exited T) (next_tid T) (joiners T))
      | None => None
      end
  | _ => None
  end.

(** The locked end of the trampoline. *)
Definition trampoline_end (k : nat) (T : Threads) : option Threads :=
  match running T !! k with
  | Some (mkRunning idx f e (Some r)) =>
      match vyb_threads T !! idx with
      | Some t =>
          let u := if detach t && negb (joining t) then false else used t in
          Some (mkThreads (<[idx := mkThread (tid t) (fn t) (env t) (result t) u true (detach t) (joining t)]> (vyb_threads T))
                  (closure_refs T) (delete k (running T)) (<[k := (f, e, r)]> (exited T)) (next_tid T) (joiners T))
      | None => None
      end
  | _ => None
  end.

(** [int idx = (int)handle - 1], checked against the table. *)
Definition s32 (x : Z) : Z := let y := x mod 2 ^ 32 in if y <? 2 ^ 31 then y else y - 2 ^ 32.
Definition slot_of (handle : Z) : option nat :=
  let idx := s32 handle - 1 in
  if (idx <? 0) || (Z.of_nat VYB_THREAD_CAP <=? idx) then None else Some (Z.to_nat idx).

(** Up to [pthread_join]: refused with -2, or in the wait. *)
Definition vyb_thread_join_start (handle : Z) (T : Threads) : option (nat * nat) * Threads :=
  match slot_of handle with
  | None => (None, T)
  | Some idx =>
      match vyb_threads T !! idx with
      | None => (None, T)
      | Some t =>
          if negb (used t) then (None, T)
          else if detach t then (None, T)
          else if joining t then (None, T)
          else (Some (idx, tid t),
                mkThreads (<[idx := mkThread (tid t) (fn t) (env t) (result t) (used t) (done t) (detach t) true]> (vyb_threads T))
                  (closure_refs T) (running T) (exited T) (next_tid T) ((idx, tid t) :: joiners T))
      end
  end.

(** The lossless join: 0 instead of -2, and nothing without an [out]. *)
Definition vyb_thread_join_opt_start (out : bool) (handle : Z) (T : Threads) : option (nat * nat) * Threads :=
  if negb out then (None, T) else vyb_thread_join_start handle T.

(** What a refused join returns. *)
Definition vyb_thread_join_refused : Z := -2.
Definition vyb_thread_join_opt_refused : Z := 0.

(** After [pthread_join], which returns once the pthread has ended. *)
Definition vyb_thread_join_end (j : nat * nat) (T : Threads) : option (Z * Threads) :=
  match running T !! j.2 with
  | Some _ => None
  | None =>
      match vyb_threads T !! j.1 with
      | Some t =>
          Some (result t,
                mkThreads (<[j.1 := mkThread (tid t) (fn t) (env t) (result t) false (done t) (detach t) false]> (vyb_threads T))
                  (closure_refs T) (running T) (exited T) (next_tid T) (filter (fun x => x <> j) (joiners T)))
      | None => None
      end
  end.

Definition vyb_thread_detach (handle : Z) (T : Threads) : Z * Threads :=
  match slot_of handle with
  | None => (-2, T)
  | Some idx =>
      match vyb_threads T !! idx with
      | None => (-2, T)
      | Some t =>
          if negb (used t) then (-2, T)
          else if detach t then (-1, T)
          else
            let u := if done t && negb (joining t) then false else used t in
            (0, mkThreads (<[idx := mkThread (tid t) (fn t) (env t) (result t) u (done t) true (joining t)]> (vyb_threads T))
                  (closure_refs T) (running T) (exited T) (next_tid T) (joiners T))
      end
  end.

Inductive thread_step : Threads -> Threads -> Prop :=
| step_spawn T create e f : thread_step T (vyb_thread_spawn create e f T).2
| step_store T k r T' : trampoline_store k r T = Some T' -> thread_step T T'
| step_end T k T' : trampoline_end k T = Some T' -> thread_step T T'
| step_join_start T h : thread_step T (vyb_thread_join_start h T).2
| step_join_end T j r T' : j ∈ joiners T -> vyb_thread_join_end j T = Some (r, T') -> thread_step T T'
| step_detach T h : thread_step T (vyb_thread_detach h T).2.

(** ** What the table says of the threads *)

(** A slot and the pthreads: free; its body running; ended and waiting to be
    joined or, when detached, held by a join. *)
Record slot_ok (T : Threads) (idx : nat) (t : vyb_thread) : Prop := {
  slot_running : used t = true -> done t = false ->
    exists r, running T !! tid t = Some (mkRunning idx (fn t) (env t) r) /\ (forall v, r = Some v -> result t = v);
  slot_ended : used t = true -> done t = true -> exited T !! tid t = Some (fn t, env t, result t);
  slot_joined : joining t = true <-> (idx, tid t) ∈ joiners T;
  slot_join_used : joining t = true -> used t = true;
  slot_reaped : used t = true -> done t = true -> detach t = true -> joining t = true;
  slot_old : (tid t < next_tid T)%nat \/ t = empty_thread
}.

Record threads_ok (T : Threads) : Prop := {
  ok_size : length (vyb_threads T) = VYB_THREAD_CAP;
  ok_slots : forall idx t, vyb_threads T !! idx = Some t -> slot_ok T idx t;
  ok_running : forall k x, running T !! k = Some x ->
    (k < next_tid T)%nat /\ exited T !! k = None
    /\ exists t, vyb_threads T !! run_slot x = Some t /\ tid t = k /\ used t = true /\ done t = false;
  ok_exited : forall k, is_Some (exited T !! k) -> (k < next_tid T)%nat;
  ok_joiners : NoDup (joiners T);
  ok_joiner_slot : forall idx k, (idx, k) ∈ joiners T -> exists t, vyb_threads T !! idx = Some t /\ tid t = k
}.

Lemma slot_frame T T' j t :
  slot_ok T j t ->
  (forall x, running T !! tid t = Some x -> run_slot x = j -> running T' !! tid t = Some x) ->
  (forall y, exited T !! tid t = Some y -> exited T' !! tid t = Some y) ->
  ((j, tid t) ∈ joiners T' <-> (j, tid t) ∈ joiners T) -> (next_tid T <= next_tid T')%nat ->
  slot_ok T' j t.
Proof.
  intros [H1 H2 H3 H4 H5 H6] Hr He Hj Hn. split; try done.
  - intros U D. destruct (H1 U D) as (r & E & V). exists r. split; [by apply Hr|done].
  - intros U D. by apply He, H2.
  - by rewrite Hj.
  - destruct H6; [left; lia|by right].
Qed.

(** A step rewrites one slot. *)
Lemma threads_frame T idx t t' refs run ex nxt js :
  threads_ok T -> vyb_threads T !! idx = Some t ->
  let T' := mkThreads (<[idx := t']> (vyb_threads T)) refs run ex nxt js in
  slot_ok T' idx t' ->
  (forall k x, running T !! k = Some x -> run_slot x <> idx -> run !! k = Some x) ->
  (forall k x, run !! k = Some x -> run_slot x = idx /\ k = tid t' /\ used t' = true /\ done t' = false /\ (k < nxt)%nat /\ ex !! k = None
     \/ running T !! k = Some x /\ run_slot x <> idx /\ ex !! k = None) ->
  (forall k y, exited T !! k = Some y -> ex !! k = Some y) ->
  (forall k, is_Some (ex !! k) -> (k < nxt)%nat) ->
  (forall j k, j <> idx -> (j, k) ∈ js <-> (j, k) ∈ joiners T) ->
  (forall k, (idx, k) ∈ js -> k = tid t') -> NoDup js -> (next_tid T <= nxt)%nat ->
  threads_ok T'.
Proof.
  intros [OS OL OR OE OJ OI] Ht T' Hs Hr1 Hr2 He1 He2 Hj1 Hj2 Hj3 Hn. split; cbn.
  - by rewrite length_insert.
  - intros j u Hu. apply list_lookup_insert_Some in Hu as [(-> & <- & _)|(Hne & Hu)]; [done|].
    eapply slot_frame; [by apply OL| | | |done]; cbn.
    + intros x Hx Hsl. apply Hr1; [done|congruence].
    + intros y. apply He1.
    + by apply Hj1.
  - intros k x Hx. destruct (Hr2 k x Hx) as [(E1 & -> & U & D & L & N)|(E1 & E2 & N)].
    + split_and!; [done|done|]. exists t'. rewrite E1, list_lookup_insert_eq by (by eapply lookup_lt_Some). done.
    + destruct (OR k x E1) as (L & _ & u & Hu & E3). split_and!; [lia|done|]. exists u. by rewrite list_lookup_insert_ne.
  - done.
  - done.
  - intros j k Hin. destruct (decide (j = idx)) as [->|Hne].
    + exists t'. rewrite list_lookup_insert_eq by (by eapply lookup_lt_Some). by rewrite (Hj2 k Hin).
    + apply (Hj1 j k Hne) in Hin. rewrite list_lookup_insert_ne by done. by apply OI.
Qed.

Lemma free_not_joined T idx t k : threads_ok T -> vyb_threads T !! idx = Some t -> used t = false -> (idx, k) ∉ joiners T.
Proof.
  intros O Ht U Hin. destruct (ok_joiner_slot T O idx k Hin) as (t2 & Ht2 & <-). simplify_eq.
  apply (slot_joined _ _ _ (ok_slots T O idx t Ht)) in Hin. apply (slot_join_used _ _ _ (ok_slots T O idx t Ht)) in Hin. congruence.
Qed.

Lemma free_not_running T idx t k x : threads_ok T -> vyb_threads T !! idx = Some t -> used t = false -> running T !! k = Some x -> run_slot x <> idx.
Proof. intros O Ht U Hx E. destruct (ok_running T O k x Hx) as (_ & _ & t2 & Ht2 & _ & U2 & _). rewrite E in Ht2. congruence. Qed.

Lemma first_free_Some l idx : first_free l = Some idx -> exists t, l !! idx = Some t /\ used t = false.
Proof.
  unfold first_free. destruct (list_find _ l) as [[i t]|] eqn:E; [|done]. intros [= <-].
  apply list_find_Some in E as (H1 & H2 & _). by exists t.
Qed.

Lemma spawn_ok T create e f : threads_ok T -> threads_ok (vyb_thread_spawn create e f T).2.
Proof.
  intros O. unfold vyb_thread_spawn. destruct (f =? NULL); [done|]. destruct (first_free (vyb_threads T)) as [idx|] eqn:F; [|done].
  apply first_free_Some in F as (t & Ht & U). pose proof (free_not_joined T idx t) as NJ. pose proof (free_not_running T idx t) as NR.
  assert (Fresh : running T !! next_tid T = None /\ exited T !! next_tid T = None).
  { split; apply eq_None_not_Some; intros [x Hx]; [apply (ok_running T O) in Hx as [? _]; lia|].
    assert (is_Some (exited T !! next_tid T)) as Hs by eauto. apply (ok_exited T O) in Hs. lia. }
  destruct Fresh as [F1 F2]. destruct create; cbn [snd].
  - eapply threads_frame; [done|done|..].
    + split; cbn; try done; [| |left; lia].
      * intros _ _. exists None. by rewrite lookup_insert_eq.
      * split; [done|]. intros Hin. by destruct (NJ _ O Ht U Hin).
    + intros k x Hx _. rewrite lookup_insert_ne; [done|]. intros <-. congruence.
    + intros k x. cbn. destruct (decide (k = next_tid T)) as [->|Hne].
      * rewrite lookup_insert_eq. intros [= <-]. left. cbn. split_and!; done || lia.
      * rewrite lookup_insert_ne by done. intros Hx. right. split_and!; [done|by eapply NR|by apply (ok_running T O) in Hx as (_ & ? & _)].
    + done.
    + intros k Hk. apply (ok_exited T O) in Hk. lia.
    + done.
    + intros k Hin. by destruct (NJ _ O Ht U Hin).
    + apply (ok_joiners T O).
    + lia.
  - eapply threads_frame; [done|done|..].
    + split; cbn; try done; [|left; lia]. split; [done|]. intros Hin. by destruct (NJ _ O Ht U Hin).
    + done.
    + intros k x Hx. right. split_and!; [done|by eapply NR|by apply (ok_running T O) in Hx as (_ & ? & _)].
    + done.
    + intros k Hk. apply (ok_exited T O) in Hk. lia.
    + done.
    + intros k Hin. by destruct (NJ _ O Ht U Hin).
    + apply (ok_joiners T O).
    + lia.
Qed.

(** Rewriting the flags of a slot whose pthread and occupancy stay. *)
Lemma same_running T idx t t' : threads_ok T -> vyb_threads T !! idx = Some t ->
  tid t' = tid t -> used t' = used t -> done t' = done t -> forall k x, running T !! k = Some x ->
  run_slot x = idx /\ k = tid t' /\ used t' = true /\ done t' = false /\ (k < next_tid T)%nat /\ exited T !! k = None
  \/ running T !! k = Some x /\ run_slot x <> idx /\ exited T !! k = None.
Proof.
  intros O Ht E1 E2 E3 k x Hx. destruct (ok_running T O k x Hx) as (L & N & t2 & Ht2 & <- & U & D).
  destruct (decide (run_slot x = idx)) as [E|E]; [left|by right]. rewrite E in Ht2. simplify_eq. rewrite E1, E2, E3. done.
Qed.

Lemma joiner_tid T idx t k : threads_ok T -> vyb_threads T !! idx = Some t -> (idx, k) ∈ joiners T -> k = tid t.
Proof. intros O Ht Hin. destruct (ok_joiner_slot T O idx k Hin) as (t2 & Ht2 & <-). by simplify_eq. Qed.

Lemma store_ok T k r T' : threads_ok T -> trampoline_store k r T = Some T' -> threads_ok T'.
Proof.
  intros O. unfold trampoline_store. destruct (running T !! k) as [[idx f e [v|]]|] eqn:Hk; [done| |done].
  destruct (vyb_threads T !! idx) as [t|] eqn:Ht; [|done]. intros [= <-].
  destruct (ok_running T O k _ Hk) as (L & N & t2 & Ht2 & <- & U & D). cbn in Ht2. simplify_eq.
  pose proof (ok_slots T O idx t Ht) as S. destruct (slot_running _ _ _ S U D) as (r' & Hr & _). simplify_eq.
  eapply threads_frame; [done|done|..].
  - split; cbn; [|congruence|apply (slot_joined _ _ _ S)|done|congruence|left; lia].
    intros _ _. exists (Some r). rewrite lookup_insert_eq. split; [done|]. by intros v [= ->].
  - intros k x Hx Hne. rewrite lookup_insert_ne; [done|]. intros <-. rewrite Hk in Hx. simplify_eq.
  - intros k x. cbn. destruct (decide (k = tid t)) as [->|Hne].
    + rewrite lookup_insert_eq. intros [= <-]. left. done.
    + rewrite lookup_insert_ne by done. intros Hx. by eapply (same_running T idx t).
  - done.
  - apply (ok_exited T O).
  - done.
  - intros k Hin. exact (joiner_tid T idx t k O Ht Hin).
  - apply (ok_joiners T O).
  - done.
Qed.

Lemma end_ok T k T' : threads_ok T -> trampoline_end k T = Some T' -> threads_ok T'.
Proof.
  intros O. unfold trampoline_end. destruct (running T !! k) as [[idx f e [v|]]|] eqn:Hk; [|done..].
  destruct (vyb_threads T !! idx) as [t|] eqn:Ht; [|done]. intros [= <-].
  destruct (ok_running T O k _ Hk) as (L & N & t2 & Ht2 & <- & U & D). cbn in Ht2. simplify_eq.
  pose proof (ok_slots T O idx t Ht) as S. destruct (slot_running _ _ _ S U D) as (r' & Hr & V). simplify_eq. specialize (V v eq_refl).
  eapply threads_frame; [done|done|..].
  - split; cbn; [done| |apply (slot_joined _ _ _ S)| | |left; lia].
    + intros _ _. by rewrite lookup_insert_eq, V.
    + intros ->. by rewrite andb_false_r.
    + destruct (detach t), (joining t); done.
  - intros k x Hx Hne. cbn. rewrite lookup_delete_ne; [done|]. intros <-. rewrite Hk in Hx. simplify_eq.
  - intros k x. rewrite lookup_delete_Some. intros [Hne Hx]. destruct (ok_running T O k x Hx) as (L2 & N2 & t3 & Ht3 & <- & U3 & D3).
    right. split_and!; [done| |by rewrite lookup_insert_ne]. intros E. rewrite E in Ht3. congruence.
  - intros k y Hy. rewrite lookup_insert_ne; [done|]. intros <-. congruence.
  - intros k. destruct (decide (k = tid t)) as [->|Hne]; [done|]. rewrite lookup_insert_ne by done. apply (ok_exited T O).
  - done.
  - intros k Hin. exact (joiner_tid T idx t k O Ht Hin).
  - apply (ok_joiners T O).
  - done.
Qed.

Lemma join_start_ok T h : threads_ok T -> threads_ok (vyb_thread_join_start h T).2.
Proof.
  intros O. unfold vyb_thread_join_start. destruct (slot_of h) as [idx|]; [|done].
  destruct (vyb_threads T !! idx) as [t|] eqn:Ht; [|done]. destruct (used t) eqn:U; [|done]. destruct (detach t) eqn:D; [done|].
  destruct (joining t) eqn:J; [done|]. cbn [snd negb]. pose proof (ok_slots T O idx t Ht) as S.
  eapply threads_frame; [done|done|..].
  - destruct S as [S1 S2 S3 S4 S5 S6]. split; cbn; try done; [by intros _; apply S1|by intros _; apply S2|by split; [left|]|].
    left. destruct S6 as [Hl|Hl]; [done|by subst t].
  - done.
  - by eapply (same_running T idx t).
  - done.
  - apply (ok_exited T O).
  - intros j k Hne. rewrite elem_of_cons. naive_solver.
  - intros k Hk. apply elem_of_cons in Hk as [Hk|Hin]; [by injection Hk as ->|]. exact (joiner_tid T idx t k O Ht Hin).
  - constructor; [|apply (ok_joiners T O)]. intros Hin. apply (slot_joined _ _ _ S) in Hin. congruence.
  - done.
Qed.

Lemma detach_ok T h : threads_ok T -> threads_ok (vyb_thread_detach h T).2.
Proof.
  intros O. unfold vyb_thread_detach. destruct (slot_of h) as [idx|]; [|done].
  destruct (vyb_threads T !! idx) as [t|] eqn:Ht; [|done]. destruct (used t) eqn:U; [|done]. destruct (detach t) eqn:D; [done|].
  cbn [snd negb]. pose proof (ok_slots T O idx t Ht) as S. pose proof (slot_joined _ _ _ S) as SJ.
  eapply threads_frame; [done|done|..].
  - destruct S as [S1 S2 S3 S4 S5 S6]. split; cbn; try done.
    + intros _. by apply S1.
    + intros _. by apply S2.
    + intros ->. by rewrite andb_false_r.
    + intros Hu Hd _. destruct (joining t); [done|]. by rewrite Hd in Hu.
    + left. destruct S6 as [Hl|Hl]; [done|by subst t].
  - done.
  - intros k x Hx. destruct (ok_running T O k x Hx) as (L & N & t2 & Ht2 & <- & U2 & D2).
    destruct (decide (run_slot x = idx)) as [E|E]; [left|by right]. rewrite E in Ht2. simplify_eq. cbn. by rewrite D2.
  - done.
  - apply (ok_exited T O).
  - done.
  - intros k Hin. exact (joiner_tid T idx t k O Ht Hin).
  - apply (ok_joiners T O).
  - done.
Qed.

(** A joiner finds the result of the pthread it saw when it started. *)
Lemma join_end_result T idx k r T' : threads_ok T -> (idx, k) ∈ joiners T -> vyb_thread_join_end (idx, k) T = Some (r, T') ->
  exists f e, exited T !! k = Some (f, e, r).
Proof.
  intros O Hin. unfold vyb_thread_join_end. cbn [fst snd]. destruct (running T !! k) eqn:R; [done|].
  destruct (ok_joiner_slot T O idx k Hin) as (t & Ht & <-). rewrite Ht. intros [= <- <-].
  pose proof (ok_slots T O idx t Ht) as S. apply (slot_joined _ _ _ S) in Hin. pose proof (slot_join_used _ _ _ S Hin) as U.
  destruct (done t) eqn:D; [|by destruct (slot_running _ _ _ S U D) as (? & E & _); congruence].
  eexists _, _. by apply (slot_ended _ _ _ S).
Qed.

Lemma join_end_ok T j r T' : threads_ok T -> j ∈ joiners T -> vyb_thread_join_end j T = Some (r, T') -> threads_ok T'.
Proof.
  intros O Hin. destruct j as [idx k]. unfold vyb_thread_join_end. cbn [fst snd]. destruct (running T !! k) eqn:R; [done|].
  destruct (ok_joiner_slot T O idx k Hin) as (t & Ht & <-). rewrite Ht. intros [= <- <-].
  pose proof (ok_slots T O idx t Ht) as S.
  assert (Gone : forall k, (idx, k) ∉ filter (fun x => x <> (idx, tid t)) (joiners T)).
  { intros k [Hne Hk]%list_elem_of_filter. rewrite (joiner_tid T idx t k O Ht Hk) in Hne. done. }
  eapply threads_frame; [done|done|..].
  - split; cbn; try done.
    + split; [done|]. intros Hk. by apply Gone in Hk.
    + left. destruct (slot_old _ _ _ S) as [Hl|Hl]; [done|]. apply (slot_joined _ _ _ S) in Hin. by subst t.
  - done.
  - intros k x Hx. destruct (ok_running T O k x Hx) as (L & N & t2 & Ht2 & <- & U2 & D2). right. split_and!; [done| |done].
    intros E. rewrite E in Ht2. simplify_eq.
  - done.
  - apply (ok_exited T O).
  - intros j k Hne. rewrite list_elem_of_filter. naive_solver.
  - intros k Hk. by apply Gone in Hk.
  - apply NoDup_filter, (ok_joiners T O).
  - done.
Qed.

Lemma thread_step_ok T T' : threads_ok T -> thread_step T T' -> threads_ok T'.
Proof.
  intros O H. destruct H; eauto using spawn_ok, store_ok, end_ok, join_start_ok, join_end_ok, detach_ok.
Qed.

Lemma start_threads_ok : threads_ok start_threads.
Proof.
  split; [done| |done|by intros k [? ?]|constructor|by intros ? ? ?%elem_of_nil].
  intros idx t Ht. apply lookup_replicate in Ht as [-> _]. split; try done; [|by right]. split; [done|]. by intros ?%elem_of_nil.
Qed.

Lemma threads_reach T : rtc thread_step start_threads T -> threads_ok T.
Proof.
  intros H. pose proof start_threads_ok as O. induction H as [|T T1 T2 Hs _ IH]; [done|]. apply IH. by eapply thread_step_ok.
Qed.

(** *** Closure references *)

(** Threads whose body still uses the environment [e]. *)
Definition uses (e : ptr) (x : Running) : nat := if decide (run_env x = e /\ run_result x = None) then 1 else 0.
Definition users (e : ptr) (m : gmap nat Running) : nat := sum_list_with (fun kx => uses e kx.2) (map_to_list m).

Lemma users_insert e m k x : m !! k = None -> users e (<[k := x]> m) = (uses e x + users e m)%nat.
Proof. intros H. unfold users. by rewrite (map_to_list_insert m k x H). Qed.

Lemma users_delete e m k x : m !! k = Some x -> users e m = (uses e x + users e (delete k m))%nat.
Proof.
  intros H. rewrite <- (insert_delete_id m k x H) at 1. apply users_insert. apply lookup_delete_eq.
Qed.

Lemma users_replace e m k x y : m !! k = Some x -> (users e (<[k := y]> m) + uses e x = users e m + uses e y)%nat.
Proof.
  intros H. rewrite (users_delete e m k x H). rewrite (users_delete e (<[k := y]> m) k y) by apply lookup_insert_eq.
  rewrite delete_insert_eq. lia.
Qed.

Definition refs_ok (T : Threads) : Prop :=
  forall e, e <> NULL -> default 0 (closure_refs T !! e) = Z.of_nat (users e (running T)).

Lemma add_refs_lookup e d refs e' : e' <> NULL ->
  default 0 (add_closure_refs e d refs !! e') = default 0 (refs !! e') + (if decide (e = e') then d else 0).
Proof.
  intros H. unfold add_closure_refs. destruct (Z.eqb_spec e NULL) as [->|Hne]; [rewrite decide_False by done; lia|].
  destruct (decide (e = e')) as [->|Hd]; [by rewrite lookup_insert_eq|]. rewrite lookup_insert_ne by done. lia.
Qed.

Lemma thread_step_refs T T' : threads_ok T -> refs_ok T -> thread_step T T' -> refs_ok T'.
Proof.
  intros O R H. destruct H as [T create e f|T k r T' Hs|T k T' Hs|T h|T j r T' _ Hs|T h].
  - unfold vyb_thread_spawn. destruct (f =? NULL); [done|]. destruct (first_free _) as [idx|]; [|done].
    assert (F : running T !! next_tid T = None).
    { apply eq_None_not_Some. intros [x Hx]. apply (ok_running T O) in Hx as [? _]. lia. }
    destruct create; intros x Hx; cbn; rewrite !add_refs_lookup, (R x Hx) by done.
    + rewrite users_insert by done. unfold uses. cbn. repeat case_decide; lia || naive_solver.
    + case_decide; lia.
  - unfold trampoline_store in Hs. destruct (running T !! k) as [[idx f e [v|]]|] eqn:Hk; [done| |done].
    destruct (vyb_threads T !! idx) as [t|]; [|done]. injection Hs as <-. intros x Hx. cbn. rewrite add_refs_lookup, (R x Hx) by done.
    pose proof (users_replace x (running T) k _ (mkRunning idx f e (Some r)) Hk) as U. unfold uses in U. cbn in U.
    repeat case_decide; lia || naive_solver.
  - unfold trampoline_end in Hs. destruct (running T !! k) as [[idx f e [v|]]|] eqn:Hk; [|done..].
    destruct (vyb_threads T !! idx) as [t|]; [|done]. injection Hs as <-. intros x Hx. cbn. rewrite (R x Hx).
    rewrite (users_delete x (running T) k _ Hk). unfold uses. cbn. case_decide; [naive_solver|lia].
  - unfold vyb_thread_join_start. destruct (slot_of h) as [idx|]; [|done]. destruct (vyb_threads T !! idx) as [t|]; [|done].
    by destruct (used t), (detach t), (joining t).
  - unfold vyb_thread_join_end in Hs. destruct (running T !! j.2); [done|]. destruct (vyb_threads T !! j.1); [|done]. by injection Hs as _ <-.
  - unfold vyb_thread_detach. destruct (slot_of h) as [idx|]; [|done]. destruct (vyb_threads T !! idx) as [t|]; [|done].
    by destruct (used t), (detach t).
Qed.

Lemma refs_reach T : rtc thread_step start_threads T -> refs_ok T.
Proof.
  intros H. pose proof start_threads_ok as O. assert (R : refs_ok start_threads) by (by intros e He).
  induction H as [|T T1 T2 Hs _ IH]; [done|]. apply IH; [by eapply thread_step_ok|by eapply thread_step_refs].
Qed.

(** ** Theorems *)

(** C22: whatever the threads do, a join that got past its checks returns the
    result of the very pthread that was in the slot then, as soon as that
    pthread has ended: its slot is not handed to another spawn meanwhile, even
    when it is detached during the join, and no second join waits for it. *)
Theorem thread_join_exact T :
  rtc thread_step start_threads T ->
  NoDup (joiners T)
  /\ (forall idx k k', (idx, k) ∈ joiners T -> (idx, k') ∈ joiners T -> k = k')
  /\ (forall idx k, (idx, k) ∈ joiners T ->
        match running T !! k with
        | Some x => run_slot x = idx
        | None => exists f e r T', exited T !! k = Some (f, e, r) /\ vyb_thread_join_end (idx, k) T = Some (r, T')
        end).
Proof.
  intros H. pose proof (threads_reach T H) as O. split_and!.
  - apply (ok_joiners T O).
  - intros idx k k' H1 H2. destruct (ok_joiner_slot T O idx k H1) as (t & Ht & <-). by rewrite (joiner_tid T idx t k' O Ht H2).
  - intros idx k Hin. destruct (ok_joiner_slot T O idx k Hin) as (t & Ht & E). destruct (running T !! k) as [x|] eqn:R.
    + pose proof (ok_slots T O idx t Ht) as S. destruct (ok_running T O k x R) as (_ & N & t2 & Ht2 & E2 & U2 & D2).
      rewrite <- E in Hin. apply (slot_joined _ _ _ S) in Hin. pose proof (slot_join_used _ _ _ S Hin) as U. subst k.
      destruct (done t) eqn:D; [|destruct (slot_running _ _ _ S U D) as (r & R' & _); congruence || by rewrite R' in R; simplify_eq].
      rewrite (slot_ended _ _ _ S U D) in N. done.
    + assert (J : exists r T', vyb_thread_join_end (idx, k) T = Some (r, T')).
      { unfold vyb_thread_join_end. cbn. rewrite R, Ht. by eexists _, _. }
      destruct J as (r & T' & J). destruct (join_end_result T idx k r T' O Hin J) as (f & e & X). by exists f, e, r, T'.
Qed.

(** One thread spawned, joined while it runs, and ended. *)
Definition joined_once : option Threads :=
  let T1 := (vyb_thread_spawn true 0x100 0x200 start_threads).2 in
  let T2 := (vyb_thread_join_start 1 T1).2 in
  T3 ← trampoline_store 0 42 T2; trampoline_end 0 T3.

Lemma joined_once_reach T : joined_once = Some T -> rtc thread_step start_threads T.
Proof.
  unfold joined_once. intros (T3 & E3 & E4)%bind_Some.
  eapply rtc_l; [apply (step_spawn _ true 0x100 0x200)|]. eapply rtc_l; [apply (step_join_start _ 1)|].
  eapply rtc_l; [by apply (step_store _ 0 42)|]. eapply rtc_l; [by apply (step_end _ 0)|]. done.
Qed.

Lemma thread_join_exact_witness :
  exists T, joined_once = Some T /\ exists r T', vyb_thread_join_end (0%nat, 0%nat) T = Some (r, T') /\ r = 42.
Proof.
  destruct joined_once as [T|] eqn:E; [|by vm_compute in E]. exists T. split; [done|].
  destruct (thread_join_exact T (joined_once_reach T E)) as (_ & _ & H).
  vm_compute in E. injection E as <-. specialize (H 0%nat 0%nat ltac:(by left)). cbn in H.
  destruct H as (f & e & r & T' & X & J). exists r, T'. split; [exact J|]. vm_compute in X. by injection X as _ _ <-.
Defined.

(** A closure environment handed to threads carries one reference for
    each thread whose body has not returned, and none once they all have: it
    is not freed under a running body and the references are given back, on a
    failed spawn too. A detached slot whose thread has ended is free again
    unless a join still waits on it. *)
Theorem thread_references T :
  rtc thread_step start_threads T ->
  (forall e, e <> NULL -> default 0 (closure_refs T !! e) = Z.of_nat (users e (running T)))
  /\ (forall idx t, vyb_threads T !! idx = Some t -> done t = true -> detach t = true -> used t = true ->
        (idx, tid t) ∈ joiners T).
Proof.
  intros H. split; [exact (refs_reach T H)|]. intros idx t Ht D De U.
  pose proof (ok_slots T (threads_reach T H) idx t Ht) as S. apply (slot_joined _ _ _ S). by apply (slot_reaped _ _ _ S).
Qed.

Lemma thread_references_witness :
  exists T, joined_once = Some T /\ default 0 (closure_refs T !! 0x100) = 0.
Proof.
  destruct joined_once as [T|] eqn:E; [|by vm_compute in E]. exists T. split; [done|].
  etransitivity; [by apply (proj1 (thread_references T (joined_once_reach T E)) 0x100)|].
  vm_compute in E. injection E as <-. by vm_compute.
Defined.

(** A handle names a slot, not a thread: the handle of a joined thread joins
    the thread that took the slot since, and a handle is cut to 32 bits. *)
Example stale_handle_joins :
  match joined_once with
  | Some T =>
      match vyb_thread_join_end (0%nat, 0%nat) T with
      | Some (_, T1) =>
          let '(h, T2) := vyb_thread_spawn true 0x108 0x208 T1 in
          h = 1 /\ (vyb_thread_join_start 1 T2).1 = Some (0%nat, 1%nat)
          /\ (vyb_thread_join_start (2 ^ 32 + 1) T2).1 = Some (0%nat, 1%nat)
      | None => False
      end
  | None => False
  end.
Proof. by vm_compute. Qed.
