(* ===== verification/Agents.v ===== *)
(** * Agents

    The agents of runtime/vyb_runtime.c: a table of 64 slots, each with a
    mailbox (a channel) and a worker that hands the messages to a behavior.
    A handle carries the slot and the generation the slot had at the spawn, and
    an atomic tag per slot holds the generation with a live bit. *)

From S2P Require Import Prelude.
From S2P Require Import Words.
From S2P Require Import StrRegistry.
From S2P Require Import Channel.
#[local] Open Scope Z_scope.

Definition VYB_AGENT_CAP : nat := 64.

Inductive agent_kind : Type := AGENT_KIND_INT | AGENT_KIND_BOOL | AGENT_KIND_FLOAT | AGENT_KIND_STRING.
#[global] Instance agent_kind_eq_dec : EqDecision agent_kind.
Proof. solve_decision. Defined.

Record vyb_agent : Type := mkAgent {
  mailbox : Z;
  agent_fn : ptr;
  agent_env : ptr;
  kind : agent_kind;
  failable : bool;
  failed : bool;
  error : Z;
  dead_letter : Z;
  used : bool;
  done : bool;
  gen : Z;
  tag : Z
}.
Definition empty_agent : vyb_agent := mkAgent 0 NULL NULL AGENT_KIND_INT false false 0 0 false false 0 0.

(** The runtime the agents live in: the table, the two kinds of channels, the
    string registry, and the workers that have not been joined. *)
Record Agents : Type := mkAgents {
  vyb_agents : list vyb_agent;
  chans : gmap Z (vyb_chan Z);
  strchans : gmap Z (vyb_chan (ptr * Z));
  strings : Registry;
  workers : gset (nat * Z)    (* slot and generation of pthreads not yet joined *)
}.

Definition set_agent (i : nat) (a : vyb_agent) (S : Agents) : Agents :=
  mkAgents (<[i := a]> (vyb_agents S)) (chans S) (strchans S) (strings S) (workers S).
Definition set_chans (H : gmap Z (vyb_chan Z)) (S : Agents) : Agents := mkAgents (vyb_agents S) H (strchans S) (strings S) (workers S).
Definition set_strchans (H : gmap Z (vyb_chan (ptr * Z))) (R : Registry) (S : Agents) : Agents :=
  mkAgents (vyb_agents S) (chans S) H R (workers S).

(** ** Handles *)

Definition handle_of (g : Z) (idx : nat) : Z := s64 (Z.lor (u64 (Z.shiftl g 20)) (Z.of_nat idx + 1)).
Definition live_tag (g : Z) : Z := Z.lor (u64 (Z.shiftl g 1)) 1.
Definition dead_tag (g : Z) : Z := u64 (Z.shiftl g 1).

Definition vyb_agent_slot (handle : Z) (l : list vyb_agent) : option nat :=
  if handle <=? 0 then None
  else
    let h := u64 handle in
    let idx := Z.land h 0xFFFFF - 1 in
    if (idx <? 0) || (Z.of_nat VYB_AGENT_CAP <=? idx) then None
    else
      let t := tag (default empty_agent (l !! Z.to_nat idx)) in
      if negb (Z.land t 1 =? 0) && (Z.shiftr t 1 =? Z.shiftr h 20) then Some (Z.to_nat idx) else None.

Definition vyb_agent_valid (handle : Z) (l : list vyb_agent) : Z := match vyb_agent_slot handle l with Some _ => 1 | None => 0 end.

(** The operations that look up a handle first. *)
Definition with_agent {R} (handle : Z) (S : Agents) (bad : R) (f : nat -> vyb_agent -> outcome (R * Agents)) : outcome (R * Agents) :=
  match vyb_agent_slot handle (vyb_agents S) with
  | None => Done (bad, S)
  | Some idx => f idx (default empty_agent (vyb_agents S !! idx))
  end.

(** ** Mailboxes *)

Definition on_chans {R} (S : Agents) (o : outcome (R * gmap Z (vyb_chan Z))) : outcome (R * Agents) :=
  match o with Done (r, H) => Done (r, set_chans H S) | Blocked => Blocked | Undefined => Undefined end.

(** An operation of the String channel a mailbox names. *)
Definition on_strchan {R} (ch : Z) (bad : R) (S : Agents) (f : vyb_chan (ptr * Z) -> outcome ((R * Registry) * option (vyb_chan (ptr * Z))))
    : outcome (R * Agents) :=
  if ch =? 0 then Done (bad, S)
  else match strchans S !! ch with
       | None => Undefined
       | Some c => match f c with
                   | Done ((r, R'), Some c') => Done (r, set_strchans (<[ch := c']> (strchans S)) R' S)
                   | Done ((r, R'), None) => Done (r, set_strchans (delete ch (strchans S)) R' S)
                   | Blocked => Blocked
                   | Undefined => Undefined
                   end
       end.

Definition with_registry {R A} (R0 : Registry) (o : outcome (R * A)) : outcome ((R * Registry) * A) := map_result (fun r => (r, R0)) o.

Definition mailbox_close (k : agent_kind) (ch : Z) (S : Agents) : outcome (Z * Agents) :=
  match k with
  | AGENT_KIND_STRING => on_strchan ch 0 S (fun c => with_registry (strings S) (vyb_strchan_close (Some c)))
  | _ => on_chans S (vyb_chan_close ch (chans S))
  end.

Definition mailbox_free (k : agent_kind) (ch : Z) (S : Agents) : outcome (Z * Agents) :=
  match k with
  | AGENT_KIND_STRING =>
      on_strchan ch (-1) S (fun c => match vyb_strchan_free (Some c) (strings S) with
                                     | Done (r, R') => Done ((r, R'), None) | Blocked => Blocked | Undefined => Undefined end)
  | _ => on_chans S (vyb_chan_free ch (chans S))
  end.

Definition mailbox_len (k : agent_kind) (ch : Z) (S : Agents) : outcome (Z * Agents) :=
  match k with
  | AGENT_KIND_STRING => on_strchan ch (-1) S (fun c => with_registry (strings S) (vyb_strchan_len (Some c)))
  | _ => on_chans S (vyb_chan_len ch (chans S))
  end.

(** [a] is the address of the new channel, 0 when its creation failed. *)
Definition mailbox_new (k : agent_kind) (a : Z) (cap : Z) (S : Agents) : Z * Agents :=
  match k with
  | AGENT_KIND_STRING =>
      if a =? 0 then (0, S)
      else match vyb_strchan_new true true true true cap with
           | Some c => (a, set_strchans (<[a := c]> (strchans S)) (strings S) S)
           | None => (0, S)
           end
  | _ => let '(ch, H) := vyb_chan_new a true true true cap (chans S) in (ch, set_chans H S)
  end.

(** ** Spawn *)

Definition first_free (l : list vyb_agent) : option nat := fst <$> list_find (fun a => used a = false) l.

Definition ignore {A} (S : Agents) (o : outcome (A * Agents)) : Agents := match o with Done (_, S') => S' | _ => S end.

(** [create] is whether [pthread_create] succeeds. *)
Definition vyb_agent_spawn (a : Z) (create : bool) (e f : ptr) (k : agent_kind) (fl : bool) (cap : Z) (S : Agents) : Z * Agents :=
  if f =? NULL then (0, S)
  else
    let '(ch, S1) := mailbox_new k a cap S in
    if ch =? 0 then (0, S1)
    else
      match first_free (vyb_agents S1) with
      | None => (0, ignore S1 (mailbox_free k ch S1))
      | Some idx =>
          let old := default empty_agent (vyb_agents S1 !! idx) in
          let g := u64 (gen old + 1) in
          let born u := mkAgent ch f e k fl false 0 0 u false g (live_tag g) in
          if create then
            (handle_of g idx,
             mkAgents (<[idx := born true]> (vyb_agents S1)) (chans S1) (strchans S1) (strings S1) ({[ (idx, g) ]} ∪ workers S1))
          else
            let S2 := set_agent idx (born false) S1 in
            (0, ignore S2 (mailbox_free k ch S2))
      end.

Definition vyb_agent_start (a : Z) (create : bool) (e f : ptr) (fl : bool) (cap : Z) := vyb_agent_spawn a create e f AGENT_KIND_INT fl cap.
Definition vyb_agent_start_bool (a : Z) (create : bool) (e f : ptr) (fl : bool) (cap : Z) := vyb_agent_spawn a create e f AGENT_KIND_BOOL fl cap.
Definition vyb_agent_start_float (a : Z) (create : bool) (e f : ptr) (fl : bool) (cap : Z) := vyb_agent_spawn a create e f AGENT_KIND_FLOAT fl cap.
Definition vyb_agent_start_string (a : Z) (create : bool) (e f : ptr) (fl : bool) (cap : Z) := vyb_agent_spawn a create e f AGENT_KIND_STRING fl cap.

(** ** Messages *)

Definition vyb_agent_send (memory : bool) (handle v : Z) (S : Agents) : outcome (Z * Agents) :=
  with_agent handle S 0 (fun _ a => on_chans S (vyb_chan_send memory (mailbox a) v (chans S))).
Definition vyb_agent_send_bool (memory : bool) (handle b : Z) (S : Agents) : outcome (Z * Agents) :=
  with_agent handle S 0 (fun _ a => on_chans S (vyb_chan_send memory (mailbox a) (Z.land b 1) (chans S))).
Definition vyb_agent_send_float (memory : bool) (handle bits : Z) (S : Agents) : outcome (Z * Agents) :=
  with_agent handle S 0 (fun _ a => on_chans S (vyb_chan_send memory (mailbox a) bits (chans S))).
Definition vyb_agent_send_string (memory : bool) (handle : Z) (p : ptr) (len : Z) (S : Agents) : outcome (Z * Agents) :=
  with_agent handle S 0 (fun _ a => on_strchan (mailbox a) 0 S (fun c => vyb_strchan_send memory (Some c) p len (strings S))).

Definition vyb_agent_len (handle : Z) (S : Agents) : outcome (Z * Agents) :=
  with_agent handle S (-1) (fun _ a => mailbox_len (kind a) (mailbox a) S).
Definition vyb_agent_mailbox (handle : Z) (S : Agents) : outcome (Z * Agents) :=
  with_agent handle S (-1) (fun _ a => Done (if decide (kind a = AGENT_KIND_STRING) then -1 else mailbox a, S)).
Definition vyb_agent_alive (handle : Z) (S : Agents) : outcome (Z * Agents) :=
  with_agent handle S 0 (fun _ a => Done (if done a then 0 else 1, S)).
Definition vyb_agent_close (handle : Z) (S : Agents) : outcome (Z * Agents) :=
  with_agent handle S (-1) (fun _ a => mailbox_close (kind a) (mailbox a) S).

Definition vyb_agent_status (handle : Z) (S : Agents) : outcome (Z * Agents) :=
  with_agent handle S (-1) (fun _ a => Done (if failed a then 2 else if done a then 1 else 0, S)).
Definition vyb_agent_set_dead_letter (handle ch : Z) (S : Agents) : outcome (Z * Agents) :=
  with_agent handle S (-1) (fun idx a =>
    Done (1, set_agent idx (mkAgent (mailbox a) (agent_fn a) (agent_env a) (kind a) (failable a) (failed a) (error a) ch
                              (used a) (done a) (gen a) (tag a)) S)).

(** ** Free

    Up to [pthread_join], and after it. Joining a pthread twice is
    undefined. *)

Definition agent_free_start (handle : Z) (S : Agents) : outcome (option nat * Agents) :=
  with_agent handle S None (fun idx a =>
    if done a then Done (Some idx, S)
    else match mailbox_close (kind a) (mailbox a) S with
         | Done (_, S') => Done (Some idx, S') | Blocked => Blocked | Undefined => Undefined
         end).

Definition agent_free_end (idx : nat) (S : Agents) : outcome (Z * Agents) :=
  let a := default empty_agent (vyb_agents S !! idx) in
  if negb (bool_decide ((idx, gen a) ∈ workers S)) then Undefined
  else if negb (done a) then Blocked
  else
    let S1 := mkAgents (vyb_agents S) (chans S) (strchans S) (strings S) (workers S ∖ {[ (idx, gen a) ]}) in
    match mailbox_free (kind a) (mailbox a) S1 with
    | Done (_, S2) =>
        Done (0, set_agent idx (mkAgent 0 NULL NULL (kind a) (failable a) (failed a) 0 (dead_letter a) false false
                                  (gen a) (dead_tag (gen a))) S2)
    | Blocked => Blocked
    | Undefined => Undefined
    end.

(** ** The worker *)

Inductive payload : Type := Scalar (v : Z) | Text (p : ptr) (len : Z).

(** [vyb_agent_close_self]. *)
Definition vyb_agent_close_self (memory : bool) (idx : nat) (err : Z) (S : Agents) : outcome Agents :=
  let a := default empty_agent (vyb_agents S !! idx) in
  let a' := mkAgent (mailbox a) (agent_fn a) (agent_env a) (kind a) (failable a) true (if err =? 0 then error a else err)
              (dead_letter a) (used a) (done a) (gen a) (tag a) in
  match mailbox_close (kind a) (mailbox a) (set_agent idx a' S) with
  | Done (_, S1) =>
      if dead_letter a =? 0 then Done S1
      else match on_chans S1 (vyb_chan_send memory (dead_letter a) (handle_of (gen a) idx) (chans S1)) with
           | Done (_, S2) => Done S2 | Blocked => Blocked | Undefined => Undefined
           end
  | Blocked => Blocked
  | Undefined => Undefined
  end.

(** One receive of the loop: the event for the behavior, [None] when the
    mailbox is closed and drained. *)
Definition agent_receive (a : vyb_agent) (S : Agents) : outcome (option payload * Agents) :=
  match kind a with
  | AGENT_KIND_STRING =>
      on_strchan (mailbox a) None S (fun c =>
        with_registry (strings S) (map_result (fun r : Z * option (ptr * Z) => (fun s => Text s.1 s.2) <$> r.2) (vyb_strchan_recv_opt (Some c) true)))
  | AGENT_KIND_BOOL =>
      on_chans S (map_result (fun r : Z * option Z => (fun v => Scalar (if v =? 0 then 0 else 1)) <$> r.2) (vyb_chan_recv_opt (mailbox a) true (chans S)))
  | _ => on_chans S (map_result (fun r : Z * option Z => Scalar <$> r.2) (vyb_chan_recv_opt (mailbox a) true (chans S)))
  end.

Section Worker.
(** The behavior: its state, and the error it propagates (0 for none). *)
Context {St : Type} (behave : St -> option payload -> St * Z).

(** The loop up to its exit; a loop that has to wait stays [Blocked]. *)
Fixpoint agent_loop (fuel : nat) (idx : nat) (st : St) (S : Agents) : outcome (St * Agents) :=
  match fuel with
  | O => Blocked
  | Datatypes.S fuel' =>
      let a := default empty_agent (vyb_agents S !! idx) in
      match agent_receive a S with
      | Done (ev, S1) =>
          let '(st', err) := behave st ev in
          if failable a && negb (err =? 0) then
            match vyb_agent_close_self true idx err S1 with
            | Done S2 => Done (st', S2) | Blocked => Blocked | Undefined => Undefined
            end
          else match ev with Some _ => agent_loop fuel' idx st' S1 | None => Done (st', S1) end
      | Blocked => Blocked
      | Undefined => Undefined
      end
  end.

Definition agent_exit (idx : nat) (S : Agents) : Agents :=
  let a := default empty_agent (vyb_agents S !! idx) in
  set_agent idx (mkAgent (mailbox a) (agent_fn a) (agent_env a) (kind a) (failable a) (failed a) (error a) (dead_letter a)
                   (used a) true (gen a) (tag a)) S.

Definition vyb_agent_loop (fuel : nat) (idx : nat) (st : St) (S : Agents) : outcome (St * Agents) :=
  match agent_loop fuel idx st S with Done (st', S') => Done (st', agent_exit idx S') | Blocked => Blocked | Undefined => Undefined end.

(** What a behavior does with a list of events: it runs to the end or to the
    first error. *)
Fixpoint consume (fl : bool) (st : St) (evs : list (option payload)) : St * option Z :=
  match evs with
  | [] => (st, None)
  | ev :: evs' =>
      let '(st', err) := behave st ev in
      if fl && negb (err =? 0) then (st', Some err) else consume fl st' evs'
  end.

Definition scalar_of (k : agent_kind) (v : Z) : payload :=
  match k with AGENT_KIND_BOOL => Scalar (if v =? 0 then 0 else 1) | _ => Scalar v end.

Definition outcome_agent (a : vyb_agent) (err : option Z) : vyb_agent :=
  mkAgent (mailbox a) (agent_fn a) (agent_env a) (kind a) (failable a)
    (match err with Some _ => true | None => failed a end) (default (error a) err) (dead_letter a) (used a) true (gen a) (tag a).

Lemma receive_scalar a S (c : vyb_chan Z) (q : list Z) : kind a <> AGENT_KIND_STRING -> mailbox a <> 0 ->
  chans S !! mailbox a = Some c -> chan_ok 8 c q -> closed c = true ->
  exists c', agent_receive a S = Done (scalar_of (kind a) <$> hd_error q, set_chans (<[mailbox a := c']> (chans S)) S)
    /\ chan_ok 8 c' (tail q) /\ closed c' = true.
Proof.
  intros Hk Hm Hc O Cl. pose proof (recv_ok 8 c q true O) as R.
  assert (E : forall g : Z * option Z -> option payload, exists c',
    on_chans S (map_result g (vyb_chan_recv_opt (mailbox a) true (chans S)))
    = Done (g (present (hd_error q)), set_chans (<[mailbox a := c']> (chans S)) S)
    /\ chan_ok 8 c' (tail q) /\ closed c' = true).
  { intros g. unfold vyb_chan_recv_opt, with_chan. cbn [negb]. rewrite (proj2 (Z.eqb_neq _ 0) Hm), Hc. destruct q as [|v q].
    - rewrite R, Cl. cbn [negb andb map_result on_chans hd_error tail]. by exists c.
    - destruct R as (c' & -> & O' & _ & C' & _). cbn [map_result on_chans hd_error tail]. exists c'. split_and!; [done|done|congruence]. }
  unfold agent_receive, scalar_of. destruct (kind a); [| | |done].
  all: match goal with |- exists c', on_chans _ (map_result ?g _) = _ /\ _ => destruct (E g) as (c' & E' & H); exists c'; split; [rewrite E'|done] end.
  all: f_equal; f_equal; by destruct q.
Qed.

Lemma slot_lookup S idx a : vyb_agents S !! idx = Some a -> default empty_agent (vyb_agents S !! idx) = a.
Proof. by intros ->. Qed.

Definition failed_agent (a : vyb_agent) (err : Z) : vyb_agent :=
  mkAgent (mailbox a) (agent_fn a) (agent_env a) (kind a) (failable a) true (if err =? 0 then error a else err)
    (dead_letter a) (used a) (done a) (gen a) (tag a).

Lemma mailbox_close_scalar k ch S c : k <> AGENT_KIND_STRING -> ch <> 0 -> chans S !! ch = Some c ->
  mailbox_close k ch S = Done (1, set_chans (<[ch := chan_close c]> (chans S)) S).
Proof.
  intros Hk Hm Hc. unfold mailbox_close, vyb_chan_close, with_chan. rewrite (proj2 (Z.eqb_neq ch 0) Hm), Hc. by destruct k.
Qed.

Lemma close_self_scalar idx a err S c : kind a <> AGENT_KIND_STRING -> mailbox a <> 0 -> dead_letter a = 0 ->
  vyb_agents S !! idx = Some a -> chans S !! mailbox a = Some c ->
  vyb_agent_close_self true idx err S
  = Done (set_chans (<[mailbox a := chan_close c]> (chans S)) (set_agent idx (failed_agent a err) S)).
Proof.
  intros Hk Hm Hd Ha Hc. unfold vyb_agent_close_self. rewrite (slot_lookup S idx a Ha). fold (failed_agent a err).
  rewrite (mailbox_close_scalar _ _ _ c Hk Hm) by done. by rewrite Hd.
Qed.

Lemma exit_agents idx a b S : vyb_agents S = b -> b !! idx = Some a ->
  vyb_agents (agent_exit idx S) = <[idx := outcome_agent a None]> b.
Proof. intros <- Ha. unfold agent_exit. rewrite (slot_lookup S idx a Ha). done. Qed.

(** A worker whose mailbox has been closed hands its behavior exactly the
    buffered messages, in order, and then one absent value, and it ends: after
    the absent value, or at the first error of a failable behavior, which it
    records, the messages behind it untouched. *)
Theorem agent_consumes idx a q st S c :
  kind a <> AGENT_KIND_STRING -> mailbox a <> 0 -> dead_letter a = 0 ->
  vyb_agents S !! idx = Some a -> chans S !! mailbox a = Some c -> chan_ok 8 c q -> closed c = true ->
  let r := consume (failable a) st ((Some ∘ scalar_of (kind a) <$> q) ++ [None]) in
  exists S', vyb_agent_loop (Datatypes.S (length q)) idx st S = Done (r.1, S')
    /\ vyb_agents S' = <[idx := outcome_agent a r.2]> (vyb_agents S).
Proof.
  intros Hk Hm Hd. revert st S c. induction q as [|v q IH]; intros st S c Ha Hc O Cl.
  all: destruct (receive_scalar a S c _ Hk Hm Hc O Cl) as (c' & E & O' & Cl').
  all: set (S1 := set_chans (<[mailbox a := c']> (chans S)) S) in *.
  all: assert (Hc1 : chans S1 !! mailbox a = Some c') by apply lookup_insert_eq.
  all: assert (Fail : forall err, err <> 0 -> exists S', vyb_agent_close_self true idx err S1 = Done S'
         /\ vyb_agents (agent_exit idx S') = <[idx := outcome_agent a (Some err)]> (vyb_agents S)).
  1, 3: intros err Herr; rewrite (close_self_scalar idx a err S1 c' Hk Hm Hd Ha Hc1); eexists; split; [reflexivity|];
    erewrite exit_agents; [|cbn; reflexivity|apply list_lookup_insert_eq; by eapply lookup_lt_Some];
    rewrite list_insert_insert_eq; unfold outcome_agent, failed_agent; cbn; by rewrite (proj2 (Z.eqb_neq err 0) Herr).
  all: unfold vyb_agent_loop; cbn [length agent_loop fmap list_fmap app consume]; rewrite (slot_lookup S idx a Ha), E; cbn [hd_error fmap option_fmap option_map].
  - destruct (behave st None) as [st' err]. destruct (Z.eqb_spec err 0) as [->|He]; cbn [negb].
    + rewrite andb_false_r. eexists. split; [done|]. by apply exit_agents.
    + rewrite andb_true_r. destruct (failable a); [|eexists; split; [done|]; by apply exit_agents].
      destruct (Fail err He) as (S' & -> & F). by eexists.
  - cbn [compose]. destruct (behave st (Some (scalar_of (kind a) v))) as [st' err].
    specialize (IH st' S1 c' Ha Hc1 O' Cl'). unfold vyb_agent_loop in IH.
    destruct (Z.eqb_spec err 0) as [->|He]; cbn [negb]; [by rewrite andb_false_r|].
    rewrite andb_true_r. destruct (failable a); [|done]. destruct (Fail err He) as (S' & -> & F). by eexists.
Qed.
End Worker.

(** ** Handles and generations *)

Lemma u64_shift g n : 0 <= n -> 0 <= g -> g * 2 ^ n < 2 ^ 64 -> u64 (Z.shiftl g n) = Z.shiftl g n.
Proof. intros Hn Hg H. apply u64_small. rewrite Z.shiftl_mul_pow2 by done. split; [|done]. apply Z.mul_nonneg_nonneg; [done|]. apply Z.pow_nonneg. lia. Qed.

Lemma handle_value g idx : 0 <= g < 2 ^ 43 -> (idx < VYB_AGENT_CAP)%nat -> handle_of g idx = g * 2 ^ 20 + (Z.of_nat idx + 1).
Proof.
  intros Hg Hi. unfold VYB_AGENT_CAP in Hi. unfold handle_of. rewrite u64_shift, shift_or by lia. apply s64_small. lia.
Qed.

Lemma live_tag_value g : 0 <= g < 2 ^ 63 -> live_tag g = g * 2 + 1.
Proof. intros Hg. unfold live_tag. rewrite u64_shift, shift_or by lia. lia. Qed.

Lemma dead_tag_value g : 0 <= g < 2 ^ 63 -> dead_tag g = g * 2.
Proof. intros Hg. unfold dead_tag. rewrite u64_shift by lia. by rewrite Z.shiftl_mul_pow2. Qed.

(** What a slot's tag can be: live or dead, with the slot's generation. *)
Definition tag_ok (a : vyb_agent) : Prop := tag a = live_tag (gen a) \/ tag a = dead_tag (gen a).

Lemma tag_reads a : 0 <= gen a < 2 ^ 63 -> tag_ok a ->
  Z.shiftr (tag a) 1 = gen a /\ (Z.land (tag a) 1 =? 0) = bool_decide (tag a = dead_tag (gen a)).
Proof.
  intros Hg H. rewrite Z.shiftr_div_pow2, (land_low _ 1) by lia. change (2 ^ 1) with 2.
  rewrite dead_tag_value by done. destruct H as [->| ->]; rewrite ?live_tag_value, ?dead_tag_value by done.
  - rewrite bool_decide_eq_false_2 by lia. split; [rewrite Z.div_add_l by lia; change (1 / 2) with 0; lia|]. by rewrite Z.add_comm, Z.mod_add by lia.
  - rewrite bool_decide_eq_true_2 by lia. split; [by rewrite Z.div_mul by lia|]. by rewrite Z.mod_mul by lia.
Qed.

Lemma handle_resolves g idx l a i : 0 < g < 2 ^ 43 -> (idx < VYB_AGENT_CAP)%nat -> l !! idx = Some a -> 0 <= gen a < 2 ^ 63 -> tag_ok a ->
  vyb_agent_slot (handle_of g idx) l = Some i <-> i = idx /\ gen a = g /\ tag a = live_tag g.
Proof.
  intros Hg Hi Ha Hga Ht. unfold vyb_agent_slot. rewrite handle_value by lia. unfold VYB_AGENT_CAP in *.
  rewrite (proj2 (Z.leb_gt _ _)) by lia. rewrite u64_small by lia.
  change 0xFFFFF with (Z.ones 20). rewrite land_low by lia.
  rewrite Z.add_comm, Z.mod_add, Z.mod_small by lia. replace (Z.of_nat idx + 1 - 1) with (Z.of_nat idx) by lia.
  rewrite (proj2 (Z.ltb_ge _ _)), (proj2 (Z.leb_gt _ _)) by lia. cbn [orb]. rewrite Nat2Z.id, Ha. change (default empty_agent (Some a)) with a.
  destruct (tag_reads a Hga Ht) as [-> ->]. rewrite Z.shiftr_div_pow2 by lia.
  rewrite Z.div_add, Z.div_small by lia. rewrite Z.add_0_l.
  destruct (Z.eqb_spec (gen a) g) as [Eg|Hne]; [|rewrite andb_false_r; split; [done|naive_solver]]. rewrite andb_true_r.
  case_bool_decide as Hd; cbn [negb].
  - split; [done|]. intros (_ & _ & E). rewrite Hd, Eg, dead_tag_value, live_tag_value in E by lia. lia.
  - destruct Ht as [Ht|Ht]; [|done]. rewrite Eg in Ht. split; [by intros [= ->]|by intros (-> & _)].
Qed.

(** The operations as steps of the runtime. *)
Inductive agent_step : Agents -> Agents -> Prop :=
| step_agent_spawn S a create e f k fl cap : agent_step S (vyb_agent_spawn a create e f k fl cap S).2
| step_agent_send S memory h v r S' : vyb_agent_send memory h v S = Done (r, S') -> agent_step S S'
| step_agent_send_string S memory h p len r S' : vyb_agent_send_string memory h p len S = Done (r, S') -> agent_step S S'
| step_agent_close S h r S' : vyb_agent_close h S = Done (r, S') -> agent_step S S'
| step_agent_dead_letter S h ch r S' : vyb_agent_set_dead_letter h ch S = Done (r, S') -> agent_step S S'
| step_agent_receive S idx ev S' : agent_receive (default empty_agent (vyb_agents S !! idx)) S = Done (ev, S') -> agent_step S S'
| step_agent_fail S memory idx err S' : vyb_agent_close_self memory idx err S = Done S' -> agent_step S S'
| step_agent_exit S idx : agent_step S (agent_exit idx S)
| step_agent_free_start S h r S' : agent_free_start h S = Done (r, S') -> agent_step S S'
| step_agent_free_end S idx r S' : agent_free_end idx S = Done (r, S') -> agent_step S S'.

(** What a step does to a slot's generation and tag. *)
Definition ages (a a' : vyb_agent) : Prop :=
  gen a' = gen a /\ (tag a' = tag a \/ tag a' = dead_tag (gen a))
  \/ gen a' = u64 (gen a + 1) /\ tag a' = live_tag (gen a').

Definition table_ages (l l' : list vyb_agent) : Prop := Forall2 ages l l'.

Lemma ages_refl a : ages a a.
Proof. left. auto. Qed.

Lemma table_ages_refl l : table_ages l l.
Proof. induction l; constructor; [apply ages_refl|done]. Qed.

Lemma table_ages_insert l idx a' : ages (default empty_agent (l !! idx)) a' -> table_ages l (<[idx := a']> l).
Proof.
  revert idx. induction l as [|a l IH]; intros [|idx] H; cbn in *.
  - constructor.
  - constructor.
  - constructor; [done|apply table_ages_refl].
  - constructor; [apply ages_refl|by apply IH].
Qed.

(** Operations on channels leave the table. *)
Lemma on_chans_agents {R} S o (r : R) S' : on_chans S o = Done (r, S') -> vyb_agents S' = vyb_agents S.
Proof. destruct o as [[r' H]| |]; cbn; [|done..]. by intros [= _ <-]. Qed.

Lemma on_strchan_agents {R} ch (bad : R) S f r S' : on_strchan ch bad S f = Done (r, S') -> vyb_agents S' = vyb_agents S.
Proof.
  unfold on_strchan. destruct (ch =? 0); [by intros [= _ <-]|]. destruct (strchans S !! ch) as [c|]; [|done].
  destruct (f c) as [[[r' R'] [c'|]]| |]; [by intros [= _ <-]..|done|done].
Qed.

Lemma mailbox_close_agents k ch S r S' : mailbox_close k ch S = Done (r, S') -> vyb_agents S' = vyb_agents S.
Proof. unfold mailbox_close. destruct k; (apply on_chans_agents || apply on_strchan_agents). Qed.

Lemma mailbox_free_agents k ch S r S' : mailbox_free k ch S = Done (r, S') -> vyb_agents S' = vyb_agents S.
Proof. unfold mailbox_free. destruct k; (apply on_chans_agents || apply on_strchan_agents). Qed.

Lemma ignore_agents {A} S (o : outcome (A * Agents)) :
  (forall r S', o = Done (r, S') -> vyb_agents S' = vyb_agents S) -> vyb_agents (ignore S o) = vyb_agents S.
Proof. intros H. destruct o as [[r S']| |]; [by eapply H|done|done]. Qed.

Lemma mailbox_new_agents k a cap S : vyb_agents (mailbox_new k a cap S).2 = vyb_agents S.
Proof.
  unfold mailbox_new. destruct k.
  1-3: by destruct (vyb_chan_new a true true true cap (chans S)).
  destruct (a =? 0); [done|]. by destruct (vyb_strchan_new true true true true cap).
Qed.

Lemma with_agent_agents {R} h S (bad : R) f r S' :
  (forall idx a r S', f idx a = Done (r, S') -> table_ages (vyb_agents S) (vyb_agents S')) ->
  with_agent h S bad f = Done (r, S') -> table_ages (vyb_agents S) (vyb_agents S').
Proof.
  intros H. unfold with_agent. destruct (vyb_agent_slot _ _) as [idx|]; [apply H|]. intros [= _ <-]. apply table_ages_refl.
Qed.

Lemma spawn_ages a create e f k fl cap S : table_ages (vyb_agents S) (vyb_agents (vyb_agent_spawn a create e f k fl cap S).2).
Proof.
  unfold vyb_agent_spawn. destruct (f =? NULL); [apply table_ages_refl|].
  pose proof (mailbox_new_agents k a cap S) as M. destruct (mailbox_new k a cap S) as [ch S1]. cbn [snd] in M. rewrite <- M.
  destruct (ch =? 0); [apply table_ages_refl|]. destruct (first_free (vyb_agents S1)) as [idx|]; cbn [snd].
  - destruct create; cbn [snd].
    + apply table_ages_insert. right. done.
    + rewrite ignore_agents by (intros r S'; apply mailbox_free_agents). apply table_ages_insert. right. done.
  - rewrite ignore_agents by (intros r S'; apply mailbox_free_agents). apply table_ages_refl.
Qed.

Lemma close_self_ages memory idx err S S' : vyb_agent_close_self memory idx err S = Done S' -> table_ages (vyb_agents S) (vyb_agents S').
Proof.
  unfold vyb_agent_close_self. set (a := default empty_agent (vyb_agents S !! idx)). fold (failed_agent a err).
  assert (G : table_ages (vyb_agents S) (<[idx := failed_agent a err]> (vyb_agents S))) by (apply table_ages_insert; left; auto).
  destruct (mailbox_close _ _ _) as [[r S1]| |] eqn:E; [|done..]. apply mailbox_close_agents in E. cbn in E.
  destruct (dead_letter a =? 0); [intros [= <-]; by rewrite E|].
  destruct (on_chans S1 _) as [[r2 S2]| |] eqn:E2; [|done..]. intros [= <-]. apply on_chans_agents in E2. by rewrite E2, E.
Qed.

Lemma free_end_ages idx S r S' : agent_free_end idx S = Done (r, S') -> table_ages (vyb_agents S) (vyb_agents S').
Proof.
  unfold agent_free_end. set (a := default empty_agent (vyb_agents S !! idx)). destruct (negb _); [done|]. destruct (negb _); [done|].
  destruct (mailbox_free _ _ _) as [[r2 S2]| |] eqn:E; [|done..]. intros [= _ <-]. apply mailbox_free_agents in E. cbn in E |- *. rewrite E.
  apply table_ages_insert. left. split; [done|by right].
Qed.

Lemma agent_step_ages S S' : agent_step S S' -> table_ages (vyb_agents S) (vyb_agents S').
Proof.
  assert (Same : forall l l', l' = l -> table_ages l l') by (intros l l' ->; apply table_ages_refl).
  intros H. destruct H as [S a create e f k fl cap|S memory h v r S' H|S memory h p len r S' H|S h r S' H|S h ch r S' H|S idx ev S' H|S memory idx err S' H|S idx|S h r S' H|S idx r S' H].
  - apply spawn_ages.
  - revert H. apply with_agent_agents. intros idx a r' S2 E. apply Same. by eapply on_chans_agents.
  - revert H. apply with_agent_agents. intros idx a r' S2 E. apply Same. by eapply on_strchan_agents.
  - revert H. apply with_agent_agents. intros idx a r' S2 E. apply Same. by eapply mailbox_close_agents.
  - revert H. unfold vyb_agent_set_dead_letter, with_agent. destruct (vyb_agent_slot _ _) as [idx|]; [|intros [= _ <-]; by apply Same].
    intros [= _ <-]. apply table_ages_insert. left. auto.
  - apply Same. unfold agent_receive in H. destruct (kind _); first [by eapply on_chans_agents|by eapply on_strchan_agents].
  - by eapply close_self_ages.
  - apply table_ages_insert. left. auto.
  - revert H. apply with_agent_agents. intros idx a r' S2. destruct (done a); [intros [= _ <-]; by apply Same|].
    destruct (mailbox_close _ _ _) as [[r2 S3]| |] eqn:E; [|done..]. intros [= _ <-]. apply Same. by eapply mailbox_close_agents.
  - by eapply free_end_ages.
Qed.

Definition start_agents (R : Registry) : Agents := mkAgents (replicate VYB_AGENT_CAP empty_agent) ∅ ∅ R ∅.

Definition aged (n : Z) (l : list vyb_agent) : Prop :=
  length l = VYB_AGENT_CAP /\ forall idx a, l !! idx = Some a -> 0 <= gen a <= n /\ tag_ok a.

Lemma aged_start R : aged 0 (vyb_agents (start_agents R)).
Proof.
  split; [done|]. intros idx a Ha. apply lookup_replicate in Ha as [-> _]. split; [done|by right].
Qed.

Lemma aged_step n l l' : 0 <= n < 2 ^ 63 -> aged n l -> table_ages l l' -> aged (n + 1) l'.
Proof.
  intros Hn [Hl H] G. split; [by rewrite <- (Forall2_length _ _ _ G)|]. intros idx a' Ha'.
  destruct (Forall2_lookup_r _ _ _ _ _ G Ha') as (a & Ha & [(E1 & E2)|(E1 & E2)]); destruct (H idx a Ha) as [Hg Ht].
  - split; [lia|]. unfold tag_ok in *. rewrite E1. destruct E2 as [->|]; [done|by right].
  - rewrite u64_small in E1 by lia. split; [lia|by left].
Qed.

Lemma aged_steps n : forall k S S', 0 <= k -> k + Z.of_nat n < 2 ^ 63 -> aged k (vyb_agents S) -> nsteps agent_step n S S' ->
  aged (k + Z.of_nat n) (vyb_agents S').
Proof.
  induction n as [|n IH]; intros k S S' Hk Hb Ha H; inversion H; subst; [by rewrite Z.add_0_r|].
  replace (k + Z.of_nat (Datatypes.S n)) with (k + 1 + Z.of_nat n) by lia.
  eapply IH; [lia|lia| |done]. apply (aged_step k (vyb_agents S)); [lia|done|by apply agent_step_ages].
Qed.

(** A generation is over for good. *)
Definition gone (g : Z) (a : vyb_agent) : Prop := g < gen a \/ gen a = g /\ tag a = dead_tag g.

Lemma gone_step g a a' : 0 <= gen a < 2 ^ 63 -> ages a a' -> gone g a -> gone g a'.
Proof.
  intros Hg [(E1 & E2)|(E1 & E2)] [H|[H1 H2]]; unfold gone.
  - left. lia.
  - right. split; [lia|]. destruct E2 as [->|E2]; [done|congruence].
  - rewrite u64_small in E1 by lia. left. lia.
  - rewrite u64_small in E1 by lia. left. lia.
Qed.

Lemma gone_steps g idx n : forall k S S' a, 0 <= k -> k + Z.of_nat n < 2 ^ 63 -> aged k (vyb_agents S) -> nsteps agent_step n S S' ->
  vyb_agents S !! idx = Some a -> gone g a -> exists a', vyb_agents S' !! idx = Some a' /\ gone g a'.
Proof.
  induction n as [|n IH]; intros k S S' a Hk Hb Ha H Hi Hg; inversion H; subst; [by exists a|].
  pose proof (agent_step_ages _ _ H1) as G. destruct (Forall2_lookup_l _ _ _ _ _ G Hi) as (a1 & Hi1 & Ga).
  eapply (IH (k + 1)); [lia|lia|by apply (aged_step k (vyb_agents S)); [lia|..]|done|done|].
  eapply gone_step; [|done|done]. destruct (proj2 Ha idx a Hi). lia.
Qed.

Lemma gone_unresolved g idx n l a : 0 < g < 2 ^ 43 -> n < 2 ^ 63 -> aged n l -> l !! idx = Some a -> gone g a ->
  vyb_agent_slot (handle_of g idx) l = None.
Proof.
  intros Hg Hn [Hl Ha] Hi G. destruct (Ha idx a Hi) as [Hb Ht].
  assert (Hidx : (idx < VYB_AGENT_CAP)%nat) by (rewrite <- Hl; by eapply lookup_lt_Some).
  destruct (vyb_agent_slot (handle_of g idx) l) as [i|] eqn:E; [|done].
  apply (handle_resolves g idx l a i Hg Hidx Hi ltac:(lia) Ht) in E as (_ & E1 & E2).
  destruct G as [G|[_ G]]; [lia|]. rewrite E2, live_tag_value, dead_tag_value in G by lia. lia.
Qed.

(** C23: the handle of a freed agent is dead for good. After [agent_free] has
    reclaimed generation [g] of a slot, no later operation of any thread makes
    the handle resolve again, however often the slot is reused: a send through
    it is refused without touching another agent, and a second free reports a
    bad handle. Generations fit their 43 bits for that many operations. *)
Theorem freed_agent_rejected R n m idx g S1 S2 S3 :
  nsteps agent_step n (start_agents R) S1 -> (idx < VYB_AGENT_CAP)%nat -> 0 < g ->
  gen (default empty_agent (vyb_agents S1 !! idx)) = g -> agent_free_end idx S1 = Done (0, S2) ->
  nsteps agent_step m S2 S3 -> Z.of_nat (n + 1 + m) < 2 ^ 43 ->
  vyb_agent_slot (handle_of g idx) (vyb_agents S3) = None
  /\ (forall memory v, vyb_agent_send memory (handle_of g idx) v S3 = Done (0, S3))
  /\ agent_free_start (handle_of g idx) S3 = Done (None, S3).
Proof.
  intros H1 Hi Hg Eg Hf H2 Hb.
  assert (A1 := aged_steps n 0 _ _ ltac:(lia) ltac:(lia) (aged_start R) H1). rewrite Z.add_0_l in A1.
  assert (A2 : aged (Z.of_nat n + 1) (vyb_agents S2)).
  { apply (aged_step _ (vyb_agents S1)); [lia|done|]. by eapply agent_step_ages, step_agent_free_end. }
  destruct (lookup_lt_is_Some_2 (vyb_agents S1) idx) as [a Ha]; [by rewrite (proj1 A1)|]. rewrite Ha in Eg. cbn in Eg.
  assert (G2 : exists a', vyb_agents S2 !! idx = Some a' /\ gone g a').
  { unfold agent_free_end in Hf. rewrite Ha in Hf. cbn [from_option id] in Hf. do 2 (destruct (negb _); [done|]).
    destruct (mailbox_free _ _ _) as [[r2 S2']| |] eqn:E; [|done..]. injection Hf as <-. apply mailbox_free_agents in E. cbn in E |- *. rewrite E.
    eexists. rewrite list_lookup_insert_eq by (by eapply lookup_lt_Some). split; [done|]. right. cbn. by rewrite <- Eg. }
  destruct G2 as (a2 & Ha2 & G2).
  destruct (gone_steps g idx m (Z.of_nat n + 1) S2 S3 a2 ltac:(lia) ltac:(lia) A2 H2 Ha2 G2) as (a3 & Ha3 & G3).
  pose proof (aged_steps m (Z.of_nat n + 1) _ _ ltac:(lia) ltac:(lia) A2 H2) as A3.
  assert (Hg43 : g < 2 ^ 43) by (destruct (proj2 A1 idx a Ha) as [? _]; lia).
  assert (N : vyb_agent_slot (handle_of g idx) (vyb_agents S3) = None) by (apply (gone_unresolved g idx (Z.of_nat n + 1 + Z.of_nat m) _ a3); [lia|lia|done|done|done]).
  unfold vyb_agent_send, agent_free_start, with_agent. rewrite N. done.
Qed.

(** *** A concrete agent *)

Definition one_agent (cap : Z) : Z * Agents :=
  vyb_agent_spawn 64 true NULL 0x200 AGENT_KIND_INT true cap (start_agents (sample_registry 4)).

(** Spawned, closed, and its worker gone. *)
Definition closed_agent : Agents :=
  match vyb_agent_close (one_agent 0).1 (one_agent 0).2 with Done (_, A) => A | _ => (one_agent 0).2 end.
Definition ended_agent : Agents := agent_exit 0 closed_agent.

Lemma ended_agent_reach : nsteps agent_step 3 (start_agents (sample_registry 4)) ended_agent.
Proof.
  eapply nsteps_l; [apply (step_agent_spawn _ 64 true NULL 0x200 AGENT_KIND_INT true 0)|].
  eapply nsteps_l; [apply (step_agent_close _ (one_agent 0).1 1 closed_agent); by vm_compute|].
  eapply nsteps_l; [apply (step_agent_exit _ 0)|]. constructor.
Qed.

Lemma freed_agent_rejected_witness :
  match agent_free_end 0 ended_agent with
  | Done (0, A) => vyb_agent_slot (handle_of 1 0) (vyb_agents A) = None
  | _ => False
  end.
Proof.
  assert (H := freed_agent_rejected (sample_registry 4) 3 0 0 1 ended_agent).
  destruct (agent_free_end 0 ended_agent) as [[r A]| |] eqn:E; [|by vm_compute in E..].
  assert (r = 0) as -> by (vm_compute in E; by injection E as <- _).
  apply (H A A); [apply ended_agent_reach|unfold VYB_AGENT_CAP; lia|lia|by vm_compute|done|constructor|lia].
Defined.

(** Two threads that free one agent both pass the handle check: the tag is
    cleared only at the end. The second then joins a pthread that is gone. *)
Example concurrent_double_free :
  match agent_free_start (handle_of 1 0) ended_agent with
  | Done (first, A1) =>
      match agent_free_start (handle_of 1 0) A1 with
      | Done (second, A2) =>
          first = Some 0%nat /\ second = Some 0%nat
          /\ match agent_free_end 0 A2 with Done (_, A3) => agent_free_end 0 A3 = Undefined | _ => False end
      | _ => False
      end
  | _ => False
  end.
Proof. by vm_compute. Qed.

(** A spawn whose thread could not be created frees the mailbox but leaves the
    slot's tag live: the generation's handle resolves to a freed channel. *)
Example failed_spawn_leaves_tag :
  let '(h, A) := vyb_agent_spawn 64 false NULL 0x200 AGENT_KIND_INT true 0 (start_agents (sample_registry 4)) in
  h = 0 /\ vyb_agent_slot (handle_of 1 0) (vyb_agents A) = Some 0%nat /\ vyb_agent_send true (handle_of 1 0) 5 A = Undefined.
Proof. by vm_compute. Qed.

(** ** The worker's contract *)

(** A behavior that adds up its messages and fails on a negative one. *)
Definition adder (sum : Z) (ev : option payload) : Z * Z :=
  match ev with
  | Some (Scalar v) => if v <? 0 then (sum, 0x900) else (sum + v, 0)
  | _ => (sum, 0)
  end.

Definition busy_agent : vyb_agent := mkAgent 64 0x200 NULL AGENT_KIND_INT true false 0 0 true false 1 (live_tag 1).
Definition busy_agents : Agents := mkAgents [busy_agent] {[ 64 := chan_close two_buffered ]} ∅ (sample_registry 4) {[ (0%nat, 1) ]}.

Lemma agent_consumes_witness :
  exists A', vyb_agent_loop adder 3 0 0 busy_agents = Done (8, A') /\ vyb_agents A' = [outcome_agent busy_agent None].
Proof.
  apply (agent_consumes adder 0 busy_agent [3; 5] 0 busy_agents (chan_close two_buffered)); try done.
  apply close_ok, two_buffered_ok.
Defined.

(** A failing agent reports itself. The worker closes its mailbox, so that
    later sends are refused, and puts its handle into the dead-letter channel
    behind what is there; whoever takes it out finds the agent through it, in
    the failed state. *)
Theorem dead_letter_notified idx a err A c q d dq :
  kind a <> AGENT_KIND_STRING -> mailbox a <> 0 -> dead_letter a <> 0 -> dead_letter a <> mailbox a ->
  vyb_agents A !! idx = Some a -> length (vyb_agents A) = VYB_AGENT_CAP -> 0 < gen a < 2 ^ 43 -> tag a = live_tag (gen a) ->
  chans A !! mailbox a = Some c -> chan_ok 8 c q -> chans A !! dead_letter a = Some d -> chan_ok 8 d dq -> accepts 8 true d = true ->
  let h := handle_of (gen a) idx in
  exists A' d', vyb_agent_close_self true idx err A = Done A'
    /\ chans A' !! dead_letter a = Some d' /\ chan_ok 8 d' (dq ++ [h])
    /\ vyb_agent_slot h (vyb_agents A') = Some idx
    /\ vyb_agent_status h A' = Done (2, A')
    /\ (forall memory v, vyb_agent_send memory h v A' = Done (0, A')).
Proof.
  intros Hk Hm Hd Hdm Ha Hl Hg Ht Hc O Hdc Od Acc h.
  destruct (send_ok 8 ltac:(lia) d dq h true Od) as (d' & E & O' & _). rewrite Acc in E, O'.
  set (A1 := set_chans (<[mailbox a := chan_close c]> (chans A)) (set_agent idx (failed_agent a err) A)).
  exists (set_chans (<[dead_letter a := d']> (chans A1)) A1), d'.
  assert (Hi : (idx < length (vyb_agents A))%nat) by (by eapply lookup_lt_Some).
  assert (Slot : vyb_agent_slot h (<[idx := failed_agent a err]> (vyb_agents A)) = Some idx).
  { apply (handle_resolves (gen a) idx _ (failed_agent a err) idx); [done|lia|by apply list_lookup_insert_eq|cbn; lia|by left|done]. }
  assert (Look : default empty_agent (<[idx := failed_agent a err]> (vyb_agents A) !! idx) = failed_agent a err)
    by (by rewrite list_lookup_insert_eq).
  split_and!.
  - unfold vyb_agent_close_self. rewrite (slot_lookup A idx a Ha). fold (failed_agent a err).
    rewrite (mailbox_close_scalar _ _ _ c Hk Hm) by done. fold A1. rewrite (proj2 (Z.eqb_neq _ 0) Hd).
    unfold vyb_chan_send, with_chan. rewrite (proj2 (Z.eqb_neq _ 0) Hd). cbn [chans set_chans set_agent A1].
    rewrite lookup_insert_ne, Hdc by done. fold h. by rewrite E.
  - cbn. apply lookup_insert_eq.
  - done.
  - exact Slot.
  - unfold vyb_agent_status, with_agent. cbn [vyb_agents set_chans set_agent A1]. by rewrite Slot, Look.
  - intros memory v. unfold vyb_agent_send, with_agent. cbn [vyb_agents set_chans set_agent A1]. rewrite Slot, Look.
    unfold vyb_chan_send, with_chan. cbn [mailbox failed_agent chans set_chans set_agent A1]. rewrite (proj2 (Z.eqb_neq _ 0) Hm).
    rewrite lookup_insert_ne, lookup_insert_eq by done. cbn [chan_send closed chan_close map_result on_chans].
    rewrite insert_id; [done|]. rewrite lookup_insert_ne by done. apply lookup_insert_eq.
Qed.

Definition watched_agent : vyb_agent := mkAgent 64 0x200 NULL AGENT_KIND_INT true false 0 72 true false 1 (live_tag 1).
Definition watched_agents : Agents :=
  mkAgents (watched_agent :: replicate 63 empty_agent) {[ 64 := two_buffered; 72 := empty_ring ]} ∅ (sample_registry 4) {[ (0%nat, 1) ]}.

Lemma dead_letter_notified_witness :
  exists A' d', vyb_agent_close_self true 0 0x900 watched_agents = Done A' /\ chans A' !! 72 = Some d'
    /\ chan_ok 8 d' [handle_of 1 0] /\ vyb_agent_status (handle_of 1 0) A' = Done (2, A').
Proof.
  destruct (dead_letter_notified 0 watched_agent 0x900 watched_agents two_buffered [3; 5] empty_ring []) as (A' & d' & H1 & H2 & H3 & _ & H5 & _);
    try done; [apply two_buffered_ok|]. by exists A', d'.
Defined.
