(* ===== verification/Async.v ===== *)
(** * The fiber scheduler

    The cooperative async runtime of runtime/vyb_runtime.c: tasks pinned to a
    home worker, one FIFO ready queue per worker, a timer list ordered by wake
    time, the lists of tasks that await a task, and detach, which reclaims a
    task once its fiber has left its stack.

    Every function body under the scheduler lock is one step. A fiber that
    suspends first does its locked part and then switches to its worker's
    context; in between it is [Leaving]. *)

From S2P Require Import Prelude.
From S2P Require Import StrRegistry.
From Stdlib Require Import Sorting.Sorted.
#[local] Open Scope Z_scope.

Inductive task_state : Type := READY | BLOCKED | DONE.
#[global] Instance task_state_eq_dec : EqDecision task_state.
Proof. solve_decision. Defined.

Record vyb_async_task : Type := mkTask {
  state : task_state;
  reap : bool;
  fully_done : bool;
  result : Z;
  awaited_result : Z;
  error : Z;
  home : nat;
  task_env : ptr
}.

(** What a worker thread executes. *)
Inductive running : Type :=
| Scheduling
| Running (t : Z)
| Leaving (t : Z).
#[global] Instance running_eq_dec : EqDecision running.
Proof. solve_decision. Defined.

Record vyb_worker : Type := mkWorker { ready : list Z; current : running }.

(** Tasks by address. [waiting] is the waiters lists of all tasks: who waits,
    on whom, newest first as the lists are. *)
Record Sched : Type := mkSched {
  tasks : gmap Z vyb_async_task;
  workers : list vyb_worker;
  timers : list (Z * Z);          (* wake time and task, ascending *)
  waiting : list (Z * Z);         (* waiter and awaited task *)
  main_wait : option Z;
  spin : nat
}.

Definition set_tasks (ts : gmap Z vyb_async_task) (S : Sched) : Sched :=
  mkSched ts (workers S) (timers S) (waiting S) (main_wait S) (spin S).
Definition set_workers (ws : list vyb_worker) (S : Sched) : Sched :=
  mkSched (tasks S) ws (timers S) (waiting S) (main_wait S) (spin S).
Definition set_timers (l : list (Z * Z)) (S : Sched) : Sched :=
  mkSched (tasks S) (workers S) l (waiting S) (main_wait S) (spin S).
Definition set_waiting (l : list (Z * Z)) (S : Sched) : Sched :=
  mkSched (tasks S) (workers S) (timers S) l (main_wait S) (spin S).

Definition set_state (s : task_state) (t : vyb_async_task) : vyb_async_task :=
  mkTask s (reap t) (fully_done t) (result t) (awaited_result t) (error t) (home t) (task_env t).

(** [async_ready_push]. *)
Definition async_ready_push (t : Z) (S : Sched) : Sched :=
  match tasks S !! t with
  | None => S
  | Some x =>
      mkSched (<[t := set_state READY x]> (tasks S))
        (alter (fun w => mkWorker (ready w ++ [t]) (current w)) (home x) (workers S))
        (timers S) (waiting S) (main_wait S) (spin S)
  end.

(** [async_timer_add]: behind the tasks that wake no later. *)
Fixpoint timer_insert (wake t : Z) (l : list (Z * Z)) : list (Z * Z) :=
  match l with
  | [] => [(wake, t)]
  | (wake', t') :: l' => if wake' <=? wake then (wake', t') :: timer_insert wake t l' else (wake, t) :: (wake', t') :: l'
  end.

Definition async_timer_add (wake t : Z) (S : Sched) : Sched := set_timers (timer_insert wake t (timers S)) S.

(** The tasks [async_fire_due] requeues, and the timers left. *)
Fixpoint take_due (now : Z) (l : list (Z * Z)) : list Z * list (Z * Z) :=
  match l with
  | [] => ([], [])
  | (wake, t) :: l' =>
      if wake <=? now then let '(due, rest) := take_due now l' in (t :: due, rest) else ([], l)
  end.

Definition async_fire_due (now : Z) (S : Sched) : Sched :=
  let '(due, rest) := take_due now (timers S) in
  foldl (fun S t => async_ready_push t S) (set_timers rest S) due.

(** [async_spawn]: [a] is the address of the task. *)
Definition async_spawn (a : Z) (e f : ptr) (S : Sched) : Z * Sched :=
  if f =? NULL then (0, S)
  else if a =? 0 then (0, S)
  else if (length (workers S) <? 1)%nat then (0, S)
  else
    let h := (spin S mod length (workers S))%nat in
    let S1 := mkSched (<[a := mkTask READY false false 0 0 0 h e]> (tasks S)) (workers S) (timers S) (waiting S) (main_wait S) (Datatypes.S (spin S)) in
    (a, async_ready_push a S1).

(** [async_reap_task]. *)
Definition async_reap_task (t : Z) (S : Sched) : Sched := set_tasks (delete t (tasks S)) S.

(** A worker's turn: fire the timers, take the first ready task. *)
Definition worker_pick (w : nat) (now : Z) (S : Sched) : option Sched :=
  let S1 := async_fire_due now S in
  match workers S1 !! w with
  | Some (mkWorker (t :: rest) Scheduling) =>
      match tasks S1 !! t with
      | Some x =>
          Some (set_workers (<[w := mkWorker rest (Running t)]> (workers S1))
                 (set_tasks (<[t := mkTask (state x) (reap x) false (result x) (awaited_result x) (error x) (home x) (task_env x)]> (tasks S1)) S1))
      | None => None
      end
  | _ => None
  end.

(** The scheduler's context runs again: the fiber is off its stack. *)
Definition worker_resume (w : nat) (S : Sched) : option Sched :=
  match workers S !! w with
  | Some (mkWorker q (Leaving t)) =>
      match tasks S !! t with
      | Some x =>
          let S1 := set_workers (<[w := mkWorker q Scheduling]> (workers S))
                     (set_tasks (<[t := mkTask (state x) (reap x) true (result x) (awaited_result x) (error x) (home x) (task_env x)]> (tasks S)) S) in
          Some (if reap x && bool_decide (state x = DONE) then async_reap_task t S1 else S1)
      | None => None
      end
  | _ => None
  end.

(** The fiber running on [w] does its locked part and leaves. *)
Definition leave_with (w : nat) (f : Z -> Sched -> Sched) (S : Sched) : option Sched :=
  match workers S !! w with
  | Some (mkWorker q (Running t)) => Some (f t (set_workers (<[w := mkWorker q (Leaving t)]> (workers S)) S))
  | _ => None
  end.

Definition async_yield (w : nat) : Sched -> option Sched := leave_with w async_ready_push.

Definition block (t : Z) (S : Sched) : Sched := set_tasks (alter (set_state BLOCKED) t (tasks S)) S.

Definition async_sleep_ms (w : nat) (now ms : Z) : Sched -> option Sched :=
  leave_with w (fun t S => block t (async_timer_add (now + ms) t S)).

(** A fiber awaits [target]: it goes on at once, with the result, when
    [target] is done. *)
Definition async_await_fiber (w : nat) (target : Z) (S : Sched) : option (option Z * Sched) :=
  match tasks S !! target with
  | None => None
  | Some x =>
      if decide (state x = DONE) then Some (Some (result x), S)
      else (fun S' => (None, S')) <$> leave_with w (fun t S => block t (set_waiting ((t, target) :: waiting S) S)) S
  end.

(** [vyb_async_tramp] after the body returned [r]: whoever waits on the task
    is requeued with the result. *)
Definition deliver (r : Z) (S : Sched) (u : Z) : Sched :=
  async_ready_push u (set_tasks (alter (fun x => mkTask (state x) (reap x) (fully_done x) (result x) r (error x) (home x) (task_env x)) u (tasks S)) S).

Definition waiters_of (t : Z) (S : Sched) : list Z := (filter (fun p => p.2 = t) (waiting S)).*1.

Definition finish (r : Z) (t : Z) (S : Sched) : Sched :=
  let S1 := set_tasks (alter (fun x => mkTask DONE (reap x) (fully_done x) r (awaited_result x) (error x) (home x) (task_env x)) t (tasks S)) S in
  let S2 := set_waiting (filter (fun p => p.2 <> t) (waiting S)) S1 in
  foldl (deliver r) S2 (waiters_of t S).

Definition async_finish (w : nat) (r : Z) : Sched -> option Sched := leave_with w (finish r).

(** Poll and detach. *)
Definition async_poll (task : Z) (S : Sched) : option Z :=
  if task =? 0 then Some (-1)
  else (fun x => if decide (state x = DONE) then result x else -1) <$> tasks S !! task.

Definition async_poll_opt (task : Z) (out : bool) (S : Sched) : option (Z * option Z) :=
  if (task =? 0) || negb out then Some (0, None)
  else (fun x => if decide (state x = DONE) then (1, Some (result x)) else (0, None)) <$> tasks S !! task.

Definition async_detach (task : Z) (S : Sched) : option (Z * Sched) :=
  if task =? 0 then Some (-2, S)
  else match tasks S !! task with
       | None => None
       | Some x =>
           if reap x then Some (-1, S)
           else if negb (bool_decide (waiters_of task S = [])) || bool_decide (main_wait S = Some task) then Some (-3, S)
           else
             let S1 := set_tasks (<[task := mkTask (state x) true (fully_done x) (result x) (awaited_result x) (error x) (home x) (task_env x)]> (tasks S)) S in
             Some (0, if bool_decide (state x = DONE) && fully_done x then async_reap_task task S1 else S1)
       end.

Definition async_set_error (task err : Z) (S : Sched) : Z * Sched :=
  if task =? 0 then (0, S)
  else (if err =? 0 then 0 else 1,
        set_tasks (alter (fun x => mkTask (state x) (reap x) (fully_done x) (result x) (awaited_result x) err (home x) (task_env x)) task (tasks S)) S).
Definition async_take_error (task : Z) (S : Sched) : option Z := if task =? 0 then Some 0 else error <$> tasks S !! task.

(** A thread outside the pool awaits: the wait starts, unless the task is
    done, and ends when it is. *)
Definition async_await_main_start (target : Z) (S : Sched) : option (option Z * Sched) :=
  match tasks S !! target with
  | None => None
  | Some x =>
      if decide (state x = DONE) then Some (Some (result x), S)
      else Some (None, mkSched (tasks S) (workers S) (timers S) (waiting S) (Some target) (spin S))
  end.
Definition async_await_main_end (target : Z) (S : Sched) : option (Z * Sched) :=
  match tasks S !! target with
  | Some x =>
      if decide (state x = DONE) then Some (result x, mkSched (tasks S) (workers S) (timers S) (waiting S) None (spin S)) else None
  | None => None
  end.

(** The steps of the pool. A fiber awaits another task, one that was not
    handed to detach. *)
Inductive sched_step : Sched -> Sched -> Prop :=
| step_spawn S a e f : tasks S !! a = None -> sched_step S (async_spawn a e f S).2
| step_pick S w now S' : worker_pick w now S = Some S' -> sched_step S S'
| step_resume S w S' : worker_resume w S = Some S' -> sched_step S S'
| step_yield S w S' : async_yield w S = Some S' -> sched_step S S'
| step_sleep S w now ms S' : async_sleep_ms w now ms S = Some S' -> sched_step S S'
| step_await S w target r S' x :
    tasks S !! target = Some x -> reap x = false -> async_await_fiber w target S = Some (r, S') -> sched_step S S'
| step_main_start S target r S' : async_await_main_start target S = Some (r, S') -> sched_step S S'
| step_main_end S target r S' : async_await_main_end target S = Some (r, S') -> sched_step S S'
| step_finish S w r S' : async_finish w r S = Some S' -> sched_step S S'
| step_detach S task r S' : async_detach task S = Some (r, S') -> sched_step S S'.

Definition start_sched (n : nat) : Sched := mkSched ∅ (replicate n (mkWorker [] Scheduling)) [] [] None 0.

(** ** Where a task is referenced *)

Definition cnt (t : Z) (l : list Z) : nat := length (filter (fun x => x = t) l).
Definition runs (t : Z) (r : running) : nat := if decide (r = Running t) then 1 else 0.
Definition worker_refs (t : Z) (w : vyb_worker) : nat := (cnt t (ready w) + runs t (current w))%nat.

(** The queues, the fibers being executed, the timers and the waiters lists. *)
Definition references (t : Z) (S : Sched) : nat :=
  (sum_list_with (worker_refs t) (workers S) + cnt t (timers S).*2 + cnt t (waiting S).*1)%nat.

(** A task that is not done is referenced from one place, any other address
    from none. *)
Definition expected (t : Z) (S : Sched) : nat :=
  match tasks S !! t with Some x => if decide (state x = DONE) then 0 else 1 | None => 0 end.

Definition on_worker (t : Z) (r : running) : Prop := r = Running t \/ r = Leaving t.

(** [pend] holds tasks that have been taken from their place and are about to
    be queued. *)
Record sched_okp (pend : list Z) (S : Sched) : Prop := {
  sched_refs : forall t, (references t S + cnt t pend)%nat = expected t S;
  sched_homes : forall t x, tasks S !! t = Some x -> (home x < length (workers S))%nat;
  sched_queues : forall w q r t, workers S !! w = Some (mkWorker q r) -> t ∈ q -> exists x, tasks S !! t = Some x /\ home x = w /\ state x = READY;
  sched_current : forall w q r t, workers S !! w = Some (mkWorker q r) -> on_worker t r ->
    exists x, tasks S !! t = Some x /\ home x = w /\ fully_done x = false;
  sched_done : forall t x, tasks S !! t = Some x -> state x = DONE -> fully_done x = false ->
    exists w q, workers S !! w = Some (mkWorker q (Leaving t));
  sched_reaped : forall t x, tasks S !! t = Some x -> reap x = true -> state x = DONE -> fully_done x = false;
  sched_awaited : forall u t, (u, t) ∈ waiting S -> exists x, tasks S !! t = Some x /\ state x <> DONE
}.
Notation sched_ok := (sched_okp []).

Lemma cnt_app t l k : cnt t (l ++ k) = (cnt t l + cnt t k)%nat.
Proof. unfold cnt. by rewrite filter_app, length_app. Qed.

Lemma cnt_cons t a l : cnt t (a :: l) = ((if decide (a = t) then 1 else 0) + cnt t l)%nat.
Proof. unfold cnt. rewrite filter_cons. by case_decide. Qed.

Lemma cnt_pos t l : t ∈ l -> (1 <= cnt t l)%nat.
Proof. induction 1 as [t l|t a l _ IH]; rewrite cnt_cons; [rewrite decide_True by done|]; lia. Qed.

Lemma cnt_zero t l : cnt t l = 0%nat -> t ∉ l.
Proof. intros H Hin. apply cnt_pos in Hin. lia. Qed.

Lemma sum_workers (f : vyb_worker -> nat) l i x y : l !! i = Some x ->
  (sum_list_with f (<[i := y]> l) + f x = sum_list_with f l + f y)%nat.
Proof.
  revert i. induction l as [|a l IH]; intros [|i] H; try done.
  - injection H as ->. change (<[0%nat:=y]> (x :: l)) with (y :: l). cbn [sum_list_with]. lia.
  - specialize (IH i H). change (<[S i:=y]> (a :: l)) with (a :: <[i:=y]> l). cbn [sum_list_with]. lia.
Qed.

Lemma sum_workers_at (f : vyb_worker -> nat) l i x : l !! i = Some x -> (f x <= sum_list_with f l)%nat.
Proof.
  revert i. induction l as [|a l IH]; intros [|i] H; cbn [sum_list_with]; try done; [injection H as ->; lia|].
  etransitivity; [by eapply IH|]. lia.
Qed.

Lemma alter_workers g i (l : list vyb_worker) x : l !! i = Some x -> alter g i l = <[i := g x]> l.
Proof.
  revert i. induction l as [|a l IH]; intros [|i] H; try done; [by injection H as ->|].
  change (alter g (S i) (a :: l)) with (a :: alter g i l). by rewrite (IH i H).
Qed.

(** A push adds one reference. *)
Lemma push_refs t S x u : tasks S !! t = Some x -> (home x < length (workers S))%nat ->
  references u (async_ready_push t S) = (references u S + (if decide (t = u) then 1 else 0))%nat.
Proof.
  intros Ht Hh. unfold async_ready_push. rewrite Ht. unfold references. cbn [workers timers waiting].
  destruct (lookup_lt_is_Some_2 _ _ Hh) as [w Hw]. rewrite (alter_workers _ _ _ w Hw).
  pose proof (sum_workers (worker_refs u) _ _ w (mkWorker (ready w ++ [t]) (current w)) Hw) as E.
  unfold worker_refs at 2 4 in E. cbn [ready current] in E. rewrite cnt_app, cnt_cons in E. change (cnt u []) with 0%nat in E. lia.
Qed.

Lemma pend_task t pend S : sched_okp (t :: pend) S ->
  exists x, tasks S !! t = Some x /\ state x <> DONE /\ references t S = 0%nat /\ cnt t pend = 0%nat.
Proof.
  intros O. pose proof (sched_refs _ _ O t) as E. rewrite cnt_cons, decide_True in E by done. unfold expected in E.
  destruct (tasks S !! t) as [x|]; [|lia]. exists x. case_decide; [lia|]. split_and!; done || lia.
Qed.

Lemma push_okp t pend S : sched_okp (t :: pend) S -> sched_okp pend (async_ready_push t S).
Proof.
  intros O. destruct (pend_task t pend S O) as (x & Ht & Hd & _ & _). pose proof (sched_homes _ _ O t x Ht) as Hh.
  pose proof (push_refs t S x) as PR. destruct O as [HR HM HQ HC HD HP HA].
  destruct (lookup_lt_is_Some_2 _ _ Hh) as [[q0 r0] Hw].
  assert (Look : forall w q r, workers (async_ready_push t S) !! w = Some (mkWorker q r) ->
    exists q', workers S !! w = Some (mkWorker q' r) /\ (q = q' \/ w = home x /\ q = q' ++ [t])).
  { unfold async_ready_push. rewrite Ht. cbn [workers]. rewrite (alter_workers _ _ _ _ Hw). intros w q r Hl.
    apply list_lookup_insert_Some in Hl as [(<- & E & _)|(Hne & Hl)]; [|exists q; auto]. injection E as <- <-. exists q0. auto. }
  assert (T : forall u y, tasks (async_ready_push t S) !! u = Some y -> u = t /\ y = set_state READY x \/ u <> t /\ tasks S !! u = Some y).
  { unfold async_ready_push. rewrite Ht. cbn [tasks]. intros u y. destruct (decide (u = t)) as [->|Hne].
    - rewrite lookup_insert_eq. intros [= <-]. auto.
    - rewrite lookup_insert_ne by done. auto. }
  assert (T1 : forall u y, tasks S !! u = Some y -> exists y', tasks (async_ready_push t S) !! u = Some y' /\ home y' = home y
      /\ fully_done y' = fully_done y /\ (state y' = READY \/ state y' = state y)).
  { unfold async_ready_push. rewrite Ht. cbn [tasks]. intros u y Hu. destruct (decide (u = t)) as [->|Hne].
    - simplify_eq. rewrite lookup_insert_eq. by eexists; split_and!; [done..|left].
    - rewrite lookup_insert_ne by done. exists y. auto. }
  assert (Len : length (workers (async_ready_push t S)) = length (workers S)).
  { unfold async_ready_push. rewrite Ht. cbn. by rewrite length_alter. }
  assert (Wt : waiting (async_ready_push t S) = waiting S) by (unfold async_ready_push; by rewrite Ht).
  split.
  - intros u. rewrite PR by done. specialize (HR u). rewrite cnt_cons in HR.
    assert (expected u (async_ready_push t S) = expected u S) as ->; [|destruct (decide (t = u)); lia].
    unfold expected, async_ready_push. rewrite Ht. cbn [tasks]. destruct (decide (u = t)) as [->|Hne].
    + rewrite lookup_insert_eq, Ht. cbn. by rewrite (decide_False (P := state x = DONE)).
    + by rewrite lookup_insert_ne by done.
  - intros u y Hu. rewrite Len. destruct (T u y Hu) as [(_ & ->)|(_ & E)]; [done|by apply (HM u y)].
  - intros w q r u Hl Hin. destruct (Look w q r Hl) as (q' & Hl' & [->|(-> & ->)]).
    + destruct (HQ w q' r u Hl' Hin) as (y & Hy & E1 & E2). destruct (T1 u y Hy) as (y' & Hy' & E3 & _ & E4).
      exists y'. split_and!; [done|congruence|]. destruct E4; congruence.
    + apply elem_of_app in Hin as [Hin|Hin].
      * destruct (HQ _ q' r u Hl' Hin) as (y & Hy & E1 & E2). destruct (T1 u y Hy) as (y' & Hy' & E3 & _ & E4).
        exists y'. split_and!; [done|congruence|]. destruct E4; congruence.
      * apply list_elem_of_singleton in Hin as ->. exists (set_state READY x). split_and!; [|done|done].
        unfold async_ready_push. rewrite Ht. cbn. apply lookup_insert_eq.
  - intros w q r u Hl Hr. destruct (Look w q r Hl) as (q' & Hl' & _). destruct (HC w q' r u Hl' Hr) as (y & Hy & E1 & E2).
    destruct (T1 u y Hy) as (y' & Hy' & E3 & E4 & _). exists y'. split_and!; congruence.
  - intros u y Hu Sd Fd. destruct (T u y Hu) as [(_ & ->)|(_ & E)]; [done|]. destruct (HD u y E Sd Fd) as (w & q & Hl).
    unfold async_ready_push. rewrite Ht. cbn [workers]. rewrite (alter_workers _ _ _ _ Hw). destruct (decide (home x = w)) as [<-|Hne].
    + rewrite Hw in Hl. simplify_eq. exists (home x), (q ++ [t]). apply list_lookup_insert_eq. done.
    + exists w, q. by rewrite list_lookup_insert_ne.
  - intros u y Hu Rp Sd. destruct (T u y Hu) as [(_ & ->)|(_ & E)]; [done|]. by eapply HP.
  - intros u v Huv. rewrite Wt in Huv. destruct (HA u v Huv) as (y & Hy & E). destruct (T1 v y Hy) as (y' & Hy' & _ & _ & E4).
    exists y'. split; [done|]. destruct E4; congruence.
Qed.

Lemma push_all_okp l : forall S, sched_okp l S -> sched_ok (foldl (fun S t => async_ready_push t S) S l).
Proof. induction l as [|t l IH]; intros S O; [done|]. cbn. apply IH. by apply push_okp. Qed.

(** *** Updates of one part of the state *)

Lemma timers_okp pend pend' S l : sched_okp pend S ->
  (forall t, cnt t (timers S).*2 + cnt t pend = cnt t l.*2 + cnt t pend')%nat -> sched_okp pend' (set_timers l S).
Proof.
  intros [HR HM HQ HC HD HP HA] E. split; try done. intros t. specialize (HR t). specialize (E t).
  change (expected t (set_timers l S)) with (expected t S). unfold references in *.
  cbn [tasks workers timers waiting set_timers set_waiting]. lia.
Qed.

Lemma waiting_okp pend pend' S l : sched_okp pend S ->
  (forall t, cnt t (waiting S).*1 + cnt t pend = cnt t l.*1 + cnt t pend')%nat ->
  (forall u t, (u, t) ∈ l -> exists x, tasks S !! t = Some x /\ state x <> DONE) -> sched_okp pend' (set_waiting l S).
Proof.
  intros [HR HM HQ HC HD HP HA] E Hl. split; try done. intros t. specialize (HR t). specialize (E t).
  change (expected t (set_waiting l S)) with (expected t S). unfold references in *.
  cbn [tasks workers timers waiting set_timers set_waiting]. lia.
Qed.

Lemma update_okp pend pend' S t x y :
  sched_okp pend S -> tasks S !! t = Some x -> home y = home x ->
  (forall u, (references u S + cnt u pend')%nat = expected u (set_tasks (<[t := y]> (tasks S)) S)) ->
  (forall w q r, workers S !! w = Some (mkWorker q r) -> t ∈ q -> state y = READY) ->
  (forall w q r, workers S !! w = Some (mkWorker q r) -> on_worker t r -> fully_done y = false) ->
  (state y = DONE -> fully_done y = false -> exists w q, workers S !! w = Some (mkWorker q (Leaving t))) ->
  (reap y = true -> state y = DONE -> fully_done y = false) ->
  (state y = DONE -> forall u, (u, t) ∉ waiting S) ->
  sched_okp pend' (set_tasks (<[t := y]> (tasks S)) S).
Proof.
  intros [HR HM HQ HC HD HP HA] Ht Hh Hr Hq Hc Hd Hp Ha.
  assert (T : forall u z, <[t := y]> (tasks S) !! u = Some z -> u = t /\ z = y \/ u <> t /\ tasks S !! u = Some z).
  { intros u z. destruct (decide (u = t)) as [->|Hne]; [rewrite lookup_insert_eq; intros [= <-]; auto|rewrite lookup_insert_ne by done; auto]. }
  split; cbn [tasks workers timers waiting set_tasks].
  - done.
  - intros u z Hu. destruct (T u z Hu) as [(_ & ->)|(_ & E)]; [rewrite Hh; by apply (HM t)|by apply (HM u)].
  - intros w q r u Hl Hin. destruct (HQ w q r u Hl Hin) as (z & Hz & E1 & E2). destruct (decide (u = t)) as [->|Hne].
    + exists y. rewrite lookup_insert_eq. simplify_eq. split_and!; [done|done|by eapply Hq].
    + exists z. by rewrite lookup_insert_ne.
  - intros w q r u Hl Hin. destruct (HC w q r u Hl Hin) as (z & Hz & E1 & E2). destruct (decide (u = t)) as [->|Hne].
    + exists y. rewrite lookup_insert_eq. simplify_eq. split_and!; [done|done|by eapply Hc].
    + exists z. by rewrite lookup_insert_ne.
  - intros u z Hu. destruct (T u z Hu) as [(-> & ->)|(_ & E)]; [done|by apply HD].
  - intros u z Hu. destruct (T u z Hu) as [(-> & ->)|(_ & E)]; [done|by apply (HP u)].
  - intros u v Huv. destruct (HA u v Huv) as (z & Hz & E). destruct (decide (v = t)) as [->|Hne].
    + exists y. rewrite lookup_insert_eq. split; [done|]. intros Dn. by apply (Ha Dn u).
    + exists z. by rewrite lookup_insert_ne.
Qed.

Lemma expected_update S t x y u : tasks S !! t = Some x -> (state x = DONE <-> state y = DONE) ->
  expected u (set_tasks (<[t := y]> (tasks S)) S) = expected u S.
Proof.
  intros Ht E. unfold expected. cbn. destruct (decide (u = t)) as [->|Hne]; [|by rewrite lookup_insert_ne].
  rewrite lookup_insert_eq, Ht. destruct (decide (state x = DONE)), (decide (state y = DONE)); tauto.
Qed.

(** Fields the invariant does not look at. *)
Lemma touch_okp pend S u f : sched_okp pend S ->
  (forall x, state (f x) = state x /\ home (f x) = home x /\ fully_done (f x) = fully_done x /\ reap (f x) = reap x) ->
  sched_okp pend (set_tasks (alter f u (tasks S)) S).
Proof.
  intros O F. destruct (tasks S !! u) as [x|] eqn:Hu.
  - assert (alter f u (tasks S) = <[u := f x]> (tasks S)) as ->.
    { apply map_eq. intros v. destruct (decide (u = v)) as [<-|]; [by rewrite lookup_alter_eq, lookup_insert_eq, Hu|by rewrite lookup_alter_ne, lookup_insert_ne]. }
    destruct (F x) as (E1 & E2 & E3 & E4). eapply update_okp; [done|done|done|..]; rewrite ?E1, ?E3, ?E4.
    + intros v. rewrite (expected_update S u x (f x) v Hu) by (by rewrite E1). apply (sched_refs _ _ O).
    + intros w q r Hl Hin. destruct (sched_queues _ _ O w q r u Hl Hin) as (y & Hy & _ & E). by simplify_eq.
    + intros w q r Hl Hin. destruct (sched_current _ _ O w q r u Hl Hin) as (y & Hy & _ & E). by simplify_eq.
    + by apply (sched_done _ _ O).
    + by apply (sched_reaped _ _ O u).
    + intros Dn v Hv. destruct (sched_awaited _ _ O v u Hv) as (y & Hy & E). by simplify_eq.
  - assert (alter f u (tasks S) = tasks S) as ->; [|by destruct S].
    apply map_eq. intros v. destruct (decide (u = v)) as [<-|]; [by rewrite lookup_alter_eq, Hu|by rewrite lookup_alter_ne].
Qed.

Lemma workers_okp pend pend' S w q r q' r' :
  sched_okp pend S -> workers S !! w = Some (mkWorker q r) ->
  (forall u, cnt u q + runs u r + cnt u pend = cnt u q' + runs u r' + cnt u pend')%nat ->
  (forall t, t ∈ q' -> t ∈ q) ->
  (forall t, on_worker t r' -> exists x, tasks S !! t = Some x /\ home x = w /\ fully_done x = false) ->
  (forall t, r = Leaving t -> r' = Leaving t) ->
  sched_okp pend' (set_workers (<[w := mkWorker q' r']> (workers S)) S).
Proof.
  intros [HR HM HQ HC HD HP HA] Hw E Hq Hr HL.
  split; cbn [tasks workers timers waiting set_workers]; try done.
  - intros u. specialize (HR u). specialize (E u). change (expected u (set_workers _ S)) with (expected u S).
    pose proof (sum_workers (worker_refs u) _ w _ (mkWorker q' r') Hw) as Sm. unfold worker_refs at 2 4 in Sm.
    unfold references in *. cbn [tasks workers timers waiting set_workers ready current] in *. lia.
  - intros t x Ht. rewrite length_insert. by apply (HM t x).
  - intros v p s t Hl Hin. apply list_lookup_insert_Some in Hl as [(-> & E' & _)|(Hne & Hl)]; [|by eapply HQ].
    injection E' as <- <-. by eapply HQ, Hq.
  - intros v p s t Hl Hin. apply list_lookup_insert_Some in Hl as [(-> & E' & _)|(Hne & Hl)]; [|by eapply HC].
    injection E' as <- <-. by apply Hr.
  - intros t x Ht Sd Fd. destruct (HD t x Ht Sd Fd) as (v & p & Hl). destruct (decide (w = v)) as [<-|Hne].
    + rewrite Hw in Hl. simplify_eq. exists w, q'. rewrite (HL t eq_refl). apply list_lookup_insert_eq. by eapply lookup_lt_Some.
    + exists v, p. by rewrite list_lookup_insert_ne.
Qed.

(** *** The steps *)

Lemma take_due_split now l : l.*2 = (take_due now l).1 ++ (take_due now l).2.*2.
Proof.
  induction l as [|[wake t] l IH]; [done|]. cbn [take_due]. destruct (wake <=? now); [|done].
  destruct (take_due now l) as [due rest]. cbn in *. by rewrite IH.
Qed.

Lemma fire_due_ok now S : sched_ok S -> sched_ok (async_fire_due now S).
Proof.
  intros O. unfold async_fire_due. pose proof (take_due_split now (timers S)) as E. destruct (take_due now (timers S)) as [due rest].
  cbn [fst snd] in E. apply push_all_okp. apply (timers_okp [] due S rest O). intros t. rewrite E, cnt_app. change (cnt t []) with 0%nat. lia.
Qed.

Lemma async_spawn_ok a e f S : tasks S !! a = None -> sched_ok S -> sched_ok (async_spawn a e f S).2.
Proof.
  intros Ha O. unfold async_spawn. destruct (f =? NULL); [done|]. destruct (a =? 0); [done|].
  destruct (Nat.ltb_spec (length (workers S)) 1) as [|Hw]; [done|]. cbn [snd]. apply push_okp.
  set (h := (spin S mod length (workers S))%nat). set (x := mkTask READY false false 0 0 0 h e).
  destruct O as [HR HM HQ HC HD HP HA].
  assert (T : forall u z, <[a := x]> (tasks S) !! u = Some z -> u = a /\ z = x \/ u <> a /\ tasks S !! u = Some z).
  { intros u z. destruct (decide (u = a)) as [->|Hne]; [rewrite lookup_insert_eq; intros [= <-]; auto|rewrite lookup_insert_ne by done; auto]. }
  assert (T1 : forall u z, tasks S !! u = Some z -> <[a := x]> (tasks S) !! u = Some z).
  { intros u z Hz. rewrite lookup_insert_ne; [done|]. intros <-. congruence. }
  split; cbn [tasks workers timers waiting].
  - intros u. specialize (HR u). change (references u _) with (references u S). rewrite cnt_cons. change (cnt u []) with 0%nat in *.
    unfold expected in *. cbn [tasks]. destruct (decide (a = u)) as [<-|Hne].
    + rewrite lookup_insert_eq. rewrite Ha in HR. rewrite (decide_False (P := state x = DONE)) by done. lia.
    + rewrite lookup_insert_ne by done. lia.
  - intros u z Hu. destruct (T u z Hu) as [(_ & ->)|(_ & E)]; [cbn; unfold h; apply Nat.mod_upper_bound; lia|by apply (HM u)].
  - intros w q r u Hl Hin. destruct (HQ w q r u Hl Hin) as (z & Hz & E). exists z. by rewrite (T1 u z Hz).
  - intros w q r u Hl Hin. destruct (HC w q r u Hl Hin) as (z & Hz & E). exists z. by rewrite (T1 u z Hz).
  - intros u z Hu. destruct (T u z Hu) as [(-> & ->)|(_ & E)]; [done|by apply HD].
  - intros u z Hu. destruct (T u z Hu) as [(-> & ->)|(_ & E)]; [done|by apply (HP u)].
  - intros u v Huv. destruct (HA u v Huv) as (z & Hz & E). exists z. by rewrite (T1 v z Hz).
Qed.

Lemma refs_at_worker t S w q r : workers S !! w = Some (mkWorker q r) -> (cnt t q + runs t r <= references t S)%nat.
Proof.
  intros Hw. pose proof (sum_workers_at (worker_refs t) _ _ _ Hw) as B. unfold worker_refs at 1 in B. cbn [ready current] in B.
  unfold references. lia.
Qed.

Lemma runs_self t : runs t (Running t) = 1%nat.
Proof. unfold runs. by rewrite decide_True. Qed.

Lemma queued_ready w t q r S x : sched_ok S -> workers S !! w = Some (mkWorker q r) -> t ∈ q -> tasks S !! t = Some x ->
  state x = READY /\ home x = w /\ forall v p s, workers S !! v = Some (mkWorker p s) -> ~ on_worker t s \/ s = Leaving t.
Proof.
  intros O Hw Hin Ht. destruct (sched_queues _ _ O w q r t Hw Hin) as (y & Hy & E1 & E2). simplify_eq. split_and!; [done|done|].
  intros v p s Hv. destruct (decide (s = Running t)) as [->|H1]; [|destruct (decide (s = Leaving t)); [by right|left; intros [?|?]; done]].
  destruct (sched_current _ _ O v p _ t Hv ltac:(by left)) as (y & Hy & E & _). simplify_eq.
  pose proof (sched_refs _ _ O t) as R. change (cnt t []) with 0%nat in R. unfold expected in R. rewrite Ht, E2, decide_False in R by done.
  pose proof (refs_at_worker t S _ _ _ Hw) as B. rewrite runs_self in B. apply cnt_pos in Hin. lia.
Qed.

Lemma pick_ok w now S S' : sched_ok S -> worker_pick w now S = Some S' -> sched_ok S'.
Proof.
  intros O0. unfold worker_pick. pose proof (fire_due_ok now S O0) as O. set (S1 := async_fire_due now S) in *.
  destruct (workers S1 !! w) as [[[|t q] [| |]]|] eqn:Hw; try done. destruct (tasks S1 !! t) as [x|] eqn:Ht; [|done]. intros [= <-].
  destruct (queued_ready w t _ _ S1 x O Hw ltac:(by left) Ht) as (St & Hh & Hr).
  set (y := mkTask (state x) (reap x) false (result x) (awaited_result x) (error x) (home x) (task_env x)).
  assert (O2 : sched_ok (set_tasks (<[t := y]> (tasks S1)) S1)).
  { eapply update_okp; [done|done|done|..]; try done.
    - intros u. rewrite (expected_update S1 t x y u Ht) by done. apply (sched_refs _ _ O).
    - intros D. cbn in D. congruence.
    - intros D. cbn in D. congruence. }
  apply (workers_okp [] [] _ w (t :: q) Scheduling q (Running t) O2 Hw).
  - intros u. rewrite cnt_cons. unfold runs. rewrite (decide_False (P := Scheduling = Running u)) by done.
    destruct (decide (t = u)) as [->|Hne]; [rewrite decide_True by done|rewrite decide_False by congruence]; lia.
  - intros v Hv. by right.
  - intros v [[= ->]|]; [|done]. exists y. cbn. by rewrite lookup_insert_eq.
  - done.
Qed.

Lemma leave_okp w q t S : sched_ok S -> workers S !! w = Some (mkWorker q (Running t)) ->
  sched_okp [t] (set_workers (<[w := mkWorker q (Leaving t)]> (workers S)) S).
Proof.
  intros O Hw. eapply workers_okp; [done|done|..].
  - intros u. rewrite cnt_cons. change (cnt u []) with 0%nat. unfold runs. rewrite (decide_False (P := Leaving t = Running u)) by done.
    destruct (decide (t = u)) as [->|Hne]; [rewrite decide_True by done|rewrite decide_False by congruence]; lia.
  - done.
  - intros v [|[= ->]]; [done|]. by eapply sched_current; [done|done|left].
  - done.
Qed.

Lemma not_queued t S w q r : references t S = 0%nat -> workers S !! w = Some (mkWorker q r) -> t ∉ q /\ r <> Running t.
Proof.
  intros R Hw. pose proof (refs_at_worker t S _ _ _ Hw) as B.
  split; [apply cnt_zero; lia|]. intros ->. rewrite runs_self in B. lia.
Qed.

Lemma block_okp t S : sched_okp [t] S -> sched_okp [t] (block t S).
Proof.
  intros O. destruct (pend_task t [] S O) as (x & Ht & Hd & R0 & _). unfold block.
  assert (alter (set_state BLOCKED) t (tasks S) = <[t := set_state BLOCKED x]> (tasks S)) as ->.
  { apply map_eq. intros v. destruct (decide (t = v)) as [<-|]; [by rewrite lookup_alter_eq, lookup_insert_eq, Ht|by rewrite lookup_alter_ne, lookup_insert_ne]. }
  eapply update_okp; [done|done|done|..]; try done.
  - intros u. rewrite (expected_update S t x _ u Ht) by done. apply (sched_refs _ _ O).
  - intros w q r Hw Hin. by destruct (not_queued t S w q r R0 Hw).
  - intros w q r Hw Hr. destruct (sched_current _ _ O w q r t Hw Hr) as (y & Hy & _ & E). by simplify_eq.
Qed.

Lemma leave_with_ok w f S S' : sched_ok S -> (forall t S, sched_okp [t] S -> sched_ok (f t S)) -> leave_with w f S = Some S' -> sched_ok S'.
Proof.
  intros O F. unfold leave_with. destruct (workers S !! w) as [[q [|t|t]]|] eqn:Hw; try done. intros [= <-]. by apply F, leave_okp.
Qed.

Lemma timer_insert_cnt u wake t l : cnt u (timer_insert wake t l).*2 = ((if decide (t = u) then 1 else 0) + cnt u l.*2)%nat.
Proof.
  induction l as [|[wake' t'] l IH]; cbn [timer_insert]; [by rewrite fmap_cons, cnt_cons|].
  destruct (wake' <=? wake); rewrite !fmap_cons, !cnt_cons; [rewrite IH|]; cbn [snd]; lia.
Qed.

Lemma sleep_ok wake t S : sched_okp [t] S -> sched_ok (block t (async_timer_add wake t S)).
Proof.
  intros O. apply (timers_okp [t] [] (block t S) (timer_insert wake t (timers S))); [by apply block_okp|]. intros u. change (timers (block t S)) with (timers S).
  rewrite timer_insert_cnt, cnt_cons. lia.
Qed.

Lemma await_ok target x t S : sched_okp [t] S -> tasks S !! target = Some x -> state x <> DONE ->
  sched_ok (block t (set_waiting ((t, target) :: waiting S) S)).
Proof.
  intros O Hx Hd. pose proof (block_okp t S O) as O2. apply (waiting_okp [t] [] (block t S) ((t, target) :: waiting S)); [done| |].
  - intros u. change (waiting (block t S)) with (waiting S). rewrite fmap_cons, !cnt_cons. cbn [fst]. lia.
  - intros u v [E|Hin]%elem_of_cons.
    + injection E as -> ->. unfold block. cbn. destruct (decide (t = target)) as [->|Hne].
      * rewrite lookup_alter_eq, Hx. by eexists.
      * rewrite lookup_alter_ne by done. eauto.
    + by apply (sched_awaited _ _ O2 u v).
Qed.

Lemma deliver_okp r u pend S : sched_okp (u :: pend) S -> sched_okp pend (deliver r S u).
Proof. intros O. apply push_okp. by apply touch_okp. Qed.

Lemma deliver_all_ok r l : forall S, sched_okp l S -> sched_ok (foldl (deliver r) S l).
Proof. induction l as [|u l IH]; intros S O; [done|]. cbn. apply IH. by apply deliver_okp. Qed.

Lemma waiting_split t u S :
  cnt u (waiting S).*1 = (cnt u (filter (fun p => p.2 <> t) (waiting S)).*1 + cnt u (waiters_of t S))%nat.
Proof.
  unfold waiters_of. induction (waiting S) as [|[a b] l IH]; [done|]. rewrite !filter_cons. cbn [snd].
  destruct (decide (b = t)), (decide (b <> t)); try done; rewrite !fmap_cons, !cnt_cons, IH; lia.
Qed.

Lemma finish_ok r t w q S : sched_okp [t] S -> workers S !! w = Some (mkWorker q (Leaving t)) -> sched_ok (finish r t S).
Proof.
  intros O Hw. destruct (pend_task t [] S O) as (x & Ht & Hd & R0 & _). unfold finish.
  destruct (sched_current _ _ O w q _ t Hw ltac:(by right)) as (x' & Ht' & _ & Fd). simplify_eq.
  set (y := mkTask DONE (reap x) (fully_done x) r (awaited_result x) (error x) (home x) (task_env x)).
  assert (alter (fun x => mkTask DONE (reap x) (fully_done x) r (awaited_result x) (error x) (home x) (task_env x)) t (tasks S) = <[t := y]> (tasks S)) as ->.
  { apply map_eq. intros v. destruct (decide (t = v)) as [<-|]; [by rewrite lookup_alter_eq, lookup_insert_eq, Ht|by rewrite lookup_alter_ne, lookup_insert_ne]. }
  apply deliver_all_ok.
  assert (O1 : sched_okp (t :: waiters_of t S) (set_waiting (filter (fun p => p.2 <> t) (waiting S)) S)).
  { eapply waiting_okp; [exact O| |].
    - intros u. rewrite (waiting_split t u S), !cnt_cons. change (cnt u []) with 0%nat. lia.
    - intros u v [_ Hin]%list_elem_of_filter. by apply (sched_awaited _ _ O u v). }
  destruct (pend_task _ _ _ O1) as (x' & Ht' & _ & R1 & C1).
  eapply (update_okp _ _ (set_waiting (filter (fun p => p.2 <> t) (waiting S)) S) t x y O1 Ht); try done.
  - intros u. pose proof (sched_refs _ _ O1 u) as E. rewrite cnt_cons in E. unfold expected in *. cbn [tasks set_tasks set_waiting] in *.
    destruct (decide (t = u)) as [<-|Hne].
    + rewrite lookup_insert_eq. rewrite decide_True by done. lia.
    + rewrite lookup_insert_ne by done. lia.
  - intros v p s Hv Hin. by destruct (not_queued t _ v p s R1 Hv).
  - intros _ _. by exists w, q.
  - intros _ u [E _]%list_elem_of_filter. by apply E.
Qed.

Lemma async_finish_ok w r S S' : sched_ok S -> async_finish w r S = Some S' -> sched_ok S'.
Proof.
  intros O. unfold async_finish, leave_with. destruct (workers S !! w) as [[q [|t|t]]|] eqn:Hw; try done. intros [= <-].
  apply (finish_ok r t w q); [by apply leave_okp|]. cbn. apply list_lookup_insert_eq. by eapply lookup_lt_Some.
Qed.

(** Freeing a task that is done and off its stack. *)
Lemma reap_ok t x S : sched_ok S -> tasks S !! t = Some x -> state x = DONE -> fully_done x = true -> sched_ok (async_reap_task t S).
Proof.
  intros [HR HM HQ HC HD HP HA] Ht Sd Fd.
  assert (T : forall u z, tasks S !! u = Some z -> state z <> DONE \/ fully_done z = false -> delete t (tasks S) !! u = Some z).
  { intros u z Hz Hn. rewrite lookup_delete_ne; [done|]. intros <-. simplify_eq. destruct Hn; congruence. }
  split; cbn [tasks workers timers waiting async_reap_task set_tasks].
  - intros u. specialize (HR u). change (references u (async_reap_task t S)) with (references u S). rewrite HR.
    unfold expected. cbn [tasks async_reap_task set_tasks]. destruct (decide (t = u)) as [<-|Hne].
    + by rewrite lookup_delete_eq, Ht, decide_True.
    + by rewrite lookup_delete_ne.
  - intros u z. rewrite lookup_delete_Some. intros [_ Hu]. by apply (HM u).
  - intros w q r u Hl Hin. destruct (HQ w q r u Hl Hin) as (z & Hz & E1 & E2). exists z. rewrite (T u z Hz); [done|left; congruence].
  - intros w q r u Hl Hin. destruct (HC w q r u Hl Hin) as (z & Hz & E1 & E2). exists z. rewrite (T u z Hz); [done|by right].
  - intros u z. rewrite lookup_delete_Some. intros [_ Hu]. by apply HD.
  - intros u z. rewrite lookup_delete_Some. intros [_ Hu]. by apply (HP u).
  - intros u v Huv. destruct (HA u v Huv) as (z & Hz & E). exists z. rewrite (T v z Hz); [done|by left].
Qed.

Lemma async_detach_ok task r S S' : sched_ok S -> async_detach task S = Some (r, S') -> sched_ok S'.
Proof.
  intros O. unfold async_detach. destruct (task =? 0); [by intros [= _ <-]|]. destruct (tasks S !! task) as [x|] eqn:Ht; [|done].
  destruct (reap x); [by intros [= _ <-]|]. destruct (negb _ || _); [by intros [= _ <-]|]. intros [= _ <-].
  set (y := mkTask (state x) true (fully_done x) (result x) (awaited_result x) (error x) (home x) (task_env x)).
  destruct (bool_decide (state x = DONE) && fully_done x) eqn:B.
  - apply andb_true_iff in B as [B1%bool_decide_eq_true_1 B2].
    replace (async_reap_task task (set_tasks (<[task := y]> (tasks S)) S)) with (async_reap_task task S).
    + by eapply reap_ok.
    + unfold async_reap_task, set_tasks. cbn. f_equal. by rewrite delete_insert_eq.
  - eapply update_okp; [done|exact Ht|done|..]; cbn.
    + intros u. rewrite (expected_update S task x y u Ht) by done. apply (sched_refs _ _ O).
    + intros w q s Hl Hin. destruct (sched_queues _ _ O w q s task Hl Hin) as (z & Hz & _ & E). by simplify_eq.
    + intros w q s Hl Hin. destruct (sched_current _ _ O w q s task Hl Hin) as (z & Hz & _ & E). by simplify_eq.
    + by apply (sched_done _ _ O).
    + intros _ Sd. rewrite Sd in B. by destruct (fully_done x).
    + intros Dn v Hv. destruct (sched_awaited _ _ O v task Hv) as (z & Hz & E). by simplify_eq.
Qed.

(** The worker drops the fiber that left, whose task becomes [z] or goes. *)
Lemma drop_fiber_ok w q t x S ts :
  sched_ok S -> workers S !! w = Some (mkWorker q (Leaving t)) -> tasks S !! t = Some x ->
  (forall u, u <> t -> ts !! u = tasks S !! u) ->
  match ts !! t with
  | Some z => home z = home x /\ state z = state x /\ fully_done z = true /\ (reap z = true -> state z <> DONE)
  | None => state x = DONE
  end ->
  sched_ok (set_workers (<[w := mkWorker q Scheduling]> (workers S)) (set_tasks ts S)).
Proof.
  intros O Hw Ht Hts Hz. destruct (sched_current _ _ O w q _ t Hw ltac:(by right)) as (x' & Ht' & Hh & Fd). simplify_eq.
  destruct O as [HR HM HQ HC HD HP HA].
  assert (Keep : forall u y, tasks S !! u = Some y -> state y <> DONE -> exists y', ts !! u = Some y' /\ home y' = home y /\ state y' = state y).
  { intros u y Hu Hn. destruct (decide (u = t)) as [->|Hne]; [|exists y; by rewrite Hts]. simplify_eq.
    destruct (ts !! t) as [z|]; [|done]. destruct Hz as (? & ? & _). by exists z. }
  assert (Other : forall v p s, <[home x := mkWorker q Scheduling]> (workers S) !! v = Some (mkWorker p s) ->
    exists s', workers S !! v = Some (mkWorker p s') /\ (s = s' \/ s = Scheduling)).
  { intros v p s Hl. apply list_lookup_insert_Some in Hl as [(<- & E & _)|(Hne & Hl)]; [|by eauto]. injection E as <- <-. eauto. }
  assert (Back : forall u y, ts !! u = Some y -> u <> t -> tasks S !! u = Some y) by (intros u y Hu Hne; by rewrite <- Hts).
  split; cbn [tasks workers timers waiting set_workers set_tasks].
  - intros u. specialize (HR u). pose proof (sum_workers (worker_refs u) _ (home x) _ (mkWorker q Scheduling) Hw) as Sm.
    unfold worker_refs at 2 4 in Sm. cbn [ready current] in Sm. unfold runs in Sm.
    rewrite !(decide_False (P := _ = Running u)) in Sm by done.
    assert (expected u (set_workers (<[home x := mkWorker q Scheduling]> (workers S)) (set_tasks ts S)) = expected u S) as ->.
    { unfold expected. cbn. destruct (decide (u = t)) as [->|Hne]; [|by rewrite Hts]. rewrite Ht. destruct (ts !! t) as [z|].
      - by destruct Hz as (_ & -> & _).
      - by rewrite Hz. }
    rewrite <- HR. unfold references. cbn [tasks workers timers waiting set_workers set_tasks]. lia.
  - intros u y Hu. rewrite length_insert. destruct (decide (u = t)) as [->|Hne]; [|by apply (HM u), Back].
    rewrite Hu in Hz. destruct Hz as (-> & _). by apply (HM t).
  - intros v p s u Hl Hin. destruct (Other v p s Hl) as (s' & Hl' & _). destruct (HQ v p s' u Hl' Hin) as (y & Hy & E1 & E2).
    destruct (Keep u y Hy) as (y' & Hy' & E3 & E4); [congruence|]. exists y'. split_and!; congruence.
  - intros v p s u Hl Hon. destruct (Other v p s Hl) as (s' & Hl' & [<-| ->]); [|by destruct Hon].
    destruct (HC v p s u Hl' Hon) as (y & Hy & E1 & E2). assert (Hut : u <> t).
    { intros ->. simplify_eq. rewrite list_lookup_insert_eq in Hl by (by eapply lookup_lt_Some). by simplify_eq. }
    exists y. by rewrite Hts.
  - intros u y Hu Sd Fd'. destruct (decide (u = t)) as [->|Hne]; [rewrite Hu in Hz; naive_solver congruence|].
    destruct (HD u y (Back u y Hu Hne) Sd Fd') as (v & p & Hl). exists v, p. rewrite list_lookup_insert_ne; [done|]. intros <-. simplify_eq.
  - intros u y Hu Rp Sd. destruct (decide (u = t)) as [->|Hne]; [rewrite Hu in Hz; naive_solver|]. by apply (HP u y (Back u y Hu Hne)).
  - intros u v Huv. destruct (HA u v Huv) as (y & Hy & E). destruct (Keep v y Hy E) as (y' & Hy' & _ & E4). exists y'. split; congruence.
Qed.

Lemma resume_ok w S S' : sched_ok S -> worker_resume w S = Some S' -> sched_ok S'.
Proof.
  intros O. unfold worker_resume. destruct (workers S !! w) as [[q [|t|t]]|] eqn:Hw; try done.
  destruct (tasks S !! t) as [x|] eqn:Ht; [|done]. intros [= <-].
  set (y := mkTask (state x) (reap x) true (result x) (awaited_result x) (error x) (home x) (task_env x)).
  destruct (reap x && bool_decide (state x = DONE)) eqn:B.
  - apply andb_true_iff in B as [_ B%bool_decide_eq_true_1].
    pose proof (drop_fiber_ok w q t x S (delete t (<[t := y]> (tasks S))) O Hw Ht) as D.
    unfold async_reap_task, set_workers, set_tasks in *. cbn in *. apply D.
    + intros u Hne. by rewrite lookup_delete_ne, lookup_insert_ne.
    + by rewrite lookup_delete_eq.
  - apply (drop_fiber_ok w q t x S (<[t := y]> (tasks S))); [done..| |].
    + intros u Hne. by rewrite lookup_insert_ne.
    + rewrite lookup_insert_eq. split_and!; [done..|]. cbn. intros Rp. rewrite Rp in B. by apply bool_decide_eq_false_1 in B.
Qed.

Lemma sched_step_ok S S' : sched_ok S -> sched_step S S' -> sched_ok S'.
Proof.
  intros O H. destruct H as [S a e f Ha|S w now S' H|S w S' H|S w S' H|S w now ms S' H|S w target r S' x Hx Hrp H|S target r S' H|S target r S' H|S w r S' H|S task r S' H].
  - by apply async_spawn_ok.
  - by eapply pick_ok.
  - by eapply resume_ok.
  - eapply leave_with_ok; [done| |exact H]. intros t S1. apply push_okp.
  - eapply leave_with_ok; [done| |exact H]. intros t S1. apply sleep_ok.
  - unfold async_await_fiber in H. rewrite Hx in H. destruct (decide (state x = DONE)) as [|Hd]; [by injection H as _ <-|].
    unfold leave_with in H. destruct (workers S !! w) as [[q [|t|t]]|] eqn:Hw; try done. injection H as _ <-.
    by apply (await_ok target x t (set_workers (<[w := mkWorker q (Leaving t)]> (workers S)) S)); [apply leave_okp| |].
  - unfold async_await_main_start in H. destruct (tasks S !! target) as [x|]; [|done].
    destruct (decide (state x = DONE)); injection H as _ <-; [done|]. destruct O. by split.
  - unfold async_await_main_end in H. destruct (tasks S !! target) as [x|]; [|done].
    destruct (decide (state x = DONE)); [|done]. injection H as _ <-. destruct O. by split.
  - by eapply async_finish_ok.
  - by eapply async_detach_ok.
Qed.

Lemma start_sched_ok n : sched_ok (start_sched n).
Proof.
  split; cbn [tasks workers timers waiting start_sched]; try done.
  - intros t. change (cnt t []) with 0%nat. unfold references, expected. cbn [tasks workers timers waiting start_sched].
    rewrite lookup_empty. change (cnt t [].*2) with 0%nat. change (cnt t [].*1) with 0%nat.
    induction n as [|n IH]; cbn [replicate sum_list_with]; [done|]. unfold worker_refs at 1. cbn [ready current]. done.
  - intros w q r t Hw Hin. apply lookup_replicate in Hw as [E _]. injection E as -> ->. by apply elem_of_nil in Hin.
  - intros w q r t Hw Hin. apply lookup_replicate in Hw as [E _]. injection E as -> ->. by destruct Hin.
  - intros u t Hin. by apply elem_of_nil in Hin.
Qed.

Lemma sched_reach n S : rtc sched_step (start_sched n) S -> sched_ok S.
Proof.
  intros H. pose proof (start_sched_ok n) as O. induction H as [|S S1 S2 Hs _ IH]; [done|]. apply IH. by eapply sched_step_ok.
Qed.

(** C11: the scheduler neither loses nor duplicates nor touches a freed task.
    In every reachable state a task that is not done is referenced from
    exactly one place (one ready queue, one timer, one waiters list, or a
    worker that runs it) and a done or freed one from none; a queued task is
    ready and in its home worker's queue; a fiber is only ever on its home
    worker, and its task is not freed before the fiber has left its stack; a
    detached task that is done waits for nothing else. *)
Theorem scheduler_sound n S :
  rtc sched_step (start_sched n) S ->
  (forall t, references t S = match tasks S !! t with Some x => if decide (state x = DONE) then 0%nat else 1%nat | None => 0%nat end)
  /\ (forall w q r t, workers S !! w = Some (mkWorker q r) -> t ∈ q ->
        exists x, tasks S !! t = Some x /\ home x = w /\ state x = READY)
  /\ (forall w q r t, workers S !! w = Some (mkWorker q r) -> r = Running t \/ r = Leaving t ->
        exists x, tasks S !! t = Some x /\ home x = w)
  /\ (forall t x, tasks S !! t = Some x -> reap x = true -> state x = DONE ->
        exists w q, workers S !! w = Some (mkWorker q (Leaving t))).
Proof.
  intros H. pose proof (sched_reach n S H) as O. split_and!.
  - intros t. rewrite <- (Nat.add_0_r (references t S)). exact (sched_refs _ _ O t).
  - apply (sched_queues _ _ O).
  - intros w q r t Hw Hr. destruct (sched_current _ _ O w q r t Hw Hr) as (x & Hx & Hh & _). by exists x.
  - intros t x Hx Rp Sd. apply (sched_done _ _ O t x Hx Sd). by apply (sched_reaped _ _ O t x).
Qed.

(** Two tasks on one worker, the first awaiting the second. *)
Definition demo (S : Sched) : option Sched :=
  let S1 := (async_spawn 64 NULL 0x200 S).2 in
  let S2 := (async_spawn 72 NULL 0x208 S1).2 in
  S3 ← worker_pick 0 5 S2; '(_, S4) ← async_await_fiber 0 72 S3; S5 ← worker_resume 0 S4; worker_pick 0 6 S5.

Lemma demo_reach S : demo (start_sched 1) = Some S -> rtc sched_step (start_sched 1) S.
Proof.
  unfold demo. intros (S3 & E3 & H)%bind_Some. apply bind_Some in H as ([r S4] & E4 & H). apply bind_Some in H as (S5 & E5 & E6).
  eapply rtc_l; [by apply (step_spawn _ 64 NULL 0x200)|]. eapply rtc_l; [by apply (step_spawn _ 72 NULL 0x208)|].
  eapply rtc_l; [by eapply step_pick|]. eapply rtc_l; [|eapply rtc_l; [by eapply step_resume|]; eapply rtc_l; [by eapply step_pick|]; done].
  vm_compute in E3. injection E3 as <-. eapply (step_await _ 0 72 r); [by vm_compute|done|done].
Qed.

Lemma scheduler_sound_witness :
  exists S, demo (start_sched 1) = Some S /\ references 64 S = 1%nat /\ references 72 S = 1%nat.
Proof.
  destruct (demo (start_sched 1)) as [S|] eqn:E; [|by vm_compute in E]. exists S. split; [done|].
  destruct (scheduler_sound 1 S (demo_reach S E)) as [H _]. vm_compute in E. injection E as <-. rewrite !H. by vm_compute.
Defined.

(** *** Awaiting *)

Lemma deliver_lookup r S a u y : tasks S !! u = Some y ->
  exists y', tasks (deliver r S a) !! u = Some y' /\ home y' = home y
    /\ (a = u -> awaited_result y' = r /\ state y' = READY) /\ (a <> u -> y' = y).
Proof.
  intros Hu. unfold deliver, async_ready_push. cbn [tasks set_tasks]. destruct (decide (a = u)) as [->|Hne].
  - rewrite lookup_alter_eq, Hu. cbn. rewrite lookup_insert_eq. eexists. split_and!; done.
  - destruct (alter _ a (tasks S) !! a) as [z|] eqn:E; cbn [tasks set_tasks].
    + exists y. rewrite lookup_insert_ne, lookup_alter_ne by done. split_and!; done.
    + exists y. rewrite lookup_alter_ne by done. split_and!; done.
Qed.

Lemma deliver_all_lookup r l : forall S u y, tasks S !! u = Some y ->
  exists y', tasks (foldl (deliver r) S l) !! u = Some y' /\ home y' = home y
    /\ (u ∈ l -> awaited_result y' = r /\ state y' = READY) /\ (u ∉ l -> y' = y).
Proof.
  induction l as [|a l IH]; intros S u y Hu; cbn.
  - exists y. split_and!; [done|done|by intros ?%elem_of_nil|done].
  - destruct (deliver_lookup r S a u y Hu) as (y1 & H1 & E1 & P1 & Q1). destruct (IH _ u y1 H1) as (y2 & H2 & E2 & P2 & Q2).
    exists y2. split_and!; [done|congruence| |].
    + intros Hin. destruct (decide (u ∈ l)) as [Hl|Hl]; [by apply P2|]. rewrite (Q2 Hl). apply P1. apply elem_of_cons in Hin as [->|]; done.
    + intros [N1 N2]%not_elem_of_cons. rewrite (Q2 N2). by apply Q1.
Qed.

Lemma deliver_waiting r l : forall S, waiting (foldl (deliver r) S l) = waiting S.
Proof.
  induction l as [|a l IH]; intros S; cbn; [done|]. rewrite IH. unfold deliver, async_ready_push.
  by destruct (tasks (set_tasks _ S) !! a).
Qed.

Definition in_queue (u : Z) (h : nat) (S : Sched) : Prop := exists p s, workers S !! h = Some (mkWorker p s) /\ u ∈ p.

Lemma push_in_queue t u h S x : tasks S !! t = Some x -> (home x < length (workers S))%nat ->
  in_queue u h S \/ t = u /\ h = home x -> in_queue u h (async_ready_push t S).
Proof.
  intros Ht Hh Hq. unfold async_ready_push. rewrite Ht. destruct (lookup_lt_is_Some_2 _ _ Hh) as [w Hw]. unfold in_queue. cbn [workers].
  rewrite (alter_workers _ _ _ w Hw). destruct (decide (home x = h)) as [<-|Hne].
  - rewrite list_lookup_insert_eq by done. eexists _, _. split; [done|]. apply elem_of_app.
    destruct Hq as [(p & s & Hp & Hin)|[-> _]]; [left; rewrite Hp in Hw; by simplify_eq|right; by left].
  - rewrite list_lookup_insert_ne by done. destruct Hq as [Hq|[_ E]]; [done|congruence].
Qed.

Lemma deliver_length r S a : length (workers (deliver r S a)) = length (workers S).
Proof. unfold deliver, async_ready_push. destruct (tasks (set_tasks _ S) !! a); cbn; by rewrite ?length_alter. Qed.

Lemma deliver_queued r l : forall S u y, tasks S !! u = Some y -> (home y < length (workers S))%nat ->
  u ∈ l \/ in_queue u (home y) S -> (forall a z, a ∈ l -> tasks S !! a = Some z -> (home z < length (workers S))%nat) ->
  (forall a, a ∈ l -> is_Some (tasks S !! a)) -> in_queue u (home y) (foldl (deliver r) S l).
Proof.
  induction l as [|a l IH]; intros S u y Hu Hh Hor Hl He; cbn.
  - destruct Hor as [?%elem_of_nil|]; done.
  - destruct (deliver_lookup r S a u y Hu) as (y1 & H1 & E1 & _). rewrite <- E1. destruct (He a ltac:(by left)) as [za Hza].
    apply IH; [done|by rewrite E1, deliver_length| | |].
    + rewrite E1. assert (Push : in_queue u (home y) S \/ a = u -> in_queue u (home y) (deliver r S a)).
      { intros Hq. unfold deliver. eapply push_in_queue; [cbn; by rewrite lookup_alter_eq, Hza|cbn; by apply (Hl a); [left|]|].
        destruct Hq as [Hq| ->]; [by left|right]. by simplify_eq. }
      destruct Hor as [[->|Hin]%elem_of_cons|Hq]; [right; by apply Push; right|by left|right; by apply Push; left].
    + intros b z Hb Hz. rewrite deliver_length. destruct (He b ltac:(by right)) as [zb Hzb].
      destruct (deliver_lookup r S a b zb Hzb) as (y2 & H2 & E2 & _). simplify_eq. rewrite E2. by apply (Hl b); [right|].
    + intros b Hb. destruct (He b ltac:(by right)) as [zb Hzb]. destruct (deliver_lookup r S a b zb Hzb) as (y2 & H2 & _). by eexists.
Qed.

(** C35: awaiting a task gets its result. When the fiber of a task returns, its
    result is kept in the task for later awaits and polls, and every fiber
    that awaited it has the result, is ready, and stands in the queue of its
    home worker; nobody is left in the waiters list. *)
Theorem await_delivered n S w q t r S' :
  rtc sched_step (start_sched n) S -> workers S !! w = Some (mkWorker q (Running t)) -> async_finish w r S = Some S' ->
  (exists x, tasks S' !! t = Some x /\ state x = DONE /\ result x = r)
  /\ waiters_of t S' = []
  /\ forall u, (u, t) ∈ waiting S ->
       exists y p s, tasks S' !! u = Some y /\ awaited_result y = r /\ state y = READY
         /\ workers S' !! home y = Some (mkWorker p s) /\ u ∈ p.
Proof.
  intros H Hw Hf. pose proof (sched_reach n S H) as O. pose proof (async_finish_ok w r S S' O Hf) as O'.
  unfold async_finish, leave_with in Hf. rewrite Hw in Hf. injection Hf as <-.
  set (S1 := set_workers (<[w := mkWorker q (Leaving t)]> (workers S)) S) in *.
  destruct (pend_task t [] S1 (leave_okp w q t S O Hw)) as (x & Ht & Hd & R0 & _).
  set (x' := mkTask DONE (reap x) (fully_done x) r (awaited_result x) (error x) (home x) (task_env x)).
  assert (Nt : t ∉ waiters_of t S1).
  { intros (p & -> & [_ Hin]%list_elem_of_filter)%list_elem_of_fmap. unfold references in R0.
    assert (Hc : (1 <= cnt p.1 (waiting S1).*1)%nat) by (apply cnt_pos, list_elem_of_fmap; by exists p). lia. }
  unfold finish in *. set (S2 := set_waiting _ _) in *.
  assert (Hx2 : tasks S2 !! t = Some x'). { cbn [tasks set_waiting set_tasks S2]. by rewrite lookup_alter_eq, Ht. }
  split_and!.
  - destruct (deliver_all_lookup r (waiters_of t S1) S2 t x' Hx2) as (y & Hy & _ & _ & E). exists y. rewrite (E Nt) in *. done.
  - unfold waiters_of. rewrite deliver_waiting. cbn. rewrite list_filter_filter.
    by rewrite filter_none by (apply Forall_forall; intros p _ [? ?]; done).
  - intros u Hin. assert (Hwt : u ∈ waiters_of t S1).
    { unfold waiters_of. apply list_elem_of_fmap. exists (u, t). split; [done|]. by apply list_elem_of_filter. }
    assert (Some_waiter : forall v, v ∈ waiters_of t S1 -> is_Some (tasks S !! v) /\ t <> v).
    { intros v Hv. split; [|by intros ->]. apply list_elem_of_fmap in Hv as (p & -> & [_ Hp]%list_elem_of_filter).
      pose proof (sched_refs _ _ O p.1) as R. unfold expected in R. destruct (tasks S !! p.1) as [z|]; [by eexists|].
      assert (Hc : (1 <= cnt p.1 (waiting S).*1)%nat) by (apply cnt_pos, list_elem_of_fmap; by exists p). unfold references in R. lia. }
    assert (Same : forall v, t <> v -> tasks S2 !! v = tasks S !! v).
    { intros v Hne. cbn [tasks set_waiting set_tasks S2]. by rewrite lookup_alter_ne. }
    assert (Len : length (workers S2) = length (workers S)) by (cbn; by rewrite length_insert).
    destruct (Some_waiter u Hwt) as [[z Hz] Hne]. assert (Hz2 : tasks S2 !! u = Some z) by (by rewrite Same).
    destruct (deliver_all_lookup r (waiters_of t S1) S2 u z Hz2) as (y & Hy & Eh & P & _). destruct (P Hwt) as [P1 P2].
    destruct (deliver_queued r (waiters_of t S1) S2 u z Hz2) as (p & s & Hp & Hin').
    + rewrite Len. by apply (sched_homes _ _ O u).
    + by left.
    + intros a za Ha Hza. destruct (Some_waiter a Ha) as [_ Hna]. rewrite Same in Hza by done. rewrite Len. by apply (sched_homes _ _ O a).
    + intros a Ha. destruct (Some_waiter a Ha) as [? Hna]. by rewrite Same.
    + exists y, p, s. rewrite Eh. done.
Qed.

Lemma await_delivered_witness :
  exists S S' y, demo (start_sched 1) = Some S /\ async_finish 0 99 S = Some S' /\ tasks S' !! 64 = Some y /\ awaited_result y = 99.
Proof.
  destruct (demo (start_sched 1)) as [S|] eqn:E; [|by vm_compute in E].
  pose proof (fun q => await_delivered 1 S 0 q 72 99) as H. pose proof (demo_reach S E) as R.
  destruct (async_finish 0 99 S) as [S'|] eqn:F; [|vm_compute in E; injection E as <-; by vm_compute in F].
  destruct (H [] S' R) as (_ & _ & D).
  - vm_compute in E. by injection E as <-.
  - done.
  - destruct (D 64) as (y & _ & _ & Hy & Ha & _); [vm_compute in E; injection E as <-; by left|]. by exists S, S', y.
Defined.

(** *** Timers *)

Definition by_wake (a b : Z * Z) : Prop := a.1 <= b.1.

Lemma timer_insert_sorted wake t l : StronglySorted by_wake l -> StronglySorted by_wake (timer_insert wake t l).
Proof.
  induction 1 as [|[wake' t'] l Hs IH Hf]; cbn [timer_insert]; [by repeat constructor|].
  destruct (Z.leb_spec wake' wake) as [Hle|Hgt].
  - constructor; [done|]. clear IH Hs. induction l as [|[w2 t2] l IHl]; cbn [timer_insert].
    + by repeat constructor.
    + apply Forall_cons in Hf as [H1 H2]. destruct (w2 <=? wake); constructor; auto.
  - constructor; [by constructor|]. constructor; [unfold by_wake; cbn; lia|]. eapply Forall_impl; [exact Hf|].
    unfold by_wake. cbn. intros p Hp. lia.
Qed.

Lemma take_due_spec now l : StronglySorted by_wake l ->
  StronglySorted by_wake (take_due now l).2
  /\ (forall wake t, (wake, t) ∈ l -> if wake <=? now then t ∈ (take_due now l).1 else (wake, t) ∈ (take_due now l).2)
  /\ (forall p, p ∈ (take_due now l).2 -> now < p.1 /\ p ∈ l).
Proof.
  induction 1 as [|[w t] l Hs IH Hf]; cbn [take_due].
  - split_and!; [constructor|by intros ? ? ?%elem_of_nil|by intros ? ?%elem_of_nil].
  - destruct (Z.leb_spec w now) as [Hle|Hgt].
    + destruct (take_due now l) as [due rest]. cbn [fst snd] in *. destruct IH as (I1 & I2 & I3). split_and!; [done| |].
      * intros w2 t2 [E|Hin]%elem_of_cons.
        -- injection E as -> ->. rewrite (proj2 (Z.leb_le _ _) Hle). by left.
        -- specialize (I2 w2 t2 Hin). destruct (w2 <=? now); [by right|done].
      * intros p Hp. destruct (I3 p Hp) as [? ?]. split; [done|by right].
    + cbn [fst snd]. assert (All : forall p, p ∈ (w, t) :: l -> now < p.1).
      { intros p [->|Hin]%elem_of_cons; [done|]. rewrite Forall_forall in Hf. specialize (Hf p Hin). unfold by_wake in Hf. cbn in Hf. lia. }
      split_and!; [by constructor| |intros p Hp; by split; [apply All|]].
      intros w2 t2 Hin. rewrite (proj2 (Z.leb_gt w2 now)); [done|]. exact (All _ Hin).
Qed.

Lemma push_timers t S : timers (async_ready_push t S) = timers S.
Proof. unfold async_ready_push. by destruct (tasks S !! t). Qed.

Lemma push_all_timers l : forall S, timers (foldl (fun S t => async_ready_push t S) S l) = timers S.
Proof. induction l as [|t l IH]; intros S; cbn; [done|]. by rewrite IH, push_timers. Qed.

Lemma deliver_timers r l : forall S, timers (foldl (deliver r) S l) = timers S.
Proof. induction l as [|a l IH]; intros S; cbn; [done|]. rewrite IH. unfold deliver. by rewrite push_timers. Qed.

Lemma fire_due_timers now S : timers (async_fire_due now S) = (take_due now (timers S)).2.
Proof. unfold async_fire_due. destruct (take_due now (timers S)) as [due rest]. by rewrite push_all_timers. Qed.

Lemma step_sorted S S' : StronglySorted by_wake (timers S) -> sched_step S S' -> StronglySorted by_wake (timers S').
Proof.
  intros T H. destruct H as [S a e f Ha|S w now S' H|S w S' H|S w S' H|S w now ms S' H|S w target r S' x Hx Hrp H|S target r S' H|S target r S' H|S w r S' H|S task r S' H].
  - unfold async_spawn. destruct (f =? NULL), (a =? 0), (length (workers S) <? 1)%nat; cbn [snd]; by rewrite ?push_timers.
  - unfold worker_pick in H. destruct (workers _ !! w) as [[[|t q] [| |]]|]; try done. destruct (tasks _ !! t); [|done].
    injection H as <-. cbn. rewrite fire_due_timers. by apply take_due_spec.
  - unfold worker_resume in H. destruct (workers _ !! w) as [[q [| |t]]|]; try done. destruct (tasks _ !! t); [|done].
    injection H as <-. by destruct (_ && _).
  - unfold async_yield, leave_with in H. destruct (workers _ !! w) as [[q [|t|]]|]; try done. injection H as <-. by rewrite push_timers.
  - unfold async_sleep_ms, leave_with in H. destruct (workers _ !! w) as [[q [|t|]]|]; try done. injection H as <-. cbn. by apply timer_insert_sorted.
  - unfold async_await_fiber, leave_with in H. rewrite Hx in H. destruct (decide _); [by injection H as _ <-|].
    destruct (workers _ !! w) as [[q [|t|]]|]; try done. by injection H as _ <-.
  - unfold async_await_main_start in H. destruct (tasks S !! target); [|done]. destruct (decide _); by injection H as _ <-.
  - unfold async_await_main_end in H. destruct (tasks S !! target); [|done]. destruct (decide _); [|done]. by injection H as _ <-.
  - unfold async_finish, leave_with in H. destruct (workers _ !! w) as [[q [|t|]]|]; try done. injection H as <-. unfold finish. by rewrite deliver_timers.
  - unfold async_detach in H. destruct (task =? 0); [by injection H as _ <-|]. destruct (tasks S !! task) as [x|]; [|done].
    destruct (reap x); [by injection H as _ <-|]. destruct (_ || _); [by injection H as _ <-|]. injection H as _ <-. by destruct (_ && _).
Qed.

Lemma push_all_queued l : forall S u y, sched_okp l S -> tasks S !! u = Some y ->
  u ∈ l \/ in_queue u (home y) S -> in_queue u (home y) (foldl (fun S t => async_ready_push t S) S l).
Proof.
  induction l as [|a l IH]; intros S u y O Hu Hor; cbn; [by destruct Hor as [?%elem_of_nil|]|].
  destruct (pend_task a l S O) as (x & Hx & _). pose proof (sched_homes _ _ O a x Hx) as Hh.
  assert (exists y1, tasks (async_ready_push a S) !! u = Some y1 /\ home y1 = home y) as (y1 & Hy1 & E1).
  { unfold async_ready_push. rewrite Hx. cbn [tasks]. destruct (decide (a = u)) as [->|Hne].
    - rewrite lookup_insert_eq. simplify_eq. by eexists.
    - rewrite lookup_insert_ne by done. by exists y. }
  rewrite <- E1. apply (IH _ u y1); [by apply push_okp|done|]. rewrite E1.
  destruct Hor as [[->|Hin]%elem_of_cons|Hq]; [|by left|].
  - right. eapply push_in_queue; [done|done|]. right. by simplify_eq.
  - right. eapply push_in_queue; [done|done|by left].
Qed.

(** Sleepers wake in time. The timer list stays ordered by wake time; when
    a worker looks at the clock, exactly the tasks whose time has come leave
    it, each to the ready queue of its home worker, and the others stay. *)
Theorem timers_fire n S now :
  rtc sched_step (start_sched n) S ->
  StronglySorted by_wake (timers S)
  /\ (forall wake t, (wake, t) ∈ timers S -> wake <= now ->
        exists x, tasks S !! t = Some x /\ in_queue t (home x) (async_fire_due now S))
  /\ (forall p, p ∈ timers (async_fire_due now S) <-> p ∈ timers S /\ now < p.1).
Proof.
  intros H. assert (T : StronglySorted by_wake (timers S)).
  { assert (T0 : StronglySorted by_wake (timers (start_sched n))) by constructor. revert T0.
    clear -H. induction H as [|S S1 S2 Hs _ IH]; [done|]. intros T0. apply IH. by eapply step_sorted. }
  pose proof (sched_reach n S H) as O. destruct (take_due_spec now (timers S) T) as (_ & D1 & D2). split_and!; [done| |].
  - intros wake t Hin Hle. specialize (D1 wake t Hin). rewrite (proj2 (Z.leb_le _ _) Hle) in D1.
    pose proof (sched_refs _ _ O t) as R. unfold expected in R. destruct (tasks S !! t) as [x|] eqn:Hx.
    + exists x. split; [done|]. unfold async_fire_due. pose proof (take_due_split now (timers S)) as E.
      destruct (take_due now (timers S)) as [due rest]. cbn [fst snd] in *. apply push_all_queued; [|done|by left].
      apply (timers_okp [] due S rest O). intros u. rewrite E, cnt_app. change (cnt u []) with 0%nat. lia.
    + unfold references in R. assert (Hc : (1 <= cnt t (timers S).*2)%nat) by (apply cnt_pos, list_elem_of_fmap; by exists (wake, t)). lia.
  - intros [wake t]. rewrite fire_due_timers. split.
    + intros Hp. destruct (D2 _ Hp). done.
    + intros [Hin Hgt]. specialize (D1 wake t Hin). cbn in Hgt. by rewrite (proj2 (Z.leb_gt _ _) Hgt) in D1.
Qed.

Definition sleeper : option Sched :=
  S1 ← worker_pick 0 5 (async_spawn 64 NULL 0x200 (start_sched 1)).2; async_sleep_ms 0 5 10 S1.

Lemma sleeper_reach S : sleeper = Some S -> rtc sched_step (start_sched 1) S.
Proof.
  unfold sleeper. intros (S1 & E1 & E2)%bind_Some. eapply rtc_l; [by apply (step_spawn _ 64 NULL 0x200)|].
  eapply rtc_l; [by eapply step_pick|]. eapply rtc_l; [by eapply step_sleep|]. done.
Qed.

Lemma timers_fire_witness : exists S x, sleeper = Some S /\ tasks S !! 64 = Some x /\ in_queue 64 (home x) (async_fire_due 15 S).
Proof.
  destruct sleeper as [S|] eqn:E; [|by vm_compute in E]. destruct (timers_fire 1 S 15 (sleeper_reach S E)) as (_ & H & _).
  destruct (H 15 64) as (x & Hx & Hq); [vm_compute in E; injection E as <-; by left|lia|]. by exists S, x.
Defined.

(** ** Threads outside the pool *)

(** Whether the completion of [t] signals the threads outside the pool that
    await: [g_main_wait] is compared with the task. *)
Definition finish_signals (t : Z) (S : Sched) : bool := bool_decide (main_wait S = Some t).

(** There is one [g_main_wait]: when a second thread starts to await, the
    completion of the first thread's task signals nobody, and that thread
    sleeps on with its task done. *)
Example second_awaiter_hides_first :
  let S1 := (async_spawn 64 NULL 0x200 (start_sched 1)).2 in
  let S2 := (async_spawn 72 NULL 0x208 S1).2 in
  exists S3 S4 S5, async_await_main_start 64 S2 = Some (None, S3) /\ async_await_main_start 72 S3 = Some (None, S4)
    /\ worker_pick 0 5 S4 = Some S5 /\ finish_signals 64 S5 = false
    /\ match async_finish 0 7 S5 with Some S6 => async_poll 64 S6 = Some 7 | None => False end.
Proof. do 3 eexists. split; [by vm_compute|]. split; [by vm_compute|]. split; [by vm_compute|]. split; by vm_compute. Qed.

(** With one awaiting thread the signal comes. *)
Lemma single_awaiter_signalled target S r S' :
  async_await_main_start target S = Some (r, S') -> r = None -> finish_signals target S' = true.
Proof.
  unfold async_await_main_start. destruct (tasks S !! target) as [x|]; [|done]. destruct (decide (state x = DONE)); intros [= <- <-]; [done|].
  intros _. by apply bool_decide_eq_true_2.
Qed.

(** ** The pool's size *)

(** [async_stack_size] for the environment variable read as a [long]. *)
Definition async_stack_size (env : option Z) : Z :=
  match env with
  | Some n => if 0 <? n then (if n <? 65536 then 65536 else if 536870912 <? n then 536870912 else n) else 1048576
  | None => 1048576
  end.

Definition VYB_WORKER_MAX : Z := 64.
Definition async_worker_max (env : option Z) : Z :=
  match env with Some n => if (1 <=? n) && (n <=? VYB_WORKER_MAX) then n else VYB_WORKER_MAX | None => VYB_WORKER_MAX end.

Definition pool_size (ncpu : Z) (env : option Z) : Z :=
  let n := if 0 <? ncpu then ncpu else 4 in
  let n := if n <? 1 then 1 else n in
  if async_worker_max env <? n then async_worker_max env else n.

(** [async_ensure_workers]: [created] tells for each worker whether its
    [pthread_create] succeeded; the count of those becomes [g_nworkers]. *)
Definition async_ensure_workers (created : list bool) : list bool * nat := (created, length (filter (fun b => b = true) created)).

Lemma pool_bounds ncpu env senv : 1 <= pool_size ncpu env <= VYB_WORKER_MAX /\ 65536 <= async_stack_size senv <= 536870912.
Proof.
  unfold pool_size, async_worker_max, async_stack_size, VYB_WORKER_MAX. split.
  - destruct env as [n|].
    + destruct (Z.leb_spec 1 n), (Z.leb_spec n 64), (Z.ltb_spec 0 ncpu); cbn [andb]; repeat (case_match; rewrite ?Z.ltb_lt, ?Z.ltb_ge in *); lia.
    + destruct (Z.ltb_spec 0 ncpu); repeat (case_match; rewrite ?Z.ltb_lt, ?Z.ltb_ge in *); lia.
  - destruct senv as [n|]; [|lia]. repeat (case_match; rewrite ?Z.ltb_lt, ?Z.ltb_ge in *); lia.
Qed.

(** Homes are chosen below the count, so when an earlier worker failed to start
    a task is queued where no thread runs. *)
Example worker_not_started :
  let '(started, n) := async_ensure_workers [false; true] in
  n = 1%nat /\ started !! (0 mod n)%nat = Some false.
Proof. by vm_compute. Qed.

Lemma all_workers_started created i : Forall (fun b => b = true) created ->
  let '(started, n) := async_ensure_workers created in (i < n)%nat -> started !! i = Some true.
Proof.
  intros H. unfold async_ensure_workers. rewrite filter_all by done. intros Hi.
  destruct (lookup_lt_is_Some_2 created i Hi) as [b Hb]. rewrite Hb. f_equal. rewrite Forall_forall in H. apply H. by eapply list_elem_of_lookup_2.
Qed.
