(* ===== verification/Manifest.v ===== *)
(** * The manifest reader

    [vyb.toml] as manifest.cpp reads and writes it: the TOML subset
    ([trim], [strip_comment], [split_kv], [unquote], [parse_inline_table],
    [parse_string_array], [parse_toml]), the project model of manifest.hpp,
    [load_manifest] and the two writers. The file system is an argument: the
    contents of [rootDir / vyb.toml], or [None] when it cannot be opened. The
    out parameter [error] is the second component of the result: [Some] is the
    message written, [None] means it is left as it was. *)

From S2P Require Import Prelude.

(** ** Text helpers *)

Definition trim (s : str) : str := rev (drop_while isspace (rev (drop_while isspace s))).

Fixpoint strip_comment_go (inQ : bool) (line : str) : str :=
  match line with
  | [] => []
  | c :: rest =>
      if c =c ch_quote then c :: strip_comment_go (negb inQ) rest
      else if (c =c "#") && negb inQ then []
      else c :: strip_comment_go inQ rest
  end.
Definition strip_comment (line : str) : str := strip_comment_go false line.

(** What precedes and what follows the first equals sign outside quotes. *)
Fixpoint split_eq (inQ : bool) (before line : str) : option (str * str) :=
  match line with
  | [] => None
  | c :: rest =>
      if c =c ch_quote then split_eq (negb inQ) (before ++ [c]) rest
      else if (c =c "=") && negb inQ then Some (before, rest)
      else split_eq inQ (before ++ [c]) rest
  end.
Definition nonempty {A} (s : list A) : bool := match s with [] => false | _ => true end.
Definition split_kv (line : str) : option (str * str) :=
  match split_eq false [] line with
  | Some (k, v) => if nonempty (trim k) && nonempty (trim v) then Some (trim k, trim v) else None
  | None => None
  end.

(** [s.size() >= 2 && s.front() == l && s.back() == r], and what is between. *)
Definition enclosed (l r : ascii) (s : str) : bool :=
  (2 <=? length s) && bool_decide (head s = Some l) && bool_decide (last s = Some r).
Definition inner (s : str) : str := take (length s - 2) (drop 1 s).

Definition unquote (raw : str) : str :=
  let s := trim raw in if enclosed ch_quote ch_quote s then inner s else s.

(** The pieces between the commas outside quotes; [cur] is the open piece. *)
Fixpoint split_parts (inQ : bool) (cur body : str) : list str :=
  match body with
  | [] => [cur]
  | c :: rest =>
      let inQ := if c =c ch_quote then negb inQ else inQ in
      if (c =c ",") && negb inQ then cur :: split_parts inQ [] rest
      else split_parts inQ (cur ++ [c]) rest
  end.

Definition parse_inline_table (raw : str) : list (str * str) :=
  let body := trim raw in
  let body := if enclosed "{" "}" body then inner body else body in
  omap (fun part => '(k, v) ← split_kv part; Some (k, unquote v)) (split_parts false [] body).

Definition parse_string_array (raw : str) : list str :=
  let body := trim raw in
  let body := if enclosed "[" "]" body then inner body else body in
  filter (fun v => nonempty v = true) ((fun part => unquote (trim part)) <$> split_parts false [] body).

(** ** The tables of a text *)

Record Table : Type := mkTable { section : str; isArray : bool; keys : list (str * str) }.

(** The lines [std::getline] delivers; [line] is what it has read of one. *)
Fixpoint toml_lines (line text : str) : list str :=
  match text with
  | [] => if nonempty line then [line] else []
  | c :: rest => if c =c ch_nl then line :: toml_lines [] rest else toml_lines (line ++ [c]) rest
  end.

Fixpoint rfind (c : ascii) (s : str) : option nat :=
  match s with
  | [] => None
  | x :: rest => match rfind c rest with Some n => Some (S n) | None => if x =c c then Some 0 else None end
  end.

(** The index in [tables] of the section the keys go to. *)
Definition currentSection (tables : list Table) (arrayIndex : Z) : option nat :=
  if ((0 <=? arrayIndex) && (arrayIndex <? Z.of_nat (length tables)))%Z then Some (Z.to_nat arrayIndex)
  else if nonempty tables then Some (length tables - 1) else None.

Definition add_key (k v : str) (t : Table) : Table := mkTable (section t) (isArray t) (keys t ++ [(k, v)]).

Definition bad_header (lineno : Z) : str := $"malformed table header at line " ++ to_string lineno.
Definition bad_pair (lineno : Z) : str := $"could not parse key = value at line " ++ to_string lineno.
Definition bad_array (key : str) (lineno : Z) : str :=
  $"unsupported TOML array value for key '" ++ key ++ $"' at line " ++ to_string lineno
  ++ $": the vyb manifest format supports only bare/quoted strings, integers, and inline tables { k = v, ... }; full TOML arrays are not supported (#164); see doc/MANIFEST.md".
Definition no_section (key : str) (lineno : Z) : str :=
  $"key '" ++ key ++ $"' appears before any [section] at line " ++ to_string lineno.

Definition mod_array_key (key : str) (sec : option Table) : bool :=
  ((key =s $"boundary") || (key =s $"capabilities"))
  && match sec with Some t => section t =s $"mod" | None => false end.

(** The tables and [arrayIndex] after one line, or the message. *)
Definition parse_line (lineno : Z) (line : str) (st : list Table * Z) : str + list Table * Z :=
  let '(tables, arrayIndex) := st in
  match trim (strip_comment line) with
  | [] => inr (tables, arrayIndex)
  | c :: r =>
      let t := c :: r in
      if c =c "[" then
        let arr := bool_decide (head r = Some "[") in
        let from := if arr then 2 else 1 in
        match rfind "]" t with
        | None => inl (bad_header lineno)
        | Some close =>
            let tables := tables ++ [mkTable (trim (take (close - from) (drop from t))) arr []] in
            inr (tables, if arr then Z.of_nat (length tables) - 1 else -1)%Z
        end
      else
        match split_kv t with
        | None => inl (bad_pair lineno)
        | Some (key, value) =>
            let cur := currentSection tables arrayIndex in
            if bool_decide (head value = Some "[") && negb (mod_array_key key (cur ≫= (tables !!.)))
            then inl (bad_array key lineno)
            else match cur with
                 | None => inl (no_section key lineno)
                 | Some i => inr (alter (add_key key value) i tables, arrayIndex)
                 end
        end
  end.

Fixpoint parse_lines (lineno : Z) (lines : list str) (st : list Table * Z) : str + list Table * Z :=
  match lines with
  | [] => inr st
  | line :: rest =>
      match parse_line (lineno + 1) line st with
      | inl e => inl e
      | inr st => parse_lines (lineno + 1) rest st
      end
  end.

Definition parse_toml (text : str) : list Table * option str :=
  match parse_lines 0 (toml_lines [] text) ([], (-1)%Z) with
  | inl e => ([], Some e)
  | inr (tables, _) => (tables, None)
  end.

Definition value_in (keys : list (str * str)) (key : str) : option str := assoc_find key keys.

(** ** The project model *)

Record ManifestDependency : Type := mkDep {
  d_name : str; d_source : str; d_path : str; d_url : str; d_version : str }.
Record ManifestBin : Type := mkBin { b_name : str; b_path : str }.
Definition default_bin : ManifestBin := mkBin [] ($"src/main.vyb").
Record ManifestMod : Type := mkMod { freedomBoundary : bool; capabilities : list str }.
Record Manifest : Type := mkManifest {
  m_name : str; m_version : str; m_bins : list ManifestBin; m_dependencies : list ManifestDependency;
  m_rootDir : str; m_hasExplicitBins : bool; m_mod : ManifestMod }.
Definition fresh_manifest (rootDir : str) : Manifest :=
  mkManifest ($"unnamed") ($"0.0.0") [] [] rootDir false (mkMod false []).

Definition with_package (n v : str) (m : Manifest) : Manifest :=
  mkManifest n v (m_bins m) (m_dependencies m) (m_rootDir m) (m_hasExplicitBins m) (m_mod m).
Definition with_bins (bs : list ManifestBin) (m : Manifest) : Manifest :=
  mkManifest (m_name m) (m_version m) bs (m_dependencies m) (m_rootDir m) (m_hasExplicitBins m) (m_mod m).
Definition with_dependencies (ds : list ManifestDependency) (m : Manifest) : Manifest :=
  mkManifest (m_name m) (m_version m) (m_bins m) ds (m_rootDir m) (m_hasExplicitBins m) (m_mod m).
Definition with_explicit (b : bool) (m : Manifest) : Manifest :=
  mkManifest (m_name m) (m_version m) (m_bins m) (m_dependencies m) (m_rootDir m) b (m_mod m).
Definition with_mod (x : ManifestMod) (m : Manifest) : Manifest :=
  mkManifest (m_name m) (m_version m) (m_bins m) (m_dependencies m) (m_rootDir m) (m_hasExplicitBins m) x.

(** One key of an inline dependency table. *)
Definition dep_key (d : ManifestDependency) (pk : str * str) : ManifestDependency :=
  let '(k, v) := pk in
  if k =s $"path" then mkDep (d_name d) ($"path") v (d_url d) (d_version d)
  else if k =s $"git" then mkDep (d_name d) ($"git") (d_path d) v (d_version d)
  else if k =s $"github" then mkDep (d_name d) ($"github") (d_path d) v (d_version d)
  else if k =s $"version" then mkDep (d_name d) ($"version") (d_path d) (d_url d) v
  else if k =s $"tag" then mkDep (d_name d) (d_source d) (d_path d) (d_url d) v
  else d.

Definition with_source (s : str) (d : ManifestDependency) : ManifestDependency :=
  mkDep (d_name d) s (d_path d) (d_url d) (d_version d).
Definition fix_source (d : ManifestDependency) : ManifestDependency :=
  let d := if (d_source d =s $"path") && negb (nonempty (d_path d)) then with_source ($"version") d else d in
  if (d_source d =s $"version") && negb (nonempty (d_version d)) then with_source ($"path") d else d.

Definition load_dependency (kv : str * str) : ManifestDependency :=
  let dep := mkDep kv.1 ($"version") [] [] [] in
  let raw := trim kv.2 in
  fix_source (if bool_decide (head raw = Some "{")
              then foldl dep_key dep (parse_inline_table raw)
              else mkDep (d_name dep) ($"version") [] [] (unquote kv.2)).

Definition from_key (t : Table) (k : str) (dflt : str) : str :=
  match value_in (keys t) k with Some v => unquote v | None => dflt end.

Definition load_mod (t : Table) (x : ManifestMod) : ManifestMod :=
  let free := match value_in (keys t) ($"boundary") with
              | Some v => freedomBoundary x || existsb (fun b => b =s $"freedom") (parse_string_array v)
              | None => freedomBoundary x
              end in
  let caps := match value_in (keys t) ($"capabilities") with
              | Some v => parse_string_array v
              | None => capabilities x
              end in
  mkMod free caps.

(** One table of the file. *)
Definition load_table (m : Manifest) (t : Table) : Manifest :=
  if section t =s $"package" then
    with_package (from_key t ($"name") (m_name m)) (from_key t ($"version") (m_version m)) m
  else if section t =s $"dependencies" then with_dependencies (m_dependencies m ++ (load_dependency <$> keys t)) m
  else if section t =s $"bin" then
    with_bins (m_bins m ++ [mkBin (from_key t ($"name") []) (from_key t ($"path") ($"src/main.vyb"))]) m
  else if section t =s $"mod" then with_mod (load_mod t (m_mod m)) m
  else m.

(** [rootDir / name] and [rootDir.filename()] of POSIX paths. *)
Definition path_join (dir name : str) : str :=
  if nonempty dir && negb (bool_decide (last dir = Some "/")) then dir ++ $"/" ++ name else dir ++ name.
Definition filename (dir : str) : str :=
  match rfind "/" dir with Some i => drop (S i) dir | None => dir end.

Definition name_first_bin (n : str) (bs : list ManifestBin) : list ManifestBin :=
  match bs with
  | b :: rest => (if nonempty (b_name b) then b else mkBin n (b_path b)) :: rest
  | [] => []
  end.

(** What follows the tables: default binary, default names. *)
Definition finish_manifest (rootDir : str) (m : Manifest) : Manifest :=
  let m := if nonempty (m_bins m) then with_explicit true m else m in
  let m := if m_hasExplicitBins m then m else with_bins (m_bins m ++ [default_bin]) m in
  let m := if (m_name m =s $"unnamed") && nonempty (filename rootDir) then with_package (filename rootDir) (m_version m) m else m in
  with_bins (name_first_bin (m_name m) (m_bins m)) m.

Definition load_manifest (rootDir : str) (file : option str) : option Manifest * option str :=
  match file with
  | None => (None, Some ($"no manifest found: " ++ path_join rootDir ($"vyb.toml")))
  | Some text =>
      let '(tables, error) := parse_toml text in
      if negb (nonempty tables) && nonempty text then (None, error)
      else (Some (finish_manifest rootDir (foldl load_table (fresh_manifest rootDir) tables)), error)
  end.

(** ** The writers *)

Definition toml_quoted (s : str) : str := ch_quote :: s ++ [ch_quote].

Definition default_manifest_toml (name version : str) : str :=
  $"[package]" ++ [ch_nl]
  ++ $"name = " ++ toml_quoted name ++ [ch_nl]
  ++ $"version = " ++ toml_quoted version ++ [ch_nl]
  ++ [ch_nl]
  ++ $"[[bin]]" ++ [ch_nl]
  ++ $"name = " ++ toml_quoted name ++ [ch_nl]
  ++ $"path = " ++ toml_quoted ($"src/main.vyb") ++ [ch_nl]
  ++ [ch_nl]
  ++ $"# Local path dependencies (resolved by `vyb build`):" ++ [ch_nl]
  ++ $"# [dependencies]" ++ [ch_nl]
  ++ $"# mylib = { path = " ++ toml_quoted ($"../mylib") ++ $" }" ++ [ch_nl].

Definition bin_toml (b : ManifestBin) : str :=
  [ch_nl] ++ $"[[bin]]" ++ [ch_nl] ++ $"name = " ++ toml_quoted (b_name b) ++ [ch_nl]
  ++ $"path = " ++ toml_quoted (b_path b) ++ [ch_nl].

Definition dep_toml (d : ManifestDependency) : str :=
  d_name d ++ $" = { " ++ d_source d ++ $" = " ++ toml_quoted (d_path d) ++ $", version = " ++ toml_quoted (d_version d)
  ++ $" }" ++ [ch_nl].

Definition manifest_to_toml (m : Manifest) : str :=
  $"[package]" ++ [ch_nl]
  ++ $"name = " ++ toml_quoted (m_name m) ++ [ch_nl]
  ++ $"version = " ++ toml_quoted (m_version m) ++ [ch_nl]
  ++ (if m_hasExplicitBins m then mjoin (bin_toml <$> m_bins m) else [])
  ++ (if nonempty (m_dependencies m)
      then [ch_nl] ++ $"[dependencies]" ++ [ch_nl] ++ mjoin (dep_toml <$> m_dependencies m) else []).

(** ** Lines and their grouping *)

(** What a line is, whatever precedes it. *)
Inductive item : Type :=
| Blank
| Header (arr : bool) (name : str)
| Pair (k v : str)
| BadHeader
| BadPair.

Definition classify (line : str) : item :=
  match trim (strip_comment line) with
  | [] => Blank
  | c :: r =>
      if c =c "[" then
        let arr := bool_decide (head r = Some "[") in
        let from := if arr then 2 else 1 in
        match rfind "]" (c :: r) with
        | Some close => Header arr (trim (take (close - from) (drop from (c :: r))))
        | None => BadHeader
        end
      else match split_kv (c :: r) with Some (k, v) => Pair k v | None => BadPair end
  end.

(** The pairs before the first header, and a table per header. *)
Fixpoint group (its : list item) : list (str * str) * list Table :=
  match its with
  | [] => ([], [])
  | Pair k v :: r => ((k, v) :: (group r).1, (group r).2)
  | Header arr n :: r => ([], mkTable n arr (group r).1 :: (group r).2)
  | _ :: r => group r
  end.

Definition parsed (i : item) : bool := match i with BadHeader | BadPair => false | _ => true end.
Definition pair_ok (sec : str) (kv : str * str) : bool :=
  negb (bool_decide (head kv.2 = Some "["))
  || (((kv.1 =s $"boundary") || (kv.1 =s $"capabilities")) && (sec =s $"mod")).
Definition toml_table_ok (t : Table) : bool := forallb (pair_ok (section t)) (keys t).

(** The texts of the format: every line parses, no pair precedes the first
    header, and an array is the value of a [mod] key that takes one. *)
Definition well_formed (its : list item) : bool :=
  forallb parsed its && negb (nonempty (group its).1) && forallb toml_table_ok (group its).2.

Definition extend (t : Table) (ks : list (str * str)) : Table := mkTable (section t) (isArray t) (keys t ++ ks).

(** Where the reader stands: [ts] are closed, [o] receives the next pair. *)
Definition standing (ts : list Table) (o : option Table) (ai : Z) : Prop :=
  (ai = -1)%Z \/ (is_Some o /\ ai = Z.of_nat (length ts)).

Lemma current_of ts o ai : standing ts o ai -> ts = [] \/ is_Some o ->
  currentSection (ts ++ option_list o) ai = (fun _ => length ts) <$> o.
Proof.
  unfold currentSection. intros St Hn. destruct o as [t|]; cbn.
  - rewrite length_app. cbn. destruct St as [->|[_ ->]]; cbn.
    + destruct ts; cbn; f_equal; lia.
    + replace (_ && _)%Z with true; [f_equal; lia|]. symmetry. apply andb_true_iff. split; [apply Z.leb_le|apply Z.ltb_lt]; lia.
  - destruct Hn as [-> | [? [=]]]. destruct St as [->|[[? [=]] _]]. done.
Qed.

Lemma lookup_open (ts : list Table) t : (ts ++ [t]) !! length ts = Some t.
Proof. by apply list_lookup_middle. Qed.

Lemma alter_open (f : Table -> Table) ts t : alter f (length ts) (ts ++ [t]) = ts ++ [f t].
Proof. induction ts as [|u ts IH]; cbn; [done|]. by f_equal. Qed.

(** One line, by what it is. *)
Lemma parse_line_blank n l st : classify l = Blank -> parse_line n l st = inr st.
Proof.
  unfold classify, parse_line. destruct st, (trim _) as [|c r]; [done|].
  destruct (c =c "["); [destruct (rfind _ _)|destruct (split_kv _) as [[]|]]; done.
Qed.

Lemma parse_line_header n l ts ai arr nm : classify l = Header arr nm ->
  parse_line n l (ts, ai) = inr (ts ++ [mkTable nm arr []], if arr then Z.of_nat (length ts) else -1)%Z.
Proof.
  unfold classify, parse_line. destruct (trim _) as [|c r]; [done|].
  destruct (c =c "["); [destruct (rfind _ _)|destruct (split_kv _) as [[]|]]; try done.
  intros [= <- <-]. rewrite length_app. do 2 f_equal. cbn [length]. destruct (bool_decide _); lia.
Qed.

Lemma parse_line_bad n l st :
  (classify l = BadHeader -> parse_line n l st = inl (bad_header n))
  /\ (classify l = BadPair -> parse_line n l st = inl (bad_pair n)).
Proof.
  unfold classify, parse_line. destruct st, (trim _) as [|c r]; [done|].
  destruct (c =c "["); [destruct (rfind _ _)|destruct (split_kv _) as [[]|]]; done.
Qed.

Lemma parse_line_pair n l ts o ai k v : standing ts o ai -> ts = [] \/ is_Some o -> classify l = Pair k v ->
  parse_line n l (ts ++ option_list o, ai) =
  match o with
  | None => inl (if bool_decide (head v = Some "[") then bad_array k n else no_section k n)
  | Some t => if pair_ok (section t) (k, v) then inr (ts ++ [extend t [(k, v)]], ai) else inl (bad_array k n)
  end.
Proof.
  intros St Hn. unfold classify, parse_line. destruct (trim _) as [|c r]; [done|].
  destruct (c =c "["); [by destruct (rfind _ _)|]. destruct (split_kv _) as [[k' v']|]; [|done].
  intros [= -> ->]. rewrite (current_of ts o ai) by done. destruct o as [t|]; cbn [fmap option_fmap option_map option_list mbind option_bind].
  - change (option_list (Some t)) with [t]. rewrite lookup_open, alter_open. unfold pair_ok, mod_array_key. cbn [fst snd].
    destruct (bool_decide _), (_ || _), (section t =s _); done.
  - unfold mod_array_key. rewrite andb_false_r. destruct (bool_decide _); done.
Qed.

(** The pairs of a run of lines extend the open table, the headers open new ones. *)
Definition run_ok (o : option Table) (its : list item) : bool :=
  forallb parsed its
  && match o with
     | None => negb (nonempty (group its).1)
     | Some t => forallb (pair_ok (section t)) (group its).1
     end
  && forallb toml_table_ok (group its).2.

Definition run_tables (ts : list Table) (o : option Table) (its : list item) : list Table :=
  ts ++ option_list ((fun t => extend t (group its).1) <$> o) ++ (group its).2.

Lemma extend_extend t ks ls : extend (extend t ks) ls = extend t (ks ++ ls).
Proof. unfold extend. cbn. by rewrite app_assoc. Qed.

Lemma run_ok_cons o i its : run_ok o (i :: its) =
  match i with
  | Blank => run_ok o its
  | Header arr nm => run_ok (Some (mkTable nm arr [])) its
  | Pair k v =>
      match o with
      | None => false
      | Some t => pair_ok (section t) (k, v) && run_ok (Some (extend t [(k, v)])) its
      end
  | _ => false
  end.
Proof.
  unfold run_ok, toml_table_ok. destruct i, o as [t|]; cbn; try done; try (by rewrite andb_true_r, ?andb_assoc);
    try (by rewrite andb_false_r).
  by destruct (forallb parsed its), (pair_ok _ _).
Qed.

Lemma run_tables_cons ts o i its : run_tables ts o (i :: its) =
  match i, o with
  | Header arr nm, _ => run_tables (ts ++ option_list o) (Some (mkTable nm arr [])) its
  | Pair k v, Some t => run_tables ts (Some (extend t [(k, v)])) its
  | _, _ => run_tables ts o its
  end.
Proof.
  unfold run_tables. destruct i, o as [[]|]; cbn; rewrite ?extend_extend, <- ?app_assoc; cbn; unfold extend; cbn; by rewrite ?app_nil_r.
Qed.

(** The state after a header or an accepted pair is again one where the
    reader can stand. *)
Lemma standing_header ts o arr nm :
  standing (ts ++ option_list o) (Some (mkTable nm arr [])) (if arr then Z.of_nat (length (ts ++ option_list o)) else -1)%Z.
Proof. destruct arr; [right; by eauto|by left]. Qed.
Lemma standing_pair ts t u ai : standing ts (Some t) ai -> standing ts (Some u) ai.
Proof. intros [|[? ?]]; [by left|right; eauto]. Qed.

(** What a line that stops the reader is, after the lines [pre]. *)
Definition offends (o : option Table) (pre : list item) (i : item) (n : Z) (msg : str) : Prop :=
  match i with
  | BadHeader => msg = bad_header n
  | BadPair => msg = bad_pair n
  | Pair k v =>
      (msg = no_section k n /\ o = None /\ (group pre).2 = []) \/ (msg = bad_array k n /\ head v = Some "[")
  | _ => False
  end.

Definition stops_at (o : option Table) (n : Z) (lines : list str) (msg : str) : Prop :=
  exists pre l suf, lines = pre ++ l :: suf /\ run_ok o (classify <$> pre) = true
    /\ run_ok o (classify <$> (pre ++ [l])) = false
    /\ offends o (classify <$> pre) (classify l) (n + Z.of_nat (length pre) + 1) msg.

Lemma stops_here o n l lines msg : run_ok o [classify l] = false -> offends o [] (classify l) (n + 1) msg ->
  stops_at o n (l :: lines) msg.
Proof.
  intros R O. exists [], l, lines. split_and!; [done| by destruct o |done|].
  replace (n + Z.of_nat (length []) + 1)%Z with (n + 1)%Z by (cbn; lia). done.
Qed.

Lemma stops_later o o' n l lines msg :
  (forall its, run_ok o (classify l :: its) = run_ok o' its) ->
  (forall its, o' = None -> (group its).2 = [] -> o = None /\ (group (classify l :: its)).2 = []) ->
  stops_at o' (n + 1) lines msg -> stops_at o n (l :: lines) msg.
Proof.
  intros R G (pre & m & suf & -> & ? & ? & O). exists (l :: pre), m, suf.
  change ((l :: pre) ++ [m]) with (l :: (pre ++ [m])). rewrite !fmap_cons, !R. split_and!; [done..|].
  replace (n + Z.of_nat (length (l :: pre)) + 1)%Z with (n + 1 + Z.of_nat (length pre) + 1)%Z by (cbn; lia).
  unfold offends in *. destruct (classify m); try done. destruct O as [(-> & N & E)|?]; [left|by right].
  split; [done|]. by apply G.
Qed.

Lemma pair_not_ok sec k v : pair_ok sec (k, v) = false -> head v = Some "[".
Proof. unfold pair_ok. cbn. by case_bool_decide. Qed.

(** The reader and the grouping agree, and a failure is at the first line
    after which the text is not of the format. *)
Lemma parse_lines_spec lines : forall n ts o ai, standing ts o ai -> ts = [] \/ is_Some o ->
  match parse_lines n lines (ts ++ option_list o, ai) with
  | inr st => run_ok o (classify <$> lines) = true /\ st.1 = run_tables ts o (classify <$> lines)
  | inl msg => stops_at o n lines msg
  end.
Proof.
  induction lines as [|l lines IH]; intros n ts o ai St Hn.
  { cbn. unfold run_ok, run_tables. destruct o as [[]|]; cbn; [unfold extend; cbn|]; by rewrite ?app_nil_r. }
  cbn [parse_lines]. rewrite fmap_cons. destruct (classify l) as [|arr nm|k v| |] eqn:C.
  - rewrite parse_line_blank by done. specialize (IH (n + 1)%Z ts o ai St Hn). destruct (parse_lines _ _ _) as [msg|st]; [|done].
    apply (stops_later o o); rewrite ?C; [done|by eauto|done].
  - rewrite (parse_line_header _ _ _ _ _ _ C). set (t := mkTable nm arr []).
    specialize (IH (n + 1)%Z _ (Some t) _ (standing_header ts o arr nm) ltac:(right; by eauto)).
    change (option_list (Some ?t)) with [t] in IH. destruct (parse_lines _ _ _) as [msg|st].
    + apply (stops_later o (Some t)); rewrite ?C; [intros; by rewrite run_ok_cons|done|done].
    + by rewrite run_ok_cons, run_tables_cons.
  - rewrite (parse_line_pair _ _ _ _ _ k v) by done. destruct o as [t|].
    + destruct (pair_ok _ _) eqn:P.
      * specialize (IH (n + 1)%Z ts (Some (extend t [(k, v)])) ai (standing_pair _ _ _ _ St) ltac:(right; by eauto)).
        change (option_list (Some ?t)) with [t] in IH. destruct (parse_lines _ _ _) as [msg|st].
        -- apply (stops_later (Some t) (Some (extend t [(k, v)]))); rewrite ?C; [intros; by rewrite run_ok_cons, P|done|done].
        -- by rewrite run_ok_cons, run_tables_cons, P.
      * apply stops_here; rewrite C; [by rewrite run_ok_cons, P|right; eauto using pair_not_ok].
    + apply stops_here; rewrite C; [by rewrite run_ok_cons|]. cbn. case_bool_decide; [by right|by left].
  - rewrite (proj1 (parse_line_bad _ _ _) C). apply stops_here; by rewrite C, ?run_ok_cons.
  - rewrite (proj2 (parse_line_bad _ _ _) C). apply stops_here; by rewrite C, ?run_ok_cons.
Qed.

Lemma run_ok_prefix a b : forall o, run_ok o a = false -> run_ok o (a ++ b) = false.
Proof.
  induction a as [|i a IH]; intros o; [by destruct o|].
  rewrite <- app_comm_cons, !run_ok_cons. destruct i; try done; [apply IH|apply IH|].
  destruct o; [|done]. destruct (pair_ok _ _); [apply IH|done].
Qed.

Lemma parse_toml_spec text : let its := classify <$> toml_lines [] text in
  if well_formed its then parse_toml text = ((group its).2, None)
  else exists msg, parse_toml text = ([], Some msg) /\ stops_at None 0 (toml_lines [] text) msg.
Proof.
  cbn zeta. pose proof (parse_lines_spec (toml_lines [] text) 0 [] None (-1)%Z ltac:(by left) ltac:(by left)) as H.
  change ([] ++ option_list None) with (@nil Table) in H. unfold parse_toml.
  destruct (parse_lines _ _ _) as [msg|[ts ai]].
  - destruct (well_formed _) eqn:W; [|by eauto]. exfalso. destruct H as (pre & l & suf & E & R & F & _).
    revert W. rewrite E. change (well_formed ?x) with (run_ok None x).
    by rewrite cons_middle, app_assoc, fmap_app, run_ok_prefix.
  - destruct H as [W E]. change (well_formed ?x) with (run_ok None x). rewrite W. cbn in E. by rewrite E.
Qed.

(** ** What the writers write is read back *)

Definition no_quote (s : str) : bool := forallb (fun c => negb (c =c ch_quote)) s.
Definition one_line (s : str) : bool := forallb (fun c => negb (c =c ch_nl)) s.
(** The texts a quoted value can hold: anything but a quote and a line end. *)
Definition quotable (s : str) : bool := no_quote s && one_line s.
(** The texts that are read back as a key. *)
Definition bare (s : str) : bool :=
  nonempty s && (trim s =s s) && negb (bool_decide (head s = Some "["))
  && forallb (fun c => negb (c =c ch_quote) && negb (c =c "#") && negb (c =c "=") && negb (c =c ch_nl)) s.

Definition spaces (s : str) : bool := forallb isspace s.

Lemma drop_while_spaces s r : spaces s = true -> drop_while isspace (s ++ r) = drop_while isspace r.
Proof. induction s as [|c s IH]; cbn; [done|]. rewrite andb_true_iff. intros [-> ?]. auto. Qed.

(** [trim] drops what is around a text with solid ends, and nothing of it. *)
Definition solid (s : str) : bool :=
  match s, last s with c :: _, Some d => negb (isspace c) && negb (isspace d) | _, _ => false end.

Lemma trim_around a s b : spaces a = true -> spaces b = true -> solid s = true -> trim (a ++ s ++ b) = s.
Proof.
  intros Ha Hb Hs. unfold trim. rewrite drop_while_spaces by done. destruct s as [|c s]; [done|].
  unfold solid in Hs. destruct (last (c :: s)) as [d|] eqn:L; [|done]. apply andb_true_iff in Hs as [Hc Hd].
  apply last_Some in L as [s' E]. cbn [app drop_while]. rewrite (negb_true_iff _) in Hc. rewrite Hc.
  change (c :: s ++ b) with ((c :: s) ++ b). rewrite rev_app_distr, drop_while_spaces by (unfold spaces; by rewrite forallb_rev).
  rewrite E, rev_app_distr. cbn. apply negb_true_iff in Hd. rewrite Hd. cbn. by rewrite rev_involutive.
Qed.

Lemma trim_solid s : solid s = true -> trim s = s.
Proof. intros H. by rewrite <- (trim_around [] s [] eq_refl eq_refl H) at 2; rewrite app_nil_r. Qed.

Lemma drop_while_idem_head s : drop_while isspace s = s -> s = [] \/ exists c r, s = c :: r /\ isspace c = false.
Proof.
  destruct s as [|c r]; [by left|]. cbn. destruct (isspace c) eqn:E; [|eauto].
  intros H. pose proof (length_drop_while isspace r) as L. rewrite H in L. cbn in L. lia.
Qed.

Lemma bare_solid s : bare s = true -> solid s = true.
Proof.
  unfold bare. rewrite !andb_true_iff, streq_true. intros [[[N T] _] _]. unfold trim in T.
  assert (L : length s <= length (drop_while isspace s)).
  { rewrite <- T at 1. rewrite length_rev. etrans; [apply length_drop_while|]. by rewrite length_rev. }
  pose proof (take_drop_while isspace s) as D.
  assert (E : drop_while isspace s = s).
  { apply (f_equal length) in D as D'. rewrite length_app in D'. destruct (take_while isspace s); [done|cbn in D'; lia]. }
  rewrite E in T. apply (f_equal (@rev ascii)) in T. rewrite rev_involutive in T.
  apply drop_while_idem_head in E as [-> |(c & r & -> & Hc)]; [done|].
  apply drop_while_idem_head in T as [T|(d & q & T & Hd)]; [by apply (f_equal (@length ascii)) in T; rewrite length_rev in T|].
  apply (f_equal (@rev ascii)) in T. rewrite rev_involutive in T. cbn [rev] in T.
  unfold solid. rewrite T at 1. rewrite last_snoc, Hc, Hd. done.
Qed.

Lemma solid_quoted s : solid (toml_quoted s) = true.
Proof. unfold solid, toml_quoted. rewrite app_comm_cons, last_snoc. done. Qed.

Lemma solid_app s t r : solid s = true -> solid t = true -> solid (s ++ r ++ t) = true.
Proof.
  unfold solid. destruct s as [|c s]; [done|]. cbn [app]. destruct (last (c :: s)) as [d|]; [|done].
  destruct t as [|x t]; [done|]. destruct (last (x :: t)) as [e|] eqn:L; [|done].
  rewrite !app_comm_cons, app_assoc, last_app, L. rewrite !andb_true_iff. naive_solver.
Qed.

Lemma enclosed_by l r s : enclosed l r (l :: s ++ [r]) = true /\ inner (l :: s ++ [r]) = s.
Proof.
  unfold enclosed, inner. rewrite bool_decide_true by done. rewrite app_comm_cons, last_snoc, bool_decide_true by done.
  rewrite <- app_comm_cons. change (drop 1 (l :: s ++ [r])) with (s ++ [r]). cbn [length]. rewrite length_app. cbn [length].
  split; [by destruct (length s + 1) eqn:E; [lia|]|].
  replace (S (length s + 1) - 2) with (length s) by lia. by rewrite take_app_length.
Qed.

Lemma unquote_quoted s : unquote (toml_quoted s) = s.
Proof.
  unfold unquote. rewrite trim_solid by apply solid_quoted.
  destruct (enclosed_by ch_quote ch_quote s) as [E I]. unfold toml_quoted. by rewrite E, I.
Qed.

(** The scanners on a piece without special bytes and on a quoted piece. *)
Lemma strip_plain a r : forallb (fun c => negb (c =c ch_quote) && negb (c =c "#")) a = true ->
  strip_comment_go false (a ++ r) = a ++ strip_comment_go false r.
Proof.
  induction a as [|c a IH]; cbn; [done|]. rewrite !andb_true_iff, !negb_true_iff. intros [[-> ->] ?]. cbn. by rewrite IH.
Qed.
Lemma strip_in_quotes s r : no_quote s = true ->
  strip_comment_go true (s ++ ch_quote :: r) = s ++ ch_quote :: strip_comment_go false r.
Proof.
  induction s as [|c s IH]; cbn; [done|]. rewrite !andb_true_iff, !negb_true_iff. intros [-> ?].
  rewrite andb_false_r. by rewrite IH.
Qed.
Lemma strip_quoted s r : no_quote s = true ->
  strip_comment_go false (toml_quoted s ++ r) = toml_quoted s ++ strip_comment_go false r.
Proof.
  intros H. unfold toml_quoted. cbn [app strip_comment_go]. rewrite <- !app_assoc. cbn [app].
  rewrite ceq_refl. f_equal. by apply strip_in_quotes.
Qed.

Lemma split_eq_plain a acc r : forallb (fun c => negb (c =c ch_quote) && negb (c =c "=")) a = true ->
  split_eq false acc (a ++ ("=" :: r)) = Some (acc ++ a, r).
Proof.
  revert acc. induction a as [|c a IH]; intros acc; cbn; [by rewrite app_nil_r|].
  rewrite !andb_true_iff, !negb_true_iff. intros [[-> ->] ?]. cbn. rewrite IH by done. by rewrite <- app_assoc.
Qed.

Lemma split_kv_at k v : forallb (fun c => negb (c =c ch_quote) && negb (c =c "=")) k = true ->
  split_kv (k ++ "=" :: v) = if nonempty (trim k) && nonempty (trim v) then Some (trim k, trim v) else None.
Proof. intros H. unfold split_kv. by rewrite split_eq_plain. Qed.

Lemma commas_plain a acc r : forallb (fun c => negb (c =c ch_quote) && negb (c =c ",")) a = true ->
  split_parts false acc (a ++ r) = split_parts false (acc ++ a) r.
Proof.
  revert acc. induction a as [|c a IH]; intros acc; cbn; [by rewrite app_nil_r|].
  rewrite !andb_true_iff, !negb_true_iff. intros [[-> ->] ?]. cbn. rewrite IH by done. by rewrite <- app_assoc.
Qed.
Lemma commas_in_quotes s acc r : no_quote s = true ->
  split_parts true acc (s ++ ch_quote :: r) = split_parts false (acc ++ s ++ [ch_quote]) r.
Proof.
  revert acc. induction s as [|c s IH]; intros acc; cbn; [done|].
  rewrite !andb_true_iff, !negb_true_iff. intros [-> ?]. rewrite andb_false_r, IH by done. by rewrite <- app_assoc.
Qed.
Lemma commas_quoted s acc r : no_quote s = true ->
  split_parts false acc (toml_quoted s ++ r) = split_parts false (acc ++ toml_quoted s) r.
Proof.
  intros H. unfold toml_quoted. rewrite <- app_comm_cons, <- app_assoc. change ([ch_quote] ++ r) with (ch_quote :: r).
  cbn [split_parts]. rewrite ceq_refl. change (ch_quote =c ",") with false. cbn [negb andb].
  rewrite commas_in_quotes by done. by rewrite <- app_assoc.
Qed.

Lemma toml_lines_line l acc r : one_line l = true -> toml_lines acc (l ++ ch_nl :: r) = (acc ++ l) :: toml_lines [] r.
Proof.
  revert acc. induction l as [|c l IH]; intros acc; cbn; [by rewrite app_nil_r|].
  rewrite andb_true_iff, negb_true_iff. intros [-> ?]. rewrite IH by done. by rewrite <- app_assoc.
Qed.

Lemma bare_plain k : bare k = true ->
  forallb (fun c => negb (c =c ch_quote) && negb (c =c "#")) k = true
  /\ forallb (fun c => negb (c =c ch_quote) && negb (c =c "=")) k = true /\ one_line k = true.
Proof.
  unfold bare, one_line. rewrite !andb_true_iff, !forallb_forall. intros [_ H].
  split_and!; intros c Hc; specialize (H c Hc); rewrite !andb_true_iff in *; naive_solver.
Qed.

(** A line [key = value] whose value has no comment and solid ends. *)
Lemma split_kv_spaced a k w b : spaces a = true -> spaces b = true -> bare k = true -> solid w = true ->
  split_kv (a ++ k ++ $" = " ++ w ++ b) = Some (k, w).
Proof.
  intros Ha Hb Hk Hw. pose proof (bare_plain k Hk) as (_ & P & _).
  change ($" = " ++ w ++ b) with (" " :: "=" :: ($" " ++ w ++ b)).
  replace (a ++ k ++ " " :: "=" :: $" " ++ w ++ b) with ((a ++ k ++ $" ") ++ "=" :: ($" " ++ w ++ b))
    by (rewrite <- !app_assoc; done).
  rewrite split_kv_at.
  - rewrite (trim_around a k ($" ")), (trim_around ($" ") w b) by (done || by apply bare_solid).
    destruct k, w; try done. 
  - rewrite !forallb_app, P, andb_true_r. rewrite forallb_forall. intros c Hc. unfold spaces in Ha.
    rewrite forallb_forall in Ha. specialize (Ha c Hc). unfold isspace in Ha. rewrite !orb_true_iff, !ceq_true in Ha.
    destruct_or!; by subst.
Qed.

Lemma classify_value k w : bare k = true -> strip_comment_go false w = w -> solid w = true ->
  classify (k ++ $" = " ++ w) = Pair k w.
Proof.
  intros Hk Hs Hw. pose proof (bare_plain k Hk) as (P & _ & _). unfold classify, strip_comment.
  rewrite strip_plain, (strip_plain ($" = ")), Hs by done.
  rewrite trim_solid by (apply solid_app; [by apply bare_solid|done]).
  pose proof (split_kv_spaced [] k w [] eq_refl eq_refl Hk Hw) as E. rewrite app_nil_r in E. cbn [app] in E.
  unfold bare in Hk. rewrite !andb_true_iff, negb_true_iff, bool_decide_eq_false in Hk. destruct Hk as [[_ Hh] _].
  destruct k as [|c k]; [done|]. cbn [app] in *. replace (c =c "[") with false by (symmetry; apply ceq_false; intros ->; by apply Hh).
  by rewrite E.
Qed.

Lemma strip_quoted_value s : no_quote s = true -> strip_comment_go false (toml_quoted s) = toml_quoted s.
Proof. intros H. rewrite <- (app_nil_r (toml_quoted s)) at 1. rewrite strip_quoted by done. cbn. by rewrite app_nil_r. Qed.

Lemma classify_pair k v : bare k = true -> no_quote v = true -> classify (k ++ $" = " ++ toml_quoted v) = Pair k (toml_quoted v).
Proof. intros. apply classify_value; [done|by apply strip_quoted_value|apply solid_quoted]. Qed.

(** *** A dependency *)

Definition known_source (s : str) : bool :=
  (s =s $"path") || (s =s $"git") || (s =s $"github") || (s =s $"version").

Definition dep_value (d : ManifestDependency) : str :=
  $"{ " ++ d_source d ++ $" = " ++ toml_quoted (d_path d) ++ $", version = " ++ toml_quoted (d_version d) ++ $" }".

Definition writable_dep (d : ManifestDependency) : bool :=
  bare (d_name d) && known_source (d_source d) && quotable (d_path d) && quotable (d_version d).

(** What is read back of a dependency: the path under the key of its source,
    no url, and a source chosen by the version alone. *)
Definition reload_dep (d : ManifestDependency) : ManifestDependency :=
  mkDep (d_name d) (if nonempty (d_version d) then $"version" else $"path")
    (if d_source d =s $"path" then d_path d else [])
    (if (d_source d =s $"git") || (d_source d =s $"github") then d_path d else [])
    (d_version d).

Lemma known_source_cases s : known_source s = true -> s = $"path" \/ s = $"git" \/ s = $"github" \/ s = $"version".
Proof. unfold known_source. rewrite !orb_true_iff, !streq_true. tauto. Qed.

Lemma known_bare s : known_source s = true -> bare s = true
  /\ forallb (fun c => negb (c =c ch_quote) && negb (c =c ",")) s = true /\ one_line s = true
  /\ forallb (fun c => negb (c =c ch_quote) && negb (c =c "#")) s = true.
Proof. intros H. apply known_source_cases in H. destruct_or!; subst; vm_compute; done. Qed.

Lemma inline_written d : known_source (d_source d) = true -> no_quote (d_path d) = true -> no_quote (d_version d) = true ->
  parse_inline_table (dep_value d) = [(d_source d, d_path d); ($"version", d_version d)].
Proof.
  intros Hs Hp Hv. pose proof (known_bare _ Hs) as (B & C & _).
  set (body := $" " ++ d_source d ++ $" = " ++ toml_quoted (d_path d) ++ $", version = " ++ toml_quoted (d_version d) ++ $" ").
  assert (E : dep_value d = "{" :: body ++ ["}"]).
  { unfold dep_value, body. rewrite <- !app_assoc. done. }
  unfold parse_inline_table. rewrite E, trim_solid.
  2:{ unfold solid. rewrite app_comm_cons, last_snoc. done. }
  destruct (enclosed_by "{" "}" body) as [-> ->]. unfold body.
  rewrite (commas_plain ($" ")), (commas_plain (d_source d)), (commas_plain ($" = ")), commas_quoted by done.
  change ($", version = " ++ toml_quoted (d_version d) ++ $" ") with ("," :: $" version = " ++ toml_quoted (d_version d) ++ $" ").
  cbn [split_parts]. change ("," =c ch_quote) with false. change ("," =c ",") with true. cbn [negb andb].
  rewrite (commas_plain ($" version = ")), commas_quoted by done.
  rewrite <- (app_nil_r ($" ")) at 2. rewrite (commas_plain ($" ")) by done. cbn [split_parts].
  pose proof (split_kv_spaced ($" ") (d_source d) (toml_quoted (d_path d)) [] eq_refl eq_refl B (solid_quoted _)) as K1.
  pose proof (split_kv_spaced ($" ") ($"version") (toml_quoted (d_version d)) ($" ") eq_refl eq_refl eq_refl (solid_quoted _)) as K2.
  change (split_kv ($" version = " ++ toml_quoted (d_version d) ++ $" ") = Some ($"version", toml_quoted (d_version d))) in K2.
  rewrite app_nil_r in K1. rewrite <- !app_assoc. cbn [app omap list_omap]. cbn [app] in K1. rewrite K1.
  rewrite K2. cbn. by rewrite !unquote_quoted.
Qed.

Lemma solid_dep_value d : solid (dep_value d) = true.
Proof.
  replace (dep_value d) with ($"{" ++ ($" " ++ d_source d ++ $" = " ++ toml_quoted (d_path d) ++ $", version = " ++ toml_quoted (d_version d) ++ $" ") ++ $"}")
    by (unfold dep_value; by rewrite <- !app_assoc).
  by apply solid_app.
Qed.

Lemma dep_reloads d : known_source (d_source d) = true -> no_quote (d_path d) = true -> no_quote (d_version d) = true ->
  load_dependency (d_name d, dep_value d) = reload_dep d.
Proof.
  intros Hs Hp Hv. unfold load_dependency. cbn [fst snd].
  rewrite trim_solid by apply solid_dep_value.
  rewrite (bool_decide_true (head (dep_value d) = _)) by done. rewrite inline_written by done.
  destruct d as [n s p u v]. cbn in *. apply known_source_cases in Hs. unfold reload_dep, fix_source. cbn.
  destruct_or!; subst s; cbn; by destruct v.
Qed.

Lemma strip_dep_value d : known_source (d_source d) = true -> no_quote (d_path d) = true -> no_quote (d_version d) = true ->
  strip_comment_go false (dep_value d) = dep_value d.
Proof.
  intros Hs Hp Hv. pose proof (known_bare _ Hs) as (_ & _ & _ & P). unfold dep_value.
  by rewrite (strip_plain ($"{ ")), (strip_plain (d_source d)), (strip_plain ($" = ")), strip_quoted,
    (strip_plain ($", version = ")), strip_quoted.
Qed.

Lemma classify_dep d : writable_dep d = true -> classify (d_name d ++ $" = " ++ dep_value d) = Pair (d_name d) (dep_value d).
Proof.
  unfold writable_dep, quotable. rewrite !andb_true_iff. intros [[[Hn Hs] [Hp _]] [Hv _]].
  apply classify_value; [done|by apply strip_dep_value|apply solid_dep_value].
Qed.

(** *** A manifest *)

Definition writable_manifest (m : Manifest) : bool :=
  quotable (m_name m) && quotable (m_version m)
  && forallb (fun b => quotable (b_name b) && quotable (b_path b)) (m_bins m)
  && forallb writable_dep (m_dependencies m).

(** The lines of a written manifest. *)
Definition package_lines (n v : str) : list str :=
  [ $"[package]"; $"name = " ++ toml_quoted n; $"version = " ++ toml_quoted v].
Definition bin_lines (b : ManifestBin) : list str :=
  [ []; $"[[bin]]"; $"name = " ++ toml_quoted (b_name b); $"path = " ++ toml_quoted (b_path b)].
Definition dep_line (d : ManifestDependency) : str := d_name d ++ $" = " ++ dep_value d.
Definition manifest_lines (m : Manifest) : list str :=
  package_lines (m_name m) (m_version m)
  ++ (if m_hasExplicitBins m then mjoin (bin_lines <$> m_bins m) else [])
  ++ (if nonempty (m_dependencies m) then [ []; $"[dependencies]"] ++ (dep_line <$> m_dependencies m) else []).

Definition unlines (ls : list str) : str := mjoin ((fun l => l ++ [ch_nl]) <$> ls).

Lemma toml_lines_unlines ls : forallb one_line ls = true -> toml_lines [] (unlines ls) = ls.
Proof.
  induction ls as [|l ls IH]; cbn [forallb]; [done|]. rewrite andb_true_iff. intros [? ?].
  change (unlines (l :: ls)) with ((l ++ [ch_nl]) ++ unlines ls). rewrite <- app_assoc.
  change ([ch_nl] ++ unlines ls) with (ch_nl :: unlines ls). rewrite toml_lines_line by done. by rewrite IH.
Qed.

Lemma unlines_app a b : unlines (a ++ b) = unlines a ++ unlines b.
Proof. unfold unlines. by rewrite fmap_app, join_app. Qed.
Lemma unlines_join {A} (f : A -> list str) (g : A -> str) l : (forall x, unlines (f x) = g x) ->
  unlines (mjoin (f <$> l)) = mjoin (g <$> l).
Proof. intros H. induction l as [|x l IH]; [done|]. rewrite !fmap_cons. change (unlines (f x ++ mjoin (f <$> l)) = g x ++ mjoin (g <$> l)). by rewrite unlines_app, H, IH. Qed.

Lemma package_text n v : unlines (package_lines n v)
  = $"[package]" ++ [ch_nl] ++ $"name = " ++ toml_quoted n ++ [ch_nl] ++ $"version = " ++ toml_quoted v ++ [ch_nl].
Proof. unfold unlines, package_lines. cbn [fmap list_fmap mjoin list_join]. by rewrite <- !app_assoc, app_nil_r. Qed.

Lemma bins_text bs : unlines (mjoin (bin_lines <$> bs)) = mjoin (bin_toml <$> bs).
Proof.
  apply unlines_join. intros b. unfold unlines, bin_lines, bin_toml.
  cbn [fmap list_fmap mjoin list_join]. rewrite <- !app_assoc, app_nil_r. done.
Qed.

Lemma deps_text ds : unlines (dep_line <$> ds) = mjoin (dep_toml <$> ds).
Proof.
  unfold unlines. rewrite <- list_fmap_compose. f_equal. apply list_fmap_ext.
  intros _ d _. unfold compose, dep_toml, dep_line, dep_value. rewrite <- !app_assoc. done.
Qed.

Lemma manifest_text m : manifest_to_toml m = unlines (manifest_lines m).
Proof.
  unfold manifest_lines. rewrite !unlines_app, package_text. unfold manifest_to_toml. rewrite <- !app_assoc.
  replace (unlines (if m_hasExplicitBins m then _ else _)) with (if m_hasExplicitBins m then mjoin (bin_toml <$> m_bins m) else [])
    by (destruct (m_hasExplicitBins m); [by rewrite bins_text|done]).
  replace (unlines (if nonempty _ then _ else _)) with (if nonempty (m_dependencies m)
      then [ch_nl] ++ $"[dependencies]" ++ [ch_nl] ++ mjoin (dep_toml <$> m_dependencies m) else []).
  { done. }
  destruct (nonempty _); [|done]. rewrite unlines_app, deps_text. done.
Qed.

(** What the lines are: the section of a written binary is [bin] followed by a
    bracket, since the header's name runs to the last closing bracket. *)
Definition bin_items (b : ManifestBin) : list item :=
  [Blank; Header true ($"bin]"); Pair ($"name") (toml_quoted (b_name b)); Pair ($"path") (toml_quoted (b_path b))].
Definition dep_item (d : ManifestDependency) : item := Pair (d_name d) (dep_value d).
Definition manifest_items (m : Manifest) : list item :=
  [Header false ($"package"); Pair ($"name") (toml_quoted (m_name m)); Pair ($"version") (toml_quoted (m_version m))]
  ++ (if m_hasExplicitBins m then mjoin (bin_items <$> m_bins m) else [])
  ++ (if nonempty (m_dependencies m) then [Blank; Header false ($"dependencies")] ++ (dep_item <$> m_dependencies m) else []).

Lemma quotable_no_quote s : quotable s = true -> no_quote s = true /\ one_line s = true.
Proof. unfold quotable. by rewrite andb_true_iff. Qed.

Lemma bins_lines_are bs : forallb (fun b => quotable (b_name b) && quotable (b_path b)) bs = true ->
  classify <$> mjoin (bin_lines <$> bs) = mjoin (bin_items <$> bs).
Proof.
  induction bs as [|b bs IH]; [done|]. cbn [forallb]. rewrite !andb_true_iff. intros [[Hn Hp] ?].
  apply quotable_no_quote in Hn as [Hn _], Hp as [Hp _]. rewrite !fmap_cons.
  change (mjoin (?x :: ?l)) with (x ++ mjoin l). rewrite fmap_app, IH by done. f_equal.
  unfold bin_lines, bin_items. rewrite !fmap_cons. f_equal. f_equal. f_equal; [by apply (classify_pair ($"name"))|].
  f_equal. by apply (classify_pair ($"path")).
Qed.

Lemma deps_lines_are ds : forallb writable_dep ds = true -> classify <$> (dep_line <$> ds) = dep_item <$> ds.
Proof.
  induction ds as [|d ds IH]; [done|]. cbn [forallb]. rewrite !andb_true_iff. intros [Hd ?].
  rewrite !fmap_cons, IH by done. f_equal. by apply classify_dep.
Qed.

Lemma manifest_lines_are m : writable_manifest m = true -> classify <$> manifest_lines m = manifest_items m.
Proof.
  unfold writable_manifest. rewrite !andb_true_iff. intros [[[Hn Hv] Hb] Hd].
  apply quotable_no_quote in Hn as [Hn _], Hv as [Hv _]. unfold manifest_lines, manifest_items. rewrite !fmap_app. f_equal; [|f_equal].
  - unfold package_lines. rewrite !fmap_cons. f_equal. f_equal; [by apply (classify_pair ($"name"))|].
    f_equal. by apply (classify_pair ($"version")).
  - destruct (m_hasExplicitBins m); [by apply bins_lines_are|done].
  - destruct (nonempty _); [|done]. rewrite fmap_app, deps_lines_are by done. done.
Qed.

Lemma manifest_one_line m : writable_manifest m = true -> forallb one_line (manifest_lines m) = true.
Proof.
  assert (Q : forall k s, one_line k = true -> one_line s = true -> one_line (k ++ toml_quoted s) = true).
  { intros k s Hk Hs. unfold one_line, toml_quoted in *. rewrite forallb_app, Hk. cbn. rewrite forallb_app, Hs. done. }
  unfold writable_manifest. rewrite !andb_true_iff. intros [[[Hn Hv] Hb] Hd].
  apply quotable_no_quote in Hn as [_ Hn], Hv as [_ Hv]. unfold manifest_lines. rewrite !forallb_app, !andb_true_iff. split_and!.
  - cbn [package_lines forallb]. rewrite !Q by done. done.
  - destruct (m_hasExplicitBins m); [|done]. induction (m_bins m) as [|b bs IH]; [done|].
    cbn [forallb] in Hb. rewrite !andb_true_iff in Hb. destruct Hb as [[Bn Bp] Hb].
    apply quotable_no_quote in Bn as [_ Bn], Bp as [_ Bp]. rewrite fmap_cons. change (mjoin (?x :: ?l)) with (x ++ mjoin l).
    rewrite forallb_app, (IH Hb). cbn [bin_lines forallb]. rewrite !Q by done. done.
  - destruct (nonempty _); [|done]. cbn [app forallb]. cbn [one_line forallb]. change (one_line ($"[dependencies]")) with true.
    cbn [andb]. induction (m_dependencies m) as [|d ds IH]; [done|]. rewrite fmap_cons. cbn [forallb] in *.
    apply andb_true_iff in Hd as [Hd Hr]. rewrite IH by done. rewrite andb_true_r. revert Hd.
    unfold writable_dep. rewrite !andb_true_iff. intros [[[Dn Ds] Dp] Dv].
    apply quotable_no_quote in Dp as [_ Dp], Dv as [_ Dv]. pose proof (bare_plain _ Dn) as (_ & _ & On).
    pose proof (known_bare _ Ds) as (_ & _ & Os & _). unfold dep_line, dep_value, toml_quoted, one_line in *. 
    rewrite !forallb_app. cbn [forallb]. rewrite !forallb_app, On, Os, Dp, Dv. done.
Qed.

Definition bin_table (b : ManifestBin) : Table :=
  mkTable ($"bin]") true [($"name", toml_quoted (b_name b)); ($"path", toml_quoted (b_path b))].
Definition dep_table (ds : list ManifestDependency) : Table :=
  mkTable ($"dependencies") false ((fun d => (d_name d, dep_value d)) <$> ds).
Definition package_table (m : Manifest) : Table :=
  mkTable ($"package") false [($"name", toml_quoted (m_name m)); ($"version", toml_quoted (m_version m))].

Lemma group_bins bs r : (group r).1 = [] -> group (mjoin (bin_items <$> bs) ++ r) = ([], (bin_table <$> bs) ++ (group r).2).
Proof.
  intros H. induction bs as [|b bs IH]; cbn [fmap list_fmap]; [cbn; rewrite <- H; by destruct (group r)|].
  change (mjoin (?x :: ?l)) with (x ++ mjoin l). rewrite <- app_assoc. cbn. by rewrite IH.
Qed.

Lemma group_deps ds : group (dep_item <$> ds) = ((fun d => (d_name d, dep_value d)) <$> ds, []).
Proof. induction ds as [|d ds IH]; [done|]. cbn. by rewrite IH. Qed.

Lemma group_manifest m : group (manifest_items m) = ([], package_table m
  :: (if m_hasExplicitBins m then bin_table <$> m_bins m else [])
  ++ (if nonempty (m_dependencies m) then [dep_table (m_dependencies m)] else [])).
Proof.
  unfold manifest_items. set (ds := if nonempty _ then _ else _).
  assert (D : group ds = ([], if nonempty (m_dependencies m) then [dep_table (m_dependencies m)] else [])).
  { unfold ds. destruct (nonempty _); [|done]. cbn. by rewrite group_deps. }
  assert (B : group ((if m_hasExplicitBins m then mjoin (bin_items <$> m_bins m) else []) ++ ds)
    = ([], (if m_hasExplicitBins m then bin_table <$> m_bins m else []) ++ (group ds).2)).
  { destruct (m_hasExplicitBins m); [by rewrite group_bins; rewrite D|]. cbn. rewrite D. done. }
  rewrite D in B. cbn [app group]. rewrite B. done.
Qed.

(** The manifest read back: the binaries are the default one. *)
Definition reload (root : str) (m : Manifest) : Manifest :=
  let n := if (m_name m =s $"unnamed") && nonempty (filename root) then filename root else m_name m in
  mkManifest n (m_version m) [mkBin n ($"src/main.vyb")] (reload_dep <$> m_dependencies m) root false (mkMod false []).

Lemma bins_skipped bs m : foldl load_table m (bin_table <$> bs) = m.
Proof. induction bs as [|b bs IH]; [done|]. cbn [fmap list_fmap foldl]. by rewrite <- IH at 2. Qed.

Lemma deps_loaded ds : forallb writable_dep ds = true ->
  load_dependency <$> ((fun d => (d_name d, dep_value d)) <$> ds) = reload_dep <$> ds.
Proof.
  induction ds as [|d ds IH]; [done|]. cbn [forallb]. rewrite andb_true_iff. intros [Hd ?]. rewrite !fmap_cons, IH by done. f_equal.
  unfold writable_dep in Hd. rewrite !andb_true_iff in Hd. destruct Hd as [[[? ?] Hp] Hv].
  apply quotable_no_quote in Hp as [? _], Hv as [? _]. by apply dep_reloads.
Qed.

Lemma package_loaded m r : load_table (fresh_manifest r) (package_table m) = with_package (m_name m) (m_version m) (fresh_manifest r).
Proof.
  unfold load_table, package_table. cbn [section]. rewrite streq_refl. unfold from_key, value_in. cbn [keys assoc_find].
  rewrite (decide_True (P := $"name" = $"name")), (decide_False (P := $"version" = $"name")), decide_True by done.
  by rewrite !unquote_quoted.
Qed.

Lemma tables_ok m : forallb toml_table_ok (package_table m
  :: (if m_hasExplicitBins m then bin_table <$> m_bins m else [])
  ++ (if nonempty (m_dependencies m) then [dep_table (m_dependencies m)] else [])) = true.
Proof.
  cbn [forallb]. rewrite forallb_app. change (toml_table_ok (package_table m)) with true. cbn [andb]. rewrite andb_true_iff. split.
  - destruct (m_hasExplicitBins m); [|done]. by induction (m_bins m).
  - destruct (nonempty _); [|done]. cbn [forallb]. rewrite andb_true_r. unfold toml_table_ok. cbn [keys dep_table section].
    by induction (m_dependencies m).
Qed.

Lemma manifest_parsed m : writable_manifest m = true -> forallb parsed (manifest_items m) = true.
Proof.
  intros _. unfold manifest_items. rewrite !forallb_app, !andb_true_iff. split_and!; [done|..].
  - destruct (m_hasExplicitBins m); [|done]. induction (m_bins m) as [|b bs IH]; [done|]. cbn. exact IH.
  - destruct (nonempty _); [|done]. cbn. by induction (m_dependencies m).
Qed.

Lemma manifest_tables m : writable_manifest m = true -> parse_toml (manifest_to_toml m) = (package_table m
  :: (if m_hasExplicitBins m then bin_table <$> m_bins m else [])
  ++ (if nonempty (m_dependencies m) then [dep_table (m_dependencies m)] else []), None).
Proof.
  intros W. pose proof (parse_toml_spec (manifest_to_toml m)) as P. cbn zeta in P.
  assert (L : classify <$> toml_lines [] (manifest_to_toml m) = manifest_items m).
  { by rewrite manifest_text, toml_lines_unlines, manifest_lines_are; [..|apply manifest_one_line]. }
  rewrite L in P. unfold well_formed in P. rewrite group_manifest, manifest_parsed in P by done. cbn [fst snd nonempty negb andb] in P.
  by rewrite tables_ok in P.
Qed.

(** The manifests that are read back as they were. *)
Definition kept_dep (d : ManifestDependency) : bool :=
  negb (nonempty (d_url d))
  && (if nonempty (d_version d) then (d_source d =s $"version") && negb (nonempty (d_path d)) else d_source d =s $"path").
Definition kept (root : str) (m : Manifest) : Prop :=
  m_name m <> $"unnamed" /\ m_bins m = [mkBin (m_name m) ($"src/main.vyb")] /\ m_hasExplicitBins m = false
  /\ forallb kept_dep (m_dependencies m) = true /\ m_rootDir m = root /\ m_mod m = mkMod false [].

Lemma kept_dep_reload d : kept_dep d = true -> reload_dep d = d.
Proof.
  unfold kept_dep, reload_dep. destruct d as [n s p [|] [|]]; cbn; rewrite ?andb_true_iff, ?streq_true; try (by intros []); try done.
  - by intros ->.
  - intros [-> ?]. by destruct p.
Qed.

Lemma kept_reload root m : kept root m -> reload root m = m.
Proof.
  intros (N & B & E & D & R & M). unfold reload. replace (m_name m =s _) with false by (by symmetry; apply streq_false). cbn [andb].
  assert (reload_dep <$> m_dependencies m = m_dependencies m) as ->.
  { induction (m_dependencies m) as [|d ds IH]; [done|]. cbn [forallb] in D. apply andb_true_iff in D as [Hd D].
    rewrite fmap_cons, kept_dep_reload, IH by done. done. }
  rewrite <- B. destruct m; cbn in *. by subst.
Qed.


Definition sample_manifest : Manifest :=
  mkManifest ($"demo") ($"0.1.0") [mkBin ($"demo") ($"src/main.vyb")]
    [mkDep ($"util") ($"path") ($"../util, #1 = x") [] []; mkDep ($"net") ($"version") [] [] ($"1.2")]
    ($"/home/demo") false (mkMod false []).


(** The section name of a [[n]] header keeps a bracket, so it is never [bin]. *)
Lemma array_header_name n : solid n = true -> no_quote n = true ->
  forallb (fun c => negb (c =c "#") && negb (c =c "]")) n = true ->
  classify ($"[[" ++ n ++ $"]]") = Header true (n ++ $"]").
Proof.
  intros S Q P. unfold classify, strip_comment.
  assert (P1 : forallb (fun c => negb (c =c ch_quote) && negb (c =c "#")) n = true).
  { unfold no_quote in Q. rewrite forallb_forall in *. intros c Hc.
    specialize (P c Hc). specialize (Q c Hc). rewrite andb_true_iff in *. naive_solver. }
  rewrite (strip_plain ($"[[")), (strip_plain n) by done. change (strip_comment_go false ($"]]")) with ($"]]").
  rewrite trim_solid by (by apply (solid_app ($"[[") ($"]]"))).
  change ($"[[" ++ n ++ $"]]") with ("[" :: "[" :: n ++ $"]]"). cbv beta iota zeta. change ("[" =c "[") with true. cbv iota.
  assert (R : forall a, rfind "]" (a ++ $"]]") = Some (length a + 1)).
  { induction a as [|c a IH]; [done|]. cbn [app rfind]. rewrite IH. done. }
  change ("[" :: "[" :: n ++ $"]]") with (($"[[" ++ n) ++ $"]]"). rewrite R. 
  rewrite bool_decide_true by done. f_equal.
  change (drop 2 (($"[[" ++ n) ++ $"]]")) with (n ++ $"]]").
  replace (length ($"[[" ++ n) + 1 - 2) with (length (n ++ $"]")) by (rewrite !length_app; cbn; lia).
  replace (n ++ $"]]") with ((n ++ $"]") ++ $"]") by (by rewrite <- app_assoc). rewrite take_app_length.
  apply trim_solid. by apply (solid_app n ($"]") []).
Qed.

(** A fresh project's manifest. *)
Definition comment_lines : list str :=
  [ []; $"# Local path dependencies (resolved by `vyb build`):"; $"# [dependencies]";
    $"# mylib = { path = " ++ toml_quoted ($"../mylib") ++ $" }"].

Lemma new_project_text n v : default_manifest_toml n v
  = unlines (package_lines n v ++ bin_lines (mkBin n ($"src/main.vyb")) ++ comment_lines).
Proof.
  rewrite !unlines_app, package_text. change (bin_lines ?b) with (mjoin (bin_lines <$> [b])). rewrite bins_text.
  unfold default_manifest_toml. cbn [fmap list_fmap]. change (mjoin [?x]) with (x ++ []). rewrite app_nil_r.
  unfold bin_toml. cbn [b_name b_path]. rewrite <- !app_assoc. done.
Qed.

Lemma new_project_items n v : quotable n = true -> quotable v = true ->
  classify <$> toml_lines [] (default_manifest_toml n v)
  = [Header false ($"package"); Pair ($"name") (toml_quoted n); Pair ($"version") (toml_quoted v)]
    ++ bin_items (mkBin n ($"src/main.vyb")) ++ [Blank; Blank; Blank; Blank].
Proof.
  intros Hn Hv.
  assert (W : writable_manifest (mkManifest n v [mkBin n ($"src/main.vyb")] [] [] true (mkMod false [])) = true).
  { unfold writable_manifest. cbn [m_name m_version m_bins m_dependencies forallb b_name b_path]. rewrite Hn, Hv. by vm_compute. }
  pose proof (manifest_lines_are _ W) as L. pose proof (manifest_one_line _ W) as O. revert L O.
  unfold manifest_lines, manifest_items. cbn [m_hasExplicitBins m_bins m_name m_version m_dependencies nonempty fmap list_fmap].
  change (mjoin [?x]) with (x ++ []). rewrite !app_nil_r. intros L O.
  rewrite new_project_text, toml_lines_unlines.
  - rewrite app_assoc, fmap_app, L, <- app_assoc. done.
  - rewrite app_assoc, forallb_app, O. by vm_compute.
Qed.

(** What [vyb new] writes is read back as a project with the given name and
    version, the default binary and no dependencies. *)
Lemma new_project_loads root n v : quotable n = true -> quotable v = true ->
  load_manifest root (Some (default_manifest_toml n v))
  = (Some (reload root (mkManifest n v [] [] root false (mkMod false []))), None).
Proof.
  intros Hn Hv. pose proof (parse_toml_spec (default_manifest_toml n v)) as P. cbn zeta in P.
  rewrite new_project_items in P by done. change (well_formed _) with true in P. cbv iota in P.
  change (group _).2 with [package_table (mkManifest n v [] [] root false (mkMod false [])); bin_table (mkBin n ($"src/main.vyb"))] in P.
  unfold load_manifest. rewrite P. cbn [nonempty negb andb].
  do 2 f_equal. cbn [foldl]. rewrite (package_loaded (mkManifest n v [] [] root false (mkMod false []))).
  unfold finish_manifest, reload. cbn. by destruct (_ && _).
Qed.

(** The reader, exactly. *)

Definition blank (i : item) : bool := match i with Blank => true | _ => false end.

