(* ===== verification/ErrorRt.v ===== *)
(** * The error runtime

    runtime/error_handling.cpp: the call stack a thread keeps_calls for its traces,
    error values on the heap (creation, clone, cause chain, release), the names
    of type ids, the handler slot, and what the report of an untrapped error
    decides. The heap is a finite map from addresses to blocks; an access or a
    release of an address that is not allocated is undefined and is [None].
    Names of functions, files of frames and types are string constants of the
    compiled program: they are values here, a null pointer is [None]. The
    destructor of a payload, the hash of [std::hash], the clock and the thread
    number are arguments. *)

From S2P Require Import Prelude.
From S2P Require Import Words.

(** ** The call stack of a thread *)

Record VybStackFrame : Type := mkFrame {
  function_name : option str; frame_file : option str; frame_line : Z; frame_column : Z;
  native_address : option nat }.

Inductive notice : Type := DepthLimit | EmptyPop.

(** The three thread-local variables, and what was printed. *)
Record call_stack : Type := mkStack {
  g_call_stack : list VybStackFrame; g_call_stack_overflow : Z; g_call_stack_overflow_warned : bool;
  printed : list notice }.
Definition empty_stack : call_stack := mkStack [] 0 false [].
Definition MAX_CALL_STACK_DEPTH : nat := 256.

Definition push_call_frame (fn file : option str) (line column : Z) (cs : call_stack) : call_stack :=
  if MAX_CALL_STACK_DEPTH <=? length (g_call_stack cs) then
    let tell := (g_call_stack_overflow cs =? 0)%Z && negb (g_call_stack_overflow_warned cs) in
    mkStack (g_call_stack cs) (u64 (g_call_stack_overflow cs + 1)) (tell || g_call_stack_overflow_warned cs)
      (printed cs ++ if tell then [DepthLimit] else [])
  else
    mkStack (g_call_stack cs ++ [mkFrame fn file line column None]) (g_call_stack_overflow cs)
      (g_call_stack_overflow_warned cs) (printed cs).

Definition pop_call_frame (cs : call_stack) : call_stack :=
  if (0 <? g_call_stack_overflow cs)%Z then
    mkStack (g_call_stack cs) (g_call_stack_overflow cs - 1) (g_call_stack_overflow_warned cs) (printed cs)
  else match g_call_stack cs with
       | [] => mkStack [] (g_call_stack_overflow cs) (g_call_stack_overflow_warned cs) (printed cs ++ [EmptyPop])
       | _ => mkStack (take (length (g_call_stack cs) - 1) (g_call_stack cs)) (g_call_stack_overflow cs)
                (g_call_stack_overflow_warned cs) (printed cs)
       end.

(** The frames copied most recent first. *)
Definition current_frames (cs : call_stack) : list VybStackFrame :=
  let n := length (g_call_stack cs) in
  omap (fun i => g_call_stack cs !! (n - 1 - i)) (seq 0 n).

(** *** The stack it stands for *)

Inductive call_op : Type :=
| Push (fn file : option str) (line column : Z)
| Pop.

Definition call_step (cs : call_stack) (o : call_op) : call_stack :=
  match o with Push fn file l c => push_call_frame fn file l c cs | Pop => pop_call_frame cs end.

(** The frames of all open calls, the innermost first, how deep they ever
    were, and the pops without a call. *)
Record calls : Type := mkCalls { open_calls : list VybStackFrame; deepest : nat; unmatched : nat }.
Definition no_calls : calls := mkCalls [] 0 0.
Definition calls_step (A : calls) (o : call_op) : calls :=
  match o with
  | Push fn file l c =>
      mkCalls (mkFrame fn file l c None :: open_calls A) (deepest A `max` S (length (open_calls A))) (unmatched A)
  | Pop => match open_calls A with
           | [] => mkCalls [] (deepest A) (S (unmatched A))
           | _ :: r => mkCalls r (deepest A) (unmatched A)
           end
  end.

Definition is_limit (n : notice) : bool := match n with DepthLimit => true | _ => false end.
Definition limits (l : list notice) : nat := length (filter (fun n => is_limit n = true) l).
Definition empties (l : list notice) : nat := length (filter (fun n => is_limit n = false) l).

(** The outermost [MAX_CALL_STACK_DEPTH] calls are kept, the others counted. *)
Record keeps_calls (A : calls) (cs : call_stack) : Prop := {
  keeps_frames : g_call_stack cs = take MAX_CALL_STACK_DEPTH (rev (open_calls A));
  keeps_overflow : g_call_stack_overflow cs = Z.of_nat (length (open_calls A) - MAX_CALL_STACK_DEPTH);
  keeps_warned : g_call_stack_overflow_warned cs = bool_decide (MAX_CALL_STACK_DEPTH < deepest A);
  keeps_limits : limits (printed cs) = if g_call_stack_overflow_warned cs then 1 else 0;
  keeps_empties : empties (printed cs) = unmatched A;
  keeps_depth : length (open_calls A) <= deepest A }.

Lemma frames_from {A} (l : list A) n m : forall s, s + m = n -> n <= length l ->
  omap (fun i => l !! (n - 1 - i)) (seq s m) = rev (take m l).
Proof.
  induction m as [|m IH]; intros s E L; [done|]. cbn [seq omap list_omap].
  destruct (lookup_lt_is_Some_2 l m) as [x X]; [lia|]. replace (n - 1 - s) with m by lia. rewrite X.
  rewrite (take_S_r _ _ _ X), rev_app_distr. cbn [rev app]. f_equal. apply IH; lia.
Qed.

Lemma current_frames_rev cs : current_frames cs = rev (g_call_stack cs).
Proof. unfold current_frames. rewrite frames_from by done. by rewrite take_ge. Qed.

Lemma limits_app l n : limits (l ++ [n]) = limits l + (if is_limit n then 1 else 0).
Proof. unfold limits. rewrite filter_app, length_app. by destruct n. Qed.
Lemma empties_app l n : empties (l ++ [n]) = empties l + (if is_limit n then 0 else 1).
Proof. unfold empties. rewrite filter_app, length_app. by destruct n. Qed.

Lemma keeps_length A cs : keeps_calls A cs -> length (g_call_stack cs) = MAX_CALL_STACK_DEPTH `min` length (open_calls A).
Proof. intros K. rewrite (keeps_frames _ _ K), length_take, length_rev. done. Qed.

Lemma push_keeps fn file l c A cs : (Z.of_nat (length (open_calls A)) < 2 ^ 64)%Z -> keeps_calls A cs ->
  keeps_calls (calls_step A (Push fn file l c)) (push_call_frame fn file l c cs).
Proof.
  intros B K. pose proof (keeps_length _ _ K) as Len. destruct K as [F O W Ls Es D].
  unfold push_call_frame. destruct (MAX_CALL_STACK_DEPTH <=? _) eqn:E.
  - apply Nat.leb_le in E. set (tell := _ && _).
    assert (T : tell || g_call_stack_overflow_warned cs = true).
    { unfold tell. destruct (g_call_stack_overflow_warned cs) eqn:Wc; [by rewrite orb_true_r|]. rewrite orb_false_r, andb_true_r.
      apply Z.eqb_eq. rewrite O. symmetry in W. apply bool_decide_eq_false in W. lia. }
    split; cbn [g_call_stack g_call_stack_overflow g_call_stack_overflow_warned printed calls_step open_calls deepest unmatched length rev].
    + rewrite F. rewrite take_app_le by (rewrite length_rev; lia). done.
    + rewrite O. unfold u64, MAX_CALL_STACK_DEPTH in *. rewrite Z.mod_small by lia. lia.
    + rewrite T. symmetry. apply bool_decide_eq_true. lia.
    + rewrite T. unfold tell in *. destruct (g_call_stack_overflow_warned cs) eqn:Wc; [by rewrite andb_false_r, app_nil_r|].
      rewrite orb_false_r in T. rewrite T, limits_app, Ls. done.
    + rewrite <- Es. destruct tell; [rewrite empties_app; cbn; lia|by rewrite app_nil_r].
    + lia.
  - apply Nat.leb_gt in E. split; cbn [g_call_stack g_call_stack_overflow g_call_stack_overflow_warned printed calls_step open_calls deepest unmatched length rev]; try done.
    + rewrite F, take_ge, take_ge; rewrite ?length_app, ?length_rev; cbn [length]; try done; lia.
    + rewrite O. f_equal. lia.
    + rewrite W. apply bool_decide_ext. lia.
    + lia.
Qed.

Lemma pop_keeps A cs : keeps_calls A cs -> keeps_calls (calls_step A Pop) (pop_call_frame cs).
Proof.
  intros K. pose proof (keeps_length _ _ K) as Len. destruct K as [F O W Ls Es D].
  unfold pop_call_frame, calls_step. destruct (0 <? _)%Z eqn:E.
  - apply Z.ltb_lt in E. destruct (open_calls A) as [|f r] eqn:Op; cbn [length] in *; [lia|].
    split; cbn [g_call_stack g_call_stack_overflow g_call_stack_overflow_warned printed open_calls deepest unmatched]; try done; try lia.
    cbn [rev] in F. by rewrite F, take_app_le by (rewrite length_rev; lia).
  - apply Z.ltb_ge in E. destruct (open_calls A) as [|f r] eqn:Op.
    + assert (g_call_stack cs = []) as -> by (by rewrite F).
      split; cbn [g_call_stack g_call_stack_overflow g_call_stack_overflow_warned printed open_calls deepest unmatched]; try done.
      * by rewrite limits_app, Ls, Nat.add_0_r.
      * rewrite empties_app, Es. cbn. lia.
    + cbn [length rev] in *. destruct (g_call_stack cs) as [|x xs] eqn:G; [cbn in Len; lia|]. rewrite <- G in *.
      split; cbn [g_call_stack g_call_stack_overflow g_call_stack_overflow_warned printed open_calls deepest unmatched]; try done; try lia.
      rewrite take_ge in F by (rewrite length_app, length_rev; cbn; lia). rewrite F, length_app. cbn [length].
      rewrite Nat.add_sub, take_app_length, take_ge by (rewrite length_rev; lia). done.
Qed.

Lemma empty_keeps : keeps_calls no_calls empty_stack.
Proof. by split. Qed.

Lemma calls_bounded ops : forall A, length (open_calls (foldl calls_step A ops)) <= length (open_calls A) + length ops.
Proof.
  induction ops as [|o ops IH]; intros A; cbn [foldl length]; [lia|]. etrans; [apply IH|].
  destruct o; cbn [calls_step open_calls length]; [lia|]. destruct (open_calls A); cbn; lia.
Qed.

Lemma run_keeps ops : forall A cs, keeps_calls A cs -> (Z.of_nat (length (open_calls A) + length ops) < 2 ^ 64)%Z ->
  keeps_calls (foldl calls_step A ops) (foldl call_step cs ops).
Proof.
  induction ops as [|o ops IH]; intros A cs K B; [done|]. cbn [foldl]. apply IH.
  - destruct o; [apply push_keeps; [cbn [length] in B; lia|done]|by apply pop_keeps].
  - pose proof (calls_bounded [o] A). cbn [foldl length] in *. lia.
Qed.

(** C30: The bounded call stack of a thread stands for the unbounded one. After
    any sequence of fewer than 2^64 entries and exits, matched or not, a trace
    shows the outermost 256 open calls, the innermost of them first, and all of
    them when no more are open; the limit is reported once and only if it was
    ever passed, and an exit is reported exactly when no call was open. *)
Theorem call_stack_refines ops : (Z.of_nat (length ops) < 2 ^ 64)%Z ->
  let A := foldl calls_step no_calls ops in
  let cs := foldl call_step empty_stack ops in
  current_frames cs = drop (length (open_calls A) - MAX_CALL_STACK_DEPTH) (open_calls A)
  /\ limits (printed cs) = (if decide (MAX_CALL_STACK_DEPTH < deepest A) then 1 else 0)
  /\ empties (printed cs) = unmatched A.
Proof.
  intros B A cs. pose proof (run_keeps ops no_calls empty_stack empty_keeps B) as K. fold A cs in K.
  rewrite current_frames_rev, (keeps_frames _ _ K), (keeps_limits _ _ K), (keeps_warned _ _ K), (keeps_empties _ _ K).
  split_and!; [|by destruct (decide _); rewrite ?bool_decide_true, ?bool_decide_false by done|done].
  by rewrite firstn_rev, rev_involutive.
Qed.

Lemma call_stack_refines_witness :
  current_frames (foldl call_step empty_stack (repeat (Push (Some ($"f")) None 1 1) 300 ++ repeat Pop 50))
  = repeat (mkFrame (Some ($"f")) None 1 1 None) 250.
Proof.
  destruct (call_stack_refines (repeat (Push (Some ($"f")) None 1 1) 300 ++ repeat Pop 50)) as (-> & _); [by vm_compute|].
  by vm_compute.
Defined.

(** ** Error values *)

Abbreviation loc := nat.

Record VybError : Type := mkError {
  type_hash : Z; type_name : option str; payload : option loc; file : option loc; e_line : Z; e_col : Z;
  type_id : nat; data : option loc; data_size : nat; loc_file : option loc; loc_line : Z; loc_column : Z;
  stack_trace : option loc; cause : option loc; timestamp : Z; thread_id : Z; destructor : option nat }.

Inductive heap_block : Type :=
| BError (e : VybError)
| BTrace (frames : loc) (frame_count capacity : nat)
| BFrames (fs : list VybStackFrame)
| BBytes (s : str).

Abbreviation heap := (gmap loc heap_block).

Definition alloc (b : heap_block) (h : heap) : loc * heap := let l := fresh (dom h) in (l, <[l := b]> h).
Definition release (l : loc) (h : heap) : option heap := match h !! l with Some _ => Some (delete l h) | None => None end.
Definition release_opt (o : option loc) (h : heap) : option heap :=
  match o with Some l => release l h | None => Some h end.
Definition load_error (l : loc) (h : heap) : option VybError :=
  match h !! l with Some (BError e) => Some e | _ => None end.
Definition load_bytes (l : loc) (h : heap) : option str :=
  match h !! l with Some (BBytes s) => Some s | _ => None end.
Definition load_trace (l : loc) (h : heap) : option (loc * nat * nat) :=
  match h !! l with Some (BTrace f n c) => Some (f, n, c) | _ => None end.
Definition load_frames (l : loc) (h : heap) : option (list VybStackFrame) :=
  match h !! l with Some (BFrames fs) => Some fs | _ => None end.

Definition with_owned (d : option loc) (f : option loc) (t c : option loc) (e : VybError) : VybError :=
  mkError (type_hash e) (type_name e) d f (e_line e) (e_col e) (type_id e) d (data_size e) f (loc_line e) (loc_column e)
    t c (timestamp e) (thread_id e) (destructor e).
Definition with_cause (c : option loc) (e : VybError) : VybError :=
  mkError (type_hash e) (type_name e) (payload e) (file e) (e_line e) (e_col e) (type_id e) (data e) (data_size e)
    (loc_file e) (loc_line e) (loc_column e) (stack_trace e) c (timestamp e) (thread_id e) (destructor e).

(** [__vyb_runtime_get_current_stack_trace]. *)
Definition new_trace (frames : list VybStackFrame) (count capacity : nat) (h : heap) : loc * heap :=
  let '(t, h) := alloc (BTrace 0 0 0) h in
  let '(f, h) := alloc (BFrames frames) h in
  (t, <[t := BTrace f count capacity]> h).
Definition get_current_stack_trace (cs : call_stack) (h : heap) : loc * heap :=
  new_trace (current_frames cs) (length (g_call_stack cs)) (length (g_call_stack cs)) h.

Definition alloc_opt (o : option str) (h : heap) : option loc * heap :=
  match o with Some s => let '(l, h) := alloc (BBytes s) h in (Some l, h) | None => (None, h) end.

(** [__vyb_runtime_create_error_ex]: [bytes] is what the pointer [data] points
    to, at least [size] bytes. *)
Definition create_error_ex (hash : str -> Z) (now tid : Z) (cs : call_stack) (tname : option str) (tyid : nat)
    (bytes : option str) (size : nat) (dtor : option nat) (path : option str) (line column : Z) (h : heap) : loc * heap :=
  let e := mkError (match tname with Some s => hash s | None => 0%Z end) tname None None line column tyid None size None
             line column None None now tid dtor in
  let '(p, h) := alloc (BError e) h in
  let '(f, h) := alloc_opt path h in
  let '(d, h) := alloc_opt (if 0 <? size then take size <$> bytes else None) h in
  let '(t, h) := get_current_stack_trace cs h in
  (p, <[p := BError (with_owned d f (Some t) None e)]> h).

(** [__vyb_runtime_free_stack_trace] *)
Definition free_stack_trace (o : option loc) (h : heap) : option heap :=
  match o with
  | None => Some h
  | Some t => '(f, _, _) ← load_trace t h; h ← release f h; release t h
  end.

Section destructors.
(** What a destructor does to the heap when it is given the payload. *)
Context (run_destructor : nat -> loc -> heap -> option heap).

Definition destroy (dtor : option nat) (d : option loc) (h : heap) : option heap :=
  match dtor, d with Some k, Some l => run_destructor k l h | _, _ => Some h end.

(** [__vyb_runtime_free_error]; the fuel bounds the length of the cause chain. *)
Fixpoint free_error (fuel : nat) (o : option loc) (h : heap) : option heap :=
  match o with
  | None => Some h
  | Some p =>
      match fuel with
      | O => None
      | S fuel =>
          e ← load_error p h;
          h ← destroy (destructor e) (data e) h;
          h ← release_opt (data e) h;
          h ← free_stack_trace (stack_trace e) h;
          h ← release_opt (file e) h;
          h ← free_error fuel (cause e) h;
          release p h
      end
  end.

(** [__vyb_runtime_clone_error] *)
Definition clone_bytes (o : option loc) (size : option nat) (h : heap) : option (option loc * heap) :=
  match o with
  | None => Some (None, h)
  | Some l =>
      match size with
      | Some 0 => Some (Some l, h)
      | _ => s ← load_bytes l h;
             let '(l, h) := alloc (BBytes (match size with Some n => take n s | None => s end)) h in Some (Some l, h)
      end
  end.
Definition clone_trace (o : option loc) (h : heap) : option (option loc * heap) :=
  match o with
  | None => Some (None, h)
  | Some t => '(f, n, c) ← load_trace t h; fs ← load_frames f h;
              let '(t, h) := new_trace (take n fs) n c h in Some (Some t, h)
  end.
Fixpoint clone_error (fuel : nat) (o : option loc) (h : heap) : option (option loc * heap) :=
  match o with
  | None => Some (None, h)
  | Some p =>
      match fuel with
      | O => None
      | S fuel =>
          e ← load_error p h;
          let '(q, h) := alloc (BError e) h in
          '(d, h) ← clone_bytes (data e) (Some (data_size e)) h;
          '(f, h) ← clone_bytes (file e) None h;
          '(t, h) ← clone_trace (stack_trace e) h;
          '(c, h) ← clone_error fuel (cause e) h;
          Some (Some q, <[q := BError (with_owned d f t c e)]> h)
      end
  end.

(** [__vyb_runtime_set_error_cause] *)
Definition set_error_cause (fuel : nat) (o c : option loc) (h : heap) : option heap :=
  match o with
  | None => Some h
  | Some p =>
      e ← load_error p h;
      h ← free_error fuel (cause e) h;
      e ← load_error p h;
      Some (<[p := BError (with_cause c e)]> h)
  end.
End destructors.

(** *** What an error owns *)

(** An error without its addresses, and the contents of what it owns. *)
Record error_view : Type := mkView {
  v_error : VybError; v_data : option str; v_file : option str; v_trace : option (list VybStackFrame * nat) }.
Definition plain (e : VybError) : VybError := with_owned None None None None e.

Definition has_bytes (h : heap) (o : option loc) (v : option str) (D : gset loc) : Prop :=
  match o with
  | None => v = None /\ D = ∅
  | Some l => exists s, h !! l = Some (BBytes s) /\ v = Some s /\ D = {[l]}
  end.
Definition has_trace (h : heap) (o : option loc) (v : option (list VybStackFrame * nat)) (D : gset loc) : Prop :=
  match o with
  | None => v = None /\ D = ∅
  | Some t => exists f fs c, h !! t = Some (BTrace f (length fs) c) /\ h !! f = Some (BFrames fs)
                /\ v = Some (fs, c) /\ D = {[t; f]} /\ t <> f
  end.

(** [owns h o vs D]: the chain from [o] reads [vs] and its blocks, each of them
    reached once, are at the addresses [D]. *)
Inductive owns (h : heap) : option loc -> list error_view -> gset loc -> Prop :=
| owns_none : owns h None [] ∅
| owns_error p e vd vf vt vs Dd Df Dt Dc :
    h !! p = Some (BError e) -> payload e = data e -> loc_file e = file e ->
    has_bytes h (data e) vd Dd -> (forall s, vd = Some s -> length s = data_size e /\ 0 < data_size e) ->
    has_bytes h (file e) vf Df -> has_trace h (stack_trace e) vt Dt -> owns h (cause e) vs Dc ->
    p ∉ Dd ∪ Dt ∪ Df ∪ Dc -> Dd ## Dt ∪ Df ∪ Dc -> Dt ## Df ∪ Dc -> Df ## Dc ->
    owns h (Some p) (mkView (plain e) vd vf vt :: vs) ({[p]} ∪ Dd ∪ Dt ∪ Df ∪ Dc).

(** [h'] is [h] without the blocks at [D]. *)
Definition minus (h : heap) (D : gset loc) (h' : heap) : Prop :=
  forall l, h' !! l = if decide (l ∈ D) then None else h !! l.
(** [h'] is [h] with new blocks at [D]. *)
Definition grows (h : heap) (D : gset loc) (h' : heap) : Prop :=
  D ## dom h /\ D ⊆ dom h' /\ forall l, l ∉ D -> h' !! l = h !! l.

Lemma minus_trans h D h1 E h2 : minus h D h1 -> minus h1 E h2 -> minus h (D ∪ E) h2.
Proof. intros M N l. rewrite N, M. repeat case_decide; set_solver. Qed.
Lemma minus_empty h : minus h ∅ h.
Proof. intros l. case_decide; set_solver. Qed.
Lemma minus_ext h D E h' : D = E -> minus h D h' -> minus h E h'.
Proof. by intros ->. Qed.
Lemma grows_empty h : grows h ∅ h.
Proof. split_and!; [set_solver..|done]. Qed.

(** Agreement on an address set carries what is read there. *)
Definition agree (D : gset loc) (h h' : heap) : Prop := forall l, l ∈ D -> h' !! l = h !! l.

Lemma minus_agree h D h' E : minus h D h' -> D ## E -> agree E h h'.
Proof. intros M Dj l Hl. rewrite M. case_decide; set_solver. Qed.
Lemma grows_agree h D h' : grows h D h' -> agree (dom h) h h'.
Proof. intros (Dj & _ & G) l Hl. apply G. set_solver. Qed.
Lemma agree_sub D E h h' : agree D h h' -> E ⊆ D -> agree E h h'.
Proof. intros A S l Hl. apply A. set_solver. Qed.

Lemma has_bytes_agree h h' o v D : has_bytes h o v D -> agree D h h' -> has_bytes h' o v D.
Proof. destruct o as [l|]; [|done]. intros (s & E & -> & ->) A. exists s. by rewrite A by set_solver. Qed.
Lemma has_trace_agree h h' o v D : has_trace h o v D -> agree D h h' -> has_trace h' o v D.
Proof.
  destruct o as [l|]; [|done]. intros (f & fs & c & E & F & -> & -> & N) A. exists f, fs, c. by rewrite !A by set_solver.
Qed.
Lemma owns_agree h h' o vs D : owns h o vs D -> agree D h h' -> owns h' o vs D.
Proof.
  induction 1 as [|p e vd vf vt vs Dd Df Dt Dc Hp Py Lf Hd Sz Hf Ht Hc IH]; intros A; [constructor|].
  econstructor; try done; [by rewrite A by set_solver|..].
  - eapply has_bytes_agree; [done|]. eapply agree_sub; [done|set_solver].
  - eapply has_bytes_agree; [done|]. eapply agree_sub; [done|set_solver].
  - eapply has_trace_agree; [done|]. eapply agree_sub; [done|set_solver].
  - apply IH. eapply agree_sub; [done|set_solver].
Qed.

Lemma has_bytes_dom h o v D : has_bytes h o v D -> D ⊆ dom h.
Proof. destruct o; [|intros [_ ->]; set_solver]. intros (s & E & _ & ->). apply elem_of_dom_2 in E. set_solver. Qed.
Lemma has_trace_dom h o v D : has_trace h o v D -> D ⊆ dom h.
Proof.
  destruct o; [|intros [_ ->]; set_solver]. intros (f & fs & c & E & F & _ & -> & _).
  apply elem_of_dom_2 in E, F. set_solver.
Qed.
Lemma owns_dom h o vs D : owns h o vs D -> D ⊆ dom h.
Proof.
  induction 1 as [|p e vd vf vt vs Dd Df Dt Dc Hp Py Lf Hd Sz Hf Ht Hc IH]; [set_solver|].
  apply elem_of_dom_2 in Hp. apply has_bytes_dom in Hd, Hf. apply has_trace_dom in Ht. set_solver.
Qed.

(** *** Release *)

Lemma release_minus l b h : h !! l = Some b -> exists h', release l h = Some h' /\ minus h {[l]} h'.
Proof.
  intros E. unfold release. rewrite E. eexists. split; [done|]. intros k.
  case_decide as K; [apply elem_of_singleton in K as ->; apply lookup_delete_eq|apply lookup_delete_ne; set_solver].
Qed.

Lemma release_bytes h o v D : has_bytes h o v D -> exists h', release_opt o h = Some h' /\ minus h D h'.
Proof.
  destruct o as [l|]; [|intros [_ ->]; eauto using minus_empty]. intros (s & E & _ & ->). by eapply release_minus.
Qed.

Lemma release_trace h o v D : has_trace h o v D -> exists h', free_stack_trace o h = Some h' /\ minus h D h'.
Proof.
  destruct o as [t|]; [|intros [_ ->]; eauto using minus_empty]. intros (f & fs & c & E & F & _ & -> & N).
  unfold free_stack_trace, load_trace. rewrite E. cbn [mbind option_bind].
  destruct (release_minus _ _ _ F) as (h1 & -> & M). cbn [mbind option_bind].
  destruct (release_minus t (BTrace f (length fs) c) h1) as (h2 & -> & M2).
  { rewrite M. case_decide; set_solver. }
  exists h2. split; [done|]. eapply minus_ext; [|by eapply minus_trans]. set_solver.
Qed.

Section release.
Context (run_destructor : nat -> loc -> heap -> option heap).

(** A payload that owns nothing: it has no destructor, or one that releases
    nothing. *)
Definition owns_nothing (v : error_view) : Prop :=
  forall k, destructor (v_error v) = Some k -> forall l h, run_destructor k l h = Some h.

Lemma destroy_plain e vd vf vt d h : owns_nothing (mkView (plain e) vd vf vt) -> destroy run_destructor (destructor e) d h = Some h.
Proof. intros P. unfold owns_nothing in P. cbn in P. destruct (destructor e), d; cbn; auto. Qed.

Lemma free_error_owned h o vs D : owns h o vs D -> Forall owns_nothing vs -> forall fuel, length vs <= fuel ->
  exists h', free_error run_destructor fuel o h = Some h' /\ minus h D h'.
Proof.
  intros O P. remember h as h0 eqn:Eh in O. assert (A : agree D h0 h) by (by subst). clear Eh. revert h A.
  induction O as [|p e vd vf vt vs Dd Df Dt Dc Hp Py Lf Hd Sz Hf Ht Hc IH N1 N2 N3 N4]; intros h A fuel L.
  { destruct fuel; eauto using minus_empty. }
  apply Forall_cons in P as [Pe P].
  destruct fuel as [|fuel]; [cbn in L; lia|]. cbn [free_error]. unfold load_error. rewrite A, Hp by set_solver. cbn [mbind option_bind].
  rewrite (destroy_plain e vd vf vt) by done. cbn [mbind option_bind].
  destruct (release_bytes h (data e) vd Dd) as (h1 & -> & M1).
  { eapply has_bytes_agree; [done|]. eapply agree_sub; [done|set_solver]. }
  assert (A1 : agree ({[p]} ∪ Dt ∪ Df ∪ Dc) h0 h1).
  { intros l Hl. rewrite M1. case_decide; [set_solver|]. apply A. set_solver. }
  cbn [mbind option_bind]. destruct (release_trace h1 (stack_trace e) vt Dt) as (h2 & -> & M2).
  { eapply has_trace_agree; [done|]. eapply agree_sub; [done|set_solver]. }
  assert (A2 : agree ({[p]} ∪ Df ∪ Dc) h0 h2).
  { intros l Hl. rewrite M2. case_decide; [set_solver|]. apply A1. set_solver. }
  cbn [mbind option_bind]. destruct (release_bytes h2 (file e) vf Df) as (h3 & -> & M3).
  { eapply has_bytes_agree; [done|]. eapply agree_sub; [done|set_solver]. }
  assert (A3 : agree ({[p]} ∪ Dc) h0 h3).
  { intros l Hl. rewrite M3. case_decide; [set_solver|]. apply A2. set_solver. }
  cbn [mbind option_bind]. destruct (IH P h3) with (fuel := fuel) as (h4 & -> & M4); [|cbn in L; lia|].
  { eapply agree_sub; [done|set_solver]. }
  cbn [mbind option_bind]. destruct (release_minus p (BError e) h4) as (h5 & -> & M5).
  { rewrite M4. case_decide; [set_solver|]. rewrite A3 by set_solver. done. }
  exists h5. split; [done|]. pose proof (minus_trans _ _ _ _ _ (minus_trans _ _ _ _ _ (minus_trans _ _ _ _ _ (minus_trans _ _ _ _ _ M1 M2) M3) M4) M5) as M.
  eapply minus_ext; [|exact M]. set_solver.
Qed.
End release.

(** *** Clones *)

Lemma alloc_grows b h : grows h {[ (alloc b h).1 ]} (alloc b h).2 /\ (alloc b h).2 !! (alloc b h).1 = Some b.
Proof.
  unfold alloc. cbn [fst snd]. pose proof (is_fresh (dom h)) as F. split; [|apply lookup_insert_eq].
  split_and!; [set_solver|rewrite dom_insert; set_solver|]. intros l Hl. apply lookup_insert_ne. set_solver.
Qed.

Lemma grows_trans h D h1 E h2 : grows h D h1 -> grows h1 E h2 -> grows h (D ∪ E) h2 /\ D ## E.
Proof.
  intros (D1 & S1 & A1) (D2 & S2 & A2).
  assert (dom h1 ⊆ dom h2).
  { intros l Hl. apply elem_of_dom. rewrite A2 by set_solver. by apply elem_of_dom. }
  assert (dom h ⊆ dom h1).
  { intros l Hl. apply elem_of_dom. rewrite A1 by set_solver. by apply elem_of_dom. }
  split; [split_and!|]; [set_solver..| |set_solver]. intros l Hl. rewrite A2, A1 by set_solver. done.
Qed.

(** A clone in a heap grown from the one the original is in. *)
Definition cloned {V} (has : heap -> option loc -> V -> gset loc -> Prop) (v : V) (h : heap) (r : option (option loc * heap)) : Prop :=
  exists o' h' D', r = Some (o', h') /\ grows h D' h' /\ has h' o' v D'.

Lemma clone_bytes_ok h o v D size : has_bytes h o v D ->
  (forall s n, v = Some s -> size = Some n -> length s = n /\ 0 < n) ->
  cloned has_bytes v h (clone_bytes o size h).
Proof.
  intros H Hs. destruct o as [l|]; [|destruct H as [-> _]; exists None, h, ∅; by split_and!; [|apply grows_empty|]].
  destruct H as (s & E & -> & _). unfold clone_bytes, load_bytes. rewrite E. cbn [mbind option_bind].
  set (s' := match size with Some n => take n s | None => s end).
  assert (s' = s) as ->. { unfold s'. destruct size as [n|]; [|done]. destruct (Hs s n) as [<- _]; [done..|]. by apply take_ge. }
  destruct (alloc (BBytes s) h) as [l' h'] eqn:A. destruct (alloc_grows (BBytes s) h) as [G L]. rewrite A in G, L. cbn [fst snd] in *.
  assert (match size with Some 0 => Some (Some l, h) | _ => Some (Some l', h') end = Some (Some l', h')) as E'.
  { destruct size as [[|n]|]; [|done..]. destruct (Hs s 0) as [_ X]; [done..|lia]. }
  exists (Some l'), h', {[l']}. split_and!; [by destruct size as [[|]|]|done|]. exists s. done.
Qed.

Lemma new_trace_ok fs c h : let r := new_trace fs (length fs) c h in
  exists D, grows h D r.2 /\ has_trace r.2 (Some r.1) (Some (fs, c)) D.
Proof.
  unfold new_trace. destruct (alloc (BTrace 0 0 0) h) as [t h1] eqn:A. destruct (alloc_grows (BTrace 0 0 0) h) as [G1 L1].
  rewrite A in G1, L1. cbn [fst snd] in *. destruct (alloc (BFrames fs) h1) as [f h2] eqn:B.
  destruct (alloc_grows (BFrames fs) h1) as [G2 L2]. rewrite B in G2, L2. cbn [fst snd] in *.
  destruct (grows_trans _ _ _ _ _ G1 G2) as [G Dj]. exists ({[t]} ∪ {[f]}). split.
  - destruct G as (G & S & Ag). split_and!; [done|rewrite dom_insert; set_solver|].
    intros l Hl. rewrite lookup_insert_ne by set_solver. by apply Ag.
  - exists f, fs, c. assert (t <> f) by set_solver. rewrite lookup_insert_eq, lookup_insert_ne by done. done.
Qed.

Lemma clone_trace_ok h o v D : has_trace h o v D -> cloned has_trace v h (clone_trace o h).
Proof.
  destruct o as [t|]; [|intros [-> _]; exists None, h, ∅; by split_and!; [|apply grows_empty|]].
  intros (f & fs & c & E & F & -> & _). unfold clone_trace, load_trace, load_frames. rewrite E. cbn [mbind option_bind].
  rewrite F. cbn [mbind option_bind]. rewrite take_ge by done. destruct (new_trace_ok fs c h) as (D' & G & H).
  destruct (new_trace _ _ _ _) as [t' h']. by exists (Some t'), h', D'.
Qed.

(** The blocks at [D] of [h0] are still in [h]. *)
Definition within (D : gset loc) (h0 h : heap) : Prop := agree D h0 h /\ D ⊆ dom h.
Lemma within_sub D E h0 h : within D h0 h -> E ⊆ D -> within E h0 h.
Proof. intros [A S] H. split; [by eapply agree_sub|set_solver]. Qed.
Lemma within_grows D E h0 h h' : within D h0 h -> grows h E h' -> within D h0 h'.
Proof.
  intros [A S] G. assert (X : agree D h h') by (eapply agree_sub; [by eapply grows_agree|done]).
  split; [intros l Hl; by rewrite X, A|]. intros l Hl. apply elem_of_dom. rewrite X by done. apply elem_of_dom. set_solver.
Qed.

Lemma has_bytes_grows h E h' o v D : has_bytes h o v D -> grows h E h' -> has_bytes h' o v D.
Proof. intros H G. eapply has_bytes_agree; [done|]. eapply agree_sub; [by eapply grows_agree|by eapply has_bytes_dom]. Qed.
Lemma has_trace_grows h E h' o v D : has_trace h o v D -> grows h E h' -> has_trace h' o v D.
Proof. intros H G. eapply has_trace_agree; [done|]. eapply agree_sub; [by eapply grows_agree|by eapply has_trace_dom]. Qed.

(** An error whose parts are in place is owned once it is written. *)
Lemma seal h q e H vd vf vt vs Dd Df Dt Dc : grows h ({[q]} ∪ (Dd ∪ Dt ∪ Df ∪ Dc)) H ->
  payload e = data e -> loc_file e = file e -> (forall s, vd = Some s -> length s = data_size e /\ 0 < data_size e) ->
  has_bytes H (data e) vd Dd -> has_bytes H (file e) vf Df -> has_trace H (stack_trace e) vt Dt -> owns H (cause e) vs Dc ->
  q ∉ Dd ∪ Dt ∪ Df ∪ Dc -> Dd ## Dt ∪ Df ∪ Dc -> Dt ## Df ∪ Dc -> Df ## Dc ->
  cloned owns (mkView (plain e) vd vf vt :: vs) h (Some (Some q, <[q := BError e]> H)).
Proof.
  intros (X & Y & Z) Py Lf Sz Hd Hf Ht Hc N1 N2 N3 N4.
  assert (keep : forall D, D ⊆ Dd ∪ Dt ∪ Df ∪ Dc -> agree D H (<[q := BError e]> H)).
  { intros D Sub l Hl. apply lookup_insert_ne. clear -Sub Hl N1. set_solver. }
  exists (Some q), (<[q := BError e]> H), ({[q]} ∪ Dd ∪ Dt ∪ Df ∪ Dc). split_and!; [done|split_and!|].
  - clear -X. set_solver.
  - rewrite dom_insert. clear -Y. set_solver.
  - intros l Hl. rewrite lookup_insert_ne by (clear -Hl; set_solver). apply Z. clear -Hl. set_solver.
  - constructor; try done; [apply lookup_insert_eq|..].
    + eapply has_bytes_agree; [done|]. apply keep. clear. set_solver.
    + eapply has_bytes_agree; [done|]. apply keep. clear. set_solver.
    + eapply has_trace_agree; [done|]. apply keep. clear. set_solver.
    + eapply owns_agree; [done|]. apply keep. clear. set_solver.
Qed.

Lemma clone_error_ok h0 o vs D : owns h0 o vs D -> forall h fuel, within D h0 h -> length vs <= fuel ->
  cloned owns vs h (clone_error fuel o h).
Proof.
  induction 1 as [|p e vd vf vt vs Dd Df Dt Dc Hp Py Lf Hd Sz Hf Ht Hc IH N1 N2 N3 N4]; intros h fuel W L.
  { exists None, h, ∅. split_and!; [by destruct fuel|apply grows_empty|constructor]. }
  destruct fuel as [|fuel]; [cbn in L; lia|]. cbn [clone_error]. unfold load_error. rewrite (proj1 W), Hp by set_solver. cbn [mbind option_bind].
  destruct (alloc (BError e) h) as [q h1] eqn:Q. destruct (alloc_grows (BError e) h) as [G1 L1]. rewrite Q in G1, L1. cbn [fst snd] in *.
  apply (within_grows _ _ _ _ _ W) in G1 as W1.
  destruct (clone_bytes_ok h1 (data e) vd Dd (Some (data_size e))) as (d & h2 & Ed & -> & G2 & Cd).
  { eapply has_bytes_agree; [done|]. apply (within_sub _ Dd) in W1 as [? _]; [done|set_solver]. } { naive_solver. }
  apply (within_grows _ _ _ _ _ W1) in G2 as W2. cbn [mbind option_bind].
  destruct (clone_bytes_ok h2 (file e) vf Df None) as (f & h3 & Ef & -> & G3 & Cf).
  { eapply has_bytes_agree; [done|]. apply (within_sub _ Df) in W2 as [? _]; [done|set_solver]. } { done. }
  apply (within_grows _ _ _ _ _ W2) in G3 as W3. cbn [mbind option_bind].
  destruct (clone_trace_ok h3 (stack_trace e) vt Dt) as (t & h4 & Et & -> & G4 & Ct).
  { eapply has_trace_agree; [done|]. apply (within_sub _ Dt) in W3 as [? _]; [done|set_solver]. }
  apply (within_grows _ _ _ _ _ W3) in G4 as W4. cbn [mbind option_bind].
  destruct (IH h4 fuel) as (c & h5 & Ec & -> & G5 & Cc); [apply (within_sub _ _ _ _ W4); set_solver|cbn in L; lia|].
  cbn [mbind option_bind].
  destruct (grows_trans _ _ _ _ _ G4 G5) as [G45 J4]. destruct (grows_trans _ _ _ _ _ G3 G45) as [G35 J3].
  destruct (grows_trans _ _ _ _ _ G2 G35) as [G25 J2]. destruct (grows_trans _ _ _ _ _ G1 G25) as [G15 J1].
  change (plain e) with (plain (with_owned d f t c e)). apply (seal _ _ _ _ _ _ _ _ Ed Ef Et Ec); try done.
  - replace (Ed ∪ Et ∪ Ef ∪ Ec) with (Ed ∪ (Ef ∪ (Et ∪ Ec))) by (clear; set_solver). done.
  - by eapply has_bytes_grows.
  - by eapply has_bytes_grows.
  - by eapply has_trace_grows.
  - clear -J1. set_solver.
  - clear -J2. set_solver.
  - clear -J3 J4. set_solver.
  - clear -J3. set_solver.
Qed.

(** *** Creation *)

Lemma alloc_opt_ok v h : exists D, grows h D (alloc_opt v h).2 /\ has_bytes (alloc_opt v h).2 (alloc_opt v h).1 v D.
Proof.
  destruct v as [s|]; [|exists ∅; split; [apply grows_empty|done]].
  destruct (alloc_grows (BBytes s) h) as [G L]. unfold alloc_opt. destruct (alloc _ h) as [l h']. cbn [fst snd] in *.
  exists {[l]}. split; [done|]. by exists s.
Qed.

Section creation.
Context (hash : str -> Z) (now tid : Z) (cs : call_stack) (tname : option str) (tyid : nat)
  (bytes : option str) (size : nat) (dtor : option nat) (path : option str) (line column : Z).

(** What the created error reads. *)
Definition created_view : error_view :=
  mkView (mkError (match tname with Some s => hash s | None => 0%Z end) tname None None line column tyid None size None
            line column None None now tid dtor)
    (if 0 <? size then take size <$> bytes else None) path (Some (current_frames cs, length (g_call_stack cs))).

Lemma create_error_owned h : (forall s, bytes = Some s -> size <= length s) ->
  let r := create_error_ex hash now tid cs tname tyid bytes size dtor path line column h in
  cloned owns [created_view] h (Some (Some r.1, r.2)).
Proof.
  intros Sz. unfold create_error_ex. set (e := mkError _ _ _ _ _ _ _ _ _ _ _ _ _ _ _ _ _).
  destruct (alloc (BError e) h) as [p h1] eqn:Q. destruct (alloc_grows (BError e) h) as [G1 L1]. rewrite Q in G1, L1. cbn [fst snd] in *.
  destruct (alloc_opt_ok path h1) as (Df & G2 & Cf). destruct (alloc_opt path h1) as [f h2]. cbn [fst snd] in *.
  set (v := if 0 <? size then _ else _).
  destruct (alloc_opt_ok v h2) as (Dd & G3 & Cd). destruct (alloc_opt v h2) as [d h3]. cbn [fst snd] in *.
  unfold get_current_stack_trace.
  assert (Ln : length (g_call_stack cs) = length (current_frames cs)) by (by rewrite current_frames_rev, length_rev).
  rewrite Ln. destruct (new_trace_ok (current_frames cs) (length (current_frames cs)) h3) as (Dt & G4 & Ct).
  destruct (new_trace _ _ _ _) as [t h4]. cbn [fst snd] in *.
  destruct (grows_trans _ _ _ _ _ G3 G4) as [G34 J3]. destruct (grows_trans _ _ _ _ _ G2 G34) as [G24 J2].
  destruct (grows_trans _ _ _ _ _ G1 G24) as [G14 J1].
  change created_view with (mkView (plain (with_owned d f (Some t) None e)) v path (Some (current_frames cs, length (g_call_stack cs)))).
  rewrite Ln. apply (seal _ _ _ _ _ _ _ _ Dd Df Dt ∅); try done.
  - replace (Dd ∪ Dt ∪ Df ∪ ∅) with (Df ∪ (Dd ∪ Dt)) by (clear; set_solver). done.
  - intros s Hs. unfold v in Hs. destruct (0 <? size) eqn:P; [|done]. apply Nat.ltb_lt in P.
    apply fmap_Some in Hs as (b & Hb & ->). rewrite length_take. specialize (Sz b Hb). cbn. lia.
  - by eapply has_bytes_grows.
  - by eapply has_bytes_grows.
  - constructor.
  - clear -J1. set_solver.
  - clear -J2 J3. set_solver.
  - clear -J2. set_solver.
Qed.
End creation.

(** *** The life of an error *)

Lemma grown_back h D h' h'' : grows h D h' -> minus h' D h'' -> h'' = h.
Proof.
  intros (Dj & _ & A) M. apply map_eq. intros l. rewrite M. case_decide as Hl.
  - symmetry. apply not_elem_of_dom. clear -Dj Hl. set_solver.
  - by apply A.
Qed.

Section life.
Context (run_destructor : nat -> loc -> heap -> option heap).

(** A new cause replaces the old chain, which is released. *)
Lemma set_error_cause_owned h p v vs D c ws E fuel : owns h (Some p) (v :: vs) D -> owns h c ws E -> D ## E ->
  Forall (owns_nothing run_destructor) vs -> length vs <= fuel ->
  exists h' D', set_error_cause run_destructor fuel (Some p) c h = Some h' /\ owns h' (Some p) (v :: ws) D'
    /\ forall l, l ∉ D ∪ E -> h' !! l = h !! l.
Proof.
  intros O C Dj P L. inversion O as [|? e vd vf vt ? Dd Df Dt Dc Hp Py Lf Hd Sz Hf Ht Hc N1 N2 N3 N4]; subst.
  destruct (free_error_owned _ _ _ _ _ Hc P fuel L) as (h1 & F & M).
  unfold set_error_cause, load_error. rewrite Hp. cbn [mbind option_bind]. rewrite F. cbn [mbind option_bind].
  assert (Hp1 : h1 !! p = Some (BError e)).
  { rewrite M. case_decide; [clear -N1 H; set_solver|done]. }
  rewrite Hp1. cbn [mbind option_bind].
  assert (A : agree (Dd ∪ Dt ∪ Df ∪ E) h (<[p := BError (with_cause c e)]> h1)).
  { intros l Hl. rewrite lookup_insert_ne by (clear -Hl N1 Dj; set_solver). rewrite M. case_decide; [|done].
    clear -Hl N2 N3 N4 Dj H. set_solver. }
  eexists _, ({[p]} ∪ Dd ∪ Dt ∪ Df ∪ E). split_and!; [done|..].
  - change (plain e) with (plain (with_cause c e)).
    apply (owns_error _ p (with_cause c e) vd vf vt ws Dd Df Dt E); try done.
    + apply lookup_insert_eq.
    + eapply has_bytes_agree; [done|]. eapply agree_sub; [done|]. clear. set_solver.
    + eapply has_bytes_agree; [done|]. eapply agree_sub; [done|]. clear. set_solver.
    + eapply has_trace_agree; [done|]. eapply agree_sub; [done|]. clear. set_solver.
    + eapply owns_agree; [done|]. eapply agree_sub; [done|]. clear. set_solver.
    + clear -N1 Dj. set_solver.
    + clear -N2 Dj. set_solver.
    + clear -N3 Dj. set_solver.
    + clear -Dj. set_solver.
  - intros l Hl. rewrite lookup_insert_ne by (clear -Hl; set_solver). rewrite M. case_decide; [|done]. clear -Hl H. set_solver.
Qed.

(** C10: An error and its clone share no block. Cloning a chain of errors whose
    blocks are each reached once ends with a new chain that reads the same
    at every link, leaves the original in place, and uses only addresses that
    were free, whatever the payloads. Where no payload of the chain owns a block
    of its own, that is, where no error has a destructor that releases one,
    releasing the clone then restores the heap of before the clone exactly, and
    releasing the original instead leaves the clone whole. (The bytes of a
    payload are copied as they are: [clone_shares_inner].) *)
Theorem clone_error_independent h o vs D fuel : owns h o vs D -> length vs <= fuel ->
  exists o' h' D', clone_error fuel o h = Some (o', h')
    /\ owns h' o' vs D' /\ owns h' o vs D /\ D' ## dom h
    /\ (Forall (owns_nothing run_destructor) vs ->
        free_error run_destructor fuel o' h' = Some h
        /\ exists h'', free_error run_destructor fuel o h' = Some h'' /\ owns h'' o' vs D' /\ D ## dom h'').
Proof.
  intros O L. pose proof (owns_dom _ _ _ _ O) as S.
  destruct (clone_error_ok h o vs D O h fuel) as (o' & h' & D' & -> & G & C); [by split|done|].
  exists o', h', D'. assert (O' : owns h' o vs D).
  { eapply owns_agree; [done|]. eapply agree_sub; [by eapply grows_agree|done]. }
  assert (Dj : D' ## D) by (destruct G as (X & _); clear -X S; set_solver).
  split_and!; [done|done|done|by destruct G as (X & _)|]. intros P.
  destruct (free_error_owned run_destructor _ _ _ _ C P fuel L) as (h1 & E1 & M1).
  destruct (free_error_owned run_destructor _ _ _ _ O' P fuel L) as (h2 & E2 & M2).
  split; [rewrite E1; f_equal; by eapply grown_back|].
  exists h2. split_and!; [done| |].
  - eapply owns_agree; [done|]. eapply minus_agree; [done|]. clear -Dj. set_solver.
  - intros l Hl Hd. apply elem_of_dom in Hd as [b Hb]. rewrite M2 in Hb. by case_decide.
Qed.

(** An error is created whole and, where its destructor releases nothing,
    released whole. The new error reads what
    it was made of: the hash and the name of its type, a copy of the payload's
    first bytes, a copy of the file name, the position, and the trace of the
    calls open at that moment; releasing it leaves the heap as it was before
    the creation. *)
Theorem create_error_released hash now tid cs tname tyid bytes size dtor path line column h :
  (forall s, bytes = Some s -> size <= length s) -> (forall k, dtor = Some k -> forall l h, run_destructor k l h = Some h) ->
  let r := create_error_ex hash now tid cs tname tyid bytes size dtor path line column h in
  (exists D, owns r.2 (Some r.1) [created_view hash now tid cs tname tyid bytes size dtor path line column] D)
  /\ free_error run_destructor 1 (Some r.1) r.2 = Some h.
Proof.
  intros Sz Pl r. destruct (create_error_owned hash now tid cs tname tyid bytes size dtor path line column h Sz) as (o & h' & D & E & G & C).
  fold r in E. injection E as <- <-. split; [by eexists|].
  destruct (free_error_owned run_destructor _ _ _ _ C) with (fuel := 1) as (h1 & E1 & M1); [by repeat constructor|done|].
  rewrite E1. f_equal. by eapply grown_back.
Qed.
End life.

(** A destructor with nothing to release. *)
Definition nothing (k : nat) (l : loc) (h : heap) : option heap := Some h.

(** An error [Timeout] at [main.vyb:3:7] in an empty heap, and one more with the
    first as its cause. *)
Definition first_error : loc * heap :=
  create_error_ex (fun s => Z.of_nat (length s)) 5 1 (push_call_frame (Some ($"main")) (Some ($"main.vyb")) 1 1 empty_stack)
    (Some ($"Timeout")) 0 (Some ($"12345678")) 8 None (Some ($"main.vyb")) 3 7 ∅.
Definition second_error : loc * heap :=
  create_error_ex (fun s => Z.of_nat (length s)) 6 1 empty_stack (Some ($"Failed")) 0 None 0 None None 9 1 first_error.2.

Lemma create_error_released_witness : free_error nothing 1 (Some first_error.1) first_error.2 = Some ∅.
Proof. apply (create_error_released nothing); [|done]. intros s [= <-]. by vm_compute. Defined.

(** A payload that holds the address of a block of its own, and its destructor. *)
Definition release_inner (k : nat) (l : loc) (h : heap) : option heap :=
  s ← load_bytes l h; match s with c :: _ => release (N.to_nat (code c)) h | [] => Some h end.

Lemma clone_error_independent_witness :
  exists o' h', clone_error 1 (Some first_error.1) first_error.2 = Some (o', h')
    /\ free_error release_inner 1 o' h' = Some first_error.2.
Proof.
  destruct (create_error_owned (fun s => Z.of_nat (length s)) 5 1 (push_call_frame (Some ($"main")) (Some ($"main.vyb")) 1 1 empty_stack)
    (Some ($"Timeout")) 0 (Some ($"12345678")) 8 None (Some ($"main.vyb")) 3 7 ∅) as (o & h & D & E & _ & O).
  { intros s [= <-]. by vm_compute. }
  fold first_error in E. injection E as <- <-.
  destruct (clone_error_independent release_inner _ _ _ _ 1 O (le_n 1)) as (o' & h' & D' & Ec & _ & _ & _ & R).
  exists o', h'. split; [done|]. apply R. by repeat constructor.
Defined.

(** Setting the cause an error already has releases it and keeps_calls its address:
    the next release of the error reads freed memory. *)
Lemma same_cause_twice :
  (h ← set_error_cause nothing 5 (Some second_error.1) (Some first_error.1) second_error.2;
   free_error nothing 5 (Some second_error.1) h) = Some ∅
  /\ (h ← set_error_cause nothing 5 (Some second_error.1) (Some first_error.1) second_error.2;
      h ← set_error_cause nothing 5 (Some second_error.1) (Some first_error.1) h;
      free_error nothing 5 (Some second_error.1) h) = None.
Proof. split; vm_compute; done. Qed.

(** An error with such a payload. *)
Definition owning_error : loc * heap :=
  let '(l, h) := alloc (BBytes ($"inner")) ∅ in
  create_error_ex (fun _ => 0%Z) 0 0 empty_stack None 0 (Some [ascii_of_nat l]) 1 (Some 0) None 1 1 h.

(** Such an error can be released, but not both it and its clone. *)
Lemma clone_shares_inner :
  free_error release_inner 1 (Some owning_error.1) owning_error.2 = Some ∅
  /\ ('(c, h) ← clone_error 1 (Some owning_error.1) owning_error.2;
      h ← free_error release_inner 1 c h; free_error release_inner 1 (Some owning_error.1) h) = None.
Proof. split; vm_compute; done. Qed.

(** ** Types by name and the report of an untrapped error *)

(** [g_type_id_names] *)
Definition register_typename (type_id : Z) (type_name : option str) (names : gmap Z str) : gmap Z str :=
  match type_name with Some s => <[type_id := s]> names | None => names end.
Definition get_typename (type_id : Z) (names : gmap Z str) : str := default ($"Unknown") (names !! type_id).

Record VybFieldMetadata : Type := mkField { f_name : option str; f_type_name : option str; f_offset : nat }.
Record VybTypeMetadata : Type := mkType { t_type_name : str; t_fields : list VybFieldMetadata }.
Definition MAX_TYPES : nat := 256.

(** [__vyb_register_type] and [__vyb_lookup_type]; the flag says that the
    registry was full. *)
Definition register_type (m : VybTypeMetadata) (reg : list VybTypeMetadata) : list VybTypeMetadata * bool :=
  if MAX_TYPES <=? length reg then (reg, true) else (reg ++ [m], false).
Definition lookup_type (name : str) (reg : list VybTypeMetadata) : option VybTypeMetadata :=
  head (filter (fun m => t_type_name m = name) reg).

(** The field that gives the exit code: the first [exitCode] of type [Int]. *)
Definition exit_field (m : VybTypeMetadata) : option VybFieldMetadata :=
  head (filter (fun f => f_name f = Some ($"exitCode") /\ f_type_name f = Some ($"Int")) (t_fields m)).

(** The signed word at an offset, in little-endian order. *)
Fixpoint le_value (s : str) : Z :=
  match s with [] => 0 | c :: r => Z.of_N (code c) + 256 * le_value r end%Z.
Definition read_int64 (s : str) (offset : nat) : option Z :=
  if offset + 8 <=? length s then Some (s64 (le_value (take 8 (drop offset s)))) else None.

(** The code of [exit], of an error whose payload is [bytes]. *)
Definition untrapped_exit_code (reg : list VybTypeMetadata) (type_name : option str) (bytes : option str) : option Z :=
  match type_name ≫= (fun n => lookup_type n reg), bytes with
  | Some m, Some s =>
      match exit_field m with Some f => to_int32 <$> read_int64 s (f_offset f) | None => Some 1%Z end
  | _, _ => Some 1%Z
  end.
(** What the parent process sees of it. *)
Definition exit_status (code : Z) : Z := (code mod 256)%Z.

(** The line that says where the error was raised; the fields [location] stand
    in for a file that is null and for numbers that are zero. *)
Definition fail_site (path loc_path : option str) (line loc_line column loc_column : Z) : str :=
  let path := match path with Some _ => path | None => loc_path end in
  let line := if (line =? 0)%Z then loc_line else line in
  let column := if (column =? 0)%Z then loc_column else column in
  match path with
  | Some (c :: r) => $"Fail site: " ++ (c :: r) ++ $":" ++ to_string line ++ $":" ++ to_string column
  | _ => $"Fail site: <unknown>"
  end.

Definition abort_type : VybTypeMetadata := mkType ($"Abort") [mkField (Some ($"exitCode")) (Some ($"Int")) 0].

(** The exit code of the payload is used as it is: an untrapped error with the
    code 256 ends the process with the status of success. *)
Lemma untrapped_can_succeed :
  untrapped_exit_code [abort_type] (Some ($"Abort")) (Some (["000"; "001"; "000"; "000"; "000"; "000"; "000"; "000"]%char)) = Some 256%Z
  /\ exit_status 256 = 0%Z.
Proof. by vm_compute. Qed.

(** Without metadata, a payload or such a field the code is 1. *)
Lemma untrapped_default reg tn bytes :
  (forall m, tn ≫= (fun n => lookup_type n reg) = Some m -> exit_field m = None) \/ bytes = None ->
  untrapped_exit_code reg tn bytes = Some 1%Z.
Proof.
  unfold untrapped_exit_code. destruct (tn ≫= _) as [m|] eqn:E; [|done]. intros [H| ->]; [|done].
  rewrite (H m eq_refl). by destruct bytes.
Qed.

(** A registered type is found by its name unless an earlier one has it. *)
Lemma register_lookup m reg n : length reg < MAX_TYPES ->
  lookup_type n (register_type m reg).1 = match lookup_type n reg with
    | Some m' => Some m' | None => if decide (t_type_name m = n) then Some m else None end.
Proof.
  intros L. unfold register_type. replace (MAX_TYPES <=? length reg) with false by (symmetry; by apply Nat.leb_gt).
  unfold lookup_type. cbn [fst]. rewrite filter_app. destruct (filter _ reg); [|done].
  rewrite filter_cons. by case_decide.
Qed.
